(* ===== verification/_CoqProject ===== *)
-Q . S2P
Prelude.v
Atomic.v
ChunkDesc.v
ChunkCtrl.v
ChunkCtrlConc.v
Treiber.v
Pool.v
PoolInv.v
SegBytes.v
PoolClient.v
PoolDraw.v
Pod.v
BorrowJournal.v
JournalConc.v
Ring.v
RingSpec.v
RingConc.v
Protocol.v
Envelope.v
TaskQueue.v
TaskQueueInv.v
TaskQueueSpec.v
TaskQueueProof.v
TaskQueueRefines.v
TaskQueueSweeps.v
TaskQueueClaims.v
TreiberConc.v
Head.v
HeadLease.v
Manifest.v
ManifestCodec.v
Window.v
WindowSpec.v
WindowProof.v
WindowClaims.v
WindowDelta.v
WindowBound.v
Artifact.v
Commit.v
ArtifactRace.v
HeadRecycle.v
Catalog.v
CatalogConc.v
Arrow.v
ArrowLayout.v
ArrowBatch.v
ArrowTyped.v
Batches.v
TypedRef.v
Store.v
StoreBatches.v
StoreRace.v
Segments.v
Coordinator.v
Reclaim.v
Observers.v
PoolState.v
HeadIdle.v
ArtifactChunks.v
ArtifactCommit.v
CatalogIdle.v
JournalBooks.v
ArtifactCell.v
ArtifactTable.v
StoreRest.v
StoreTable.v
ReclaimChunks.v
ReclaimProof.v
RelyGuarantee.v
Registry.v
Stream.v
Node.v
LeaseMonitor.v
Delivery.v
CommitCrash.v
Actors.v
ActorProof.v
ActorRace.v
Hooks.v
HooksProof.v
