(* ===== verification/Prelude.v ===== *)
(** * Shared-memory actors: a verification of the substrate

    The repository is a Rust workspace for actors that share data through
    memory-mapped segments.  At the bottom, [shm-core] divides a segment into
    size-class pools of reference-counted chunks and keeps, for every actor, a
    journal of the references it holds so that a coordinator can give them back
    after a crash.  On it sit a broadcast ring ([shm-ring]), a work queue
    ([shm-task]), versioned tables ([shm-artifact]) and a catalog of such tables
    by key ([shm-store]).  [shm-runtime] is the control plane, a coordinator process spoken
    to over a framed byte protocol, [holon-core] the actors' message format and
    [holon-actor] the actors.

    ** How programs are modelled

    Shared memory is a record of words.  A function that touches shared memory is
    a [prog S A] of file [Atomic]: a tree of atomic actions on the state [S], one
    per atomic access of the source, with everything between two accesses pure.
    The same definition is run alone ([run]), as a thread of an interleaving
    ([pool_step], [pool_reach]), and reasoned about by [wp], a rely-guarantee style
    weakest precondition over a shared invariant and one ghost value per thread.
    Integers are [Z] with the source's wrap-around written out ([wrap32],
    [wrap64], ...).  Fallible functions return [result E A]; an unbounded
    compare-and-swap or retry loop takes fuel and returns [None] when it runs
    out.  A thread whose action is undefined (an index out of range: a panic) is
    stuck, and the theorems on interleavings state that no thread is stuck.

    Memory is sequentially consistent, except in [Hooks], where a publisher's stores also
    pass through a store buffer (C28 depends on it); and a copy of a plain-data descriptor
    or of a manifest's bytes is one action.  [debug_assert]s are not modelled;
    wake-ups, parkers, clocks and watchers are parameters or logs.

    ** Files

    - [Prelude], [Atomic], [Pod]: integers, results, automation; programs
      and their logic; bit lemmas; plain-data words and bytes ([shm-core/pod.rs]).
    - [ChunkDesc], [ChunkCtrl], [ChunkCtrlConc]: descriptors and the chunk state
      machine ([desc.rs], [ctrl.rs]).  [Treiber], [TreiberConc]: the tagged
      lock-free stack that pool, queue and catalog instantiate.  [Pool],
      [PoolInv], [PoolClient]: the pool ([pool.rs]).  [SegBytes]: the bytes of
      a pool's payload.  [BorrowJournal], [JournalConc]: the journal
      ([journal.rs]).
    - [Ring], [RingSpec], [RingConc]: the broadcast ring, its publisher and
      subscribers.  [Hooks], [HooksProof]: how they sleep and are woken
      ([hooks.rs]), and [publish] behind a store buffer; the kernel is the class
      [Doorbell] with its laws.
    - [Protocol]: requests, responses, frames ([protocol.rs], [uds.rs]).
      [Envelope]: messages and dispatch ([holon-core]).
    - [TaskQueue] with its invariant ([TaskQueueInv]), abstract board
      ([TaskQueueSpec]), refinement ([TaskQueueProof], [TaskQueueRefines],
      [TaskQueueSweeps]) and claims ([TaskQueueClaims]).
    - [Head], [HeadLease], [HeadRecycle]: an artifact's head ([head.rs]).
      [Manifest], [ManifestCodec]: manifests and events.  [Window],
      [WindowSpec], [WindowProof], [WindowClaims], [WindowDelta], [WindowBound]:
      commit kinds, window policy and readers as functions of manifests.
      [Artifact], [Commit], [ArtifactRace]: the same operations on memory, with
      pins, references, rollback and retire ([artifact.rs]), over a data segment
      that is a class ([DataSeg]) with the pool as its instance.  [Batches]: commits
      and reads of Arrow batches.  [HeadIdle], [ArtifactChunks], [ArtifactCommit],
      [ArtifactCell], [ArtifactTable]: an artifact used by one session after another
      is a versioned table, whatever the rest of its segment holds.
    - [Catalog], [CatalogConc]: the store's catalog ([catalog.rs]).  [Store],
      [StoreBatches], [StoreRace]: the keyed store over catalog and artifacts
      ([store.rs]).  [CatalogIdle], [JournalBooks], [StoreRest], [StoreTable]: used by
      one session after another it is a map of tables; the first two say what a
      catalog and a journal at rest hold, the others add the artifacts and compose
      them.
      [TypedRef]: typed references to store entries ([typed_ref.rs]).
    - [PoolDraw]: chunks drawn from a pool by one writer.  [Arrow]: schema
      registry, batch layout, writer and reader ([shm-arrow]), the Arrow
      libraries as the classes [ArrowTypes] and [ArrowLib]; [ArrowLayout],
      [ArrowBatch]: their proofs.  [ArrowTyped]: what a read of untrusted chunks
      accepts.
    - [Segments]: creating, attaching and adopting segments ([segment.rs],
      [platform.rs], [platform_linux.rs]); the system calls are the class [ShmOs]
      with the laws [ShmOsLaws] and the model [Sim].  [Stream]: transactional
      writers ([stream.rs]).
    - [Coordinator], [Reclaim], [Observers]: the coordinator's configuration,
      tables and requests; crash reclaim and the lease monitor; its accessors and
      its end ([config.rs], [coordinator.rs]).  [Node]: an actor's side
      ([node.rs]).  All work on one memory: the tables, the system, and the
      contents of every segment by object number.  A hold of the coordinator's
      mutex is one action.
    - [PoolState], [ReclaimChunks], [ReclaimProof]: a pool as abstract control
      words and free lists, and the replay of a journal against it.  [Registry]:
      the tables under interleavings, in a rely-guarantee logic for threads that
      may stop ([RelyGuarantee]).  [LeaseMonitor]: who is found dead.  [Delivery],
      [CommitCrash]: a coordinator with three actors on [Sim], and runs of it.
    - [Actors]: message chunks, hosting and routing, the mailbox loop, tell and ask
      ([holon-actor]), over the queue, a pool and a clock; the handlers are
      programs.  [ActorProof]: message chunks, an ask and its answer.
      [ActorRace]: two runs in which a lease lapses.

    ** What the theorems show

    - Chunks, pools, journal (C1-C5, C10, C11): the control word implements its
      abstract state machine; under any interleaving a chunk is freed once and a
      stale descriptor is refused; pools never hand out a chunk twice and sequences
      of clients leak nothing; the journal's records are claimed and released once.
    - Coordinator, nodes, streams (C6-C9, C19, C22): replaying a dead actor's
      journal gives back exactly its holds; the tables stay consistent and only
      grow under any interleaving of the coordinator's threads and its clock; a turn of the
      monitor finds exactly the dead, once.  Three ways in which crashes and
      deliveries go wrong: a writer killed in the middle of a commit is not
      undone, or its committed data is freed; clean deliveries use up the pool.
    - Ring (C14-C16): alone it refines a broadcast log; interleaved readers
      deliver published messages in order, exactly them while less than a lap behind;
      a reader lapped while it copies delivers a message that was never published at
      its cursor.
    - Wake-ups (C28): with the publisher's stores buffered, as its memory orderings
      allow, a wakeup is lost and the subscriber sleeps on an unread message until its
      timeout; in sequentially consistent interleavings it never does.
    - Protocol and envelopes (C17, C18, C21): codecs accept exactly what the
      encoders produce.
    - Actors (C23, C27): an ask gets exactly the handler's reply and leaves no chunk
      behind; a handler that outlives its lease can make the next holder of its
      message handle another one.
    - Task queue (C24-C26): every operation sequence terminates and refines a task
      board, each step as documented or one of four listed departures; outcomes are
      final, attempts bounded.
    - Stacks (C20, C29): no interleaving loses or duplicates a node; every operation
      ends within as many rounds as there are operations, whatever the schedule.
    - Artifacts (C13, C30-C35): used by one session after another, an artifact is a
      versioned table of batches, and its segment holds that table's chunks and
      nothing else; a fenced writer stays fenced; manifests round-trip;
      readers rebuild the table the commits describe and deltas are exact; the
      window policy bounds table and chain; a stale reclaimer can free the
      current version; a recycled head has no former holder.
    - Store (C12, C36): used by one session after another, a store is a map from keys
      to versioned tables, a full catalog refuses and an evicted slot serves again;
      no two registrations of a catalog share an incarnation.
    - Typed references (C37): one written into a pool chunk is read back
      unchanged; a reader accepts only valid wire forms.
    - Arrow batches (C38-C40): a batch written into chunks is read back as the
      same tree of arrays, a failed write gives its chunks back; the layout check
      is safe on any bytes and accepts exactly what a writer lays out; what a read
      of any bytes offers to Arrow is well typed for the schema.

    ** Bounds and fuel

    Sequential theorems give enough fuel and state that the operation returns: a
    compare-and-swap loop run alone needs one turn, the queue's loops more turns
    than the capacity.  Interleaving theorems hold for any fuel.  Tags, fences
    and generations are 32-bit: the theorems that rely on their not coming round
    assume fewer than 2^32 swaps, releases or registrations; submits fewer than
    2^64 - 1; version histories shorter than 2^32; a coordinator fewer than 2^28 - 16
    requests, so that artifact ids stay below the store's.

    ** Not modelled

    What the operating system does (mappings, futexes, sockets, processes,
    threads), which is an interface here, and so are the Arrow libraries; the
    publication of commit events on their ring, which is a list; the pinned cells
    of [holon-actor] and how an actor system connects; demos, benchmarks and
    spikes, which are programs that use the library.  Weak memory orderings are not
    distinguished otherwise than by the store buffer of [Hooks].  The replay theorem is about chunk pins; the reclaim of artifact pins
    and leases is defined ([Reclaim]) and run ([CommitCrash]). *)

From Stdlib Require Export ZArith Lia.
From stdpp Require Export base tactics list gmap numbers.

#[global] Open Scope Z_scope.

(** ** Automation *)

(** [shm] closes routine range goals: [auto with shm] applies them, [mach] also
    unfolds the widths and calls [lia]. *)
Create HintDb shm.
Create Rewrite HintDb shm_rw.

(** ** Fixed-width unsigned integers

    A Rust [uN] is a [Z] in [0 .. 2^N).  Arithmetic that Rust performs modulo
    [2^N] ([wrapping_add], [as] casts, atomics' [fetch_add]) goes through [wrap];
    [usize] is 64 bits wide (the substrate targets 64-bit POSIX). *)

Definition wrap (w x : Z) : Z := x mod 2 ^ w.

Definition U8_MOD : Z := 256.
Definition U16_MOD : Z := 65536.
Definition U32_MOD : Z := 4294967296.
Definition U64_MOD : Z := 18446744073709551616.
Definition U32_MAX : Z := 4294967295.
Definition U64_MAX : Z := 18446744073709551615.

Definition is_u8 (x : Z) : Prop := 0 <= x < U8_MOD.
Definition is_u16 (x : Z) : Prop := 0 <= x < U16_MOD.
Definition is_u32 (x : Z) : Prop := 0 <= x < U32_MOD.
Definition is_u64 (x : Z) : Prop := 0 <= x < U64_MOD.

Definition wrap8 (x : Z) : Z := wrap 8 x.
Definition wrap16 (x : Z) : Z := wrap 16 x.
Definition wrap32 (x : Z) : Z := wrap 32 x.
Definition wrap64 (x : Z) : Z := wrap 64 x.

Ltac unfold_widths :=
  unfold is_u8, is_u16, is_u32, is_u64, U8_MOD, U16_MOD, U32_MOD, U64_MOD,
    U32_MAX, U64_MAX in *.

Ltac mach := unfold_widths; lia.

#[export] Instance is_u8_dec x : Decision (is_u8 x).
Proof. unfold is_u8. apply _. Defined.
#[export] Instance is_u16_dec x : Decision (is_u16 x).
Proof. unfold is_u16. apply _. Defined.
#[export] Instance is_u32_dec x : Decision (is_u32 x).
Proof. unfold is_u32. apply _. Defined.
#[export] Instance is_u64_dec x : Decision (is_u64 x).
Proof. unfold is_u64. apply _. Defined.

Lemma wrap_bound w x : 0 <= w -> 0 <= wrap w x < 2 ^ w.
Proof. intros Hw. apply Z.mod_pos_bound. apply Z.pow_pos_nonneg; lia. Qed.

Lemma wrap32_u32 x : is_u32 (wrap32 x).
Proof. apply (wrap_bound 32 x). lia. Qed.

Lemma wrap64_u64 x : is_u64 (wrap64 x).
Proof. apply (wrap_bound 64 x). lia. Qed.

Lemma wrap16_u16 x : is_u16 (wrap16 x).
Proof. apply (wrap_bound 16 x). lia. Qed.

Lemma wrap8_u8 x : is_u8 (wrap8 x).
Proof. apply (wrap_bound 8 x). lia. Qed.

Lemma wrap32_id x : is_u32 x -> wrap32 x = x.
Proof. intros Hx. apply Z.mod_small. exact Hx. Qed.

Lemma wrap64_id x : is_u64 x -> wrap64 x = x.
Proof. intros Hx. apply Z.mod_small. exact Hx. Qed.

Lemma wrap16_id x : is_u16 x -> wrap16 x = x.
Proof. intros Hx. apply Z.mod_small. exact Hx. Qed.

Lemma wrap8_id x : is_u8 x -> wrap8 x = x.
Proof. intros Hx. apply Z.mod_small. exact Hx. Qed.

(** A wrapping increment below [2^32 - 1] is an ordinary increment; at the top
    it is zero.  In both cases it changes the value. *)
Lemma wrap32_succ_ne x : is_u32 x -> wrap32 (x + 1) <> x.
Proof.
  intros Hx. unfold wrap32, wrap. change (2 ^ 32) with U32_MOD.
  destruct (Z.eq_dec x U32_MAX) as [->|Hne]; [vm_compute; discriminate|].
  rewrite Z.mod_small; mach.
Qed.

#[export] Hint Resolve wrap32_u32 wrap64_u64 wrap16_u16 wrap8_u8 : shm.
#[export] Hint Rewrite wrap32_id wrap64_id wrap16_id wrap8_id using (first [assumption | mach | auto with shm]) : shm_rw.

(** ** Packing two 32-bit halves into a 64-bit word

    The code packs pairs of [u32] the same way everywhere: state/refcount, stack
    tag/index, lease generation/state, segment/offset, host/local. *)

Definition join32 (hi lo : Z) : Z := Z.lor (Z.shiftl hi 32) lo.
Definition hi32 (w : Z) : Z := wrap32 (Z.shiftr w 32).
Definition lo32 (w : Z) : Z := wrap32 w.

Lemma join32_add hi lo : is_u32 lo -> join32 hi lo = hi * U32_MOD + lo.
Proof.
  intros Hlo. unfold join32. rewrite <- Z.lxor_lor.
  - rewrite <- Z.add_nocarry_lxor.
    + rewrite Z.shiftl_mul_pow2 by lia. reflexivity.
    + apply Z.bits_inj'. intros n Hn. rewrite Z.land_spec, Z.bits_0.
      destruct (Z.lt_ge_cases n 32) as [Hlt|Hge].
      * rewrite Z.shiftl_spec_low by lia. reflexivity.
      * rewrite <- (Z.mod_small lo (2 ^ 32)) by exact Hlo.
        rewrite Z.mod_pow2_bits_high by lia. apply andb_false_r.
  - apply Z.bits_inj'. intros n Hn. rewrite Z.land_spec, Z.bits_0.
    destruct (Z.lt_ge_cases n 32) as [Hlt|Hge].
    + rewrite Z.shiftl_spec_low by lia. reflexivity.
    + rewrite <- (Z.mod_small lo (2 ^ 32)) by exact Hlo.
      rewrite Z.mod_pow2_bits_high by lia. apply andb_false_r.
Qed.

Lemma join32_u64 hi lo : is_u32 hi -> is_u32 lo -> is_u64 (join32 hi lo).
Proof. intros Hhi Hlo. rewrite join32_add by assumption. mach. Qed.

Lemma hi32_join hi lo : is_u32 hi -> is_u32 lo -> hi32 (join32 hi lo) = hi.
Proof.
  intros Hhi Hlo. unfold hi32. rewrite join32_add by assumption.
  rewrite Z.shiftr_div_pow2 by lia. change (2 ^ 32) with U32_MOD.
  rewrite Z.div_add_l by mach. rewrite Z.div_small by exact Hlo.
  rewrite Z.add_0_r. apply wrap32_id. exact Hhi.
Qed.

Lemma lo32_join hi lo : is_u32 lo -> lo32 (join32 hi lo) = lo.
Proof.
  intros Hlo. unfold lo32, wrap32, wrap. rewrite join32_add by assumption.
  change (2 ^ 32) with U32_MOD. rewrite Z.add_comm, Z.mod_add by mach.
  apply Z.mod_small. exact Hlo.
Qed.

Lemma join32_split w : is_u64 w -> join32 (hi32 w) (lo32 w) = w.
Proof.
  intros Hw. rewrite join32_add by (apply wrap32_u32).
  unfold hi32, lo32, wrap32, wrap. change (2 ^ 32) with U32_MOD.
  rewrite Z.shiftr_div_pow2 by lia. change (2 ^ 32) with U32_MOD.
  rewrite (Z.mod_small (w / U32_MOD)).
  - rewrite (Z.div_mod w U32_MOD) at 3 by mach. lia.
  - split; [apply Z.div_pos; mach|apply Z.div_lt_upper_bound; mach].
Qed.

Lemma join32_inj h1 l1 h2 l2 :
  is_u32 h1 -> is_u32 l1 -> is_u32 h2 -> is_u32 l2 ->
  join32 h1 l1 = join32 h2 l2 -> h1 = h2 /\ l1 = l2.
Proof.
  intros ???? E. split.
  - rewrite <- (hi32_join h1 l1), <- (hi32_join h2 l2), E by assumption. done.
  - rewrite <- (lo32_join h1 l1), <- (lo32_join h2 l2), E by assumption. done.
Qed.

Lemma hi32_u32 w : is_u32 (hi32 w).
Proof. apply wrap32_u32. Qed.
Lemma lo32_u32 w : is_u32 (lo32 w).
Proof. apply wrap32_u32. Qed.

#[export] Hint Resolve join32_u64 hi32_u32 lo32_u32 : shm.
#[export] Hint Rewrite hi32_join lo32_join join32_split using (first [assumption | mach | auto with shm]) : shm_rw.

(** ** [align_up]

    Every layout in the workspace rounds with [(x + a - 1) & !(a - 1)] for a
    power of two [a]. *)

Definition align_up (x a : Z) : Z := Z.land (x + a - 1) (Z.lnot (a - 1)).

Lemma align_up_pow2 x k : 0 <= k -> align_up x (2 ^ k) = (x + 2 ^ k - 1) / 2 ^ k * 2 ^ k.
Proof.
  intros Hk. unfold align_up.
  replace (2 ^ k - 1) with (Z.ones k) by (rewrite Z.ones_equiv; lia).
  rewrite <- Z.ldiff_land, Z.ldiff_ones_r by lia.
  rewrite Z.shiftl_mul_pow2, Z.shiftr_div_pow2 by lia. done.
Qed.

Lemma align_up_spec x k : 0 <= k ->
  x <= align_up x (2 ^ k) < x + 2 ^ k /\ (2 ^ k | align_up x (2 ^ k)).
Proof.
  intros Hk. rewrite align_up_pow2 by lia.
  assert (0 < 2 ^ k) by (apply Z.pow_pos_nonneg; lia).
  pose proof (Z.div_mod (x + 2 ^ k - 1) (2 ^ k) ltac:(lia)).
  pose proof (Z.mod_pos_bound (x + 2 ^ k - 1) (2 ^ k) ltac:(lia)).
  split; [lia|]. apply Z.divide_factor_r.
Qed.

(** ** Results

    A Rust [Result<T, E>]. *)

Inductive result (E A : Type) : Type :=
| Ok (a : A)
| Err (e : E).
Arguments Ok {E A} a.
Arguments Err {E A} e.

(** The [?] operator. *)
Definition rbind {E A B : Type} (r : result E A) (k : A -> result E B) : result E B :=
  match r with Ok a => k a | Err e => Err e end.

Definition rmap {E A B : Type} (f : A -> B) (r : result E A) : result E B :=
  match r with Ok a => Ok (f a) | Err e => Err e end.

Declare Scope rust_scope.
Notation "'let?' x := r 'in' k" := (rbind r (fun x => k))
  (at level 10, x pattern, r at level 100, k at level 200) : rust_scope.
#[global] Open Scope rust_scope.

#[export] Instance result_eq_dec E A `{EqDecision E, EqDecision A} : EqDecision (result E A).
Proof. solve_decision. Defined.

Definition is_ok {E A} (r : result E A) : bool :=
  match r with Ok _ => true | Err _ => false end.

(** [ok_or]: [Option::ok_or]. *)
Definition ok_or {E A} (o : option A) (e : E) : result E A :=
  match o with Some a => Ok a | None => Err e end.

Lemma rbind_Ok {E A B} (r : result E A) (k : A -> result E B) b :
  rbind r k = Ok b <-> exists a, r = Ok a /\ k a = Ok b.
Proof. destruct r; cbn; naive_solver. Qed.

(** ** Little-endian byte strings

    Bytes are [Z] in [0 .. 256).  [le_bytes n x] is [x.to_le_bytes()] at width
    [n] bytes; [of_le] is [from_le_bytes]. *)

Fixpoint le_bytes (n : nat) (x : Z) : list Z :=
  match n with
  | O => []
  | S n' => x mod 256 :: le_bytes n' (x / 256)
  end.

Fixpoint of_le (bs : list Z) : Z :=
  match bs with
  | [] => 0
  | b :: bs' => b + 256 * of_le bs'
  end.

Lemma length_le_bytes n x : length (le_bytes n x) = n.
Proof. revert x. induction n; intros x; cbn; [done|]. by rewrite IHn. Qed.

Lemma le_bytes_are_bytes n x : Forall is_u8 (le_bytes n x).
Proof.
  revert x. induction n as [|n IH]; intros x; cbn [le_bytes]; constructor; [|done].
  apply Z.mod_pos_bound. mach.
Qed.

Lemma pow256_succ n : 256 ^ Z.of_nat (S n) = 256 * 256 ^ Z.of_nat n.
Proof. rewrite Nat2Z.inj_succ, Z.pow_succ_r by lia. done. Qed.

Lemma of_le_le_bytes n x : 0 <= x < 256 ^ Z.of_nat n -> of_le (le_bytes n x) = x.
Proof.
  revert x. induction n as [|n IH]; intros x Hx; cbn [le_bytes of_le].
  - cbn in Hx. lia.
  - rewrite pow256_succ in Hx. rewrite IH.
    + pose proof (Z.div_mod x 256 ltac:(lia)). lia.
    + split; [apply Z.div_pos; lia|apply Z.div_lt_upper_bound; lia].
Qed.

Lemma of_le_bound bs : Forall is_u8 bs -> 0 <= of_le bs < 256 ^ Z.of_nat (length bs).
Proof.
  induction 1 as [|b bs Hb _ IH]; cbn [of_le length]; [cbn; lia|].
  rewrite pow256_succ. unfold is_u8, U8_MOD in *. lia.
Qed.

Lemma le_bytes_of_le bs : Forall is_u8 bs -> le_bytes (length bs) (of_le bs) = bs.
Proof.
  induction 1 as [|b bs Hb _ IH]; cbn [of_le length le_bytes]; [done|].
  rewrite (Z.mul_comm 256), Z.mod_add, Z.div_add by lia.
  rewrite Z.mod_small, Z.div_small, Z.add_0_l, IH by exact Hb. done.
Qed.

Lemma of_le_u32 x : is_u32 x -> of_le (le_bytes 4 x) = x.
Proof. intros Hx. apply of_le_le_bytes. exact Hx. Qed.
Lemma of_le_u16 x : is_u16 x -> of_le (le_bytes 2 x) = x.
Proof. intros Hx. apply of_le_le_bytes. exact Hx. Qed.
Lemma of_le_u64 x : is_u64 x -> of_le (le_bytes 8 x) = x.
Proof. intros Hx. apply of_le_le_bytes. exact Hx. Qed.

#[export] Hint Rewrite length_le_bytes of_le_u16 of_le_u32 of_le_u64
  using (first [assumption | mach | auto with shm]) : shm_rw.

(** ** Slices

    [slice_get bs lo hi] is [bs.get(lo..hi)]: [None] when the range is inverted
    or runs past the end. *)

Definition slice_get {A} (bs : list A) (lo hi : nat) : option (list A) :=
  if decide (lo <= hi <= length bs)%nat then Some (take (hi - lo) (drop lo bs)) else None.

Lemma slice_get_app {A} (pre mid post : list A) :
  slice_get (pre ++ mid ++ post) (length pre) (length pre + length mid) = Some mid.
Proof.
  unfold slice_get. rewrite !length_app. rewrite decide_True by lia.
  rewrite drop_app_length. replace (length pre + length mid - length pre)%nat with (length mid) by lia.
  by rewrite take_app_length.
Qed.

Lemma slice_get_length {A} (bs : list A) lo hi s : slice_get bs lo hi = Some s -> length s = (hi - lo)%nat.
Proof.
  unfold slice_get. case_decide; [|done]. intros [= <-].
  rewrite length_take, length_drop. lia.
Qed.

Lemma slice_get_bytes bs lo hi s : Forall is_u8 bs -> slice_get bs lo hi = Some s -> Forall is_u8 s.
Proof.
  unfold slice_get. case_decide; [|done]. intros Hb [= <-].
  apply Forall_take, Forall_drop, Hb.
Qed.

(** ** Arrays indexed by a [u32] *)

Definition at_index {A} (l : list A) (i : Z) : option A := if 0 <=? i then l !! Z.to_nat i else None.

Definition below (n : nat) (i : Z) : Prop := 0 <= i < Z.of_nat n.

Lemma at_index_below {A} (l : list A) i : below (length l) i -> exists x, at_index l i = Some x /\ l !! Z.to_nat i = Some x.
Proof.
  intros [H1 H2]. unfold at_index. rewrite (proj2 (Z.leb_le 0 i)) by done.
  destruct (lookup_lt_is_Some_2 l (Z.to_nat i)) as [x Hx]; [lia|]. eauto.
Qed.

Lemma at_index_insert {A} (l : list A) i j x :
  below (length l) i -> at_index (<[Z.to_nat i := x]> l) j = if decide (i = j) then Some x else at_index l j.
Proof.
  intros [H1 H2]. unfold at_index. destruct (Z.leb_spec 0 j).
  - destruct (decide (i = j)) as [<-|Hne]; [by rewrite list_lookup_insert_eq by lia|].
    by rewrite list_lookup_insert_ne by lia.
  - by rewrite decide_False by lia.
Qed.

Lemma at_index_insert_same {A B} (f : A -> B) (l : list A) i x y j :
  l !! i = Some x -> f y = f x -> f <$> at_index (<[i := y]> l) j = f <$> at_index l j.
Proof.
  intros Hx Hf. unfold at_index. case_match; [|done]. rewrite list_lookup_insert. case_decide as Hd; [|done].
  destruct Hd as [<- _]. by rewrite Hx; cbn; rewrite Hf.
Qed.

(** ** Lists *)

Lemma Forall2_conj {A B} (P Q : A -> B -> Prop) l k : Forall2 (fun a b => P a b /\ Q a b) l k <-> Forall2 P l k /\ Forall2 Q l k.
Proof.
  split; [intros H; split; (eapply Forall2_impl; [|exact H]); naive_solver|].
  intros [H1 H2]. induction H1; inversion_clear H2; constructor; auto.
Qed.
