(* ===== verification/Atomic.v ===== *)
(** * Programs over shared memory

    Every shared-memory routine of the workspace is a sequence of atomic accesses
    (loads, stores, read-modify-writes) to words that other threads and processes
    may touch between any two of them.  A routine is therefore modelled once, as a
    [prog S A]: a tree of atomic actions on the component's memory [S] that ends
    with a result in [A].  The same text is given two semantics:

    - [run] executes it alone (what a single caller observes);
    - [pool_step] interleaves the atomic actions of any number of threads.

    An action returns [None] when the access it stands for is out of bounds of
    the mapped object, so [run p s <> None] is a memory-safety statement about the
    [unsafe] pointer arithmetic behind it.

    Interleavings are sequentially consistent.  The [Ordering] arguments of the
    source are therefore not represented; fences and the Dekker pairings of the
    code are what make its hot paths sequentially consistent in the first place.

    A compare-and-swap loop runs for as long as other threads keep winning, so it
    takes fuel ([retry]) and returns [None] when it has lost that many rounds.
    Theorems about [run] show that one round is enough without interference;
    safety theorems about interleavings hold for every fuel.
    [compare_exchange_weak] is read as [compare_exchange]: a spurious failure
    re-executes the round exactly as a lost race does. *)

From S2P Require Import Prelude.

(** ** Syntax *)

Inductive prog (S A : Type) : Type :=
| Ret (a : A)
| Atomic (R : Set) (f : S -> option (R * S)) (k : R -> prog S A).
Arguments Ret {S A} a.
Arguments Atomic {S A R} f k.

Fixpoint pbind {S A B} (p : prog S A) (k : A -> prog S B) : prog S B :=
  match p with
  | Ret a => k a
  | Atomic f k' => Atomic f (fun r => pbind (k' r) k)
  end.

Declare Scope prog_scope.
Notation "x <- p ;; k" := (pbind p (fun x => k))
  (at level 100, p at next level, k at level 200, right associativity) : prog_scope.
Notation "p ;;; k" := (pbind p (fun _ => k))
  (at level 100, k at level 200, right associativity) : prog_scope.
#[global] Open Scope prog_scope.

(** [act f] performs the single atomic action [f]. *)
Definition act {S} {R : Set} (f : S -> option (R * S)) : prog S R := Atomic f Ret.

(** A panic: the thread stays here. *)
Definition fault {S A} : prog S A := Atomic (R := Empty_set) (fun _ => None) (fun r => match r with end).

(** A compare-and-swap loop: [body] either asks for another round with a new
    local state or finishes. *)
Fixpoint retry {S B C} (fuel : nat) (body : B -> prog S (B + C)) (b : B) : prog S (option C) :=
  match fuel with
  | O => Ret None
  | S fuel' =>
      x <- body b ;;
      match x with
      | inl b' => retry fuel' body b'
      | inr c => Ret (Some c)
      end
  end.

(** [for x in xs { ... }] with an early [return]: [body] yields [Some c] to
    return [c] from the enclosing function. *)
Fixpoint for_each {S X C} (xs : list X) (body : X -> prog S (option C)) : prog S (option C) :=
  match xs with
  | [] => Ret None
  | x :: xs' =>
      r <- body x ;;
      match r with
      | Some c => Ret (Some c)
      | None => for_each xs' body
      end
  end.

(** [for x in xs { acc = ...; }] *)
Fixpoint for_fold {S X C} (xs : list X) (body : C -> X -> prog S C) (acc : C) : prog S C :=
  match xs with
  | [] => Ret acc
  | x :: xs' => acc' <- body acc x ;; for_fold xs' body acc'
  end.

(** Programs whose compare-and-swap loops may run out of fuel return an [option];
    sequencing them propagates [None]. *)
Definition fbind {S A B} (p : prog S (option A)) (k : A -> prog S (option B)) : prog S (option B) :=
  o <- p ;; match o with Some a => k a | None => Ret None end.
Notation "x <-- p ;; k" := (fbind p (fun x => k))
  (at level 100, p at next level, k at level 200, right associativity) : prog_scope.
Definition done {S A} (a : A) : prog S (option A) := Ret (Some a).

(** [loop { ... }] whose rounds themselves contain such loops. *)
Fixpoint loop {S B C} (fuel : nat) (body : B -> prog S (option (B + C))) (b : B) : prog S (option C) :=
  match fuel with
  | O => Ret None
  | S fuel' =>
      x <-- body b ;;
      match x with
      | inl b' => loop fuel' body b'
      | inr c => done c
      end
  end.

(** [for x in xs { ... }] with an early [break]/[return], likewise. *)
Fixpoint loop_each {S X C} (xs : list X) (body : X -> prog S (option (option C))) : prog S (option (option C)) :=
  match xs with
  | [] => done None
  | x :: xs' =>
      r <-- body x ;;
      match r with
      | Some c => done (Some c)
      | None => loop_each xs' body
      end
  end.

Fixpoint loop_fold {S X C} (xs : list X) (body : C -> X -> prog S (option C)) (acc : C) : prog S (option C) :=
  match xs with
  | [] => done acc
  | x :: xs' => acc' <-- body acc x ;; loop_fold xs' body acc'
  end.

(** ** Execution alone *)

Fixpoint run {S A} (p : prog S A) (s : S) : option (A * S) :=
  match p with
  | Ret a => Some (a, s)
  | Atomic f k =>
      match f s with
      | Some (r, s') => run (k r) s'
      | None => None
      end
  end.

Lemma run_bind {S A B} (p : prog S A) (k : A -> prog S B) s :
  run (pbind p k) s = match run p s with Some (a, s') => run (k a) s' | None => None end.
Proof.
  revert s. induction p as [a|R f k' IH]; intros s; [done|].
  cbn. destruct (f s) as [[r s']|]; [apply IH|done].
Qed.

Lemma run_act {S} {R : Set} (f : S -> option (R * S)) s : run (act f) s = f s.
Proof. unfold act. cbn. destruct (f s) as [[r s']|]; done. Qed.

Lemma run_bind_Some {S A B} (p : prog S A) (k : A -> prog S B) s a s' :
  run p s = Some (a, s') -> run (pbind p k) s = run (k a) s'.
Proof. intros H. by rewrite run_bind, H. Qed.

Lemma run_retry_done {S B C} n (body : B -> prog S (B + C)) b s c s' :
  run (body b) s = Some (inr c, s') -> run (retry (Datatypes.S n) body b) s = Some (Some c, s').
Proof. intros H. cbn [retry]. by rewrite run_bind, H. Qed.

(** Total correctness of a run alone: every access is in bounds, every loop ends
    within its fuel, and the result satisfies [Q]. *)
Definition terminates {S A} (p : prog S (option A)) (Q : A -> S -> Prop) (s : S) : Prop :=
  match run p s with Some (Some a, s') => Q a s' | _ => False end.

Lemma terminates_run {S A} (p : prog S (option A)) Q s :
  terminates p Q s <-> exists a s', run p s = Some (Some a, s') /\ Q a s'.
Proof. unfold terminates. destruct (run p s) as [[[a|] s']|]; naive_solver. Qed.

Lemma terminates_mono {S A} (p : prog S (option A)) (Q Q' : A -> S -> Prop) s :
  (forall a s', Q a s' -> Q' a s') -> terminates p Q s -> terminates p Q' s.
Proof. rewrite !terminates_run. naive_solver. Qed.

Lemma terminates_done {S A} (a : A) (Q : A -> S -> Prop) s : Q a s -> terminates (done a) Q s.
Proof. done. Qed.

Lemma terminates_fbind {S A B} (p : prog S (option A)) (k : A -> prog S (option B)) Q s :
  terminates p (fun a s' => terminates (k a) Q s') s -> terminates (fbind p k) Q s.
Proof.
  rewrite terminates_run. intros (a & s' & E & H). unfold terminates, fbind in *.
  rewrite run_bind, E. exact H.
Qed.

Lemma terminates_bind {S A B} (p : prog S A) (k : A -> prog S (option B)) Q s a s' :
  run p s = Some (a, s') -> terminates (k a) Q s' -> terminates (pbind p k) Q s.
Proof. intros E H. unfold terminates in *. by rewrite run_bind, E. Qed.

(** An invariant indexed by the rest of the list. *)
Lemma terminates_each {S X C} (xs : list X) (body : X -> prog S (option (option C)))
    (P : list X -> S -> Prop) (Q : option C -> S -> Prop) s :
  P xs s ->
  (forall x xs s, P (x :: xs) s ->
    terminates (body x) (fun r s' => match r with None => P xs s' | Some c => Q (Some c) s' end) s) ->
  (forall s, P [] s -> Q None s) ->
  terminates (loop_each xs body) Q s.
Proof.
  intros HP Hb Hn. revert s HP. induction xs as [|x xs IH]; intros s HP; [by apply Hn|].
  cbn [loop_each]. apply terminates_fbind. eapply terminates_mono; [|by apply Hb].
  intros [c|] s' H; [done|by apply IH].
Qed.

Lemma terminates_fold {S X C} (xs : list X) (body : C -> X -> prog S (option C)) acc
    (P : list X -> C -> S -> Prop) (Q : C -> S -> Prop) s :
  P xs acc s ->
  (forall x xs acc s, P (x :: xs) acc s -> terminates (body acc x) (fun acc' s' => P xs acc' s') s) ->
  (forall acc s, P [] acc s -> Q acc s) ->
  terminates (loop_fold xs body acc) Q s.
Proof.
  intros HP Hb Hn. revert acc s HP. induction xs as [|x xs IH]; intros acc s HP; [by apply Hn|].
  cbn [loop_fold]. apply terminates_fbind. eapply terminates_mono; [|by apply Hb].
  intros acc' s' H. by apply IH.
Qed.

(** A loop ends within its fuel when every further round decreases a measure. *)
Lemma terminates_loop {S B C} fuel (body : B -> prog S (option (B + C))) b
    (P : nat -> B -> S -> Prop) (Q : C -> S -> Prop) n s :
  P n b s -> (n < fuel)%nat ->
  (forall n b s, P n b s -> terminates (body b) (fun x s' =>
     match x with inl b' => exists n', (n' < n)%nat /\ P n' b' s' | inr c => Q c s' end) s) ->
  terminates (loop fuel body b) Q s.
Proof.
  intros HP Hf Hb. revert n b s HP Hf. induction fuel as [|fuel IH]; intros n b s HP Hf; [lia|].
  cbn [loop]. apply terminates_fbind. eapply terminates_mono; [|by apply (Hb n)].
  intros [b'|c] s'; [|done]. intros (n' & Hn & HP'). apply (IH n'); [done|lia].
Qed.

(** ** Interleaved execution *)

Section pool.
Context {S A : Type}.

(** One thread, [i], performs its next atomic action. *)
Inductive pool_step : list (prog S A) * S -> list (prog S A) * S -> Prop :=
| pool_step_atomic i (R : Set) (f : S -> option (R * S)) k tp s r s' :
    tp !! i = Some (Atomic f k) ->
    f s = Some (r, s') ->
    pool_step (tp, s) (<[i := k r]> tp, s').

(** Some thread's next access is out of bounds. *)
Definition pool_stuck (c : list (prog S A) * S) : Prop :=
  exists i (R : Set) (f : S -> option (R * S)) k, c.1 !! i = Some (Atomic f k) /\ f c.2 = None.

Definition pool_reach : relation (list (prog S A) * S) := rtc pool_step.

(** An executable scheduler: run the threads named by [sched], one action each. *)
Fixpoint pool_run (sched : list nat) (c : list (prog S A) * S) : option (list (prog S A) * S) :=
  match sched with
  | [] => Some c
  | i :: sched' =>
      match c.1 !! i with
      | Some (Atomic f k) =>
          match f c.2 with
          | Some (r, s') => pool_run sched' (<[i := k r]> c.1, s')
          | None => None
          end
      | _ => None
      end
  end.

Lemma pool_run_reach sched c c' : pool_run sched c = Some c' -> pool_reach c c'.
Proof.
  revert c. induction sched as [|i sched IH]; intros [tp s]; cbn.
  - intros [= <-]. apply rtc_refl.
  - destruct (tp !! i) as [[a|R f k]|] eqn:Hi; try done.
    destruct (f s) as [[r s']|] eqn:Hf; [|done].
    intros H. eapply rtc_l; [|apply IH; exact H]. by econstructor.
Qed.

(** Where a schedule leads; it stops changing anything at an impossible step. *)
Definition pool_after (sched : list nat) (c : list (prog S A) * S) : list (prog S A) * S :=
  default c (pool_run sched c).

Lemma pool_after_reach sched c : pool_reach c ((pool_after sched c).1, (pool_after sched c).2).
Proof.
  rewrite <- surjective_pairing. unfold pool_after. destruct (pool_run sched c) as [c'|] eqn:E; cbn.
  - by apply (pool_run_reach sched).
  - apply rtc_refl.
Qed.

(** ** Invariants of interleavings

    [G] is the ghost state of a thread: what it owns.  [Inv s gs] relates the
    shared memory to what all threads own.  [wp p i g Q] says that thread [i],
    owning [g], only performs in-bounds actions that preserve [Inv] for some
    update of its own ghost state, and ends with a result satisfying [Q]. *)

Context {G : Type} (Inv : S -> list G -> Prop).

Fixpoint wp {X : Type} (p : prog S X) (i : nat) (g : G) (Q : X -> G -> Prop) : Prop :=
  match p with
  | Ret a => Q a g
  | Atomic f k =>
      forall s gs, gs !! i = Some g -> Inv s gs ->
        match f s with
        | None => False
        | Some (r, s') => exists g', Inv s' (<[i := g']> gs) /\ wp (k r) i g' Q
        end
  end.

Lemma wp_mono {X} (p : prog S X) i g (Q Q' : X -> G -> Prop) :
  (forall a g', Q a g' -> Q' a g') -> wp p i g Q -> wp p i g Q'.
Proof.
  intros HQ. revert g. induction p as [a|R f k IH]; intros g; cbn; [apply HQ|].
  intros H s gs Hg HI. specialize (H s gs Hg HI).
  destruct (f s) as [[r s']|]; [|done].
  destruct H as (g' & HI' & Hwp). eauto.
Qed.

Lemma wp_bind {X Y} (p : prog S X) (k : X -> prog S Y) i g Q :
  wp p i g (fun a g' => wp (k a) i g' Q) -> wp (pbind p k) i g Q.
Proof.
  revert g. induction p as [a|R f k' IH]; intros g; cbn; [done|].
  intros H s gs Hg HI. specialize (H s gs Hg HI).
  destruct (f s) as [[r s']|]; [|done].
  destruct H as (g' & HI' & Hwp). eauto.
Qed.

(** A loop invariant for [retry]. *)
Lemma wp_retry {B C} fuel (body : B -> prog S (B + C)) b i g (P : B -> G -> Prop)
    (Q : option C -> G -> Prop) :
  P b g ->
  (forall b g, P b g ->
    wp (body b) i g (fun x g' =>
      match x with inl b' => P b' g' | inr c => Q (Some c) g' end)) ->
  (forall b g, P b g -> Q None g) ->
  wp (retry fuel body b) i g Q.
Proof.
  intros HP Hbody Hnone. revert b g HP. induction fuel as [|n IH]; intros b g HP.
  - exact (Hnone b g HP).
  - apply wp_bind. eapply wp_mono; [|apply Hbody; exact HP].
    intros [b'|c] g'; cbn; eauto.
Qed.

(** A loop invariant for [for_each]. *)
Lemma wp_for_each {X C} (xs : list X) (body : X -> prog S (option C)) i g (P : G -> Prop)
    (Q : option C -> G -> Prop) :
  P g ->
  (forall x g, x ∈ xs -> P g ->
    wp (body x) i g (fun r g' => match r with None => P g' | Some c => Q (Some c) g' end)) ->
  (forall g, P g -> Q None g) ->
  wp (for_each xs body) i g Q.
Proof.
  intros HP Hbody Hnone. revert g HP. induction xs as [|x xs IH]; intros g HP.
  - exact (Hnone g HP).
  - apply wp_bind. eapply wp_mono; [|apply Hbody; [apply list_elem_of_here|exact HP]].
    intros [c|] g'; cbn; [done|]. intros HP'. apply IH; [|done].
    intros y h Hy. apply Hbody. by apply list_elem_of_further.
Qed.

(** All threads are verified against [Q]. *)
Definition pool_ok (Q : A -> G -> Prop) (tp : list (prog S A)) (gs : list G) : Prop :=
  length tp = length gs /\
  forall i p g, tp !! i = Some p -> gs !! i = Some g -> wp p i g Q.

Lemma pool_ok_step Q tp s tp' s' gs :
  pool_step (tp, s) (tp', s') -> pool_ok Q tp gs -> Inv s gs ->
  exists gs', pool_ok Q tp' gs' /\ Inv s' gs'.
Proof.
  intros Hstep [Hlen Hok] HI. inversion Hstep as [i R f k tp0 s0 r s0' Hi Hf]; subst.
  destruct (lookup_lt_is_Some_2 gs i) as [g Hg].
  { rewrite <- Hlen. eapply lookup_lt_Some; eauto. }
  pose proof (Hok i _ g Hi Hg) as Hwp. cbn in Hwp.
  specialize (Hwp s gs Hg HI). rewrite Hf in Hwp.
  destruct Hwp as (g' & HI' & Hwp'). exists (<[i := g']> gs). split; [|done].
  split; [by rewrite !length_insert|].
  intros j p h Hj Hh. destruct (decide (i = j)) as [<-|Hne].
  - rewrite list_lookup_insert_eq in Hj by (eapply lookup_lt_Some; eauto).
    rewrite list_lookup_insert_eq in Hh by (eapply lookup_lt_Some; eauto).
    by simplify_eq.
  - rewrite list_lookup_insert_ne in Hj by done.
    rewrite list_lookup_insert_ne in Hh by done. eauto.
Qed.

(** Soundness: the invariant holds in every reachable state and no reachable
    state is stuck. *)
Lemma pool_ok_reach Q tp s tp' s' gs :
  pool_reach (tp, s) (tp', s') -> pool_ok Q tp gs -> Inv s gs ->
  exists gs', pool_ok Q tp' gs' /\ Inv s' gs'.
Proof.
  intros H. remember (tp, s) as c eqn:Hc. remember (tp', s') as c' eqn:Hc'.
  revert tp s tp' s' gs Hc Hc'. induction H as [c|c [tp1 s1] c2 Hstep _ IH];
    intros tp s tp' s' gs -> Hc' Hok HI; simplify_eq; [eauto|].
  destruct (pool_ok_step Q tp s tp1 s1 gs Hstep Hok HI) as (gs1 & Hok1 & HI1).
  by eapply IH.
Qed.

Lemma pool_ok_not_stuck Q tp s gs : pool_ok Q tp gs -> Inv s gs -> ~ pool_stuck (tp, s).
Proof.
  intros [Hlen Hok] HI (i & R & f & k & Hi & Hf). cbn in *.
  destruct (lookup_lt_is_Some_2 gs i) as [g Hg].
  { rewrite <- Hlen. eapply lookup_lt_Some; eauto. }
  specialize (Hok i _ g Hi Hg). cbn in Hok. specialize (Hok s gs Hg HI).
  by rewrite Hf in Hok.
Qed.

End pool.

Arguments pool_ok {S A G} Inv Q tp gs.

(** ** Focusing a program on part of the memory

    A routine written for one record ([prog C A]) runs inside a larger memory
    [M] through a focus: how an action on the part acts on the whole.  Shared
    arrays (slot tables, control arrays, bitmaps) are lists; an index out of range
    is the out-of-bounds access the [unsafe] code must never make. *)

Definition focus (M C : Type) : Type :=
  forall R : Set, (C -> option (R * C)) -> M -> option (R * M).

Fixpoint lift {M C A} (fo : focus M C) (p : prog C A) : prog M A :=
  match p with
  | Ret a => Ret a
  | Atomic f k => Atomic (fo _ f) (fun r => lift fo (k r))
  end.

(** Focus on a component. *)
Definition field {M C : Type} (get : M -> C) (set : C -> M -> M) : focus M C :=
  fun R f m =>
    match f (get m) with
    | Some (r, c') => Some (r, set c' m)
    | None => None
    end.

(** Focus on element [i] of an array component. *)
Definition elem {M C : Type} (get : M -> list C) (set : list C -> M -> M) (i : nat) : focus M C :=
  fun R f m =>
    match get m !! i with
    | Some c =>
        match f c with
        | Some (r, c') => Some (r, set (<[i := c']> (get m)) m)
        | None => None
        end
    | None => None
    end.

(** The usual lens laws of a component. *)
Record lens_ok {M C : Type} (get : M -> C) (set : C -> M -> M) : Prop := {
  lens_get_set c m : get (set c m) = c;
  lens_set_get m : set (get m) m = m;
  lens_set_set c c' m : set c' (set c m) = set c' m
}.

Lemma run_lift_field {M C A} (get : M -> C) set (p : prog C A) m :
  lens_ok get set ->
  run (lift (field get set) p) m =
    match run p (get m) with Some (a, c') => Some (a, set c' m) | None => None end.
Proof.
  intros [Hgs Hsg Hss]. revert m. induction p as [a|R f k IH]; intros m; cbn.
  - by rewrite Hsg.
  - unfold field at 1. destruct (f (get m)) as [[r c']|]; [|done].
    rewrite IH, Hgs. destruct (run (k r) c') as [[a c'']|]; [|done]. by rewrite Hss.
Qed.

Lemma run_lift_elem {M C A} (get : M -> list C) set i (p : prog C A) m c :
  lens_ok get set -> get m !! i = Some c ->
  run (lift (elem get set i) p) m =
    match run p c with
    | Some (a, c') => Some (a, set (<[i := c']> (get m)) m)
    | None => None
    end.
Proof.
  intros [Hgs Hsg Hss]. revert m c. induction p as [a|R f k IH]; intros m c Hc; cbn.
  - by rewrite list_insert_id, Hsg.
  - unfold elem at 1. rewrite Hc. destruct (f c) as [[r c']|]; [|done].
    rewrite (IH r _ c').
    + destruct (run (k r) c') as [[a c'']|]; [|done].
      by rewrite Hss, Hgs, list_insert_insert_eq.
    + rewrite Hgs. apply list_lookup_insert_eq. eapply lookup_lt_Some; eauto.
Qed.

(** Verifying a focused program piece by piece. *)
Lemma wp_lift_bind {M C G X Y} (Inv : M -> list G -> Prop) (fo : focus M C) (p : prog C X) (k : X -> prog C Y) i g Q :
  wp Inv (lift fo p) i g (fun a g' => wp Inv (lift fo (k a)) i g' Q) -> wp Inv (lift fo (pbind p k)) i g Q.
Proof.
  revert g. induction p as [a|R f k' IH]; intros g; cbn; [done|].
  intros H s gs Hg HI. specialize (H s gs Hg HI). destruct (fo R f s) as [[r s']|]; [|done].
  destruct H as (g' & HI' & Hwp). eauto.
Qed.

Lemma wp_lift_retry {M C G B X} (Inv : M -> list G -> Prop) (fo : focus M C) fuel (body : B -> prog C (B + X)) b i g
    (P : B -> G -> Prop) (Q : option X -> G -> Prop) :
  P b g ->
  (forall b g, P b g -> wp Inv (lift fo (body b)) i g (fun x g' => match x with inl b' => P b' g' | inr c => Q (Some c) g' end)) ->
  (forall b g, P b g -> Q None g) ->
  wp Inv (lift fo (retry fuel body b)) i g Q.
Proof.
  intros HP Hbody Hnone. revert b g HP. induction fuel as [|n IH]; intros b g HP; [exact (Hnone b g HP)|].
  cbn [retry]. apply wp_lift_bind. eapply wp_mono; [|apply Hbody; exact HP]. intros [b'|x] g'; cbn; eauto.
Qed.

Lemma wp_fbind {M G X Y} (Inv : M -> list G -> Prop) (p : prog M (option X)) (k : X -> prog M (option Y)) i g Q :
  wp Inv p i g (fun o g' => match o with Some a => wp Inv (k a) i g' Q | None => Q None g' end) ->
  wp Inv (fbind p k) i g Q.
Proof. intros H. apply wp_bind. eapply wp_mono; [|exact H]. by intros [a|] g'. Qed.

(** Actions on a record held as a whole. *)
Definition load {C : Type} {R : Set} (f : C -> R) : prog C R := act (fun c => Some (f c, c)).
Definition store {C : Type} (g : C -> C) : prog C unit := act (fun c => Some (tt, g c)).
(** [compare_exchange]: [(true, old)] on success, [(false, current)] otherwise. *)
Definition cas {C : Type} (get : C -> Z) (set : Z -> C -> C) (old new : Z) : prog C (bool * Z) :=
  act (fun c => if get c =? old then Some ((true, old), set new c) else Some ((false, get c), c)).
(** [fetch_add] modulo [2^32]; returns the previous value. *)
Definition fetch_add32 {C : Type} (get : C -> Z) (set : Z -> C -> C) (d : Z) : prog C Z :=
  act (fun c => Some (get c, set (wrap32 (get c + d)) c)).

(** ** Loops that only the last iteration changes *)

Lemma run_for_each_none {S X C} (xs : list X) (body : X -> prog S (option C)) s :
  (forall x, x ∈ xs -> run (body x) s = Some (None, s)) -> run (for_each xs body) s = Some (None, s).
Proof.
  induction xs as [|x xs IH]; intros H; [done|]. cbn [for_each].
  rewrite run_bind, (H x) by apply list_elem_of_here. apply IH. intros y Hy. apply H.
  by apply list_elem_of_further.
Qed.

Lemma run_for_each_first {S X C} (pre : list X) x post (body : X -> prog S (option C)) s c s' :
  (forall y, y ∈ pre -> run (body y) s = Some (None, s)) -> run (body x) s = Some (Some c, s') ->
  run (for_each (pre ++ x :: post) body) s = Some (Some c, s').
Proof.
  intros Hpre Hx. induction pre as [|y pre IH]; cbn [app for_each]; rewrite run_bind.
  - by rewrite Hx.
  - rewrite (Hpre y) by apply list_elem_of_here. apply IH. intros z Hz. apply Hpre.
    by apply list_elem_of_further.
Qed.

(** A fold whose body only reads computes a pure fold. *)
Lemma run_for_fold_pure {S X C} (xs : list X) (body : C -> X -> prog S C) (f : C -> X -> C) acc s :
  (forall a x, x ∈ xs -> run (body a x) s = Some (f a x, s)) ->
  run (for_fold xs body acc) s = Some (foldl f acc xs, s).
Proof.
  revert acc. induction xs as [|x xs IH]; intros acc H; [done|]. cbn [for_fold foldl].
  rewrite run_bind, (H acc x) by apply list_elem_of_here. apply IH. intros a y Hy. apply H.
  by apply list_elem_of_further.
Qed.

(** ** Sums over threads *)

Lemma sum_list_with_insert {X} (f : X -> nat) (l : list X) i x y :
  l !! i = Some x -> (sum_list_with f (<[i := y]> l) + f x = sum_list_with f l + f y)%nat.
Proof.
  revert i. induction l as [|z l IH]; intros [|i] H; csimpl in *; simplify_eq; [lia|].
  specialize (IH i H). lia.
Qed.

Lemma sum_list_with_lookup {X} (f : X -> nat) (l : list X) i x :
  l !! i = Some x -> (f x <= sum_list_with f l)%nat.
Proof.
  revert i. induction l as [|z l IH]; intros [|i] H; cbn in *; simplify_eq; [lia|].
  specialize (IH i H). lia.
Qed.

(** ** Guarantees

    [spends free paid p n]: whatever the memory, every action of [p] changes it as
    [free] allows, except for at most [n] actions, which change it as [paid] allows.
    No ghost state is involved, so guarantees compose over interleavings by counting. *)

Section guarantee.
Context {S : Type} (free paid : S -> S -> Prop).

Fixpoint spends {A} (p : prog S A) (n : nat) : Prop :=
  match p with
  | Ret _ => True
  | Atomic f k =>
      forall s r s', f s = Some (r, s') ->
        (free s s' /\ spends (k r) n) \/
        exists n', n = Datatypes.S n' /\ paid s s' /\ spends (k r) n'
  end.

(** [n] paid changes, and any number of free ones. *)
Inductive changes : nat -> S -> S -> Prop :=
| changes_refl s : changes 0 s s
| changes_free n s s' s'' : free s s' -> changes n s' s'' -> changes n s s''
| changes_paid n s s' s'' : paid s s' -> changes n s' s'' -> changes (Datatypes.S n) s s''.

Lemma spends_mono {A} (p : prog S A) n m : (n <= m)%nat -> spends p n -> spends p m.
Proof.
  revert n m. induction p as [a|R f k IH]; intros n m Hle; cbn; [done|].
  intros H s r s' E. destruct (H s r s' E) as [[? ?]|(n' & -> & ? & ?)]; [left; eauto|].
  right. destruct m as [|m]; [lia|]. exists m. split_and!; try done. eapply IH; [|done]. lia.
Qed.

Lemma spends_bind {A B} (p : prog S A) (k : A -> prog S B) n m :
  spends p n -> (forall a, spends (k a) m) -> spends (pbind p k) (n + m).
Proof.
  intros Hp Hk. revert n Hp. induction p as [a|R f k' IH]; intros n Hp; cbn.
  - eapply spends_mono; [|apply Hk]. lia.
  - intros s r s' E. destruct (Hp s r s' E) as [[? ?]|(n' & -> & ? & ?)]; [left; eauto|].
    right. exists (n' + m)%nat. eauto.
Qed.

Lemma spends_retry {B C} fuel (body : B -> prog S (B + C)) b n :
  (forall b k, (forall b', spends (k (inl b')) n) -> (forall c, spends (k (inr c)) 0) ->
    spends (x <- body b ;; k x : prog S (option C)) n) ->
  spends (retry fuel body b) n.
Proof.
  intros Hb. revert b. induction fuel as [|fuel IH]; intros b; [done|].
  cbn [retry]. by apply Hb.
Qed.

Lemma pool_changes {A} (tp : list (prog S A)) s tp' s' ns :
  pool_reach (tp, s) (tp', s') -> length ns = length tp ->
  (forall i p n, tp !! i = Some p -> ns !! i = Some n -> spends p n) ->
  exists m ns', changes m s s' /\ (m + sum_list ns' = sum_list ns)%nat /\ length ns' = length tp' /\
    forall i p n, tp' !! i = Some p -> ns' !! i = Some n -> spends p n.
Proof.
  intros H. remember (tp, s) as c eqn:Hc. remember (tp', s') as c' eqn:Hc'.
  revert tp s ns Hc. induction H as [c|c [tp1 s1] c2 Hstep _ IH]; intros tp s ns -> Hlen Hsp.
  { simplify_eq. exists 0%nat, ns. split_and!; [constructor|lia|done|done]. }
  inversion Hstep as [i R f k tp0 s0 r s0' Hi Hf]; subst.
  destruct (lookup_lt_is_Some_2 ns i) as [n Hn]; [rewrite Hlen; by eapply lookup_lt_Some|].
  assert (Hother : forall n', spends (k r) n' -> forall j p x, <[i := k r]> tp !! j = Some p ->
    <[i := n']> ns !! j = Some x -> spends p x).
  { intros n' Hk j p x Hj Hx. destruct (decide (i = j)) as [<-|Hne].
    - rewrite list_lookup_insert_eq in Hj by (by eapply lookup_lt_Some).
      rewrite list_lookup_insert_eq in Hx by (by eapply lookup_lt_Some). by simplify_eq.
    - rewrite list_lookup_insert_ne in Hj by done. rewrite list_lookup_insert_ne in Hx by done. eauto. }
  assert (Hsum : forall n', (sum_list (<[i := n']> ns) + n = sum_list ns + n')%nat)
    by (intros n'; exact (sum_list_with_insert id ns i n n' Hn)).
  assert (Hle : (n <= sum_list ns)%nat) by exact (sum_list_with_lookup id ns i n Hn).
  destruct (Hsp i _ n Hi Hn s r s1 Hf) as [[Hfree Hk]|(n' & -> & Hpaid & Hk)].
  - destruct (IH eq_refl _ _ (<[i := n]> ns) eq_refl) as (m & ns' & Hm & Hs & Hl & Hall);
      [by rewrite !length_insert|by apply Hother|].
    exists m, ns'. split_and!; [by eapply changes_free|specialize (Hsum n); lia|done|done].
  - destruct (IH eq_refl _ _ (<[i := n']> ns) eq_refl) as (m & ns' & Hm & Hs & Hl & Hall);
      [by rewrite !length_insert|by apply Hother|].
    exists (Datatypes.S m), ns'. split_and!; [by eapply changes_paid|specialize (Hsum n'); lia|done|done].
Qed.
End guarantee.
