(* ===== verification/ChunkDesc.v ===== *)
(** * Chunk descriptors and packed references

    [src/crates/shm-core/src/desc.rs] and the shared error type of
    [src/crates/shm-core/src/error.rs]: the 24-byte [ChunkDesc] handle and the
    64-bit [PackedRef] ("manifest pointer"). *)

From S2P Require Import Prelude.

(** ** Errors of [shm-core]

    [Io] and [Nix] wrap an operating-system error, of which the substrate only
    forwards the code. *)
Inductive CoreError : Set :=
| StaleDescriptor
| LayoutMismatch
| OutOfBounds
| Misaligned
| PoolExhausted
| JournalFull
| InvalidState
| LayoutOverflow
| Io (code : Z)
| Nix (code : Z).

#[export] Instance CoreError_eq_dec : EqDecision CoreError.
Proof. solve_decision. Defined.

(** ** [ChunkDesc] *)

Record ChunkDesc : Set := mkChunkDesc {
  segment_id : Z;
  generation : Z;
  offset : Z;
  len : Z;
  schema_id : Z;
  pad : Z
}.

#[export] Instance ChunkDesc_eq_dec : EqDecision ChunkDesc.
Proof. solve_decision. Defined.

(** Every field is a [u32]. *)
Definition desc_wf (d : ChunkDesc) : Prop :=
  is_u32 (segment_id d) /\ is_u32 (generation d) /\ is_u32 (offset d) /\
  is_u32 (len d) /\ is_u32 (schema_id d) /\ is_u32 (pad d).

#[export] Instance desc_wf_dec d : Decision (desc_wf d).
Proof. unfold desc_wf. apply _. Defined.

Definition with_schema (d : ChunkDesc) (s : Z) : ChunkDesc :=
  mkChunkDesc (segment_id d) (generation d) (offset d) (len d) s (pad d).

Definition ZERO : ChunkDesc := mkChunkDesc 0 0 0 0 0 0.

Definition is_zero (d : ChunkDesc) : bool := bool_decide (d = ZERO).

(** ** [PackedRef] *)

Definition OFFSET_BITS : Z := 32.
Definition SEGMENT_BITS : Z := 32.
Definition OFFSET_MASK : Z := Z.shiftl 1 OFFSET_BITS - 1.
Definition SEGMENT_MASK : Z := Z.shiftl 1 SEGMENT_BITS - 1.
Definition SEGMENT_SHIFT : Z := OFFSET_BITS.

Record PackedRef : Set := mkPackedRef { bits : Z }.

#[export] Instance PackedRef_eq_dec : EqDecision PackedRef.
Proof. solve_decision. Defined.

Definition PackedRef_pack (segment_id offset : Z) : PackedRef :=
  mkPackedRef (Z.lor (Z.shiftl segment_id SEGMENT_SHIFT) offset).

Definition PackedRef_from_desc (d : ChunkDesc) : PackedRef :=
  PackedRef_pack (segment_id d) (offset d).

Definition PackedRef_segment_id (r : PackedRef) : Z :=
  wrap32 (Z.land (Z.shiftr (bits r) SEGMENT_SHIFT) SEGMENT_MASK).

Definition PackedRef_offset (r : PackedRef) : Z :=
  wrap32 (Z.land (bits r) OFFSET_MASK).

Definition PackedRef_unpack (r : PackedRef) : Z * Z :=
  (PackedRef_segment_id r, PackedRef_offset r).

Definition PackedRef_to_bits (r : PackedRef) : Z := bits r.

(** The masks are full 32-bit masks, so masking is truncation. *)
Lemma land_mask32 x : Z.land x OFFSET_MASK = wrap32 x.
Proof.
  change OFFSET_MASK with (Z.ones 32). rewrite Z.land_ones by lia. done.
Qed.

Lemma PackedRef_segment_id_hi r : PackedRef_segment_id r = hi32 (bits r).
Proof.
  unfold PackedRef_segment_id, hi32. change SEGMENT_MASK with OFFSET_MASK.
  rewrite land_mask32. apply wrap32_id. apply wrap32_u32.
Qed.

Lemma PackedRef_offset_lo r : PackedRef_offset r = lo32 (bits r).
Proof.
  unfold PackedRef_offset, lo32. rewrite land_mask32. apply wrap32_id, wrap32_u32.
Qed.

Lemma PackedRef_pack_join s o : bits (PackedRef_pack s o) = join32 s o.
Proof. done. Qed.

(** C-level fact used by the head's packed word: unpacking inverts packing for
    every pair of [u32]s, and packing inverts unpacking for every [u64]. *)
Lemma PackedRef_unpack_pack s o :
  is_u32 s -> is_u32 o -> PackedRef_unpack (PackedRef_pack s o) = (s, o).
Proof.
  intros Hs Ho. unfold PackedRef_unpack.
  rewrite PackedRef_segment_id_hi, PackedRef_offset_lo, PackedRef_pack_join.
  by rewrite hi32_join, lo32_join.
Qed.

Lemma PackedRef_from_desc_offset d : is_u32 (segment_id d) -> is_u32 (offset d) -> PackedRef_offset (PackedRef_from_desc d) = offset d.
Proof. intros Hs Ho. pose proof (PackedRef_unpack_pack _ _ Hs Ho) as E. by injection E. Qed.

Lemma PackedRef_pack_unpack r :
  is_u64 (bits r) ->
  PackedRef_pack (PackedRef_unpack r).1 (PackedRef_unpack r).2 = r.
Proof.
  intros Hr. destruct r as [b]. cbn in Hr. unfold PackedRef_unpack. cbn [fst snd].
  rewrite PackedRef_segment_id_hi, PackedRef_offset_lo. cbn [bits].
  unfold PackedRef_pack. f_equal. exact (join32_split b Hr).
Qed.
