(* ===== verification/ChunkCtrl.v ===== *)
(** * The cross-process borrow state machine of one chunk

    [src/crates/shm-core/src/ctrl.rs].  A [ChunkCtrl] is three atomics: the packed
    [{state | refcount}] word, the owner id and the generation.  Each method is a
    program over that record ([Atomic.prog]), one node per atomic access, so the
    same text is executed alone (the refinement of the abstract state machine
    below) and interleaved (the election theorems of [ChunkCtrlConc]).

    The [debug_assert]s of the source are preconditions of the theorems; they do
    not execute in a release build and arithmetic on counts wraps at 32 bits. *)

From S2P Require Import Prelude Atomic ChunkDesc.

Definition FREE : Z := 0.
Definition LOANED : Z := 1.
Definition PUBLISHED : Z := 2.
Definition OWNER_NONE : Z := 0.

Record ChunkCtrl : Set := mkCtrl {
  word : Z;
  owner_actor : Z;
  ctrl_gen : Z
}.

#[export] Instance ChunkCtrl_eq_dec : EqDecision ChunkCtrl.
Proof. solve_decision. Defined.

Definition set_word (w : Z) (c : ChunkCtrl) : ChunkCtrl := mkCtrl w (owner_actor c) (ctrl_gen c).
Definition set_owner (o : Z) (c : ChunkCtrl) : ChunkCtrl := mkCtrl (word c) o (ctrl_gen c).
Definition set_gen (g : Z) (c : ChunkCtrl) : ChunkCtrl := mkCtrl (word c) (owner_actor c) g.

(** ** The packed word *)

Definition pack_word (state refcount : Z) : Z := Z.lor (Z.shiftl state 32) refcount.
Definition word_state (w : Z) : Z := wrap32 (Z.shiftr w 32).
Definition word_refcount (w : Z) : Z := wrap32 w.

Lemma word_state_pack st n : is_u32 st -> is_u32 n -> word_state (pack_word st n) = st.
Proof. exact (hi32_join st n). Qed.

Lemma word_refcount_pack st n : is_u32 n -> word_refcount (pack_word st n) = n.
Proof. exact (lo32_join st n). Qed.

Lemma pack_word_inj s1 n1 s2 n2 :
  is_u32 s1 -> is_u32 n1 -> is_u32 s2 -> is_u32 n2 ->
  pack_word s1 n1 = pack_word s2 n2 -> s1 = s2 /\ n1 = n2.
Proof. exact (join32_inj s1 n1 s2 n2). Qed.

Lemma pack_word_eqb s1 n1 s2 n2 :
  is_u32 s1 -> is_u32 n1 -> is_u32 s2 -> is_u32 n2 ->
  (pack_word s1 n1 =? pack_word s2 n2) = (s1 =? s2) && (n1 =? n2).
Proof.
  intros ????. destruct (Z.eqb_spec s1 s2) as [->|Hs]; destruct (Z.eqb_spec n1 n2) as [->|Hn];
    cbn; [apply Z.eqb_refl|..]; apply Z.eqb_neq; intros ?%pack_word_inj; naive_solver.
Qed.

(** ** Operations *)

Definition init_at (generation : Z) : ChunkCtrl :=
  mkCtrl (pack_word FREE 0) OWNER_NONE generation.

Definition load_word : prog ChunkCtrl Z := load word.
Definition cas_word (old new : Z) : prog ChunkCtrl (bool * Z) := cas word set_word old new.
Definition store_owner (o : Z) : prog ChunkCtrl unit := store (set_owner o).
Definition bump_gen : prog ChunkCtrl Z := fetch_add32 ctrl_gen set_gen 1.

Definition state : prog ChunkCtrl Z := w <- load_word ;; Ret (word_state w).
Definition generation : prog ChunkCtrl Z := load ctrl_gen.
Definition refcount : prog ChunkCtrl Z := w <- load_word ;; Ret (word_refcount w).

Definition try_loan (owner : Z) : prog ChunkCtrl (result CoreError unit) :=
  r <- cas_word (pack_word FREE 0) (pack_word LOANED 0) ;;
  if r.1 then
    store_owner owner ;;; Ret (Ok tt)
  else Ret (Err InvalidState).

Definition publish (fuel : nat) : prog ChunkCtrl (option (result CoreError unit)) :=
  cur <- load_word ;;
  retry fuel (fun cur =>
    if negb (word_state cur =? LOANED) then Ret (inr (Err InvalidState))
    else
      r <- cas_word cur (pack_word PUBLISHED (word_refcount cur)) ;;
      Ret (if r.1 then inr (Ok tt) else inl r.2)) cur.

Definition drop_loan (fuel : nat) : prog ChunkCtrl (option (result CoreError unit)) :=
  cur <- load_word ;;
  o <- retry fuel (fun cur =>
    if negb (word_state cur =? LOANED) then Ret (inr (Err InvalidState))
    else
      r <- cas_word cur (pack_word FREE 0) ;;
      Ret (if r.1 then inr (Ok tt) else inl r.2)) cur ;;
  match o with
  | Some (Ok _) =>
      store_owner OWNER_NONE ;;;
      bump_gen ;;;
      Ret (Some (Ok tt))
  | other => Ret other
  end.

Definition borrow_shared (fuel : nat) : prog ChunkCtrl (option (result CoreError unit)) :=
  cur <- load_word ;;
  retry fuel (fun cur =>
    if negb (word_state cur =? PUBLISHED) then Ret (inr (Err InvalidState))
    else
      let n := word_refcount cur in
      r <- cas_word cur (pack_word PUBLISHED (wrap32 (n + 1))) ;;
      Ret (if r.1 then inr (Ok tt) else inl r.2)) cur.

Definition try_reclaim : prog ChunkCtrl bool :=
  o <- load owner_actor ;;
  if negb (o =? OWNER_NONE) then Ret false
  else
    r <- cas_word (pack_word PUBLISHED 0) (pack_word FREE 0) ;;
    if r.1 then
      bump_gen ;;; Ret true
    else Ret false.

Definition release_shared (fuel : nat) : prog ChunkCtrl (option bool) :=
  cur <- load_word ;;
  retry fuel (fun cur =>
    let n := word_refcount cur in
    o <- load owner_actor ;;
    let owner_gone := o =? OWNER_NONE in
    let new := if (n =? 1) && owner_gone then pack_word FREE 0
               else pack_word PUBLISHED (wrap32 (n - 1)) in
    r <- cas_word cur new ;;
    if r.1 then
      if word_state new =? FREE then
        bump_gen ;;; Ret (inr true)
      else if n =? 1 then
        b <- try_reclaim ;; Ret (inr b)
      else Ret (inr false)
    else Ret (inl r.2)) cur.

Definition owner_release : prog ChunkCtrl bool :=
  store_owner OWNER_NONE ;;;
  try_reclaim.

Definition force_free : prog ChunkCtrl Z :=
  store (set_word (pack_word FREE 0)) ;;;
  store_owner OWNER_NONE ;;;
  g <- bump_gen ;;
  Ret (wrap32 (g + 1)).

Definition validate (desc : ChunkDesc) : prog ChunkCtrl (result CoreError unit) :=
  g <- generation ;;
  Ret (if ChunkDesc.generation desc =? g then Ok tt else Err StaleDescriptor).

(** ** The abstract state machine

    What the module documentation draws: the chunk's lifecycle state, its pin
    count while published, its owner and how often it was recycled. *)

Inductive Life : Set :=
| Free
| Loaned
| Published (pins : Z).

Record AbsCtrl : Set := mkAbs { life : Life; owner : Z; recycled : Z }.

(** How the lifecycle is represented in the packed word. *)
Definition life_word (l : Life) : Z :=
  match l with
  | Free => pack_word FREE 0
  | Loaned => pack_word LOANED 0
  | Published n => pack_word PUBLISHED n
  end.

Definition concrete (a : AbsCtrl) : ChunkCtrl := mkCtrl (life_word (life a)) (owner a) (recycled a).

Definition abs_wf (a : AbsCtrl) : Prop :=
  is_u32 (owner a) /\ is_u32 (recycled a) /\
  match life a with Published n => is_u32 n | _ => True end.

Inductive ctrl_op : Set :=
| OpLoan (o : Z)
| OpPublish
| OpDropLoan
| OpBorrow
| OpRelease
| OpOwnerRelease
| OpReclaim
| OpForceFree
| OpValidate (d : ChunkDesc).

(** What an operation reports. *)
Inductive ctrl_ret : Set :=
| RUnit (r : result CoreError unit)
| RFreed (b : bool)
| RGen (g : Z).

Definition exec (fuel : nat) (o : ctrl_op) : prog ChunkCtrl (option ctrl_ret) :=
  match o with
  | OpLoan w => r <- try_loan w ;; Ret (Some (RUnit r))
  | OpPublish => r <- publish fuel ;; Ret (RUnit <$> r)
  | OpDropLoan => r <- drop_loan fuel ;; Ret (RUnit <$> r)
  | OpBorrow => r <- borrow_shared fuel ;; Ret (RUnit <$> r)
  | OpRelease => r <- release_shared fuel ;; Ret (RFreed <$> r)
  | OpOwnerRelease => r <- owner_release ;; Ret (Some (RFreed r))
  | OpReclaim => r <- try_reclaim ;; Ret (Some (RFreed r))
  | OpForceFree => r <- force_free ;; Ret (Some (RGen r))
  | OpValidate d => r <- validate d ;; Ret (Some (RUnit r))
  end.

Definition recycle (a : AbsCtrl) : AbsCtrl := mkAbs Free OWNER_NONE (wrap32 (recycled a + 1)).

Definition invalid (a : AbsCtrl) : ctrl_ret * AbsCtrl := (RUnit (Err InvalidState), a).

(** Reclaim when published, unpinned and released by the owner. *)
Definition reclaim (a : AbsCtrl) : ctrl_ret * AbsCtrl :=
  match life a with
  | Published n =>
      if (n =? 0) && (owner a =? OWNER_NONE) then (RFreed true, recycle a) else (RFreed false, a)
  | _ => (RFreed false, a)
  end.

Definition spec (o : ctrl_op) (a : AbsCtrl) : ctrl_ret * AbsCtrl :=
  match o with
  | OpLoan w =>
      match life a with
      | Free => (RUnit (Ok tt), mkAbs Loaned w (recycled a))
      | _ => invalid a
      end
  | OpPublish =>
      match life a with
      | Loaned => (RUnit (Ok tt), mkAbs (Published 0) (owner a) (recycled a))
      | _ => invalid a
      end
  | OpDropLoan =>
      match life a with
      | Loaned => (RUnit (Ok tt), recycle a)
      | _ => invalid a
      end
  | OpBorrow =>
      match life a with
      | Published n => (RUnit (Ok tt), mkAbs (Published (n + 1)) (owner a) (recycled a))
      | _ => invalid a
      end
  | OpRelease =>
      match life a with
      | Published n => reclaim (mkAbs (Published (n - 1)) (owner a) (recycled a))
      | _ => (RFreed false, a)
      end
  | OpOwnerRelease => reclaim (mkAbs (life a) OWNER_NONE (recycled a))
  | OpReclaim => reclaim a
  | OpForceFree => (RGen (wrap32 (recycled a + 1)), recycle a)
  | OpValidate d =>
      (RUnit (if ChunkDesc.generation d =? recycled a then Ok tt else Err StaleDescriptor), a)
  end.

(** The preconditions the source asserts in debug builds: an owner id is not
    the sentinel, a count does not overflow, a release pairs with a borrow. *)
Definition op_pre (o : ctrl_op) (a : AbsCtrl) : Prop :=
  match o with
  | OpLoan w => is_u32 w /\ w <> OWNER_NONE
  | OpBorrow => forall n, life a = Published n -> n < U32_MAX
  | OpRelease => exists n, life a = Published n /\ 0 < n
  | _ => True
  end.

(** ** Refinement *)

Lemma FREE_u32 : is_u32 FREE. Proof. unfold FREE. mach. Qed.
Lemma LOANED_u32 : is_u32 LOANED. Proof. unfold LOANED. mach. Qed.
Lemma PUBLISHED_u32 : is_u32 PUBLISHED. Proof. unfold PUBLISHED. mach. Qed.
Lemma zero_u32 : is_u32 0. Proof. mach. Qed.
#[export] Hint Resolve FREE_u32 LOANED_u32 PUBLISHED_u32 zero_u32 : shm.

(** Evaluate the word tests of a concrete step. *)
Ltac ctrl_words :=
  repeat first
    [ rewrite word_state_pack by (auto with shm)
    | rewrite word_refcount_pack by (auto with shm)
    | rewrite pack_word_eqb by (auto with shm)
    | rewrite Z.eqb_refl ].

Lemma run_try_reclaim a :
  abs_wf a ->
  run try_reclaim (concrete a) =
    match reclaim a with
    | (RFreed b, a') => Some (b, concrete a')
    | _ => None
    end.
Proof.
  intros (Ho & Hr & Hl). destruct a as [l o g]. unfold reclaim. cbn in *.
  destruct (Z.eqb_spec o OWNER_NONE) as [->|Hne]; cbn.
  - destruct l as [| |n]; cbn; ctrl_words; cbn; try done.
    destruct (Z.eqb_spec n 0) as [->|Hn]; cbn; [done|]. by destruct n.
  - destruct l as [| |n]; cbn; try done. by rewrite andb_false_r.
Qed.

(** One uncontended round of a compare-and-swap loop succeeds. *)
Lemma run_cas_word_hit old new c :
  word c = old -> run (cas_word old new) c = Some ((true, old), set_word new c).
Proof. intros <-. cbn. by rewrite Z.eqb_refl. Qed.

Lemma run_release_shared n o g fuel :
  is_u32 n -> 0 < n -> is_u32 o -> is_u32 g ->
  run (release_shared (S fuel)) (concrete (mkAbs (Published n) o g)) =
    match reclaim (mkAbs (Published (n - 1)) o g) with
    | (RFreed b, a') => Some (Some b, concrete a')
    | _ => None
    end.
Proof.
  intros Hn Hpos Ho Hg. unfold release_shared. rewrite run_bind. cbn [run load_word load act concrete].
  change (word _) with (pack_word PUBLISHED n).
  cbn [retry]. rewrite word_refcount_pack by auto with shm.
  assert (Hn1 : is_u32 (n - 1)) by mach.
  unfold reclaim. cbn [life owner].
  destruct (Z.eqb_spec o OWNER_NONE) as [->|Hne].
  - destruct (Z.eqb_spec n 1) as [->|Hn1'].
    + cbn. ctrl_words. cbn. done.
    + rewrite (proj2 (Z.eqb_neq (n - 1) 0)) by lia. cbn. rewrite Z.eqb_refl. cbn.
      rewrite wrap32_id by done. ctrl_words. cbn. done.
  - rewrite andb_false_r. cbn. rewrite (proj2 (Z.eqb_neq o OWNER_NONE)) by done.
    rewrite andb_false_r, Z.eqb_refl. cbn. rewrite wrap32_id by done. ctrl_words. cbn.
    destruct (Z.eqb_spec n 1) as [->|Hn1']; cbn; [|done].
    by rewrite (proj2 (Z.eqb_neq o OWNER_NONE)) by done.
Qed.

(** Every operation, on every branch, is the abstract machine's: without
    interference one round of each compare-and-swap loop suffices, and the
    packed words encode exactly the abstract successor. *)
Lemma exec_refines_spec o a fuel :
  abs_wf a -> op_pre o a -> (1 <= fuel)%nat ->
  run (exec fuel o) (concrete a) = Some (Some (spec o a).1, concrete (spec o a).2).
Proof.
  intros Hwf Hpre Hf. destruct fuel as [|fuel]; [lia|]. clear Hf.
  pose proof Hwf as (Ho & Hr & Hl).
  destruct o; unfold exec; rewrite run_bind; cbn [op_pre] in Hpre.
  - destruct a as [[| |n] o' g]; cbn in *; ctrl_words; cbn; done.
  - destruct a as [[| |n] o' g]; cbn in *; ctrl_words; cbn; ctrl_words; done.
  - destruct a as [[| |n] o' g]; cbn in *; ctrl_words; cbn; ctrl_words; done.
  - destruct a as [[| |n] o' g]; cbn in *; ctrl_words; cbn; ctrl_words; cbn; try done.
    specialize (Hpre n eq_refl). rewrite wrap32_id by mach. done.
  - destruct Hpre as (n & Hlife & Hpos). destruct a as [l o' g].
    cbn in Ho, Hr, Hl, Hlife. subst l.
    rewrite run_release_shared by assumption.
    unfold spec, reclaim. cbn [life owner recycled].
    by destruct ((n - 1 =? 0) && (o' =? OWNER_NONE)).
  - unfold owner_release. rewrite run_bind. cbn [run store_owner store act].
    change (set_owner OWNER_NONE (concrete a))
      with (concrete (mkAbs (life a) OWNER_NONE (recycled a))).
    rewrite (run_try_reclaim (mkAbs (life a) OWNER_NONE (recycled a))).
    + unfold spec, reclaim. cbn [life owner recycled]. destruct (life a) as [| |n]; try done.
      by destruct ((n =? 0) && (OWNER_NONE =? OWNER_NONE)).
    + split; [cbn; auto with shm|done].
  - rewrite run_try_reclaim by done. unfold spec, reclaim.
    destruct a as [[| |n] o' g]; cbn [life owner recycled]; try done.
    by destruct ((n =? 0) && (o' =? OWNER_NONE)).
  - done.
  - done.
Qed.

(** ** Sequences of operations *)

Fixpoint exec_seq (fuel : nat) (os : list ctrl_op) : prog ChunkCtrl (option (list ctrl_ret)) :=
  match os with
  | [] => Ret (Some [])
  | o :: os' =>
      r <- exec fuel o ;;
      rs <- exec_seq fuel os' ;;
      Ret (match r, rs with Some r, Some rs => Some (r :: rs) | _, _ => None end)
  end.

Fixpoint spec_seq (os : list ctrl_op) (a : AbsCtrl) : list ctrl_ret * AbsCtrl :=
  match os with
  | [] => ([], a)
  | o :: os' =>
      let '(r, a1) := spec o a in
      let '(rs, a2) := spec_seq os' a1 in
      (r :: rs, a2)
  end.

(** The asserted preconditions hold along the sequence. *)
Fixpoint seq_pre (os : list ctrl_op) (a : AbsCtrl) : Prop :=
  match os with
  | [] => True
  | o :: os' => op_pre o a /\ seq_pre os' (spec o a).2
  end.

(** The operations return the chunk to [Free] this many times. *)
Definition freed_count (r : ctrl_ret) : Z :=
  match r with RFreed true => 1 | RGen _ => 1 | _ => 0 end.

Definition recycles_one (o : ctrl_op) (a : AbsCtrl) : Z :=
  match o with
  | OpDropLoan => match (spec o a).1 with RUnit (Ok _) => 1 | _ => 0 end
  | _ => freed_count (spec o a).1
  end.

Fixpoint recycles (os : list ctrl_op) (a : AbsCtrl) : Z :=
  match os with
  | [] => 0
  | o :: os' => recycles_one o a + recycles os' (spec o a).2
  end.

Lemma recycle_wf a : abs_wf (recycle a).
Proof. unfold abs_wf. cbn. split_and!; auto with shm. Qed.

Lemma reclaim_wf a : abs_wf a -> abs_wf (reclaim a).2.
Proof.
  intros (Ho & Hr & Hl). unfold reclaim. destruct (life a) as [| |n] eqn:E; cbn.
  - unfold abs_wf. rewrite E. done.
  - unfold abs_wf. rewrite E. done.
  - destruct (_ && _); cbn; [apply recycle_wf|]. unfold abs_wf. rewrite E. done.
Qed.

(** The representation invariant is preserved by every operation. *)
Lemma spec_wf o a : abs_wf a -> op_pre o a -> abs_wf (spec o a).2.
Proof.
  intros Hwf Hpre. pose proof Hwf as (Ho & Hr & Hl).
  destruct o; cbn [op_pre] in Hpre; unfold spec.
  - destruct Hpre. destruct a as [[| |n] o' g]; unfold abs_wf; cbn in *; auto.
  - destruct a as [[| |n] o' g]; unfold abs_wf; cbn in *; auto with shm.
  - destruct a as [[| |n] o' g]; cbn in *; try apply Hwf. apply recycle_wf.
  - destruct a as [[| |n] o' g]; unfold abs_wf; cbn in *; auto.
    specialize (Hpre n eq_refl). split_and!; mach.
  - destruct Hpre as (n & Hlife & Hpos). rewrite Hlife in *.
    apply reclaim_wf. unfold abs_wf. cbn. split_and!; [done..|mach].
  - apply reclaim_wf. unfold abs_wf. cbn. split_and!; auto with shm.
  - by apply reclaim_wf.
  - apply recycle_wf.
  - done.
Qed.

Lemma reclaim_recycled a :
  is_u32 (recycled a) ->
  recycled (reclaim a).2 = wrap32 (recycled a + freed_count (reclaim a).1).
Proof.
  intros Hr. unfold reclaim. destruct (life a); cbn; rewrite ?Z.add_0_r, ?wrap32_id by done; try done.
  destruct (_ && _); cbn; rewrite ?Z.add_0_r, ?wrap32_id by done; done.
Qed.

Lemma spec_recycled o a :
  abs_wf a -> recycled (spec o a).2 = wrap32 (recycled a + recycles_one o a).
Proof.
  intros (_ & Hr & _). destruct a as [l w g]. cbn in Hr.
  assert (Hg : g = wrap32 (g + 0)) by (by rewrite Z.add_0_r, wrap32_id).
  unfold recycles_one. destruct o; cbn [spec life owner recycled].
  1-4: by destruct l; cbn.
  - destruct l as [| |n]; [exact Hg|exact Hg|]. by apply reclaim_recycled.
  - by apply reclaim_recycled.
  - by apply reclaim_recycled.
  - done.
  - exact Hg.
Qed.

Lemma wrap32_add_wrap x y : wrap32 (wrap32 x + y) = wrap32 (x + y).
Proof. unfold wrap32, wrap. rewrite Zplus_mod_idemp_l. done. Qed.

Lemma spec_seq_recycled os a :
  abs_wf a -> seq_pre os a -> recycled (spec_seq os a).2 = wrap32 (recycled a + recycles os a).
Proof.
  revert a. induction os as [|o os IH]; intros a Hwf Hpre; cbn [spec_seq recycles].
  - rewrite Z.add_0_r, wrap32_id; [done|apply Hwf].
  - destruct Hpre as [Ho Hos]. pose proof (spec_wf o a Hwf Ho) as Hwf'.
    specialize (IH (spec o a).2 Hwf' Hos). rewrite (spec_recycled o a Hwf) in IH.
    destruct (spec o a) as [r a1]. cbn [snd] in *.
    destruct (spec_seq os a1) as [rs a2]. cbn [snd] in *.
    rewrite IH, wrap32_add_wrap. f_equal. lia.
Qed.

Lemma spec_seq_wf os a : abs_wf a -> seq_pre os a -> abs_wf (spec_seq os a).2.
Proof.
  revert a. induction os as [|o os IH]; intros a Hwf Hpre; cbn [spec_seq]; [done|].
  destruct Hpre as [Ho Hos]. specialize (IH _ (spec_wf o a Hwf Ho) Hos).
  destruct (spec o a) as [r a1]. cbn [snd] in *. by destruct (spec_seq os a1).
Qed.

Lemma run_exec_seq os a fuel :
  abs_wf a -> seq_pre os a -> (1 <= fuel)%nat ->
  run (exec_seq fuel os) (concrete a) =
    Some (Some (spec_seq os a).1, concrete (spec_seq os a).2).
Proof.
  revert a. induction os as [|o os IH]; intros a Hwf Hpre Hf; cbn [exec_seq spec_seq]; [done|].
  destruct Hpre as [Ho Hos]. rewrite run_bind, exec_refines_spec by done.
  rewrite run_bind, IH by (try done; by apply spec_wf).
  destruct (spec o a) as [r a1]. cbn [fst snd].
  destruct (spec_seq os a1) as [rs a2]. done.
Qed.

(** ** Properties *)

(** C2.  Any sequence of [ChunkCtrl] operations that respects the asserted
    preconditions computes exactly what the abstract lifecycle machine computes:
    same results, and a word, owner and generation that encode its final state.
    One round of every compare-and-swap loop is enough. *)
Theorem ctrl_refines_lifecycle os a fuel :
  abs_wf a -> seq_pre os a -> (1 <= fuel)%nat ->
  abs_wf (spec_seq os a).2 /\
  run (exec_seq fuel os) (concrete a) =
    Some (Some (spec_seq os a).1, concrete (spec_seq os a).2).
Proof. auto using spec_seq_wf, run_exec_seq. Qed.

(** Loan, publish, pin, owner release (still pinned), unpin (frees), stale check. *)
Definition demo_ops : list ctrl_op :=
  [OpLoan 7; OpPublish; OpBorrow; OpOwnerRelease; OpRelease; OpValidate (mkChunkDesc 1 5 64 64 0 0)].

Lemma ctrl_refines_lifecycle_witness :
  run (exec_seq 1 demo_ops) (concrete (mkAbs Free 0 5)) =
    Some (Some [RUnit (Ok tt); RUnit (Ok tt); RUnit (Ok tt); RFreed false; RFreed true;
                RUnit (Err StaleDescriptor)],
          concrete (mkAbs Free 0 6)).
Proof.
  refine (proj2 (ctrl_refines_lifecycle demo_ops (mkAbs Free 0 5) 1 _ _ _)).
  - split; [|split]; cbn; mach.
  - cbn. repeat split; try done; try mach.
    + intros n [= <-]. mach.
    + exists 1. split; [done|lia].
  - lia.
Defined.

(** C3.  The staleness guard: a descriptor minted at the chunk's generation passes
    [validate] after a sequence of operations if and only if the number of times
    the sequence recycled the chunk is a multiple of [2^32]; in particular one
    recycle is always detected. *)
Theorem validate_detects_recycling os a fuel d :
  abs_wf a -> seq_pre os a -> (1 <= fuel)%nat -> ChunkDesc.generation d = recycled a ->
  exists rs a',
    run (exec_seq fuel os) (concrete a) = Some (Some rs, concrete a') /\
    run (validate d) (concrete a') =
      Some (if recycles os a mod U32_MOD =? 0 then Ok tt else Err StaleDescriptor, concrete a').
Proof.
  intros Hwf Hpre Hf Hd. exists (spec_seq os a).1, (spec_seq os a).2.
  split; [by apply run_exec_seq|].
  pose proof (spec_seq_recycled os a Hwf Hpre) as Hrec.
  destruct Hwf as (_ & Hr & _). cbn. rewrite Hd, Hrec.
  replace (recycled a =? wrap32 (recycled a + recycles os a))
    with (recycles os a mod U32_MOD =? 0); [done|].
  unfold wrap32, wrap. change (2 ^ 32) with U32_MOD.
  rewrite <- Zplus_mod_idemp_r.
  pose proof (Z.mod_pos_bound (recycles os a) U32_MOD ltac:(mach)) as Hm.
  destruct (Z.eqb_spec (recycles os a mod U32_MOD) 0) as [->|Hne].
  - rewrite Z.add_0_r, Z.mod_small by done. by rewrite Z.eqb_refl.
  - symmetry. apply Z.eqb_neq. intros E.
    destruct (Z.lt_ge_cases (recycled a + recycles os a mod U32_MOD) U32_MOD) as [Hlt|Hge].
    + rewrite Z.mod_small in E; mach.
    + rewrite <- (Z.mod_unique_pos _ U32_MOD 1
        (recycled a + recycles os a mod U32_MOD - U32_MOD)) in E; mach.
Qed.

Lemma validate_detects_recycling_witness :
  exists rs a',
    run (exec_seq 1 [OpLoan 7; OpDropLoan]) (concrete (mkAbs Free 0 U32_MAX)) =
      Some (Some rs, concrete a') /\
    run (validate (mkChunkDesc 1 U32_MAX 64 64 0 0)) (concrete a') =
      Some (Err StaleDescriptor, concrete a').
Proof.
  refine (validate_detects_recycling [OpLoan 7; OpDropLoan] (mkAbs Free 0 U32_MAX) 1
            (mkChunkDesc 1 U32_MAX 64 64 0 0) _ _ _ _).
  - split; [|split]; cbn; mach.
  - cbn. repeat split; try done; mach.
  - lia.
  - reflexivity.
Defined.
