(* ===== verification/ChunkCtrlConc.v ===== *)
(** * Concurrent pins and releases of one published chunk

    Any number of threads run [borrow_shared] / [release_shared] in arbitrary
    scripts against one published chunk while its owner runs [owner_release];
    their atomic accesses interleave arbitrarily.  The theorems are the two claims
    the comments of [src/crates/shm-core/src/ctrl.rs] make for the packed word and
    the Dekker pairing: a pinned chunk is never recycled, and exactly one party is
    told to free it. *)

From S2P Require Import Prelude Atomic ChunkDesc ChunkCtrl.

(** ** Clients *)

Inductive client_op : Set := CBorrow | CRelease | COwnerRelease.

(** What a client holds: pins, the exclusive ownership, and how many times it was
    told that it freed the chunk. *)
Record local : Set := mkLocal { held : nat; owns : bool; wins : nat }.

Definition b2n (b : bool) : nat := if b then 1%nat else 0%nat.

(** A client executes its script under the API's discipline: it releases only a
    pin it holds, and the ownership only once.  A client whose loop runs out of
    fuel is one that is still spinning; it keeps what it holds. *)
Fixpoint client (fuel : nat) (ops : list client_op) (l : local) : prog ChunkCtrl local :=
  match ops with
  | [] => Ret l
  | CBorrow :: ops' =>
      r <- borrow_shared fuel ;;
      client fuel ops'
        (match r with Some (Ok _) => mkLocal (S (held l)) (owns l) (wins l) | _ => l end)
  | CRelease :: ops' =>
      match held l with
      | O => client fuel ops' l
      | S h =>
          r <- release_shared fuel ;;
          match r with
          | Some b => client fuel ops' (mkLocal h (owns l) (wins l + b2n b))
          | None => Ret l
          end
      end
  | COwnerRelease :: ops' =>
      if owns l then
        b <- owner_release ;;
        client fuel ops' (mkLocal (held l) false (wins l + b2n b))
      else client fuel ops' l
  end.

Definition is_borrow (o : client_op) : bool := match o with CBorrow => true | _ => false end.
Definition borrows (ops : list client_op) : nat := sum_list_with (fun o => b2n (is_borrow o)) ops.

Lemma borrows_cons o ops : borrows (o :: ops) = (b2n (is_borrow o) + borrows ops)%nat.
Proof. done. Qed.

(** The owner's thread comes first; nobody holds a pin yet. *)
Definition start (fuel : nat) (owner_script : list client_op) (scripts : list (list client_op))
    : list (prog ChunkCtrl local) :=
  client fuel owner_script (mkLocal 0 true 0) ::
  ((fun ops => client fuel ops (mkLocal 0 false 0)) <$> scripts).
Definition published (owner gen : Z) : ChunkCtrl := mkCtrl (pack_word PUBLISHED 0) owner gen.

(** ** Ghost state

    A thread's phase inside a release: it saw the owner gone; it must run the
    reclaim ([Duty]), and saw the owner gone while doing so; it won and still has
    to bump the generation. *)

Inductive phase : Set := Idle | SawGone | Duty | DutyGone | Bump.

#[export] Instance phase_eq_dec : EqDecision phase.
Proof. solve_decision. Defined.

Record ghost : Set := mkGhost {
  g_held : nat; g_owns : bool; g_wins : nat; g_phase : phase; g_budget : nat
}.

Definition f_owns (g : ghost) : nat := b2n (g_owns g).
Definition f_load (g : ghost) : nat := (g_held g + g_budget g)%nat.
Definition f_gone (g : ghost) : nat := match g_phase g with SawGone | DutyGone => 1 | _ => 0 end%nat.
Definition f_duty (g : ghost) : nat := match g_phase g with Duty | DutyGone => 1 | _ => 0 end%nat.
Definition f_bump (g : ghost) : nat := match g_phase g with Bump => 1 | _ => 0 end%nat.

Definition tot (f : ghost -> nat) (gs : list ghost) : nat := sum_list_with f gs.

Arguments tot : simpl never.

Section inv.
Variable gen : Z.

Definition alive (c : ChunkCtrl) (gs : list ghost) : Prop :=
  tot g_wins gs = 0%nat /\ word c = pack_word PUBLISHED (Z.of_nat (tot g_held gs)) /\
  ctrl_gen c = gen /\ tot f_bump gs = 0%nat /\
  (tot g_held gs = 0 -> tot f_owns gs = 0 -> 0 < tot f_duty gs)%nat.

Definition freed (c : ChunkCtrl) (gs : list ghost) : Prop :=
  tot g_wins gs = 1%nat /\ word c = pack_word FREE 0 /\
  tot g_held gs = 0%nat /\ tot f_owns gs = 0%nat /\ (tot f_bump gs <= 1)%nat /\
  ctrl_gen c = (if decide (tot f_bump gs = 0%nat) then wrap32 (gen + 1) else gen).

Definition Inv (c : ChunkCtrl) (gs : list ghost) : Prop :=
  Z.of_nat (tot f_load gs) < U32_MAX /\
  (tot f_owns gs <= 1)%nat /\
  (owner_actor c = OWNER_NONE <-> tot f_owns gs = 0%nat) /\
  (0 < tot f_gone gs -> tot f_owns gs = 0)%nat /\
  (alive c gs \/ freed c gs).

(** Bookkeeping after thread [i] moves from ghost [g] to [g']. *)
Lemma tot_upd f gs i g g' :
  gs !! i = Some g -> (tot f (<[i := g']> gs) + f g = tot f gs + f g')%nat.
Proof. apply sum_list_with_insert. Qed.

Lemma tot_ge f gs i g : gs !! i = Some g -> (f g <= tot f gs)%nat.
Proof. apply sum_list_with_lookup. Qed.

Lemma tot_held_load gs : (tot g_held gs <= tot f_load gs)%nat.
Proof. unfold tot. induction gs as [|g gs IH]; cbn; unfold f_load in *; lia. Qed.

End inv.

(** Pose the bookkeeping equations of every sum the goal mentions. *)
Ltac ghost_eval x :=
  eval cbv [f_owns f_load f_gone f_duty f_bump b2n g_held g_owns g_wins g_phase g_budget] in x.

Ltac tots Hg :=
  lazymatch type of Hg with
  | ?gs !! ?i = Some ?g =>
      repeat match goal with
      | |- context [tot ?f (<[i := ?g']> gs)] =>
          lazymatch goal with
          | H : (tot f (<[i := g']> gs) + _ = _)%nat |- _ => fail
          | _ =>
              let a := ghost_eval (f g) in
              let b := ghost_eval (f g') in
              assert (tot f (<[i := g']> gs) + a = tot f gs + b)%nat
                by exact (tot_upd f gs i g g' Hg);
              assert (a <= tot f gs)%nat by exact (tot_ge f gs i g Hg)
          end
      end;
      pose proof (tot_held_load gs)
  end.

(** ** Preservation, one lemma per kind of atomic access *)

Section steps.
Variable gen : Z.
Local Abbreviation I := (Inv gen).

Lemma Inv_alive_word c gs n :
  is_u32 n -> I c gs -> word c = pack_word PUBLISHED n ->
  alive gen c gs /\ n = Z.of_nat (tot g_held gs).
Proof.
  intros Hn (Hload & _ & _ & _ & [Ha|Hf]) Hw.
  - split; [done|]. destruct Ha as (_ & Hw' & _). rewrite Hw in Hw'.
    pose proof (tot_held_load gs). apply pack_word_inj in Hw'; auto with shm; [naive_solver|mach].
  - destruct Hf as (_ & Hw' & _). rewrite Hw in Hw'.
    apply pack_word_inj in Hw'; auto with shm. destruct Hw' as [[=] _].
Qed.

Lemma Inv_held_alive c gs i g :
  gs !! i = Some g -> (0 < g_held g)%nat -> I c gs -> alive gen c gs.
Proof.
  intros Hg Hh (_ & _ & _ & _ & [Ha|(_ & _ & H0 & _)]); [done|].
  pose proof (tot_ge g_held gs i g Hg). lia.
Qed.

Lemma Inv_pin c gs i h o w b :
  gs !! i = Some (mkGhost h o w Idle (S b)) ->
  alive gen c gs -> I c gs ->
  I (set_word (pack_word PUBLISHED (wrap32 (Z.of_nat (tot g_held gs) + 1))) c)
    (<[i := mkGhost (S h) o w Idle b]> gs).
Proof.
  intros Hg (Hw0 & Hw & Hgen & Hb & Hd) (Hload & Ho & Hown & Hgone & _).
  unfold Inv, alive. cbn [word owner_actor ctrl_gen set_word]. tots Hg.
  rewrite wrap32_id by mach.
  split_and!; [mach|lia|rewrite Hown; lia|lia|]. left.
  split_and!; try lia; try done. f_equal. lia.
Qed.

Lemma Inv_unpin c gs i h o w ph b :
  gs !! i = Some (mkGhost (S h) o w ph b) -> ph = Idle \/ ph = SawGone ->
  alive gen c gs -> I c gs ->
  I (set_word (pack_word PUBLISHED (wrap32 (Z.of_nat (tot g_held gs) - 1))) c)
    (<[i := mkGhost h o w (if decide (tot g_held gs = 1%nat) then Duty else Idle) b]> gs).
Proof.
  intros Hg Hph (Hw0 & Hw & Hgen & Hb & Hd) (Hload & Ho & Hown & Hgone & _).
  unfold Inv, alive. cbn [word owner_actor ctrl_gen set_word]. tots Hg.
  rewrite wrap32_id by mach.
  destruct (decide _); destruct Hph; subst ph; cbn in *;
    (split_and!; [mach|lia|rewrite Hown; lia|lia|]); left;
    (split_and!; try lia; try done); f_equal; lia.
Qed.

Lemma Inv_free_last c gs i h o w b :
  gs !! i = Some (mkGhost (S h) o w SawGone b) -> tot g_held gs = 1%nat ->
  alive gen c gs -> I c gs ->
  I (set_word (pack_word FREE 0) c) (<[i := mkGhost h o (S w) Bump b]> gs).
Proof.
  intros Hg H1 (Hw0 & Hw & Hgen & Hb & Hd) (Hload & Ho & Hown & Hgone & _).
  unfold Inv, freed. cbn [word owner_actor ctrl_gen set_word]. tots Hg.
  split_and!; [mach|lia|rewrite Hown; lia|lia|]. right.
  split_and!; try lia; try done. by rewrite decide_False by lia.
Qed.

Lemma Inv_free_duty c gs i h o w b :
  gs !! i = Some (mkGhost h o w DutyGone b) -> tot g_held gs = 0%nat ->
  alive gen c gs -> I c gs ->
  I (set_word (pack_word FREE 0) c) (<[i := mkGhost h o (S w) Bump b]> gs).
Proof.
  intros Hg H1 (Hw0 & Hw & Hgen & Hb & Hd) (Hload & Ho & Hown & Hgone & _).
  unfold Inv, freed. cbn [word owner_actor ctrl_gen set_word]. tots Hg.
  split_and!; [mach|lia|rewrite Hown; lia|lia|]. right.
  split_and!; try lia; try done. by rewrite decide_False by lia.
Qed.

Lemma Inv_bump c gs i h o w b :
  gs !! i = Some (mkGhost h o w Bump b) -> I c gs ->
  I (set_gen (wrap32 (ctrl_gen c + 1)) c) (<[i := mkGhost h o w Idle b]> gs).
Proof.
  intros Hg (Hload & Ho & Hown & Hgone & [Ha|Hf]).
  - destruct Ha as (_ & _ & _ & Hb & _). pose proof (tot_ge f_bump gs i _ Hg). cbn in *. lia.
  - destruct Hf as (Hw1 & Hw & H0 & Hown0 & Hb & Hgen).
    unfold Inv, freed. cbn [word owner_actor ctrl_gen set_gen]. tots Hg.
    rewrite decide_False in Hgen by lia.
    split_and!; [mach|lia|rewrite Hown; lia|lia|]. right.
    split_and!; try lia; try done. rewrite decide_True by lia. by rewrite Hgen.
Qed.

(** A thread in [Duty] gives up: the owner still holds the chunk, somebody pinned
    it again, or it is already free. *)
Lemma Inv_give_up c gs i h o w ph b :
  gs !! i = Some (mkGhost h o w ph b) -> ph = Duty \/ ph = DutyGone ->
  owner_actor c <> OWNER_NONE \/ word c <> pack_word PUBLISHED 0 -> I c gs ->
  I c (<[i := mkGhost h o w Idle b]> gs).
Proof.
  intros Hg Hph Hwhy (Hload & Ho & Hown & Hgone & Hst).
  unfold Inv, alive, freed in *. tots Hg.
  assert (Hne : tot g_held gs = 0%nat -> tot f_owns gs = 0%nat -> tot g_wins gs = 0%nat -> False).
  { intros Hz0 Hz Hw0. destruct Hst as [(_ & Hw & _)|(Hw & _)]; [|lia].
    destruct Hwhy as [Hwhy|Hwhy]; [naive_solver|]. apply Hwhy. rewrite Hw, Hz0. done. }
  destruct Hph; subst ph; cbn in *;
    (split_and!; [mach|lia|rewrite Hown; lia|lia|]);
    (destruct Hst as [(Hw0 & Hw & Hgen & Hb & Hd)|(Hw1 & Hw & Hz0 & Hown0 & Hb & Hgen)]; [left|right]);
    (split_and!; try lia; try done).
  all: try (rewrite Hw; f_equal; lia).
  all: rewrite Hgen; by destruct (decide _), (decide _); try lia.
Qed.
End steps.

(** ** The methods under interference *)

Section methods.
Variable gen : Z.
Local Abbreviation WP := (wp (Inv gen)).

(** An access that changes neither memory nor ghost state. *)
Ltac keep Hg HI := eexists; split; [rewrite (list_insert_id _ _ _ Hg); exact HI|].

Lemma wp_borrow_shared fuel i h o w b :
  WP (borrow_shared fuel) i (mkGhost h o w Idle (S b)) (fun r g' =>
    match r with
    | Some (Ok _) => g' = mkGhost (S h) o w Idle b
    | _ => g' = mkGhost h o w Idle (S b)
    end).
Proof.
  unfold borrow_shared. cbn [pbind load_word load act wp].
  intros c0 gs0 Hg0 HI0. keep Hg0 HI0.
  apply wp_retry with (P := fun _ g => g = mkGhost h o w Idle (S b)); [done| |by intros].
  intros cur g ->. destruct (Z.eqb_spec (word_state cur) PUBLISHED) as [Hst|Hst]; cbn; [|done].
  intros c gs Hg HI. destruct (Z.eqb_spec (word c) cur) as [Hc|Hc]; [|by keep Hg HI].
  exists (mkGhost (S h) o w Idle b). split; [|done].
  assert (Ha : alive gen c gs).
  { destruct HI as (_ & _ & _ & _ & [Ha|(_ & Hw & _)]); [done|].
    rewrite <- Hc, Hw, word_state_pack in Hst by auto with shm. done. }
  pose proof Ha as (_ & Hw & _). rewrite <- Hc, Hw.
  rewrite word_refcount_pack; [by apply Inv_pin|].
  pose proof (tot_held_load gs). destruct HI as (Hload & _). mach.
Qed.

Lemma wp_bump i h o w b {X} (x : X) (Q : X -> ghost -> Prop) :
  Q x (mkGhost h o w Idle b) ->
  WP (bump_gen ;;; Ret x) i (mkGhost h o w Bump b) Q.
Proof.
  intros HQ. cbn. intros c gs Hg HI. eexists. split; [by apply Inv_bump|done].
Qed.

Lemma wp_try_reclaim i h o w b :
  WP try_reclaim i (mkGhost h o w Duty b) (fun r g' => g' = mkGhost h o (w + b2n r) Idle b).
Proof.
  unfold try_reclaim. cbn [pbind load act wp].
  intros c gs Hg HI. destruct (Z.eqb_spec (owner_actor c) OWNER_NONE) as [Hown|Hown]; cbn.
  - exists (mkGhost h o w DutyGone b). split.
    { pose proof HI as (Hload & Ho & Hio & Hgone & Hst).
      unfold Inv, alive, freed in *. tots Hg.
      split_and!; [mach|lia|rewrite Hio; lia|naive_solver lia|].
      destruct Hst as [(Hw0 & Hw & Hgen & Hb & Hd)|(Hw1 & Hw & Hz0 & Hown0 & Hb & Hgen)]; [left|right].
      - split_and!; try lia; try done. rewrite Hw. f_equal. lia.
      - split_and!; try lia; try done. rewrite Hgen. by destruct (decide _), (decide _); try lia. }
    clear c gs Hg HI Hown. intros c gs Hg HI.
    destruct (Z.eqb_spec (word c) (pack_word PUBLISHED 0)) as [Hw|Hw]; cbn.
    + destruct (Inv_alive_word gen c gs 0 zero_u32 HI Hw) as [Ha Hz].
      exists (mkGhost h o (S w) Bump b). split; [apply Inv_free_duty; auto; lia|].
      refine (wp_bump i h o (S w) b true (fun r g' => g' = mkGhost h o (w + b2n r) Idle b) _).
      f_equal. cbn. lia.
    + exists (mkGhost h o w Idle b). split; [eapply Inv_give_up; eauto|]. f_equal. cbn. lia.
  - exists (mkGhost h o w Idle b). split; [eapply Inv_give_up; eauto|]. f_equal. cbn. lia.
Qed.

(** The body of [release_shared] after the owner was sampled as [gone]. *)
Definition release_result (h : nat) (o : bool) (w b : nat) (r : option bool) (g' : ghost) : Prop :=
  match r with
  | Some f => g' = mkGhost h o (w + b2n f) Idle b
  | None => g' = mkGhost (S h) o w Idle b
  end.

Lemma wp_release_shared fuel i h o w b :
  WP (release_shared fuel) i (mkGhost (S h) o w Idle b) (release_result h o w b).
Proof.
  unfold release_shared. cbn [pbind load_word load act wp].
  intros c0 gs0 Hg0 HI0. keep Hg0 HI0.
  apply wp_retry with (P := fun _ g => g = mkGhost (S h) o w Idle b); [done| |by intros].
  clear c0 gs0 Hg0 HI0. intros cur g ->. cbn [pbind load act wp].
  intros c gs Hg HI.
  set (ph := if owner_actor c =? OWNER_NONE then SawGone else Idle).
  exists (mkGhost (S h) o w ph b). split.
  { pose proof HI as (Hload & Ho & Hio & Hgone & Hst).
    subst ph. destruct (Z.eqb_spec (owner_actor c) OWNER_NONE) as [Hown|Hown];
      [|rewrite list_insert_id; done].
    unfold Inv, alive, freed in *. tots Hg.
    split_and!; [mach|lia|rewrite Hio; lia|naive_solver lia|].
    destruct Hst as [(Hw0 & Hw & Hgen & Hb & Hd)|(_ & _ & Hz0 & _)]; [left|lia].
    split_and!; try lia; try done. rewrite Hw. f_equal. lia. }
  assert (Hph : ph = Idle \/ ph = SawGone) by (subst ph; destruct (_ =? _); auto).
  assert (Hgone : (owner_actor c =? OWNER_NONE) = bool_decide (ph = SawGone)).
  { subst ph. destruct (_ =? _); done. }
  rewrite Hgone. clearbody ph. clear c gs Hg HI Hgone.
  cbn [pbind cas_word cas act wp].
  intros c gs Hg HI. destruct (Z.eqb_spec (word c) cur) as [Hc|Hc]; cbn [fst snd].
  - pose proof (Inv_held_alive gen c gs i _ Hg ltac:(cbn; lia) HI) as Ha.
    pose proof Ha as (_ & Hw & _). pose proof (tot_held_load gs) as Hhl.
    assert (Hn : word_refcount cur = Z.of_nat (tot g_held gs)).
    { rewrite <- Hc, Hw. apply word_refcount_pack. destruct HI as (Hload & _). mach. }
    assert (Hpos : (0 < tot g_held gs)%nat).
    { pose proof (tot_ge g_held gs i _ Hg). cbn in *. lia. }
    rewrite Hn. clear Hc Hn Hw.
    destruct (Z.eqb_spec (Z.of_nat (tot g_held gs)) 1) as [H1|H1]; cbn [andb].
    + case_bool_decide as Hs; cbn [andb].
      * subst ph. rewrite word_state_pack by auto with shm. cbn [FREE Z.eqb].
        exists (mkGhost h o (S w) Bump b). split; [apply Inv_free_last; auto; lia|].
        refine (wp_bump i h o (S w) b (inr true : Z + bool)
          (fun x g' => match x with inl _ => g' = mkGhost (S h) o w Idle b
                       | inr f => release_result h o w b (Some f) g' end) _).
        cbn. f_equal. lia.
      * rewrite word_state_pack by auto with shm. cbn [FREE PUBLISHED Z.eqb].
        eexists. split; [by eapply Inv_unpin|]. rewrite decide_True by lia.
        apply wp_bind. eapply wp_mono; [|apply wp_try_reclaim]. by intros r g' ->.
    + rewrite word_state_pack by auto with shm. cbn [FREE PUBLISHED Z.eqb].
      eexists. split; [by eapply Inv_unpin|]. rewrite decide_False by lia. cbn. f_equal. lia.
  - exists (mkGhost (S h) o w Idle b). split; [|done].
    pose proof HI as (Hload & Ho & Hio & Hgone & Hst).
    unfold Inv, alive, freed in *. tots Hg.
    destruct Hph; subst ph; cbn in *;
      (split_and!; [mach|lia|rewrite Hio; lia|naive_solver lia|]);
      (destruct Hst as [(Hw0 & Hw & Hgen & Hb & Hd)|(_ & _ & Hz0 & _)]; [left|lia]);
      (split_and!; try lia; try done); rewrite Hw; f_equal; lia.
Qed.

Lemma wp_owner_release i h w b :
  WP owner_release i (mkGhost h true w Idle b) (fun r g' => g' = mkGhost h false (w + b2n r) Idle b).
Proof.
  unfold owner_release. cbn [pbind store_owner store act wp].
  intros c gs Hg HI. exists (mkGhost h false w Duty b). split.
  - pose proof HI as (Hload & Ho & Hio & Hgone & Hst).
    unfold Inv, alive, freed in *. cbn [word owner_actor ctrl_gen set_owner]. tots Hg.
    split_and!; [mach|lia|split; [lia|done]|lia|].
    destruct Hst as [(Hw0 & Hw & Hgen & Hb & Hd)|(_ & _ & _ & Hown0 & _)]; [left|lia].
    split_and!; try lia; try done. rewrite Hw. f_equal. lia.
  - apply wp_try_reclaim.
Qed.

(** A client ends owning what it reports. *)
Definition reports (l : local) (g : ghost) : Prop :=
  g_held g = held l /\ g_owns g = owns l /\ g_wins g = wins l /\ g_phase g = Idle.

Lemma wp_client fuel ops i l b :
  (borrows ops <= b)%nat ->
  WP (client fuel ops l) i (mkGhost (held l) (owns l) (wins l) Idle b) reports.
Proof.
  revert l b. induction ops as [|[| |] ops IH]; intros l b Hb.
  - cbn. done.
  - rewrite borrows_cons in Hb. cbn [b2n is_borrow] in Hb. destruct b as [|b]; [lia|]. cbn [client]. apply wp_bind.
    eapply wp_mono; [|apply wp_borrow_shared].
    intros [[[]|e]|] g' ->; [apply (IH (mkLocal _ _ _))|apply IH|apply IH]; lia.
  - rewrite borrows_cons in Hb. cbn [b2n is_borrow] in Hb. cbn [client]. destruct (held l) as [|h] eqn:Eh; [rewrite <- Eh; apply IH; lia|].
    apply wp_bind. eapply wp_mono; [|apply wp_release_shared].
    intros [f|] g' ->; cbn; [apply (IH (mkLocal _ _ _)); cbn; lia|].
    unfold reports. cbn. by rewrite Eh.
  - rewrite borrows_cons in Hb. cbn [b2n is_borrow] in Hb. cbn [client]. destruct (owns l) eqn:Eo; [|rewrite <- Eo; apply IH; lia].
    apply wp_bind. eapply wp_mono; [|apply wp_owner_release].
    intros f g' ->. apply (IH (mkLocal (held l) false (wins l + b2n f))). lia.
Qed.
End methods.

(** ** Properties *)

Definition start_ghost (owner_script : list client_op) (scripts : list (list client_op))
    : list ghost :=
  mkGhost 0 true 0 Idle (borrows owner_script) ::
  ((fun ops => mkGhost 0 false 0 Idle (borrows ops)) <$> scripts).

Lemma start_ok gen fuel os scripts :
  pool_ok (Inv gen) reports (start fuel os scripts) (start_ghost os scripts).
Proof.
  split; [unfold start, start_ghost; csimpl; by rewrite !length_fmap|].
  unfold start, start_ghost. intros [|i] p g Hp Hg; csimpl in *; simplify_eq.
  - by apply (wp_client gen fuel os 0 (mkLocal 0 true 0)).
  - rewrite list_lookup_fmap in Hp. rewrite list_lookup_fmap in Hg. destruct (scripts !! i) as [ops|]; cbn in *; simplify_eq.
    by apply (wp_client gen fuel ops (S i) (mkLocal 0 false 0)).
Qed.

Lemma tot_const0 (f : ghost -> nat) scripts :
  (forall ops, f (mkGhost 0 false 0 Idle (borrows ops)) = 0%nat) ->
  tot f ((fun ops => mkGhost 0 false 0 Idle (borrows ops)) <$> scripts) = 0%nat.
Proof.
  intros Hf. unfold tot. induction scripts as [|ops l IH]; csimpl; [done|]. by rewrite Hf, IH.
Qed.

Definition total_borrows (os : list client_op) (scripts : list (list client_op)) : nat :=
  (borrows os + sum_list_with borrows scripts)%nat.

Lemma tot_load_start os scripts :
  tot f_load (start_ghost os scripts) = total_borrows os scripts.
Proof.
  unfold tot, total_borrows, start_ghost. csimpl. f_equal.
  induction scripts as [|ops l IH]; csimpl; [done|]. by rewrite IH.
Qed.

Lemma Inv_start gen owner os scripts :
  owner <> OWNER_NONE -> Z.of_nat (total_borrows os scripts) < U32_MAX ->
  Inv gen (published owner gen) (start_ghost os scripts).
Proof.
  intros Ho Hb. rewrite <- tot_load_start in Hb.
  assert (Hz : forall f : ghost -> nat,
    (forall ops, f (mkGhost 0 false 0 Idle (borrows ops)) = 0%nat) ->
    tot f (start_ghost os scripts) = f (mkGhost 0 true 0 Idle (borrows os))).
  { intros f Hf. unfold start_ghost, tot. cbn [sum_list_with].
    change (sum_list_with f) with (tot f). rewrite (tot_const0 f scripts Hf). lia. }
  unfold Inv, alive. cbn [word owner_actor ctrl_gen published].
  rewrite (Hz f_owns), (Hz f_gone), (Hz g_wins), (Hz g_held), (Hz f_bump), (Hz f_duty) by done.
  cbn. split_and!; try done; try lia. left. split_and!; try done; lia.
Qed.

Lemma reports_tot (ls : list local) gs i0 :
  (forall i l g, ls !! i = Some l -> gs !! (i0 + i)%nat = Some g -> reports l g) ->
  length gs = (i0 + length ls)%nat ->
  sum_list_with held ls = tot g_held (drop i0 gs) /\
  sum_list_with wins ls = tot g_wins (drop i0 gs) /\
  sum_list_with (fun l => b2n (owns l)) ls = tot f_owns (drop i0 gs) /\
  tot f_duty (drop i0 gs) = 0%nat /\ tot f_bump (drop i0 gs) = 0%nat.
Proof.
  revert i0. induction ls as [|l ls IH]; intros i0 Hr Hlen; cbn in Hlen.
  - rewrite drop_ge by lia. done.
  - destruct (lookup_lt_is_Some_2 gs i0) as [g Hg]; [lia|].
    rewrite (drop_S gs g i0 Hg).
    destruct (Hr 0%nat l g eq_refl) as (H1 & H2 & H3 & H4); [by rewrite Nat.add_0_r|].
    destruct (IH (S i0)) as (E1 & E2 & E3 & E4 & E5).
    { intros i l' g' Hl Hg'. apply (Hr (S i)); [done|]. by rewrite Nat.add_succ_r. }
    { lia. }
    unfold tot in *. cbn. unfold f_owns at 1, f_duty at 1, f_bump at 1. rewrite H4, H2.
    split_and!; try done; lia.
Qed.

(** C1.  Whatever the scripts of the owner and of any number of other threads, and
    however their atomic accesses interleave: no access is out of bounds; the
    threads are told at most once, in total, that they freed the chunk; and once
    every thread has returned with no pin left and the ownership released, exactly
    one of them was told, the chunk is [FREE] with no pin, and its generation was
    bumped exactly once. *)
Theorem release_elects_one_freer fuel owner gen os scripts tp c :
  owner <> OWNER_NONE ->
  Z.of_nat (total_borrows os scripts) < U32_MAX ->
  pool_reach (start fuel os scripts, published owner gen) (tp, c) ->
  ~ pool_stuck (tp, c) /\
  forall ls, tp = Ret <$> ls ->
    (sum_list_with wins ls <= 1)%nat /\
    (sum_list_with held ls = 0%nat -> sum_list_with (fun l => b2n (owns l)) ls = 0%nat ->
     sum_list_with wins ls = 1%nat /\
     c = mkCtrl (pack_word FREE 0) OWNER_NONE (wrap32 (gen + 1))).
Proof.
  intros Ho Hb Hreach.
  destruct (pool_ok_reach (Inv gen) reports _ _ _ _ _ Hreach (start_ok gen fuel os scripts)
              (Inv_start gen owner os scripts Ho Hb)) as (gs & Hok & HI).
  split; [by eapply pool_ok_not_stuck|]. intros ls ->. destruct Hok as [Hlen Hok].
  rewrite length_fmap in Hlen.
  destruct (reports_tot ls gs 0) as (E1 & E2 & E3 & E4 & E5); [|done|].
  { intros i l g Hl Hg. apply (Hok i (Ret l) g); [by rewrite list_lookup_fmap, Hl|done]. }
  rewrite drop_0 in *. rewrite E1, E2, E3.
  destruct HI as (_ & _ & Hown & _ & [Ha|Hf]).
  - destruct Ha as (Hw0 & _ & _ & _ & Hd). split; [lia|]. intros H0 H1. lia.
  - destruct Hf as (Hw1 & Hw & _ & H0 & _ & Hgen). split; [lia|]. intros _ _.
    rewrite decide_True in Hgen by done. split; [done|].
    destruct c as [cw co cg]. cbn in *. subst. f_equal. by apply Hown.
Qed.

(** One owner, two threads that pin and unpin: a complete run. *)
Definition demo_scripts : list (list client_op) := [[CBorrow; CRelease]; [CBorrow; CRelease]].
Definition demo_schedule : list nat :=
  [1; 1; 2; 2; 0; 0; 1; 1; 0; 1; 2; 2; 2; 2]%nat.

Definition demo_outcome : option (list local * ChunkCtrl) :=
  match pool_run demo_schedule (start 3 [COwnerRelease] demo_scripts, published 7 41) with
  | Some (tp, c) =>
      Some (omap (fun p => match p with Ret l => Some l | Atomic _ _ => None end) tp, c)
  | None => None
  end.

Lemma release_elects_one_freer_witness :
  exists ls c,
    pool_run demo_schedule (start 3 [COwnerRelease] demo_scripts, published 7 41) =
      Some (Ret <$> ls, c) /\
    sum_list_with wins ls = 1%nat /\ c = mkCtrl (pack_word FREE 0) OWNER_NONE 42.
Proof.
  pose (ls := [mkLocal 0 false 0; mkLocal 0 false 0; mkLocal 0 false 1]).
  pose (c := mkCtrl (pack_word FREE 0) OWNER_NONE 42).
  exists ls, c.
  assert (E : pool_run demo_schedule (start 3 [COwnerRelease] demo_scripts, published 7 41) =
      Some (Ret <$> ls, c)) by reflexivity.
  split; [exact E|].
  refine (proj2 (proj2 (release_elects_one_freer 3 7 41 [COwnerRelease] demo_scripts
    (Ret <$> ls) c _ _ _) ls eq_refl) _ _).
  - discriminate.
  - reflexivity.
  - exact (pool_run_reach _ _ _ E).
  - reflexivity.
  - reflexivity.
Defined.

(** C4.  While any thread holds a pin it was granted, the chunk stays
    [PUBLISHED] at the generation it was pinned at and its count covers that
    thread's pins, in every state of every interleaving: nothing is both pinned
    and recycled. *)
Theorem pinned_chunk_never_recycled fuel owner gen os scripts tp c i l :
  owner <> OWNER_NONE ->
  Z.of_nat (total_borrows os scripts) < U32_MAX ->
  pool_reach (start fuel os scripts, published owner gen) (tp, c) ->
  tp !! i = Some (Ret l) -> (0 < held l)%nat ->
  word_state (word c) = PUBLISHED /\
  Z.of_nat (held l) <= word_refcount (word c) /\ ctrl_gen c = gen.
Proof.
  intros Ho Hb Hreach Hi Hh.
  destruct (pool_ok_reach (Inv gen) reports _ _ _ _ _ Hreach (start_ok gen fuel os scripts)
              (Inv_start gen owner os scripts Ho Hb)) as (gs & [Hlen Hok] & HI).
  destruct (lookup_lt_is_Some_2 gs i) as [g Hg].
  { rewrite <- Hlen. eapply lookup_lt_Some; eauto. }
  destruct (Hok i _ g Hi Hg) as (Eh & _).
  assert (Ha : alive gen c gs) by (apply (Inv_held_alive gen c gs i g); [done|lia|done]).
  destruct Ha as (_ & Hw & Hgen & _). destruct HI as (Hload & _).
  pose proof (tot_held_load gs). pose proof (tot_ge g_held gs i g Hg).
  assert (is_u32 (Z.of_nat (tot g_held gs))) by mach.
  rewrite Hw, word_state_pack, word_refcount_pack by auto with shm.
  split_and!; [done|lia|done].
Qed.

(** A borrower that keeps its pin while the owner releases and another reader
    comes and goes. *)
Lemma pinned_chunk_never_recycled_witness :
  exists tp c,
    pool_run [1; 1; 0; 0; 0; 2; 2; 2; 2; 2]%nat
      (start 2 [COwnerRelease] [[CBorrow]; [CBorrow; CRelease]], published 7 41) = Some (tp, c) /\
    word_state (word c) = PUBLISHED /\ 1 <= word_refcount (word c) /\ ctrl_gen c = 41.
Proof.
  pose (tp := Ret <$> [mkLocal 0 false 0; mkLocal 1 false 0; mkLocal 0 false 0]
              : list (prog ChunkCtrl local)).
  pose (c := mkCtrl (pack_word PUBLISHED 1) OWNER_NONE 41).
  exists tp, c.
  assert (E : pool_run [1; 1; 0; 0; 0; 2; 2; 2; 2; 2]%nat
      (start 2 [COwnerRelease] [[CBorrow]; [CBorrow; CRelease]], published 7 41) = Some (tp, c))
    by reflexivity.
  split; [exact E|].
  refine (pinned_chunk_never_recycled 2 7 41 [COwnerRelease] [[CBorrow]; [CBorrow; CRelease]]
    tp c 1 (mkLocal 1 false 0) _ _ _ _ _).
  - discriminate.
  - reflexivity.
  - exact (pool_run_reach _ _ _ E).
  - reflexivity.
  - cbn. lia.
Defined.
