(* ===== verification/Treiber.v ===== *)
(** * The tagged Treiber stack

    [treiber_pop] and [treiber_push] of [src/crates/shm-core/src/pool.rs], the
    lock-free free list that the chunk pools, the task queue's FREE/READY stacks
    and its lease table all run.  The source is generic in where the head word
    lives and in how a node's intrusive next-link is reached (two closures); the
    model is generic in the same two things, the operations record [stack_ops].

    [stack_laws] is the interface a client discharges once: what the head and the
    links of one stack promise about each other.  The theorems of this file and
    the clients' theorems are proved against it. *)

From S2P Require Import Prelude Atomic.

(** Free-list slot sentinel meaning "empty". *)
Definition EMPTY : Z := U32_MAX.

Definition head_pack (tag slot : Z) : Z := Z.lor (Z.shiftl tag 32) slot.

Definition head_unpack (v : Z) : Z * Z := (wrap32 (Z.shiftr v 32), wrap32 (Z.land v U32_MAX)).

Lemma head_unpack_pack tag slot :
  is_u32 tag -> is_u32 slot -> head_unpack (head_pack tag slot) = (tag, slot).
Proof.
  intros Ht Hs. unfold head_unpack.
  change (Z.land (head_pack tag slot) U32_MAX) with (Z.land (join32 tag slot) (Z.ones 32)).
  rewrite Z.land_ones by lia.
  change (join32 tag slot mod 2 ^ 32) with (lo32 (join32 tag slot)).
  change (wrap32 (Z.shiftr (head_pack tag slot) 32)) with (hi32 (join32 tag slot)).
  rewrite hi32_join, lo32_join, wrap32_id by done. done.
Qed.

Lemma head_pack_inj t1 s1 t2 s2 :
  is_u32 t1 -> is_u32 s1 -> is_u32 t2 -> is_u32 s2 ->
  head_pack t1 s1 = head_pack t2 s2 -> t1 = t2 /\ s1 = s2.
Proof. exact (join32_inj t1 s1 t2 s2). Qed.

(** ** Operations *)

Record stack_ops (M : Type) : Type := mkStackOps {
  s_head : M -> Z;
  s_set_head : Z -> M -> M;
  (** The link stored in a node; [None] when the node is out of bounds. *)
  s_next : Z -> M -> option Z;
  s_set_next : Z -> Z -> M -> option M
}.
Arguments s_head {M} _ _.
Arguments s_set_head {M} _ _ _.
Arguments s_next {M} _ _ _.
Arguments s_set_next {M} _ _ _ _.

Section ops.
Context {M : Type} (st : stack_ops M).

Definition load_head : prog M Z := load (s_head st).
Definition cas_head (old new : Z) : prog M (bool * Z) := cas (s_head st) (s_set_head st) old new.
Definition read_next (slot : Z) : prog M Z :=
  act (fun m => match s_next st slot m with Some n => Some (n, m) | None => None end).
Definition write_next (slot next : Z) : prog M unit :=
  act (fun m => match s_set_next st slot next m with Some m' => Some (tt, m') | None => None end).

(** [None]: still looping; [Some None]: the list is empty; [Some (Some i)]: popped. *)
Definition treiber_pop (fuel : nat) : prog M (option (option Z)) :=
  retry fuel (fun _ : unit =>
    cur <- load_head ;;
    let '(tag, slot) := head_unpack cur in
    if slot =? EMPTY then Ret (inr None)
    else
      next <- read_next slot ;;
      let new := head_pack (wrap32 (tag + 1)) next in
      r <- cas_head cur new ;;
      Ret (if r.1 then inr (Some slot) else inl tt)) tt.

Definition treiber_push (fuel : nat) (slot : Z) : prog M (option unit) :=
  retry fuel (fun _ : unit =>
    cur <- load_head ;;
    let '(tag, old_head) := head_unpack cur in
    write_next slot old_head ;;;
    let new := head_pack (wrap32 (tag + 1)) slot in
    r <- cas_head cur new ;;
    Ret (if r.1 then inr tt else inl tt)) tt.

(** ** What the memory holds *)

(** The links from [h] spell the list [l]. *)
Fixpoint chain (m : M) (h : Z) (l : list Z) : Prop :=
  match l with
  | [] => h = EMPTY
  | i :: l' => h = i /\ is_u32 i /\ i <> EMPTY /\ exists n, s_next st i m = Some n /\ chain m n l'
  end.

(** The stack's contents, top first; some tag is in the head word. *)
Definition holds (m : M) (l : list Z) : Prop :=
  NoDup l /\ exists tag h, is_u32 tag /\ is_u32 h /\ s_head st m = head_pack tag h /\ chain m h l.

(** The executable walk along the links ([Pool::free_count]'s loop). *)
Fixpoint walk (fuel : nat) (m : M) (h : Z) : option (list Z) :=
  match fuel with
  | O => None
  | S fuel' =>
      if h =? EMPTY then Some []
      else
        match s_next st h m with
        | Some n => match walk fuel' m n with Some l => Some (h :: l) | None => None end
        | None => None
        end
  end.
End ops.

(** ** Laws *)

(** [ok m] is the client's well-formedness (the bounds of its arrays); node [i] is
    [valid] when it is in range. *)
Record stack_laws {M : Type} (st : stack_ops M) (ok : M -> Prop) (valid : Z -> Prop) : Prop := {
  law_head m h : ok m -> s_head st (s_set_head st h m) = h;
  law_next_head m h i : s_next st i (s_set_head st h m) = s_next st i m;
  law_ok_head m h : ok m -> ok (s_set_head st h m);
  law_next m i : ok m -> valid i -> exists n, s_next st i m = Some n;
  law_set_next m i n : ok m -> valid i ->
    exists m', s_set_next st i n m = Some m' /\ ok m' /\ s_head st m' = s_head st m /\
      forall j, s_next st j m' = if decide (i = j) then Some n else s_next st j m
}.

Section facts.
Context {M : Type} {st : stack_ops M} {ok : M -> Prop} {valid : Z -> Prop}.
Context (laws : stack_laws st ok valid).

Lemma EMPTY_u32 : is_u32 EMPTY.
Proof. unfold EMPTY. mach. Qed.

Lemma chain_head_u32 m h l : chain st m h l -> is_u32 h.
Proof. destruct l as [|i l]; cbn; [intros ->; apply EMPTY_u32|]. intros (-> & Hi & _). done. Qed.

(** A chain depends only on the links of its own nodes. *)
Lemma chain_agree m m' h l :
  (forall i, i ∈ l -> s_next st i m' = s_next st i m) -> chain st m h l -> chain st m' h l.
Proof.
  revert h. induction l as [|i l IH]; intros h Hag; cbn; [done|].
  intros (-> & Hi & Hne & n & Hn & Hc). split_and!; try done. exists n. split.
  - rewrite Hag by apply list_elem_of_here. done.
  - apply IH; [|done]. intros j Hj. apply Hag. by apply list_elem_of_further.
Qed.

Lemma holds_agree m m' l :
  s_head st m' = s_head st m -> (forall i, i ∈ l -> s_next st i m' = s_next st i m) ->
  holds st m l -> holds st m' l.
Proof.
  intros Hh Hag [Hnd (tag & h & Ht & Hh' & E & Hc)]. split; [done|].
  exists tag, h. split_and!; try done; [by rewrite Hh|by eapply chain_agree].
Qed.

Lemma holds_cons_inv m i l :
  holds st m (i :: l) ->
  is_u32 i /\ i <> EMPTY /\ (i ∉ l) /\
  exists tag n, is_u32 tag /\ is_u32 n /\ s_head st m = head_pack tag i /\
    s_next st i m = Some n /\ chain st m n l.
Proof.
  intros [[Hni Hnd]%list.NoDup_cons (tag & h & Ht & Hh & E & -> & Hi & Hne & n & Hn & Hc)].
  split_and!; try done. exists tag, n. split_and!; try done. by eapply chain_head_u32.
Qed.

(** A freshly linked stack: every node points to the next, the last one to [EMPTY]. *)
Lemma chain_counting m n k l :
  Z.of_nat k + l = n -> 0 <= l -> n <= U32_MAX ->
  (forall i, 0 <= i < n -> s_next st i m = Some (if i + 1 <? n then i + 1 else EMPTY)) ->
  chain st m (if l <? n then l else EMPTY) (seqZ l (Z.of_nat k)).
Proof.
  intros Hn Hl Hb Hnx. revert l Hn Hl. induction k as [|k IH]; intros l Hn Hl.
  - rewrite seqZ_nil by lia. rewrite (proj2 (Z.ltb_ge _ _)) by lia. done.
  - rewrite Nat2Z.inj_succ, seqZ_cons by lia. rewrite (proj2 (Z.ltb_lt _ _)) by lia.
    cbn [chain]. split_and!; [done|mach|unfold EMPTY; mach|].
    exists (if l + 1 <? n then l + 1 else EMPTY). split; [apply Hnx; lia|].
    rewrite Z.pred_succ, <- Z.add_1_r. apply IH; lia.
Qed.

Lemma run_load_head m : run (load_head st) m = Some (s_head st m, m).
Proof. done. Qed.

Lemma run_read_next m i n : s_next st i m = Some n -> run (read_next st i) m = Some (n, m).
Proof. intros E. cbn. by rewrite E. Qed.

Lemma run_cas_head_hit m old new :
  s_head st m = old -> run (cas_head st old new) m = Some ((true, old), s_set_head st new m).
Proof. intros <-. cbn. by rewrite Z.eqb_refl. Qed.

(** Popping a stack whose contents are [i :: l] returns [i], leaves [l], and
    changes only the head word. *)
Lemma run_pop_cons m i l fuel :
  ok m -> holds st m (i :: l) ->
  exists h, run (treiber_pop st (S fuel)) m = Some (Some (Some i), s_set_head st h m) /\
    holds st (s_set_head st h m) l.
Proof.
  intros Hok Hm. pose proof Hm as [[_ Hnd]%list.NoDup_cons _].
  destruct (holds_cons_inv m i l Hm) as (Hi & Hne & Hni & tag & n & Ht & Hn & E & Enext & Hc).
  exists (head_pack (wrap32 (tag + 1)) n). split.
  - apply run_retry_done. rewrite run_bind, run_load_head, E, head_unpack_pack by done.
    rewrite (proj2 (Z.eqb_neq i EMPTY)) by done.
    rewrite run_bind, (run_read_next m i n Enext).
    rewrite run_bind, run_cas_head_hit by done. done.
  - split; [done|]. exists (wrap32 (tag + 1)), n.
    split_and!; try done; [apply wrap32_u32|by apply (law_head st ok valid laws)|].
    apply (chain_agree m); [|done]. intros j _. apply (law_next_head st ok valid laws).
Qed.

Lemma run_pop_nil m fuel :
  holds st m [] -> run (treiber_pop st (S fuel)) m = Some (Some None, m).
Proof.
  intros [_ (tag & h & Ht & Hh & E & ->)]. apply run_retry_done.
  rewrite run_bind, run_load_head, E, head_unpack_pack by done. by rewrite Z.eqb_refl.
Qed.

(** Pushing a valid node that is not on the stack puts it on top and changes only
    its own link and the head word. *)
Lemma run_push m i l fuel :
  ok m -> valid i -> is_u32 i -> i <> EMPTY -> i ∉ l -> holds st m l ->
  exists n m1 h,
    s_set_next st i n m = Some m1 /\
    run (treiber_push st (S fuel) i) m = Some (Some tt, s_set_head st h m1) /\
    holds st (s_set_head st h m1) (i :: l) /\ ok (s_set_head st h m1).
Proof.
  intros Hok Hv Hi Hne Hni [Hnd (tag & old & Ht & Hold & E & Hc)].
  destruct (law_set_next st ok valid laws m i old Hok Hv) as (m1 & E1 & Hok1 & Eh & Hnx).
  exists old, m1, (head_pack (wrap32 (tag + 1)) i). split_and!; [done| | |].
  - apply run_retry_done. rewrite run_bind, run_load_head, E, head_unpack_pack by done.
    rewrite run_bind. unfold write_next. rewrite run_act, E1.
    rewrite run_bind, run_cas_head_hit by congruence. done.
  - split; [by apply list.NoDup_cons|]. exists (wrap32 (tag + 1)), i.
    split_and!; try done; [apply wrap32_u32|by apply (law_head st ok valid laws)|].
    cbn. split_and!; try done. exists old.
    rewrite (law_next_head st ok valid laws), Hnx, decide_True by done. split; [done|].
    apply (chain_agree m); [|done]. intros j Hj.
    rewrite (law_next_head st ok valid laws), Hnx, decide_False; [done|].
    intros ->. done.
  - by apply (law_ok_head st ok valid laws).
Qed.

(** The walk visits exactly the contents; [length l + 1] steps are enough. *)
Lemma walk_chain m h l fuel :
  chain st m h l -> (length l < fuel)%nat -> walk st fuel m h = Some l.
Proof.
  revert h fuel. induction l as [|i l IH]; intros h [|fuel] Hc Hf; cbn in *; try lia.
  - subst h. by rewrite Z.eqb_refl.
  - destruct Hc as (-> & Hi & Hne & n & Hn & Hc).
    rewrite (proj2 (Z.eqb_neq i EMPTY)), Hn, (IH n fuel Hc) by lia || done. done.
Qed.
End facts.

#[export] Hint Resolve EMPTY_u32 : shm.
