(* ===== verification/Pool.v ===== *)
(** * Size-class chunk pools

    [src/crates/shm-core/src/pool.rs]: the layout of a pool inside a segment
    payload, its creation, allocation and release through one Treiber free list
    per size class, and the resolution of a descriptor's offset back to its chunk.

    Memory: the class headers and the control array are lists; the payload is a
    finite map from payload offset to the 32-bit word stored there (the intrusive
    next-link of a free chunk, or whatever an owner wrote).  An offset with no word
    is outside the mapping. *)

From S2P Require Import Prelude Atomic ChunkDesc ChunkCtrl Treiber.

(** ** Configuration *)

Definition POOL_MAGIC : Z := of_le [83; 72; 77; 80; 79; 79; 76; 50]. (* b"SHMPOOL2" *)
Definition HEADER_SIZE : Z := 64.

(** [size_of] / [align_of] of the on-segment structs. *)
Definition SIZEOF_PoolHeader : Z := 24.
Definition SIZEOF_ClassHeader : Z := 32.
Definition SIZEOF_ChunkCtrl : Z := 16.
Definition ALIGNOF_ChunkCtrl : Z := 8.

Record SizeClass : Set := mkSizeClass { sc_size : Z; sc_count : Z }.

(** [PoolConfig], smallest class first. *)
Definition PoolConfig : Set := list SizeClass.

(** [u32::next_power_of_two] (release build: [2^32] wraps to [0]). *)
Definition next_power_of_two (x : Z) : Z := if x <=? 1 then 1 else wrap32 (2 ^ Z.log2_up x).

Fixpoint power_of_two_loop (fuel : nat) (size max count : Z) : option PoolConfig :=
  match fuel with
  | O => None
  | S fuel' =>
      let c := mkSizeClass size count in
      if max <=? size then Some [c]
      else
        match power_of_two_loop fuel' (wrap32 (Z.shiftl size 1)) max count with
        | Some cs => Some (c :: cs)
        | None => None
        end
  end.

Definition power_of_two (min_size max_size count_per_class : Z) : option PoolConfig :=
  let min := next_power_of_two (Z.max min_size 64) in
  let max := next_power_of_two (Z.max max_size min) in
  power_of_two_loop 33 min max count_per_class.

Definition config_max_chunk_size (cfg : PoolConfig) : Z :=
  foldr Z.max 0 (sc_size <$> cfg).

(** ** Layout *)

Record Layout : Set := mkLayout {
  classes_offset : Z;
  ctrl_offset : Z;
  data_offsets : list Z;
  base_indices : list Z;
  total_chunks : Z;
  total_bytes : Z
}.

Fixpoint base_loop (cs : PoolConfig) (total : Z) : list Z * Z :=
  match cs with
  | [] => ([], total)
  | c :: cs' =>
      let '(bs, t) := base_loop cs' (wrap32 (total + sc_count c)) in
      (total :: bs, t)
  end.

Fixpoint data_loop (cs : PoolConfig) (off : Z) : list Z * Z :=
  match cs with
  | [] => ([], off)
  | c :: cs' =>
      let data_off := align_up off 64 in
      let '(ds, t) := data_loop cs' (wrap64 (data_off + sc_count c * sc_size c)) in
      (data_off :: ds, t)
  end.

Definition compute_layout (cfg : PoolConfig) : Layout :=
  let num_classes := Z.of_nat (length cfg) in
  let '(base_indices, total_chunks) := base_loop cfg 0 in
  let classes_offset := align_up SIZEOF_PoolHeader 8 in
  let after_classes := classes_offset + num_classes * SIZEOF_ClassHeader in
  let ctrl_offset := align_up after_classes ALIGNOF_ChunkCtrl in
  let off := ctrl_offset + total_chunks * SIZEOF_ChunkCtrl in
  let '(data_offsets, total_bytes) := data_loop cfg off in
  mkLayout classes_offset ctrl_offset data_offsets base_indices total_chunks total_bytes.

(** ** Memory *)

Record ClassHeader : Set := mkClass {
  head : Z;
  chunk_size : Z;
  chunk_count : Z;
  base_index : Z;
  data_offset : Z
}.

Record PoolHeader : Set := mkPoolHeader {
  magic : Z;
  hdr_num_classes : Z;
  hdr_total_chunks : Z;
  hdr_classes_offset : Z;
  hdr_ctrl_offset : Z
}.

Record PoolMem : Set := mkPoolMem {
  hdr : PoolHeader;
  classes : list ClassHeader;
  ctrls : list ChunkCtrl;
  words : gmap Z Z
}.

Definition set_classes (cs : list ClassHeader) (m : PoolMem) : PoolMem :=
  mkPoolMem (hdr m) cs (ctrls m) (words m).
Definition set_ctrls (cs : list ChunkCtrl) (m : PoolMem) : PoolMem :=
  mkPoolMem (hdr m) (classes m) cs (words m).
Definition set_words (w : gmap Z Z) (m : PoolMem) : PoolMem :=
  mkPoolMem (hdr m) (classes m) (ctrls m) w.
Definition set_class_head (h : Z) (c : ClassHeader) : ClassHeader :=
  mkClass h (chunk_size c) (chunk_count c) (base_index c) (data_offset c).

(** What the handle needs of its segment. *)
Record Segment : Set := mkSegment { seg_id : Z; payload_len : Z }.

(** The process-local handle. *)
Record Pool : Set := mkPool { segment : Segment; num_classes : Z; pool_total : Z }.

(** Payload offset of chunk [(class, local)]. *)
Definition chunk_ptr (c : ClassHeader) (local : Z) : Z := data_offset c + local * chunk_size c.

(** The initial free-list link chain of one class: [0 -> 1 -> ... -> EMPTY]. *)
Definition init_link (c : ClassHeader) (local : Z) : Z :=
  if local + 1 <? chunk_count c then local + 1 else EMPTY.

Definition init_links (c : ClassHeader) (w : gmap Z Z) : gmap Z Z :=
  foldl (fun w local => <[chunk_ptr c local := init_link c local]> w) w (seqZ 0 (chunk_count c)).

Fixpoint make_classes (cs : PoolConfig) (offs bases : list Z) : list ClassHeader :=
  match cs, offs, bases with
  | c :: cs', o :: offs', b :: bases' =>
      let head_slot := if 0 <? sc_count c then 0 else EMPTY in
      mkClass (head_pack 0 head_slot) (sc_size c) (sc_count c) b (wrap32 o)
        :: make_classes cs' offs' bases'
  | _, _, _ => []
  end.

Definition create (seg : Segment) (cfg : PoolConfig) : result CoreError (Pool * PoolMem) :=
  match cfg with
  | [] => Err LayoutOverflow
  | _ =>
      let layout := compute_layout cfg in
      if payload_len seg <? total_bytes layout then Err LayoutOverflow
      else
        let cs := make_classes cfg (data_offsets layout) (base_indices layout) in
        Ok (mkPool seg (Z.of_nat (length cfg)) (total_chunks layout),
            mkPoolMem
              (mkPoolHeader POOL_MAGIC (wrap32 (Z.of_nat (length cfg))) (total_chunks layout)
                 (wrap32 (classes_offset layout)) (wrap32 (ctrl_offset layout)))
              cs
              (replicate (Z.to_nat (total_chunks layout)) (init_at 0))
              (foldl (fun w c => init_links c w) ∅ cs))
  end.

(** Attaching trusts the header's counts once the magic matches. *)
Definition attach (seg : Segment) (m : PoolMem) : result CoreError Pool :=
  if negb (magic (hdr m) =? POOL_MAGIC) then Err LayoutMismatch
  else Ok (mkPool seg (hdr_num_classes (hdr m)) (hdr_total_chunks (hdr m))).

(** ** Operations *)

Section pool_ops.
Variable p : Pool.

Definition class (i : nat) : prog PoolMem ClassHeader :=
  act (fun m => match classes m !! i with Some c => Some (c, m) | None => None end).

Definition class_indices : list nat := seq 0 (Z.to_nat (num_classes p)).

Definition max_chunk_size : prog PoolMem Z :=
  for_fold class_indices (fun acc i => c <- class i ;; Ret (Z.max acc (chunk_size c))) 0.

(** The free list of class [i], whose header is [c]. *)
Definition class_stack (i : nat) (c : ClassHeader) : stack_ops PoolMem := {|
  s_head m := match classes m !! i with Some c' => head c' | None => 0 end;
  s_set_head h m := set_classes (alter (set_class_head h) i (classes m)) m;
  s_next slot m := words m !! chunk_ptr c slot;
  s_set_next slot next m :=
    match words m !! chunk_ptr c slot with
    | Some _ => Some (set_words (<[chunk_ptr c slot := next]> (words m)) m)
    | None => None
    end
|}.

Definition ctrl_at {A} (global : Z) (q : prog ChunkCtrl A) : prog PoolMem A :=
  lift (elem ctrls set_ctrls (Z.to_nat global)) q.

Definition alloc (fuel : nat) (size : Z) : prog PoolMem (option (result CoreError ChunkDesc)) :=
  found <- for_each class_indices (fun i =>
    c <- class i ;; Ret (if size <=? chunk_size c then Some i else None)) ;;
  match found with
  | None => Ret (Some (Err LayoutOverflow))
  | Some class_idx =>
      c <- class class_idx ;;
      popped <- treiber_pop (class_stack class_idx c) fuel ;;
      match popped with
      | None => Ret None
      | Some None => Ret (Some (Err PoolExhausted))
      | Some (Some local) =>
          let global := base_index c + local in
          generation <- ctrl_at global ChunkCtrl.generation ;;
          let seg_offset := HEADER_SIZE + data_offset c + local * chunk_size c in
          Ret (Some (Ok (mkChunkDesc (seg_id (segment p)) generation (wrap32 seg_offset)
                           (chunk_size c) 0 0)))
      end
  end.

Definition locate (seg_offset : Z) : prog PoolMem (result CoreError (nat * Z * Z)) :=
  if seg_offset <? HEADER_SIZE then Ret (Err OutOfBounds)
  else
    let payload_off := seg_offset - HEADER_SIZE in
    found <- for_each class_indices (fun i =>
      c <- class i ;;
      let start := data_offset c in
      let span := chunk_count c * chunk_size c in
      Ret (if (start <=? payload_off) && (payload_off <? start + span) then
        let rel := payload_off - start in
        if negb (rel mod chunk_size c =? 0) then Some (Err Misaligned)
        else
          let local := wrap32 (rel / chunk_size c) in
          Some (Ok (i, local, base_index c + local))
      else None)) ;;
    Ret (match found with Some r => r | None => Err OutOfBounds end).

(** [ctrl]: run a control-word method on the chunk a descriptor points at. *)
Definition ctrl {A} (desc : ChunkDesc) (q : prog ChunkCtrl A) : prog PoolMem (result CoreError A) :=
  r <- locate (offset desc) ;;
  match r with
  | Err e => Ret (Err e)
  | Ok (_, _, global) => a <- ctrl_at global q ;; Ret (Ok a)
  end.

Definition ctrl_by_index {A} (global : Z) (q : prog ChunkCtrl A)
    : prog PoolMem (result CoreError A) :=
  if pool_total p <=? global then Ret (Err OutOfBounds)
  else a <- ctrl_at global q ;; Ret (Ok a).

Definition free (fuel : nat) (desc : ChunkDesc) : prog PoolMem (option (result CoreError unit)) :=
  r <- locate (offset desc) ;;
  match r with
  | Err e => Ret (Some (Err e))
  | Ok (class_idx, local, _) =>
      c <- class class_idx ;;
      pushed <- treiber_push (class_stack class_idx c) fuel local ;;
      Ret (match pushed with Some _ => Some (Ok tt) | None => None end)
  end.

(** [free_count]'s walk; [fuel] bounds its length. *)
Definition free_count (fuel class_idx : nat) : prog PoolMem (option Z) :=
  c <- class class_idx ;;
  h <- load_head (class_stack class_idx c) ;;
  (fix go (fuel : nat) (slot n : Z) : prog PoolMem (option Z) :=
     match fuel with
     | O => Ret None
     | S fuel' =>
         if slot =? EMPTY then Ret (Some n)
         else next <- read_next (class_stack class_idx c) slot ;; go fuel' next (n + 1)
     end) fuel (head_unpack h).2 0.
End pool_ops.

(** A small pool, used as the running example. *)
Definition demo_cfg : PoolConfig := [mkSizeClass 64 3; mkSizeClass 256 2].
Definition demo_seg : Segment := mkSegment 9 2048.

(** ** Geometry *)

(** A class's geometry: a positive chunk size that is a multiple of 64 (so chunks
    are cache-line aligned and can hold the link word). *)
Definition class_geom (c : ClassHeader) : Prop :=
  0 < chunk_size c /\ (64 | chunk_size c) /\ is_u32 (chunk_size c) /\ is_u32 (chunk_count c).

(** The class regions follow each other from [lo], aligned, and end before [hi];
    their chunks are numbered consecutively from [base] and end at [total]. *)
Fixpoint laid_out (lo hi base total : Z) (cs : list ClassHeader) : Prop :=
  match cs with
  | [] => lo <= hi /\ base = total
  | c :: cs' =>
      class_geom c /\ lo <= data_offset c /\ (64 | data_offset c) /\ base_index c = base /\
      laid_out (data_offset c + chunk_count c * chunk_size c) hi (base + chunk_count c) total cs'
  end.

Lemma laid_out_bounds lo hi base total cs : laid_out lo hi base total cs -> lo <= hi /\ base <= total.
Proof.
  revert lo base. induction cs as [|c cs IH]; intros lo base; cbn; [lia|].
  intros ((Hs & _ & _ & Hc) & Hlo & _ & _ & H). apply IH in H.
  assert (0 <= chunk_count c * chunk_size c) by (apply Z.mul_nonneg_nonneg; mach). mach.
Qed.

Lemma laid_out_lookup lo hi base total cs i c :
  laid_out lo hi base total cs -> cs !! i = Some c ->
  class_geom c /\ lo <= data_offset c /\ (64 | data_offset c) /\
  data_offset c + chunk_count c * chunk_size c <= hi /\
  base <= base_index c /\ base_index c + chunk_count c <= total.
Proof.
  revert lo base i. induction cs as [|d cs IH]; intros lo base [|i] H Hi; cbn in *; simplify_eq.
  - destruct H as (Hg & Hlo & H64 & Hb & H). apply laid_out_bounds in H.
    split_and!; try done; lia.
  - destruct H as (Hg & Hlo & H64 & Hb & H).
    destruct (IH _ _ i H Hi) as (? & ? & ? & ? & ? & ?). destruct Hg as (? & ? & ? & Hc).
    assert (0 <= chunk_count d * chunk_size d) by (apply Z.mul_nonneg_nonneg; mach).
    split_and!; try done; mach.
Qed.

(** Two different classes' regions do not overlap, and neither do their index
    ranges. *)
Lemma laid_out_order lo hi base total cs i j c d :
  laid_out lo hi base total cs -> cs !! i = Some c -> cs !! j = Some d -> (i < j)%nat ->
  data_offset c + chunk_count c * chunk_size c <= data_offset d /\
  base_index c + chunk_count c <= base_index d.
Proof.
  revert lo base i j. induction cs as [|e cs IH]; intros lo base i j H Hi Hj Hij; [done|].
  destruct H as (Hg & Hlo & H64 & Hb & H). destruct j as [|j]; [lia|]. cbn in Hj.
  destruct i as [|i]; cbn in Hi; simplify_eq.
  - destruct (laid_out_lookup _ _ _ _ _ _ _ H Hj) as (? & ? & ? & ? & ? & ?). lia.
  - eapply IH; eauto. lia.
Qed.

Lemma chunk_ptr_range c l :
  class_geom c -> 0 <= l < chunk_count c ->
  data_offset c <= chunk_ptr c l /\
  chunk_ptr c l + chunk_size c <= data_offset c + chunk_count c * chunk_size c.
Proof. intros (Hs & _) Hl. unfold chunk_ptr. nia. Qed.

(** Distinct chunks occupy disjoint byte ranges and have distinct indices. *)
Lemma chunks_disjoint lo hi base total cs i j c d l k :
  laid_out lo hi base total cs -> cs !! i = Some c -> cs !! j = Some d ->
  0 <= l < chunk_count c -> 0 <= k < chunk_count d -> (i, l) <> (j, k) ->
  (chunk_ptr c l + chunk_size c <= chunk_ptr d k \/ chunk_ptr d k + chunk_size d <= chunk_ptr c l) /\
  base_index c + l <> base_index d + k.
Proof.
  intros H Hi Hj Hl Hk Hne.
  destruct (laid_out_lookup _ _ _ _ _ _ _ H Hi) as (Gc & _).
  destruct (laid_out_lookup _ _ _ _ _ _ _ H Hj) as (Gd & _).
  pose proof (chunk_ptr_range c l Gc Hl). pose proof (chunk_ptr_range d k Gd Hk).
  destruct (decide (i = j)) as [<-|Hij].
  - simplify_eq. assert (l <> k) by congruence. destruct Gc as (Hs & _).
    unfold chunk_ptr in *. split; [|lia].
    destruct (Z.lt_trichotomy l k) as [?|[?|?]]; [left|lia|right]; nia.
  - destruct (Nat.lt_trichotomy i j) as [Hlt|[->|Hlt]]; [|done|].
    + pose proof (laid_out_order _ _ _ _ _ _ _ _ _ H Hi Hj Hlt). lia.
    + pose proof (laid_out_order _ _ _ _ _ _ _ _ _ H Hj Hi Hlt). lia.
Qed.

Lemma chunk_ptr_inj lo hi base total cs i j c d l k :
  laid_out lo hi base total cs -> cs !! i = Some c -> cs !! j = Some d ->
  0 <= l < chunk_count c -> 0 <= k < chunk_count d ->
  chunk_ptr c l = chunk_ptr d k -> (i, l) = (j, k).
Proof.
  intros H Hi Hj Hl Hk E. destruct (decide ((i, l) = (j, k))) as [?|Hne]; [done|].
  destruct (chunks_disjoint _ _ _ _ _ _ _ _ _ _ _ H Hi Hj Hl Hk Hne) as [[?|?] _];
    destruct (laid_out_lookup _ _ _ _ _ _ _ H Hi) as ((? & _) & _);
    destruct (laid_out_lookup _ _ _ _ _ _ _ H Hj) as ((? & _) & _); lia.
Qed.
