(* ===== verification/PoolInv.v ===== *)
(** * Correctness of the pool

    The abstract state of a pool is one free list per class.  [pool_inv] ties the
    memory to it; every operation of [Pool] is shown to act on the free lists as an
    allocator should, and the byte ranges it hands out never overlap. *)

From S2P Require Import Prelude Atomic ChunkDesc ChunkCtrl Treiber Pool.

(** ** The invariant *)

Definition links_ok (m : PoolMem) : Prop :=
  forall i c l, classes m !! i = Some c -> 0 <= l < chunk_count c ->
    is_Some (words m !! chunk_ptr c l).

(** Everything but the free lists' contents: the geometry, the control array and
    the presence of the link words. *)
Record pool_geom (p : Pool) (m : PoolMem) : Prop := {
  geom_classes : num_classes p = Z.of_nat (length (classes m));
  geom_total : pool_total p = Z.of_nat (length (ctrls m));
  geom_layout : exists lo hi, 0 <= lo /\
    (hi + HEADER_SIZE <= U32_MOD /\ hi <= payload_len (segment p)) /\
    laid_out lo hi 0 (Z.of_nat (length (ctrls m))) (classes m);
  geom_links : links_ok m
}.

Definition class_holds (m : PoolMem) (i : nat) (f : list Z) : Prop :=
  exists c, classes m !! i = Some c /\ holds (class_stack i c) m f /\
    Forall (fun l => 0 <= l < chunk_count c) f.

Definition pool_inv (p : Pool) (m : PoolMem) (fl : list (list Z)) : Prop :=
  pool_geom p m /\ length fl = length (classes m) /\
  forall i f, fl !! i = Some f -> class_holds m i f.

(** ** Frame lemmas: what a head or link update leaves alone *)

Lemma laid_out_set_head lo hi base total cs i h :
  laid_out lo hi base total cs -> laid_out lo hi base total (alter (set_class_head h) i cs).
Proof.
  revert lo base i. induction cs as [|c cs IH]; intros lo base [|i]; cbn; try done.
  - intros (Hg & ? & ? & ? & H). split_and!; try done. by apply IH.
Qed.

Lemma lookup_set_head i j h (cs : list ClassHeader) c :
  alter (set_class_head h) i cs !! j = Some c ->
  exists c', cs !! j = Some c' /\ (c = c' \/ (i = j /\ c = set_class_head h c')).
Proof.
  destruct (decide (i = j)) as [<-|Hne].
  - rewrite list_lookup_alter_eq. destruct (cs !! i) as [c'|]; cbn; [|done].
    intros [= <-]. eauto 10.
  - rewrite list_lookup_alter_ne by done. eauto.
Qed.

Lemma pool_geom_set_head p m i h :
  pool_geom p m -> pool_geom p (set_classes (alter (set_class_head h) i (classes m)) m).
Proof.
  intros [H1 H2 (lo & hi & ? & ? & H3) H4]. split; cbn.
  - by rewrite length_alter.
  - done.
  - exists lo, hi. split; [done|]. split; [done|]. by apply laid_out_set_head.
  - intros j c l Hj Hl. destruct (lookup_set_head i j h _ c Hj) as (c' & Hj' & [->|[_ ->]]);
      by apply (H4 j c' l).
Qed.

Lemma pool_geom_set_word p m a v :
  pool_geom p m -> pool_geom p (set_words (<[a := v]> (words m)) m).
Proof.
  intros [H1 H2 H3 H4]. split; cbn; try done.
  intros i c l Hi Hl. cbn [words set_words]. rewrite lookup_insert. case_decide; [by eexists|]. by apply (H4 i c l).
Qed.

(** The free list of class [i] obeys the stack interface. *)
Lemma class_stack_laws p i c :
  class_geom c ->
  stack_laws (class_stack i c)
    (fun m => pool_geom p m /\ exists h, classes m !! i = Some (set_class_head h c))
    (fun l => 0 <= l < chunk_count c).
Proof.
  intros Gc.
  assert (Hinj : forall a b, chunk_ptr c a = chunk_ptr c b -> a = b).
  { intros a b. destruct Gc as (Hs & _). unfold chunk_ptr. nia. }
  split; cbn.
  - intros m h [_ (h0 & Hi)]. rewrite list_lookup_alter_eq, Hi. done.
  - done.
  - intros m h [Hg (h0 & Hi)]. split; [by apply pool_geom_set_head|].
    exists h. by rewrite list_lookup_alter_eq, Hi.
  - intros m l [Hg (h0 & Hi)] Hl. apply (geom_links p m Hg i (set_class_head h0 c) l Hi Hl).
  - intros m l n [Hg (h0 & Hi)] Hl.
    destruct (geom_links p m Hg i (set_class_head h0 c) l Hi Hl) as [v Hv].
    change (chunk_ptr (set_class_head h0 c) l) with (chunk_ptr c l) in Hv. rewrite Hv.
    eexists. split; [done|]. split_and!; [by apply pool_geom_set_word|by exists h0|done|].
    intros j. cbn. rewrite lookup_insert. destruct (decide (l = j)) as [->|Hne].
    + by rewrite decide_True.
    + rewrite decide_False; [done|]. intros E. apply Hne. by apply Hinj.
Qed.

(** Updating class [i] leaves the free list of another class alone. *)
Lemma class_holds_other p m i j f h upd :
  pool_geom p m -> i <> j -> class_holds m j f ->
  (forall c, classes m !! i = Some c ->
     upd = words m \/ exists l n, 0 <= l < chunk_count c /\ upd = <[chunk_ptr c l := n]> (words m)) ->
  is_Some (classes m !! i) ->
  class_holds (mkPoolMem (hdr m) (alter (set_class_head h) i (classes m)) (ctrls m) upd) j f.
Proof.
  intros Hg Hij (d & Hj & Hd & Hf) Hupd [c Hi]. exists d. cbn.
  rewrite list_lookup_alter_ne by done. split_and!; try done.
  apply (holds_agree m); [cbn; by rewrite list_lookup_alter_ne| |done].
  intros k Hk. cbn. rewrite list.Forall_forall in Hf. specialize (Hf k Hk).
  destruct (Hupd c Hi) as [->|(l & n & Hl & ->)]; [done|].
  rewrite lookup_insert_ne; [done|]. intros E.
  destruct (geom_layout p m Hg) as (lo & hi & _ & _ & Hlo).
  pose proof (chunk_ptr_inj _ _ _ _ _ _ _ _ _ _ _ Hlo Hi Hj Hl Hf E). naive_solver.
Qed.

(** ** Scans over the class headers *)

Fixpoint scan {C} (F : nat -> ClassHeader -> option C) (k : nat) (cs : list ClassHeader) : option C :=
  match cs with
  | [] => None
  | c :: cs' => match F k c with Some r => Some r | None => scan F (S k) cs' end
  end.

Lemma run_scan_from {C} (F : nat -> ClassHeader -> option C) m k cs :
  drop k (classes m) = cs ->
  run (for_each (seq k (length cs)) (fun i => c <- class i ;; Ret (F i c))) m = Some (scan F k cs, m).
Proof.
  revert k. induction cs as [|c cs IH]; intros k Hk; [done|].
  assert (Hc : classes m !! k = Some c).
  { rewrite <- (Nat.add_0_r k), <- lookup_drop, Hk. done. }
  cbn [length seq for_each]. rewrite run_bind, run_bind.
  unfold class at 1. rewrite run_act, Hc. cbn [run scan].
  destruct (F k c) as [r|]; [done|]. apply IH.
  rewrite (drop_S _ _ _ Hc) in Hk. by simplify_eq.
Qed.

Lemma run_scan {C} p (F : nat -> ClassHeader -> option C) m :
  num_classes p = Z.of_nat (length (classes m)) ->
  run (for_each (class_indices p) (fun i => c <- class i ;; Ret (F i c))) m =
    Some (scan F 0 (classes m), m).
Proof. intros H. unfold class_indices. rewrite H, Nat2Z.id. by apply run_scan_from. Qed.

Lemma scan_Some {C} (F : nat -> ClassHeader -> option C) k cs r :
  scan F k cs = Some r <->
  exists i c, cs !! i = Some c /\ F (k + i)%nat c = Some r /\
    forall j d, (j < i)%nat -> cs !! j = Some d -> F (k + j)%nat d = None.
Proof.
  revert k. induction cs as [|c cs IH]; intros k; cbn; [naive_solver|].
  destruct (F k c) as [r'|] eqn:E.
  - split.
    + intros [= ->]. exists 0%nat, c. rewrite Nat.add_0_r. split_and!; try done. intros; lia.
    + intros ([|i] & d & Hi & Hr & Hlt); cbn in *.
      * rewrite Nat.add_0_r in Hr. congruence.
      * specialize (Hlt 0%nat c ltac:(lia) eq_refl). rewrite Nat.add_0_r in Hlt. congruence.
  - rewrite IH. split.
    + intros (i & d & Hi & Hr & Hlt). exists (S i), d. rewrite Nat.add_succ_r. split_and!; try done.
      intros [|j] e Hj He; cbn in *; simplify_eq; [by rewrite Nat.add_0_r|].
      rewrite Nat.add_succ_r. apply (Hlt j); [lia|done].
    + intros ([|i] & d & Hi & Hr & Hlt); cbn in *; simplify_eq.
      * rewrite Nat.add_0_r in Hr. congruence.
      * exists i, d. rewrite Nat.add_succ_r in Hr. split_and!; try done.
        intros j e Hj He. specialize (Hlt (S j) e ltac:(lia) He).
        by rewrite Nat.add_succ_r in Hlt.
Qed.

Lemma scan_None {C} (F : nat -> ClassHeader -> option C) k cs :
  scan F k cs = None <-> forall i c, cs !! i = Some c -> F (k + i)%nat c = None.
Proof.
  revert k. induction cs as [|c cs IH]; intros k; cbn; [naive_solver|].
  destruct (F k c) as [r'|] eqn:E.
  - split; [done|]. intros H. specialize (H 0%nat c eq_refl). rewrite Nat.add_0_r in H. congruence.
  - rewrite IH. split.
    + intros H [|i] d Hi; cbn in *; simplify_eq; [by rewrite Nat.add_0_r|].
      rewrite Nat.add_succ_r. by apply H.
    + intros H i d Hi. specialize (H (S i) d Hi). by rewrite Nat.add_succ_r in H.
Qed.

(** The first class large enough for a request. *)
Definition first_fit (size : Z) (cs : list ClassHeader) : option nat :=
  scan (fun i c => if size <=? chunk_size c then Some i else None) 0 cs.

Lemma first_fit_Some size cs i :
  first_fit size cs = Some i <->
  exists c, cs !! i = Some c /\ size <= chunk_size c /\
    forall j d, (j < i)%nat -> cs !! j = Some d -> chunk_size d < size.
Proof.
  unfold first_fit. rewrite scan_Some. cbn. split.
  - intros (j & c & Hj & Hr & Hlt). destruct (Z.leb_spec size (chunk_size c)); simplify_eq.
    exists c. split_and!; try done. intros k d Hk Hd. specialize (Hlt k d Hk Hd).
    destruct (Z.leb_spec size (chunk_size d)); [done|lia].
  - intros (c & Hi & Hc & Hlt). exists i, c. split_and!; try done.
    + by rewrite (proj2 (Z.leb_le _ _) Hc).
    + intros j d Hj Hd. specialize (Hlt j d Hj Hd). by rewrite (proj2 (Z.leb_gt _ _) Hlt).
Qed.


(** ** Locating a chunk from its offset *)

(** The byte offset, from the start of the segment, of chunk [l] of class [c]. *)
Definition seg_offset_of (c : ClassHeader) (l : Z) : Z := HEADER_SIZE + chunk_ptr c l.

Lemma chunk_located p m i c l :
  pool_geom p m -> classes m !! i = Some c -> 0 <= l < chunk_count c ->
  run (locate p (seg_offset_of c l)) m = Some (Ok (i, l, base_index c + l), m).
Proof.
  intros Hg Hi Hl. destruct (geom_layout p m Hg) as (lo & hi & Hlo0 & Hhi & Hlo).
  destruct (laid_out_lookup _ _ _ _ _ _ _ Hlo Hi) as (Gc & Hdo & _ & _).
  pose proof (chunk_ptr_range c l Gc Hl) as Hr.
  unfold locate, seg_offset_of. rewrite (proj2 (Z.ltb_ge _ _)) by lia.
  replace (HEADER_SIZE + chunk_ptr c l - HEADER_SIZE) with (chunk_ptr c l) by lia.
  rewrite run_bind, (run_scan p) by apply Hg. cbn [run].
  match goal with |- context [scan ?F 0 _] => assert (E : scan F 0 (classes m) = Some (Ok (i, l, base_index c + l))) end;
    [|by rewrite E].
  apply scan_Some. exists i, c. cbn [Nat.add]. destruct Gc as (Hs & _ & _ & Hcc). split_and!; [done| |].
  - rewrite (proj2 (Z.leb_le _ _)), (proj2 (Z.ltb_lt _ _)) by lia. cbn [andb].
    unfold chunk_ptr. replace (data_offset c + l * chunk_size c - data_offset c) with (l * chunk_size c) by lia.
    rewrite Z.mod_mul, Z.div_mul, wrap32_id by mach. done.
  - intros j d Hji Hj. pose proof (laid_out_order _ _ _ _ _ _ _ _ _ Hlo Hj Hi Hji) as [? _].
    rewrite (proj2 (Z.ltb_ge (chunk_ptr c l) _)) by lia. by rewrite andb_false_r.
Qed.

(** [locate] accepts exactly the chunk starts. *)
Lemma locate_inv p m off r :
  pool_geom p m -> run (locate p off) m = Some (Ok r, m) ->
  exists i c l, classes m !! i = Some c /\ 0 <= l < chunk_count c /\
    off = seg_offset_of c l /\ r = (i, l, base_index c + l).
Proof.
  intros Hg. destruct (geom_layout p m Hg) as (lo & hi & Hlo0 & Hhi & Hlo).
  unfold locate. destruct (Z.ltb_spec off HEADER_SIZE); [done|].
  rewrite run_bind, (run_scan p) by apply Hg. cbn [run]. intros [= E].
  match type of E with context [scan ?F 0 _] => destruct (scan F 0 (classes m)) as [r'|] eqn:Es end;
    [|done]. subst r'.
  apply scan_Some in Es as (i & c & Hi & HF & _). cbn [Nat.add] in HF.
  destruct (laid_out_lookup _ _ _ _ _ _ _ Hlo Hi) as ((Hs & _ & _ & Hcc) & _).
  destruct (Z.leb_spec (data_offset c) (off - HEADER_SIZE)); [|done].
  destruct (Z.ltb_spec (off - HEADER_SIZE) (data_offset c + chunk_count c * chunk_size c)); [|done].
  cbn [andb] in HF.
  destruct (Z.eqb_spec ((off - HEADER_SIZE - data_offset c) mod chunk_size c) 0) as [Em|]; [|done].
  cbn [negb] in HF. set (rel := off - HEADER_SIZE - data_offset c) in *.
  pose proof (Z.div_mod rel (chunk_size c) ltac:(lia)) as Hdm. rewrite Em in Hdm.
  assert (Hl : 0 <= rel / chunk_size c < chunk_count c)
    by (split; [apply Z.div_pos; lia|apply Z.div_lt_upper_bound; lia]).
  rewrite wrap32_id in HF by mach.
  exists i, c, (rel / chunk_size c). split_and!; try done; try lia; [|congruence].
  unfold seg_offset_of, chunk_ptr. lia.
Qed.

(** [locate] reads only. *)
Lemma locate_total p m off : pool_geom p m -> exists r, run (locate p off) m = Some (r, m).
Proof.
  intros Hg. unfold locate. destruct (Z.ltb_spec off HEADER_SIZE); [by eexists|].
  rewrite run_bind, (run_scan p) by apply Hg. by eexists.
Qed.

(** ** Allocation *)

Definition chunk_desc (p : Pool) (c : ClassHeader) (l gen : Z) : ChunkDesc :=
  mkChunkDesc (seg_id (segment p)) gen (seg_offset_of c l) (chunk_size c) 0 0.

Lemma class_holds_set_head m i h f c :
  classes m !! i = Some c ->
  holds (class_stack i c) (s_set_head (class_stack i c) h m) f ->
  Forall (fun l => 0 <= l < chunk_count c) f ->
  class_holds (set_classes (alter (set_class_head h) i (classes m)) m) i f.
Proof.
  intros Hi Hh Hf. exists (set_class_head h c). cbn. rewrite list_lookup_alter_eq, Hi. done.
Qed.

Lemma seg_offset_bounds p m i c l :
  pool_geom p m -> classes m !! i = Some c -> 0 <= l < chunk_count c ->
  class_geom c /\ is_u32 (seg_offset_of c l) /\ seg_offset_of c l + chunk_size c <= U32_MOD /\
  HEADER_SIZE <= seg_offset_of c l /\ (64 | seg_offset_of c l) /\ is_u32 l /\
  0 <= base_index c + l < pool_total p.
Proof.
  intros Hg Hi Hl. destruct (geom_layout p m Hg) as (lo & hi & Hlo0 & Hhi & Hlo).
  destruct (laid_out_lookup _ _ _ _ _ _ _ Hlo Hi) as (Gc & Hdo & H64 & Hend & Hb & Hbt).
  pose proof (chunk_ptr_range c l Gc Hl) as Hr. pose proof Gc as (Hs & Hs64 & Hsu & Hcu).
  rewrite (geom_total p m Hg). unfold seg_offset_of.
  assert (64 | HEADER_SIZE + chunk_ptr c l).
  { apply Z.divide_add_r; [by exists 1|]. apply Z.divide_add_r; [done|by apply Z.divide_mul_r]. }
  unfold HEADER_SIZE in *. split_and!; try done; mach.
Qed.

Lemma alloc_no_class p m fl fuel size :
  pool_inv p m fl -> first_fit size (classes m) = None ->
  run (alloc p fuel size) m = Some (Some (Err LayoutOverflow), m).
Proof.
  intros [Hg _] Hff. unfold alloc. rewrite run_bind, (run_scan p) by apply Hg.
  unfold first_fit in Hff. by rewrite Hff.
Qed.

Lemma run_alloc_class p m fuel size i c :
  pool_geom p m -> first_fit size (classes m) = Some i -> classes m !! i = Some c ->
  run (alloc p fuel size) m =
    match run (treiber_pop (class_stack i c) fuel) m with
    | Some (None, m') => Some (None, m')
    | Some (Some None, m') => Some (Some (Err PoolExhausted), m')
    | Some (Some (Some l), m') =>
        match ctrls m' !! Z.to_nat (base_index c + l) with
        | Some k => Some (Some (Ok (mkChunkDesc (seg_id (segment p)) (ctrl_gen k)
                     (wrap32 (HEADER_SIZE + data_offset c + l * chunk_size c)) (chunk_size c) 0 0)), m')
        | None => None
        end
    | None => None
    end.
Proof.
  intros Hg Hff Hi. unfold alloc. rewrite run_bind, (run_scan p) by apply Hg.
  unfold first_fit in Hff. rewrite Hff. rewrite run_bind. unfold class at 1.
  rewrite run_act, Hi, run_bind.
  destruct (run (treiber_pop (class_stack i c) fuel) m) as [[[[l|]|] m']|]; try done.
  rewrite run_bind. unfold ctrl_at, ChunkCtrl.generation, load. cbn. unfold elem.
  destruct (ctrls m' !! Z.to_nat (base_index c + l)) as [k|] eqn:Ek; [|done]. cbn.
  rewrite list_insert_id by done. by destruct m'.
Qed.

Lemma alloc_exhausted p m fl fuel size i :
  pool_inv p m fl -> first_fit size (classes m) = Some i -> fl !! i = Some [] ->
  run (alloc p (S fuel) size) m = Some (Some (Err PoolExhausted), m).
Proof.
  intros (Hg & Hlen & Hcl) Hff Hfl. destruct (Hcl i [] Hfl) as (c & Hi & Hh & _).
  rewrite (run_alloc_class p m _ size i c Hg Hff Hi). by rewrite run_pop_nil.
Qed.

(** Updating the head of class [i] and possibly one of its links. *)
Lemma pool_inv_update p m fl i c f h upd :
  pool_inv p m fl -> classes m !! i = Some c ->
  (upd = words m \/ exists l n, 0 <= l < chunk_count c /\ upd = <[chunk_ptr c l := n]> (words m)) ->
  let m' := mkPoolMem (hdr m) (alter (set_class_head h) i (classes m)) (ctrls m) upd in
  holds (class_stack i c) m' f -> Forall (fun l => 0 <= l < chunk_count c) f ->
  pool_inv p m' (<[i := f]> fl).
Proof.
  intros (Hg & Hlen & Hcl) Hi Hupd m' Hh Hf. split_and!.
  - assert (Hg1 : pool_geom p (set_words upd m)).
    { destruct Hupd as [->|(l & n & _ & ->)]; [by destruct m|by apply pool_geom_set_word]. }
    exact (pool_geom_set_head p _ i h Hg1).
  - rewrite length_insert. cbn. by rewrite length_alter.
  - intros j g Hj. destruct (decide (i = j)) as [<-|Hne].
    + rewrite list_lookup_insert_eq in Hj.
      2:{ rewrite Hlen. eapply lookup_lt_Some; eauto. }
      simplify_eq. exists (set_class_head h c). cbn. rewrite list_lookup_alter_eq, Hi. done.
    + rewrite list_lookup_insert_ne in Hj by done.
      apply (class_holds_other p m i j g h upd); [done|done|by apply Hcl| |by eexists].
      intros c' Hc'. by simplify_eq.
Qed.

Lemma alloc_succeeds p m fl fuel size i l f :
  pool_inv p m fl -> first_fit size (classes m) = Some i -> fl !! i = Some (l :: f) ->
  exists c k h, classes m !! i = Some c /\ 0 <= l < chunk_count c /\
    ctrls m !! Z.to_nat (base_index c + l) = Some k /\
    let m' := set_classes (alter (set_class_head h) i (classes m)) m in
    run (alloc p (S fuel) size) m = Some (Some (Ok (chunk_desc p c l (ctrl_gen k))), m') /\
    pool_inv p m' (<[i := f]> fl).
Proof.
  intros Hinv Hff Hfl. pose proof Hinv as (Hg & Hlen & Hcl).
  destruct (Hcl i _ Hfl) as (c & Hi & Hh & [Hl Hf]%list.Forall_cons).
  destruct (seg_offset_bounds p m i c l Hg Hi Hl) as (Gc & Hu & _ & _ & _ & _ & Hb).
  destruct (run_pop_cons (class_stack_laws p i c Gc) m l f fuel) as (h & Hrun & Hh').
  { split; [done|]. exists (head c). by destruct c. }
  { done. }
  destruct (lookup_lt_is_Some_2 (ctrls m) (Z.to_nat (base_index c + l))) as [k Hk].
  { rewrite (geom_total p m Hg) in Hb. lia. }
  exists c, k, h. split; [done|]. split; [done|]. split; [done|]. intros m'. split.
  - rewrite (run_alloc_class p m _ size i c Hg Hff Hi), Hrun. cbn. rewrite Hk.
    unfold chunk_desc, seg_offset_of, chunk_ptr in *.
    rewrite Z.add_assoc in *. by rewrite wrap32_id.
  - apply (pool_inv_update p m fl i c f h); auto.
Qed.

(** ** Release *)

Lemma free_pushes p m fl fuel i c l f d :
  pool_inv p m fl -> classes m !! i = Some c -> 0 <= l < chunk_count c ->
  offset d = seg_offset_of c l -> fl !! i = Some f -> l ∉ f ->
  exists m', run (free p (S fuel) d) m = Some (Some (Ok tt), m') /\
    pool_inv p m' (<[i := l :: f]> fl) /\ ctrls m' = ctrls m /\
    (exists h, classes m' = alter (set_class_head h) i (classes m)) /\ hdr m' = hdr m /\
    forall a, a <> chunk_ptr c l -> words m' !! a = words m !! a.
Proof.
  intros Hinv Hi Hl Hd Hfl Hni. pose proof Hinv as (Hg & Hlen & Hcl).
  destruct (Hcl i _ Hfl) as (c' & Hi' & Hh & Hf).
  replace c' with c in * by congruence. clear c' Hi'.
  destruct (seg_offset_bounds p m i c l Hg Hi Hl) as (Gc & Hu & Htop & _ & _ & Hlu & Hb).
  destruct (run_push (class_stack_laws p i c Gc) m l f fuel) as (n & m1 & h & Hs & Hrun & Hh' & Hok);
    try done.
  { split; [done|]. exists (head c). by destruct c. }
  { pose proof (chunk_ptr_range c l Gc Hl). destruct Gc as (? & [q Hq] & ? & ?).
    unfold EMPTY, seg_offset_of, chunk_ptr, HEADER_SIZE in *. intros ->. unfold_widths. nia. }
  cbn [s_set_next class_stack] in Hs.
  destruct (words m !! chunk_ptr c l) as [v|] eqn:Hw; [|done]. injection Hs as <-.
  eexists. split_and!.
  - unfold free. rewrite Hd, run_bind, (chunk_located p m i c l Hg Hi Hl).
    rewrite run_bind. unfold class at 1. rewrite run_act, Hi, run_bind, Hrun. done.
  - apply (pool_inv_update p m fl i c (l :: f) h (<[chunk_ptr c l := n]> (words m))); eauto 10.
  - done.
  - by exists h.
  - done.
  - intros a Ha. cbn. by rewrite lookup_insert_ne.
Qed.
