(* ===== verification/SegBytes.v ===== *)
(** * The bytes of a segment

    A pool's payload is kept as little-endian 32-bit words ([Pool.words]); what is read
    from and written to a chunk is bytes.  The two views agree, and writing inside an
    allocated chunk disturbs neither another chunk's bytes nor the free lists. *)

From S2P Require Import Prelude Atomic ChunkDesc ChunkCtrl Treiber Pool PoolInv.

(** A segment starts zeroed. *)
Definition byte_at (w : gmap Z Z) (a : Z) : Z :=
  (default 0 (w !! (4 * (a / 4))) / 256 ^ (a mod 4)) mod 256.

Definition bytes_at (w : gmap Z Z) (a n : Z) : list Z := byte_at w <$> seqZ a n.

Fixpoint write_words (w : gmap Z Z) (a : Z) (n : nat) (bs : list Z) : gmap Z Z :=
  match n with
  | O => w
  | S n' => write_words (<[a := of_le (take 4 bs)]> w) (a + 4) n' (drop 4 bs)
  end.

(** ** Words and bytes *)

Lemma length_bytes_at w a n : 0 <= n -> length (bytes_at w a n) = Z.to_nat n.
Proof. intros Hn. unfold bytes_at. by rewrite length_fmap, length_seqZ. Qed.

Lemma bytes_at_app w a n k : 0 <= n -> 0 <= k -> bytes_at w a (n + k) = bytes_at w a n ++ bytes_at w (a + n) k.
Proof. intros Hn Hk. unfold bytes_at. by rewrite seqZ_app, fmap_app by done. Qed.

Lemma bytes_at_bytes w a n : Forall is_u8 (bytes_at w a n).
Proof. apply Forall_fmap, Forall_true. intros x. unfold byte_at, compose. pose proof (Z.mod_pos_bound (default 0 (w !! (4 * (x / 4))) / 256 ^ (x mod 4)) 256). mach. Qed.

Lemma bytes_at_word w a : (4 | a) -> bytes_at w a 4 = le_bytes 4 (default 0 (w !! a)).
Proof.
  intros [q ->]. unfold bytes_at. change 4 with (Z.of_nat 4) at 2. cbn [seqZ].
  assert (Hb : forall k, 0 <= k < 4 -> byte_at w (q * 4 + k) = (default 0 (w !! (q * 4)) / 256 ^ k) mod 256).
  { intros k Hk. unfold byte_at. replace ((q * 4 + k) / 4) with q by (Z.to_euclidean_division_equations; lia).
    replace ((q * 4 + k) mod 4) with k by (Z.to_euclidean_division_equations; lia). by rewrite (Z.mul_comm 4). }
  set (x := default 0 (w !! (q * 4))) in *.
  change (seqZ (q * 4) (Z.of_nat 4)) with ((fun i : nat => Z.of_nat i + q * 4) <$> seq 0 4). cbn [seq fmap list_fmap le_bytes].
  rewrite !Z.div_div by lia. rewrite !(Z.add_comm _ (q * 4)), !Hb by lia.
  change (256 ^ Z.of_nat 0) with 1. by rewrite Z.div_1_r.
Qed.

Lemma write_words_outside w a n bs b : (b < a \/ a + 4 * Z.of_nat n <= b) -> write_words w a n bs !! b = w !! b.
Proof.
  revert w a bs. induction n as [|n IH]; intros w a bs Hb; cbn [write_words]; [done|].
  rewrite IH by lia. by rewrite lookup_insert_ne by lia.
Qed.

(** What was written is read back. *)
Lemma bytes_at_write w a n bs :
  (4 | a) -> Forall is_u8 bs -> length bs = (4 * n)%nat ->
  bytes_at (write_words w a n bs) a (4 * Z.of_nat n) = bs.
Proof.
  revert w a bs. induction n as [|n IH]; intros w a bs Ha Hb Hl; cbn [write_words].
  { destruct bs; [done|cbn in Hl; lia]. }
  replace (4 * Z.of_nat (S n)) with (4 + 4 * Z.of_nat n) by lia. rewrite bytes_at_app by lia.
  rewrite IH; [|by apply Z.divide_add_r|by apply Forall_drop|rewrite length_drop; lia].
  rewrite bytes_at_word, write_words_outside, lookup_insert_eq by (done || lia).
  assert (Hl4 : length (take 4 bs) = 4%nat) by (rewrite length_take; lia).
  transitivity (take 4 bs ++ drop 4 bs); [|apply take_drop]. f_equal. change (default 0 (Some ?x)) with x.
  rewrite <- Hl4 at 1. by rewrite le_bytes_of_le by (by apply Forall_take).
Qed.

(** Bytes outside the written range are untouched. *)
Lemma bytes_at_write_outside w a n bs b k :
  (4 | a) -> (b + k <= a \/ a + 4 * Z.of_nat n <= b) -> bytes_at (write_words w a n bs) b k = bytes_at w b k.
Proof.
  intros [q ->] Hb. unfold bytes_at. apply list_fmap_ext. intros i x Hx%lookup_seqZ. unfold byte_at.
  rewrite write_words_outside; [done|]. Z.to_euclidean_division_equations; lia.
Qed.

Lemma bytes_at_agree w w' a n b :
  (4 | b) -> (a + n <= b \/ b + 4 <= a) -> (forall c, c <> b -> w' !! c = w !! c) -> bytes_at w' a n = bytes_at w a n.
Proof.
  intros [q ->] Ho Hw. unfold bytes_at. apply list_fmap_ext. intros i x [-> Hx]%lookup_seqZ.
  unfold byte_at. rewrite Hw; [done|]. Z.to_euclidean_division_equations; lia.
Qed.

(** ** Writing inside an allocated chunk *)

Lemma write_words_is_Some w a n bs b : is_Some (w !! b) -> is_Some (write_words w a n bs !! b).
Proof.
  revert w a bs. induction n as [|n IH]; intros w a bs Hb; cbn [write_words]; [done|].
  apply IH. rewrite lookup_insert. by case_decide.
Qed.

(** ** Byte-wise writes *)

Definition put_byte (w : gmap Z Z) (a v : Z) : gmap Z Z :=
  let q := 4 * (a / 4) in
  <[q := of_le (<[Z.to_nat (a mod 4) := v]> (le_bytes 4 (default 0 (w !! q))))]> w.

Fixpoint put_bytes (w : gmap Z Z) (a : Z) (bs : list Z) : gmap Z Z :=
  match bs with
  | [] => w
  | b :: bs' => put_bytes (put_byte w a b) (a + 1) bs'
  end.

Lemma le_bytes_lookup n x k : (k < n)%nat -> le_bytes n x !! k = Some ((x / 256 ^ Z.of_nat k) mod 256).
Proof.
  revert x k. induction n as [|n IH]; intros x [|k] Hk; cbn [le_bytes]; [lia|lia| |].
  - cbn. by rewrite Z.div_1_r.
  - cbn [lookup list_lookup]. rewrite IH by lia. rewrite pow256_succ, Z.div_div by lia. done.
Qed.

Lemma byte_at_put_byte w a v b : is_u8 v -> byte_at (put_byte w a v) b = if decide (b = a) then v else byte_at w b.
Proof.
  intros Hv. unfold byte_at, put_byte. cbn zeta.
  destruct (decide (4 * (b / 4) = 4 * (a / 4))) as [E|Hne].
  2: { rewrite lookup_insert_ne by done. case_decide; [by subst|done]. }
  rewrite E, lookup_insert_eq. change (default 0 (Some ?x)) with x.
  set (l := le_bytes 4 (default 0 (w !! (4 * (a / 4))))).
  set (l' := <[Z.to_nat (a mod 4) := v]> l).
  assert (Hl : length l' = 4%nat) by (unfold l', l; by rewrite length_insert, length_le_bytes).
  assert (Hb : Forall is_u8 l') by (apply Forall_insert; [apply le_bytes_are_bytes|done]).
  pose proof (Z.mod_pos_bound a 4 ltac:(lia)). pose proof (Z.mod_pos_bound b 4 ltac:(lia)).
  pose proof (le_bytes_lookup 4 (of_le l') (Z.to_nat (b mod 4)) ltac:(lia)) as E1.
  rewrite <- Hl, le_bytes_of_le, Z2Nat.id in E1 by (done || lia).
  pose proof (le_bytes_lookup 4 (default 0 (w !! (4 * (a / 4)))) (Z.to_nat (b mod 4)) ltac:(lia)) as E2.
  fold l in E2. rewrite Z2Nat.id in E2 by lia.
  case_decide as Hab.
  - subst b. assert (E3 : l' !! Z.to_nat (a mod 4) = Some v)
      by (apply list_lookup_insert_eq; unfold l; rewrite length_le_bytes; lia). congruence.
  - assert (E3 : l' !! Z.to_nat (b mod 4) = l !! Z.to_nat (b mod 4)); [|congruence].
    apply list_lookup_insert_ne. intros E3. apply Hab. Z.to_euclidean_division_equations; lia.
Qed.

Lemma byte_at_put_bytes w a bs b : Forall is_u8 bs ->
  byte_at (put_bytes w a bs) b =
    if decide (a <= b < a + Z.of_nat (length bs)) then default 0 (bs !! Z.to_nat (b - a)) else byte_at w b.
Proof.
  intros Hb. revert w a. induction Hb as [|v bs Hv _ IH]; intros w a; cbn [put_bytes length].
  { case_decide; [lia|done]. }
  rewrite IH, byte_at_put_byte by done. repeat case_decide; try lia.
  - replace (Z.to_nat (b - a)) with (S (Z.to_nat (b - (a + 1)))) by lia. done.
  - subst b. by rewrite Z.sub_diag.
Qed.

Lemma bytes_at_put w a bs : Forall is_u8 bs -> bytes_at (put_bytes w a bs) a (Z.of_nat (length bs)) = bs.
Proof.
  intros Hb. apply list_eq. intros i. unfold bytes_at. rewrite list_lookup_fmap.
  destruct (decide (i < length bs)%nat) as [Hi|Hi].
  - rewrite (proj2 (lookup_seqZ a _ i (a + Z.of_nat i))) by (split; [done|lia]). cbn [fmap option_fmap option_map].
    rewrite byte_at_put_bytes by done. rewrite decide_True by lia. replace (Z.to_nat (a + Z.of_nat i - a)) with i by lia.
    by destruct (lookup_lt_is_Some_2 bs i Hi) as [x ->].
  - rewrite (lookup_ge_None_2 bs) by lia. rewrite lookup_ge_None_2; [done|]. rewrite length_seqZ. lia.
Qed.

Lemma bytes_at_put_outside w a bs b k :
  Forall is_u8 bs -> (b + k <= a \/ a + Z.of_nat (length bs) <= b) -> bytes_at (put_bytes w a bs) b k = bytes_at w b k.
Proof.
  intros Hb Ho. unfold bytes_at. apply list_fmap_ext. intros i x [-> Hx]%lookup_seqZ.
  rewrite byte_at_put_bytes by done. rewrite decide_False by lia. done.
Qed.

Lemma bytes_at_sub w a n b k :
  0 <= b -> 0 <= k -> b + k <= n -> bytes_at w (a + b) k = take (Z.to_nat k) (drop (Z.to_nat b) (bytes_at w a n)).
Proof.
  intros Hb Hk Hn. replace n with (b + (k + (n - b - k))) by lia. rewrite !bytes_at_app by lia.
  rewrite drop_app_length' by (by rewrite length_bytes_at). by rewrite take_app_length' by (by rewrite length_bytes_at).
Qed.

Lemma put_bytes_word w a bs q : (4 | q) -> (q + 4 <= a \/ a + Z.of_nat (length bs) <= q) -> put_bytes w a bs !! q = w !! q.
Proof.
  intros [r ->]. revert w a. induction bs as [|b bs IH]; intros w a Hq; cbn [put_bytes]; [done|]. cbn [length] in Hq.
  rewrite IH by lia. unfold put_byte. cbn zeta. apply lookup_insert_ne. Z.to_euclidean_division_equations; lia.
Qed.

Lemma put_bytes_is_Some w a bs b : is_Some (w !! b) -> is_Some (put_bytes w a bs !! b).
Proof.
  revert w a. induction bs as [|v bs IH]; intros w a Hb; cbn [put_bytes]; [done|].
  apply IH. unfold put_byte. cbn zeta. rewrite lookup_insert. by case_decide.
Qed.

(** Writes inside an allocated chunk keep the pool consistent; [w] is any memory with the
    same words outside the chunk. *)
Lemma pool_inv_words p m fl i c l f w :
  pool_inv p m fl -> classes m !! i = Some c -> 0 <= l < chunk_count c -> fl !! i = Some f -> l ∉ f ->
  (forall b, is_Some (words m !! b) -> is_Some (w !! b)) ->
  (forall b, (64 | b) -> (b + 64 <= chunk_ptr c l \/ chunk_ptr c l + chunk_size c <= b) -> w !! b = words m !! b) ->
  pool_inv p (set_words w m) fl.
Proof.
  intros (Hg & Hlen & Hcl) Hi Hl Hf Hni Hs Hw. split_and!; [|done|].
  - split; try apply Hg. intros j d q Hj Hq. cbn. apply Hs. by apply (geom_links p m Hg j d).
  - intros j g Hj. destruct (Hcl j g Hj) as (d & Hd & Hh & Hr). exists d. split_and!; try done.
    apply (holds_agree m); [done| |done]. intros q Hq. cbn.
    rewrite list.Forall_forall in Hr. specialize (Hr q Hq). destruct (geom_layout p m Hg) as (lo & hi & _ & _ & Hlo).
    assert (Hne : (i, l) <> (j, q)) by (intros [= <- <-]; by simplify_eq).
    destruct (chunks_disjoint _ _ _ _ _ _ _ _ _ _ _ Hlo Hi Hd Hl Hr Hne) as [Hdis _].
    destruct (laid_out_lookup _ _ _ _ _ _ _ Hlo Hd) as ((? & [z ?] & _) & _ & [y ?] & _).
    apply Hw; [|nia]. unfold chunk_ptr. apply Z.divide_add_r; [by exists y|]. apply Z.divide_mul_r. by exists z.
Qed.

Lemma pool_inv_write p m fl i c l f n bs :
  pool_inv p m fl -> classes m !! i = Some c -> 0 <= l < chunk_count c -> fl !! i = Some f -> l ∉ f ->
  4 * Z.of_nat n <= chunk_size c ->
  pool_inv p (set_words (write_words (words m) (chunk_ptr c l) n bs) m) fl.
Proof.
  intros Hinv Hi Hl Hf Hni Hn. apply (pool_inv_words p m fl i c l f); try done.
  - intros b. apply write_words_is_Some.
  - intros b _ Hb. apply write_words_outside. lia.
Qed.
