(* ===== verification/PoolClient.v ===== *)
(** * Pool creation and the allocator's contract

    [Pool::create] lays the classes out without overlap and threads every chunk on
    its class's free list; from there, whatever clients allocate, free and write,
    the descriptors in their hands never overlap and nothing leaks. *)

From S2P Require Import Prelude Atomic ChunkDesc ChunkCtrl Treiber Pool PoolInv.

(** ** Creation *)

(** What a configuration must satisfy: chunk sizes are positive multiples of 64
    and the layout, computed without wrap-around, ends below 4 GiB (descriptor
    offsets are 32 bits wide). *)
Definition size_class_ok (c : SizeClass) : Prop :=
  0 < sc_size c /\ (64 | sc_size c) /\ is_u32 (sc_size c) /\ is_u32 (sc_count c).

Definition ideal_chunks (cfg : PoolConfig) : Z := foldr (fun c n => sc_count c + n) 0 cfg.

Fixpoint ideal_end (cfg : PoolConfig) (off : Z) : Z :=
  match cfg with
  | [] => off
  | c :: cfg' => ideal_end cfg' (align_up off 64 + sc_count c * sc_size c)
  end.

Definition ideal_bytes (cfg : PoolConfig) : Z :=
  ideal_end cfg (24 + Z.of_nat (length cfg) * 32 + ideal_chunks cfg * 16).

Definition cfg_ok (cfg : PoolConfig) : Prop :=
  cfg <> [] /\ Forall size_class_ok cfg /\ HEADER_SIZE + ideal_bytes cfg <= U32_MOD.

Lemma ideal_chunks_nonneg cfg : Forall size_class_ok cfg -> 0 <= ideal_chunks cfg.
Proof.
  induction 1 as [|c cfg (_ & _ & _ & Hc) _ IH]; [done|].
  change (0 <= sc_count c + ideal_chunks cfg). mach.
Qed.

Lemma ideal_end_ge cfg off : Forall size_class_ok cfg -> off <= ideal_end cfg off.
Proof.
  intros H. revert off. induction H as [|c cfg (Hs & _ & _ & Hc) _ IH]; intros off; cbn; [lia|].
  specialize (IH (align_up off 64 + sc_count c * sc_size c)).
  pose proof (align_up_spec off 6 ltac:(lia)) as [? _]. change (2 ^ 6) with 64 in *.
  assert (0 <= sc_count c * sc_size c) by (apply Z.mul_nonneg_nonneg; mach). lia.
Qed.

(** The two loops of [compute_layout] neither wrap nor overlap. *)
Lemma layout_loops cfg base off :
  Forall size_class_ok cfg -> 0 <= base -> base + ideal_chunks cfg < U32_MOD ->
  0 <= off -> HEADER_SIZE + ideal_end cfg off <= U32_MOD ->
  exists bs ds, base_loop cfg base = (bs, base + ideal_chunks cfg) /\
    data_loop cfg off = (ds, ideal_end cfg off) /\
    length (make_classes cfg ds bs) = length cfg /\
    laid_out off (ideal_end cfg off) base (base + ideal_chunks cfg) (make_classes cfg ds bs).
Proof.
  intros H. revert base off. induction H as [|c cfg Hc Hcfg IH]; intros base off Hb Hbt Ho Hot.
  { cbn. exists [], []. rewrite Z.add_0_r. split_and!; try done; lia. }
  cbn [ideal_chunks ideal_end foldr] in *. fold (ideal_chunks cfg) in *.
  pose proof (ideal_chunks_nonneg _ Hcfg). pose proof Hc as (Hs & H64 & Hsu & Hcu).
  pose proof (align_up_spec off 6 ltac:(lia)) as [Ha Hd]. change (2 ^ 6) with 64 in *.
  assert (0 <= sc_count c * sc_size c) by (apply Z.mul_nonneg_nonneg; mach).
  pose proof (ideal_end_ge _ (align_up off 64 + sc_count c * sc_size c) Hcfg).
  unfold HEADER_SIZE in *.
  destruct (IH (base + sc_count c) (align_up off 64 + sc_count c * sc_size c))
    as (bs & ds & Eb & Ed & Hl & Hlo); try mach.
  cbn [base_loop data_loop]. rewrite wrap32_id, Eb by mach. rewrite wrap64_id, Ed by mach.
  eexists (_ :: bs), (_ :: ds). split_and!; [by f_equal; lia|done|cbn; by rewrite Hl|].
  cbn. rewrite wrap32_id by mach. replace (base + (sc_count c + ideal_chunks cfg)) with (base + sc_count c + ideal_chunks cfg) by lia.
  split_and!; try done; lia.
Qed.

(** [init_links] writes exactly the chunks of its class. *)
Lemma init_links_lookup c w a :
  class_geom c ->
  (forall l, 0 <= l < chunk_count c -> init_links c w !! chunk_ptr c l = Some (init_link c l)) /\
  ((forall l, 0 <= l < chunk_count c -> a <> chunk_ptr c l) -> init_links c w !! a = w !! a).
Proof.
  intros (Hs & _). unfold init_links.
  assert (G : forall n (w : gmap Z Z), (forall l, 0 <= l < Z.of_nat n ->
      foldl (fun w local => <[chunk_ptr c local := init_link c local]> w) w (seqZ 0 (Z.of_nat n))
        !! chunk_ptr c l = Some (init_link c l)) /\
      ((forall l, 0 <= l < Z.of_nat n -> a <> chunk_ptr c l) ->
       foldl (fun w local => <[chunk_ptr c local := init_link c local]> w) w (seqZ 0 (Z.of_nat n))
        !! a = w !! a)).
  { clear w. induction n as [|n IH]; intros w.
    - split; [intros; lia|done].
    - rewrite seqZ_S, foldl_app, Z.add_0_l. cbn. destruct (IH w) as [IH1 IH2]. split.
      + intros l Hl. destruct (decide (l = Z.of_nat n)) as [->|Hne].
        * by rewrite lookup_insert_eq.
        * rewrite lookup_insert_ne by (unfold chunk_ptr; nia). apply IH1. lia.
      + intros Ha. rewrite lookup_insert_ne by (symmetry; apply Ha; lia).
        apply IH2. intros l Hl. apply Ha. lia. }
  destruct (Z.le_gt_cases 0 (chunk_count c)) as [Hc|Hc].
  - specialize (G (Z.to_nat (chunk_count c)) w). rewrite Z2Nat.id in G by done. exact G.
  - rewrite seqZ_nil by lia. split; [intros; lia|done].
Qed.

Lemma init_all_below lo hi base total cs w a :
  laid_out lo hi base total cs -> a < lo -> foldl (fun w c => init_links c w) w cs !! a = w !! a.
Proof.
  revert lo base w. induction cs as [|c cs IH]; intros lo base w H Ha; [done|].
  destruct H as (Gc & Hlo & _ & _ & H). pose proof Gc as (Hs & _ & _ & Hc). cbn.
  rewrite (IH _ _ _ H).
  - apply (init_links_lookup c w a Gc). intros l Hl. pose proof (chunk_ptr_range c l Gc Hl). lia.
  - assert (0 <= chunk_count c * chunk_size c) by (apply Z.mul_nonneg_nonneg; mach). lia.
Qed.

Lemma init_all_lookup lo hi base total cs w i c l :
  laid_out lo hi base total cs -> cs !! i = Some c -> 0 <= l < chunk_count c ->
  foldl (fun w c => init_links c w) w cs !! chunk_ptr c l = Some (init_link c l).
Proof.
  revert lo base w i. induction cs as [|d cs IH]; intros lo base w [|i] H Hi Hl; cbn in Hi; simplify_eq;
    destruct H as (Gc & Hlo & _ & _ & H); cbn.
  - rewrite (init_all_below _ _ _ _ _ _ _ H).
    + by apply (init_links_lookup c w 0 Gc).
    + pose proof (chunk_ptr_range c l Gc Hl). destruct Gc as (? & _). lia.
  - by eapply IH.
Qed.

(** The initial links spell [0, 1, ..., count - 1]. *)
Lemma init_chain i c (m : PoolMem) n l :
  class_geom c -> (forall l, 0 <= l < chunk_count c -> words m !! chunk_ptr c l = Some (init_link c l)) ->
  0 <= l -> chunk_count c = l + Z.of_nat n ->
  chain (class_stack i c) m (if l <? chunk_count c then l else EMPTY) (seqZ l (Z.of_nat n)).
Proof.
  intros (Hs & _ & _ & Hc) Hw Hl Hn. apply chain_counting; [lia|lia|mach|]. intros j Hj. cbn. by apply Hw.
Qed.

Lemma make_classes_head cfg ds bs i c :
  make_classes cfg ds bs !! i = Some c ->
  head c = head_pack 0 (if 0 <? chunk_count c then 0 else EMPTY).
Proof.
  revert ds bs i. induction cfg as [|s cfg IH]; intros [|d ds] [|b bs] [|i]; cbn; try done.
  - by intros [= <-].
  - by apply IH.
Qed.

(** The free lists of a fresh pool: every chunk of every class. *)
Definition all_free (cs : list ClassHeader) : list (list Z) := (fun c => seqZ 0 (chunk_count c)) <$> cs.

Lemma create_nonempty seg cfg :
  cfg <> [] ->
  create seg cfg =
    let layout := compute_layout cfg in
    if payload_len seg <? total_bytes layout then Err LayoutOverflow
    else
      let cs := make_classes cfg (data_offsets layout) (base_indices layout) in
      Ok (mkPool seg (Z.of_nat (length cfg)) (total_chunks layout),
          mkPoolMem
            (mkPoolHeader POOL_MAGIC (wrap32 (Z.of_nat (length cfg))) (total_chunks layout)
               (wrap32 (classes_offset layout)) (wrap32 (ctrl_offset layout)))
            cs (replicate (Z.to_nat (total_chunks layout)) (init_at 0))
            (foldl (fun w c => init_links c w) ∅ cs)).
Proof. by destruct cfg. Qed.

(** [compute_layout] of a valid configuration: the unwrapped sizes, and class
    headers that follow each other. *)
Lemma compute_layout_ok cfg :
  cfg_ok cfg ->
  exists off ds bs, 0 <= off /\ 0 <= ideal_chunks cfg < U32_MOD /\ Z.of_nat (length cfg) * 32 < U32_MOD - 24 /\
    compute_layout cfg =
      mkLayout 24 (24 + Z.of_nat (length cfg) * 32) ds bs (ideal_chunks cfg) (ideal_bytes cfg) /\
    length (make_classes cfg ds bs) = length cfg /\
    laid_out off (ideal_bytes cfg) 0 (ideal_chunks cfg) (make_classes cfg ds bs).
Proof.
  intros (Hne & Hok & Hend). set (off := 24 + Z.of_nat (length cfg) * 32 + ideal_chunks cfg * 16).
  pose proof (ideal_chunks_nonneg _ Hok). pose proof (ideal_end_ge _ off Hok) as Hge.
  unfold ideal_bytes in *. fold off in Hend |- *. unfold HEADER_SIZE in *.
  destruct (layout_loops cfg 0 off Hok) as (bs & ds & Eb & Ed & Hlen & Hlo); [lia|mach|lia|done|].
  rewrite Z.add_0_l in *. exists off, ds, bs. split_and!; try done; try mach.
  assert (Ectrl : align_up (24 + Z.of_nat (length cfg) * 32) 8 = 24 + Z.of_nat (length cfg) * 32).
  { change 8 with (2 ^ 3). rewrite align_up_pow2 by lia. change (2 ^ 3) with 8.
    replace (24 + Z.of_nat (length cfg) * 32 + 8 - 1) with (7 + (3 + Z.of_nat (length cfg) * 4) * 8) by lia.
    rewrite Z.div_add by lia. change (7 / 8) with 0. lia. }
  unfold compute_layout. rewrite Eb. unfold SIZEOF_ClassHeader, ALIGNOF_ChunkCtrl, SIZEOF_ChunkCtrl.
  change (align_up SIZEOF_PoolHeader 8) with 24. rewrite Ectrl. fold off. by rewrite Ed.
Qed.

(** A freshly initialised class holds all its chunks. *)
Lemma fresh_class_holds m i c :
  class_geom c -> classes m !! i = Some c ->
  head c = head_pack 0 (if 0 <? chunk_count c then 0 else EMPTY) ->
  (forall l, 0 <= l < chunk_count c -> words m !! chunk_ptr c l = Some (init_link c l)) ->
  class_holds m i (seqZ 0 (chunk_count c)).
Proof.
  intros Gc Hi Hh Hw. pose proof Gc as (_ & _ & _ & Hc). exists c.
  split_and!; [done| |apply list.Forall_forall; intros l; rewrite elem_of_seqZ; lia].
  split; [apply NoDup_seqZ|]. exists 0, (if 0 <? chunk_count c then 0 else EMPTY).
  split_and!; [mach|destruct (0 <? chunk_count c); [mach|apply EMPTY_u32]|cbn; by rewrite Hi|].
  rewrite <- (Z2Nat.id (chunk_count c)) at 2 by mach.
  apply init_chain; [done|done|lia|mach].
Qed.

Lemma create_ok seg cfg :
  cfg_ok cfg -> ideal_bytes cfg <= payload_len seg ->
  exists p m, create seg cfg = Ok (p, m) /\ segment p = seg /\
    length (classes m) = length cfg /\ pool_total p = ideal_chunks cfg /\
    (exists lo, 0 <= lo /\ laid_out lo (ideal_bytes cfg) 0 (pool_total p) (classes m)) /\
    ctrls m = replicate (Z.to_nat (ideal_chunks cfg)) (init_at 0) /\
    hdr m = mkPoolHeader POOL_MAGIC (num_classes p) (pool_total p) 24 (24 + Z.of_nat (length cfg) * 32) /\
    pool_inv p m (all_free (classes m)).
Proof.
  intros Hcfg Hfit. destruct (compute_layout_ok cfg Hcfg) as (off & ds & bs & Ho & Hch & Hn & EL & Hlen & Hlo).
  destruct Hcfg as (Hne & Hok & Hend).
  eexists _, _. split_and!.
  - rewrite (create_nonempty seg cfg Hne), EL.
    cbn [total_bytes total_chunks data_offsets base_indices classes_offset ctrl_offset].
    rewrite (proj2 (Z.ltb_ge _ _)) by lia. reflexivity.
  - done.
  - done.
  - done.
  - by exists off.
  - done.
  - cbn [hdr num_classes pool_total]. rewrite !wrap32_id by mach. done.
  - cbn [classes]. split_and!.
    + split; cbn.
      * by rewrite Hlen.
      * rewrite length_replicate, Z2Nat.id; lia.
      * rewrite length_replicate, Z2Nat.id by lia. exists off, (ideal_bytes cfg). split; [lia|]. split; [|exact Hlo]. split; [lia|exact Hfit].
      * intros i c l Hi Hl. eexists. exact (init_all_lookup _ _ _ _ _ _ _ _ _ Hlo Hi Hl).
    + cbn. unfold all_free. by rewrite length_fmap.
    + intros i f Hf. unfold all_free in Hf. rewrite list_lookup_fmap in Hf.
      destruct (make_classes cfg ds bs !! i) as [c|] eqn:Hi; [|done]. cbn in Hf. injection Hf as <-.
      apply fresh_class_holds; [by eapply laid_out_lookup|done|by eapply make_classes_head|].
      intros l Hl. by apply (init_all_lookup _ _ _ _ _ _ _ _ _ Hlo Hi Hl).
Qed.

(** ** Clients

    Any number of holders of descriptors, acting one operation at a time: allocate,
    give back the [k]-th outstanding descriptor, or store a 32-bit word anywhere in
    the bytes of the [k]-th outstanding descriptor.  [None] is a memory fault or an
    endless loop inside the pool. *)
Inductive pool_op : Set :=
| OAlloc (size : Z)
| OFree (k : nat)
| OWrite (k : nat) (at_ v : Z).

Definition client_state : Set := PoolMem * list ChunkDesc.

Definition client_step (p : Pool) (s : client_state) (op : pool_op) : option client_state :=
  let '(m, out) := s in
  match op with
  | OAlloc size =>
      match run (alloc p 1 size) m with
      | Some (Some (Ok d), m') => Some (m', d :: out)
      | Some (Some (Err _), m') => Some (m', out)
      | _ => None
      end
  | OFree k =>
      match out !! k with
      | Some d =>
          match run (free p 1 d) m with
          | Some (Some (Ok _), m') => Some (m', delete k out)
          | _ => None
          end
      | None => Some (m, out)
      end
  | OWrite k at_ v =>
      match out !! k with
      | Some d =>
          if (0 <=? at_) && (at_ + 4 <=? len d) then
            Some (set_words (<[offset d - HEADER_SIZE + at_ := v]> (words m)) m, out)
          else Some (m, out)
      | None => Some (m, out)
      end
  end.

Fixpoint client_run (p : Pool) (s : client_state) (ops : list pool_op) : option client_state :=
  match ops with
  | [] => Some s
  | op :: ops' => match client_step p s op with Some s' => client_run p s' ops' | None => None end
  end.

(** Descriptor [d] denotes chunk [(i, l)]. *)
Definition denotes (m : PoolMem) (d : ChunkDesc) (x : nat * Z) : Prop :=
  exists c, classes m !! x.1 = Some c /\ 0 <= x.2 < chunk_count c /\
    offset d = seg_offset_of c x.2 /\ len d = chunk_size c.

Definition of_class (i : nat) (xs : list (nat * Z)) : list Z := (filter (fun x => x.1 = i) xs).*2.

(** Free and outstanding chunks together are each class's chunks, each once. *)
Definition client_inv (p : Pool) (s : client_state) : Prop :=
  exists fl xs, pool_inv p s.1 fl /\ Forall2 (denotes s.1) s.2 xs /\
    forall i c f, classes s.1 !! i = Some c -> fl !! i = Some f ->
      f ++ of_class i xs ≡ₚ seqZ 0 (chunk_count c).

Lemma denotes_set_head m d x i h upd :
  denotes m d x ->
  denotes (mkPoolMem (hdr m) (alter (set_class_head h) i (classes m)) (ctrls m) upd) d x.
Proof.
  intros (c & Hc & Hl & Ho & Hn). destruct (decide (i = x.1)) as [->|Hne].
  - exists (set_class_head h c). cbn. by rewrite list_lookup_alter_eq, Hc.
  - exists c. cbn. by rewrite list_lookup_alter_ne.
Qed.

Lemma of_class_cons i j l xs :
  of_class i ((j, l) :: xs) = (if decide (j = i) then [l] else []) ++ of_class i xs.
Proof. unfold of_class. rewrite filter_cons. cbn. by case_decide. Qed.

Lemma of_class_perm i xs ys : xs ≡ₚ ys -> of_class i xs ≡ₚ of_class i ys.
Proof. intros H. unfold of_class. by rewrite H. Qed.

(** The class counts survive a head update. *)
Lemma set_head_count m i h j c :
  alter (set_class_head h) i (classes m) !! j = Some c ->
  exists c', classes m !! j = Some c' /\ chunk_count c' = chunk_count c.
Proof. intros H. apply lookup_set_head in H as (c' & ? & [->|[_ ->]]); eauto. Qed.

Lemma client_inv_alloc p m out size :
  client_inv p (m, out) -> exists s', client_step p (m, out) (OAlloc size) = Some s' /\ client_inv p s'.
Proof.
  intros (fl & xs & Hinv & Hden & Hperm). cbn [fst snd] in *. unfold client_step.
  pose proof Hinv as (Hg & Hlen & Hcl).
  destruct (first_fit size (classes m)) as [i|] eqn:Hff.
  2:{ rewrite (alloc_no_class p m fl 1 size Hinv Hff). eexists. split; [done|]. by exists fl, xs. }
  pose proof (proj1 (first_fit_Some _ _ _) Hff) as (c0 & Hi0 & _ & _).
  destruct (lookup_lt_is_Some_2 fl i) as [f Hf].
  { rewrite Hlen. eapply lookup_lt_Some; eauto. }
  destruct f as [|l f].
  { rewrite (alloc_exhausted p m fl 0 size i Hinv Hff Hf). eexists. split; [done|]. by exists fl, xs. }
  destruct (alloc_succeeds p m fl 0 size i l f Hinv Hff Hf) as (c & k & h & Hi & Hl & Hk & Hrun & Hinv').
  rewrite Hrun. eexists. split; [done|]. exists (<[i := f]> fl), ((i, l) :: xs). cbn [fst snd].
  split_and!; [done| |].
  - constructor.
    + exists (set_class_head h c). cbn. rewrite list_lookup_alter_eq, Hi. done.
    + eapply list.Forall2_impl; [exact Hden|]. intros d x Hx. by apply denotes_set_head.
  - intros j cj fj Hj Hfj. destruct (set_head_count m i h j cj Hj) as (c' & Hj' & <-).
    rewrite of_class_cons. case_decide as Hij.
    + subst j. rewrite list_lookup_insert_eq in Hfj by (eapply lookup_lt_Some; eauto).
      injection Hfj as <-. rewrite <- (Hperm i c' (l :: f) Hj' Hf). cbn. by rewrite Permutation_middle.
    + rewrite list_lookup_insert_ne in Hfj by done. cbn. by apply (Hperm j c' fj).
Qed.

Lemma client_inv_free p m out k :
  client_inv p (m, out) -> exists s', client_step p (m, out) (OFree k) = Some s' /\ client_inv p s'.
Proof.
  intros (fl & xs & Hinv & Hden & Hperm). cbn [fst snd] in *. unfold client_step.
  destruct (out !! k) as [d|] eqn:Hd; [|by eexists; split; [done|]; exists fl, xs].
  destruct (Forall2_lookup_l _ _ _ _ _ Hden Hd) as ([i l] & Hx & c & Hi & Hl & Hoff & _). cbn [fst snd] in *.
  pose proof Hinv as (Hg & Hlen & Hcl).
  destruct (lookup_lt_is_Some_2 fl i) as [f Hf].
  { rewrite Hlen. eapply lookup_lt_Some; eauto. }
  assert (Hxs : xs ≡ₚ (i, l) :: delete k xs) by (by apply delete_Permutation).
  assert (Hni : l ∉ f).
  { intros Hin. assert (Hnd : NoDup (f ++ of_class i xs)) by (rewrite (Hperm i c f Hi Hf); apply NoDup_seqZ).
    rewrite (of_class_perm i _ _ Hxs), of_class_cons, decide_True in Hnd by done.
    apply list.NoDup_app in Hnd as (_ & Hnd & _). apply (Hnd l Hin). set_solver. }
  destruct (free_pushes p m fl 0 i c l f d Hinv Hi Hl Hoff Hf Hni) as (m' & Hrun & Hinv' & Hctr & [h Hcls] & _ & Hw).
  rewrite Hrun. eexists. split; [done|]. exists (<[i := l :: f]> fl), (delete k xs). cbn [fst snd].
  split_and!; [done| |].
  - apply Forall2_delete. eapply list.Forall2_impl; [exact Hden|]. intros d' x Hx'.
    destruct m' as [h' cs' ks' ws']. cbn in Hcls. subst cs'. by apply (denotes_set_head m d' x i h ws') in Hx'.
  - intros j cj fj Hj Hfj. rewrite Hcls in Hj.
    destruct (set_head_count m i h j cj Hj) as (c' & Hj' & <-).
    destruct (decide (i = j)) as [<-|Hij].
    + rewrite list_lookup_insert_eq in Hfj by (eapply lookup_lt_Some; eauto). injection Hfj as <-.
      rewrite <- (Hperm i c' f Hj' Hf), (of_class_perm i _ _ Hxs), of_class_cons, decide_True by done.
      cbn. by rewrite Permutation_middle.
    + rewrite list_lookup_insert_ne in Hfj by done.
      rewrite <- (Hperm j c' fj Hj' Hfj), (of_class_perm j xs _ Hxs), of_class_cons, decide_False by done. done.
Qed.

(** A store inside an outstanding chunk touches no free chunk's link. *)
Lemma client_inv_write p m out k at_ v :
  client_inv p (m, out) -> exists s', client_step p (m, out) (OWrite k at_ v) = Some s' /\ client_inv p s'.
Proof.
  intros (fl & xs & Hinv & Hden & Hperm). cbn [fst snd] in *. unfold client_step.
  destruct (out !! k) as [d|] eqn:Hd; [|by eexists; split; [done|]; exists fl, xs].
  destruct (Z.leb_spec 0 at_); [|by eexists; split; [done|]; exists fl, xs].
  destruct (Z.leb_spec (at_ + 4) (len d)); [|by eexists; split; [done|]; exists fl, xs]. cbn [andb].
  eexists. split; [done|]. exists fl, xs. cbn [fst snd]. split_and!; [|exact Hden|exact Hperm].
  destruct (Forall2_lookup_l _ _ _ _ _ Hden Hd) as ([i l] & Hx & c & Hi & Hl & Hoff & Hlenc). cbn [fst snd] in *.
  pose proof Hinv as (Hg & Hlen & Hcl). split_and!; [by apply pool_geom_set_word|done|].
  intros j f Hf. destruct (Hcl j f Hf) as (cj & Hj & Hh & Hfj). exists cj. split_and!; try done.
  apply (holds_agree m); [done| |done]. intros q Hq. cbn. apply lookup_insert_ne.
  rewrite list.Forall_forall in Hfj. specialize (Hfj q Hq).
  destruct (geom_layout p m Hg) as (lo & hi & _ & _ & Hlo).
  assert (Hne : (i, l) <> (j, q)).
  { intros [= <- <-]. assert (Hnd : NoDup (f ++ of_class i xs)) by (rewrite (Hperm i cj f Hj Hf); apply NoDup_seqZ).
    apply list.NoDup_app in Hnd as (_ & Hnd & _). apply (Hnd l Hq). unfold of_class.
    apply list_elem_of_fmap. exists (i, l). split; [done|]. apply list_elem_of_filter.
    split; [done|]. by eapply list_elem_of_lookup_2. }
  destruct (chunks_disjoint _ _ _ _ _ _ _ _ _ _ _ Hlo Hi Hj Hl Hfj Hne) as [Hdis _].
  destruct (laid_out_lookup _ _ _ _ _ _ _ Hlo Hj) as ((? & _) & _).
  rewrite Hoff. unfold seg_offset_of. lia.
Qed.

Lemma client_inv_run p s ops :
  client_inv p s -> exists s', client_run p s ops = Some s' /\ client_inv p s'.
Proof.
  revert s. induction ops as [|op ops IH]; intros [m out] Hs; [by eexists|]. cbn [client_run].
  destruct op as [size|k|k a v];
    [destruct (client_inv_alloc p m out size Hs) as (s' & -> & Hs')
    |destruct (client_inv_free p m out k Hs) as (s' & -> & Hs')
    |destruct (client_inv_write p m out k a v Hs) as (s' & -> & Hs')]; by apply IH.
Qed.

(** ** [free_count] *)

Lemma free_count_holds p m i f fuel :
  pool_geom p m -> class_holds m i f -> (length f < fuel)%nat ->
  run (free_count fuel i) m = Some (Some (Z.of_nat (length f)), m).
Proof.
  intros Hg (c & Hi & [Hnd (tag & h & Ht & Hh & Eh & Hc)] & _) Hf.
  unfold free_count. rewrite run_bind. unfold class at 1. rewrite run_act, Hi.
  rewrite run_bind, run_load_head, Eh, head_unpack_pack by done. cbn [snd].
  replace (Z.of_nat (length f)) with (0 + Z.of_nat (length f)) by lia.
  generalize 0 at 1 2 as n. clear Eh Ht tag Hnd Hh. revert h fuel Hc Hf.
  induction f as [|l f IH]; intros h [|fuel] Hc Hf n; cbn [length] in Hf; try lia.
  - cbn in Hc. subst h. rewrite Z.eqb_refl. cbn. by rewrite Z.add_0_r.
  - destruct Hc as (-> & Hl & Hne & nx & Hn & Hc). rewrite (proj2 (Z.eqb_neq l EMPTY)) by done.
    rewrite run_bind, (run_read_next m l nx Hn).
    rewrite (IH nx fuel Hc ltac:(lia) (n + 1)). do 3 f_equal. cbn [length]. lia.
Qed.

(** Descriptor [d] lies in the region of class [c]. *)
Definition in_class (c : ClassHeader) (d : ChunkDesc) : Prop :=
  data_offset c <= offset d - HEADER_SIZE < data_offset c + chunk_count c * chunk_size c.

#[export] Instance in_class_dec c d : Decision (in_class c d).
Proof. unfold in_class. apply _. Defined.

Lemma in_class_of_class p m i c out xs :
  pool_geom p m -> classes m !! i = Some c -> Forall2 (denotes m) out xs ->
  length (filter (in_class c) out) = length (of_class i xs).
Proof.
  intros Hg Hi. destruct (geom_layout p m Hg) as (lo & hi & _ & _ & Hlo).
  induction 1 as [|d [j l] out xs (e & Hj & Hl & Ho & _) _ IH]; [done|]. cbn [fst snd] in *.
  rewrite of_class_cons, length_app, <- IH, filter_cons.
  destruct (laid_out_lookup _ _ _ _ _ _ _ Hlo Hj) as (Ge & _).
  pose proof (chunk_ptr_range e l Ge Hl) as Hr. destruct Ge as (? & _).
  destruct (decide (j = i)) as [->|Hne].
  - simplify_eq. rewrite decide_True; [done|]. unfold in_class. rewrite Ho. unfold seg_offset_of. lia.
  - rewrite decide_False; [done|]. unfold in_class. rewrite Ho. unfold seg_offset_of.
    destruct (Nat.lt_total i j) as [Hij|[->|Hij]]; [|done|].
    + pose proof (laid_out_order _ _ _ _ _ _ _ _ _ Hlo Hi Hj Hij). lia.
    + pose proof (laid_out_order _ _ _ _ _ _ _ _ _ Hlo Hj Hi Hij). lia.
Qed.

(** Two entries of [xs] in the same class are the same entry when they name the
    same chunk. *)
Lemma client_inv_nodup p m fl out xs :
  pool_inv p m fl -> Forall2 (denotes m) out xs ->
  (forall i c f, classes m !! i = Some c -> fl !! i = Some f ->
     f ++ of_class i xs ≡ₚ seqZ 0 (chunk_count c)) ->
  NoDup xs.
Proof.
  intros (Hg & Hlen & _) Hden Hperm. apply NoDup_alt. intros j k [i l] Hj Hk.
  destruct (decide (j = k)) as [|Hne]; [done|]. exfalso.
  destruct (Forall2_lookup_r _ _ _ _ _ Hden Hj) as (d & _ & c & Hi & Hl & _). cbn [fst snd] in *.
  destruct (lookup_lt_is_Some_2 fl i) as [f Hf]; [rewrite Hlen; by eapply lookup_lt_Some|].
  assert (Hnd : NoDup (f ++ of_class i xs)) by (rewrite (Hperm i c f Hi Hf); apply NoDup_seqZ).
  apply list.NoDup_app in Hnd as (_ & _ & Hnd).
  rewrite (of_class_perm i xs _ (delete_Permutation xs j _ Hj)), of_class_cons, decide_True in Hnd by done.
  apply list.NoDup_cons in Hnd as [Hni _]. apply Hni. unfold of_class.
  apply list_elem_of_fmap. exists (i, l). split; [done|]. apply list_elem_of_filter. split; [done|].
  apply list_elem_of_lookup. destruct (Nat.lt_total k j) as [Hlt|[->|Hlt]]; [|done|].
  - exists k. by rewrite list_lookup_delete_lt.
  - exists (k - 1)%nat. rewrite list_lookup_delete_ge by lia. by replace (S (k - 1)) with k by lia.
Qed.

(** Disjoint byte ranges. *)
Definition apart (d e : ChunkDesc) : Prop :=
  offset d + len d <= offset e \/ offset e + len e <= offset d.

(** C5. The allocator's contract.  Create a pool from any valid configuration that
    fits its segment, then let clients allocate, free and overwrite the bytes of
    their chunks in any order and any number of times.  No operation faults or
    loops; any two outstanding descriptors denote disjoint byte ranges; each lies,
    64-byte aligned, inside the segment's payload; and in every class the free list
    counts exactly the chunks not outstanding, so nothing is lost or handed out
    twice. *)
Theorem pool_clients_never_overlap seg cfg ops :
  cfg_ok cfg -> ideal_bytes cfg <= payload_len seg ->
  exists p m0 m out,
    create seg cfg = Ok (p, m0) /\ client_run p (m0, []) ops = Some (m, out) /\
    (forall j k d e, j <> k -> out !! j = Some d -> out !! k = Some e -> apart d e) /\
    (forall d, d ∈ out -> HEADER_SIZE <= offset d /\ (64 | offset d) /\
       offset d + len d <= HEADER_SIZE + payload_len seg) /\
    (forall i c, classes m !! i = Some c ->
       exists n, run (free_count (S (Z.to_nat (chunk_count c))) i) m = Some (Some n, m) /\
         n + Z.of_nat (length (filter (in_class c) out)) = chunk_count c).
Proof.
  intros Hcfg Hfit.
  destruct (create_ok seg cfg Hcfg Hfit) as (p & m0 & Hcr & <- & _ & _ & _ & _ & _ & Hinv0).
  assert (H0 : client_inv p (m0, [])).
  { exists (all_free (classes m0)), []. split_and!; [done|constructor|].
    intros i c f Hi Hf. unfold all_free in Hf. cbn [fst] in Hi.
    rewrite list_lookup_fmap, Hi in Hf. cbn in Hf. injection Hf as <-. by rewrite app_nil_r. }
  destruct (client_inv_run p _ ops H0) as ([m out] & Hrun & fl & xs & Hinv & Hden & Hperm).
  cbn [fst snd] in *. pose proof (client_inv_nodup p m fl out xs Hinv Hden Hperm) as Hnd.
  pose proof Hinv as (Hg & Hlen & Hcl). destruct (geom_layout p m Hg) as (lo & hi & ? & [? ?] & Hlo).
  exists p, m0, m, out. split_and!; [done|done| | |].
  - intros j k d e Hjk Hd He. unfold apart.
    destruct (Forall2_lookup_l _ _ _ _ _ Hden Hd) as ([i l] & Hx & c & Hi & Hl & -> & ->).
    destruct (Forall2_lookup_l _ _ _ _ _ Hden He) as ([i' l'] & Hx' & c' & Hi' & Hl' & -> & ->).
    cbn [fst snd] in *.
    assert (Hne : (i, l) <> (i', l')) by (intros E; rewrite <- E in Hx'; by pose proof (NoDup_lookup _ _ _ _ Hnd Hx Hx')).
    pose proof (chunks_disjoint _ _ _ _ _ _ _ _ _ _ _ Hlo Hi Hi' Hl Hl' Hne). unfold seg_offset_of. lia.
  - intros d [k Hd]%list_elem_of_lookup.
    destruct (Forall2_lookup_l _ _ _ _ _ Hden Hd) as ([i l] & Hx & c & Hi & Hl & -> & ->). cbn [fst snd] in *.
    destruct (seg_offset_bounds p m i c l Hg Hi Hl) as (Gc & _ & _ & ? & ? & _).
    split_and!; try done. pose proof (chunk_ptr_range c l Gc Hl).
    destruct (laid_out_lookup _ _ _ _ _ _ _ Hlo Hi) as (_ & _ & _ & ? & _). unfold seg_offset_of. lia.
  - intros i c Hi. destruct (lookup_lt_is_Some_2 fl i) as [f Hf]; [rewrite Hlen; by eapply lookup_lt_Some|].
    destruct (laid_out_lookup _ _ _ _ _ _ _ Hlo Hi) as ((_ & _ & _ & Hc) & _).
    pose proof (Permutation_length (Hperm i c f Hi Hf)) as Hl. rewrite length_app, length_seqZ in Hl.
    exists (Z.of_nat (length f)). split; [apply (free_count_holds p); auto; lia|].
    rewrite (in_class_of_class p m i c out xs Hg Hi Hden). mach.
Qed.

Lemma demo_cfg_ok : cfg_ok demo_cfg.
Proof.
  split_and!; [done| |vm_compute; discriminate].
  repeat constructor; cbn; try lia; by apply Z.mod_divide.
Qed.

Lemma pool_clients_never_overlap_witness :
  exists p m0 m out,
    create demo_seg demo_cfg = Ok (p, m0) /\
    client_run p (m0, []) [OAlloc 10; OAlloc 100; OWrite 0 4 77; OFree 1; OAlloc 64] = Some (m, out) /\
    (forall j k d e, j <> k -> out !! j = Some d -> out !! k = Some e -> apart d e) /\
    (forall d, d ∈ out -> HEADER_SIZE <= offset d /\ (64 | offset d) /\
       offset d + len d <= HEADER_SIZE + payload_len demo_seg) /\
    (forall i c, classes m !! i = Some c ->
       exists n, run (free_count (S (Z.to_nat (chunk_count c))) i) m = Some (Some n, m) /\
         n + Z.of_nat (length (filter (in_class c) out)) = chunk_count c).
Proof.
  apply (pool_clients_never_overlap demo_seg demo_cfg); [exact demo_cfg_ok|vm_compute; discriminate].
Defined.

(** [Pool::alloc] on every branch: the smallest class that fits serves the
    request from the top of its free list, with the chunk's current generation; it
    reports [PoolExhausted] exactly when that class is empty, and [LayoutOverflow]
    exactly when no class is large enough; the errors change nothing. *)
Theorem alloc_first_fit p m fl fuel size :
  pool_inv p m fl ->
  exists r m', run (alloc p (S fuel) size) m = Some (Some r, m') /\
    match r with
    | Ok d =>
        exists i c l f k, first_fit size (classes m) = Some i /\ classes m !! i = Some c /\
          fl !! i = Some (l :: f) /\ ctrls m !! Z.to_nat (base_index c + l) = Some k /\
          d = chunk_desc p c l (ctrl_gen k) /\ size <= len d /\ pool_inv p m' (<[i := f]> fl)
    | Err PoolExhausted =>
        m' = m /\ exists i, first_fit size (classes m) = Some i /\ fl !! i = Some []
    | Err LayoutOverflow => m' = m /\ Forall (fun c => chunk_size c < size) (classes m)
    | Err _ => False
    end.
Proof.
  intros Hinv. pose proof Hinv as (Hg & Hlen & Hcl).
  destruct (first_fit size (classes m)) as [i|] eqn:Hff.
  - pose proof (proj1 (first_fit_Some _ _ _) Hff) as (c0 & Hi0 & Hsz & _).
    destruct (lookup_lt_is_Some_2 fl i) as [[|l f] Hf]; [rewrite Hlen; by eapply lookup_lt_Some| |].
    + eexists _, _. split; [by apply (alloc_exhausted p m fl fuel size i)|]. split; [done|]. by exists i.
    + destruct (alloc_succeeds p m fl fuel size i l f Hinv Hff Hf) as (c & k & h & Hi & Hl & Hk & Hrun & Hinv').
      eexists _, _. split; [exact Hrun|]. exists i, c, l, f, k.
      replace c0 with c in * by congruence. done.
  - eexists _, _. split; [by apply (alloc_no_class p m fl)|]. split; [done|].
    apply Forall_lookup. intros i c Hi. unfold first_fit in Hff.
    pose proof (proj1 (scan_None _ _ _) Hff i c Hi) as E. cbn in E.
    destruct (Z.leb_spec size (chunk_size c)); [done|lia].
Qed.

Lemma alloc_first_fit_witness :
  exists p m r m', create demo_seg demo_cfg = Ok (p, m) /\
    run (alloc p 1 100) m = Some (Some r, m') /\ is_ok r = true.
Proof.
  destruct (create_ok demo_seg demo_cfg demo_cfg_ok ltac:(vm_compute; discriminate))
    as (p & m & Hcr & _ & _ & _ & _ & _ & _ & Hinv).
  destruct (alloc_first_fit p m (all_free (classes m)) 0 100 Hinv) as (r & m' & Hrun & _).
  exists p, m, r, m'. split_and!; [exact Hcr|exact Hrun|].
  vm_compute in Hcr. injection Hcr as <- <-. vm_compute in Hrun. by injection Hrun as <- <-.
Defined.

(** [Pool::locate] is exact: it never faults, it accepts the start offset of
    every chunk of every class and resolves it to that chunk's class, local index
    and control-array index, and it accepts nothing else. *)
Theorem locate_exact p m off :
  pool_geom p m ->
  exists r, run (locate p off) m = Some (r, m) /\
    forall x, r = Ok x <->
      exists i c l, classes m !! i = Some c /\ 0 <= l < chunk_count c /\
        off = seg_offset_of c l /\ x = (i, l, base_index c + l).
Proof.
  intros Hg. destruct (locate_total p m off Hg) as [r Hr]. exists r. split; [done|].
  intros x. split.
  - intros ->. by apply (locate_inv p m off x Hg).
  - intros (i & c & l & Hi & Hl & -> & ->). rewrite (chunk_located p m i c l Hg Hi Hl) in Hr. congruence.
Qed.

Lemma locate_exact_witness :
  exists p m r, create demo_seg demo_cfg = Ok (p, m) /\ run (locate p 320) m = Some (r, m) /\
    r = Ok (0%nat, 1, 1).
Proof.
  destruct (create_ok demo_seg demo_cfg demo_cfg_ok ltac:(vm_compute; discriminate))
    as (p & m & Hcr & _ & _ & _ & _ & _ & _ & Hinv).
  destruct (locate_exact p m 320 (proj1 Hinv)) as (r & Hr & _).
  exists p, m, r. split_and!; [exact Hcr|exact Hr|].
  vm_compute in Hcr. injection Hcr as <- <-. vm_compute in Hr. by injection Hr as <-.
Defined.

(** Creating a valid pool and attaching to it from the segment alone gives the
    creator's handle: the header round-trips the class and chunk counts.  All
    chunks start free, in order, and their control words start at [FREE]. *)
Theorem create_then_attach seg cfg :
  cfg_ok cfg -> ideal_bytes cfg <= payload_len seg ->
  exists p m, create seg cfg = Ok (p, m) /\ attach seg m = Ok p /\
    pool_inv p m (all_free (classes m)) /\
    Forall (fun k => ChunkCtrl.word_state (word k) = FREE /\ ctrl_gen k = 0) (ctrls m) /\
    (forall c, c ∈ classes m -> exists s, s ∈ cfg /\ chunk_size c = sc_size s /\ chunk_count c = sc_count s).
Proof.
  intros Hcfg Hfit. destruct (create_ok seg cfg Hcfg Hfit) as (p & m & Hcr & <- & _ & _ & _ & Hk & Hh & Hinv).
  exists p, m. split_and!; [done| |done| |].
  - unfold attach. rewrite Hh. cbn. by destruct p.
  - rewrite Hk. apply Forall_replicate. by vm_compute.
  - rewrite create_nonempty in Hcr by apply Hcfg. cbn zeta in Hcr.
    destruct (Z.ltb_spec (payload_len (segment p)) (total_bytes (compute_layout cfg))); [done|].
    injection Hcr as _ <-. cbn [classes]. generalize (data_offsets (compute_layout cfg)), (base_indices (compute_layout cfg)).
    clear. induction cfg as [|s cfg IH]; intros [|d ds] [|b bs] c; cbn [make_classes];
      try (intros Hc; by apply elem_of_nil in Hc).
    intros [->|Hc]%elem_of_cons; [exists s; set_solver|]. destruct (IH ds bs c Hc) as (s' & ? & ?).
    exists s'. set_solver.
Qed.

Lemma create_then_attach_witness :
  exists p m, create demo_seg demo_cfg = Ok (p, m) /\ attach demo_seg m = Ok p.
Proof.
  destruct (create_then_attach demo_seg demo_cfg demo_cfg_ok ltac:(vm_compute; discriminate))
    as (p & m & H1 & H2 & _). by exists p, m.
Defined.

(** ** [PoolConfig::power_of_two] *)

Lemma next_power_of_two_log x :
  64 <= x <= 2 ^ 31 ->
  next_power_of_two x = 2 ^ Z.log2_up x /\ 6 <= Z.log2_up x <= 31 /\ x <= 2 ^ Z.log2_up x.
Proof.
  intros Hx. pose proof (Z.log2_up_le_mono 64 x ltac:(lia)) as H6. change (Z.log2_up 64) with 6 in H6.
  pose proof (Z.log2_up_le_mono x (2 ^ 31) ltac:(lia)) as H31. rewrite Z.log2_up_pow2 in H31 by lia.
  pose proof (Z.log2_log2_up_spec x ltac:(lia)) as [_ Hle].
  unfold next_power_of_two. rewrite (proj2 (Z.leb_gt _ _)) by lia.
  pose proof (Z.pow_le_mono_r 2 (Z.log2_up x) 31 ltac:(lia) ltac:(lia)).
  rewrite wrap32_id by (cbn in *; mach). done.
Qed.

Lemma power_of_two_loop_eq fuel a b count :
  6 <= a <= b -> b <= 31 -> b - a < Z.of_nat fuel ->
  power_of_two_loop fuel (2 ^ a) (2 ^ b) count =
    Some ((fun i => mkSizeClass (2 ^ i) count) <$> seqZ a (b - a + 1)).
Proof.
  revert a. induction fuel as [|fuel IH]; intros a Ha Hb Hf; [lia|]. cbn [power_of_two_loop].
  rewrite seqZ_cons by lia. csimpl. destruct (Z.leb_spec (2 ^ b) (2 ^ a)) as [Hle|Hlt].
  - apply Z.pow_le_mono_r_iff in Hle; [|lia..]. replace (Z.pred (b - a + 1)) with 0 by lia. done.
  - apply Z.pow_lt_mono_r_iff in Hlt; [|lia..].
    rewrite Z.shiftl_mul_pow2, <- Z.pow_add_r by lia.
    pose proof (Z.pow_le_mono_r 2 (a + 1) 31 ltac:(lia) ltac:(lia)).
    rewrite wrap32_id by (pose proof (Z.pow_pos_nonneg 2 (a + 1)); cbn in *; mach).
    rewrite IH by lia. replace (b - (a + 1) + 1) with (Z.pred (b - a + 1)) by lia. done.
Qed.

(** [PoolConfig::power_of_two] terminates and produces, for requests up to
    2 GiB, exactly the power-of-two classes from the smallest that is at least
    [max(min_size, 64)] up to the smallest that is at least [max_size], in
    ascending order, each a valid class. *)
Theorem power_of_two_classes min_size max_size count :
  0 <= min_size <= 2 ^ 31 -> 0 <= max_size <= 2 ^ 31 -> is_u32 count ->
  exists a b, 6 <= a <= b /\ b <= 31 /\ min_size <= 2 ^ a /\ max_size <= 2 ^ b /\
    (2 ^ (a - 1) < min_size \/ a = 6) /\
    power_of_two min_size max_size count =
      Some ((fun i => mkSizeClass (2 ^ i) count) <$> seqZ a (b - a + 1)) /\
    Forall size_class_ok ((fun i => mkSizeClass (2 ^ i) count) <$> seqZ a (b - a + 1)).
Proof.
  intros Hmin Hmax Hc. unfold power_of_two.
  destruct (next_power_of_two_log (Z.max min_size 64) ltac:(lia)) as (E1 & Ha & Hle1).
  set (a := Z.log2_up (Z.max min_size 64)) in *. rewrite E1.
  pose proof (Z.pow_le_mono_r 2 a 31 ltac:(lia) ltac:(lia)) as Ha31.
  pose proof (Z.pow_le_mono_r 2 6 a ltac:(lia) ltac:(lia)) as Ha6. change (2 ^ 6) with 64 in Ha6.
  destruct (next_power_of_two_log (Z.max max_size (2 ^ a)) ltac:(lia)) as (E2 & Hb & Hle2).
  pose proof (Z.log2_up_le_mono (2 ^ a) (Z.max max_size (2 ^ a)) ltac:(lia)) as Hab.
  rewrite Z.log2_up_pow2 in Hab by lia. rewrite E2. set (b := Z.log2_up (Z.max max_size (2 ^ a))) in *.
  exists a, b. split_and!; try lia.
  - destruct (Z.le_gt_cases min_size 64).
    + right. unfold a. by replace (Z.max min_size 64) with 64 by lia.
    + left. pose proof (Z.log2_log2_up_spec (Z.max min_size 64) ltac:(lia)).
      pose proof (Z.log2_up_spec (Z.max min_size 64) ltac:(lia)). fold a in H1. rewrite <- Z.sub_1_r in H1. lia.
  - apply power_of_two_loop_eq; lia.
  - apply Forall_fmap, list.Forall_forall. intros i Hi%elem_of_seqZ. unfold size_class_ok; cbn.
    pose proof (Z.pow_le_mono_r 2 i 31 ltac:(lia) ltac:(lia)).
    pose proof (Z.pow_pos_nonneg 2 i ltac:(lia) ltac:(lia)).
    split_and!; [lia| |cbn in *; mach|done].
    exists (2 ^ (i - 6)). change 64 with (2 ^ 6). rewrite <- (Z.pow_add_r 2 (i - 6) 6) by lia. f_equal. lia.
Qed.

Lemma power_of_two_classes_witness :
  exists a b, 6 <= a <= b /\ power_of_two 100 1000 4 =
    Some ((fun i => mkSizeClass (2 ^ i) 4) <$> seqZ a (b - a + 1)).
Proof.
  destruct (power_of_two_classes 100 1000 4 ltac:(lia) ltac:(lia) ltac:(mach)) as (a & b & H & _ & _ & _ & _ & E & _).
  by exists a, b.
Defined.
