(* ===== verification/PoolDraw.v ===== *)
(** * Chunks drawn from a pool

    A writer that allocates several chunks, fills them and perhaps gives them back: what it
    holds and what is left free are together what was free before, its chunks do not
    overlap, and writing inside them leaves the pool consistent. *)

From S2P Require Import Prelude Atomic ChunkDesc ChunkCtrl Treiber Pool PoolInv SegBytes PoolClient.

(** The chunks [xs], with descriptors [ds], were drawn from the free lists [fl]. *)
Definition drawn (p : Pool) (fl : list (list Z)) (m : PoolMem) (ds : list ChunkDesc) (xs : list (nat * Z)) : Prop :=
  Forall NoDup fl /\ Forall2 (denotes m) ds xs /\
  exists fl', pool_inv p m fl' /\ length fl' = length fl /\
    forall i f f', fl !! i = Some f -> fl' !! i = Some f' -> f' ++ of_class i xs ≡ₚ f.

Lemma drawn_nil p m fl : pool_inv p m fl -> drawn p fl m [] [].
Proof.
  intros Hinv. pose proof Hinv as (_ & _ & Hcl). split_and!; [|constructor|].
  - apply list.Forall_lookup. intros i f Hf. by destruct (Hcl i f Hf) as (c & _ & [Hnd _] & _).
  - exists fl. split_and!; [done|done|]. intros i f f' Hf Hf'. simplify_eq. by rewrite app_nil_r.
Qed.

(** Everything given back: the free lists are those of the start, in another order. *)
Lemma drawn_none p fl m xs : drawn p fl m [] xs -> exists fl', pool_inv p m fl' /\ Forall2 Permutation fl' fl.
Proof.
  intros (_ & Hd & fl' & Hinv & Hlen & Hp). apply Forall2_nil_inv_l in Hd as ->. exists fl'. split; [done|].
  apply Forall2_same_length_lookup. split; [done|]. intros i f' f Hf' Hf. specialize (Hp i f f' Hf Hf').
  by rewrite app_nil_r in Hp.
Qed.

Lemma drawn_class p fl m ds xs k d i l : drawn p fl m ds xs -> ds !! k = Some d -> xs !! k = Some (i, l) ->
  exists c, classes m !! i = Some c /\ 0 <= l < chunk_count c /\ offset d = seg_offset_of c l /\ len d = chunk_size c.
Proof. intros (_ & Hd & _) Hk Hx. exact (Forall2_lookup_lr _ _ _ _ _ _ Hd Hk Hx). Qed.

(** A drawn chunk is on no free list, and no chunk is drawn twice. *)
Lemma drawn_fresh fl xs i f f' l :
  Forall NoDup fl -> fl !! i = Some f -> f' ++ of_class i xs ≡ₚ f -> (i, l) ∈ xs -> l ∉ f'.
Proof.
  intros Hnd Hf Hp Hl Hin. rewrite list.Forall_lookup in Hnd. specialize (Hnd i f Hf).
  rewrite <- Hp in Hnd. apply list.NoDup_app in Hnd as (_ & Hdis & _). apply (Hdis l Hin).
  unfold of_class. apply list_elem_of_fmap. exists (i, l). split; [done|]. by apply list_elem_of_filter.
Qed.

Lemma of_class_NoDup xs : (forall i, NoDup (of_class i xs)) -> NoDup xs.
Proof.
  intros H. induction xs as [|[i l] xs IH]; [constructor|]. constructor.
  - intros Hin. specialize (H i). rewrite of_class_cons, decide_True in H by done. cbn in H.
    apply list.NoDup_cons in H as [H _]. apply H. unfold of_class. apply list_elem_of_fmap. exists (i, l).
    split; [done|]. by apply list_elem_of_filter.
  - apply IH. intros j. specialize (H j). rewrite of_class_cons in H. by apply list.NoDup_app in H as (_ & _ & ?).
Qed.

Lemma drawn_NoDup p fl m ds xs : drawn p fl m ds xs -> NoDup xs.
Proof.
  intros (Hnd & Hd & fl' & (Hg & Hl & _) & Hlen & Hp). apply of_class_NoDup. intros i.
  destruct (fl !! i) as [f|] eqn:Hf.
  - destruct (lookup_lt_is_Some_2 fl' i) as [f' Hf']; [rewrite Hlen; by eapply lookup_lt_Some|].
    specialize (Hp i f f' Hf Hf'). rewrite list.Forall_lookup in Hnd. specialize (Hnd i f Hf). rewrite <- Hp in Hnd.
    by apply list.NoDup_app in Hnd as (_ & _ & ?).
  - destruct (of_class i xs) as [|l ls] eqn:E; [constructor|exfalso].
    assert (Hin : l ∈ of_class i xs) by (rewrite E; by left). unfold of_class in Hin.
    apply list_elem_of_fmap in Hin as ([j l'] & _ & [Hj Hin]%list_elem_of_filter). cbn in Hj. subst j.
    apply list_elem_of_lookup in Hin as [k Hk]. destruct (Forall2_lookup_r _ _ _ _ _ Hd Hk) as (d & _ & c & Hc & _). cbn in Hc.
    apply lookup_lt_Some in Hc. apply lookup_ge_None in Hf. lia.
Qed.

(** Two drawn chunks do not overlap. *)
Lemma drawn_disjoint p fl m ds xs j k d e : drawn p fl m ds xs -> ds !! j = Some d -> ds !! k = Some e -> j <> k ->
  offset d + len d <= offset e \/ offset e + len e <= offset d.
Proof.
  intros H Hj Hk Hne. pose proof (drawn_NoDup _ _ _ _ _ H) as Hnd. pose proof H as (_ & Hd & fl' & (Hg & _) & _).
  destruct (Forall2_lookup_l _ _ _ _ _ Hd Hj) as ([i l] & Hx & c & Hc & Hl & Eo & El).
  destruct (Forall2_lookup_l _ _ _ _ _ Hd Hk) as ([i' l'] & Hx' & c' & Hc' & Hl' & Eo' & El'). cbn in *.
  destruct (geom_layout p m Hg) as (lo & hi & _ & _ & Hlo).
  assert (Hn : (i, l) <> (i', l')) by (intros E; rewrite <- E in Hx'; apply Hne; by eapply NoDup_lookup).
  destruct (chunks_disjoint _ _ _ _ _ _ _ _ _ _ _ Hlo Hc Hc' Hl Hl' Hn) as [Hdis _].
  rewrite Eo, Eo', El, El'. unfold seg_offset_of. lia.
Qed.

(** Where a drawn chunk lies. *)
Lemma drawn_bounds p fl m ds xs d : drawn p fl m ds xs -> d ∈ ds ->
  HEADER_SIZE <= offset d /\ offset d + len d <= HEADER_SIZE + payload_len (segment p) /\
  (64 | offset d) /\ is_u32 (offset d) /\ 0 < len d /\ is_u32 (len d).
Proof.
  intros (_ & Hd & fl' & (Hg & _) & _) Hin. apply list_elem_of_lookup in Hin as [k Hk].
  destruct (Forall2_lookup_l _ _ _ _ _ Hd Hk) as ([i l] & Hx & c & Hc & Hl & Eo & El). cbn in *.
  destruct (seg_offset_bounds p m i c l Hg Hc Hl) as ((Hs & Hs64 & Hsu & _) & Hu & Htop & Hlow & H64 & _).
  destruct (geom_layout p m Hg) as (lo & hi & Hlo0 & [_ Hpay] & Hlo).
  destruct (laid_out_lookup _ _ _ _ _ _ _ Hlo Hc) as (Gc & _ & _ & Hend & _).
  pose proof (chunk_ptr_range c l Gc Hl) as Hr. rewrite Eo, El. unfold seg_offset_of in *. split_and!; try done; lia.
Qed.

Lemma drawn_len p fl m ds xs d : drawn p fl m ds xs -> d ∈ ds -> 64 <= len d.
Proof.
  intros (_ & Hd & fl' & (Hg & _) & _) Hin. apply list_elem_of_lookup in Hin as [k Hk].
  destruct (Forall2_lookup_l _ _ _ _ _ Hd Hk) as ([i l] & Hx & c & Hc & Hl & Eo & El). cbn in *.
  destruct (geom_layout p m Hg) as (lo & hi & _ & _ & Hlo).
  destruct (laid_out_lookup _ _ _ _ _ _ _ Hlo Hc) as ((H0 & [q Hq] & _) & _). lia.
Qed.

(** The order of the chunks is immaterial. *)
Lemma drawn_swap p fl m ds xs ds0 xs0 : length ds = length xs ->
  drawn p fl m (ds ++ ds0) (xs ++ xs0) -> drawn p fl m (ds0 ++ ds) (xs0 ++ xs).
Proof.
  intros Hl (Hnd & Hd & fl' & Hinv & Hlen & Hp). apply Forall2_app_inv in Hd as [Hd Hd0]; [|done].
  split_and!; [done|by apply Forall2_app|]. exists fl'. split_and!; [done|done|]. intros i f f' Hf Hf'.
  rewrite (of_class_perm i (xs0 ++ xs) (xs ++ xs0)) by apply Permutation_app_comm. by apply Hp.
Qed.

(** What a chunk shows, and that a step leaves what [ds] show. *)
Definition chunk_bytes (m : PoolMem) (d : ChunkDesc) : list Z := bytes_at (words m) (offset d - HEADER_SIZE) (len d).

Definition keeps (ds : list ChunkDesc) (m m' : PoolMem) : Prop := forall e, e ∈ ds -> chunk_bytes m' e = chunk_bytes m e.

Lemma keeps_refl ds m : keeps ds m m.
Proof. by intros e He. Qed.

Lemma keeps_trans ds m1 m2 m3 : keeps ds m1 m2 -> keeps ds m2 m3 -> keeps ds m1 m3.
Proof. intros H1 H2 e He. by rewrite H2, H1. Qed.

Lemma keeps_sub ds ds' m m' : ds ⊆ ds' -> keeps ds' m m' -> keeps ds m m'.
Proof. intros Hs H e He. by apply H, Hs. Qed.

Lemma keeps_words ds m m' : words m' = words m -> keeps ds m m'.
Proof. intros E e _. unfold chunk_bytes. by rewrite E. Qed.

(** ** Drawing one more chunk *)

Lemma denotes_with_schema m d s x : denotes m (with_schema d s) x <-> denotes m d x.
Proof. done. Qed.

Lemma of_class_snoc i j l xs : of_class i (xs ++ [(j, l)]) ≡ₚ (if decide (j = i) then [l] else []) ++ of_class i xs.
Proof. rewrite (of_class_perm i (xs ++ [(j, l)]) ((j, l) :: xs)) by (by rewrite Permutation_app_comm). by rewrite of_class_cons. Qed.

(** The control word of a drawn chunk. *)
Definition ctrl_index (m : PoolMem) (x : nat * Z) : Z := match classes m !! x.1 with Some c => base_index c + x.2 | None => 0 end.

(** Descriptor [d] has the generation its chunk's control word shows. *)
Definition current (m : PoolMem) (d : ChunkDesc) (x : nat * Z) : Prop :=
  exists k, ctrls m !! Z.to_nat (ctrl_index m x) = Some k /\ ChunkDesc.generation d = ctrl_gen k.

Lemma set_head_ctrl_index m i h x upd :
  ctrl_index (mkPoolMem (hdr m) (alter (set_class_head h) i (classes m)) (ctrls m) upd) x = ctrl_index m x.
Proof.
  unfold ctrl_index. cbn. destruct (decide (i = x.1)) as [->|Hne].
  - rewrite list_lookup_alter_eq. by destruct (classes m !! x.1).
  - by rewrite list_lookup_alter_ne.
Qed.

(** A descriptor of this pool, marked with schema [sid]. *)
Definition of_pool (p : Pool) (sid : Z) (d : ChunkDesc) : Prop :=
  segment_id d = seg_id (segment p) /\ schema_id d = sid /\ pad d = 0.

(** What a pool operation that moves a head leaves alone. *)
Definition settled_pool (m m' : PoolMem) : Prop :=
  ctrls m' = ctrls m /\ hdr m' = hdr m /\ forall y, ctrl_index m' y = ctrl_index m y.

Lemma settled_refl m : settled_pool m m.
Proof. done. Qed.

Lemma settled_trans m1 m2 m3 : settled_pool m1 m2 -> settled_pool m2 m3 -> settled_pool m1 m3.
Proof. intros (C1 & H1 & I1) (C2 & H2 & I2). split_and!; [congruence|congruence|]. intros y. by rewrite I2. Qed.

Lemma settled_current m m' d x : settled_pool m m' -> current m d x -> current m' d x.
Proof. intros (Ec & _ & Ei) (k & Hk & E). exists k. by rewrite Ec, Ei. Qed.

Lemma settled_words w m : settled_pool m (set_words w m).
Proof. done. Qed.

Lemma drawn_alloc p fl m ds xs fuel size :
  drawn p fl m ds xs ->
  exists r m', run (alloc p (S fuel) size) m = Some (Some r, m') /\
    match r with
    | Ok d => exists x, drawn p fl m' (ds ++ [d]) (xs ++ [x]) /\ current m' d x /\
        size <= len d /\ words m' = words m /\ of_pool p 0 d /\ settled_pool m m'
    | Err e => m' = m /\ (e = PoolExhausted \/ e = LayoutOverflow)
    end.
Proof.
  intros (Hnd & Hd & fl' & Hinv & Hlen & Hp).
  destruct (first_fit size (classes m)) as [i|] eqn:Hff.
  2: { eexists _, m. rewrite (alloc_no_class p m fl') by done. split; [done|]. cbn. auto. }
  pose proof Hinv as (Hg & Hlc & _). pose proof (proj1 (first_fit_Some _ _ _) Hff) as (c & Hi & Hsz & _).
  destruct (lookup_lt_is_Some_2 fl' i) as [[|l f'] Hf']; [rewrite Hlc; by eapply lookup_lt_Some| |].
  { eexists _, m. rewrite (alloc_exhausted p m fl' fuel _ i) by done. split; [done|]. cbn. auto. }
  destruct (alloc_succeeds p m fl' fuel _ i l f' Hinv Hff Hf') as (c' & k & h & Hi' & Hl & Hk & Hrun & Hinv').
  assert (c' = c) as -> by congruence. eexists _, _. split; [exact Hrun|]. exists (i, l). cbn [words set_classes].
  assert (Hc1 : classes (set_classes (alter (set_class_head h) i (classes m)) m) !! i = Some (set_class_head h c))
    by (cbn; by rewrite list_lookup_alter_eq, Hi).
  split_and!; try done.
  - split_and!; [done| |].
    + apply Forall2_app.
      * eapply Forall2_impl; [|exact Hd]. intros d y Hy. exact (denotes_set_head m d y i h (words m) Hy).
      * constructor; [|constructor]. exists (set_class_head h c). split_and!; try done; apply Hl.
    + exists (<[i := f']> fl'). split_and!; [done|by rewrite length_insert|]. intros j g g' Hg1 Hg2. rewrite of_class_snoc.
      destruct (decide (i = j)) as [<-|Hne].
      * rewrite list_lookup_insert_eq in Hg2 by (rewrite Hlc; by eapply lookup_lt_Some). simplify_eq.
        rewrite Permutation_app_swap_app. exact (Hp i g (l :: g') Hg1 Hf').
      * rewrite list_lookup_insert_ne in Hg2 by done. by apply Hp.
  - exists k. split; [|done]. unfold set_classes. rewrite set_head_ctrl_index.
    unfold ctrl_index. cbn. by rewrite Hi.
  - split_and!; [done|done|]. intros y. unfold set_classes. by rewrite set_head_ctrl_index.
Qed.

(** ** Giving the first one back *)

Lemma drawn_free p fl m d ds x xs fuel :
  drawn p fl m (d :: ds) (x :: xs) ->
  exists m', run (free p (S fuel) d) m = Some (Some (Ok tt), m') /\ drawn p fl m' ds xs /\ settled_pool m m' /\ keeps ds m m'.
Proof.
  intros Hdr. pose proof (drawn_bounds _ _ _ _ _ d Hdr ltac:(by left)) as (_ & _ & [q64 Hq64] & _).
  pose proof (drawn_len _ _ _ _ _ d Hdr ltac:(by left)) as Hl64.
  assert (Hdis : forall e, e ∈ ds -> offset d + len d <= offset e \/ offset e + len e <= offset d).
  { intros e [k Hk]%list_elem_of_lookup. by apply (drawn_disjoint p fl m (d :: ds) (x :: xs) 0 (S k) d e Hdr). }
  destruct Hdr as (Hnd & [Hx Hd]%list.Forall2_cons & fl' & Hinv & Hlen & Hp). destruct x as [i l]. pose proof Hinv as (Hg & Hlc & _).
  destruct Hx as (c & Hc & Hl & Eo & El). cbn in Hc, Hl, Eo, El.
  destruct (lookup_lt_is_Some_2 fl' i) as [f' Hf']; [rewrite Hlc; by eapply lookup_lt_Some|].
  destruct (lookup_lt_is_Some_2 fl i) as [f Hf]; [rewrite <- Hlen, Hlc; by eapply lookup_lt_Some|].
  assert (Hni : l ∉ f') by (apply (drawn_fresh fl ((i, l) :: xs) i f); [done|done|by apply Hp|apply list_elem_of_here]).
  destruct (free_pushes p m fl' fuel i c l f' d Hinv Hc Hl Eo Hf' Hni) as (m' & Hrun & Hinv' & Ec & (h & Ecl) & Eh & Hw).
  exists m'. split_and!; [done| |split_and!; [done|done|]|].
  2: { intros y. unfold ctrl_index. rewrite Ecl. exact (set_head_ctrl_index m i h y (words m)). }
  2: { intros e He. unfold chunk_bytes. eapply bytes_at_agree with (b := offset d - HEADER_SIZE).
       - rewrite Hq64. exists (16 * q64 - 16). unfold HEADER_SIZE. lia.
       - destruct (Hdis e He); lia.
       - intros a Ha. apply Hw. unfold seg_offset_of in Eo. lia. }
  split_and!; [done| |].
  - eapply Forall2_impl; [|exact Hd]. intros e y Hy. pose proof (denotes_set_head m e y i h (words m) Hy) as (c0 & H0 & H1).
    exists c0. cbn in H0. by rewrite Ecl.
  - exists (<[i := l :: f']> fl'). split_and!; [done|by rewrite length_insert|]. intros j g g' Hg1 Hg2.
    destruct (decide (i = j)) as [<-|Hne].
    + rewrite list_lookup_insert_eq in Hg2 by (rewrite Hlc; by eapply lookup_lt_Some). simplify_eq.
      etransitivity; [|exact (Hp i _ _ Hf Hf')]. rewrite of_class_cons, decide_True by done. cbn. by rewrite Permutation_middle.
    + rewrite list_lookup_insert_ne in Hg2 by done. etransitivity; [|exact (Hp j _ _ Hg1 Hg2)]. rewrite of_class_cons, decide_False by done. done.
Qed.

(** ** Writing into them *)

(** [w]: the same words outside the drawn chunk [d]. *)
Lemma drawn_words p fl m ds xs d w :
  drawn p fl m ds xs -> d ∈ ds ->
  (forall b, is_Some (words m !! b) -> is_Some (w !! b)) ->
  (forall b, (4 | b) -> (b + 4 <= offset d - HEADER_SIZE \/ offset d - HEADER_SIZE + len d <= b) -> w !! b = words m !! b) ->
  drawn p fl (set_words w m) ds xs.
Proof.
  intros H Hin Hs Hw. pose proof H as (Hnd & Hd & fl' & Hinv & Hlen & Hp). pose proof Hinv as (Hg & Hlc & _).
  apply list_elem_of_lookup in Hin as [k Hk].
  destruct (Forall2_lookup_l _ _ _ _ _ Hd Hk) as ([i l] & Hx & c & Hc & Hl & Eo & El). cbn in *.
  destruct (lookup_lt_is_Some_2 fl' i) as [f' Hf']; [rewrite Hlc; by eapply lookup_lt_Some|].
  destruct (lookup_lt_is_Some_2 fl i) as [f Hf]; [rewrite <- Hlen, Hlc; by eapply lookup_lt_Some|].
  assert (Hni : l ∉ f') by (apply (drawn_fresh fl xs i f); [done|done|by apply Hp|by eapply list_elem_of_lookup_2]).
  split_and!; [done|exact Hd|]. exists fl'. split_and!; [|done|done].
  assert (E : offset d - HEADER_SIZE = chunk_ptr c l) by (unfold seg_offset_of in Eo; lia).
  apply (pool_inv_words p m fl' i c l f'); try done.
  intros b Hb Hout. apply Hw; [|rewrite E, El; lia]. eapply Z.divide_trans; [|exact Hb]. by exists 16.
Qed.

Lemma drawn_put p fl m ds xs d a bs :
  drawn p fl m ds xs -> d ∈ ds -> 0 <= a -> a + Z.of_nat (length bs) <= len d ->
  drawn p fl (set_words (put_bytes (words m) (offset d - HEADER_SIZE + a) bs) m) ds xs.
Proof.
  intros H Hin Ha Hn. apply (drawn_words p fl m ds xs d); [done|done| |].
  - intros b Hb. by apply put_bytes_is_Some.
  - intros b Hb Hout. apply put_bytes_word; [done|lia].
Qed.

Lemma drawn_write p fl m ds xs d n bs :
  drawn p fl m ds xs -> d ∈ ds -> 4 * Z.of_nat n <= len d ->
  drawn p fl (set_words (write_words (words m) (offset d - HEADER_SIZE) n bs) m) ds xs.
Proof.
  intros H Hin Hn. apply (drawn_words p fl m ds xs d); [done|done| |].
  - intros b. apply write_words_is_Some.
  - intros b Hb Hout. apply write_words_outside. lia.
Qed.

(** ** Some of them only *)

Lemma of_class_app i xs ys : of_class i (xs ++ ys) = of_class i xs ++ of_class i ys.
Proof. unfold of_class. by rewrite list.filter_app, fmap_app. Qed.

(** The chunks [ds] were drawn from what the holder of [ds ++ ds0] left to draw from. *)
Lemma drawn_part p fl m ds xs ds0 xs0 : length ds = length xs ->
  drawn p fl m (ds ++ ds0) (xs ++ xs0) -> exists fl1, drawn p fl1 m ds xs.
Proof.
  intros Hl (Hnd & Hd & fl' & Hinv & Hlen & Hp). apply Forall2_app_inv in Hd as [Hd _]; [|done].
  exists (imap (fun i f' => f' ++ of_class i xs) fl'). split_and!; [|done|].
  - apply list.Forall_lookup. intros i f Hf. rewrite list_lookup_imap in Hf. destruct (fl' !! i) as [f'|] eqn:Hf'; [|done]. simplify_eq/=.
    destruct (lookup_lt_is_Some_2 fl i) as [f Hfi]; [rewrite <- Hlen; by eapply lookup_lt_Some|].
    specialize (Hp i f f' Hfi Hf'). rewrite of_class_app, app_assoc in Hp. rewrite list.Forall_lookup in Hnd. specialize (Hnd i f Hfi).
    rewrite <- Hp in Hnd. by apply list.NoDup_app in Hnd as (? & _).
  - exists fl'. split_and!; [done|by rewrite length_imap|]. intros i f f' Hf Hf'. rewrite list_lookup_imap, Hf' in Hf. by simplify_eq/=.
Qed.
