(* ===== verification/Pod.v ===== *)
(** * Bitmaps in machine words

    The [u64] bit operations the journal's occupancy bitmap and the pin table use:
    [trailing_zeros], [count_ones], set, clear and test a bit, and the idiom
    [bits &= bits - 1] that clears the lowest set bit.  Then the layouts of plain data. *)

From S2P Require Import Prelude.

(** [u64::trailing_zeros]: the index of the lowest set bit, 64 for zero. *)
Definition trailing_zeros (x : Z) : nat :=
  match list_find (fun i => Z.testbit x (Z.of_nat i) = true) (seq 0 64) with
  | Some (i, _) => i
  | None => 64%nat
  end.

(** [u64::count_ones]. *)
Definition count_ones (x : Z) : nat :=
  length (filter (fun i => Z.testbit x (Z.of_nat i) = true) (seq 0 64)).

(** [1u64 << b], for [b < 64]. *)
Definition bit_mask (b : nat) : Z := Z.shiftl 1 (Z.of_nat b).

(** [!x] at 64 bits. *)
Definition not64 (x : Z) : Z := U64_MAX - x.

(** The test [x & (1 << b) != 0]. *)
Definition bit_set (x : Z) (b : nat) : bool := Z.testbit x (Z.of_nat b).

Lemma not64_spec x n : is_u64 x -> 0 <= n < 64 -> Z.testbit (not64 x) n = negb (Z.testbit x n).
Proof.
  intros Hx Hn. unfold not64. change U64_MAX with (Z.ones 64).
  rewrite Z.sub_nocarry_ldiff.
  - rewrite Z.ldiff_spec, Z.ones_spec_low by lia. done.
  - rewrite Z.ldiff_ones_r by lia. rewrite Z.shiftr_div_pow2 by lia.
    rewrite (Z.div_small x) by exact Hx. apply Z.shiftl_0_l.
Qed.

Lemma bit_mask_spec b n : 0 <= n -> Z.testbit (bit_mask b) n = bool_decide (n = Z.of_nat b).
Proof.
  intros Hn. unfold bit_mask. rewrite Z.shiftl_1_l, Z.pow2_bits_eqb by lia.
  case_bool_decide; [by apply Z.eqb_eq|apply Z.eqb_neq; lia].
Qed.

Lemma bit_mask_u64 b : (b < 64)%nat -> is_u64 (bit_mask b).
Proof.
  intros Hb. unfold bit_mask. rewrite Z.shiftl_1_l.
  pose proof (Z.pow_le_mono_r 2 (Z.of_nat b) 63 ltac:(lia) ltac:(lia)).
  pose proof (Z.pow_pos_nonneg 2 (Z.of_nat b) ltac:(lia) ltac:(lia)).
  change (2 ^ 63) with 9223372036854775808 in *. mach.
Qed.

(** A [u64] is determined by, and has only, its 64 bits. *)
Lemma u64_bits_high x n : is_u64 x -> 64 <= n -> Z.testbit x n = false.
Proof.
  intros Hx Hn. rewrite <- (Z.mod_small x (2 ^ 64)) by exact Hx. apply Z.mod_pow2_bits_high. lia.
Qed.

Lemma u64_of_bits x : (forall n, 64 <= n -> Z.testbit x n = false) -> 0 <= x -> is_u64 x.
Proof.
  intros Hb Hx. assert (E : x = x mod 2 ^ 64).
  { apply Z.bits_inj'. intros n Hn. destruct (Z.lt_ge_cases n 64).
    - by rewrite Z.mod_pow2_bits_low.
    - rewrite Z.mod_pow2_bits_high by lia. by apply Hb. }
  rewrite E. apply (Z.mod_pos_bound x (2 ^ 64)). done.
Qed.

Lemma u64_bits_eq x y :
  is_u64 x -> is_u64 y -> (forall b, (b < 64)%nat -> bit_set x b = bit_set y b) -> x = y.
Proof.
  intros Hx Hy Hb. apply Z.bits_inj'. intros n Hn. destruct (Z.lt_ge_cases n 64).
  - specialize (Hb (Z.to_nat n) ltac:(lia)). unfold bit_set in Hb. by rewrite Z2Nat.id in Hb.
  - by rewrite !u64_bits_high.
Qed.

Lemma land_u64 x y : is_u64 x -> 0 <= y -> is_u64 (Z.land x y).
Proof.
  intros Hx Hy. apply u64_of_bits; [|apply Z.land_nonneg; left; mach].
  intros n Hn. by rewrite Z.land_spec, (u64_bits_high x).
Qed.

Lemma lor_u64 x y : is_u64 x -> is_u64 y -> is_u64 (Z.lor x y).
Proof.
  intros Hx Hy. apply u64_of_bits; [|apply Z.lor_nonneg; mach].
  intros n Hn. by rewrite Z.lor_spec, (u64_bits_high x), (u64_bits_high y).
Qed.

Lemma not64_u64 x : is_u64 x -> is_u64 (not64 x).
Proof. unfold not64. mach. Qed.

#[export] Hint Resolve land_u64 lor_u64 not64_u64 bit_mask_u64 : shm.

(** ** Setting, clearing and testing *)

Lemma bit_set_lor_mask x b c :
  bit_set (Z.lor x (bit_mask b)) c = bit_set x c || bool_decide (b = c).
Proof.
  unfold bit_set. rewrite Z.lor_spec, bit_mask_spec by lia. f_equal.
  apply bool_decide_ext. lia.
Qed.

Lemma bit_set_land_not x b c :
  (b < 64)%nat -> (c < 64)%nat ->
  bit_set (Z.land x (not64 (bit_mask b))) c = bit_set x c && negb (bool_decide (b = c)).
Proof.
  intros Hb Hc. unfold bit_set. rewrite Z.land_spec, not64_spec, bit_mask_spec by auto using bit_mask_u64 || lia.
  do 2 f_equal. apply bool_decide_ext. lia.
Qed.

Lemma bit_set_land x y c : bit_set (Z.land x y) c = bit_set x c && bit_set y c.
Proof. apply Z.land_spec. Qed.

(** [x & mask != 0] tests the bit. *)
Lemma land_mask_nonzero x b : negb (Z.land x (bit_mask b) =? 0) = bit_set x b.
Proof.
  unfold bit_set. destruct (Z.testbit x (Z.of_nat b)) eqn:E.
  - apply negb_true_iff, Z.eqb_neq. intros H0.
    assert (Ht : Z.testbit (Z.land x (bit_mask b)) (Z.of_nat b) = true).
    { rewrite Z.land_spec, E, bit_mask_spec by lia. by rewrite bool_decide_eq_true_2. }
    by rewrite H0, Z.bits_0 in Ht.
  - apply negb_false_iff, Z.eqb_eq. apply Z.bits_inj'. intros n Hn.
    rewrite Z.land_spec, bit_mask_spec, Z.bits_0 by lia. case_bool_decide; [subst; by rewrite E|apply andb_false_r].
Qed.

(** ** The lowest set bit *)

Lemma trailing_zeros_nonzero x :
  is_u64 x -> x <> 0 ->
  (trailing_zeros x < 64)%nat /\ bit_set x (trailing_zeros x) = true /\
  forall c, (c < trailing_zeros x)%nat -> bit_set x c = false.
Proof.
  intros Hx Hne. unfold trailing_zeros.
  destruct (list_find _ (seq 0 64)) as [[i j]|] eqn:E.
  - apply list_find_Some in E as (Hi & Hj & Hlt). apply lookup_seq in Hi as [-> Hi]. rewrite Nat.add_0_l in *.
    split_and!; [lia|done|]. intros c Hc. specialize (Hlt c c). unfold bit_set.
    destruct (Z.testbit x (Z.of_nat c)); [|done]. exfalso.
    apply Hlt; [apply lookup_seq; lia|lia|done].
  - apply list_find_None in E. exfalso. apply Hne. apply u64_bits_eq; [done|mach|].
    intros b Hb. rewrite list.Forall_forall in E. specialize (E b ltac:(apply elem_of_seq; lia)).
    unfold bit_set. rewrite Z.bits_0. by destruct (Z.testbit x (Z.of_nat b)).
Qed.

Lemma clear_lowest x c :
  is_u64 x -> x <> 0 -> (c < 64)%nat ->
  bit_set (Z.land x (x - 1)) c = bit_set x c && negb (bool_decide (c = trailing_zeros x)).
Proof.
  intros Hx Hne Hc. destruct (trailing_zeros_nonzero x Hx Hne) as (Ht & Hset & Hlow).
  set (t := trailing_zeros x) in *. rewrite bit_set_land.
  destruct (Nat.lt_total c t) as [Hlt|[->|Hgt]].
  - by rewrite (Hlow c Hlt).
  - rewrite Hset. rewrite bool_decide_eq_true_2 by done. cbn.
    unfold bit_set in *. apply not_true_is_false. intros H1.
    (* below [t] everything is zero, so [x = 2^t * q] with [q] odd *)
    apply Z.testbit_true in H1; [|lia]. apply Z.testbit_true in Hset; [|lia].
    assert (Hm : x mod 2 ^ Z.of_nat t = 0).
    { apply Z.bits_inj'. intros n Hn. rewrite Z.bits_0. destruct (Z.lt_ge_cases n (Z.of_nat t)).
      - rewrite Z.mod_pow2_bits_low by lia. specialize (Hlow (Z.to_nat n) ltac:(lia)).
        by rewrite Z2Nat.id in Hlow.
      - apply Z.mod_pow2_bits_high. lia. }
    pose proof (Z.pow_pos_nonneg 2 (Z.of_nat t) ltac:(lia) ltac:(lia)) as Hp.
    assert (E : (x - 1) / 2 ^ Z.of_nat t = x / 2 ^ Z.of_nat t - 1).
    { symmetry. apply (Z.div_unique _ _ _ (2 ^ Z.of_nat t - 1)); [lia|].
      pose proof (Z.div_mod x (2 ^ Z.of_nat t) ltac:(lia)). lia. }
    rewrite E in H1. Z.div_mod_to_equations. lia.
  - rewrite bool_decide_eq_false_2 by lia. cbn. rewrite andb_true_r.
    enough (bit_set (x - 1) c = bit_set x c) as -> by (by destruct (bit_set x c)).
    unfold bit_set in *. apply Z.testbit_true in Hset; [|lia].
    rewrite !Z.testbit_odd, !Z.shiftr_div_pow2 by lia. f_equal.
    replace (Z.of_nat c) with (Z.of_nat t + 1 + (Z.of_nat c - Z.of_nat t - 1)) by lia.
    rewrite !Z.pow_add_r, <- !Z.div_div by (lia || (apply Z.pow_nonzero; lia) || (apply Z.pow_pos_nonneg; lia)).
    f_equal. change (2 ^ 1) with 2.
    pose proof (Z.pow_pos_nonneg 2 (Z.of_nat t) ltac:(lia) ltac:(lia)) as Hp.
    set (q := x / 2 ^ Z.of_nat t) in *.
    assert (E : q - 1 <= (x - 1) / 2 ^ Z.of_nat t <= q).
    { split; [apply Z.div_le_lower_bound; [lia|]|apply Z.div_le_mono; lia].
      pose proof (Z.div_mod x (2 ^ Z.of_nat t) ltac:(lia)). pose proof (Z.mod_pos_bound x (2 ^ Z.of_nat t) ltac:(lia)).
      fold q in H. lia. }
    Z.div_mod_to_equations. lia.
Qed.

(** ** Powers of two *)

(** [u32::is_power_of_two]. *)
Definition is_power_of_two (x : Z) : bool := (count_ones x =? 1)%nat.

Lemma power_of_two_pow x : is_u64 x -> is_power_of_two x = true -> exists k, 0 <= k < 64 /\ x = 2 ^ k.
Proof.
  intros Hx Hp. unfold is_power_of_two, count_ones in Hp. apply Nat.eqb_eq in Hp.
  destruct (filter (fun i => Z.testbit x (Z.of_nat i) = true) (seq 0 64)) as [|k [|? ?]] eqn:E; try done.
  assert (Hin : forall b, b ∈ [k] <-> (b < 64)%nat /\ bit_set x b = true).
  { intros b. rewrite <- E, list_elem_of_filter, elem_of_seq. unfold bit_set. naive_solver lia. }
  destruct (proj1 (Hin k) ltac:(set_solver)) as [Hk Hbk].
  exists (Z.of_nat k). split; [lia|]. rewrite <- Z.shiftl_1_l. change (Z.shiftl 1 (Z.of_nat k)) with (bit_mask k).
  apply u64_bits_eq; [done|by apply bit_mask_u64|]. intros b Hb.
  unfold bit_set at 2. rewrite bit_mask_spec by lia. case_bool_decide as Ebk.
  - apply Nat2Z.inj in Ebk. by subst b.
  - destruct (bit_set x b) eqn:Exb; [|done]. exfalso. apply Ebk. f_equal.
    pose proof (proj2 (Hin b) (conj Hb Exb)). set_solver.
Qed.

(** * Plain-old-data layouts

    A [#[repr(C)]] struct of unsigned integers without padding is the
    concatenation of its fields' little-endian bytes ([bytemuck::bytes_of] and
    [pod_read_unaligned]; every target the substrate supports is little-endian).
    A layout is its list of field widths in bytes. *)

Fixpoint pack (ws : list nat) (vs : list Z) : list Z :=
  match ws, vs with
  | w :: ws', v :: vs' => le_bytes w v ++ pack ws' vs'
  | _, _ => []
  end.

Fixpoint unpack (ws : list nat) (bs : list Z) : list Z :=
  match ws with
  | [] => []
  | w :: ws' => of_le (take w bs) :: unpack ws' (drop w bs)
  end.

Definition size_of (ws : list nat) : nat := foldr Nat.add 0%nat ws.

(** Each value fits its field. *)
Definition in_range (ws : list nat) (vs : list Z) : Prop :=
  Forall2 (fun w v => 0 <= v < 256 ^ Z.of_nat w) ws vs.

Lemma length_pack ws vs : length ws = length vs -> length (pack ws vs) = size_of ws.
Proof.
  revert vs. induction ws as [|w ws IH]; intros [|v vs]; cbn [pack length]; try done.
  intros [= E]. rewrite length_app, length_le_bytes, IH by done. done.
Qed.

Lemma pack_bytes ws vs : Forall is_u8 (pack ws vs).
Proof.
  revert vs. induction ws as [|w ws IH]; intros [|v vs]; cbn [pack]; try constructor.
  apply Forall_app. split; [apply le_bytes_are_bytes|apply IH].
Qed.

Lemma unpack_pack ws vs rest : in_range ws vs -> unpack ws (pack ws vs ++ rest) = vs.
Proof.
  intros H. revert rest. induction H as [|w v ws vs Hv _ IH]; intros rest; [done|]. cbn [pack unpack].
  rewrite <- app_assoc. rewrite take_app_length' by (by rewrite length_le_bytes).
  rewrite drop_app_length' by (by rewrite length_le_bytes). by rewrite of_le_le_bytes, IH.
Qed.

Lemma pack_unpack ws bs :
  Forall is_u8 bs -> (size_of ws <= length bs)%nat -> pack ws (unpack ws bs) = take (size_of ws) bs.
Proof.
  revert bs. induction ws as [|w ws IH]; intros bs Hb Hl; [done|]. cbn [unpack pack size_of foldr] in *.
  fold (size_of ws) in *.
  assert (Hw : length (take w bs) = w) by (rewrite length_take; lia).
  rewrite <- Hw at 1. rewrite le_bytes_of_le by (by apply Forall_take).
  rewrite IH by (first [by apply Forall_drop | rewrite length_drop; lia]).
  by rewrite take_take_drop.
Qed.

Lemma unpack_in_range ws bs :
  Forall is_u8 bs -> (size_of ws <= length bs)%nat -> in_range ws (unpack ws bs).
Proof.
  revert bs. induction ws as [|w ws IH]; intros bs Hb Hl; [constructor|]. cbn [unpack size_of foldr] in *.
  fold (size_of ws) in *. constructor.
  - assert (Hw : length (take w bs) = w) by (rewrite length_take; lia).
    pose proof (of_le_bound (take w bs) ltac:(by apply Forall_take)) as H. by rewrite Hw in H.
  - apply IH; [by apply Forall_drop|]. rewrite length_drop. lia.
Qed.

Lemma length_unpack ws bs : length (unpack ws bs) = length ws.
Proof. revert bs. induction ws as [|w ws IH]; intros bs; cbn; [done|]. by rewrite IH. Qed.

(** Unpacking looks at the record's own bytes only. *)
Lemma unpack_take ws bs : unpack ws (take (size_of ws) bs) = unpack ws bs.
Proof.
  revert bs. induction ws as [|w ws IH]; intros bs; [done|]. cbn [unpack size_of foldr]. fold (size_of ws).
  rewrite take_take, skipn_firstn_comm. replace (w + size_of ws - w)%nat with (size_of ws) by lia.
  rewrite IH. by replace (w `min` (w + size_of ws))%nat with w by lia.
Qed.

(** ** Arrays of records *)

Fixpoint unpack_many (ws : list nat) (n : nat) (bs : list Z) : list (list Z) :=
  match n with
  | O => []
  | S n' => unpack ws bs :: unpack_many ws n' (drop (size_of ws) bs)
  end.

Lemma length_unpack_many ws n bs : length (unpack_many ws n bs) = n.
Proof. revert bs. induction n as [|n IH]; intros bs; cbn; [done|]. by rewrite IH. Qed.

Lemma unpack_many_lookup ws n bs i : (i < n)%nat -> unpack_many ws n bs !! i = Some (unpack ws (drop (i * size_of ws) bs)).
Proof.
  revert bs i. induction n as [|n IH]; intros bs [|i] Hi; [lia|lia|done|]. cbn [unpack_many lookup list_lookup].
  rewrite IH by lia. by rewrite drop_drop.
Qed.

Lemma unpack_many_pack ws vss rest :
  Forall (in_range ws) vss -> unpack_many ws (length vss) (concat (pack ws <$> vss) ++ rest) = vss.
Proof.
  induction 1 as [|vs vss Hv _ IH]; [done|]. cbn [length unpack_many fmap list_fmap concat].
  rewrite <- app_assoc, unpack_pack by done.
  rewrite drop_app_length' by (symmetry; apply length_pack; by eapply Forall2_length). by rewrite IH.
Qed.

Lemma pack_unpack_many ws n bs :
  Forall is_u8 bs -> (n * size_of ws <= length bs)%nat ->
  concat (pack ws <$> unpack_many ws n bs) = take (n * size_of ws) bs.
Proof.
  revert bs. induction n as [|n IH]; intros bs Hb Hl; [done|]. cbn [unpack_many fmap list_fmap concat].
  rewrite pack_unpack by (done || lia).
  rewrite IH by (first [by apply Forall_drop | rewrite length_drop; lia]).
  by rewrite take_take_drop.
Qed.

Lemma unpack_many_in_range ws n bs :
  Forall is_u8 bs -> (n * size_of ws <= length bs)%nat -> Forall (in_range ws) (unpack_many ws n bs).
Proof.
  revert bs. induction n as [|n IH]; intros bs Hb Hl; [constructor|]. cbn [unpack_many]. constructor.
  - apply unpack_in_range; [done|lia].
  - apply IH; [by apply Forall_drop|rewrite length_drop; lia].
Qed.

Lemma length_concat_pack ws vss :
  Forall (fun vs => length vs = length ws) vss -> length (concat (pack ws <$> vss)) = (length vss * size_of ws)%nat.
Proof.
  induction 1 as [|vs vss Hv _ IH]; [done|]. cbn [fmap list_fmap concat length].
  rewrite length_app, length_pack by done. fold (pack ws <$> vss). rewrite IH. lia.
Qed.
