(* ===== verification/BorrowJournal.v ===== *)
(** * The borrow journal

    [src/crates/shm-core/src/journal.rs]: the per-actor crash ledger.  A fixed
    table of tagged 32-byte entries and an occupancy bitmap; [record_entry] claims
    a slot, [release] elects the one caller that gives it up, and the coordinator
    [replay]s what a dead actor still held.

    Memory: the bitmap is a list of 64-bit words, the slots a list of entries.  A
    32-byte slot copy is one action (torn copies are outside the model). *)

From S2P Require Import Prelude Atomic Pod ChunkDesc.

Definition JOURNAL_MAGIC : Z := of_le [83; 72; 77; 74; 82; 78; 76; 51]. (* b"SHMJRNL3" *)
Definition DEFAULT_CAPACITY : Z := 1024.

Definition ENTRY_EMPTY : Z := 0.
Definition ENTRY_CHUNK_PIN : Z := 1.
Definition ENTRY_ARTIFACT_PIN : Z := 2.
Definition ENTRY_WRITE_LEASE : Z := 3.
Definition ENTRY_STAGED_MANIFEST : Z := 4.

(** ** Entries *)

(** [w] is the payload [[u32; 6]]. *)
Record JournalEntry : Set := mkEntry {
  kind : Z;
  e_pad : Z;
  w0 : Z; w1 : Z; w2 : Z; w3 : Z; w4 : Z; w5 : Z
}.

Definition ZERO_ENTRY : JournalEntry := mkEntry ENTRY_EMPTY 0 0 0 0 0 0 0.

Definition chunk_pin (d : ChunkDesc) : JournalEntry :=
  mkEntry ENTRY_CHUNK_PIN 0
    (segment_id d) (generation d) (offset d) (len d) (schema_id d) (pad d).

Definition artifact_pin (artifact_id incarnation version : Z) : JournalEntry :=
  mkEntry ENTRY_ARTIFACT_PIN 0
    artifact_id (wrap32 version) (wrap32 (Z.shiftr version 32)) incarnation 0 0.

Definition write_lease (artifact_id incarnation fence : Z) : JournalEntry :=
  mkEntry ENTRY_WRITE_LEASE 0 artifact_id fence incarnation 0 0 0.

Definition staged_manifest (artifact_id incarnation manifest generation : Z) : JournalEntry :=
  mkEntry ENTRY_STAGED_MANIFEST 0
    artifact_id incarnation (wrap32 manifest) (wrap32 (Z.shiftr manifest 32)) generation 0.

Inductive JournalRecord : Set :=
| ChunkPin (d : ChunkDesc)
| ArtifactPin (artifact_id incarnation version : Z)
| WriteLease (artifact_id incarnation fence : Z)
| StagedManifest (artifact_id incarnation manifest generation : Z).

#[export] Instance JournalRecord_eq_dec : EqDecision JournalRecord.
Proof. solve_decision. Defined.

Definition to_record (e : JournalEntry) : option JournalRecord :=
  if kind e =? ENTRY_CHUNK_PIN then
    Some (ChunkPin (mkChunkDesc (w0 e) (w1 e) (w2 e) (w3 e) (w4 e) (w5 e)))
  else if kind e =? ENTRY_ARTIFACT_PIN then
    Some (ArtifactPin (w0 e) (w3 e) (Z.lor (w1 e) (Z.shiftl (w2 e) 32)))
  else if kind e =? ENTRY_WRITE_LEASE then Some (WriteLease (w0 e) (w2 e) (w1 e))
  else if kind e =? ENTRY_STAGED_MANIFEST then
    Some (StagedManifest (w0 e) (w1 e) (Z.lor (w2 e) (Z.shiftl (w3 e) 32)) (w4 e))
  else None.

(** The entry each of the typed [record_*] wrappers stores. *)
Definition entry_of (r : JournalRecord) : JournalEntry :=
  match r with
  | ChunkPin d => chunk_pin d
  | ArtifactPin a i v => artifact_pin a i v
  | WriteLease a i f => write_lease a i f
  | StagedManifest a i m g => staged_manifest a i m g
  end.

(** Field widths. *)
Definition record_wf (r : JournalRecord) : Prop :=
  match r with
  | ChunkPin d => desc_wf d
  | ArtifactPin a i v => is_u32 a /\ is_u32 i /\ is_u64 v
  | WriteLease a i f => is_u32 a /\ is_u32 i /\ is_u32 f
  | StagedManifest a i m g => is_u32 a /\ is_u32 i /\ is_u64 m /\ is_u32 g
  end.

(** ** Memory and handle *)

Record JournalMem : Set := mkJournalMem {
  j_magic : Z;
  j_capacity : Z;
  hint : Z;
  bitmap : list Z;
  slots : list JournalEntry
}.

Definition set_hint (h : Z) (m : JournalMem) : JournalMem :=
  mkJournalMem (j_magic m) (j_capacity m) h (bitmap m) (slots m).
Definition set_bitmap (b : list Z) (m : JournalMem) : JournalMem :=
  mkJournalMem (j_magic m) (j_capacity m) (hint m) b (slots m).
Definition set_slots (s : list JournalEntry) (m : JournalMem) : JournalMem :=
  mkJournalMem (j_magic m) (j_capacity m) (hint m) (bitmap m) s.

Record BorrowJournal : Set := mkJournal { words : nat; capacity : nat }.

(** [usize::div_ceil]. *)
Definition div_ceil (x y : nat) : nat := (x / y + if x mod y =? 0 then 0 else 1)%nat.

Definition SIZEOF_JournalHeader : Z := 16.
Definition SIZEOF_JournalEntry : Z := 32.
Definition ALIGNOF_JournalEntry : Z := 4.

(** [(bitmap_off, slots_off, words, total)]. *)
Definition layout (capacity : nat) : Z * Z * nat * Z :=
  let words := div_ceil capacity 64 in
  let bitmap_off := align_up SIZEOF_JournalHeader 8 in
  let slots_off := align_up (bitmap_off + Z.of_nat words * 8) ALIGNOF_JournalEntry in
  let total := slots_off + Z.of_nat capacity * SIZEOF_JournalEntry in
  (bitmap_off, slots_off, words, total).

Definition create (payload_len : Z) (capacity : nat) : result CoreError (BorrowJournal * JournalMem) :=
  if (capacity =? 0)%nat then Err LayoutOverflow
  else
    let '(_, _, words, total) := layout capacity in
    if payload_len <? total then Err LayoutOverflow
    else
      Ok (mkJournal words capacity,
          mkJournalMem JOURNAL_MAGIC (wrap32 (Z.of_nat capacity)) 0
            (replicate words 0) (replicate capacity ZERO_ENTRY)).

Definition attach (m : JournalMem) : result CoreError BorrowJournal :=
  if negb (j_magic m =? JOURNAL_MAGIC) then Err LayoutMismatch
  else
    let capacity := Z.to_nat (j_capacity m) in
    let '(_, _, words, _) := layout capacity in
    Ok (mkJournal words capacity).

(** ** Operations *)

Definition load_word (w : nat) : prog JournalMem Z :=
  act (fun m => match bitmap m !! w with Some x => Some (x, m) | None => None end).

Definition cas_word (w : nat) (old new : Z) : prog JournalMem (bool * Z) :=
  act (fun m =>
    match bitmap m !! w with
    | Some x =>
        if x =? old then Some ((true, old), set_bitmap (<[w := new]> (bitmap m)) m)
        else Some ((false, x), m)
    | None => None
    end).

Definition fetch_and_word (w : nat) (mask : Z) : prog JournalMem Z :=
  act (fun m =>
    match bitmap m !! w with
    | Some x => Some (x, set_bitmap (<[w := Z.land x mask]> (bitmap m)) m)
    | None => None
    end).

Definition write_slot (i : nat) (e : JournalEntry) : prog JournalMem unit :=
  act (fun m =>
    match slots m !! i with
    | Some _ => Some (tt, set_slots (<[i := e]> (slots m)) m)
    | None => None
    end).

Definition read_slot (i : nat) : prog JournalMem JournalEntry :=
  act (fun m => match slots m !! i with Some e => Some (e, m) | None => None end).

Section journal_ops.
Variable j : BorrowJournal.

(** Bits that are meaningful in word [w] (the last word may be partial). *)
Definition valid_mask (w : nat) : Z :=
  if (w + 1 <? words j)%nat then U64_MAX
  else
    let bits := (capacity j - (words j - 1) * 64)%nat in
    if (bits =? 64)%nat then U64_MAX else Z.shiftl 1 (Z.of_nat bits) - 1.

(** The inner [loop] of [record_entry] on word [w]: [Some None] when the word is
    full, [Some (Some idx)] when slot [idx] was claimed. *)
Definition record_word (fuel : nat) (entry : JournalEntry) (w : nat) : prog JournalMem (option (option nat)) :=
  retry fuel (fun _ : unit =>
    cur <- load_word w ;;
    let valid := valid_mask w in
    if Z.land cur valid =? valid then Ret (inr None)
    else
      let bit := trailing_zeros (Z.land (not64 cur) valid) in
      let idx := (w * 64 + bit)%nat in
      let mask := bit_mask bit in
      write_slot idx entry ;;;
      r <- cas_word w cur (Z.lor cur mask) ;;
      if r.1 then
        store (set_hint (wrap32 (Z.of_nat (idx + 1)))) ;;;
        Ret (inr (Some idx))
      else Ret (inl tt)) tt.

Definition record_entry (fuel : nat) (entry : JournalEntry) : prog JournalMem (option (result CoreError nat)) :=
  h <- load hint ;;
  let start_word := ((Z.to_nat h / 64) mod (words j `max` 1))%nat in
  found <- for_each (seq 0 (words j)) (fun step =>
    let w := ((start_word + step) mod words j)%nat in
    r <- record_word fuel entry w ;;
    Ret (match r with
         | None => Some None
         | Some None => None
         | Some (Some idx) => Some (Some (Ok idx))
         end)) ;;
  Ret (match found with Some r => r | None => Some (Err JournalFull) end).

Definition record (fuel : nat) (d : ChunkDesc) := record_entry fuel (chunk_pin d).
Definition record_artifact_pin (fuel : nat) (a i v : Z) := record_entry fuel (artifact_pin a i v).
Definition record_staged_manifest (fuel : nat) (a i m g : Z) := record_entry fuel (staged_manifest a i m g).
Definition record_write_lease (fuel : nat) (a i f : Z) := record_entry fuel (write_lease a i f).

Definition release (slot : nat) : prog JournalMem (result CoreError bool) :=
  if (capacity j <=? slot)%nat then Ret (Err OutOfBounds)
  else
    let w := (slot / 64)%nat in
    let mask := bit_mask (slot mod 64) in
    prev <- fetch_and_word w (not64 mask) ;;
    store (set_hint (wrap32 (Z.of_nat slot))) ;;;
    Ret (Ok (negb (Z.land prev mask =? 0))).

Definition is_occupied (slot : nat) : prog JournalMem bool :=
  if (capacity j <=? slot)%nat then Ret false
  else
    let w := (slot / 64)%nat in
    let mask := bit_mask (slot mod 64) in
    cur <- load_word w ;;
    Ret (negb (Z.land cur mask =? 0)).

Definition len : prog JournalMem nat :=
  for_fold (seq 0 (words j)) (fun n w =>
    cur <- load_word w ;;
    Ret (n + count_ones (Z.land cur (valid_mask w)))%nat) 0%nat.

Definition is_empty : prog JournalMem bool := n <- len ;; Ret (n =? 0)%nat.

(** The inner [while bits != 0] of [replay_indexed]; [bits] loses one bit per
    round, so 65 rounds always suffice. *)
Fixpoint replay_word (fuel : nat) (w : nat) (bits : Z) (out : list (nat * JournalRecord))
    : prog JournalMem (option (list (nat * JournalRecord))) :=
  match fuel with
  | O => Ret None
  | S fuel' =>
      if bits =? 0 then Ret (Some out)
      else
        let bit := trailing_zeros bits in
        let bits' := Z.land bits (bits - 1) in
        let idx := (w * 64 + bit)%nat in
        entry <- read_slot idx ;;
        replay_word fuel' w bits'
          (match to_record entry with Some rec => out ++ [(idx, rec)] | None => out end)
  end.

Definition replay_indexed : prog JournalMem (option (list (nat * JournalRecord))) :=
  for_fold (seq 0 (words j)) (fun out w =>
    match out with
    | None => Ret None
    | Some out =>
        cur <- load_word w ;;
        replay_word 65 w (Z.land cur (valid_mask w)) out
    end) (Some []).

Definition replay : prog JournalMem (option (list JournalRecord)) :=
  out <- replay_indexed ;; Ret (match out with Some l => Some l.*2 | None => None end).
End journal_ops.

(** ** Round trip of the entries *)

Lemma lor_halves v : is_u64 v -> Z.lor (wrap32 v) (Z.shiftl (wrap32 (Z.shiftr v 32)) 32) = v.
Proof. intros Hv. rewrite Z.lor_comm. exact (join32_split v Hv). Qed.

Lemma to_record_entry_of r : record_wf r -> to_record (entry_of r) = Some r.
Proof.
  destruct r as [d|a i v|a i f|a i m g]; cbn.
  - intros _. by destruct d.
  - intros (_ & _ & Hv). unfold to_record. cbn -[Z.lor Z.shiftl wrap32]. by rewrite lor_halves.
  - done.
  - intros (_ & _ & Hm & _). unfold to_record. cbn -[Z.lor Z.shiftl wrap32]. by rewrite lor_halves.
Qed.

(** ** Well-formedness *)

Record journal_wf (j : BorrowJournal) (m : JournalMem) : Prop := {
  wf_cap : (0 < capacity j)%nat;
  wf_words : (64 * (words j - 1) < capacity j <= 64 * words j)%nat;
  wf_bitmap : length (bitmap m) = words j;
  wf_bits : Forall is_u64 (bitmap m);
  wf_slots : length (slots m) = capacity j
}.

(** Slot [i]'s occupancy bit. *)
Definition occupied (m : JournalMem) (i : nat) : bool :=
  match bitmap m !! (i / 64)%nat with Some x => bit_set x (i mod 64) | None => false end.

Lemma div_ceil_spec x : (0 < x)%nat -> (64 * (div_ceil x 64 - 1) < x <= 64 * div_ceil x 64)%nat.
Proof.
  intros Hx. unfold div_ceil. pose proof (Nat.div_mod x 64 ltac:(lia)).
  pose proof (Nat.mod_upper_bound x 64 ltac:(lia)). destruct (Nat.eqb_spec (x mod 64) 0); lia.
Qed.

Section facts.
Context (j : BorrowJournal).

Lemma valid_mask_u64 m w : journal_wf j m -> (w < words j)%nat -> is_u64 (valid_mask j w).
Proof.
  intros H Hw. pose proof (wf_words j m H). unfold valid_mask.
  destruct (Nat.ltb_spec (w + 1) (words j)); [mach|].
  destruct (Nat.eqb_spec (capacity j - (words j - 1) * 64) 64); [mach|].
  pose proof (bit_mask_u64 (capacity j - (words j - 1) * 64) ltac:(lia)) as Hb. unfold bit_mask in Hb.
  rewrite Z.shiftl_1_l in *. pose proof (Z.pow_pos_nonneg 2 (Z.of_nat (capacity j - (words j - 1) * 64)) ltac:(lia) ltac:(lia)).
  mach.
Qed.

(** The mask of word [w] selects the slots below the capacity. *)
Lemma valid_mask_bit m w b :
  journal_wf j m -> (w < words j)%nat -> (b < 64)%nat ->
  bit_set (valid_mask j w) b = bool_decide (w * 64 + b < capacity j)%nat.
Proof.
  intros H Hw Hb. pose proof (wf_words j m H). unfold valid_mask, bit_set.
  destruct (Nat.ltb_spec (w + 1) (words j)).
  { change U64_MAX with (Z.ones 64). rewrite Z.ones_spec_low by lia.
    rewrite bool_decide_eq_true_2 by lia. done. }
  replace (words j - 1)%nat with w by lia.
  destruct (Nat.eqb_spec (capacity j - w * 64) 64) as [E|E].
  { change U64_MAX with (Z.ones 64). rewrite Z.ones_spec_low by lia.
    rewrite bool_decide_eq_true_2 by lia. done. }
  rewrite Z.sub_1_r. change (Z.pred (Z.shiftl 1 (Z.of_nat (capacity j - w * 64)))) with (Z.ones (Z.of_nat (capacity j - w * 64))).
  case_bool_decide; [apply Z.ones_spec_low|apply Z.ones_spec_high]; lia.
Qed.

Lemma slot_word m i : journal_wf j m -> (i < capacity j)%nat -> (i / 64 < words j)%nat.
Proof. intros H Hi. pose proof (wf_words j m H). apply Nat.Div0.div_lt_upper_bound. lia. Qed.

Lemma occupied_at m w x b :
  bitmap m !! w = Some x -> (b < 64)%nat -> occupied m (w * 64 + b) = bit_set x b.
Proof.
  intros Hw Hb. unfold occupied. rewrite Nat.div_add_l, Nat.div_small, Nat.add_0_r, Hw by lia.
  rewrite Nat.add_comm, Nat.Div0.mod_add, Nat.mod_small by lia. done.
Qed.

Lemma split_slot i : exists w b, (b < 64)%nat /\ i = (w * 64 + b)%nat /\ (i / 64)%nat = w /\ (i mod 64)%nat = b.
Proof.
  exists (i / 64)%nat, (i mod 64)%nat. pose proof (Nat.div_mod i 64 ltac:(lia)).
  pose proof (Nat.mod_upper_bound i 64 ltac:(lia)). split_and!; try done; lia.
Qed.

(** Updating one word updates the bits of that word only. *)
Lemma occupied_update m w x y i :
  bitmap m !! w = Some x ->
  occupied (set_bitmap (<[w := y]> (bitmap m)) m) i =
    if decide (i / 64 = w)%nat then bit_set y (i mod 64) else occupied m i.
Proof.
  intros Hw. unfold occupied. cbn. case_decide as E.
  - rewrite E, list_lookup_insert_eq; [done|]. by eapply lookup_lt_Some.
  - rewrite list_lookup_insert_ne by done. done.
Qed.

Lemma bitmap_lookup m w : journal_wf j m -> (w < words j)%nat -> exists x, bitmap m !! w = Some x /\ is_u64 x.
Proof.
  intros H Hw. destruct (lookup_lt_is_Some_2 (bitmap m) w) as [x Hx]; [by rewrite (wf_bitmap j m H)|].
  exists x. split; [done|]. by apply (Forall_lookup_1 _ _ _ _ (wf_bits j m H) Hx).
Qed.
End facts.

(** ** Lists *)

Lemma omap_nil_all {A B} (f : A -> option B) (l : list A) : (forall x, x ∈ l -> f x = None) -> omap f l = [].
Proof.
  induction l as [|x l IH]; intros H; [done|]. csimpl. rewrite (H x) by apply list_elem_of_here.
  apply IH. intros y Hy. apply H. by apply list_elem_of_further.
Qed.

Lemma omap_ext_in {A B} (f g : A -> option B) (l : list A) : (forall x, x ∈ l -> f x = g x) -> omap f l = omap g l.
Proof.
  induction l as [|x l IH]; intros H; [done|]. csimpl. rewrite (H x) by apply list_elem_of_here.
  rewrite IH; [done|]. intros y Hy. apply H. by apply list_elem_of_further.
Qed.

Lemma omap_fmap {A B C} (f : B -> option C) (g : A -> B) (l : list A) : omap f (g <$> l) = omap (f ∘ g) l.
Proof. induction l as [|x l IH]; [done|]. csimpl. by rewrite IH. Qed.

(** ** Each operation, alone *)

Section runs.
Context (j : BorrowJournal).

(** Claiming slot [i] for entry [e]. *)
Definition claimed (m : JournalMem) (i : nat) (e : JournalEntry) (m' : JournalMem) : Prop :=
  (i < capacity j)%nat /\ occupied m i = false /\ journal_wf j m' /\
  slots m' = <[i := e]> (slots m) /\
  forall k, occupied m' k = occupied m k || bool_decide (k = i).

Lemma record_word_full m w fuel e :
  journal_wf j m -> (w < words j)%nat ->
  (forall b, (b < 64)%nat -> (w * 64 + b < capacity j)%nat -> occupied m (w * 64 + b) = true) ->
  run (record_word j (S fuel) e w) m = Some (Some None, m).
Proof.
  intros H Hw Hfull. destruct (bitmap_lookup j m w H Hw) as (x & Hx & Hxu).
  apply run_retry_done. rewrite run_bind. unfold load_word. rewrite run_act, Hx.
  rewrite (proj2 (Z.eqb_eq _ _)); [done|].
  pose proof (valid_mask_u64 j m w H Hw) as Hv.
  apply u64_bits_eq; [apply land_u64; mach|done|]. intros b Hb.
  rewrite bit_set_land, (valid_mask_bit j m) by done. case_bool_decide; [|apply andb_false_r].
  rewrite andb_true_r, <- (occupied_at m w x b) by done. by apply Hfull.
Qed.

(** The bit [record_word] picks from a snapshot [x] of word [w] that is not full:
    clear in the snapshot and below the capacity. *)
Lemma free_bit m w x :
  journal_wf j m -> (w < words j)%nat -> is_u64 x -> Z.land x (valid_mask j w) <> valid_mask j w ->
  let b := trailing_zeros (Z.land (not64 x) (valid_mask j w)) in
  (b < 64)%nat /\ bit_set x b = false /\ (w * 64 + b < capacity j)%nat.
Proof.
  intros H Hw Hxu Hne b. pose proof (valid_mask_u64 j m w H Hw) as Hv.
  set (fr := Z.land (not64 x) (valid_mask j w)) in *.
  assert (Hfru : is_u64 fr) by (apply land_u64; [by apply not64_u64|mach]).
  assert (Hfr : forall c, (c < 64)%nat -> bit_set fr c = negb (bit_set x c) && bit_set (valid_mask j w) c).
  { intros c Hc. unfold fr. rewrite bit_set_land. f_equal. apply not64_spec; [done|lia]. }
  assert (Hfr0 : fr <> 0).
  { intros E. apply Hne. apply u64_bits_eq; [apply land_u64; mach|done|]. intros c Hc.
    specialize (Hfr c Hc). rewrite E in Hfr. unfold bit_set in Hfr at 1. rewrite Z.bits_0 in Hfr.
    rewrite bit_set_land. by destruct (bit_set x c), (bit_set (valid_mask j w) c). }
  destruct (trailing_zeros_nonzero fr Hfru Hfr0) as (Hb & Hset & _). fold b in Hb, Hset.
  rewrite Hfr, (valid_mask_bit j m) in Hset by done.
  by apply andb_prop in Hset as [?%negb_true_iff ?%bool_decide_eq_true_1].
Qed.

(** Setting a clear bit claims exactly its slot. *)
Lemma claim_update m w x b :
  journal_wf j m -> bitmap m !! w = Some x -> (b < 64)%nat -> bit_set x b = false ->
  let m' := set_bitmap (<[w := Z.lor x (bit_mask b)]> (bitmap m)) m in
  journal_wf j m' /\ occupied m (w * 64 + b) = false /\
  forall k, occupied m' k = occupied m k || bool_decide (k = w * 64 + b)%nat.
Proof.
  intros H Hx Hb Hxb m'. split_and!.
  - split; cbn; try apply H; [by rewrite length_insert, (wf_bitmap j m H)|].
    apply Forall_insert; [apply H|]. apply lor_u64; [|by apply bit_mask_u64].
    by apply (Forall_lookup_1 _ _ _ _ (wf_bits j m H) Hx).
  - by rewrite (occupied_at m w x b).
  - intros k. destruct (split_slot k) as (w' & b' & Hb' & -> & Ed & Em).
    unfold m'. rewrite (occupied_update m w x _ _ Hx), Ed, Em. case_decide as E.
    + subst w'. rewrite bit_set_lor_mask, (occupied_at m w x b') by done. f_equal.
      apply bool_decide_ext. lia.
    + rewrite bool_decide_eq_false_2 by lia. by rewrite orb_false_r.
Qed.

Lemma wf_write_slot m i e : journal_wf j m -> journal_wf j (set_slots (<[i := e]> (slots m)) m).
Proof. intros H. split; cbn; try apply H. by rewrite length_insert, (wf_slots j m H). Qed.

Lemma wf_set_hint m h : journal_wf j m -> journal_wf j (set_hint h m).
Proof. intros H. split; cbn; apply H. Qed.

Lemma record_word_free m w fuel e b0 :
  journal_wf j m -> (w < words j)%nat -> (b0 < 64)%nat ->
  (w * 64 + b0 < capacity j)%nat -> occupied m (w * 64 + b0) = false ->
  exists i m', run (record_word j (S fuel) e w) m = Some (Some (Some i), m') /\ claimed m i e m'.
Proof.
  intros H Hw Hb0 Hc0 Hocc. destruct (bitmap_lookup j m w H Hw) as (x & Hx & Hxu).
  rewrite (occupied_at m w x b0) in Hocc by done.
  assert (Hne : Z.land x (valid_mask j w) <> valid_mask j w).
  { intros E. apply (f_equal (fun y => bit_set y b0)) in E.
    by rewrite bit_set_land, Hocc, (valid_mask_bit j m), bool_decide_eq_true_2 in E by done. }
  destruct (free_bit m w x H Hw Hxu Hne) as (Hb & Hxb & Hcap).
  set (b := trailing_zeros (Z.land (not64 x) (valid_mask j w))) in *.
  destruct (lookup_lt_is_Some_2 (slots m) (w * 64 + b)) as [e0 He0]; [by rewrite (wf_slots j m H)|].
  set (m1 := set_slots (<[(w * 64 + b)%nat := e]> (slots m)) m).
  destruct (claim_update m1 w x b (wf_write_slot m _ e H) Hx Hb Hxb) as (H' & Hfree & Hocc').
  eexists (w * 64 + b)%nat, _. split.
  - apply run_retry_done. rewrite run_bind. unfold load_word. rewrite run_act, Hx. cbn zeta.
    rewrite (proj2 (Z.eqb_neq _ _)) by done.
    fold b. rewrite run_bind. unfold write_slot. rewrite run_act, He0.
    rewrite run_bind. unfold cas_word. rewrite run_act. cbn [bitmap set_slots]. rewrite Hx, Z.eqb_refl.
    cbn [fst]. rewrite run_bind. unfold store. rewrite run_act. reflexivity.
  - split_and!; [done|exact Hfree|apply wf_set_hint; exact H'|done|exact Hocc'].
Qed.

(** The scan from the hint visits every word once. *)
Lemma scan_start_covers (s w : nat) : (w < words j)%nat ->
  exists step, (step < words j)%nat /\ ((s + step) mod words j = w)%nat.
Proof.
  intros Hw. set (s' := (s mod words j)%nat). assert (s' < words j)%nat by (apply Nat.mod_upper_bound; lia).
  exists ((w + words j - s') mod words j)%nat. split; [apply Nat.mod_upper_bound; lia|].
  rewrite Nat.Div0.add_mod_idemp_r, <- Nat.Div0.add_mod_idemp_l. fold s'.
  replace (s' + (w + words j - s'))%nat with (w + 1 * words j)%nat by lia.
  rewrite Nat.Div0.mod_add. by apply Nat.mod_small.
Qed.

Definition word_full (m : JournalMem) (w : nat) : bool :=
  forallb (fun b => bool_decide (capacity j <= w * 64 + b)%nat || occupied m (w * 64 + b)) (seq 0 64).

Lemma word_full_true m w : word_full m w = true <->
  forall b, (b < 64)%nat -> (w * 64 + b < capacity j)%nat -> occupied m (w * 64 + b) = true.
Proof.
  unfold word_full. rewrite forallb_forall. setoid_rewrite in_seq. split.
  - intros H b Hb Hc. specialize (H b ltac:(lia)). by rewrite bool_decide_eq_false_2 in H by lia.
  - intros H b Hb. case_bool_decide; [done|]. apply H; lia.
Qed.

Lemma word_full_false m w : word_full m w = false ->
  exists b, (b < 64)%nat /\ (w * 64 + b < capacity j)%nat /\ occupied m (w * 64 + b) = false.
Proof.
  intros H. unfold word_full in H. apply not_true_iff_false in H. rewrite forallb_forall in H.
  destruct (list_find (fun b => bool_decide (capacity j <= w * 64 + b)%nat || occupied m (w * 64 + b) = false) (seq 0 64)) as [[i b]|] eqn:E.
  - apply list_find_Some in E as (Hi & Hb & _). apply lookup_seq in Hi as [-> Hi].
    apply orb_false_iff in Hb as [Hc%bool_decide_eq_false_1 Ho]. rewrite Nat.add_0_l in *. exists i. split_and!; [lia|lia|done].
  - exfalso. apply H. intros b Hb. apply list_find_None in E. rewrite list.Forall_forall in E.
    apply not_false_iff_true. apply E. apply elem_of_seq. apply in_seq in Hb. lia.
Qed.

(** [record_entry] claims a free slot, or reports [JournalFull] with every slot
    occupied. *)
Lemma record_entry_run m fuel e :
  journal_wf j m ->
  (exists i m', run (record_entry j (S fuel) e) m = Some (Some (Ok i), m') /\ claimed m i e m') \/
  (run (record_entry j (S fuel) e) m = Some (Some (Err JournalFull), m) /\
   forall i, (i < capacity j)%nat -> occupied m i = true).
Proof.
  intros H. pose proof (wf_words j m H) as Hww. pose proof (wf_cap j m H).
  unfold record_entry. rewrite run_bind. unfold load. rewrite run_act. cbn zeta.
  set (start := ((Z.to_nat (hint m) / 64) mod (words j `max` 1))%nat).
  set (at_ := fun step => ((start + step) mod words j)%nat).
  assert (Hat : forall step, (at_ step < words j)%nat) by (intros; apply Nat.mod_upper_bound; lia).
  match goal with |- context [for_each _ ?f] => set (body := f) end.
  assert (Hskip : forall step, word_full m (at_ step) = true -> run (body step) m = Some (None, m)).
  { intros step Hf. unfold body. fold (at_ step). rewrite run_bind, record_word_full; [done|done|done|].
    by apply word_full_true. }
  destruct (list_find (fun step => word_full m (at_ step) = false) (seq 0 (words j))) as [[k step]|] eqn:Ef.
  - left. apply list_find_Some in Ef as (Hk & Hfree & Hpre).
    destruct (word_full_false _ _ Hfree) as (b & Hb & Hc & Ho).
    destruct (record_word_free m (at_ step) fuel e b H (Hat step) Hb Hc Ho) as (i & m' & Hrun & Hcl).
    exists i, m'. split; [|done]. rewrite run_bind.
    rewrite <- (take_drop_middle _ _ _ Hk), (run_for_each_first _ step _ body m (Some (Ok i)) m'); [done| |].
    + intros y [q Hq]%list_elem_of_lookup. pose proof (lookup_lt_Some _ _ _ Hq) as Hlt.
      rewrite length_take in Hlt. rewrite lookup_take_lt in Hq by lia.
      apply Hskip. apply not_false_iff_true. apply (Hpre q y Hq). lia.
    + unfold body. fold (at_ step). by rewrite run_bind, Hrun.
  - right. apply list_find_None in Ef. rewrite list.Forall_forall in Ef.
    assert (Hall : forall step, step ∈ seq 0 (words j) -> word_full m (at_ step) = true)
      by (intros step Hs; apply not_false_iff_true, Ef, Hs).
    split.
    + rewrite run_bind, run_for_each_none; [done|]. intros step Hs. by apply Hskip, Hall.
    + intros i Hi. destruct (split_slot i) as (w & b & Hb & -> & Ew & _).
      destruct (scan_start_covers start w) as (step & Hs & Hw); [lia|].
      specialize (Hall step ltac:(apply elem_of_seq; lia)). unfold at_ in Hall. rewrite Hw in Hall.
      by apply (proj1 (word_full_true m w)).
Qed.

(** Clearing a bit vacates exactly its slot. *)
Lemma vacate_update m w x b :
  journal_wf j m -> bitmap m !! w = Some x -> (b < 64)%nat ->
  let m' := set_bitmap (<[w := Z.land x (not64 (bit_mask b))]> (bitmap m)) m in
  journal_wf j m' /\ forall k, occupied m' k = occupied m k && negb (bool_decide (k = w * 64 + b)%nat).
Proof.
  intros H Hx Hb m'. pose proof (Forall_lookup_1 _ _ _ _ (wf_bits j m H) Hx) as Hxu. split.
  - split; cbn; try apply H; [by rewrite length_insert, (wf_bitmap j m H)|].
    apply Forall_insert; [apply H|]. apply land_u64; [done|]. pose proof (not64_u64 _ (bit_mask_u64 b Hb)). mach.
  - intros k. destruct (split_slot k) as (w' & b' & Hb' & -> & Ew' & Eb').
    unfold m'. rewrite (occupied_update m w x _ _ Hx), Ew', Eb'. case_decide as E.
    + subst w'. rewrite bit_set_land_not, (occupied_at m w x b') by done. do 2 f_equal.
      apply bool_decide_ext. lia.
    + rewrite bool_decide_eq_false_2 by lia. by rewrite andb_true_r.
Qed.

Lemma release_run m i :
  journal_wf j m -> (i < capacity j)%nat ->
  exists m', run (release j i) m = Some (Ok (occupied m i), m') /\ journal_wf j m' /\
    slots m' = slots m /\ forall k, occupied m' k = occupied m k && negb (bool_decide (k = i)).
Proof.
  intros H Hi. destruct (bitmap_lookup j m (i / 64) H (slot_word j m i H Hi)) as (x & Hx & Hxu).
  destruct (split_slot i) as (w & b & Hb & Ei & Ew & Eb). rewrite Ew in Hx.
  destruct (vacate_update m w x b H Hx Hb) as [H' Hocc].
  exists (set_hint (wrap32 (Z.of_nat i)) (set_bitmap (<[w := Z.land x (not64 (bit_mask b))]> (bitmap m)) m)).
  split; [|split_and!; [apply wf_set_hint; exact H'|done|rewrite Ei; exact Hocc]].
  unfold release. rewrite (proj2 (Nat.leb_gt _ _)) by done. cbn zeta. rewrite run_bind.
  unfold fetch_and_word. rewrite run_act, Ew, Eb, Hx. rewrite run_bind. unfold store. rewrite run_act.
  rewrite land_mask_nonzero, <- (occupied_at m w x b), <- Ei by done. reflexivity.
Qed.

Lemma is_occupied_run m i :
  journal_wf j m -> run (is_occupied j i) m = Some (bool_decide (i < capacity j)%nat && occupied m i, m).
Proof.
  intros H. unfold is_occupied. destruct (Nat.leb_spec (capacity j) i) as [Hi|Hi].
  { rewrite bool_decide_eq_false_2 by lia. done. }
  rewrite bool_decide_eq_true_2 by done. cbn zeta.
  destruct (bitmap_lookup j m (i / 64) H (slot_word j m i H Hi)) as (x & Hx & Hxu).
  rewrite run_bind. unfold load_word. rewrite run_act, Hx. cbn [run].
  rewrite land_mask_nonzero. unfold occupied. by rewrite Hx.
Qed.

(** What replay reports for slot [i]. *)
Definition slot_rec (m : JournalMem) (i : nat) : option (nat * JournalRecord) :=
  match slots m !! i with Some e => pair i <$> to_record e | None => None end.

(** The replay loop over one word visits its set bits in ascending order. *)
Lemma replay_word_run m w fuel n k bits out :
  (forall b, (b < 64)%nat -> bit_set bits b = true -> is_Some (slots m !! (w * 64 + b)%nat)) ->
  is_u64 bits -> (forall b, (b < k)%nat -> bit_set bits b = false) -> (k + n = 64)%nat -> (n < fuel)%nat ->
  run (replay_word fuel w bits out) m =
    Some (Some (out ++ omap (fun b => if bit_set bits b then slot_rec m (w * 64 + b) else None) (seq k n)), m).
Proof.
  revert n k bits out. induction fuel as [|fuel IH]; intros n k bits out Hsl Hbu Hlow Hk Hf; [lia|].
  cbn [replay_word]. destruct (Z.eqb_spec bits 0) as [->|Hne].
  { cbn [run]. rewrite <- (app_nil_r out) at 1. do 4 f_equal. symmetry.
    apply omap_nil_all. intros b _. unfold bit_set. by rewrite Z.bits_0. }
  destruct (trailing_zeros_nonzero bits Hbu Hne) as (Ht & Hset & Hbelow).
  set (t := trailing_zeros bits) in *.
  assert (Hkt : (k <= t)%nat).
  { destruct (Nat.le_gt_cases k t); [done|]. rewrite Hlow in Hset by lia. done. }
  destruct (Hsl t Ht Hset) as [e He].
  rewrite run_bind. unfold read_slot. rewrite run_act, He.
  assert (Hclr : forall b, (b < 64)%nat -> bit_set (Z.land bits (bits - 1)) b = bit_set bits b && negb (bool_decide (b = t)))
    by (intros b Hb; by apply clear_lowest).
  rewrite (IH (63 - t)%nat (S t)); [| | | |lia|lia].
  - do 2 f_equal. replace n with ((t - k) + S (63 - t))%nat by lia. rewrite seq_app, omap_app.
    rewrite (omap_nil_all _ (seq k (t - k))).
    2:{ intros b Hb%elem_of_seq. by rewrite Hbelow by lia. }
    replace (k + (t - k))%nat with t by lia. cbn [seq app]. csimpl. rewrite Hset.
    unfold slot_rec at 2. rewrite He. rewrite (omap_ext_in _ (fun b => if bit_set bits b then slot_rec m (w * 64 + b) else None)).
    + destruct (to_record e); csimpl; [by rewrite <- app_assoc|done].
    + intros b Hb%elem_of_seq. rewrite Hclr by lia. rewrite bool_decide_eq_false_2 by lia. by rewrite andb_true_r.
  - intros b Hb Hs. rewrite Hclr in Hs by done. apply andb_prop in Hs as [? _]. by apply Hsl.
  - apply land_u64; [done|]. mach.
  - intros b Hb. rewrite Hclr by lia. case_bool_decide; [apply andb_false_r|].
    rewrite Hbelow by lia. done.
Qed.

(** What the whole journal holds, in slot order. *)
Definition held (m : JournalMem) : list (nat * JournalRecord) :=
  omap (fun i => if occupied m i then slot_rec m i else None) (seq 0 (capacity j)).

(** Words [0 .. n) concatenated cover the slots [0 .. 64 n). *)
Lemma foldl_words {A} (F : nat -> list A) (f : nat -> option A) acc n :
  (forall w, (w < n)%nat -> F w = omap f (seq (w * 64) 64)) ->
  foldl (fun out w => out ++ F w) acc (seq 0 n) = acc ++ omap f (seq 0 (n * 64)).
Proof.
  induction n as [|n IH]; intros HF; [by rewrite app_nil_r|].
  rewrite seq_S, foldl_app, IH by (intros; apply HF; lia). cbn [foldl]. rewrite HF by lia.
  rewrite <- app_assoc. f_equal. rewrite Nat.add_0_l. replace (S n * 64)%nat with (n * 64 + 64)%nat by lia.
  by rewrite seq_app, omap_app.
Qed.

(** The slots past the capacity contribute nothing. *)
Lemma held_words m : journal_wf j m ->
  held m = omap (fun i => if bool_decide (i < capacity j)%nat && occupied m i then slot_rec m i else None)
             (seq 0 (words j * 64)).
Proof.
  intros H. pose proof (wf_words j m H). unfold held.
  replace (words j * 64)%nat with (capacity j + (words j * 64 - capacity j))%nat by lia.
  rewrite seq_app, omap_app. rewrite (omap_nil_all _ (seq (0 + capacity j) _)), app_nil_r.
  2:{ intros i Hi%elem_of_seq. by rewrite bool_decide_eq_false_2 by lia. }
  apply omap_ext_in. intros i Hi%elem_of_seq. by rewrite bool_decide_eq_true_2 by lia.
Qed.

Lemma masked_bit m w x b :
  journal_wf j m -> (w < words j)%nat -> bitmap m !! w = Some x -> (b < 64)%nat ->
  bit_set (Z.land x (valid_mask j w)) b =
    bool_decide (w * 64 + b < capacity j)%nat && occupied m (w * 64 + b).
Proof.
  intros H Hw Hx Hb. rewrite bit_set_land, (valid_mask_bit j m), (occupied_at m w x b) by done.
  apply andb_comm.
Qed.

Lemma replay_indexed_run m : journal_wf j m -> run (replay_indexed j) m = Some (Some (held m), m).
Proof.
  intros H. rewrite (held_words m H). unfold replay_indexed.
  set (F := fun w => omap (fun i => if bool_decide (i < capacity j)%nat && occupied m i then slot_rec m i else None) (seq (w * 64) 64)).
  rewrite (run_for_fold_pure _ _ (fun out w => match out with None => None | Some o => Some (o ++ F w) end)).
  - do 2 f_equal.
    assert (E : forall n acc, foldl (fun out w => match out with None => None | Some o => Some (o ++ F w) end) (Some acc) (seq 0 n)
        = Some (foldl (fun o w => o ++ F w) acc (seq 0 n))).
    { induction n as [|n IH]; intros acc; [done|]. rewrite seq_S, !foldl_app, IH. done. }
    rewrite E. f_equal. rewrite (foldl_words F (fun i => if bool_decide (i < capacity j)%nat && occupied m i then slot_rec m i else None)); done.
  - intros [out|] w Hw%elem_of_seq; [|done]. destruct (bitmap_lookup j m w H ltac:(lia)) as (x & Hx & Hxu).
    rewrite run_bind. unfold load_word. rewrite run_act, Hx.
    pose proof (valid_mask_u64 j m w H ltac:(lia)) as Hv.
    rewrite (replay_word_run m w 65 64 0); [| | |lia|lia|lia].
    + do 4 f_equal. unfold F. replace (seq (w * 64) 64) with (Nat.add (w * 64) <$> seq 0 64) by (by rewrite fmap_add_seq, Nat.add_0_r).
      rewrite omap_fmap.
      apply omap_ext_in. intros b Hb%elem_of_seq. cbn. by rewrite (masked_bit m w x b) by lia || done.
    + intros b Hb Hs. rewrite (masked_bit m w x b) in Hs by lia || done.
      apply andb_prop in Hs as [Hc%bool_decide_eq_true_1 _]. apply lookup_lt_is_Some_2. by rewrite (wf_slots j m H).
    + apply land_u64; [done|mach].
Qed.
End runs.

Section counting.
Context (j : BorrowJournal).

Lemma count_ones_omap x :
  count_ones x = length (omap (fun b => if bit_set x b then Some b else None) (seq 0 64)).
Proof.
  unfold count_ones, bit_set. induction (seq 0 64) as [|b l IH]; [done|].
  rewrite filter_cons. csimpl. destruct (Z.testbit x (Z.of_nat b)) eqn:E; csimpl; by rewrite IH.
Qed.

Lemma len_run m :
  journal_wf j m ->
  run (len j) m = Some (length (omap (fun i => if occupied m i then Some i else None) (seq 0 (capacity j))), m).
Proof.
  intros H. pose proof (wf_words j m H).
  set (f := fun i => if bool_decide (i < capacity j)%nat && occupied m i then Some i else None).
  assert (E : omap (fun i => if occupied m i then Some i else None) (seq 0 (capacity j)) = omap f (seq 0 (words j * 64))).
  { replace (words j * 64)%nat with (capacity j + (words j * 64 - capacity j))%nat by lia.
    rewrite seq_app, omap_app. rewrite (omap_nil_all _ (seq (0 + capacity j) _)), app_nil_r.
    2:{ intros i Hi%elem_of_seq. unfold f. by rewrite bool_decide_eq_false_2 by lia. }
    apply omap_ext_in. intros i Hi%elem_of_seq. unfold f. by rewrite bool_decide_eq_true_2 by lia. }
  rewrite E, <- (app_nil_l (omap f _)), <- (foldl_words (fun w => omap f (seq (w * 64) 64)) f) by done.
  unfold len. rewrite (run_for_fold_pure _ _ (fun n w => (n + length (omap f (seq (w * 64) 64)))%nat)).
  - do 2 f_equal. assert (G : forall l acc, foldl (fun n w => (n + length (omap f (seq (w * 64) 64)))%nat) (length acc) l =
        length (foldl (fun o w => o ++ omap f (seq (w * 64) 64)) acc l)); [|exact (G _ [])].
    induction l as [|w l IH]; intros acc; [done|]. cbn [foldl]. rewrite <- IH. by rewrite length_app.
  - intros n w Hw%elem_of_seq. destruct (bitmap_lookup j m w H ltac:(lia)) as (x & Hx & Hxu).
    rewrite run_bind. unfold load_word. rewrite run_act, Hx. cbn [run]. do 3 f_equal. rewrite count_ones_omap.
    replace (seq (w * 64) 64) with (Nat.add (w * 64) <$> seq 0 64) by (by rewrite fmap_add_seq, Nat.add_0_r).
    rewrite omap_fmap.
    rewrite (omap_ext_in _ (fun b => if bool_decide (w * 64 + b < capacity j)%nat && occupied m (w * 64 + b) then Some b else None)).
    + unfold f, compose. induction (seq 0 64) as [|b l IH]; [done|]. csimpl.
      destruct (bool_decide (w * 64 + b < capacity j)%nat && occupied m (w * 64 + b)); csimpl; by rewrite IH.
    + intros b Hb%elem_of_seq. by rewrite (masked_bit j m w x b) by lia || done.
Qed.
End counting.

(** ** The abstract journal: a finite map from slots to records *)

Inductive journal_op : Set :=
| JRecord (r : JournalRecord)
| JRelease (slot : nat)
| JOccupied (slot : nat)
| JLen
| JReplay.

Inductive journal_ret : Set :=
| RSlot (r : result CoreError nat)
| RReleased (r : result CoreError bool)
| ROccupied (b : bool)
| RLen (n : nat)
| RReplay (l : list (nat * JournalRecord)).

Definition exec (j : BorrowJournal) (m : JournalMem) (op : journal_op) : option (journal_ret * JournalMem) :=
  match op with
  | JRecord r =>
      match run (record_entry j 1 (entry_of r)) m with
      | Some (Some x, m') => Some (RSlot x, m')
      | _ => None
      end
  | JRelease slot => match run (release j slot) m with Some (x, m') => Some (RReleased x, m') | None => None end
  | JOccupied slot => match run (is_occupied j slot) m with Some (x, m') => Some (ROccupied x, m') | None => None end
  | JLen => match run (len j) m with Some (x, m') => Some (RLen x, m') | None => None end
  | JReplay =>
      match run (replay_indexed j) m with
      | Some (Some x, m') => Some (RReplay x, m')
      | _ => None
      end
  end.

(** A journal of [cap] slots holding [v]: what [op] may answer and leave. *)
Definition spec (cap : nat) (v : gmap nat JournalRecord) (op : journal_op) (ret : journal_ret)
    (v' : gmap nat JournalRecord) : Prop :=
  match op, ret with
  | JRecord r, RSlot (Ok i) => (i < cap)%nat /\ v !! i = None /\ v' = <[i := r]> v
  | JRecord r, RSlot (Err e) => e = JournalFull /\ size v = cap /\ v' = v
  | JRelease i, RReleased (Ok b) => (i < cap)%nat /\ b = bool_decide (is_Some (v !! i)) /\ v' = delete i v
  | JRelease i, RReleased (Err e) => e = OutOfBounds /\ (cap <= i)%nat /\ v' = v
  | JOccupied i, ROccupied b => b = bool_decide (is_Some (v !! i)) /\ v' = v
  | JLen, RLen n => n = size v /\ v' = v
  | JReplay, RReplay l => l = omap (fun i => pair i <$> v !! i) (seq 0 cap) /\ v' = v
  | _, _ => False
  end.

Definition op_wf (op : journal_op) : Prop := match op with JRecord r => record_wf r | _ => True end.

(** The memory [m] represents [v]. *)
Definition represents (j : BorrowJournal) (m : JournalMem) (v : gmap nat JournalRecord) : Prop :=
  journal_wf j m /\
  (forall i r, v !! i = Some r -> (i < capacity j)%nat /\ slots m !! i = Some (entry_of r) /\ record_wf r) /\
  forall i, (i < capacity j)%nat -> occupied m i = bool_decide (is_Some (v !! i)).

(** Listing a map by ascending key. *)
Lemma listing_size {A} (v : gmap nat A) cap :
  (forall i x, v !! i = Some x -> (i < cap)%nat) ->
  length (omap (fun i => pair i <$> v !! i) (seq 0 cap)) = size v.
Proof.
  intros Hb. rewrite <- length_map_to_list. apply Permutation_length. apply NoDup_Permutation.
  - assert (E : (omap (fun i => pair i <$> v !! i) (seq 0 cap)).*1 `sublist_of` seq 0 cap).
    { induction (seq 0 cap) as [|i l IH]; [done|]. csimpl. destruct (v !! i); csimpl; by constructor. }
    apply (NoDup_fmap_1 fst). eapply sublist_NoDup; [apply NoDup_seq|exact E].
  - apply NoDup_map_to_list.
  - intros [i x]. rewrite elem_of_map_to_list, list_elem_of_omap. split.
    + intros (k & _ & Hk). destruct (v !! k) eqn:Ev; cbn in Hk; [|done]. by injection Hk as <- <-.
    + intros Hi. exists i. rewrite Hi. split; [|done]. apply elem_of_seq. pose proof (Hb i x Hi). lia.
Qed.

Lemma create_represents payload_len cap :
  (0 < cap)%nat -> (layout cap).2 <= payload_len ->
  exists j m, create payload_len cap = Ok (j, m) /\ capacity j = cap /\ represents j m ∅.
Proof.
  intros Hc Hfit. unfold create. destruct (Nat.eqb_spec cap 0); [lia|].
  unfold layout in *. cbn [snd] in Hfit. rewrite (proj2 (Z.ltb_ge _ _)) by lia.
  eexists _, _. split_and!; [done|done|]. pose proof (div_ceil_spec cap Hc). split_and!.
  - split; cbn [words capacity bitmap slots]; [lia|lia|by rewrite length_replicate| |by rewrite length_replicate].
    apply Forall_replicate. mach.
  - intros i r Hi. by rewrite lookup_empty in Hi.
  - intros i Hi. rewrite lookup_empty. rewrite bool_decide_eq_false_2 by (by intros [? ?]).
    unfold occupied. cbn. destruct (replicate _ _ !! _) as [x|] eqn:E; [|done].
    apply lookup_replicate in E as [-> _]. apply Z.bits_0.
Qed.

Lemma represents_full j m v :
  represents j m v -> (forall i, (i < capacity j)%nat -> occupied m i = true) -> size v = capacity j.
Proof.
  intros (H & Hv & Ho) Hall. rewrite <- (listing_size v (capacity j)) by (intros i x Hi; by apply (Hv i x)).
  assert (E : forall l, (forall i, i ∈ l -> (i < capacity j)%nat) -> length (omap (fun i => pair i <$> v !! i) l) = length l).
  { induction l as [|i l IH]; intros Hl; [done|]. csimpl.
    specialize (Hall i (Hl i ltac:(apply list_elem_of_here))).
    rewrite Ho in Hall by (apply Hl, list_elem_of_here). apply bool_decide_eq_true_1 in Hall as [r ->]. csimpl.
    rewrite IH; [done|]. intros k Hk. apply Hl. by apply list_elem_of_further. }
  rewrite E, length_seq; [done|]. intros i Hi%elem_of_seq. lia.
Qed.

Lemma represents_held j m v : represents j m v -> held j m = omap (fun i => pair i <$> v !! i) (seq 0 (capacity j)).
Proof.
  intros (H & Hv & Ho). apply omap_ext_in. intros i Hi%elem_of_seq. rewrite Ho by lia.
  destruct (v !! i) as [r|] eqn:E; [|done]. destruct (Hv i r E) as (_ & Hs & Hr).
  unfold slot_rec. rewrite Hs, to_record_entry_of by done. done.
Qed.

Lemma represents_len j m v : represents j m v ->
  length (omap (fun i => if occupied m i then Some i else None) (seq 0 (capacity j))) = size v.
Proof.
  intros (H & Hv & Ho). rewrite <- (listing_size v (capacity j)) by (intros i x Hi; by apply (Hv i x)).
  assert (E : forall l, (forall i, i ∈ l -> (i < capacity j)%nat) ->
    length (omap (fun i => if occupied m i then Some i else None) l) = length (omap (fun i => pair i <$> v !! i) l)).
  { induction l as [|i l IH]; intros Hl; [done|]. csimpl. rewrite Ho by (apply Hl, list_elem_of_here).
    destruct (v !! i); csimpl; rewrite IH; try done; intros k Hk; apply Hl; by apply list_elem_of_further. }
  apply E. intros i Hi%elem_of_seq. lia.
Qed.

(** One step of the simulation. *)
Lemma exec_refines j m v op :
  represents j m v -> op_wf op ->
  exists ret m' v', exec j m op = Some (ret, m') /\ spec (capacity j) v op ret v' /\ represents j m' v'.
Proof.
  intros Hrep Hop. pose proof Hrep as (H & Hv & Ho). destruct op as [r|i|i| |]; cbn [exec].
  - destruct (record_entry_run j m 0 (entry_of r) H) as [(i & m' & -> & Hi & Hfree & H' & Hs & Hocc)|[-> Hfull]].
    + rewrite Ho in Hfree by done. apply bool_decide_eq_false_1 in Hfree. apply eq_None_not_Some in Hfree.
      eexists _, _, _. split; [done|]. split; [by cbn [spec]|]. split; [done|]. split.
      * intros k x Hk. destruct (decide (i = k)) as [<-|Hne].
        -- rewrite lookup_insert_eq in Hk. injection Hk as <-. split; [done|]. split; [|exact Hop].
           rewrite Hs, list_lookup_insert_eq; [done|]. by rewrite (wf_slots j m H).
        -- rewrite lookup_insert_ne in Hk by done. destruct (Hv k x Hk) as (? & Hk' & ?).
           by rewrite Hs, list_lookup_insert_ne.
      * intros k Hk. rewrite Hocc, Ho by done. destruct (decide (i = k)) as [<-|Hne].
        -- rewrite lookup_insert_eq, orb_comm, !bool_decide_eq_true_2 by done. done.
        -- rewrite lookup_insert_ne by done. rewrite (bool_decide_eq_false_2 (k = i)) by done. by rewrite orb_false_r.
    + eexists _, _, _. split; [done|]. split; [|done]. cbn [spec]. split_and!; [done|by apply (represents_full j m)|done].
  - destruct (Nat.le_gt_cases (capacity j) i) as [Hi|Hi].
    { unfold release. rewrite (proj2 (Nat.leb_le _ _)) by done. eexists _, _, _. by cbn [spec]. }
    destruct (release_run j m i H Hi) as (m' & -> & H' & Hs & Hocc).
    eexists _, _, _. split; [done|]. split; [cbn [spec]; split_and!; [done|by apply Ho|done]|]. split; [done|]. split.
    + intros k x [_ Hk]%lookup_delete_Some. rewrite Hs. by apply Hv.
    + intros k Hk. rewrite Hocc, Ho by done. destruct (decide (i = k)) as [<-|Hne].
      * rewrite lookup_delete_eq, (bool_decide_eq_true_2 (i = i)) by done. by rewrite andb_false_r.
      * rewrite lookup_delete_ne by done. rewrite (bool_decide_eq_false_2 (k = i)) by done. by rewrite andb_true_r.
  - rewrite is_occupied_run by done. eexists _, _, _. split; [done|]. split; [|done]. cbn [spec]. split; [|done].
    case_bool_decide as Hi; [by rewrite Ho|]. symmetry. apply bool_decide_eq_false_2. intros [x Hx]. by apply Hv in Hx as [? _].
  - rewrite len_run by done. eexists _, _, _. split; [done|]. split; [|done]. split; [by apply represents_len|done].
  - rewrite replay_indexed_run by done. eexists _, _, _. split; [done|]. split; [|done]. split; [by apply represents_held|done].
Qed.

(** Sequences of operations, and the answers the abstract journal allows. *)
Fixpoint exec_all (j : BorrowJournal) (m : JournalMem) (ops : list journal_op) : option (list journal_ret * JournalMem) :=
  match ops with
  | [] => Some ([], m)
  | op :: ops' =>
      match exec j m op with
      | Some (r, m') => match exec_all j m' ops' with Some (rs, m'') => Some (r :: rs, m'') | None => None end
      | None => None
      end
  end.

Inductive spec_all (cap : nat) : gmap nat JournalRecord -> list journal_op -> list journal_ret -> gmap nat JournalRecord -> Prop :=
| spec_nil v : spec_all cap v [] [] v
| spec_cons v v' v'' op ops r rs :
    spec cap v op r v' -> spec_all cap v' ops rs v'' -> spec_all cap v (op :: ops) (r :: rs) v''.

(** C10. The journal refines a finite map from slots to records.  From creation,
    any sequence of recordings, releases and queries answers as the map would:
    [record_*] stores its record in a slot that was free and reports [JournalFull]
    only when every slot is taken; [release] answers whether it was the one to
    empty the slot; and [replay] returns exactly the records still held, decoded to
    what was recorded, in slot order.  No operation accesses memory out of bounds
    or loops. *)
Theorem journal_refines_map payload_len cap ops :
  (0 < cap)%nat -> (layout cap).2 <= payload_len -> Forall op_wf ops ->
  exists j m0 rs m v, create payload_len cap = Ok (j, m0) /\
    exec_all j m0 ops = Some (rs, m) /\ spec_all cap ∅ ops rs v /\ represents j m v.
Proof.
  intros Hc Hfit Hops. destruct (create_represents payload_len cap Hc Hfit) as (j & m0 & Hcr & <- & Hrep).
  assert (G : exists rs m v, exec_all j m0 ops = Some (rs, m) /\ spec_all (capacity j) ∅ ops rs v /\ represents j m v).
  { clear Hcr Hfit. revert m0 Hrep. generalize (∅ : gmap nat JournalRecord). induction Hops as [|op ops Hop _ IH]; intros v m0 Hrep.
    { exists [], m0, v. split_and!; [done|constructor|done]. }
    destruct (exec_refines j m0 v op Hrep Hop) as (r & m1 & v1 & He & Hs & Hrep1).
    destruct (IH v1 m1 Hrep1) as (rs & m2 & v2 & He2 & Hs2 & Hrep2).
    exists (r :: rs), m2, v2. cbn [exec_all]. rewrite He, He2. split_and!; [done|by econstructor|done]. }
  destruct G as (rs & m & v & ? & ? & ?). by exists j, m0, rs, m, v.
Qed.

Definition demo_ops : list journal_op :=
  [JRecord (ArtifactPin 7 1 (2 ^ 33 + 5)); JRecord (WriteLease 3 2 9); JRelease 0; JRecord (StagedManifest 1 1 (2 ^ 40) 6); JReplay; JLen].

Lemma journal_refines_map_witness :
  exists j m0 rs m v, create 4096 2 = Ok (j, m0) /\
    exec_all j m0 demo_ops = Some (rs, m) /\ spec_all 2 ∅ demo_ops rs v /\ represents j m v.
Proof.
  apply (journal_refines_map 4096 2 demo_ops); [lia|vm_compute; discriminate|].
  repeat constructor; cbn; mach.
Defined.
