(* ===== verification/JournalConc.v ===== *)
(** * The borrow journal under concurrency

    [release] as an election between any number of threads (an actor's own release
    against the coordinator's replay), and what concurrent recorders may and may
    not assume: a single recorder's entries are safe from any number of releasers,
    but two recorders can overwrite each other. *)

From S2P Require Import Prelude Atomic Pod ChunkDesc BorrowJournal.

(** ** Clients *)

Inductive jclient_op : Set := KRecord (e : JournalEntry) | KRelease (slot : nat).

(** What a thread was told: the slots it claimed, with the entries it stored, and
    the slots it was elected to release; most recent first. *)
Record jlog : Set := mkLog { claimed_log : list (nat * JournalEntry); elected_log : list nat }.

Fixpoint jclient (j : BorrowJournal) (fuel : nat) (ops : list jclient_op) (l : jlog) : prog JournalMem jlog :=
  match ops with
  | [] => Ret l
  | KRecord e :: ops' =>
      r <- record_entry j fuel e ;;
      jclient j fuel ops'
        (match r with Some (Ok i) => mkLog ((i, e) :: claimed_log l) (elected_log l) | _ => l end)
  | KRelease i :: ops' =>
      r <- release j i ;;
      jclient j fuel ops'
        (match r with Ok true => mkLog (claimed_log l) (i :: elected_log l) | _ => l end)
  end.

Definition no_log : jlog := mkLog [] [].

Definition start (j : BorrowJournal) (fuel : nat) (scripts : list (list jclient_op)) : list (prog JournalMem jlog) :=
  (fun ops => jclient j fuel ops no_log) <$> scripts.

(** How often slot [s] occurs. *)
Definition claims (s : nat) (l : jlog) : nat := length (filter (fun x => x.1 = s) (claimed_log l)).
Definition elections (s : nat) (l : jlog) : nat := length (filter (fun x => x = s) (elected_log l)).

Definition b2n (b : bool) : nat := if b then 1%nat else 0%nat.

Lemma claims_cons s i e cl el :
  claims s (mkLog ((i, e) :: cl) el) = (b2n (bool_decide (i = s)) + claims s (mkLog cl el))%nat.
Proof. unfold claims. cbn [claimed_log]. rewrite filter_cons. cbn. by do 2 case_decide. Qed.

Lemma elections_cons s i cl el :
  elections s (mkLog cl (i :: el)) = (b2n (bool_decide (i = s)) + elections s (mkLog cl el))%nat.
Proof. unfold elections. cbn [elected_log]. rewrite filter_cons. cbn. by do 2 case_decide. Qed.

Lemma elections_claim s x cl el : elections s (mkLog (x :: cl) el) = elections s (mkLog cl el).
Proof. done. Qed.

Lemma claims_elect s x cl el : claims s (mkLog cl (x :: el)) = claims s (mkLog cl el).
Proof. done. Qed.

(** ** The election *)

Section election.
Context (j : BorrowJournal) (s : nat).

(** Slot [s]'s bit balances the claims and elections of [s] so far.  A thread's
    ghost state is its log. *)
Definition Inv (m : JournalMem) (gs : list jlog) : Prop :=
  journal_wf j m /\
  (sum_list_with (elections s) gs + b2n (occupied m s) = sum_list_with (claims s) gs)%nat.

Ltac keep Hg HI := eexists; split; [rewrite (list_insert_id _ _ _ Hg); exact HI|].

Lemma Inv_same m m' gs :
  Inv m gs -> journal_wf j m' -> bitmap m' = bitmap m -> Inv m' gs.
Proof. intros [H E] H' Eb. split; [done|]. unfold occupied in *. by rewrite Eb. Qed.

Lemma wp_record_word fuel e w i l :
  (w < words j)%nat ->
  wp Inv (record_word j fuel e w) i l (fun r l' =>
    match r with
    | Some (Some idx) => l' = mkLog ((idx, e) :: claimed_log l) (elected_log l)
    | _ => l' = l
    end).
Proof.
  intros Hw. apply wp_retry with (P := fun _ g => g = l); [done| |by intros].
  intros _ g ->. unfold load_word. cbn [pbind act wp].
  intros m0 gs0 Hg0 HI0. destruct (bitmap_lookup j m0 w (proj1 HI0) Hw) as (x & -> & Hxu). keep Hg0 HI0.
  destruct (Z.eqb_spec (Z.land x (valid_mask j w)) (valid_mask j w)) as [|Hne]; [done|].
  destruct (free_bit j m0 w x (proj1 HI0) Hw Hxu Hne) as (Hb & Hxb & Hcap). clear m0 gs0 Hg0 HI0 Hne.
  set (b := trailing_zeros _) in *. unfold write_slot. cbn [pbind act wp].
  intros m gs Hg HI. destruct (lookup_lt_is_Some_2 (slots m) (w * 64 + b)) as [e0 ->].
  { by rewrite (wf_slots j m (proj1 HI)). }
  eexists. split.
  { rewrite (list_insert_id _ _ _ Hg). apply (Inv_same m); [done|by apply wf_write_slot, HI|done]. }
  clear m gs Hg HI. unfold cas_word. cbn [pbind act wp].
  intros m gs Hg HI. destruct (bitmap_lookup j m w (proj1 HI) Hw) as (y & Hy & _). rewrite Hy.
  destruct (Z.eqb_spec y x) as [->|Hyx]; [|by keep Hg HI].
  destruct (claim_update j m w x b (proj1 HI) Hy Hb Hxb) as (H' & Hfree & Hocc).
  exists (mkLog (((w * 64 + b)%nat, e) :: claimed_log l) (elected_log l)). split.
  - split; [done|]. rewrite Hocc.
    pose proof (sum_list_with_insert (elections s) gs i l (mkLog (((w * 64 + b)%nat, e) :: claimed_log l) (elected_log l)) Hg) as E1.
    pose proof (sum_list_with_insert (claims s) gs i l (mkLog (((w * 64 + b)%nat, e) :: claimed_log l) (elected_log l)) Hg) as E2.
    destruct HI as [_ E]. destruct l as [cl el]. rewrite claims_cons in E2.
    cbn [claimed_log elected_log] in *. rewrite elections_claim in E1.
    destruct (decide (s = w * 64 + b)%nat) as [Es|Hs].
    + rewrite <- Es in Hfree. rewrite Hfree in E |- *. rewrite bool_decide_eq_true_2 by done.
      rewrite bool_decide_eq_true_2 in E2 by done. cbn [b2n orb] in *. lia.
    + rewrite bool_decide_eq_false_2 by done. rewrite bool_decide_eq_false_2 in E2 by done.
      rewrite orb_false_r. cbn [b2n] in *. lia.
  - cbn. clear m gs Hg HI Hy H' Hfree Hocc. intros m gs Hg HI. eexists. split; [|done].
    rewrite (list_insert_id _ _ _ Hg). by apply (Inv_same m); [|apply wf_set_hint, HI|].
Qed.

Lemma wp_record_entry fuel e i l :
  wp Inv (record_entry j fuel e) i l (fun r l' =>
    match r with
    | Some (Ok idx) => l' = mkLog ((idx, e) :: claimed_log l) (elected_log l)
    | _ => l' = l
    end).
Proof.
  unfold record_entry. cbn [pbind load act wp].
  intros m gs Hg HI. keep Hg HI. apply wp_bind.
  eapply wp_mono with (Q := fun r l' =>
    match r with Some (Some (Ok idx)) => l' = mkLog ((idx, e) :: claimed_log l) (elected_log l) | _ => l' = l end).
  { intros [[[?|?]|]|] g'; done. }
  apply wp_for_each with (P := fun g => g = l); [done| |by intros g ->].
  intros step g Hstep%elem_of_seq ->. apply wp_bind.
  eapply wp_mono; [|apply wp_record_word; apply Nat.mod_upper_bound; lia].
  intros [[idx|]|] g'; done.
Qed.

Lemma wp_release slot i l :
  wp Inv (release j slot) i l (fun r l' =>
    match r with Ok true => l' = mkLog (claimed_log l) (slot :: elected_log l) | _ => l' = l end).
Proof.
  unfold release. destruct (Nat.leb_spec (capacity j) slot) as [|Hcap]; [done|]. cbn zeta.
  unfold fetch_and_word. cbn [pbind act wp]. intros m gs Hg HI.
  destruct (bitmap_lookup j m (slot / 64) (proj1 HI) (slot_word j m slot (proj1 HI) Hcap)) as (x & Hx & Hxu).
  rewrite Hx. destruct (split_slot slot) as (w & b & Hb & Es & Ew & Eb). rewrite Ew, Eb in *.
  destruct (vacate_update j m w x b (proj1 HI) Hx Hb) as [H' Hocc]. rewrite <- Es in Hocc.
  assert (Ho : occupied m slot = bit_set x b) by (rewrite Es; by apply occupied_at).
  set (l' := if bit_set x b then mkLog (claimed_log l) (slot :: elected_log l) else l).
  exists l'. split.
  - split; [done|]. rewrite Hocc.
    pose proof (sum_list_with_insert (elections s) gs i l l' Hg) as E1.
    pose proof (sum_list_with_insert (claims s) gs i l l' Hg) as E2.
    destruct HI as [_ E]. subst l'. destruct l as [cl el]. cbn [claimed_log elected_log] in *.
    destruct (bit_set x b) eqn:Ex.
    + rewrite elections_cons in E1. rewrite claims_elect in E2.
      destruct (decide (s = slot)) as [Es'|Hs].
      * rewrite <- Es' in Ho. rewrite Ho in E |- *. rewrite bool_decide_eq_true_2 by done.
        rewrite bool_decide_eq_true_2 in E1 by done. cbn [b2n andb negb] in *. lia.
      * rewrite bool_decide_eq_false_2 by done. rewrite bool_decide_eq_false_2 in E1 by done.
        rewrite andb_true_r. cbn [b2n] in *. lia.
    + destruct (decide (s = slot)) as [Es'|Hs].
      * rewrite <- Es' in Ho. rewrite Ho in E |- *. cbn [b2n andb] in *. lia.
      * rewrite bool_decide_eq_false_2 by done. rewrite andb_true_r. lia.
  - clear m gs Hg HI Hx H' Hocc Ho. cbn. intros m gs Hg HI. eexists. split.
    { rewrite (list_insert_id _ _ _ Hg). by apply (Inv_same m); [|apply wf_set_hint, HI|]. }
    rewrite land_mask_nonzero. subst l'. by destruct (bit_set x b).
Qed.

Lemma wp_jclient fuel ops i l : wp Inv (jclient j fuel ops l) i l (fun r l' => l' = r).
Proof.
  revert l. induction ops as [|[e|slot] ops IH]; intros l; [done| |]; cbn [jclient]; apply wp_bind.
  - eapply wp_mono; [|apply wp_record_entry]. intros [[idx|err]|] g' ->; apply IH.
  - eapply wp_mono; [|apply wp_release]. intros [[|]|err] g' ->; apply IH.
Qed.
End election.

Lemma sum_no_log f (scripts : list (list jclient_op)) :
  f no_log = 0%nat -> sum_list_with f ((fun _ => no_log) <$> scripts) = 0%nat.
Proof. intros Hf. induction scripts as [|x l IH]; csimpl; [done|]. by rewrite Hf, IH. Qed.

(** C11. [release] is an election.  Start from an empty journal; let any number of
    threads record entries and release slots (their own or not) in any
    interleaving.  No access is out of bounds, and for every slot, once the threads
    have returned: the releases that were told [true] number exactly the successful
    recordings of that slot, less the one still occupying it.  In particular a
    recorded borrow is given up at most once, and exactly once if its slot is empty
    at the end. *)
Theorem release_is_an_election j fuel scripts m0 tp m :
  journal_wf j m0 -> (forall i, occupied m0 i = false) ->
  pool_reach (start j fuel scripts, m0) (tp, m) ->
  ~ pool_stuck (tp, m) /\
  forall ls, tp = Ret <$> ls ->
    forall s, (sum_list_with (elections s) ls + b2n (occupied m s) = sum_list_with (claims s) ls)%nat.
Proof.
  intros Hwf Hempty Hreach.
  assert (G : forall s, exists gs, pool_ok (Inv j s) (fun r l => l = r) tp gs /\ Inv j s m gs).
  { intros s. apply (pool_ok_reach (Inv j s) (fun r l => l = r) _ _ _ _ ((fun _ => no_log) <$> scripts) Hreach).
    - split; [unfold start; by rewrite !length_fmap|]. intros i p g Hp Hg. unfold start in Hp.
      rewrite list_lookup_fmap in Hp. rewrite list_lookup_fmap in Hg.
      destruct (scripts !! i); cbn in *; simplify_eq. apply wp_jclient.
    - split; [done|]. rewrite !sum_no_log by done. by rewrite Hempty. }
  split; [destruct (G 0%nat) as (gs & Hok & HI); by eapply pool_ok_not_stuck|].
  intros ls -> s. destruct (G s) as (gs & [Hlen Hok] & _ & HI). rewrite length_fmap in Hlen.
  replace gs with ls in HI; [done|]. apply list_eq. intros i.
  destruct (ls !! i) as [l|] eqn:El.
  - destruct (lookup_lt_is_Some_2 gs i) as [g Hg]; [rewrite <- Hlen; by eapply lookup_lt_Some|].
    rewrite Hg. f_equal. symmetry. apply (Hok i (Ret l) g); [by rewrite list_lookup_fmap, El|done].
  - symmetry. apply lookup_ge_None. rewrite <- Hlen. by apply lookup_ge_None.
Qed.

(** ** Witness: an actor and a replaying coordinator race for the same slot *)

Definition demo_journal : BorrowJournal := mkJournal 1 2.
Definition demo_mem : JournalMem := mkJournalMem JOURNAL_MAGIC 2 0 [0] [ZERO_ENTRY; ZERO_ENTRY].
Definition entry_a : JournalEntry := write_lease 1 1 1.
Definition entry_b : JournalEntry := write_lease 2 2 2.

Lemma demo_wf : journal_wf demo_journal demo_mem.
Proof. split; cbn; try lia; try done. repeat constructor; mach. Qed.

Lemma demo_empty i : occupied demo_mem i = false.
Proof.
  unfold occupied, demo_mem. cbn [bitmap]. destruct (i / 64)%nat as [|[|?]]; cbn; [|done|done].
  apply Z.bits_0.
Qed.

Lemma release_is_an_election_witness :
  exists ls m,
    pool_run [0; 0; 0; 0; 0; 1; 0; 1; 0]%nat
      (start demo_journal 1 [[KRecord entry_a; KRelease 0]; [KRelease 0]], demo_mem) = Some (Ret <$> ls, m) /\
    (sum_list_with (elections 0) ls + b2n (occupied m 0) = sum_list_with (claims 0) ls)%nat.
Proof.
  pose (ls := [mkLog [(0%nat, entry_a)] []; mkLog [] [0%nat]]).
  pose (m := mkJournalMem JOURNAL_MAGIC 2 0 [0] [entry_a; ZERO_ENTRY]).
  exists ls, m.
  assert (E : pool_run [0; 0; 0; 0; 0; 1; 0; 1; 0]%nat
      (start demo_journal 1 [[KRecord entry_a; KRelease 0]; [KRelease 0]], demo_mem) = Some (Ret <$> ls, m))
    by reflexivity.
  split; [exact E|].
  exact (proj2 (release_is_an_election demo_journal 1 [[KRecord entry_a; KRelease 0]; [KRelease 0]] demo_mem
    (Ret <$> ls) m demo_wf demo_empty (pool_run_reach _ _ _ E)) ls eq_refl 0%nat).
Defined.

(** ** One recorder *)

Section single.
Context (j : BorrowJournal).

(** The recorder's ghost state: the entry last claimed in each slot, and the slot
    it is about to claim (known clear) with the entry it already wrote there.  The
    other threads own nothing. *)
Record rghost : Set := mkRG { ent : gmap nat JournalEntry; pend : option (nat * option JournalEntry) }.

Definition entries_safe (m : JournalMem) (g : rghost) : Prop :=
  (forall s, occupied m s = true -> exists e, ent g !! s = Some e /\ slots m !! s = Some e) /\
  (forall i ow, pend g = Some (i, ow) -> (i < capacity j)%nat /\ occupied m i = false /\
     forall e, ow = Some e -> slots m !! i = Some e).

Definition SInv (m : JournalMem) (gs : list rghost) : Prop :=
  journal_wf j m /\ exists g, gs !! 0%nat = Some g /\ entries_safe m g.

Lemma SInv_rec gs g m' g' :
  gs !! 0%nat = Some g -> journal_wf j m' -> entries_safe m' g' -> SInv m' (<[0%nat := g']> gs).
Proof.
  intros Hg H' Hs. split; [done|]. exists g'. split; [|done].
  apply list_lookup_insert_eq. by eapply lookup_lt_Some.
Qed.

Lemma SInv_inv m gs g : gs !! 0%nat = Some g -> SInv m gs -> journal_wf j m /\ entries_safe m g.
Proof. intros Hg [H (g' & Hg' & Hs)]. by simplify_eq. Qed.

(** Updates that only clear bits keep every entry safe. *)
Lemma entries_safe_mono m m' g :
  entries_safe m g -> slots m' = slots m -> (forall s, occupied m' s = true -> occupied m s = true) ->
  entries_safe m' g.
Proof.
  intros [H1 H2] Es Ho. split.
  - intros s Hs. rewrite Es. auto.
  - intros i ow Hp. destruct (H2 i ow Hp) as (? & Hi & Hw). rewrite Es. split_and!; [done| |done].
    destruct (occupied m' i) eqn:E; [|done]. by rewrite (Ho i E) in Hi.
Qed.

Lemma swp_release slot i g :
  wp SInv (release j slot) i g (fun _ g' => g' = g).
Proof.
  unfold release. destruct (Nat.leb_spec (capacity j) slot) as [|Hcap]; [done|]. cbn zeta.
  unfold fetch_and_word. cbn [pbind act wp]. intros m gs Hg [H (g0 & Hg0 & Hs)].
  destruct (bitmap_lookup j m (slot / 64) H (slot_word j m slot H Hcap)) as (x & Hx & Hxu).
  rewrite Hx. destruct (split_slot slot) as (w & b & Hb & Es & Ew & Eb). rewrite Ew, Eb in *.
  destruct (vacate_update j m w x b H Hx Hb) as [H' Hocc]. exists g. split.
  - rewrite (list_insert_id gs) by done. split; [done|]. exists g0. split; [done|].
    apply (entries_safe_mono m); [done|done|]. intros s E. rewrite Hocc in E. by apply andb_prop in E as [? _].
  - cbn. clear. intros m gs Hg [H (g0 & Hg0 & Hs)]. exists g. split; [|done].
    rewrite (list_insert_id gs) by done. split; [by apply wf_set_hint|]. by exists g0.
Qed.

Lemma swp_record_word fuel e w g :
  (w < words j)%nat -> pend g = None ->
  wp SInv (record_word j fuel e w) 0 g (fun r g' =>
    match r with
    | Some (Some idx) => g' = mkRG (<[idx := e]> (ent g)) None
    | _ => g' = g
    end).
Proof.
  intros Hw Hp. apply wp_retry with (P := fun _ g' => g' = g); [done| |by intros].
  intros _ g1 ->. unfold load_word. cbn [pbind act wp].
  intros m0 gs0 Hg0 HI0. destruct (SInv_inv _ _ _ Hg0 HI0) as [H0 Hs0].
  destruct (bitmap_lookup j m0 w H0 Hw) as (x & Hx0 & Hxu). rewrite Hx0.
  destruct (Z.eqb_spec (Z.land x (valid_mask j w)) (valid_mask j w)) as [|Hne].
  { eexists. split; [rewrite (list_insert_id _ _ _ Hg0); exact HI0|done]. }
  destruct (free_bit j m0 w x H0 Hw Hxu Hne) as (Hb & Hxb & Hcap). clear Hne.
  set (b := trailing_zeros _) in *. set (idx := (w * 64 + b)%nat) in *.
  exists (mkRG (ent g) (Some (idx, None))). split.
  { apply (SInv_rec _ g); [done|done|]. split; [apply Hs0|]. intros i ow [= <- <-].
    split_and!; [done| |done]. unfold idx. by rewrite (occupied_at m0 w x b). }
  clear m0 gs0 Hg0 HI0 H0 Hs0 Hx0. unfold write_slot. cbn [pbind act wp].
  intros m gs Hg HI. destruct (SInv_inv _ _ _ Hg HI) as [H [Hs Hpend]].
  destruct (Hpend idx None eq_refl) as (_ & Hclear & _).
  destruct (lookup_lt_is_Some_2 (slots m) idx) as [e0 ->]; [by rewrite (wf_slots j m H)|].
  exists (mkRG (ent g) (Some (idx, Some e))). split.
  { apply (SInv_rec _ _ _ _ Hg); [by apply wf_write_slot|]. split.
    - intros s Ho. change (occupied m s = true) in Ho. destruct (Hs s Ho) as (e' & ? & He').
      exists e'. split; [done|]. cbn. rewrite list_lookup_insert_ne; [done|]. intros ->. by rewrite Ho in Hclear.
    - intros i ow [= <- <-]. split_and!; [done|done|]. intros e' [= <-]. cbn.
      apply list_lookup_insert_eq. by rewrite (wf_slots j m H). }
  clear m gs Hg HI H Hs Hpend Hclear e0. unfold cas_word. cbn [pbind act wp].
  intros m gs Hg HI. destruct (SInv_inv _ _ _ Hg HI) as [H [Hs Hpend]].
  destruct (Hpend idx (Some e) eq_refl) as (_ & Hclear & Hwr). specialize (Hwr e eq_refl).
  destruct (bitmap_lookup j m w H Hw) as (y & Hy & _). rewrite Hy.
  destruct (Z.eqb_spec y x) as [->|Hyx]; cbn [fst].
  - destruct (claim_update j m w x b H Hy Hb Hxb) as (H' & Hfree & Hocc).
    exists (mkRG (<[idx := e]> (ent g)) None). split.
    + apply (SInv_rec _ _ _ _ Hg); [done|]. split; [|done].
      intros s Ho. cbn. destruct (decide (idx = s)) as [<-|Hne].
      * rewrite lookup_insert_eq. by exists e.
      * rewrite lookup_insert_ne by done. apply Hs. rewrite Hocc in Ho. fold idx in Ho.
        by rewrite bool_decide_eq_false_2, orb_false_r in Ho by done.
    + cbn. clear. intros m gs Hg [H (g0 & Hg0 & Hs)]. eexists. split; [|done].
      rewrite (list_insert_id gs) by done. split; [by apply wf_set_hint|]. by exists g0.
  - exists g. split; [|done]. apply (SInv_rec _ _ _ _ Hg); [done|]. split; [done|].
    intros i ow Hp'. by rewrite Hp in Hp'.
Qed.

Lemma swp_record_entry fuel e g :
  pend g = None ->
  wp SInv (record_entry j fuel e) 0 g (fun r g' =>
    match r with
    | Some (Ok idx) => g' = mkRG (<[idx := e]> (ent g)) None
    | _ => g' = g
    end).
Proof.
  intros Hp. unfold record_entry. cbn [pbind load act wp].
  intros m gs Hg HI. eexists. split; [rewrite (list_insert_id _ _ _ Hg); exact HI|]. apply wp_bind.
  eapply wp_mono with (Q := fun r g' =>
    match r with Some (Some (Ok idx)) => g' = mkRG (<[idx := e]> (ent g)) None | _ => g' = g end).
  { intros [[[?|?]|]|] g'; done. }
  apply wp_for_each with (P := fun g' => g' = g); [done| |by intros ? ->].
  intros step g' Hstep%elem_of_seq ->. apply wp_bind.
  eapply wp_mono; [|apply swp_record_word; [apply Nat.mod_upper_bound; lia|done]].
  intros [[idx|]|] g'; done.
Qed.

(** The recorder's log spells its ghost map. *)
Definition logged (l : jlog) (g : rghost) : Prop := g = mkRG (list_to_map (claimed_log l)) None.

Lemma swp_recorder fuel ops l :
  wp SInv (jclient j fuel ops l) 0 (mkRG (list_to_map (claimed_log l)) None) (fun l' g' => logged l' g').
Proof.
  revert l. induction ops as [|[e|slot] ops IH]; intros l; [done| |]; cbn [jclient]; apply wp_bind.
  - eapply wp_mono; [|by apply swp_record_entry]. intros [[idx|err]|] g' ->; [|apply IH..].
    exact (IH (mkLog ((idx, e) :: claimed_log l) (elected_log l))).
  - eapply wp_mono; [|apply swp_release]. intros [[|]|err] g' ->; [|apply IH..].
    exact (IH (mkLog (claimed_log l) (slot :: elected_log l))).
Qed.

Lemma swp_releaser fuel slots0 i l g :
  wp SInv (jclient j fuel (KRelease <$> slots0) l) i g (fun _ g' => g' = g).
Proof.
  revert l. induction slots0 as [|s ss IH]; intros l; [done|]. csimpl. apply wp_bind.
  eapply wp_mono; [|apply swp_release]. intros r g' ->. apply IH.
Qed.
End single.

(** Threads that only release. *)
Definition releasers (releases : list (list nat)) : list (list jclient_op) :=
  (fun ss : list nat => KRelease <$> ss : list jclient_op) <$> releases.

(** One recorder is safe.  When a single thread records (and releases) and any
    number of other threads only release, in any interleaving, every occupied slot
    holds, intact, the last entry the recorder was told it stored there: replay
    after the recorder's death sees exactly its outstanding borrows. *)
Theorem single_recorder_keeps_entries j fuel ops releases m0 tp m l s :
  journal_wf j m0 -> (forall i, occupied m0 i = false) ->
  pool_reach (start j fuel (ops :: releasers releases), m0) (tp, m) ->
  tp !! 0%nat = Some (Ret l) -> occupied m s = true ->
  exists e, (list_to_map (claimed_log l) : gmap nat JournalEntry) !! s = Some e /\ slots m !! s = Some e.
Proof.
  intros Hwf Hempty Hreach Hl Hs.
  pose (g0 := mkRG ∅ None).
  destruct (pool_ok_reach (SInv j) (fun l g => logged l g \/ g = g0) _ _ _ _ (g0 :: ((fun _ => g0) <$> releases)) Hreach)
    as (gs & [Hlen Hok] & _ & g & Hg & [Hsafe _]).
  { split; [unfold start; csimpl; unfold releasers; by rewrite !length_fmap|]. unfold start, releasers.
    intros [|i] p g Hp Hg; csimpl in *; simplify_eq.
    - eapply wp_mono; [|exact (swp_recorder j fuel ops no_log)]. intros; by left.
    - rewrite !list_lookup_fmap in Hp. rewrite list_lookup_fmap in Hg.
      destruct (releases !! i) as [ss|]; cbn in *; simplify_eq.
      eapply wp_mono; [|apply swp_releaser]. intros; by right. }
  { split; [done|]. exists g0. split; [done|]. split; [|done]. intros k Hk. by rewrite Hempty in Hk. }
  destruct (Hsafe s Hs) as (e & He & Hsl). exists e. split; [|done].
  destruct (Hok 0%nat _ g Hl Hg) as [->| ->]; [done|]. unfold g0 in He. cbn [ent] in He. by rewrite lookup_empty in He.
Qed.

Lemma single_recorder_keeps_entries_witness :
  exists tp m,
    pool_run [0; 0; 0; 1; 0; 0]%nat
      (start demo_journal 1 [[KRecord entry_a]; [KRelease 0]], demo_mem) = Some (tp, m) /\
    exists e, (list_to_map [(0%nat, entry_a)] : gmap nat JournalEntry) !! 0%nat = Some e /\ slots m !! 0%nat = Some e.
Proof.
  destruct (pool_run [0; 0; 0; 1; 0; 0]%nat
    (start demo_journal 1 ([KRecord entry_a] :: releasers [[0%nat]]), demo_mem)) as [[tp m]|] eqn:E;
    [|discriminate].
  exists tp, m. split; [exact E|].
  apply (single_recorder_keeps_entries demo_journal 1 [KRecord entry_a] [[0%nat]] demo_mem tp m
    (mkLog [(0%nat, entry_a)] []) 0%nat demo_wf demo_empty (pool_run_reach _ _ _ E)).
  - vm_compute in E. by injection E as <- <-.
  - vm_compute in E. by injection E as <- <-.
Defined.

(** ** Two recorders *)

(** Two concurrent recorders are not safe: the slot is written before its bit
    is won, so the loser of the race for slot 0 overwrites the winner's entry and
    then records its own again elsewhere.  Both calls succeed, nobody released
    anything, and replay reports the second borrow twice and the first not at
    all. *)
Theorem two_recorders_can_lose_an_entry :
  exists sched m,
    pool_run sched (start demo_journal 2 [[KRecord entry_a]; [KRecord entry_b]], demo_mem) =
      Some (Ret <$> [mkLog [(0%nat, entry_a)] []; mkLog [(1%nat, entry_b)] []], m) /\
    run (replay_indexed demo_journal) m = Some (Some [(0%nat, WriteLease 2 2 2); (1%nat, WriteLease 2 2 2)], m) /\
    to_record entry_a = Some (WriteLease 1 1 1).
Proof.
  exists [0; 0; 1; 1; 0; 0; 1; 1; 0; 1; 1; 1; 1]%nat, (mkJournalMem JOURNAL_MAGIC 2 2 [3] [entry_b; entry_b]).
  split_and!; vm_compute; reflexivity.
Qed.
