(* ===== verification/Ring.v ===== *)
(** * The broadcast ring

    [src/crates/shm-ring/src/ring.rs], [publish.rs] and [subscribe.rs]: a
    single-producer, multiple-consumer broadcast of chunk descriptors.  Each slot
    carries the sequence number of the message it holds; a subscriber that falls
    more than a lap behind is told how many messages it missed.

    Memory: the header fields and the slot array.  The 24-byte descriptor copy is
    one action, as are the header's and the slots' atomics. *)

From S2P Require Import Prelude Atomic Pod ChunkDesc.

Definition RING_MAGIC : Z := of_le [83; 72; 77; 82; 73; 78; 71; 49]. (* b"SHMRING1" *)
Definition MAX_RELIABLE : nat := 8.
Definition RELIABLE_UNUSED : Z := U64_MAX.

Inductive RingError : Set :=
| Core (e : CoreError)
| BadCapacity (c : Z)
| RegionTooSmall (need have : Z)
| Misaligned
| BadMagic
| ReliableTableFull (n : nat).

(** ** Memory *)

Record Slot : Set := mkSlot { seq : Z; desc : ChunkDesc }.

Record RingMem : Set := mkRingMem {
  magic : Z;
  r_capacity : Z;
  r_mask : Z;
  head : Z;
  waiters : Z;
  doorbell_seq : Z;
  reliable : list Z;
  slots : list Slot
}.

Definition set_head (h : Z) (m : RingMem) : RingMem :=
  mkRingMem (magic m) (r_capacity m) (r_mask m) h (waiters m) (doorbell_seq m) (reliable m) (slots m).
Definition set_waiters (w : Z) (m : RingMem) : RingMem :=
  mkRingMem (magic m) (r_capacity m) (r_mask m) (head m) w (doorbell_seq m) (reliable m) (slots m).
Definition set_reliable (r : list Z) (m : RingMem) : RingMem :=
  mkRingMem (magic m) (r_capacity m) (r_mask m) (head m) (waiters m) (doorbell_seq m) r (slots m).
Definition set_slots (s : list Slot) (m : RingMem) : RingMem :=
  mkRingMem (magic m) (r_capacity m) (r_mask m) (head m) (waiters m) (doorbell_seq m) (reliable m) s.

Definition SIZEOF_RingHeader : Z := 96.
Definition SIZEOF_Slot : Z := 32.

Definition slots_offset : Z := align_up SIZEOF_RingHeader 64.
Definition required_bytes (capacity : Z) : Z := slots_offset + capacity * SIZEOF_Slot.

(** The process-local handle. *)
Record Ring : Set := mkRing { capacity : Z; mask : Z }.

(** [base] is the region's address. *)
Definition init (base region_len capacity : Z) : result RingError (Ring * RingMem) :=
  if (capacity =? 0) || negb (is_power_of_two capacity) then Err (BadCapacity capacity)
  else if negb (base mod 8 =? 0) then Err Misaligned
  else
    let need := required_bytes capacity in
    if region_len <? need then Err (RegionTooSmall need region_len)
    else
      Ok (mkRing capacity (capacity - 1),
          mkRingMem RING_MAGIC capacity (capacity - 1) 0 0 0
            (replicate MAX_RELIABLE RELIABLE_UNUSED)
            (replicate (Z.to_nat capacity) (mkSlot RELIABLE_UNUSED ZERO))).

Definition attach (base region_len : Z) (m : RingMem) : result RingError Ring :=
  if negb (base mod 8 =? 0) then Err Misaligned
  else if region_len <? SIZEOF_RingHeader then Err (RegionTooSmall SIZEOF_RingHeader region_len)
  else if negb (magic m =? RING_MAGIC) then Err BadMagic
  else
    let need := required_bytes (r_capacity m) in
    if region_len <? need then Err (RegionTooSmall need region_len)
    else Ok (mkRing (r_capacity m) (r_mask m)).

(** ** The slots *)

Definition with_slot {R : Set} (i : nat) (f : Slot -> R * Slot) : prog RingMem R :=
  act (fun m =>
    match slots m !! i with
    | Some s => let '(r, s') := f s in Some (r, set_slots (<[i := s']> (slots m)) m)
    | None => None
    end).

Definition read_seq (i : nat) : prog RingMem Z := with_slot i (fun s => (seq s, s)).
Definition read_desc (i : nat) : prog RingMem ChunkDesc := with_slot i (fun s => (desc s, s)).
Definition write_desc (i : nat) (d : ChunkDesc) : prog RingMem unit :=
  with_slot i (fun s => (tt, mkSlot (seq s) d)).
Definition write_seq (i : nat) (q : Z) : prog RingMem unit :=
  with_slot i (fun s => (tt, mkSlot q (desc s))).

Definition load_head : prog RingMem Z := load head.

Inductive ReadOutcome : Set :=
| OSample (d : ChunkDesc)
| OLagged (skipped new_cursor : Z)
| OEmpty.

Section ring_ops.
Variable r : Ring.

Definition slot_idx (q : Z) : nat := Z.to_nat (Z.land q (mask r)).

(** Returns whether any subscriber is parked.  The last two accesses, a [Release] store and
    an [Acquire] load, are in program order here; [Hooks.publish_buffered] lets the load
    overtake the store. *)
Definition publish (d : ChunkDesc) : prog RingMem bool :=
  q <- load_head ;;
  write_desc (slot_idx q) d ;;;
  write_seq (slot_idx q) q ;;;
  store (set_head (wrap64 (q + 1))) ;;;
  w <- load waiters ;;
  Ret (0 <? w).

(** The lag a reader reports when it finds its slot overwritten.  [head - capacity]
    is a checked subtraction: [None] is the overflow. *)
Definition lag_from_head (cursor : Z) : prog RingMem ReadOutcome :=
  h <- act (fun m => if head m <? capacity r then None else Some (head m, m)) ;;
  let new_cursor := h - capacity r in
  Ret (OLagged (Z.max 0 (new_cursor - cursor)) new_cursor).

Definition read_at (cursor : Z) : prog RingMem ReadOutcome :=
  h <- load_head ;;
  if h <=? cursor then Ret OEmpty
  else if capacity r <? h - cursor then
    let new_cursor := h - capacity r in
    Ret (OLagged (new_cursor - cursor) new_cursor)
  else
    q <- read_seq (slot_idx cursor) ;;
    if negb (q =? cursor) then lag_from_head cursor
    else
      d <- read_desc (slot_idx cursor) ;;
      q' <- read_seq (slot_idx cursor) ;;
      if negb (q' =? cursor) then lag_from_head cursor
      else Ret (OSample d).

Definition add_waiter : prog RingMem Z := fetch_add32 waiters set_waiters 1.
Definition remove_waiter : prog RingMem Z := fetch_add32 waiters set_waiters (-1).

(** ** Reliable cursors *)

Definition reliable_cell (i : nat) : focus RingMem Z := elem reliable set_reliable i.

Definition register_reliable (cursor : Z) : prog RingMem (result RingError nat) :=
  found <- for_each (List.seq 0 MAX_RELIABLE) (fun i =>
    x <- lift (reliable_cell i) (cas (fun v => v) (fun v _ => v) RELIABLE_UNUSED cursor) ;;
    Ret (if x.1 then Some i else None)) ;;
  Ret (match found with Some i => Ok i | None => Err (ReliableTableFull MAX_RELIABLE) end).

Definition update_reliable (i : nat) (cursor : Z) : prog RingMem unit :=
  lift (reliable_cell i) (store (fun _ => cursor)).

Definition release_reliable (i : nat) : prog RingMem unit :=
  lift (reliable_cell i) (store (fun _ => RELIABLE_UNUSED)).

Definition min_reliable_cursor : prog RingMem (option Z) :=
  for_fold (List.seq 0 MAX_RELIABLE) (fun min i =>
    v <- lift (reliable_cell i) (load (fun v => v)) ;;
    Ret (if v =? RELIABLE_UNUSED then min
         else Some (match min with Some m => Z.min m v | None => v end))) None.

Definition would_backpressure : prog RingMem bool :=
  min <- min_reliable_cursor ;;
  match min with
  | Some mn => h <- load_head ;; Ret (capacity r <? Z.max 0 (h - mn))
  | None => Ret false
  end.
End ring_ops.

(** ** Subscribers *)

Definition SPIN_LIMIT : nat := 256.

Inductive Msg : Set := Sample (d : ChunkDesc) | Lagged (n : Z).

Record Subscriber : Set := mkSub { cursor : Z; s_reliable : option nat }.

Section subscriber_ops.
Variable r : Ring.

Definition with_parker : prog RingMem Subscriber := h <- load_head ;; Ret (mkSub h None).

Definition from_seq_with_parker (q : Z) : prog RingMem Subscriber :=
  s <- with_parker ;; Ret (mkSub q (s_reliable s)).

Definition make_reliable (s : Subscriber) : prog RingMem (result RingError unit * Subscriber) :=
  match s_reliable s with
  | Some _ => Ret (Ok tt, s)
  | None =>
      x <- register_reliable (cursor s) ;;
      Ret (match x with
           | Ok idx => (Ok tt, mkSub (cursor s) (Some idx))
           | Err e => (Err e, s)
           end)
  end.

Definition sync_reliable (s : Subscriber) : prog RingMem unit :=
  match s_reliable s with
  | Some idx => update_reliable idx (cursor s)
  | None => Ret tt
  end.

Definition try_recv (s : Subscriber) : prog RingMem (option Msg * Subscriber) :=
  o <- read_at r (cursor s) ;;
  match o with
  | OSample d =>
      let s' := mkSub (cursor s + 1) (s_reliable s) in
      sync_reliable s' ;;; Ret (Some (Sample d), s')
  | OLagged skipped new_cursor =>
      let s' := mkSub new_cursor (s_reliable s) in
      sync_reliable s' ;;; Ret (Some (Lagged skipped), s')
  | OEmpty => Ret (None, s)
  end.

(** [recv] with an injected [Parker]; a round is a bounded spin, the registration
    as a waiter, the re-check and the park.  The parker may touch more than the ring: [on]
    runs ring operations in its memory. *)
Definition recv_on {M} (on : forall A, prog RingMem A -> prog M A) (park : prog M unit) (fuel : nat) (s : Subscriber)
    : prog M (option (Msg * Subscriber)) :=
  retry fuel (fun _ : unit =>
    spun <- for_each (List.seq 0 SPIN_LIMIT) (fun _ =>
      x <- on _ (try_recv s) ;;
      Ret (match x with (Some msg, s') => Some (msg, s') | (None, _) => None end)) ;;
    match spun with
    | Some y => Ret (inr y)
    | None =>
        _ <- on _ add_waiter ;;
        x <- on _ (try_recv s) ;;
        match x with
        | (Some msg, s') => _ <- on _ remove_waiter ;; Ret (inr (msg, s'))
        | (None, _) => park ;;; (_ <- on _ remove_waiter ;; Ret (inl tt))
        end
    end) tt.

Definition recv (park : prog RingMem unit) := recv_on (fun _ p => p) park.

Definition drop_subscriber (s : Subscriber) : prog RingMem unit :=
  match s_reliable s with
  | Some idx => release_reliable idx
  | None => Ret tt
  end.

(** The publisher, with an injected [Notifier]. *)
Definition publisher_publish_on {M} (on : forall A, prog RingMem A -> prog M A) (notify : prog M unit) (d : ChunkDesc) : prog M unit :=
  parked <- on _ (publish r d) ;;
  if parked : bool then notify else Ret tt.

Definition publisher_publish (notify : prog RingMem unit) := publisher_publish_on (fun _ p => p) notify.
End subscriber_ops.

(** ** Geometry *)

(** The handle's geometry: a power-of-two capacity and its mask. *)
Definition ring_geom (r : Ring) (m : RingMem) : Prop :=
  (exists k, 0 <= k < 64 /\ capacity r = 2 ^ k) /\ mask r = capacity r - 1 /\
  length (slots m) = Z.to_nat (capacity r).

Lemma ring_geom_pos r m : ring_geom r m -> 0 < capacity r.
Proof. intros [(k & Hk & ->) _]. apply Z.pow_pos_nonneg; lia. Qed.

Lemma slot_idx_mod r m q : ring_geom r m -> slot_idx r q = Z.to_nat (q mod capacity r).
Proof.
  intros [(k & Hk & Ec) [Em _]]. unfold slot_idx. rewrite Em, Ec.
  replace (2 ^ k - 1) with (Z.ones k) by (rewrite Z.ones_equiv; lia). by rewrite Z.land_ones by lia.
Qed.

Lemma slot_idx_lt r m q : ring_geom r m -> (slot_idx r q < length (slots m))%nat.
Proof.
  intros H. rewrite (slot_idx_mod r m q H). pose proof (ring_geom_pos r m H).
  destruct H as (_ & _ & ->). pose proof (Z.mod_pos_bound q (capacity r)). lia.
Qed.

(** Sequences less than a lap apart use different slots. *)
Lemma slot_idx_inj r m p q :
  ring_geom r m -> slot_idx r p = slot_idx r q -> Z.abs (p - q) < capacity r -> p = q.
Proof.
  intros H E Hd. rewrite !(slot_idx_mod r m _ H) in E. pose proof (ring_geom_pos r m H).
  pose proof (Z.mod_pos_bound p (capacity r) ltac:(lia)). pose proof (Z.mod_pos_bound q (capacity r) ltac:(lia)).
  apply Z2Nat.inj in E; [|lia..].
  pose proof (Z.div_mod p (capacity r) ltac:(lia)). pose proof (Z.div_mod q (capacity r) ltac:(lia)).
  assert (p / capacity r = q / capacity r) by nia. nia.
Qed.

Lemma slot_idx_lap r m q : ring_geom r m -> slot_idx r (q + capacity r) = slot_idx r q.
Proof.
  intros H. rewrite !(slot_idx_mod r m _ H). f_equal. pose proof (ring_geom_pos r m H).
  rewrite <- (Z.mul_1_l (capacity r)) at 1. by rewrite Z.mod_add by lia.
Qed.
