(* ===== verification/RingSpec.v ===== *)
(** * The ring as a broadcast

    Executed one operation at a time, the ring is a log: the publisher appends, and
    each subscriber reads the log at its own cursor, skipping ahead (and being told
    by how much) when it is more than a lap behind. *)

From S2P Require Import Prelude Atomic Pod ChunkDesc Ring.

(** ** Memory and log *)

(** The slots hold the last [capacity] messages of the log [ms]. *)
Record holds_log (r : Ring) (m : RingMem) (ms : list ChunkDesc) : Prop := {
  log_geom : ring_geom r m;
  log_head : head m = Z.of_nat (length ms);
  log_slot q d : ms !! q = Some d -> Z.of_nat (length ms) - capacity r <= Z.of_nat q ->
    slots m !! slot_idx r (Z.of_nat q) = Some (mkSlot (Z.of_nat q) d)
}.

Lemma run_read_seq i m s : slots m !! i = Some s -> run (read_seq i) m = Some (seq s, m).
Proof.
  intros H. unfold read_seq, with_slot. rewrite run_act, H, list_insert_id by done. by destruct m.
Qed.

Lemma run_read_desc i m s : slots m !! i = Some s -> run (read_desc i) m = Some (desc s, m).
Proof.
  intros H. unfold read_desc, with_slot. rewrite run_act, H, list_insert_id by done. by destruct m.
Qed.

(** What reading the log at [c] yields. *)
Definition log_read (cap : Z) (ms : list ChunkDesc) (c : Z) : ReadOutcome :=
  let h := Z.of_nat (length ms) in
  if h <=? c then OEmpty
  else if cap <? h - c then OLagged (h - cap - c) (h - cap)
  else match ms !! Z.to_nat c with Some d => OSample d | None => OEmpty end.

Lemma read_at_run r m ms c :
  holds_log r m ms -> 0 <= c -> run (read_at r c) m = Some (log_read (capacity r) ms c, m).
Proof.
  intros H Hc. unfold read_at, log_read. rewrite run_bind. unfold load_head, load. rewrite run_act.
  rewrite (log_head r m ms H).
  destruct (Z.leb_spec (Z.of_nat (length ms)) c) as [|Hlt]; [done|].
  destruct (Z.ltb_spec (capacity r) (Z.of_nat (length ms) - c)) as [|Hcap]; [done|].
  destruct (lookup_lt_is_Some_2 ms (Z.to_nat c)) as [d Hd]; [lia|]. rewrite Hd.
  pose proof (log_slot r m ms H (Z.to_nat c) d Hd ltac:(lia)) as Hs. rewrite Z2Nat.id in Hs by lia.
  rewrite run_bind, (run_read_seq _ _ _ Hs). cbn [seq]. rewrite Z.eqb_refl. cbn [negb].
  rewrite run_bind, (run_read_desc _ _ _ Hs), run_bind, (run_read_seq _ _ _ Hs). cbn [seq desc].
  rewrite Z.eqb_refl. done.
Qed.

Lemma publish_run r m ms d :
  holds_log r m ms -> Z.of_nat (length ms) < U64_MAX ->
  exists m', run (publish r d) m = Some (0 <? waiters m, m') /\ holds_log r m' (ms ++ [d]) /\
    reliable m' = reliable m /\ waiters m' = waiters m.
Proof.
  intros H Hlen. pose proof (log_geom r m ms H) as Hg. pose proof (ring_geom_pos r m Hg) as Hpos.
  set (n := Z.of_nat (length ms)). set (i := slot_idx r n).
  assert (Hi : (i < length (slots m))%nat) by (by apply slot_idx_lt).
  destruct (lookup_lt_is_Some_2 _ _ Hi) as [s Hs].
  exists (set_head (wrap64 (n + 1)) (set_slots (<[i := mkSlot n d]> (slots m)) m)).
  split; [|split; [|by split]].
  - unfold publish. rewrite run_bind. unfold load_head, load. rewrite run_act, (log_head r m ms H). fold n i.
    rewrite run_bind. unfold write_desc, with_slot. rewrite run_act, Hs.
    rewrite run_bind. unfold write_seq, with_slot. rewrite run_act. cbn [slots set_slots].
    rewrite list_lookup_insert_eq by done. cbn [seq desc].
    rewrite run_bind. unfold store. rewrite run_act. rewrite run_bind, run_act. cbn [run].
    rewrite list_insert_insert_eq. reflexivity.
  - assert (Hg' : forall m', length (slots m') = length (slots m) -> ring_geom r m').
    { intros m' E. destruct Hg as (? & ? & E'). split_and!; [done|done|]. by rewrite E. }
    split.
    + apply Hg'. cbn. by rewrite length_insert.
    + cbn. rewrite wrap64_id by (unfold n; mach). rewrite length_app. cbn. unfold n. lia.
    + intros q e Hq Hrange. cbn. rewrite length_app in Hrange. cbn in Hrange.
      destruct (decide (q = length ms)) as [->|Hne].
      * rewrite lookup_app_r, Nat.sub_diag in Hq by lia. injection Hq as <-.
        fold n i. by rewrite list_lookup_insert_eq.
      * pose proof (lookup_lt_Some _ _ _ Hq) as Hlt. rewrite length_app in Hlt. cbn in Hlt.
        rewrite lookup_app_l in Hq by lia. rewrite list_lookup_insert_ne.
        -- apply (log_slot r m ms H); [done|lia].
        -- intros E. apply (slot_idx_inj r m) in E; [|done|]; unfold n in *; lia.
Qed.

(** ** Several subscribers *)

Inductive ring_op : Set :=
| RPublish (d : ChunkDesc)
| RSubscribe (id : nat)
| RSubscribeFrom (id : nat) (q : Z)
| RRecv (id : nat)
| RReliable (id : nat)
| RDrop (id : nat)
| RBackpressure.

Inductive ring_ret : Set :=
| VUnit
| VMsg (o : option Msg)
| VReliable (x : result RingError unit)
| VBool (b : bool).

Abbreviation subs_t := (gmap nat Subscriber).

(** An operation on a subscriber that does not exist (or, for a subscription, that
    already does) is ignored. *)
Definition exec (r : Ring) (m : RingMem) (ss : subs_t) (op : ring_op) : option (ring_ret * RingMem * subs_t) :=
  match op with
  | RPublish d => match run (publish r d) m with Some (_, m') => Some (VUnit, m', ss) | None => None end
  | RSubscribe id =>
      match ss !! id with
      | Some _ => Some (VUnit, m, ss)
      | None => match run with_parker m with Some (s, m') => Some (VUnit, m', <[id := s]> ss) | None => None end
      end
  | RSubscribeFrom id q =>
      match ss !! id with
      | Some _ => Some (VUnit, m, ss)
      | None => match run (from_seq_with_parker q) m with Some (s, m') => Some (VUnit, m', <[id := s]> ss) | None => None end
      end
  | RRecv id =>
      match ss !! id with
      | None => Some (VUnit, m, ss)
      | Some s => match run (try_recv r s) m with Some (o, s', m') => Some (VMsg o, m', <[id := s']> ss) | None => None end
      end
  | RReliable id =>
      match ss !! id with
      | None => Some (VUnit, m, ss)
      | Some s => match run (make_reliable s) m with Some (x, s', m') => Some (VReliable x, m', <[id := s']> ss) | None => None end
      end
  | RDrop id =>
      match ss !! id with
      | None => Some (VUnit, m, ss)
      | Some s => match run (drop_subscriber s) m with Some (_, m') => Some (VUnit, m', delete id ss) | None => None end
      end
  | RBackpressure => match run (would_backpressure r) m with Some (b, m') => Some (VBool b, m', ss) | None => None end
  end.

(** ** The abstract broadcast: a log, and per subscriber a cursor and a
    reliability flag *)

Record asub : Set := mkASub { a_cursor : Z; a_reliable : bool }.

Definition abs_state : Type := list ChunkDesc * gmap nat asub.

(** What reading at cursor [c] delivers, and where it leaves the cursor. *)
Definition deliver (cap : Z) (ms : list ChunkDesc) (c : Z) : option Msg * Z :=
  match log_read cap ms c with
  | OSample d => (Some (Sample d), c + 1)
  | OLagged k c' => (Some (Lagged k), c')
  | OEmpty => (None, c)
  end.

Definition reliable_count (ss : gmap nat asub) : nat := size (filter (fun x => a_reliable x.2 = true) ss).

Definition spec (cap : Z) (st : abs_state) (op : ring_op) (ret : ring_ret) (st' : abs_state) : Prop :=
  let '(ms, ss) := st in
  match op with
  | RPublish d => ret = VUnit /\ st' = (ms ++ [d], ss)
  | RSubscribe id =>
      ret = VUnit /\ st' = (ms, match ss !! id with Some _ => ss | None => <[id := mkASub (Z.of_nat (length ms)) false]> ss end)
  | RSubscribeFrom id q =>
      ret = VUnit /\ st' = (ms, match ss !! id with Some _ => ss | None => <[id := mkASub q false]> ss end)
  | RRecv id =>
      match ss !! id with
      | None => ret = VUnit /\ st' = st
      | Some s =>
          ret = VMsg (deliver cap ms (a_cursor s)).1 /\
          st' = (ms, <[id := mkASub (deliver cap ms (a_cursor s)).2 (a_reliable s)]> ss)
      end
  | RReliable id =>
      match ss !! id with
      | None => ret = VUnit /\ st' = st
      | Some s =>
          if a_reliable s then ret = VReliable (Ok tt) /\ st' = st
          else if decide (reliable_count ss < MAX_RELIABLE)%nat then
            ret = VReliable (Ok tt) /\ st' = (ms, <[id := mkASub (a_cursor s) true]> ss)
          else ret = VReliable (Err (ReliableTableFull MAX_RELIABLE)) /\ st' = st
      end
  | RDrop id => ret = VUnit /\ st' = (ms, delete id ss)
  | RBackpressure =>
      st' = st /\ exists b, ret = VBool b /\
        (b = true <-> exists id s, ss !! id = Some s /\ a_reliable s = true /\
           a_cursor s + cap < Z.of_nat (length ms))
  end.

(** ** Simulation *)

Definition abs_sub (s : Subscriber) : asub := mkASub (cursor s) (bool_decide (is_Some (s_reliable s))).

Record sim (r : Ring) (m : RingMem) (ss : subs_t) (ms : list ChunkDesc) : Prop := {
  sim_log : holds_log r m ms;
  sim_len : length (reliable m) = MAX_RELIABLE;
  sim_own id s k : ss !! id = Some s -> s_reliable s = Some k -> reliable m !! k = Some (cursor s);
  sim_inj id id' s s' k : ss !! id = Some s -> ss !! id' = Some s' ->
    s_reliable s = Some k -> s_reliable s' = Some k -> id = id';
  sim_used k v : reliable m !! k = Some v -> v <> RELIABLE_UNUSED ->
    exists id s, ss !! id = Some s /\ s_reliable s = Some k;
  sim_cursor id s : ss !! id = Some s -> 0 <= cursor s < U64_MAX
}.

(** Replacing a subscriber that keeps its table entry (if any) at its cursor. *)
Lemma sim_update r m ss ms m' id s s' :
  sim r m ss ms -> ss !! id = Some s -> holds_log r m' ms -> 0 <= cursor s' < U64_MAX ->
  s_reliable s' = s_reliable s ->
  reliable m' = match s_reliable s with Some k => <[k := cursor s']> (reliable m) | None => reliable m end ->
  sim r m' (<[id := s']> ss) ms.
Proof.
  intros H Hs Hlog Hc Er Em. split; [done| | | | |].
  - rewrite Em. destruct (s_reliable s); [rewrite length_insert|]; apply H.
  - intros id0 s0 k H0 Hk. destruct (decide (id = id0)) as [<-|Hne].
    + rewrite lookup_insert_eq in H0. injection H0 as <-. rewrite Er in Hk. rewrite Em, Hk.
      apply list_lookup_insert_eq. eapply lookup_lt_Some. by apply (sim_own r m ss ms H id s k).
    + rewrite lookup_insert_ne in H0 by done. pose proof (sim_own r m ss ms H id0 s0 k H0 Hk) as E.
      rewrite Em. destruct (s_reliable s) as [k'|] eqn:Ek'; [|done].
      rewrite list_lookup_insert_ne; [done|]. intros ->. by pose proof (sim_inj r m ss ms H _ _ _ _ _ Hs H0 Ek' Hk).
  - intros i i' t t' k Hi Hi' Hk Hk'.
    assert (G : forall i t, <[id := s']> ss !! i = Some t -> exists t0, ss !! i = Some t0 /\ s_reliable t = s_reliable t0).
    { intros i0 t0 H0. destruct (decide (id = i0)) as [<-|Hne].
      - rewrite lookup_insert_eq in H0. injection H0 as <-. by exists s.
      - rewrite lookup_insert_ne in H0 by done. by exists t0. }
    destruct (G i t Hi) as (t0 & ? & ?). destruct (G i' t' Hi') as (t1 & ? & ?).
    apply (sim_inj r m ss ms H i i' t0 t1 k); congruence.
  - intros k v Hv Hne. assert (G : exists id0 s0, ss !! id0 = Some s0 /\ s_reliable s0 = Some k).
    { rewrite Em in Hv. destruct (s_reliable s) as [k'|] eqn:Ek'; [|by apply (sim_used r m ss ms H k v)].
      destruct (decide (k' = k)) as [->|Hkk]; [by exists id, s|].
      rewrite list_lookup_insert_ne in Hv by done. by apply (sim_used r m ss ms H k v). }
    destruct G as (id0 & s0 & H0 & Hk). destruct (decide (id = id0)) as [<-|Hid].
    + exists id, s'. rewrite lookup_insert_eq. split; [done|]. rewrite Er. congruence.
    + exists id0, s0. by rewrite lookup_insert_ne.
  - intros id0 s0 H0. destruct (decide (id = id0)) as [<-|Hne].
    + rewrite lookup_insert_eq in H0. by injection H0 as <-.
    + rewrite lookup_insert_ne in H0 by done. by apply (sim_cursor r m ss ms H id0).
Qed.

(** The log does not depend on the cursor table. *)
Lemma holds_log_reliable r m ms t : holds_log r m ms -> holds_log r (set_reliable t m) ms.
Proof. intros [? ? ?]. by split. Qed.

Lemma run_cell_store i (v : Z) m :
  (i < length (reliable m))%nat ->
  run (lift (reliable_cell i) (store (fun _ => v))) m = Some (tt, set_reliable (<[i := v]> (reliable m)) m).
Proof.
  intros Hi. destruct (lookup_lt_is_Some_2 _ _ Hi) as [x Hx].
  cbn. unfold reliable_cell, elem. by rewrite Hx.
Qed.

Lemma sync_reliable_run r m ss ms id s s' :
  sim r m ss ms -> ss !! id = Some s -> s_reliable s' = s_reliable s ->
  run (sync_reliable s') m = Some (tt, match s_reliable s with
    | Some k => set_reliable (<[k := cursor s']> (reliable m)) m | None => m end).
Proof.
  intros H Hs Er. unfold sync_reliable. rewrite Er. destruct (s_reliable s) as [k|] eqn:Ek; [|done].
  apply run_cell_store. eapply lookup_lt_Some. by apply (sim_own r m ss ms H id s k).
Qed.

Lemma deliver_cursor cap ms c : 0 < cap -> 0 <= c < U64_MAX -> Z.of_nat (length ms) < U64_MAX ->
  0 <= (deliver cap ms c).2 < U64_MAX.
Proof.
  intros Hcap Hc Hlen. unfold deliver, log_read.
  destruct (Z.leb_spec (Z.of_nat (length ms)) c); [done|].
  destruct (Z.ltb_spec cap (Z.of_nat (length ms) - c)); [cbn; lia|].
  destruct (ms !! Z.to_nat c); cbn; lia.
Qed.

Lemma try_recv_run r m ss ms id s :
  sim r m ss ms -> ss !! id = Some s -> Z.of_nat (length ms) < U64_MAX ->
  let '(o, c') := deliver (capacity r) ms (cursor s) in
  exists m', run (try_recv r s) m = Some ((o, mkSub c' (s_reliable s)), m') /\
    sim r m' (<[id := mkSub c' (s_reliable s)]> ss) ms.
Proof.
  intros H Hs Hlen. pose proof (sim_log r m ss ms H) as Hlog. pose proof (sim_cursor r m ss ms H id s Hs) as Hc.
  pose proof (ring_geom_pos r m (log_geom r m ms Hlog)) as Hpos.
  pose proof (deliver_cursor (capacity r) ms (cursor s) Hpos Hc Hlen) as Hd. revert Hd. unfold deliver.
  destruct (log_read (capacity r) ms (cursor s)) as [d|k c'|] eqn:E; cbn [snd]; intros Hd.
  - eexists. split.
    + unfold try_recv. rewrite run_bind, (read_at_run r m ms), E by (done || lia). cbn zeta.
      rewrite run_bind, (sync_reliable_run r m ss ms id s) by done. reflexivity.
    + apply (sim_update r m ss ms _ id s); [done|done| |done|done|].
      * destruct (s_reliable s); [by apply holds_log_reliable|done].
      * by destruct (s_reliable s).
  - eexists. split.
    + unfold try_recv. rewrite run_bind, (read_at_run r m ms), E by (done || lia). cbn zeta.
      rewrite run_bind, (sync_reliable_run r m ss ms id s) by done. reflexivity.
    + apply (sim_update r m ss ms _ id s); [done|done| |done|done|].
      * destruct (s_reliable s); [by apply holds_log_reliable|done].
      * by destruct (s_reliable s).
  - exists m. split.
    + unfold try_recv. rewrite run_bind, (read_at_run r m ms), E by (done || lia). by destruct s.
    + destruct s. by rewrite insert_id.
Qed.

(** ** The cursor table *)

(** The table entries in use, one per reliable subscriber. *)
Definition used_cells (ss : subs_t) : list nat := omap (fun x => s_reliable x.2) (map_to_list ss).

Lemma elem_of_used_cells ss k : k ∈ used_cells ss <-> exists id s, ss !! id = Some s /\ s_reliable s = Some k.
Proof.
  unfold used_cells. rewrite list_elem_of_omap. split.
  - intros ([id s] & Hin%elem_of_map_to_list & Hk). by exists id, s.
  - intros (id & s & Hin & Hk). exists (id, s). by rewrite elem_of_map_to_list.
Qed.

Lemma used_cells_nodup r m ss ms : sim r m ss ms -> NoDup (used_cells ss).
Proof.
  intros H. unfold used_cells. pose proof (NoDup_map_to_list ss) as Hnd.
  assert (Hin : forall x, x ∈ map_to_list ss -> ss !! x.1 = Some x.2).
  { intros [id s]. by rewrite elem_of_map_to_list. }
  induction (map_to_list ss) as [|[id s] l IH]; [constructor|]. apply list.NoDup_cons in Hnd as [Hni Hnd].
  csimpl. destruct (s_reliable s) as [k|] eqn:Ek; [|apply IH; [done|set_solver]].
  constructor; [|apply IH; [done|set_solver]].
  intros ([id' s'] & Hin' & Hk')%list_elem_of_omap. cbn in Hk'. apply Hni.
  pose proof (Hin (id, s) ltac:(set_solver)) as H1. pose proof (Hin (id', s') ltac:(set_solver)) as H2. cbn in *.
  pose proof (sim_inj r m ss ms H _ _ _ _ _ H1 H2 Ek Hk'). subst id'. by simplify_eq.
Qed.

Lemma reliable_count_used (ss : subs_t) : reliable_count (abs_sub <$> ss) = length (used_cells ss).
Proof.
  unfold reliable_count, used_cells.
  induction ss as [|id s ss Hid IH] using map_ind.
  { rewrite fmap_empty, map_to_list_empty. by rewrite map_filter_empty, map_size_empty. }
  rewrite fmap_insert, map_filter_insert. rewrite (map_to_list_insert _ _ _ Hid). csimpl.
  rewrite delete_id by (by rewrite lookup_fmap, Hid).
  destruct (s_reliable s) as [k|] eqn:Ek; csimpl.
  - rewrite map_size_insert_None, IH; [done|]. rewrite map_lookup_filter_None. left. by rewrite lookup_fmap, Hid.
  - exact IH.
Qed.

(** The cells below 8 that are not in use are exactly the [RELIABLE_UNUSED] ones. *)
Lemma cell_unused r m ss ms k v :
  sim r m ss ms -> reliable m !! k = Some v -> (v = RELIABLE_UNUSED <-> (k ∉ used_cells ss)).
Proof.
  intros H Hv. rewrite elem_of_used_cells. split.
  - intros -> (id & s & Hs & Hk). pose proof (sim_own r m ss ms H id s k Hs Hk) as E.
    pose proof (sim_cursor r m ss ms H id s Hs). rewrite Hv in E. injection E as E. unfold RELIABLE_UNUSED in E. lia.
  - intros Hn. destruct (decide (v = RELIABLE_UNUSED)) as [|Hne]; [done|]. exfalso. apply Hn.
    by apply (sim_used r m ss ms H k v).
Qed.

Lemma used_cells_bound r m ss ms k : sim r m ss ms -> k ∈ used_cells ss -> (k < MAX_RELIABLE)%nat.
Proof.
  intros H (id & s & Hs & Hk)%elem_of_used_cells. rewrite <- (sim_len r m ss ms H).
  eapply lookup_lt_Some. by apply (sim_own r m ss ms H id s k).
Qed.

Lemma run_cell_claim i c m v :
  reliable m !! i = Some v ->
  run (x <- lift (reliable_cell i) (cas (fun v => v) (fun v _ => v) RELIABLE_UNUSED c) ;; Ret (if x.1 then Some i else None)) m =
    if v =? RELIABLE_UNUSED then Some (Some i, set_reliable (<[i := c]> (reliable m)) m) else Some (None, m).
Proof.
  intros Hv. cbn. unfold reliable_cell, elem. rewrite Hv. destruct (Z.eqb_spec v RELIABLE_UNUSED); cbn; [done|].
  rewrite list_insert_id by done. by destruct m.
Qed.

(** Registration takes the first unused cell; it fails exactly when the table is
    full. *)
Lemma register_reliable_run r m ss ms c :
  sim r m ss ms ->
  (exists k, (k < MAX_RELIABLE)%nat /\ (k ∉ used_cells ss) /\ (length (used_cells ss) < MAX_RELIABLE)%nat /\
     run (register_reliable c) m = Some (Ok k, set_reliable (<[k := c]> (reliable m)) m)) \/
  ((MAX_RELIABLE <= length (used_cells ss))%nat /\
   run (register_reliable c) m = Some (Err (ReliableTableFull MAX_RELIABLE), m)).
Proof.
  intros H. unfold register_reliable.
  assert (Hcell : forall k, k ∈ List.seq 0 MAX_RELIABLE -> exists v, reliable m !! k = Some v).
  { intros k Hk%elem_of_seq. apply lookup_lt_is_Some_2. rewrite (sim_len r m ss ms H). lia. }
  destruct (list_find (fun k => k ∉ used_cells ss) (List.seq 0 MAX_RELIABLE)) as [[i k]|] eqn:E.
  - left. apply list_find_Some in E as (Hi & Hk & Hpre).
    destruct (Hcell k ltac:(by eapply list_elem_of_lookup_2)) as [v Hv].
    exists k. apply lookup_seq in Hi as Hi'. split_and!; [lia|done| |].
    + assert (Hsub : k :: used_cells ss ⊆+ List.seq 0 MAX_RELIABLE).
      { apply NoDup_submseteq; [constructor; [done|by eapply used_cells_nodup]|].
        intros x [->|Hx]%elem_of_cons; apply elem_of_seq; [lia|].
        pose proof (used_cells_bound r m ss ms x H Hx). lia. }
      apply submseteq_length in Hsub. rewrite length_seq in Hsub. cbn in Hsub. lia.
    + rewrite run_bind. rewrite <- (take_drop_middle _ _ _ Hi).
      rewrite (run_for_each_first _ k _ _ m k (set_reliable (<[k := c]> (reliable m)) m)); [done| |].
      * intros y [q Hq]%list_elem_of_lookup. pose proof (lookup_lt_Some _ _ _ Hq) as Hlt. rewrite length_take in Hlt.
        rewrite lookup_take_lt in Hq by lia.
        destruct (Hcell y ltac:(by eapply list_elem_of_lookup_2)) as [vy Hvy].
        rewrite (run_cell_claim y c m vy Hvy). destruct (Z.eqb_spec vy RELIABLE_UNUSED) as [Eu|]; [|done].
        exfalso. apply (Hpre q y Hq ltac:(lia)). by apply (cell_unused r m ss ms y vy).
      * rewrite (run_cell_claim k c m v Hv). by rewrite (proj2 (Z.eqb_eq _ _) (proj2 (cell_unused r m ss ms k v H Hv) Hk)).
  - right. apply list_find_None in E. rewrite list.Forall_forall in E. split.
    + assert (Hsub : List.seq 0 MAX_RELIABLE ⊆+ used_cells ss).
      { apply NoDup_submseteq; [apply NoDup_seq|]. intros x Hx. apply dec_stable. by apply E. }
      apply submseteq_length in Hsub. by rewrite length_seq in Hsub.
    + rewrite run_bind, run_for_each_none; [done|]. intros y Hy. destruct (Hcell y Hy) as [v Hv].
      rewrite (run_cell_claim y c m v Hv). destruct (Z.eqb_spec v RELIABLE_UNUSED) as [Eu|]; [|done].
      exfalso. apply (E y Hy). by apply (cell_unused r m ss ms y v).
Qed.

(** The fold of [min_reliable_cursor], tested against a threshold. *)
Lemma min_fold_below (t : list Z) js acc x :
  (exists mn, foldl (fun min i => match t !! i with
     | Some v => if v =? RELIABLE_UNUSED then min else Some (match min with Some m => Z.min m v | None => v end)
     | None => min end) acc js = Some mn /\ mn < x) <->
  (exists mn, acc = Some mn /\ mn < x) \/
  (exists i v, i ∈ js /\ t !! i = Some v /\ v <> RELIABLE_UNUSED /\ v < x).
Proof.
  revert acc. induction js as [|i js IH]; intros acc; cbn [foldl].
  { split; [by left|]. intros [?|(i & v & Hi & _)]; [done|]. by apply elem_of_nil in Hi. }
  rewrite IH. clear IH. destruct (t !! i) as [v|] eqn:Ei.
  2:{ split; intros [?|(k & v & Hk & ?)]; [by left|right; exists k, v; set_solver|by left|].
      right. exists k, v. apply elem_of_cons in Hk as [->|Hk]; [naive_solver|done]. }
  destruct (Z.eqb_spec v RELIABLE_UNUSED) as [->|Hne].
  { split; intros [?|(k & v & Hk & ?)]; [by left|right; exists k, v; set_solver|by left|].
    right. exists k, v. apply elem_of_cons in Hk as [->|Hk]; [naive_solver|done]. }
  split.
  - intros [(mn & [= <-] & Hlt)|(k & w & Hk & ?)]; [|right; exists k, w; set_solver].
    destruct acc as [a|]; [|right; exists i, v; set_solver].
    destruct (Z.lt_ge_cases a x); [left; by exists a|right; exists i, v; split; [set_solver|split_and!; [done|done|lia]]].
  - intros [(mn & -> & Hlt)|(k & w & Hk & Hw & Hwne & Hlt)]; [left; eexists; split; [done|lia]|].
    apply elem_of_cons in Hk as [->|Hk]; [|right; by exists k, w].
    left. eexists. split; [done|]. rewrite Ei in Hw. injection Hw as ->. destruct acc; lia.
Qed.

Lemma would_backpressure_run r m ss ms :
  sim r m ss ms ->
  exists b, run (would_backpressure r) m = Some (b, m) /\
    (b = true <-> exists id s, ss !! id = Some s /\ is_Some (s_reliable s) /\
       cursor s + capacity r < Z.of_nat (length ms)).
Proof.
  intros H. unfold would_backpressure, min_reliable_cursor. rewrite run_bind.
  rewrite (run_for_fold_pure _ _ (fun min i => match reliable m !! i with
     | Some v => if v =? RELIABLE_UNUSED then min else Some (match min with Some m => Z.min m v | None => v end)
     | None => min end)).
  2:{ intros a i Hi%elem_of_seq. destruct (lookup_lt_is_Some_2 (reliable m) i) as [v Hv].
      { rewrite (sim_len r m ss ms H). lia. }
      rewrite run_bind. cbn. unfold reliable_cell, elem. rewrite Hv, list_insert_id by done.
      cbn. by destruct m. }
  pose proof (min_fold_below (reliable m) (List.seq 0 MAX_RELIABLE) None (Z.of_nat (length ms) - capacity r)) as Hmin.
  pose proof (ring_geom_pos r m (log_geom r m ms (sim_log r m ss ms H))) as Hpos.
  assert (Hiff : (exists i v, i ∈ List.seq 0 MAX_RELIABLE /\ reliable m !! i = Some v /\ v <> RELIABLE_UNUSED /\ v < Z.of_nat (length ms) - capacity r) <->
    exists id s, ss !! id = Some s /\ is_Some (s_reliable s) /\ cursor s + capacity r < Z.of_nat (length ms)).
  { split.
    - intros (i & v & Hi & Hv & Hne & Hlt). destruct (sim_used r m ss ms H i v Hv Hne) as (id & s & Hs & Hk).
      exists id, s. split_and!; [done|by eexists|]. pose proof (sim_own r m ss ms H id s i Hs Hk) as E. rewrite Hv in E. injection E as ->. lia.
    - intros (id & s & Hs & [k Hk] & Hlt). pose proof (sim_own r m ss ms H id s k Hs Hk) as E.
      pose proof (sim_cursor r m ss ms H id s Hs). exists k, (cursor s). split_and!; [|done|unfold RELIABLE_UNUSED; lia|lia].
      apply elem_of_seq. apply lookup_lt_Some in E. rewrite (sim_len r m ss ms H) in E. lia. }
  destruct (foldl _ None (List.seq 0 MAX_RELIABLE)) as [mn|].
  - eexists. split; [cbn; reflexivity|]. rewrite (log_head r m ms (sim_log r m ss ms H)), Z.ltb_lt, <- Hiff.
    split.
    + intros Hlt. destruct (proj1 Hmin) as [(? & [=] & _)|?]; [exists mn; split; [done|lia]|done].
    + intros Hex. destruct (proj2 Hmin (or_intror Hex)) as (? & [= <-] & Hlt). lia.
  - eexists. split; [reflexivity|]. split; [done|]. intros Hex. apply Hiff in Hex.
    by destruct (proj2 Hmin (or_intror Hex)) as (? & [=] & _).
Qed.

Lemma sim_insert_new r m ss ms id c :
  sim r m ss ms -> ss !! id = None -> 0 <= c < U64_MAX -> sim r m (<[id := mkSub c None]> ss) ms.
Proof.
  intros H Hid Hc.
  assert (G : forall i t k, <[id := mkSub c None]> ss !! i = Some t -> s_reliable t = Some k -> ss !! i = Some t).
  { intros i t k Hi Hk. destruct (decide (id = i)) as [<-|Hne].
    - rewrite lookup_insert_eq in Hi. by injection Hi as <-.
    - by rewrite lookup_insert_ne in Hi. }
  split; try apply H.
  - intros i t k Hi Hk. apply (sim_own r m ss ms H i t k); eauto.
  - intros i i' t t' k Hi Hi' Hk Hk'. eapply (sim_inj r m ss ms H); eauto.
  - intros k v Hv Hne. destruct (sim_used r m ss ms H k v Hv Hne) as (i & t & Hi & Hk).
    exists i, t. rewrite lookup_insert_ne; [done|]. intros ->. by rewrite Hid in Hi.
  - intros i t Hi. destruct (decide (id = i)) as [<-|Hne].
    + rewrite lookup_insert_eq in Hi. by injection Hi as <-.
    + rewrite lookup_insert_ne in Hi by done. by apply (sim_cursor r m ss ms H i).
Qed.

Lemma sim_register r m ss ms id s k :
  sim r m ss ms -> ss !! id = Some s -> s_reliable s = None -> (k < MAX_RELIABLE)%nat -> k ∉ used_cells ss ->
  sim r (set_reliable (<[k := cursor s]> (reliable m)) m) (<[id := mkSub (cursor s) (Some k)]> ss) ms.
Proof.
  intros H Hs Hr Hk Hun. rewrite elem_of_used_cells in Hun.
  assert (Hfree : forall i t, ss !! i = Some t -> s_reliable t <> Some k) by (intros i t Hi E; apply Hun; eauto).
  pose proof (sim_cursor r m ss ms H id s Hs) as Hc.
  split; cbn [reliable set_reliable].
  - by apply holds_log_reliable, H.
  - rewrite length_insert. apply H.
  - intros i t q Hi Hq. destruct (decide (id = i)) as [<-|Hne].
    + rewrite lookup_insert_eq in Hi. injection Hi as <-. cbn in Hq. injection Hq as <-.
      apply list_lookup_insert_eq. by rewrite (sim_len r m ss ms H).
    + rewrite lookup_insert_ne in Hi by done. rewrite list_lookup_insert_ne; [by apply (sim_own r m ss ms H i)|].
      intros ->. by apply (Hfree i t Hi).
  - intros i i' t t' q Hi Hi' Hq Hq'.
    destruct (decide (id = i)) as [<-|Hne]; destruct (decide (id = i')) as [<-|Hne']; [done| | |].
    + rewrite lookup_insert_eq in Hi. rewrite lookup_insert_ne in Hi' by done. injection Hi as <-. cbn in Hq. injection Hq as <-.
      by apply Hfree in Hi'.
    + rewrite lookup_insert_eq in Hi'. rewrite lookup_insert_ne in Hi by done. injection Hi' as <-. cbn in Hq'. injection Hq' as <-.
      by apply Hfree in Hi.
    + rewrite lookup_insert_ne in Hi, Hi' by done. by eapply (sim_inj r m ss ms H).
  - intros q v Hv Hne. destruct (decide (k = q)) as [<-|Hkq].
    + exists id, (mkSub (cursor s) (Some k)). by rewrite lookup_insert_eq.
    + rewrite list_lookup_insert_ne in Hv by done. destruct (sim_used r m ss ms H q v Hv Hne) as (i & t & Hi & Hq).
      exists i, t. rewrite lookup_insert_ne; [done|]. intros ->. by simplify_eq.
  - intros i t Hi. destruct (decide (id = i)) as [<-|Hne].
    + rewrite lookup_insert_eq in Hi. by injection Hi as <-.
    + rewrite lookup_insert_ne in Hi by done. by apply (sim_cursor r m ss ms H i).
Qed.

Lemma sim_drop r m ss ms id s :
  sim r m ss ms -> ss !! id = Some s ->
  exists m', run (drop_subscriber s) m = Some (tt, m') /\ sim r m' (delete id ss) ms.
Proof.
  intros H Hs. unfold drop_subscriber.
  assert (Hdel : forall i t, delete id ss !! i = Some t -> i <> id /\ ss !! i = Some t).
  { intros i t [? ?]%lookup_delete_Some. done. }
  destruct (s_reliable s) as [k|] eqn:Ek.
  - pose proof (sim_own r m ss ms H id s k Hs Ek) as Hk.
    assert (Hlt : (k < length (reliable m))%nat) by (by eapply lookup_lt_Some).
    eexists. split; [by apply run_cell_store|]. split; cbn [reliable set_reliable].
    + by apply holds_log_reliable, H.
    + rewrite length_insert. apply H.
    + intros i t q [Hne Hi]%Hdel Hq. rewrite list_lookup_insert_ne; [by apply (sim_own r m ss ms H i)|].
      intros ->. apply Hne. by eapply (sim_inj r m ss ms H).
    + intros i i' t t' q [_ Hi]%Hdel [_ Hi']%Hdel. by eapply (sim_inj r m ss ms H).
    + intros q v Hv Hne. destruct (decide (k = q)) as [<-|Hkq].
      { rewrite list_lookup_insert_eq in Hv by done. by injection Hv as <-. }
      rewrite list_lookup_insert_ne in Hv by done. destruct (sim_used r m ss ms H q v Hv Hne) as (i & t & Hi & Hq).
      exists i, t. rewrite lookup_delete_ne; [done|]. intros <-. by simplify_eq.
    + intros i t [_ Hi]%Hdel. by apply (sim_cursor r m ss ms H i).
  - exists m. split; [done|]. split; try apply H.
    + intros i t q [_ Hi]%Hdel Hq. by apply (sim_own r m ss ms H i).
    + intros i i' t t' q [_ Hi]%Hdel [_ Hi']%Hdel. by eapply (sim_inj r m ss ms H).
    + intros q v Hv Hne. destruct (sim_used r m ss ms H q v Hv Hne) as (i & t & Hi & Hq).
      exists i, t. rewrite lookup_delete_ne; [done|]. intros <-. by simplify_eq.
    + intros i t [_ Hi]%Hdel. by apply (sim_cursor r m ss ms H i).
Qed.

Definition op_wf (op : ring_op) : Prop := match op with RSubscribeFrom _ q => 0 <= q < U64_MAX | _ => True end.
Definition is_publish (op : ring_op) : bool := match op with RPublish _ => true | _ => false end.

Lemma ring_exec_refines r m ss ms op :
  sim r m ss ms -> op_wf op -> Z.of_nat (length ms) < U64_MAX ->
  exists ret m' ss' ms', exec r m ss op = Some (ret, m', ss') /\
    spec (capacity r) (ms, abs_sub <$> ss) op ret (ms', abs_sub <$> ss') /\ sim r m' ss' ms' /\
    length ms' = (length ms + if is_publish op then 1 else 0)%nat.
Proof.
  intros H Hop Hlen. pose proof (sim_log r m ss ms H) as Hlog.
  assert (Hskip : forall id, (abs_sub <$> ss) !! id = abs_sub <$> ss !! id) by (intros; apply lookup_fmap).
  destruct op as [d|id|id q|id|id|id|]; cbn [exec is_publish]; rewrite ?Nat.add_0_r.
  - destruct (publish_run r m ms d Hlog Hlen) as (m' & -> & Hlog' & Er & _).
    eexists _, _, ss, (ms ++ [d]). split; [done|]. split; [done|]. split; [|by rewrite length_app].
    destruct H. by split; rewrite ?Er.
  - destruct (ss !! id) as [s|] eqn:Hs.
    { eexists _, _, ss, ms. split; [done|]. split; [|done]. cbn [spec]. by rewrite Hskip, Hs. }
    cbn. rewrite (log_head r m ms Hlog). eexists _, _, _, ms. split; [done|]. split; [|split; [by apply sim_insert_new; [| |lia]|done]].
    cbn [spec]. rewrite Hskip, Hs. cbn. by rewrite fmap_insert.
  - destruct (ss !! id) as [s|] eqn:Hs.
    { eexists _, _, ss, ms. split; [done|]. split; [|done]. cbn [spec]. by rewrite Hskip, Hs. }
    cbn. eexists _, _, _, ms. split; [done|]. split; [|split; [by apply sim_insert_new|done]].
    cbn [spec]. rewrite Hskip, Hs. cbn. by rewrite fmap_insert.
  - destruct (ss !! id) as [s|] eqn:Hs.
    2:{ eexists _, _, ss, ms. cbn [spec]. rewrite Hskip, Hs. by split_and!. }
    pose proof (try_recv_run r m ss ms id s H Hs Hlen) as Hrun.
    destruct (deliver (capacity r) ms (cursor s)) as [o c'] eqn:Ed. destruct Hrun as (m' & -> & Hsim).
    eexists _, _, _, ms. split; [done|]. split; [|done]. cbn [spec]. rewrite Hskip, Hs. cbn [fmap option_fmap option_map abs_sub a_cursor a_reliable].
    rewrite Ed. split; [done|]. by rewrite fmap_insert.
  - destruct (ss !! id) as [s|] eqn:Hs.
    2:{ eexists _, _, ss, ms. cbn [spec]. rewrite Hskip, Hs. by split_and!. }
    unfold make_reliable. cbn [spec]. rewrite Hskip, Hs.
    destruct (s_reliable s) as [k|] eqn:Ek.
    { eexists _, _, _, ms. split; [cbn; done|]. rewrite insert_id by done. split; [|done]. cbn. by rewrite Ek. }
    destruct (register_reliable_run r m ss ms (cursor s) H) as [(k & Hk & Hun & Hroom & Hrun)|[Hfull Hrun]].
    + rewrite run_bind, Hrun. eexists _, _, _, ms. split; [cbn; done|]. split; [|split; [by apply sim_register|done]].
      cbn. rewrite Ek. cbn. rewrite reliable_count_used, decide_True by done. split; [done|]. by rewrite fmap_insert.
    + rewrite run_bind, Hrun. eexists _, _, _, ms. split; [cbn; done|]. rewrite insert_id by done. split; [|done].
      cbn. rewrite Ek. cbn. rewrite reliable_count_used, decide_False by (unfold MAX_RELIABLE in *; lia). done.
  - destruct (ss !! id) as [s|] eqn:Hs.
    2:{ eexists _, _, ss, ms. split; [done|]. split; [|done]. cbn. by rewrite delete_id by (by rewrite Hskip, Hs). }
    destruct (sim_drop r m ss ms id s H Hs) as (m' & -> & Hsim). eexists _, _, _, ms. split; [done|]. split; [|done].
    cbn. by rewrite fmap_delete.
  - destruct (would_backpressure_run r m ss ms H) as (b & -> & Hb). eexists _, _, ss, ms. split; [done|]. split; [|done].
    cbn [spec]. split; [done|]. exists b. split; [done|]. rewrite Hb. split.
    + intros (id & s & Hs & Hr & Hlt). exists id, (abs_sub s). rewrite Hskip, Hs. cbn. by rewrite bool_decide_eq_true_2.
    + intros (id & a & Ha & Hr & Hlt). rewrite Hskip in Ha. destruct (ss !! id) as [s|] eqn:Hs; [|done]. cbn in Ha. injection Ha as <-.
      exists id, s. cbn in *. by apply bool_decide_eq_true_1 in Hr.
Qed.

(** ** Sequences *)

Fixpoint exec_all (r : Ring) (m : RingMem) (ss : subs_t) (ops : list ring_op) : option (list ring_ret * RingMem * subs_t) :=
  match ops with
  | [] => Some ([], m, ss)
  | op :: ops' =>
      match exec r m ss op with
      | Some (x, m', ss') =>
          match exec_all r m' ss' ops' with Some (xs, m'', ss'') => Some (x :: xs, m'', ss'') | None => None end
      | None => None
      end
  end.

Inductive spec_all (cap : Z) : abs_state -> list ring_op -> list ring_ret -> abs_state -> Prop :=
| spec_nil st : spec_all cap st [] [] st
| spec_cons st st' st'' op ops x xs :
    spec cap st op x st' -> spec_all cap st' ops xs st'' -> spec_all cap st (op :: ops) (x :: xs) st''.

Lemma init_sim base region_len cap :
  0 < cap < U32_MOD -> is_power_of_two cap = true -> base mod 8 = 0 -> required_bytes cap <= region_len ->
  exists r m, init base region_len cap = Ok (r, m) /\ capacity r = cap /\ attach base region_len m = Ok r /\ sim r m ∅ [].
Proof.
  intros Hc Hp Hb Hfit. unfold init. rewrite (proj2 (Z.eqb_neq _ _)), Hp by lia. cbn [orb negb].
  rewrite Hb, (proj2 (Z.ltb_ge _ _)) by lia. cbn.
  eexists _, _. split_and!; [done|done| |].
  - unfold attach. cbn. rewrite Hb. cbn. rewrite (proj2 (Z.ltb_ge _ SIZEOF_RingHeader)), (proj2 (Z.ltb_ge _ _)); [done|done|].
    unfold required_bytes, SIZEOF_RingHeader in *. change slots_offset with 128 in *. unfold SIZEOF_Slot in *. lia.
  - split; cbn [reliable].
    + split; [|done|].
      * split_and!; cbn; [apply power_of_two_pow; [mach|done]|done|by rewrite length_replicate].
      * intros q d Hq. by rewrite lookup_nil in Hq.
    + done.
    + intros id s k Hs. by rewrite lookup_empty in Hs.
    + intros id id' s s' k Hs. by rewrite lookup_empty in Hs.
    + intros k v Hv Hne. exfalso. apply Hne. do 8 (destruct k as [|k]; [by injection Hv as <-|]). done.
    + intros id s Hs. by rewrite lookup_empty in Hs.
Qed.

(** C14. The ring refines a broadcast log.  Initialise a ring of any power-of-two
    capacity, then publish, subscribe (at the head or at an explicit sequence),
    read, promote to reliable, drop and query backpressure, with any number of
    subscribers in any order.  Every operation answers as the log does: each
    subscriber receives every message in order from its cursor; one that is more
    than [capacity] behind is told exactly how many it missed and resumes at the
    oldest live message; reliable registration fails exactly when eight
    subscribers are registered; and backpressure is reported exactly when a
    registered subscriber is more than [capacity] behind. *)
Theorem ring_refines_broadcast base region_len cap ops :
  0 < cap < U32_MOD -> is_power_of_two cap = true -> base mod 8 = 0 -> required_bytes cap <= region_len ->
  Forall op_wf ops -> Z.of_nat (length (filter (fun op => is_publish op = true) ops)) < U64_MAX ->
  exists r m0 xs m ss ms, init base region_len cap = Ok (r, m0) /\ attach base region_len m0 = Ok r /\
    exec_all r m0 ∅ ops = Some (xs, m, ss) /\ spec_all cap ([], ∅) ops xs (ms, abs_sub <$> ss).
Proof.
  intros Hc Hp Hb Hfit Hops Hlen.
  destruct (init_sim base region_len cap Hc Hp Hb Hfit) as (r & m0 & Hi & <- & Ha & Hsim).
  assert (G : forall ss ms m0, sim r m0 ss ms ->
    Z.of_nat (length ms + length (filter (fun op => is_publish op = true) ops)) < U64_MAX ->
    exists xs m ss' ms', exec_all r m0 ss ops = Some (xs, m, ss') /\
      spec_all (capacity r) (ms, abs_sub <$> ss) ops xs (ms', abs_sub <$> ss')).
  { clear - Hops. induction Hops as [|op ops Hop _ IH]; intros ss ms m0 Hsim Hlen.
    { exists [], m0, ss, ms. split; [done|constructor]. }
    rewrite filter_cons in Hlen.
    destruct (ring_exec_refines r m0 ss ms op Hsim Hop) as (x & m1 & ss1 & ms1 & He & Hs & Hsim1 & Hl1).
    { destruct (decide (is_publish op = true)); cbn in Hlen; lia. }
    destruct (IH ss1 ms1 m1 Hsim1) as (xs & m2 & ss2 & ms2 & He2 & Hs2).
    { destruct (decide (is_publish op = true)) as [E|E]; [rewrite E in Hl1; cbn in Hlen; lia|].
      apply not_true_is_false in E. rewrite E in Hl1. lia. }
    exists (x :: xs), m2, ss2, ms2. cbn [exec_all]. rewrite He, He2. split; [done|by econstructor]. }
  destruct (G ∅ [] m0 Hsim) as (xs & m & ss & ms & ? & Hs); [cbn; lia|].
  exists r, m0, xs, m, ss, ms. rewrite fmap_empty in Hs. by split_and!.
Qed.

Definition demo_desc (n : Z) : ChunkDesc := mkChunkDesc 1 0 (64 * n) 64 0 0.
Definition demo_ops : list ring_op :=
  [RSubscribe 0; RPublish (demo_desc 1); RPublish (demo_desc 2); RPublish (demo_desc 3); RReliable 0; RBackpressure; RRecv 0; RRecv 0].

Lemma ring_refines_broadcast_witness :
  exists r m0 xs m ss ms, init 4096 192 2 = Ok (r, m0) /\ attach 4096 192 m0 = Ok r /\
    exec_all r m0 ∅ demo_ops = Some (xs, m, ss) /\ spec_all 2 ([], ∅) demo_ops xs (ms, abs_sub <$> ss).
Proof.
  apply (ring_refines_broadcast 4096 192 2 demo_ops).
  - mach.
  - reflexivity.
  - reflexivity.
  - vm_compute. discriminate.
  - repeat constructor.
  - vm_compute. reflexivity.
Defined.
