(* ===== verification/RingConc.v ===== *)
(** * The ring under concurrency

    One publisher and any number of subscribers, their accesses interleaved
    arbitrarily.  [read_at] never faults, subscribers advance without gaps, and the
    theorem says exactly which descriptor a sample can carry; the last theorem is
    an execution in which it is not the one the sequence number names. *)

From S2P Require Import Prelude Atomic Pod ChunkDesc Ring.

(** ** Threads *)

(** Where a subscriber started, what it received, where it stands. *)
Definition outcome : Set := Z * list Msg * Z.

Fixpoint publisher (r : Ring) (ds : list ChunkDesc) : prog RingMem outcome :=
  match ds with
  | [] => Ret (0, [], 0)
  | d :: ds' => publish r d ;;; publisher r ds'
  end.

(** A subscriber, started at [c0], that polls [n] more times. *)
Fixpoint poller (r : Ring) (c0 : Z) (n : nat) (s : Subscriber) (got : list Msg) : prog RingMem outcome :=
  match n with
  | O => Ret (c0, got, cursor s)
  | S n' =>
      x <- try_recv r s ;;
      match x with
      | (Some msg, s') => poller r c0 n' s' (got ++ [msg])
      | (None, s') => poller r c0 n' s' got
      end
  end.

(** Subscribers are given by their starting sequence and number of polls. *)
Definition start (r : Ring) (ds : list ChunkDesc) (subs : list (Z * nat)) : list (prog RingMem outcome) :=
  publisher r ds :: ((fun x => poller r x.1 x.2 (mkSub x.1 None) []) <$> subs).

(** ** What may be delivered

    With [h] messages published, [good h c d]: [d] is message [c], or else the publisher
    has come a whole lap past [c], to message [c + capacity] at least, and [d] is that one,
    whose publication overlapped the read. *)
Section delivered.
Variables (cap : Z) (ds : list ChunkDesc).

Definition good (h c : Z) (d : ChunkDesc) : Prop :=
  c < h /\ (ds !! Z.to_nat c = Some d \/ (c + cap <= h /\ ds !! Z.to_nat (c + cap) = Some d)).

Lemma good_mono h h' c d : h <= h' -> good h c d -> good h' c d.
Proof. intros Hle [Hc [Hd|[Hl Hd]]]; (split; [lia|]); [by left|right; split; [lia|done]]. Qed.

(** [delivered h c msgs c']: with [h] messages published, a subscriber that started at [c]
    has received [msgs] and stands at [c'], each sample advancing it by one and each lag
    notice by exactly the number of messages it reports, to one the ring still holds. *)
Inductive delivered (h : Z) : Z -> list Msg -> Z -> Prop :=
| delivered_nil c : delivered h c [] c
| delivered_sample c d msgs c' :
    good h c d -> delivered h (c + 1) msgs c' -> delivered h c (Sample d :: msgs) c'
| delivered_lag c n msgs c' :
    0 <= n -> c + n + cap <= h -> delivered h (c + n) msgs c' ->
    delivered h c (Lagged n :: msgs) c'.

Lemma delivered_app h c msgs c' msgs' c'' :
  delivered h c msgs c' -> delivered h c' msgs' c'' -> delivered h c (msgs ++ msgs') c''.
Proof. induction 1; cbn; [done|..]; intros; econstructor; eauto. Qed.

Lemma delivered_mono h h' c msgs c' : h <= h' -> delivered h c msgs c' -> delivered h' c msgs c'.
Proof. intros Hle. induction 1; econstructor; eauto using good_mono; lia. Qed.

(** A subscriber less than a lap behind all the while gets the published sequence. *)
Lemma delivered_exact h c msgs c' : 0 <= c -> h < c + cap -> delivered h c msgs c' ->
  c' = c + Z.of_nat (length msgs) /\
  forall j msg, msgs !! j = Some msg -> exists d, msg = Sample d /\ ds !! (Z.to_nat c + j)%nat = Some d.
Proof.
  intros Hc Hh Hd. revert Hc Hh. induction Hd as [c|c d msgs c' [_ Hg] _ IH|c n msgs c' Hn Hl _ _]; intros Hc Hh; [|..|lia].
  - split; [cbn; lia|done].
  - destruct (IH ltac:(lia) ltac:(lia)) as [-> Hm]. split; [cbn [length]; lia|]. intros [|j] msg Hj.
    + injection Hj as <-. exists d. split; [done|]. rewrite Nat.add_0_r. destruct Hg as [Hg|[Hl _]]; [done|lia].
    + destruct (Hm j msg Hj) as (d' & -> & Hd'). exists d'. split; [done|]. rewrite <- Hd'. f_equal. lia.
Qed.
End delivered.

(** ** Ghost state *)

Inductive pphase : Set := Idle | WroteDesc | WroteSeq.

Inductive ghost : Set :=
| GPub (k : nat) (ph : pphase)
| GRead (b : Z)
| GHead (b c : Z)
| GSaw (b c : Z)
| GGot (b c : Z) (d : ChunkDesc) (q : Z)
| GLag (b c : Z).

(** How many messages a subscriber knows to be published. *)
Definition known (g : ghost) : Z :=
  match g with GPub _ _ => 0 | GRead b | GHead b _ | GSaw b _ | GGot b _ _ _ | GLag b _ => b end.

Section inv.
Variables (r : Ring) (ds : list ChunkDesc).
Local Abbreviation cap := (capacity r).

Definition msg_at (q : Z) : ChunkDesc := default ZERO (ds !! Z.to_nat q).

(** What a slot last written for sequence [q] holds; a negative [q] is a slot not
    yet written. *)
Definition base_slot (q : Z) : Slot :=
  if q <? 0 then mkSlot RELIABLE_UNUSED ZERO else mkSlot q (msg_at q).

Definition content (k : Z) (ph : pphase) (q : Z) : Slot :=
  if q =? k - cap then
    match ph with
    | Idle => base_slot q
    | WroteDesc => mkSlot (seq (base_slot q)) (msg_at k)
    | WroteSeq => mkSlot k (msg_at k)
    end
  else base_slot q.

Definition slots_hold (m : RingMem) (k : Z) (ph : pphase) : Prop :=
  forall q, k - cap <= q < k -> slots m !! slot_idx r q = Some (content k ph q).

(** What a subscriber's ghost state promises, when [k] messages are published. *)
Definition reader_ok (m : RingMem) (k : Z) (g : ghost) : Prop :=
  known g <= k /\
  match g with
  | GPub _ _ => False
  | GRead _ => True
  | GHead _ c => 0 <= c < k
  | GSaw _ c => 0 <= c < k /\ exists s, slots m !! slot_idx r c = Some s /\ c <= seq s <= k
  | GGot b c d q => 0 <= c < k /\ (q = c -> good cap ds b c d) /\
      exists s, slots m !! slot_idx r c = Some s /\ c <= q <= seq s /\ seq s <= k
  | GLag _ c => 0 <= c /\ c + cap <= k
  end.

Definition Inv (m : RingMem) (gs : list ghost) : Prop :=
  ring_geom r m /\ Z.of_nat (length ds) < U64_MAX /\
  exists k ph, gs !! 0%nat = Some (GPub k ph) /\ (k <= length ds)%nat /\
    (ph <> Idle -> (k < length ds)%nat) /\
    head m = Z.of_nat k /\ slots_hold m (Z.of_nat k) ph /\
    forall i g, gs !! S i = Some g -> reader_ok m (Z.of_nat k) g.

(** The slot of any sequence, by its representative in the current lap. *)
Lemma lap_rep m k c : ring_geom r m -> exists q, k - cap <= q < k /\ slot_idx r q = slot_idx r c.
Proof.
  intros Hg. pose proof (ring_geom_pos r m Hg) as Hpos.
  exists (k - cap + (c - (k - cap)) mod cap). pose proof (Z.mod_pos_bound (c - (k - cap)) cap Hpos). split; [lia|].
  rewrite !(slot_idx_mod r m _ Hg). f_equal.
  rewrite Z.add_mod_idemp_r by lia. f_equal. lia.
Qed.

Lemma seq_base q : seq (base_slot q) = if q <? 0 then RELIABLE_UNUSED else q.
Proof. unfold base_slot. by destruct (q <? 0). Qed.

(** A slot showing sequence [c], published and not past the head, holds message
    [c], or [c + capacity] while that one is being written. *)
Lemma content_desc m k ph c :
  ring_geom r m -> 0 <= c < k -> k < U64_MAX -> k <= Z.of_nat (length ds) -> (ph <> Idle -> k < Z.of_nat (length ds)) ->
  slots_hold m k ph ->
  exists s, slots m !! slot_idx r c = Some s /\ (seq s = c -> good cap ds k c (desc s)) /\
    (seq s <> c -> c + cap <= k) /\ (k - cap <= c -> c <= seq s <= k).
Proof.
  intros Hg Hc Hk Hlen Hph Hs. destruct (lap_rep m k c Hg) as (q & Hq & E).
  pose proof (ring_geom_pos r m Hg) as Hpos. rewrite <- E, (Hs q Hq). eexists. split; [done|].
  assert (Hmsg : forall p, 0 <= p < Z.of_nat (length ds) -> ds !! Z.to_nat p = Some (msg_at p)).
  { intros p Hp. unfold msg_at. destruct (lookup_lt_is_Some_2 ds (Z.to_nat p)) as [d ->]; [lia|done]. }
  assert (Hqc : k - cap <= c -> q = c) by (intros ?; apply (slot_idx_inj r m); [done|done|lia]).
  unfold content. destruct (Z.eqb_spec q (k - cap)) as [Eq|Hne].
  - destruct ph; cbn [seq desc]; rewrite ?seq_base; unfold base_slot, RELIABLE_UNUSED;
      destruct (Z.ltb_spec q 0) as [Hneg|Hpos']; cbn [seq desc].
    all: split_and!; try (intros; lia).
    + intros ->. split; [lia|]. left. by apply Hmsg; lia.
    + intros ->. split; [lia|]. right. split; [lia|]. rewrite Eq. replace (k - cap + cap) with k by lia. apply Hmsg. specialize (Hph ltac:(done)). lia.
  - unfold base_slot, RELIABLE_UNUSED. destruct (Z.ltb_spec q 0) as [Hneg|Hpos']; cbn [seq desc].
    all: split_and!; try (intros; lia).
    intros ->. split; [lia|]. left. apply Hmsg. lia.
Qed.

Lemma Inv_pub m gs k ph : gs !! 0%nat = Some (GPub k ph) -> Inv m gs ->
  ring_geom r m /\ Z.of_nat (length ds) < U64_MAX /\ (k <= length ds)%nat /\ (ph <> Idle -> (k < length ds)%nat) /\
  head m = Z.of_nat k /\ slots_hold m (Z.of_nat k) ph /\ forall i g, gs !! S i = Some g -> reader_ok m (Z.of_nat k) g.
Proof. intros Hg (? & ? & k' & ph' & Hg' & H). simplify_eq. by split_and!; try apply H. Qed.

(** A step of subscriber [S i] that changes no memory. *)
Lemma Inv_read m gs i g' :
  (S i < length gs)%nat -> Inv m gs ->
  (forall k, head m = Z.of_nat k -> reader_ok m (Z.of_nat k) g') -> Inv m (<[S i := g']> gs).
Proof.
  intros Hi (Hgeo & Hlen & k & ph & Hg0 & Hk & Hph & Hh & Hs & Hr) Hok.
  split_and!; [done|done|]. exists k, ph. rewrite list_lookup_insert_ne by done.
  split_and!; [done|done|done|done|done|]. intros j g Hj. destruct (decide (i = j)) as [->|Hne].
  - rewrite list_lookup_insert_eq in Hj by done. injection Hj as <-. by apply Hok.
  - rewrite list_lookup_insert_ne in Hj by congruence. by apply (Hr j).
Qed.

(** A step of the publisher. *)
Lemma Inv_write m gs m' k ph k' ph' :
  gs !! 0%nat = Some (GPub k ph) -> Inv m gs ->
  length (slots m') = length (slots m) -> (k' <= length ds)%nat -> (ph' <> Idle -> (k' < length ds)%nat) ->
  head m' = Z.of_nat k' -> slots_hold m' (Z.of_nat k') ph' ->
  (forall g, reader_ok m (Z.of_nat k) g -> reader_ok m' (Z.of_nat k') g) ->
  Inv m' (<[0%nat := GPub k' ph']> gs).
Proof.
  intros Hg HI El Hk' Hph' Hh' Hs' Hr'.
  destruct (Inv_pub m gs k ph Hg HI) as ((? & ? & Hgl) & Hlen & Hk & Hph & Hh & Hs & Hr).
  split_and!; [split_and!; [done|done|congruence]|done|]. exists k', ph'. split_and!; try done.
  - apply list_lookup_insert_eq. by eapply lookup_lt_Some.
  - intros i g Hi. rewrite list_lookup_insert_ne in Hi by done. by apply Hr', (Hr i).
Qed.

(** Rewriting slots only upwards keeps every subscriber's promise. *)
Lemma reader_ok_mono m m' k k' g :
  k <= k' ->
  (forall c s, 0 <= c < k -> slots m !! slot_idx r c = Some s ->
     exists s', slots m' !! slot_idx r c = Some s' /\ (seq s <= k -> seq s <= seq s' <= k')) ->
  reader_ok m k g -> reader_ok m' k' g.
Proof.
  intros Hk Hup [Hb Hg]. split; [lia|]. revert Hb Hg. destruct g as [? ?|b|b c|b c|b c d q|b c]; cbn [known]; intros Hb; try done; try lia.
  - intros (Hc & s & Hs & Hseq). destruct (Hup c s Hc Hs) as (s' & Hs' & Hm). split; [lia|].
    exists s'. split; [done|]. lia.
  - intros (Hc & Hg & s & Hs & Hq & Hle). destruct (Hup c s Hc Hs) as (s' & Hs' & Hm). split_and!; [lia|lia|done|].
    exists s'. split; [done|]. lia.
Qed.
End inv.

(** ** The publisher *)

Section publish.
Variables (r : Ring) (ds : list ChunkDesc).
Local Abbreviation cap := (capacity r).
Local Abbreviation WP := (wp (Inv r ds)).

Lemma content_idle k q : content r ds k Idle q = base_slot ds q.
Proof. unfold content. by destruct (q =? k - cap). Qed.

(** Overwriting the slot of [k], the oldest of its lap. *)
Lemma slots_hold_write m k ph ph' s' :
  ring_geom r m -> slots_hold r ds m k ph -> s' = content r ds k ph' (k - cap) ->
  slots_hold r ds (set_slots (<[slot_idx r k := s']> (slots m)) m) k ph'.
Proof.
  intros Hg Hs -> q Hq. pose proof (ring_geom_pos r m Hg). cbn.
  assert (E0 : slot_idx r k = slot_idx r (k - cap)).
  { rewrite <- (slot_idx_lap r m (k - cap) Hg). f_equal. lia. }
  rewrite E0. destruct (decide (q = k - cap)) as [->|Hne].
  - apply list_lookup_insert_eq. by apply slot_idx_lt.
  - rewrite list_lookup_insert_ne.
    + rewrite (Hs q Hq). unfold content. by rewrite (proj2 (Z.eqb_neq q (k - cap)) Hne).
    + intros E. apply Hne. apply (slot_idx_inj r m); [done|done|lia].
Qed.

Lemma oldest_slot m k ph : ring_geom r m -> slots_hold r ds m k ph ->
  slots m !! slot_idx r k = Some (content r ds k ph (k - cap)).
Proof.
  intros Hg Hs. pose proof (ring_geom_pos r m Hg). rewrite <- (Hs (k - cap)) by lia. f_equal.
  rewrite <- (slot_idx_lap r m (k - cap) Hg). f_equal. lia.
Qed.

Lemma content_at_oldest k ph : content r ds k ph (k - cap) =
  match ph with
  | Idle => base_slot ds (k - cap)
  | WroteDesc => mkSlot (seq (base_slot ds (k - cap))) (msg_at ds k)
  | WroteSeq => mkSlot k (msg_at ds k)
  end.
Proof. unfold content. by rewrite Z.eqb_refl. Qed.

Lemma wp_publish k d :
  ds !! k = Some d -> WP (publish r d) 0 (GPub k Idle) (fun _ g' => g' = GPub (S k) Idle).
Proof.
  intros Hd. pose proof (lookup_lt_Some _ _ _ Hd) as Hlt.
  assert (Hmsg : msg_at ds (Z.of_nat k) = d) by (unfold msg_at; by rewrite Nat2Z.id, Hd).
  unfold publish, load_head. cbn [pbind load act wp].
  intros m0 gs0 Hg0 HI0. exists (GPub k Idle). split; [by rewrite list_insert_id|].
  destruct (Inv_pub r ds m0 gs0 k Idle Hg0 HI0) as (_ & Hlen & _ & _ & -> & _). clear m0 gs0 Hg0 HI0.
  unfold write_desc, with_slot. cbn [pbind act wp]. intros m gs Hg HI.
  destruct (Inv_pub r ds m gs k Idle Hg HI) as (Hgeo & _ & _ & _ & Hh & Hs & _).
  rewrite (oldest_slot m _ Idle Hgeo Hs), content_at_oldest. cbn [fst snd]. exists (GPub k WroteDesc). split.
  { apply (Inv_write r ds m gs _ k Idle); try done; try lia; [cbn; by rewrite length_insert|..].
    - eapply slots_hold_write; [done|done|]. by rewrite content_at_oldest, Hmsg.
    - intros g. apply reader_ok_mono; [lia|]. intros c s Hc Hcs. cbn.
      destruct (decide (slot_idx r (Z.of_nat k) = slot_idx r c)) as [E|E].
      + rewrite E, list_lookup_insert_eq by (by eapply lookup_lt_Some). eexists. split; [done|].
        rewrite <- E, (oldest_slot m _ Idle Hgeo Hs), content_at_oldest in Hcs. injection Hcs as <-. cbn. lia.
      + rewrite list_lookup_insert_ne by done. exists s. split; [done|lia]. }
  clear m gs Hg HI Hgeo Hh Hs. unfold write_seq, with_slot. cbn [pbind act wp]. intros m gs Hg HI.
  destruct (Inv_pub r ds m gs k WroteDesc Hg HI) as (Hgeo & _ & _ & _ & Hh & Hs & _).
  rewrite (oldest_slot m _ WroteDesc Hgeo Hs), content_at_oldest. cbn [desc]. exists (GPub k WroteSeq). split.
  { apply (Inv_write r ds m gs _ k WroteDesc); try done; try lia; [cbn; by rewrite length_insert|..].
    - eapply slots_hold_write; [done|done|]. by rewrite content_at_oldest.
    - intros g. apply reader_ok_mono; [lia|]. intros c s Hc Hcs. cbn.
      destruct (decide (slot_idx r (Z.of_nat k) = slot_idx r c)) as [E|E].
      + rewrite E, list_lookup_insert_eq by (by eapply lookup_lt_Some). eexists. split; [done|]. cbn. lia.
      + rewrite list_lookup_insert_ne by done. exists s. split; [done|lia]. }
  clear m gs Hg HI Hgeo Hh Hs. cbn [pbind store act wp]. intros m gs Hg HI.
  destruct (Inv_pub r ds m gs k WroteSeq Hg HI) as (Hgeo & _ & _ & _ & Hh & Hs & _).
  exists (GPub (S k) Idle). split.
  { pose proof (ring_geom_pos r m Hgeo). rewrite wrap64_id by mach.
    apply (Inv_write r ds m gs _ k WroteSeq); try done; try lia; [cbn; lia|..].
    - intros q Hq. rewrite content_idle. change (slots (set_head (Z.of_nat k + 1) m)) with (slots m).
      destruct (decide (q = Z.of_nat k)) as [->|Hne].
      + rewrite (oldest_slot m _ WroteSeq Hgeo Hs), content_at_oldest. f_equal. unfold base_slot.
        by rewrite (proj2 (Z.ltb_ge (Z.of_nat k) 0)) by lia.
      + rewrite (Hs q) by lia. f_equal. unfold content. by rewrite (proj2 (Z.eqb_neq q _)) by lia.
    - intros g. apply reader_ok_mono; [lia|]. intros c s Hc Hcs. exists s. split; [done|lia]. }
  clear m gs Hg HI Hgeo Hh Hs. intros m gs Hg HI. exists (GPub (S k) Idle). split; [by rewrite list_insert_id|done].
Qed.

Lemma wp_publisher pre post :
  ds = pre ++ post ->
  WP (publisher r post) 0 (GPub (length pre) Idle) (fun o g => delivered cap ds (known g) o.1.1 o.1.2 o.2 /\ 0 <= o.1.1).
Proof.
  revert pre. induction post as [|d post IH]; intros pre E; [split; [constructor|done]|]. cbn [publisher]. apply wp_bind.
  eapply wp_mono; [|apply (wp_publish (length pre) d)].
  - intros _ g' ->. replace (S (length pre)) with (length (pre ++ [d])) by (rewrite length_app; cbn; lia).
    apply IH. by rewrite <- app_assoc.
  - by rewrite E, list_lookup_middle.
Qed.
End publish.

(** ** A subscriber *)

Section read.
Variables (r : Ring) (ds : list ChunkDesc).
Local Abbreviation cap := (capacity r).
Local Abbreviation WP := (wp (Inv r ds)).

Lemma Inv_reader m gs i g : gs !! S i = Some g -> Inv r ds m gs ->
  exists k ph, head m = Z.of_nat k /\ (k <= length ds)%nat /\ reader_ok r ds m (Z.of_nat k) g /\ ring_geom r m /\
    Z.of_nat (length ds) < U64_MAX /\ (ph <> Idle -> (k < length ds)%nat) /\ slots_hold r ds m (Z.of_nat k) ph.
Proof.
  intros Hg (Hgeo & Hlen & k & ph & Hg0 & Hk & Hph & Hh & Hs & Hr). exists k, ph. by split_and!; try apply (Hr i).
Qed.

(** Reading a slot leaves the memory as it is. *)
Lemma set_slots_id m i s : slots m !! i = Some s -> set_slots (<[i := s]> (slots m)) m = m.
Proof. intros H. rewrite list_insert_id by done. by destruct m. Qed.

(** The subscriber's state after a read at [c], which knew of [b0] messages before. *)
Definition read_post (b0 c : Z) (o : ReadOutcome) (g : ghost) : Prop :=
  exists b, g = GRead b /\ b0 <= b /\
  match o with
  | OSample d => good cap ds b c d
  | OLagged n c' => 0 <= n /\ c' = c + n /\ c' + cap <= b
  | OEmpty => True
  end.

Lemma wp_lag i b0 c : WP (lag_from_head r c) (S i) (GLag b0 c) (read_post b0 c).
Proof.
  unfold lag_from_head. cbn [pbind act wp]. intros m gs Hg HI.
  destruct (Inv_reader m gs i _ Hg HI) as (k & ph & Hh & Hk & (Hb & Hc & Hck) & _). cbn [known] in Hb. rewrite Hh.
  rewrite (proj2 (Z.ltb_ge _ _)) by lia. exists (GRead (Z.of_nat k)). split.
  - apply Inv_read; [by eapply lookup_lt_Some|done|]. intros k' Hk'. split; [cbn; lia|done].
  - exists (Z.of_nat k). split; [done|]. lia.
Qed.

Lemma read_post_mono b0 b1 c o g : b0 <= b1 -> read_post b1 c o g -> read_post b0 c o g.
Proof. intros Hb (b & -> & Hb' & Ho). exists b. split_and!; [done|lia|done]. Qed.

Lemma wp_read_at i b0 c : 0 <= c -> WP (read_at r c) (S i) (GRead b0) (read_post b0 c).
Proof.
  intros Hc. unfold read_at, load_head. cbn [pbind load act wp]. intros m0 gs0 Hg0 HI0.
  destruct (Inv_reader m0 gs0 i _ Hg0 HI0) as (h & ph0 & Hh0 & Hh & (Hb0 & _) & _). cbn [known] in Hb0. rewrite Hh0.
  pose proof (lookup_lt_Some _ _ _ Hg0) as Hi0.
  destruct (Z.leb_spec (Z.of_nat h) c) as [|Hlt].
  { exists (GRead b0). split; [by rewrite list_insert_id|]. by exists b0. }
  destruct (Z.ltb_spec cap (Z.of_nat h - c)) as [Hlap|Hnear].
  { exists (GRead (Z.of_nat h)). split; [apply Inv_read; [done|done|]; intros k Hk; split; [cbn; lia|done]|].
    exists (Z.of_nat h). split_and!; [done|done|lia|lia|lia]. }
  exists (GHead b0 c). split; [apply Inv_read; [done|done|]; intros k Hk; split; cbn; lia|].
  clear m0 gs0 Hg0 HI0 Hi0 Hh0 Hh Hlt Hnear h ph0 Hb0.
  (* first look at the sequence *)
  unfold read_seq at 1, with_slot at 1. cbn [pbind act wp]. intros m gs Hg HI.
  pose proof (lookup_lt_Some _ _ _ Hg) as Hi.
  destruct (Inv_reader m gs i _ Hg HI) as (k & ph & Hh & Hk & (Hb & Hck) & Hgeo & Hlen & Hph & Hs). cbn [known] in Hb.
  destruct (content_desc r ds m (Z.of_nat k) ph c Hgeo Hck ltac:(lia) ltac:(lia) ltac:(intros; specialize (Hph ltac:(done)); lia) Hs)
    as (s & Hcs & Hgood & Hlag & Hlap). rewrite Hcs, (set_slots_id m _ s Hcs).
  destruct (Z.eqb_spec (seq s) c) as [Eq|Hne]; cbn [negb].
  2:{ exists (GLag b0 c). split; [|apply wp_lag]. apply Inv_read; [done|done|].
      intros k' Hk'. replace k' with k by lia. split; [done|]. specialize (Hlag Hne). lia. }
  exists (GSaw b0 c). split.
  { apply Inv_read; [done|done|]. intros k' Hk'. replace k' with k by lia. split; [done|]. split; [done|]. exists s. split; [done|lia]. }
  clear m gs Hg HI Hi k ph Hh Hk Hck Hgeo Hlen Hph Hs s Hcs Hgood Hlag Hlap Eq Hb.
  (* the descriptor *)
  unfold read_desc at 1, with_slot at 1. cbn [pbind act wp]. intros m gs Hg HI.
  pose proof (lookup_lt_Some _ _ _ Hg) as Hi.
  destruct (Inv_reader m gs i _ Hg HI) as (k & ph & Hh & Hk & (Hb & Hck & s & Hcs & Hseq) & Hgeo & Hlen & Hph & Hs). cbn [known] in Hb.
  destruct (content_desc r ds m (Z.of_nat k) ph c Hgeo Hck ltac:(lia) ltac:(lia) ltac:(intros; specialize (Hph ltac:(done)); lia) Hs)
    as (s' & Hcs' & Hgood & _ & _). rewrite Hcs in Hcs'. injection Hcs' as <-. rewrite Hcs, (set_slots_id m _ s Hcs).
  exists (GGot (Z.of_nat k) c (desc s) (seq s)). split.
  { apply Inv_read; [done|done|]. intros k' Hk'. replace k' with k by lia. split; [done|]. split_and!; [lia|lia|done|]. exists s. split; [done|lia]. }
  generalize dependent (desc s). intros d _. generalize (seq s). intros q.
  revert Hb. generalize (Z.of_nat k). intros b Hb.
  clear m gs Hg HI Hi k ph Hh Hk Hck Hgeo Hlen Hph Hs s Hcs Hseq.
  (* second look at the sequence *)
  unfold read_seq, with_slot. cbn [pbind act wp]. intros m gs Hg HI.
  pose proof (lookup_lt_Some _ _ _ Hg) as Hi.
  destruct (Inv_reader m gs i _ Hg HI) as (k & ph & Hh & Hk & (Hbk & Hck & Hgd & s & Hcs & Hq & Hle) & Hgeo & Hlen & Hph & Hs). cbn [known] in Hbk.
  destruct (content_desc r ds m (Z.of_nat k) ph c Hgeo Hck ltac:(lia) ltac:(lia) ltac:(intros; specialize (Hph ltac:(done)); lia) Hs)
    as (s' & Hcs' & _ & Hlag & _). rewrite Hcs in Hcs'. injection Hcs' as <-. rewrite Hcs, (set_slots_id m _ s Hcs).
  destruct (Z.eqb_spec (seq s) c) as [Eq|Hne]; cbn [negb].
  - exists (GRead b). split; [apply Inv_read; [done|done|]; intros k' Hk'; split; [cbn; lia|done]|]. exists b. split_and!; [done|done|]. apply Hgd. lia.
  - exists (GLag b c). split; [|eapply wp_mono; [|apply wp_lag]; intros; by eapply read_post_mono]. apply Inv_read; [done|done|].
    intros k' Hk'. replace k' with k by lia. split; [done|]. specialize (Hlag Hne). lia.
Qed.

Lemma wp_poller i n s got b c0 :
  s_reliable s = None -> 0 <= cursor s -> delivered cap ds b c0 got (cursor s) -> 0 <= c0 ->
  WP (poller r c0 n s got) (S i) (GRead b) (fun o g => delivered cap ds (known g) o.1.1 o.1.2 o.2 /\ 0 <= o.1.1).
Proof.
  intros Hr Hc Hd H0. revert s got b Hr Hc Hd. induction n as [|n IH]; intros s got b Hr Hc Hd; [done|].
  cbn [poller]. apply wp_bind. unfold try_recv. apply wp_bind.
  eapply wp_mono; [|by apply wp_read_at]. intros o g' (b' & -> & Hb & Hpost). apply (delivered_mono _ _ _ b') in Hd; [|done].
  destruct o as [d|k c'|]; cbn [sync_reliable s_reliable]; rewrite ?Hr; cbn [pbind wp].
  - apply IH; [done|cbn; lia|]. eapply delivered_app; [exact Hd|]. cbn. constructor; [done|]. constructor.
  - destruct Hpost as (Hk & -> & Hle). apply IH; [done|cbn; lia|]. eapply delivered_app; [exact Hd|].
    cbn. constructor; [done|lia|]. constructor.
  - by apply IH.
Qed.
End read.

(** ** Properties *)

Lemma ring_Inv_start base region_len r m ds (subs : list (Z * nat)) cap :
  0 < cap < U32_MOD -> init base region_len cap = Ok (r, m) -> Z.of_nat (length ds) < U64_MAX ->
  capacity r = cap /\ Inv r ds m (GPub 0 Idle :: ((fun _ => GRead 0) <$> subs)).
Proof.
  intros Hc Hinit Hlen. unfold init in Hinit. destruct (Z.eqb_spec cap 0); [lia|]. cbn [orb] in Hinit.
  destruct (is_power_of_two cap) eqn:Hp; [|done]. cbn [negb] in Hinit. destruct (base mod 8 =? 0); [|done]. cbn [negb] in Hinit. cbn zeta in Hinit.
  destruct (region_len <? required_bytes cap); [done|]. injection Hinit as <- <-. split; [done|].
  assert (Hgeo : ring_geom (mkRing cap (cap - 1)) (mkRingMem RING_MAGIC cap (cap - 1) 0 0 0
    (replicate MAX_RELIABLE RELIABLE_UNUSED) (replicate (Z.to_nat cap) (mkSlot RELIABLE_UNUSED ZERO)))).
  { split_and!; cbn; [apply power_of_two_pow; [mach|done]|done|by rewrite length_replicate]. }
  split_and!; [done|done|]. exists 0%nat, Idle. split_and!; [done|lia|done|done| |].
  - intros q Hq. rewrite content_idle. cbn [slots]. unfold base_slot. rewrite (proj2 (Z.ltb_lt q 0)) by lia.
    apply lookup_replicate. split; [done|]. pose proof (slot_idx_lt _ _ q Hgeo) as Hlt. cbn [slots] in Hlt. by rewrite length_replicate in Hlt.
  - intros i g Hi. csimpl in Hi. rewrite list_lookup_fmap in Hi. destruct (subs !! i); [|done]. cbn in Hi. injection Hi as <-. by split.
Qed.


(** A lap in progress. *)
Definition demo_msgs : list ChunkDesc := [mkChunkDesc 1 0 64 64 0 0; mkChunkDesc 1 0 128 64 0 0; mkChunkDesc 1 0 192 64 0 0].
Definition demo_ring : Ring := mkRing 2 1.
Definition demo_mem : RingMem :=
  mkRingMem RING_MAGIC 2 1 0 0 0 (replicate MAX_RELIABLE RELIABLE_UNUSED) (replicate 2 (mkSlot RELIABLE_UNUSED ZERO)).


(** C16. [publish] writes the new descriptor before it moves the slot's sequence,
    so a subscriber exactly one lap behind can pass both sequence checks around a
    descriptor that belongs to the next lap.  Here it receives message 2 as
    sequence 0, then 1, then 2 again: message 0 is lost, message 2 is delivered
    twice, and no lag is reported. *)
Theorem lapped_read_delivers_wrong_message :
  exists sched m,
    pool_run sched (start demo_ring demo_msgs [(0, 3%nat)], demo_mem) =
      Some (Ret <$> [(0, [], 0); (0, [Sample (mkChunkDesc 1 0 192 64 0 0); Sample (mkChunkDesc 1 0 128 64 0 0);
                                     Sample (mkChunkDesc 1 0 192 64 0 0)], 3)], m).
Proof.
  exists (replicate 10 0%nat ++ [0; 0; 1; 1; 1; 1; 0; 0; 0]%nat ++ replicate 8 1%nat).
  exists (mkRingMem RING_MAGIC 2 1 3 0 0 (replicate MAX_RELIABLE RELIABLE_UNUSED)
    [mkSlot 2 (mkChunkDesc 1 0 192 64 0 0); mkSlot 1 (mkChunkDesc 1 0 128 64 0 0)]).
  vm_compute. reflexivity.
Qed.
