(* ===== verification/Protocol.v ===== *)
(** * The control protocol

    [src/crates/shm-runtime/src/protocol.rs]: the hand-rolled binary encoding of
    the requests and responses actors and the coordinator exchange, and the
    length-prefixed frames of [src/crates/shm-runtime/src/uds.rs].

    A Rust [String] is its list of UTF-8 bytes; [Error::Protocol]'s static messages
    are constructors. *)

From S2P Require Import Prelude ChunkDesc.

Inductive ProtoError : Set :=
| ShortU8 | ShortU32 | ShortStrLen | ShortStrBody | InvalidUtf8
| ShortBytesLen | ShortBytesBody | ShortDesc
| UnknownRequestTag | UnknownResponseTag
| FrameTooShort | FrameLength | PeerClosed.

(** ** UTF-8 ([String::from_utf8]) *)

Definition cont (b : Z) : bool := (128 <=? b) && (b <=? 191).
Definition between (lo b hi : Z) : bool := (lo <=? b) && (b <=? hi).

(** Well-formed byte sequences: one to four bytes per scalar value, no overlong
    forms, no surrogates, nothing above U+10FFFF. *)
Fixpoint utf8_valid (s : list Z) : bool :=
  match s with
  | [] => true
  | b0 :: s1 =>
      if between 0 b0 127 then utf8_valid s1
      else if between 194 b0 223 then
        match s1 with b1 :: s2 => cont b1 && utf8_valid s2 | _ => false end
      else if between 224 b0 239 then
        match s1 with
        | b1 :: b2 :: s3 =>
            (if b0 =? 224 then between 160 b1 191
             else if b0 =? 237 then between 128 b1 159 else cont b1) && cont b2 && utf8_valid s3
        | _ => false
        end
      else if between 240 b0 244 then
        match s1 with
        | b1 :: b2 :: b3 :: s4 =>
            (if b0 =? 240 then between 144 b1 191
             else if b0 =? 244 then between 128 b1 143 else cont b1) && cont b2 && cont b3 && utf8_valid s4
        | _ => false
        end
      else false
  end.

(** ** Messages *)

Definition string_t : Set := list Z.
Definition bytes_t : Set := list Z.

Definition REGISTER : Z := 1.
Definition HEARTBEAT : Z := 2.
Definition CREATE_TOPIC : Z := 3.
Definition SUBSCRIBE : Z := 4.
Definition PUBLISHED : Z := 5.
Definition PINNED : Z := 6.
Definition BYE : Z := 7.
Definition OPEN_ARTIFACT : Z := 8.
Definition OPEN_TASK_QUEUE : Z := 9.
Definition INTERN_SCHEMA : Z := 10.
Definition RESOLVE_SCHEMA : Z := 11.
Definition INTERN_KEY : Z := 12.
Definition RESOLVE_KEY : Z := 13.
Definition OPEN_STORE : Z := 14.

Definition REGISTERED : Z := 128.
Definition GRANTED : Z := 129.
Definition ACK : Z := 130.
Definition ERROR : Z := 131.
Definition ARTIFACT_GRANTED : Z := 132.
Definition TASK_QUEUE_GRANTED : Z := 133.
Definition SCHEMA_INTERNED : Z := 134.
Definition SCHEMA_RESOLVED : Z := 135.
Definition KEY_INTERNED : Z := 136.
Definition KEY_RESOLVED : Z := 137.
Definition STORE_GRANTED : Z := 138.

Inductive Request : Set :=
| Register (name : string_t)
| Heartbeat
| CreateTopic (topic : string_t)
| Subscribe (topic : string_t)
| Published (d : ChunkDesc)
| Pinned (d : ChunkDesc)
| Bye
| OpenArtifact (name : string_t)
| OpenTaskQueue
| InternSchema (schema_bytes : bytes_t)
| ResolveSchema (schema_id : Z)
| InternKey (key_bytes : bytes_t)
| ResolveKey (key_id : Z)
| OpenStore.

Inductive Response : Set :=
| Registered (actor_id journal_idx payload_seg_id journal_seg_id : Z)
| Granted (ring_seg_id region_len : Z)
| Ack
| RError (message : string_t)
| ArtifactGranted (name_id head_seg_id data_seg_id : Z)
| TaskQueueGranted (queue_seg_id region_len : Z)
| SchemaInterned (schema_id : Z)
| SchemaResolved (schema_bytes : bytes_t)
| KeyInterned (key_id : Z)
| KeyResolved (key_bytes : bytes_t)
| StoreGranted (catalog_seg_id catalog_len head_seg_id head_len data_seg_id data_len : Z).

Definition response_fd_count (resp : Response) : nat :=
  match resp with
  | Registered _ _ _ _ => 2
  | Granted _ _ => 2
  | ArtifactGranted _ _ _ => 2
  | TaskQueueGranted _ _ => 5
  | StoreGranted _ _ _ _ _ _ => 3
  | _ => 0
  end.

(** ** Encoding *)

Definition put_u32 (v : Z) : list Z := le_bytes 4 v.

(** [u16::try_from(len).unwrap_or(u16::MAX)]: longer strings are cut. *)
Definition put_str (s : string_t) : list Z :=
  let n := Z.of_nat (length s) in
  let len := if n <? U16_MOD then n else U16_MOD - 1 in
  le_bytes 2 len ++ take (Z.to_nat len) s.

Definition put_bytes (b : bytes_t) : list Z :=
  let n := Z.of_nat (length b) in
  let len := if n <? U32_MOD then n else U32_MAX in
  le_bytes 4 len ++ take (Z.to_nat len) b.

Definition desc_bytes (d : ChunkDesc) : list Z :=
  le_bytes 4 (segment_id d) ++ le_bytes 4 (generation d) ++ le_bytes 4 (offset d) ++
  le_bytes 4 (len d) ++ le_bytes 4 (schema_id d) ++ le_bytes 4 (pad d).

Definition put_desc (d : ChunkDesc) : list Z := desc_bytes d.

Definition encode_request (q : Request) : list Z :=
  match q with
  | Register name => REGISTER :: put_str name
  | Heartbeat => [HEARTBEAT]
  | CreateTopic topic => CREATE_TOPIC :: put_str topic
  | Subscribe topic => SUBSCRIBE :: put_str topic
  | Published d => PUBLISHED :: put_desc d
  | Pinned d => PINNED :: put_desc d
  | Bye => [BYE]
  | OpenArtifact name => OPEN_ARTIFACT :: put_str name
  | OpenTaskQueue => [OPEN_TASK_QUEUE]
  | InternSchema b => INTERN_SCHEMA :: put_bytes b
  | ResolveSchema i => RESOLVE_SCHEMA :: put_u32 i
  | InternKey b => INTERN_KEY :: put_bytes b
  | ResolveKey i => RESOLVE_KEY :: put_u32 i
  | OpenStore => [OPEN_STORE]
  end.

Definition encode_response (p : Response) : list Z :=
  match p with
  | Registered a b c d => REGISTERED :: put_u32 a ++ put_u32 b ++ put_u32 c ++ put_u32 d
  | Granted a b => GRANTED :: put_u32 a ++ put_u32 b
  | Ack => [ACK]
  | RError s => ERROR :: put_str s
  | ArtifactGranted a b c => ARTIFACT_GRANTED :: put_u32 a ++ put_u32 b ++ put_u32 c
  | TaskQueueGranted a b => TASK_QUEUE_GRANTED :: put_u32 a ++ put_u32 b
  | SchemaInterned a => SCHEMA_INTERNED :: put_u32 a
  | SchemaResolved b => SCHEMA_RESOLVED :: put_bytes b
  | KeyInterned a => KEY_INTERNED :: put_u32 a
  | KeyResolved b => KEY_RESOLVED :: put_bytes b
  | StoreGranted a b c d e f =>
      STORE_GRANTED :: put_u32 a ++ put_u32 b ++ put_u32 c ++ put_u32 d ++ put_u32 e ++ put_u32 f
  end.

(** ** The reader *)

Record Reader : Set := mkReader { buf : list Z; pos : nat }.

Definition parser (A : Set) : Set := Reader -> result ProtoError (A * Reader).

Definition r_ret {A : Set} (a : A) : parser A := fun r => Ok (a, r).
Definition r_fail {A : Set} (e : ProtoError) : parser A := fun _ => Err e.
Definition r_bind {A B : Set} (p : parser A) (k : A -> parser B) : parser B :=
  fun r => let? (a, r') := p r in k a r'.

Declare Scope parser_scope.
Notation "x <- p ;; k" := (r_bind p (fun x => k))
  (at level 100, p at next level, k at level 200, right associativity) : parser_scope.
Open Scope parser_scope.

(** [self.buf.get(self.pos..self.pos + n).ok_or(e)?], advancing the position. *)
Definition r_take (n : nat) (e : ProtoError) : parser (list Z) := fun r =>
  let? s := ok_or (slice_get (buf r) (pos r) (pos r + n)) e in
  Ok (s, mkReader (buf r) (pos r + n)).

Definition r_u8 : parser Z := fun r =>
  let? b := ok_or (buf r !! pos r) ShortU8 in
  Ok (b, mkReader (buf r) (pos r + 1)).

Definition r_u32 : parser Z := s <- r_take 4 ShortU32 ;; r_ret (of_le s).

Definition r_string : parser string_t :=
  lenb <- r_take 2 ShortStrLen ;;
  s <- r_take (Z.to_nat (of_le lenb)) ShortStrBody ;;
  if utf8_valid s then r_ret s else r_fail InvalidUtf8.

Definition r_bytes : parser bytes_t :=
  lenb <- r_take 4 ShortBytesLen ;;
  r_take (Z.to_nat (of_le lenb)) ShortBytesBody.

Definition sub4 (b : list Z) (i : nat) : Z := of_le (take 4 (drop i b)).

Definition r_desc : parser ChunkDesc :=
  b <- r_take 24 ShortDesc ;;
  r_ret (mkChunkDesc (sub4 b 0) (sub4 b 4) (sub4 b 8) (sub4 b 12) (sub4 b 16) (sub4 b 20)).

Definition p_request : parser Request :=
  tag <- r_u8 ;;
  if tag =? REGISTER then s <- r_string ;; r_ret (Register s)
  else if tag =? HEARTBEAT then r_ret Heartbeat
  else if tag =? CREATE_TOPIC then s <- r_string ;; r_ret (CreateTopic s)
  else if tag =? SUBSCRIBE then s <- r_string ;; r_ret (Subscribe s)
  else if tag =? PUBLISHED then d <- r_desc ;; r_ret (Published d)
  else if tag =? PINNED then d <- r_desc ;; r_ret (Pinned d)
  else if tag =? BYE then r_ret Bye
  else if tag =? OPEN_ARTIFACT then s <- r_string ;; r_ret (OpenArtifact s)
  else if tag =? OPEN_TASK_QUEUE then r_ret OpenTaskQueue
  else if tag =? INTERN_SCHEMA then b <- r_bytes ;; r_ret (InternSchema b)
  else if tag =? RESOLVE_SCHEMA then i <- r_u32 ;; r_ret (ResolveSchema i)
  else if tag =? INTERN_KEY then b <- r_bytes ;; r_ret (InternKey b)
  else if tag =? RESOLVE_KEY then i <- r_u32 ;; r_ret (ResolveKey i)
  else if tag =? OPEN_STORE then r_ret OpenStore
  else r_fail UnknownRequestTag.

Definition decode_request (body : list Z) : result ProtoError Request :=
  let? (q, _) := p_request (mkReader body 0) in Ok q.

Definition p_response : parser Response :=
  tag <- r_u8 ;;
  if tag =? REGISTERED then
    a <- r_u32 ;; b <- r_u32 ;; c <- r_u32 ;; d <- r_u32 ;; r_ret (Registered a b c d)
  else if tag =? GRANTED then a <- r_u32 ;; b <- r_u32 ;; r_ret (Granted a b)
  else if tag =? ACK then r_ret Ack
  else if tag =? ERROR then s <- r_string ;; r_ret (RError s)
  else if tag =? ARTIFACT_GRANTED then
    a <- r_u32 ;; b <- r_u32 ;; c <- r_u32 ;; r_ret (ArtifactGranted a b c)
  else if tag =? TASK_QUEUE_GRANTED then a <- r_u32 ;; b <- r_u32 ;; r_ret (TaskQueueGranted a b)
  else if tag =? SCHEMA_INTERNED then a <- r_u32 ;; r_ret (SchemaInterned a)
  else if tag =? SCHEMA_RESOLVED then b <- r_bytes ;; r_ret (SchemaResolved b)
  else if tag =? KEY_INTERNED then a <- r_u32 ;; r_ret (KeyInterned a)
  else if tag =? KEY_RESOLVED then b <- r_bytes ;; r_ret (KeyResolved b)
  else if tag =? STORE_GRANTED then
    a <- r_u32 ;; b <- r_u32 ;; c <- r_u32 ;; d <- r_u32 ;; e <- r_u32 ;; f <- r_u32 ;;
    r_ret (StoreGranted a b c d e f)
  else r_fail UnknownResponseTag.

Definition decode_response (body : list Z) : result ProtoError Response :=
  let? (p, _) := p_response (mkReader body 0) in Ok p.

(** ** Frames *)

Definition MAX_FRAME : Z := 64 * 1024.

(** The bytes [send_frame] hands to [sendmsg]; [None] is the [assert!]. *)
Definition send_frame (body : list Z) : option (list Z) :=
  if Z.of_nat (length body) <=? MAX_FRAME then Some (le_bytes 4 (wrap32 (Z.of_nat (length body))) ++ body)
  else None.

(** [recv_frame] on the bytes one [recvmsg] call delivered. *)
Definition recv_frame (got : list Z) : result ProtoError (list Z) :=
  let n := length got in
  if (n =? 0)%nat then Err PeerClosed
  else if (n <? 4)%nat then Err FrameTooShort
  else
    let body_len := of_le (take 4 got) in
    if (MAX_FRAME <? body_len) || (Z.of_nat n <? 4 + body_len) then Err FrameLength
    else Ok (take (Z.to_nat body_len) (drop 4 got)).

(** ** Reading what was written *)

(** [reads p bs x]: wherever [bs] sits in a buffer, [p] reads it as [x] and stops
    right after it. *)
Definition reads {A : Set} (p : parser A) (bs : list Z) (x : A) : Prop :=
  forall pre rest,
    p (mkReader (pre ++ bs ++ rest) (length pre)) =
      Ok (x, mkReader (pre ++ bs ++ rest) (length pre + length bs)).

Lemma reads_ret {A : Set} (a : A) : reads (r_ret a) [] a.
Proof. intros pre rest. unfold r_ret. cbn. by rewrite Nat.add_0_r. Qed.

Lemma reads_bind {A B : Set} (p : parser A) (k : A -> parser B) bs1 bs2 x y :
  reads p bs1 x -> reads (k x) bs2 y -> reads (r_bind p k) (bs1 ++ bs2) y.
Proof.
  intros H1 H2 pre rest. unfold r_bind. rewrite <- app_assoc, (H1 pre (bs2 ++ rest)). cbn [rbind].
  specialize (H2 (pre ++ bs1) rest). rewrite <- app_assoc, length_app in H2. rewrite H2.
  rewrite length_app. do 3 f_equal. lia.
Qed.

Lemma reads_then {A B : Set} (p : parser A) (f : A -> B) bs x : reads p bs x -> reads (r_bind p (fun a => r_ret (f a))) bs (f x).
Proof. intros H. rewrite <- (app_nil_r bs). eapply reads_bind; [exact H|apply reads_ret]. Qed.

Lemma reads_take n e bs : length bs = n -> reads (r_take n e) bs bs.
Proof. intros <- pre rest. unfold r_take. cbn [buf pos]. by rewrite slice_get_app. Qed.

Lemma reads_u8 b : reads r_u8 [b] b.
Proof. intros pre rest. unfold r_u8. cbn [buf pos app]. by rewrite list_lookup_middle. Qed.

Lemma reads_u32 v : is_u32 v -> reads r_u32 (put_u32 v) v.
Proof.
  intros Hv. unfold put_u32. rewrite <- (of_le_u32 v Hv) at 2.
  apply (reads_then _ of_le), reads_take, length_le_bytes.
Qed.

(** What a string and a blob must satisfy to travel whole. *)
Definition str_wf (s : string_t) : Prop := Z.of_nat (length s) < U16_MOD /\ utf8_valid s = true.
Definition bytes_wf (b : bytes_t) : Prop := Z.of_nat (length b) < U32_MOD.

Lemma put_str_whole s : Z.of_nat (length s) < U16_MOD -> put_str s = le_bytes 2 (Z.of_nat (length s)) ++ s.
Proof. intros Hs. unfold put_str. rewrite (proj2 (Z.ltb_lt _ _)) by done. by rewrite Nat2Z.id, firstn_all. Qed.

Lemma put_bytes_whole b : bytes_wf b -> put_bytes b = le_bytes 4 (Z.of_nat (length b)) ++ b.
Proof. intros Hb. unfold put_bytes. rewrite (proj2 (Z.ltb_lt _ _)) by done. by rewrite Nat2Z.id, firstn_all. Qed.

Lemma reads_string s : str_wf s -> reads r_string (put_str s) s.
Proof.
  intros [Hs Hu]. rewrite put_str_whole by done. unfold r_string.
  eapply reads_bind; [apply reads_take, length_le_bytes|]. cbv beta.
  rewrite of_le_u16 by mach. rewrite <- (app_nil_r s).
  eapply reads_bind; [apply reads_take; rewrite app_nil_r; lia|]. rewrite app_nil_r, Hu. apply reads_ret.
Qed.

Lemma reads_bytes b : bytes_wf b -> reads r_bytes (put_bytes b) b.
Proof.
  intros Hb. rewrite put_bytes_whole by done. unfold r_bytes, bytes_wf in *.
  eapply reads_bind; [apply reads_take, length_le_bytes|]. cbv beta.
  rewrite of_le_u32 by mach. apply reads_take. lia.
Qed.

Lemma take_le_bytes n x rest : take n (le_bytes n x ++ rest) = le_bytes n x.
Proof. rewrite take_app_length'; [done|]. symmetry. apply length_le_bytes. Qed.

Lemma reads_desc d : desc_wf d -> reads r_desc (put_desc d) d.
Proof.
  intros (H1 & H2 & H3 & H4 & H5 & H6). unfold r_desc, put_desc.
  replace d with (mkChunkDesc (sub4 (desc_bytes d) 0) (sub4 (desc_bytes d) 4) (sub4 (desc_bytes d) 8)
    (sub4 (desc_bytes d) 12) (sub4 (desc_bytes d) 16) (sub4 (desc_bytes d) 20)) at 2.
  - apply (reads_then _ (fun b => mkChunkDesc (sub4 b 0) (sub4 b 4) (sub4 b 8) (sub4 b 12) (sub4 b 16) (sub4 b 20))).
    apply reads_take. done.
  - destruct d as [a b c e f g]. cbn [segment_id generation offset len schema_id pad] in *.
    assert (D : forall n x rest, drop (4 + n) (le_bytes 4 x ++ rest) = drop n rest).
    { intros n x rest. rewrite drop_app_ge by (rewrite length_le_bytes; lia). f_equal. rewrite length_le_bytes. lia. }
    assert (T : forall x rest, is_u32 x -> of_le (take 4 (drop 0 (le_bytes 4 x ++ rest))) = x).
    { intros x rest Hx. rewrite drop_0, take_le_bytes. by apply of_le_u32. }
    unfold sub4, desc_bytes. cbn [segment_id generation offset len schema_id pad].
    rewrite T by done. rewrite (D 0%nat a), T by done.
    rewrite (D 4%nat a), (D 0%nat b), T by done. rewrite (D 8%nat a), (D 4%nat b), (D 0%nat c), T by done.
    rewrite (D 12%nat a), (D 8%nat b), (D 4%nat c), (D 0%nat e), T by done.
    rewrite (D 16%nat a), (D 12%nat b), (D 8%nat c), (D 4%nat e), (D 0%nat f), <- (app_nil_r (le_bytes 4 g)), T by done.
    done.
Qed.

(** ** Well-formed messages *)

Definition request_wf (q : Request) : Prop :=
  match q with
  | Register s | CreateTopic s | Subscribe s | OpenArtifact s => str_wf s
  | Published d | Pinned d => desc_wf d
  | InternSchema b | InternKey b => bytes_wf b
  | ResolveSchema i | ResolveKey i => is_u32 i
  | Heartbeat | Bye | OpenTaskQueue | OpenStore => True
  end.

Definition response_wf (p : Response) : Prop :=
  match p with
  | Registered a b c d => is_u32 a /\ is_u32 b /\ is_u32 c /\ is_u32 d
  | Granted a b | TaskQueueGranted a b => is_u32 a /\ is_u32 b
  | Ack => True
  | RError s => str_wf s
  | ArtifactGranted a b c => is_u32 a /\ is_u32 b /\ is_u32 c
  | SchemaInterned a | KeyInterned a => is_u32 a
  | SchemaResolved b | KeyResolved b => bytes_wf b
  | StoreGranted a b c d e f => is_u32 a /\ is_u32 b /\ is_u32 c /\ is_u32 d /\ is_u32 e /\ is_u32 f
  end.

(** One field, then the next. *)
Ltac read_fields :=
  repeat first
    [ apply reads_ret
    | apply reads_u32; tauto
    | apply reads_string; assumption
    | apply reads_bytes; assumption
    | apply reads_desc; assumption
    | apply reads_then
    | eapply reads_bind ].

Lemma reads_request q : request_wf q -> reads p_request (encode_request q) q.
Proof.
  intros Hq. destruct q; cbn [encode_request request_wf] in *;
    match goal with |- reads _ (?t :: ?bs) _ => change (t :: bs) with ([t] ++ bs) end;
    (eapply reads_bind; [apply reads_u8|]); cbv beta; cbn [Z.eqb REGISTER HEARTBEAT CREATE_TOPIC
      SUBSCRIBE PUBLISHED PINNED BYE OPEN_ARTIFACT OPEN_TASK_QUEUE INTERN_SCHEMA RESOLVE_SCHEMA INTERN_KEY
      RESOLVE_KEY OPEN_STORE Pos.eqb]; read_fields.
Qed.

Lemma reads_response p : response_wf p -> reads p_response (encode_response p) p.
Proof.
  intros Hp. destruct p; cbn [encode_response response_wf] in *;
    match goal with |- reads _ (?t :: ?bs) _ => change (t :: bs) with ([t] ++ bs) end;
    (eapply reads_bind; [apply reads_u8|]); cbv beta; cbn [Z.eqb REGISTERED GRANTED ACK ERROR ARTIFACT_GRANTED
      TASK_QUEUE_GRANTED SCHEMA_INTERNED SCHEMA_RESOLVED KEY_INTERNED KEY_RESOLVED STORE_GRANTED Pos.eqb]; read_fields.
Qed.

Lemma decode_reads {A : Set} (p : parser A) bs rest x :
  reads p bs x -> (let? (a, _) := p (mkReader (bs ++ rest) 0) in Ok a) = Ok x.
Proof. intros H. pose proof (H [] rest) as E. cbn [app length] in E. by rewrite E. Qed.

(** ** Everything accepted was written *)

(** [accepts p enc wf]: whatever [p] accepts starts with the encoding of a
    well-formed value, and [p] returns that value. *)
Definition accepts {A : Set} (p : parser A) (enc : A -> list Z) (wf : A -> Prop) : Prop :=
  forall pre t x r', Forall is_u8 t -> p (mkReader (pre ++ t) (length pre)) = Ok (x, r') ->
    exists t', t = enc x ++ t' /\ r' = mkReader ((pre ++ enc x) ++ t') (length (pre ++ enc x)) /\ wf x.

Lemma accepts_step {A B : Set} (p : parser A) enc wf (k : A -> parser B) pre t y r' :
  accepts p enc wf -> Forall is_u8 t -> r_bind p k (mkReader (pre ++ t) (length pre)) = Ok (y, r') ->
  exists x t', t = enc x ++ t' /\ wf x /\ Forall is_u8 t' /\
    k x (mkReader ((pre ++ enc x) ++ t') (length (pre ++ enc x))) = Ok (y, r').
Proof.
  intros Hp Ht. unfold r_bind. intros E. apply rbind_Ok in E as ([x r1] & E1 & E2).
  destruct (Hp pre t x r1 Ht E1) as (t' & -> & -> & Hx). apply Forall_app in Ht as [_ Ht].
  by exists x, t'.
Qed.

Lemma take_accepts n e pre t s r' :
  r_take n e (mkReader (pre ++ t) (length pre)) = Ok (s, r') ->
  exists t', t = s ++ t' /\ length s = n /\ r' = mkReader ((pre ++ s) ++ t') (length (pre ++ s)).
Proof.
  unfold r_take. cbn [buf pos]. unfold slice_get. case_decide as Hn; [|done].
  cbn. intros [= <- <-]. rewrite drop_app_length. rewrite length_app in Hn.
  replace (length pre + n - length pre)%nat with n by lia.
  exists (drop n t). rewrite take_drop. split; [done|]. rewrite length_take. split; [lia|].
  rewrite <- app_assoc, take_drop, length_app, length_take. do 2 f_equal. lia.
Qed.

Lemma accepts_u8 : accepts r_u8 (fun b => [b]) is_u8.
Proof.
  intros pre t x r' Ht. unfold r_u8. cbn [buf pos]. destruct t as [|b t].
  - rewrite lookup_ge_None_2; [done|]. rewrite length_app. cbn. lia.
  - rewrite list_lookup_middle by done. cbn. intros [= <- <-]. exists t. split; [done|].
    apply list.Forall_cons in Ht as [Hb _]. split; [|done]. rewrite <- app_assoc, length_app. done.
Qed.

Lemma accepts_u32 : accepts r_u32 put_u32 is_u32.
Proof.
  intros pre t x r' Ht E. unfold r_u32 in E. apply rbind_Ok in E as ([s r1] & E1 & E2).
  apply take_accepts in E1 as (t' & -> & Hl & ->). injection E2 as <- <-.
  apply Forall_app in Ht as [Hs _]. exists t'. unfold put_u32.
  rewrite <- Hl, le_bytes_of_le by done. split_and!; [done|done|].
  pose proof (of_le_bound s Hs) as Hb. rewrite Hl in Hb. exact Hb.
Qed.

Lemma accepts_string : accepts r_string put_str str_wf.
Proof.
  intros pre t x r' Ht E. unfold r_string in E. apply rbind_Ok in E as ([s r1] & E1 & E2).
  apply take_accepts in E1 as (t1 & -> & Hl & ->). apply Forall_app in Ht as [Hs Ht1].
  apply rbind_Ok in E2 as ([s2 r2] & E2 & E3). apply take_accepts in E2 as (t2 & -> & Hl2 & ->).
  destruct (utf8_valid s2) eqn:Hu; [|done]. injection E3 as <- <-.
  pose proof (of_le_bound s Hs) as Hb. rewrite Hl in Hb. change (256 ^ Z.of_nat 2) with U16_MOD in Hb.
  assert (Hlen : Z.of_nat (length s2) = of_le s) by lia.
  exists t2. rewrite put_str_whole by lia. rewrite Hlen, <- Hl, le_bytes_of_le by done.
  split_and!; [by rewrite app_assoc|by rewrite !app_assoc|]. split; [lia|done].
Qed.

Lemma accepts_bytes : accepts r_bytes put_bytes bytes_wf.
Proof.
  intros pre t x r' Ht E. unfold r_bytes in E. apply rbind_Ok in E as ([s r1] & E1 & E2).
  apply take_accepts in E1 as (t1 & -> & Hl & ->). apply Forall_app in Ht as [Hs Ht1].
  apply take_accepts in E2 as (t2 & -> & Hl2 & ->).
  pose proof (of_le_bound s Hs) as Hb. rewrite Hl in Hb. change (256 ^ Z.of_nat 4) with U32_MOD in Hb.
  assert (Hlen : Z.of_nat (length x) = of_le s) by lia. unfold bytes_wf.
  exists t2. rewrite put_bytes_whole by (unfold bytes_wf; lia). rewrite Hlen, <- Hl, le_bytes_of_le by done.
  split_and!; [by rewrite app_assoc|by rewrite !app_assoc|lia].
Qed.

Lemma sub4_spec b i : Forall is_u8 b -> (i + 4 <= length b)%nat ->
  is_u32 (sub4 b i) /\ le_bytes 4 (sub4 b i) = take 4 (drop i b).
Proof.
  intros Hb Hi. unfold sub4. set (s := take 4 (drop i b)).
  assert (Hs : Forall is_u8 s) by (by apply Forall_take, Forall_drop).
  assert (Hl : length s = 4%nat) by (unfold s; rewrite length_take, length_drop; lia).
  split.
  - pose proof (of_le_bound s Hs) as H. rewrite Hl in H. exact H.
  - rewrite <- Hl. by apply le_bytes_of_le.
Qed.

Lemma accepts_desc : accepts r_desc put_desc desc_wf.
Proof.
  intros pre t x r' Ht E. unfold r_desc in E. apply rbind_Ok in E as ([b r1] & E1 & E2).
  apply take_accepts in E1 as (t1 & -> & Hl & ->). apply Forall_app in Ht as [Hb _]. injection E2 as <- <-.
  destruct (sub4_spec b 0 Hb ltac:(lia)) as [? E0]. destruct (sub4_spec b 4 Hb ltac:(lia)) as [? E4].
  destruct (sub4_spec b 8 Hb ltac:(lia)) as [? E8]. destruct (sub4_spec b 12 Hb ltac:(lia)) as [? E12].
  destruct (sub4_spec b 16 Hb ltac:(lia)) as [? E16]. destruct (sub4_spec b 20 Hb ltac:(lia)) as [? E20].
  exists t1. unfold put_desc, desc_bytes. cbn [segment_id generation offset len schema_id pad].
  rewrite E0, E4, E8, E12, E16, E20.
  assert (Eb : take 4 (drop 0 b) ++ take 4 (drop 4 b) ++ take 4 (drop 8 b) ++ take 4 (drop 12 b) ++
    take 4 (drop 16 b) ++ take 4 (drop 20 b) = b).
  { do 24 (destruct b as [|? b]; [done|]). by destruct b. }
  rewrite Eb. split_and!; [done|done|]. by split_and!.
Qed.

(** Peel one field off an accepted buffer. *)
Ltac accept_field H acc :=
  let x := fresh "v" in let t' := fresh "t" in let Hx := fresh "Hv" in let Ht := fresh "Ht" in
  apply (accepts_step _ _ _ _ _ _ _ _ acc) in H; [|assumption];
  destruct H as (x & t' & -> & Hx & Ht & H).

Ltac accept_fields H :=
  repeat lazymatch type of H with
  | r_bind r_u32 _ _ = _ => accept_field H accepts_u32
  | r_bind r_string _ _ = _ => accept_field H accepts_string
  | r_bind r_bytes _ _ = _ => accept_field H accepts_bytes
  | r_bind r_desc _ _ = _ => accept_field H accepts_desc
  | (if ?a =? ?b then _ else _) _ = _ => destruct (Z.eqb_spec a b) as [->|?]
  end.

Ltac accepted H rest_of :=
  lazymatch type of H with
  | r_fail _ _ = _ => discriminate H
  | r_ret _ _ = _ => injection H as <- <-; eexists; split; [|first [done | by split_and!]];
      cbn [rest_of app]; rewrite <- ?app_assoc; reflexivity
  end.

Lemma decode_request_accepts body q :
  Forall is_u8 body -> decode_request body = Ok q ->
  exists rest, body = encode_request q ++ rest /\ request_wf q.
Proof.
  intros Hb E. unfold decode_request in E. apply rbind_Ok in E as ([q' r'] & E & [= <-]).
  unfold p_request in E. change (mkReader body 0) with (mkReader ([] ++ body) (length (@nil Z))) in E.
  accept_field E accepts_u8. accept_fields E; accepted E encode_request.
Qed.

Lemma decode_response_accepts body p :
  Forall is_u8 body -> decode_response body = Ok p ->
  exists rest, body = encode_response p ++ rest /\ response_wf p.
Proof.
  intros Hb E. unfold decode_response in E. apply rbind_Ok in E as ([p' r'] & E & [= <-]).
  unfold p_response in E. change (mkReader body 0) with (mkReader ([] ++ body) (length (@nil Z))) in E.
  accept_field E accepts_u8. accept_fields E; accepted E encode_response.
Qed.

(** C17. The request codec is exact: a body decodes to [q] if and only if it starts
    with the encoding of [q] and [q] is well formed (strings of fewer than 65536
    bytes of valid UTF-8, blobs of fewer than 2^32 bytes, fields in range).  Hence
    encode/decode round-trips, no two requests share an encoding, and nothing
    malformed is accepted. *)
Theorem request_codec_exact body q :
  Forall is_u8 body ->
  decode_request body = Ok q <-> request_wf q /\ exists rest, body = encode_request q ++ rest.
Proof.
  intros Hb. split.
  - intros E. destruct (decode_request_accepts body q Hb E) as (rest & ? & ?). eauto.
  - intros (Hq & rest & ->). unfold decode_request. by apply decode_reads, reads_request.
Qed.

Lemma request_codec_exact_witness :
  decode_request (encode_request (Register [104; 195; 169]) ++ [7]) = Ok (Register [104; 195; 169]) <->
  request_wf (Register [104; 195; 169]) /\
  exists rest, encode_request (Register [104; 195; 169]) ++ [7] = encode_request (Register [104; 195; 169]) ++ rest.
Proof. apply (request_codec_exact (encode_request (Register [104; 195; 169]) ++ [7])). apply (bool_decide_unpack _). vm_compute. exact I. Defined.

(** C18. The response codec is exact, in the same sense. *)
Theorem response_codec_exact body p :
  Forall is_u8 body ->
  decode_response body = Ok p <-> response_wf p /\ exists rest, body = encode_response p ++ rest.
Proof.
  intros Hb. split.
  - intros E. destruct (decode_response_accepts body p Hb E) as (rest & ? & ?). eauto.
  - intros (Hp & rest & ->). unfold decode_response. by apply decode_reads, reads_response.
Qed.

Lemma response_codec_exact_witness :
  decode_response (encode_response (Granted 7 65536)) = Ok (Granted 7 65536) <->
  response_wf (Granted 7 65536) /\ exists rest, encode_response (Granted 7 65536) = encode_response (Granted 7 65536) ++ rest.
Proof. apply (response_codec_exact (encode_response (Granted 7 65536))). apply (bool_decide_unpack _). vm_compute. exact I. Defined.

(** ** Frames over a byte stream

    A [SOCK_STREAM] socket delivers the concatenation of what was sent, cut into
    non-empty pieces at the kernel's discretion; [recv_frame] asks for at most
    [4 + MAX_FRAME] bytes per call. *)
Definition delivers (stream : list Z) (pieces : list (list Z)) : Prop :=
  concat pieces = stream /\ Forall (fun p => p <> [] /\ Z.of_nat (length p) <= 4 + MAX_FRAME) pieces.

Lemma recv_frame_sent body f more : send_frame body = Some f -> recv_frame (f ++ more) = Ok body.
Proof.
  unfold send_frame. destruct (Z.leb_spec (Z.of_nat (length body)) MAX_FRAME) as [Hl|]; [|done]. intros E.
  unfold MAX_FRAME in *. rewrite wrap32_id in E by mach.
  assert (f = le_bytes 4 (Z.of_nat (length body)) ++ body) as -> by congruence. clear E.
  unfold recv_frame. rewrite <- app_assoc, !length_app, length_le_bytes.
  rewrite (proj2 (Nat.eqb_neq _ _)), (proj2 (Nat.ltb_ge _ _)) by lia.
  rewrite take_le_bytes, of_le_u32 by mach.
  rewrite (proj2 (Z.ltb_ge MAX_FRAME _)) by (unfold MAX_FRAME; lia). rewrite (proj2 (Z.ltb_ge _ _)) by lia. cbn [orb].
  rewrite drop_app_length' by (by rewrite length_le_bytes). by rewrite Nat2Z.id, take_app_length.
Qed.

(** When every [recvmsg] returns one whole frame, every body sent is received,
    in order; a body above [MAX_FRAME] is refused by the sender, never cut. *)
Theorem frames_roundtrip bodies :
  Forall (fun b => Z.of_nat (length b) <= MAX_FRAME) bodies ->
  exists pieces, (send_frame <$> bodies) = (Some <$> pieces) /\
    delivers (concat pieces) pieces /\ (recv_frame <$> pieces) = (Ok <$> bodies).
Proof.
  induction 1 as [|b bodies Hb _ (pieces & E & [_ Hp] & Er)].
  { exists []. split_and!; [done|split; [done|constructor]|done]. }
  assert (Es : exists f, send_frame b = Some f /\ f <> [] /\ Z.of_nat (length f) <= 4 + MAX_FRAME).
  { unfold send_frame. rewrite (proj2 (Z.leb_le _ _)) by done. eexists. split; [done|].
    split; [done|]. rewrite length_app, length_le_bytes. lia. }
  destruct Es as (f & Es & Hf). exists (f :: pieces). csimpl. rewrite Es, E, Er. split_and!; [done| |].
  - split; [done|]. by constructor.
  - f_equal. rewrite <- (app_nil_r f). by apply recv_frame_sent.
Qed.

Lemma frames_roundtrip_witness :
  exists pieces, (send_frame <$> [encode_request Heartbeat; encode_request Bye]) = (Some <$> pieces) /\
    delivers (concat pieces) pieces /\ (recv_frame <$> pieces) = (Ok <$> [encode_request Heartbeat; encode_request Bye]).
Proof. apply (frames_roundtrip [encode_request Heartbeat; encode_request Bye]). repeat constructor; vm_compute; discriminate. Defined.

(** A stream does not keep frame boundaries, and [recv_frame] drops whatever
    follows the first frame it finds in a delivery.  Whenever two fire-and-forget
    requests are delivered together, the second one is silently lost. *)
Theorem coalesced_frame_is_lost b1 b2 f1 f2 :
  send_frame b1 = Some f1 -> send_frame b2 = Some f2 ->
  Z.of_nat (length (f1 ++ f2)) <= 4 + MAX_FRAME ->
  delivers (f1 ++ f2) [f1 ++ f2] /\ (recv_frame <$> [f1 ++ f2]) = [Ok b1].
Proof.
  intros E1 E2 Hl. split.
  - split; [cbn; by rewrite app_nil_r|]. constructor; [|constructor]. split; [|done].
    unfold send_frame in E1. destruct (Z.of_nat (length b1) <=? MAX_FRAME); [|done]. by injection E1 as <-.
  - csimpl. by rewrite (recv_frame_sent b1 f1 f2 E1).
Qed.

Lemma coalesced_frame_is_lost_witness :
  delivers ([1; 0; 0; 0; 2] ++ [1; 0; 0; 0; 7]) [[1; 0; 0; 0; 2] ++ [1; 0; 0; 0; 7]] /\
  (recv_frame <$> [[1; 0; 0; 0; 2] ++ [1; 0; 0; 0; 7]]) = [Ok (encode_request Heartbeat)].
Proof.
  apply (coalesced_frame_is_lost (encode_request Heartbeat) (encode_request Bye)).
  - reflexivity.
  - reflexivity.
  - vm_compute. discriminate.
Defined.
