(* ===== verification/Envelope.v ===== *)
(** * Envelopes, payloads and dispatch

    [src/crates/holon-core/src/envelope.rs], [payload.rs] and [dispatch.rs]: the
    64-byte control word of every actor message and its inline body, and the
    [schema_id -> handler] table. *)

From S2P Require Import Prelude Pod ChunkDesc.

Inductive HolonError : Set :=
| BadEnvelope
| NotEnvelope (schema : Z)
| BadKind (k : Z)
| BadPayload (expected got : nat)
| SchemaMismatch (expected got : Z)
| BodyTooLarge (len max : nat)
| UnknownSchema (schema : Z)
| NoSuchActor (id : Z)
| Cell
| HandlerError.

Definition ENVELOPE_MAGIC : Z := 1213156430. (* 0x484f_4c4e *)
Definition ENVELOPE_ABI_VERSION : Z := 1.
Definition ENVELOPE_SIZE : nat := 64.
Definition SCHEMA_ENVELOPE : Z := 2.

Definition FLAG_INLINE_PAYLOAD : Z := Z.shiftl 1 0.
Definition FLAG_LOCAL_REF : Z := Z.shiftl 1 1.
Definition FLAG_NO_REPLY : Z := Z.shiftl 1 2.

(** ** Actor ids *)

Definition ActorId_NONE : Z := 0.
Definition ActorId_new (host local : Z) : Z := Z.lor (Z.shiftl host 32) local.

(** FNV-1a over the name's bytes. *)
Definition fnv_step (h b : Z) : Z := wrap32 (Z.lxor h b * 16777619).
Definition ActorId_named (name : list Z) : Z :=
  ActorId_new 0 (Z.max (foldl fnv_step 2166136261 name) 1).
Definition ActorId_host (a : Z) : Z := wrap32 (Z.shiftr a 32).
Definition ActorId_local (a : Z) : Z := wrap32 a.

(** ** Message kinds *)

Inductive MessageKind : Set := Tell | Ask | KReply | KErr.

#[export] Instance MessageKind_eq_dec : EqDecision MessageKind.
Proof. solve_decision. Defined.

Definition from_u16 (v : Z) : result HolonError MessageKind :=
  if v =? 1 then Ok Tell else if v =? 2 then Ok Ask else if v =? 3 then Ok KReply
  else if v =? 4 then Ok KErr else Err (BadKind v).

Definition as_u16 (k : MessageKind) : Z := match k with Tell => 1 | Ask => 2 | KReply => 3 | KErr => 4 end.

(** ** The envelope *)

Record Envelope : Set := mkEnvelope {
  to : Z; from : Z; corr : Z; payload : Z;
  schema_id : Z; version : Z;
  kind : Z; flags : Z;
  deadline : Z; epoch : Z; magic : Z;
  abi_version : Z; body_len : Z;
  reserved : Z
}.

(** Field widths in declaration order; they sum to 64, so the layout has no
    padding. *)
Definition envelope_layout : list nat := [8; 8; 8; 8; 4; 4; 2; 2; 4; 4; 4; 2; 2; 4]%nat.

Definition env_fields (e : Envelope) : list Z :=
  [to e; from e; corr e; payload e; schema_id e; version e; kind e; flags e;
   deadline e; epoch e; magic e; abi_version e; body_len e; reserved e].

Definition env_of_fields (vs : list Z) : Envelope :=
  match vs with
  | [a; b; c; d; e; f; g; h; i; j; k; l; m; n] => mkEnvelope a b c d e f g h i j k l m n
  | _ => mkEnvelope 0 0 0 0 0 0 0 0 0 0 0 0 0 0
  end.

Definition inline (k : MessageKind) (to from corr schema_id body_len : Z) : Envelope :=
  let flags := if decide (k = Tell) then Z.lor FLAG_INLINE_PAYLOAD FLAG_NO_REPLY else FLAG_INLINE_PAYLOAD in
  mkEnvelope to from corr 0 schema_id 0 (as_u16 k) flags 0 0 ENVELOPE_MAGIC ENVELOPE_ABI_VERSION body_len 0.

Definition reply_to (ask : Envelope) (schema blen : Z) : Envelope :=
  let e := inline KReply (from ask) (to ask) (corr ask) schema blen in
  mkEnvelope (to e) (from e) (corr e) (payload e) (schema_id e) (version e) (kind e) (flags e)
    (deadline e) (epoch ask) (magic e) (abi_version e) (body_len e) (reserved e).

Definition err_to (ask : Envelope) : Envelope :=
  let e := reply_to ask 0 0 in
  mkEnvelope (to e) (from e) (corr e) (payload e) (schema_id e) (version e) (as_u16 KErr) (flags e)
    (deadline e) (epoch e) (magic e) (abi_version e) (body_len e) (reserved e).

Definition with_reply_ref (e : Envelope) (r : PackedRef) : Envelope :=
  mkEnvelope (to e) (from e) (corr e) (bits r) (schema_id e) (version e) (kind e) (Z.lor (flags e) FLAG_LOCAL_REF)
    (deadline e) (epoch e) (magic e) (abi_version e) (body_len e) (reserved e).

Definition with_deadline_nanos (e : Envelope) (deadline_nanos : Z) : Envelope :=
  mkEnvelope (to e) (from e) (corr e) (payload e) (schema_id e) (version e) (kind e) (flags e)
    (wrap32 (deadline_nanos / 1000000)) (epoch e) (magic e) (abi_version e) (body_len e) (reserved e).

Definition is_inline (e : Envelope) : bool := negb (Z.land (flags e) FLAG_INLINE_PAYLOAD =? 0).
Definition no_reply (e : Envelope) : bool := negb (Z.land (flags e) FLAG_NO_REPLY =? 0).
Definition payload_ref (e : Envelope) : option PackedRef :=
  if negb (Z.land (flags e) FLAG_LOCAL_REF =? 0) then Some (mkPackedRef (payload e)) else None.

Definition validate (e : Envelope) : result HolonError unit :=
  if negb (magic e =? ENVELOPE_MAGIC) || negb (abi_version e =? ENVELOPE_ABI_VERSION) || negb (reserved e =? 0)
  then Err BadEnvelope
  else let? _ := from_u16 (kind e) in Ok tt.

Definition to_bytes (e : Envelope) : list Z := pack envelope_layout (env_fields e).

Definition from_bytes (bytes : list Z) : result HolonError Envelope :=
  if (length bytes <? ENVELOPE_SIZE)%nat then Err BadEnvelope
  else
    let env := env_of_fields (unpack envelope_layout (take ENVELOPE_SIZE bytes)) in
    let? _ := validate env in Ok env.

(** Writes into the chunk's bytes [buf]; returns the count and the new contents. *)
Definition encode_message (buf : list Z) (env : Envelope) (body : list Z) : result HolonError (nat * list Z) :=
  let total := (ENVELOPE_SIZE + length body)%nat in
  if negb (Z.of_nat (length body) =? body_len env) || (length buf <? total)%nat then
    Err (BodyTooLarge (length body) (length buf - ENVELOPE_SIZE))
  else Ok (total, to_bytes env ++ body ++ drop total buf).

Definition decode_message (buf : list Z) : result HolonError (Envelope * list Z) :=
  let? env := from_bytes buf in
  if negb (is_inline env) then Ok (env, [])
  else
    let stop := (ENVELOPE_SIZE + Z.to_nat (body_len env))%nat in
    if (length buf <? stop)%nat then Err BadEnvelope
    else Ok (env, take (stop - ENVELOPE_SIZE) (drop ENVELOPE_SIZE buf)).

(** ** Payloads *)

Definition MAX_INLINE_BODY : nat := 192.

Record InlineBody : Set := mkInlineBody { ib_schema_id : Z; ib_len : Z; ib_bytes : list Z }.

Definition InlineBody_new (schema : Z) (body : list Z) : result HolonError InlineBody :=
  if (MAX_INLINE_BODY <? length body)%nat then Err (BodyTooLarge (length body) MAX_INLINE_BODY)
  else Ok (mkInlineBody schema (wrap16 (Z.of_nat (length body)))
             (body ++ drop (length body) (replicate MAX_INLINE_BODY 0))).

Definition InlineBody_bytes (b : InlineBody) : list Z := take (Z.to_nat (ib_len b)) (ib_bytes b).

(** A payload type is its schema id and its layout. *)
Record Payload : Set := mkPayload { SCHEMA_ID : Z; pl_layout : list nat }.

Definition payload_from_bytes (P : Payload) (bytes : list Z) : result HolonError (list Z) :=
  let expected := size_of (pl_layout P) in
  if negb (length bytes =? expected)%nat then Err (BadPayload expected (length bytes))
  else Ok (unpack (pl_layout P) bytes).

Inductive Reply : Set := RNone | RInline (b : InlineBody).

Definition Reply_of (P : Payload) (vs : list Z) : result HolonError Reply :=
  let? b := InlineBody_new (SCHEMA_ID P) (pack (pl_layout P) vs) in Ok (RInline b).

(** ** Codec facts *)

Definition env_wf (e : Envelope) : Prop := in_range envelope_layout (env_fields e).

Lemma env_fields_of vs : length vs = length envelope_layout -> env_fields (env_of_fields vs) = vs.
Proof. intros H. do 14 (destruct vs as [|? vs]; [done|]). by destruct vs. Qed.

Lemma env_of_fields_of e : env_of_fields (env_fields e) = e.
Proof. by destruct e. Qed.

Lemma length_to_bytes e : length (to_bytes e) = ENVELOPE_SIZE.
Proof. unfold to_bytes. by rewrite length_pack. Qed.

Lemma from_bytes_to_bytes e rest :
  env_wf e -> validate e = Ok tt -> from_bytes (to_bytes e ++ rest) = Ok e.
Proof.
  intros Hwf Hv. unfold from_bytes. rewrite length_app, length_to_bytes.
  rewrite (proj2 (Nat.ltb_ge _ _)) by lia. rewrite take_app_length' by (by rewrite length_to_bytes).
  unfold to_bytes. rewrite <- (app_nil_r (pack _ _)), unpack_pack by done.
  rewrite env_of_fields_of. cbn zeta. by rewrite Hv.
Qed.

Lemma from_bytes_inv bytes e :
  Forall is_u8 bytes -> from_bytes bytes = Ok e ->
  env_wf e /\ validate e = Ok tt /\ bytes = to_bytes e ++ drop ENVELOPE_SIZE bytes.
Proof.
  intros Hb. unfold from_bytes. destruct (Nat.ltb_spec (length bytes) ENVELOPE_SIZE) as [|Hl]; [done|]. cbn zeta.
  set (vs := unpack envelope_layout (take ENVELOPE_SIZE bytes)).
  assert (Hlen : length (take ENVELOPE_SIZE bytes) = ENVELOPE_SIZE) by (rewrite length_take; lia).
  assert (Ef : env_fields (env_of_fields vs) = vs) by (apply env_fields_of; unfold vs; by rewrite length_unpack).
  destruct (validate (env_of_fields vs)) as [[]|] eqn:Ev; [|done]. cbn [rbind]. intros E.
  assert (e = env_of_fields vs) as -> by congruence. clear E. split_and!.
  - unfold env_wf. rewrite Ef. apply unpack_in_range; [by apply Forall_take|]. by rewrite Hlen.
  - done.
  - unfold to_bytes. rewrite Ef. unfold vs. rewrite pack_unpack; [|by apply Forall_take|by rewrite Hlen].
    change (size_of envelope_layout) with ENVELOPE_SIZE. rewrite take_take, Nat.min_id. by rewrite take_drop.
Qed.

(** What a receiver may rely on. *)
Definition valid_envelope (e : Envelope) : Prop :=
  magic e = ENVELOPE_MAGIC /\ abi_version e = ENVELOPE_ABI_VERSION /\ reserved e = 0 /\ 1 <= kind e <= 4.

Lemma from_u16_known v : (exists k, from_u16 v = Ok k) <-> 1 <= v <= 4.
Proof.
  unfold from_u16. split.
  - intros [k E]. repeat (case_match; [lia|]). done.
  - intros Hv. assert (v = 1 \/ v = 2 \/ v = 3 \/ v = 4) as [->|[->|[->| ->]]] by lia; by eexists.
Qed.

Lemma validate_ok e : validate e = Ok tt <-> valid_envelope e.
Proof.
  unfold validate, valid_envelope. rewrite <- from_u16_known.
  destruct (Z.eqb_spec (magic e) ENVELOPE_MAGIC), (Z.eqb_spec (abi_version e) ENVELOPE_ABI_VERSION),
    (Z.eqb_spec (reserved e) 0); cbn [negb orb]; try naive_solver.
  destruct (from_u16 (kind e)); naive_solver.
Qed.

(** C21. The envelope codec is exact: 64 or more bytes decode to [e] if and only if
    they start with the wire form of [e], its fields are in range and it passes
    validation (magic, ABI version, zero reserved word, known kind). *)
Theorem envelope_codec_exact bytes e :
  Forall is_u8 bytes ->
  from_bytes bytes = Ok e <->
  env_wf e /\ valid_envelope e /\ exists rest, bytes = to_bytes e ++ rest.
Proof.
  intros Hb. rewrite <- validate_ok. split.
  - intros E. destruct (from_bytes_inv bytes e Hb E) as (? & ? & ?). eauto.
  - intros (Hwf & Hv & rest & ->). by apply from_bytes_to_bytes.
Qed.

Definition demo_env : Envelope := with_deadline_nanos (inline Ask 7 9 42 1001 3) 5000000000.

Lemma envelope_codec_exact_witness :
  from_bytes (to_bytes demo_env ++ [1; 2; 3]) = Ok demo_env <->
  env_wf demo_env /\ valid_envelope demo_env /\ exists rest, to_bytes demo_env ++ [1; 2; 3] = to_bytes demo_env ++ rest.
Proof. apply (envelope_codec_exact (to_bytes demo_env ++ [1; 2; 3])). apply (bool_decide_unpack _). vm_compute. exact I. Defined.

(** Writing a message into a chunk and reading it back returns the envelope and
    its body, and writes nothing past them; the write is refused exactly when the
    body's length disagrees with the envelope or does not fit the chunk, and the
    read never looks past the chunk. *)
Theorem message_roundtrip buf env body :
  env_wf env -> valid_envelope env ->
  match encode_message buf env body with
  | Ok (n, buf') =>
      n = (ENVELOPE_SIZE + length body)%nat /\ length buf' = length buf /\ drop n buf' = drop n buf /\
      decode_message buf' = Ok (env, if is_inline env then body else [])
  | Err e =>
      e = BodyTooLarge (length body) (length buf - ENVELOPE_SIZE) /\
      (Z.of_nat (length body) <> body_len env \/ (length buf < ENVELOPE_SIZE + length body)%nat)
  end.
Proof.
  intros Hwf Hv%validate_ok. unfold encode_message.
  destruct (Z.eqb_spec (Z.of_nat (length body)) (body_len env)) as [El|El]; cbn [negb orb]; [|by split; [|left]].
  destruct (Nat.ltb_spec (length buf) (ENVELOPE_SIZE + length body)) as [Hl|Hl]; [by split; [|right]|].
  pose proof (length_to_bytes env) as Ht. split_and!; [done| | |].
  - rewrite !length_app, length_drop, Ht. lia.
  - rewrite app_assoc, drop_app_length'; [done|]. rewrite length_app. lia.
  - unfold decode_message. rewrite from_bytes_to_bytes by done. cbn [rbind].
    destruct (is_inline env); cbn [negb]; [|done]. rewrite <- El, Nat2Z.id.
    rewrite (proj2 (Nat.ltb_ge _ _)) by (rewrite !length_app, length_drop, Ht; lia).
    rewrite (drop_app_length' (to_bytes env)) by done.
    replace (ENVELOPE_SIZE + length body - ENVELOPE_SIZE)%nat with (length body) by lia.
    by rewrite take_app_length.
Qed.

Lemma message_roundtrip_witness :
  match encode_message (replicate 80 0) demo_env [1; 2; 3] with
  | Ok (n, buf') =>
      n = 67%nat /\ length buf' = 80%nat /\ drop n buf' = drop n (replicate 80 0) /\
      decode_message buf' = Ok (demo_env, [1; 2; 3])
  | Err _ => False
  end.
Proof.
  assert (Hwf : env_wf demo_env) by (repeat constructor; vm_compute; congruence).
  exact (message_roundtrip (replicate 80 0) demo_env [1; 2; 3] Hwf (proj1 (validate_ok demo_env) eq_refl)).
Defined.

(** ** Dispatch tables *)

(** [slice::binary_search] (the standard library's loop): [inl i] found at [i],
    [inr i] the insertion point. *)
Fixpoint bs_loop (fuel : nat) (ids : list Z) (x : Z) (base size : nat) : nat :=
  match fuel with
  | O => base
  | S fuel' =>
      if (size <=? 1)%nat then base
      else
        let half := (size / 2)%nat in
        let mid := (base + half)%nat in
        let base' := match ids !! mid with Some y => if x <? y then base else mid | None => base end in
        bs_loop fuel' ids x base' (size - half)
  end.

Definition binary_search (ids : list Z) (x : Z) : nat + nat :=
  if (length ids =? 0)%nat then inr 0%nat
  else
    let base := bs_loop (length ids) ids x 0 (length ids) in
    match ids !! base with
    | Some y => if y =? x then inl base else inr (base + (if Z.ltb y x then 1 else 0))%nat
    | None => inr base
    end.

Section dispatch.
Context {H : Type}.

Record Dispatch : Type := mkDispatch { ids : list Z; table : list H }.

Definition Dispatch_new : Dispatch := mkDispatch [] [].

(** [Vec::insert]. *)
Definition vec_insert {A} (i : nat) (x : A) (l : list A) : list A := take i l ++ x :: drop i l.

Definition register (d : Dispatch) (schema : Z) (h : H) : Dispatch :=
  match binary_search (ids d) schema with
  | inl i => mkDispatch (ids d) (<[i := h]> (table d))
  | inr i => mkDispatch (vec_insert i schema (ids d)) (vec_insert i h (table d))
  end.

Definition lookup (d : Dispatch) (schema : Z) : option H :=
  match binary_search (ids d) schema with
  | inl i => table d !! i
  | inr _ => None
  end.
End dispatch.
Arguments Dispatch : clear implicits.

(** ** Binary search on an ascending list *)

Definition ascending (l : list Z) : Prop :=
  forall i j a b, (i < j)%nat -> l !! i = Some a -> l !! j = Some b -> a < b.

Lemma bs_loop_spec fuel l x base size :
  ascending l -> (1 <= size)%nat -> (base + size <= length l)%nat -> (size <= S fuel)%nat ->
  (base = 0%nat \/ exists y, l !! base = Some y /\ y <= x) ->
  (forall j y, (base + size <= j)%nat -> l !! j = Some y -> x < y) ->
  let b := bs_loop fuel l x base size in
  (b < length l)%nat /\ (b = 0%nat \/ exists y, l !! b = Some y /\ y <= x) /\
  (forall j y, (b < j)%nat -> l !! j = Some y -> x < y).
Proof.
  intros Hasc. revert base size. induction fuel as [|fuel IH]; intros base size Hs Hb Hf Hlo Hhi; cbn [bs_loop].
  - split_and!; [lia|done|]. intros j y Hj. apply Hhi. lia.
  - destruct (Nat.leb_spec size 1); [split_and!; [lia|done|]; intros j y Hj; apply Hhi; lia|].
    pose proof (Nat.div_mod size 2 ltac:(lia)). pose proof (Nat.mod_upper_bound size 2 ltac:(lia)).
    set (half := (size / 2)%nat) in *.
    destruct (lookup_lt_is_Some_2 l (base + half)) as [y Hy]; [lia|]. rewrite Hy.
    destruct (Z.ltb_spec x y).
    + apply IH; try lia; [done|]. intros j z Hj Hz. destruct (decide (j = base + half)%nat) as [->|Hne].
      * congruence.
      * pose proof (Hasc (base + half)%nat j y z ltac:(lia) Hy Hz). lia.
    + apply IH; try lia; [right; by exists y|]. intros j z Hj Hz. apply (Hhi j); [lia|done].
Qed.

Lemma binary_search_spec l x :
  ascending l ->
  match binary_search l x with
  | inl i => l !! i = Some x
  | inr i => (i <= length l)%nat /\ (forall j y, (j < i)%nat -> l !! j = Some y -> y < x) /\
      (forall j y, (i <= j)%nat -> l !! j = Some y -> x < y)
  end.
Proof.
  intros Hasc. unfold binary_search. destruct (Nat.eqb_spec (length l) 0) as [E|E].
  { apply length_zero_iff_nil in E. subst l. split_and!; [cbn; lia|lia|]. intros j y _ Hj. by rewrite lookup_nil in Hj. }
  destruct (bs_loop_spec (length l) l x 0 (length l) Hasc) as (Hb & Hlo & Hhi); try lia.
  { intros j y Hj Hy. apply lookup_lt_Some in Hy. lia. }
  set (b := bs_loop (length l) l x 0 (length l)) in *.
  destruct (lookup_lt_is_Some_2 l b Hb) as [y Hy]. rewrite Hy.
  destruct (Z.eqb_spec y x) as [->|Hne]; [done|]. destruct (Z.ltb_spec y x) as [Hlt|Hge].
  - split_and!; [lia| |intros j z Hj Hz; apply (Hhi j); [lia|done]].
    intros j z Hj Hz. destruct (decide (j = b)) as [->|Hjb]; [congruence|].
    pose proof (Hasc j b z y ltac:(lia) Hz Hy). lia.
  - rewrite Nat.add_0_r. destruct Hlo as [E0|(y' & Hy' & Hle)]; [|simplify_eq; lia].
    split_and!; [lia|lia|]. intros j z Hj Hz. destruct (decide (j = b)) as [->|Hjb]; [simplify_eq; lia|].
    apply (Hhi j); [lia|done].
Qed.

Lemma lookup_vec_insert {A} i (x : A) l j :
  (i <= length l)%nat ->
  vec_insert i x l !! j = if decide (j < i)%nat then l !! j else if decide (j = i) then Some x else l !! (j - 1)%nat.
Proof.
  intros Hi. unfold vec_insert. assert (Hl : length (take i l) = i) by (rewrite length_take; lia).
  destruct (decide (j < i)%nat) as [Hj|Hj].
  - rewrite lookup_app_l by lia. by rewrite lookup_take_lt.
  - rewrite lookup_app_r, Hl by lia. destruct (decide (j = i)) as [->|Hne].
    + by rewrite Nat.sub_diag.
    + replace (j - i)%nat with (S (j - i - 1)) by lia.
      change ((x :: drop i l) !! S (j - i - 1)) with (drop i l !! (j - i - 1)%nat). rewrite lookup_drop. f_equal. lia.
Qed.

Section dispatch_map.
Context {H : Type}.

(** The table represents the map [m]. *)
Record dispatch_ok (d : Dispatch H) (m : gmap Z H) : Prop := {
  disp_asc : ascending (ids d);
  disp_len : length (table d) = length (ids d);
  disp_map k h : m !! k = Some h <-> exists i, ids d !! i = Some k /\ table d !! i = Some h
}.

Lemma ascending_inj l i j a : ascending l -> l !! i = Some a -> l !! j = Some a -> i = j.
Proof.
  intros Hasc Hi Hj. destruct (Nat.lt_total i j) as [Hlt|[->|Hlt]]; [|done|].
  - pose proof (Hasc i j a a Hlt Hi Hj). lia.
  - pose proof (Hasc j i a a Hlt Hj Hi). lia.
Qed.

Lemma lookup_ok d m k : dispatch_ok d m -> lookup d k = m !! k.
Proof.
  intros [Hasc Hlen Hmap]. unfold lookup. pose proof (binary_search_spec (ids d) k Hasc) as Hs.
  destruct (binary_search (ids d) k) as [i|i].
  - destruct (lookup_lt_is_Some_2 (table d) i) as [h Hh]; [rewrite Hlen; by eapply lookup_lt_Some|].
    rewrite Hh. symmetry. apply Hmap. by exists i.
  - symmetry. apply eq_None_not_Some. intros [h (j & Hj & _)%Hmap]. destruct Hs as (_ & Hlo & Hhi).
    destruct (Nat.lt_ge_cases j i) as [Hlt|Hge]; [pose proof (Hlo j k Hlt Hj)|pose proof (Hhi j k Hge Hj)]; lia.
Qed.

Lemma register_ok d m k h : dispatch_ok d m -> dispatch_ok (register d k h) (<[k := h]> m).
Proof.
  intros [Hasc Hlen Hmap]. unfold register. pose proof (binary_search_spec (ids d) k Hasc) as Hs.
  destruct (binary_search (ids d) k) as [i|i].
  - split; cbn [ids table]; [done|by rewrite length_insert|]. intros k' h'.
    assert (Hi : (i < length (table d))%nat) by (rewrite Hlen; by eapply lookup_lt_Some).
    destruct (decide (k = k')) as [<-|Hne].
    + rewrite lookup_insert_eq. split.
      * intros [= <-]. exists i. by rewrite list_lookup_insert_eq.
      * intros (j & Hj & Ht). rewrite (ascending_inj _ j i k Hasc Hj Hs), list_lookup_insert_eq in Ht by done. congruence.
    + rewrite lookup_insert_ne, Hmap by done. split; intros (j & Hj & Ht); exists j; (split; [done|]).
      * rewrite list_lookup_insert_ne; [done|]. intros ->. by simplify_eq.
      * rewrite list_lookup_insert_ne in Ht; [done|]. intros ->. by simplify_eq.
  - destruct Hs as (Hi & Hlo & Hhi). split; cbn [ids table].
    + intros p q a b Hpq Ha Hb. rewrite lookup_vec_insert in Ha, Hb by done.
      repeat case_decide; simplify_eq; try lia.
      * by apply (Hasc p q a b).
      * by apply (Hlo p a).
      * apply (Hasc p (q - 1)%nat a b); [lia|done|done].
      * apply (Hhi (q - 1)%nat b); [lia|done].
      * apply (Hasc (p - 1)%nat (q - 1)%nat a b); [lia|done|done].
    + unfold vec_insert. rewrite !length_app. cbn. rewrite !length_take, !length_drop. lia.
    + intros k' h'. split.
      * intros Hk. destruct (decide (k = k')) as [<-|Hne].
        -- rewrite lookup_insert_eq in Hk. injection Hk as <-. exists i. rewrite !lookup_vec_insert by lia.
           rewrite !(decide_False (P := (i < i)%nat)) by lia. by rewrite !(decide_True (P := i = i)).
        -- rewrite lookup_insert_ne in Hk by done. apply Hmap in Hk as (j & Hj & Ht).
           exists (if decide (j < i)%nat then j else S j). rewrite !lookup_vec_insert by lia.
           destruct (decide (j < i)%nat).
           ++ by rewrite !decide_True.
           ++ rewrite !(decide_False (P := (S j < i)%nat)), !(decide_False (P := S j = i)) by lia. by rewrite !Nat.sub_1_r.
      * intros (j & Hj & Ht). rewrite lookup_vec_insert in Hj by lia. rewrite lookup_vec_insert in Ht by lia. repeat case_decide; simplify_eq.
        -- rewrite lookup_insert_ne; [apply Hmap; by exists j|]. intros ->. pose proof (Hlo j k' ltac:(lia) Hj). lia.
        -- by rewrite lookup_insert_eq.
        -- rewrite lookup_insert_ne; [apply Hmap; by exists (j - 1)%nat|].
           intros ->. pose proof (Hhi (j - 1)%nat k' ltac:(lia) Hj). lia.
Qed.

(** The dispatch table is a map: after any sequence of registrations, [lookup]
    returns the handler registered last for the schema id and [None] for ids never
    registered, and the ids stay strictly ascending with one handler each. *)
Theorem dispatch_is_a_map (regs : list (Z * H)) :
  let d := foldl (fun d r => register d r.1 r.2) Dispatch_new regs in
  (forall k, lookup d k = foldl (fun m r => <[r.1 := r.2]> m) (∅ : gmap Z H) regs !! k) /\
  ascending (ids d) /\ length (table d) = length (ids d).
Proof.
  intros d. assert (Hok : dispatch_ok d (foldl (fun m r => <[r.1 := r.2]> m) ∅ regs)).
  { unfold d. assert (H0 : dispatch_ok (@Dispatch_new H) ∅).
    { split; cbn; [intros i j a b _ Hi; by rewrite lookup_nil in Hi|done|].
      intros k h. rewrite lookup_empty. split; [done|]. intros (i & Hi & _). by rewrite lookup_nil in Hi. }
    revert H0. generalize (@Dispatch_new H), (∅ : gmap Z H). clear d.
    induction regs as [|[k h] regs IH]; intros d m Hdm; [done|]. cbn [foldl fst snd]. by apply IH, register_ok. }
  split_and!; [|apply Hok|apply Hok]. intros k. by apply lookup_ok.
Qed.
End dispatch_map.
