(* ===== verification/TaskQueue.v ===== *)
(** * The task queue

    [src/crates/shm-task/src/queue.rs]: a multi-producer, multi-consumer queue of
    tasks in one shared region.  The region holds a header, an array of task slots
    and a table of lease records.  A slot's node is on one of eight FREE stacks, on
    one of eight READY stacks, or in the hands of the thread that popped it; all
    sixteen stacks are tagged Treiber stacks over the slots' own [next] words, and
    so is the free list of the lease table.

    A slot moves EMPTY -> RESERVED -> QUEUED -> CLAIMED -> COMPLETING -> DONE, with
    FAILED and CANCELLED as the other terminal states and [reap] returning a lapsed
    claim to QUEUED.  Lease records tie artifact pins to a task until the requester
    acknowledges its outcome or the coordinator's sweep releases them.

    The work and done notifiers, the parkers and the clock are parameters.  The
    thread-local shard cursor is an entry of [shard_cursor], one per thread.  The
    24-byte descriptor copies are one action each.  [debug_assert]s are not
    modelled; the invariant of [TaskQueueInv] implies them. *)

From S2P Require Import Prelude Atomic Pod ChunkDesc Treiber.

Definition TASK_MAGIC : Z := of_le [83; 72; 77; 84; 65; 83; 75; 52]. (* b"SHMTASK4" *)
Definition STACK_NIL : Z := U32_MAX.
Definition pack_stack_head (idx tag : Z) : Z := Z.lor (Z.shiftl tag 32) idx.

Definition EMPTY : Z := 0.
Definition QUEUED : Z := 1.
Definition CLAIMED : Z := 2.
Definition DONE : Z := 3.
Definition FAILED : Z := 4.
Definition CANCELLED : Z := 5.
Definition RESERVED : Z := 6.
Definition COMPLETING : Z := 7.
Definition OWNER_NONE : Z := 0.
Definition DEFAULT_MAX_RETRIES : Z := 3.
Definition DRAIN_DIG : nat := 4.
Definition SHARDS : nat := 8.

Inductive TaskError : Set :=
| BadCapacity (c : Z)
| RegionTooSmall (need have : Z)
| Misaligned
| BadMagic
| QueueFull
| StaleHandle
| Lost
| LeaseTableFull
| NotTerminal.

(** ** Memory *)

Record TaskSlot : Set := mkTaskSlot {
  ts_state : Z;
  ts_owner : Z;
  ts_seq : Z;
  ts_deadline : Z;
  ts_retry : Z;
  ts_cancel : Z;
  ts_next : Z;
  ts_request : ChunkDesc;
  ts_result : ChunkDesc
}.

Definition set_state v t := mkTaskSlot v (ts_owner t) (ts_seq t) (ts_deadline t) (ts_retry t) (ts_cancel t) (ts_next t) (ts_request t) (ts_result t).
Definition set_owner v t := mkTaskSlot (ts_state t) v (ts_seq t) (ts_deadline t) (ts_retry t) (ts_cancel t) (ts_next t) (ts_request t) (ts_result t).
Definition set_seq v t := mkTaskSlot (ts_state t) (ts_owner t) v (ts_deadline t) (ts_retry t) (ts_cancel t) (ts_next t) (ts_request t) (ts_result t).
Definition set_deadline v t := mkTaskSlot (ts_state t) (ts_owner t) (ts_seq t) v (ts_retry t) (ts_cancel t) (ts_next t) (ts_request t) (ts_result t).
Definition set_retry v t := mkTaskSlot (ts_state t) (ts_owner t) (ts_seq t) (ts_deadline t) v (ts_cancel t) (ts_next t) (ts_request t) (ts_result t).
Definition set_cancel v t := mkTaskSlot (ts_state t) (ts_owner t) (ts_seq t) (ts_deadline t) (ts_retry t) v (ts_next t) (ts_request t) (ts_result t).
Definition set_next v t := mkTaskSlot (ts_state t) (ts_owner t) (ts_seq t) (ts_deadline t) (ts_retry t) (ts_cancel t) v (ts_request t) (ts_result t).
Definition set_request v t := mkTaskSlot (ts_state t) (ts_owner t) (ts_seq t) (ts_deadline t) (ts_retry t) (ts_cancel t) (ts_next t) v (ts_result t).
Definition set_result v t := mkTaskSlot (ts_state t) (ts_owner t) (ts_seq t) (ts_deadline t) (ts_retry t) (ts_cancel t) (ts_next t) (ts_request t) v.

Record LeaseBinding : Set := mkBinding { artifact_id : Z; incarnation : Z; version : Z }.

Record LeaseSlot : Set := mkLeaseSlot {
  ls_word : Z;
  ls_version : Z;
  ls_seq : Z;
  ls_deadline : Z;
  ls_artifact_id : Z;
  ls_incarnation : Z;
  ls_slot_idx : Z;
  ls_next : Z
}.

Definition set_word v l := mkLeaseSlot v (ls_version l) (ls_seq l) (ls_deadline l) (ls_artifact_id l) (ls_incarnation l) (ls_slot_idx l) (ls_next l).
Definition set_lversion v l := mkLeaseSlot (ls_word l) v (ls_seq l) (ls_deadline l) (ls_artifact_id l) (ls_incarnation l) (ls_slot_idx l) (ls_next l).
Definition set_lseq v l := mkLeaseSlot (ls_word l) (ls_version l) v (ls_deadline l) (ls_artifact_id l) (ls_incarnation l) (ls_slot_idx l) (ls_next l).
Definition set_ldeadline v l := mkLeaseSlot (ls_word l) (ls_version l) (ls_seq l) v (ls_artifact_id l) (ls_incarnation l) (ls_slot_idx l) (ls_next l).
Definition set_lartifact v l := mkLeaseSlot (ls_word l) (ls_version l) (ls_seq l) (ls_deadline l) v (ls_incarnation l) (ls_slot_idx l) (ls_next l).
Definition set_lincarnation v l := mkLeaseSlot (ls_word l) (ls_version l) (ls_seq l) (ls_deadline l) (ls_artifact_id l) v (ls_slot_idx l) (ls_next l).
Definition set_lslot v l := mkLeaseSlot (ls_word l) (ls_version l) (ls_seq l) (ls_deadline l) (ls_artifact_id l) (ls_incarnation l) v (ls_next l).
Definition set_lnext v l := mkLeaseSlot (ls_word l) (ls_version l) (ls_seq l) (ls_deadline l) (ls_artifact_id l) (ls_incarnation l) (ls_slot_idx l) v.

(** The header's mutable words, the two arrays, and every thread's shard cursor. *)
Record QueueMem : Set := mkQueueMem {
  magic : Z;
  q_capacity : Z;
  q_mask : Z;
  max_retries : Z;
  cancelled : Z;
  waiters_work : Z;
  waiters_done : Z;
  doorbell_seq : Z;
  lease_free_head : Z;
  free_heads : list Z;
  ready_heads : list Z;
  slots : list TaskSlot;
  leases : list LeaseSlot;
  shard_cursor : gmap nat Z
}.

Definition set_cancelled v m := mkQueueMem (magic m) (q_capacity m) (q_mask m) (max_retries m) v (waiters_work m) (waiters_done m) (doorbell_seq m) (lease_free_head m) (free_heads m) (ready_heads m) (slots m) (leases m) (shard_cursor m).
Definition set_waiters_work v m := mkQueueMem (magic m) (q_capacity m) (q_mask m) (max_retries m) (cancelled m) v (waiters_done m) (doorbell_seq m) (lease_free_head m) (free_heads m) (ready_heads m) (slots m) (leases m) (shard_cursor m).
Definition set_waiters_done v m := mkQueueMem (magic m) (q_capacity m) (q_mask m) (max_retries m) (cancelled m) (waiters_work m) v (doorbell_seq m) (lease_free_head m) (free_heads m) (ready_heads m) (slots m) (leases m) (shard_cursor m).
Definition set_doorbell v m := mkQueueMem (magic m) (q_capacity m) (q_mask m) (max_retries m) (cancelled m) (waiters_work m) (waiters_done m) v (lease_free_head m) (free_heads m) (ready_heads m) (slots m) (leases m) (shard_cursor m).
Definition set_lease_head v m := mkQueueMem (magic m) (q_capacity m) (q_mask m) (max_retries m) (cancelled m) (waiters_work m) (waiters_done m) (doorbell_seq m) v (free_heads m) (ready_heads m) (slots m) (leases m) (shard_cursor m).
Definition set_free_heads v m := mkQueueMem (magic m) (q_capacity m) (q_mask m) (max_retries m) (cancelled m) (waiters_work m) (waiters_done m) (doorbell_seq m) (lease_free_head m) v (ready_heads m) (slots m) (leases m) (shard_cursor m).
Definition set_ready_heads v m := mkQueueMem (magic m) (q_capacity m) (q_mask m) (max_retries m) (cancelled m) (waiters_work m) (waiters_done m) (doorbell_seq m) (lease_free_head m) (free_heads m) v (slots m) (leases m) (shard_cursor m).
Definition set_slots v m := mkQueueMem (magic m) (q_capacity m) (q_mask m) (max_retries m) (cancelled m) (waiters_work m) (waiters_done m) (doorbell_seq m) (lease_free_head m) (free_heads m) (ready_heads m) v (leases m) (shard_cursor m).
Definition set_leases v m := mkQueueMem (magic m) (q_capacity m) (q_mask m) (max_retries m) (cancelled m) (waiters_work m) (waiters_done m) (doorbell_seq m) (lease_free_head m) (free_heads m) (ready_heads m) (slots m) v (shard_cursor m).
Definition set_cursor v m := mkQueueMem (magic m) (q_capacity m) (q_mask m) (max_retries m) (cancelled m) (waiters_work m) (waiters_done m) (doorbell_seq m) (lease_free_head m) (free_heads m) (ready_heads m) (slots m) (leases m) v.

(** ** The slot's transitions *)

Definition try_claim : prog TaskSlot bool := r <- cas ts_state set_state QUEUED CLAIMED ;; Ret r.1.
Definition try_begin_complete : prog TaskSlot bool := r <- cas ts_state set_state CLAIMED COMPLETING ;; Ret r.1.
Definition try_begin_reap_requeue : prog TaskSlot bool := r <- cas ts_state set_state CLAIMED RESERVED ;; Ret r.1.
Definition try_fail : prog TaskSlot bool := r <- cas ts_state set_state CLAIMED FAILED ;; Ret r.1.
Definition try_cancel_queued : prog TaskSlot bool := r <- cas ts_state set_state QUEUED CANCELLED ;; Ret r.1.

(** ** Lease records *)

Definition LEASE_NONE : Z := 0.
Definition LEASE_ARMED : Z := 1.
Definition LEASE_RELEASED : Z := 2.
Definition LEASE_ACKED : Z := 3.

Definition pack_lease_word (gen state : Z) : Z := Z.lor (Z.shiftl gen 32) state.
Definition lease_word_gen (w : Z) : Z := wrap32 (Z.shiftr w 32).
Definition lease_word_state (w : Z) : Z := wrap32 w.

Definition arm (b : LeaseBinding) (slot_idx seq deadline : Z) : prog LeaseSlot unit :=
  store (set_lversion (version b)) ;;;
  store (set_lseq seq) ;;;
  store (set_ldeadline deadline) ;;;
  store (set_lartifact (artifact_id b)) ;;;
  store (set_lincarnation (incarnation b)) ;;;
  store (set_lslot slot_idx) ;;;
  w <- load ls_word ;;
  store (set_word (pack_lease_word (wrap32 (lease_word_gen w + 1)) LEASE_ARMED)).

Definition try_ack (observed : Z) : prog LeaseSlot bool :=
  r <- cas ls_word set_word observed (pack_lease_word (lease_word_gen observed) LEASE_ACKED) ;; Ret r.1.

Definition try_release (observed : Z) : prog LeaseSlot bool :=
  r <- cas ls_word set_word observed (pack_lease_word (lease_word_gen observed) LEASE_RELEASED) ;; Ret r.1.

Definition retire : prog LeaseSlot unit :=
  w <- load ls_word ;; store (set_word (pack_lease_word (lease_word_gen w) LEASE_NONE)).

(** ** Layout *)

Definition SIZEOF_TaskQueueHeader : Z := 64 + 16 * 64.
Definition SIZEOF_TaskSlot : Z := 128.
Definition SIZEOF_LeaseSlot : Z := 48.

Definition slots_offset : Z := align_up SIZEOF_TaskQueueHeader 64.
Definition lease_table_offset (capacity : Z) : Z := align_up (slots_offset + capacity * SIZEOF_TaskSlot) 64.
(** [u32::saturating_mul]. *)
Definition lease_capacity (capacity : Z) : Z := Z.min (capacity * 2) U32_MAX.
Definition required_bytes (capacity : Z) : Z :=
  lease_table_offset capacity + lease_capacity capacity * SIZEOF_LeaseSlot.

Record TaskHandle : Set := mkHandle { slot_idx : Z; h_seq : Z }.

Inductive TaskStatus : Set := SQueued | SClaimed | SDone (d : ChunkDesc) | SFailed | SCancelled.
Inductive Outcome : Set := ODone (d : ChunkDesc) | OFailed | OCancelled.
Record ReapReport : Set := mkReport { requeued : Z; failed : Z }.
Record ClaimedTask : Set := mkClaimed { ct_idx : Z; ct_seq : Z; ct_worker : Z; ct_request : ChunkDesc }.

(** The process-local handle; the pointers are implicit in the memory. *)
Record TaskQueue : Set := mkTaskQueue { capacity : Z }.

(** ** Creation *)

Definition init_slot (capacity : Z) (i : nat) : TaskSlot :=
  let next := if Z.of_nat i + 1 <? capacity then Z.of_nat i + 1 else STACK_NIL in
  mkTaskSlot EMPTY OWNER_NONE 0 0 0 0 next ChunkDesc.ZERO ChunkDesc.ZERO.

Definition init_lease (lease_cap : Z) (i : nat) : LeaseSlot :=
  let next := if Z.of_nat i + 1 <? lease_cap then Z.of_nat i + 1 else STACK_NIL in
  mkLeaseSlot (pack_lease_word 0 LEASE_NONE) 0 0 0 0 0 0 next.

Definition init_with_max_retries (base region_len capacity retries : Z) : result TaskError (TaskQueue * QueueMem) :=
  if (capacity =? 0) || negb (is_power_of_two capacity) then Err (BadCapacity capacity)
  else if negb (base mod 8 =? 0) then Err Misaligned
  else if region_len <? required_bytes capacity then Err (RegionTooSmall (required_bytes capacity) region_len)
  else
    let free_head i := pack_stack_head (if (i =? 0)%nat then 0 else STACK_NIL) 0 in
    let lease_cap := lease_capacity capacity in
    Ok (mkTaskQueue capacity,
        mkQueueMem TASK_MAGIC capacity (capacity - 1) retries 0 0 0 0 (pack_stack_head 0 0)
          (free_head <$> seq 0 SHARDS)
          ((fun _ => pack_stack_head STACK_NIL 0) <$> seq 0 SHARDS)
          (init_slot capacity <$> seq 0 (Z.to_nat capacity))
          (init_lease lease_cap <$> seq 0 (Z.to_nat lease_cap)) ∅).

Definition init (base region_len capacity : Z) : result TaskError (TaskQueue * QueueMem) :=
  init_with_max_retries base region_len capacity DEFAULT_MAX_RETRIES.

Definition attach (base region_len : Z) (m : QueueMem) : result TaskError TaskQueue :=
  if negb (base mod 8 =? 0) then Err Misaligned
  else if region_len <? SIZEOF_TaskQueueHeader then Err (RegionTooSmall SIZEOF_TaskQueueHeader region_len)
  else if negb (magic m =? TASK_MAGIC) then Err BadMagic
  else if region_len <? required_bytes (q_capacity m) then Err (RegionTooSmall (required_bytes (q_capacity m)) region_len)
  else Ok (mkTaskQueue (q_capacity m)).

(** ** The stacks *)

Definition slot_next (i : Z) (m : QueueMem) : option Z := ts_next <$> at_index (slots m) i.
Definition set_slot_next (i n : Z) (m : QueueMem) : option QueueMem :=
  match at_index (slots m) i with
  | Some t => Some (set_slots (<[Z.to_nat i := set_next n t]> (slots m)) m)
  | None => None
  end.

Definition free_stack (s : nat) : stack_ops QueueMem :=
  mkStackOps _ (fun m => default 0 (free_heads m !! s)) (fun h m => set_free_heads (<[s := h]> (free_heads m)) m)
    slot_next set_slot_next.

Definition ready_stack (s : nat) : stack_ops QueueMem :=
  mkStackOps _ (fun m => default 0 (ready_heads m !! s)) (fun h m => set_ready_heads (<[s := h]> (ready_heads m)) m)
    slot_next set_slot_next.

Definition lease_stack : stack_ops QueueMem :=
  mkStackOps _ lease_free_head set_lease_head
    (fun i m => ls_next <$> at_index (leases m) i)
    (fun i n m =>
       match at_index (leases m) i with
       | Some l => Some (set_leases (<[Z.to_nat i := set_lnext n l]> (leases m)) m)
       | None => None
       end).

(** [self.slot(idx)] and [self.lease(idx)]. *)
Definition slot {A} (idx : Z) (p : prog TaskSlot A) : prog QueueMem A := lift (elem slots set_slots (Z.to_nat idx)) p.
Definition lease {A} (idx : nat) (p : prog LeaseSlot A) : prog QueueMem A := lift (elem leases set_leases idx) p.

Section queue.
(** The handle; the loops' fuel; the calling thread and the address its cursor is
    seeded from; the two notifiers. *)
Context (q : TaskQueue) (fuel : nat) (tid : nat) (tls_addr : Z) (work_notify done_notify : prog QueueMem unit).

Definition next_shard : prog QueueMem nat :=
  act (fun m =>
    let c := default 0 (shard_cursor m !! tid) in
    let v := if c =? 0 then Z.lor (wrap32 (Z.shiftr tls_addr 6)) 1 else c in
    Some (Z.to_nat (v mod Z.of_nat SHARDS), set_cursor (<[tid := wrap32 (v + 1)]> (shard_cursor m)) m)).

Definition claim_pop (s : nat) : prog QueueMem (option (option Z)) :=
  loop fuel (fun _ : unit =>
    r <-- treiber_pop (ready_stack s) fuel ;;
    match r with
    | None => done (inr None)
    | Some idx =>
        won <- slot idx try_claim ;;
        if (won : bool) then done (inr (Some idx))
        else
          _ <-- treiber_push (free_stack s) fuel idx ;;
          fetch_add32 cancelled set_cancelled (-1) ;;;
          done (inl tt)
    end) tt.

Definition publish_queued (s : nat) (idx : Z) : prog QueueMem (option unit) :=
  slot idx (store (set_state QUEUED)) ;;;
  treiber_push (ready_stack s) fuel idx.

Definition pop_free : prog QueueMem (option (option Z)) :=
  home <- next_shard ;;
  loop_each (seq 0 SHARDS) (fun k => treiber_pop (free_stack ((home + k) mod SHARDS)) fuel).

Definition push_free (idx : Z) : prog QueueMem (option unit) :=
  s <- next_shard ;;
  treiber_push (free_stack s) fuel idx.

Definition lease_table_capacity : nat := Z.to_nat (lease_capacity (wrap32 (capacity q))).

Definition pop_lease : prog QueueMem (option (option Z)) := treiber_pop lease_stack fuel.
Definition push_lease (idx : Z) : prog QueueMem (option unit) := treiber_push lease_stack fuel idx.

Definition release_lease_record (i : nat) (word : Z) : prog QueueMem (option (option LeaseBinding)) :=
  won <- lease i (try_release word) ;;
  if (won : bool) then
    aid <- lease i (load ls_artifact_id) ;;
    inc <- lease i (load ls_incarnation) ;;
    ver <- lease i (load ls_version) ;;
    lease i retire ;;;
    _ <-- push_lease (wrap32 (Z.of_nat i)) ;;
    done (Some (mkBinding aid inc ver))
  else done None.

(** [if waiters > 0 { notify() }] *)
Definition notify_if (waiters : QueueMem -> Z) (notify : prog QueueMem unit) : prog QueueMem unit :=
  w <- load waiters ;; if 0 <? w then notify else Ret tt.
Definition notify_done_if_waiters : prog QueueMem unit := notify_if waiters_done done_notify.

(** One shard of [reserve_cancelled_ready]: pop at most [n] READY nodes; the
    first CANCELLED one is reserved, the others are held aside (last popped first).
    Then the held nodes are pushed back. *)
Fixpoint dig (s : nat) (n : nat) (held : list Z) : prog QueueMem (option (option Z * list Z)) :=
  match n with
  | O => done (None, held)
  | S n' =>
      r <-- treiber_pop (ready_stack s) fuel ;;
      match r with
      | None => done (None, held)
      | Some idx =>
          won <- slot idx (cas ts_state set_state CANCELLED RESERVED) ;;
          if (won : bool * Z).1 then
            fetch_add32 cancelled set_cancelled (-1) ;;;
            done (Some idx, held)
          else dig s n' (idx :: held)
      end
  end.

(** [Some None]: [break] out of the shards with nothing found. *)
Definition dig_shard (s : nat) : prog QueueMem (option (option (option Z))) :=
  c <- load cancelled ;;
  if (c =? 0) || (capacity q <? c) then done (Some None)
  else
    d <-- dig s DRAIN_DIG [] ;;
    _ <-- loop_fold d.2 (fun _ idx => treiber_push (ready_stack s) fuel idx) tt ;;
    match d.1 with
    | Some idx => done (Some (Some idx))
    | None => done None
    end.

Definition reserve_cancelled_ready : prog QueueMem (option (option Z)) :=
  r <-- loop_each (seq 0 SHARDS) dig_shard ;;
  found <-- (match r with
             | Some (Some idx) => done (Some idx)
             | _ =>
                 o <-- pop_free ;;
                 match o with
                 | Some idx => slot idx (store (set_state RESERVED)) ;;; done (Some idx)
                 | None => done None
                 end
             end) ;;
  notify_if waiters_work work_notify ;;;
  done found.

Definition reserve_submit_slot : prog QueueMem (option (option Z)) :=
  o <-- pop_free ;;
  match o with
  | Some idx => slot idx (store (set_state RESERVED)) ;;; done (Some idx)
  | None => reserve_cancelled_ready
  end.

Definition submit_inner (request : ChunkDesc) (deadline : Z) (input : option LeaseBinding)
    : prog QueueMem (option (result TaskError TaskHandle)) :=
  li <-- (match input with
          | Some b => o <-- pop_lease ;; done (match o with Some li => Ok (Some (b, li)) | None => Err LeaseTableFull end)
          | None => done (Ok None)
          end) ;;
  match li with
  | Err e => done (Err e)
  | Ok armed =>
      r <-- reserve_submit_slot ;;
      match r with
      | None =>
          _ <-- (match armed with Some (_, li) => push_lease li | None => done tt end) ;;
          done (Err QueueFull)
      | Some idx =>
          old_seq <- slot idx (load ts_seq) ;;
          let new_seq := wrap64 (old_seq + 1) in
          slot idx (store (set_seq new_seq)) ;;;
          slot idx (store (set_owner OWNER_NONE)) ;;;
          slot idx (store (set_retry 0)) ;;;
          slot idx (store (set_cancel 0)) ;;;
          slot idx (store (set_deadline deadline)) ;;;
          slot idx (store (set_request request)) ;;;
          slot idx (store (set_result ChunkDesc.ZERO)) ;;;
          (match armed with
           | Some (b, li) => lease (Z.to_nat li) (arm b idx new_seq deadline)
           | None => Ret tt
           end) ;;;
          s <- next_shard ;;
          _ <-- publish_queued s idx ;;
          notify_if waiters_work work_notify ;;;
          done (Ok (mkHandle idx new_seq))
      end
  end.

Definition submit (request : ChunkDesc) (deadline : Z) := submit_inner request deadline None.
Definition submit_with_binding (request : ChunkDesc) (deadline : Z) (input : LeaseBinding) :=
  submit_inner request deadline (Some input).

Definition claim_inner (worker_id : Z) (deadline : option Z) : prog QueueMem (option (option ClaimedTask)) :=
  let home := Z.to_nat (worker_id mod Z.of_nat SHARDS) in
  let stride := (1 + 2 * Z.to_nat (worker_id mod Z.of_nat (SHARDS / 2)))%nat in
  popped <-- loop_each (seq 0 SHARDS) (fun k => claim_pop ((home + k * stride) mod SHARDS)) ;;
  match popped with
  | None => done None
  | Some idx =>
      slot idx (store (set_owner worker_id)) ;;;
      (match deadline with Some d => slot idx (store (set_deadline d)) | None => Ret tt end) ;;;
      sq <- slot idx (load ts_seq) ;;
      request <- slot idx (load ts_request) ;;
      done (Some (mkClaimed idx sq worker_id request))
  end.

Definition claim (worker_id : Z) := claim_inner worker_id None.
Definition claim_with_lease (worker_id deadline : Z) := claim_inner worker_id (Some deadline).

(** Both blocking claims: [try_claim_once] is [claim], or [claim_with_lease] at the
    current time plus the lease. *)
Definition claim_blocking_with (try_once : prog QueueMem (option (option ClaimedTask))) (park : prog QueueMem unit)
    (rounds : nat) : prog QueueMem (option ClaimedTask) :=
  loop rounds (fun _ : unit =>
    t <-- try_once ;;
    match t with
    | Some task => done (inr task)
    | None =>
        fetch_add32 waiters_work set_waiters_work 1 ;;;
        t' <-- try_once ;;
        (match t' with None => park | Some _ => Ret tt end) ;;;
        fetch_add32 waiters_work set_waiters_work (-1) ;;;
        done (match t' with Some task => inr task | None => inl tt end)
    end) tt.

Definition claim_blocking (worker_id : Z) (park : prog QueueMem unit) (rounds : nat) :=
  claim_blocking_with (claim worker_id) park rounds.
Definition claim_blocking_with_lease (now : prog QueueMem Z) (worker_id lease_nanos : Z) (park : prog QueueMem unit) (rounds : nat) :=
  claim_blocking_with (t <- now ;; claim_with_lease worker_id (wrap64 (t + lease_nanos))) park rounds.

Definition poll (h : TaskHandle) : prog QueueMem (result TaskError TaskStatus) :=
  if capacity q <=? slot_idx h then Ret (Err StaleHandle)
  else
    s1 <- slot (slot_idx h) (load ts_seq) ;;
    if negb (s1 =? h_seq h) then Ret (Err StaleHandle)
    else
      st <- slot (slot_idx h) (load ts_state) ;;
      if (st =? QUEUED) || (st =? RESERVED) then Ret (Ok SQueued)
      else if (st =? CLAIMED) || (st =? COMPLETING) then Ret (Ok SClaimed)
      else if st =? DONE then
        r <- slot (slot_idx h) (load ts_result) ;;
        s2 <- slot (slot_idx h) (load ts_seq) ;;
        if negb (s2 =? h_seq h) then Ret (Err StaleHandle) else Ret (Ok (SDone r))
      else if st =? FAILED then Ret (Ok SFailed)
      else if st =? CANCELLED then Ret (Ok SCancelled)
      else Ret (Err StaleHandle).

Definition wait (h : TaskHandle) (park : prog QueueMem unit) (rounds : nat) : prog QueueMem (option (result TaskError Outcome)) :=
  loop rounds (fun _ : unit =>
    s <- poll h ;;
    match s with
    | Err e => done (inr (Err e))
    | Ok (SDone r) => done (inr (Ok (ODone r)))
    | Ok SFailed => done (inr (Ok OFailed))
    | Ok SCancelled => done (inr (Ok OCancelled))
    | Ok SQueued | Ok SClaimed =>
        fetch_add32 waiters_done set_waiters_done 1 ;;;
        s' <- poll h ;;
        match s' with
        | Err e => done (inr (Err e))
        | Ok recheck =>
            (match recheck with SQueued | SClaimed => park | _ => Ret tt end) ;;;
            fetch_add32 waiters_done set_waiters_done (-1) ;;;
            done (inl tt)
        end
    end) tt.

Definition cancel (h : TaskHandle) : prog QueueMem (result TaskError unit) :=
  if capacity q <=? slot_idx h then Ret (Err StaleHandle)
  else
    s1 <- slot (slot_idx h) (load ts_seq) ;;
    if negb (s1 =? h_seq h) then Ret (Err StaleHandle)
    else
      fetch_add32 cancelled set_cancelled 1 ;;;
      won <- slot (slot_idx h) try_cancel_queued ;;
      if (won : bool) then notify_done_if_waiters ;;; Ret (Ok tt)
      else
        fetch_add32 cancelled set_cancelled (-1) ;;;
        st <- slot (slot_idx h) (load ts_state) ;;
        (if st =? CLAIMED then
           s2 <- slot (slot_idx h) (load ts_seq) ;;
           if s2 =? h_seq h then slot (slot_idx h) (store (set_cancel 1)) else Ret tt
         else Ret tt) ;;;
        Ret (Ok tt).

(** The body of [ack]'s sweep over the lease table. *)
Definition ack_record (h : TaskHandle) (acked : Z) (i : nat) : prog QueueMem Z :=
  w <- lease i (load ls_word) ;;
  if negb (lease_word_state w =? LEASE_ARMED) then Ret acked
  else
    si <- lease i (load ls_slot_idx) ;;
    if negb (si =? slot_idx h) then Ret acked
    else
      sq <- lease i (load ls_seq) ;;
      if negb (sq =? h_seq h) then Ret acked
      else
        won <- lease i (try_ack w) ;;
        Ret (if (won : bool) then acked + 1 else acked).

Definition ack (h : TaskHandle) : prog QueueMem (result TaskError Z) :=
  if capacity q <=? slot_idx h then Ret (Err StaleHandle)
  else
    s1 <- slot (slot_idx h) (load ts_seq) ;;
    live <- (if s1 =? h_seq h then
               st <- slot (slot_idx h) (load ts_state) ;;
               Ret (negb ((st =? DONE) || (st =? FAILED) || (st =? CANCELLED)))
             else Ret false) ;;
    if (live : bool) then Ret (Err NotTerminal)
    else
      n <- for_fold (seq 0 lease_table_capacity) (ack_record h) 0 ;;
      Ret (Ok n).

(** The body of [reap_bindings]'s sweep: [None] is [continue]. *)
Definition reap_binding (now grace : Z) (i : nat) : prog QueueMem (option (option LeaseBinding)) :=
  w <- lease i (load ls_word) ;;
  if lease_word_state w =? LEASE_ACKED then release_lease_record i w
  else if negb (lease_word_state w =? LEASE_ARMED) then done None
  else
    d <- lease i (load ls_deadline) ;;
    if now <=? Z.min (d + grace) U64_MAX then done None
    else
      sidx <- lease i (load ls_slot_idx) ;;
      live <- (if sidx <? capacity q then
                 s1 <- slot sidx (load ts_seq) ;;
                 s2 <- lease i (load ls_seq) ;;
                 if s1 =? s2 then
                   st <- slot sidx (load ts_state) ;;
                   Ret ((st =? QUEUED) || (st =? CLAIMED) || (st =? COMPLETING))
                 else Ret false
               else Ret false) ;;
      if (live : bool) then done None else release_lease_record i w.

Definition reap_bindings (now grace : Z) : prog QueueMem (option (list LeaseBinding)) :=
  loop_fold (seq 0 lease_table_capacity)
    (fun out i => o <-- reap_binding now grace i ;; done (match o with Some b => out ++ [b] | None => out end)) [].

(** The body of [reap]'s sweep over the slots. *)
Definition reap_slot (now retries : Z) (rep : ReapReport) (idx : nat) : prog QueueMem (option ReapReport) :=
  let i := Z.of_nat idx in
  st <- slot i (load ts_state) ;;
  if negb (st =? CLAIMED) then done rep
  else
    d <- slot i (load ts_deadline) ;;
    if now <=? d then done rep
    else
      retry <- slot i (load ts_retry) ;;
      if retries <=? retry then
        won <- slot i try_fail ;;
        if (won : bool) then
          _ <-- push_free i ;;
          done (mkReport (requeued rep) (failed rep + 1))
        else done rep
      else
        won <- slot i try_begin_reap_requeue ;;
        if (won : bool) then
          slot i (store (set_retry (retry + 1))) ;;;
          slot i (store (set_owner OWNER_NONE)) ;;;
          _ <-- publish_queued (idx mod SHARDS) i ;;
          done (mkReport (requeued rep + 1) (failed rep))
        else done rep.

Definition reap (now : Z) : prog QueueMem (option ReapReport) :=
  retries <- load max_retries ;;
  rep <-- loop_fold (seq 0 (Z.to_nat (capacity q))) (reap_slot now retries) (mkReport 0 0) ;;
  (if 0 <? requeued rep then notify_if waiters_work work_notify else Ret tt) ;;;
  (if 0 <? failed rep then notify_if waiters_done done_notify else Ret tt) ;;;
  done rep.

(** ** The claimed task *)

Definition attempt (ct : ClaimedTask) : prog QueueMem Z := slot (ct_idx ct) (load ts_retry).
Definition is_cancelled (ct : ClaimedTask) : prog QueueMem bool :=
  c <- slot (ct_idx ct) (load ts_cancel) ;; Ret (negb (c =? 0)).

Definition bind_output (ct : ClaimedTask) (b : LeaseBinding) : prog QueueMem (option (result TaskError unit)) :=
  o <-- pop_lease ;;
  match o with
  | None => done (Err LeaseTableFull)
  | Some li =>
      d <- slot (ct_idx ct) (load ts_deadline) ;;
      lease (Z.to_nat li) (arm b (wrap32 (ct_idx ct)) (ct_seq ct) d) ;;;
      done (Ok tt)
  end.

Definition complete (ct : ClaimedTask) (result : ChunkDesc) : prog QueueMem (option (Prelude.result TaskError unit)) :=
  sq <- slot (ct_idx ct) (load ts_seq) ;;
  if negb (sq =? ct_seq ct) then done (Err StaleHandle)
  else
    won <- slot (ct_idx ct) try_begin_complete ;;
    if (won : bool) then
      slot (ct_idx ct) (store (set_result result)) ;;;
      slot (ct_idx ct) (store (set_state DONE)) ;;;
      _ <-- push_free (ct_idx ct) ;;
      notify_done_if_waiters ;;;
      done (Ok tt)
    else done (Err Lost).

Definition fail (ct : ClaimedTask) : prog QueueMem (option (result TaskError unit)) :=
  sq <- slot (ct_idx ct) (load ts_seq) ;;
  if negb (sq =? ct_seq ct) then done (Err StaleHandle)
  else
    won <- slot (ct_idx ct) try_fail ;;
    if (won : bool) then
      _ <-- push_free (ct_idx ct) ;;
      notify_done_if_waiters ;;;
      done (Ok tt)
    else done (Err Lost).
End queue.
