(* ===== verification/TaskQueueInv.v ===== *)
(** * Symbolic execution of the task queue

    The structure of the queue's memory is sixteen disjoint stacks of task nodes
    and one stack of lease nodes; everything else is data.  [St c C L m] says that
    memory [m] has the stacks [C] (eight FREE, then eight READY) and [L] and that
    its data, with all link and head words erased, is [c].  Every primitive step of
    the model is given a rule on [(c, C, L)], so that the operations are verified
    without looking at links, tags or heads again. *)

From S2P Require Import Prelude Atomic Pod ChunkDesc Treiber TaskQueue.

(** ** Data: the memory without links, heads, doorbell and cursors *)

Definition erase (t : TaskSlot) : TaskSlot := set_next 0 t.
Definition lerase (l : LeaseSlot) : LeaseSlot := set_lnext 0 l.

Definition core (m : QueueMem) : QueueMem :=
  mkQueueMem (magic m) (q_capacity m) (q_mask m) (max_retries m) (cancelled m) (waiters_work m) (waiters_done m)
    0 0 [] [] (erase <$> slots m) (lerase <$> leases m) ∅.

(** ** Structure *)

Definition stack (k : nat) : stack_ops QueueMem := if decide (k < 8)%nat then free_stack k else ready_stack (k - 8).

Definition disjoint_stacks (C : list (list Z)) : Prop :=
  forall k k' l l' i, C !! k = Some l -> C !! k' = Some l' -> i ∈ l -> i ∈ l' -> k = k'.

Record structured (m : QueueMem) (C : list (list Z)) (L : list Z) : Prop := {
  st_heads : length (free_heads m) = 8%nat /\ length (ready_heads m) = 8%nat /\ length C = 16%nat;
  st_small : Z.of_nat (length (slots m)) <= U32_MAX /\ Z.of_nat (length (leases m)) <= U32_MAX;
  st_holds k l : C !! k = Some l -> holds (stack k) m l /\ Forall (below (length (slots m))) l;
  st_disjoint : disjoint_stacks C;
  st_lease : holds lease_stack m L /\ Forall (below (length (leases m))) L
}.

Definition St (c : QueueMem) (C : list (list Z)) (L : list Z) (m : QueueMem) : Prop :=
  structured m C L /\ core m = c.

(** The verification triple: from any memory in symbolic state [(c, C, L)] the
    program ends, in bounds and within its fuel, in a state described by [Q]. *)
Definition tri {A} (c : QueueMem) (C : list (list Z)) (L : list Z) (p : prog QueueMem (option A))
    (Q : A -> QueueMem -> list (list Z) -> list Z -> Prop) : Prop :=
  forall m, St c C L m -> terminates p (fun a m' => exists c' C' L', St c' C' L' m' /\ Q a c' C' L') m.

Lemma tri_mono {A} c C L (p : prog QueueMem (option A)) (Q Q' : A -> QueueMem -> list (list Z) -> list Z -> Prop) :
  (forall a c' C' L', Q a c' C' L' -> Q' a c' C' L') -> tri c C L p Q -> tri c C L p Q'.
Proof. intros HQ Hp m Hm. eapply terminates_mono; [|by apply Hp]. naive_solver. Qed.

Lemma tri_done {A} c C L (a : A) (Q : A -> QueueMem -> list (list Z) -> list Z -> Prop) :
  Q a c C L -> tri c C L (done a) Q.
Proof. intros HQ m Hm. apply terminates_done. eauto 10. Qed.

Lemma tri_fbind {A B} c C L (p : prog QueueMem (option A)) (k : A -> prog QueueMem (option B)) R Q :
  tri c C L p R -> (forall a c' C' L', R a c' C' L' -> tri c' C' L' (k a) Q) -> tri c C L (fbind p k) Q.
Proof.
  intros Hp Hk m Hm. apply terminates_fbind. eapply terminates_mono; [|by apply Hp].
  intros a m' (c' & C' & L' & Hm' & HR). by eapply Hk.
Qed.

(** A plain step: a deterministic run to a described state. *)
Lemma tri_bind {A B} c C L (p : prog QueueMem A) (k : A -> prog QueueMem (option B)) Q :
  (forall m, St c C L m -> exists a m' c' C' L', run p m = Some (a, m') /\ St c' C' L' m' /\ tri c' C' L' (k a) Q) ->
  tri c C L (pbind p k) Q.
Proof.
  intros H m Hm. destruct (H m Hm) as (a & m' & c' & C' & L' & E & Hm' & Hk).
  eapply terminates_bind; [exact E|by apply Hk].
Qed.

(** ** Stack steps *)

Definition slots_ok (n : nat) (m : QueueMem) : Prop :=
  length (free_heads m) = 8%nat /\ length (ready_heads m) = 8%nat /\ length (slots m) = n.

Lemma slot_next_laws n i nx m :
  slots_ok n m -> below n i ->
  exists m', set_slot_next i nx m = Some m' /\ slots_ok n m' /\ free_heads m' = free_heads m /\
    ready_heads m' = ready_heads m /\
    forall j, slot_next j m' = if decide (i = j) then Some nx else slot_next j m.
Proof.
  intros (H1 & H2 & H3) Hi. unfold set_slot_next, slot_next. rewrite <- H3 in Hi.
  destruct (at_index_below (slots m) i Hi) as (t & -> & Ht).
  eexists. split; [done|]. unfold slots_ok. csimpl. rewrite length_insert. split_and!; try done.
  intros j. rewrite at_index_insert by done. by case_decide.
Qed.

Lemma task_stack_laws n k : (k < 16)%nat -> stack_laws (stack k) (slots_ok n) (below n).
Proof.
  intros Hk. unfold stack. case_decide as Hc; (split; cbn [s_head s_set_head s_next s_set_next free_stack ready_stack]).
  all: try (intros m h (? & ? & ?); unfold slots_ok; csimpl; rewrite ?length_insert; done).
  all: try done.
  all: try (intros m h (? & ? & ?); csimpl; rewrite list_lookup_insert_eq by lia; done).
  all: try (intros m i (? & ? & <-) Hi; unfold slot_next;
            destruct (at_index_below (slots m) i Hi) as (t & -> & _); by eexists).
  all: intros m i nx Hm Hi; destruct (slot_next_laws n i nx m Hm Hi) as (m' & E & Hm' & E1 & E2 & Hn);
       exists m'; by rewrite ?E1, ?E2.
Qed.

Lemma lease_stack_laws n : stack_laws lease_stack (fun m => length (leases m) = n) (below n).
Proof.
  split; cbn; try done.
  - intros m i <- Hi. destruct (at_index_below (leases m) i Hi) as (t & -> & _). by eexists.
  - intros m i nx <- Hi. destruct (at_index_below (leases m) i Hi) as (t & -> & _).
    eexists. split; [done|]. csimpl. rewrite length_insert. split_and!; try done.
    intros j. rewrite at_index_insert by done. by case_decide.
Qed.

(** ** Frames *)

Lemma stack_next k j m : s_next (stack k) j m = slot_next j m.
Proof. unfold stack. by case_decide. Qed.

Lemma stack_head_other k k' h m :
  k <> k' -> s_head (stack k') (s_set_head (stack k) h m) = s_head (stack k') m.
Proof.
  intros Hne. unfold stack. repeat case_decide; cbn; try done; rewrite list_lookup_insert_ne by lia; done.
Qed.

Lemma stack_set_head_frame k h m :
  core (s_set_head (stack k) h m) = core m /\ slots (s_set_head (stack k) h m) = slots m /\
  leases (s_set_head (stack k) h m) = leases m /\
  lease_free_head (s_set_head (stack k) h m) = lease_free_head m /\
  length (free_heads (s_set_head (stack k) h m)) = length (free_heads m) /\
  length (ready_heads (s_set_head (stack k) h m)) = length (ready_heads m).
Proof. unfold stack. case_decide; csimpl; rewrite ?length_insert; done. Qed.

Lemma slot_next_set_head k h j m : slot_next j (s_set_head (stack k) h m) = slot_next j m.
Proof. unfold slot_next. destruct (stack_set_head_frame k h m) as (_ & -> & _). done. Qed.

Lemma structured_ok m C L : structured m C L -> slots_ok (length (slots m)) m.
Proof. intros H. destruct (st_heads _ _ _ H) as (? & ? & ?). done. Qed.

Lemma disjoint_sub C k l l' :
  C !! k = Some l -> (forall i, i ∈ l' -> i ∈ l) -> disjoint_stacks C -> disjoint_stacks (<[k := l']> C).
Proof.
  intros Hk Hsub HD a b la lb i Ha Hb Hia Hib.
  apply list_lookup_insert_Some in Ha as [(<- & <- & _)|(Hne & Ha)];
    apply list_lookup_insert_Some in Hb as [(<- & <- & _)|(Hne' & Hb)]; eauto.
Qed.

Lemma disjoint_add C k l i :
  C !! k = Some l -> (forall k' l', C !! k' = Some l' -> i ∉ l') -> disjoint_stacks C ->
  disjoint_stacks (<[k := i :: l]> C).
Proof.
  intros Hk Hi HD a b la lb j Ha Hb Hja Hjb.
  apply list_lookup_insert_Some in Ha as [(<- & <- & _)|(Hne & Ha)];
    apply list_lookup_insert_Some in Hb as [(<- & <- & _)|(Hne' & Hb)]; try done.
  - apply elem_of_cons in Hja as [->|Hja]; [by destruct (Hi b lb)|eauto].
  - apply elem_of_cons in Hjb as [->|Hjb]; [by destruct (Hi a la)|eauto].
  - eauto.
Qed.

(** Replacing the contents of stack [k], with only node [i]'s link and [k]'s head
    changed, where [i] is on no other stack. *)
Lemma structured_update m C L k l l' m1 h :
  structured m C L -> C !! k = Some l ->
  length (slots m1) = length (slots m) -> free_heads m1 = free_heads m -> ready_heads m1 = ready_heads m ->
  leases m1 = leases m -> lease_free_head m1 = lease_free_head m ->
  (forall k' lk j, C !! k' = Some lk -> k' <> k -> j ∈ lk -> slot_next j m1 = slot_next j m) ->
  holds (stack k) (s_set_head (stack k) h m1) l' -> Forall (below (length (slots m))) l' ->
  disjoint_stacks (<[k := l']> C) -> structured (s_set_head (stack k) h m1) (<[k := l']> C) L.
Proof.
  intros HS Hk El Ef Er Ele Elh Hfr Hh Hb HD.
  destruct (stack_set_head_frame k h m1) as (_ & E1 & E2 & E3 & E4 & E5).
  destruct (st_heads _ _ _ HS) as (H1 & H2 & H3), (st_small _ _ _ HS) as [H4 H5].
  split; rewrite ?E1, ?E2, ?E4, ?E5, ?El, ?Ef, ?Er, ?Ele, ?length_insert; try done.
  - intros k' lk Hk'. apply list_lookup_insert_Some in Hk' as [(<- & <- & _)|(Hne & Hk')]; [done|].
    destruct (st_holds _ _ _ HS k' lk Hk') as [Hh' Hb']. split; [|done].
    apply (holds_agree m); [| |done].
    + rewrite stack_head_other by done. unfold stack. case_decide; cbn; by rewrite ?Ef, ?Er.
    + intros j Hj. rewrite !stack_next, slot_next_set_head. by eapply Hfr.
  - destruct (st_lease _ _ _ HS) as [Hl Hbl]. split; [|done].
    apply (holds_agree m); cbn; [by rewrite E3|by rewrite E2, Ele|done].
Qed.

Lemma small_index n i : below n i -> Z.of_nat n <= U32_MAX -> is_u32 i /\ i <> Treiber.EMPTY.
Proof. unfold below, Treiber.EMPTY. split; mach. Qed.

Lemma core_set_next i n m t :
  slots m !! i = Some t -> core (set_slots (<[i := set_next n t]> (slots m)) m) = core m.
Proof.
  intros Ht. unfold core. csimpl. rewrite list_fmap_insert. f_equal. apply list_insert_id.
  by rewrite list_lookup_fmap, Ht.
Qed.

(** ** Rules for the stacks *)

Section rules.
Context (c : QueueMem) (C : list (list Z)) (L : list Z).

Lemma tri_pop k l fuel (Q : option Z -> QueueMem -> list (list Z) -> list Z -> Prop) :
  C !! k = Some l ->
  match l with [] => Q None c C L | i :: l' => Q (Some i) c (<[k := l']> C) L end ->
  tri c C L (treiber_pop (stack k) (S fuel)) Q.
Proof.
  intros Hk HQ m [HS Hc]. destruct (st_holds _ _ _ HS k l Hk) as [Hh Hb].
  assert (Hk16 : (k < 16)%nat) by (rewrite <- (proj2 (proj2 (st_heads _ _ _ HS))); by eapply lookup_lt_Some).
  apply terminates_run. destruct l as [|i l'].
  - exists None, m. split; [by apply run_pop_nil|]. exists c, C, L. done.
  - destruct (run_pop_cons (task_stack_laws _ k Hk16) m i l' fuel (structured_ok _ _ _ HS) Hh) as (h & E & Hh').
    exists (Some i), (s_set_head (stack k) h m). split; [exact E|]. exists c, (<[k := l']> C), L. split; [|done].
    split; [|by rewrite (proj1 (stack_set_head_frame k h m))].
    apply (structured_update m C L k (i :: l')); try done.
    + by apply list.Forall_cons in Hb as [_ ?].
    + apply (disjoint_sub C k (i :: l')); [done| |by apply (st_disjoint _ _ _ HS)].
      intros j Hj. by apply list_elem_of_further.
Qed.

Lemma tri_push k l i fuel (Q : unit -> QueueMem -> list (list Z) -> list Z -> Prop) :
  C !! k = Some l -> below (length (slots c)) i -> (forall k' l', C !! k' = Some l' -> i ∉ l') ->
  Q tt c (<[k := i :: l]> C) L ->
  tri c C L (treiber_push (stack k) (S fuel) i) Q.
Proof.
  intros Hk Hi Hnot HQ m [HS Hc]. destruct (st_holds _ _ _ HS k l Hk) as [Hh Hb].
  assert (Hk16 : (k < 16)%nat) by (rewrite <- (proj2 (proj2 (st_heads _ _ _ HS))); by eapply lookup_lt_Some).
  assert (Hlen : length (slots c) = length (slots m)) by (subst c; apply length_fmap).
  rewrite Hlen in Hi. destruct (small_index _ i Hi (proj1 (st_small _ _ _ HS))) as [Hi32 Hine].
  destruct (run_push (task_stack_laws _ k Hk16) m i l fuel (structured_ok _ _ _ HS) Hi Hi32 Hine (Hnot k l Hk) Hh)
    as (n & m1 & h & E1 & Er & Hh' & Hok').
  apply terminates_run. exists tt, (s_set_head (stack k) h m1). split; [exact Er|].
  assert (E1' : set_slot_next i n m = Some m1) by (unfold stack in E1; case_decide; exact E1).
  unfold set_slot_next in E1'. destruct (at_index_below (slots m) i Hi) as (t & Et & Ht). rewrite Et in E1'.
  injection E1' as <-. exists c, (<[k := i :: l]> C), L. split; [|done]. split.
  - apply (structured_update m C L k l); try done.
    + cbn. by rewrite length_insert.
    + intros k' lk j Hk' Hne Hj. unfold slot_next. csimpl. rewrite at_index_insert by done.
      rewrite decide_False; [done|]. intros ->. by apply (Hnot k' lk Hk').
    + by apply list.Forall_cons.
    + by apply disjoint_add; [| |apply (st_disjoint _ _ _ HS)].
  - rewrite (proj1 (stack_set_head_frame k h _)). by rewrite core_set_next.
Qed.

Lemma structured_lease m L' h ls :
  structured m C L -> length ls = length (leases m) ->
  holds lease_stack (set_lease_head h (set_leases ls m)) L' -> Forall (below (length (leases m))) L' ->
  structured (set_lease_head h (set_leases ls m)) C L'.
Proof.
  intros HS El Hh Hb. destruct (st_heads _ _ _ HS) as (H1 & H2 & H3), (st_small _ _ _ HS) as [H4 H5].
  split; csimpl; rewrite ?El; try done; [|by apply (st_disjoint _ _ _ HS)].
  intros k l Hk. destruct (st_holds _ _ _ HS k l Hk) as [Hh' Hb']. split; [|done].
  apply (holds_agree m); [unfold stack; by case_decide| |done].
  intros j _. by rewrite !stack_next.
Qed.

Lemma tri_pop_lease fuel (Q : option Z -> QueueMem -> list (list Z) -> list Z -> Prop) :
  match L with [] => Q None c C L | i :: L' => Q (Some i) c C L' end ->
  tri c C L (treiber_pop lease_stack (S fuel)) Q.
Proof.
  intros HQ m [HS Hc]. destruct (st_lease _ _ _ HS) as [Hh Hb]. apply terminates_run.
  destruct L as [|i L'] eqn:EL.
  - exists None, m. split; [by apply run_pop_nil|]. exists c, C, []. done.
  - destruct (run_pop_cons (lease_stack_laws (length (leases m))) m i L' fuel eq_refl Hh) as (h & E & Hh').
    exists (Some i), (set_lease_head h m). split; [exact E|]. exists c, C, L'. split; [|done]. split; [|done].
    rewrite <- EL in HS. apply (structured_lease m L' h (leases m) HS eq_refl Hh').
    by apply list.Forall_cons in Hb as [_ ?].
Qed.

Lemma tri_push_lease i fuel (Q : unit -> QueueMem -> list (list Z) -> list Z -> Prop) :
  below (length (leases c)) i -> i ∉ L -> Q tt c C (i :: L) ->
  tri c C L (treiber_push lease_stack (S fuel) i) Q.
Proof.
  intros Hi Hnot HQ m [HS Hc]. destruct (st_lease _ _ _ HS) as [Hh Hb].
  assert (Hlen : length (leases c) = length (leases m)) by (subst c; apply length_fmap).
  rewrite Hlen in Hi. destruct (small_index _ i Hi (proj2 (st_small _ _ _ HS))) as [Hi32 Hine].
  destruct (run_push (lease_stack_laws (length (leases m))) m i L fuel eq_refl Hi Hi32 Hine Hnot Hh)
    as (n & m1 & h & E1 & Er & Hh' & _).
  apply terminates_run. exists tt, (set_lease_head h m1). split; [exact Er|]. cbn in E1.
  destruct (at_index_below (leases m) i Hi) as (t & Et & Ht). rewrite Et in E1. injection E1 as <-.
  exists c, C, (i :: L). split; [|done]. split.
  - apply (structured_lease m (i :: L) h _ HS); [by rewrite length_insert|done|by apply list.Forall_cons].
  - rewrite <- Hc. unfold core. csimpl. rewrite list_fmap_insert. f_equal. apply list_insert_id.
    by rewrite list_lookup_fmap, Ht.
Qed.
End rules.

(** ** Rules for data *)

(** The routine neither reads nor writes the link word. *)
Definition data_only {A} (p : prog TaskSlot A) : Prop :=
  forall n t, run p (set_next n t) = match run p t with Some (a, t') => Some (a, set_next n t') | None => None end.
Definition ldata_only {A} (p : prog LeaseSlot A) : Prop :=
  forall n l, run p (set_lnext n l) = match run p l with Some (a, l') => Some (a, set_lnext n l') | None => None end.

Lemma slots_lens : lens_ok slots set_slots.
Proof. split; [done|by intros []|done]. Qed.
Lemma leases_lens : lens_ok leases set_leases.
Proof. split; [done|by intros []|done]. Qed.

Definition upd_slot (i : Z) (t : TaskSlot) (c : QueueMem) : QueueMem := set_slots (<[Z.to_nat i := t]> (slots c)) c.
Definition upd_lease (i : nat) (l : LeaseSlot) (c : QueueMem) : QueueMem := set_leases (<[i := l]> (leases c)) c.

Lemma structured_same m m' C L :
  free_heads m' = free_heads m -> ready_heads m' = ready_heads m -> length (slots m') = length (slots m) ->
  length (leases m') = length (leases m) -> lease_free_head m' = lease_free_head m ->
  (forall j, slot_next j m' = slot_next j m) -> (forall j, s_next lease_stack j m' = s_next lease_stack j m) ->
  structured m C L -> structured m' C L.
Proof.
  intros E1 E2 E3 E4 E5 E6 E7 HS. destruct (st_heads _ _ _ HS) as (H1 & H2 & H3), (st_small _ _ _ HS) as [H4 H5].
  split; rewrite ?E1, ?E2, ?E3, ?E4; try done; [|by apply (st_disjoint _ _ _ HS)|].
  - intros k l Hk. destruct (st_holds _ _ _ HS k l Hk) as [Hh Hb]. split; [|done].
    apply (holds_agree m); [unfold stack; case_decide; cbn; by rewrite ?E1, ?E2| |done].
    intros j _. by rewrite !stack_next.
  - destruct (st_lease _ _ _ HS) as [Hh Hb]. split; [|done]. by apply (holds_agree m).
Qed.

Lemma set_next_erase t : set_next (ts_next t) (erase t) = t.
Proof. by destruct t. Qed.
Lemma set_lnext_erase l : set_lnext (ls_next l) (lerase l) = l.
Proof. by destruct l. Qed.

Section data_rules.
Context {A B : Type} (c : QueueMem) (C : list (list Z)) (L : list Z).
Context (Q : B -> QueueMem -> list (list Z) -> list Z -> Prop).

Lemma tri_slot i t (p : prog TaskSlot A) (k : A -> prog QueueMem (option B)) a t' :
  data_only p -> slots c !! Z.to_nat i = Some t -> run p t = Some (a, t') -> ts_next t' = 0 ->
  tri (upd_slot i t' c) C L (k a) Q -> tri c C L (pbind (slot i p) k) Q.
Proof.
  intros Hp Ht Hr Hnx Hk. apply tri_bind. intros m [HS Hc]. pose proof Ht as Ht'. rewrite <- Hc in Ht'. csimpl in Ht'.
  rewrite list_lookup_fmap in Ht'. destruct (slots m !! Z.to_nat i) as [t0|] eqn:E0; [|done].
  injection Ht' as <-.
  assert (Hr0 : run p t0 = Some (a, set_next (ts_next t0) t')).
  { rewrite <- (set_next_erase t0) at 1. by rewrite Hp, Hr. }
  exists a, (set_slots (<[Z.to_nat i := set_next (ts_next t0) t']> (slots m)) m), (upd_slot i t' c), C, L.
  split; [|split; [|done]].
  { unfold slot. by rewrite (run_lift_elem _ _ _ _ _ t0 slots_lens E0), Hr0. }
  split.
  - apply (structured_same m); try done; [csimpl; by rewrite length_insert|].
    intros j. unfold slot_next. csimpl. by eapply at_index_insert_same.
  - rewrite <- Hc. unfold core, upd_slot. csimpl. rewrite list_fmap_insert. f_equal. f_equal.
    unfold erase. destruct t'. cbn in *. by subst.
Qed.

Lemma tri_slot_read i t (p : prog TaskSlot A) (k : A -> prog QueueMem (option B)) a :
  data_only p -> slots c !! Z.to_nat i = Some t -> run p t = Some (a, t) ->
  tri c C L (k a) Q -> tri c C L (pbind (slot i p) k) Q.
Proof.
  intros Hp Ht Hr Hk. destruct (decide (ts_next t = 0)) as [Hn|Hn].
  - eapply tri_slot; try done. unfold upd_slot. rewrite list_insert_id by done. by destruct c.
  - intros m [_ Hc]. rewrite <- Hc in Ht. csimpl in Ht. rewrite list_lookup_fmap in Ht.
    by destruct (slots m !! Z.to_nat i); simplify_eq/=.
Qed.

Lemma tri_lease i l (p : prog LeaseSlot A) (k : A -> prog QueueMem (option B)) a l' :
  ldata_only p -> leases c !! i = Some l -> run p l = Some (a, l') -> ls_next l' = 0 ->
  tri (upd_lease i l' c) C L (k a) Q -> tri c C L (pbind (lease i p) k) Q.
Proof.
  intros Hp Ht Hr Hnx Hk. apply tri_bind. intros m [HS Hc]. pose proof Ht as Ht'. rewrite <- Hc in Ht'. csimpl in Ht'.
  rewrite list_lookup_fmap in Ht'. destruct (leases m !! i) as [t0|] eqn:E0; [|done].
  injection Ht' as <-.
  assert (Hr0 : run p t0 = Some (a, set_lnext (ls_next t0) l')).
  { rewrite <- (set_lnext_erase t0) at 1. by rewrite Hp, Hr. }
  exists a, (set_leases (<[i := set_lnext (ls_next t0) l']> (leases m)) m), (upd_lease i l' c), C, L.
  split; [|split; [|done]].
  { unfold lease. by rewrite (run_lift_elem _ _ _ _ _ t0 leases_lens E0), Hr0. }
  split.
  - apply (structured_same m); try done; [csimpl; by rewrite length_insert|].
    intros j. cbn. by eapply at_index_insert_same.
  - rewrite <- Hc. unfold core, upd_lease. csimpl. rewrite list_fmap_insert. f_equal. f_equal.
    unfold lerase. destruct l'. cbn in *. by subst.
Qed.

Lemma tri_lease_read i l (p : prog LeaseSlot A) (k : A -> prog QueueMem (option B)) a :
  ldata_only p -> leases c !! i = Some l -> run p l = Some (a, l) ->
  tri c C L (k a) Q -> tri c C L (pbind (lease i p) k) Q.
Proof.
  intros Hp Ht Hr Hk. destruct (decide (ls_next l = 0)) as [Hn|Hn].
  - eapply tri_lease; try done. unfold upd_lease. rewrite list_insert_id by done. by destruct c.
  - intros m [_ Hc]. rewrite <- Hc in Ht. csimpl in Ht. rewrite list_lookup_fmap in Ht.
    by destruct (leases m !! i); simplify_eq/=.
Qed.

Lemma tri_cancelled d (k : Z -> prog QueueMem (option B)) :
  tri (set_cancelled (wrap32 (cancelled c + d)) c) C L (k (cancelled c)) Q ->
  tri c C L (pbind (fetch_add32 cancelled set_cancelled d) k) Q.
Proof.
  intros Hk. apply tri_bind. intros m [HS <-].
  eexists _, _, _, C, L. split; [done|]. split; [|exact Hk]. split; [by apply (structured_same m)|done].
Qed.

Lemma tri_load (f : QueueMem -> Z) (k : Z -> prog QueueMem (option B)) :
  (forall m, f m = f (core m)) -> tri c C L (k (f c)) Q -> tri c C L (pbind (load f) k) Q.
Proof.
  intros Hf Hk. apply tri_bind. intros m [HS <-]. rewrite <- Hf in Hk. eexists _, m, _, C, L. done.
Qed.

(** A notifier may ring its doorbell, and does nothing else to the queue. *)
Definition notifier (n : prog QueueMem unit) : Prop := forall m, exists d, run n m = Some (tt, set_doorbell d m).

Lemma tri_notify_if w n (k : unit -> prog QueueMem (option B)) :
  notifier n -> tri c C L (k tt) Q -> tri c C L (pbind (notify_if w n) k) Q.
Proof.
  intros Hn Hk. apply tri_bind. intros m [HS <-]. destruct (Hn m) as [d Hd].
  unfold notify_if. rewrite run_bind. cbn [run load act]. destruct (0 <? w m).
  - rewrite Hd. eexists tt, _, _, C, L. split; [done|]. split; [|exact Hk]. split; [by apply (structured_same m)|done].
  - eexists tt, m, _, C, L. done.
Qed.

Lemma tri_notify_done n (k : unit -> prog QueueMem (option B)) :
  notifier n -> tri c C L (k tt) Q -> tri c C L (pbind (notify_done_if_waiters n) k) Q.
Proof. apply tri_notify_if. Qed.

Lemma tri_ret (x : A) (k : A -> prog QueueMem (option B)) : tri c C L (k x) Q -> tri c C L (pbind (Ret x) k) Q.
Proof. done. Qed.

Lemma tri_next_shard tid addr (k : nat -> prog QueueMem (option B)) :
  (forall s, (s < 8)%nat -> tri c C L (k s) Q) -> tri c C L (pbind (next_shard tid addr) k) Q.
Proof.
  intros Hk. apply tri_bind. intros m [HS <-]. unfold next_shard. rewrite run_act.
  eexists _, _, _, C, L. split; [done|]. split; [split; [by apply (structured_same m)|done]|].
  apply Hk. change (Z.of_nat SHARDS) with 8.
  pose proof (Z.mod_pos_bound (if default 0 (shard_cursor m !! tid) =? 0 then Z.lor (wrap32 (Z.shiftr addr 6)) 1 else default 0 (shard_cursor m !! tid)) 8). lia.
Qed.
End data_rules.

Lemma tri_assoc {A B D} c C L (p : prog QueueMem A) (k1 : A -> prog QueueMem B) (k2 : B -> prog QueueMem (option D)) Q :
  tri c C L (pbind p (fun x => pbind (k1 x) k2)) Q -> tri c C L (pbind (pbind p k1) k2) Q.
Proof.
  intros H m Hm. specialize (H m Hm). unfold terminates in *. rewrite !run_bind in *.
  destruct (run p m) as [[a m']|]; [|done]. by rewrite run_bind in *.
Qed.

Lemma tri_fassoc {A B D} c C L (p : prog QueueMem A) (k1 : A -> prog QueueMem (option B))
    (k2 : B -> prog QueueMem (option D)) Q :
  tri c C L (pbind p (fun x => fbind (k1 x) k2)) Q -> tri c C L (fbind (pbind p k1) k2) Q.
Proof. apply tri_assoc. Qed.

(** ** Rules for loops *)

Section loop_rules.
Context {X Y : Type}.
Implicit Types (c : QueueMem) (C : list (list Z)) (L : list Z).

Lemma tri_each (xs : list X) (body : X -> prog QueueMem (option (option Y)))
    (P : list X -> QueueMem -> list (list Z) -> list Z -> Prop) Q c C L :
  P xs c C L ->
  (forall x xs c C L, P (x :: xs) c C L ->
     tri c C L (body x) (fun r c' C' L' => match r with None => P xs c' C' L' | Some y => Q (Some y) c' C' L' end)) ->
  (forall c C L, P [] c C L -> Q None c C L) ->
  tri c C L (loop_each xs body) Q.
Proof.
  intros HP Hb Hn. revert c C L HP. induction xs as [|x xs IH]; intros c C L HP.
  - by apply tri_done, Hn.
  - cbn [loop_each]. eapply tri_fbind; [by apply Hb|]. intros [y|] c' C' L' H; [by apply tri_done|by apply IH].
Qed.

Lemma tri_fold (xs : list X) (body : Y -> X -> prog QueueMem (option Y)) y
    (P : list X -> Y -> QueueMem -> list (list Z) -> list Z -> Prop) Q c C L :
  P xs y c C L ->
  (forall x xs y c C L, P (x :: xs) y c C L -> tri c C L (body y x) (fun y' c' C' L' => P xs y' c' C' L')) ->
  (forall y c C L, P [] y c C L -> Q y c C L) ->
  tri c C L (loop_fold xs body y) Q.
Proof.
  intros HP Hb Hn. revert y c C L HP. induction xs as [|x xs IH]; intros y c C L HP.
  - by apply tri_done, Hn.
  - cbn [loop_fold]. eapply tri_fbind; [by apply Hb|]. intros y' c' C' L' H. by apply IH.
Qed.

Lemma tri_loop fuel (body : X -> prog QueueMem (option (X + Y))) x
    (P : nat -> X -> QueueMem -> list (list Z) -> list Z -> Prop) Q n c C L :
  P n x c C L -> (n < fuel)%nat ->
  (forall n x c C L, P n x c C L -> tri c C L (body x) (fun r c' C' L' =>
     match r with inl x' => exists n', (n' < n)%nat /\ P n' x' c' C' L' | inr y => Q y c' C' L' end)) ->
  tri c C L (loop fuel body x) Q.
Proof.
  intros HP Hf Hb. revert n x c C L HP Hf. induction fuel as [|fuel IH]; intros n x c C L HP Hf; [lia|].
  cbn [loop]. eapply tri_fbind; [by apply (Hb n)|]. intros [x'|y] c' C' L'; [|by intros; apply tri_done].
  intros (n' & Hn & HP'). apply (IH n'); [done|lia].
Qed.
End loop_rules.

(** ** What the structure implies about the symbolic state *)

Record shape (c : QueueMem) (C : list (list Z)) (L : list Z) : Prop := {
  sh_len : length C = 16%nat;
  sh_small : Z.of_nat (length (slots c)) <= U32_MAX;
  sh_lsmall : Z.of_nat (length (leases c)) <= U32_MAX;
  sh_below k l i : C !! k = Some l -> i ∈ l -> below (length (slots c)) i;
  sh_nodup k l : C !! k = Some l -> NoDup l;
  sh_disjoint : disjoint_stacks C;
  sh_lbelow i : i ∈ L -> below (length (leases c)) i;
  sh_lnodup : NoDup L
}.

Lemma tri_shape {A} c C L (p : prog QueueMem (option A)) Q : (shape c C L -> tri c C L p Q) -> tri c C L p Q.
Proof.
  intros H m Hm. apply H; [|done]. destruct Hm as [HS <-].
  split; rewrite ?length_fmap; csimpl; rewrite ?length_fmap.
  - by destruct (st_heads _ _ _ HS) as (_ & _ & ?).
  - by destruct (st_small _ _ _ HS).
  - by destruct (st_small _ _ _ HS).
  - intros k l i Hk Hi. destruct (st_holds _ _ _ HS k l Hk) as [_ Hb]. rewrite list.Forall_forall in Hb. by apply Hb.
  - intros k l Hk. by destruct (st_holds _ _ _ HS k l Hk) as [[? _] _].
  - by apply (st_disjoint _ _ _ HS).
  - intros i Hi. destruct (st_lease _ _ _ HS) as [_ Hb]. rewrite list.Forall_forall in Hb. by apply Hb.
  - by destruct (st_lease _ _ _ HS) as [[? _] _].
Qed.

(** Node [i] is on no stack. *)
Definition off (C : list (list Z)) (i : Z) : Prop := forall k l, C !! k = Some l -> i ∉ l.

Lemma off_popped c C L k i l : shape c C L -> C !! k = Some (i :: l) -> off (<[k := l]> C) i.
Proof.
  intros Hs Hk k' l' Hk' Hi.
  apply list_lookup_insert_Some in Hk' as [(<- & <- & _)|(Hne & Hk')].
  - by apply (sh_nodup _ _ _ Hs) in Hk as [? _]%list.NoDup_cons.
  - apply Hne. apply (sh_disjoint _ _ _ Hs k k' (i :: l) l' i Hk Hk'); [apply list_elem_of_here|done].
Qed.

Lemma off_insert C k l i : off C i -> i ∉ l -> off (<[k := l]> C) i.
Proof. intros Ho Hi k' l' Hk'. apply list_lookup_insert_Some in Hk' as [(<- & <- & _)|(_ & Hk')]; [done|by apply (Ho k')]. Qed.

(** Pushing back what was popped. *)
Lemma insert_undo (C : list (list Z)) k l : C !! k = Some l -> <[k := l]> C = C.
Proof. apply list_insert_id. Qed.

(** No more nodes than slots. *)
Lemma concat_elem (C : list (list Z)) i : i ∈ concat C <-> exists k l, C !! k = Some l /\ i ∈ l.
Proof.
  rewrite list_elem_of_In, in_concat. split.
  - intros (l & Hl & Hi). apply list_elem_of_In in Hl, Hi. apply list_elem_of_lookup in Hl as [k Hk]. eauto.
  - intros (k & l & Hk & Hi). exists l. split; apply list_elem_of_In; [by eapply list_elem_of_lookup_2|done].
Qed.

Lemma disjoint_cons l C : disjoint_stacks (l :: C) -> disjoint_stacks C /\ forall i, i ∈ l -> i ∉ concat C.
Proof.
  intros HD. split.
  - intros k k' lk lk' i Hk Hk' Hi Hi'. by specialize (HD (S k) (S k') lk lk' i Hk Hk' Hi Hi') as [= ?].
  - intros i Hi (k & lk & Hk & Hik)%concat_elem. by specialize (HD 0%nat (S k) l lk i eq_refl Hk Hi Hik).
Qed.

Lemma NoDup_concat (C : list (list Z)) :
  (forall k l, C !! k = Some l -> NoDup l) -> disjoint_stacks C -> NoDup (concat C).
Proof.
  induction C as [|l C IH]; intros Hn HD; [constructor|]. cbn [concat]. apply disjoint_cons in HD as [HD Hl].
  apply list.NoDup_app. split_and!; [by apply (Hn 0%nat)|exact Hl|].
  apply IH; [|done]. intros k lk Hk. by apply (Hn (S k)).
Qed.

Lemma shape_count c C L : shape c C L -> (length (concat C) <= length (slots c))%nat.
Proof.
  intros Hs. rewrite <- (length_fmap Z.to_nat).
  assert (Hnd : NoDup (Z.to_nat <$> concat C)).
  { apply NoDup_fmap_2_strong; [|by apply NoDup_concat; apply Hs].
    intros x y (k & l & Hk & Hx)%concat_elem (k' & l' & Hk' & Hy)%concat_elem E.
    pose proof (sh_below _ _ _ Hs k l x Hk Hx) as [? _]. pose proof (sh_below _ _ _ Hs k' l' y Hk' Hy) as [? _]. lia. }
  rewrite <- (length_seq (length (slots c)) 0). apply submseteq_length, NoDup_submseteq; [done|].
  intros n (x & -> & (k & l & Hk & Hx)%concat_elem)%list_elem_of_fmap. apply elem_of_seq.
  pose proof (sh_below _ _ _ Hs k l x Hk Hx) as [? ?]. lia.
Qed.
