(* ===== verification/TaskQueueSpec.v ===== *)
(** * The task queue refines a task board

    What the queue does for its clients: a table of tasks and a table of pins, on which
    [spec] says how every operation acts and what it answers.  A board says nothing about
    stacks, shards, tags or counters; [submit] may choose any reusable slot and [claim] any
    queued task, everything else is determined.

    [spec] follows the code.  [documented] is what the doc comments of [queue.rs] and
    [error.rs] promise of the same operations, and [departs] lists the cases in which the
    two differ: who may finish a claimed task, when a submission is refused, and what an
    acknowledgement does. *)

From S2P Require Import Prelude Atomic Pod ChunkDesc Treiber TaskQueue TaskQueueInv.

(** ** The board *)

(** A pin: an artifact binding tied to task [p_slot]/[p_seq]. *)
Record Pin : Set := mkPin {
  p_binding : LeaseBinding;
  p_slot : Z;
  p_seq : Z;
  p_deadline : Z;
  p_acked : bool
}.

(** Tasks are slots without their link words. *)
Record Board : Set := mkBoard { tasks : list TaskSlot; pins : list (option Pin); retry_limit : Z }.

Definition find_task (B : Board) (h : TaskHandle) : option TaskSlot :=
  match tasks B !! Z.to_nat (slot_idx h) with
  | Some t => if ts_seq t =? h_seq h then Some t else None
  | None => None
  end.

Definition put_task (i : Z) (t : TaskSlot) (B : Board) : Board :=
  mkBoard (<[Z.to_nat i := t]> (tasks B)) (pins B) (retry_limit B).
Definition put_pins (ps : list (option Pin)) (B : Board) : Board := mkBoard (tasks B) ps (retry_limit B).

Definition live (t : TaskSlot) : bool := (ts_state t =? QUEUED) || (ts_state t =? CLAIMED).
Definition terminal (t : TaskSlot) : bool := (ts_state t =? DONE) || (ts_state t =? FAILED) || (ts_state t =? CANCELLED).

Definition board_poll (B : Board) (h : TaskHandle) : result TaskError TaskStatus :=
  match find_task B h with
  | None => Err StaleHandle
  | Some t =>
      if ts_state t =? QUEUED then Ok SQueued
      else if ts_state t =? CLAIMED then Ok SClaimed
      else if ts_state t =? DONE then Ok (SDone (ts_result t))
      else if ts_state t =? FAILED then Ok SFailed
      else if ts_state t =? CANCELLED then Ok SCancelled
      else Err StaleHandle
  end.

Definition board_cancel (B : Board) (h : TaskHandle) : result TaskError unit * Board :=
  match find_task B h with
  | None => (Err StaleHandle, B)
  | Some t =>
      (Ok tt,
       if ts_state t =? QUEUED then put_task (slot_idx h) (set_state CANCELLED t) B
       else if ts_state t =? CLAIMED then put_task (slot_idx h) (set_cancel 1 t) B
       else B)
  end.

Definition board_complete (B : Board) (ct : ClaimedTask) (r : ChunkDesc) : result TaskError unit * Board :=
  match find_task B (mkHandle (ct_idx ct) (ct_seq ct)) with
  | None => (Err StaleHandle, B)
  | Some t =>
      if ts_state t =? CLAIMED then (Ok tt, put_task (ct_idx ct) (set_state DONE (set_result r t)) B)
      else (Err Lost, B)
  end.

Definition board_fail (B : Board) (ct : ClaimedTask) : result TaskError unit * Board :=
  match find_task B (mkHandle (ct_idx ct) (ct_seq ct)) with
  | None => (Err StaleHandle, B)
  | Some t =>
      if ts_state t =? CLAIMED then (Ok tt, put_task (ct_idx ct) (set_state FAILED t) B) else (Err Lost, B)
  end.

(** Acknowledging: the pins of a task that is over (or whose slot moved on). *)
Definition tied (h : TaskHandle) (p : Pin) : bool := negb (p_acked p) && (p_slot p =? slot_idx h) && (p_seq p =? h_seq h).
Definition ack_pin (h : TaskHandle) (o : option Pin) : option Pin :=
  match o with
  | Some p => Some (if tied h p then mkPin (p_binding p) (p_slot p) (p_seq p) (p_deadline p) true else p)
  | None => None
  end.
Definition is_tied (h : TaskHandle) (o : option Pin) : bool := match o with Some p => tied h p | None => false end.

Definition board_ack (B : Board) (h : TaskHandle) : result TaskError Z * Board :=
  if Z.of_nat (length (tasks B)) <=? slot_idx h then (Err StaleHandle, B)
  else if (match find_task B h with Some t => negb (terminal t) | None => false end) then (Err NotTerminal, B)
  else (Ok (Z.of_nat (length (List.filter (is_tied h) (pins B)))), put_pins (ack_pin h <$> pins B) B).

(** The sweep releases a pin once it is acknowledged, or once its window is over and
    its task no longer runs. *)
Definition task_runs (ts : list TaskSlot) (p : Pin) : bool :=
  match ts !! Z.to_nat (p_slot p) with
  | Some t => (ts_seq t =? p_seq p) && live t
  | None => false
  end.
Definition releasable (ts : list TaskSlot) (now grace : Z) (p : Pin) : bool :=
  p_acked p || ((Z.min (p_deadline p + grace) U64_MAX <? now) && negb (task_runs ts p)).
Definition sweep_pin (ts : list TaskSlot) (now grace : Z) (o : option Pin) : option Pin :=
  match o with Some p => if releasable ts now grace p then None else Some p | None => None end.
Definition swept_out (ts : list TaskSlot) (now grace : Z) (o : option Pin) : option LeaseBinding :=
  match o with Some p => if releasable ts now grace p then Some (p_binding p) else None | None => None end.

Definition board_reap_bindings (B : Board) (now grace : Z) : list LeaseBinding * Board :=
  (omap (swept_out (tasks B) now grace) (pins B), put_pins (sweep_pin (tasks B) now grace <$> pins B) B).

(** A lapsed claim is requeued while it has retries left, else failed. *)
Definition lapsed (now : Z) (t : TaskSlot) : bool := (ts_state t =? CLAIMED) && (ts_deadline t <? now).
Definition reap_task (now limit : Z) (t : TaskSlot) : TaskSlot :=
  if lapsed now t then
    if limit <=? ts_retry t then set_state FAILED t
    else set_state QUEUED (set_owner OWNER_NONE (set_retry (ts_retry t + 1) t))
  else t.
Definition requeues (now limit : Z) (t : TaskSlot) : bool := lapsed now t && negb (limit <=? ts_retry t).
Definition fails (now limit : Z) (t : TaskSlot) : bool := lapsed now t && (limit <=? ts_retry t).

Definition board_reap (B : Board) (now : Z) : ReapReport * Board :=
  (mkReport (Z.of_nat (length (List.filter (requeues now (retry_limit B)) (tasks B))))
            (Z.of_nat (length (List.filter (fails now (retry_limit B)) (tasks B)))),
   mkBoard (reap_task now (retry_limit B) <$> tasks B) (pins B) (retry_limit B)).

(** ** Operations and answers *)

Inductive Op : Set :=
| OSubmit (request : ChunkDesc) (deadline : Z) (input : option LeaseBinding)
| OClaim (worker : Z) (deadline : option Z)
| OPoll (h : TaskHandle)
| OCancel (h : TaskHandle)
| OAck (h : TaskHandle)
| OReapBindings (now grace : Z)
| OReap (now : Z)
| OBind (ct : ClaimedTask) (b : LeaseBinding)
| OComplete (ct : ClaimedTask) (r : ChunkDesc)
| OFail (ct : ClaimedTask)
| OAttempt (ct : ClaimedTask)
| OIsCancelled (ct : ClaimedTask).

Inductive Resp : Set :=
| RHandle (r : result TaskError TaskHandle)
| RClaim (o : option ClaimedTask)
| RStatus (r : result TaskError TaskStatus)
| RUnit (r : result TaskError unit)
| RCount (r : result TaskError Z)
| RBindings (l : list LeaseBinding)
| RReport (r : ReapReport)
| RAttempt (n : Z)
| RFlag (b : bool).

(** A free pin record takes the binding. *)
Definition armed (B : Board) (b : LeaseBinding) (idx sq deadline : Z) (ps : list (option Pin)) : Prop :=
  exists j, pins B !! j = Some None /\ ps = <[j := Some (mkPin b idx sq deadline false)]> (pins B).

Definition no_free_pin (B : Board) : Prop := forall j, pins B !! j <> Some None.

Definition fresh_task (request : ChunkDesc) (deadline : Z) (t : TaskSlot) : TaskSlot :=
  mkTaskSlot QUEUED OWNER_NONE (wrap64 (ts_seq t + 1)) deadline 0 0 0 request ChunkDesc.ZERO.

Definition claimed_task (worker : Z) (deadline : option Z) (t : TaskSlot) : TaskSlot :=
  let t' := set_owner worker (set_state CLAIMED t) in
  match deadline with Some d => set_deadline d t' | None => t' end.

(** [submit] succeeds in some slot whose task is over, and refuses only when every
    slot is queued, claimed or cancelled (a cancelled slot may still wait, buried, in
    a ready stack) or when a binding finds no free pin.  [claim] returns some queued
    task and answers [None] only when nothing is queued. *)
Inductive spec (B : Board) : Op -> Resp -> Board -> Prop :=
| spec_submit request deadline input i t ps :
    tasks B !! i = Some t -> live t = false ->
    match input with
    | Some b => armed B b (Z.of_nat i) (wrap64 (ts_seq t + 1)) deadline ps
    | None => ps = pins B
    end ->
    spec B (OSubmit request deadline input) (RHandle (Ok (mkHandle (Z.of_nat i) (wrap64 (ts_seq t + 1)))))
      (put_pins ps (put_task (Z.of_nat i) (fresh_task request deadline t) B))
| spec_submit_full request deadline input :
    (forall i t, tasks B !! i = Some t -> live t = true \/ ts_state t = CANCELLED) ->
    spec B (OSubmit request deadline input) (RHandle (Err QueueFull)) B
| spec_submit_no_pin request deadline b :
    no_free_pin B -> spec B (OSubmit request deadline (Some b)) (RHandle (Err LeaseTableFull)) B
| spec_claim worker deadline i t :
    tasks B !! i = Some t -> ts_state t = QUEUED ->
    spec B (OClaim worker deadline) (RClaim (Some (mkClaimed (Z.of_nat i) (ts_seq t) worker (ts_request t))))
      (put_task (Z.of_nat i) (claimed_task worker deadline t) B)
| spec_claim_none worker deadline :
    (forall i t, tasks B !! i = Some t -> ts_state t <> QUEUED) ->
    spec B (OClaim worker deadline) (RClaim None) B
| spec_poll h : spec B (OPoll h) (RStatus (board_poll B h)) B
| spec_cancel h : spec B (OCancel h) (RUnit (board_cancel B h).1) (board_cancel B h).2
| spec_ack h : spec B (OAck h) (RCount (board_ack B h).1) (board_ack B h).2
| spec_reap_bindings now grace :
    spec B (OReapBindings now grace) (RBindings (board_reap_bindings B now grace).1) (board_reap_bindings B now grace).2
| spec_reap now : spec B (OReap now) (RReport (board_reap B now).1) (board_reap B now).2
| spec_bind ct b t ps :
    tasks B !! Z.to_nat (ct_idx ct) = Some t -> armed B b (ct_idx ct) (ct_seq ct) (ts_deadline t) ps ->
    spec B (OBind ct b) (RUnit (Ok tt)) (put_pins ps B)
| spec_bind_full ct b : no_free_pin B -> spec B (OBind ct b) (RUnit (Err LeaseTableFull)) B
| spec_complete ct r : spec B (OComplete ct r) (RUnit (board_complete B ct r).1) (board_complete B ct r).2
| spec_fail ct : spec B (OFail ct) (RUnit (board_fail B ct).1) (board_fail B ct).2
| spec_attempt ct t : tasks B !! Z.to_nat (ct_idx ct) = Some t -> spec B (OAttempt ct) (RAttempt (ts_retry t)) B
| spec_is_cancelled ct t :
    tasks B !! Z.to_nat (ct_idx ct) = Some t -> spec B (OIsCancelled ct) (RFlag (negb (ts_cancel t =? 0))) B.

(** ** The documentation

    A worker may finish a task only while it holds the claim ([Error::Lost] otherwise);
    [Error::QueueFull] means that every slot holds a live task, [Error::LeaseTableFull] that
    every record is armed for an unacknowledged binding; [ack] releases the bindings tied to
    the task and returns them (here: how many). *)

Definition holds_claim (ct : ClaimedTask) (t : TaskSlot) : bool := (ts_state t =? CLAIMED) && (ts_owner t =? ct_worker ct).

Definition doc_finish (B : Board) (ct : ClaimedTask) (finished : TaskSlot -> TaskSlot) : result TaskError unit * Board :=
  match find_task B (mkHandle (ct_idx ct) (ct_seq ct)) with
  | None => (Err StaleHandle, B)
  | Some t => if holds_claim ct t then (Ok tt, put_task (ct_idx ct) (finished t) B) else (Err Lost, B)
  end.

Definition release_pin (h : TaskHandle) (o : option Pin) : option Pin :=
  match o with Some p => if tied h p then None else Some p | None => None end.

Definition doc_ack (B : Board) (h : TaskHandle) : result TaskError Z * Board :=
  if Z.of_nat (length (tasks B)) <=? slot_idx h then (Err StaleHandle, B)
  else if (match find_task B h with Some t => negb (terminal t) | None => false end) then (Err NotTerminal, B)
  else (Ok (Z.of_nat (length (List.filter (is_tied h) (pins B)))), put_pins (release_pin h <$> pins B) B).

(** Every record is armed. *)
Definition all_armed (B : Board) : Prop := forall j o, pins B !! j = Some o -> exists p, o = Some p /\ p_acked p = false.

(** Operations and answers the documentation describes as [spec] does. *)
Definition undisputed (op : Op) (x : Resp) : bool :=
  match op, x with
  | OComplete _ _, _ | OFail _, _ | OAck _, _ => false
  | OSubmit _ _ _, RHandle (Err _) | OBind _ _, RUnit (Err _) => false
  | _, _ => true
  end.

Inductive documented (B : Board) : Op -> Resp -> Board -> Prop :=
| doc_undisputed op x B' : undisputed op x = true -> spec B op x B' -> documented B op x B'
| doc_complete ct r : documented B (OComplete ct r) (RUnit (doc_finish B ct (fun t => set_state DONE (set_result r t))).1)
    (doc_finish B ct (fun t => set_state DONE (set_result r t))).2
| doc_fail ct : documented B (OFail ct) (RUnit (doc_finish B ct (set_state FAILED)).1) (doc_finish B ct (set_state FAILED)).2
| doc_acked h : documented B (OAck h) (RCount (doc_ack B h).1) (doc_ack B h).2
| doc_full request deadline input : (forall i t, tasks B !! i = Some t -> live t = true) ->
    documented B (OSubmit request deadline input) (RHandle (Err QueueFull)) B
| doc_no_pin request deadline b : all_armed B ->
    documented B (OSubmit request deadline (Some b)) (RHandle (Err LeaseTableFull)) B
| doc_bind_full ct b : all_armed B ->
    documented B (OBind ct b) (RUnit (Err LeaseTableFull)) B.

(** A task is finished by a worker that is not its owner; a submission is refused although a
    cancelled slot could be reused, or although a record only waits for the sweep; an
    acknowledgement marks bindings for the sweep instead of releasing them. *)
Definition departs (B : Board) (op : Op) (x : Resp) : Prop :=
  match op, x with
  | OComplete ct _, RUnit (Ok _) | OFail ct, RUnit (Ok _) =>
      exists t, find_task B (mkHandle (ct_idx ct) (ct_seq ct)) = Some t /\ ts_state t = CLAIMED /\ ts_owner t <> ct_worker ct
  | OSubmit _ _ _, RHandle (Err QueueFull) => exists i t, tasks B !! i = Some t /\ ts_state t = CANCELLED
  | OSubmit _ _ _, RHandle (Err LeaseTableFull) | OBind _ _, RUnit (Err LeaseTableFull) =>
      exists j p, pins B !! j = Some (Some p) /\ p_acked p = true
  | OAck _, RCount (Ok n) => 0 < n
  | _, _ => False
  end.

(** A history: every step is [spec]'s, and it is the documented one or a listed departure. *)
Inductive conforms : Board -> list Op -> list Resp -> Board -> Prop :=
| conforms_nil B : conforms B [] [] B
| conforms_cons B op x B' ops xs B'' :
    spec B op x B' -> documented B op x B' \/ departs B op x -> conforms B' ops xs B'' -> conforms B (op :: ops) (x :: xs) B''.

Inductive spec_all : Board -> list Op -> list Resp -> Board -> Prop :=
| spec_nil B : spec_all B [] [] B
| spec_cons B op x B' ops xs B'' : spec B op x B' -> spec_all B' ops xs B'' -> spec_all B (op :: ops) (x :: xs) B''.

(** ** Running the code *)

Section exec.
Context (q : TaskQueue) (fuel : nat) (addr : Z) (work_n done_n : prog QueueMem unit).

(** One operation, called from thread [tid]. *)
Definition exec (tid : nat) (op : Op) : prog QueueMem (option Resp) :=
  match op with
  | OSubmit r d b => x <-- submit_inner q fuel tid addr work_n r d b ;; done (RHandle x)
  | OClaim w d => x <-- claim_inner fuel w d ;; done (RClaim x)
  | OPoll h => x <- poll q h ;; done (RStatus x)
  | OCancel h => x <- cancel q done_n h ;; done (RUnit x)
  | OAck h => x <- ack q h ;; done (RCount x)
  | OReapBindings now grace => x <-- reap_bindings q fuel now grace ;; done (RBindings x)
  | OReap now => x <-- reap q fuel tid addr work_n done_n now ;; done (RReport x)
  | OBind ct b => x <-- bind_output fuel ct b ;; done (RUnit x)
  | OComplete ct r => x <-- complete fuel tid addr done_n ct r ;; done (RUnit x)
  | OFail ct => x <-- fail fuel tid addr done_n ct ;; done (RUnit x)
  | OAttempt ct => x <- attempt ct ;; done (RAttempt x)
  | OIsCancelled ct => x <- is_cancelled ct ;; done (RFlag x)
  end.

Fixpoint exec_all (ops : list (nat * Op)) : prog QueueMem (option (list Resp)) :=
  match ops with
  | [] => done []
  | (tid, op) :: ops' => x <-- exec tid op ;; xs <-- exec_all ops' ;; done (x :: xs)
  end.
End exec.

(** Handles and claims name slots of this queue: what [submit] and [claim] return. *)
Definition op_wf (cap : Z) (op : Op) : Prop :=
  match op with
  | OPoll h | OCancel h | OAck h => 0 <= slot_idx h
  | OBind ct _ | OComplete ct _ | OFail ct | OAttempt ct | OIsCancelled ct => 0 <= ct_idx ct < cap
  | _ => True
  end.

(** The board of a memory. *)
Definition abs_pin (l : LeaseSlot) : option Pin :=
  if lease_word_state (ls_word l) =? LEASE_NONE then None
  else Some (mkPin (mkBinding (ls_artifact_id l) (ls_incarnation l) (ls_version l)) (ls_slot_idx l) (ls_seq l) (ls_deadline l)
               (lease_word_state (ls_word l) =? LEASE_ACKED)).
Definition abs (c : QueueMem) : Board := mkBoard (slots c) (abs_pin <$> leases c) (max_retries c).
Definition board (m : QueueMem) : Board := abs (core m).
