(* ===== verification/TaskQueueProof.v ===== *)
(** * The task queue refines the board: proof

    The invariant between operations: a slot on a FREE stack is reusable, a slot on
    a READY stack is queued or cancelled, a slot on no stack is claimed, and the
    header's [cancelled] count is the number of cancelled slots on READY stacks; a
    lease record is on the free list exactly when it is not in use.  Inside an
    operation the nodes in hand ([H], [HL]) are exempt and the count may be ahead by
    [d]. *)

From S2P Require Import Prelude Atomic Pod ChunkDesc Treiber TaskQueue TaskQueueInv TaskQueueSpec.

Definition reusable (t : TaskSlot) : Prop :=
  ts_state t = EMPTY \/ ts_state t = DONE \/ ts_state t = FAILED \/ ts_state t = CANCELLED.

Definition state_at (c : QueueMem) (i : Z) : option Z := ts_state <$> slots c !! Z.to_nat i.
Definition ncancelled (c : QueueMem) (l : list Z) : nat := length (filter (fun i => state_at c i = Some CANCELLED) l).
Definition count (c : QueueMem) (C : list (list Z)) : nat := sum_list_with (ncancelled c) (drop 8 C).

Record qinv (d : nat) (H HL : list Z) (c : QueueMem) (C : list (list Z)) (L : list Z) : Prop := {
  qi_free k l i t : (k < 8)%nat -> C !! k = Some l -> i ∈ l -> slots c !! Z.to_nat i = Some t -> reusable t;
  qi_ready k l i t : (8 <= k)%nat -> C !! k = Some l -> i ∈ l -> slots c !! Z.to_nat i = Some t ->
    ts_state t = QUEUED \/ ts_state t = CANCELLED;
  qi_held i t : slots c !! Z.to_nat i = Some t -> 0 <= i -> off C i -> i ∉ H -> ts_state t = CLAIMED;
  qi_hand i : i ∈ H -> off C i;
  qi_count : cancelled c = Z.of_nat (count c C + d);
  qi_lfree i l : i ∈ L -> leases c !! Z.to_nat i = Some l -> lease_word_state (ls_word l) = LEASE_NONE;
  qi_lheld i l : leases c !! Z.to_nat i = Some l -> 0 <= i -> i ∉ L -> i ∉ HL ->
    lease_word_state (ls_word l) = LEASE_ARMED \/ lease_word_state (ls_word l) = LEASE_ACKED;
  qi_lhand i : i ∈ HL -> i ∉ L
}.

(** ** The count *)

Lemma ncancelled_cons c i l :
  ncancelled c (i :: l) = ((if decide (state_at c i = Some CANCELLED) then 1 else 0) + ncancelled c l)%nat.
Proof. unfold ncancelled. rewrite filter_cons. by case_decide. Qed.

Lemma count_insert c C k l l' :
  (8 <= k)%nat -> C !! k = Some l -> (count c (<[k := l']> C) + ncancelled c l = count c C + ncancelled c l')%nat.
Proof.
  intros Hk Hl. unfold count. rewrite drop_insert_ge by lia. apply sum_list_with_insert. rewrite lookup_drop. by replace (8 + (k - 8))%nat with k by lia.
Qed.

Lemma count_insert_free c C k l : (k < 8)%nat -> count c (<[k := l]> C) = count c C.
Proof. intros Hk. unfold count. by rewrite drop_insert_lt by lia. Qed.

Lemma sum_list_with_ext {X} (f g : X -> nat) l : (forall x, x ∈ l -> f x = g x) -> sum_list_with f l = sum_list_with g l.
Proof.
  induction l as [|x l IH]; intros H; [done|]. cbn [sum_list_with]. rewrite (H x), IH; [done| |].
  - intros y Hy. apply H. by apply list_elem_of_further.
  - apply list_elem_of_here.
Qed.

Lemma count_same c c' C :
  (forall i k l, C !! k = Some l -> i ∈ l -> state_at c' i = state_at c i) -> count c' C = count c C.
Proof.
  intros Hs. apply sum_list_with_ext. intros l Hl. apply list_elem_of_lookup in Hl as [k Hk].
  rewrite lookup_drop in Hk. assert (Hl : forall i, i ∈ l -> state_at c' i = state_at c i) by eauto. clear Hk Hs.
  induction l as [|i l IH]; [done|]. rewrite !ncancelled_cons, (Hl i), IH; [done| |].
  - intros j Hj. apply Hl. by apply list_elem_of_further.
  - apply list_elem_of_here.
Qed.

Lemma state_upd_ne c i j t : below (length (slots c)) i -> 0 <= j -> i <> j -> state_at (upd_slot i t c) j = state_at c j.
Proof. intros [? ?] ? ?. unfold state_at, upd_slot. csimpl. by rewrite list_lookup_insert_ne by lia. Qed.

(** ** Moves *)

Section moves.
Context {d : nat} {H HL : list Z} {c : QueueMem} {C : list (list Z)} {L : list Z}.
Context (Hs : shape c C L) (Hq : qinv d H HL c C L).

Lemma below_lookup i : below (length (slots c)) i -> exists t, slots c !! Z.to_nat i = Some t.
Proof. intros [? ?]. apply lookup_lt_is_Some_2. lia. Qed.

Lemma lookup_below i t : slots c !! Z.to_nat i = Some t -> 0 <= i -> below (length (slots c)) i.
Proof. intros Ht Hi. apply lookup_lt_Some in Ht. unfold below. lia. Qed.

Lemma qinv_pop k i l t :
  C !! k = Some (i :: l) -> slots c !! Z.to_nat i = Some t ->
  qinv (d + if decide ((8 <= k)%nat /\ ts_state t = CANCELLED) then 1 else 0) (i :: H) HL c (<[k := l]> C) L.
Proof.
  intros Hk Ht. pose proof (off_popped _ _ _ _ _ _ Hs Hk) as Hoff.
  assert (Hsub : forall k' l' j, <[k := l]> C !! k' = Some l' -> j ∈ l' -> exists l'', C !! k' = Some l'' /\ j ∈ l'').
  { intros k' l' j Hk' Hj. apply list_lookup_insert_Some in Hk' as [(<- & <- & _)|(_ & Hk')]; [|eauto].
    exists (i :: l). split; [done|by apply list_elem_of_further]. }
  split; try apply Hq.
  - intros k' l' j tj Hlt Hk' Hj Htj. destruct (Hsub k' l' j Hk' Hj) as (l'' & ? & ?). by eapply (qi_free _ _ _ _ _ _ Hq k').
  - intros k' l' j tj Hge Hk' Hj Htj. destruct (Hsub k' l' j Hk' Hj) as (l'' & ? & ?). by eapply (qi_ready _ _ _ _ _ _ Hq k').
  - intros j tj Htj Hj0 Hoj Hj. apply not_elem_of_cons in Hj as [Hne Hj].
    apply (qi_held _ _ _ _ _ _ Hq j); try done. intros k' l' Hk' Hin.
    destruct (decide (k' = k)) as [->|Hkne].
    + rewrite Hk in Hk'. injection Hk' as <-. apply elem_of_cons in Hin as [?|Hin]; [done|].
      apply (Hoj k l); [|done]. apply list_lookup_insert_eq. by eapply lookup_lt_Some.
    + apply (Hoj k' l'); [|done]. by rewrite list_lookup_insert_ne.
  - intros j [->|Hj]%elem_of_cons; [done|]. intros k' l' Hk' Hin. destruct (Hsub k' l' j Hk' Hin) as (l'' & Hk'' & Hin').
    by apply (qi_hand _ _ _ _ _ _ Hq j Hj k' l'').
  - rewrite (qi_count _ _ _ _ _ _ Hq). f_equal. destruct (Nat.lt_ge_cases k 8) as [Hlt|Hge].
    + rewrite count_insert_free, decide_False by lia. lia.
    + pose proof (count_insert c C k (i :: l) l Hge Hk) as E. rewrite ncancelled_cons in E.
      unfold state_at in E. rewrite Ht in E. cbn in E.
      destruct (decide (ts_state t = CANCELLED)) as [Ec|Ec].
      * rewrite decide_True in E by congruence. rewrite decide_True by done. lia.
      * rewrite decide_False in E by congruence. rewrite decide_False by naive_solver. lia.
Qed.

Lemma qinv_upd i t' :
  i ∈ H -> below (length (slots c)) i -> qinv d H HL (upd_slot i t' c) C L.
Proof.
  intros Hi Hb. pose proof (qi_hand _ _ _ _ _ _ Hq i Hi) as Hoff.
  assert (Hother : forall j, 0 <= j -> j <> i -> slots (upd_slot i t' c) !! Z.to_nat j = slots c !! Z.to_nat j).
  { intros j Hj Hne. destruct Hb. unfold upd_slot. csimpl. by rewrite list_lookup_insert_ne by lia. }
  assert (Hon : forall k l j, C !! k = Some l -> j ∈ l -> 0 <= j /\ j <> i).
  { intros k l j Hk Hj. split; [by apply (sh_below _ _ _ Hs k l j Hk Hj)|]. intros ->. by apply (Hoff k l). }
  split; try apply Hq.
  - intros k l j t Hlt Hk Hj Ht. destruct (Hon k l j Hk Hj). rewrite Hother in Ht by done. by eapply (qi_free _ _ _ _ _ _ Hq k).
  - intros k l j t Hlt Hk Hj Ht. destruct (Hon k l j Hk Hj). rewrite Hother in Ht by done. by eapply (qi_ready _ _ _ _ _ _ Hq k).
  - intros j t Ht Hj0 Hoj Hj. rewrite Hother in Ht by (done || by intros ->). by eapply (qi_held _ _ _ _ _ _ Hq).
  - cbn [upd_slot cancelled set_slots]. rewrite (count_same c).
    + apply (qi_count _ _ _ _ _ _ Hq).
    + intros j k l Hk Hj. destruct (Hon k l j Hk Hj). unfold state_at. by rewrite Hother.
Qed.

Lemma qinv_take i : off C i -> qinv d (i :: H) HL c C L.
Proof.
  intros Hi. split; try apply Hq.
  - intros j t Ht Hj0 Hoj Hj. apply not_elem_of_cons in Hj as [_ Hj]. by eapply (qi_held _ _ _ _ _ _ Hq).
  - intros j [->|Hj]%elem_of_cons; [done|by apply (qi_hand _ _ _ _ _ _ Hq)].
Qed.

Lemma qinv_cancelled v d' : v = Z.of_nat (count c C + d') -> qinv d' H HL (set_cancelled v c) C L.
Proof. intros ->. split; try apply Hq. done. Qed.

Lemma qinv_lease_upd i l' : i ∈ HL -> below (length (leases c)) i -> qinv d H HL (upd_lease (Z.to_nat i) l' c) C L.
Proof.
  intros Hi [Hb1 Hb2].
  assert (Hother : forall j, 0 <= j -> j <> i -> leases (upd_lease (Z.to_nat i) l' c) !! Z.to_nat j = leases c !! Z.to_nat j).
  { intros j Hj Hne. unfold upd_lease. csimpl. by rewrite list_lookup_insert_ne by lia. }
  split; try apply Hq.
  - intros j l Hj Hl. pose proof (sh_lbelow _ _ _ Hs j Hj) as [? _].
    rewrite Hother in Hl; [|done|]. { by eapply (qi_lfree _ _ _ _ _ _ Hq). }
    intros ->. by apply (qi_lhand _ _ _ _ _ _ Hq i).
  - intros j l Hl Hj0 Hj HjL. rewrite Hother in Hl; [|done|by intros ->]. by eapply (qi_lheld _ _ _ _ _ _ Hq).
Qed.

Lemma qinv_lease_take i : i ∉ L -> qinv d H (i :: HL) c C L.
Proof.
  intros Hi. split; try apply Hq.
  - intros j l Hl Hj0 HjL Hj. apply not_elem_of_cons in Hj as [_ Hj]. by eapply (qi_lheld _ _ _ _ _ _ Hq).
  - intros j [->|Hj]%elem_of_cons; [done|by apply (qi_lhand _ _ _ _ _ _ Hq)].
Qed.
End moves.

Section gives.
Context {d : nat} {H HL : list Z} {c : QueueMem} {C : list (list Z)} {L : list Z}.
Context (Hs : shape c C L).

Lemma qinv_push k i l t :
  qinv d (i :: H) HL c C L -> i ∉ H -> C !! k = Some l -> slots c !! Z.to_nat i = Some t ->
  (if decide (k < 8)%nat then reusable t else ts_state t = QUEUED) ->
  qinv d H HL c (<[k := i :: l]> C) L.
Proof.
  intros Hq HiH Hk Ht Hst.
  assert (Hcase : forall k' l' j, <[k := i :: l]> C !! k' = Some l' -> j ∈ l' ->
    (k' = k /\ j = i) \/ exists l'', C !! k' = Some l'' /\ j ∈ l'').
  { intros k' l' j Hk' Hj. apply list_lookup_insert_Some in Hk' as [(<- & <- & _)|(_ & Hk')]; [|eauto].
    apply elem_of_cons in Hj as [->|Hj]; [by left|eauto]. }
  split; try apply Hq.
  - intros k' l' j tj Hlt Hk' Hj Htj. destruct (Hcase k' l' j Hk' Hj) as [[-> ->]|(l'' & ? & ?)].
    + rewrite decide_True in Hst by done. by simplify_eq.
    + by eapply (qi_free _ _ _ _ _ _ Hq k').
  - intros k' l' j tj Hge Hk' Hj Htj. destruct (Hcase k' l' j Hk' Hj) as [[-> ->]|(l'' & ? & ?)].
    + rewrite decide_False in Hst by lia. simplify_eq. by left.
    + by eapply (qi_ready _ _ _ _ _ _ Hq k').
  - intros j tj Htj Hj0 Hoj Hj. assert (Hne : j <> i).
    { intros ->. apply (Hoj k (i :: l)); [|apply list_elem_of_here]. apply list_lookup_insert_eq. by eapply lookup_lt_Some. }
    apply (qi_held _ _ _ _ _ _ Hq j); try done; [|by apply not_elem_of_cons]. intros k' l' Hk' Hin.
    destruct (decide (k' = k)) as [->|Hkne].
    + simplify_eq. apply (Hoj k (i :: l)); [|by apply list_elem_of_further].
      apply list_lookup_insert_eq. by eapply lookup_lt_Some.
    + apply (Hoj k' l'); [|done]. by rewrite list_lookup_insert_ne.
  - intros j Hj. apply off_insert; [apply (qi_hand _ _ _ _ _ _ Hq); by apply list_elem_of_further|].
    apply not_elem_of_cons. split; [by intros ->|].
    apply (qi_hand _ _ _ _ _ _ Hq j (list_elem_of_further _ _ _ Hj) k l Hk).
  - rewrite (qi_count _ _ _ _ _ _ Hq). f_equal. f_equal. destruct (decide (k < 8)%nat) as [Hlt|Hge].
    + by rewrite count_insert_free by lia.
    + pose proof (count_insert c C k l (i :: l) ltac:(lia) Hk) as E. rewrite ncancelled_cons in E.
      unfold state_at in E. rewrite Ht in E. cbn in E. rewrite decide_False in E by (rewrite Hst; discriminate). lia.
Qed.

Lemma qinv_give i t :
  qinv d (i :: H) HL c C L -> slots c !! Z.to_nat i = Some t -> ts_state t = CLAIMED -> qinv d H HL c C L.
Proof.
  intros Hq Ht Hst. split; try apply Hq.
  - intros j tj Htj Hj0 Hoj Hj. destruct (decide (j = i)) as [->|Hne]; [by simplify_eq|].
    apply (qi_held _ _ _ _ _ _ Hq j); try done. by apply not_elem_of_cons.
  - intros j Hj. apply (qi_hand _ _ _ _ _ _ Hq). by apply list_elem_of_further.
Qed.

Lemma qinv_lease_push i l :
  qinv d H (i :: HL) c C L -> i ∉ HL -> leases c !! Z.to_nat i = Some l ->
  lease_word_state (ls_word l) = LEASE_NONE -> qinv d H HL c C (i :: L).
Proof.
  intros Hq HiH Hl Hst. split; try apply Hq.
  - intros j lj [->|Hj]%elem_of_cons Hlj; [by simplify_eq|by eapply (qi_lfree _ _ _ _ _ _ Hq)].
  - intros j lj Hlj Hj0 HjL Hj. apply not_elem_of_cons in HjL as [Hne HjL].
    apply (qi_lheld _ _ _ _ _ _ Hq j); try done. by apply not_elem_of_cons.
  - intros j Hj. apply not_elem_of_cons. split; [by intros ->|].
    apply (qi_lhand _ _ _ _ _ _ Hq). by apply list_elem_of_further.
Qed.

Lemma qinv_lease_pop i L' : L = i :: L' -> qinv d H HL c C L -> qinv d H (i :: HL) c C L'.
Proof.
  intros -> Hq. pose proof (sh_lnodup _ _ _ Hs) as [Hni _]%list.NoDup_cons. split; try apply Hq.
  - intros j l Hj. apply (qi_lfree _ _ _ _ _ _ Hq). by apply list_elem_of_further.
  - intros j l Hl Hj0 HjL Hj. apply not_elem_of_cons in Hj as [Hne Hj].
    apply (qi_lheld _ _ _ _ _ _ Hq j); try done. by apply not_elem_of_cons.
  - intros j [->|Hj]%elem_of_cons; [done|]. intros HjL. apply (qi_lhand _ _ _ _ _ _ Hq j Hj).
    by apply list_elem_of_further.
Qed.

Lemma qinv_lease_give i l :
  qinv d H (i :: HL) c C L -> leases c !! Z.to_nat i = Some l ->
  lease_word_state (ls_word l) = LEASE_ARMED \/ lease_word_state (ls_word l) = LEASE_ACKED -> qinv d H HL c C L.
Proof.
  intros Hq Hl Hst. split; try apply Hq.
  - intros j lj Hlj Hj0 HjL Hj. destruct (decide (j = i)) as [->|Hne]; [by simplify_eq|].
    apply (qi_lheld _ _ _ _ _ _ Hq j); try done. by apply not_elem_of_cons.
  - intros j Hj. apply (qi_lhand _ _ _ _ _ _ Hq). by apply list_elem_of_further.
Qed.

(** A queued slot sits on a READY stack. *)
Lemma queued_on_ready i t :
  qinv d [] HL c C L -> slots c !! Z.to_nat i = Some t -> 0 <= i -> ts_state t = QUEUED ->
  exists k l, (8 <= k)%nat /\ C !! k = Some l /\ i ∈ l.
Proof.
  intros Hq Ht Hi Hst. destruct (decide (Exists (fun l => i ∈ l) C)) as [Hex|Hno].
  - apply list.Exists_exists in Hex as (l & Hl & Hin). apply list_elem_of_lookup in Hl as [k Hk].
    exists k, l. split_and!; try done. destruct (Nat.lt_ge_cases k 8) as [Hlt|]; [|done].
    destruct (qi_free _ _ _ _ _ _ Hq k l i t Hlt Hk Hin Ht) as [E|[E|[E|E]]]; by rewrite Hst in E.
  - rewrite (qi_held _ _ _ _ _ _ Hq i t) in Hst; try done; [|apply not_elem_of_nil].
    intros k l Hk Hin. apply Hno, list.Exists_exists. exists l. split; [by eapply list_elem_of_lookup_2|done].
Qed.

Lemma count_cancel k l i t :
  C !! k = Some l -> (8 <= k)%nat -> i ∈ l -> slots c !! Z.to_nat i = Some t -> ts_state t = QUEUED ->
  count (upd_slot i (set_state CANCELLED t) c) C = S (count c C).
Proof.
  intros Hk Hge Hi Ht Hst. set (c' := upd_slot i (set_state CANCELLED t) c).
  apply list_elem_of_split in Hi as (l1 & l2 & ->).
  pose proof (count_insert c C k (l1 ++ i :: l2) (l1 ++ l2) Hge Hk) as E1.
  pose proof (count_insert c' C k (l1 ++ i :: l2) (l1 ++ l2) Hge Hk) as E2.
  assert (Hb : below (length (slots c)) i) by (apply (sh_below _ _ _ Hs k _ i Hk); set_solver).
  assert (Hp : forall x, ncancelled x (l1 ++ i :: l2) = ncancelled x (i :: l1 ++ l2)).
  { intros x. apply Permutation_length. by rewrite <- Permutation_middle. }
  rewrite !Hp, !ncancelled_cons in *.
  assert (Hi : state_at c i <> Some CANCELLED) by (unfold state_at; rewrite Ht; cbn; rewrite Hst; discriminate).
  assert (Hi' : state_at c' i = Some CANCELLED).
  { unfold state_at, c', upd_slot. csimpl. by rewrite list_lookup_insert_eq by (destruct Hb; lia). }
  rewrite decide_False in E1 by done. rewrite decide_True in E2 by done.
  assert (Hoff : off (<[k := l1 ++ l2]> C) i).
  { intros k' l' Hk' Hin. apply list_lookup_insert_Some in Hk' as [(<- & <- & _)|(Hne & Hk')].
    - pose proof (sh_nodup _ _ _ Hs k _ Hk) as Hnd. rewrite <- Permutation_middle in Hnd.
      by apply list.NoDup_cons in Hnd as [? _].
    - apply Hne, (sh_disjoint _ _ _ Hs k k' _ l' i Hk Hk'); set_solver. }
  assert (E3 : count c' (<[k := l1 ++ l2]> C) = count c (<[k := l1 ++ l2]> C)).
  { apply count_same. intros j k' l' Hk' Hj. apply state_upd_ne; [done| |by intros ->; apply (Hoff k' l')].
    apply list_lookup_insert_Some in Hk' as [(<- & <- & _)|(Hne & Hk')].
    - apply (sh_below _ _ _ Hs k _ j Hk). set_solver.
    - apply (sh_below _ _ _ Hs k' _ j Hk' Hj). }
  lia.
Qed.
End gives.

Lemma qinv_cancel {d HL c C L} i t :
  shape c C L -> qinv (S d) [] HL c C L -> 0 <= i -> slots c !! Z.to_nat i = Some t -> ts_state t = QUEUED ->
  qinv d [] HL (upd_slot i (set_state CANCELLED t) c) C L.
Proof.
  intros Hs Hq Hi Ht Hst. destruct (queued_on_ready i t Hq Ht Hi Hst) as (k & l & Hge & Hk & Hin).
  assert (Hb : below (length (slots c)) i) by (by eapply sh_below).
  assert (Hother : forall j, 0 <= j -> j <> i ->
    slots (upd_slot i (set_state CANCELLED t) c) !! Z.to_nat j = slots c !! Z.to_nat j).
  { intros j Hj Hne. destruct Hb. unfold upd_slot. csimpl. by rewrite list_lookup_insert_ne by lia. }
  assert (Hself : slots (upd_slot i (set_state CANCELLED t) c) !! Z.to_nat i = Some (set_state CANCELLED t)).
  { unfold upd_slot. csimpl. apply list_lookup_insert_eq. by eapply lookup_lt_Some. }
  split; try apply Hq.
  - intros k' l' j tj Hlt Hk' Hj Htj. assert (j <> i).
    { intros ->. pose proof (sh_disjoint _ _ _ Hs k k' l l' i Hk Hk' Hin Hj). lia. }
    rewrite Hother in Htj by (done || by eapply sh_below). by eapply (qi_free _ _ _ _ _ _ Hq k').
  - intros k' l' j tj Hge' Hk' Hj Htj. destruct (decide (j = i)) as [->|Hne].
    + rewrite Hself in Htj. injection Htj as <-. by right.
    + rewrite Hother in Htj by (done || by eapply sh_below). by eapply (qi_ready _ _ _ _ _ _ Hq k').
  - intros j tj Htj Hj0 Hoj Hj. rewrite Hother in Htj by (done || by intros ->; apply (Hoj k l)).
    by eapply (qi_held _ _ _ _ _ _ Hq).
  - cbn [upd_slot cancelled set_slots]. rewrite (qi_count _ _ _ _ _ _ Hq), (count_cancel Hs k l i t) by done. lia.
Qed.

Lemma qinv_hand_iff d H H' HL c C L : (forall x, x ∈ H <-> x ∈ H') -> qinv d H HL c C L -> qinv d H' HL c C L.
Proof.
  intros Hiff Hq. split; try apply Hq.
  - intros i t Ht Hi Ho Hn. apply (qi_held _ _ _ _ _ _ Hq i); try done. by rewrite Hiff.
  - intros i Hi. apply (qi_hand _ _ _ _ _ _ Hq). by rewrite Hiff.
Qed.

Lemma count_bound c C L : shape c C L -> (count c C <= length (slots c))%nat.
Proof.
  intros Hs. etrans; [|exact (shape_count c C L Hs)]. unfold count.
  rewrite <- (take_drop 8 C) at 2. rewrite concat_app, length_app.
  enough (forall D, (sum_list_with (ncancelled c) D <= length (concat D))%nat) as HD by (specialize (HD (drop 8 C)); lia).
  induction D as [|l D IH]; [done|]. cbn [sum_list_with concat]. rewrite length_app.
  enough (ncancelled c l <= length l)%nat by lia. apply length_filter.
Qed.
