(* ===== verification/TaskQueueRefines.v ===== *)
(** * The task queue refines the board: operations

    Each operation of [TaskQueue] is executed symbolically against the invariant of
    [TaskQueueProof] and shown to take a step of [spec] on the board. *)

From S2P Require Import Prelude Atomic Pod ChunkDesc Treiber TaskQueue TaskQueueInv TaskQueueSpec TaskQueueProof.

(** ** Shared facts *)

(** Same tasks, pins and retry limit: everything but the [cancelled] count. *)
Definition sim (c c' : QueueMem) : Prop :=
  slots c' = slots c /\ leases c' = leases c /\ max_retries c' = max_retries c.

Lemma sim_refl c : sim c c.
Proof. done. Qed.
#[local] Hint Resolve sim_refl : core.

Lemma sim_abs c c' : sim c c' -> abs c' = abs c.
Proof. intros (E1 & E2 & E3). unfold abs. by rewrite E1, E2, E3. Qed.

Lemma free_is_stack s : (s < 8)%nat -> free_stack s = stack s.
Proof. intros H. unfold stack. by rewrite decide_True. Qed.
Lemma ready_is_stack s : ready_stack s = stack (8 + s).
Proof. unfold stack. rewrite decide_False by lia. by replace (8 + s - 8)%nat with s by lia. Qed.

Lemma data_cas a b : data_only (cas ts_state set_state a b).
Proof. intros n t. cbn. by destruct (ts_state t =? a). Qed.
Lemma data_try a b : data_only (r <- cas ts_state set_state a b ;; Ret r.1).
Proof. intros n t. cbn. by destruct (ts_state t =? a). Qed.
Lemma ldata_try a b : ldata_only (r <- cas ls_word set_word a b ;; Ret r.1).
Proof. intros n t. cbn. by destruct (ls_word t =? a). Qed.

Lemma run_try_hit a b t :
  ts_state t = a -> run (r <- cas ts_state set_state a b ;; Ret r.1) t = Some (true, set_state b t).
Proof. intros <-. cbn. by rewrite Z.eqb_refl. Qed.
Lemma run_try_miss a b t : ts_state t <> a -> run (r <- cas ts_state set_state a b ;; Ret r.1) t = Some (false, t).
Proof. intros Hne. cbn. by rewrite (proj2 (Z.eqb_neq _ _) Hne). Qed.
Lemma run_ltry_hit a b l :
  ls_word l = a -> run (r <- cas ls_word set_word a b ;; Ret r.1) l = Some (true, set_word b l).
Proof. intros <-. cbn. by rewrite Z.eqb_refl. Qed.

Lemma nexts_erased {A} c C L (p : prog QueueMem (option A)) Q :
  ((forall i t, slots c !! i = Some t -> ts_next t = 0) -> (forall i l, leases c !! i = Some l -> ls_next l = 0) ->
   tri c C L p Q) -> tri c C L p Q.
Proof.
  intros H m Hm. apply H; [| |done].
  - intros i t Ht. destruct Hm as [_ <-]. csimpl in Ht. rewrite list_lookup_fmap in Ht.
    destruct (slots m !! i); by simplify_eq/=.
  - intros i l Hl. destruct Hm as [_ <-]. csimpl in Hl. rewrite list_lookup_fmap in Hl.
    destruct (leases m !! i); by simplify_eq/=.
Qed.

Lemma upd_slot_lookup i t t0 c : slots c !! Z.to_nat i = Some t0 -> slots (upd_slot i t c) !! Z.to_nat i = Some t.
Proof. intros H. apply list_lookup_insert_eq. by eapply lookup_lt_Some. Qed.

Lemma upd_slot_twice i t t' c : upd_slot i t' (upd_slot i t c) = upd_slot i t' c.
Proof. unfold upd_slot. csimpl. by rewrite list_insert_insert_eq. Qed.

(** A further access to a slot already written. *)
Lemma tri_slot_again {A B} c C L i t t0 (p : prog TaskSlot A) (k : A -> prog QueueMem (option B)) a t' Q :
  slots c !! Z.to_nat i = Some t0 -> data_only p -> run p t = Some (a, t') -> ts_next t' = 0 ->
  tri (upd_slot i t' c) C L (k a) Q -> tri (upd_slot i t c) C L (pbind (slot i p) k) Q.
Proof.
  intros H0 Hp Hr Hn Hk. eapply tri_slot; [done|by eapply upd_slot_lookup|done|done|]. by rewrite upd_slot_twice.
Qed.

Ltac slot_read := eapply tri_slot_read; [by intros ??|eassumption|reflexivity|].

(** ** Which shards are visited *)

Lemma shards_free home s : (s < 8)%nat -> (home < 8)%nat -> exists k, (k < 8)%nat /\ ((home + k) mod 8 = s)%nat.
Proof.
  intros Hs Hh. exists ((s + 8 - home) mod 8)%nat. split; [apply Nat.mod_upper_bound; lia|].
  rewrite Nat.Div0.add_mod_idemp_r. replace (home + (s + 8 - home))%nat with (s + 1 * 8)%nat by lia.
  rewrite Nat.Div0.mod_add. apply Nat.mod_small. lia.
Qed.

(** An odd stride visits every shard. *)
Lemma shards_claim w s :
  (s < 8)%nat ->
  exists k, (k < 8)%nat /\
    ((Z.to_nat (w mod Z.of_nat SHARDS) + k * (1 + 2 * Z.to_nat (w mod Z.of_nat (SHARDS / 2)))) mod 8 = s)%nat.
Proof.
  intros Hs. change (Z.of_nat (SHARDS / 2)) with 4. change (Z.of_nat SHARDS) with 8.
  pose proof (Z.mod_pos_bound w 8 ltac:(lia)). pose proof (Z.mod_pos_bound w 4 ltac:(lia)).
  set (h := Z.to_nat (w mod 8)). set (r := Z.to_nat (w mod 4)).
  assert (Hall : forallb (fun h => forallb (fun r => forallb (fun s =>
      existsb (fun k => ((h + k * (1 + 2 * r)) mod 8 =? s)%nat) (seq 0 8)) (seq 0 8)) (seq 0 4)) (seq 0 8) = true)
    by (vm_compute; reflexivity).
  rewrite forallb_forall in Hall. specialize (Hall h ltac:(apply in_seq; lia)).
  rewrite forallb_forall in Hall. specialize (Hall r ltac:(apply in_seq; lia)).
  rewrite forallb_forall in Hall. specialize (Hall s ltac:(apply in_seq; lia)).
  apply existsb_exists in Hall as (k & Hk%in_seq & E%Nat.eqb_eq). exists k. split; [lia|done].
Qed.

(** ** Lease words *)

Lemma lease_state_pack g st : is_u32 st -> lease_word_state (pack_lease_word g st) = st.
Proof. apply (lo32_join g st). Qed.

Definition armed_lease (b : LeaseBinding) (idx sq dl : Z) (l : LeaseSlot) : LeaseSlot :=
  mkLeaseSlot (pack_lease_word (wrap32 (lease_word_gen (ls_word l) + 1)) LEASE_ARMED) (version b) sq dl
    (artifact_id b) (incarnation b) idx (ls_next l).

Lemma run_arm b idx sq dl l : run (arm b idx sq dl) l = Some (tt, armed_lease b idx sq dl l).
Proof. done. Qed.

Lemma abs_armed b idx sq dl l : abs_pin (armed_lease b idx sq dl l) = Some (mkPin b idx sq dl false).
Proof.
  unfold abs_pin. cbn [ls_word armed_lease]. rewrite lease_state_pack by (unfold LEASE_ARMED; mach).
  by destruct b.
Qed.

Lemma abs_pin_none l : lease_word_state (ls_word l) = LEASE_NONE -> abs_pin l = None.
Proof. intros E. unfold abs_pin. by rewrite E. Qed.

Section ops.
Context (q : TaskQueue) (f0 : nat) (tid : nat) (addr : Z) (work_n done_n : prog QueueMem unit).
Context (Hwork : notifier work_n) (Hdone : notifier done_n).
#[local] Abbreviation fuel := (S f0).
Implicit Types (c : QueueMem) (C : list (list Z)) (L H HL : list Z) (d : nat).

Lemma stack_lookup c C L k : shape c C L -> (k < 16)%nat -> exists l, C !! k = Some l.
Proof. intros Hs Hk. apply lookup_lt_is_Some_2. by rewrite (sh_len _ _ _ Hs). Qed.

Lemma tri_pop_free c C L :
  tri c C L (pop_free fuel tid addr) (fun r c' C' L' => c' = c /\ L' = L /\
    match r with
    | None => C' = C /\ forall k l, (k < 8)%nat -> C !! k = Some l -> l = []
    | Some i => exists k l, (k < 8)%nat /\ C !! k = Some (i :: l) /\ C' = <[k := l]> C
    end).
Proof.
  apply tri_shape. intros Hs. unfold pop_free. apply tri_next_shard. intros home Hh.
  eapply (tri_each _ _ (fun xs c' C' L' => c' = c /\ C' = C /\ L' = L /\
    exists k, (k <= 8)%nat /\ xs = seq k (8 - k) /\ forall k', (k' < k)%nat -> C !! ((home + k') mod 8)%nat = Some [])).
  - split_and!; try done. exists 0%nat. split_and!; [lia|done|lia].
  - intros x xs c' C' L' (-> & -> & -> & k & Hk & E & Hv).
    destruct (8 - k)%nat as [|n] eqn:En; [done|]. injection E as -> ->.
    assert (Hm : ((home + k) mod SHARDS < 8)%nat) by (apply Nat.mod_upper_bound; done).
    rewrite free_is_stack by done. destruct (stack_lookup c C L _ Hs (Nat.lt_trans _ _ 16 Hm ltac:(lia))) as [l Hl].
    eapply tri_pop; [exact Hl|]. destruct l as [|i l]; cbv beta iota.
    + split_and!; try done. exists (S k). split_and!; [lia|f_equal; lia|]. intros k' Hk'.
      destruct (decide (k' = k)) as [->|]; [done|apply Hv; lia].
    + split_and!; try done. by exists ((home + k) mod SHARDS)%nat, l.
  - intros c' C' L' (-> & -> & -> & k & Hk & E & Hv). split_and!; try done. intros s l Hs8 Hl.
    destruct (8 - k)%nat eqn:En; [|done]. destruct (shards_free home s Hs8 Hh) as (k' & Hk' & Emod).
    specialize (Hv k' ltac:(lia)). rewrite Emod in Hv. by simplify_eq.
Qed.

Lemma tri_push_free c C L H HL i t :
  qinv 0 (i :: H) HL c C L -> i ∉ H -> 0 <= i -> slots c !! Z.to_nat i = Some t -> reusable t ->
  tri c C L (push_free fuel tid addr i) (fun _ c' C' L' => c' = c /\ L' = L /\ qinv 0 H HL c' C' L').
Proof.
  intros Hq HiH Hi Ht Hr. apply tri_shape. intros Hs. unfold push_free. apply tri_next_shard. intros s Hs8.
  rewrite free_is_stack by done. destruct (stack_lookup c C L s Hs ltac:(lia)) as [l Hl].
  eapply tri_push; [exact Hl|by eapply lookup_below|apply (qi_hand _ _ _ _ _ _ Hq); apply list_elem_of_here|].
  cbv beta. split_and!; try done. apply (qinv_push s i l t Hq HiH Hl Ht). by rewrite decide_True.
Qed.

Lemma tri_publish_queued c C L H HL s i t :
  (s < 8)%nat -> qinv 0 (i :: H) HL c C L -> i ∉ H -> 0 <= i -> slots c !! Z.to_nat i = Some t -> ts_next t = 0 ->
  tri c C L (publish_queued fuel s i)
    (fun _ c' C' L' => c' = upd_slot i (set_state QUEUED t) c /\ L' = L /\ qinv 0 H HL c' C' L').
Proof.
  intros Hs8 Hq HiH Hi Ht Hn. apply tri_shape. intros Hs. unfold publish_queued.
  eapply tri_slot; [by intros ??|exact Ht|reflexivity|done|].
  apply tri_shape. intros Hs'. rewrite ready_is_stack. destruct (stack_lookup c C L (8 + s) Hs ltac:(lia)) as [l Hl].
  assert (Hq' : qinv 0 (i :: H) HL (upd_slot i (set_state QUEUED t) c) C L).
  { apply qinv_upd; try done; [apply list_elem_of_here|by eapply lookup_below]. }
  assert (Ht' : slots (upd_slot i (set_state QUEUED t) c) !! Z.to_nat i = Some (set_state QUEUED t)).
  { by eapply upd_slot_lookup. }
  eapply tri_push; [exact Hl|by eapply lookup_below|apply (qi_hand _ _ _ _ _ _ Hq); apply list_elem_of_here|].
  cbv beta. split_and!; try done. apply (qinv_push (8 + s) i l _ Hq' HiH Hl Ht'). by rewrite decide_False by lia.
Qed.

(** ** Claiming *)

Lemma wrap_dec n : Z.of_nat (S n) <= U32_MAX + 1 -> wrap32 (Z.of_nat (S n) + -1) = Z.of_nat n.
Proof. intros Hb. rewrite wrap32_id; [lia|mach]. Qed.

Lemma tri_claim_pop c C L s :
  (s < 8)%nat -> (length (slots c) < fuel)%nat -> qinv 0 [] [] c C L ->
  tri c C L (claim_pop fuel s) (fun r c' C' L' => L' = L /\
    match r with
    | None => sim c c' /\ qinv 0 [] [] c' C' L' /\ C' !! (8 + s)%nat = Some [] /\
        forall k, (8 <= k)%nat -> k <> (8 + s)%nat -> C' !! k = C !! k
    | Some i => exists t, 0 <= i /\ slots c !! Z.to_nat i = Some t /\ ts_state t = QUEUED /\
        slots c' = <[Z.to_nat i := set_state CLAIMED t]> (slots c) /\ leases c' = leases c /\
        max_retries c' = max_retries c /\ qinv 0 [i] [] c' C' L'
    end).
Proof.
  intros Hs8 Hf Hq0. apply tri_shape. intros Hs0.
  destruct (stack_lookup c C L (8 + s) Hs0 ltac:(lia)) as [l0 Hl0].
  assert (Hlen0 : (length l0 <= length (slots c))%nat).
  { etrans; [|exact (shape_count c C L Hs0)]. rewrite <- (list_insert_id C (8 + s) l0 Hl0) at 1.
    rewrite insert_take_drop by (by eapply lookup_lt_Some). rewrite concat_app. cbn. rewrite !length_app. lia. }
  unfold claim_pop. eapply (tri_loop _ _ _ (fun n _ c' C' L' => L' = L /\ sim c c' /\ qinv 0 [] [] c' C' L' /\
    (exists l, C' !! (8 + s)%nat = Some l /\ length l = n) /\
    forall k, (8 <= k)%nat -> k <> (8 + s)%nat -> C' !! k = C !! k)).
  { split_and!; try done. by exists l0. } { lia. }
  intros n [] c1 C1 L1 (-> & Hsim & Hq & (l & Hl & En) & Hoth). apply tri_shape. intros Hs.
  eapply tri_fbind; [rewrite ready_is_stack; eapply (tri_pop _ _ _ _ l _ (fun r c' C' L' => c' = c1 /\ L' = L /\
      match r with None => l = [] /\ C' = C1 | Some i => exists l', l = i :: l' /\ C' = <[(8 + s)%nat := l']> C1 end));
    [exact Hl|destruct l; naive_solver]|].
  intros [i|] c2 C2 L2 (-> & -> & Hcase); [|destruct Hcase as [-> ->]; apply tri_done; done].
  destruct Hcase as (l' & -> & ->).
  pose proof (sh_below _ _ _ Hs _ _ i Hl (list_elem_of_here _ _)) as Hib.
  destruct (below_lookup i Hib) as [t Ht].
  pose proof (qinv_pop Hs Hq (8 + s) i l' t Hl Ht) as Hq'.
  apply nexts_erased. intros Hnx _. apply tri_shape. intros Hs2. destruct Hsim as (E1 & E2 & E3).
  destruct (qi_ready _ _ _ _ _ _ Hq (8 + s) _ i t ltac:(lia) Hl (list_elem_of_here _ _) Ht) as [Est|Est].
  - rewrite decide_False in Hq' by (rewrite Est; naive_solver).
    eapply (tri_slot _ _ _ _ i t); [apply data_try|exact Ht|by apply run_try_hit|exact (Hnx _ _ Ht)|].
    apply tri_done. split; [done|]. exists t. rewrite E1 in Ht.
    split_and!; try done; [by apply Hib|by cbn; rewrite E1|].
    apply qinv_upd; [done|exact Hq'|apply list_elem_of_here|done].
  - rewrite decide_True in Hq' by (split; [lia|done]).
    eapply (tri_slot_read _ _ _ _ i t); [apply data_try|exact Ht|apply run_try_miss; by rewrite Est|]. cbv iota.
    destruct (stack_lookup c1 _ L s Hs2 ltac:(lia)) as [lf Hlf].
    eapply tri_fbind; [rewrite free_is_stack by done; eapply tri_push; [exact Hlf|done|by apply (qi_hand _ _ _ _ _ _ Hq'), list_elem_of_here|]|].
    { instantiate (1 := fun _ c' C' L' => c' = c1 /\ L' = L /\ C' = <[s := i :: lf]> (<[(8 + s)%nat := l']> C1)). done. }
    intros _ c3 C3 L3 (-> & -> & ->). apply tri_shape. intros Hs3.
    assert (Hq3 : qinv 1 [] [] c1 (<[s := i :: lf]> (<[(8 + s)%nat := l']> C1)) L).
    { apply (qinv_push s i lf t Hq'); [apply not_elem_of_nil|done|done|]. rewrite decide_True by done. unfold reusable. tauto. }
    apply tri_cancelled. apply tri_done. exists (length l'). split; [cbn in En; lia|]. split_and!; try done.
    + apply (qinv_cancelled Hq3). rewrite (qi_count _ _ _ _ _ _ Hq3), Nat.add_1_r, Nat.add_0_r. apply wrap_dec.
      pose proof (count_bound _ _ _ Hs3). pose proof (sh_small _ _ _ Hs). lia.
    + exists l'. split; [|done]. rewrite list_lookup_insert_ne by lia. apply list_lookup_insert_eq. by eapply lookup_lt_Some.
    + intros k Hk Hne. rewrite !list_lookup_insert_ne by lia. by apply Hoth.
Qed.

(** ** The invariant between operations *)

Record good c C L : Prop := {
  gd_inv : qinv 0 [] [] c C L;
  gd_cap : capacity q = Z.of_nat (length (slots c));
  gd_lcap : lease_table_capacity q = length (leases c);
  gd_fuel : (length (slots c) < fuel)%nat;
  gd_small : 0 < capacity q < U32_MAX
}.

(** The operation takes a step of the board and keeps the invariant. *)
Definition refines (op : Op) : Prop :=
  forall c C L, good c C L ->
    tri c C L (exec q fuel addr work_n done_n tid op) (fun x c' C' L' => spec (abs c) op x (abs c') /\ good c' C' L').

Lemma good_upd c C L c' C' L' :
  good c C L -> length (slots c') = length (slots c) -> length (leases c') = length (leases c) ->
  qinv 0 [] [] c' C' L' -> good c' C' L'.
Proof. intros [G1 G2 G3 G4 G5] E1 E2 Hq. split; rewrite ?E1, ?E2; done. Qed.

(** The visiting order of a claim finds a queued task if there is one. *)
Lemma tri_claim_shards c C L w :
  good c C L ->
  tri c C L (loop_each (seq 0 SHARDS) (fun k => claim_pop fuel
      ((Z.to_nat (w mod Z.of_nat SHARDS) + k * (1 + 2 * Z.to_nat (w mod Z.of_nat (SHARDS / 2)))) mod SHARDS)%nat))
    (fun r c' C' L' => match r with
      | None => sim c c' /\ qinv 0 [] [] c' C' L' /\ forall s, (s < 8)%nat -> C' !! (8 + s)%nat = Some []
      | Some i => exists t, 0 <= i /\ slots c !! Z.to_nat i = Some t /\ ts_state t = QUEUED /\
          slots c' = <[Z.to_nat i := set_state CLAIMED t]> (slots c) /\ leases c' = leases c /\
          max_retries c' = max_retries c /\ qinv 0 [i] [] c' C' L'
      end).
Proof.
  intros G. pose proof (shards_claim w) as Hcover. set (home := Z.to_nat (w mod Z.of_nat SHARDS)) in *.
  set (stride := (1 + 2 * Z.to_nat (w mod Z.of_nat (SHARDS / 2)))%nat) in *.
  eapply (tri_each _ _ (fun xs c' C' L' => L' = L /\ sim c c' /\ qinv 0 [] [] c' C' L' /\
    exists k, (k <= 8)%nat /\ xs = seq k (8 - k) /\
      forall k', (k' < k)%nat -> C' !! (8 + (home + k' * stride) mod 8)%nat = Some [])).
  - split_and!; try done; [by apply G|]. exists 0%nat. split_and!; [lia|done|lia].
  - intros x xs c1 C1 L1 (-> & Hsim & Hq & k & Hk & E & Hv). destruct (8 - k)%nat as [|n] eqn:En; [done|].
    injection E as -> ->. assert (Hm : ((home + k * stride) mod SHARDS < 8)%nat) by (apply Nat.mod_upper_bound; done).
    pose proof Hsim as (E1 & E2 & E3).
    eapply tri_mono; [|apply tri_claim_pop; [exact Hm|rewrite E1; apply G|exact Hq]].
    intros [i|] c2 C2 L2 [-> HR].
    + destruct HR as (t & HR). exists t. by rewrite <- E1, <- E2, <- E3.
    + destruct HR as (Hsim2 & Hq2 & Hemp & Hoth). split; [done|]. destruct Hsim2 as (F1 & F2 & F3).
      split; [unfold sim; by rewrite F1, F2, F3|]. split; [done|]. exists (S k). split_and!; [lia|f_equal; lia|].
      intros k' Hk'. destruct (decide ((home + k' * stride) mod 8 = (home + k * stride) mod 8)%nat) as [Eq|Ne].
      * rewrite Eq. exact Hemp.
      * rewrite Hoth by (unfold SHARDS; lia). apply Hv. assert (k' <> k) by congruence. lia.
  - intros c1 C1 L1 (-> & Hsim & Hq & k & Hk & E & Hv). split_and!; try done. intros s Hs8.
    destruct (8 - k)%nat eqn:En; [|done]. destruct (Hcover s Hs8) as (k' & Hk' & Emod).
    rewrite <- Emod. apply Hv. lia.
Qed.

Lemma claim_refines w dl : refines (OClaim w dl).
Proof.
  intros c C L G. cbn [exec]. unfold claim_inner.
  eapply tri_fbind; [|intros x c' C' L' HR; apply tri_done, HR].
  eapply tri_fbind; [by apply tri_claim_shards|].
  intros [i|] c1 C1 L1 HR.
  - destruct HR as (t & Hi & Ht & Hst & E1 & E2 & E3 & Hq).
    assert (Ht1 : slots c1 !! Z.to_nat i = Some (set_state CLAIMED t)).
    { rewrite E1. apply list_lookup_insert_eq. by eapply lookup_lt_Some. }
    assert (Hb : below (length (slots c1)) i) by (by eapply lookup_below).
    apply nexts_erased. intros Hnx _. pose proof (Hnx _ _ Ht1) as Hn. cbn in Hn. apply tri_shape. intros Hs.
    eapply tri_slot; [by intros ??|exact Ht1|reflexivity|done|]. cbv beta.
    assert (Hend : forall t', ts_state t' = CLAIMED -> ts_seq t' = ts_seq t -> ts_request t' = ts_request t ->
      ts_next t' = 0 -> t' = claimed_task w dl t ->
      tri (upd_slot i t' c1) C1 L1 (sq <- slot i (load ts_seq) ;; request <- slot i (load ts_request) ;;
        done (Some (mkClaimed i sq w request))) (fun x c' C' L' => spec (abs c) (OClaim w dl) (RClaim x) (abs c') /\ good c' C' L')).
    { intros t' F1 F2 F3 F4 F5. assert (Ht' : slots (upd_slot i t' c1) !! Z.to_nat i = Some t') by (by eapply upd_slot_lookup).
      slot_read. slot_read. apply tri_done. rewrite F2, F3. split.
      - rewrite <- (Z2Nat.id i) by done.
        replace (abs (upd_slot (Z.of_nat (Z.to_nat i)) t' c1)) with (put_task (Z.of_nat (Z.to_nat i)) (claimed_task w dl t) (abs c)).
        { by apply spec_claim. }
        unfold put_task, abs, upd_slot. csimpl. rewrite E1, E2, E3, Nat2Z.id, list_insert_insert_eq. by rewrite F5.
      - apply (good_upd c C L); [done|csimpl; by rewrite E1, !length_insert|csimpl; by rewrite E2|].
        eapply (qinv_give i t'); [|exact Ht'|done]. apply qinv_upd; [done..|apply list_elem_of_here|done]. }
    destruct dl as [d|].
    + eapply tri_slot_again; [exact Ht1|by intros ??|reflexivity|done|]. by apply Hend.
    + by apply tri_ret, Hend.
  - destruct HR as (Hsim & Hq & Hemp). apply tri_shape. intros Hs. apply tri_done. pose proof Hsim as (E1 & E2 & E3). split.
    + rewrite (sim_abs c c1 Hsim). apply spec_claim_none. intros i t Ht Hst. cbn in Ht. rewrite <- E1, <- (Nat2Z.id i) in Ht.
      destruct (queued_on_ready (Z.of_nat i) t Hq Ht ltac:(lia) Hst) as (k & l & Hge & Hk & Hin).
      assert (k < 16)%nat by (rewrite <- (sh_len _ _ _ Hs); by eapply lookup_lt_Some).
      specialize (Hemp (k - 8)%nat ltac:(lia)). replace (8 + (k - 8))%nat with k in Hemp by lia.
      rewrite Hemp in Hk. injection Hk as <-. by apply not_elem_of_nil in Hin.
    + apply (good_upd c C L); [done|by rewrite E1|by rewrite E2|done].
Qed.

(** ** Submitting *)

(** Nodes held aside: distinct, queued, in hand. *)
Definition aside c (held : list Z) : Prop :=
  NoDup held /\ forall i, i ∈ held -> 0 <= i /\ exists t, slots c !! Z.to_nat i = Some t /\ ts_state t = QUEUED.

Lemma tri_dig c C L HL s n held :
  (s < 8)%nat -> qinv 0 held HL c C L -> aside c held ->
  tri c C L (dig fuel s n held) (fun r c' C' L' => L' = L /\ aside c r.2 /\
    match r.1 with
    | None => c' = c /\ qinv 0 r.2 HL c' C' L'
    | Some i => exists t v, 0 <= i /\ slots c !! Z.to_nat i = Some t /\ ts_state t = CANCELLED /\
        c' = set_cancelled v (upd_slot i (set_state RESERVED t) c) /\ qinv 0 (i :: r.2) HL c' C' L' /\ i ∉ r.2
    end).
Proof.
  intros Hs8. revert held C. induction n as [|n IH]; intros held C Hq Ha; cbn [dig]; [by apply tri_done|].
  apply tri_shape. intros Hs. destruct (stack_lookup c C L (8 + s) Hs ltac:(lia)) as [l Hl].
  eapply tri_fbind; [rewrite ready_is_stack; eapply (tri_pop _ _ _ _ l _ (fun r c' C' L' => c' = c /\ L' = L /\
      match r with None => C' = C | Some i => exists l', l = i :: l' /\ C' = <[(8 + s)%nat := l']> C end));
    [exact Hl|destruct l; naive_solver]|].
  intros [i|] c2 C2 L2 (-> & -> & Hcase); [|subst C2; by apply tri_done].
  destruct Hcase as (l' & -> & ->). pose proof (sh_below _ _ _ Hs _ _ i Hl (list_elem_of_here _ _)) as Hib.
  destruct (below_lookup i Hib) as [t Ht]. pose proof (qinv_pop Hs Hq (8 + s) i l' t Hl Ht) as Hq'.
  assert (Hih : i ∉ held).
  { intros Hin. apply (qi_hand _ _ _ _ _ _ Hq i Hin (8 + s)%nat _ Hl), list_elem_of_here. }
  apply nexts_erased. intros Hnx _. apply tri_shape. intros Hs2.
  destruct (qi_ready _ _ _ _ _ _ Hq (8 + s) _ i t ltac:(lia) Hl (list_elem_of_here _ _) Ht) as [Est|Est].
  - rewrite decide_False in Hq' by (rewrite Est; naive_solver).
    eapply (tri_slot_read _ _ _ _ i t); [apply data_cas|exact Ht|cbn; rewrite Est; reflexivity|]. cbn [fst].
    apply IH; [exact Hq'|]. destruct Ha as [Hnd Hall]. split; [by apply list.NoDup_cons|].
    intros j [->|Hj]%elem_of_cons; [split; [apply Hib|eauto]|by apply Hall].
  - rewrite decide_True in Hq' by (split; [lia|done]).
    eapply (tri_slot _ _ _ _ i t); [apply data_cas|exact Ht|cbn; rewrite Est; reflexivity|exact (Hnx _ _ Ht)|]. cbn [fst].
    assert (Hq3 : qinv 1 (i :: held) HL (upd_slot i (set_state RESERVED t) c) (<[(8 + s)%nat := l']> C) L).
    { apply (qinv_upd Hs2 Hq'); [apply list_elem_of_here|done]. }
    apply tri_shape. intros Hs3. apply tri_cancelled, tri_done. cbn [fst snd]. split_and!; try done.
    eexists t, _. split_and!; [apply Hib|done|done|reflexivity| |done].
    apply (qinv_cancelled Hq3). rewrite (qi_count _ _ _ _ _ _ Hq3), Nat.add_1_r, Nat.add_0_r. apply wrap_dec.
    pose proof (count_bound _ _ _ Hs3). pose proof (sh_small _ _ _ Hs3). lia.
Qed.

(** Pushing the held nodes back. *)
Lemma tri_undig c C L H HL s held :
  (s < 8)%nat -> qinv 0 (held ++ H) HL c C L -> NoDup (held ++ H) -> aside c held ->
  tri c C L (loop_fold held (fun _ idx => treiber_push (ready_stack s) fuel idx) tt)
    (fun _ c' C' L' => c' = c /\ L' = L /\ qinv 0 H HL c' C' L').
Proof.
  intros Hs8 Hq Hnd [_ Ha].
  eapply (tri_fold _ _ _ (fun xs _ c' C' L' => c' = c /\ L' = L /\ qinv 0 (xs ++ H) HL c' C' L' /\ NoDup (xs ++ H) /\
    forall i, i ∈ xs -> i ∈ held)); [done| |naive_solver].
  intros i xs [] c1 C1 L1 (-> & -> & Hq1 & [Hni Hnd1]%list.NoDup_cons & Hsub).
  destruct (Ha i (Hsub i (list_elem_of_here _ _))) as (Hi & t & Ht & Hst). apply tri_shape. intros Hs.
  destruct (stack_lookup c C1 L (8 + s) Hs ltac:(lia)) as [l Hl]. rewrite ready_is_stack.
  eapply tri_push; [exact Hl|by eapply lookup_below|apply (qi_hand _ _ _ _ _ _ Hq1), list_elem_of_here|]. cbv beta.
  split_and!; try done; [|by intros j Hj; apply Hsub, list_elem_of_further].
  apply (qinv_push (8 + s) i l t Hq1 Hni Hl Ht). by rewrite decide_False by lia.
Qed.

(** A reserved slot: in hand, RESERVED, formerly not live. *)
Definition reserved c HL (i : Z) c' C' L' : Prop :=
  exists t, 0 <= i /\ slots c !! Z.to_nat i = Some t /\ live t = false /\
    slots c' = <[Z.to_nat i := set_state RESERVED t]> (slots c) /\ leases c' = leases c /\
    max_retries c' = max_retries c /\ qinv 0 [i] HL c' C' L'.

Lemma tri_dig_shard c C L HL s :
  (s < 8)%nat -> qinv 0 [] HL c C L ->
  tri c C L (dig_shard q fuel s) (fun r c' C' L' => L' = L /\
    match r with
    | Some (Some i) => reserved c HL i c' C' L'
    | _ => c' = c /\ qinv 0 [] HL c' C' L'
    end).
Proof.
  intros Hs8 Hq. unfold dig_shard. apply tri_load; [done|]. case_match; [by apply tri_done|].
  eapply tri_fbind; [apply tri_dig; [done|exact Hq|]|].
  { split; [by constructor|]. by intros i Hi%not_elem_of_nil. }
  intros [[i|] held] c1 C1 L1 (-> & Ha & HR); cbn [fst snd] in *.
  - destruct HR as (t & v & Hi & Ht & Est & -> & Hq1 & Hni).
    eapply tri_fbind; [apply (tri_undig _ _ _ [i] HL); [done| | |]|].
    + eapply qinv_hand_iff; [|exact Hq1]. set_solver.
    + apply list.NoDup_app. destruct Ha as [? _]. split_and!; [done|set_solver|apply NoDup_singleton].
    + destruct Ha as [Hnd Hall]. split; [done|]. intros j Hj. destruct (Hall j Hj) as (Hj0 & tj & Htj & Hst).
      split; [done|]. exists tj. split; [|done]. csimpl. rewrite list_lookup_insert_ne; [done|].
      intros E. assert (i = j) by lia. by subst j.
    + intros _ c2 C2 L2 (-> & -> & Hq2). apply tri_done. split; [done|]. exists t. split_and!; try done.
      unfold live. by rewrite Est.
  - destruct HR as [-> Hq1]. eapply tri_fbind; [apply (tri_undig _ _ _ [] HL); [done| | |done]|].
    + by rewrite app_nil_r.
    + rewrite app_nil_r. by destruct Ha.
    + intros _ c2 C2 L2 (-> & -> & Hq2). by apply tri_done.
Qed.

(** A slot popped from a FREE stack and marked. *)
Lemma tri_reserve_free c C L HL (k : option Z -> prog QueueMem (option (option Z))) Q :
  qinv 0 [] HL c C L ->
  (forall i c' C', reserved c HL i c' C' L -> tri c' C' L (done (Some i)) Q) ->
  ((forall i t, slots c !! i = Some t -> live t = true \/ ts_state t = CANCELLED) -> tri c C L (k None) Q) ->
  tri c C L (o <-- pop_free fuel tid addr ;;
             match o with
             | Some idx => slot idx (store (set_state RESERVED)) ;;; done (Some idx)
             | None => k None
             end) Q.
Proof.
  intros Hq Hsome Hnone. apply tri_shape. intros Hs. eapply tri_fbind; [apply tri_pop_free|].
  intros [i|] c1 C1 L1 (-> & -> & HR).
  - destruct HR as (k8 & l & Hk8 & Hl & ->).
    pose proof (sh_below _ _ _ Hs _ _ i Hl (list_elem_of_here _ _)) as Hib. destruct (below_lookup i Hib) as [t Ht].
    pose proof (qinv_pop Hs Hq k8 i l t Hl Ht) as Hq1. rewrite decide_False in Hq1 by lia.
    apply nexts_erased. intros Hnx _. apply tri_shape. intros Hs1.
    eapply tri_slot; [by intros ??|exact Ht|reflexivity|exact (Hnx _ _ Ht)|].
    apply Hsome. exists t. split_and!; try done; [apply Hib| |].
    + destruct (qi_free _ _ _ _ _ _ Hq k8 _ i t Hk8 Hl (list_elem_of_here _ _) Ht) as [E|[E|[E|E]]];
        unfold live; by rewrite E.
    + apply (qinv_upd Hs1 Hq1); [apply list_elem_of_here|done].
  - destruct HR as [-> Hemp]. apply Hnone. intros i t Ht. rewrite <- (Nat2Z.id i) in Ht.
    destruct (decide (Exists (fun l => Z.of_nat i ∈ l) C)) as [Hex|Hno].
    + apply list.Exists_exists in Hex as (l & Hl & Hin). apply list_elem_of_lookup in Hl as [k8 Hk].
      destruct (Nat.lt_ge_cases k8 8) as [Hlt|Hge].
      * rewrite (Hemp k8 l Hlt Hk) in Hin. by apply not_elem_of_nil in Hin.
      * destruct (qi_ready _ _ _ _ _ _ Hq k8 l _ t Hge Hk Hin Ht) as [E|E]; [left|by right]. unfold live. by rewrite E.
    + left. unfold live. rewrite (qi_held _ _ _ _ _ _ Hq (Z.of_nat i) t Ht); [done|lia| |apply not_elem_of_nil].
      intros k8 l Hk Hin. apply Hno, list.Exists_exists. exists l. split; [by eapply list_elem_of_lookup_2|done].
Qed.

Definition submit_slot c HL (r : option Z) c' C' L' : Prop :=
  match r with
  | Some i => reserved c HL i c' C' L'
  | None => sim c c' /\ qinv 0 [] HL c' C' L' /\
      forall i t, slots c !! i = Some t -> live t = true \/ ts_state t = CANCELLED
  end.

Lemma tri_reserve_cancelled c C L HL :
  qinv 0 [] HL c C L ->
  tri c C L (reserve_cancelled_ready q fuel tid addr work_n) (fun r c' C' L' => L' = L /\ submit_slot c HL r c' C' L').
Proof.
  intros Hq. unfold reserve_cancelled_ready. eapply tri_fbind.
  { eapply (tri_each _ _ (fun xs c' C' L' => L' = L /\ c' = c /\ qinv 0 [] HL c' C' L' /\ Forall (fun s => s < 8)%nat xs)
      (fun r c' C' L' => L' = L /\
         match r with Some (Some i) => reserved c HL i c' C' L' | _ => c' = c /\ qinv 0 [] HL c' C' L' end)).
    - split_and!; try done. apply list.Forall_forall. intros s Hs%elem_of_seq. unfold SHARDS in Hs. lia.
    - intros s xs c1 C1 L1 (-> & -> & Hq1 & [Hs8 Hall]%list.Forall_cons).
      eapply tri_mono; [|by apply tri_dig_shard]. intros [[i|]|] c2 C2 L2 HR; naive_solver.
    - intros c1 C1 L1 (-> & -> & Hq1 & _). done. }
  intros r c1 C1 L1 [-> HR].
  eapply (tri_fbind _ _ _ _ _ (fun r c' C' L' => L' = L /\ submit_slot c HL r c' C' L')).
  - assert (Hrec : c1 = c /\ qinv 0 [] HL c1 C1 L -> tri c1 C1 L (o <-- pop_free fuel tid addr ;;
        match o with Some idx => slot idx (store (set_state RESERVED)) ;;; done (Some idx) | None => done None end)
        (fun r c' C' L' => L' = L /\ submit_slot c HL r c' C' L')).
    { intros [-> Hq1]. apply (tri_reserve_free _ _ _ HL (fun _ => done None) _ Hq1).
      - intros i c' C' Hr. by apply tri_done.
      - intros Hall. by apply tri_done. }
    destruct r as [[i|]|]; [by apply tri_done|by apply Hrec..].
  - intros r' c2 C2 L2 HR2. by apply tri_notify_if, tri_done.
Qed.

Lemma tri_reserve_submit c C L HL :
  qinv 0 [] HL c C L ->
  tri c C L (reserve_submit_slot q fuel tid addr work_n) (fun r c' C' L' => L' = L /\ submit_slot c HL r c' C' L').
Proof.
  intros Hq. unfold reserve_submit_slot.
  apply (tri_reserve_free _ _ _ HL (fun _ => reserve_cancelled_ready q fuel tid addr work_n) _ Hq).
  - intros i c' C' Hr. by apply tri_done.
  - intros _. by apply tri_reserve_cancelled.
Qed.

(** A lease record popped from the free list is in hand, and its pin is free. *)
Lemma tri_take_lease {A} c C L H (k : option Z -> prog QueueMem (option A)) Q :
  qinv 0 H [] c C L ->
  (forall i l L', 0 <= i -> leases c !! Z.to_nat i = Some l -> lease_word_state (ls_word l) = LEASE_NONE ->
     qinv 0 H [i] c C L' -> tri c C L' (k (Some i)) Q) ->
  ((forall j l, leases c !! j = Some l -> abs_pin l <> None) -> tri c C L (k None) Q) ->
  tri c C L (fbind (pop_lease fuel) k) Q.
Proof.
  intros Hq Hsome Hnone. apply tri_shape. intros Hs.
  eapply (tri_fbind _ _ _ _ _ (fun r c' C' L' => c' = c /\ C' = C /\
    match r with None => L = [] /\ L' = L | Some i => L = i :: L' end)).
  { apply tri_pop_lease. by destruct L. }
  intros [i|] c1 C1 L1 (-> & -> & HR).
  - pose proof (sh_lbelow _ _ _ Hs i) as Hb. rewrite HR in Hb. specialize (Hb (list_elem_of_here _ _)).
    destruct (lookup_lt_is_Some_2 (leases c) (Z.to_nat i)) as [l Hl]; [destruct Hb; lia|].
    apply (Hsome i l); [by apply Hb|done| |by apply (qinv_lease_pop Hs i)].
    apply (qi_lfree _ _ _ _ _ _ Hq i); [rewrite HR; apply list_elem_of_here|done].
  - destruct HR as [-> ->]. apply Hnone. intros j l Hl.
    destruct (qi_lheld _ _ _ _ _ _ Hq (Z.of_nat j) l) as [E|E]; try apply not_elem_of_nil; try lia.
    + by rewrite Nat2Z.id.
    + unfold abs_pin. by rewrite E.
    + unfold abs_pin. by rewrite E.
Qed.

Lemma tri_put_lease c C L H i l :
  qinv 0 H [i] c C L -> 0 <= i -> leases c !! Z.to_nat i = Some l -> lease_word_state (ls_word l) = LEASE_NONE ->
  tri c C L (push_lease fuel i) (fun _ c' C' L' => c' = c /\ C' = C /\ qinv 0 H [] c' C' L').
Proof.
  intros Hq Hi Hl Hst. apply tri_push_lease.
  - apply lookup_lt_Some in Hl. unfold below. lia.
  - apply (qi_lhand _ _ _ _ _ _ Hq), list_elem_of_here.
  - split_and!; try done. apply (qinv_lease_push i l Hq); [apply not_elem_of_nil|done|done].
Qed.

Lemma abs_pins_upd i l c : abs (upd_lease i l c) = put_pins (<[i := abs_pin l]> (pins (abs c))) (abs c).
Proof. unfold abs, upd_lease, put_pins. csimpl. by rewrite list_fmap_insert. Qed.

Lemma pins_lookup c j l : leases c !! j = Some l -> pins (abs c) !! j = Some (abs_pin l).
Proof. intros Hl. cbn. by rewrite list_lookup_fmap, Hl. Qed.

Lemma pins_full c : (forall j l, leases c !! j = Some l -> abs_pin l <> None) -> no_free_pin (abs c).
Proof. intros H j E. cbn in E. apply list_lookup_fmap_Some in E as (l & E & Hl). by apply (H j l). Qed.

(** Arming a record in hand. *)
Lemma tri_arm {A} c C L H i l b idx sq dl (k : unit -> prog QueueMem (option A)) Q :
  qinv 0 H [i] c C L -> 0 <= i -> leases c !! Z.to_nat i = Some l ->
  (qinv 0 H [] (upd_lease (Z.to_nat i) (armed_lease b idx sq dl l) c) C L ->
   tri (upd_lease (Z.to_nat i) (armed_lease b idx sq dl l) c) C L (k tt) Q) ->
  tri c C L (pbind (lease (Z.to_nat i) (arm b idx sq dl)) k) Q.
Proof.
  intros Hq Hi Hl Hk. apply nexts_erased. intros _ Hnx. apply tri_shape. intros Hs.
  eapply tri_lease; [by intros ??|exact Hl|apply run_arm|exact (Hnx _ _ Hl)|]. apply Hk.
  eapply (qinv_lease_give i (armed_lease b idx sq dl l)).
  - apply (qinv_lease_upd Hs Hq); [apply list_elem_of_here|]. apply lookup_lt_Some in Hl. unfold below. lia.
  - csimpl. apply list_lookup_insert_eq. by eapply lookup_lt_Some.
  - left. apply lease_state_pack. unfold LEASE_ARMED. mach.
Qed.

(** Filling the reserved slot. *)
Definition filled (request : ChunkDesc) (dl : Z) (t : TaskSlot) : TaskSlot :=
  mkTaskSlot RESERVED OWNER_NONE (wrap64 (ts_seq t + 1)) dl 0 0 0 request ChunkDesc.ZERO.

Lemma tri_fill {A} c C L HL i t request dl (k : Z -> prog QueueMem (option A)) Q :
  qinv 0 [i] HL c C L -> 0 <= i -> slots c !! Z.to_nat i = Some t -> ts_state t = RESERVED ->
  (qinv 0 [i] HL (upd_slot i (filled request dl t) c) C L ->
   tri (upd_slot i (filled request dl t) c) C L (k (wrap64 (ts_seq t + 1))) Q) ->
  tri c C L (old_seq <- slot i (load ts_seq) ;;
    slot i (store (set_seq (wrap64 (old_seq + 1)))) ;;; slot i (store (set_owner OWNER_NONE)) ;;;
    slot i (store (set_retry 0)) ;;; slot i (store (set_cancel 0)) ;;; slot i (store (set_deadline dl)) ;;;
    slot i (store (set_request request)) ;;; slot i (store (set_result ChunkDesc.ZERO)) ;;;
    k (wrap64 (old_seq + 1))) Q.
Proof.
  intros Hq Hi Ht Est Hk. apply nexts_erased. intros Hnx _. pose proof (Hnx _ _ Ht) as Hn.
  apply tri_shape. intros Hs. slot_read. eapply tri_slot; [by intros ??|exact Ht|reflexivity|done|].
  do 6 (eapply tri_slot_again; [exact Ht|by intros ??|reflexivity|done|]).
  match goal with |- tri (upd_slot i ?t' c) _ _ _ _ => replace t' with (filled request dl t) end.
  - apply Hk. apply (qinv_upd Hs Hq); [apply list_elem_of_here|by eapply lookup_below].
  - destruct t. cbn in *. by subst.
Qed.

(** The record taken for the input binding, if any. *)
Definition taken (arm_at : option (LeaseBinding * Z)) : list Z := match arm_at with Some (_, li) => [li] | None => [] end.
Definition taken_ok c (arm_at : option (LeaseBinding * Z)) : Prop :=
  match arm_at with
  | Some (_, li) => 0 <= li /\ exists l, leases c !! Z.to_nat li = Some l /\ lease_word_state (ls_word l) = LEASE_NONE
  | None => True
  end.

Lemma tri_submit_found c C L c1 C1 L1 i t request dl arm_at :
  good c C L -> taken_ok c arm_at -> 0 <= i -> slots c !! Z.to_nat i = Some t -> live t = false ->
  slots c1 = <[Z.to_nat i := set_state RESERVED t]> (slots c) -> leases c1 = leases c -> max_retries c1 = max_retries c ->
  qinv 0 [i] (taken arm_at) c1 C1 L1 ->
  let sq := wrap64 (ts_seq t + 1) in
  tri (upd_slot i (filled request dl (set_state RESERVED t)) c1) C1 L1
    ((match arm_at with Some (b, li) => lease (Z.to_nat li) (arm b i sq dl) | None => Ret tt end) ;;;
     s <- next_shard tid addr ;; _ <-- publish_queued fuel s i ;;
     notify_if waiters_work work_n ;;; done (Ok (mkHandle i sq)))
    (fun x c' C' L' => spec (abs c) (OSubmit request dl (fst <$> arm_at)) (RHandle x) (abs c') /\ good c' C' L').
Proof.
  intros G Htk Hi Ht Hlive E1 E2 E3 Hq sq.
  set (t' := filled request dl (set_state RESERVED t)). set (c2 := upd_slot i t' c1).
  assert (Ht1 : slots c1 !! Z.to_nat i = Some (set_state RESERVED t)).
  { rewrite E1. apply list_lookup_insert_eq. by eapply lookup_lt_Some. }
  assert (Hlast : forall c3 ps, slots c3 = slots c2 -> qinv 0 [i] [] c3 C1 L1 -> max_retries c3 = max_retries c2 ->
    length (leases c3) = length (leases c) -> abs_pin <$> leases c3 = ps ->
    match fst <$> arm_at with Some b => armed (abs c) b i sq dl ps | None => ps = pins (abs c) end ->
    tri c3 C1 L1 (s <- next_shard tid addr ;; _ <-- publish_queued fuel s i ;;
      notify_if waiters_work work_n ;;; done (Ok (mkHandle i sq)))
    (fun x c' C' L' => spec (abs c) (OSubmit request dl (fst <$> arm_at)) (RHandle x) (abs c') /\ good c' C' L')).
  { intros c3 ps F1 Hq3 F2 F3 Eps Hps. apply tri_next_shard. intros s Hs8.
    assert (Ht3 : slots c3 !! Z.to_nat i = Some t') by (rewrite F1; by eapply upd_slot_lookup).
    eapply tri_fbind; [apply (tri_publish_queued _ _ _ [] [] s i t'); [done|done|apply not_elem_of_nil|done|done|done]|].
    intros _ c4 C4 L4 (-> & -> & Hq4). apply tri_notify_if; [done|]. apply tri_done. split.
    - replace (abs (upd_slot i (set_state QUEUED t') c3))
        with (put_pins ps (put_task (Z.of_nat (Z.to_nat i)) (fresh_task request dl t) (abs c))).
      { replace (mkHandle i sq) with (mkHandle (Z.of_nat (Z.to_nat i)) sq) by (by rewrite Z2Nat.id). apply spec_submit; [done|done|]. by rewrite Z2Nat.id. }
      unfold abs, put_pins, put_task, upd_slot. csimpl.
      rewrite F1, F2, Eps, Nat2Z.id. unfold c2, upd_slot. csimpl. by rewrite E1, E3, !list_insert_insert_eq.
    - apply (good_upd c C L _ _ _ G); [|exact F3|exact Hq4].
      csimpl. rewrite F1. unfold c2, upd_slot. csimpl. by rewrite E1, !length_insert. }
  apply tri_shape. intros Hs2. assert (Hq2 : qinv 0 [i] (taken arm_at) c2 C1 L1).
  { assert (Hs1 : shape c1 C1 L1).
    { destruct Hs2. split; try done; csimpl in *; rewrite ?length_insert in *; eauto. }
    apply (qinv_upd Hs1 Hq); [apply list_elem_of_here|by eapply lookup_below]. }
  destruct arm_at as [[b li]|]; cbn [taken taken_ok fmap option_fmap option_map fst] in *.
  - destruct Htk as (Hli & l & Hl & Hst). assert (Hl2 : leases c2 !! Z.to_nat li = Some l) by (csimpl; by rewrite E2).
    eapply tri_arm; [exact Hq2|done|exact Hl2|]. intros Hq3.
    eapply Hlast; [done|exact Hq3|done|csimpl; by rewrite length_insert, E2|reflexivity|].
    exists (Z.to_nat li). split; [rewrite (pins_lookup c _ l Hl); f_equal; by apply abs_pin_none|].
    csimpl. by rewrite E2, list_fmap_insert, abs_armed.
  - apply tri_ret. eapply Hlast; [done|done|done|csimpl; by rewrite E2|reflexivity|]. csimpl. by rewrite E2.
Qed.

Lemma submit_refines request dl input : refines (OSubmit request dl input).
Proof.
  intros c C L G. cbn [exec]. unfold submit_inner.
  eapply tri_fbind; [|intros x c' C' L' HR; apply tri_done, HR].
  eapply (tri_fbind _ _ _ _ _ (fun r c' C' L' => c' = c /\ C' = C /\
    match r with
    | Err e => e = LeaseTableFull /\ (exists b, input = Some b) /\ no_free_pin (abs c) /\ good c C' L'
    | Ok arm_at => input = fst <$> arm_at /\ taken_ok c arm_at /\ qinv 0 [] (taken arm_at) c C' L'
    end)).
  { destruct input as [b|]; [|apply tri_done; split_and!; try done; by apply G].
    apply (tri_take_lease _ _ _ []); [by apply G| |].
    - intros i l L' Hi Hl Hst Hq. apply tri_done. cbn. split_and!; try done. eauto.
    - intros Hall. apply tri_done. split_and!; try done; [by eexists|by apply pins_full]. }
  intros [arm_at|e] c0 C0 L0 (-> & -> & HR).
  2: { destruct HR as (-> & (b & ->) & Hfull & G'). apply tri_done. split; [by apply spec_submit_no_pin|done]. }
  destruct HR as (-> & Htk & Hq). eapply tri_fbind; [by apply tri_reserve_submit|].
  intros [i|] c1 C1 L1 [-> HR].
  - destruct HR as (t & Hi & Ht & Hlive & E1 & E2 & E3 & Hq1).
    apply (tri_fill _ _ _ (taken arm_at) i (set_state RESERVED t) request dl
      (fun sq => (match arm_at with Some (b, li) => lease (Z.to_nat li) (arm b i sq dl) | None => Ret tt end) ;;;
        s <- next_shard tid addr ;; _ <-- publish_queued fuel s i ;;
        notify_if waiters_work work_n ;;; done (Ok (mkHandle i sq)))); [done|done| |done|].
    { rewrite E1. apply list_lookup_insert_eq. by eapply lookup_lt_Some. }
    intros _. by apply (tri_submit_found c C L c1 C1 L0 i t).
  - destruct HR as (Hsim & Hq1 & Hall). pose proof Hsim as (E1 & E2 & E3).
    eapply (tri_fbind _ _ _ _ _ (fun _ c' C' L' => c' = c1 /\ qinv 0 [] [] c' C' L')).
    + destruct arm_at as [[b li]|]; [|by apply tri_done]. destruct Htk as (Hli & l & Hl & Hst).
      eapply tri_mono; [|eapply tri_put_lease; [exact Hq1|done|by rewrite E2|done]]. naive_solver.
    + intros _ c2 C2 L2 [-> Hq2]. apply tri_done. rewrite (sim_abs c c1 Hsim). split.
      * by apply spec_submit_full.
      * apply (good_upd c C L _ _ _ G); [by rewrite E1|by rewrite E2|done].
Qed.

(** ** Handles and claims *)

Lemma state_cases d HL c C L i t :
  qinv d [] HL c C L -> slots c !! i = Some t -> reusable t \/ ts_state t = QUEUED \/ ts_state t = CLAIMED.
Proof.
  intros Hq Ht. rewrite <- (Nat2Z.id i) in Ht. destruct (decide (Exists (fun l => Z.of_nat i ∈ l) C)) as [Hex|Hno].
  - apply list.Exists_exists in Hex as (l & Hl & Hin). apply list_elem_of_lookup in Hl as [k Hk].
    destruct (Nat.lt_ge_cases k 8) as [Hlt|Hge].
    + left. by eapply (qi_free _ _ _ _ _ _ Hq k).
    + destruct (qi_ready _ _ _ _ _ _ Hq k l _ t Hge Hk Hin Ht) as [E|E]; [by right; left|left; unfold reusable; tauto].
  - right; right. apply (qi_held _ _ _ _ _ _ Hq (Z.of_nat i)); [done|lia| |apply not_elem_of_nil].
    intros k l Hk Hin. apply Hno, list.Exists_exists. exists l. split; [by eapply list_elem_of_lookup_2|done].
Qed.

(** A slot that is claimed between operations is on no stack. *)
Lemma claimed_off d HL c C L i t :
  qinv d [] HL c C L -> slots c !! Z.to_nat i = Some t -> ts_state t = CLAIMED -> off C i.
Proof.
  intros Hq Ht Hst k l Hk Hin. destruct (Nat.lt_ge_cases k 8) as [Hlt|Hge].
  - destruct (qi_free _ _ _ _ _ _ Hq k l i t Hlt Hk Hin Ht) as [E|[E|[E|E]]]; by rewrite Hst in E.
  - destruct (qi_ready _ _ _ _ _ _ Hq k l i t Hge Hk Hin Ht) as [E|E]; by rewrite Hst in E.
Qed.

(** A claimed slot that has been given a terminal state goes back to a FREE stack. *)
Lemma tri_finish c C L HL i t t' :
  shape c C L -> qinv 0 [] HL c C L -> 0 <= i -> slots c !! Z.to_nat i = Some t -> ts_state t = CLAIMED -> reusable t' ->
  tri (upd_slot i t' c) C L (push_free fuel tid addr i)
    (fun _ c' C' L' => c' = upd_slot i t' c /\ L' = L /\ qinv 0 [] HL c' C' L').
Proof.
  intros Hs Hq Hi Ht Hst Hr. apply (tri_push_free _ _ _ [] _ i t'); [|apply not_elem_of_nil|done|by eapply upd_slot_lookup|done].
  apply (qinv_upd Hs); [|apply list_elem_of_here|by eapply lookup_below].
  apply qinv_take; [done|]. by eapply claimed_off.
Qed.

(** The lookup every handle operation starts with. *)
Lemma find_cases c C L i sq :
  good c C L -> 0 <= i ->
  (capacity q <= i /\ find_task (abs c) (mkHandle i sq) = None) \/
  exists t, i < capacity q /\ slots c !! Z.to_nat i = Some t /\
    find_task (abs c) (mkHandle i sq) = if ts_seq t =? sq then Some t else None.
Proof.
  intros G Hi. unfold find_task. cbn [slot_idx h_seq tasks abs]. destruct (slots c !! Z.to_nat i) as [t|] eqn:E.
  - right. exists t. split_and!; try done. rewrite (gd_cap _ _ _ G). apply lookup_lt_Some in E. lia.
  - left. split; [|done]. rewrite (gd_cap _ _ _ G). apply lookup_ge_None in E. lia.
Qed.

Lemma poll_refines h : 0 <= slot_idx h -> refines (OPoll h).
Proof.
  intros Hh c C L G. cbn [exec]. unfold poll. destruct h as [i sq]. cbn [slot_idx h_seq] in *.
  assert (Hfin : forall r, r = board_poll (abs c) (mkHandle i sq) -> tri c C L (done (RStatus r))
    (fun x c' C' L' => spec (abs c) (OPoll (mkHandle i sq)) x (abs c') /\ good c' C' L')).
  { intros r ->. apply tri_done. split; [constructor|done]. }
  unfold board_poll in Hfin. destruct (find_cases c C L i sq G Hh) as [[Hcap E]|(t & Hcap & Ht & E)]; rewrite E in Hfin.
  { rewrite (proj2 (Z.leb_le _ _) Hcap). by apply tri_ret, Hfin. }
  rewrite (proj2 (Z.leb_gt _ _) Hcap). apply tri_assoc. slot_read.
  destruct (ts_seq t =? sq) eqn:Es; cbn [negb]; [|by apply tri_ret, Hfin].
  apply tri_assoc. slot_read. destruct (state_cases _ _ _ _ _ _ _ (gd_inv _ _ _ G) Ht) as [[F|[F|[F|F]]]|[F|F]];
    rewrite F in *; try (apply tri_ret, Hfin; done).
  apply tri_assoc. slot_read. apply tri_assoc. slot_read. rewrite Es. by apply tri_ret, Hfin.
Qed.

Lemma attempt_refines ct : 0 <= ct_idx ct < capacity q -> refines (OAttempt ct).
Proof.
  intros Hct c C L G. cbn [exec]. rewrite (gd_cap _ _ _ G) in Hct.
  destruct (lookup_lt_is_Some_2 (slots c) (Z.to_nat (ct_idx ct))) as [t Ht]; [lia|].
  unfold attempt. slot_read. apply tri_done. split; [by constructor|done].
Qed.

Lemma is_cancelled_refines ct : 0 <= ct_idx ct < capacity q -> refines (OIsCancelled ct).
Proof.
  intros Hct c C L G. cbn [exec]. rewrite (gd_cap _ _ _ G) in Hct.
  destruct (lookup_lt_is_Some_2 (slots c) (Z.to_nat (ct_idx ct))) as [t Ht]; [lia|].
  unfold is_cancelled. apply tri_assoc. slot_read. apply tri_ret, tri_done. split; [by constructor|done].
Qed.

Lemma bind_refines ct b : 0 <= ct_idx ct < capacity q -> refines (OBind ct b).
Proof.
  intros Hct c C L G. cbn [exec]. pose proof (gd_cap _ _ _ G) as Ecap. pose proof (gd_small _ _ _ G) as Hcap.
  destruct (lookup_lt_is_Some_2 (slots c) (Z.to_nat (ct_idx ct))) as [t Ht]; [lia|].
  eapply tri_fbind; [|intros x c' C' L' HR; apply tri_done, HR].
  unfold bind_output. apply (tri_take_lease _ _ _ []); [by apply G| |].
  - intros i l L' Hi Hl Hst Hq. slot_read. eapply tri_arm; [exact Hq|done|exact Hl|]. intros Hq'. apply tri_done. split.
    + rewrite abs_pins_upd, abs_armed. apply (spec_bind _ ct b t); [done|].
      exists (Z.to_nat i). split; [rewrite (pins_lookup c _ l Hl); f_equal; by apply abs_pin_none|].
      rewrite wrap32_id by mach. done.
    + apply (good_upd c C L _ _ _ G); [done|csimpl; by rewrite length_insert|done].
  - intros Hall. apply tri_done. split; [by apply spec_bind_full, pins_full|done].
Qed.

Lemma complete_refines ct r : 0 <= ct_idx ct < capacity q -> refines (OComplete ct r).
Proof.
  intros Hct c C L G. cbn [exec].
  eapply tri_fbind; [|intros x c' C' L' HR; apply tri_done, HR].
  destruct (find_cases c C L (ct_idx ct) (ct_seq ct) G ltac:(lia)) as [[Hcap E]|(t & Hcap & Ht & E)]; [lia|].
  assert (Hfin : forall x, (x, abs c) = board_complete (abs c) ct r -> tri c C L (done x)
    (fun x c' C' L' => spec (abs c) (OComplete ct r) (RUnit x) (abs c') /\ good c' C' L')).
  { intros x Ex. apply tri_done. split; [|done]. pose proof (spec_complete (abs c) ct r) as Hsp. by rewrite <- Ex in Hsp. }
  pose proof (spec_complete (abs c) ct r) as Hsp. unfold board_complete in Hfin, Hsp. rewrite E in Hfin, Hsp.
  unfold complete. slot_read. destruct (ts_seq t =? ct_seq ct); cbn [negb]; [|by apply Hfin].
  destruct (Z.eqb_spec (ts_state t) CLAIMED) as [Est|Est].
  2: { eapply tri_slot_read; [apply data_try|exact Ht|by apply run_try_miss|]. by apply Hfin. }
  apply nexts_erased. intros Hnx _. pose proof (Hnx _ _ Ht) as Hn. apply tri_shape. intros Hs.
  eapply tri_slot; [apply data_try|exact Ht|by apply run_try_hit|done|]. cbv iota.
  do 2 (eapply tri_slot_again; [exact Ht|by intros ??|reflexivity|done|]).
  change (set_state DONE (set_result r (set_state COMPLETING t))) with (set_state DONE (set_result r t)).
  eapply tri_fbind; [eapply (tri_finish _ _ _ []); [done|by apply G|lia|done|done|unfold reusable; tauto]|].
  intros _ c2 C2 L2 (-> & -> & Hq2). apply tri_notify_done; [done|]. apply tri_done. split; [exact Hsp|].
  apply (good_upd c C L _ _ _ G); [csimpl; by rewrite length_insert|done|done].
Qed.

Lemma fail_refines ct : 0 <= ct_idx ct < capacity q -> refines (OFail ct).
Proof.
  intros Hct c C L G. cbn [exec].
  eapply tri_fbind; [|intros x c' C' L' HR; apply tri_done, HR].
  destruct (find_cases c C L (ct_idx ct) (ct_seq ct) G ltac:(lia)) as [[Hcap E]|(t & Hcap & Ht & E)]; [lia|].
  assert (Hfin : forall x, (x, abs c) = board_fail (abs c) ct -> tri c C L (done x)
    (fun x c' C' L' => spec (abs c) (OFail ct) (RUnit x) (abs c') /\ good c' C' L')).
  { intros x Ex. apply tri_done. split; [|done]. pose proof (spec_fail (abs c) ct) as Hsp. by rewrite <- Ex in Hsp. }
  pose proof (spec_fail (abs c) ct) as Hsp. unfold board_fail in Hfin, Hsp. rewrite E in Hfin, Hsp.
  unfold fail. slot_read. destruct (ts_seq t =? ct_seq ct); cbn [negb]; [|by apply Hfin].
  destruct (Z.eqb_spec (ts_state t) CLAIMED) as [Est|Est].
  2: { eapply tri_slot_read; [apply data_try|exact Ht|by apply run_try_miss|]. by apply Hfin. }
  apply nexts_erased. intros Hnx _. pose proof (Hnx _ _ Ht) as Hn. apply tri_shape. intros Hs.
  eapply tri_slot; [apply data_try|exact Ht|by apply run_try_hit|done|]. cbv iota.
  eapply tri_fbind; [eapply (tri_finish _ _ _ []); [done|by apply G|lia|done|done|unfold reusable; tauto]|].
  intros _ c2 C2 L2 (-> & -> & Hq2). apply tri_notify_done; [done|]. apply tri_done. split; [exact Hsp|].
  apply (good_upd c C L _ _ _ G); [csimpl; by rewrite length_insert|done|done].
Qed.

Lemma upd_cancelled_id c v : set_cancelled (cancelled c) (set_cancelled v c) = c.
Proof. by destruct c. Qed.

Lemma cancel_refines h : 0 <= slot_idx h -> refines (OCancel h).
Proof.
  intros Hh c C L G. cbn [exec]. unfold cancel. destruct h as [i sq]. cbn [slot_idx h_seq] in *.
  set (Q := fun x c' C' L' => spec (abs c) (OCancel (mkHandle i sq)) x (abs c') /\ good c' C' L').
  pose proof (spec_cancel (abs c) (mkHandle i sq)) as Hsp. unfold board_cancel in Hsp. cbn [slot_idx] in Hsp.
  destruct (find_cases c C L i sq G Hh) as [[Hcap E]|(t & Hcap & Ht & E)]; rewrite E in Hsp.
  { rewrite (proj2 (Z.leb_le _ _) Hcap). apply tri_ret, tri_done. done. }
  rewrite (proj2 (Z.leb_gt _ _) Hcap). apply tri_assoc. slot_read.
  destruct (ts_seq t =? sq) eqn:Es; cbn [negb]; [|apply tri_ret, tri_done; done].
  apply tri_shape. intros Hs. pose proof (count_bound _ _ _ Hs) as Hcb. pose proof (qi_count _ _ _ _ _ _ (gd_inv _ _ _ G)) as Ec.
  pose proof (gd_small _ _ _ G) as Hsm. rewrite (gd_cap _ _ _ G) in Hsm.
  apply tri_assoc, tri_cancelled, tri_assoc. rewrite wrap32_id by mach. set (c1 := set_cancelled (cancelled c + 1) c).
  apply nexts_erased. intros Hnx _. pose proof (Hnx _ _ Ht) as Hn. apply tri_shape. intros Hs1.
  assert (Hq1 : qinv 1 [] [] c1 C L) by (apply (qinv_cancelled (gd_inv _ _ _ G)); lia).
  destruct (Z.eqb_spec (ts_state t) QUEUED) as [Est|Est].
  - eapply tri_slot; [apply data_try|exact Ht|by apply run_try_hit|done|]. cbv iota.
    apply tri_assoc, tri_notify_done; [done|]. apply tri_ret, tri_done. split; [exact Hsp|].
    apply (good_upd c C L _ _ _ G); [csimpl; by rewrite length_insert|done|]. by apply qinv_cancel.
  - eapply tri_slot_read; [apply data_try|exact Ht|by apply run_try_miss|]. cbv iota.
    apply tri_assoc, tri_cancelled, tri_assoc. cbn [cancelled c1 set_cancelled].
    replace (cancelled c + 1 + -1) with (cancelled c) by lia. rewrite wrap32_id by mach.
    unfold c1. rewrite upd_cancelled_id. slot_read. apply tri_assoc.
    destruct (Z.eqb_spec (ts_state t) CLAIMED) as [Ecl|Ecl]; [|do 2 apply tri_ret; apply tri_done; done].
    apply tri_assoc. slot_read. rewrite Es. eapply tri_slot; [by intros ??|exact Ht|reflexivity|done|].
    apply tri_ret, tri_done. split; [exact Hsp|].
    apply (good_upd c C L _ _ _ G); [csimpl; by rewrite length_insert|done|].
    eapply (qinv_give i (set_cancel 1 t)); [|by eapply upd_slot_lookup|done].
    apply (qinv_upd Hs); [|apply list_elem_of_here|by eapply lookup_below].
    apply qinv_take; [by apply G|]. eapply claimed_off; [by apply G|done|done].
Qed.
End ops.
