(* ===== verification/TaskQueueSweeps.v ===== *)
(** * The task queue refines the board: sweeps and the theorem

    [ack], [reap_bindings] and [reap] walk a whole table.  Each is shown to apply a
    function to every entry, and the operations are put together into the refinement
    theorem. *)

From S2P Require Import Prelude Atomic Pod ChunkDesc Treiber TaskQueue TaskQueueInv TaskQueueSpec TaskQueueProof TaskQueueRefines.

(** ** A sweep in progress: the first [i] entries are mapped *)

Section swept.
Context {X : Type} (f : X -> X).

Definition swept (i : nat) (l : list X) : list X := (f <$> take i l) ++ drop i l.

Lemma swept_0 l : swept 0 l = l.
Proof. done. Qed.

Lemma swept_all l : swept (length l) l = f <$> l.
Proof. unfold swept. by rewrite take_ge, drop_ge, app_nil_r. Qed.

Lemma length_swept i l : length (swept i l) = length l.
Proof. unfold swept. rewrite length_app, length_fmap, length_take, length_drop. lia. Qed.

Lemma swept_step i l x : l !! i = Some x -> swept (S i) l = <[i := f x]> (swept i l) /\ swept i l !! i = Some x.
Proof.
  intros Hx. pose proof (lookup_lt_Some _ _ _ Hx) as Hlt. unfold swept.
  assert (El : length (f <$> take i l) = i) by (rewrite length_fmap, length_take; lia).
  rewrite (drop_S _ _ _ Hx), (take_S_r _ _ _ Hx), fmap_app. split.
  - rewrite insert_app_r_alt by lia. rewrite El, Nat.sub_diag. cbn. by rewrite <- app_assoc.
  - rewrite lookup_app_r by lia. by rewrite El, Nat.sub_diag.
Qed.

(** An entry the function does not change. *)
Lemma swept_skip i l x : l !! i = Some x -> f x = x -> swept (S i) l = swept i l.
Proof. intros Hx E. destruct (swept_step i l x Hx) as [-> Hl]. rewrite E. by apply list_insert_id. Qed.
End swept.

Lemma filter_take_S {X} (p : X -> bool) i l x :
  l !! i = Some x ->
  length (List.filter p (take (S i) l)) = (length (List.filter p (take i l)) + if p x then 1 else 0)%nat.
Proof.
  intros Hx. rewrite (take_S_r _ _ _ Hx), List.filter_app, length_app. cbn. by destruct (p x).
Qed.

Lemma omap_take_S {X Y} (g : X -> option Y) i l x :
  l !! i = Some x -> omap g (take (S i) l) = omap g (take i l) ++ match g x with Some y => [y] | None => [] end.
Proof. intros Hx. rewrite (take_S_r _ _ _ Hx), omap_app. cbn. by destruct (g x). Qed.

(** A plain loop, inside a triple. *)
Lemma tri_for_fold {X Y D} (xs : list X) (body : Y -> X -> prog QueueMem Y) y
    (P : list X -> Y -> QueueMem -> list (list Z) -> list Z -> Prop) (k : Y -> prog QueueMem (option D)) Q c C L :
  P xs y c C L ->
  (forall x xs y c C L (k' : Y -> prog QueueMem (option D)), P (x :: xs) y c C L ->
     (forall y' c' C' L', P xs y' c' C' L' -> tri c' C' L' (k' y') Q) -> tri c C L (pbind (body y x) k') Q) ->
  (forall y c C L, P [] y c C L -> tri c C L (k y) Q) ->
  tri c C L (pbind (for_fold xs body y) k) Q.
Proof.
  intros HP Hb Hn. revert y c C L HP. induction xs as [|x xs IH]; intros y c C L HP; cbn [for_fold].
  - by apply tri_ret, Hn.
  - apply tri_assoc. eapply Hb; [exact HP|]. intros y' c' C' L' HP'. by apply IH.
Qed.

Ltac lease_read := eapply tri_lease_read; [by intros ??|eassumption|reflexivity|].

Section sweeps.
Context (q : TaskQueue) (f0 : nat) (tid : nat) (addr : Z) (work_n done_n : prog QueueMem unit).
Context (Hwork : notifier work_n) (Hdone : notifier done_n).
#[local] Abbreviation fuel := (S f0).
#[local] Abbreviation good := (good q f0).
#[local] Abbreviation refines := (refines q f0 tid addr work_n done_n).
Implicit Types (c : QueueMem) (C : list (list Z)) (L : list Z).

Lemma lease_cases d H c C L i l :
  qinv d H [] c C L -> leases c !! i = Some l ->
  lease_word_state (ls_word l) = LEASE_NONE \/
  ((Z.of_nat i ∉ L) /\ (lease_word_state (ls_word l) = LEASE_ARMED \/ lease_word_state (ls_word l) = LEASE_ACKED)).
Proof.
  intros Hq Hl. rewrite <- (Nat2Z.id i) in Hl. destruct (decide (Z.of_nat i ∈ L)) as [Hin|Hni].
  - left. by eapply (qi_lfree _ _ _ _ _ _ Hq).
  - right. split; [done|]. apply (qi_lheld _ _ _ _ _ _ Hq (Z.of_nat i) l Hl); [lia|done|apply not_elem_of_nil].
Qed.

Definition pin_of (l : LeaseSlot) (acked : bool) : Pin :=
  mkPin (mkBinding (ls_artifact_id l) (ls_incarnation l) (ls_version l)) (ls_slot_idx l) (ls_seq l) (ls_deadline l) acked.

Lemma abs_pin_armed l : lease_word_state (ls_word l) = LEASE_ARMED -> abs_pin l = Some (pin_of l false).
Proof. intros E. unfold abs_pin. by rewrite E. Qed.
Lemma abs_pin_acked l : lease_word_state (ls_word l) = LEASE_ACKED -> abs_pin l = Some (pin_of l true).
Proof. intros E. unfold abs_pin. by rewrite E. Qed.

(** A record in use may be rewritten to another state in use. *)
Lemma qinv_lease_mark c C L i l l' :
  shape c C L -> qinv 0 [] [] c C L -> leases c !! i = Some l -> Z.of_nat i ∉ L ->
  lease_word_state (ls_word l') = LEASE_ARMED \/ lease_word_state (ls_word l') = LEASE_ACKED ->
  qinv 0 [] [] (upd_lease i l' c) C L.
Proof.
  intros Hs Hq Hl Hni Hst. pose proof (lookup_lt_Some _ _ _ Hl) as Hlt.
  eapply (qinv_lease_give (Z.of_nat i) l'); [|rewrite Nat2Z.id; by apply list_lookup_insert_eq|done].
  rewrite <- (Nat2Z.id i) at 2. apply (qinv_lease_upd Hs); [|apply list_elem_of_here|unfold below; lia].
  by apply qinv_lease_take.
Qed.

(** ** Acknowledging *)

Lemma ack_step c C L h i l acc (k : Z -> prog QueueMem (option Resp)) Q :
  qinv 0 [] [] c C L -> leases c !! i = Some l ->
  (forall c', qinv 0 [] [] c' C L -> slots c' = slots c -> max_retries c' = max_retries c ->
     abs_pin <$> leases c' = <[i := ack_pin h (abs_pin l)]> (abs_pin <$> leases c) ->
     tri c' C L (k (acc + if is_tied h (abs_pin l) then 1 else 0)) Q) ->
  tri c C L (pbind (ack_record h acc i) k) Q.
Proof.
  intros Hq Hl Hk. apply nexts_erased. intros _ Hnx. apply tri_shape. intros Hs.
  assert (Hid : ack_pin h (abs_pin l) = abs_pin l -> is_tied h (abs_pin l) = false -> tri c C L (k acc) Q).
  { intros E1 E2. specialize (Hk c). rewrite E1, E2, Z.add_0_r in Hk. apply Hk; try done.
    symmetry. apply list_insert_id. by rewrite list_lookup_fmap, Hl. }
  unfold ack_record. apply tri_assoc. lease_read.
  destruct (lease_cases _ _ _ _ _ _ _ Hq Hl) as [E|[Hni E]].
  { rewrite E. apply tri_ret, Hid; by rewrite (abs_pin_none l E). }
  destruct E as [E|E]; rewrite E.
  2: { rewrite (abs_pin_acked l E) in Hid. by apply tri_ret, Hid. }
  rewrite (abs_pin_armed l E) in Hid, Hk. unfold ack_pin, is_tied, tied in Hid, Hk.
  cbn [pin_of p_acked p_slot p_seq p_deadline p_binding negb andb] in Hid, Hk.
  apply tri_assoc. lease_read. destruct (ls_slot_idx l =? slot_idx h); cbn [negb andb] in *; [|by apply tri_ret, Hid].
  apply tri_assoc. lease_read. destruct (ls_seq l =? h_seq h); cbn [negb] in *; [|by apply tri_ret, Hid].
  apply tri_assoc. eapply tri_lease; [apply ldata_try|exact Hl|by apply run_ltry_hit|exact (Hnx _ _ Hl)|]. cbv iota.
  apply tri_ret. pose proof (lease_state_pack (lease_word_gen (ls_word l)) LEASE_ACKED ltac:(unfold LEASE_ACKED; mach)) as Est.
  apply Hk; [|done|done|].
  - apply (qinv_lease_mark c C L i l); try done. by right.
  - unfold upd_lease. csimpl. rewrite list_fmap_insert. f_equal. by rewrite abs_pin_acked.
Qed.

Lemma ack_sweep c C L h :
  good c C L ->
  tri c C L (pbind (for_fold (seq 0 (lease_table_capacity q)) (ack_record h) 0) (fun n => done (RCount (Ok n))))
    (fun x c' C' L' => x = RCount (Ok (Z.of_nat (length (List.filter (is_tied h) (pins (abs c)))))) /\
       abs c' = put_pins (ack_pin h <$> pins (abs c)) (abs c) /\ good c' C' L').
Proof.
  intros G. set (ps := pins (abs c)). rewrite (gd_lcap _ _ _ _ _ G).
  assert (Hps : length ps = length (leases c)) by apply length_fmap.
  eapply (tri_for_fold _ _ _ (fun xs acc c' C' L' => C' = C /\ L' = L /\ qinv 0 [] [] c' C L /\ slots c' = slots c /\
    max_retries c' = max_retries c /\ exists i, (i <= length (leases c))%nat /\ xs = seq i (length (leases c) - i) /\
      abs_pin <$> leases c' = swept (ack_pin h) i ps /\ acc = Z.of_nat (length (List.filter (is_tied h) (take i ps))))).
  - split_and!; try done; [by apply G|]. exists 0%nat. split_and!; [lia|f_equal; lia|done|done].
  - intros x xs acc c1 C1 L1 k' (-> & -> & Hq & E1 & E2 & i & Hi & Exs & Eps & ->) Hk'.
    destruct (length (leases c) - i)%nat as [|n] eqn:En; [done|]. injection Exs as -> ->.
    destruct (lookup_lt_is_Some_2 ps i) as [p Hp]; [lia|].
    destruct (swept_step (ack_pin h) i ps p Hp) as [Estep Hcur]. rewrite <- Eps in Hcur.
    apply list_lookup_fmap_Some in Hcur as (l & -> & Hl). eapply ack_step; [exact Hq|exact Hl|].
    intros c2 Hq2 F1 F2 F3. apply Hk'. split_and!; try done; [by rewrite F1|by rewrite F2|].
    exists (S i). split_and!; [lia|f_equal; lia|by rewrite F3, Estep, Eps|].
    rewrite (filter_take_S _ _ _ _ Hp). destruct (is_tied h (abs_pin l)); lia.
  - intros acc c1 C1 L1 (-> & -> & Hq & E1 & E2 & i & Hi & Exs & Eps & ->).
    destruct (length (leases c) - i)%nat as [|n] eqn:En; [|done]. assert (i = length ps) as -> by lia.
    rewrite swept_all, take_ge in * by lia. apply tri_done. split_and!; [done|unfold abs at 1; by rewrite E1, E2, Eps|].
    apply (good_upd q f0 c C L _ _ _ G); [by rewrite E1| |done].
    rewrite <- (length_fmap abs_pin (leases c1)), Eps, length_fmap. done.
Qed.

Lemma ack_refines h : 0 <= slot_idx h -> refines (OAck h).
Proof.
  intros Hh c C L G. cbn [exec]. unfold ack.
  pose proof (spec_ack (abs c) h) as Hsp. unfold board_ack in Hsp. cbn [tasks abs] in Hsp.
  rewrite <- (gd_cap _ _ _ _ _ G) in Hsp.
  destruct (find_cases q f0 c C L (slot_idx h) (h_seq h) G Hh) as [[Hcap E]|(t & Hcap & Ht & E)];
    replace (mkHandle (slot_idx h) (h_seq h)) with h in E by (by destruct h); rewrite E in Hsp.
  { rewrite (proj2 (Z.leb_le _ _) Hcap) in *. by apply tri_ret, tri_done. }
  rewrite (proj2 (Z.leb_gt _ _) Hcap) in *. apply tri_assoc. slot_read. apply tri_assoc.
  destruct (ts_seq t =? h_seq h) eqn:Es.
  - apply tri_assoc. slot_read. apply tri_ret. unfold terminal in Hsp.
    destruct ((ts_state t =? DONE) || (ts_state t =? FAILED) || (ts_state t =? CANCELLED)); cbn [negb] in *.
    + apply tri_assoc. eapply tri_mono; [|by apply ack_sweep]. intros x c' C' L' (-> & -> & G'). done.
    + by apply tri_ret, tri_done.
  - apply tri_ret. cbv iota. apply tri_assoc. eapply tri_mono; [|by apply ack_sweep]. intros x c' C' L' (-> & -> & G'). done.
Qed.

(** ** Releasing *)

Lemma tri_release c C L i l :
  qinv 0 [] [] c C L -> leases c !! i = Some l -> Z.of_nat i ∉ L ->
  tri c C L (release_lease_record fuel i (ls_word l)) (fun r c' C' L' =>
    r = Some (mkBinding (ls_artifact_id l) (ls_incarnation l) (ls_version l)) /\ qinv 0 [] [] c' C' L' /\
    slots c' = slots c /\ max_retries c' = max_retries c /\
    abs_pin <$> leases c' = <[i := None]> (abs_pin <$> leases c)).
Proof.
  intros Hq Hl Hni. apply nexts_erased. intros _ Hnx. apply tri_shape. intros Hs. pose proof (lookup_lt_Some _ _ _ Hl) as Hlt.
  pose proof (sh_lsmall _ _ _ Hs) as Hsm. pose proof (Hnx _ _ Hl) as Hn.
  set (l1 := set_word (pack_lease_word (lease_word_gen (ls_word l)) LEASE_RELEASED) l).
  set (l2 := set_word (pack_lease_word (lease_word_gen (ls_word l1)) LEASE_NONE) l1).
  assert (Est : lease_word_state (ls_word l2) = LEASE_NONE) by (apply lease_state_pack; unfold LEASE_NONE; mach).
  unfold release_lease_record. eapply tri_lease; [apply ldata_try|exact Hl|by apply run_ltry_hit|done|]. cbv iota.
  assert (Hl1 : leases (upd_lease i l1 c) !! i = Some l1) by (by apply list_lookup_insert_eq).
  lease_read. lease_read. lease_read. eapply tri_lease; [by intros ??|exact Hl1|reflexivity|done|].
  replace (upd_lease i _ (upd_lease i l1 c)) with (upd_lease i l2 c)
    by (unfold upd_lease; csimpl; by rewrite list_insert_insert_eq).
  rewrite wrap32_id by mach. eapply tri_fbind.
  { eapply (tri_put_lease _ _ _ _ [] (Z.of_nat i) l2); [|lia|rewrite Nat2Z.id; by apply list_lookup_insert_eq|done].
    rewrite <- (Nat2Z.id i) at 2. apply (qinv_lease_upd Hs); [|apply list_elem_of_here|unfold below; lia].
    by apply qinv_lease_take. }
  intros _ c2 C2 L2 (-> & -> & Hq2). apply tri_done. split_and!; try done.
  unfold upd_lease. csimpl. by rewrite list_fmap_insert, (abs_pin_none l2 Est).
Qed.

(** One record of the sweep. *)
Lemma reap_binding_step c C L now grace i l :
  0 < capacity q -> capacity q = Z.of_nat (length (slots c)) -> qinv 0 [] [] c C L -> leases c !! i = Some l ->
  tri c C L (reap_binding q fuel now grace i) (fun r c' C' L' =>
    r = swept_out (slots c) now grace (abs_pin l) /\ qinv 0 [] [] c' C' L' /\
    slots c' = slots c /\ max_retries c' = max_retries c /\
    abs_pin <$> leases c' = <[i := sweep_pin (slots c) now grace (abs_pin l)]> (abs_pin <$> leases c)).
Proof.
  intros Hpos Hcap Hq Hl. set (Q := fun r c' C' L' => _).
  assert (Hkeep : swept_out (slots c) now grace (abs_pin l) = None -> sweep_pin (slots c) now grace (abs_pin l) = abs_pin l ->
    tri c C L (done None) Q).
  { intros E1 E2. apply tri_done. unfold Q. rewrite E1, E2. split_and!; try done.
    symmetry. apply list_insert_id. by rewrite list_lookup_fmap, Hl. }
  assert (Hrel : forall b, (Z.of_nat i ∉ L) -> abs_pin l = Some (pin_of l b) -> releasable (slots c) now grace (pin_of l b) = true ->
    tri c C L (release_lease_record fuel i (ls_word l)) Q).
  { intros b Hni E1 E2. eapply tri_mono; [|by apply tri_release]. unfold Q, swept_out, sweep_pin. rewrite E1, E2. naive_solver. }
  unfold reap_binding. lease_read. destruct (lease_cases _ _ _ _ _ _ _ Hq Hl) as [E|[Hni [E|E]]]; rewrite E.
  { apply Hkeep; by rewrite (abs_pin_none l E). }
  2: { by apply (Hrel true Hni (abs_pin_acked l E)). }
  pose proof (abs_pin_armed l E) as Ep. specialize (Hrel false Hni Ep). rewrite Ep in Hkeep.
  unfold swept_out, sweep_pin in Hkeep. unfold releasable in Hrel, Hkeep.
  cbn [pin_of p_acked p_deadline orb] in Hrel, Hkeep. cbn [Z.eqb LEASE_ARMED LEASE_ACKED Pos.eqb negb].
  lease_read. destruct (Z.leb_spec now (Z.min (ls_deadline l + grace) U64_MAX)) as [Hw|Hw].
  { rewrite (proj2 (Z.ltb_ge _ _) Hw) in Hkeep. by apply Hkeep. }
  rewrite (proj2 (Z.ltb_lt _ _) Hw) in Hrel, Hkeep. cbn [andb] in Hrel, Hkeep.
  assert (Hend : forall b : bool, b = task_runs (slots c) (pin_of l false) ->
    tri c C L (if b then done None else release_lease_record fuel i (ls_word l)) Q).
  { intros b ->. destruct (task_runs (slots c) (pin_of l false)); [by apply Hkeep|by apply Hrel]. }
  lease_read. unfold task_runs in Hend. cbn [pin_of p_slot p_seq] in Hend.
  destruct (slots c !! Z.to_nat (ls_slot_idx l)) as [t|] eqn:Et.
  - pose proof (lookup_lt_Some _ _ _ Et). rewrite (proj2 (Z.ltb_lt (ls_slot_idx l) (capacity q))) by lia.
    apply tri_assoc. slot_read. apply tri_assoc. lease_read. destruct (ts_seq t =? ls_seq l); [|by apply tri_ret, (Hend false)].
    apply tri_assoc. slot_read. apply tri_ret, (Hend ((ts_state t =? QUEUED) || (ts_state t =? CLAIMED) || (ts_state t =? COMPLETING))). unfold live.
    destruct (state_cases _ _ _ _ _ _ _ Hq Et) as [[F|[F|[F|F]]]|[F|F]]; by rewrite F.
  - apply lookup_ge_None in Et. rewrite (proj2 (Z.ltb_ge (ls_slot_idx l) (capacity q))) by lia. by apply tri_ret, (Hend false).
Qed.

Lemma reap_bindings_refines now grace : refines (OReapBindings now grace).
Proof.
  intros c C L G. cbn [exec]. eapply tri_fbind; [|intros x c' C' L' HR; apply tri_done, HR].
  unfold reap_bindings. set (ps := pins (abs c)). rewrite (gd_lcap _ _ _ _ _ G).
  assert (Hps : length ps = length (leases c)) by apply length_fmap.
  eapply (tri_fold _ _ _ (fun xs out c' C' L' => qinv 0 [] [] c' C' L' /\ slots c' = slots c /\
    max_retries c' = max_retries c /\ exists i, (i <= length (leases c))%nat /\ xs = seq i (length (leases c) - i) /\
      abs_pin <$> leases c' = swept (sweep_pin (slots c) now grace) i ps /\
      out = omap (swept_out (slots c) now grace) (take i ps))).
  - split_and!; try done; [by apply G|]. exists 0%nat. split_and!; [lia|f_equal; lia|done|done].
  - intros x xs out c1 C1 L1 (Hq & E1 & E2 & i & Hi & Exs & Eps & ->).
    destruct (length (leases c) - i)%nat as [|n] eqn:En; [done|]. injection Exs as -> ->.
    destruct (lookup_lt_is_Some_2 ps i) as [p Hp]; [lia|].
    destruct (swept_step (sweep_pin (slots c) now grace) i ps p Hp) as [Estep Hcur]. rewrite <- Eps in Hcur.
    apply list_lookup_fmap_Some in Hcur as (l & -> & Hl).
    eapply tri_fbind; [apply reap_binding_step; [apply G|rewrite E1; apply G|exact Hq|exact Hl]|].
    intros r c2 C2 L2 (-> & Hq2 & F1 & F2 & F3). apply tri_done. rewrite E1 in *.
    split_and!; [done|by rewrite F1|by rewrite F2|]. exists (S i).
    split_and!; [lia|f_equal; lia|by rewrite F3, Estep, Eps|]. rewrite (omap_take_S _ _ _ _ Hp).
    case_match; [done|]. by rewrite app_nil_r.
  - intros out c1 C1 L1 (Hq & E1 & E2 & i & Hi & Exs & Eps & ->).
    destruct (length (leases c) - i)%nat as [|n] eqn:En; [|done]. assert (i = length ps) as -> by lia.
    rewrite swept_all, take_ge in * by lia. split.
    + pose proof (spec_reap_bindings (abs c) now grace) as Hsp. unfold board_reap_bindings in Hsp.
      unfold abs at 2. rewrite E1, E2, Eps. exact Hsp.
    + apply (good_upd q f0 c C L _ _ _ G); [by rewrite E1| |done].
      rewrite <- (length_fmap abs_pin (leases c1)), Eps, length_fmap. done.
Qed.

(** ** Reaping *)

Lemma reap_slot_step c C L now lim rep i t :
  qinv 0 [] [] c C L -> slots c !! i = Some t ->
  tri c C L (reap_slot fuel tid addr now lim rep i) (fun rep' c' C' L' =>
    rep' = mkReport (requeued rep + if requeues now lim t then 1 else 0) (failed rep + if fails now lim t then 1 else 0) /\
    L' = L /\ qinv 0 [] [] c' C' L' /\ leases c' = leases c /\ max_retries c' = max_retries c /\
    slots c' = <[i := reap_task now lim t]> (slots c)).
Proof.
  intros Hq Ht. apply nexts_erased. intros Hnx _. pose proof (Hnx _ _ Ht) as Hn. rewrite <- (Nat2Z.id i) in Ht.
  apply tri_shape. intros Hs. unfold reap_slot. cbv zeta. unfold requeues, fails, reap_task.
  assert (Hkeep : lapsed now t = false -> tri c C L (done rep) (fun rep' c' C' L' =>
    rep' = mkReport (requeued rep + if lapsed now t && negb (lim <=? ts_retry t) then 1 else 0)
                    (failed rep + if lapsed now t && (lim <=? ts_retry t) then 1 else 0) /\
    L' = L /\ qinv 0 [] [] c' C' L' /\ leases c' = leases c /\ max_retries c' = max_retries c /\
    slots c' = <[i := if lapsed now t then if lim <=? ts_retry t then set_state FAILED t
      else set_state QUEUED (set_owner OWNER_NONE (set_retry (ts_retry t + 1) t)) else t]> (slots c))).
  { intros E. apply tri_done. rewrite E. cbn [andb]. rewrite !Z.add_0_r. rewrite Nat2Z.id in Ht.
    split_and!; try done; [by destruct rep|by rewrite list_insert_id]. }
  slot_read. destruct (ts_state t =? CLAIMED) eqn:Eb; cbn [negb]; [|apply Hkeep; unfold lapsed; by rewrite Eb].
  slot_read. destruct (Z.leb_spec now (ts_deadline t)) as [Hd|Hd].
  { apply Hkeep. unfold lapsed. rewrite Eb. by apply Z.ltb_ge. }
  assert (lapsed now t = true) as -> by (unfold lapsed; rewrite Eb; by apply Z.ltb_lt). clear Hkeep.
  apply Z.eqb_eq in Eb as Est. slot_read. destruct (lim <=? ts_retry t); cbn [negb andb].
  - eapply tri_slot; [apply data_try|exact Ht|by apply run_try_hit|done|]. cbv iota.
    eapply tri_fbind; [eapply (tri_finish _ _ _ _ _ _ []); [done|done|lia|exact Ht|done|unfold reusable; tauto]|].
    intros _ c1 C1 L1 (-> & -> & Hq1). apply tri_done. split_and!; try done; [by rewrite Z.add_0_r|].
    unfold upd_slot. csimpl. by rewrite Nat2Z.id.
  - eapply tri_slot; [apply data_try|exact Ht|by apply run_try_hit|done|]. cbv iota.
    do 2 (eapply tri_slot_again; [exact Ht|by intros ??|reflexivity|done|]).
    set (t1 := set_owner _ _). eapply tri_fbind.
    { apply (tri_publish_queued _ _ _ _ [] [] (i mod SHARDS) (Z.of_nat i) t1); [by apply Nat.mod_upper_bound| |apply not_elem_of_nil|lia|by eapply upd_slot_lookup|done].
      apply (qinv_upd Hs); [|apply list_elem_of_here|eapply lookup_below; [exact Ht|lia]].
      apply qinv_take; [done|]. by eapply claimed_off. }
    intros _ c1 C1 L1 (-> & -> & Hq1). apply tri_done. split_and!; try done; [by rewrite Z.add_0_r|].
    rewrite upd_slot_twice. unfold upd_slot. csimpl. by rewrite Nat2Z.id.
Qed.

Lemma reap_refines now : refines (OReap now).
Proof.
  intros c C L G. cbn [exec]. eapply tri_fbind; [|intros x c' C' L' HR; apply tri_done, HR].
  unfold reap. apply tri_load; [done|]. set (lim := max_retries c). rewrite (gd_cap _ _ _ _ _ G), Nat2Z.id.
  eapply tri_fbind.
  { eapply (tri_fold _ _ _ (fun xs rep c' C' L' => L' = L /\ qinv 0 [] [] c' C' L' /\ leases c' = leases c /\
      max_retries c' = max_retries c /\ exists i, (i <= length (slots c))%nat /\ xs = seq i (length (slots c) - i) /\
        slots c' = swept (reap_task now lim) i (slots c) /\
        rep = mkReport (Z.of_nat (length (List.filter (requeues now lim) (take i (slots c)))))
                       (Z.of_nat (length (List.filter (fails now lim) (take i (slots c))))))
      (fun rep c' C' L' => spec (abs c) (OReap now) (RReport rep) (abs c') /\ good c' C' L')).
    - split_and!; try done; [by apply G|]. exists 0%nat. split_and!; [lia|f_equal; lia|done|done].
    - intros x xs rep c1 C1 L1 (-> & Hq & E1 & E2 & i & Hi & Exs & Ets & ->).
      destruct (length (slots c) - i)%nat as [|n] eqn:En; [done|]. injection Exs as -> ->.
      destruct (lookup_lt_is_Some_2 (slots c) i) as [t Ht]; [lia|].
      destruct (swept_step (reap_task now lim) i (slots c) t Ht) as [Estep Hcur]. rewrite <- Ets in Hcur.
      eapply tri_mono; [|apply (reap_slot_step _ _ _ _ _ _ _ t); [exact Hq|exact Hcur]].
      intros rep' c2 C2 L2 (-> & -> & Hq2 & F1 & F2 & F3). cbn [requeued failed].
      split_and!; [done|done|by rewrite F1|by rewrite F2|]. exists (S i).
      split_and!; [lia|f_equal; lia|by rewrite F3, Estep, Ets|].
      rewrite !(filter_take_S _ _ _ _ Ht), !Nat2Z.inj_add. by destruct (requeues now lim t), (fails now lim t).
    - intros rep c1 C1 L1 (-> & Hq & E1 & E2 & i & Hi & Exs & Ets & ->).
      destruct (length (slots c) - i)%nat as [|n] eqn:En; [|done]. assert (i = length (slots c)) as -> by lia.
      rewrite swept_all, take_ge in * by lia. split.
      + pose proof (spec_reap (abs c) now) as Hsp. unfold board_reap in Hsp.
        unfold abs at 2. rewrite Ets, E1, E2. exact Hsp.
      + apply (good_upd q f0 c C L _ _ _ G); [by rewrite Ets, length_fmap|by rewrite E1|done]. }
  intros rep c1 C1 L1 HR.
  destruct (0 <? requeued rep), (0 <? failed rep); repeat first [apply tri_notify_if; [done|]|apply tri_ret]; by apply tri_done.
Qed.
End sweeps.

(** ** Creation *)

Definition fresh_board (cap limit : Z) : Board :=
  mkBoard (replicate (Z.to_nat cap) (mkTaskSlot EMPTY OWNER_NONE 0 0 0 0 0 ChunkDesc.ZERO ChunkDesc.ZERO))
    (replicate (Z.to_nat (lease_capacity cap)) None) limit.

(** All slots on FREE stack 0, all records on the lease free list. *)
Definition fresh_stacks (cap : Z) : list (list Z) := seqZ 0 cap :: replicate 15 [].

Lemma fmap_seq_const {A} (f : nat -> A) (x : A) k n : (forall i, f i = x) -> f <$> seq k n = replicate n x.
Proof. intros Hf. revert k. induction n as [|n IH]; intros k; [done|]. cbn. by rewrite Hf, IH. Qed.

Lemma at_index_seq {A} (f : nat -> A) n i : 0 <= i < n -> at_index (f <$> seq 0 (Z.to_nat n)) i = Some (f (Z.to_nat i)).
Proof.
  intros Hi. unfold at_index. rewrite (proj2 (Z.leb_le 0 i)) by lia.
  rewrite list_lookup_fmap, lookup_seq_lt by lia. done.
Qed.

Lemma seqZ_below n : Forall (below (Z.to_nat n)) (seqZ 0 n).
Proof. apply list.Forall_forall. intros i Hi%elem_of_seqZ. unfold below. lia. Qed.

Lemma holds_nil (st : stack_ops QueueMem) m : s_head st m = pack_stack_head STACK_NIL 0 -> holds st m [].
Proof.
  intros E. split; [constructor|]. exists 0, STACK_NIL. unfold STACK_NIL in *. split_and!; try done; mach.
Qed.

Lemma holds_counting (st : stack_ops QueueMem) m n :
  0 < n <= U32_MAX -> s_head st m = pack_stack_head 0 0 ->
  (forall i, 0 <= i < n -> s_next st i m = Some (if i + 1 <? n then i + 1 else STACK_NIL)) -> holds st m (seqZ 0 n).
Proof.
  intros Hn E Hnx. split; [apply NoDup_seqZ|]. exists 0, 0. split_and!; [mach|mach|done|].
  pose proof (chain_counting (st := st) m n (Z.to_nat n) 0 ltac:(lia) ltac:(lia) ltac:(lia) Hnx) as Hc.
  rewrite (proj2 (Z.ltb_lt 0 n)), Z2Nat.id in Hc by lia. done.
Qed.

Section creation.
Context (base region_len cap limit : Z) (Hcap : 0 < cap < U32_MOD) (Hpow : is_power_of_two cap = true).
Context (Hbase : base mod 8 = 0) (Hreg : required_bytes cap <= region_len).

Lemma capacity_small : cap < U32_MAX.
Proof.
  destruct (power_of_two_pow cap ltac:(mach) Hpow) as (k & Hk & E).
  assert (k < 32). { apply (Z.pow_lt_mono_r_iff 2); [lia|lia|]. rewrite <- E. apply Hcap. }
  pose proof (Z.pow_le_mono_r 2 k 31 ltac:(lia) ltac:(lia)). rewrite E. unfold U32_MAX. lia.
Qed.

Lemma init_ok : exists m, init_with_max_retries base region_len cap limit = Ok (mkTaskQueue cap, m) /\
  attach base region_len m = Ok (mkTaskQueue cap) /\
  structured m (fresh_stacks cap) (seqZ 0 (lease_capacity cap)) /\ board m = fresh_board cap limit /\ cancelled m = 0.
Proof.
  pose proof capacity_small as Hsm. assert (Hlc : 0 < lease_capacity cap <= U32_MAX) by (unfold lease_capacity; mach).
  unfold init_with_max_retries. rewrite (proj2 (Z.eqb_neq cap 0)), Hpow by lia. cbn [negb orb].
  rewrite (proj2 (Z.eqb_eq _ _) Hbase). cbn [negb]. rewrite (proj2 (Z.ltb_ge _ _) Hreg).
  eexists. split; [reflexivity|]. split_and!; [| | |done].
  - unfold attach. cbn [magic q_capacity]. rewrite (proj2 (Z.eqb_eq _ _) Hbase), Z.eqb_refl, (proj2 (Z.ltb_ge _ _) Hreg).
    rewrite (proj2 (Z.ltb_ge _ _)); [done|].
    assert (SIZEOF_TaskQueueHeader <= required_bytes cap); [|lia]. unfold required_bytes, lease_table_offset.
    pose proof (proj1 (align_up_spec (slots_offset + cap * SIZEOF_TaskSlot) 6 ltac:(lia))) as Ha. change (2 ^ 6) with 64 in Ha.
    change slots_offset with 1088 in *. unfold SIZEOF_TaskQueueHeader, SIZEOF_TaskSlot, SIZEOF_LeaseSlot in *. lia.
  - split; csimpl; rewrite ?length_fmap, ?length_seq, ?length_replicate; try done.
    + split; mach.
    + intros [|k] l Hk; cbn in Hk.
      * injection Hk as <-. split; [|apply seqZ_below]. apply holds_counting; [lia|done|].
        intros i Hi. rewrite stack_next. unfold slot_next. csimpl. rewrite at_index_seq by lia. cbn.
        by rewrite Z2Nat.id by lia.
      * apply (lookup_replicate_1 15) in Hk as [-> Hk]. split; [|constructor]. apply holds_nil.
        do 15 (destruct k as [|k]; [done|]). lia.
    + intros [|k] [|k'] l l' i Hk Hk' Hi Hi'; try done; cbn in Hk, Hk'.
      * apply (lookup_replicate_1 15) in Hk' as [-> _]. by apply not_elem_of_nil in Hi'.
      * apply (lookup_replicate_1 15) in Hk as [-> _]. by apply not_elem_of_nil in Hi.
      * apply (lookup_replicate_1 15) in Hk as [-> _]. by apply not_elem_of_nil in Hi.
    + split; [|apply seqZ_below]. apply holds_counting; [lia|done|].
      intros i Hi. csimpl. rewrite at_index_seq by lia. cbn. by rewrite Z2Nat.id by lia.
  - unfold board, abs, core, fresh_board. csimpl. rewrite <- !list_fmap_compose. f_equal; by apply fmap_seq_const.
Qed.

Lemma fresh_good f0 m :
  structured m (fresh_stacks cap) (seqZ 0 (lease_capacity cap)) -> board m = fresh_board cap limit -> cancelled m = 0 ->
  (Z.to_nat cap < S f0)%nat -> good (mkTaskQueue cap) f0 (core m) (fresh_stacks cap) (seqZ 0 (lease_capacity cap)).
Proof.
  intros HS EB Ec Hf. unfold board, abs, fresh_board in EB. injection EB as Es Ep Er.
  change (erase <$> slots m) with (slots (core m)) in Es. change (lerase <$> leases m) with (leases (core m)) in Ep.
  assert (Els : length (leases (core m)) = Z.to_nat (lease_capacity cap)).
  { rewrite <- (length_fmap abs_pin), Ep. apply length_replicate. }
  assert (Hempty : forall k l i, (0 < k)%nat -> fresh_stacks cap !! k = Some l -> i ∉ l).
  { intros [|k] l i Hk Hl; [lia|]. apply (lookup_replicate_1 15) in Hl as [-> _]. apply not_elem_of_nil. }
  split; cbn [capacity]; rewrite ?Es, ?length_replicate; [|lia| |done|pose proof capacity_small; lia].
  2: { unfold lease_table_capacity. cbn [capacity]. by rewrite wrap32_id, Els by mach. }
  split; rewrite ?Es.
  - intros k l i t Hk Hl Hi Ht. apply lookup_replicate in Ht as [-> _]. by left.
  - intros k l i t Hk Hl Hi _. by destruct (Hempty k l i ltac:(lia) Hl).
  - intros i t Ht Hi Hoff _. apply lookup_replicate in Ht as [_ Ht]. destruct (Hoff 0%nat _ eq_refl).
    apply elem_of_seqZ. lia.
  - intros i Hi. by apply not_elem_of_nil in Hi.
  - unfold count. cbn [core cancelled]. by rewrite Ec.
  - intros i l _ Hl. destruct (abs_pin l) as [p|] eqn:E.
    + assert (Hp : (abs_pin <$> leases (core m)) !! Z.to_nat i = Some (Some p)) by (by rewrite list_lookup_fmap, Hl, <- E).
      rewrite Ep in Hp. by apply lookup_replicate in Hp as [? _].
    + unfold abs_pin in E. destruct (Z.eqb_spec (lease_word_state (ls_word l)) LEASE_NONE); [done|discriminate].
  - intros i l Hl Hi Hni _. apply lookup_lt_Some in Hl. rewrite Els in Hl. destruct Hni. apply elem_of_seqZ. lia.
  - intros i Hi. by apply not_elem_of_nil in Hi.
Qed.
End creation.

(** ** All operations *)

Lemma exec_refines_board q f0 tid addr work_n done_n op :
  notifier work_n -> notifier done_n -> op_wf (capacity q) op -> refines q f0 tid addr work_n done_n op.
Proof.
  intros Hw Hd Hop. destruct op; cbn in Hop.
  - by apply submit_refines.
  - by apply claim_refines.
  - by apply poll_refines.
  - by apply cancel_refines.
  - by apply ack_refines.
  - by apply reap_bindings_refines.
  - by apply reap_refines.
  - by apply bind_refines.
  - by apply complete_refines.
  - by apply fail_refines.
  - by apply attempt_refines.
  - by apply is_cancelled_refines.
Qed.

Lemma exec_all_refines q f0 addr work_n done_n ops c C L :
  notifier work_n -> notifier done_n -> Forall (fun x => op_wf (capacity q) x.2) ops -> good q f0 c C L ->
  tri c C L (exec_all q (S f0) addr work_n done_n ops)
    (fun xs c' C' L' => spec_all (abs c) (snd <$> ops) xs (abs c') /\ good q f0 c' C' L').
Proof.
  intros Hw Hd Hops. revert c C L. induction Hops as [|[tid op] ops Hop _ IH]; intros c C L G; cbn [exec_all].
  - apply tri_done. split; [constructor|done].
  - eapply tri_fbind; [by apply exec_refines_board|]. intros x c1 C1 L1 [Hx G1].
    eapply tri_fbind; [by apply IH|]. intros xs c2 C2 L2 [Hxs G2]. apply tri_done. split; [by econstructor|done].
Qed.
