(* ===== verification/TaskQueueClaims.v ===== *)
(** * What the task queue guarantees

    The refinement theorem, and the properties of the board that the queue inherits
    from it: how often a task can be handed out, and that outcomes are final. *)

From S2P Require Import Prelude Atomic Pod ChunkDesc Treiber TaskQueue TaskQueueInv TaskQueueSpec TaskQueueProof TaskQueueRefines TaskQueueSweeps.

(** ** Properties of boards *)

Definition is_submit (op : Op) : bool := match op with OSubmit _ _ _ => true | _ => false end.
Definition submits (ops : list Op) : nat := length (List.filter is_submit ops).

(** Task [i] of [B] and [B'] are related by [R]. *)
Definition each_task (R : TaskSlot -> TaskSlot -> Prop) (B B' : Board) : Prop :=
  forall i t, tasks B !! i = Some t -> exists t', tasks B' !! i = Some t' /\ R t t'.

Lemma each_put R B i t t1 :
  (forall t, R t t) -> tasks B !! Z.to_nat i = Some t -> R t t1 -> each_task R B (put_task i t1 B).
Proof.
  intros Hrefl Ht HR j tj Hj. cbn. destruct (decide (Z.to_nat i = j)) as [<-|Hne].
  - exists t1. simplify_eq. split; [apply list_lookup_insert_eq; by eapply lookup_lt_Some|done].
  - exists tj. by rewrite list_lookup_insert_ne.
Qed.

Lemma each_same (R : TaskSlot -> TaskSlot -> Prop) B B' : (forall t, R t t) -> tasks B' = tasks B -> each_task R B B'.
Proof. intros Hrefl E i t Ht. exists t. by rewrite E. Qed.

(** ** Steps and the documentation *)

Lemma none_tied h ps : length (List.filter (is_tied h) ps) = 0%nat -> ack_pin h <$> ps = release_pin h <$> ps.
Proof.
  induction ps as [|[p|] ps IH]; [done| |]; cbn [List.filter is_tied]; rewrite !fmap_cons; cbn [ack_pin release_pin]; [|intros E; by rewrite IH].
  destruct (tied h p); [done|]. intros E. by rewrite IH.
Qed.

Lemma pins_taken B : no_free_pin B -> all_armed B \/ exists j p, pins B !! j = Some (Some p) /\ p_acked p = true.
Proof.
  intros Hn. destruct (decide (Exists (fun o => match o with Some p => p_acked p | None => false end = true) (pins B))) as [Hx|Hx].
  - right. apply list.Exists_exists in Hx as ([p|] & [j Hj]%list_elem_of_lookup & Hp); [by exists j, p|done].
  - left. intros j [p|] Hj; [|by destruct (Hn j)]. exists p. split; [done|]. destruct (p_acked p) eqn:E; [|done].
    destruct Hx. apply list.Exists_exists. exists (Some p). split; [by eapply list_elem_of_lookup_2|done].
Qed.

Lemma finish_cases B ct t fin : find_task B (mkHandle (ct_idx ct) (ct_seq ct)) = Some t ->
  (if ts_state t =? CLAIMED then (Ok tt, put_task (ct_idx ct) (fin t) B) else (Err Lost, B)) = doc_finish B ct fin \/
  (ts_state t = CLAIMED /\ ts_owner t <> ct_worker ct).
Proof.
  intros Ef. unfold doc_finish, holds_claim. rewrite Ef. destruct (Z.eqb_spec (ts_state t) CLAIMED) as [Ec|]; [|by left].
  destruct (Z.eqb_spec (ts_owner t) (ct_worker ct)); [by left|by right].
Qed.

Lemma spec_documented B op x B' : spec B op x B' -> documented B op x B' \/ departs B op x.
Proof.
  intros Hs. destruct (undisputed op x) eqn:Hu; [left; by constructor|]. destruct Hs; try done.
  - destruct (decide (Exists (fun t => ts_state t = CANCELLED) (tasks B))) as [Hx|Hx].
    + right. apply list.Exists_exists in Hx as (t & [i Hi]%list_elem_of_lookup & Ht). by exists i, t.
    + left. apply doc_full. intros i t Hi. destruct (H i t Hi) as [|Hc]; [done|]. destruct Hx. apply list.Exists_exists.
      exists t. split; [by eapply list_elem_of_lookup_2|done].
  - destruct (pins_taken B H) as [Ha|Hx]; [left; by apply doc_no_pin|by right].
  - destruct (board_ack B h) as [[n|e] B1] eqn:Ea; unfold board_ack in Ea.
    + destruct (_ <=? _) eqn:E1; [done|]. destruct (match find_task B h with Some _ => _ | None => _ end) eqn:E2; [done|].
      injection Ea as <- <-. cbn [fst snd]. set (n := length _). destruct (Nat.eq_dec n 0%nat) as [E0|]; [|right; cbn; lia].
      left. pose proof (doc_acked B h) as Hd. unfold doc_ack in Hd. rewrite E1, E2 in Hd. cbn [fst snd] in Hd.
      rewrite <- (none_tied h _ E0) in Hd. exact Hd.
    + left. pose proof (doc_acked B h) as Hd. unfold doc_ack in Hd. cbn [fst snd].
      destruct (_ <=? _); [injection Ea as <- <-; exact Hd|].
      destruct (match find_task B h with Some _ => _ | None => _ end); [injection Ea as <- <-; exact Hd|done].
  - destruct (pins_taken B H) as [Ha|Hx]; [left; by apply doc_bind_full|by right].
  - unfold board_complete. pose proof (doc_complete B ct r) as Hd. destruct (find_task B _) as [t|] eqn:Ef.
    + destruct (finish_cases B ct t (fun t => set_state DONE (set_result r t)) Ef) as [->|[Hc Ho]]; [by left|].
      right. rewrite Hc, Z.eqb_refl. cbn. by exists t.
    + left. unfold doc_finish in Hd. by rewrite Ef in Hd.
  - unfold board_fail. pose proof (doc_fail B ct) as Hd. destruct (find_task B _) as [t|] eqn:Ef.
    + destruct (finish_cases B ct t (set_state FAILED) Ef) as [->|[Hc Ho]]; [by left|].
      right. rewrite Hc, Z.eqb_refl. cbn. by exists t.
    + left. unfold doc_finish in Hd. by rewrite Ef in Hd.
Qed.

Lemma spec_conforms B ops xs B' : spec_all B ops xs B' -> conforms B ops xs B'.
Proof. induction 1; econstructor; eauto using spec_documented. Qed.

(** What one operation can do to one task. *)
Inductive moves (sub : bool) (limit : Z) : TaskSlot -> TaskSlot -> Prop :=
| mv_refl t : moves sub limit t t
| mv_submit request dl t : sub = true -> live t = false -> moves sub limit t (fresh_task request dl t)
| mv_claim w dl t : ts_state t = QUEUED -> moves sub limit t (claimed_task w dl t)
| mv_cancel t : ts_state t = QUEUED -> moves sub limit t (set_state CANCELLED t)
| mv_flag t : ts_state t = CLAIMED -> moves sub limit t (set_cancel 1 t)
| mv_complete r t : ts_state t = CLAIMED -> moves sub limit t (set_state DONE (set_result r t))
| mv_fail t : ts_state t = CLAIMED -> moves sub limit t (set_state FAILED t)
| mv_requeue t : ts_state t = CLAIMED -> ts_retry t < limit ->
    moves sub limit t (set_state QUEUED (set_owner OWNER_NONE (set_retry (ts_retry t + 1) t))).

Lemma find_task_Some B h t : find_task B h = Some t -> tasks B !! Z.to_nat (slot_idx h) = Some t /\ ts_seq t = h_seq h.
Proof.
  unfold find_task. destruct (tasks B !! Z.to_nat (slot_idx h)) as [t'|]; [|done].
  destruct (Z.eqb_spec (ts_seq t') (h_seq h)); [|done]. by intros [= <-].
Qed.

Lemma spec_moves B op x B' : spec B op x B' -> retry_limit B' = retry_limit B /\ each_task (moves (is_submit op) (retry_limit B)) B B'.
Proof.
  pose proof (fun b => mv_refl b (retry_limit B)) as Hr. intros Hs. destruct Hs; try (split; [done|by apply each_same]).
  - split; [done|]. intros j tj Hj. cbn.
    apply (each_put (moves true (retry_limit B)) B (Z.of_nat i) t (fresh_task request deadline t) (Hr true)); [by rewrite Nat2Z.id|by constructor|done].
  - split; [done|]. apply (each_put _ _ _ t); [done|by rewrite Nat2Z.id|by constructor].
  - unfold board_cancel. destruct (find_task B h) as [t|] eqn:E; [|split; [done|by apply each_same]].
    apply find_task_Some in E as [Ht _]. cbn [snd].
    destruct (Z.eqb_spec (ts_state t) QUEUED); [split; [done|apply (each_put _ _ _ t); [done..|by constructor]]|].
    destruct (Z.eqb_spec (ts_state t) CLAIMED); [split; [done|apply (each_put _ _ _ t); [done..|by constructor]]|].
    split; [done|by apply each_same].
  - unfold board_ack. repeat case_match; (split; [done|by apply each_same]).
  - split; [done|]. intros i t Ht. cbn. exists (reap_task now (retry_limit B) t). split; [by rewrite list_lookup_fmap, Ht|].
    unfold reap_task, lapsed. destruct (Z.eqb_spec (ts_state t) CLAIMED); cbn; [|done].
    destruct (ts_deadline t <? now); [|done]. destruct (Z.leb_spec (retry_limit B) (ts_retry t)); by constructor.
  - unfold board_complete. destruct (find_task B _) as [t|] eqn:E; [|split; [done|by apply each_same]].
    apply find_task_Some in E as [Ht _]. destruct (Z.eqb_spec (ts_state t) CLAIMED); [|split; [done|by apply each_same]].
    split; [done|]. apply (each_put _ _ _ t); [done|done|by constructor].
  - unfold board_fail. destruct (find_task B _) as [t|] eqn:E; [|split; [done|by apply each_same]].
    apply find_task_Some in E as [Ht _]. destruct (Z.eqb_spec (ts_state t) CLAIMED); [|split; [done|by apply each_same]].
    split; [done|]. apply (each_put _ _ _ t); [done|done|by constructor].
Qed.

Lemma length_tasks B op x B' : spec B op x B' -> length (tasks B') = length (tasks B).
Proof.
  intros Hs. destruct Hs; cbn; rewrite ?length_insert; try done.
  - unfold board_cancel. repeat case_match; cbn; by rewrite ?length_insert.
  - unfold board_ack. by repeat case_match.
  - by rewrite length_fmap.
  - unfold board_complete. repeat case_match; cbn; by rewrite ?length_insert.
  - unfold board_fail. repeat case_match; cbn; by rewrite ?length_insert.
Qed.

Lemma spec_back B op x B' i t' :
  spec B op x B' -> tasks B' !! i = Some t' -> exists t, tasks B !! i = Some t /\ moves (is_submit op) (retry_limit B) t t'.
Proof.
  intros Hs Ht'. destruct (lookup_lt_is_Some_2 (tasks B) i) as [t Ht].
  { rewrite <- (length_tasks B op x B' Hs). by eapply lookup_lt_Some. }
  destruct (proj2 (spec_moves B op x B' Hs) i t Ht) as (t'' & Ht'' & Hm). simplify_eq. eauto.
Qed.

(** ** Sequence numbers do not repeat within 2^64 submissions *)

Definition seqs_below (n : nat) (B : Board) : Prop := forall i t, tasks B !! i = Some t -> 0 <= ts_seq t <= Z.of_nat n.

Lemma moves_seq sub limit t t' :
  moves sub limit t t' -> 0 <= ts_seq t < U64_MAX ->
  ts_seq t' = ts_seq t \/ (sub = true /\ ts_seq t' = ts_seq t + 1).
Proof.
  intros Hm Hb. destruct Hm; try (by left).
  - right. split; [done|]. cbn. apply wrap64_id. mach.
  - left. by destruct dl.
Qed.

Lemma seqs_step n B op x B' :
  spec B op x B' -> seqs_below n B -> Z.of_nat n < U64_MAX -> seqs_below (n + if is_submit op then 1 else 0) B'.
Proof.
  intros Hs Hb Hn i t' Ht'. destruct (spec_back B op x B' i t' Hs Ht') as (t & Ht & Hm).
  specialize (Hb i t Ht). destruct (moves_seq _ _ _ _ Hm ltac:(lia)) as [E|[E1 E2]]; destruct (is_submit op); try done; lia.
Qed.

Lemma submits_cons op ops : submits (op :: ops) = ((if is_submit op then 1 else 0) + submits ops)%nat.
Proof. unfold submits. cbn. by destruct (is_submit op). Qed.

(** ** Outcomes are final *)

(** The task in this slot is the same one with the same outcome, or a newer one. *)
Definition later (t t' : TaskSlot) : Prop :=
  ts_seq t <= ts_seq t' /\
  (ts_seq t' = ts_seq t -> terminal t = true -> ts_state t' = ts_state t /\ ts_result t' = ts_result t).

Lemma terminal_not t : terminal t = true -> ts_state t <> QUEUED /\ ts_state t <> CLAIMED.
Proof. unfold terminal. intros H. split; intros E; by rewrite E in H. Qed.

Lemma moves_later sub limit t t' : moves sub limit t t' -> 0 <= ts_seq t < U64_MAX -> later t t'.
Proof.
  intros Hm Hb. destruct (moves_seq _ _ _ _ Hm Hb) as [E|[_ E]]; [|unfold later; lia].
  split; [lia|]. intros _ Ht. destruct (terminal_not t Ht) as [Hq Hc]. destruct Hm; try done.
  cbn in E. rewrite wrap64_id in E by mach. lia.
Qed.

Lemma later_trans t1 t2 t3 : later t1 t2 -> later t2 t3 -> later t1 t3.
Proof.
  intros [H1 H2] [H3 H4]. split; [lia|]. intros E Ht.
  destruct (H2 ltac:(lia) Ht) as [E1 E2]. destruct H4 as [E3 E4]; [lia| |split; congruence].
  unfold terminal in *. by rewrite E1.
Qed.

Lemma spec_all_later B ops xs B' n :
  spec_all B ops xs B' -> seqs_below n B -> Z.of_nat (n + submits ops) < U64_MAX ->
  each_task later B B' /\ seqs_below (n + submits ops) B'.
Proof.
  intros Hall. revert n. induction Hall as [B|B op x B1 ops xs B2 Hs _ IH]; intros n Hb Hn.
  - split; [|by rewrite Nat.add_0_r]. apply each_same; [|done]. by intros t.
  - rewrite submits_cons in *. pose proof (seqs_step n B op x B1 Hs Hb ltac:(lia)) as Hb1.
    destruct (IH _ Hb1 ltac:(lia)) as [Hl2 Hb2]. split; [|by rewrite Nat.add_assoc].
    intros i t Ht. destruct (proj2 (spec_moves B op x B1 Hs) i t Ht) as (t1 & Ht1 & Hm).
    destruct (Hl2 i t1 Ht1) as (t2 & Ht2 & Hl). exists t2. split; [done|].
    eapply later_trans; [|exact Hl]. eapply moves_later; [exact Hm|]. specialize (Hb i t Ht). lia.
Qed.

Definition decided (s : TaskStatus) : bool := match s with SQueued | SClaimed => false | _ => true end.

(** A board's answer for a decided task, and every later board's. *)
Lemma poll_later B B' h s :
  each_task later B B' -> length (tasks B') = length (tasks B) -> board_poll B h = Ok s -> decided s = true ->
  board_poll B' h = Ok s \/ board_poll B' h = Err StaleHandle.
Proof.
  intros Hl Hlen Hp Hd. unfold board_poll in Hp. destruct (find_task B h) as [t|] eqn:E; [|done].
  apply find_task_Some in E as [Ht Es]. destruct (Hl _ t Ht) as (t' & Ht' & [Hge Hsame]).
  unfold board_poll, find_task. rewrite Ht'. destruct (Z.eqb_spec (ts_seq t') (h_seq h)) as [E'|]; [|by right].
  assert (Hterm : terminal t = true).
  { unfold terminal. repeat case_match; simplify_eq; try done;
      repeat match goal with H : (_ =? _) = true |- _ => rewrite H end; by rewrite ?orb_true_r. }
  destruct (Hsame ltac:(congruence) Hterm) as [-> ->]. left. exact Hp.
Qed.

(** ** A task is handed out at most [limit + 1] times *)

Definition claims_of (i sq : Z) (xs : list Resp) : nat :=
  length (List.filter (fun x => match x with RClaim (Some ct) => (ct_idx ct =? i) && (ct_seq ct =? sq) | _ => false end) xs).

(** History [xs] has led to board [B] after at most [n] submissions. *)
Definition handed_out (n : nat) (xs : list Resp) (B : Board) : Prop :=
  seqs_below n B /\
  forall i t, tasks B !! i = Some t ->
    0 <= ts_retry t <= retry_limit B /\
    Z.of_nat (claims_of (Z.of_nat i) (ts_seq t) xs) <= ts_retry t + (if ts_state t =? QUEUED then 0 else 1) /\
    (forall sq, sq < ts_seq t -> Z.of_nat (claims_of (Z.of_nat i) sq xs) <= retry_limit B + 1) /\
    (forall sq, ts_seq t < sq -> claims_of (Z.of_nat i) sq xs = 0%nat).

Lemma claims_snoc i sq xs x : claims_of i sq (xs ++ [x]) = (claims_of i sq xs + claims_of i sq [x])%nat.
Proof. unfold claims_of. by rewrite List.filter_app, length_app. Qed.

(** Only a claim counts, and it takes a queued task. *)
Lemma claims_of_step B op x B' i t sq :
  spec B op x B' -> tasks B !! i = Some t ->
  claims_of (Z.of_nat i) sq [x] = 0%nat \/
  (claims_of (Z.of_nat i) sq [x] = 1%nat /\ sq = ts_seq t /\ ts_state t = QUEUED /\
   exists w dl, tasks B' !! i = Some (claimed_task w dl t)).
Proof.
  intros Hs Ht. destruct Hs; try (by left).
  unfold claims_of. cbn. destruct (Z.eqb_spec (Z.of_nat i0) (Z.of_nat i)) as [E|]; [|by left].
  destruct (Z.eqb_spec (ts_seq t0) sq) as [<-|]; [|by left]. apply Nat2Z.inj in E as ->. simplify_eq. right.
  split_and!; try done. exists worker, deadline. rewrite Nat2Z.id. apply list_lookup_insert_eq. by eapply lookup_lt_Some.
Qed.

Lemma handed_out_step n B op x B' xs :
  spec B op x B' -> handed_out n xs B -> Z.of_nat n < U64_MAX ->
  handed_out (n + if is_submit op then 1 else 0) (xs ++ [x]) B'.
Proof.
  intros Hs [Hb Hh] Hn. split; [by eapply seqs_step|]. intros i t' Ht'. rewrite (proj1 (spec_moves B op x B' Hs)).
  destruct (spec_back B op x B' i t' Hs Ht') as (t & Ht & Hm). specialize (Hb i t Ht).
  destruct (Hh i t Ht) as (Hr & Hcur & Hold & Hnew). set (lim := retry_limit B) in *.
  assert (Hother : forall sq, sq <> ts_seq t -> claims_of (Z.of_nat i) sq (xs ++ [x]) = claims_of (Z.of_nat i) sq xs).
  { intros sq Hsq. rewrite claims_snoc. destruct (claims_of_step B op x B' i t sq Hs Ht) as [->|(_ & ? & _)]; [lia|done]. }
  destruct (claims_of_step B op x B' i t (ts_seq t) Hs Ht) as [E0|(E1 & _ & Hq & w & dl & Hc)].
  - assert (Hself : claims_of (Z.of_nat i) (ts_seq t) (xs ++ [x]) = claims_of (Z.of_nat i) (ts_seq t) xs)
      by (rewrite claims_snoc; lia).
    assert (Hall : forall sq, claims_of (Z.of_nat i) sq (xs ++ [x]) = claims_of (Z.of_nat i) sq xs).
    { intros sq. destruct (decide (sq = ts_seq t)) as [->|]; auto. }
    assert (Hle : Z.of_nat (claims_of (Z.of_nat i) (ts_seq t) xs) <= lim + 1) by (destruct (ts_state t =? QUEUED); lia).
    assert (Hsame : forall t', ts_seq t' = ts_seq t -> 0 <= ts_retry t' <= lim ->
      ts_retry t + (if ts_state t =? QUEUED then 0 else 1) <= ts_retry t' + (if ts_state t' =? QUEUED then 0 else 1) ->
      0 <= ts_retry t' <= lim /\
      Z.of_nat (claims_of (Z.of_nat i) (ts_seq t') (xs ++ [x])) <= ts_retry t' + (if ts_state t' =? QUEUED then 0 else 1) /\
      (forall sq, sq < ts_seq t' -> Z.of_nat (claims_of (Z.of_nat i) sq (xs ++ [x])) <= lim + 1) /\
      (forall sq, ts_seq t' < sq -> claims_of (Z.of_nat i) sq (xs ++ [x]) = 0%nat)).
    { intros t1 E1 E2 E3. rewrite E1, Hall. split; [done|]. split; [lia|].
      split; intros sq Hsq; rewrite Hall; auto. }
    destruct Hm as [t|request dl t _ Hlive|w dl t Hq|t Hq|t Hq|r t Hq|t Hq|t Hq Hlt].
    2: { cbn [ts_seq ts_retry ts_state fresh_task]. rewrite wrap64_id by mach. rewrite Hall, Hnew by lia.
         split; [lia|]. split; [done|]. split; intros sq Hsq; rewrite Hall.
         - destruct (decide (sq = ts_seq t)) as [->|]; [done|]. apply Hold. lia.
         - apply Hnew. lia. }
    all: apply Hsame; try done; try (rewrite Hq); try (destruct dl); cbn; try lia.
  - simplify_eq. assert (Ec : ts_retry (claimed_task w dl t) = ts_retry t /\ ts_seq (claimed_task w dl t) = ts_seq t /\
      ts_state (claimed_task w dl t) = CLAIMED) by (by destruct dl). destruct Ec as (-> & -> & ->).
    rewrite Hq in Hcur. cbn in Hcur. split_and!; [lia|lia| | |].
    + rewrite claims_snoc, E1. cbn. lia.
    + intros sq Hsq. rewrite Hother by lia. auto.
    + intros sq Hsq. rewrite Hother by lia. auto.
Qed.

Lemma spec_all_handed_out n B ops xs B' pre :
  spec_all B ops xs B' -> handed_out n pre B -> Z.of_nat (n + submits ops) < U64_MAX ->
  handed_out (n + submits ops) (pre ++ xs) B'.
Proof.
  intros Hall. revert n pre. induction Hall as [B|B op x B1 ops xs B2 Hs _ IH]; intros n pre Hh Hn.
  - change (submits []) with 0%nat. by rewrite Nat.add_0_r, app_nil_r.
  - rewrite submits_cons in *. rewrite (cons_middle x pre xs), app_assoc, Nat.add_assoc.
    apply IH; [apply (handed_out_step n B op); [done|done|lia]|lia].
Qed.

Lemma fresh_seqs cap limit : seqs_below 0 (fresh_board cap limit).
Proof. intros i t Ht. cbn in Ht. apply lookup_replicate in Ht as [-> _]. done. Qed.

Lemma fresh_handed_out cap limit : 0 <= limit -> handed_out 0 [] (fresh_board cap limit).
Proof.
  intros Hl. split; [apply fresh_seqs|]. intros i t Ht. cbn in Ht. apply lookup_replicate in Ht as [-> _].
  cbn. split_and!; try done. intros sq _. lia.
Qed.

Lemma spec_all_split B ops xs B' i op :
  spec_all B ops xs B' -> ops !! i = Some op ->
  exists B1 x B2, spec_all B (take i ops) (take i xs) B1 /\ xs !! i = Some x /\ spec B1 op x B2 /\
    spec_all B2 (drop (S i) ops) (drop (S i) xs) B'.
Proof.
  intros Hall. revert i. induction Hall as [B|B o x B1 ops xs B2 Hs Hall IH]; intros [|i] Hi; try done; cbn in *.
  - simplify_eq. exists B, x, B1. split_and!; try done. constructor.
  - destruct (IH i Hi) as (C1 & y & C2 & H1 & H2 & H3 & H4). exists C1, y, C2. split_and!; try done. by econstructor.
Qed.

Lemma submits_app o1 o2 : submits (o1 ++ o2) = (submits o1 + submits o2)%nat.
Proof. unfold submits. by rewrite List.filter_app, length_app. Qed.

Lemma submits_split i l : (submits (take i l) + submits (drop i l) = submits l)%nat.
Proof. by rewrite <- submits_app, take_drop. Qed.

Lemma submits_between i k l : (submits (take i l) + submits (take k (drop (S i) l)) <= submits l)%nat.
Proof.
  pose proof (submits_split i l). pose proof (submits_split k (drop (S i) l)).
  pose proof (submits_split 1 (drop i l)) as E. rewrite drop_drop, Nat.add_1_r in E. lia.
Qed.

Lemma spec_all_length B ops xs B' : spec_all B ops xs B' -> length (tasks B') = length (tasks B).
Proof. induction 1 as [|B op x B' ops xs B'' Hs _ IH]; [done|]. by rewrite IH, (length_tasks _ _ _ _ Hs). Qed.

Lemma spec_all_limit B ops xs B' : spec_all B ops xs B' -> retry_limit B' = retry_limit B.
Proof. induction 1 as [|B op x B' ops xs B'' Hs _ IH]; [done|]. by rewrite IH, (proj1 (spec_moves _ _ _ _ Hs)). Qed.

Lemma spec_poll_inv B h x B' : spec B (OPoll h) x B' -> x = RStatus (board_poll B h) /\ B' = B.
Proof. intros Hs. by inversion Hs. Qed.

(** ** The queue *)

Section queue_claims.
Context (base region_len cap limit addr : Z) (work_n done_n : prog QueueMem unit) (f0 : nat) (ops : list (nat * Op)).
Context (Hcap : 0 < cap < U32_MOD) (Hpow : is_power_of_two cap = true) (Hbase : base mod 8 = 0)
  (Hreg : required_bytes cap <= region_len) (Hw : notifier work_n) (Hd : notifier done_n) (Hf : (Z.to_nat cap <= f0)%nat)
  (Hops : Forall (fun x => op_wf cap x.2) ops).

Lemma session : exists m0 xs m,
  init_with_max_retries base region_len cap limit = Ok (mkTaskQueue cap, m0) /\
  attach base region_len m0 = Ok (mkTaskQueue cap) /\ board m0 = fresh_board cap limit /\
  run (exec_all (mkTaskQueue cap) (S f0) addr work_n done_n ops) m0 = Some (Some xs, m) /\
  spec_all (board m0) (snd <$> ops) xs (board m).
Proof.
  destruct (init_ok base region_len cap limit Hcap Hpow Hbase Hreg) as (m0 & E1 & E2 & HS & EB & Ec).
  pose proof (fresh_good cap limit Hcap Hpow f0 m0 HS EB Ec ltac:(lia)) as G.
  pose proof (exec_all_refines (mkTaskQueue cap) f0 addr work_n done_n ops _ _ _ Hw Hd Hops G m0 (conj HS eq_refl)) as Ht.
  apply terminates_run in Ht as (xs & m & Er & c' & C' & L' & [_ <-] & Hsp & _).
  by exists m0, xs, m.
Qed.
End queue_claims.


(** C25. Outcomes are final.  Once a poll reports a task done, failed or cancelled,
    every later poll of the same handle reports the same outcome with the same result,
    or that the handle is stale because its slot was reused; it never changes its mind.
    (Fewer than 2^64 - 1 submissions: the sequence numbers of a slot do not repeat.) *)
Theorem outcome_is_final base region_len cap limit addr work_n done_n fuel ops q m0 xs m i j a b h s :
  0 < cap < U32_MOD -> is_power_of_two cap = true -> base mod 8 = 0 -> required_bytes cap <= region_len ->
  notifier work_n -> notifier done_n -> (Z.to_nat cap < fuel)%nat -> Forall (fun x => op_wf cap x.2) ops ->
  Z.of_nat (submits (snd <$> ops)) < U64_MAX ->
  init_with_max_retries base region_len cap limit = Ok (q, m0) ->
  run (exec_all q fuel addr work_n done_n ops) m0 = Some (Some xs, m) ->
  (i < j)%nat -> ops !! i = Some (a, OPoll h) -> ops !! j = Some (b, OPoll h) ->
  xs !! i = Some (RStatus (Ok s)) -> decided s = true ->
  xs !! j = Some (RStatus (Ok s)) \/ xs !! j = Some (RStatus (Err StaleHandle)).
Proof.
  intros ??????? Hops Hn Ei Er Hij Hi Hj Hxi Hs. destruct fuel as [|f0]; [lia|].
  destruct (session base region_len cap limit addr work_n done_n f0 ops) as (m0' & xs' & m' & E1 & _ & EB & E2 & Hall);
    try done; [lia|]. rewrite Ei in E1. injection E1 as -> ->. rewrite Er in E2. injection E2 as -> ->.
  assert (Hi' : (snd <$> ops) !! i = Some (OPoll h)) by (by rewrite list_lookup_fmap, Hi).
  destruct (spec_all_split _ _ _ _ i _ Hall Hi') as (B1 & x & B2 & HA & Hx & Hsp & HB).
  apply spec_poll_inv in Hsp as [-> ->]. rewrite Hx in Hxi. injection Hxi as Hp. assert (Hj' : drop (S i) (snd <$> ops) !! (j - S i)%nat = Some (OPoll h)).
  { rewrite lookup_drop. replace (S i + (j - S i))%nat with j by lia. by rewrite list_lookup_fmap, Hj. }
  destruct (spec_all_split _ _ _ _ _ _ HB Hj') as (B3 & y & B4 & HC & Hy & Hsp' & _).
  rewrite lookup_drop in Hy. replace (S i + (j - S i))%nat with j in Hy by lia. apply spec_poll_inv in Hsp' as [-> ->].
  rewrite EB in HA. destruct (spec_all_later _ _ _ _ 0 HA (fresh_seqs cap limit)) as [_ Hb1].
  { pose proof (submits_split i (snd <$> ops)). lia. }
  pose proof (submits_between i (j - S i) (snd <$> ops)) as Hsum.
  destruct (spec_all_later _ _ _ _ _ HC Hb1 ltac:(lia)) as [Hl _]. rewrite Hy.
  pose proof (spec_all_length _ _ _ _ HC) as Hlen.
  destruct (poll_later B1 B3 h s Hl Hlen Hp Hs) as [->| ->]; auto.
Qed.

(** C26. A task is handed out at most [limit + 1] times: however claims, lapses and
    reaper sweeps follow each other, the number of claims that ever return the handle
    [(i, sq)] is bounded by the retry limit plus the first attempt. *)
Theorem attempts_bounded base region_len cap limit addr work_n done_n fuel ops q m0 xs m i sq :
  0 < cap < U32_MOD -> is_power_of_two cap = true -> base mod 8 = 0 -> required_bytes cap <= region_len ->
  notifier work_n -> notifier done_n -> (Z.to_nat cap < fuel)%nat -> Forall (fun x => op_wf cap x.2) ops ->
  Z.of_nat (submits (snd <$> ops)) < U64_MAX -> 0 <= limit ->
  init_with_max_retries base region_len cap limit = Ok (q, m0) ->
  run (exec_all q fuel addr work_n done_n ops) m0 = Some (Some xs, m) -> 0 <= i < cap ->
  Z.of_nat (claims_of i sq xs) <= limit + 1.
Proof.
  intros ??????? Hops Hn Hlim Ei Er Hi. destruct fuel as [|f0]; [lia|].
  destruct (session base region_len cap limit addr work_n done_n f0 ops) as (m0' & xs' & m' & E1 & _ & EB & E2 & Hall);
    try done; [lia|]. rewrite Ei in E1. injection E1 as -> ->. rewrite Er in E2. injection E2 as -> ->.
  rewrite EB in Hall.
  destruct (spec_all_handed_out 0 _ _ _ _ [] Hall (fresh_handed_out cap limit Hlim) Hn) as [_ Hh].
  destruct (lookup_lt_is_Some_2 (tasks (board m')) (Z.to_nat i)) as [t Ht].
  { rewrite (spec_all_length _ _ _ _ Hall). cbn. rewrite length_replicate. lia. }
  assert (Elim : retry_limit (board m') = limit).
  { by rewrite (spec_all_limit _ _ _ _ Hall). }
  destruct (Hh _ _ Ht) as (Hr & Hcur & Hold & Hnew). rewrite Elim, Z2Nat.id in * by lia. cbn [app] in *.
  destruct (Z.lt_total sq (ts_seq t)) as [Hlt|[->|Hgt]].
  - by apply Hold.
  - destruct (ts_state t =? QUEUED); lia.
  - rewrite Hnew by done. lia.
Qed.

(** ** Witnesses and concrete runs *)

Definition demo_req : ChunkDesc := mkChunkDesc 1 64 128 7 0 0.
Definition demo_res : ChunkDesc := mkChunkDesc 1 192 16 7 0 0.
Definition demo_bind : LeaseBinding := mkBinding 5 1 9.

Definition demo_ops : list (nat * Op) :=
  [(0%nat, OSubmit demo_req 100 (Some demo_bind)); (1%nat, OClaim 1 (Some 200)); (2%nat, OReap 300); (1%nat, OClaim 2 None);
   (1%nat, OComplete (mkClaimed 0 1 2 demo_req) demo_res); (0%nat, OPoll (mkHandle 0 1)); (0%nat, OAck (mkHandle 0 1));
   (2%nat, OReapBindings 300 0); (0%nat, OPoll (mkHandle 0 1))].

Lemma silent_notifier : notifier (Ret tt).
Proof. intros m. exists (doorbell_seq m). by destruct m. Qed.

Lemma demo_ops_wf : Forall (fun x => op_wf 8 x.2) demo_ops.
Proof. repeat constructor; cbn; lia. Qed.


(** A session of the queue on a fresh region, from the base address 0. *)
Definition play (cap limit : Z) (ops : list (nat * Op)) : option (option (list Resp) * QueueMem) :=
  match init_with_max_retries 0 (required_bytes cap) cap limit with
  | Ok (q, m0) => run (exec_all q (S (Z.to_nat cap)) 4096 (Ret tt) (Ret tt) ops) m0
  | Err _ => None
  end.

Lemma outcome_is_final_witness : exists xs m,
  play 8 2 demo_ops = Some (Some xs, m) /\ xs !! 5%nat = Some (RStatus (Ok (SDone demo_res))) /\
  (xs !! 8%nat = Some (RStatus (Ok (SDone demo_res))) \/ xs !! 8%nat = Some (RStatus (Err StaleHandle))).
Proof.
  eexists _, _. split; [vm_compute; reflexivity|]. split; [vm_compute; reflexivity|].
  eapply (outcome_is_final 0 (required_bytes 8) 8 2 4096 (Ret tt) (Ret tt) 9 demo_ops) with (i := 5%nat) (h := mkHandle 0 1);
    [done|vm_compute; reflexivity|done|lia|apply silent_notifier|apply silent_notifier|lia|apply demo_ops_wf|vm_compute; reflexivity
    |vm_compute; reflexivity|vm_compute; reflexivity|lia|reflexivity|reflexivity|vm_compute; reflexivity|reflexivity].
Defined.

Lemma attempts_bounded_witness : exists xs m,
  play 8 2 demo_ops = Some (Some xs, m) /\ claims_of 0 1 xs = 2%nat /\ Z.of_nat (claims_of 0 1 xs) <= 2 + 1.
Proof.
  eexists _, _. split; [vm_compute; reflexivity|]. split; [vm_compute; reflexivity|].
  eapply (attempts_bounded 0 (required_bytes 8) 8 2 4096 (Ret tt) (Ret tt) 9 demo_ops);
    [done|vm_compute; reflexivity|done|lia|apply silent_notifier|apply silent_notifier|lia|apply demo_ops_wf|vm_compute; reflexivity
    |lia|vm_compute; reflexivity|vm_compute; reflexivity|lia].
Defined.

(** [complete] checks the sequence number and that the slot is claimed, not who
    claimed it.  Worker 1 claims a task, its lease lapses, the reaper requeues the task
    and worker 2 claims it.  Worker 1's [complete] then succeeds and publishes its
    result; it is worker 2, who holds the claim, that is told [Lost]. *)
Theorem lapsed_worker_can_complete : exists m,
  play 8 2
    [(0%nat, OSubmit demo_req 100 None); (1%nat, OClaim 1 (Some 200)); (2%nat, OReap 300); (3%nat, OClaim 2 (Some 400));
     (1%nat, OComplete (mkClaimed 0 1 1 demo_req) demo_res); (3%nat, OComplete (mkClaimed 0 1 2 demo_req) demo_req);
     (0%nat, OPoll (mkHandle 0 1))]
  = Some (Some [RHandle (Ok (mkHandle 0 1)); RClaim (Some (mkClaimed 0 1 1 demo_req)); RReport (mkReport 1 0);
      RClaim (Some (mkClaimed 0 1 2 demo_req)); RUnit (Ok tt); RUnit (Err Lost); RStatus (Ok (SDone demo_res))], m) /\
  ts_owner <$> slots m !! 0%nat = Some 2.
Proof. eexists. split; [vm_compute; reflexivity|vm_compute; reflexivity]. Qed.

(** [submit] can answer [QueueFull] although a cancelled slot is reusable.  The
    search for one looks at the top [DRAIN_DIG] nodes of each ready stack.  With 32
    slots queued by one thread (its cursor advances twice per submission, so they land
    eight deep on four of the eight shards), cancelling the first task frees nothing
    for the next submission until a claim digs it out. *)
Theorem cancelled_slot_can_stay_buried : exists xs m,
  play 32 2 (replicate 32 (0%nat, OSubmit demo_req 100 None) ++
      [(0%nat, OCancel (mkHandle 0 1)); (0%nat, OSubmit demo_req 100 None); (0%nat, OPoll (mkHandle 0 1))])
    = Some (Some xs, m) /\
  drop 32 xs = [RUnit (Ok tt); RHandle (Err QueueFull); RStatus (Ok SCancelled)] /\ cancelled m = 1.
Proof. eexists _, _. split; [vm_compute; reflexivity|]. split; [vm_compute; reflexivity|reflexivity]. Qed.

(** Full of live tasks but for one that was cancelled while it waited: its slot lies under
    more than four others of its shard, where [submit] does not dig, and [submit] refuses. *)
Lemma buried_slot_refused : exists xs m,
  play 64 2 (replicate 64 (0%nat, OSubmit demo_req 100 None) ++ [(0%nat, OCancel (mkHandle 0 1)); (0%nat, OSubmit demo_req 100 None)]) =
    Some (Some xs, m) /\
  xs !! 65%nat = Some (RHandle (Err QueueFull)) /\ ts_state <$> slots m !! 0%nat = Some CANCELLED.
Proof. eexists _, _. split; [vm_compute; reflexivity|]. split; vm_compute; reflexivity. Qed.

(** A task from submission to acknowledgement, with an input binding. *)
Definition bound_task (sq : Z) : list (nat * Op) :=
  [(0%nat, OSubmit demo_req 100 (Some (mkBinding 1 1 1))); (0%nat, OClaim 1 None);
   (0%nat, OComplete (mkClaimed 0 sq 1 demo_req) demo_res); (0%nat, OAck (mkHandle 0 sq))].

(** A queue of one slot has two records; after two such tasks both wait for the sweep, and a
    third submission is refused although nothing is unacknowledged. *)
Lemma acknowledged_records_refused : exists xs m,
  play 1 2 (bound_task 1 ++ bound_task 2 ++ [(0%nat, OSubmit demo_req 100 (Some (mkBinding 1 1 1)))]) = Some (Some xs, m) /\
  xs !! 3%nat = Some (RCount (Ok 1)) /\ xs !! 7%nat = Some (RCount (Ok 1)) /\ xs !! 8%nat = Some (RHandle (Err LeaseTableFull)).
Proof. eexists _, _. split; [vm_compute; reflexivity|]. split_and!; vm_compute; reflexivity. Qed.
