(* ===== verification/TreiberConc.v ===== *)
(** * The tagged Treiber stack under interleaving

    [treiber_pop] reads the head, then a link of a node it does not own, then
    compare-and-swaps the head: between any two of these accesses other threads may
    pop that node, hand it to anyone, push it back, or relink it.  The tag in the head
    word is what makes the swap sound: it moves at every successful swap, so an equal
    head word means nothing happened in between (as long as fewer than 2^32 swaps do).

    The proof is against [stack_laws], so it holds of every stack of the workspace:
    the pools' free lists, the task queue's sixteen stacks and its lease list. *)

From S2P Require Import Prelude Atomic TaskQueue TaskQueueInv Treiber.

(** ** Clients: any mix of pops and pushes of nodes they hold *)

Inductive cmd : Set := CPop | CPush.

Section client.
Context {M : Type} (st : stack_ops M) (fuel : nat).

Fixpoint client (cs : list cmd) (hand : list Z) : prog M (list Z) :=
  match cs with
  | [] => Ret hand
  | CPop :: cs' =>
      r <- treiber_pop st fuel ;;
      match r with Some (Some i) => client cs' (i :: hand) | _ => client cs' hand end
  | CPush :: cs' =>
      match hand with
      | [] => client cs' []
      | i :: hand' =>
          r <- treiber_push st fuel i ;;
          match r with Some _ => client cs' hand' | None => client cs' hand end
      end
  end.

(** The same, giving up when an operation runs out of fuel. *)
Fixpoint sure_client (cs : list cmd) (hand : list Z) : prog M (option (list Z)) :=
  match cs with
  | [] => done hand
  | CPop :: cs' =>
      r <-- treiber_pop st fuel ;;
      sure_client cs' (match r with Some i => i :: hand | None => hand end)
  | CPush :: cs' =>
      match hand with
      | [] => sure_client cs' []
      | i :: hand' => _ <-- treiber_push st fuel i ;; sure_client cs' hand'
      end
  end.
End client.

(** ** The invariant *)

(** What a thread knows: the nodes it holds; the head it last loaded, as the number of
    swaps before it, with the link it read from that node; the link it wrote into a node
    of its own; how many swaps it may still make. *)
Record ghost : Type := mkGhost {
  owned : list Z;
  snap : option (nat * Z * option Z);
  link : option (Z * Z);
  budget : nat
}.

Definition all_owned (gs : list ghost) : list Z := concat (owned <$> gs).
Definition total_budget (gs : list ghost) : nat := sum_list_with budget gs.

Lemma all_owned_update gs i g g' :
  gs !! i = Some g -> all_owned (<[i := g']> gs) ++ owned g ≡ₚ all_owned gs ++ owned g'.
Proof.
  unfold all_owned. revert i. induction gs as [|h gs IH]; intros [|i] Hi; csimpl in *; simplify_eq.
  - rewrite <- !app_assoc, (Permutation_app_comm (concat (owned <$> gs))), app_assoc.
    rewrite (Permutation_app_comm (owned g')), <- app_assoc. apply Permutation_app_head, Permutation_app_comm.
  - rewrite <- !app_assoc. apply Permutation_app_head. by apply IH.
Qed.

Lemma all_owned_elem gs i g x : gs !! i = Some g -> x ∈ owned g -> x ∈ all_owned gs.
Proof.
  intros Hi Hx. unfold all_owned. apply list_elem_of_In, in_concat. exists (owned g).
  split; apply list_elem_of_In; [|done]. apply (list_elem_of_fmap_2 owned). by eapply list_elem_of_lookup_2.
Qed.

Lemma NoDup_two_owners gs i j g h x :
  NoDup (all_owned gs) -> gs !! i = Some g -> gs !! j = Some h -> x ∈ owned g -> x ∈ owned h -> i = j.
Proof.
  unfold all_owned. revert i j. induction gs as [|k gs IH]; intros [|i] [|j] Hnd Hi Hj Hxg Hxh; csimpl in *; simplify_eq; try done.
  - apply list.NoDup_app in Hnd as (_ & Hd & _). destruct (Hd x Hxg). by apply (all_owned_elem gs j h).
  - apply list.NoDup_app in Hnd as (_ & Hd & _). destruct (Hd x Hxh). by apply (all_owned_elem gs i g).
  - f_equal. apply list.NoDup_app in Hnd as (_ & _ & Hnd). by apply (IH i j).
Qed.

Section conc.
Context {M : Type} {st : stack_ops M} {ok : M -> Prop} {valid : Z -> Prop} (laws : stack_laws st ok valid).
(** The nodes in play, the initial tag, a bound on the number of swaps. *)
Context (N : list Z) (t0 : Z) (B : nat).
Context (HN : NoDup N) (Hnode : forall i, i ∈ N -> valid i /\ is_u32 i /\ i <> EMPTY) (HB : Z.of_nat B < U32_MOD).

Definition tag_at (k : nat) : Z := wrap32 (t0 + Z.of_nat k).

Definition snap_ok (m : M) (T : nat) (h : Z) (s : option (nat * Z * option Z)) : Prop :=
  match s with
  | None => True
  | Some (k, slot, nx) =>
      (k <= T)%nat /\
      (k = T -> h = slot /\ match nx with Some n => s_next st slot m = Some n | None => True end)
  end.

Definition link_ok (m : M) (g : ghost) : Prop :=
  match link g with Some (i, n) => i ∈ owned g /\ s_next st i m = Some n | None => True end.

(** [l]: the stack's contents; [T]: how often the head has been swapped. *)
Definition InvAt (m : M) (gs : list ghost) (l : list Z) (T : nat) (h : Z) : Prop :=
  ok m /\ s_head st m = head_pack (tag_at T) h /\ chain st m h l /\ l ++ all_owned gs ≡ₚ N /\
  (T + total_budget gs <= B)%nat /\
  forall j g, gs !! j = Some g -> snap_ok m T h (snap g) /\ link_ok m g.

Definition Inv (m : M) (gs : list ghost) : Prop := exists l T h, InvAt m gs l T h.

Lemma InvAt_nodup m gs l T h : InvAt m gs l T h -> NoDup (l ++ all_owned gs).
Proof. intros (_ & _ & _ & Hp & _). by rewrite Hp. Qed.

Lemma InvAt_owned m gs l T h i g x :
  InvAt m gs l T h -> gs !! i = Some g -> x ∈ owned g -> x ∈ N /\ x ∉ l.
Proof.
  intros HI Hi Hx. pose proof (all_owned_elem gs i g x Hi Hx) as Hin. split.
  - destruct HI as (_ & _ & _ & Hp & _). rewrite <- Hp. set_solver.
  - pose proof (InvAt_nodup _ _ _ _ _ HI) as (_ & Hd & _)%list.NoDup_app. intros Hxl. by apply (Hd x).
Qed.

(** The head is the top of the contents. *)
Lemma chain_top m h l : chain st m h l -> (l = [] /\ h = EMPTY) \/ exists l', l = h :: l'.
Proof. destruct l as [|i l]; cbn; [by left|]. intros (-> & _). right. by eexists. Qed.

Lemma InvAt_head m gs l T h : InvAt m gs l T h -> h = EMPTY \/ h ∈ N.
Proof.
  intros (_ & _ & Hc & Hp & _). destruct (chain_top m h l Hc) as [[_ ->]|(l' & ->)]; [by left|right].
  rewrite <- Hp. set_solver.
Qed.

Lemma tag_u32 k : is_u32 (tag_at k).
Proof. apply wrap32_u32. Qed.

Lemma tag_next k : wrap32 (tag_at k + 1) = tag_at (S k).
Proof.
  unfold tag_at, wrap32, wrap. rewrite Z.add_mod_idemp_l by lia. f_equal. lia.
Qed.

(** Tags of fewer than 2^32 swaps are distinct. *)
Lemma tag_inj k T : (k <= T)%nat -> (T <= B)%nat -> tag_at k = tag_at T -> k = T.
Proof.
  intros Hle HT E. unfold tag_at, wrap32, wrap in E. change (2 ^ 32) with U32_MOD in E.
  assert (Hz : (Z.of_nat T - Z.of_nat k) mod U32_MOD = 0).
  { replace (Z.of_nat T - Z.of_nat k) with ((t0 + Z.of_nat T) - (t0 + Z.of_nat k)) by lia.
    rewrite Zminus_mod, E, Z.sub_diag. done. }
  rewrite Z.mod_small in Hz by mach. lia.
Qed.

Lemma head_u32 h : h = EMPTY \/ h ∈ N -> is_u32 h.
Proof. intros [->|Hh]; [apply EMPTY_u32|by apply Hnode]. Qed.

(** A swap that succeeds found the very head that was loaded. *)
Lemma swap_hit m gs l T h k slot nx j g :
  InvAt m gs l T h -> gs !! j = Some g -> snap g = Some (k, slot, nx) -> slot = EMPTY \/ slot ∈ N ->
  s_head st m = head_pack (tag_at k) slot ->
  k = T /\ h = slot /\ match nx with Some n => s_next st slot m = Some n | None => True end.
Proof.
  intros HI Hj Hs Hslot E. pose proof (InvAt_head _ _ _ _ _ HI) as Hh. destruct HI as (_ & E' & _ & _ & HT & Hall).
  destruct (Hall j g Hj) as [Hsn _]. rewrite Hs in Hsn. destruct Hsn as [Hle Himp]. rewrite E' in E.
  apply head_pack_inj in E as [Et _]; [|apply tag_u32|by apply head_u32|apply tag_u32|by apply head_u32].
  assert (k = T) as Ek by (apply tag_inj; [done|lia|done]). split; [done|]. by apply Himp.
Qed.

(** ** What a thread may do *)

Lemma total_budget_update gs i g g' :
  gs !! i = Some g -> (total_budget (<[i := g']> gs) + budget g = total_budget gs + budget g')%nat.
Proof. apply sum_list_with_insert. Qed.

(** Changing only what a thread knows. *)
Lemma InvAt_know m gs l T h i g g' :
  InvAt m gs l T h -> gs !! i = Some g -> owned g' = owned g -> budget g' = budget g ->
  snap_ok m T h (snap g') -> link_ok m g' -> InvAt m (<[i := g']> gs) l T h.
Proof.
  intros (Hok & Eh & Hc & Hp & HT & Hall) Hi Eo Eb Hs Hl. split_and!; try done.
  - pose proof (all_owned_update gs i g g' Hi) as Hu. rewrite Eo in Hu. apply Permutation_app_inv_r in Hu. by rewrite Hu.
  - pose proof (total_budget_update gs i g g' Hi). lia.
  - intros j gj Hj. apply list_lookup_insert_Some in Hj as [(<- & <- & _)|(_ & Hj)]; [done|by apply (Hall j)].
Qed.

(** A successful swap of the head. *)
Lemma InvAt_swap m gs l T h i g g' l' h' :
  InvAt m gs l T h -> gs !! i = Some g -> chain st m h' l' -> l' ++ owned g' ≡ₚ l ++ owned g ->
  budget g = S (budget g') -> snap g' = None -> link g' = None ->
  InvAt (s_set_head st (head_pack (tag_at (S T)) h') m) (<[i := g']> gs) l' (S T) h'.
Proof.
  intros (Hok & Eh & Hc & Hp & HT & Hall) Hi Hc' Hp' Eb Es El. split_and!.
  - by apply (law_ok_head st ok valid laws).
  - by apply (law_head st ok valid laws).
  - apply (chain_agree m); [|done]. intros j _. apply (law_next_head st ok valid laws).
  - pose proof (all_owned_update gs i g g' Hi) as Hu. apply (Permutation_app_inv_r (owned g)). rewrite <- app_assoc, Hu.
    rewrite (Permutation_app_comm (all_owned gs)), app_assoc, Hp'. rewrite <- Hp.
    rewrite <- !app_assoc. apply Permutation_app_head, Permutation_app_comm.
  - pose proof (total_budget_update gs i g g' Hi). lia.
  - intros j gj Hj. apply list_lookup_insert_Some in Hj as [(<- & <- & _)|(_ & Hj)].
    + unfold link_ok. by rewrite Es, El.
    + destruct (Hall j gj Hj) as [Hs Hl]. split.
      * unfold snap_ok in *. destruct (snap gj) as [[[k slot] nx]|]; [|done]. destruct Hs as [Hle _]. split; [lia|]. lia.
      * unfold link_ok in *. destruct (link gj) as [[x n]|]; [|done]. by rewrite (law_next_head st ok valid laws).
Qed.

(** Writing the link of a node in hand. *)
Lemma InvAt_write m gs l T h i g g' x n :
  InvAt m gs l T h -> gs !! i = Some g -> x ∈ owned g -> owned g' = owned g -> budget g' = budget g ->
  snap g' = snap g -> link g' = Some (x, n) ->
  exists m', s_set_next st x n m = Some m' /\ InvAt m' (<[i := g']> gs) l T h.
Proof.
  intros HI Hi Hx Eo Eb Es El. destruct (InvAt_owned _ _ _ _ _ _ _ _ HI Hi Hx) as [HxN Hxl].
  pose proof (InvAt_nodup _ _ _ _ _ HI) as (_ & _ & Hnd)%list.NoDup_app.
  pose proof HI as (Hok & Eh & Hc & Hp & HT & Hall). destruct (Hnode x HxN) as (Hv & _ & Hne).
  destruct (law_set_next st ok valid laws m x n Hok Hv) as (m' & E & Hok' & Eh' & Hnx). exists m'. split; [done|].
  assert (Hkeep : forall j, j <> x -> s_next st j m' = s_next st j m) by (intros j Hj; rewrite Hnx, decide_False; done).
  assert (Hsnap : forall sn, snap_ok m T h sn -> snap_ok m' T h sn).
  { intros [[[k slot] [n'|]]|]; [|done|done]. intros [Hle Himp]. split; [done|]. intros Ek.
    destruct (Himp Ek) as [Eslot Hn']. split; [done|]. rewrite Hkeep; [done|]. intros ->.
    destruct (chain_top m h l Hc) as [[_ ->]|(l' & ->)]; [by subst|]. subst h. set_solver. }
  split_and!; try done.
  - by rewrite Eh'.
  - apply (chain_agree m); [|done]. intros j Hj. apply Hkeep. by intros ->.
  - pose proof (all_owned_update gs i g g' Hi) as Hu. rewrite Eo in Hu. apply Permutation_app_inv_r in Hu. by rewrite Hu.
  - pose proof (total_budget_update gs i g g' Hi). lia.
  - intros j gj Hj. apply list_lookup_insert_Some in Hj as [(<- & <- & _)|(Hij & Hj)].
    + destruct (Hall i g Hi) as [Hs _]. rewrite Es. split; [by apply Hsnap|]. unfold link_ok.
      rewrite El, Eo, Hnx, decide_True by done. done.
    + destruct (Hall j gj Hj) as [Hs Hl]. split; [by apply Hsnap|]. unfold link_ok in *.
      destruct (link gj) as [[y n']|]; [|done]. destruct Hl as [Hy Hn']. split; [done|]. rewrite Hkeep; [done|].
      intros ->. apply Hij. by apply (NoDup_two_owners gs i j g gj x).
Qed.

(** ** The operations *)

#[local] Abbreviation WP := (wp Inv).

(** Between two accesses to the stack a thread may still know a head it once saw. *)
Definition rest (o : list Z) (sn : option (nat * Z * option Z)) (b : nat) : ghost := mkGhost o sn None b.
Definition idle (o : list Z) (b : nat) : ghost := rest o None b.
Definition floor (sn : option (nat * Z * option Z)) : nat := match sn with Some (k, _, _) => k | None => 0 end.

Lemma snap_none m T h : snap_ok m T h None.
Proof. done. Qed.

Lemma floor_le m T h sn : snap_ok m T h sn -> (floor sn <= T)%nat.
Proof. destruct sn as [[[k slot] nx]|]; [by intros [? _]|cbn; lia]. Qed.

(** A swap that fails: somebody swapped the head since it was loaded. *)
Lemma swap_miss m gs l T h k slot nx i o lk b :
  InvAt m gs l T h -> gs !! i = Some (mkGhost o (Some (k, slot, nx)) lk (S b)) -> s_head st m <> head_pack (tag_at k) slot ->
  (k < T < B)%nat /\ InvAt m (<[i := rest o (Some (T, h, None)) (S b)]> gs) l T h.
Proof.
  intros HI Hg Hne. pose proof HI as (_ & Eh & _ & _ & HT & Hall). destruct (Hall i _ Hg) as [[Hle Himp] _]. cbn [snap] in *.
  assert (k <> T) by (intros ->; destruct (Himp eq_refl) as [-> _]; done).
  assert (S b <= total_budget gs)%nat by (pose proof (total_budget_update gs i _ (mkGhost o None lk 0) Hg); cbn in *; lia).
  split; [lia|]. by eapply InvAt_know.
Qed.

(** One round of a pop: it ends the operation, or the stack has moved on. *)
Lemma wp_pop_round i o sn b :
  WP (cur <- load_head st ;;
      let '(tag, slot) := head_unpack cur in
      if slot =? EMPTY then Ret (inr None)
      else
        next <- read_next st slot ;;
        let new := head_pack (wrap32 (tag + 1)) next in
        r <- cas_head st cur new ;;
        Ret (if r.1 then inr (Some slot) else inl tt)) i (rest o sn (S b)) (fun r g' =>
    match r with
    | inl tt => exists sn', g' = rest o sn' (S b) /\ (floor sn < floor sn' < B)%nat
    | inr (Some x) => g' = idle (x :: o) b /\ x ∈ N
    | inr None => g' = idle o (S b)
    end).
Proof.
  unfold load_head. cbn [pbind load act wp]. intros m gs Hg (l & T & h & HI).
  pose proof (InvAt_head _ _ _ _ _ HI) as Hh. pose proof HI as (_ & Eh & _ & _ & _ & Hall0). rewrite Eh.
  pose proof (floor_le _ _ _ _ (proj1 (Hall0 i _ Hg))) as Hfl. cbn [snap rest] in Hfl.
  rewrite head_unpack_pack by (apply tag_u32 || by apply head_u32).
  destruct (Z.eqb_spec h EMPTY) as [->|Hne].
  { exists (idle o (S b)). split; [|done]. exists l, T, EMPTY. by eapply InvAt_know. }
  destruct Hh as [|HhN]; [done|]. destruct (Hnode h HhN) as (Hv & Hu & _).
  exists (mkGhost o (Some (T, h, None)) None (S b)). split.
  { exists l, T, h. eapply InvAt_know; [done|exact Hg|done|done|done|done]. }
  clear m gs Hg HI Eh l Hall0. cbn [pbind read_next act wp]. intros m gs Hg (l & T' & h' & HI).
  pose proof HI as (Hok & _ & _ & _ & _ & Hall). destruct (law_next st ok valid laws m h Hok Hv) as [n En]. rewrite En.
  exists (mkGhost o (Some (T, h, Some n)) None (S b)). split.
  { exists l, T', h'. eapply InvAt_know; [done|exact Hg|done|done| |done]. destruct (Hall i _ Hg) as [[Hle Himp] _].
    split; [done|]. intros E. by destruct (Himp E) as [-> _]. }
  clear m gs Hg HI Hok Hall En l T' h'. cbn [pbind cas_head cas act wp]. intros m gs Hg (l & T' & h' & HI).
  destruct (Z.eqb_spec (s_head st m) (head_pack (tag_at T) h)) as [E|E]; cbn [fst].
  - destruct (swap_hit _ _ _ _ _ _ _ _ _ _ HI Hg eq_refl (or_intror HhN) E) as (-> & -> & En).
    exists (idle (h :: o) b). split; [|by split]. exists (tail l), (S T'), n. rewrite tag_next.
    pose proof HI as (_ & _ & Hc & _). destruct (chain_top m h l Hc) as [[_ ->]|(l' & ->)]; [done|].
    cbn [tail]. eapply InvAt_swap; [exact HI|exact Hg| | |done|done|done].
    + cbn in Hc. destruct Hc as (_ & _ & _ & n' & En' & Hc). by simplify_eq.
    + cbn. by rewrite Permutation_middle.
  - destruct (swap_miss _ _ _ _ _ _ _ _ _ _ _ _ HI Hg E) as [Hlt HI']. eexists. split; [by exists l, T', h'|].
    eexists. split; [done|]. cbn. lia.
Qed.

(** One round of a push. *)
Lemma wp_push_round i x o sn b :
  WP (cur <- load_head st ;;
      let '(tag, old_head) := head_unpack cur in
      write_next st x old_head ;;;
      let new := head_pack (wrap32 (tag + 1)) x in
      r <- cas_head st cur new ;;
      Ret (if r.1 then inr tt else inl tt)) i (rest (x :: o) sn (S b)) (fun r g' =>
    match r with
    | inl tt => exists sn', g' = rest (x :: o) sn' (S b) /\ (floor sn < floor sn' < B)%nat
    | inr _ => g' = idle o b
    end).
Proof.
  unfold load_head. cbn [pbind load act wp]. intros m gs Hg (l & T & h & HI).
  pose proof (InvAt_head _ _ _ _ _ HI) as Hh. pose proof HI as (_ & Eh & _ & _ & _ & Hall0). rewrite Eh.
  pose proof (floor_le _ _ _ _ (proj1 (Hall0 i _ Hg))) as Hfl. cbn [snap rest] in Hfl.
  rewrite head_unpack_pack by (apply tag_u32 || by apply head_u32).
  exists (mkGhost (x :: o) (Some (T, h, None)) None (S b)). split.
  { exists l, T, h. eapply InvAt_know; [done|exact Hg|done|done|done|done]. }
  clear m gs Hg HI Eh l Hall0. cbn [pbind write_next act wp]. intros m gs Hg (l & T' & h' & HI).
  destruct (InvAt_write _ _ _ _ _ _ _ (mkGhost (x :: o) (Some (T, h, None)) (Some (x, h)) (S b)) x h HI Hg
    (list_elem_of_here _ _) eq_refl eq_refl eq_refl eq_refl) as (m' & E & HI'). rewrite E.
  eexists. split; [exists l, T', h'; exact HI'|].
  clear m gs Hg HI HI' E m' l T' h'. cbn [pbind cas_head cas act wp]. intros m gs Hg (l & T' & h' & HI).
  destruct (Z.eqb_spec (s_head st m) (head_pack (tag_at T) h)) as [E|E]; cbn [fst].
  - destruct (swap_hit _ _ _ _ _ _ _ _ _ _ HI Hg eq_refl Hh E) as (-> & -> & _).
    exists (idle o b). split; [|done]. exists (x :: l), (S T'), x. rewrite tag_next.
    destruct (InvAt_owned _ _ _ _ _ _ _ x HI Hg (list_elem_of_here _ _)) as [HxN _]. destruct (Hnode x HxN) as (_ & Hxu & Hxe).
    pose proof HI as (_ & _ & Hc & _ & _ & Hall). destruct (Hall i _ Hg) as [_ [_ Hlx]]. cbn [fst snd] in Hlx.
    eapply InvAt_swap; [exact HI|exact Hg| | |done|done|done].
    + cbn. eauto 10.
    + cbn. by rewrite Permutation_middle.
  - destruct (swap_miss _ _ _ _ _ _ _ _ _ _ _ _ HI Hg E) as [Hlt HI']. eexists. split; [by exists l, T', h'|].
    eexists. split; [done|]. cbn. lia.
Qed.

(** A loop whose lost rounds each raise the floor runs out of fuel only if it had less than
    there are swaps to come. *)
Lemma wp_rounds {C} fuel (body : unit -> prog M (unit + C)) i o sn b (Q : C -> ghost -> Prop) :
  (floor sn < B)%nat ->
  (forall sn, WP (body tt) i (rest o sn (S b)) (fun r g' =>
     match r with inl tt => exists sn', g' = rest o sn' (S b) /\ (floor sn < floor sn' < B)%nat | inr c => Q c g' end)) ->
  WP (retry fuel body tt) i (rest o sn (S b)) (fun r g' =>
    match r with Some c => Q c g' | None => (fuel + floor sn < B)%nat /\ exists sn', g' = rest o sn' (S b) /\ (floor sn' < B)%nat end).
Proof.
  intros Hfl Hbody. revert sn Hfl. induction fuel as [|fuel IH]; intros sn Hfl; cbn [retry]; [split; [done|by exists sn]|].
  apply wp_bind. eapply wp_mono; [|apply Hbody]. intros [[]|c] g'; [|done].
  intros (sn' & -> & Hlt). eapply wp_mono; [|apply IH; lia]. intros [c|] g'; [done|]. intros [Hf Hg]. split; [lia|done].
Qed.

Lemma wp_pop fuel i o sn b : (floor sn < B)%nat ->
  WP (treiber_pop st fuel) i (rest o sn (S b)) (fun r g' =>
    match r with
    | Some (Some x) => g' = idle (x :: o) b /\ x ∈ N
    | Some None => g' = idle o (S b)
    | None => (fuel < B)%nat /\ exists sn', g' = rest o sn' (S b) /\ (floor sn' < B)%nat
    end).
Proof.
  intros Hfl. unfold treiber_pop. eapply wp_mono; [|apply (wp_rounds fuel _ i o sn b (fun c g' =>
    match c with Some x => g' = idle (x :: o) b /\ x ∈ N | None => g' = idle o (S b) end)); [done|intros sn'; apply wp_pop_round]].
  intros [[x|]|] g'; [done|done|]. intros [Hf Hg]. split; [lia|done].
Qed.

Lemma wp_push fuel i x o sn b : (floor sn < B)%nat ->
  WP (treiber_push st fuel x) i (rest (x :: o) sn (S b)) (fun r g' =>
    match r with
    | Some _ => g' = idle o b
    | None => (fuel < B)%nat /\ exists sn', g' = rest (x :: o) sn' (S b) /\ (floor sn' < B)%nat
    end).
Proof.
  intros Hfl. unfold treiber_push. eapply wp_mono; [|apply (wp_rounds fuel _ i (x :: o) sn b (fun _ g' => g' = idle o b));
    [done|intros sn'; apply wp_push_round]].
  intros [[]|] g'; [done|]. intros [Hf Hg]. split; [lia|done].
Qed.

(** What a thread saw can be forgotten when its operation ends. *)
Definition forget (g : ghost) : ghost := rest (owned g) None (budget g).

Lemma wp_forget {A} (p : prog M A) i o sn b (Q Q' : A -> ghost -> Prop) :
  ((0 < B)%nat -> WP p i (rest o sn (S b)) Q) -> (forall a, p = Ret a -> Q' a (rest o sn (S b))) ->
  (forall a g, Q a g -> Q' a (forget g)) -> WP p i (rest o sn (S b)) Q'.
Proof.
  intros Hp Hret HQ.
  assert (Hgen : forall (p : prog M A) g, WP p i g Q -> (forall a, p = Ret a -> Q' a g) -> WP p i g Q').
  { clear p Hp Hret. induction p as [a|R f k IH]; intros g Hp Hret; cbn in *; [by apply Hret|].
    intros m gs Hg HI. specialize (Hp m gs Hg HI). destruct (f m) as [[r m']|]; [|done]. destruct Hp as (g' & HI' & Hk).
    destruct (k r) as [a|R' f' k'] eqn:E.
    - exists (forget g'). split; [|cbn; by apply HQ]. destruct HI' as (l & T & h & HI'). exists l, T, h.
      rewrite <- (list_insert_insert_eq gs i (forget g') g'). eapply InvAt_know; [done|by eapply list_lookup_insert_eq, lookup_lt_Some|done..].
    - exists g'. split; [done|]. rewrite <- E in *. apply IH; [done|]. by rewrite E. }
  destruct p as [a|R f k]; [by apply Hret|]. intros m gs Hg HI. revert m gs Hg HI.
  destruct (decide (0 < B)%nat) as [H0|H0]; [by apply (Hgen (Atomic f k) _ (Hp H0))|].
  intros m gs Hg (l & T & h & _ & _ & _ & _ & HT & _). pose proof (total_budget_update gs i _ (idle [] 0) Hg). cbn in *. lia.
Qed.

Lemma wp_pop_idle fuel i o b : WP (treiber_pop st fuel) i (idle o (S b)) (fun r g' =>
  match r with Some (Some x) => g' = idle (x :: o) b /\ x ∈ N | _ => g' = idle o (S b) end).
Proof.
  eapply wp_forget; [intros H0; by apply wp_pop|by destruct fuel; intros a [= <-]|].
  intros [[x|]|] g; [by intros [-> ?]|by intros ->|by intros (_ & sn' & -> & _)].
Qed.

Lemma wp_push_idle fuel i x o b : WP (treiber_push st fuel x) i (idle (x :: o) (S b)) (fun r g' =>
  g' = match r with Some _ => idle o b | None => idle (x :: o) (S b) end).
Proof.
  eapply wp_forget; [intros H0; by apply wp_push|by destruct fuel; intros a [= <-]|].
  intros [[]|] g; [by intros ->|by intros (_ & sn' & -> & _)].
Qed.

Lemma wp_stack_client fuel i cs o sn b :
  (length cs <= b)%nat -> (floor sn < B \/ cs = [])%nat -> WP (client st fuel cs o) i (rest o sn b) (fun hand g' => exists sn' b', g' = rest hand sn' b').
Proof.
  revert o sn b. induction cs as [|[] cs IH]; intros o sn b Hb Hfl; cbn [client].
  - by exists sn, b.
  - cbn in Hb. destruct b as [|b]; [lia|]. destruct Hfl as [Hfl|]; [|done]. apply wp_bind. eapply wp_mono; [|by apply wp_pop].
    intros [[x|]|] g'; [intros [-> _]|intros ->|intros (_ & sn' & -> & Hs)]; apply IH; cbn; try lia; auto.
  - destruct Hfl as [Hfl|]; [|done]. destruct o as [|x o]; [apply IH; [cbn in Hb; lia|auto]|]. cbn in Hb. destruct b as [|b]; [lia|].
    apply wp_bind. eapply wp_mono; [|by apply wp_push]. intros [[]|] g'; [intros ->|intros (_ & sn' & -> & Hs)]; apply IH; cbn; try lia; auto.
Qed.

Lemma wp_sure_client fuel i cs o b :
  (B <= fuel)%nat -> (length cs <= b)%nat -> (0 < B \/ cs = [])%nat -> WP (sure_client st fuel cs o) i (idle o b) (fun r _ => r <> None).
Proof.
  intros Hf. revert o b. induction cs as [|[] cs IH]; intros o b Hb H0; cbn [sure_client]; [done|..].
  - cbn in Hb. destruct b as [|b]; [lia|]. destruct H0 as [H0|]; [|done]. unfold fbind. apply wp_bind. eapply wp_mono; [|by apply wp_pop].
    intros [[x|]|] g'; [intros [-> _]|intros ->|intros [? _]; lia]; apply IH; try lia; auto.
  - destruct H0 as [H0|]; [|done]. destruct o as [|x o]; [apply IH; [cbn in Hb; lia|auto]|]. cbn in Hb. destruct b as [|b]; [lia|].
    unfold fbind. apply wp_bind. eapply wp_mono; [|by apply wp_push]. intros [[]|] g'; [intros ->|intros [? _]; lia]. apply IH; [lia|auto].
Qed.
End conc.

(** ** Lengths of programs *)

Fixpoint at_most {S A} (p : prog S A) (n : nat) : Prop :=
  match p with
  | Ret _ => True
  | Atomic _ k => match n with O => False | S n' => forall r, at_most (k r) n' end
  end.

Lemma at_most_bind {S A B} (p : prog S A) (k : A -> prog S B) n n' :
  at_most p n -> (forall a, at_most (k a) n') -> at_most (pbind p k) (n + n').
Proof.
  revert n. induction p as [a|R f k' IH]; intros n Hp Hk; cbn [pbind].
  - specialize (Hk a). revert n' Hk. clear. revert n. induction (k a) as [|R f k' IH]; intros n n' Hk; [done|].
    destruct n' as [|n']; [done|]. rewrite Nat.add_succ_r. cbn. intros r. by apply IH.
  - destruct n as [|n]; [done|]. cbn. intros r. by apply IH.
Qed.

Lemma at_most_retry {S B C} fuel (body : B -> prog S (B + C)) b n : (forall b, at_most (body b) n) -> at_most (retry fuel body b) (fuel * n).
Proof.
  intros Hb. revert b. induction fuel as [|fuel IH]; intros b; cbn [retry]; [done|].
  apply at_most_bind; [apply Hb|]. intros [b'|c]; [apply IH|done].
Qed.

Lemma at_most_pop {M} (st : stack_ops M) fuel : at_most (treiber_pop st fuel) (fuel * 3).
Proof. apply at_most_retry. intros []. cbn. intros cur. destruct (_ =? EMPTY); cbn; done. Qed.

Lemma at_most_push {M} (st : stack_ops M) fuel x : at_most (treiber_push st fuel x) (fuel * 3).
Proof. apply at_most_retry. intros []. cbn. intros cur. by destruct (head_unpack cur) as [tag slot]. Qed.

Lemma at_most_client {M} (st : stack_ops M) fuel cs hand : at_most (sure_client st fuel cs hand) (length cs * (fuel * 3)).
Proof.
  revert hand. induction cs as [|[] cs IH]; intros hand; cbn [sure_client length Nat.mul]; [done|..].
  - apply at_most_bind; [apply at_most_pop|]. intros [r|]; [apply IH|done].
  - destruct hand as [|x hand]; [apply (at_most_bind (Ret tt) (fun _ => sure_client st fuel cs [])); [done|]; intros _; apply IH|].
    apply at_most_bind; [apply at_most_push|]. intros [r|]; [apply IH|done].
Qed.

Lemma schedule_bounded {S A} sched (tp : list (prog S A)) s tp' s' ns :
  Forall2 at_most tp ns -> pool_run sched (tp, s) = Some (tp', s') -> (length sched <= sum_list ns)%nat.
Proof.
  revert tp s ns. induction sched as [|i sched IH]; intros tp s ns Hns Hrun; [cbn; lia|]. cbn in Hrun.
  destruct (tp !! i) as [[a|R f k]|] eqn:Hi; [done| |done]. destruct (f s) as [[r s1]|]; [|done].
  destruct (Forall2_lookup_l _ _ _ _ _ Hns Hi) as (n & Hn & Hle). destruct n as [|n]; [done|].
  assert (H' : Forall2 at_most (<[i := k r]> tp) (<[i := n]> ns)) by (apply Forall2_insert; [done|apply Hle]).
  specialize (IH _ _ _ H' Hrun). pose proof (sum_list_with_insert id ns i _ n Hn) as E. unfold id in *. cbn [length]. lia.
Qed.

(** ** The theorem *)

(** The results of the threads that have finished. *)
Definition finished {M A} (tp : list (prog M A)) : list A :=
  omap (fun p => match p with Ret a => Some a | Atomic _ _ => None end) tp.

Lemma finished_owned {M} (tp : list (prog M (list Z))) gs :
  length tp = length gs ->
  (forall i hand g, tp !! i = Some (Ret hand) -> gs !! i = Some g -> owned g = hand) ->
  concat (finished tp) ⊆+ all_owned gs.
Proof.
  unfold all_owned. revert gs. induction tp as [|p tp IH]; intros [|g gs] Hlen H; csimpl in *; try done.
  assert (IH' : concat (finished tp) ⊆+ concat (owned <$> gs)).
  { apply IH; [lia|]. intros i hand g' Hi Hg. by apply (H (S i)). }
  destruct p as [hand|R f k]; cbn [finished omap list_omap].
  - cbn [concat]. rewrite (H 0%nat hand g eq_refl eq_refl). by apply submseteq_skips_l.
  - etrans; [exact IH'|]. by apply submseteq_inserts_l.
Qed.

Lemma all_finished {M} (hands : list (list Z)) : finished (Ret (S := M) <$> hands) = hands.
Proof. unfold finished. induction hands as [|h hs IH]; [done|]. cbn. by f_equal. Qed.

Section start.
Context {M : Type} {st : stack_ops M} {ok : M -> Prop} {valid : Z -> Prop}.
Context (m0 : M) (l0 : list Z) (threads : list (list cmd * list Z)).

Definition nodes : list Z := l0 ++ concat (snd <$> threads).
Definition swaps : nat := sum_list_with (fun t => length t.1) threads.
Definition start_ghosts : list ghost := (fun t : list cmd * list Z => idle t.2 (length t.1)) <$> threads.

Lemma Inv_stack_start t0 h0 :
  ok m0 -> is_u32 t0 -> s_head st m0 = head_pack t0 h0 -> chain st m0 h0 l0 ->
  Inv (st := st) (ok := ok) nodes t0 swaps m0 start_ghosts.
Proof.
  intros Hok Ht0 E0 Hc0. exists l0, 0%nat, h0. split_and!; try done.
  - unfold tag_at. by rewrite Z.add_0_r, wrap32_id.
  - unfold all_owned, start_ghosts, nodes. by rewrite <- list_fmap_compose.
  - unfold total_budget, start_ghosts, swaps. clear. induction threads as [|t ts IH]; [done|]. cbn in *. lia.
  - intros j g Hj. unfold start_ghosts in Hj. rewrite list_lookup_fmap in Hj. by destruct (threads !! j); simplify_eq/=.
Qed.

Lemma swaps_pos i cs hand : threads !! i = Some (cs, hand) -> (0 < swaps \/ cs = [])%nat.
Proof.
  intros Hi. destruct cs as [|c cs]; [by right|left]. unfold swaps. apply list_elem_of_lookup_2 in Hi.
  induction threads as [|t ts IH]; [by apply not_elem_of_nil in Hi|]. cbn. apply elem_of_cons in Hi as [<-|Hi]; [cbn; lia|]. specialize (IH Hi). lia.
Qed.

Lemma clients_ok t0 fuel :
  stack_laws st ok valid -> NoDup nodes -> (forall i, i ∈ nodes -> valid i /\ is_u32 i /\ i <> EMPTY) -> Z.of_nat swaps < U32_MOD ->
  pool_ok (Inv (st := st) (ok := ok) nodes t0 swaps) (fun hand g => exists sn b, g = rest hand sn b)
    ((fun t => client st fuel t.1 t.2) <$> threads) start_ghosts.
Proof.
  intros laws HN Hnode HB. unfold start_ghosts. split; [by rewrite !length_fmap|]. intros i p g Hp Hg. rewrite list_lookup_fmap in Hp. rewrite list_lookup_fmap in Hg.
  destruct (threads !! i) as [[cs hand]|] eqn:Hi; [|done]. simplify_eq/=.
  apply (wp_stack_client laws nodes t0 swaps HN Hnode HB); [done|by apply (swaps_pos i cs hand)].
Qed.

Lemma sure_clients_ok t0 fuel :
  stack_laws st ok valid -> NoDup nodes -> (forall i, i ∈ nodes -> valid i /\ is_u32 i /\ i <> EMPTY) -> Z.of_nat swaps < U32_MOD ->
  (swaps <= fuel)%nat ->
  pool_ok (Inv (st := st) (ok := ok) nodes t0 swaps) (fun r _ => r <> None) ((fun t => sure_client st fuel t.1 t.2) <$> threads) start_ghosts.
Proof.
  intros laws HN Hnode HB Hf. unfold start_ghosts. split; [by rewrite !length_fmap|]. intros i p g Hp Hg. rewrite list_lookup_fmap in Hp. rewrite list_lookup_fmap in Hg.
  destruct (threads !! i) as [[cs hand]|] eqn:Hi; [|done]. simplify_eq/=.
  apply (wp_sure_client laws nodes t0 swaps HN Hnode HB); [done|done|by apply (swaps_pos i cs hand)].
Qed.
End start.

(** C29. No interleaving duplicates, loses or invents a node.  Any number of threads pop
    and push, each pushing only nodes it holds, on any stack of the workspace, for fewer
    than 2^32 operations in all.  In every reachable state no access is out of bounds, the
    memory spells a stack, and the nodes on it together with those in the hands of finished
    threads are distinct nodes of the initial ones; when all threads have finished they are
    exactly the initial ones.  In particular no node is popped by two threads, whatever is
    popped, relinked and pushed back between a thread's read of a link and its swap. *)
Theorem stack_nodes_conserved {M : Type} (st : stack_ops M) ok valid fuel m0 l0 (threads : list (list cmd * list Z)) tp m :
  stack_laws st ok valid -> ok m0 -> holds st m0 l0 ->
  NoDup (l0 ++ concat (snd <$> threads)) ->
  (forall i, i ∈ l0 ++ concat (snd <$> threads) -> valid i /\ is_u32 i /\ i <> Treiber.EMPTY) ->
  Z.of_nat (sum_list_with (fun t => length t.1) threads) < U32_MOD ->
  pool_reach ((fun t => client st fuel t.1 t.2) <$> threads, m0) (tp, m) ->
  ~ pool_stuck (tp, m) /\
  exists l, holds st m l /\ l ++ concat (finished tp) ⊆+ l0 ++ concat (snd <$> threads) /\
    forall hands, tp = Ret <$> hands -> l ++ concat hands ≡ₚ l0 ++ concat (snd <$> threads).
Proof.
  intros laws Hok [Hnd0 (t0 & h0 & Ht0 & Hh0 & E0 & Hc0)] HN Hnode HB Hreach.
  destruct (pool_ok_reach (Inv (st := st) (ok := ok) (nodes l0 threads) t0 (swaps threads)) _ _ _ _ _ _ Hreach
    (clients_ok l0 threads t0 fuel laws HN Hnode HB) (Inv_stack_start m0 l0 threads t0 h0 Hok Ht0 E0 Hc0)) as (gs & Hok' & HI).
  split; [by eapply pool_ok_not_stuck|].
  destruct HI as (l & T & h & HI). pose proof HI as (Hokm & Eh & Hc & Hp & _).
  assert (Hsub : concat (finished tp) ⊆+ all_owned gs).
  { destruct Hok' as [Hlen Hall]. apply finished_owned; [done|]. intros i hand g Hi Hg.
    destruct (Hall i _ g Hi Hg) as (sn & b & ->). done. }
  exists l. split_and!.
  - split; [by apply (InvAt_nodup (nodes l0 threads) t0 (swaps threads) HN) in HI as (? & _)%list.NoDup_app|]. exists (tag_at t0 T), h.
    split_and!; [apply tag_u32| |done|done]. by eapply chain_head_u32.
  - rewrite <- Hp. by apply submseteq_skips_l.
  - intros hands ->. rewrite all_finished in Hsub. rewrite <- Hp. apply Permutation_app_head.
    destruct Hok' as [Hlen Hall]. rewrite length_fmap in Hlen.
    assert (Eg : owned <$> gs = hands); [|unfold all_owned; by rewrite Eg].
    apply list_eq_same_length with (n := length hands); [by rewrite ?length_fmap|by rewrite ?length_fmap|].
    intros i x y Hi Hx Hy. rewrite list_lookup_fmap in Hx. destruct (gs !! i) as [g|] eqn:Hg; [|done]. simplify_eq/=.
    destruct (Hall i (Ret y) g) as (sn & b & ->); [by rewrite list_lookup_fmap, Hy|done|done].
Qed.

(** C20. The stacks are lock-free, with a bound.  Any number of threads pop and push as in
    [stack_nodes_conserved], [n] operations in all, each of at most [fuel >= n] rounds.  A
    round is lost only to a successful swap of another operation, so however the threads are
    interleaved: no access is out of bounds, so every unfinished thread can go on; every
    execution ends, after at most [3 * fuel * n] accesses; and no operation ever runs out of
    rounds. *)
Theorem stack_operations_terminate {M : Type} (st : stack_ops M) ok valid fuel m0 l0 (threads : list (list cmd * list Z)) sched tp m :
  let n := sum_list_with (fun t => length t.1) threads in
  stack_laws st ok valid -> ok m0 -> holds st m0 l0 ->
  NoDup (l0 ++ concat (snd <$> threads)) ->
  (forall i, i ∈ l0 ++ concat (snd <$> threads) -> valid i /\ is_u32 i /\ i <> Treiber.EMPTY) ->
  Z.of_nat n < U32_MOD -> (n <= fuel)%nat ->
  pool_run sched ((fun t => sure_client st fuel t.1 t.2) <$> threads, m0) = Some (tp, m) ->
  ~ pool_stuck (tp, m) /\ (length sched <= 3 * fuel * n)%nat /\ forall i r, tp !! i = Some (Ret r) -> r <> None.
Proof.
  intros n laws Hok [Hnd0 (t0 & h0 & Ht0 & Hh0 & E0 & Hc0)] HN Hnode HB Hf Hrun.
  destruct (pool_ok_reach (Inv (st := st) (ok := ok) (nodes l0 threads) t0 (swaps threads)) _ _ _ _ _ _ (pool_run_reach _ _ _ Hrun)
    (sure_clients_ok l0 threads t0 fuel laws HN Hnode HB Hf) (Inv_stack_start m0 l0 threads t0 h0 Hok Ht0 E0 Hc0)) as (gs & Hok' & HI).
  split; [by eapply pool_ok_not_stuck|]. split.
  { etrans; [apply (schedule_bounded sched ((fun t => sure_client st fuel t.1 t.2) <$> threads) m0 tp m ((fun t => length t.1 * (fuel * 3))%nat <$> threads)); [|exact Hrun]|].
    - apply Forall2_fmap, Forall_Forall2_diag, Forall_true. intros t. cbn. apply at_most_client.
    - unfold n. clear. induction threads as [|t ts IH]; [cbn; lia|]. cbn in *. lia. }
  intros i r Hi. destruct Hok' as [Hlen Hall].
  destruct (lookup_lt_is_Some_2 gs i) as [g Hg]; [rewrite <- Hlen; by eapply lookup_lt_Some|]. exact (Hall i _ g Hi Hg).
Qed.

(** The lease list of a fresh queue of two slots: four records. *)
Definition aba_mem : QueueMem :=
  match init_with_max_retries 0 (required_bytes 2) 2 1 with Ok (_, m) => m | Err _ => mkQueueMem 0 0 0 0 0 0 0 0 0 [] [] [] [] ∅ end.

Definition aba_threads : list (list cmd * list Z) := [([CPop], []); ([CPop; CPush], []); ([CPop], [])].

(** Thread 0 reads the head (node 0) and its link (node 1); thread 1 pops node 0, thread 2
    pops node 1, thread 1 pushes node 0 back; thread 0's swap then finds node 0 on top again. *)
Definition aba_schedule : list nat := [0; 0; 1; 1; 1; 2; 2; 2; 1; 1; 1; 0; 0; 0; 0]%nat.

Lemma aba_holds : holds lease_stack aba_mem [0; 1; 2; 3].
Proof.
  split; [apply (bool_decide_unpack _); vm_compute; exact I|]. exists 0, 0. split_and!; [mach|mach|reflexivity|].
  cbn [chain]. repeat (split; [done|]; split; [mach|]; split; [done|]; eexists; split; [reflexivity|]). reflexivity.
Qed.

Lemma aba_nodes i : i ∈ [0; 1; 2; 3] ++ concat (snd <$> aba_threads) -> below 4 i /\ is_u32 i /\ i <> EMPTY.
Proof. intros Hi. change (i ∈ [0; 1; 2; 3]) in Hi. rewrite !elem_of_cons, elem_of_nil in Hi. unfold below, EMPTY. split_and!; mach. Qed.

Lemma stack_nodes_conserved_witness : exists m,
  pool_run aba_schedule ((fun t => client lease_stack 3 t.1 t.2) <$> aba_threads, aba_mem) = Some (Ret <$> [[0]; []; [1]], m) /\
  exists l, holds lease_stack m l /\ l ++ concat [[0]; []; [1]] ≡ₚ [0; 1; 2; 3].
Proof.
  eexists. split; [vm_compute; reflexivity|].
  eassert (Hrun : pool_run aba_schedule ((fun t => client lease_stack 3 t.1 t.2) <$> aba_threads, aba_mem)
    = Some (Ret <$> [[0]; []; [1]], _)) by (vm_compute; reflexivity).
  edestruct (stack_nodes_conserved lease_stack (fun m => length (leases m) = 4%nat) (below 4) 3 aba_mem [0; 1; 2; 3] aba_threads)
    as [_ (l & Hl & _ & Hp)]; [exact (lease_stack_laws 4)|reflexivity| | | |vm_compute; reflexivity|exact (pool_run_reach _ _ _ Hrun)|].
  - exact aba_holds.
  - apply (bool_decide_unpack _). vm_compute. exact I.
  - exact aba_nodes.
  - exists l. split; [exact Hl|]. exact (Hp [[0]; []; [1]] eq_refl).
Defined.

Lemma stack_operations_terminate_witness : exists tp m,
  pool_run aba_schedule ((fun t => sure_client lease_stack 4 t.1 t.2) <$> aba_threads, aba_mem) = Some (tp, m) /\
  ~ pool_stuck (tp, m) /\ (length aba_schedule <= 48)%nat /\ forall i r, tp !! i = Some (Ret r) -> r <> None.
Proof.
  eexists _, _. split; [vm_compute; reflexivity|].
  apply (stack_operations_terminate lease_stack (fun m => length (leases m) = 4%nat) (below 4) 4 aba_mem [0; 1; 2; 3] aba_threads aba_schedule).
  - exact (lease_stack_laws 4).
  - reflexivity.
  - exact aba_holds.
  - apply (bool_decide_unpack _). vm_compute. exact I.
  - exact aba_nodes.
  - vm_compute. reflexivity.
  - apply (bool_decide_unpack _). vm_compute. exact I.
  - vm_compute. reflexivity.
Defined.
