(* ===== verification/Head.v ===== *)
(** * The artifact head

    [src/crates/shm-artifact/src/head.rs]: the control block of one versioned
    artifact.  It names the current version and its manifest, holds the fenced write
    lease, the incarnation in service, and the table of live versions, each with its
    pin count and its FREE / LIVE / FREEING state.

    Every method is a program over the head ([Atomic.prog]), one node per atomic
    access; the methods of one pin slot are programs over the slot, run inside the
    head by [slot_at]. *)

From S2P Require Import Prelude Atomic.

Definition HEAD_MAGIC : Z := of_le [83; 72; 77; 65; 72; 69; 65; 51]. (* b"SHMAHEA3" *)
Definition NO_INCARNATION : Z := 0.
Definition FIRST_INCARNATION : Z := 1.
Definition NO_VERSION : Z := 0.
Definition OWNER_NONE : Z := 0.
Definition MAX_LIVE_VERSIONS : nat := 64.
Definition SLOT_FREE : Z := 0.
Definition SLOT_LIVE : Z := 1.
Definition SLOT_FREEING : Z := 2.

(** ** The packed write lease *)

Definition pack_lease (owner fence : Z) : Z := Z.lor (Z.shiftl owner 32) fence.
Definition lease_owner (packed : Z) : Z := wrap32 (Z.shiftr packed 32).
Definition lease_fence (packed : Z) : Z := wrap32 packed.

Arguments pack_lease : simpl never.
Arguments lease_owner : simpl never.
Arguments lease_fence : simpl never.

Lemma lease_owner_pack o f : is_u32 o -> is_u32 f -> lease_owner (pack_lease o f) = o.
Proof. exact (hi32_join o f). Qed.

Lemma lease_fence_pack o f : is_u32 f -> lease_fence (pack_lease o f) = f.
Proof. exact (lo32_join o f). Qed.

(** ** Pin slots *)

Record PinSlot : Set := mkPinSlot { version : Z; manifest : Z; pins : Z; state : Z }.

#[export] Instance PinSlot_eq_dec : EqDecision PinSlot.
Proof. solve_decision. Defined.

Definition set_version (v : Z) (s : PinSlot) : PinSlot := mkPinSlot v (manifest s) (pins s) (state s).
Definition set_manifest (m : Z) (s : PinSlot) : PinSlot := mkPinSlot (version s) m (pins s) (state s).
Definition set_pins (n : Z) (s : PinSlot) : PinSlot := mkPinSlot (version s) (manifest s) n (state s).
Definition set_state (x : Z) (s : PinSlot) : PinSlot := mkPinSlot (version s) (manifest s) (pins s) x.

Definition publish_pin : prog PinSlot unit := fetch_add32 pins set_pins 1 ;;; Ret tt.

Definition accept_pin (v : Z) : prog PinSlot bool :=
  st <- load state ;;
  if negb (st =? SLOT_LIVE) then Ret false
  else
    w <- load version ;;
    Ret (w =? v).

Definition unpin : prog PinSlot Z := fetch_add32 pins set_pins (-1).

Definition try_unpin (fuel : nat) : prog PinSlot (option (option Z)) :=
  cur <- load pins ;;
  retry fuel (fun cur =>
    if cur =? 0 then Ret (inr None)
    else
      r <- cas pins set_pins cur (cur - 1) ;;
      Ret (if r.1 then inr (Some r.2) else inl r.2)) cur.

Definition elect_freeing : prog PinSlot bool :=
  r <- cas state set_state SLOT_LIVE SLOT_FREEING ;; Ret r.1.

Definition pin_scan : prog PinSlot Z := load pins.

Definition revert_live : prog PinSlot unit := store (set_state SLOT_LIVE).

Definition store_free : prog PinSlot unit :=
  store (set_version 0) ;;; store (set_manifest 0) ;;; store (set_state SLOT_FREE).

(** ** The head *)

Record ArtifactHead : Set := mkHead {
  magic : Z;
  current : Z;
  manifest_desc : Z;
  write_lease : Z;
  schema_id : Z;
  head_incarnation : Z;
  pin_table : list PinSlot
}.

Definition set_current (v : Z) (h : ArtifactHead) : ArtifactHead :=
  mkHead (magic h) v (manifest_desc h) (write_lease h) (schema_id h) (head_incarnation h) (pin_table h).
Definition set_manifest_desc (v : Z) (h : ArtifactHead) : ArtifactHead :=
  mkHead (magic h) (current h) v (write_lease h) (schema_id h) (head_incarnation h) (pin_table h).
Definition set_write_lease (v : Z) (h : ArtifactHead) : ArtifactHead :=
  mkHead (magic h) (current h) (manifest_desc h) v (schema_id h) (head_incarnation h) (pin_table h).
Definition set_schema_id (v : Z) (h : ArtifactHead) : ArtifactHead :=
  mkHead (magic h) (current h) (manifest_desc h) (write_lease h) v (head_incarnation h) (pin_table h).
Definition set_incarnation (v : Z) (h : ArtifactHead) : ArtifactHead :=
  mkHead (magic h) (current h) (manifest_desc h) (write_lease h) (schema_id h) v (pin_table h).
Definition set_pin_table (v : list PinSlot) (h : ArtifactHead) : ArtifactHead :=
  mkHead (magic h) (current h) (manifest_desc h) (write_lease h) (schema_id h) (head_incarnation h) v.

Definition slot_at {A} (i : nat) (p : prog PinSlot A) : prog ArtifactHead A :=
  lift (elem pin_table set_pin_table i) p.

Definition slot_indices : list nat := seq 0 MAX_LIVE_VERSIONS.

Definition region_bytes : Z := 40 + Z.of_nat MAX_LIVE_VERSIONS * 24.

Definition fresh : ArtifactHead :=
  mkHead HEAD_MAGIC NO_VERSION 0 (pack_lease OWNER_NONE 0) 0 NO_INCARNATION
    (replicate MAX_LIVE_VERSIONS (mkPinSlot 0 0 0 SLOT_FREE)).

Definition check_magic : prog ArtifactHead bool := m <- load magic ;; Ret (m =? HEAD_MAGIC).

Definition incarnation : prog ArtifactHead Z := load head_incarnation.

Definition is_incarnation (expected : Z) : prog ArtifactHead bool :=
  i <- load head_incarnation ;; Ret (i =? expected).

Definition revalidate_incarnation (expected : Z) : prog ArtifactHead bool := is_incarnation expected.

(** [swap]: returns the incarnation that was in service. *)
Definition retire : prog ArtifactHead Z :=
  act (fun h => Some (head_incarnation h, set_incarnation NO_INCARNATION h)).

(** The scan stops at the first slot that is in use. *)
Definition slot_busy (i : nat) : prog ArtifactHead (option bool) :=
  st <- slot_at i (load state) ;;
  if negb (st =? SLOT_FREE) then Ret (Some false)
  else
    n <- slot_at i pin_scan ;;
    Ret (if n =? 0 then None else Some false).

Definition is_quiescent : prog ArtifactHead bool :=
  c <- load current ;;
  if negb (c =? NO_VERSION) then Ret false
  else
    l <- load write_lease ;;
    if negb (lease_owner l =? OWNER_NONE) then Ret false
    else
      r <- for_each slot_indices slot_busy ;;
      Ret (match r with None => true | Some b => b end).

Definition commission (inc : Z) : prog ArtifactHead unit := store (set_incarnation inc).

Definition find_slot_with_manifest (v manifest_bits : Z) : prog ArtifactHead (option nat) :=
  for_each slot_indices (fun i =>
    st <- slot_at i (load state) ;;
    if negb (st =? SLOT_LIVE) then Ret None
    else
      w <- slot_at i (load version) ;;
      if negb (w =? v) then Ret None
      else
        m <- slot_at i (load manifest) ;;
        Ret (if m =? manifest_bits then Some i else None)).

Definition find_slot (v : Z) : prog ArtifactHead (option nat) :=
  for_each slot_indices (fun i =>
    st <- slot_at i (load state) ;;
    if negb (st =? SLOT_LIVE) then Ret None
    else
      w <- slot_at i (load version) ;;
      Ret (if w =? v then Some i else None)).

Definition claim_slot (v m : Z) : prog ArtifactHead (option nat) :=
  for_each slot_indices (fun i =>
    r <- slot_at i (cas state set_state SLOT_FREE SLOT_LIVE) ;;
    if r.1 then
      slot_at i (store (set_manifest m)) ;;;
      slot_at i (store (set_version v)) ;;;
      Ret (Some i)
    else Ret None).

(** ** The fenced write lease *)

Definition cas_lease (old new : Z) : prog ArtifactHead (bool * Z) :=
  cas write_lease set_write_lease old new.

Definition acquire_write_lease (fuel : nat) (owner : Z) : prog ArtifactHead (option (option Z)) :=
  retry fuel (fun _ : unit =>
    cur <- load write_lease ;;
    if negb (lease_owner cur =? OWNER_NONE) then Ret (inr None)
    else
      let fence := lease_fence cur in
      r <- cas_lease cur (pack_lease owner fence) ;;
      Ret (if r.1 then inr (Some fence) else inl tt)) tt.

Definition lease_held_by (owner fence : Z) : prog ArtifactHead bool :=
  l <- load write_lease ;; Ret (l =? pack_lease owner fence).

Definition release_write_lease (owner token : Z) : prog ArtifactHead bool :=
  r <- cas_lease (pack_lease owner token) (pack_lease OWNER_NONE (wrap32 (token + 1))) ;;
  Ret r.1.

Definition force_release_write_lease (fuel : nat) : prog ArtifactHead (option bool) :=
  retry fuel (fun _ : unit =>
    cur <- load write_lease ;;
    if lease_owner cur =? OWNER_NONE then Ret (inr false)
    else
      let fence := lease_fence cur in
      r <- cas_lease cur (pack_lease OWNER_NONE (wrap32 (fence + 1))) ;;
      Ret (if r.1 then inr true else inl tt)) tt.

Definition write_lease_owner : prog ArtifactHead Z :=
  l <- load write_lease ;; Ret (lease_owner l).
