(* ===== verification/HeadLease.v ===== *)
(** * The write lease is fenced

    Any number of threads call any methods of one artifact head, with any arguments:
    writers that acquire, commit and release, a coordinator that forces leases free,
    zombies that release or validate tokens they lost long ago.  The fence in the lease
    word moves at every release and never at an acquisition, which is what makes a lost
    token worthless. *)

From S2P Require Import Prelude Atomic Head.

(** ** Clients: every method of the head *)

Inductive head_call : Set :=
| HPublishPin (i : nat) | HAcceptPin (i : nat) (v : Z) | HUnpin (i : nat) | HTryUnpin (i : nat)
| HElectFreeing (i : nat) | HPinScan (i : nat) | HRevertLive (i : nat) | HStoreFree (i : nat)
| HFindSlot (v : Z) | HFindSlotWith (v m : Z) | HClaimSlot (v m : Z)
| HRevalidate (inc : Z) | HRetire | HIsQuiescent | HCommission (inc : Z)
| HAcquire (owner : Z) | HHeldBy (owner token : Z) | HRelease (owner token : Z) | HForceRelease
| HInstall (expect target m : Z).

Definition quiet {A} (p : prog ArtifactHead A) : prog ArtifactHead unit := p ;;; Ret tt.

Definition call (fuel : nat) (c : head_call) : prog ArtifactHead unit :=
  match c with
  | HPublishPin i => slot_at i publish_pin
  | HAcceptPin i v => quiet (slot_at i (accept_pin v))
  | HUnpin i => quiet (slot_at i unpin)
  | HTryUnpin i => quiet (slot_at i (try_unpin fuel))
  | HElectFreeing i => quiet (slot_at i elect_freeing)
  | HPinScan i => quiet (slot_at i pin_scan)
  | HRevertLive i => slot_at i revert_live
  | HStoreFree i => slot_at i store_free
  | HFindSlot v => quiet (find_slot v)
  | HFindSlotWith v m => quiet (find_slot_with_manifest v m)
  | HClaimSlot v m => quiet (claim_slot v m)
  | HRevalidate inc => quiet (revalidate_incarnation inc)
  | HRetire => quiet retire
  | HIsQuiescent => quiet is_quiescent
  | HCommission inc => commission inc
  | HAcquire o => quiet (acquire_write_lease fuel o)
  | HHeldBy o t => quiet (lease_held_by o t)
  | HRelease o t => quiet (release_write_lease o t)
  | HForceRelease => quiet (force_release_write_lease fuel)
  | HInstall e t m =>
      r <- cas current set_current e t ;;
      if r.1 then store (set_manifest_desc m) else Ret tt
  end.

Fixpoint calls (fuel : nat) (cs : list head_call) : prog ArtifactHead unit :=
  match cs with
  | [] => Ret tt
  | c :: cs' => call fuel c ;;; calls fuel cs'
  end.

(** Writers are named by non-zero actor ids, and tokens are fences. *)
Definition call_ok (c : head_call) : Prop :=
  match c with
  | HAcquire o => is_u32 o /\ o <> OWNER_NONE
  | HRelease o t => is_u32 o /\ o <> OWNER_NONE /\ is_u32 t
  | _ => True
  end.

(** The calls that may move the fence. *)
Definition fencing (c : head_call) : nat :=
  match c with HRelease _ _ | HForceRelease => 1 | _ => 0 end.

(** ** What the methods do to the lease *)

Definition lease_kept (h h' : ArtifactHead) : Prop :=
  write_lease h' = write_lease h \/
  lease_owner (write_lease h) = OWNER_NONE /\ lease_owner (write_lease h') <> OWNER_NONE /\
  lease_fence (write_lease h') = lease_fence (write_lease h).

Definition lease_fenced (h h' : ArtifactHead) : Prop :=
  lease_owner (write_lease h) <> OWNER_NONE /\ lease_owner (write_lease h') = OWNER_NONE /\
  lease_fence (write_lease h') = wrap32 (lease_fence (write_lease h) + 1).

Abbreviation costs := (spends lease_kept lease_fenced).

Lemma costs_slot {A} i (p : prog PinSlot A) : costs (slot_at i p) 0.
Proof.
  induction p as [a|R f k IH]; [done|]. cbn. intros h r h'. unfold elem.
  destruct (pin_table h !! i) as [c|]; [|done]. destruct (f c) as [[r0 c']|]; [|done].
  intros [= -> <-]. left. split; [by left|apply IH].
Qed.

Lemma costs_keep {A} {R : Set} (f : ArtifactHead -> option (R * ArtifactHead)) (k : R -> prog ArtifactHead A) n :
  (forall h r h', f h = Some (r, h') -> write_lease h' = write_lease h) -> (forall r, costs (k r) n) ->
  costs (Atomic f k) n.
Proof. intros Hf Hk h r h' E. left. split; [left; eauto|apply Hk]. Qed.

Lemma costs_load {R : Set} (f : ArtifactHead -> R) : costs (load f) 0.
Proof. apply costs_keep; [naive_solver|done]. Qed.

Lemma costs_bind {A B} (p : prog ArtifactHead A) (k : A -> prog ArtifactHead B) n :
  costs p 0 -> (forall a, costs (k a) n) -> costs (pbind p k) n.
Proof. exact (spends_bind lease_kept lease_fenced p k 0 n). Qed.

Lemma costs_quiet {A} (p : prog ArtifactHead A) n : costs p n -> costs (quiet p) n.
Proof. intros H. unfold quiet. rewrite <- (Nat.add_0_r n). by apply spends_bind. Qed.

Lemma costs_for_each {X C} (xs : list X) (body : X -> prog ArtifactHead (option C)) :
  (forall x, costs (body x) 0) -> costs (for_each xs body) 0.
Proof.
  intros Hb. induction xs as [|x xs IH]; [done|]. cbn [for_each]. apply costs_bind; [apply Hb|].
  by intros [c|].
Qed.

Lemma costs_if {A} (b : bool) (p q : prog ArtifactHead A) n :
  costs p n -> costs q n -> costs (if b then p else q) n.
Proof. by destruct b. Qed.

Ltac costs :=
  repeat lazymatch goal with
  | |- forall _, _ => intros
  | |- costs (Ret _) _ => exact I
  | |- costs (slot_at _ _) 0 => apply costs_slot
  | |- costs (load _) 0 => apply costs_load
  | |- costs (if _ then _ else _) _ => apply costs_if
  | |- costs (for_each _ _) 0 => apply costs_for_each
  | |- costs (pbind _ _) _ => apply costs_bind
  end.

Lemma costs_acquire fuel o : is_u32 o -> o <> OWNER_NONE -> costs (acquire_write_lease fuel o) 0.
Proof.
  intros Ho Hne. apply spends_retry. intros _ k Hl Hr. cbn. intros h r h' [= <- <-]. left. split; [by left|].
  destruct (negb _) eqn:E; [apply Hr|]. cbn. apply negb_false_iff, Z.eqb_eq in E.
  intros h1 r1 h1'. destruct (Z.eqb_spec (write_lease h1) (write_lease h)) as [Ew|]; intros [= <- <-]; left; cbn;
    (split; [|first [apply Hl|apply Hr]]); [|by left].
  right. rewrite Ew. cbn [write_lease set_write_lease]. rewrite lease_owner_pack, lease_fence_pack by (done || apply wrap32_u32). done.
Qed.

Lemma costs_release o t : is_u32 o -> o <> OWNER_NONE -> is_u32 t -> costs (release_write_lease o t) 1.
Proof.
  intros Ho Hne Ht h r h'. cbn. destruct (Z.eqb_spec (write_lease h) (pack_lease o t)) as [Ew|]; intros [= <- <-].
  - right. exists 0%nat. split_and!; [done| |done]. unfold lease_fenced. cbn. rewrite Ew.
    rewrite !lease_owner_pack, !lease_fence_pack by (done || apply wrap32_u32). done.
  - left. split; [by left|done].
Qed.

Lemma costs_force fuel : costs (force_release_write_lease fuel) 1.
Proof.
  apply spends_retry. intros _ k Hl Hr. cbn. intros h r h' [= <- <-]. left. split; [by left|].
  destruct (_ =? OWNER_NONE) eqn:E; [eapply spends_mono; [|apply Hr]; lia|]. cbn. apply Z.eqb_neq in E.
  intros h1 r1 h1'. destruct (Z.eqb_spec (write_lease h1) (write_lease h)) as [Ew|]; intros [= <- <-]; cbn;
    [right|left; split; [by left|apply Hl]].
  exists 0%nat. split_and!; [done| |apply Hr]. unfold lease_fenced. cbn. rewrite Ew.
  rewrite lease_owner_pack, lease_fence_pack by (done || apply wrap32_u32). done.
Qed.

Lemma costs_call fuel c : call_ok c -> costs (call fuel c) (fencing c).
Proof.
  destruct c; cbn [call call_ok fencing]; intros Hok;
    lazymatch goal with
    | |- costs (slot_at _ _) _ => apply costs_slot
    | |- costs (quiet (slot_at _ _)) _ => apply costs_quiet, costs_slot
    | |- costs (quiet _) _ => apply costs_quiet
    | |- _ => idtac
    end.
  - unfold find_slot. costs.
  - unfold find_slot_with_manifest. costs.
  - unfold claim_slot. costs.
  - unfold revalidate_incarnation, is_incarnation. costs.
  - apply costs_keep; [naive_solver|done].
  - unfold is_quiescent, slot_busy. costs.
  - apply costs_keep; [naive_solver|done].
  - destruct Hok. by apply costs_acquire.
  - unfold lease_held_by. costs.
  - destruct Hok as (? & ? & ?). by apply costs_release.
  - apply costs_force.
  - apply costs_keep; [intros h r h'; case_match; naive_solver|]. intros r. apply costs_if; [|done].
    apply costs_keep; [naive_solver|done].
Qed.

Lemma costs_calls fuel cs : Forall call_ok cs -> costs (calls fuel cs) (sum_list_with fencing cs).
Proof.
  induction 1 as [|c cs Hc _ IH]; [done|]. cbn [calls]. apply (spends_bind _ _ _ _ (fencing c)); [by apply costs_call|done].
Qed.

(** ** The life of a fence *)

Lemma lease_fence_u32 w : is_u32 (lease_fence w).
Proof. apply wrap32_u32. Qed.

Lemma changes_fence n h h' :
  changes lease_kept lease_fenced n h h' ->
  lease_fence (write_lease h') = wrap32 (lease_fence (write_lease h) + Z.of_nat n).
Proof.
  induction 1 as [h|n h h' h'' [E|(_ & _ & E)] _ IH|n h h' h'' (_ & _ & E) _ IH].
  - rewrite Z.add_0_r. symmetry. apply wrap32_id, lease_fence_u32.
  - by rewrite IH, E.
  - by rewrite IH, E.
  - rewrite IH, E. unfold wrap32, wrap. rewrite Zplus_mod_idemp_l. f_equal. lia.
Qed.

(** A held lease only changes by being fenced. *)
Lemma changes_held n h h' :
  changes lease_kept lease_fenced n h h' -> lease_owner (write_lease h) <> OWNER_NONE ->
  write_lease h' <> write_lease h -> (0 < n)%nat.
Proof.
  induction 1 as [h|n h h' h'' [E|(E & _)] _ IH|]; intros Ho Hne; [done| |done|lia].
  apply IH; by rewrite E.
Qed.

Lemma fence_moved f n : is_u32 f -> (0 < n)%nat -> Z.of_nat n < U32_MOD -> wrap32 (f + Z.of_nat n) <> f.
Proof.
  intros Hf Hn Hlt E. unfold wrap32, wrap in E. change (2 ^ 32) with U32_MOD in E.
  assert (f mod U32_MOD = f) by (apply Z.mod_small; mach).
  assert ((f + Z.of_nat n) mod U32_MOD = f mod U32_MOD) as H2 by congruence.
  unfold U32_MOD in *. Z.div_mod_to_equations. lia.
Qed.

Section fencing.
Context (fuel : nat) (scripts : list (list head_call)).
Context (scripts_ok : Forall (Forall call_ok) scripts).
Context (few : Z.of_nat (sum_list_with (sum_list_with fencing) scripts) < U32_MOD).

Lemma lease_history h0 tp1 h1 tp2 h2 tp3 h3 :
  pool_reach (calls fuel <$> scripts, h0) (tp1, h1) -> pool_reach (tp1, h1) (tp2, h2) ->
  pool_reach (tp2, h2) (tp3, h3) ->
  exists n m, changes lease_kept lease_fenced n h1 h2 /\ changes lease_kept lease_fenced m h2 h3 /\
    Z.of_nat (n + m) < U32_MOD.
Proof.
  intros R1 R2 R3.
  destruct (pool_changes lease_kept lease_fenced _ _ _ _ (sum_list_with fencing <$> scripts) R1)
    as (n1 & ns1 & _ & E1 & L1 & S1).
  { by rewrite !length_fmap. }
  { intros i p n Hp Hn. rewrite list_lookup_fmap in Hp. rewrite list_lookup_fmap in Hn.
    destruct (scripts !! i) as [cs|] eqn:Ei; [|done]. simplify_eq/=. apply costs_calls.
    by eapply (proj1 (list.Forall_lookup _ _)). }
  destruct (pool_changes lease_kept lease_fenced _ _ _ _ ns1 R2 L1 S1) as (n2 & ns2 & C2 & E2 & L2 & S2).
  destruct (pool_changes lease_kept lease_fenced _ _ _ _ ns2 R3 L2 S2) as (n3 & ns3 & C3 & E3 & _ & _).
  exists n2, n3. split_and!; [done|done|].
  assert (sum_list (sum_list_with fencing <$> scripts) = sum_list_with (sum_list_with fencing) scripts) as E
    by (clear; induction scripts as [|cs l IH]; [done|]; csimpl; cbn; by rewrite IH).
  lia.
Qed.
End fencing.

(** C30. A fenced lease stays fenced.  Threads call any methods of the head in any
    interleaving, with fewer than 2^32 releases and forced releases in all.  If at some
    point the lease is held as [{o, t}] and at a later point it no longer reads so, then
    at every point after that the token [t] is worthless: the commit guard
    [lease_held_by] rejects it under every owner name, a release with it is refused and
    changes nothing, and no acquisition ever hands it out again. *)
Theorem fenced_token_never_valid_again fuel scripts h0 tp1 h1 tp2 h2 tp3 h3 o t :
  Forall (Forall call_ok) scripts ->
  Z.of_nat (sum_list_with (sum_list_with fencing) scripts) < U32_MOD ->
  is_u32 o -> o <> OWNER_NONE -> is_u32 t ->
  pool_reach (calls fuel <$> scripts, h0) (tp1, h1) -> write_lease h1 = pack_lease o t ->
  pool_reach (tp1, h1) (tp2, h2) -> write_lease h2 <> pack_lease o t ->
  pool_reach (tp2, h2) (tp3, h3) ->
  (forall o', is_u32 o' -> run (lease_held_by o' t) h3 = Some (false, h3)) /\
  (forall o', is_u32 o' -> run (release_write_lease o' t) h3 = Some (false, h3)) /\
  (forall fuel' o' t' h', run (acquire_write_lease fuel' o') h3 = Some (Some (Some t'), h') -> t' <> t).
Proof.
  intros Hok Hfew Ho Hne Ht R1 E1 R2 E2 R3.
  destruct (lease_history fuel scripts Hok Hfew h0 tp1 h1 tp2 h2 tp3 h3 R1 R2 R3) as (n & m & C12 & C23 & Hnm).
  assert (0 < n)%nat as Hn.
  { eapply changes_held; [exact C12|by rewrite E1, lease_owner_pack|by rewrite E1]. }
  assert (lease_fence (write_lease h3) <> t) as Hmoved.
  { apply changes_fence in C12, C23. rewrite C23, C12, E1, lease_fence_pack by done.
    unfold wrap32, wrap. rewrite Zplus_mod_idemp_l, <- Z.add_assoc, <- Nat2Z.inj_add.
    apply fence_moved; [done|lia|done]. }
  assert (forall o', is_u32 o' -> (write_lease h3 =? pack_lease o' t) = false) as Hno.
  { intros o' Ho'. apply Z.eqb_neq. intros E. apply Hmoved. by rewrite E, lease_fence_pack. }
  split_and!.
  - intros o' Ho'. cbn. by rewrite Hno.
  - intros o' Ho'. cbn. by rewrite Hno.
  - intros fuel' o' t' h'. destruct fuel' as [|fuel']; [done|]. unfold acquire_write_lease. cbn [retry].
    cbn -[Z.eqb OWNER_NONE]. destruct (negb _); [done|]. cbn -[Z.eqb OWNER_NONE]. rewrite Z.eqb_refl. cbn. congruence.
Qed.

(** Writer 7 acquires at fence 0, the coordinator forces the lease free, writer 8 takes
    it over at fence 1, and writer 7 wakes up. *)
Definition takeover : list (list head_call) :=
  [[HAcquire 7; HHeldBy 7 0; HRelease 7 0]; [HForceRelease]; [HAcquire 8]].

Definition held7 := pool_after [0; 0]%nat (calls 1 <$> takeover, fresh).
Definition forced := pool_after [1; 1]%nat (held7.1, held7.2).
Definition taken_over := pool_after [2; 2; 0]%nat (forced.1, forced.2).

Lemma fenced_token_never_valid_again_witness :
  write_lease held7.2 = pack_lease 7 0 /\ write_lease taken_over.2 = pack_lease 8 1 /\
  run (lease_held_by 7 0) taken_over.2 = Some (false, taken_over.2).
Proof.
  split; [vm_compute; reflexivity|]. split; [vm_compute; reflexivity|].
  eapply (fenced_token_never_valid_again 1 takeover fresh held7.1 held7.2 forced.1 forced.2 taken_over.1 taken_over.2 7 0).
  - repeat constructor; done || mach.
  - vm_compute. reflexivity.
  - mach.
  - done.
  - mach.
  - apply pool_after_reach.
  - vm_compute. reflexivity.
  - apply pool_after_reach.
  - vm_compute. discriminate.
  - apply pool_after_reach.
  - mach.
Defined.
