(* ===== verification/Manifest.v ===== *)
(** * Version manifests

    [src/crates/shm-artifact/src/manifest.rs] and [event.rs]: the immutable chunk that
    lists one version's own data chunks and links to its predecessor's manifest.  A
    version's table is its chain of manifests; a windowed root instead re-lists the
    newest batches of the version it supersedes and says which versions they came from.

    The parser works on untrusted bytes.  [None] stands for a read outside the byte
    slice ([read_pod]'s safety condition violated); errors are values of [ArtifactError].
    [usize] arithmetic is 64 bits wide and checked where the source checks it. *)

From S2P Require Import Prelude Atomic Pod ChunkDesc.

(** ** Errors of [shm-artifact] *)

Inductive ArtifactError : Set :=
| Core (e : CoreError)
| Arrow (need have : Z)
| ArrowCore (e : CoreError)
| WriteLocked
| Fenced
| Conflict (expected actual : Z)
| Stale
| Unsupported
| BadMagic
| VersionGone
| StaleManifest.

#[export] Instance ArtifactError_eq_dec : EqDecision ArtifactError.
Proof. solve_decision. Defined.

(** ** Data *)

Definition MANIFEST_MAGIC : Z := of_le [83; 72; 77; 77; 70; 83; 84; 53]. (* b"SHMMFST5" *)

Record VersionManifest : Set := mkVersionManifest {
  vm_magic : Z; vm_version : Z; vm_artifact_id : Z; vm_schema_id : Z;
  vm_chunk_count : Z; vm_batch_count : Z; vm_prev_version : Z; vm_prev_ref : Z;
  vm_prev_gen : Z; vm_depth : Z; vm_total_batches : Z; vm_kept_count : Z
}.

Record KeptMember : Set := mkKept { km_version : Z; km_batches : Z; km_pad : Z }.

Record ManifestLink : Set := mkLink {
  lk_version : Z; lk_mref : PackedRef; lk_generation : Z; lk_depth : Z; lk_total_batches : Z
}.

Record Manifest : Set := mkManifest {
  artifact_id : Z;
  version : Z;
  mf_schema_id : Z;
  chunks : list ChunkDesc;
  batch_spans : list Z;
  prev : option ManifestLink;
  depth : Z;
  total_batches : Z;
  window_base : Z;
  kept : list KeptMember
}.

#[export] Instance KeptMember_eq_dec : EqDecision KeptMember.
Proof. solve_decision. Defined.
#[export] Instance ManifestLink_eq_dec : EqDecision ManifestLink.
Proof. solve_decision. Defined.
#[export] Instance Manifest_eq_dec : EqDecision Manifest.
Proof. solve_decision. Defined.

(** Layouts: field widths in declaration order. *)
Definition header_layout : list nat := [8; 8; 4; 4; 4; 4; 8; 8; 4; 4; 4; 4]%nat.
Definition desc_layout : list nat := [4; 4; 4; 4; 4; 4]%nat.
Definition kept_layout : list nat := [8; 4; 4]%nat.

Definition header_fields (h : VersionManifest) : list Z :=
  [vm_magic h; vm_version h; vm_artifact_id h; vm_schema_id h; vm_chunk_count h; vm_batch_count h;
   vm_prev_version h; vm_prev_ref h; vm_prev_gen h; vm_depth h; vm_total_batches h; vm_kept_count h].

Definition header_of (vs : list Z) : VersionManifest :=
  match vs with
  | [a; b; c; d; e; f; g; h; i; j; k; l] => mkVersionManifest a b c d e f g h i j k l
  | _ => mkVersionManifest 0 0 0 0 0 0 0 0 0 0 0 0
  end.

Definition desc_fields (d : ChunkDesc) : list Z :=
  [segment_id d; generation d; offset d; len d; schema_id d; pad d].

Definition desc_of (vs : list Z) : ChunkDesc :=
  match vs with [a; b; c; d; e; f] => mkChunkDesc a b c d e f | _ => ZERO end.

Definition kept_fields (k : KeptMember) : list Z := [km_version k; km_batches k; km_pad k].

Definition kept_of (vs : list Z) : KeptMember :=
  match vs with [a; b; c] => mkKept a b c | _ => mkKept 0 0 0 end.

Definition chunks_offset : Z := 64.
Definition spans_offset (chunk_count : Z) : Z := chunks_offset + chunk_count * 24.
Definition kept_offset (chunk_count batch_count : Z) : Z := spans_offset chunk_count + batch_count * 4.
Definition manifest_len (chunk_count batch_count kept_count : Z) : Z :=
  kept_offset chunk_count batch_count + kept_count * 16.

Definition is_window_root (m : Manifest) : bool :=
  match prev m with
  | None => negb (window_base m =? 0) || negb (bool_decide (kept m = []))
  | Some _ => false
  end.

Definition sum_batches (ks : list KeptMember) : Z := foldr (fun k acc => km_batches k + acc) 0 ks.

Definition kept_batches_before (m : Manifest) (since : Z) : option Z :=
  if negb (is_window_root m) || (since <? window_base m) then None
  else Some (sum_batches (filter (fun k => km_version k <= since) (kept m))).

Definition link_from (m : Manifest) (mref : PackedRef) (generation : Z) : ManifestLink :=
  mkLink (version m) mref generation (depth m) (total_batches m).

(** ** Writing *)

(** The member loop of [window_ok]: [Some total] when every member passes. *)
Fixpoint window_members (v : Z) (last : option Z) (total : Z) (ks : list KeptMember) : option Z :=
  match ks with
  | [] => Some total
  | k :: ks' =>
      if (km_batches k =? 0) || negb (km_pad k =? 0) || (v <=? km_version k) then None
      else if match last with Some p => km_version k <=? p | None => false end then None
      else window_members v (Some (km_version k)) (total + km_batches k) ks'
  end.

Definition window_ok (v base : Z) (ks : list KeptMember) (batch_count : Z) : bool :=
  if v <=? base then false
  else
    match window_members v None 0 ks with
    | None => false
    | Some total =>
        if batch_count <? total then false
        else match ks with [] => true | k :: _ => base <=? km_version k end
    end.

Definition try_u32 (n : nat) : option Z := if Z.of_nat n <? U32_MOD then Some (Z.of_nat n) else None.
Definition saturating_add32 (x y : Z) : Z := Z.min (x + y) U32_MAX.

(** The header [write_manifest] writes, or why it refuses to. *)
Definition manifest_header (artifact_id version schema_id : Z) (cs : list ChunkDesc) (spans : list Z)
    (prev : option ManifestLink) (window : option (Z * list KeptMember)) : result ArtifactError VersionManifest :=
  let? chunk_count := ok_or (try_u32 (length cs)) Unsupported in
  let? batch_count := ok_or (try_u32 (length spans)) Unsupported in
  let '(base, ks) := default (0, []) window in
  let? kept_count := ok_or (try_u32 (length ks)) Unsupported in
  let header := mkVersionManifest MANIFEST_MAGIC version artifact_id schema_id chunk_count batch_count in
  match prev with
  | Some link =>
      if (version <=? lk_version link) || (lk_version link =? 0) || (bits (lk_mref link) =? 0) then Err Unsupported
      else if match window with Some _ => true | None => false end then Err Unsupported
      else if U32_MAX <=? lk_depth link then Err Unsupported
      else Ok (header (lk_version link) (bits (lk_mref link)) (lk_generation link) (lk_depth link + 1)
                 (saturating_add32 batch_count (lk_total_batches link)) kept_count)
  | None =>
      if negb (window_ok version base ks batch_count) then Err Unsupported
      else Ok (header base 0 0 0 batch_count kept_count)
  end.

(** The bytes [write_manifest] lays down from the start of the chunk; members are
    written with a zero pad. *)
Definition manifest_image (h : VersionManifest) (cs : list ChunkDesc) (spans : list Z) (ks : list KeptMember) : list Z :=
  pack header_layout (header_fields h) ++
  concat (pack desc_layout ∘ desc_fields <$> cs) ++
  concat (le_bytes 4 <$> spans) ++
  concat ((fun k => pack kept_layout (kept_fields (mkKept (km_version k) (km_batches k) 0))) <$> ks).

(** ** Reading *)

(** Copy a record out of [bs] at byte [off]; out of bounds is a fault. *)
Definition read_pod (ws : list nat) (bs : list Z) (off : Z) : option (list Z) :=
  unpack ws <$> slice_get bs (Z.to_nat off) (Z.to_nat off + size_of ws).

(** [for i in 0..count { v.push(read_pod(bytes, off + i * size)) }] *)
Definition read_array (ws : list nat) (bs : list Z) (off count : Z) : option (list (list Z)) :=
  mapM (fun i => read_pod ws bs (off + i * Z.of_nat (size_of ws))) (seqZ 0 count).

Definition checked_usize (x : Z) : option Z := if x <? U64_MOD then Some x else None.

(** The whole-record extent with checked arithmetic. *)
Definition checked_extent (chunk_count batch_count kept_count : Z) : option (Z * Z * Z) :=
  chunk_bytes ← checked_usize (chunk_count * 24);
  spans_off ← checked_usize (chunks_offset + chunk_bytes);
  span_bytes ← checked_usize (batch_count * 4);
  kept_off ← checked_usize (spans_off + span_bytes);
  kept_bytes ← checked_usize (kept_count * 16);
  total ← checked_usize (kept_off + kept_bytes);
  Some (spans_off, kept_off, total).

(** Root-strictness of an untrusted header. *)
Definition header_lax (h : VersionManifest) : bool :=
  let is_root := vm_prev_ref h =? 0 in
  negb (Bool.eqb is_root (vm_depth h =? 0))
  || (is_root && negb (vm_prev_gen h =? 0))
  || (negb is_root && ((vm_prev_version h =? 0) || negb (vm_kept_count h =? 0)))
  || (vm_version h <=? vm_prev_version h)
  || (vm_total_batches h <? vm_batch_count h).

Definition parse_manifest_bytes (bytes : list Z) : option (result ArtifactError Manifest) :=
  if Z.of_nat (length bytes) <? 64 then Some (Err VersionGone)
  else
    vs ← read_pod header_layout bytes 0;
    let h := header_of vs in
    if negb (vm_magic h =? MANIFEST_MAGIC) then Some (Err BadMagic)
    else if header_lax h then Some (Err VersionGone)
    else
      let is_root := vm_prev_ref h =? 0 in
      match checked_extent (vm_chunk_count h) (vm_batch_count h) (vm_kept_count h) with
      | None => Some (Err VersionGone)
      | Some (spans_off, kept_off, total) =>
          if Z.of_nat (length bytes) <? total then Some (Err VersionGone)
          else
            cs ← read_array desc_layout bytes chunks_offset (vm_chunk_count h);
            spans ← read_array [4%nat] bytes spans_off (vm_batch_count h);
            ks ← read_array kept_layout bytes kept_off (vm_kept_count h);
            let ks := kept_of <$> ks in
            let base := if is_root then vm_prev_version h else 0 in
            if is_root && negb (window_ok (vm_version h) base ks (vm_batch_count h)) then Some (Err VersionGone)
            else
              Some (Ok (mkManifest (vm_artifact_id h) (vm_version h) (vm_schema_id h)
                (desc_of <$> cs) (concat spans)
                (if is_root then None
                 else Some (mkLink (vm_prev_version h) (mkPackedRef (vm_prev_ref h)) (vm_prev_gen h)
                              (vm_depth h - 1) (vm_total_batches h - vm_batch_count h)))
                (vm_depth h) (vm_total_batches h) base ks))
      end.

(** Self-identification: the artifact id and version must be the expected ones. *)
Definition check_identity (expect_artifact_id expect_version : Z) (m : Manifest) : result ArtifactError Manifest :=
  if negb (artifact_id m =? expect_artifact_id) || negb (version m =? expect_version) then Err StaleManifest else Ok m.

(** ** Chain walks

    [stop] is the caller's closure with its captured state [x].  [budget] is
    [head.depth - hops]. *)

Section walk.
Context {S X : Type} (head : Manifest) (read_prev : ManifestLink -> prog S (result ArtifactError Manifest)).
Context (stop : X -> Manifest -> X * bool).

Fixpoint walk_from (budget : nat) (x : X) (cur : Manifest) : prog S (result ArtifactError (list Manifest)) :=
  match try_u32 (length (batch_spans cur)) with
  | None => Ret (Err VersionGone)
  | Some own_batches =>
      if total_batches cur <? own_batches then Ret (Err VersionGone)
      else if negb (artifact_id cur =? artifact_id head) || negb (mf_schema_id cur =? mf_schema_id head)
      then Ret (Err VersionGone)
      else
        match prev cur with
        | None =>
            if negb (depth cur =? 0) || (0 <? budget)%nat || negb (total_batches cur =? own_batches)
            then Ret (Err VersionGone)
            else Ret (Ok [cur])
        | Some link =>
            match budget with
            | O => Ret (Err VersionGone)
            | Datatypes.S budget' =>
                if depth cur =? 0 then Ret (Err VersionGone)
                else if (version cur <=? lk_version link) || negb (lk_depth link =? depth cur - 1)
                     || negb (lk_total_batches link =? total_batches cur - own_batches)
                then Ret (Err VersionGone)
                else
                  let '(x', b) := stop x cur in
                  if b : bool then Ret (Ok [cur])
                  else
                    r <- read_prev link ;;
                    match r with
                    | Err e => Ret (Err e)
                    | Ok p =>
                        if negb (version p =? lk_version link) || negb (depth p =? lk_depth link)
                           || negb (total_batches p =? lk_total_batches link)
                        then Ret (Err VersionGone)
                        else
                          rest <- walk_from budget' x' p ;;
                          Ret (match rest with Ok ms => Ok (cur :: ms) | Err e => Err e end)
                    end
            end
        end
  end.

Definition walk_chain_newest_first (x : X) : prog S (result ArtifactError (list Manifest)) :=
  walk_from (Z.to_nat (depth head)) x head.
End walk.

Definition walk_chain_with {S} (head : Manifest) (read_prev : ManifestLink -> prog S (result ArtifactError Manifest))
    : prog S (result ArtifactError (list Manifest)) :=
  r <- walk_chain_newest_first head read_prev (fun (x : unit) _ => (x, false)) tt ;;
  Ret (match r with Ok ms => Ok (rev ms) | Err e => Err e end).

(** ** Commit events *)

Definition EVENT_MAGIC : Z := of_le [69; 86; 78; 84]. (* b"EVNT" *)

Inductive CommitKind : Set := KReplace | KAppend | KPatch | KWindow.

Definition kind_as_u32 (k : CommitKind) : Z :=
  match k with KReplace => 0 | KAppend => 1 | KPatch => 2 | KWindow => 3 end.

Definition kind_from_u32 (v : Z) : option CommitKind :=
  if v =? 0 then Some KReplace else if v =? 1 then Some KAppend else if v =? 2 then Some KPatch
  else if v =? 3 then Some KWindow else None.

Record VersionEvent : Set := mkEvent { ev_version : Z; ev_name_id : Z; ev_kind : Z }.

Definition event_new (name_id version : Z) (k : CommitKind) : VersionEvent := mkEvent version name_id (kind_as_u32 k).

Definition to_desc (e : VersionEvent) : ChunkDesc :=
  mkChunkDesc (ev_name_id e) (ev_kind e) (wrap32 (Z.land (ev_version e) 4294967295))
    (wrap32 (Z.shiftr (ev_version e) 32)) EVENT_MAGIC 0.

Definition from_desc (d : ChunkDesc) : option VersionEvent :=
  if negb (schema_id d =? EVENT_MAGIC) then None
  else Some (mkEvent (Z.lor (offset d) (Z.shiftl (len d) 32)) (segment_id d) (generation d)).
