(* ===== verification/ManifestCodec.v ===== *)
(** * The manifest codec

    [parse_manifest_bytes] never reads outside its input and accepts exactly the images of
    well-formed manifests; what [write_manifest] writes is one of them and is read back as
    its arguments. *)

From S2P Require Import Prelude Atomic Pod ChunkDesc Manifest.

(** ** Reading arrays *)

Lemma read_pod_in ws bs off :
  0 <= off -> off + Z.of_nat (size_of ws) <= Z.of_nat (length bs) ->
  read_pod ws bs off = Some (unpack ws (drop (Z.to_nat off) bs)).
Proof.
  intros H0 Hl. unfold read_pod, slice_get. rewrite decide_True by lia. cbn [fmap option_fmap option_map].
  replace (Z.to_nat off + size_of ws - Z.to_nat off)%nat with (size_of ws) by lia. by rewrite unpack_take.
Qed.

Lemma read_array_in ws bs off count :
  0 <= off -> 0 <= count -> off + count * Z.of_nat (size_of ws) <= Z.of_nat (length bs) ->
  read_array ws bs off count = Some (unpack_many ws (Z.to_nat count) (drop (Z.to_nat off) bs)).
Proof.
  intros H0 Hc Hl. unfold read_array.
  cut (forall n a, 0 <= a -> off + (a + Z.of_nat n) * Z.of_nat (size_of ws) <= Z.of_nat (length bs) ->
    mapM (fun i => read_pod ws bs (off + i * Z.of_nat (size_of ws))) (seqZ a (Z.of_nat n)) =
    Some (unpack_many ws n (drop (Z.to_nat (off + a * Z.of_nat (size_of ws))) bs))).
  { intros H. specialize (H (Z.to_nat count) 0). rewrite Z2Nat.id in H by done.
    rewrite H by lia. by rewrite Z.mul_0_l, Z.add_0_r. }
  induction n as [|n IH]; intros a Ha Hb; [done|].
  rewrite seqZ_cons by lia. cbn [mapM]. rewrite read_pod_in by nia.
  replace (Z.pred (Z.of_nat (S n))) with (Z.of_nat n) by lia. rewrite IH by nia.
  cbn [mbind option_bind unpack_many]. rewrite drop_drop. do 4 f_equal. nia.
Qed.

(** ** Encodings of the parts *)

Lemma desc_of_fields d : desc_of (desc_fields d) = d.
Proof. by destruct d. Qed.

Lemma desc_fields_of vs : length vs = 6%nat -> desc_fields (desc_of vs) = vs.
Proof. intros H. do 7 (destruct vs as [|? vs]; try done). Qed.

Lemma kept_fields_of vs : length vs = 3%nat -> kept_fields (kept_of vs) = vs.
Proof. intros H. do 4 (destruct vs as [|? vs]; try done). Qed.

Lemma header_fields_of vs : length vs = 12%nat -> header_fields (header_of vs) = vs.
Proof. intros H. do 13 (destruct vs as [|? vs]; try done). Qed.

Definition header_wf (h : VersionManifest) : Prop := in_range header_layout (header_fields h).
Definition kept_wf (k : KeptMember) : Prop := in_range kept_layout (kept_fields k) /\ km_pad k = 0.

Lemma desc_in_range d : desc_wf d -> in_range desc_layout (desc_fields d).
Proof.
  assert (forall v, is_u32 v -> 0 <= v < 256 ^ Z.of_nat 4) as H4 by (intros v Hv; exact Hv).
  intros (? & ? & ? & ? & ? & ?). unfold in_range, desc_layout, desc_fields.
  repeat (constructor; [by apply H4|]). constructor.
Qed.

Lemma spans_pack (spans : list Z) : le_bytes 4 <$> spans = pack [4%nat] <$> ((fun s => [s]) <$> spans).
Proof. rewrite <- list_fmap_compose. apply list_fmap_ext. intros i x _. unfold compose. cbn [pack]. by rewrite app_nil_r. Qed.

Lemma concat_singletons (xs : list Z) : concat ((fun s => [s]) <$> xs) = xs.
Proof. induction xs as [|x xs IH]; [done|]. cbn. by f_equal. Qed.

Lemma kept_pack ks : Forall kept_wf ks ->
  (fun k => pack kept_layout (kept_fields (mkKept (km_version k) (km_batches k) 0))) <$> ks = pack kept_layout <$> (kept_fields <$> ks).
Proof.
  intros H. rewrite <- list_fmap_compose. apply list_fmap_ext. intros i k Hk.
  eapply (proj1 (list.Forall_lookup _ _) H) in Hk. destruct Hk as [_ Hp]. destruct k as [v b p]. cbn in Hp. by subst p.
Qed.

(** The image as four packed regions. *)
Definition regions (h : VersionManifest) (css : list (list Z)) (sss : list (list Z)) (kss : list (list Z)) : list Z :=
  pack header_layout (header_fields h) ++ concat (pack desc_layout <$> css) ++
  concat (pack [4%nat] <$> sss) ++ concat (pack kept_layout <$> kss).

Lemma image_regions h cs spans ks : Forall kept_wf ks ->
  manifest_image h cs spans ks = regions h (desc_fields <$> cs) ((fun s => [s]) <$> spans) (kept_fields <$> ks).
Proof.
  intros Hk. unfold manifest_image, regions. rewrite spans_pack, (kept_pack ks Hk).
  by rewrite (list_fmap_compose desc_fields (pack desc_layout)).
Qed.

(** ** The body of the parser, after the header *)

Definition parsed (h : VersionManifest) (css sss kss : list (list Z)) : result ArtifactError Manifest :=
  let is_root := vm_prev_ref h =? 0 in
  let ks := kept_of <$> kss in
  let base := if is_root then vm_prev_version h else 0 in
  if is_root && negb (window_ok (vm_version h) base ks (vm_batch_count h)) then Err VersionGone
  else
    Ok (mkManifest (vm_artifact_id h) (vm_version h) (vm_schema_id h) (desc_of <$> css) (concat sss)
      (if is_root then None
       else Some (mkLink (vm_prev_version h) (mkPackedRef (vm_prev_ref h)) (vm_prev_gen h)
                    (vm_depth h - 1) (vm_total_batches h - vm_batch_count h)))
      (vm_depth h) (vm_total_batches h) base ks).

Lemma checked_extent_u32 c b k : is_u32 c -> is_u32 b -> is_u32 k ->
  checked_extent c b k = Some (spans_offset c, kept_offset c b, manifest_len c b k).
Proof.
  intros Hc Hb Hk. unfold checked_extent, checked_usize, manifest_len, kept_offset, spans_offset, chunks_offset.
  cbn [mbind option_bind]. repeat (rewrite (proj2 (Z.ltb_lt _ _)) by mach; cbn [mbind option_bind]). done.
Qed.

Definition header_counts (h : VersionManifest) : Z :=
  manifest_len (vm_chunk_count h) (vm_batch_count h) (vm_kept_count h).

(** What the parser computes, with every read in bounds. *)
Lemma parse_eq bytes :
  Forall is_u8 bytes ->
  parse_manifest_bytes bytes = Some
    (if Z.of_nat (length bytes) <? 64 then Err VersionGone
     else
       let h := header_of (unpack header_layout bytes) in
       if negb (vm_magic h =? MANIFEST_MAGIC) then Err BadMagic
       else if header_lax h then Err VersionGone
       else if Z.of_nat (length bytes) <? header_counts h then Err VersionGone
       else parsed h (unpack_many desc_layout (Z.to_nat (vm_chunk_count h)) (drop 64 bytes))
              (unpack_many [4%nat] (Z.to_nat (vm_batch_count h)) (drop (Z.to_nat (spans_offset (vm_chunk_count h))) bytes))
              (unpack_many kept_layout (Z.to_nat (vm_kept_count h))
                 (drop (Z.to_nat (kept_offset (vm_chunk_count h) (vm_batch_count h))) bytes))).
Proof.
  intros Hb. unfold parse_manifest_bytes. destruct (Z.ltb_spec (Z.of_nat (length bytes)) 64) as [|H64]; [done|].
  rewrite read_pod_in by (cbn; lia). cbn [mbind option_bind]. rewrite drop_0. cbv zeta.
  pose proof (unpack_in_range header_layout bytes Hb ltac:(cbn; lia)) as Hr.
  rewrite <- (header_fields_of (unpack header_layout bytes)) in Hr by apply length_unpack.
  set (h := header_of _) in *. destruct (negb _); [done|]. destruct (header_lax h); [done|].
  assert (is_u32 (vm_chunk_count h) /\ is_u32 (vm_batch_count h) /\ is_u32 (vm_kept_count h)) as (Hc & Hbc & Hk).
  { unfold in_range, header_fields, header_layout in Hr. repeat (apply Forall2_cons_iff in Hr as [? Hr]). split_and!; done. }
  rewrite checked_extent_u32 by done. fold (header_counts h).
  destruct (Z.ltb_spec (Z.of_nat (length bytes)) (header_counts h)) as [|Htot]; [done|].
  unfold header_counts, manifest_len, kept_offset, spans_offset, chunks_offset in *.
  assert (Z.of_nat (size_of desc_layout) = 24 /\ Z.of_nat (size_of [4%nat]) = 4 /\ Z.of_nat (size_of kept_layout) = 16)
    as (S1 & S2 & S3) by done.
  rewrite !read_array_in by (rewrite ?S1, ?S2, ?S3; mach). cbn [mbind option_bind]. unfold parsed. by destruct (_ && _).
Qed.

(** ** Well-formed manifests *)

Definition link_wf (l : ManifestLink) : Prop :=
  is_u64 (lk_version l) /\ is_u64 (bits (lk_mref l)) /\ is_u32 (lk_generation l) /\ is_u32 (lk_depth l) /\
  is_u32 (lk_total_batches l).

(** Fields are in range and agree: a link's depth and batch total are those the manifest
    leaves for its predecessor; a root's batch total is at least its own count.  Nothing
    relates the spans to the number of chunks. *)
Definition manifest_wf (m : Manifest) : Prop :=
  is_u32 (artifact_id m) /\ is_u64 (version m) /\ is_u32 (mf_schema_id m) /\
  Forall desc_wf (chunks m) /\ Forall is_u32 (batch_spans m) /\
  match prev m with
  | None =>
      depth m = 0 /\ Z.of_nat (length (batch_spans m)) <= total_batches m /\ is_u32 (total_batches m) /\
      is_u64 (window_base m) /\ Forall kept_wf (kept m)
  | Some l =>
      link_wf l /\ depth m = lk_depth l + 1 /\
      total_batches m = Z.of_nat (length (batch_spans m)) + lk_total_batches l /\ is_u32 (total_batches m) /\
      window_base m = 0 /\ kept m = []
  end.

(** A root's batch total is its own count, as [write_manifest] makes it. *)
Definition manifest_ok (m : Manifest) : Prop :=
  is_u32 (artifact_id m) /\ is_u64 (version m) /\ is_u32 (mf_schema_id m) /\
  Forall desc_wf (chunks m) /\ Forall is_u32 (batch_spans m) /\
  match prev m with
  | None =>
      depth m = 0 /\ total_batches m = Z.of_nat (length (batch_spans m)) /\
      is_u64 (window_base m) /\ Forall kept_wf (kept m)
  | Some l =>
      link_wf l /\ depth m = lk_depth l + 1 /\
      total_batches m = Z.of_nat (length (batch_spans m)) + lk_total_batches l /\ is_u32 (total_batches m) /\
      window_base m = 0 /\ kept m = []
  end.

(** The arguments of the [write_manifest] call that writes [m]. *)
Definition encode_header (m : Manifest) : result ArtifactError VersionManifest :=
  manifest_header (artifact_id m) (version m) (mf_schema_id m) (chunks m) (batch_spans m) (prev m)
    (match prev m with None => Some (window_base m, kept m) | Some _ => None end).

Definition header_for (m : Manifest) : VersionManifest :=
  mkVersionManifest MANIFEST_MAGIC (version m) (artifact_id m) (mf_schema_id m)
    (Z.of_nat (length (chunks m))) (Z.of_nat (length (batch_spans m)))
    (match prev m with None => window_base m | Some l => lk_version l end)
    (match prev m with None => 0 | Some l => bits (lk_mref l) end)
    (match prev m with None => 0 | Some l => lk_generation l end)
    (depth m) (total_batches m) (Z.of_nat (length (kept m))).

(** Counts fit the header, a root's window and a link's target are acceptable: the checks of
    [write_manifest]. *)
Definition writable (m : Manifest) : bool :=
  (Z.of_nat (length (chunks m)) <? U32_MOD) && (Z.of_nat (length (batch_spans m)) <? U32_MOD) &&
  (Z.of_nat (length (kept m)) <? U32_MOD) &&
  match prev m with
  | None => window_ok (version m) (window_base m) (kept m) (Z.of_nat (length (batch_spans m)))
  | Some l => (lk_version l <? version m) && negb (lk_version l =? 0) && negb (bits (lk_mref l) =? 0) &&
      (lk_depth l <? U32_MAX)
  end.

Lemma try_u32_spec n : try_u32 n = if Z.of_nat n <? U32_MOD then Some (Z.of_nat n) else None.
Proof. done. Qed.

Lemma manifest_ok_wf m : manifest_ok m -> writable m = true -> manifest_wf m.
Proof.
  intros (Ha & Hv & Hs & Hc & Hsp & Hp) Hw. split_and!; try done. unfold writable in Hw. rewrite !andb_true_iff, !Z.ltb_lt in Hw.
  destruct Hw as (((_ & Hb) & _) & _). destruct (prev m); [done|]. destruct Hp as (Hd & Et & ? & ?). split_and!; try done; mach.
Qed.

Lemma encode_header_spec m : manifest_ok m ->
  encode_header m = if writable m then Ok (header_for m) else Err Unsupported.
Proof.
  intros (_ & _ & _ & _ & _ & Hp). unfold encode_header, manifest_header, writable, header_for, try_u32.
  destruct (Z.ltb_spec (Z.of_nat (length (chunks m))) U32_MOD); [|done].
  destruct (Z.ltb_spec (Z.of_nat (length (batch_spans m))) U32_MOD); [|done]. cbn [ok_or rbind].
  destruct (prev m) as [l|].
  - destruct Hp as (_ & Hd & Ht & Htu & Hb & Hk). rewrite Hk, Hd, Ht. cbn [default length].
    destruct (Z.leb_spec (version m) (lk_version l)), (Z.ltb_spec (lk_version l) (version m)); try lia; [done|].
    destruct (lk_version l =? 0); [done|]. destruct (bits (lk_mref l) =? 0); [done|]. cbn [negb orb andb].
    destruct (Z.leb_spec U32_MAX (lk_depth l)), (Z.ltb_spec (lk_depth l) U32_MAX); try lia; [done|].
    change (Z.of_nat 0 <? U32_MOD) with true. cbn [ok_or rbind andb]. unfold saturating_add32. rewrite Z.min_l by mach. done.
  - destruct Hp as (Hd & Ht & _). rewrite Hd, Ht. cbn [default id].
    destruct (Z.ltb_spec (Z.of_nat (length (kept m))) U32_MOD); [|done]. cbn [ok_or rbind andb].
    by destruct (window_ok _ _ _ _).
Qed.

(** ** Both directions *)

Lemma take_pieces (bs : list Z) a b c d :
  take a bs ++ take b (drop a bs) ++ take c (drop (a + b) bs) ++ take d (drop (a + b + c) bs)
  = take (a + b + c + d) bs.
Proof.
  assert (forall i j, drop (i + j) bs = drop j (drop i bs)) as E by (intros i j; rewrite drop_drop; f_equal; lia).
  rewrite (E (a + b)%nat c), take_take_drop, (E a b), take_take_drop, take_take_drop. f_equal. lia.
Qed.

Lemma fmap_fields_of {X} (f : X -> list Z) (g : list Z -> X) n (vss : list (list Z)) :
  (forall vs, length vs = n -> f (g vs) = vs) -> Forall (fun vs => length vs = n) vss -> f <$> (g <$> vss) = vss.
Proof. intros H. induction 1 as [|vs vss Hv _ IH]; [done|]. csimpl. by rewrite H, IH. Qed.

Lemma unpack_many_lengths ws n bs : Forall (fun vs => length vs = length ws) (unpack_many ws n bs).
Proof. revert bs. induction n as [|n IH]; intros bs; cbn; constructor; [apply length_unpack|apply IH]. Qed.

Lemma singletons_concat (sss : list (list Z)) :
  Forall (fun vs => length vs = 1%nat) sss -> (fun s => [s]) <$> concat sss = sss /\ length (concat sss) = length sss.
Proof.
  induction 1 as [|vs sss Hv _ [IH1 IH2]]; [done|]. destruct vs as [|v [|? ?]]; [done| |done].
  csimpl. by rewrite IH1, IH2.
Qed.

Lemma forall_fmap_range {X} (P : X -> Prop) (g : list Z -> X) ws vss :
  (forall vs, in_range ws vs -> P (g vs)) -> Forall (in_range ws) vss -> Forall P (g <$> vss).
Proof. intros H Hr. apply Forall_fmap. by eapply Forall_impl. Qed.

Lemma desc_of_wf vs : in_range desc_layout vs -> desc_wf (desc_of vs).
Proof.
  intros H. pose proof (Forall2_length H) as Hl. do 7 (destruct vs as [|? vs]; try done).
  unfold in_range, desc_layout in H. repeat (apply Forall2_cons_iff in H as [? H]). unfold desc_wf. cbn. split_and!; done.
Qed.

Lemma span_of_u32 (sss : list (list Z)) : Forall (in_range [4%nat]) sss -> Forall is_u32 (concat sss).
Proof.
  induction 1 as [|vs sss Hv _ IH]; [constructor|]. cbn [concat]. apply Forall_app. split; [|done].
  destruct vs as [|v [|? ?]]; inversion Hv as [|? ? ? ? Hv1 Hv2]; subst; [|inversion Hv2]. by constructor.
Qed.

Lemma window_members_pad v last total ks t : window_members v last total ks = Some t -> Forall (fun k => km_pad k = 0) ks.
Proof.
  revert last total. induction ks as [|k ks IH]; intros last total; cbn [window_members]; [constructor|].
  destruct (Z.eqb_spec (km_pad k) 0); [|by rewrite orb_true_r]. case_match; [done|]. case_match; [done|].
  intros Hw. constructor; [done|]. by eapply IH.
Qed.

Lemma window_ok_pad v base ks n : window_ok v base ks n = true -> Forall (fun k => km_pad k = 0) ks.
Proof.
  unfold window_ok. case_match; [done|]. destruct (window_members _ _ _ _) eqn:E; [|done]. intros _. by eapply window_members_pad.
Qed.

Lemma header_ranges h : header_wf h ->
  (is_u64 (vm_version h) /\ is_u32 (vm_artifact_id h) /\ is_u32 (vm_schema_id h)) /\
  (is_u32 (vm_chunk_count h) /\ is_u32 (vm_batch_count h) /\ is_u32 (vm_kept_count h)) /\
  is_u64 (vm_prev_version h) /\ is_u64 (vm_prev_ref h) /\ is_u32 (vm_prev_gen h) /\ is_u32 (vm_depth h) /\
  is_u32 (vm_total_batches h).
Proof.
  unfold header_wf, in_range, header_layout, header_fields. intros H.
  repeat (apply Forall2_cons_iff in H as [? H]). split_and!; done.
Qed.

Lemma regions_image h css sss kss cs spans ks :
  Forall (in_range desc_layout) css -> Forall (in_range [4%nat]) sss -> Forall (in_range kept_layout) kss ->
  cs = desc_of <$> css -> spans = concat sss -> ks = kept_of <$> kss -> Forall (fun k => km_pad k = 0) ks ->
  Forall desc_wf cs /\ Forall is_u32 spans /\ Forall kept_wf ks /\
  length cs = length css /\ length spans = length sss /\ length ks = length kss /\
  manifest_image h cs spans ks = regions h css sss kss.
Proof.
  intros Hc Hs Hk -> -> -> Hpad.
  assert (forall ws vss, Forall (in_range ws) vss -> Forall (fun vs => length vs = length ws) vss) as Hlen.
  { intros ws vss H. eapply Forall_impl; [|exact H]. intros vs Hv. by rewrite (Forall2_length Hv). }
  destruct (singletons_concat sss (Hlen _ _ Hs)) as [Es Els].
  pose proof (fmap_fields_of kept_fields kept_of 3 kss kept_fields_of (Hlen _ _ Hk)) as Ek.
  assert (Forall kept_wf (kept_of <$> kss)) as Hkw.
  { apply list.Forall_forall. intros k Hin. split; [|exact (proj1 (list.Forall_forall _ _) Hpad k Hin)].
    apply list_elem_of_fmap in Hin as (vs & -> & Hin).
    pose proof (proj1 (list.Forall_forall _ _) Hk vs Hin) as Hv. rewrite kept_fields_of; [done|]. by rewrite <- (Forall2_length Hv). }
  split_and!; [by eapply forall_fmap_range; [apply desc_of_wf|]|by apply span_of_u32|done|by rewrite length_fmap|done|by rewrite length_fmap|].
  rewrite image_regions by done. rewrite Es, Ek. by rewrite (fmap_fields_of desc_fields desc_of 6 css desc_fields_of (Hlen _ _ Hc)).
Qed.

(** What an accepted manifest came from. *)
Lemma parsed_image h css sss kss m :
  header_wf h -> vm_magic h = MANIFEST_MAGIC -> header_lax h = false ->
  Forall (in_range desc_layout) css -> Forall (in_range [4%nat]) sss -> Forall (in_range kept_layout) kss ->
  Z.of_nat (length css) = vm_chunk_count h -> Z.of_nat (length sss) = vm_batch_count h ->
  Z.of_nat (length kss) = vm_kept_count h ->
  parsed h css sss kss = Ok m ->
  manifest_wf m /\ writable m = true /\ header_for m = h /\
  manifest_image h (chunks m) (batch_spans m) (kept m) = regions h css sss kss.
Proof.
  intros Hh Hmagic Hlax Hc Hs Hk Lc Ls Lk. unfold parsed. pose proof (header_ranges h Hh) as Hr.
  unfold header_lax in Hlax. rewrite !orb_false_iff in Hlax. destruct Hlax as ((((L1 & L2) & L3) & L4) & L5).
  apply Z.leb_gt in L4. apply Z.ltb_ge in L5.
  apply negb_false_iff, eqb_prop in L1.
  destruct (Z.eqb_spec (vm_prev_ref h) 0) as [Eroot|Eroot]; cbn [andb negb] in *; symmetry in L1.
  - destruct (window_ok _ _ _ _) eqn:Ew; [|done]. cbn [negb]. intros [= <-].
    apply Z.eqb_eq in L1. apply negb_false_iff, Z.eqb_eq in L2.
    destruct (regions_image h css sss kss _ _ _ Hc Hs Hk eq_refl eq_refl eq_refl (window_ok_pad _ _ _ _ Ew))
      as (Wc & Ws & Wk & Elc & Els & Elk & Eim).
    split_and!; [|unfold writable; cbn|unfold header_for; cbn|done].
    + unfold manifest_wf. cbn. rewrite Els, Ls. split_and!; try done; try lia; naive_solver.
    + rewrite Elc, Els, Elk, Lc, Ls, Lk. rewrite !(proj2 (Z.ltb_lt _ _)) by (unfold is_u32 in *; naive_solver lia).
      done.
    + rewrite Elc, Els, Elk, Lc, Ls, Lk. destruct h; cbn in *. by subst.
  - intros [= <-]. apply Z.eqb_neq in L1.
    apply orb_false_iff in L3 as [L3 L3']. apply Z.eqb_neq in L3. apply negb_false_iff, Z.eqb_eq in L3'.
    assert (kss = []) as -> by (apply length_zero_iff_nil; lia).
    destruct (regions_image h css sss [] _ _ _ Hc Hs Hk eq_refl eq_refl eq_refl ltac:(constructor))
      as (Wc & Ws & Wk & Elc & Els & Elk & Eim).
    split_and!; [|unfold writable; cbn|unfold header_for; cbn|done].
    + unfold manifest_wf. cbn. rewrite Els, Ls. unfold link_wf. cbn. unfold is_u32, is_u64 in *. split_and!; try done; try naive_solver lia.
    + rewrite Elc, Els, Lc, Ls. unfold is_u32, U32_MAX in *.
      rewrite !(proj2 (Z.ltb_lt _ _)) by (unfold U32_MOD in *; naive_solver lia).
      rewrite !(proj2 (Z.eqb_neq _ _)) by done. done.
    + rewrite Elc, Els, Lc, Ls. destruct h; cbn in *. f_equal; try done; lia.
Qed.

Lemma length_regions h css sss kss :
  Forall (in_range desc_layout) css -> Forall (in_range [4%nat]) sss -> Forall (in_range kept_layout) kss ->
  Z.of_nat (length (regions h css sss kss)) =
    manifest_len (Z.of_nat (length css)) (Z.of_nat (length sss)) (Z.of_nat (length kss)).
Proof.
  intros Hc Hs Hk.
  assert (forall ws vss, Forall (in_range ws) vss -> length (concat (pack ws <$> vss)) = (length vss * size_of ws)%nat) as L.
  { intros ws vss H. apply length_concat_pack. eapply Forall_impl; [|exact H]. intros vs Hv. by rewrite (Forall2_length Hv). }
  unfold regions. rewrite !length_app, (L _ _ Hc), (L _ _ Hs), (L _ _ Hk), length_pack by done.
  unfold manifest_len, kept_offset, spans_offset, chunks_offset.
  change (size_of header_layout) with 64%nat. change (size_of desc_layout) with 24%nat.
  change (size_of kept_layout) with 16%nat. change (size_of [4%nat]) with 4%nat. lia.
Qed.

(** The four regions are read back from any buffer they start. *)
Lemma unpack_regions h css sss kss rest :
  header_wf h -> Forall (in_range desc_layout) css -> Forall (in_range [4%nat]) sss -> Forall (in_range kept_layout) kss ->
  let bytes := regions h css sss kss ++ rest in
  unpack header_layout bytes = header_fields h /\
  unpack_many desc_layout (length css) (drop 64 bytes) = css /\
  unpack_many [4%nat] (length sss) (drop (Z.to_nat (spans_offset (Z.of_nat (length css)))) bytes) = sss /\
  unpack_many kept_layout (length kss)
    (drop (Z.to_nat (kept_offset (Z.of_nat (length css)) (Z.of_nat (length sss)))) bytes) = kss.
Proof.
  intros Hh Hc Hs Hk bytes. subst bytes. unfold regions. rewrite <- !app_assoc.
  assert (forall ws vss, Forall (in_range ws) vss -> length (concat (pack ws <$> vss)) = (length vss * size_of ws)%nat) as L.
  { intros ws vss H. apply length_concat_pack. eapply Forall_impl; [|exact H]. intros vs Hv. by rewrite (Forall2_length Hv). }
  assert (length (pack header_layout (header_fields h)) = 64%nat) as L0 by by rewrite length_pack.
  pose proof (L _ _ Hc) as Lc. pose proof (L _ _ Hs) as Ls.
  change (size_of desc_layout) with 24%nat in Lc. change (size_of [4%nat]) with 4%nat in Ls.
  split_and!.
  - by apply unpack_pack.
  - rewrite drop_app_length' by done. by apply unpack_many_pack.
  - rewrite app_assoc, drop_app_length' by (rewrite length_app, L0, Lc; unfold spans_offset, chunks_offset; lia).
    by apply unpack_many_pack.
  - rewrite (app_assoc (concat _) (concat _)), app_assoc, drop_app_length'
      by (rewrite !length_app, L0, Lc, Ls; unfold kept_offset, spans_offset, chunks_offset; lia).
    by apply unpack_many_pack.
Qed.

Lemma header_for_wf m : manifest_wf m -> writable m = true -> header_wf (header_for m).
Proof.
  intros (Ha & Hv & Hs & _ & _ & Hp) Hw. unfold writable in Hw. rewrite !andb_true_iff, !Z.ltb_lt in Hw.
  destruct Hw as (((? & ?) & ?) & Hw).
  assert (forall v, is_u32 v -> 0 <= v < 256 ^ Z.of_nat 4) as H4 by (intros v Hv'; exact Hv').
  assert (forall v, is_u64 v -> 0 <= v < 256 ^ Z.of_nat 8) as H8 by (intros v Hv'; exact Hv').
  unfold header_wf, in_range, header_layout, header_fields, header_for.
  cbn [vm_magic vm_version vm_artifact_id vm_schema_id vm_chunk_count vm_batch_count vm_prev_version vm_prev_ref vm_prev_gen vm_depth vm_total_batches vm_kept_count].
  assert (is_u64 MANIFEST_MAGIC) by (vm_compute; done).
  destruct (prev m) as [l|].
  - destruct Hp as ((? & ? & ? & Hd & ?) & Ed & Et & ? & ? & ?). rewrite !andb_true_iff, !Z.ltb_lt in Hw.
    repeat (constructor; [first [apply H8; done|apply H4; first [done|rewrite ?Ed; mach]]|]). constructor.
  - destruct Hp as (Ed & Et & Etu & ? & ?). rewrite Ed.
    repeat (constructor; [first [apply H8; first [done|mach]|apply H4; first [done|mach]]|]). constructor.
Qed.

Lemma header_for_strict m : manifest_wf m -> writable m = true -> header_lax (header_for m) = false.
Proof.
  intros (Ha & Hv & Hs & _ & _ & Hp) Hw. unfold writable in Hw. rewrite !andb_true_iff in Hw. destruct Hw as (_ & Hw).
  unfold header_lax, header_for. cbn. destruct (prev m) as [l|].
  - destruct Hp as ((_ & _ & _ & Hd & Htl) & Ed & Et & _ & _ & Ek). rewrite Ek. cbn.
    rewrite !andb_true_iff, !negb_true_iff in Hw. destruct Hw as (((W1 & W2) & W3) & W4). rewrite W2, W3. cbn.
    apply Z.ltb_lt in W1. rewrite (proj2 (Z.eqb_neq (depth m) 0)) by mach. cbn.
    rewrite (proj2 (Z.leb_gt _ _)) by done. cbn. apply Z.ltb_ge. mach.
  - destruct Hp as (Ed & Et & _). rewrite Ed. cbn.
    assert (window_base m < version m) by (unfold window_ok in Hw; destruct (Z.leb_spec (version m) (window_base m)); [done|lia]).
    rewrite (proj2 (Z.leb_gt _ _)) by done. apply Z.ltb_ge. lia.
Qed.

Lemma kept_range k : kept_wf k -> in_range kept_layout (kept_fields k).
Proof. by intros [? _]. Qed.

Lemma fields_in_range m : manifest_wf m ->
  Forall (in_range desc_layout) (desc_fields <$> chunks m) /\
  Forall (in_range [4%nat]) ((fun s => [s]) <$> batch_spans m) /\
  Forall (in_range kept_layout) (kept_fields <$> kept m) /\ Forall kept_wf (kept m).
Proof.
  intros (_ & _ & _ & Hc & Hs & Hp).
  assert (Forall kept_wf (kept m)) as Hk by (destruct (prev m); [destruct Hp as (_ & _ & _ & _ & _ & ->); constructor|naive_solver]).
  split_and!; [| | |done]; apply Forall_fmap.
  - eapply Forall_impl; [|exact Hc]. apply desc_in_range.
  - eapply Forall_impl; [|exact Hs]. intros s H. constructor; [exact H|constructor].
  - eapply Forall_impl; [|exact Hk]. apply kept_range.
Qed.

Lemma packed_bytes ws vss : Forall is_u8 (concat (pack ws <$> vss)).
Proof. induction vss as [|vs vss IH]; [constructor|]. cbn [fmap list_fmap concat]. apply Forall_app. split; [apply pack_bytes|exact IH]. Qed.

Lemma regions_bytes h css sss kss : Forall is_u8 (regions h css sss kss).
Proof.
  unfold regions. apply Forall_app. split; [apply pack_bytes|]. apply Forall_app. split; [apply packed_bytes|].
  apply Forall_app. split; apply packed_bytes.
Qed.

(** A written image parses back. *)
Lemma parse_image m rest :
  Forall is_u8 rest -> manifest_wf m -> writable m = true ->
  parse_manifest_bytes (manifest_image (header_for m) (chunks m) (batch_spans m) (kept m) ++ rest) = Some (Ok m).
Proof.
  intros Hrest Hm Hw. destruct (fields_in_range m Hm) as (Rc & Rs & Rk & Hk).
  pose proof (header_for_wf m Hm Hw) as Hh. rewrite image_regions by done.
  rewrite parse_eq by (apply Forall_app; split; [apply regions_bytes|done]).
  destruct (unpack_regions (header_for m) _ _ _ rest Hh Rc Rs Rk) as (E0 & E1 & E2 & E3). cbv zeta. rewrite E0.
  assert (header_of (header_fields (header_for m)) = header_for m) as -> by done.
  pose proof (length_regions (header_for m) _ _ _ Rc Rs Rk) as Hlen. rewrite length_app, Nat2Z.inj_add.
  rewrite !length_fmap in *. rewrite Hlen. unfold header_counts. cbn [header_for vm_magic vm_chunk_count vm_batch_count vm_kept_count].
  rewrite (proj2 (Z.ltb_ge _ 64)) by (unfold manifest_len, kept_offset, spans_offset, chunks_offset; lia).
  rewrite Z.eqb_refl. cbn [negb]. rewrite header_for_strict by done.
  rewrite (proj2 (Z.ltb_ge _ (manifest_len _ _ _))) by lia. rewrite !Nat2Z.id, E1, E2, E3. f_equal.
  unfold parsed. rewrite concat_singletons, <- !list_fmap_compose.
  rewrite (list_fmap_ext (desc_of ∘ desc_fields) id) by (intros; apply desc_of_fields).
  rewrite (list_fmap_ext (kept_of ∘ kept_fields) id) by (intros ? [] ?; done). rewrite !list_fmap_id.
  destruct Hm as (_ & _ & _ & _ & _ & Hp). unfold writable in Hw. rewrite !andb_true_iff in Hw. destruct Hw as (_ & Hw).
  destruct m as [a v s cs ss p d t b k]; cbn in *. destruct p as [l|].
  - rewrite !andb_true_iff, !negb_true_iff in Hw. destruct Hw as (((_ & _) & ->) & _).
    destruct Hp as (_ & -> & -> & _ & -> & ->). cbn. do 3 f_equal. destruct l as [lv [lr] lg ld lt]; cbn. do 2 f_equal; lia.
  - destruct Hp as (-> & _). cbn. by rewrite Hw.
Qed.

(** What is in memory for [m]. *)
Definition image_of (m : Manifest) : list Z := manifest_image (header_for m) (chunks m) (batch_spans m) (kept m).

Lemma image_of_length m : manifest_wf m ->
  Z.of_nat (length (image_of m)) =
    manifest_len (Z.of_nat (length (chunks m))) (Z.of_nat (length (batch_spans m))) (Z.of_nat (length (kept m))).
Proof.
  intros Hm. destruct (fields_in_range m Hm) as (Rc & Rs & Rk & Hk). unfold image_of. rewrite image_regions, length_regions by done.
  by rewrite !length_fmap.
Qed.

Lemma image_of_bytes m : manifest_wf m -> Forall is_u8 (image_of m).
Proof.
  intros Hm. destruct (fields_in_range m Hm) as (Rc & Rs & Rk & Hk). unfold image_of. rewrite image_regions by done. apply regions_bytes.
Qed.

(** The header is read from the first 64 bytes. *)
Lemma read_header_image m : manifest_wf m -> writable m = true ->
  read_pod header_layout (take 64 (image_of m)) 0 = Some (header_fields (header_for m)).
Proof.
  intros Hm Hw. destruct (fields_in_range m Hm) as (Rc & Rs & Rk & Hk). pose proof (header_for_wf m Hm Hw) as Hh.
  unfold image_of. rewrite image_regions by done. unfold regions.
  assert (El : length (pack header_layout (header_fields (header_for m))) = 64%nat) by (by rewrite length_pack).
  rewrite <- El at 1. rewrite take_app_length. rewrite read_pod_in; [|done|by rewrite El].
  rewrite drop_0, <- (app_nil_r (pack _ _)), unpack_pack; done.
Qed.

(** ** What the writer writes *)

(** What a reader makes of a [write_manifest] call: its arguments, the depth and the batch
    total it derives, the total cut off at [u32::MAX]. *)
Definition written_as (id v sid : Z) (cs : list ChunkDesc) (spans : list Z) (link : option ManifestLink)
    (window : option (Z * list KeptMember)) : Manifest :=
  let n := Z.of_nat (length spans) in
  match link with
  | None => mkManifest id v sid cs spans None 0 n (default (0, []) window).1 (default (0, []) window).2
  | Some l =>
      let total := saturating_add32 n (lk_total_batches l) in
      mkManifest id v sid cs spans (Some (mkLink (lk_version l) (lk_mref l) (lk_generation l) (lk_depth l) (total - n)))
        (lk_depth l + 1) total 0 []
  end.

(** Arguments within their types. *)
Definition arguments_ok (id v sid : Z) (cs : list ChunkDesc) (spans : list Z) (link : option ManifestLink)
    (window : option (Z * list KeptMember)) : Prop :=
  is_u32 id /\ is_u64 v /\ is_u32 sid /\ Forall desc_wf cs /\ Forall is_u32 spans /\
  match link with Some l => link_wf l | None => True end /\
  is_u64 (default (0, []) window).1 /\ Forall (fun k => in_range kept_layout (kept_fields k)) (default (0, []) window).2.

Lemma written_image id v sid cs spans link window h :
  arguments_ok id v sid cs spans link window -> manifest_header id v sid cs spans link window = Ok h ->
  let m := written_as id v sid cs spans link window in
  manifest_wf m /\ writable m = true /\ manifest_image h cs spans (default (0, []) window).2 = image_of m.
Proof.
  intros (Hid & Hv & Hsid & Hcs & Hsp & Hlink & Hbase & Hks) Eh m. unfold manifest_header, try_u32 in Eh.
  destruct (Z.ltb_spec (Z.of_nat (length cs)) U32_MOD) as [Lc|]; [|done].
  destruct (Z.ltb_spec (Z.of_nat (length spans)) U32_MOD) as [Ls|]; [|done]. cbn [ok_or rbind] in Eh.
  destruct (default (0, []) window) as [base ks] eqn:Ew. cbn [fst snd] in *.
  destruct (Z.ltb_spec (Z.of_nat (length ks)) U32_MOD) as [Lk|]; [|done]. cbn [ok_or rbind] in Eh. destruct link as [l|].
  - destruct Hlink as (Hlv & Hlr & Hlg & Hld & Hlt).
    destruct (Z.leb_spec v (lk_version l)) as [|Hlt']; [done|]. destruct (lk_version l =? 0) eqn:E0; [done|].
    destruct (bits (lk_mref l) =? 0) eqn:E1; [done|]. cbn [orb] in Eh. destruct window; [done|]. injection Ew as <- <-.
    destruct (Z.leb_spec U32_MAX (lk_depth l)) as [|Hd]; [done|]. injection Eh as <-.
    assert (Ht : Z.of_nat (length spans) <= saturating_add32 (Z.of_nat (length spans)) (lk_total_batches l) <= U32_MAX)
      by (unfold saturating_add32; mach).
    split_and!; [| |done].
    + unfold manifest_wf, m, written_as, link_wf. cbn. split_and!; try done; mach.
    + unfold writable, m, written_as. cbn. rewrite E0, E1. rewrite !(proj2 (Z.ltb_lt _ _)) by (unfold U32_MOD in *; lia). done.
  - destruct (window_ok v base ks (Z.of_nat (length spans))) eqn:Eok; [|done]. cbn [negb] in Eh. injection Eh as <-.
    assert (Hpad := window_ok_pad _ _ _ _ Eok).
    split_and!; [| |unfold image_of, m, written_as; by rewrite Ew].
    + unfold manifest_wf, m, written_as. rewrite Ew. cbn. split_and!; try done; [mach..|]. by apply Forall_and.
    + unfold writable, m, written_as. rewrite Ew. cbn. rewrite !(proj2 (Z.ltb_lt _ _)) by done. done.
Qed.

Lemma parse_exact bytes m : Forall is_u8 bytes ->
  parse_manifest_bytes bytes = Some (Ok m) <-> manifest_wf m /\ writable m = true /\ image_of m `prefix_of` bytes.
Proof.
  intros Hb. split.
  - rewrite (parse_eq bytes Hb). intros E. apply (inj Some) in E. revert E.
    destruct (Z.ltb_spec (Z.of_nat (length bytes)) 64) as [|H64]; [done|]. cbv zeta.
    pose proof (unpack_in_range header_layout bytes Hb ltac:(cbn; lia)) as Hr.
    pose proof (pack_unpack header_layout bytes Hb ltac:(cbn; lia)) as Hp0.
    rewrite <- (header_fields_of (unpack header_layout bytes)) in Hr, Hp0 by apply length_unpack.
    set (h := header_of _) in *. destruct (Z.eqb_spec (vm_magic h) MANIFEST_MAGIC) as [Hmagic|]; [|done]. cbn [negb].
    destruct (header_lax h) eqn:Hlax; [done|]. destruct (Z.ltb_spec (Z.of_nat (length bytes)) (header_counts h)) as [|Hcnt]; [done|].
    destruct (header_ranges h Hr) as (_ & (Hc & Hbc & Hk) & _).
    unfold header_counts, manifest_len, kept_offset, spans_offset, chunks_offset in Hcnt. intros E.
    assert (size_of desc_layout = 24 /\ size_of [4] = 4 /\ size_of kept_layout = 16 /\ size_of header_layout = 64)%nat
      as (S1 & S2 & S3 & S4) by done.
    assert (forall n, Forall is_u8 (drop n bytes)) as Hd by (intros; by apply Forall_drop).
    edestruct (parsed_image h) as (Hm & Hw & Eh & Eim); [exact Hr|exact Hmagic|exact Hlax|..|exact E|].
    1-3: apply unpack_many_in_range; [done|rewrite length_drop, ?S1, ?S2, ?S3; unfold kept_offset, spans_offset, chunks_offset; mach].
    1-3: rewrite length_unpack_many; mach.
    split; [done|]. split; [done|]. unfold image_of. rewrite Eh, Eim. unfold regions.
    rewrite Hp0, !pack_unpack_many by (first [done | rewrite length_drop, ?S1, ?S2, ?S3; unfold kept_offset, spans_offset, chunks_offset; mach]).
    exists (drop (Z.to_nat (header_counts h)) bytes). rewrite <- (take_drop (Z.to_nat (header_counts h)) bytes) at 1. f_equal.
    replace (Z.to_nat (spans_offset (vm_chunk_count h)))
      with (size_of header_layout + Z.to_nat (vm_chunk_count h) * size_of desc_layout)%nat by (rewrite S1, S4; unfold spans_offset, chunks_offset; mach).
    replace (Z.to_nat (kept_offset (vm_chunk_count h) (vm_batch_count h)))
      with (size_of header_layout + Z.to_nat (vm_chunk_count h) * size_of desc_layout + Z.to_nat (vm_batch_count h) * size_of [4%nat])%nat
      by (rewrite S1, S2, S4; unfold kept_offset, spans_offset, chunks_offset; mach).
    rewrite take_pieces. f_equal. rewrite S1, S2, S3, S4. unfold header_counts, manifest_len, kept_offset, spans_offset, chunks_offset. mach.
  - intros (Hm & Hw & [rest ->]). apply Forall_app in Hb as [_ Hrest]. by apply parse_image.
Qed.

(** C31. The manifest parser is total and exact.  On any bytes it returns, no read leaving
    the slice.  It accepts a manifest exactly when it is well formed ([manifest_wf],
    [writable]) and the bytes start with its image; well-formedness lets a root's batch
    total exceed its own count and does not relate the spans to the number of chunks, so
    such images are accepted, each as what it says.  And whatever [write_manifest] accepts
    to write is read back as its arguments, with the batch total it derives (own batches
    plus the predecessor's, cut off at [u32::MAX]). *)
Theorem manifest_codec_exact bytes :
  Forall is_u8 bytes ->
  exists r, parse_manifest_bytes bytes = Some r /\
    (forall m, r = Ok m <-> manifest_wf m /\ writable m = true /\ image_of m `prefix_of` bytes) /\
    (forall id v sid cs spans link window h,
       arguments_ok id v sid cs spans link window -> manifest_header id v sid cs spans link window = Ok h ->
       manifest_image h cs spans (default (0, []) window).2 `prefix_of` bytes ->
       r = Ok (written_as id v sid cs spans link window)).
Proof.
  intros Hb. assert (Hr : exists r, parse_manifest_bytes bytes = Some r) by (rewrite (parse_eq bytes Hb); eauto).
  destruct Hr as [r Hr]. exists r. split; [done|].
  assert (Hex : forall m, r = Ok m <-> manifest_wf m /\ writable m = true /\ image_of m `prefix_of` bytes).
  { intros m. rewrite <- (parse_exact bytes m Hb), Hr. split; [by intros ->|by intros [= ->]]. }
  split; [exact Hex|]. intros id v sid cs spans link window h Ha Eh Hpre.
  destruct (written_image id v sid cs spans link window h Ha Eh) as (Hm & Hw & Ei). apply Hex. by rewrite <- Ei.
Qed.

(** A windowed root of two batches, one of them kept from version 4, in a larger chunk. *)
Definition demo_manifest : Manifest :=
  mkManifest 7 6 3 [mkChunkDesc 1 0 64 128 3 0; mkChunkDesc 1 2 192 128 3 0; mkChunkDesc 1 0 320 64 3 0] [2; 1]
    None 0 2 3 [mkKept 4 1 0].
Definition demo_bytes : list Z :=
  manifest_image (header_for demo_manifest) (chunks demo_manifest) (batch_spans demo_manifest) (kept demo_manifest) ++ [9; 9].

Lemma manifest_codec_exact_witness :
  length demo_bytes = 162%nat /\ parse_manifest_bytes demo_bytes = Some (Ok demo_manifest) /\
  demo_manifest = written_as 7 6 3 (chunks demo_manifest) [2; 1] None (Some (3, [mkKept 4 1 0])).
Proof.
  split; [vm_compute; reflexivity|]. split; [|reflexivity].
  assert (Forall is_u8 demo_bytes) as Hb by (apply (bool_decide_unpack _); vm_compute; exact I).
  destruct (manifest_codec_exact demo_bytes Hb) as (r & -> & _ & Hw). f_equal.
  apply (Hw 7 6 3 (chunks demo_manifest) [2; 1] None (Some (3, [mkKept 4 1 0])) (header_for demo_manifest)).
  - unfold arguments_ok. cbn. split_and!; try mach; try done.
    + apply (bool_decide_unpack _). vm_compute. exact I.
    + apply (bool_decide_unpack _). vm_compute. exact I.
    + constructor; [|constructor]. repeat (constructor; [vm_compute; done|]). constructor.
  - vm_compute. reflexivity.
  - by exists [9; 9].
Defined.
