(* ===== verification/Window.v ===== *)
(** * Commits, windows and delta reads on manifests

    The part of [src/crates/shm-artifact/src/artifact.rs] that computes on manifests:
    which manifest a commit writes over its predecessor's chain ([Replace], [Append],
    [Window]), what a reader that pinned a version reconstructs from the chain, and what
    it is given when it asks only for the batches added after a version it already holds.

    [lineage] runs a sequence of commits and keeps every version's manifest; links are
    resolved by version, as the generation and identity checks of [read_prev] guarantee.
    A batch is the group of chunks that hold it; decoding the Arrow payload of a group is
    outside this file. *)

From S2P Require Import Prelude Atomic ChunkDesc Manifest.

(** ** Commit kinds and the window policy *)

Inductive Commit : Set :=
| Replace
| Append
| Window (keep_batches : Z)
| Patch (start stop : Z).

Definition commit_kind (c : Commit) : CommitKind :=
  match c with Replace => KReplace | Append => KAppend | Window _ => KWindow | Patch _ _ => KPatch end.

Record WindowPolicy : Set := mkPolicy { keep_batches : Z; max_depth : Z }.

Definition policy_new (keep : Z) : WindowPolicy := mkPolicy keep keep.

Definition commit_for_depth (p : WindowPolicy) (depth : option Z) : Commit :=
  let max_depth := Z.max (max_depth p) 1 in
  match depth with
  | Some d => if Z.min (d + 1) U32_MAX <? max_depth then Append else Window (keep_batches p)
  | None => Window (keep_batches p)
  end.

(** ** Collecting a window *)

Record WindowSet : Set := mkWindow {
  w_chunks : list ChunkDesc;
  w_spans : list Z;
  w_members : list KeptMember;
  w_base : Z
}.

(** The walk's closure: stop once the captured [remaining] is used up. *)
Definition window_stop (remaining : nat) (m : Manifest) : nat * bool :=
  let remaining := (remaining - length (batch_spans m))%nat in (remaining, (remaining =? 0)%nat).

(** How many tail batches each member contributes, newest member first. *)
Fixpoint window_parts (remaining : nat) (members : list Manifest) : list (Manifest * nat) :=
  match members with
  | [] => []
  | m :: ms =>
      if (remaining =? 0)%nat then []
      else
        let take := Nat.min remaining (length (batch_spans m)) in
        (m, take) :: window_parts (remaining - take) ms
  end.

Definition sum_spans (spans : list Z) : nat := sum_list (Z.to_nat <$> spans).

Definition tail_spans (m : Manifest) (take : nat) : list Z :=
  drop (length (batch_spans m) - take) (batch_spans m).

Definition tail_chunks (m : Manifest) (take : nat) : option (list ChunkDesc) :=
  let chunk_take := sum_spans (tail_spans m take) in
  if (length (chunks m) <? chunk_take)%nat then None else Some (drop (length (chunks m) - chunk_take) (chunks m)).

(** The newest [need] batches of [m]'s inherited run: the loop over
    [m.kept.iter().enumerate().rev()]. *)
Fixpoint kept_run (base0 : Z) (ks : list (nat * KeptMember)) (need : nat)
    (run : list KeptMember) (all_inherited : bool) (run_base : Z) : list KeptMember * bool * Z :=
  match ks with
  | [] => (run, all_inherited, run_base)
  | (ki, k) :: ks' =>
      if (need =? 0)%nat then (run, false, run_base)
      else
        let t := Nat.min need (Z.to_nat (km_batches k)) in
        let run := run ++ [mkKept (km_version k) (wrap32 (Z.of_nat t)) 0] in
        let partial_in_m := (ki =? 0)%nat && (base0 =? km_version k) in
        if Z.of_nat t <? km_batches k then kept_run base0 ks' (need - t) run false (km_version k)
        else if partial_in_m then kept_run base0 ks' (need - t) run all_inherited (km_version k)
        else kept_run base0 ks' (need - t) run all_inherited (wrap64 (km_version k - 1))
  end.

(** Member accounting for one part: the members it adds and the base so far. *)
Definition window_account (oldest : bool) (m : Manifest) (take : nat) (base : Z) : list KeptMember * Z :=
  let inherited := Z.to_nat (sum_batches (kept m)) in
  let own_new := (length (batch_spans m) - inherited)%nat in
  if (take <=? own_new)%nat then
    (if (0 <? take)%nat then [mkKept (version m) (wrap32 (Z.of_nat take)) 0] else [],
     if oldest then
       if (take <? own_new)%nat || (match prev m with None => true | Some _ => false end && negb (is_window_root m))
       then version m else wrap64 (version m - 1)
     else base)
  else
    let '(run, all_inherited, run_base) :=
      kept_run (window_base m) (rev (imap (fun i k => (i, k)) (kept m))) (take - own_new) [] true (window_base m) in
    (rev run ++ (if (0 <? own_new)%nat then [mkKept (version m) (wrap32 (Z.of_nat own_new)) 0] else []),
     if oldest then (if all_inherited : bool then window_base m else run_base) else base).

Fixpoint window_loop (oldest : bool) (parts : list (Manifest * nat)) (w : WindowSet) : result ArtifactError WindowSet :=
  match parts with
  | [] => Ok w
  | (m, take) :: parts' =>
      match tail_chunks m take with
      | None => Err VersionGone
      | Some tc =>
          let '(ms, base) := window_account oldest m take (w_base w) in
          window_loop false parts'
            (mkWindow (w_chunks w ++ tc) (w_spans w ++ tail_spans m take) (w_members w ++ ms) base)
      end
  end.

(** [collect_window] without its references on the kept chunks. *)
Definition window_set (prior : Manifest) (keep : Z) (members : list Manifest) : result ArtifactError WindowSet :=
  window_loop true (rev (window_parts (Z.to_nat keep) members)) (mkWindow [] [] [] (version prior)).

(** ** The manifest of a commit *)

(** The manifest a reader parses from what [write_manifest] writes. *)
Definition built (name_id target schema : Z) (cs : list ChunkDesc) (spans : list Z)
    (link : option ManifestLink) (window : option (Z * list KeptMember)) : result ArtifactError Manifest :=
  let? h := manifest_header name_id target schema cs spans link window in
  let '(base, ks) := default (0, []) window in
  Ok (mkManifest name_id target schema cs spans
    (match link with
     | None => None
     | Some l => Some (mkLink (lk_version l) (lk_mref l) (lk_generation l) (vm_depth h - 1)
                         (vm_total_batches h - vm_batch_count h))
     end)
    (vm_depth h) (vm_total_batches h) base ks).

(** The version of a manifest chain by number: [hist] holds version [i + 1] at index [i]. *)
Definition manifest_at (hist : list Manifest) (v : Z) : option Manifest :=
  if v <=? 0 then None else hist !! Z.to_nat (v - 1).

Definition read_by_version (hist : list Manifest) (l : ManifestLink) : prog unit (result ArtifactError Manifest) :=
  Ret (ok_or (manifest_at hist (lk_version l)) VersionGone).

Definition alone {A} (p : prog unit (result ArtifactError A)) : result ArtifactError A :=
  match run p tt with Some (r, _) => r | None => Err VersionGone end.

(** The new manifest's own lists: kept, in row order, then staged. *)
Definition own_lists (w : WindowSet) (staged : list ChunkDesc) (staged_spans : list Z) : list ChunkDesc * list Z :=
  match w_chunks w with
  | [] => (staged, staged_spans)
  | _ :: _ => (w_chunks w ++ staged, w_spans w ++ staged_spans)
  end.

(** One commit over a lineage: [mref] and [generation] are where its predecessor's
    manifest lives. *)
Definition commit_manifest (name_id schema : Z) (hist : list Manifest) (c : Commit) (mref : PackedRef) (generation : Z)
    (staged : list ChunkDesc) (staged_spans : list Z) : result ArtifactError Manifest :=
  let expect := Z.of_nat (length hist) in
  let target := expect + 1 in
  match c, manifest_at hist expect with
  | Patch _ _, _ => Err Unsupported
  | Append, Some prior =>
      if negb (mf_schema_id prior =? schema) then Err Unsupported
      else built name_id target schema staged staged_spans (Some (link_from prior mref generation)) None
  | Window keep, Some prior =>
      if negb (mf_schema_id prior =? schema) then Err Unsupported
      else
        let? members :=
          if (Z.to_nat keep =? 0)%nat then Ok []
          else alone (walk_chain_newest_first prior (read_by_version hist) window_stop (Z.to_nat keep)) in
        let? w := window_set prior keep members in
        let '(own_chunks, own_spans) := own_lists w staged staged_spans in
        built name_id target schema own_chunks own_spans None (Some (w_base w, w_members w))
  | _, _ => built name_id target schema staged staged_spans None None
  end.

(** The depth of the current version's manifest, [None] when nothing is committed. *)
Definition current_depth (hist : list Manifest) : option Z := depth <$> manifest_at hist (Z.of_nat (length hist)).

(** The kind of commit [commit_windowed] makes under a policy. *)
Definition commit_windowed (p : WindowPolicy) (hist : list Manifest) : Commit := commit_for_depth p (current_depth hist).

(** ** Reading a version *)

(** [batches_of] for one manifest: its groups of chunks, less the first [skip]. *)
Fixpoint groups_from (cs : list ChunkDesc) (skip : nat) (spans : list Z) (bi idx : nat)
    : result ArtifactError (list (list ChunkDesc)) :=
  match spans with
  | [] => Ok []
  | s :: spans' =>
      let stop := (idx + Z.to_nat s)%nat in
      if (bi <? skip)%nat then groups_from cs skip spans' (S bi) stop
      else
        let? group := ok_or (slice_get cs idx stop) (Core OutOfBounds) in
        let? rest := groups_from cs skip spans' (S bi) stop in
        Ok (group :: rest)
  end.

Definition manifest_groups (skip : nat) (m : Manifest) : result ArtifactError (list (list ChunkDesc)) :=
  groups_from (chunks m) skip (batch_spans m) 0 0.

(** [batches_of]: every batch of an oldest-first chain, less [skip] of the oldest member's. *)
Fixpoint batches_of (chain : list Manifest) (skip : nat) : result ArtifactError (list (list ChunkDesc)) :=
  match chain with
  | [] => Ok []
  | m :: ms =>
      let? gs := manifest_groups skip m in
      let? rest := batches_of ms 0 in
      Ok (gs ++ rest)
  end.

Record Delta : Set := mkDelta { batches : list (list ChunkDesc); from_version : Z; truncated : bool }.

Section reads.
Context {S : Type} (read_prev : ManifestLink -> prog S (result ArtifactError Manifest)).

Definition as_arrow_batches (head : Manifest) : prog S (result ArtifactError (list (list ChunkDesc))) :=
  chain <- walk_chain_with head read_prev ;;
  Ret (let? chain := chain in batches_of chain 0).

Definition delta_stop (since : Z) (x : unit) (m : Manifest) : unit * bool :=
  (x, match prev m with None => true | Some l => lk_version l <=? since end).

(** What an oldest-first partial chain tells a reader holding [since]. *)
Definition delta_of (since : Z) (chain : list Manifest) : result ArtifactError Delta :=
  match chain with
  | [] => Err VersionGone
  | oldest :: _ =>
      let '(skip, truncated) :=
        if (since =? 0) || match prev oldest with Some _ => true | None => false end then (0, false)
        else match kept_batches_before oldest since with Some skip => (skip, false) | None => (0, true) end in
      let? bs := batches_of chain (Z.to_nat skip) in
      Ok (mkDelta bs (version oldest) truncated)
  end.

Definition batches_since (head : Manifest) (since : Z) : prog S (result ArtifactError Delta) :=
  if version head <=? since then Ret (Ok (mkDelta [] (version head) false))
  else
    chain <- walk_chain_newest_first head read_prev (delta_stop since) tt ;;
    Ret (let? chain := chain in delta_of since (rev chain)).
End reads.
