(* ===== verification/WindowSpec.v ===== *)
(** * Tables of a lineage

    What the chained and windowed manifests stand for.  A version's table is a list of
    batches: [Replace] starts afresh, [Append] adds, [Window k] keeps the newest [k] and
    adds.  Labelling every batch with the version that added it, the table of a version is
    always a suffix of the log of everything ever committed, and all of the code's window
    accounting is about where that suffix starts. *)

From S2P Require Import Prelude Atomic ChunkDesc Manifest Window.

Abbreviation batch := (list ChunkDesc).

(** A commit: its kind, its batches, and where its predecessor's manifest lived. *)
Record entry : Set := mkEntry { e_commit : Commit; e_new : list batch; e_mref : PackedRef; e_gen : Z }.

Definition spans_of (gs : list batch) : list Z := (Z.of_nat ∘ length) <$> gs.

(** The manifests of a sequence of commits, oldest first. *)
Definition lineage (name_id schema : Z) (es : list entry) : result ArtifactError (list Manifest) :=
  foldl (fun r e =>
    let? hist := r in
    let? m := commit_manifest name_id schema hist (e_commit e) (e_mref e) (e_gen e) (concat (e_new e)) (spans_of (e_new e)) in
    Ok (hist ++ [m])) (Ok []) es.

Definition lastn {A} (n : nat) (l : list A) : list A := drop (length l - n) l.

(** ** The specification *)

Definition apply_commit (t : list batch) (e : entry) : list batch :=
  match e_commit e with
  | Replace => e_new e
  | Append => t ++ e_new e
  | Window k => lastn (Z.to_nat k) t ++ e_new e
  | Patch _ _ => t
  end.

Definition table (es : list entry) : list batch := foldl apply_commit [] es.

(** ** Labelled tables and the log *)

Abbreviation lbatch := (Z * batch)%type.

Definition lab (v : Z) (gs : list batch) : list lbatch := pair v <$> gs.

Definition log (es : list entry) : list lbatch := concat (imap (fun i e => lab (Z.of_nat i + 1) (e_new e)) es).

Definition ltable_step (t : list lbatch) (x : nat * entry) : list lbatch :=
  let new := lab (Z.of_nat x.1 + 1) (e_new x.2) in
  match e_commit x.2 with
  | Replace => new
  | Append => t ++ new
  | Window k => lastn (Z.to_nat k) t ++ new
  | Patch _ _ => t
  end.

Definition ltable (es : list entry) : list lbatch := foldl ltable_step [] (imap pair es).

Definition is_patch (c : Commit) : bool := match c with Patch _ _ => true | _ => false end.

Lemma length_lab v gs : length (lab v gs) = length gs.
Proof. apply length_fmap. Qed.

Lemma lab_snd v gs : snd <$> lab v gs = gs.
Proof. unfold lab. rewrite <- list_fmap_compose. apply list_fmap_id. Qed.

Lemma lab_fst v gs : fst <$> lab v gs = replicate (length gs) v.
Proof. induction gs as [|g gs IH]; [done|]. cbn. by f_equal. Qed.

Lemma lab_label v gs x : x ∈ lab v gs -> x.1 = v.
Proof. intros (g & -> & _)%list_elem_of_fmap. done. Qed.

Lemma log_snoc es e : log (es ++ [e]) = log es ++ lab (Z.of_nat (length es) + 1) (e_new e).
Proof. unfold log. rewrite imap_app, concat_app. cbn. by rewrite app_nil_r, Nat.add_0_r. Qed.

Lemma ltable_snoc es e : ltable (es ++ [e]) = ltable_step (ltable es) (length es, e).
Proof. unfold ltable. rewrite imap_app, foldl_app. cbn. by rewrite Nat.add_0_r. Qed.

Lemma table_snoc es e : table (es ++ [e]) = apply_commit (table es) e.
Proof. unfold table. by rewrite foldl_app. Qed.

Lemma lastn_fmap {A B} (f : A -> B) n l : f <$> lastn n l = lastn n (f <$> l).
Proof. unfold lastn. by rewrite fmap_drop, length_fmap. Qed.

Lemma lastn_suffix {A} n (l : list A) : lastn n l `suffix_of` l.
Proof. apply suffix_drop. Qed.

Lemma lastn_app_le {A} n (l k : list A) : (n <= length k)%nat -> lastn n (l ++ k) = lastn n k.
Proof.
  intros H. unfold lastn. rewrite length_app, drop_app_ge by lia. f_equal. lia.
Qed.

Lemma lastn_app_ge {A} n (l k : list A) : (length k <= n)%nat -> lastn n (l ++ k) = lastn (n - length k) l ++ k.
Proof.
  intros H. unfold lastn. rewrite length_app, drop_app.
  replace (length l + length k - n - length l)%nat with 0%nat by lia. rewrite drop_0. do 2 f_equal. lia.
Qed.

Lemma lastn_all {A} n (l : list A) : (length l <= n)%nat -> lastn n l = l.
Proof. intros H. unfold lastn. by replace (length l - n)%nat with 0%nat by lia. Qed.

Lemma length_lastn {A} n (l : list A) : length (lastn n l) = (n `min` length l)%nat.
Proof. unfold lastn. rewrite length_drop. lia. Qed.

Lemma lastn_0 {A} (l : list A) : lastn 0 l = [].
Proof. unfold lastn. rewrite Nat.sub_0_r. apply drop_all. Qed.

Lemma ltable_snd es : snd <$> ltable es = table es.
Proof.
  induction es as [|e es IH] using rev_ind; [done|]. rewrite ltable_snoc, table_snoc. unfold ltable_step, apply_commit. cbn.
  destruct (e_commit e); rewrite ?fmap_app, ?lab_snd, ?lastn_fmap, ?IH; done.
Qed.

Lemma ltable_suffix es : Forall (fun e => is_patch (e_commit e) = false) es -> ltable es `suffix_of` log es.
Proof.
  induction es as [|e es IH] using rev_ind; intros Hp; [done|]. apply Forall_app in Hp as [Hp He].
  inversion He as [|? ? Hpe _]; subst. rewrite ltable_snoc, log_snoc. unfold ltable_step. cbn. specialize (IH Hp).
  destruct (e_commit e); [by apply suffix_app_r|..|done].
  - by apply suffix_app.
  - apply suffix_app. etrans; [apply lastn_suffix|done].
Qed.

(** Versions in the log never decrease and are at most the number of commits. *)
Lemma log_labels es x : x ∈ log es -> 1 <= x.1 <= Z.of_nat (length es).
Proof.
  induction es as [|e es IH] using rev_ind; intros Hx; [by apply elem_of_nil in Hx|].
  rewrite log_snoc, elem_of_app in Hx. rewrite length_app. cbn. destruct Hx as [Hx|Hx%lab_label]; [apply IH in Hx|]; lia.
Qed.

(** The batches committed after version [s]. *)
Definition later (s : nat) (es : list entry) : list lbatch := drop (length (log (take s es))) (log es).

Lemma log_prefix s es : log (take s es) `prefix_of` log es.
Proof.
  induction es as [|e es IH] using rev_ind; [by rewrite take_nil|].
  destruct (Nat.le_gt_cases s (length es)) as [Hs|Hs].
  - rewrite take_app_le by done. rewrite log_snoc. by apply prefix_app_r.
  - rewrite take_ge; [done|]. rewrite length_app. cbn. lia.
Qed.

Lemma log_split s es : log es = log (take s es) ++ later s es.
Proof. unfold later. destruct (log_prefix s es) as [k E]. rewrite E at 1. rewrite E, drop_app_length. done. Qed.

Lemma later_snoc s es e : (s <= length es)%nat ->
  later s (es ++ [e]) = later s es ++ lab (Z.of_nat (length es) + 1) (e_new e).
Proof.
  intros Hs. unfold later. rewrite take_app_le by done. rewrite log_snoc, drop_app_le; [done|].
  destruct (log_prefix s es) as [k ->]. rewrite length_app. lia.
Qed.

Lemma later_all es : later (length es) es = [].
Proof. unfold later. rewrite take_ge by done. apply drop_all. Qed.

Lemma later_labels s es x : (s <= length es)%nat -> x ∈ later s es -> Z.of_nat s < x.1.
Proof.
  induction es as [|e es IH] using rev_ind; intros Hs Hx.
  - unfold later in Hx. change (log []) with (@nil lbatch) in Hx. rewrite drop_nil in Hx. by apply elem_of_nil in Hx.
  - rewrite length_app in Hs. cbn in Hs. destruct (decide (s = S (length es))) as [->|].
    + replace (S (length es)) with (length (es ++ [e])) in Hx by (rewrite length_app; cbn; lia).
      rewrite later_all in Hx. by apply elem_of_nil in Hx.
    + rewrite later_snoc, elem_of_app in Hx by lia. destruct Hx as [Hx|Hx%lab_label]; [apply IH in Hx; lia|lia].
Qed.

Lemma later_snd s es : (s <= length es)%nat -> snd <$> later s es = concat (e_new <$> drop s es).
Proof.
  induction es as [|e es IH] using rev_ind; intros Hs.
  - unfold later. change (log []) with (@nil lbatch). by rewrite !drop_nil.
  - rewrite length_app in Hs. cbn in Hs. destruct (decide (s = S (length es))) as [->|].
    + replace (S (length es)) with (length (es ++ [e])) by (rewrite length_app; cbn; lia).
      by rewrite later_all, drop_all.
    + rewrite later_snoc, drop_app_le, !fmap_app, concat_app, IH, lab_snd by lia. cbn. by rewrite app_nil_r.
Qed.

(** A [Replace] drops everything older than itself. *)
Lemma ltable_after_replace es r e x :
  es !! r = Some e -> e_commit e = Replace -> x ∈ ltable es -> Z.of_nat r + 1 <= x.1.
Proof.
  induction es as [|e' es IH] using rev_ind; intros Hr He Hx; [done|].
  pose proof (lookup_lt_Some _ _ _ Hr) as Hlt. rewrite length_app in Hlt. cbn in Hlt.
  rewrite ltable_snoc in Hx. unfold ltable_step in Hx. cbn in Hx.
  destruct (decide (r = length es)) as [->|Hne].
  - rewrite list_lookup_middle in Hr by done. simplify_eq. rewrite He in Hx. apply lab_label in Hx. lia.
  - rewrite lookup_app_l in Hr by lia. specialize (IH Hr He).
    assert (x ∈ ltable es \/ x.1 = Z.of_nat (length es) + 1) as [Hx'|Hx']; [|by apply IH|lia].
    destruct (e_commit e'); [right; by eapply lab_label|..|by left].
    + apply elem_of_app in Hx as [?|?%lab_label]; auto.
    + apply elem_of_app in Hx as [Hx|?%lab_label]; [|by right]. left. destruct (lastn_suffix (Z.to_nat keep_batches) (ltable es)) as [k ->].
      apply elem_of_app. by right.
Qed.
