(* ===== verification/WindowProof.v ===== *)
(** * Windows and deltas are exact: proof

    Every manifest of a lineage is tied to the labelled table it stands for ([node]); each
    commit preserves the tie. *)

From S2P Require Import Prelude Atomic ChunkDesc Manifest Window WindowSpec.

(** ** Suffixes of the log *)

Lemma suffix_comparable {A} (a b l : list A) :
  a `suffix_of` l -> b `suffix_of` l -> a `suffix_of` b \/ b `suffix_of` a.
Proof.
  intros [x Ex] [y Ey]. rewrite Ex in Ey. clear Ex. revert y Ey. induction x as [|c x IH]; intros y E.
  - right. by exists y.
  - destruct y as [|d y]; cbn in E; [left; by exists (c :: x)|]. injection E as -> E. by apply (IH y).
Qed.

Definition no_replace (s : nat) (es : list entry) : Prop :=
  forall r e, (s <= r)%nat -> es !! r = Some e -> e_commit e <> Replace.

Lemma old_batch_no_replace s es x : x ∈ ltable es -> x.1 <= Z.of_nat s -> no_replace s es.
Proof. intros Hx Hs r e Hr He E. pose proof (ltable_after_replace es r e x He E Hx). lia. Qed.

(** A suffix that reaches back to version [s] holds everything after it. *)
Lemma later_suffix s es l x :
  (s <= length es)%nat -> l `suffix_of` log es -> x ∈ l -> x.1 <= Z.of_nat s -> later s es `suffix_of` l.
Proof.
  intros Hs Hl Hx Hxs.
  assert (later s es `suffix_of` log es) as Hs' by (rewrite (log_split s es); by apply suffix_app_r).
  destruct (suffix_comparable l (later s es) (log es) Hl Hs') as [[k E]|H]; [|done].
  assert (x ∈ later s es) as Hin by (rewrite E; apply elem_of_app; by right).
  apply later_labels in Hin; [lia|done].
Qed.

(** So does one whose complement in such a suffix is no newer than [s]. *)
Lemma later_suffix_rest s es l q x :
  (s <= length es)%nat -> q ++ l `suffix_of` log es -> x ∈ q -> (forall y, y ∈ q -> y.1 <= Z.of_nat s) ->
  later s es `suffix_of` l.
Proof.
  intros Hs Hl Hx Hq. pose proof (later_suffix s es (q ++ l) x Hs Hl ltac:(apply elem_of_app; by left) (Hq x Hx)) as H.
  destruct (suffix_comparable l (later s es) (q ++ l) ltac:(by exists q) H) as [H'|H']; [|done].
  destruct H' as [k E]. destruct k as [|y k _] using rev_ind; [cbn in E; rewrite E; done|].
  destruct H as [j Ej]. rewrite E, app_assoc in Ej. apply app_inv_tail in Ej.
  assert (y ∈ q) as Hy by (rewrite Ej, !elem_of_app; right; right; by apply list_elem_of_here).
  assert (y ∈ later s es) as Hy' by (rewrite E, !elem_of_app; left; right; by apply list_elem_of_here).
  apply later_labels in Hy'; [|done]. specialize (Hq y Hy). lia.
Qed.

(** ** Member tables *)

Definition expand (ks : list KeptMember) : list Z :=
  concat ((fun k => replicate (Z.to_nat (km_batches k)) (km_version k)) <$> ks).

(** Versions strictly increase from above [lo]; counts are positive [u32]s. *)
Fixpoint increasing (lo : Z) (ks : list KeptMember) : Prop :=
  match ks with
  | [] => True
  | k :: ks' => lo < km_version k /\ 0 < km_batches k < U32_MOD /\ km_pad k = 0 /\ increasing (km_version k) ks'
  end.

Lemma increasing_app lo hi a b :
  increasing lo a -> Forall (fun k => km_version k <= hi) a -> lo <= hi -> increasing hi b -> increasing lo (a ++ b).
Proof.
  revert lo. induction a as [|k a IH]; intros lo Ha Hf Hle Hb; cbn in *.
  - destruct b as [|k b]; [done|]. cbn in *. split_and!; try tauto. lia.
  - inversion Hf; subst. destruct Ha as (? & ? & ? & ?). split_and!; try done; try lia; apply IH; try done; lia.
Qed.

Lemma increasing_split lo a k b : increasing lo (a ++ k :: b) ->
  increasing (km_version k) b /\ lo < km_version k /\ 0 < km_batches k < U32_MOD /\ km_pad k = 0 /\
  Forall (fun x => lo < km_version x < km_version k) a.
Proof.
  revert lo. induction a as [|x a IH]; intros lo; cbn.
  - intros (? & ? & ? & ?). split_and!; try done; lia || constructor.
  - intros (H1 & ? & ? & H2). apply IH in H2 as (? & ? & ? & ? & Hf). split_and!; try done; try lia.
    constructor; [lia|]. eapply Forall_impl; [|exact Hf]. cbn. lia.
Qed.

Lemma increasing_weaken lo lo' ks : lo' <= lo -> increasing lo ks -> increasing lo' ks.
Proof. destruct ks; cbn; [done|]. intros ? (? & ?). split; [lia|done]. Qed.

Lemma expand_app a b : expand (a ++ b) = expand a ++ expand b.
Proof. unfold expand. by rewrite fmap_app, concat_app. Qed.

Lemma length_expand ks : Forall (fun k => 0 <= km_batches k) ks -> Z.of_nat (length (expand ks)) = sum_batches ks.
Proof.
  induction 1 as [|k ks Hk _ IH]; [done|]. change (expand (k :: ks)) with (replicate (Z.to_nat (km_batches k)) (km_version k) ++ expand ks).
  rewrite length_app, length_replicate. cbn [sum_batches foldr]. fold (sum_batches ks). lia.
Qed.

Lemma increasing_counts lo ks : increasing lo ks -> Forall (fun k => 0 <= km_batches k) ks.
Proof. revert lo. induction ks as [|k ks IH]; intros lo; cbn; constructor; [lia|]. eapply IH. naive_solver. Qed.

Lemma expand_cons k ks : expand (k :: ks) = replicate (Z.to_nat (km_batches k)) (km_version k) ++ expand ks.
Proof. done. Qed.

Lemma lastn_replicate {A} n m (x : A) : lastn n (replicate m x) = replicate (n `min` m) x.
Proof. unfold lastn. rewrite length_replicate, drop_replicate. f_equal. lia. Qed.

(** Where a run of [need] batches starts inside the member table. *)
Definition run_starts (pre : list KeptMember) (rb : Z) (ks : list KeptMember) : Prop :=
  exists pre1 k pre2 t, pre = pre1 ++ k :: pre2 /\ ks = mkKept (km_version k) t 0 :: pre2 /\ 0 < t <= km_batches k /\
    (t < km_batches k /\ rb = km_version k \/ t = km_batches k /\ pre1 <> [] /\ rb = km_version k - 1).

Lemma rev_imap_snoc (pre : list KeptMember) k :
  rev (imap (fun i k => (i, k)) (pre ++ [k])) = (length pre, k) :: rev (imap (fun i k => (i, k)) pre).
Proof. rewrite imap_app, rev_app_distr. cbn. by rewrite Nat.add_0_r. Qed.

Lemma kept_run_0 base0 l run0 rb : kept_run base0 l 0 run0 false rb = (run0, false, rb).
Proof. by destruct l as [|[ki k] l]. Qed.

Lemma increasing_app_l lo a b : increasing lo (a ++ b) -> increasing lo a.
Proof. revert lo. induction a as [|k a IH]; intros lo; cbn; [done|]. naive_solver. Qed.

Lemma kept_run_spec base0 pre need run0 ai rb :
  increasing 0 pre -> Forall (fun k => km_version k < U64_MOD) pre ->
  exists ks ai' rb', kept_run base0 (rev (imap (fun i k => (i, k)) pre)) need run0 ai rb = (run0 ++ rev ks, ai', rb') /\
    expand ks = lastn need (expand pre) /\
    ((length (expand pre) <= need)%nat -> ks = pre /\ ai' = ai) /\
    ((need < length (expand pre))%nat -> ai' = false /\ (need = 0%nat -> ks = [] /\ rb' = rb) /\
      ((0 < need)%nat -> run_starts pre rb' ks)).
Proof.
  revert need run0 ai rb. induction pre as [|k pre IH] using rev_ind; intros need run0 ai rb Hinc Hv.
  { exists [], ai, rb. cbn. rewrite app_nil_r. split_and!; try done; lia. }
  pose proof (increasing_split 0 pre k [] Hinc) as (_ & Hk0 & Hkb & Hpad & _). apply increasing_app_l in Hinc.
  apply Forall_app in Hv as [Hv Hvk]. apply list.Forall_cons in Hvk as [Hvk _].
  rewrite rev_imap_snoc. cbn [kept_run].
  assert (expand [k] = replicate (Z.to_nat (km_batches k)) (km_version k)) as Ek by (cbn; by rewrite app_nil_r).
  rewrite expand_app, Ek, length_app, length_replicate.
  destruct (Nat.eqb_spec need 0) as [->|Hneed].
  { exists [], false, rb. cbn [rev]. rewrite app_nil_r, lastn_0. split_and!; try done; intros; [exfalso; lia|split_and!; [done|done|lia]]. }
  set (t := (need `min` Z.to_nat (km_batches k))%nat).
  assert (wrap32 (Z.of_nat t) = Z.of_nat t) as -> by (apply wrap32_id; subst t; mach).
  assert (wrap64 (km_version k - 1) = km_version k - 1) as -> by (apply wrap64_id; mach).
  destruct (Z.ltb_spec (Z.of_nat t) (km_batches k)) as [Ht|Ht].
  - replace (need - t)%nat with 0%nat by lia. rewrite kept_run_0.
    exists [mkKept (km_version k) (Z.of_nat t) 0], false, (km_version k). split_and!; [done| |lia|].
    + rewrite lastn_app_le, lastn_replicate by (rewrite length_replicate; lia). cbn. rewrite app_nil_r. f_equal. lia.
    + intros _. split_and!; [done|lia|]. intros _. exists pre, k, [], (Z.of_nat t). split_and!; try done; try lia.
  - assert (mkKept (km_version k) (Z.of_nat t) 0 = k) as -> by (destruct k; cbn in *; f_equal; lia).
    assert (exists rb1, (if (length pre =? 0)%nat && (base0 =? km_version k)
        then kept_run base0 (rev (imap (fun i k => (i, k)) pre)) (need - t) (run0 ++ [k]) ai (km_version k)
        else kept_run base0 (rev (imap (fun i k => (i, k)) pre)) (need - t) (run0 ++ [k]) ai (km_version k - 1)) =
        kept_run base0 (rev (imap (fun i k => (i, k)) pre)) (need - t) (run0 ++ [k]) ai rb1 /\
        (pre <> [] -> rb1 = km_version k - 1)) as (rb1 & -> & Hrb1).
    { destruct pre as [|x pre]; [|exists (km_version k - 1); done]. cbn. destruct (_ =? _); eexists; (split; [reflexivity|done]). }
    destruct (IH (need - t)%nat (run0 ++ [k]) ai rb1 Hinc Hv) as (ks & ai' & rb' & -> & Eks & Hall & Hpart).
    exists (ks ++ [k]), ai', rb'. rewrite rev_app_distr. cbn [rev app].
    split_and!; [by rewrite <- app_assoc| | |].
    + rewrite expand_app, Ek, Eks, lastn_app_ge by (rewrite length_replicate; lia). rewrite length_replicate. do 3 f_equal. lia.
    + intros H. destruct Hall as [-> ->]; [lia|done].
    + intros H. destruct Hpart as (-> & H0 & Hpos); [lia|]. split_and!; [done|lia|]. intros _.
      destruct (decide (need - t = 0)%nat) as [E0|E0].
      * destruct (H0 E0) as [-> ->]. exists pre, k, [], (km_batches k). destruct k; cbn in *. subst. split_and!; try done; try lia.
        right. assert (pre <> []) by (intros ->; cbn in H; lia). auto.
      * destruct Hpos as (p1 & k1 & p2 & t1 & -> & -> & Ht1 & Hd); [lia|].
        exists p1, k1, (p2 ++ [k]), t1. rewrite <- app_assoc. done.
Qed.

(** ** Groups of chunks *)

(** [m] lists the batches [gs]. *)
Definition lists (m : Manifest) (gs : list batch) : Prop := chunks m = concat gs /\ batch_spans m = spans_of gs.

Lemma length_spans_of gs : length (spans_of gs) = length gs.
Proof. apply length_fmap. Qed.

Lemma spans_of_app a b : spans_of (a ++ b) = spans_of a ++ spans_of b.
Proof. apply fmap_app. Qed.

Lemma sum_spans_of gs : sum_spans (spans_of gs) = length (concat gs).
Proof.
  induction gs as [|g gs IH]; [done|]. unfold sum_spans in *. cbn. rewrite length_app. unfold spans_of in IH. rewrite IH. lia.
Qed.

Lemma lists_tail m gs n : lists m gs -> (n <= length gs)%nat ->
  tail_spans m n = spans_of (lastn n gs) /\ tail_chunks m n = Some (concat (lastn n gs)).
Proof.
  intros [Ec Es] Hn. assert (tail_spans m n = spans_of (lastn n gs)) as Et.
  { unfold tail_spans, lastn, spans_of. rewrite Es. unfold spans_of. by rewrite length_fmap, fmap_drop. }
  split; [done|]. unfold tail_chunks. rewrite Et, sum_spans_of, Ec.
  assert (concat gs = concat (take (length gs - n) gs) ++ concat (lastn n gs)) as ->
    by (rewrite <- concat_app; unfold lastn; by rewrite take_drop).
  rewrite length_app, (proj2 (Nat.ltb_ge _ _)) by lia. f_equal. rewrite Nat.add_sub. apply drop_app_length.
Qed.

Lemma groups_from_spec pre gs skip bi :
  groups_from (concat pre ++ concat gs) skip (spans_of gs) bi (length (concat pre)) = Ok (drop (skip - bi) gs).
Proof.
  revert pre bi. induction gs as [|g gs IH]; intros pre bi; [by rewrite drop_nil|].
  change (spans_of (g :: gs)) with (Z.of_nat (length g) :: spans_of gs). cbn [groups_from concat]. rewrite Nat2Z.id.
  assert (concat pre ++ g ++ concat gs = concat (pre ++ [g]) ++ concat gs) as E
    by (rewrite concat_app, <- app_assoc; cbn; by rewrite app_nil_r).
  assert ((length (concat pre) + length g)%nat = length (concat (pre ++ [g]))) as El
    by (rewrite concat_app, length_app; cbn; by rewrite app_nil_r).
  destruct (Nat.ltb_spec bi skip) as [Hlt|Hge].
  - rewrite E, El, IH. replace (skip - bi)%nat with (S (skip - S bi)) by lia. done.
  - rewrite slice_get_app. cbn [ok_or rbind]. rewrite E, El, IH. cbn [rbind].
    replace (skip - bi)%nat with 0%nat by lia. by replace (skip - S bi)%nat with 0%nat by lia.
Qed.

Lemma manifest_groups_spec m gs skip : lists m gs -> manifest_groups skip m = Ok (drop skip gs).
Proof. intros [Ec Es]. unfold manifest_groups. rewrite Ec, Es. rewrite <- (Nat.sub_0_r skip) at 2. exact (groups_from_spec [] gs skip 0). Qed.

(** ** One manifest of a lineage *)

Section lineage.
Context (name_id schema : Z).
Implicit Types (es : list entry) (hist : list Manifest) (m : Manifest) (i : nat).

(** Version [i + 1] of the history [es]. *)
Definition new_at (es : list entry) (i : nat) : list batch := match es !! i with Some e => e_new e | None => [] end.
Abbreviation T es i := (ltable (take i es)).

(** A root's labels: what it kept, then its own. *)
Definition root_ok (es : list entry) (i : nat) (m : Manifest) : Prop :=
  depth m = 0 /\ lists m (snd <$> T es (S i)) /\
  fst <$> T es (S i) = expand (kept m) ++ replicate (length (new_at es i)) (Z.of_nat i + 1) /\
  increasing 0 (kept m) /\ Forall (fun k => km_version k <= Z.of_nat i) (kept m) /\ 0 <= window_base m <= Z.of_nat i /\
  (forall k, head (kept m) = Some k -> window_base m <= km_version k) /\
  (is_window_root m = true -> 1 <= window_base m) /\
  ((0 < i)%nat -> is_window_root m = false -> exists e, es !! i = Some e /\ e_commit e = Replace) /\
  (is_window_root m = true -> forall s, window_base m <= Z.of_nat s -> (s < S i)%nat ->
     later s (take (S i) es) `suffix_of` T es (S i) /\ no_replace s (take (S i) es)).

Definition linked_ok (es : list entry) (hist : list Manifest) (i : nat) (m : Manifest) (l : ManifestLink) : Prop :=
  lk_version l = Z.of_nat i /\ (0 < i)%nat /\ kept m = [] /\ lists m (new_at es i) /\
  T es (S i) = T es i ++ lab (Z.of_nat i + 1) (new_at es i) /\ no_replace i (take (S i) es) /\
  exists p, hist !! (i - 1)%nat = Some p /\ lk_depth l = depth p /\ lk_total_batches l = total_batches p /\
    depth m = depth p + 1.

Definition node (es : list entry) (hist : list Manifest) (i : nat) (m : Manifest) : Prop :=
  version m = Z.of_nat i + 1 /\ artifact_id m = name_id /\ mf_schema_id m = schema /\
  total_batches m = Z.of_nat (length (T es (S i))) /\
  match prev m with None => root_ok es i m | Some l => linked_ok es hist i m l end.

(** The history fits the widths of the manifest format, links have an address, and a batch
    has at least one chunk. *)
Definition fits (es : list entry) : Prop :=
  Forall (fun e => is_patch (e_commit e) = false /\ (e_commit e = Append -> bits (e_mref e) <> 0) /\
    Forall (fun g => g <> []) (e_new e)) es /\
  Z.of_nat (length es) < U32_MAX /\ Z.of_nat (length (log es)) < U32_MOD /\
  Z.of_nat (length (concat (snd <$> log es))) < U32_MOD.

Definition tied (es : list entry) (hist : list Manifest) : Prop :=
  length hist = length es /\ forall i m, hist !! i = Some m -> node es hist i m.

(** The batches a manifest lists itself. *)
Definition own (es : list entry) (i : nat) (m : Manifest) : list lbatch :=
  match prev m with None => T es (S i) | Some _ => lab (Z.of_nat i + 1) (new_at es i) end.

Lemma node_lists es hist i m : node es hist i m -> lists m (snd <$> own es i m).
Proof. intros (_ & _ & _ & _ & H). unfold own. destruct (prev m); [rewrite lab_snd|]; apply H. Qed.

Lemma length_own es hist i m : node es hist i m -> length (batch_spans m) = length (own es i m).
Proof. intros H. destruct (node_lists _ _ _ _ H) as [_ ->]. by rewrite length_spans_of, length_fmap. Qed.

Lemma take_snoc es i e : es !! i = Some e -> take (S i) es = take i es ++ [e] /\ length (take i es) = i.
Proof. intros H. split; [by apply take_S_r|]. rewrite length_take. apply lookup_lt_Some in H. lia. Qed.

Lemma later_last es i e : es !! i = Some e -> later i (take (S i) es) = lab (Z.of_nat i + 1) (e_new e).
Proof.
  intros H. destruct (take_snoc es i e H) as [-> El]. rewrite later_snoc by lia. rewrite El. rewrite <- El at 1. by rewrite later_all.
Qed.

Lemma fits_patch es : fits es -> Forall (fun e => is_patch (e_commit e) = false) es.
Proof. intros [H _]. eapply Forall_impl; [|exact H]. naive_solver. Qed.

Lemma log_nonempty es x : fits es -> x ∈ log es -> x.2 <> [].
Proof.
  intros [H _]. induction es as [|e es IH] using rev_ind; intros Hx; [by apply elem_of_nil in Hx|].
  apply Forall_app in H as [H He]. apply list.Forall_cons in He as [(_ & _ & He) _].
  rewrite log_snoc in Hx. apply elem_of_app in Hx as [Hx|Hx]; [by apply IH|].
  unfold lab in Hx. apply list_elem_of_fmap in Hx as (g & -> & Hg). by apply (proj1 (list.Forall_forall _ _) He).
Qed.

Lemma T_suffix es i : fits es -> T es i `suffix_of` log (take i es).
Proof. intros H. apply ltable_suffix, Forall_take, fits_patch, H. Qed.

Lemma T_length es i : fits es -> (length (T es i) <= length (log es))%nat.
Proof.
  intros H. etrans; [apply suffix_length, T_suffix, H|]. apply prefix_length, log_prefix.
Qed.

(** What a window of the table after [v] versions must satisfy to become a root. *)
Definition window_good (es : list entry) (v : nat) (s : list lbatch) (w : WindowSet) : Prop :=
  w_chunks w = concat (snd <$> s) /\ w_spans w = spans_of (snd <$> s) /\ expand (w_members w) = fst <$> s /\
  increasing 0 (w_members w) /\ Forall (fun k => km_version k <= Z.of_nat v) (w_members w) /\
  1 <= w_base w <= Z.of_nat v /\ (forall k, head (w_members w) = Some k -> w_base w <= km_version k) /\
  forall n, w_base w <= Z.of_nat n -> (n <= v)%nat -> later n (take v es) `suffix_of` s /\ no_replace n (take v es).

Lemma later_done es v : (v <= length es)%nat -> later v (take v es) = [] /\ no_replace v (take v es).
Proof.
  intros Hv. assert (length (take v es) = v) as E by (rewrite length_take; lia). split.
  - rewrite <- E at 1. apply later_all.
  - intros r e Hr He. apply lookup_lt_Some in He. lia.
Qed.

Lemma T_ends es i e : es !! i = Some e -> is_patch (e_commit e) = false ->
  exists q, T es (S i) = q ++ lab (Z.of_nat i + 1) (e_new e).
Proof.
  intros He Hp. destruct (take_snoc es i e He) as [-> El]. rewrite ltable_snoc, El. unfold ltable_step. cbn.
  destruct (e_commit e); [by exists []|eauto..|done].
Qed.

Lemma own_split es hist i e m : fits es -> es !! i = Some e -> node es hist i m ->
  exists pre, own es i m = pre ++ lab (Z.of_nat i + 1) (e_new e) /\ fst <$> pre = expand (kept m).
Proof.
  intros Hfit He (_ & _ & _ & _ & H). assert (new_at es i = e_new e) as En by (unfold new_at; by rewrite He).
  unfold own. destruct (prev m).
  - exists []. destruct H as (_ & _ & -> & _). by rewrite En.
  - destruct (T_ends es i e He) as [q Eq]; [by eapply (proj1 (list.Forall_lookup _ _) (fits_patch es Hfit))|].
    exists q. split; [done|]. destruct H as (_ & _ & Ef & _). rewrite Eq, En, fmap_app, lab_fst in Ef.
    by apply app_inv_tail in Ef.
Qed.

Lemma kept_sorted es hist i m : node es hist i m -> increasing 0 (kept m) /\ Forall (fun k => km_version k <= Z.of_nat i) (kept m).
Proof. intros (_ & _ & _ & _ & H). destruct (prev m); [by destruct H as (_ & _ & -> & _)|split; apply H]. Qed.

(** A manifest that is not a plain root came from a commit that keeps its predecessor's rows. *)
Lemma not_plain_no_replace es hist i m :
  (i < length es)%nat -> node es hist i m -> prev m <> None \/ is_window_root m = true -> no_replace i (take (S i) es).
Proof.
  intros Hi (_ & _ & _ & _ & H) Hc. destruct (prev m) as [l|] eqn:Ep.
  - apply H.
  - destruct Hc as [?|Hc]; [done|]. destruct H as (_ & _ & _ & _ & _ & Hb & _ & _ & _ & Hw). destruct (Hw Hc i) as [_ ?]; [lia|lia|done].
Qed.

(** Taking batches the manifest added itself. *)
Lemma account_own es hist i e m n b pre :
  fits es -> es !! i = Some e -> node es hist i m -> (n <= length (e_new e))%nat ->
  own es i m = pre ++ lab (Z.of_nat i + 1) (e_new e) -> fst <$> pre = expand (kept m) ->
  let '(ms, base) := window_account true m n b in
  expand ms = fst <$> lastn n (own es i m) /\ increasing 0 ms /\ Forall (fun k => km_version k <= Z.of_nat (S i)) ms /\
  1 <= base <= Z.of_nat (S i) /\ (forall k, head ms = Some k -> base <= km_version k) /\
  forall s, base <= Z.of_nat s -> (s <= S i)%nat ->
    later s (take (S i) es) `suffix_of` lastn n (own es i m) /\ no_replace s (take (S i) es).
Proof.
  intros Hfit He Hnode Hn Eown Epre. pose proof (lookup_lt_Some _ _ _ He) as Hi.
  destruct (kept_sorted es hist i m Hnode) as [Hinc Hkv]. pose proof (length_own es hist i m Hnode) as Hlen.
  pose proof (increasing_counts _ _ Hinc) as Hcnt.
  assert (length pre = length (expand (kept m))) as Elp by (rewrite <- Epre; by rewrite length_fmap).
  assert (length (batch_spans m) - Z.to_nat (sum_batches (kept m)) = length (e_new e))%nat as Enew.
  { rewrite Hlen, Eown, length_app, length_lab, <- length_expand by done. lia. }
  assert (length (own es i m) <= length (log es))%nat as Hsmall.
  { unfold own. destruct (prev m) eqn:Ep; [|by apply T_length].
    destruct Hnode as (_ & _ & _ & _ & H). rewrite Ep in H. destruct H as (_ & _ & _ & _ & ET & _).
    pose proof (T_length es (S i) Hfit) as HT. rewrite ET, length_app in HT. lia. }
  pose proof Hfit as (_ & Hv & Hlog & _).
  assert (version m = Z.of_nat i + 1) as Hver by apply Hnode.
  assert (lastn n (own es i m) = lab (Z.of_nat i + 1) (lastn n (e_new e))) as ES.
  { rewrite Eown, lastn_app_le by (by rewrite length_lab). unfold lab. by rewrite lastn_fmap. }
  unfold window_account. rewrite Enew, (proj2 (Nat.leb_le _ _) Hn), Hver.
  assert (wrap64 (Z.of_nat i + 1 - 1) = Z.of_nat i) as -> by (rewrite wrap64_id; mach).
  rewrite wrap32_id by (rewrite Eown, length_app, length_lab in Hsmall; mach).
  assert (later (S i) (take (S i) es) = [] /\ no_replace (S i) (take (S i) es)) as [Hd1 Hd2] by (apply later_done; lia).
  set (base := if _ || _ then _ else _).
  assert (prev m <> None \/ is_window_root m = true -> (0 < i)%nat) as Hi0.
  { destruct Hnode as (_ & _ & _ & _ & H). destruct (prev m).
    - by destruct H as (_ & ? & _).
    - intros [?|Hwr]; [done|]. destruct H as (_ & _ & _ & _ & _ & Hb & _ & Hb1 & _). specialize (Hb1 Hwr). lia. }
  assert (base = Z.of_nat i + 1 \/ base = Z.of_nat i /\ n = length (e_new e) /\ (prev m <> None \/ is_window_root m = true)) as Hbase.
  { subst base. destruct (Nat.ltb_spec n (length (e_new e))); [by left|]. cbn [orb].
    destruct (prev m); cbn [andb]; [right; split_and!; [done|lia|by left]|].
    destruct (is_window_root m); cbn [negb]; [right; split_and!; [done|lia|by right]|by left]. }
  split_and!.
  - rewrite ES, lab_fst, length_lastn. destruct (Nat.ltb_spec 0 n).
    + cbn. rewrite app_nil_r. f_equal. lia.
    + by replace n with 0%nat by lia.
  - destruct (Nat.ltb_spec 0 n); [|done]. cbn. rewrite Eown, length_app, length_lab in Hsmall. split_and!; try done; lia.
  - destruct (Nat.ltb_spec 0 n); constructor; cbn; [lia|constructor].
  - destruct Hbase as [?|(? & _ & Hc)]; [lia|]. specialize (Hi0 Hc). lia.
  - lia.
  - intros k. destruct (Nat.ltb_spec 0 n); [|done]. cbn. intros [= <-]. cbn. lia.
  - intros s Hs Hsi. destruct (decide (s = S i)) as [->|Hne].
    + rewrite Hd1. split; [apply suffix_nil|done].
    + destruct Hbase as [E|(E & En & Hc)]; [lia|]. assert (s = i) as -> by lia. split.
      * rewrite (later_last es i e He), ES, En, lastn_all by done. done.
      * by eapply not_plain_no_replace.
Qed.

Lemma lastn_expand_fmap n (q : list lbatch) ks : fst <$> q = expand ks -> fst <$> lastn n q = lastn n (expand ks).
Proof. intros E. by rewrite lastn_fmap, E. Qed.

(** The run [ks] of the newest [need] inherited batches, when some older ones are left out. *)
Lemma inherited_base es i m e pre need rb ks :
  fits es -> es !! i = Some e -> T es (S i) = pre ++ lab (Z.of_nat i + 1) (e_new e) -> fst <$> pre = expand (kept m) ->
  increasing 0 (kept m) -> Forall (fun k => km_version k <= Z.of_nat i) (kept m) ->
  (0 < need < length pre)%nat -> expand ks = lastn need (expand (kept m)) -> run_starts (kept m) rb ks ->
  (increasing 0 ks /\ Forall (fun k => km_version k <= Z.of_nat i) ks) /\ 1 <= rb <= Z.of_nat i /\
  (forall k, head ks = Some k -> rb <= km_version k) /\
  forall s, rb <= Z.of_nat s -> (s < S i)%nat ->
    later s (take (S i) es) `suffix_of` lastn need pre ++ lab (Z.of_nat i + 1) (e_new e) /\ no_replace s (take (S i) es).
Proof.
  intros Hfit He ET Epre Hinc Hkv Hneed Eks (p1 & k & p2 & t & Ek & -> & Ht & Hd).
  pose proof (lookup_lt_Some _ _ _ He) as Hi. rewrite Ek in Hinc, Hkv.
  destruct (increasing_split _ _ _ _ Hinc) as (Hp2 & Hk0 & Hkb & Hpad & Hp1).
  apply Forall_app in Hkv as [_ Hkv]. apply list.Forall_cons in Hkv as [Hkv Hkv2].
  set (q := lastn need pre). assert (fst <$> q = expand (mkKept (km_version k) t 0 :: p2)) as Eq.
  { subst q. by rewrite (lastn_expand_fmap need pre (kept m) Epre), Eks. }
  assert (pre = take (length pre - need) pre ++ q) as Esplit by (subst q; unfold lastn; by rewrite take_drop).
  set (q0 := take (length pre - need) pre) in *.
  assert (q0 <> []) as Hq0 by (intros E; apply (f_equal length) in E; subst q0; rewrite length_take in E; cbn in E; lia).
  assert (fst <$> q0 = expand p1 ++ replicate (Z.to_nat (km_batches k - t)) (km_version k)) as Eq0.
  { rewrite Esplit, fmap_app, Eq, Ek, expand_app, !expand_cons in Epre. cbn [km_batches km_version] in Epre.
    replace (Z.to_nat (km_batches k)) with (Z.to_nat (km_batches k - t) + Z.to_nat t)%nat in Epre by lia.
    rewrite replicate_add, !app_assoc in Epre. apply app_inv_tail in Epre. by apply app_inv_tail in Epre. }
  assert (length (take (S i) es) = S i) as Elen by (rewrite length_take; lia).
  assert (q ++ lab (Z.of_nat i + 1) (e_new e) `suffix_of` T es (S i)) as HsT by (exists q0; by rewrite ET, Esplit, app_assoc).
  assert (forall y, y ∈ q0 -> exists z, z ∈ T es (S i) /\ z = y) as HqT.
  { intros y Hy. exists y. split; [|done]. rewrite ET, Esplit, !elem_of_app. auto. }
  assert (exists x, x ∈ q /\ x.1 = km_version k) as (x & Hx & Hx1).
  { assert (km_version k ∈ fst <$> q) as Hin.
    { rewrite Eq, expand_cons. cbn [km_batches km_version]. apply elem_of_app. left. apply elem_of_replicate. split; [done|lia]. }
    apply list_elem_of_fmap in Hin as (x & E & Hx). exists x. by split. }
  assert (x ∈ T es (S i)) as HxT by (rewrite ET, Esplit, !elem_of_app; auto).
  split_and!.
  - cbn. split_and!; try done; lia.
  - constructor; [cbn; lia|done].
  - destruct Hd as [[_ ->]|(_ & Hp1ne & ->)]; [lia|]. destruct p1 as [|k1 p1]; [done|]. apply list.Forall_cons in Hp1 as [? _]. lia.
  - destruct Hd as [[_ ->]|(_ & _ & ->)]; lia.
  - intros k' [= <-]. cbn. destruct Hd as [[_ ->]|(_ & _ & ->)]; lia.
  - intros s Hs Hsi. destruct (Z.le_gt_cases (km_version k) (Z.of_nat s)) as [Hle|Hgt].
    + split; [|eapply old_batch_no_replace; [exact HxT|lia]].
      apply (later_suffix s (take (S i) es) _ x); [lia| |apply elem_of_app; by left|lia].
      etrans; [exact HsT|]. apply T_suffix, Hfit.
    + destruct Hd as [[_ ->]|(-> & Hp1ne & ->)]; [lia|]. assert (Z.of_nat s = km_version k - 1) as Es by lia.
      rewrite Z.sub_diag in Eq0. cbn in Eq0. rewrite app_nil_r in Eq0.
      assert (forall y, y ∈ q0 -> y.1 <= Z.of_nat s) as Hlow.
      { intros y Hy. assert (y.1 ∈ expand p1) as Hy1 by (rewrite <- Eq0; by apply list_elem_of_fmap_2).
        unfold expand in Hy1. apply list_elem_of_In, in_concat in Hy1 as (l & Hl & Hy1).
        apply list_elem_of_In, list_elem_of_fmap in Hl as (k1 & -> & Hk1). apply list_elem_of_In, elem_of_replicate in Hy1 as [-> _].
        apply (proj1 (list.Forall_forall _ _) Hp1) in Hk1. lia. }
      destruct q0 as [|y q0']; [done|]. assert (y ∈ y :: q0') as Hy by apply list_elem_of_here.
      split; [|eapply old_batch_no_replace; [|exact (Hlow y Hy)]; destruct (HqT y Hy) as (z & ? & ->); done].
      apply (later_suffix_rest s (take (S i) es) _ (y :: q0') y); [lia| |done|done].
      rewrite app_assoc. rewrite Esplit in ET. rewrite <- ET. apply T_suffix, Hfit.
Qed.

Definition account_good es i (s : list lbatch) (ms : list KeptMember) (base : Z) : Prop :=
  expand ms = fst <$> s /\ increasing 0 ms /\ Forall (fun k => km_version k <= Z.of_nat (S i)) ms /\
  1 <= base <= Z.of_nat (S i) /\ (forall k, head ms = Some k -> base <= km_version k) /\
  forall n, base <= Z.of_nat n -> (n <= S i)%nat ->
    later n (take (S i) es) `suffix_of` s /\ no_replace n (take (S i) es).

Lemma head_app_l {A} (a b : list A) x : head (a ++ b) = Some x -> head a = Some x \/ a = [] /\ head b = Some x.
Proof. destruct a; cbn; auto. Qed.

(** Taking into the run the manifest inherited. *)
Lemma account_inherited es hist i e m n b pre :
  fits es -> es !! i = Some e -> node es hist i m -> (length (e_new e) < n <= length (own es i m))%nat ->
  own es i m = pre ++ lab (Z.of_nat i + 1) (e_new e) -> fst <$> pre = expand (kept m) ->
  let '(ms, base) := window_account true m n b in account_good es i (lastn n (own es i m)) ms base.
Proof.
  intros Hfit He Hnode Hn Eown Epre. pose proof (lookup_lt_Some _ _ _ He) as Hi.
  destruct (kept_sorted es hist i m Hnode) as [Hinc Hkv]. pose proof (length_own es hist i m Hnode) as Hlen.
  pose proof (increasing_counts _ _ Hinc) as Hcnt.
  assert (length pre = length (expand (kept m))) as Elp by (rewrite <- Epre; by rewrite length_fmap).
  assert (length (batch_spans m) - Z.to_nat (sum_batches (kept m)) = length (e_new e))%nat as Enew.
  { rewrite Hlen, Eown, length_app, length_lab, <- length_expand by done. lia. }
  rewrite Eown, length_app, length_lab in Hn.
  destruct Hnode as (Hver & _ & _ & _ & Hroot). unfold own in *. destruct (prev m) as [l|] eqn:Ep.
  { destruct Hroot as (_ & _ & Ek & _). rewrite Ek in Elp. cbn in Elp. lia. }
  destruct Hroot as (_ & _ & _ & _ & _ & Hb & Hh & Hb1 & _ & Hw).
  assert (kept m <> []) as Hkne by (intros E; rewrite E in Elp; cbn in Elp; lia).
  assert (is_window_root m = true) as Hwr.
  { unfold is_window_root. rewrite Ep, bool_decide_eq_false_2 by done. apply orb_true_r. }
  specialize (Hw Hwr). pose proof (T_length es (S i) Hfit) as HT. rewrite Eown, length_app, length_lab in HT.
  pose proof Hfit as (_ & Hvl & Hlog & _).
  unfold window_account. rewrite Enew, (proj2 (Nat.leb_gt _ _)) by lia.
  destruct (kept_run_spec (window_base m) (kept m) (n - length (e_new e)) [] true (window_base m) Hinc) as (ks & ai & rb & -> & Eks & Hall & Hpart).
  { eapply Forall_impl; [|exact Hkv]. cbn. mach. }
  cbn [app]. rewrite rev_involutive, Hver.
  rewrite (wrap32_id (Z.of_nat (length (e_new e)))) by mach.
  assert (lastn n (T es (S i)) = lastn (n - length (e_new e)) pre ++ lab (Z.of_nat i + 1) (e_new e)) as ES.
  { rewrite Eown, lastn_app_ge, length_lab by (rewrite length_lab; lia). done. }
  rewrite ES.
  set (own_ms := if (0 <? length (e_new e))%nat then _ else _).
  assert (expand own_ms = fst <$> lab (Z.of_nat i + 1) (e_new e) /\ increasing (Z.of_nat i) own_ms /\
    Forall (fun k => km_version k = Z.of_nat i + 1) own_ms) as (Eo & Io & Fo).
  { subst own_ms. rewrite lab_fst. destruct (Nat.ltb_spec 0 (length (e_new e))).
    - cbn. rewrite Nat2Z.id, app_nil_r. split_and!; try done; try mach. by constructor.
    - replace (length (e_new e)) with 0%nat by lia. done. }
  assert (forall ks' base, expand ks' = lastn (n - length (e_new e)) (expand (kept m)) -> ks' <> [] -> increasing 0 ks' ->
    Forall (fun k => km_version k <= Z.of_nat i) ks' -> 1 <= base <= Z.of_nat i -> (forall k, head ks' = Some k -> base <= km_version k) ->
    (forall s, base <= Z.of_nat s -> (s < S i)%nat -> later s (take (S i) es) `suffix_of` lastn (n - length (e_new e)) pre ++ lab (Z.of_nat i + 1) (e_new e) /\ no_replace s (take (S i) es)) ->
    account_good es i (lastn (n - length (e_new e)) pre ++ lab (Z.of_nat i + 1) (e_new e)) (ks' ++ own_ms) base) as Hgo.
  { intros ks' base E1 Hne I1 F1 B1 H1 L1. unfold account_good. split_and!.
    - rewrite expand_app, fmap_app, E1, Eo. f_equal. symmetry. by apply lastn_expand_fmap.
    - by apply (increasing_app 0 (Z.of_nat i)); [| |lia|].
    - apply Forall_app. split; (eapply Forall_impl; [|eassumption]); cbn; lia.
    - lia.
    - lia.
    - intros k Hk. destruct (head_app_l _ _ _ Hk) as [Hk'|[? _]]; [by apply H1|done].
    - intros s Hs Hsi. destruct (decide (s = S i)) as [->|Hne']; [|apply L1; lia].
      destruct (later_done es (S i) ltac:(lia)) as [-> ?]. split; [apply suffix_nil|done]. }
  destruct (decide (length (expand (kept m)) <= n - length (e_new e))%nat) as [Hfull|Hnfull].
  - destruct (Hall Hfull) as [-> ->]. apply Hgo; try done; [specialize (Hb1 Hwr); lia|].
    intros s Hs Hsi. rewrite lastn_all by lia. rewrite <- Eown. by apply Hw.
  - destruct (Hpart ltac:(lia)) as (-> & _ & Hrs). specialize (Hrs ltac:(lia)).
    destruct (inherited_base es i m e pre (n - length (e_new e)) rb ks) as ((I1 & F1) & B1 & H1 & L1); try done; [lia|].
    apply Hgo; try done. destruct Hrs as (? & ? & ? & ? & _ & -> & _). done.
Qed.

Lemma account_oldest es hist i e m n b :
  fits es -> es !! i = Some e -> node es hist i m -> (n <= length (own es i m))%nat ->
  let '(ms, base) := window_account true m n b in account_good es i (lastn n (own es i m)) ms base.
Proof.
  intros Hfit He Hnode Hn. destruct (own_split es hist i e m Hfit He Hnode) as (pre & Eown & Epre).
  destruct (Nat.le_gt_cases n (length (e_new e))) as [Hle|Hgt].
  - exact (account_own es hist i e m n b pre Hfit He Hnode Hle Eown Epre).
  - exact (account_inherited es hist i e m n b pre Hfit He Hnode ltac:(lia) Eown Epre).
Qed.

Lemma window_loop_app oldest xs y w :
  xs <> [] -> window_loop oldest (xs ++ [y]) w = let? w' := window_loop oldest xs w in window_loop false [y] w'.
Proof.
  revert oldest w. induction xs as [|[m n] xs IH]; intros oldest w Hne; [done|]. cbn [app window_loop].
  destruct (tail_chunks m n) as [tc|]; [|done]. destruct (window_account oldest m n (w_base w)) as [ms base].
  destruct xs as [|x xs]; [done|]. by apply IH.
Qed.

(** The oldest part alone. *)
Lemma window_first es hist i e m n b :
  fits es -> es !! i = Some e -> node es hist i m -> (n <= length (own es i m))%nat ->
  exists w, window_loop true [(m, n)] (mkWindow [] [] [] b) = Ok w /\ window_good es (S i) (lastn n (own es i m)) w.
Proof.
  intros Hfit He Hnode Hn. pose proof (account_oldest es hist i e m n b Hfit He Hnode Hn) as Ha.
  pose proof (node_lists es hist i m Hnode) as Hl.
  destruct (lists_tail m _ n Hl ltac:(by rewrite length_fmap)) as [Es Ec]. cbn [window_loop]. rewrite Ec, Es. cbn [w_base].
  destruct (window_account true m n b) as [ms base]. eexists. split; [reflexivity|].
  destruct Ha as (? & ? & ? & ? & ? & ?). unfold window_good. cbn [w_chunks w_spans w_members w_base app].
  rewrite lastn_fmap. split_and!; try done; lia.
Qed.

(** A newer, linked part, taken whole. *)
Lemma window_next es hist i e m l s w :
  fits es -> es !! i = Some e -> node es hist i m -> prev m = Some l -> window_good es i s w ->
  exists w', window_loop false [(m, length (batch_spans m))] w = Ok w' /\
    window_good es (S i) (s ++ lab (Z.of_nat i + 1) (e_new e)) w'.
Proof.
  intros Hfit He Hnode Ep (Hc & Hs & Hx & Hinc & Hv & Hb & Hh & Hl). pose proof (lookup_lt_Some _ _ _ He) as Hi.
  pose proof (node_lists es hist i m Hnode) as Hli. pose proof (length_own es hist i m Hnode) as Hlen.
  assert (own es i m = lab (Z.of_nat i + 1) (e_new e)) as Eown by (unfold own, new_at; by rewrite Ep, He).
  rewrite Eown, lab_snd in Hli. rewrite Eown, length_lab in Hlen.
  destruct (lists_tail m _ (length (e_new e)) Hli ltac:(done)) as [Es Ec]. rewrite lastn_all in Es, Ec by done.
  destruct Hnode as (Hver & _ & _ & Htot & Hlink). rewrite Ep in Hlink. destruct Hlink as (_ & Hi0 & Ek & _ & ET & Hnr & _).
  rewrite Hlen. cbn [window_loop]. rewrite Ec, Es. unfold window_account. rewrite Ek, Hlen, Hver. cbn [sum_batches foldr].
  rewrite Nat.sub_0_r, Nat.leb_refl. eexists. split; [reflexivity|].
  assert (new_at es i = e_new e) as En by (unfold new_at; by rewrite He).
  pose proof (T_length es (S i) Hfit) as HT. rewrite ET, En, length_app, length_lab in HT. pose proof Hfit as (_ & _ & Hlog & _).
  rewrite wrap32_id by mach.
  set (own_ms := if (0 <? length (e_new e))%nat then _ else _).
  assert (expand own_ms = fst <$> lab (Z.of_nat i + 1) (e_new e) /\ increasing (Z.of_nat i) own_ms /\
    Forall (fun k => km_version k = Z.of_nat i + 1) own_ms) as (Eo & Io & Fo).
  { subst own_ms. rewrite lab_fst. destruct (Nat.ltb_spec 0 (length (e_new e))).
    - cbn. rewrite Nat2Z.id, app_nil_r. split_and!; try done; try mach. by constructor.
    - replace (length (e_new e)) with 0%nat by lia. done. }
  unfold window_good. cbn [w_chunks w_spans w_members w_base]. rewrite !fmap_app, lab_snd, concat_app, spans_of_app.
  split_and!.
  - by rewrite Hc.
  - by rewrite Hs.
  - by rewrite expand_app, Hx, Eo.
  - by apply (increasing_app 0 (Z.of_nat i)); [| |lia|].
  - apply Forall_app. split; (eapply Forall_impl; [|eassumption]); cbn; lia.
  - lia.
  - lia.
  - intros k Hk. destruct (head_app_l _ _ _ Hk) as [Hk'|[_ Hk']]; [by apply Hh|].
    destruct own_ms as [|k0 own']; [done|]. injection Hk' as ->. apply list.Forall_cons in Fo as [-> _]. lia.
  - intros n Hn Hni. destruct (decide (n = S i)) as [->|Hne].
    + destruct (later_done es (S i) ltac:(lia)) as [-> ?]. split; [apply suffix_nil|done].
    + destruct (take_snoc es i e He) as [Et El]. destruct (Hl n Hn ltac:(lia)) as [Hsuf Hnr']. split.
      * rewrite Et, later_snoc, El by lia. by apply suffix_app.
      * intros r x Hr Hrx. rewrite Et in Hrx. destruct (decide (r = i)) as [->|]; [eapply Hnr; [|rewrite Et; exact Hrx]; lia|].
        pose proof (lookup_lt_Some _ _ _ Hrx) as Hlt. rewrite length_app, El in Hlt. cbn in Hlt.
        rewrite lookup_app_l in Hrx by lia. by eapply Hnr'.
Qed.
End lineage.
