(* ===== verification/WindowClaims.v ===== *)
(** * Windows and deltas are exact *)

From S2P Require Import Prelude Atomic ChunkDesc Manifest Window WindowSpec WindowProof.

Section lineage.
Context (name_id schema : Z).
Implicit Types (es : list entry) (hist : list Manifest) (m : Manifest) (i : nat).
Abbreviation node := (node name_id schema).
Abbreviation tied := (tied name_id schema).
Abbreviation T es i := (ltable (take i es)).

(** ** Walks over a tied history *)

(** The chain below index [i], newest first, [d] links long. *)
Fixpoint down hist (i d : nat) : list Manifest :=
  match hist !! i with
  | None => []
  | Some m => m :: match d with O => [] | S d' => down hist (i - 1) d' end
  end.

(** Where a walk that may stop early stops; a root always ends it. *)
Fixpoint stopped {X} (stop : X -> Manifest -> X * bool) (x : X) (ms : list Manifest) : list Manifest :=
  match ms with
  | [] => []
  | m :: ms' =>
      match prev m with
      | None => [m]
      | Some _ => let '(x', b) := stop x m in if b : bool then [m] else m :: stopped stop x' ms'
      end
  end.

Lemma node_depth es hist i m : tied es hist -> hist !! i = Some m -> 0 <= depth m <= Z.of_nat i.
Proof.
  intros [Hlen Hn]. revert m. induction i as [|i IH]; intros m Hm; destruct (Hn _ _ Hm) as (_ & _ & _ & _ & H); destruct (prev m).
  - destruct H as (_ & ? & _). lia.
  - destruct H as (-> & _). lia.
  - destruct H as (_ & _ & _ & _ & _ & _ & p & Hp & _ & _ & ->). replace (S i - 1)%nat with i in Hp by lia. apply IH in Hp. lia.
  - destruct H as (-> & _). lia.
Qed.

Lemma alone_bind {A B} (p : prog unit (result ArtifactError A)) (k : result ArtifactError A -> prog unit (result ArtifactError B)) r :
  run p tt = Some (r, tt) -> alone (pbind p k) = alone (k r).
Proof. intros H. unfold alone. by rewrite run_bind, H. Qed.

Lemma walk_run {X} es hist head (stop : X -> Manifest -> X * bool) d i m x :
  tied es hist -> fits es -> artifact_id head = name_id -> mf_schema_id head = schema ->
  hist !! i = Some m -> depth m = Z.of_nat d ->
  run (walk_from head (read_by_version hist) stop d x m) tt = Some (Ok (stopped stop x (down hist i d)), tt).
Proof.
  intros Htied Hfit Ha Hs. revert i m x. induction d as [|d IH]; intros i m x Hm Hd;
    pose proof (proj2 Htied i m Hm) as Hnode; pose proof Hnode as (Hv & Hna & Hns & Htot & Hp);
    pose proof (length_own name_id schema es hist i m Hnode) as Hlen;
    pose proof (T_length es (S i) Hfit) as HT; pose proof Hfit as (_ & _ & Hlog & _);
    (assert (length (batch_spans m) <= length (T es (S i)))%nat as Hown by
      (rewrite Hlen; unfold own; destruct (prev m); [destruct Hp as (_ & _ & _ & _ & -> & _); rewrite length_app; lia|lia]));
    cbn [walk_from]; unfold try_u32; rewrite (proj2 (Z.ltb_lt _ _)) by lia;
    rewrite Hna, Hns, Ha, Hs, !Z.eqb_refl; cbn [negb orb];
    rewrite (proj2 (Z.ltb_ge _ _)) by lia; cbn [down]; rewrite Hm; cbn [stopped];
    destruct (prev m) as [l|] eqn:Ep.
  - destruct Hp as (_ & _ & _ & _ & _ & _ & p & Hp' & _ & _ & E). apply (node_depth es) in Hp'; [lia|done].
  - destruct Hp as (E & _). rewrite E, Z.eqb_refl. cbn [negb orb Nat.ltb Nat.leb].
    rewrite Htot, Hlen. unfold own. rewrite Ep, Z.eqb_refl. done.
  - destruct Hp as (Elv & Hi & _ & _ & ET & _ & p & Hp' & Eld & Elt & Edp).
    rewrite (proj2 (Z.eqb_neq _ _)) by lia. rewrite Hv, Elv, (proj2 (Z.leb_gt _ _)) by lia. rewrite Eld, Edp.
    replace (depth p + 1 - 1) with (depth p) by lia. rewrite Z.eqb_refl. cbn [negb orb].
    pose proof (proj2 Htied _ _ Hp') as (Hpv & _ & _ & Hptot & _). replace (S (i - 1)) with i in Hptot by lia.
    assert (lk_total_batches l = total_batches m - Z.of_nat (length (batch_spans m))) as Et.
    { rewrite Elt, Hptot, Htot, ET, Hlen, length_app. unfold own. rewrite Ep. lia. }
    rewrite Et, Z.eqb_refl. cbn [negb]. destruct (stop x m) as [x' b]. destruct b; [done|].
    unfold read_by_version at 1, manifest_at. rewrite Elv, (proj2 (Z.leb_gt _ _)) by lia.
    replace (Z.to_nat (Z.of_nat i - 1)) with (i - 1)%nat by lia. rewrite Hp'. cbn [ok_or pbind].
    replace (version p) with (Z.of_nat i) by lia. rewrite !Z.eqb_refl. rewrite <- Et, Elt, Z.eqb_refl. cbn [negb orb].
    rewrite run_bind, (IH (i - 1)%nat p x' Hp') by lia. done.
  - destruct Hp as (E & _). lia.
Qed.

Lemma length_own_T es hist i m : node es hist i m -> (length (own es i m) <= length (T es (S i)))%nat.
Proof.
  intros (_ & _ & _ & _ & H). unfold own. destruct (prev m); [|done]. destruct H as (_ & _ & _ & _ & -> & _). rewrite length_app. lia.
Qed.

(** The window a walk collects is the newest [n] batches of the table. *)
Lemma window_chain es hist d i m n b :
  tied es hist -> fits es -> hist !! i = Some m -> depth m = Z.of_nat d -> (0 < n)%nat ->
  let parts := rev (window_parts n (stopped window_stop n (down hist i d))) in
  parts <> [] /\ exists w, window_loop true parts (mkWindow [] [] [] b) = Ok w /\ window_good es (S i) (lastn n (T es (S i))) w.
Proof.
  intros Htied Hfit. revert i m n. induction d as [|d IH]; intros i m n Hm Hd Hn;
    pose proof (proj2 Htied i m Hm) as Hnode; pose proof (length_own _ _ es hist i m Hnode) as Hlen;
    pose proof (proj1 Htied) as Hl; pose proof (lookup_lt_Some _ _ _ Hm) as Hi; rewrite Hl in Hi;
    destruct (lookup_lt_is_Some_2 es i Hi) as [e He];
    cbn [down]; rewrite Hm; cbn [stopped]; destruct (prev m) as [l|] eqn:Ep.
  - pose proof Hnode as (_ & _ & _ & _ & Hp). rewrite Ep in Hp. destruct Hp as (_ & _ & _ & _ & _ & _ & p & Hp' & _ & _ & E).
    apply (node_depth es) in Hp'; [lia|done].
  - cbn [window_parts]. rewrite (proj2 (Nat.eqb_neq _ _)) by lia. cbn [rev app]. split; [done|].
    destruct (window_first _ _ es hist i e m (n `min` length (batch_spans m)) b Hfit He Hnode) as (w & -> & Hw); [lia|].
    exists w. split; [done|]. rewrite Hlen in Hw. unfold own in Hw. rewrite Ep in Hw.
    replace (lastn n (T es (S i))) with (lastn (n `min` length (T es (S i))) (T es (S i))); [done|]. unfold lastn. f_equal. lia.
  - pose proof Hnode as (_ & _ & _ & _ & Hp). rewrite Ep in Hp. destruct Hp as (_ & Hi0 & _ & _ & ET & _ & p & Hp' & _ & _ & Edp).
    assert (new_at es i = e_new e) as En by (unfold new_at; by rewrite He). rewrite En in ET.
    assert (own es i m = lab (Z.of_nat i + 1) (e_new e)) as Eown by (unfold own; by rewrite Ep, En).
    rewrite Eown, length_lab in Hlen.
    assert (window_stop n m = ((n - length (batch_spans m))%nat, (n - length (batch_spans m) =? 0)%nat)) as -> by done.
    destruct (Nat.eqb_spec (n - length (batch_spans m)) 0) as [E0|E0].
    + cbn [window_parts]. rewrite (proj2 (Nat.eqb_neq _ _)) by lia. cbn [rev app]. split; [done|].
      destruct (window_first _ _ es hist i e m (n `min` length (batch_spans m)) b Hfit He Hnode) as (w & -> & Hw); [rewrite Eown, length_lab; lia|].
      exists w. split; [done|]. rewrite Eown in Hw. replace (n `min` length (batch_spans m))%nat with n in Hw by lia.
      rewrite ET, lastn_app_le by (rewrite length_lab; lia). done.
    + cbn [window_parts]. rewrite (proj2 (Nat.eqb_neq _ _)) by lia.
      replace (n `min` length (batch_spans m))%nat with (length (batch_spans m)) by lia. cbn [rev].
      destruct (IH (i - 1)%nat p (n - length (batch_spans m))%nat Hp' ltac:(lia) ltac:(lia)) as (Hne & w & Ew & Hw).
      replace (S (i - 1)) with i in Hw by lia. split; [by destruct (rev _)|].
      rewrite window_loop_app, Ew by done. cbn [rbind].
      destruct (window_next _ _ es hist i e m l _ w Hfit He Hnode Ep Hw) as (w' & -> & Hw'). exists w'. split; [done|].
      rewrite ET, lastn_app_ge, length_lab, <- Hlen by (rewrite length_lab; lia). done.
  - pose proof Hnode as (_ & _ & _ & _ & Hp). rewrite Ep in Hp. destruct Hp as (E & _). lia.
Qed.

(** ** Writing *)

Lemma window_members_ok v lo ks total :
  increasing lo ks -> Forall (fun k => km_version k < v) ks ->
  window_members v (Some lo) total ks = Some (total + sum_batches ks).
Proof.
  revert lo total. induction ks as [|k ks IH]; intros lo total Hinc Hv; cbn [window_members sum_batches foldr]; [f_equal; lia|].
  destruct Hinc as (H1 & H2 & H3 & H4). apply list.Forall_cons in Hv as [Hv Hvs].
  rewrite (proj2 (Z.eqb_neq _ _)), H3, (proj2 (Z.leb_gt v _)), (proj2 (Z.leb_gt _ lo)) by lia. cbn.
  rewrite IH by done. f_equal. unfold sum_batches. lia.
Qed.

Lemma window_ok_good v base ks n :
  increasing 0 ks -> Forall (fun k => km_version k < v) ks -> base < v -> sum_batches ks <= n ->
  (forall k, head ks = Some k -> base <= km_version k) -> window_ok v base ks n = true.
Proof.
  intros Hinc Hv Hb Hs Hh. unfold window_ok. rewrite (proj2 (Z.leb_gt _ _)) by lia.
  assert (window_members v None 0 ks = Some (sum_batches ks)) as ->.
  { destruct ks as [|k ks]; [done|]. destruct Hinc as (H1 & H2 & H3 & H4). apply list.Forall_cons in Hv as [Hv Hvs].
    cbn [window_members]. rewrite (proj2 (Z.eqb_neq _ _)), H3, (proj2 (Z.leb_gt v _)) by lia. cbn.
    rewrite (window_members_ok v (km_version k)) by done. unfold sum_batches. cbn. f_equal; lia. }
  rewrite (proj2 (Z.ltb_ge _ _)) by lia. destruct ks as [|k ks]; [done|]. apply Z.leb_le. by apply Hh.
Qed.

Lemma built_root target cs spans window base ks :
  default (0, []) window = (base, ks) ->
  Z.of_nat (length cs) < U32_MOD -> Z.of_nat (length spans) < U32_MOD -> Z.of_nat (length ks) < U32_MOD ->
  window_ok target base ks (Z.of_nat (length spans)) = true ->
  built name_id target schema cs spans None window =
    Ok (mkManifest name_id target schema cs spans None 0 (Z.of_nat (length spans)) base ks).
Proof.
  intros Ew Hc Hs Hk Hok. unfold built, manifest_header, try_u32. rewrite Ew.
  rewrite !(proj2 (Z.ltb_lt _ _)) by done. cbn [ok_or rbind]. by rewrite Hok.
Qed.

Lemma built_link target cs spans l :
  Z.of_nat (length cs) < U32_MOD -> Z.of_nat (length spans) < U32_MOD ->
  lk_version l < target -> lk_version l <> 0 -> bits (lk_mref l) <> 0 -> lk_depth l < U32_MAX ->
  Z.of_nat (length spans) + lk_total_batches l <= U32_MAX ->
  built name_id target schema cs spans (Some l) None =
    Ok (mkManifest name_id target schema cs spans (Some l) (lk_depth l + 1) (Z.of_nat (length spans) + lk_total_batches l) 0 []).
Proof.
  intros Hc Hs Hv H0 Hb Hd Ht. unfold built, manifest_header, try_u32. cbn [default length].
  rewrite !(proj2 (Z.ltb_lt _ _)) by (done || mach). cbn [ok_or rbind].
  rewrite (proj2 (Z.leb_gt _ _)), !(proj2 (Z.eqb_neq _ _)), (proj2 (Z.leb_gt U32_MAX _)) by done. cbn [orb rbind].
  unfold saturating_add32. cbn [vm_depth vm_total_batches vm_batch_count]. rewrite Z.min_l by done.
  destruct l as [lv [lr] lg ld lt]. cbn. do 4 f_equal; lia.
Qed.

(** ** A commit keeps the history tied *)

Lemma node_grow es hist e m' i m : (i < length es)%nat -> node es hist i m -> node (es ++ [e]) (hist ++ [m']) i m.
Proof.
  intros Hi (Hv & Ha & Hs & Ht & Hp).
  assert (take (S i) (es ++ [e]) = take (S i) es) as E1 by (apply take_app_le; lia).
  assert (take i (es ++ [e]) = take i es) as E2 by (apply take_app_le; lia).
  assert (new_at (es ++ [e]) i = new_at es i) as E3 by (unfold new_at; by rewrite lookup_app_l).
  unfold node. rewrite E1. split_and!; try done. destruct (prev m).
  - unfold linked_ok in *. rewrite E1, E2, E3. destruct Hp as (? & ? & ? & ? & ? & ? & p & Hp & ?). split_and!; try done.
    exists p. split; [|done]. by apply lookup_app_l_Some.
  - unfold root_ok in *. rewrite E1, E3. by rewrite (lookup_app_l es) by done.
Qed.

Lemma fits_prefix es e : fits (es ++ [e]) -> fits es.
Proof.
  intros (Hf & Hl & Hlog & Hc). apply Forall_app in Hf as [Hf _]. rewrite length_app in Hl. cbn in Hl.
  rewrite log_snoc in Hlog, Hc. rewrite length_app in Hlog. rewrite fmap_app, concat_app, length_app in Hc.
  split_and!; [done|lia..].
Qed.

Lemma table_fits es s : s `suffix_of` log es -> fits es ->
  Z.of_nat (length s) < U32_MOD /\ Z.of_nat (length (concat (snd <$> s))) < U32_MOD.
Proof.
  intros [k E] (_ & _ & Hlog & Hc). rewrite E in Hlog, Hc. rewrite length_app in Hlog. rewrite fmap_app, concat_app, length_app in Hc. lia.
Qed.

Lemma increasing_length lo ks : increasing lo ks -> (length ks <= length (expand ks))%nat.
Proof.
  revert lo. induction ks as [|k ks IH]; intros lo Hinc; [done|]. destruct Hinc as (_ & ? & _ & H). apply IH in H.
  rewrite expand_cons, length_app, length_replicate. cbn [length]. lia.
Qed.

(** A root of the table [s ++ new], where [w] is a window [s] of the predecessor's table
    or, for a plain root, empty. *)
Lemma root_commit es e s w window :
  fits (es ++ [e]) -> default (0, []) window = (w_base w, w_members w) ->
  (window_good es (length es) s w /\ e_commit e <> Replace \/
   w = mkWindow [] [] [] 0 /\ s = [] /\ (es = [] \/ e_commit e = Replace)) ->
  ltable (es ++ [e]) = s ++ lab (Z.of_nat (length es) + 1) (e_new e) ->
  exists m', built name_id (Z.of_nat (length es) + 1) schema (w_chunks w ++ concat (e_new e)) (w_spans w ++ spans_of (e_new e)) None window = Ok m' /\
    forall hist, node (es ++ [e]) (hist ++ [m']) (length es) m'.
Proof.
  intros Hfit Hw Hgood HT.
  assert (w_chunks w = concat (snd <$> s) /\ w_spans w = spans_of (snd <$> s) /\ expand (w_members w) = fst <$> s /\
    increasing 0 (w_members w) /\ Forall (fun k => km_version k <= Z.of_nat (length es)) (w_members w) /\
    0 <= w_base w <= Z.of_nat (length es) /\ (forall k, head (w_members w) = Some k -> w_base w <= km_version k))
    as (Hc & Hs & Hx & Hinc & Hv & Hb & Hh).
  { destruct Hgood as [[(? & ? & ? & ? & ? & ? & ? & _) _]|(-> & -> & _)]; [split_and!; tauto || lia|]. cbn. split_and!; try done; lia. }
  assert (length (es ++ [e]) = S (length es)) as Elen by (rewrite length_app; cbn; lia).
  assert (take (S (length es)) (es ++ [e]) = es ++ [e]) as Etake by (apply take_ge; lia).
  pose proof (ltable_suffix _ (fits_patch _ Hfit)) as Hsuf. rewrite HT in Hsuf. destruct (table_fits _ _ Hsuf Hfit) as [Hn1 Hn2].
  rewrite length_app, length_lab in Hn1. rewrite fmap_app, lab_snd, concat_app, length_app in Hn2.
  pose proof (increasing_counts _ _ Hinc) as Hcnt. pose proof (length_expand _ Hcnt) as Hsum. rewrite Hx, length_fmap in Hsum.
  pose proof (increasing_length _ _ Hinc) as Hml. rewrite Hx, length_fmap in Hml.
  rewrite Hc, Hs. eexists. split.
  { apply (built_root _ _ _ _ (w_base w) (w_members w)); [done|..].
    - rewrite length_app. lia.
    - rewrite length_app, !length_spans_of, length_fmap. lia.
    - lia.
    - apply window_ok_good; try done; [|lia|rewrite length_app, !length_spans_of, length_fmap; lia].
      eapply Forall_impl; [|exact Hv]. cbn. lia. }
  intros hist. unfold node. cbn [version artifact_id mf_schema_id total_batches prev]. rewrite Etake, HT. split_and!; try done.
  - rewrite length_app, !length_spans_of, length_fmap, length_app, length_lab. done.
  - unfold root_ok. cbn [depth kept window_base]. rewrite Etake, HT.
    assert (new_at (es ++ [e]) (length es) = e_new e) as -> by (unfold new_at; by rewrite list_lookup_middle).
    split_and!; try done; try lia.
    + unfold lists. cbn. by rewrite !fmap_app, lab_snd, concat_app, spans_of_app.
    + by rewrite fmap_app, lab_fst, Hx.
    + intros Hwr. destruct Hgood as [[(_ & _ & _ & _ & _ & ? & _) _]|(-> & _)]; [lia|done].
    + intros Hi Hwr. exists e. rewrite list_lookup_middle by done. split; [done|].
      destruct Hgood as [[(_ & _ & _ & _ & _ & Hb1 & _) _]|(_ & _ & [->|?])]; [|cbn in Hi; lia|done].
      unfold is_window_root in Hwr. cbn in Hwr. rewrite (proj2 (Z.eqb_neq _ _)) in Hwr by lia. done.
    + intros Hwr n Hbn Hnl. destruct Hgood as [[(_ & _ & _ & _ & _ & _ & _ & Hl) Hrep]|(-> & _)]; [|done].
      destruct (Hl n Hbn ltac:(lia)) as [Hsu Hnr]. rewrite take_ge in Hsu, Hnr by done. split.
      * rewrite later_snoc by lia. by apply suffix_app.
      * intros r x Hr Hrx. destruct (decide (r = length es)) as [->|Hne].
        -- rewrite list_lookup_middle in Hrx by done. by simplify_eq.
        -- pose proof (lookup_lt_Some _ _ _ Hrx) as Hlt. rewrite lookup_app_l in Hrx by lia. by eapply Hnr.
Qed.

Lemma append_commit es hist e prior :
  tied es hist -> fits (es ++ [e]) -> e_commit e = Append -> es <> [] -> hist !! (length es - 1)%nat = Some prior ->
  exists m', built name_id (Z.of_nat (length es) + 1) schema (concat (e_new e)) (spans_of (e_new e))
      (Some (link_from prior (e_mref e) (e_gen e))) None = Ok m' /\
    node (es ++ [e]) (hist ++ [m']) (length es) m'.
Proof.
  intros Htied Hfit Hc Hne Hp. assert (0 < length es)%nat as Hpos by (destruct es; cbn; [done|lia]).
  pose proof (fits_prefix es e Hfit) as Hfit0. pose proof (proj2 Htied _ _ Hp) as Hnode.
  pose proof (node_depth es hist _ _ Htied Hp) as Hdep. destruct Hnode as (Hpv & _ & _ & Hpt & _).
  replace (S (length es - 1)) with (length es) in Hpt by lia. rewrite take_ge in Hpt by done.
  assert (ltable (es ++ [e]) = ltable es ++ lab (Z.of_nat (length es) + 1) (e_new e)) as HT
    by (rewrite ltable_snoc; unfold ltable_step; cbn; by rewrite Hc).
  pose proof (ltable_suffix _ (fits_patch _ Hfit)) as Hsuf. rewrite HT in Hsuf. destruct (table_fits _ _ Hsuf Hfit) as [Hn1 Hn2].
  rewrite length_app, length_lab in Hn1. rewrite fmap_app, lab_snd, concat_app, length_app in Hn2.
  pose proof Hfit as (Hall & Hlen & _). apply Forall_app in Hall as [_ Hall]. apply list.Forall_cons in Hall as [(_ & Hm & _) _].
  rewrite length_app in Hlen. cbn in Hlen.
  eexists. split.
  { apply built_link; cbn [link_from lk_version lk_mref lk_depth lk_total_batches]; rewrite ?length_spans_of, ?Hpv, ?Hpt; try lia; try (by apply Hm).
    mach. }
  assert (take (S (length es)) (es ++ [e]) = es ++ [e]) as Etake by (apply take_ge; rewrite length_app; cbn; lia).
  assert (new_at (es ++ [e]) (length es) = e_new e) as En by (unfold new_at; by rewrite list_lookup_middle).
  unfold node. cbn [version artifact_id mf_schema_id total_batches prev]. rewrite Etake, HT. split_and!; try done.
  - cbn [link_from lk_total_batches]. rewrite length_spans_of, Hpt, length_app, length_lab. lia.
  - unfold linked_ok. cbn [link_from lk_version lk_depth lk_total_batches kept depth]. rewrite En, Etake, take_app_length.
    split_and!; try done; try lia.
    + intros r x Hr Hrx. destruct (decide (r = length es)) as [->|Hne'].
      * rewrite list_lookup_middle in Hrx by done. simplify_eq. by rewrite Hc.
      * apply lookup_lt_Some in Hrx. rewrite length_app in Hrx. cbn in Hrx. lia.
    + exists prior. split_and!; try done. by apply lookup_app_l_Some.
Qed.

Lemma own_lists_good es s w staged spans :
  fits es -> s `suffix_of` log es -> window_good es (length es) s w ->
  own_lists w staged spans = (w_chunks w ++ staged, w_spans w ++ spans).
Proof.
  intros Hfit [k Ek] (Hc & Hs & _). unfold own_lists. destruct (w_chunks w) as [|c cs]; [|done].
  destruct s as [|x s]; [by rewrite Hs|]. exfalso. apply (log_nonempty es x Hfit).
  - rewrite Ek. apply elem_of_app. right. apply list_elem_of_here.
  - cbn in Hc. symmetry in Hc. by apply app_eq_nil in Hc as [? _].
Qed.

Lemma commit_step es hist e :
  tied es hist -> fits (es ++ [e]) ->
  exists m', commit_manifest name_id schema hist (e_commit e) (e_mref e) (e_gen e) (concat (e_new e)) (spans_of (e_new e)) = Ok m' /\
    tied (es ++ [e]) (hist ++ [m']).
Proof.
  intros Htied Hfit. pose proof (fits_prefix es e Hfit) as Hfit0. pose proof (proj1 Htied) as Hlen.
  cut (exists m', commit_manifest name_id schema hist (e_commit e) (e_mref e) (e_gen e) (concat (e_new e)) (spans_of (e_new e)) = Ok m' /\
    node (es ++ [e]) (hist ++ [m']) (length es) m').
  { intros (m' & Em & Hn). exists m'. split; [done|]. split; [rewrite !length_app; cbn; lia|]. intros i m Hi.
    apply lookup_app_Some in Hi as [Hi|[Hge Hi]].
    - pose proof (lookup_lt_Some _ _ _ Hi). apply node_grow; [lia|]. by apply Htied.
    - apply list_lookup_singleton_Some in Hi as [E <-]. by replace i with (length es) by lia. }
  assert (forall window, window = None -> es = [] \/ e_commit e = Replace -> ltable (es ++ [e]) = lab (Z.of_nat (length es) + 1) (e_new e) ->
    exists m', built name_id (Z.of_nat (length es) + 1) schema (concat (e_new e)) (spans_of (e_new e)) None window = Ok m' /\
      node (es ++ [e]) (hist ++ [m']) (length es) m') as Hplain.
  { intros window -> Hor HT. destruct (root_commit es e [] (mkWindow [] [] [] 0) None) as (m' & Em & Hn); try done; [by right|]. eauto. }
  unfold commit_manifest. rewrite Hlen.
  assert (is_patch (e_commit e) = false) as Hpatch.
  { pose proof (fits_patch _ Hfit) as H. apply Forall_app in H as [_ H]. by apply list.Forall_cons in H as [H _]. }
  destruct (decide (es = [])) as [->|Hne].
  { cbn [length] in *. assert (ltable ([] ++ [e]) = lab (Z.of_nat (@length entry []) + 1) (e_new e)) as HT.
    { rewrite ltable_snoc. unfold ltable_step. cbn. destruct (e_commit e); try done. }
    change (manifest_at hist (Z.of_nat 0)) with (@None Manifest).
    destruct (e_commit e); try done; exact (Hplain None eq_refl (or_introl eq_refl) HT). }
  assert (0 < length es)%nat as Hpos by (destruct es; cbn; [done|lia]).
  destruct (lookup_lt_is_Some_2 hist (length es - 1)%nat ltac:(lia)) as [prior Hp].
  assert (manifest_at hist (Z.of_nat (length es)) = Some prior) as ->.
  { unfold manifest_at. rewrite (proj2 (Z.leb_gt _ _)) by lia. rewrite <- Hp. f_equal. lia. }
  pose proof (proj2 Htied _ _ Hp) as (Hpv & Hpa & Hps & _).
  destruct (e_commit e) as [| |k|] eqn:Hc; [| | |done].
  - apply Hplain; [done|by right|]. rewrite ltable_snoc. unfold ltable_step. cbn. by rewrite Hc.
  - rewrite Hps, Z.eqb_refl. cbn [negb]. by apply append_commit.
  - rewrite Hps, Z.eqb_refl. cbn [negb].
    assert (ltable (es ++ [e]) = lastn (Z.to_nat k) (ltable es) ++ lab (Z.of_nat (length es) + 1) (e_new e)) as HT
      by (rewrite ltable_snoc; unfold ltable_step; cbn; by rewrite Hc).
    assert (exists w, (let? members :=
        if (Z.to_nat k =? 0)%nat then Ok [] else alone (walk_chain_newest_first prior (read_by_version hist) window_stop (Z.to_nat k)) in
      window_set prior k members) = Ok w /\ window_good es (length es) (lastn (Z.to_nat k) (ltable es)) w) as (w & Ew & Hw).
    { destruct (Nat.eqb_spec (Z.to_nat k) 0) as [E0|E0].
      - cbn [rbind]. unfold window_set. rewrite E0. cbn. eexists. split; [reflexivity|]. rewrite lastn_0.
        unfold window_good. cbn. rewrite Hpv. split_and!; try done; try lia.
        intros n Hn Hnl. assert (n = length es) as -> by lia. destruct (later_done es (length es) ltac:(done)) as [-> ?].
        split; [apply suffix_nil|done].
      - pose proof (node_depth es hist _ _ Htied Hp) as Hd. unfold walk_chain_newest_first.
        assert (depth prior = Z.of_nat (Z.to_nat (depth prior))) as Ed by lia.
        unfold alone. rewrite (walk_run es hist prior window_stop _ (length es - 1) prior (Z.to_nat k)) by done. cbn [rbind].
        unfold window_set.
        destruct (window_chain es hist (Z.to_nat (depth prior)) (length es - 1) prior (Z.to_nat k) (version prior) Htied Hfit0 Hp Ed ltac:(lia))
          as (_ & w & -> & Hw). exists w. split; [done|]. replace (S (length es - 1)) with (length es) in Hw by lia.
        by rewrite take_ge in Hw. }
    assert (forall {A B C} (r : result ArtifactError A) (f : A -> result ArtifactError B) (g : B -> result ArtifactError C),
      (let? a := r in let? b := f a in g b) = (let? b := (let? a := r in f a) in g b)) as Hassoc by (by intros A B C [a|]).
    rewrite Hassoc, Ew. cbn [rbind].
    rewrite (own_lists_good es _ w _ _ Hfit0 ltac:(etrans; [apply lastn_suffix|apply ltable_suffix, fits_patch, Hfit0]) Hw).
    destruct (root_commit es e (lastn (Z.to_nat k) (ltable es)) w (Some (w_base w, w_members w))) as (m' & Em & Hn); try done.
    { left. split; [done|]. by rewrite Hc. }
    eauto.
Qed.

Lemma lineage_tied es : fits es -> exists hist, lineage name_id schema es = Ok hist /\ tied es hist.
Proof.
  induction es as [|e es IH] using rev_ind; intros Hfit.
  - exists []. split; [done|]. split; [done|]. intros i m Hi. done.
  - destruct (IH (fits_prefix _ _ Hfit)) as (hist & El & Ht). destruct (commit_step es hist e Ht Hfit) as (m' & Em & Ht').
    exists (hist ++ [m']). split; [|done]. unfold lineage in *. rewrite foldl_app, El. cbn. by rewrite Em.
Qed.
End lineage.
