(* ===== verification/WindowDelta.v ===== *)
(** * Reads of a version and of a delta are exact

    The reader's side of a lineage of commits: [as_arrow_batches] rebuilds the table of
    the pinned version from its chain, and [batches_since] returns exactly what was
    committed after the version the caller holds, or says that it cannot. *)

From S2P Require Import Prelude Atomic ChunkDesc Manifest Window WindowSpec WindowProof WindowClaims.

(** ** What is left of the table a reader holds *)

Lemma no_replace_suffix s es :
  Forall (fun e => is_patch (e_commit e) = false) es -> (s <= length es)%nat -> no_replace s es ->
  ltable es `suffix_of` ltable (take s es) ++ later s es.
Proof.
  induction es as [|e es IH] using rev_ind; intros Hp Hs Hn; [apply suffix_nil|].
  destruct (decide (s = length (es ++ [e]))) as [->|Hne].
  { by rewrite take_ge, later_all, app_nil_r. }
  rewrite length_app in Hs, Hne. cbn in Hs, Hne. apply Forall_app in Hp as [Hp He]. apply list.Forall_cons in He as [He _].
  rewrite take_app_le, later_snoc, ltable_snoc, app_assoc by lia. unfold ltable_step. cbn.
  assert (ltable es `suffix_of` ltable (take s es) ++ later s es) as H.
  { apply IH; [done|lia|]. intros r x Hr Hx. apply (Hn r x Hr). by apply lookup_app_l_Some. }
  assert (e_commit e <> Replace) as Hc by (apply (Hn (length es) e); [lia|by rewrite list_lookup_middle]).
  destruct (e_commit e); [done|..|done]; apply suffix_app; [done|]. etrans; [apply lastn_suffix|done].
Qed.

Lemma later_chop s j i es :
  (s <= j)%nat -> (j <= i)%nat -> (i <= length es)%nat ->
  later s (take i es) = later s (take j es) ++ later j (take i es).
Proof.
  intros Hs Hj Hi. apply (app_inv_head (log (take s (take i es)))). rewrite <- log_split, (log_split j (take i es)).
  rewrite !take_take, !Nat.min_l, app_assoc by lia. f_equal.
  rewrite (log_split s (take j es)) at 1. by rewrite take_take, Nat.min_l by lia.
Qed.

(** ** Counting the batches a reader already holds *)

Definition upto (s : Z) (l : list Z) : nat := length (filter (fun v => v <= s) l).

Lemma upto_app s a b : upto s (a ++ b) = (upto s a + upto s b)%nat.
Proof. unfold upto. by rewrite list.filter_app, length_app. Qed.

Lemma upto_all s l : Forall (fun v => v <= s) l -> upto s l = length l.
Proof. intros H. unfold upto. f_equal. induction H as [|v l Hv _ IH]; [done|]. by rewrite filter_cons_True, IH. Qed.

Lemma upto_none s l : Forall (fun v => s < v) l -> upto s l = 0%nat.
Proof. intros H. unfold upto. induction H as [|v l Hv _ IH]; [done|]. rewrite filter_cons_False by lia. done. Qed.

Lemma upto_expand lo s ks : increasing lo ks ->
  Z.to_nat (sum_batches (filter (fun k => km_version k <= s) ks)) = upto s (expand ks).
Proof.
  revert lo. induction ks as [|k ks IH]; intros lo Hinc; [done|]. destruct Hinc as (_ & Hb & _ & Hinc).
  specialize (IH _ Hinc). pose proof (increasing_counts _ _ Hinc) as Hcnt. rewrite expand_cons, upto_app, <- IH.
  assert (0 <= sum_batches (filter (fun k => km_version k <= s) ks)) as Hpos.
  { rewrite <- length_expand; [lia|]. apply list.Forall_forall. intros y [_ Hy]%list_elem_of_filter. by apply (proj1 (list.Forall_forall _ _) Hcnt). }
  destruct (decide (km_version k <= s)) as [Hle|Hgt].
  - rewrite filter_cons_True by done. cbn [sum_batches foldr]. fold (sum_batches (filter (fun k => km_version k <= s) ks)).
    rewrite upto_all, length_replicate by (by apply Forall_replicate). lia.
  - rewrite filter_cons_False by done. rewrite upto_none; [done|]. apply Forall_replicate. lia.
Qed.

Lemma batches_of_snoc chain skip m gs g :
  chain <> [] -> batches_of chain skip = Ok gs -> lists m g -> batches_of (chain ++ [m]) skip = Ok (gs ++ g).
Proof.
  revert skip gs. induction chain as [|m0 chain IH]; intros skip gs Hne E Hl; [done|]. cbn [app batches_of] in *.
  destruct (manifest_groups skip m0) as [gs0|]; [|done]. cbn [rbind] in *.
  destruct (batches_of chain 0) as [rest|] eqn:Er; [|done]. injection E as <-. destruct chain as [|m1 chain].
  - injection Er as <-. cbn. rewrite (manifest_groups_spec m g 0 Hl). cbn. by rewrite !app_nil_r.
  - by rewrite (IH 0%nat rest), <- app_assoc.
Qed.

Section lineage.
Context (name_id schema : Z).
Implicit Types (es : list entry) (hist : list Manifest) (m : Manifest) (i : nat).
Abbreviation node := (node name_id schema).
Abbreviation tied := (tied name_id schema).
Abbreviation T es i := (ltable (take i es)).

(** What the chain of version [i + 1] down to the first one not newer than [s] holds: the
    oldest member at index [j], then everything committed after it. *)
Definition chain_holds es hist (s i : nat) (chain : list Manifest) : Prop :=
  exists oldest rest j, chain = oldest :: rest /\ (s <= j <= i)%nat /\ hist !! j = Some oldest /\
    T es (S i) = T es (S j) ++ later (S j) (take (S i) es) /\ no_replace (S j) (take (S i) es) /\
    (prev oldest <> None -> j = s) /\
    forall skip, batches_of chain skip = Ok (drop skip (snd <$> own es j oldest) ++ (snd <$> later (S j) (take (S i) es))).

Lemma chain_alone es hist i m s : (i < length es)%nat -> (s <= i)%nat -> hist !! i = Some m -> node es hist i m ->
  (prev m <> None -> i = s) -> chain_holds es hist s i [m].
Proof.
  intros Hi Hs Hm Hnode Hp. destruct (later_done es (S i) ltac:(lia)) as [El Hn]. exists m, [], i. rewrite El, app_nil_r.
  split_and!; try done. intros skip. cbn [batches_of].
  rewrite (manifest_groups_spec m _ skip (node_lists _ _ es hist i m Hnode)). done.
Qed.

Lemma delta_chain {X} es hist (stop : X -> Manifest -> X * bool) s d i m x :
  tied es hist ->
  (forall x i m l, hist !! i = Some m -> prev m = Some l -> (stop x m).2 = (lk_version l <=? Z.of_nat s)) ->
  hist !! i = Some m -> depth m = Z.of_nat d -> (s <= i)%nat ->
  chain_holds es hist s i (rev (stopped stop x (down hist i d))).
Proof.
  intros Htied Hstop. revert i m x. induction d as [|d IH]; intros i m x Hm Hd Hs;
    pose proof (proj2 Htied i m Hm) as Hnode; pose proof Hnode as (_ & _ & _ & _ & Hp);
    pose proof (lookup_lt_Some _ _ _ Hm) as Hi; rewrite (proj1 Htied) in Hi;
    cbn [down]; rewrite Hm; cbn [stopped]; destruct (prev m) as [l|] eqn:Ep.
  - destruct Hp as (_ & _ & _ & _ & _ & _ & p & Hp' & _ & _ & E). apply (node_depth name_id schema es) in Hp'; [lia|done].
  - by apply chain_alone.
  - pose proof (Hstop x i m l Hm Ep) as Eb. destruct (stop x m) as [x' b]. cbn in Eb. subst b.
    destruct Hp as (Elv & Hi0 & _ & Hl & ET & Hnr & p & Hp' & _ & _ & E). rewrite Elv.
    destruct (Z.leb_spec (Z.of_nat i) (Z.of_nat s)) as [Hle|Hgt].
    { apply chain_alone; try done. lia. }
    destruct (IH (i - 1)%nat p x' Hp' ltac:(lia) ltac:(lia)) as (o & rest & j & Ec & Hj & Ho & EQ & Hno & Hpo & Hbs).
    replace (S (i - 1)) with i in * by lia. destruct (lookup_lt_is_Some_2 es i Hi) as [e He].
    assert (new_at es i = e_new e) as En by (unfold new_at; by rewrite He). rewrite En in *.
    destruct (take_snoc es i e He) as [Et El].
    assert (later (S j) (take (S i) es) = later (S j) (take i es) ++ lab (Z.of_nat i + 1) (e_new e)) as Elat
      by (rewrite Et, later_snoc, El by lia; done).
    cbn [rev]. rewrite Ec. exists o, (rest ++ [m]), j. rewrite Elat. split_and!; try done; try lia.
    + by rewrite ET, EQ, <- app_assoc.
    + intros r y Hr Hy. rewrite Et in Hy. apply lookup_app_Some in Hy as [Hy|[Hge Hy]]; [by eapply Hno|].
      apply list_lookup_singleton_Some in Hy as [Er <-]. apply (Hnr i); [done|]. rewrite Et. by apply list_lookup_middle.
    + intros skip. rewrite Ec in Hbs. rewrite (batches_of_snoc (o :: rest) skip m _ (e_new e) ltac:(done) (Hbs skip) Hl).
      by rewrite fmap_app, lab_snd, <- app_assoc.
  - by apply chain_alone.
Qed.

(** The batches of the oldest root that a reader at [s] already holds are counted exactly. *)
Lemma kept_count es i m s :
  (i < length es)%nat -> fits es -> root_ok es i m -> (s <= i)%nat -> is_window_root m = true -> window_base m <= Z.of_nat s ->
  drop (Z.to_nat (sum_batches (filter (fun k => km_version k <= Z.of_nat s) (kept m)))) (T es (S i)) = later s (take (S i) es) /\
  no_replace s (take (S i) es).
Proof.
  intros Hi Hfit (_ & _ & Elab & Hinc & _ & _ & _ & _ & _ & Hw) Hs Hwr Hb.
  destruct (Hw Hwr s Hb ltac:(lia)) as [[q Eq] Hno]. split; [|done].
  assert (length (take (S i) es) = S i) as Elen by (rewrite length_take; lia).
  rewrite (upto_expand 0) by done.
  assert (upto (Z.of_nat s) (fst <$> T es (S i)) = upto (Z.of_nat s) (expand (kept m))) as E1.
  { rewrite Elab, upto_app, (upto_none _ (replicate _ _)); [lia|]. apply Forall_replicate. lia. }
  rewrite <- E1, Eq, fmap_app, upto_app, (upto_none _ (fst <$> later s _)), upto_all, length_fmap, Nat.add_0_r, drop_app_length; [done|..].
  - apply list.Forall_fmap, list.Forall_forall. intros x Hx. cbn.
    assert (x ∈ log (take s (take (S i) es))) as Hin.
    { destruct (T_suffix es (S i) Hfit) as [k Ek]. rewrite Eq, (log_split s), app_assoc in Ek. apply app_inv_tail in Ek.
      rewrite Ek, elem_of_app. by right. }
    apply log_labels in Hin. rewrite length_take in Hin. lia.
  - apply list.Forall_fmap, list.Forall_forall. intros x Hx. cbn. apply later_labels in Hx; [done|lia].
Qed.

(** The answer [batches_since] must give for version [v] to a reader that holds [s]. *)
Definition delta_spec es (v : nat) (s : Z) (dl : Delta) : Prop :=
  (truncated dl = true \/ s = 0 -> batches dl = table (take v es)) /\
  (s = 0 -> truncated dl = false) /\
  (truncated dl = false -> 0 < s <= Z.of_nat v ->
     no_replace (Z.to_nat s) (take v es) /\
     batches dl = concat (e_new <$> drop (Z.to_nat s) (take v es)) /\
     table (take v es) `suffix_of` table (take (Z.to_nat s) es) ++ batches dl) /\
  (truncated dl = true -> forall e, s = Z.of_nat v - 1 -> es !! (v - 1)%nat = Some e -> e_commit e = Replace).

Lemma delta_spec_exact es v s b : fits es -> (v <= length es)%nat -> (0 < s <= v)%nat -> no_replace s (take v es) ->
  delta_spec es v (Z.of_nat s) (mkDelta (snd <$> later s (take v es)) b false).
Proof.
  intros Hfit Hv Hs Hno. assert (length (take v es) = v) as Elen by (rewrite length_take; lia).
  unfold delta_spec. cbn [truncated batches]. rewrite Nat2Z.id. split_and!; try done; [lia|]. intros _ _. split_and!; [done| |].
  - apply later_snd. lia.
  - pose proof (no_replace_suffix s (take v es) (Forall_take _ v _ (fits_patch es Hfit)) ltac:(lia) Hno) as [k E].
    rewrite take_take, Nat.min_l in E by lia. exists (snd <$> k). rewrite <- !ltable_snd, <- !fmap_app. by rewrite E.
Qed.

Lemma delta_spec_table es v s b t :
  (t = true -> 0 < s) -> (t = false -> s = 0) ->
  (t = true -> forall e, s = Z.of_nat v - 1 -> es !! (v - 1)%nat = Some e -> e_commit e = Replace) ->
  delta_spec es v s (mkDelta (table (take v es)) b t).
Proof.
  intros Ht Hf Hr. unfold delta_spec. cbn [truncated batches]. split_and!; try done.
  - intros ->. destruct t; [specialize (Ht eq_refl); lia|done].
  - intros ->. specialize (Hf eq_refl). lia.
Qed.

Lemma delta_of_chain es hist i s chain :
  fits es -> tied es hist -> (i < length es)%nat -> (s <= i)%nat -> chain_holds es hist s i chain ->
  exists dl, delta_of (Z.of_nat s) chain = Ok dl /\ delta_spec es (S i) (Z.of_nat s) dl.
Proof.
  intros Hfit Htied Hi Hs (o & rest & j & -> & Hj & Ho & ET & Hno & Hp & Hbs).
  pose proof (proj2 Htied j o Ho) as Hnode. pose proof Hnode as (_ & _ & _ & _ & Hn).
  assert (T es (S i) = own es j o ++ later (S j) (take (S i) es) \/ prev o <> None) as Hown
    by (unfold own; destruct (prev o); [by right|by left]).
  assert (forall skip, (skip = 0)%nat -> prev o = None ->
    batches_of (o :: rest) skip = Ok (table (take (S i) es))) as Hall.
  { intros ? -> Ep. rewrite Hbs, drop_0, <- fmap_app, <- ltable_snd. destruct Hown as [<-|?]; done. }
  assert (forall r x, (s <= r)%nat -> no_replace s (take (S j) es) -> take (S i) es !! r = Some x -> e_commit x <> Replace) as Hnr.
  { intros r x Hr Hsj Hx. destruct (Nat.le_gt_cases (S j) r); [by eapply Hno|]. apply (Hsj r); [done|].
    rewrite lookup_take_lt by lia. by rewrite lookup_take_lt in Hx by lia. }
  unfold delta_of. destruct (prev o) as [l|] eqn:Ep.
  - specialize (Hp ltac:(done)) as ->. destruct Hn as (_ & Hs0 & _ & _ & _ & Hnj & _).
    rewrite orb_true_r. cbv beta iota. rewrite (Hbs (Z.to_nat 0)). cbn [rbind Z.to_nat]. eexists. split; [reflexivity|]. rewrite drop_0. unfold own. rewrite Ep.
    destruct (lookup_lt_is_Some_2 es s ltac:(lia)) as [e He].
    replace (snd <$> lab (Z.of_nat s + 1) (new_at es s)) with (snd <$> later s (take (S s) es))
      by (unfold new_at; rewrite He, (later_last es s e He); done).
    rewrite <- fmap_app, <- later_chop by lia. apply delta_spec_exact; [done|lia|lia|]. intros r x Hr Hx. by eapply Hnr.
  - rewrite orb_false_r. destruct (Z.eqb_spec (Z.of_nat s) 0) as [E0|E0].
    { cbv beta iota. rewrite (Hall (Z.to_nat 0)) by done. cbn [rbind]. eexists. split; [reflexivity|]. by apply delta_spec_table. }
    unfold kept_batches_before. destruct (is_window_root o) eqn:Hwr; cbn [negb orb].
    + destruct (Z.ltb_spec (Z.of_nat s) (window_base o)) as [Hlt|Hge].
      * cbv beta iota. rewrite (Hall (Z.to_nat 0)) by done. cbn [rbind]. eexists. split; [reflexivity|]. apply delta_spec_table; [lia|done|].
        intros _ e Hse _. destruct Hn as (_ & _ & _ & _ & _ & ? & _). lia.
      * destruct (kept_count es j o s ltac:(lia) Hfit Hn ltac:(lia) Hwr Hge) as [Edrop Hnj].
        cbv beta iota. rewrite Hbs. cbn [rbind]. eexists. split; [reflexivity|]. unfold own. rewrite Ep, <- fmap_drop, Edrop, <- fmap_app, <- later_chop by lia.
        apply delta_spec_exact; [done|lia|lia|]. intros r x Hr Hx. by eapply Hnr.
    + cbv beta iota. rewrite (Hall (Z.to_nat 0)) by done. cbn [rbind]. eexists. split; [reflexivity|]. apply delta_spec_table; [lia|done|].
      intros _ e Hse He. destruct Hn as (_ & _ & _ & _ & _ & _ & _ & _ & Hrep & _).
      assert (j = i) as -> by lia. destruct (Hrep ltac:(lia) Hwr) as (e' & He' & ?).
      replace (S i - 1)%nat with i in He by lia. by simplify_eq.
Qed.

(** C32.  A lineage of [Replace], [Append] and [Window] commits within the widths of the
    manifest format always commits, and reads of it are exact.  At every version [v], a
    reader that pins it rebuilds precisely the table the commits describe.  Asked for what
    came after a version [since] it already holds, it is given: the whole table when
    [since] is 0 or when the answer is marked truncated; and otherwise, when not truncated,
    precisely the batches committed after [since], which is sound because no [Replace] lies
    in between: the version's table is a suffix of the reader's own table with the delta
    added.  A reader one version behind is never truncated unless that commit was a
    [Replace], and one that is not behind gets nothing. *)
Theorem delta_exact es :
  fits es ->
  exists hist, lineage name_id schema es = Ok hist /\ length hist = length es /\
    forall v head, (1 <= v)%nat -> manifest_at hist (Z.of_nat v) = Some head ->
      alone (as_arrow_batches (read_by_version hist) head) = Ok (table (take v es)) /\
      forall since, 0 <= since ->
        exists dl, alone (batches_since (read_by_version hist) head since) = Ok dl /\ delta_spec es v since dl /\
          (Z.of_nat v <= since -> dl = mkDelta [] (Z.of_nat v) false).
Proof.
  intros Hfit. destruct (lineage_tied name_id schema es Hfit) as (hist & El & Htied). exists hist. split; [done|].
  pose proof (proj1 Htied) as Hlen. split; [done|]. intros v m Hv Hm. unfold manifest_at in Hm.
  rewrite (proj2 (Z.leb_gt _ _)) in Hm by lia. destruct v as [|i]; [lia|].
  replace (Z.to_nat (Z.of_nat (S i) - 1)) with i in Hm by lia.
  pose proof (lookup_lt_Some _ _ _ Hm) as Hi. rewrite Hlen in Hi.
  pose proof (proj2 Htied i m Hm) as (Hver & Hna & Hns & _). pose proof (node_depth _ _ es hist i m Htied Hm) as Hd.
  assert (depth m = Z.of_nat (Z.to_nat (depth m))) as Ed by lia.
  split.
  - unfold as_arrow_batches, walk_chain_with, walk_chain_newest_first.
    rewrite (alone_bind _ _ (Ok (rev (stopped (fun (x : unit) (_ : Manifest) => (x, false)) tt (down hist i (Z.to_nat (depth m))))))).
    2:{ rewrite run_bind, (walk_run _ _ es hist m _ _ i m tt Htied Hfit Hna Hns Hm Ed). done. }
    destruct (delta_chain es hist (fun (x : unit) (_ : Manifest) => (x, false)) 0 (Z.to_nat (depth m)) i m tt Htied) as
      (o & rest & j & Ec & Hj & Ho & ET & _ & Hp & Hbs); try done; [|lia|].
    { intros ? k m' l Hk Ep. pose proof (proj2 Htied k m' Hk) as (_ & _ & _ & _ & Hl). rewrite Ep in Hl.
      destruct Hl as (-> & ? & _). symmetry. apply Z.leb_gt. lia. }
    unfold alone. cbn [run rbind]. rewrite Hbs, drop_0, <- fmap_app, <- ltable_snd. do 2 f_equal.
    unfold own. destruct (prev o) eqn:Ep; [|done]. specialize (Hp ltac:(done)) as ->.
    pose proof (proj2 Htied 0%nat o Ho) as (_ & _ & _ & _ & Hl). rewrite Ep in Hl. destruct Hl as (_ & ? & _). lia.
  - intros since H0. unfold batches_since. rewrite Hver. destruct (Z.leb_spec (Z.of_nat i + 1) since) as [Hge|Hlt].
    + eexists. split; [reflexivity|]. split; [|intros _; f_equal; lia]. unfold delta_spec. cbn [truncated batches].
      split_and!; try done; [lia|]. intros _ Hs. replace (Z.to_nat since) with (S i) by lia.
      destruct (later_done es (S i) ltac:(lia)) as [_ Hno]. rewrite drop_ge by (rewrite length_take; lia). by rewrite app_nil_r.
    + assert (since = Z.of_nat (Z.to_nat since)) as Es by lia. rewrite Es. unfold walk_chain_newest_first.
      rewrite (alone_bind _ _ _ (walk_run _ _ es hist m _ _ i m tt Htied Hfit Hna Hns Hm Ed)).
      destruct (delta_of_chain es hist i (Z.to_nat since) (rev (stopped (delta_stop (Z.of_nat (Z.to_nat since))) tt (down hist i (Z.to_nat (depth m)))))
        Hfit Htied ltac:(lia) ltac:(lia)) as (dl & Edl & Hdl).
      { eapply delta_chain; try done; [|lia]. intros x k m' l _ Ep. unfold delta_stop. by rewrite Ep. }
      unfold alone. cbn [run rbind]. exists dl. rewrite Edl. split; [done|]. split; [done|lia].
Qed.
End lineage.

(** Three commits of one chunk each, the last a window that keeps one batch: the reader at
    version 1 is told that it cannot catch up, the one at version 2 gets the last batch. *)
Definition sample_chunk (n : Z) : ChunkDesc := mkChunkDesc 0 n 1 8 0 0.
Definition sample_commits : list entry :=
  [mkEntry Replace [[sample_chunk 1]] (mkPackedRef 0) 0;
   mkEntry Append [[sample_chunk 2]] (mkPackedRef 9) 1;
   mkEntry (Window 1) [[sample_chunk 3]] (mkPackedRef 17) 2].

Lemma sample_fits : fits sample_commits.
Proof. split_and!; [|done..]. by repeat constructor. Qed.

Lemma delta_exact_witness :
  fits sample_commits /\
  exists hist, lineage 7 8 sample_commits = Ok hist /\ length hist = 3%nat /\
    forall v head, (1 <= v)%nat -> manifest_at hist (Z.of_nat v) = Some head ->
      alone (as_arrow_batches (read_by_version hist) head) = Ok (table (take v sample_commits)) /\
      forall since, 0 <= since ->
        exists dl, alone (batches_since (read_by_version hist) head since) = Ok dl /\ delta_spec sample_commits v since dl /\
          (Z.of_nat v <= since -> dl = mkDelta [] (Z.of_nat v) false).
Proof. split; [exact sample_fits|exact (delta_exact 7 8 sample_commits sample_fits)]. Defined.
