(* ===== verification/WindowBound.v ===== *)
(** * A window policy bounds the table

    A writer that commits through [commit_windowed] appends while the chain is shallow and
    re-roots it when it is not.  The table then never outgrows the policy, and never loses
    a batch the policy promises to keep. *)

From S2P Require Import Prelude Atomic ChunkDesc Manifest Window WindowSpec WindowProof WindowClaims.

Section policy.
Context (name_id schema : Z) (p : WindowPolicy).
Implicit Types (es : list entry) (hist : list Manifest) (m : Manifest).
Abbreviation chain_max := (Z.max (max_depth p) 1).
Abbreviation keep := (Z.to_nat (keep_batches p)).

(** Every commit of [es] has the kind the policy asked for at that point. *)
Definition follows es : Prop :=
  forall i e hist, es !! i = Some e -> lineage name_id schema (take i es) = Ok hist -> e_commit e = commit_windowed p hist.

Lemma lineage_snoc es e hist :
  lineage name_id schema es = Ok hist ->
  lineage name_id schema (es ++ [e]) =
    let? m := commit_manifest name_id schema hist (e_commit e) (e_mref e) (e_gen e) (concat (e_new e)) (spans_of (e_new e)) in
    Ok (hist ++ [m]).
Proof. intros E. unfold lineage in *. by rewrite foldl_app, E. Qed.

Lemma built_depth target cs spans link window m :
  built name_id target schema cs spans link window = Ok m ->
  depth m = match link with Some l => lk_depth l + 1 | None => 0 end.
Proof.
  unfold built, manifest_header. destruct (try_u32 (length cs)), (try_u32 (length spans)); try done. cbn [ok_or rbind].
  destruct (default (0, []) window) as [base ks]. destruct (try_u32 (length ks)); [|done]. cbn [ok_or rbind]. destruct link as [l|].
  - destruct (_ || _ || _); [done|]. destruct window; [done|]. destruct (_ <=? _); [done|]. cbn. by intros [= <-].
  - destruct (negb _); [done|]. cbn. by intros [= <-].
Qed.

Lemma last_manifest hist m : manifest_at (hist ++ [m]) (Z.of_nat (length (hist ++ [m]))) = Some m.
Proof.
  unfold manifest_at. rewrite length_app. cbn [length]. rewrite (proj2 (Z.leb_gt _ _)) by lia.
  replace (Z.to_nat _) with (length hist) by lia. by apply list_lookup_middle.
Qed.

(** The depth after a commit, by its kind. *)
Lemma commit_depth hist c mref gen staged spans m d :
  commit_manifest name_id schema hist c mref gen staged spans = Ok m ->
  current_depth hist = d ->
  match c, d with
  | Append, Some d => depth m = d + 1
  | _, _ => depth m = 0
  end.
Proof.
  unfold commit_manifest, current_depth. destruct (manifest_at hist _) as [prior|]; cbn [fmap option_fmap option_map]; intros E <-;
    destruct c; cbn [rbind] in E; try done; try (by apply built_depth in E).
  - destruct (negb _); [done|]. by apply built_depth in E.
  - destruct (negb _); [done|]. destruct (if (_ =? _)%nat then _ else _) as [members|]; [|done]. cbn [rbind] in E.
    destruct (window_set prior keep_batches members) as [w|]; [|done]. cbn [rbind] in E.
    destruct (own_lists w staged spans) as [cs sp]. by apply built_depth in E.
Qed.

Lemma follows_prefix es e : follows (es ++ [e]) -> follows es.
Proof.
  intros Hf i x hist Hi El. pose proof (lookup_lt_Some _ _ _ Hi). apply (Hf i x hist); [by apply lookup_app_l_Some|].
  by rewrite take_app_le by lia.
Qed.

Definition depth_after hist : Z := match current_depth hist with Some d => d + 1 | None => 0 end.

Lemma policy_step es hist e m :
  max_depth p <= U32_MAX -> follows (es ++ [e]) ->
  lineage name_id schema es = Ok hist -> lineage name_id schema (es ++ [e]) = Ok (hist ++ [m]) ->
  (depth_after (hist ++ [m]) = depth_after hist + 1 /\ depth_after hist + 1 <= chain_max /\ table (es ++ [e]) = table es ++ e_new e) \/
  (depth_after (hist ++ [m]) = 1 /\ table (es ++ [e]) = lastn keep (table es) ++ e_new e).
Proof.
  intros Hmax Hf El Els. rewrite (lineage_snoc _ _ _ El) in Els.
  destruct (commit_manifest _ _ _ _ _ _ _ _) as [m'|] eqn:Ec; [|done]. cbn [rbind] in Els.
  assert (m' = m) as -> by (injection Els as Els; by apply app_inj_tail in Els as [_ ?]).
  pose proof (Hf (length es) e hist ltac:(by apply list_lookup_middle) ltac:(by rewrite take_app_length)) as Hk.
  pose proof (commit_depth _ _ _ _ _ _ _ _ Ec eq_refl) as Hdep. rewrite Hk in Hdep.
  assert (depth_after (hist ++ [m]) = depth m + 1) as -> by (unfold depth_after, current_depth; by rewrite last_manifest).
  rewrite table_snoc. unfold apply_commit. rewrite Hk. unfold commit_windowed, commit_for_depth, depth_after in *.
  destruct (current_depth hist) as [d|]; [|right; split; [lia|done]].
  destruct (Z.ltb_spec (Z.min (d + 1) U32_MAX) (Z.max (max_depth p) 1)) as [Hlt|Hge]; [left|right]; split_and!; try done; mach.
Qed.

(** What holds after every commit under the policy; [b] bounds the batches of one commit. *)
Definition bounded es hist (b : nat) : Prop :=
  0 <= depth_after hist <= chain_max /\
  (length (table es) <= keep + Z.to_nat (depth_after hist) * b)%nat /\
  lastn keep (concat (e_new <$> es)) `suffix_of` table es /\ table es `suffix_of` concat (e_new <$> es).

Lemma suffix_lastn {A} n (l k t : list A) : lastn n l `suffix_of` t -> t `suffix_of` l -> lastn n (l ++ k) `suffix_of` lastn n t ++ k.
Proof.
  intros H1 H2. assert (lastn n l = lastn n t) as E.
  { destruct H2 as [q ->]. destruct (Nat.le_gt_cases n (length t)) as [Hle|Hgt]; [by rewrite lastn_app_le|].
    apply suffix_length in H1 as Hl. rewrite length_lastn, length_app in Hl.
    destruct q; [done|]. cbn in Hl. exfalso. lia. }
  rewrite <- E. destruct (Nat.le_gt_cases (length k) n) as [Hle|Hgt].
  - rewrite lastn_app_ge by done. apply suffix_app. exists (take (length (lastn n l) - (n - length k)) (lastn n l)).
    unfold lastn at 2 4. rewrite <- (take_drop (length (lastn n l) - (n - length k)) (lastn n l)) at 1. f_equal.
    unfold lastn. rewrite drop_drop, length_drop. f_equal. lia.
  - rewrite lastn_app_le by lia. apply suffix_app_r, lastn_suffix.
Qed.

Lemma policy_bounded es hist b :
  fits es -> max_depth p <= U32_MAX -> follows es -> Forall (fun e => (length (e_new e) <= b)%nat) es ->
  lineage name_id schema es = Ok hist -> bounded es hist b.
Proof.
  intros Hfit Hmax. revert hist. induction es as [|e es IH] using rev_ind; intros hist Hf Hb El.
  { injection El as <-. split_and!; try done; change (depth_after []) with 0; cbn; lia. }
  pose proof (fits_prefix _ _ Hfit) as Hfit0. apply Forall_app in Hb as [Hb He]. apply list.Forall_cons in He as [He _].
  destruct (lineage_tied name_id schema es Hfit0) as (hist0 & El0 & _).
  destruct (IH Hfit0 hist0 (follows_prefix _ _ Hf) Hb El0) as ([Hd0 Hd1] & Hlen & Hs1 & Hs2).
  pose proof El as El'. rewrite (lineage_snoc _ _ _ El0) in El'. destruct (commit_manifest _ _ _ _ _ _ _ _) as [m|]; [|done].
  cbn [rbind] in El'. injection El' as <-.
  unfold bounded. rewrite fmap_app, concat_app. cbn [fmap list_fmap concat]. rewrite app_nil_r.
  destruct (policy_step es hist0 e m Hmax Hf El0 El) as [(-> & Hle & ->)|(-> & ->)].
  - split_and!; [lia|lia| |..].
    + rewrite length_app. replace (Z.to_nat (depth_after hist0 + 1)) with (S (Z.to_nat (depth_after hist0))) by lia. lia.
    + etrans; [by apply suffix_lastn|]. apply suffix_app, lastn_suffix.
    + by apply suffix_app.
  - split_and!; [lia|lia| |..].
    + rewrite length_app, length_lastn. lia.
    + by apply suffix_lastn.
    + apply suffix_app. etrans; [apply lastn_suffix|done].
Qed.

(** C33.  A writer that commits under a window policy keeps a bounded table: after any
    number of commits of at most [b] batches each, the chain is at most [max_depth] long,
    the current table has at most [keep_batches + max_depth * b] batches, it holds at least
    the newest [keep_batches] batches ever committed, and it is a contiguous tail of them. *)
Theorem policy_bounds_table es b :
  fits es -> 0 <= max_depth p <= U32_MAX -> follows es -> Forall (fun e => (length (e_new e) <= b)%nat) es ->
  exists hist, lineage name_id schema es = Ok hist /\
    (forall d, current_depth hist = Some d -> d < chain_max) /\
    (length (table es) <= keep + Z.to_nat chain_max * b)%nat /\
    lastn keep (concat (e_new <$> es)) `suffix_of` table es /\ table es `suffix_of` concat (e_new <$> es).
Proof.
  intros Hfit Hmax Hf Hb. destruct (lineage_tied name_id schema es Hfit) as (hist & El & _). exists hist. split; [done|].
  destruct (policy_bounded es hist b Hfit ltac:(lia) Hf Hb El) as ([Hd0 Hd1] & Hlen & Hs1 & Hs2). split_and!; try done.
  - intros d Ed. unfold depth_after in Hd1. rewrite Ed in Hd1. lia.
  - etrans; [exact Hlen|]. apply Nat.add_le_mono_l, Nat.mul_le_mono_r. lia.
Qed.
End policy.

(** Four one-batch commits under a policy that keeps two: window, append, window, append. *)
Definition policy_chunk (n : Z) : list ChunkDesc := [mkChunkDesc 0 n 1 8 0 0].
Definition policy_commits : list entry :=
  [mkEntry (Window 2) [policy_chunk 1] (mkPackedRef 0) 0; mkEntry Append [policy_chunk 2] (mkPackedRef 9) 1;
   mkEntry (Window 2) [policy_chunk 3] (mkPackedRef 17) 2; mkEntry Append [policy_chunk 4] (mkPackedRef 25) 3].

Lemma policy_commits_fit : fits policy_commits.
Proof. split_and!; [|done..]. by repeat constructor. Qed.

Lemma policy_commits_follow : follows 7 8 (policy_new 2) policy_commits.
Proof.
  intros i e hist Hi El. do 4 (destruct i as [|i]; [injection Hi as <-; vm_compute in El; injection El as <-; reflexivity|]). done.
Qed.

Lemma policy_bounds_table_witness :
  follows 7 8 (policy_new 2) policy_commits /\
  exists hist, lineage 7 8 policy_commits = Ok hist /\
    (forall d, current_depth hist = Some d -> d < 2) /\
    (length (table policy_commits) <= 4)%nat /\
    lastn 2 (concat (e_new <$> policy_commits)) `suffix_of` table policy_commits /\
    table policy_commits `suffix_of` concat (e_new <$> policy_commits).
Proof.
  split; [exact policy_commits_follow|].
  apply (policy_bounds_table 7 8 (policy_new 2) policy_commits 1 policy_commits_fit ltac:(done) policy_commits_follow).
  by repeat constructor.
Defined.
