(* ===== verification/Artifact.v ===== *)
(** * Artifacts

    [src/crates/shm-artifact/src/artifact.rs]: versioned objects over a head (the
    [Head] words) and a data segment whose pool holds the manifests and the data chunks.
    A commit stages chunks off to the side and installs a version with one
    compare-and-swap; readers pin versions; whoever drops the last pin of a version that
    is no longer current releases its manifest, and through it the chain behind it.

    The data segment is used through the interface [DataSeg], which the pool of [Pool.v]
    implements.  Every routine is a program over the shared memory, so the same text is
    run alone and interleaved.  A manifest is read and written in one action each (its
    chunk is immutable while anyone may read it); [watch] sinks append to an event log.
    Commits take chunks that are already staged; [Batches] writes Arrow batches into them. *)

From S2P Require Import Prelude Atomic ChunkDesc ChunkCtrl Pool SegBytes BorrowJournal Manifest Window Head.

(** ** Errors in programs *)

Definition tbind {S E A B} (p : prog S (option (result E A))) (k : A -> prog S (option (result E B)))
    : prog S (option (result E B)) :=
  o <- p ;;
  match o with
  | None => Ret None
  | Some (Err e) => done (Err e)
  | Some (Ok a) => k a
  end.
Notation "x <-? p ;; k" := (tbind p (fun x => k))
  (at level 100, p at next level, k at level 200, right associativity) : prog_scope.

Definition map_err {E F A} (f : E -> F) (r : result E A) : result F A :=
  match r with Ok a => Ok a | Err e => Err (f e) end.

(** An access outside every mapped object. *)
Definition out_of_bounds {S A} : prog S A :=
  Atomic (R := Empty_set) (fun _ => None) (fun e => match e with end).

(** ** The data segment *)

Class DataSeg (D : Type) := {
  d_pool : Type;
  d_attach : prog D (result CoreError d_pool);
  d_ctrl {A} : d_pool -> ChunkDesc -> prog ChunkCtrl A -> prog D (result CoreError A);
  d_alloc : d_pool -> nat -> Z -> prog D (option (result CoreError ChunkDesc));
  d_free : d_pool -> nat -> ChunkDesc -> prog D (option (result CoreError unit));
  d_resolve : Z -> Z -> prog D (result CoreError unit);
  d_read : Z -> Z -> prog D (list Z);
  d_write : Z -> list Z -> prog D unit
}.

(** [Segment::resolve]. *)
Definition resolve (seg : Segment) (off len : Z) : result CoreError unit :=
  if (off <? HEADER_SIZE) || (HEADER_SIZE + payload_len seg <? off + len) then Err OutOfBounds else Ok tt.

#[export] Instance pool_data (seg : Segment) : DataSeg PoolMem := {|
  d_pool := Pool;
  d_attach := act (fun m => Some (Pool.attach seg m, m));
  d_ctrl A p d q := Pool.ctrl p d q;
  d_alloc p fuel size := Pool.alloc p fuel size;
  d_free p fuel d := Pool.free p fuel d;
  d_resolve off len := Ret (resolve seg off len);
  d_read off n := load (fun m => bytes_at (Pool.words m) (off - HEADER_SIZE) n);
  d_write off bs := store (fun m => set_words (write_words (Pool.words m) (off - HEADER_SIZE) (length bs / 4) bs) m)
|}.

(** ** Memory and handles *)

Record ArtMem (D : Type) : Type := mkArtMem {
  a_head : ArtifactHead;
  a_data : D;
  a_journals : list JournalMem;
  a_events : list VersionEvent
}.
Arguments mkArtMem {D}.
Arguments a_head {D}.
Arguments a_data {D}.
Arguments a_journals {D}.
Arguments a_events {D}.

Record Artifact : Set := mkArtifact { name_id : Z; art_incarnation : Z; watch : bool }.

(** A journal: which actor's segment, and the handle on it. *)
Abbreviation jref := (nat * BorrowJournal)%type.

(** A journaled pin: the actor's journal segment and the slot in it. *)
Record PinState : Set := mkPin { ps_version : Z; ps_slot : nat; ps_manifest : Manifest; ps_journal : option (nat * nat) }.

Record Committer : Set := mkCommitter { c_owner : Z; c_token : Z; c_lease : option (jref * nat) }.

Definition EVICTOR_OWNER : Z := U32_MAX.

Definition manifest_chunk_desc (mref : PackedRef) (generation : Z) : ChunkDesc :=
  mkChunkDesc (PackedRef_segment_id mref) generation (PackedRef_offset mref) 0 0 0.

Section artifact.
Context {D : Type} `{!DataSeg D} (fuel : nat).
Abbreviation M := (ArtMem D).
Abbreviation pool := (d_pool (D := D)).

Definition on_head {A} (p : prog ArtifactHead A) : prog M A :=
  lift (field a_head (fun h m => mkArtMem h (a_data m) (a_journals m) (a_events m))) p.
Definition on_data {A} (p : prog D A) : prog M A :=
  lift (field a_data (fun d m => mkArtMem (a_head m) d (a_journals m) (a_events m))) p.
Definition on_journal {A} (k : nat) (p : prog JournalMem A) : prog M A :=
  lift (elem a_journals (fun js m => mkArtMem (a_head m) (a_data m) js (a_events m)) k) p.
Definition emit (e : VersionEvent) : prog M unit :=
  store (fun m => mkArtMem (a_head m) (a_data m) (a_journals m) (a_events m ++ [e])).
Definition slot_of {A} (i : nat) (p : prog PinSlot A) : prog M A := on_head (slot_at i p).

(** [Pool::attach(data_seg)?] *)
Definition attach_pool : prog M (option (result ArtifactError pool)) :=
  r <- on_data d_attach ;; done (map_err Core r).

Definition pool_free (p : pool) (d : ChunkDesc) : prog M (option (result CoreError unit)) := on_data (d_free p fuel d).

(** A control-word routine that may fail, on the chunk of [d]. *)
Definition with_ctrl {A} (p : pool) (d : ChunkDesc) (q : prog ChunkCtrl (option (result CoreError A)))
    : prog M (option (result ArtifactError A)) :=
  r <- on_data (d_ctrl p d q) ;;
  match r with
  | Err e => done (Err (Core e))
  | Ok None => Ret None
  | Ok (Some r) => done (map_err Core r)
  end.

(** ** References on chunks *)

(** The releases that end with [Pool::free] when they were the last. *)
Definition freed_by (p : pool) (d : ChunkDesc) (q : prog ChunkCtrl (option bool)) : prog M (option bool) :=
  r <- on_data (d_ctrl p d q) ;;
  match r with
  | Err _ => done false
  | Ok None => Ret None
  | Ok (Some b) => if b : bool then _ <-- pool_free p d ;; done true else done false
  end.

Definition release_chunk (p : pool) (d : ChunkDesc) : prog M (option bool) :=
  freed_by p d (
    v <- ChunkCtrl.validate d ;;
    match v with
    | Err _ => done false
    | Ok _ => st <- ChunkCtrl.state ;; if st =? PUBLISHED then release_shared fuel else done false
    end).

Definition release_chunk_owned (p : pool) (d : ChunkDesc) : prog M (option bool) :=
  freed_by p d (st <- ChunkCtrl.state ;; if st =? PUBLISHED then release_shared fuel else done false).

Definition release_all (p : pool) (ds : list ChunkDesc) : prog M (option unit) :=
  loop_fold ds (fun _ d => _ <-- release_chunk p d ;; done tt) tt.

Definition free_loaned (p : pool) (d : ChunkDesc) : prog M (option unit) :=
  r <- on_data (d_ctrl p d (drop_loan fuel)) ;;
  match r with
  | Ok None => Ret None
  | Ok (Some (Ok _)) => _ <-- pool_free p d ;; done tt
  | _ => done tt
  end.

Definition free_all_loaned (p : pool) (ds : list ChunkDesc) : prog M (option unit) :=
  loop_fold ds (fun _ d => free_loaned p d) tt.

(** ** Manifests in chunks *)

Definition read_manifest (mref : PackedRef) : prog M (result ArtifactError Manifest) :=
  let off := PackedRef_offset mref in
  r <- on_data (d_resolve off 64) ;;
  match r with
  | Err e => Ret (Err (Core e))
  | Ok _ =>
      hb <- on_data (d_read off 64) ;;
      match read_pod header_layout hb 0 with
      | None => out_of_bounds
      | Some vs =>
          let h := header_of vs in
          if negb (vm_magic h =? MANIFEST_MAGIC) then Ret (Err BadMagic)
          else
            let total := manifest_len (vm_chunk_count h) (vm_batch_count h) (vm_kept_count h) in
            if U32_MAX <? total then Ret (Err VersionGone)
            else
              r <- on_data (d_resolve off total) ;;
              match r with
              | Err e => Ret (Err (Core e))
              | Ok _ =>
                  bytes <- on_data (d_read off total) ;;
                  match parse_manifest_bytes bytes with
                  | None => out_of_bounds
                  | Some r => Ret r
                  end
              end
      end
  end.

Definition read_manifest_checked (mref : PackedRef) (artifact_id version : Z) : prog M (result ArtifactError Manifest) :=
  r <- read_manifest mref ;;
  Ret (let? m := r in check_identity artifact_id version m).

(** One hop of a chain walk. *)
Definition read_link (p : pool) (artifact_id : Z) (l : ManifestLink) : prog M (result ArtifactError Manifest) :=
  r <- on_data (d_ctrl p (manifest_chunk_desc (lk_mref l) 0) ChunkCtrl.generation) ;;
  match r with
  | Err e => Ret (Err (Core e))
  | Ok g =>
      if negb (g =? lk_generation l) then Ret (Err VersionGone)
      else read_manifest_checked (lk_mref l) artifact_id (lk_version l)
  end.

(** One turn of the retire cascade: a reference on a manifest, and if it was the last, those
    the manifest holds. *)
Definition release_step (p : pool) (ref : PackedRef * option Z) : prog M (option ((PackedRef * option Z) + unit)) :=
  let '(mref, generation) := ref in
  parsed <- read_manifest mref ;;
  released <-- match generation with
               | Some g => release_chunk p (manifest_chunk_desc mref g)
               | None => release_chunk_owned p (manifest_chunk_desc mref 0)
               end ;;
  if negb released then done (inr tt)
  else
    match parsed with
    | Err _ => done (inr tt)
    | Ok m =>
        _ <-- release_all p (chunks m) ;;
        done (match prev m with
              | Some l => inl (lk_mref l, Some (lk_generation l))
              | None => inr tt
              end)
    end.

(** The retire cascade. *)
Definition release_manifest_ref (p : pool) (mref : PackedRef) (generation : option Z) : prog M (option unit) :=
  loop fuel (release_step p) (mref, generation).

(** [write_manifest]: the chunk is allocated, checked and written, still FREE. *)
Definition write_manifest (p : pool) (artifact_id version schema_id : Z) (cs : list ChunkDesc) (spans : list Z)
    (link : option ManifestLink) (window : option (Z * list KeptMember)) : prog M (option (result ArtifactError ChunkDesc)) :=
  match manifest_header artifact_id version schema_id cs spans link window with
  | Err e => done (Err e)
  | Ok h =>
      let ks := (default (0, []) window).2 in
      let total := manifest_len (Z.of_nat (length cs)) (Z.of_nat (length spans)) (Z.of_nat (length ks)) in
      if U32_MAX <? total then done (Err (ArrowCore LayoutOverflow))
      else
        r <-- on_data (d_alloc p fuel total) ;;
        match r with
        | Err e => done (Err (ArrowCore e))
        | Ok d =>
            if ChunkDesc.len d <? total then done (Err (Arrow total (ChunkDesc.len d)))
            else
              on_data (d_write (offset d) (manifest_image h cs spans ks)) ;;;
              done (Ok d)
        end
  end.

(** ** Staging *)

Definition stage_chunk (p : pool) (write : prog M (option (result ArtifactError ChunkDesc))) (owner : Z)
    : prog M (option (result ArtifactError ChunkDesc)) :=
  d <-? write ;;
  _ <-? with_ctrl p d (
    _ <-? (r <- try_loan owner ;; done r) ;;
    _ <-? ChunkCtrl.publish fuel ;;
    _ <-? borrow_shared fuel ;;
    owner_release ;;;
    done (Ok tt)) ;;
  done (Ok d).

Definition publish_staged (p : pool) (d : ChunkDesc) : prog M (option (result ArtifactError unit)) :=
  with_ctrl p d (
    _ <-? ChunkCtrl.publish fuel ;;
    _ <-? borrow_shared fuel ;;
    owner_release ;;;
    done (Ok tt)).

(** Step 1 of a commit; a failure returns every staged chunk to the pool. *)
Fixpoint publish_all (p : pool) (published todo : list ChunkDesc) : prog M (option (result ArtifactError unit)) :=
  match todo with
  | [] => done (Ok tt)
  | d :: todo' =>
      r <-- publish_staged p d ;;
      match r with
      | Ok _ => publish_all p (published ++ [d]) todo'
      | Err e => _ <-- release_all p published ;; _ <-- free_all_loaned p todo ;; done (Err e)
      end
  end.

(** Drop the loans of [before], then return every chunk of [all]. *)
Definition unloan (p : pool) (before all : list ChunkDesc) : prog M (option unit) :=
  _ <-- loop_fold before (fun _ d =>
    r <- on_data (d_ctrl p d (drop_loan fuel)) ;;
    match r with Ok None => Ret None | _ => done tt end) tt ;;
  loop_fold all (fun _ d => _ <-- pool_free p d ;; done tt) tt.

Fixpoint loan_from (p : pool) (owner : Z) (before todo all : list ChunkDesc) : prog M (option (result ArtifactError unit)) :=
  match todo with
  | [] => done (Ok tt)
  | d :: todo' =>
      r <- on_data (d_ctrl p d (try_loan owner)) ;;
      match r with
      | Ok (Ok _) => loan_from p owner (before ++ [d]) todo' all
      | Ok (Err e) | Err e => _ <-- unloan p before all ;; done (Err (Core e))
      end
  end.

Definition loan_all (p : pool) (ds : list ChunkDesc) (owner : Z) : prog M (option (result ArtifactError unit)) :=
  loan_from p owner [] ds ds.

(** ** Retiring a version *)

Definition try_retire_version_at (v : Z) (manifest_bits : option Z) : prog M (option (result ArtifactError unit)) :=
  loop fuel (fun _ : unit =>
    found <- on_head (match manifest_bits with Some bits => find_slot_with_manifest v bits | None => find_slot v end) ;;
    match found with
    | None => done (inr (Ok tt))
    | Some idx =>
        c <- on_head (load current) ;;
        if c =? v then done (inr (Ok tt))
        else
          elected <- slot_of idx elect_freeing ;;
          if negb elected then done (inr (Ok tt))
          else
            n <- slot_of idx pin_scan ;;
            if negb (n =? 0) then
              slot_of idx revert_live ;;;
              n <- slot_of idx pin_scan ;;
              done (if negb (n =? 0) then inr (Ok tt) else inl tt)
            else
              r <-- attach_pool ;;
              match r with
              | Err e => done (inr (Err e))
              | Ok p =>
                  bits <- slot_of idx (load Head.manifest) ;;
                  _ <-- release_manifest_ref p (mkPackedRef bits) None ;;
                  slot_of idx store_free ;;;
                  done (inr (Ok tt))
              end
    end) tt.

Definition try_retire_version (v : Z) : prog M (option (result ArtifactError unit)) := try_retire_version_at v None.

Definition undo_pin (idx : nat) : prog M (option unit) :=
  n <- slot_of idx unpin ;;
  if n =? 1 then
    sv <- slot_of idx (load Head.version) ;;
    if sv =? 0 then done tt
    else
      c <- on_head (load current) ;;
      if c =? sv then done tt else _ <-- try_retire_version sv ;; done tt
  else done tt.

(** ** Pinning *)

(** What is left to do once the pin is accepted: journal it if asked to. *)
Definition journal_pin (art : Artifact) (jseg : option nat) (idx : nat) (v : Z)
    : prog M (option (result ArtifactError (option (nat * nat)))) :=
  match jseg with
  | None => done (Ok None)
  | Some k =>
      r <- on_journal k (act (fun m => Some (BorrowJournal.attach m, m))) ;;
      match r with
      | Err e => done (Err (Core e))
      | Ok j =>
          r <-- on_journal k (record_artifact_pin j fuel (name_id art) (art_incarnation art) v) ;;
          match r with
          | Ok slot => done (Ok (Some (k, slot)))
          | Err e => _ <-- undo_pin idx ;; done (Err (Core e))
          end
      end
  end.

Definition again {S A B} (p : prog S (option A)) : prog S (option (unit + B)) := _ <-- p ;; done (inl tt).

Definition pin_inner (art : Artifact) (jseg : option nat) : prog M (option (result ArtifactError PinState)) :=
  loop fuel (fun _ : unit =>
    v <- on_head (load current) ;;
    if v =? NO_VERSION then done (inr (Err VersionGone))
    else
      found <- on_head (find_slot v) ;;
      match found with
      | None => done (inl tt)
      | Some idx =>
          slot_of idx publish_pin ;;;
          ok <- slot_of idx (accept_pin v) ;;
          if negb ok then again (undo_pin idx)
          else
            live <- on_head (is_incarnation (art_incarnation art)) ;;
            if negb live then _ <-- undo_pin idx ;; done (inr (Err Stale))
            else
              head_md <- on_head (load manifest_desc) ;;
              md <- slot_of idx (load Head.manifest) ;;
              if negb (md =? head_md) then again (undo_pin idx)
              else
                r <- read_manifest_checked (mkPackedRef head_md) (name_id art) v ;;
                match r with
                | Err _ => again (undo_pin idx)
                | Ok m =>
                    j <-- journal_pin art jseg idx v ;;
                    done (inr (match j with Ok j => Ok (mkPin v idx m j) | Err e => Err e end))
                end
      end) tt.

Definition pin (art : Artifact) : prog M (option (result ArtifactError PinState)) := pin_inner art None.
Definition pin_journaled (art : Artifact) (jseg : nat) : prog M (option (result ArtifactError PinState)) :=
  pin_inner art (Some jseg).

(** The unjournaled part of dropping a pin. *)
Definition release_pin (ps : PinState) : prog M (option unit) :=
  n <- slot_of (ps_slot ps) unpin ;;
  if n =? 1 then
    c <- on_head (load current) ;;
    if c =? ps_version ps then done tt else _ <-- try_retire_version (ps_version ps) ;; done tt
  else done tt.

(** [PinState::drop]. *)
Definition drop_pin (ps : PinState) : prog M (option unit) :=
  match ps_journal ps with
  | None => release_pin ps
  | Some (k, slot) =>
      r <- on_journal k (act (fun m => Some (BorrowJournal.attach m, m))) ;;
      match r with
      | Err _ => release_pin ps
      | Ok j =>
          r <- on_journal k (BorrowJournal.release j slot) ;;
          match r with Ok false => done tt | _ => release_pin ps end
      end
  end.

Definition retain_pin (art : Artifact) : prog M (option (result ArtifactError Z)) :=
  ps <-? pin_inner art None ;;
  _ <-- loop fuel (fun _ : unit =>
    slot_of (ps_slot ps) publish_pin ;;;
    ok <- slot_of (ps_slot ps) (accept_pin (ps_version ps)) ;;
    live <- (if ok : bool then on_head (is_incarnation (art_incarnation art)) else Ret false) ;;
    if live : bool then done (inr tt)
    else slot_of (ps_slot ps) unpin ;;; done (inl tt)) tt ;;
  _ <-- drop_pin ps ;;
  done (Ok (ps_version ps)).

Definition version_pin_count (v : Z) : prog M (option Z) :=
  found <- on_head (find_slot v) ;;
  match found with
  | None => Ret None
  | Some idx => n <- slot_of idx (load pins) ;; Ret (Some n)
  end.

(** ** Crash replay *)

Definition release_leaked_pin (v : Z) : prog M (option (result ArtifactError bool)) :=
  found <- on_head (find_slot v) ;;
  match found with
  | None => done (Ok false)
  | Some idx =>
      r <-- slot_of idx (try_unpin fuel) ;;
      match r with
      | None => done (Ok false)
      | Some n =>
          c <- (if n =? 1 then on_head (load current) else Ret v) ;;
          if c =? v then done (Ok true)
          else _ <-? try_retire_version v ;; done (Ok true)
      end
  end.

Definition release_leaked_write_lease : prog M (option bool) := on_head (force_release_write_lease fuel).

Definition reclaim_staged_manifest (manifest generation : Z) : prog M (option (result ArtifactError bool)) :=
  md <- on_head (load manifest_desc) ;;
  if md =? manifest then done (Ok false)
  else
    endorsed <- on_head (for_each slot_indices (fun i =>
      st <- slot_at i (load Head.state) ;;
      if negb (st =? SLOT_LIVE) then Ret None
      else b <- slot_at i (load Head.manifest) ;; Ret (if b =? manifest then Some tt else None))) ;;
    match endorsed with
    | Some _ => done (Ok false)
    | None =>
        p <-? attach_pool ;;
        let mref := mkPackedRef manifest in
        let d := manifest_chunk_desc mref generation in
        r <- on_data (d_ctrl p d (
          v <- ChunkCtrl.validate d ;;
          match v with Err _ => Ret false | Ok _ => st <- ChunkCtrl.state ;; Ret (st =? PUBLISHED) end)) ;;
        match r with
        | Ok true => _ <-- release_manifest_ref p mref (Some generation) ;; done (Ok true)
        | _ => done (Ok false)
        end
    end.
End artifact.
