(* ===== verification/Commit.v ===== *)
(** * Commits, eviction and handles of artifacts

    The write path of [src/crates/shm-artifact/src/artifact.rs]: creating and attaching a
    head, the fenced exclusive lease, the one install path shared by every commit with its
    rollback, and the teardown of an entry.  See [Artifact.v] for the conventions. *)

From S2P Require Import Prelude Atomic ChunkDesc ChunkCtrl Pool BorrowJournal Manifest Window Head Artifact.

(** ** Creating and attaching a head

    [payload] is the length of the management segment's payload and [off] the head's
    offset in it; the memory is the head region at that offset. *)

Definition head_fits (payload off : Z) : option bool :=
  if U64_MOD <=? off + region_bytes then None else Some (off + region_bytes <=? payload).

(** The pool of the data segment is laid out by the caller; this is the head's part of
    [create] and all of [create_at]. *)
Definition create_at (nid inc payload off : Z) : prog ArtifactHead (result ArtifactError Artifact) :=
  match head_fits payload off with
  | None | Some false => Ret (Err (Core LayoutOverflow))
  | Some true =>
      ok <- check_magic ;;
      carry <- (if ok : bool then l <- load Head.write_lease ;; Ret (lease_fence l) else Ret 0) ;;
      store (fun _ => fresh) ;;;
      store (set_write_lease (pack_lease Head.OWNER_NONE carry)) ;;;
      commission inc ;;;
      Ret (Ok (mkArtifact nid inc false))
  end.

(** [create]: no lease fence is carried over. *)
Definition create_head (nid payload : Z) : prog ArtifactHead (result ArtifactError Artifact) :=
  if payload <? region_bytes then Ret (Err (Core LayoutOverflow))
  else
    store (fun _ => fresh) ;;;
    commission FIRST_INCARNATION ;;;
    Ret (Ok (mkArtifact nid FIRST_INCARNATION false)).

Definition with_watch (art : Artifact) : Artifact := mkArtifact (name_id art) (art_incarnation art) true.

Section commit.
Context {D : Type} `{!DataSeg D} (fuel : nat).
Abbreviation M := (ArtMem D).
Abbreviation pool := (d_pool (D := D)).
Abbreviation release_chunk := (release_chunk fuel).
Abbreviation release_chunk_owned := (release_chunk_owned fuel).
Abbreviation release_all := (release_all fuel).
Abbreviation release_manifest_ref := (release_manifest_ref fuel).

Definition attach_at (nid payload off : Z) : prog M (option (result ArtifactError Artifact)) :=
  _ <-? attach_pool ;;
  match head_fits payload off with
  | None | Some false => done (Err BadMagic)
  | Some true =>
      ok <- on_head check_magic ;;
      if negb ok then done (Err BadMagic)
      else
        inc <- on_head Head.incarnation ;;
        done (if inc =? NO_INCARNATION then Err Stale else Ok (mkArtifact nid inc false))
  end.

Definition attach_at_incarnation (nid expected payload off : Z) : prog M (option (result ArtifactError Artifact)) :=
  art <-? attach_at nid payload off ;;
  done (if art_incarnation art =? expected then Ok art else Err Stale).

Definition check_live (art : Artifact) : prog M (option (result ArtifactError unit)) :=
  ok <- on_head (is_incarnation (art_incarnation art)) ;;
  done (if ok : bool then Ok tt else Err Stale).

(** ** Windows with their references *)

(** One reference on a kept data chunk, validated before and after. *)
Definition borrow_kept (p : pool) (d : ChunkDesc) : prog M (option (result ArtifactError unit)) :=
  r <- on_data (d_ctrl p d (
    _ <-? (v <- ChunkCtrl.validate d ;; done v) ;;
    _ <-? borrow_shared fuel ;;
    v <- ChunkCtrl.validate d ;;
    done (Ok v))) ;;
  match r with
  | Err e => done (Err (Core e))
  | Ok None => Ret None
  | Ok (Some (Err e)) => done (Err (Core e))
  | Ok (Some (Ok (Ok _))) => done (Ok tt)
  | Ok (Some (Ok (Err _))) => _ <-- release_chunk_owned p d ;; done (Err VersionGone)
  end.

(** The references on one part's chunks; a failure releases all taken so far. *)
Fixpoint borrow_all (p : pool) (held todo : list ChunkDesc) : prog M (option (result ArtifactError (list ChunkDesc))) :=
  match todo with
  | [] => done (Ok held)
  | d :: todo' =>
      r <-- borrow_kept p d ;;
      match r with
      | Ok _ => borrow_all p (held ++ [d]) todo'
      | Err e => _ <-- release_all p held ;; done (Err e)
      end
  end.

Fixpoint borrow_parts (p : pool) (oldest : bool) (parts : list (Manifest * nat)) (w : WindowSet)
    : prog M (option (result ArtifactError WindowSet)) :=
  match parts with
  | [] => done (Ok w)
  | (m, take) :: parts' =>
      match tail_chunks m take with
      | None => done (Err VersionGone)
      | Some tc =>
          held <-? borrow_all p (w_chunks w) tc ;;
          let '(ms, base) := window_account oldest m take (w_base w) in
          borrow_parts p false parts' (mkWindow held (w_spans w ++ tail_spans m take) (w_members w ++ ms) base)
      end
  end.

Definition collect_window (p : pool) (prior : Manifest) (keep : Z) : prog M (option (result ArtifactError WindowSet)) :=
  members <-? (if (Z.to_nat keep =? 0)%nat then done (Ok [])
               else
                 r <- walk_chain_newest_first prior (read_link p (artifact_id prior)) window_stop (Z.to_nat keep) ;;
                 done r) ;;
  borrow_parts p true (rev (window_parts (Z.to_nat keep) members)) (mkWindow [] [] [] (Manifest.version prior)).

(** ** Rollback *)

(** Free the claimed slot if it still holds the claimed version. *)
Definition unclaim (idx : nat) (v : Z) : prog M unit :=
  st <- slot_of idx (load Head.state) ;;
  if negb (st =? SLOT_LIVE) then Ret tt
  else
    w <- slot_of idx (load Head.version) ;;
    if negb (w =? v) then Ret tt
    else slot_of idx (store (set_version 0)) ;;; slot_of idx (store (set_state SLOT_FREE)).

Definition release_link (p : pool) (l : ManifestLink) : prog M (option unit) :=
  r <- on_data (d_ctrl p (manifest_chunk_desc (lk_mref l) 0) ChunkCtrl.generation) ;;
  match r with
  | Ok g => if g =? lk_generation l then release_manifest_ref p (lk_mref l) (Some (lk_generation l)) else done tt
  | Err _ => done tt
  end.

Definition rollback_staged (p : pool) (published : list ChunkDesc) (link : option ManifestLink) (kept : list ChunkDesc)
    (manifest_desc : option ChunkDesc) (slot : option (nat * Z)) : prog M (option unit) :=
  (match slot with Some (idx, v) => unclaim idx v | None => Ret tt end) ;;;
  _ <-- (match manifest_desc with Some m => _ <-- release_chunk p m ;; done tt | None => done tt end) ;;
  _ <-- (match link with Some l => release_link p l | None => done tt end) ;;
  _ <-- release_all p kept ;;
  release_all p published.

(** Roll back, then fail with [e]. *)
Definition fail_with {A} (undo : prog M (option unit)) (e : ArtifactError) : prog M (option (result ArtifactError A)) :=
  _ <-- undo ;; done (Err e).

(** Roll back, then report the version that is current now. *)
Definition fail_conflict {A} (undo : prog M (option unit)) (expect : Z) : prog M (option (result ArtifactError A)) :=
  _ <-- undo ;; c <- on_head (load current) ;; done (Err (Conflict expect c)).

(** ** The install path *)

(** Steps 2 and 3: resolve an [Append]'s link and take its reference. *)
Definition append_link (art : Artifact) (p : pool) (expect schema : Z) (published : list ChunkDesc)
    : prog M (option (result ArtifactError ManifestLink)) :=
  let undo := rollback_staged p published None [] None None in
  bits <- on_head (load manifest_desc) ;;
  let mref := mkPackedRef bits in
  r <- read_manifest_checked mref (name_id art) expect ;;
  match r with
  | Err _ => fail_conflict undo expect
  | Ok prior =>
      if negb (mf_schema_id prior =? schema) then fail_with undo Unsupported
      else
        let mdesc := manifest_chunk_desc mref 0 in
        r <- on_data (d_ctrl p mdesc (
          g <- ChunkCtrl.generation ;;
          b <-- borrow_shared fuel ;;
          done (match b with Ok _ => Some g | Err _ => None end))) ;;
        match r with
        | Err e => fail_with undo (Core e)
        | Ok None => Ret None
        | Ok (Some None) => fail_conflict undo expect
        | Ok (Some (Some g)) =>
            id <- read_manifest_checked mref (name_id art) expect ;;
            r <- on_data (d_ctrl p mdesc ChunkCtrl.generation) ;;
            let generation_ok := match r with Ok g' => g' =? g | Err _ => false end in
            match id with
            | Ok _ =>
                if generation_ok then done (Ok (link_from prior mref g)) else fail_conflict undo expect
            | Err _ =>
                _ <-- (if generation_ok then release_manifest_ref p mref (Some g) else done tt) ;;
                fail_conflict undo expect
            end
        end
  end.

(** Step 2w: the window a [Window] commit keeps of its predecessor. *)
Definition window_of (art : Artifact) (p : pool) (expect schema keep : Z) (published : list ChunkDesc)
    : prog M (option (result ArtifactError WindowSet)) :=
  let undo := rollback_staged p published None [] None None in
  bits <- on_head (load manifest_desc) ;;
  r <- read_manifest_checked (mkPackedRef bits) (name_id art) expect ;;
  match r with
  | Err _ => fail_conflict undo expect
  | Ok prior =>
      if negb (mf_schema_id prior =? schema) then fail_with undo Unsupported
      else
        w <-- collect_window p prior keep ;;
        match w with
        | Ok w => done (Ok w)
        | Err _ => fail_conflict undo expect
        end
  end.

(** What a commit adds to its staged chunks: a link, or a window. *)
Definition prior_part (art : Artifact) (p : pool) (expect schema : Z) (c : Commit) (published : list ChunkDesc)
    : prog M (option (result ArtifactError (option ManifestLink * option WindowSet))) :=
  match c with
  | Append =>
      if expect =? NO_VERSION then done (Ok (None, None))
      else l <-? append_link art p expect schema published ;; done (Ok (Some l, None))
  | Window keep =>
      if expect =? NO_VERSION then done (Ok (None, None))
      else w <-? window_of art p expect schema keep published ;; done (Ok (None, Some w))
  | _ => done (Ok (None, None))
  end.

(** Record the staged manifest in the committer's journal; a full journal is ignored. *)
Definition record_staged (art : Artifact) (journal : option jref) (bits generation : Z) : prog M (option (option nat)) :=
  match journal with
  | None => done None
  | Some (k, j) =>
      r <-- on_journal k (record_staged_manifest j fuel (name_id art) (art_incarnation art) bits generation) ;;
      done (match r with Ok s => Some s | Err _ => None end)
  end.

Definition drop_record (journal : option jref) (rec : option nat) : prog M unit :=
  match journal, rec with
  | Some (k, j), Some s => on_journal k (BorrowJournal.release j s) ;;; Ret tt
  | _, _ => Ret tt
  end.

(** Step 6: the linearising compare-and-swap and what follows it. *)
Definition install (art : Artifact) (c : Commit) (expect schema mbits : Z)
    (undo : prog M (option unit)) (drop_rec : prog M unit) : prog M (option (result ArtifactError Z)) :=
  let target := wrap64 (expect + 1) in
  prior_bits <- on_head (load manifest_desc) ;;
  r <- on_head (cas current set_current expect target) ;;
  if r.1 then
    on_head (store (set_manifest_desc mbits)) ;;;
    on_head (cas Head.schema_id set_schema_id 0 schema) ;;;
    _ <-- (if expect =? NO_VERSION then done tt
           else _ <-- try_retire_version_at fuel expect (Some prior_bits) ;; done tt) ;;
    (if watch art then emit (event_new (name_id art) target (commit_kind c)) else Ret tt) ;;;
    drop_rec ;;;
    done (Ok target)
  else
    _ <-- undo ;;
    drop_rec ;;;
    done (Err (Conflict expect r.2)).

Definition commit_staged_inner_j (art : Artifact) (expect owner : Z) (c : Commit) (staged : list ChunkDesc)
    (staged_spans : list Z) (schema : Z) (fence : option Z) (journal : option jref)
    : prog M (option (result ArtifactError Z)) :=
  _ <-? check_live art ;;
  match c with
  | Patch _ _ => done (Err Unsupported)
  | _ =>
      p <-? attach_pool ;;
      held <- (match fence with Some token => on_head (lease_held_by owner token) | None => Ret true end) ;;
      if negb held then fail_with (free_all_loaned fuel p staged) Fenced
      else
        _ <-? publish_all fuel p [] staged ;;
        lw <-? prior_part art p expect schema c staged ;;
        let '(link, window) := lw in
        let w := default (mkWindow [] [] [] 0) window in
        let '(own_chunks, own_spans) := own_lists w staged staged_spans in
        let target := wrap64 (expect + 1) in
        let undo := rollback_staged p staged link (w_chunks w) in
        r <-- stage_chunk fuel p
          (write_manifest fuel p (name_id art) target schema own_chunks own_spans link
             ((fun w => (w_base w, w_members w)) <$> window)) owner ;;
        match r with
        | Err e => fail_with (undo None None) e
        | Ok mdesc =>
            let mbits := PackedRef_to_bits (PackedRef_from_desc mdesc) in
            rec <-- record_staged art journal mbits (ChunkDesc.generation mdesc) ;;
            let drop_rec := drop_record journal rec in
            found <- on_head (claim_slot target mbits) ;;
            match found with
            | None => _ <-- undo (Some mdesc) None ;; drop_rec ;;; done (Err Unsupported)
            | Some idx =>
                live <- on_head (revalidate_incarnation (art_incarnation art)) ;;
                if negb live then
                  slot_of idx store_free ;;;
                  _ <-- undo (Some mdesc) None ;;
                  drop_rec ;;;
                  done (Err Stale)
                else install art c expect schema mbits (undo (Some mdesc) (Some (idx, target))) drop_rec
            end
        end
  end.

Definition commit_staged_inner (art : Artifact) (expect owner : Z) (c : Commit) (staged : list ChunkDesc)
    (staged_spans : list Z) (schema : Z) (fence : option Z) : prog M (option (result ArtifactError Z)) :=
  commit_staged_inner_j art expect owner c staged staged_spans schema fence None.

Definition commit_staged_optimistic (art : Artifact) (owner expect : Z) (c : Commit) (staged : list ChunkDesc)
    (spans : list Z) (schema : Z) : prog M (option (result ArtifactError Z)) :=
  commit_staged_inner art expect owner c staged spans schema None.

Definition commit_staged_optimistic_journaled (art : Artifact) (owner expect : Z) (c : Commit) (staged : list ChunkDesc)
    (spans : list Z) (schema : Z) (journal : jref) : prog M (option (result ArtifactError Z)) :=
  commit_staged_inner_j art expect owner c staged spans schema None (Some journal).

Definition evict_current_optimistic (art : Artifact) (owner expect : Z) : prog M (option (result ArtifactError Z)) :=
  if expect =? NO_VERSION then done (Err VersionGone)
  else
    schema <- on_head (load Head.schema_id) ;;
    commit_staged_inner art expect owner Replace [] [] schema None.

(** ** The exclusive lease *)

Definition open_exclusive (art : Artifact) (owner : Z) : prog M (option (result ArtifactError Committer)) :=
  t <-- on_head (acquire_write_lease fuel owner) ;;
  match t with
  | None => done (Err WriteLocked)
  | Some token =>
      live <- on_head (revalidate_incarnation (art_incarnation art)) ;;
      if negb live then on_head (release_write_lease owner token) ;;; done (Err Stale)
      else done (Ok (mkCommitter owner token None))
  end.

Definition open_exclusive_journaled (art : Artifact) (owner : Z) (journal : jref)
    : prog M (option (result ArtifactError Committer)) :=
  com <-? open_exclusive art owner ;;
  r <-- on_journal journal.1 (record_write_lease journal.2 fuel (name_id art) (art_incarnation art) (c_token com)) ;;
  match r with
  | Ok slot => done (Ok (mkCommitter owner (c_token com) (Some (journal, slot))))
  | Err e => on_head (release_write_lease owner (c_token com)) ;;; done (Err (Core e))
  end.

(** [Committer::commit_staged]. *)
Definition commit_staged (art : Artifact) (com : Committer) (c : Commit) (staged : list ChunkDesc) (spans : list Z)
    (schema : Z) : prog M (option (result ArtifactError Z)) :=
  expect <- on_head (load current) ;;
  commit_staged_inner_j art expect (c_owner com) c staged spans schema (Some (c_token com)) (fst <$> c_lease com).

(** [Committer::evict_current]. *)
Definition evict_current (art : Artifact) (com : Committer) : prog M (option (result ArtifactError Z)) :=
  expect <- on_head (load current) ;;
  if expect =? NO_VERSION then done (Err VersionGone)
  else
    schema <- on_head (load Head.schema_id) ;;
    commit_staged_inner art expect (c_owner com) Replace [] [] schema (Some (c_token com)).

(** [Committer::drop]. *)
Definition drop_committer (com : Committer) : prog M unit :=
  r <- (match c_lease com with
        | Some ((k, j), slot) => on_journal k (BorrowJournal.release j slot)
        | None => Ret (Ok true)
        end) ;;
  match r with
  | Ok false => Ret tt
  | _ => on_head (release_write_lease (c_owner com) (c_token com)) ;;; Ret tt
  end.

(** ** Teardown *)

Definition evict_all (art : Artifact) : prog M (option (result ArtifactError unit)) :=
  _ <-? check_live art ;;
  token <-- loop fuel (fun _ : unit =>
    _ <-- on_head (force_release_write_lease fuel) ;;
    t <-- on_head (acquire_write_lease fuel EVICTOR_OWNER) ;;
    done (match t with Some t => inr t | None => inl tt end)) tt ;;
  live <- on_head (revalidate_incarnation (art_incarnation art)) ;;
  if negb live then on_head (release_write_lease EVICTOR_OWNER token) ;;; done (Err Stale)
  else
    on_head (store (set_current NO_VERSION)) ;;;
    on_head (store (set_manifest_desc 0)) ;;;
    failed <-- loop_each slot_indices (fun i =>
      st <- slot_of i (load Head.state) ;;
      if negb (st =? SLOT_LIVE) then done None
      else
        v <- slot_of i (load Head.version) ;;
        if v =? NO_VERSION then done None
        else
          r <-- try_retire_version fuel v ;;
          done (match r with Ok _ => None | Err e => Some e end)) ;;
    on_head (release_write_lease EVICTOR_OWNER token) ;;;
    done (match failed with None => Ok tt | Some e => Err e end).

(** ** Reading a pinned version through its chunks *)

Definition chain (ps : PinState) : prog M (option (result ArtifactError (list Manifest))) :=
  p <-? attach_pool ;;
  r <- walk_chain_with (ps_manifest ps) (read_link p (artifact_id (ps_manifest ps))) ;;
  done r.

Definition data_chunks (ps : PinState) : prog M (option (result ArtifactError (list ChunkDesc))) :=
  ms <-? chain ps ;; done (Ok (concat (chunks <$> ms))).

Definition current_depth (art : Artifact) : prog M (option Z) :=
  v <- on_head (load current) ;;
  if v =? NO_VERSION then Ret None
  else
    bits <- on_head (load manifest_desc) ;;
    r <- read_manifest_checked (mkPackedRef bits) (name_id art) v ;;
    Ret (match r with Ok m => Some (depth m) | Err _ => None end).
End commit.
