(* ===== verification/ArtifactRace.v ===== *)
(** * A reclaimer can free the current version

    [try_retire_version_at] looks a version's slot up, checks that the version is not
    current, and only then elects itself on the slot it found.  Nothing ties the election
    to the version that was looked up.  When the slot is freed and claimed again in
    between, the election succeeds on the slot's next occupant.  The schedule below
    has one writer that commits and one reader that drops its pin, nothing else. *)

From S2P Require Import Prelude Atomic ChunkDesc ChunkCtrl Pool BorrowJournal Manifest Window Head Artifact Commit.

(** ** The scene: version 1 installed and pinned by the reader *)

Definition race_seg : Segment := mkSegment 9 4096.
#[local] Instance race_data : DataSeg PoolMem := pool_data race_seg.
Definition race_art : Artifact := mkArtifact 5 FIRST_INCARNATION false.

Definition race_fresh : ArtMem PoolMem :=
  mkArtMem
    (match run (create_head 5 65536) fresh with Some (_, h) => h | None => fresh end)
    (match Pool.create race_seg [mkSizeClass 128 6] with
     | Ok (_, m) => m
     | Err _ => mkPoolMem (mkPoolHeader 0 0 0 0 0) [] [] ∅
     end) [] [].

(** An empty [Replace] commit, as [evict_current] makes. *)
Definition replace (expect : Z) : prog (ArtMem PoolMem) (option (result ArtifactError Z)) :=
  commit_staged_optimistic 4 race_art 7 expect Replace [] [] 3.

Definition pinned : option (option (result ArtifactError PinState) * ArtMem PoolMem) :=
  run (_ <-? replace 0 ;; pin 4 race_art) race_fresh.

Definition pinned_mem : ArtMem PoolMem := match pinned with Some (_, m) => m | None => race_fresh end.
Definition reader_pin : PinState :=
  match pinned with
  | Some (Some (Ok ps), _) => ps
  | _ => mkPin 0 0 (mkManifest 0 0 0 [] [] None 0 0 0 []) None
  end.

(** ** The two threads *)

Definition race_writer : prog (ArtMem PoolMem) (option (result ArtifactError Z)) := _ <-? replace 1 ;; replace 2.
Definition race_reader : prog (ArtMem PoolMem) (option (result ArtifactError Z)) :=
  _ <-- drop_pin 4 reader_pin ;; done (Ok (ps_version reader_pin)).

(** The writer installs version 2; the reader drops the last pin of version 1 and looks
    its slot up; the writer retires version 1 and installs version 3 in the same slot;
    the reader goes on. *)
Definition race_schedule : list nat := replicate 26 0%nat ++ replicate 5 1%nat ++ replicate 79 0%nat ++ replicate 20 1%nat.

Definition raced : list (prog (ArtMem PoolMem) (option (result ArtifactError Z))) * ArtMem PoolMem :=
  pool_after race_schedule ([race_writer; race_reader], pinned_mem).

(** A pin whose lookup finds no slot goes round until its fuel ends. *)
Lemma pin_spins {D} `{!DataSeg D} fuel art (m : ArtMem D) :
  current (a_head m) <> NO_VERSION ->
  (forall A (k : option nat -> prog (ArtMem D) A),
     run (found <- on_head (find_slot (current (a_head m))) ;; k found) m = run (k None) m) ->
  run (pin fuel art) m = Some (None, m).
Proof.
  intros Hc Hf. unfold pin, pin_inner.
  match goal with |- run (loop _ ?b _) _ = _ => set (body := b) end.
  assert (run (body tt) m = Some (Some (inl tt), m)) as Hb.
  { subst body. cbv beta. unfold on_head at 1, load at 1. cbn [lift act pbind run]. unfold field at 1. cbn [a_head].
    replace (mkArtMem _ _ _ _) with m by (by destruct m).
    rewrite (proj2 (Z.eqb_neq _ _)) by done. rewrite Hf. done. }
  clearbody body. generalize fuel. intros n. induction n as [|n IH]; [done|]. cbn [loop]. unfold fbind at 1. by rewrite run_bind, Hb, IH.
Qed.

Lemma raced_reach : pool_reach ([race_writer; race_reader], pinned_mem) (raced.1, raced.2).
Proof. unfold raced. apply pool_after_reach. Qed.

(** What the schedule computes. *)
Lemma raced_facts :
  current (a_head pinned_mem) = 1 /\ ps_version reader_pin = 1 /\
  raced.1 = [Ret (Some (Ok 3)); Ret (Some (Ok 1))] /\ current (a_head raced.2) = 3 /\
  run (on_data (Pool.ctrl (mkPool race_seg 1 6) (manifest_chunk_desc (mkPackedRef (manifest_desc (a_head raced.2))) 0) ChunkCtrl.state)) raced.2
    = Some (Ok ChunkCtrl.FREE, raced.2) /\
  run (on_data (Pool.free_count 8 0)) raced.2 = Some (Some 6, raced.2) /\
  run (on_head (find_slot 3)) raced.2 = Some (None, raced.2).
Proof. vm_compute. repeat split. Qed.

(** C34.  [try_retire_version_at] can free the version that is current.  From a state in
    which version 1 is installed and pinned, there is an interleaving of one writer, which
    commits versions 2 and 3, and one reader, which drops its pin, in which both succeed
    and afterwards version 3 is current, its manifest chunk is FREE and back in the pool,
    and no slot tracks it: every later [pin] spins for as long as it is given fuel. *)
Theorem stale_reclaimer_frees_current_version :
  current (a_head pinned_mem) = 1 /\ ps_version reader_pin = 1 /\
  exists m, pool_reach ([race_writer; race_reader], pinned_mem) ([Ret (Some (Ok 3)); Ret (Some (Ok 1))], m) /\
    current (a_head m) = 3 /\
    run (on_data (Pool.ctrl (mkPool race_seg 1 6) (manifest_chunk_desc (mkPackedRef (manifest_desc (a_head m))) 0) ChunkCtrl.state)) m
      = Some (Ok ChunkCtrl.FREE, m) /\
    run (on_data (Pool.free_count 8 0)) m = Some (Some 6, m) /\
    forall fuel, run (pin fuel race_art) m = Some (None, m).
Proof.
  split; [exact (proj1 raced_facts)|]. split; [exact (proj1 (proj2 raced_facts))|].
  destruct raced_facts as (_ & _ & Hret & Hcur & Hfree & Hcount & Hnone). exists raced.2. rewrite <- Hret.
  split; [exact raced_reach|].
  split; [exact Hcur|]. split; [exact Hfree|]. split; [exact Hcount|].
  intros fuel. apply pin_spins; [by rewrite Hcur|]. intros A k. by rewrite run_bind, Hcur, Hnone.
Qed.
