(* ===== verification/HeadRecycle.v ===== *)
(** * Recycling a head region

    A keyed store reuses head regions.  A sweep takes the region out of service
    ([retire]), scans it ([is_quiescent]), and either hands it to a next occupant or puts
    the old one back ([commission]).  Every operation on the region registers first (it
    publishes a pin, claims a version slot or takes the write lease) and validates its
    incarnation afterwards.  Whatever the interleaving, a sweep that finds the region
    quiescent and an operation that validated never coexist: this is the handshake that
    the comments of [src/crates/shm-artifact/src/head.rs] argue for. *)

From S2P Require Import Prelude Atomic Head.

(** ** Registrations and clients *)

Inductive reg : Set :=
| RPin (i : nat)
| RClaim (i : nat)
| RLease (owner token : Z).

Inductive request : Set :=
| QPin (i : nat) (v : Z)
| QClaim (v m : Z)
| QLease (owner : Z).

(** The registering step of each kind of operation. *)
Definition register (fuel : nat) (q : request) : prog ArtifactHead (option reg) :=
  match q with
  | QPin i v => slot_at i publish_pin ;;; Ret (Some (RPin i))
  | QClaim v m => r <- claim_slot v m ;; Ret (RClaim <$> r)
  | QLease o =>
      t <- acquire_write_lease fuel o ;;
      Ret (match t with Some (Some t) => Some (RLease o t) | _ => None end)
  end.

(** The check that follows it: [accept_pin] and [is_incarnation] for a pin, the fenced
    [revalidate_incarnation] for the others. *)
Definition validated (inc : Z) (q : request) : prog ArtifactHead bool :=
  match q with
  | QPin i v => ok <- slot_at i (accept_pin v) ;; if ok : bool then is_incarnation inc else Ret false
  | _ => revalidate_incarnation inc
  end.

Definition unregister (r : reg) : prog ArtifactHead unit :=
  match r with
  | RPin i => slot_at i unpin ;;; Ret tt
  | RClaim i => slot_at i store_free
  | RLease o t => release_write_lease o t ;;; Ret tt
  end.

Inductive outcome : Set :=
| Swept (quiescent : bool)
| Holding (r : reg)
| Finished.

(** A client serves its requests in turn; when [hold] says so it stops while it holds a
    registration that was validated. *)
Fixpoint client (fuel : nat) (inc : Z) (qs : list (request * bool)) : prog ArtifactHead outcome :=
  match qs with
  | [] => Ret Finished
  | (q, hold) :: qs' =>
      r <- register fuel q ;;
      match r with
      | None => client fuel inc qs'
      | Some r =>
          ok <- validated inc q ;;
          if ok && hold then Ret (Holding r) else unregister r ;;; client fuel inc qs'
      end
  end.

(** One sweep, as [entry_is_finished] ends; up to [n] of them, until one succeeds. *)
Definition sweep : prog ArtifactHead bool :=
  held <- retire ;;
  q <- is_quiescent ;;
  if q : bool then Ret true else commission held ;;; Ret false.

Fixpoint sweeps (n : nat) : prog ArtifactHead outcome :=
  match n with
  | O => Ret (Swept false)
  | S n' => q <- sweep ;; if q : bool then Ret (Swept true) else sweeps n'
  end.

Definition request_ok (q : request) : Prop :=
  match q with
  | QPin i _ => (i < MAX_LIVE_VERSIONS)%nat
  | QClaim _ _ => True
  | QLease o => is_u32 o /\ o <> OWNER_NONE
  end.

(** ** Ghost state *)

(** How far the sweep is: in service, retired, or with the lease seen free and the slots
    below [k] seen unused ([half]: the state of slot [k] too). *)
Inductive phase : Set :=
| InService
| Retired
| Clear (k : nat) (half : bool).

Inductive ghost : Set :=
| GSweep (p : phase)
| GIdle
| GReg (valid : bool) (r : reg).

Definition pinned (i : nat) (g : ghost) : nat :=
  match g with GReg _ (RPin j) => if decide (i = j) then 1 else 0 | _ => 0 end.
Definition claimed (i : nat) (g : ghost) : nat :=
  match g with GReg _ (RClaim j) => if decide (i = j) then 1 else 0 | _ => 0 end.
Definition leased (g : ghost) : nat := match g with GReg _ (RLease _ _) => 1 | _ => 0 end.

(** A validated registration the sweep has not ruled out. *)
Definition unseen (p : phase) (r : reg) : Prop :=
  match p, r with
  | Clear k _, RPin i => (k <= i)%nat
  | Clear k half, RClaim i => (if half then k < i else k <= i)%nat
  | Clear _ _, RLease _ _ => False
  | _, _ => True
  end.

Definition reg_ok (h : ArtifactHead) (r : reg) : Prop :=
  match r with
  | RPin i | RClaim i => (i < MAX_LIVE_VERSIONS)%nat
  | RLease o t => is_u32 o /\ o <> OWNER_NONE /\ is_u32 t /\ write_lease h = pack_lease o t
  end.

Definition slot_cap (s : PinSlot) : nat := if state s =? SLOT_FREE then 0 else 1.
Definition lease_cap (h : ArtifactHead) : nat := if lease_owner (write_lease h) =? OWNER_NONE then 0 else 1.

Section handshake.
Context (inc : Z) (Hinc : inc <> NO_INCARNATION).

Record Inv (h : ArtifactHead) (gs : list ghost) : Prop := {
  inv_sweep : exists p, gs !! 0%nat = Some (GSweep p) /\
    head_incarnation h = (match p with InService => inc | _ => NO_INCARNATION end) /\
    forall j r, gs !! j = Some (GReg true r) -> unseen p r;
  inv_only : forall j p, gs !! j = Some (GSweep p) -> j = 0%nat;
  inv_len : length (pin_table h) = MAX_LIVE_VERSIONS;
  inv_few : Z.of_nat (length gs) < U32_MOD;
  inv_slots : forall i s, pin_table h !! i = Some s ->
    pins s = Z.of_nat (sum_list_with (pinned i) gs) /\ (sum_list_with (claimed i) gs <= slot_cap s)%nat;
  inv_lease : (sum_list_with leased gs <= lease_cap h)%nat;
  inv_regs : forall j b r, gs !! j = Some (GReg b r) -> reg_ok h r
}.
Abbreviation wp := (wp Inv).

Lemma pinned_le i g : (pinned i g <= 1)%nat.
Proof. unfold pinned. destruct g as [| |b []]; try lia. case_decide; lia. Qed.

Lemma sum_pinned_few i gs : (sum_list_with (pinned i) gs <= length gs)%nat.
Proof. induction gs as [|g gs IH]; [done|]. cbn. pose proof (pinned_le i g). lia. Qed.

(** One client's step: its ghost changes from [g] to [g'] while the head changes from [h]
    to [h']. *)
Lemma Inv_client h gs j g g' h' :
  Inv h gs -> gs !! j = Some g -> (forall p, g <> GSweep p) -> (forall p, g' <> GSweep p) ->
  head_incarnation h' = head_incarnation h -> length (pin_table h') = length (pin_table h) ->
  (forall r, g' = GReg true r -> g = GReg true r \/ head_incarnation h = inc) ->
  (forall i s', pin_table h' !! i = Some s' -> exists s, pin_table h !! i = Some s /\
     pins s' + Z.of_nat (pinned i g) = pins s + Z.of_nat (pinned i g') /\
     (slot_cap s + claimed i g' <= slot_cap s' + claimed i g)%nat) ->
  (lease_cap h + leased g' <= lease_cap h' + leased g)%nat ->
  (write_lease h' = write_lease h \/ (lease_cap h <= leased g)%nat) ->
  (forall b r, g' = GReg b r -> reg_ok h' r) ->
  Inv h' (<[j := g']> gs).
Proof.
  intros [(p & H0 & Hi & Hv) Hon Hl Hfew Hsl Hle Hre] Hj Hg Hg' Ei El Hval Hslots Hcap Hw Hr.
  assert (0 <> j)%nat as Hj0 by (intros <-; rewrite H0 in Hj; simplify_eq; by eapply Hg).
  split.
  - exists p. rewrite list_lookup_insert_ne by done. split_and!; [done|by rewrite Ei|]. intros k r Hk.
    apply list_lookup_insert_Some in Hk as [(-> & E & _)|[_ Hk]]; [|by eapply Hv].
    destruct (Hval r E) as [->|Hin]; [by eapply Hv|]. rewrite Hi in Hin. destruct p; [|done..]. by destruct r.
  - intros k q Hk. apply list_lookup_insert_Some in Hk as [(_ & E & _)|[_ Hk]]; [by edestruct Hg'|by eapply Hon].
  - by rewrite El.
  - by rewrite length_insert.
  - intros i s' Hs'. destruct (Hslots i s' Hs') as (s & Hs & Ep & Ec). destruct (Hsl i s Hs) as [Hp Hc].
    pose proof (sum_list_with_insert (pinned i) gs j g g' Hj). pose proof (sum_list_with_insert (claimed i) gs j g g' Hj).
    pose proof (sum_list_with_lookup (pinned i) gs j g Hj). split; lia.
  - pose proof (sum_list_with_insert leased gs j g g' Hj). lia.
  - intros k b r Hk. apply list_lookup_insert_Some in Hk as [(-> & E & _)|[Hne Hk]]; [by eapply Hr|].
    specialize (Hre k b r Hk). destruct r as [i|i|o t]; try done.
    destruct Hre as (? & ? & ? & E). split_and!; try done. destruct Hw as [->|Hw]; [done|].
    assert (leased g + 1 <= sum_list_with leased gs)%nat; [|lia].
    pose proof (sum_list_with_insert leased gs j g GIdle Hj).
    assert (<[j := GIdle]> gs !! k = Some (GReg b (RLease o t))) as Hk' by (by rewrite list_lookup_insert_ne).
    pose proof (sum_list_with_lookup leased _ k _ Hk'). cbn in *. lia.
Qed.

(** Slots at index [i] after a change of slot [i]. *)
Lemma slot_update h i s s' (g g' : ghost) :
  pin_table h !! i = Some s ->
  pins s' + Z.of_nat (pinned i g) = pins s + Z.of_nat (pinned i g') ->
  (slot_cap s + claimed i g' <= slot_cap s' + claimed i g)%nat ->
  (forall k, k <> i -> pinned k g = pinned k g' /\ claimed k g' = claimed k g) ->
  forall k t', pin_table (set_pin_table (<[i := s']> (pin_table h)) h) !! k = Some t' -> exists t, pin_table h !! k = Some t /\
     pins t' + Z.of_nat (pinned k g) = pins t + Z.of_nat (pinned k g') /\
     (slot_cap t + claimed k g' <= slot_cap t' + claimed k g)%nat.
Proof.
  intros Hs Hp Hc Ho k t' Hk. cbn in Hk. apply list_lookup_insert_Some in Hk as [(<- & <- & _)|[Hne Hk]]; [eauto|].
  destruct (Ho k ltac:(done)) as [-> ->]. exists t'. split; [done|lia].
Qed.

(** An action of thread [j] on slot [i]. *)
Lemma wp_slot {R : Set} {X} (f : PinSlot -> option (R * PinSlot)) (k : R -> prog ArtifactHead X) j i g Q :
  (i < MAX_LIVE_VERSIONS)%nat ->
  (forall h gs s, Inv h gs -> gs !! j = Some g -> pin_table h !! i = Some s ->
     exists r s' g', f s = Some (r, s') /\ Inv (set_pin_table (<[i := s']> (pin_table h)) h) (<[j := g']> gs) /\ wp (k r) j g' Q) ->
  wp (Atomic (elem pin_table set_pin_table i R f) k) j g Q.
Proof.
  intros Hi H h gs Hg HI. unfold elem. destruct (lookup_lt_is_Some_2 (pin_table h) i) as [s Hs]; [by rewrite (inv_len _ _ HI)|].
  rewrite Hs. destruct (H h gs s HI Hg Hs) as (r & s' & g' & -> & HI' & Hwp). exists g'. by split.
Qed.

Lemma set_same_slot h i s : pin_table h !! i = Some s -> set_pin_table (<[i := s]> (pin_table h)) h = h.
Proof. intros Hs. rewrite list_insert_id by done. by destruct h. Qed.

(** A load of a slot word. *)
Lemma wp_slot_load {R : Set} {X} (f : PinSlot -> R) (k : R -> prog ArtifactHead X) j i g Q :
  (i < MAX_LIVE_VERSIONS)%nat -> (forall r, wp (k r) j g Q) ->
  wp (Atomic (elem pin_table set_pin_table i R (fun c => Some (f c, c))) k) j g Q.
Proof.
  intros Hi Hk. apply wp_slot; [done|]. intros h gs s HI Hg Hs. exists (f s), s, g. split; [done|].
  rewrite set_same_slot by done. by rewrite list_insert_id.
Qed.

(** ** Clients *)

Lemma wp_publish_pin j i Q : (i < MAX_LIVE_VERSIONS)%nat -> Q tt (GReg false (RPin i)) -> wp (slot_at i publish_pin) j GIdle Q.
Proof.
  intros Hi HQ. apply wp_slot; [done|]. intros h gs s HI Hg Hs. exists (pins s), (set_pins (wrap32 (pins s + 1)) s), (GReg false (RPin i)).
  split; [done|]. split; [|exact HQ]. destruct (inv_slots _ _ HI i s Hs) as [Hp Hc].
  pose proof (sum_pinned_few i gs) as Hf. pose proof (inv_few _ _ HI) as Hfew.
  assert (sum_list_with (pinned i) gs < length gs)%nat as Hlt.
  { pose proof (sum_list_with_insert (pinned i) gs j GIdle (GReg false (RPin i)) Hg) as E.
    pose proof (sum_pinned_few i (<[j := GReg false (RPin i)]> gs)) as F. rewrite length_insert in F. cbn in E. rewrite decide_True in E by done. lia. }
  eapply Inv_client; [exact HI|exact Hg|done..| | | | | |].
  - cbn. by rewrite length_insert.
  - intros r [=].
  - apply (slot_update h i s); [done|..].
    + cbn. rewrite decide_True, wrap32_id by (done || mach). lia.
    + done.
    + intros k Hk. cbn. by rewrite decide_False.
  - done.
  - by left.
  - intros b r [= <- <-]. done.
Qed.

Lemma wp_unpin j i b Q : Q tt GIdle -> wp (slot_at i unpin ;;; Ret tt) j (GReg b (RPin i)) Q.
Proof.
  intros HQ h gs Hg HI. pose proof (inv_regs _ _ HI j b _ Hg) as Hi. cbn in Hi.
  revert h gs Hg HI. change (wp (slot_at i unpin ;;; Ret tt) j (GReg b (RPin i)) Q).
  apply wp_slot; [done|]. intros h gs s HI Hg Hs. exists (pins s), (set_pins (wrap32 (pins s + -1)) s), GIdle.
  split; [done|]. split; [|exact HQ]. destruct (inv_slots _ _ HI i s Hs) as [Hp Hc].
  pose proof (sum_pinned_few i gs) as Hf. pose proof (inv_few _ _ HI) as Hfew.
  pose proof (sum_list_with_lookup (pinned i) gs j _ Hg) as Hge. cbn in Hge. rewrite decide_True in Hge by done.
  eapply Inv_client; [exact HI|exact Hg|done..| | | | | |].
  - cbn. by rewrite length_insert.
  - intros r [=].
  - apply (slot_update h i s); [done|..].
    + cbn. rewrite decide_True, wrap32_id by (done || mach). lia.
    + done.
    + intros k Hk. cbn. by rewrite decide_False.
  - done.
  - by left.
  - intros b' r [=].
Qed.

(** The client stays where it is. *)
Lemma Inv_stay h gs j g : Inv h gs -> gs !! j = Some g -> Inv h (<[j := g]> gs).
Proof. intros HI Hg. by rewrite list_insert_id. Qed.

Lemma wp_is_incarnation j b r Q :
  Q true (GReg true r) -> Q false (GReg b r) -> wp (is_incarnation inc) j (GReg b r) Q.
Proof.
  intros Ht Hf h gs Hg HI. destruct (Z.eqb_spec (head_incarnation h) inc) as [E|E].
  - exists (GReg true r). split; [|cbn; by rewrite (proj2 (Z.eqb_eq _ _) E)].
    eapply Inv_client; [exact HI|exact Hg|done..| | | | |].
    + intros r' [= <-]. by right.
    + intros i s Hs. exists s. done.
    + done.
    + by left.
    + intros b' r' [= <- <-]. exact (inv_regs _ _ HI j b r Hg).
  - exists (GReg b r). split; [by apply Inv_stay|]. cbn. by rewrite (proj2 (Z.eqb_neq _ _) E).
Qed.

Lemma wp_validated j q b r Q :
  request_ok q -> Q true (GReg true r) -> Q false (GReg b r) -> wp (validated inc q) j (GReg b r) Q.
Proof.
  intros Hq Ht Hf. destruct q as [i v|v m|o]; [|by apply wp_is_incarnation..]. cbn [validated].
  apply wp_bind. apply wp_slot_load; [done|]. intros st. destruct (negb (st =? SLOT_LIVE)); [exact Hf|].
  apply wp_slot_load; [done|]. intros w. cbn. destruct (w =? v); [by apply wp_is_incarnation|exact Hf].
Qed.

(** A store to a slot word that no registration lives in. *)
Lemma wp_slot_store {X} (f : PinSlot -> PinSlot) (k : unit -> prog ArtifactHead X) j i g Q :
  (i < MAX_LIVE_VERSIONS)%nat -> (forall s, pins (f s) = pins s /\ state (f s) = state s) -> (forall p, g <> GSweep p) ->
  wp (k tt) j g Q -> wp (Atomic (elem pin_table set_pin_table i unit (fun c => Some (tt, f c))) k) j g Q.
Proof.
  intros Hi Hf Hg Hk. apply wp_slot; [done|]. intros h gs s HI Hgs Hs. exists tt, (f s), g. split; [done|]. split; [|done].
  destruct (Hf s) as [Ep Est]. eapply Inv_client; [exact HI|exact Hgs|done..| | | | | |].
  - cbn. by rewrite length_insert.
  - auto.
  - apply (slot_update h i s); [done|by rewrite Ep|unfold slot_cap; by rewrite Est|done].
  - done.
  - by left.
  - intros b r ->. exact (inv_regs _ _ HI j b r Hgs).
Qed.

Lemma wp_claim_slot j v m Q :
  (forall i, (i < MAX_LIVE_VERSIONS)%nat -> Q (Some i) (GReg false (RClaim i))) -> Q None GIdle -> wp (claim_slot v m) j GIdle Q.
Proof.
  intros Hs Hn. unfold claim_slot. apply (wp_for_each _ _ _ _ _ (fun g => g = GIdle)); [done| |by intros g ->].
  intros i g Hi ->. assert (i < MAX_LIVE_VERSIONS)%nat as Hlt by (unfold slot_indices in Hi; apply elem_of_seq in Hi; lia).
  apply wp_slot; [done|]. intros h gs s HI Hg Hsl. destruct (inv_slots _ _ HI i s Hsl) as [Hp Hc].
  destruct (Z.eqb_spec (state s) SLOT_FREE) as [E|E].
  - exists (true, SLOT_FREE), (set_state SLOT_LIVE s), (GReg false (RClaim i)). split; [done|]. split.
    + eapply Inv_client; [exact HI|exact Hg|done..| | | | | |].
      * cbn. by rewrite length_insert.
      * intros r [=].
      * apply (slot_update h i s); [done|done| |].
        -- unfold slot_cap. rewrite E. cbn. by rewrite decide_True.
        -- intros k Hk. cbn. by rewrite decide_False.
      * done.
      * by left.
      * intros b r [= <- <-]. done.
    + cbn [fst]. apply wp_slot_store; [done..|]. apply wp_slot_store; [done..|]. cbn. by apply Hs.
  - exists (false, state s), s, GIdle. split; [done|]. rewrite set_same_slot by done. split; [by apply Inv_stay|]. done.
Qed.

Lemma wp_store_free j i b Q : Q tt GIdle -> wp (slot_at i store_free) j (GReg b (RClaim i)) Q.
Proof.
  intros HQ h0 gs0 Hg0 HI0. pose proof (inv_regs _ _ HI0 j b _ Hg0) as Hi. cbn in Hi.
  revert h0 gs0 Hg0 HI0. change (wp (slot_at i store_free) j (GReg b (RClaim i)) Q).
  apply wp_slot_store; [done..|]. apply wp_slot_store; [done..|]. apply wp_slot; [done|]. intros h gs s HI Hg Hs.
  exists tt, (set_state SLOT_FREE s), GIdle. split; [done|]. split; [|exact HQ]. destruct (inv_slots _ _ HI i s Hs) as [Hp Hc].
  eapply Inv_client; [exact HI|exact Hg|done..| | | | | |].
  - cbn. by rewrite length_insert.
  - intros r [=].
  - apply (slot_update h i s); [done|done| |].
    + cbn. rewrite decide_True by done. unfold slot_cap. cbn. destruct (_ =? _); lia.
    + intros k Hk. cbn. by rewrite decide_False.
  - done.
  - by left.
  - intros b' r [=].
Qed.

Lemma wp_acquire fuel j o Q :
  is_u32 o -> o <> OWNER_NONE ->
  (forall t, Q (Some (Some t)) (GReg false (RLease o t))) -> (forall x, x = None \/ x = Some None -> Q x GIdle) ->
  wp (acquire_write_lease fuel o) j GIdle Q.
Proof.
  intros Ho Hne Hs Hn. unfold acquire_write_lease. apply (wp_retry _ _ _ _ _ _ (fun _ g => g = GIdle)); [done| |intros _ g ->; auto].
  intros [] g ->. apply wp_bind. intros h gs Hg HI. exists GIdle. split; [by apply Inv_stay|].
  unfold load, act. cbn [pbind Atomic.wp].
  destruct (Z.eqb_spec (lease_owner (write_lease h)) OWNER_NONE) as [Eo|Eo]; cbn [negb Atomic.wp]; [|auto]. set (cur := write_lease h) in *. clearbody cur. clear h gs Hg HI.
  apply wp_bind. intros h gs Hg HI. cbn [cas_lease cas act]. destruct (Z.eqb_spec (write_lease h) cur) as [E|E].
  - exists (GReg false (RLease o (lease_fence cur))). split; [|apply Hs].
    assert (is_u32 (lease_fence cur)) as Hf by apply lo32_u32.
    eapply Inv_client; [exact HI|exact Hg|done..| | | | |].
    + intros r [=].
    + intros i s Hsl. exists s. done.
    + unfold lease_cap. cbn. rewrite lease_owner_pack, (proj2 (Z.eqb_neq _ _) Hne), E, Eo by done. done.
    + right. unfold lease_cap. rewrite E, Eo. done.
    + intros b r [= <- <-]. done.
  - exists GIdle. split; [by apply Inv_stay|]. done.
Qed.

Lemma wp_head_release j o t b Q : Q tt GIdle -> wp (release_write_lease o t ;;; Ret tt) j (GReg b (RLease o t)) Q.
Proof.
  intros HQ h gs Hg HI. destruct (inv_regs _ _ HI j b _ Hg) as (Ho & Hne & Ht & E). cbn. rewrite (proj2 (Z.eqb_eq _ _) E).
  exists GIdle. split; [|exact HQ].
  assert (lease_cap h = 1)%nat as Ec by (unfold lease_cap; rewrite E, lease_owner_pack, (proj2 (Z.eqb_neq _ _) Hne) by done; done).
  eapply Inv_client; [exact HI|exact Hg|done..| | | | |].
  - intros r [=].
  - intros i s Hsl. exists s. done.
  - rewrite Ec. cbn. lia.
  - right. rewrite Ec. done.
  - intros b' r [=].
Qed.

Lemma wp_unregister j b r Q : Q tt GIdle -> wp (unregister r) j (GReg b r) Q.
Proof. destruct r; [apply wp_unpin|apply wp_store_free|apply wp_head_release]. Qed.

Lemma wp_register fuel j q Q :
  request_ok q -> (forall r, Q (Some r) (GReg false r)) -> Q None GIdle -> wp (register fuel q) j GIdle Q.
Proof.
  intros Hq Hs Hn. destruct q as [i v|v m|o]; cbn [register]; apply wp_bind.
  - apply wp_publish_pin; [done|]. apply Hs.
  - apply wp_claim_slot; [intros i _; apply Hs|exact Hn].
  - destruct Hq. apply wp_acquire; [done..|intros t; apply Hs|intros x [->| ->]; exact Hn].
Qed.

(** What a thread's final result says about its ghost. *)
Definition post (o : outcome) (g : ghost) : Prop :=
  match o with
  | Swept true => g = GSweep (Clear MAX_LIVE_VERSIONS false)
  | Holding r => g = GReg true r
  | _ => True
  end.

Lemma wp_head_client fuel j qs : Forall (request_ok ∘ fst) qs -> wp (client fuel inc qs) j GIdle post.
Proof.
  induction 1 as [|[q hold] qs Hq _ IH]; [done|]. cbn [client]. apply wp_bind. apply wp_register; [done| |exact IH].
  intros r. apply wp_bind. assert (forall b, wp (unregister r ;;; client fuel inc qs) j (GReg b r) post) as Hu
    by (intros b; apply wp_bind; by apply wp_unregister).
  apply wp_validated; [done| |apply Hu]. destruct hold; [done|apply Hu].
Qed.

(** ** The sweep *)

Lemma Inv_phase h gs p p' h' :
  Inv h gs -> gs !! 0%nat = Some (GSweep p) ->
  pin_table h' = pin_table h -> write_lease h' = write_lease h ->
  head_incarnation h' = (match p' with InService => inc | _ => NO_INCARNATION end) ->
  (forall j b r, gs !! j = Some (GReg b r) -> unseen p r -> unseen p' r) ->
  Inv h' (<[0%nat := GSweep p']> gs).
Proof.
  intros [(q & H0 & Hi & Hv) Hon Hl Hfew Hsl Hle Hre] Hp Et Ew Ei Hun.
  assert (q = p) as -> by congruence.
  assert (forall f, f (GSweep p) = f (GSweep p') -> sum_list_with f (<[0%nat := GSweep p']> gs) = sum_list_with f gs) as Hsum.
  { intros f Ef. pose proof (sum_list_with_insert f gs 0 _ (GSweep p') H0). lia. }
  split.
  - exists p'. rewrite list_lookup_insert_eq by (by eapply lookup_lt_Some). split_and!; try done.
    intros j r Hj. apply list_lookup_insert_Some in Hj as [(_ & E & _)|[_ Hj]]; [done|]. eapply Hun; [done|]. by eapply Hv.
  - intros j r Hj. apply list_lookup_insert_Some in Hj as [(<- & _ & _)|[_ Hj]]; [done|by eapply Hon].
  - by rewrite Et.
  - by rewrite length_insert.
  - intros i s. rewrite Et, !Hsum by done. apply Hsl.
  - rewrite Hsum by done. unfold lease_cap in *. by rewrite Ew.
  - intros j b r Hj. apply list_lookup_insert_Some in Hj as [(_ & E & _)|[_ Hj]]; [done|].
    specialize (Hre j b r Hj). destruct r; try done. cbn in *. by rewrite Ew.
Qed.

Lemma sweep_retired h gs p : Inv h gs -> gs !! 0%nat = Some (GSweep p) -> p <> InService -> head_incarnation h = NO_INCARNATION.
Proof. intros [(q & H0 & Hi & _) _ _ _ _ _ _] Hp Hne. simplify_eq. by destruct q. Qed.

Lemma wp_slot_busy k Q :
  (k < MAX_LIVE_VERSIONS)%nat ->
  (forall half, Q (Some false) (GSweep (Clear k half))) -> Q None (GSweep (Clear (S k) false)) ->
  wp (slot_busy k) 0 (GSweep (Clear k false)) Q.
Proof.
  intros Hk Hb Hn. unfold slot_busy. apply wp_bind. apply wp_slot; [done|]. intros h gs s HI Hg Hs.
  pose proof (sweep_retired _ _ _ HI Hg ltac:(done)) as Hret. destruct (inv_slots _ _ HI k s Hs) as [_ Hc].
  exists (state s), s. rewrite set_same_slot by done. destruct (Z.eqb_spec (state s) SLOT_FREE) as [E|E].
  2:{ exists (GSweep (Clear k false)). split; [done|]. split; [by apply Inv_stay|]. cbn. rewrite (proj2 (Z.eqb_neq _ _) E). apply Hb. }
  exists (GSweep (Clear k true)). split; [done|]. split.
  - eapply Inv_phase; [exact HI|exact Hg|done..|]. intros j b r Hj. destruct r as [i|i|o t]; try done. cbn. intros Hle.
    enough (i <> k) by lia. intros ->. pose proof (sum_list_with_lookup (claimed k) gs j _ Hj) as Hge. cbn in Hge.
    rewrite decide_True in Hge by done. unfold slot_cap in Hc. rewrite E in Hc. cbn in Hc. lia.
  - cbn [lift Atomic.wp]. rewrite (proj2 (Z.eqb_eq _ _) E). cbn [negb]. clear h gs s HI Hg Hs Hret Hc E. apply wp_bind. apply wp_slot; [done|].
    intros h gs s HI Hg Hs. pose proof (sweep_retired _ _ _ HI Hg ltac:(done)) as Hret. destruct (inv_slots _ _ HI k s Hs) as [Hp _].
    exists (pins s), s. rewrite set_same_slot by done. destruct (Z.eqb_spec (pins s) 0) as [E|E].
    2:{ exists (GSweep (Clear k true)). split; [done|]. split; [by apply Inv_stay|]. cbn. rewrite (proj2 (Z.eqb_neq _ _) E). apply Hb. }
    exists (GSweep (Clear (S k) false)). split; [done|]. split; [|cbn; rewrite (proj2 (Z.eqb_eq _ _) E); exact Hn].
    eapply Inv_phase; [exact HI|exact Hg|done..|]. intros j b r Hj. destruct r as [i|i|o t]; try done. cbn. intros Hle.
    enough (i <> k) by lia. intros ->. pose proof (sum_list_with_lookup (pinned k) gs j _ Hj) as Hge. cbn in Hge.
    rewrite decide_True in Hge by done. lia.
Qed.

Lemma wp_scan n k Q :
  (k + n)%nat = MAX_LIVE_VERSIONS -> (forall k half, Q (Some false) (GSweep (Clear k half))) ->
  Q None (GSweep (Clear MAX_LIVE_VERSIONS false)) -> wp (for_each (seq k n) slot_busy) 0 (GSweep (Clear k false)) Q.
Proof.
  revert k. induction n as [|n IH]; intros k Hk Hb Hn.
  - rewrite Nat.add_0_r in Hk. subst. exact Hn.
  - cbn [seq for_each]. apply wp_bind. apply wp_slot_busy; [lia|intros half; apply Hb|]. apply IH; [lia|done..].
Qed.

Lemma wp_is_quiescent Q :
  (forall p, p <> InService -> Q false (GSweep p)) -> Q true (GSweep (Clear MAX_LIVE_VERSIONS false)) ->
  wp is_quiescent 0 (GSweep Retired) Q.
Proof.
  intros Hf Ht. unfold is_quiescent. apply wp_bind. intros h gs Hg HI. exists (GSweep Retired). split; [by apply Inv_stay|].
  cbn [Atomic.wp]. destruct (negb (current h =? NO_VERSION)); [by apply Hf|]. clear h gs Hg HI.
  apply wp_bind. intros h gs Hg HI. pose proof (sweep_retired _ _ _ HI Hg ltac:(done)) as Hret.
  destruct (Z.eqb_spec (lease_owner (write_lease h)) OWNER_NONE) as [E|E].
  - exists (GSweep (Clear 0 false)). split.
    + eapply Inv_phase; [exact HI|exact Hg|done..|]. intros j b r Hj _. destruct r as [i|i|o t]; cbn; try lia.
      pose proof (sum_list_with_lookup leased gs j _ Hj) as Hge. pose proof (inv_lease _ _ HI) as Hle.
      unfold lease_cap in Hle. rewrite E in Hle. cbn in *. lia.
    + cbn [Atomic.wp]. rewrite (proj2 (Z.eqb_eq _ _) E). cbn [negb]. apply wp_bind.
      apply wp_scan; [done|intros k half; by apply Hf|exact Ht].
  - exists (GSweep Retired). split; [by apply Inv_stay|]. cbn [Atomic.wp]. rewrite (proj2 (Z.eqb_neq _ _) E). by apply Hf.
Qed.

Lemma wp_sweep Q :
  Q false (GSweep InService) -> Q true (GSweep (Clear MAX_LIVE_VERSIONS false)) -> wp sweep 0 (GSweep InService) Q.
Proof.
  intros Hf Ht. unfold sweep. apply wp_bind. intros h gs Hg HI. exists (GSweep Retired). split.
  { eapply Inv_phase; [exact HI|exact Hg|done..|]. by intros j b r. }
  assert (head_incarnation h = inc) as ->.
  { destruct HI as [(q & H0 & Hi & _) _ _ _ _ _ _]. by simplify_eq. }
  cbn [Atomic.wp]. clear h gs Hg HI. apply wp_bind. apply wp_is_quiescent; [|exact Ht].
  intros p Hp. apply wp_bind. intros h gs Hg HI. exists (GSweep InService). split; [|exact Hf].
  eapply Inv_phase; [exact HI|exact Hg|done..|]. intros j b r. by destruct r.
Qed.

Lemma wp_sweeps n : wp (sweeps n) 0 (GSweep InService) post.
Proof. induction n as [|n IH]; [done|]. cbn [sweeps]. apply wp_bind. apply wp_sweep; [exact IH|done]. Qed.

(** A head in service that nobody has registered with yet. *)
Definition in_service (h : ArtifactHead) : Prop :=
  head_incarnation h = inc /\ length (pin_table h) = MAX_LIVE_VERSIONS /\ Forall (fun s => pins s = 0) (pin_table h).

Lemma sum_idle f n : f GIdle = 0%nat -> sum_list_with f (replicate n GIdle) = 0%nat.
Proof. intros E. induction n as [|n IH]; [done|]. cbn. lia. Qed.

Lemma head_Inv_start h n : in_service h -> Z.of_nat n + 1 < U32_MOD -> Inv h (GSweep InService :: replicate n GIdle).
Proof.
  intros (Hi & Hl & Hp) Hn. assert (forall j g, replicate n GIdle !! j = Some g -> g = GIdle) as Hidle
    by (intros j g [-> _]%lookup_replicate; done).
  split; try done.
  - exists InService. by split_and!.
  - intros [|j] p; cbn; [done|]. by intros ?%Hidle.
  - cbn. rewrite length_replicate. lia.
  - intros i s Hs. cbn. rewrite !sum_idle by done. split; [|lia]. exact (proj1 (list.Forall_lookup _ _) Hp i s Hs).
  - cbn. rewrite sum_idle by done. lia.
  - intros [|j] b r; cbn; [done|]. by intros ?%Hidle.
Qed.
End handshake.

(** C35.  The recycle handshake is safe.  One sweeper runs any number of sweeps over a
    head in service while any number of clients, fewer than 2^32 - 1, register with it by
    pinning slots, claiming slots or taking the write lease, validate, and let go or hold
    on; their accesses interleave arbitrarily.  No access is ever out of bounds, and when a
    sweep has found the head quiescent (so that the region may be handed to a next
    occupant), the head is out of service and no client holds a registration it validated:
    neither one the scan missed nor one taken behind its back. *)
Theorem recycled_head_has_no_holder fuel inc n scripts h tp h' :
  inc <> NO_INCARNATION -> in_service inc h ->
  Forall (Forall (request_ok ∘ fst)) scripts -> Z.of_nat (length scripts) + 1 < U32_MOD ->
  pool_reach (sweeps n :: (client fuel inc <$> scripts), h) (tp, h') ->
  ~ pool_stuck (tp, h') /\
  (tp !! 0%nat = Some (Ret (Swept true)) ->
   head_incarnation h' = NO_INCARNATION /\ forall j r, tp !! j <> Some (Ret (Holding r))).
Proof.
  intros Hinc Hh Hs Hfew Hr.
  assert (pool_ok (Inv inc) post (sweeps n :: (client fuel inc <$> scripts)) (GSweep InService :: replicate (length scripts) GIdle)) as Hok.
  { split; [cbn; by rewrite length_fmap, length_replicate|]. intros [|j] p g; cbn.
    - intros [= <-] [= <-]. by apply wp_sweeps.
    - intros (qs & -> & Hq)%list_lookup_fmap_Some [-> _]%lookup_replicate. apply wp_head_client; [done|].
      exact (proj1 (list.Forall_lookup _ _) Hs j qs Hq). }
  destruct (pool_ok_reach _ _ _ _ _ _ _ Hr Hok (head_Inv_start inc h _ Hh Hfew)) as (gs & [Hlen Hok'] & HI).
  split; [by eapply pool_ok_not_stuck|]. intros H0.
  destruct (lookup_lt_is_Some_2 gs 0) as [g0 Hg0]; [rewrite <- Hlen; by eapply lookup_lt_Some|].
  pose proof (Hok' 0%nat _ g0 H0 Hg0) as E0. cbn in E0. subst g0.
  split; [by eapply sweep_retired|]. intros j r Hj.
  destruct (lookup_lt_is_Some_2 gs j) as [g Hg]; [rewrite <- Hlen; by eapply lookup_lt_Some|].
  pose proof (Hok' j _ g Hj Hg) as E. cbn in E. subst g.
  destruct HI as [(p & Hp & _ & Hv) _ _ _ _ _ Hre]. simplify_eq. specialize (Hv j r Hg). specialize (Hre j true r Hg).
  destruct r; cbn in *; [lia|lia|done].
Qed.

(** A client tries to hold a pin on slot 0 of a head whose slots are all free, another
    takes the lease and lets it go, and the sweep comes last. *)
Definition recycle_clients : list (list (request * bool)) := [[(QPin 0 1, true)]; [(QLease 7, false)]].
Definition serviced : ArtifactHead := set_incarnation FIRST_INCARNATION fresh.
Definition recycle_start := (sweeps 1 :: (client 1 FIRST_INCARNATION <$> recycle_clients), serviced).
Definition recycled := pool_after (replicate 3 1 ++ replicate 4 2 ++ replicate 131 0)%nat recycle_start.

Lemma recycled_reach : pool_reach recycle_start (recycled.1, recycled.2).
Proof. unfold recycled. apply pool_after_reach. Qed.

Lemma recycled_head_has_no_holder_witness :
  recycled.1 !! 0%nat = Some (Ret (Swept true)) /\ head_incarnation recycled.2 = NO_INCARNATION /\
  forall j r, recycled.1 !! j <> Some (Ret (Holding r)).
Proof.
  split; [vm_compute; reflexivity|].
  apply (recycled_head_has_no_holder 1 FIRST_INCARNATION 1 recycle_clients serviced recycled.1 recycled.2).
  - done.
  - split_and!; [done..|]. apply (bool_decide_unpack _). vm_compute. exact I.
  - repeat constructor; mach || done.
  - done.
  - exact recycled_reach.
  - vm_compute. reflexivity.
Defined.
