(* ===== verification/Catalog.v ===== *)
(** * The catalog of a keyed store

    [src/crates/shm-store/src/catalog.rs]: the table of slots that names the entries of a
    store.  A creator gets an index it owns exclusively, from the free list or by bumping
    the high-water mark, and publishes the slot; an evictor tombstones the occupant it
    meant; a sweep owns a tombstone while it asks whether the entry behind it is finished
    and either puts it back or frees the index under the next incarnation.

    The quiescence predicate of a sweep belongs to the caller and acts on other segments,
    so the sweep is written over any memory that contains the catalog. *)

From S2P Require Import Prelude Atomic ChunkDesc Treiber Manifest.

(** ** Constants and kinds *)

Definition CATALOG_MAGIC : Z := of_le [83; 72; 77; 83; 84; 79; 82; 51]. (* b"SHMSTOR3" *)
Definition SLOT_FREE : Z := 0.
Definition SLOT_LIVE : Z := 1.
Definition SLOT_TOMBSTONE : Z := 2.
Definition SLOT_RECLAIMING : Z := 3.
Definition FREE_NIL : Z := U32_MAX.
Definition FIRST_GEN : Z := 1.

Definition pack_free_head (idx tag : Z) : Z := Z.lor (Z.shiftl tag 32) idx.

Inductive RefKind : Set := RawChunk | KObject | KArtifact | KDataset | KResult.

#[export] Instance RefKind_eq_dec : EqDecision RefKind.
Proof. solve_decision. Defined.

Definition as_u16 (k : RefKind) : Z :=
  match k with RawChunk => 0 | KObject => 1 | KArtifact => 2 | KDataset => 3 | KResult => 4 end.

(** Errors of [shm-store] that the catalog and the envelopes report. *)
Inductive StoreError : Set :=
| KeyTooLong (n : Z)
| NotFound
| CatalogFull (capacity : Z)
| BadCatalog
| BadKind (v : Z)
| BadEnvelope
| NotEnvelope (schema : Z)
| NotResolvable
| VersionMismatch (expected actual : Z)
| StoreCore (e : CoreError)
| StoreArtifact (e : ArtifactError)
| Intern.

#[export] Instance StoreError_eq_dec : EqDecision StoreError.
Proof. solve_decision. Defined.

Definition from_u16 (v : Z) : result StoreError RefKind :=
  if v =? 0 then Ok RawChunk
  else if v =? 1 then Ok KObject
  else if v =? 2 then Ok KArtifact
  else if v =? 3 then Ok KDataset
  else if v =? 4 then Ok KResult
  else Err (BadKind v).

(** ** Slots *)

Record CatalogSlot : Set := mkSlot {
  key_id : Z;
  artifact_id : Z;
  head_off : Z;
  kind : Z;
  word : Z;
  next_free : Z
}.

Definition pack_slot_word (gen state : Z) : Z := Z.lor (Z.shiftl gen 32) state.
Definition slot_word_gen (w : Z) : Z := wrap32 (Z.shiftr w 32).
Definition slot_word_state (w : Z) : Z := wrap32 w.

Arguments pack_slot_word : simpl never.
Arguments slot_word_gen : simpl never.
Arguments slot_word_state : simpl never.

Definition set_key (v : Z) (s : CatalogSlot) : CatalogSlot := mkSlot v (artifact_id s) (head_off s) (kind s) (word s) (next_free s).
Definition set_artifact_id (v : Z) (s : CatalogSlot) : CatalogSlot := mkSlot (key_id s) v (head_off s) (kind s) (word s) (next_free s).
Definition set_head_off (v : Z) (s : CatalogSlot) : CatalogSlot := mkSlot (key_id s) (artifact_id s) v (kind s) (word s) (next_free s).
Definition set_kind (v : Z) (s : CatalogSlot) : CatalogSlot := mkSlot (key_id s) (artifact_id s) (head_off s) v (word s) (next_free s).
Definition set_word (v : Z) (s : CatalogSlot) : CatalogSlot := mkSlot (key_id s) (artifact_id s) (head_off s) (kind s) v (next_free s).
Definition set_next_free (v : Z) (s : CatalogSlot) : CatalogSlot := mkSlot (key_id s) (artifact_id s) (head_off s) (kind s) (word s) v.

Definition slot_state : prog CatalogSlot Z := w <- load word ;; Ret (slot_word_state w).
Definition gen : prog CatalogSlot Z := w <- load word ;; Ret (slot_word_gen w).
Definition slot_kind : prog CatalogSlot (result StoreError RefKind) := k <- load kind ;; Ret (from_u16 (wrap16 k)).

Definition write_fields (k aid off : Z) (kd : RefKind) : prog CatalogSlot unit :=
  store (set_key k) ;;; store (set_artifact_id aid) ;;; store (set_head_off off) ;;; store (set_kind (as_u16 kd)).

Definition cas_slot (old new : Z) : prog CatalogSlot (bool * Z) := cas word set_word old new.

Definition cas_state (fuel : nat) (from to : Z) : prog CatalogSlot (option bool) :=
  cur <- load word ;;
  retry fuel (fun cur =>
    if negb (slot_word_state cur =? from) then Ret (inr false)
    else
      r <- cas_slot cur (pack_slot_word (slot_word_gen cur) to) ;;
      Ret (if r.1 then inr true else inl r.2)) cur.

Definition publish (fuel : nat) : prog CatalogSlot (option bool) := cas_state fuel SLOT_FREE SLOT_LIVE.
Definition tombstone (fuel : nat) : prog CatalogSlot (option bool) := cas_state fuel SLOT_LIVE SLOT_TOMBSTONE.
Definition tombstone_gen (g : Z) : prog CatalogSlot bool :=
  r <- cas_slot (pack_slot_word g SLOT_LIVE) (pack_slot_word g SLOT_TOMBSTONE) ;; Ret r.1.
Definition begin_reclaim (fuel : nat) : prog CatalogSlot (option bool) := cas_state fuel SLOT_TOMBSTONE SLOT_RECLAIMING.

Definition abort_reclaim : prog CatalogSlot unit :=
  cur <- load word ;; store (set_word (pack_slot_word (slot_word_gen cur) SLOT_TOMBSTONE)).

Definition finish_reclaim : prog CatalogSlot (option Z) :=
  cur <- load word ;;
  let g := slot_word_gen cur in
  if g =? U32_MAX then Ret None
  else
    store (set_key 0) ;;;
    store (set_word (pack_slot_word (g + 1) SLOT_FREE)) ;;;
    Ret (Some (g + 1)).

(** ** The catalog *)

Record CatMem : Set := mkCatMem {
  cat_magic : Z;
  cat_capacity : Z;
  next_slot : Z;
  head_stride : Z;
  artifact_id_base : Z;
  free_head : Z;
  slots : list CatalogSlot
}.

Definition set_next_slot (v : Z) (m : CatMem) : CatMem :=
  mkCatMem (cat_magic m) (cat_capacity m) v (head_stride m) (artifact_id_base m) (free_head m) (slots m).
Definition set_free_head (v : Z) (m : CatMem) : CatMem :=
  mkCatMem (cat_magic m) (cat_capacity m) (next_slot m) (head_stride m) (artifact_id_base m) v (slots m).
Definition set_slots (v : list CatalogSlot) (m : CatMem) : CatMem :=
  mkCatMem (cat_magic m) (cat_capacity m) (next_slot m) (head_stride m) (artifact_id_base m) (free_head m) v.

Definition slots_offset : Z := 32.
Definition required_bytes (capacity : Z) : Z := slots_offset + capacity * 32.
Definition segment_bytes (capacity : Z) : Z := 64 + required_bytes capacity.

(** The handle caches the capacity. *)
Definition Catalog : Set := Z.

Definition attach (m : CatMem) : result StoreError Catalog :=
  if negb (cat_magic m =? CATALOG_MAGIC) then Err BadCatalog else Ok (cat_capacity m).

Definition init (payload capacity stride base : Z) : result StoreError (Catalog * CatMem) :=
  if payload <? required_bytes capacity then Err (StoreCore LayoutOverflow)
  else
    Ok (capacity, mkCatMem CATALOG_MAGIC capacity 0 stride base (pack_free_head FREE_NIL 0)
      (replicate (Z.to_nat capacity) (mkSlot 0 0 0 0 (pack_slot_word FIRST_GEN SLOT_FREE) FREE_NIL))).

Definition slot {A} (idx : Z) (p : prog CatalogSlot A) : prog CatMem A := lift (elem slots set_slots (Z.to_nat idx)) p.

(** The free list, linked through [next_free]. *)
Definition free_stack : stack_ops CatMem := {|
  s_head := free_head;
  s_set_head := set_free_head;
  s_next i m := next_free <$> at_index (slots m) i;
  s_set_next i n m := match at_index (slots m) i with Some s => Some (set_slots (<[Z.to_nat i := set_next_free n s]> (slots m)) m) | None => None end
|}.

Definition pop_free (fuel : nat) : prog CatMem (option (option Z)) := treiber_pop free_stack fuel.
Definition push_free (fuel : nat) (idx : Z) : prog CatMem (option unit) := treiber_push free_stack fuel idx.

(** [fetch_add] on the high-water mark. *)
Definition bump (d : Z) : prog CatMem Z := fetch_add32 next_slot set_next_slot d.

Section catalog.
Context (fuel : nat) (c : Catalog).

Definition alloc_slot : prog CatMem (option (result StoreError Z)) :=
  o <-- pop_free fuel ;;
  match o with
  | Some idx => done (Ok idx)
  | None =>
      idx <- bump 1 ;;
      if c <=? idx then bump (-1) ;;; done (Err (CatalogFull c)) else done (Ok idx)
  end.

Definition head_off_for (idx : Z) : prog CatMem Z := st <- load head_stride ;; Ret (wrap32 (idx * st)).
Definition artifact_id_for (idx : Z) : prog CatMem Z := b <- load artifact_id_base ;; Ret (wrap32 (b + idx)).

Definition publish_slot (idx k : Z) (kd : RefKind) : prog CatMem (option (Z * Z)) :=
  aid <- artifact_id_for idx ;;
  off <- head_off_for idx ;;
  slot idx (write_fields k aid off kd) ;;;
  _ <-- slot idx (publish fuel) ;;
  done (aid, off).

(** The appended slots, [0 .. next_slot.min(capacity)]. *)
Definition appended : prog CatMem (list Z) := n <- load next_slot ;; Ret (seqZ 0 (Z.min n c)).

Definition find_live_by_key (k : Z) : prog CatMem (option Z) :=
  idxs <- appended ;;
  for_each idxs (fun idx =>
    st <- slot idx slot_state ;;
    if negb (st =? SLOT_LIVE) then Ret None
    else k' <- slot idx (load key_id) ;; Ret (if k' =? k then Some idx else None)).

Definition slot_for_artifact_id (aid : Z) : prog CatMem (option Z) :=
  base <- load artifact_id_base ;;
  if aid <? base then Ret None
  else
    let idx := aid - base in
    n <- load next_slot ;;
    if Z.min n c <=? idx then Ret None
    else a <- slot idx (load artifact_id) ;; Ret (if a =? aid then Some idx else None).

(** ** Sweeps *)

Section sweep.
Context {S : Type} (cat_part : focus S CatMem) (quiescent : Z -> Z -> prog S (option bool)).

Definition on_cat {A} (p : prog CatMem A) : prog S A := lift cat_part p.

Definition try_reclaim (idx : Z) : prog S (option bool) :=
  won <-- on_cat (slot idx (begin_reclaim fuel)) ;;
  if negb won then done false
  else
    aid <- on_cat (slot idx (load artifact_id)) ;;
    off <- on_cat (slot idx (load head_off)) ;;
    q <-- quiescent aid off ;;
    if negb q then on_cat (slot idx abort_reclaim) ;;; done false
    else
      g <- on_cat (slot idx finish_reclaim) ;;
      match g with
      | Some _ => _ <-- on_cat (push_free fuel idx) ;; done true
      | None => done false
      end.

Definition reclaim_tombstones : prog S (option nat) :=
  idxs <- on_cat appended ;;
  loop_fold idxs (fun n idx =>
    st <- on_cat (slot idx slot_state) ;;
    if negb (st =? SLOT_TOMBSTONE) then done n
    else r <-- try_reclaim idx ;; done (if r : bool then Datatypes.S n else n)) 0%nat.
End sweep.
End catalog.
