(* ===== verification/CatalogConc.v ===== *)
(** * Catalog slots under interleaving

    Creators, evictors and sweeps work on one catalog at once.  The free list is the
    tagged stack of [TreiberConc]; on top of it the slot words and the high-water mark
    decide who owns an index: nobody (it is on the list or was never appended), a creator
    that has not published it yet, the published entry, or the one sweep that took its
    tombstone.  What the store relies on is that a pair [(index, incarnation)] names one
    occupant for ever. *)

From S2P Require Import Prelude Atomic ChunkDesc Treiber TreiberConc Catalog.

(** ** Clients *)

Inductive cat_cmd : Set :=
| CCreate (k : Z) (kd : RefKind)
| CEvict (idx g : Z)
| CTombstone (idx : Z)
| CSweep (idx : Z) (quiescent : bool).

(** The sweep's catalog is the whole memory. *)
Definition whole : focus CatMem CatMem := field (fun m => m) (fun m _ => m).

Section client.
Context (fuel : nat) (c : Catalog).

(** A client logs the [(index, incarnation)] of every entry it created. *)
Fixpoint cat_client (cs : list cat_cmd) (log : list (Z * Z)) : prog CatMem (list (Z * Z)) :=
  match cs with
  | [] => Ret log
  | CCreate k kd :: cs' =>
      o <- alloc_slot fuel c ;;
      match o with
      | Some (Ok idx) =>
          g <- slot idx gen ;;
          r <- publish_slot fuel idx k kd ;;
          match r with Some _ => cat_client cs' (log ++ [(idx, g)]) | None => Ret log end
      | _ => cat_client cs' log
      end
  | CEvict idx g :: cs' => slot idx (tombstone_gen g) ;;; cat_client cs' log
  | CTombstone idx :: cs' => slot idx (tombstone fuel) ;;; cat_client cs' log
  | CSweep idx q :: cs' => try_reclaim fuel whole (fun _ _ => done q) idx ;;; cat_client cs' log
  end.
End client.

Definition cat_cmd_ok (c : Catalog) (cmd : cat_cmd) : Prop :=
  match cmd with
  | CCreate _ _ => True
  | CEvict idx g => 0 <= idx < c /\ is_u32 g
  | CTombstone idx | CSweep idx _ => 0 <= idx < c
  end.

(** ** Slot words *)

Lemma slot_word_gen_pack g st : is_u32 g -> is_u32 st -> slot_word_gen (pack_slot_word g st) = g.
Proof. exact (hi32_join g st). Qed.

Lemma slot_word_state_pack g st : is_u32 st -> slot_word_state (pack_slot_word g st) = st.
Proof. exact (lo32_join g st). Qed.

Lemma pack_slot_word_inj g st g' st' :
  is_u32 g -> is_u32 st -> is_u32 g' -> is_u32 st' -> pack_slot_word g st = pack_slot_word g' st' -> g = g' /\ st = st'.
Proof. exact (join32_inj g st g' st'). Qed.

(** A slot word at incarnation [g] in state [st]. *)
Definition word_is (w g st : Z) : Prop := w = pack_slot_word g st /\ 1 <= g <= U32_MAX /\ 0 <= st <= 3.

Lemma word_is_u32 w g st : word_is w g st -> is_u32 g /\ is_u32 st.
Proof. intros (_ & ? & ?). split; mach. Qed.

Lemma word_is_inj w g st g' st' : word_is w g st -> word_is w g' st' -> g = g' /\ st = st'.
Proof.
  intros H H'. destruct (word_is_u32 _ _ _ H), (word_is_u32 _ _ _ H'). destruct H as (-> & _), H' as (E & _).
  by apply pack_slot_word_inj.
Qed.

Lemma word_is_parts w g st : word_is w g st -> slot_word_gen w = g /\ slot_word_state w = st.
Proof.
  intros H. destruct (word_is_u32 _ _ _ H). destruct H as (-> & _). by rewrite slot_word_gen_pack, slot_word_state_pack.
Qed.

(** ** Ghost state *)

(** Beside the stack's ghost state, a thread knows: the entry it is creating, the entry it
    is sweeping, whether it has overrun the high-water mark, what it has created. *)
Record local : Type := mkLocal {
  creating : option (Z * Z);
  sweeping : option (Z * Z);
  over : bool;
  issued : list (Z * Z)
}.

Abbreviation cat_ghost := (ghost * local)%type.
Implicit Types (x y : cat_ghost) (cgs : list cat_ghost).

Definition all_issued cgs : list (Z * Z) := concat (issued ∘ snd <$> cgs).
Definition overs cgs : nat := sum_list_with (fun x => if over x.2 then 1 else 0)%nat cgs.

Definition word_at (m : CatMem) (i g st : Z) : Prop :=
  exists s, slots m !! Z.to_nat i = Some s /\ word_is (word s) g st.

(** What the threads and the shared indices [sh] say about slot [i], at [g] and [st]. *)
Record SlotOk (sh : list Z) cgs (hw i g st : Z) : Prop := {
  so_free : i ∉ sh -> st = SLOT_FREE /\ i < hw;
  so_new : hw <= i -> i ∈ sh /\ st = SLOT_FREE;
  so_creating j x g' : cgs !! j = Some x -> creating x.2 = Some (i, g') -> g' = g /\ i ∈ owned x.1;
  so_sweeping j x g' : cgs !! j = Some x -> sweeping x.2 = Some (i, g') -> g' = g /\ st = SLOT_RECLAIMING;
  so_one j k x y g1 g2 : cgs !! j = Some x -> cgs !! k = Some y ->
    sweeping x.2 = Some (i, g1) -> sweeping y.2 = Some (i, g2) -> j = k;
  so_issued p : p ∈ all_issued cgs -> p.1 = i -> p.2 < g \/ p.2 = g /\ st <> SLOT_FREE
}.

Section conc.
Context (c : Z) (n B : nat) (Hc : 0 <= c) (Hn : c + Z.of_nat n < U32_MOD) (HB : Z.of_nat B < U32_MOD).
Implicit Types (m : CatMem) (sh : list Z).

Definition busy_ok x : Prop :=
  (forall i g, creating x.2 = Some (i, g) -> 0 <= i < c) /\ (forall i g, sweeping x.2 = Some (i, g) -> 0 <= i < c).

Record CatOk m sh cgs (hw : Z) : Prop := {
  ok_hw : 0 <= hw <= c /\ next_slot m = hw + Z.of_nat (overs cgs) /\ ((0 < overs cgs)%nat -> hw = c);
  ok_few : (length cgs <= n)%nat;
  ok_slots i : 0 <= i < c -> exists g st, word_at m i g st /\ SlotOk sh cgs hw i g st;
  ok_range p : p ∈ all_issued cgs -> 0 <= p.1 < c;
  ok_once : NoDup (all_issued cgs);
  ok_busy j x : cgs !! j = Some x -> busy_ok x
}.

Definition nodes_c : list Z := seqZ 0 c.
Definition cat_ok m : Prop := Z.of_nat (length (slots m)) = c.

Lemma below_c m i : cat_ok m -> 0 <= i < c -> below (length (slots m)) i.
Proof. unfold cat_ok, below. lia. Qed.

Lemma free_stack_laws : stack_laws free_stack cat_ok (fun i => 0 <= i < c).
Proof.
  split; cbn; try done.
  - intros m i Hok Hi. destruct (at_index_below (slots m) i) as (s & -> & _); [by apply below_c|]. by eexists.
  - intros m i v Hok Hi. pose proof (below_c m i Hok Hi) as Hb. destruct (at_index_below (slots m) i Hb) as (s & -> & _).
    eexists. split; [done|]. unfold cat_ok. cbn. rewrite length_insert. split_and!; try done.
    intros j. rewrite at_index_insert by done. by case_decide.
Qed.

Lemma nodes_c_ok i : i ∈ nodes_c -> 0 <= i < c /\ is_u32 i /\ i <> EMPTY.
Proof. unfold nodes_c. rewrite elem_of_seqZ. unfold EMPTY. intros ?. split_and!; mach. Qed.

Abbreviation StackInv := (TreiberConc.Inv (st := free_stack) (ok := cat_ok) nodes_c 0 B).

Definition CatInv m cgs : Prop :=
  exists sh hw, StackInv m ((fst <$> cgs) ++ [idle sh 0]) /\ CatOk m sh cgs hw.

(** ** The stack's operations leave the rest alone *)

Definition core m : Z * list Z := (next_slot m, word <$> slots m).

Lemma core_word_at m m' i g st : core m' = core m -> word_at m i g st -> word_at m' i g st.
Proof.
  intros [= _ Hw] (s & Hs & Hg). assert (E : (word <$> slots m') !! Z.to_nat i = Some (word s)).
  { by rewrite Hw, list_lookup_fmap, Hs. }
  rewrite list_lookup_fmap in E. destruct (slots m' !! Z.to_nat i) as [s'|] eqn:E'; [|done]. cbn in E. simplify_eq.
  exists s'. split; [done|]. congruence.
Qed.

Lemma CatOk_core m m' sh cgs hw : core m' = core m -> CatOk m sh cgs hw -> CatOk m' sh cgs hw.
Proof.
  intros E HO. pose proof E as [= En _]. split; try apply HO.
  - rewrite En. apply HO.
  - intros i Hi. destruct (ok_slots _ _ _ _ HO i Hi) as (g & st & Hw & Hs). exists g, st. split; [|done]. by eapply core_word_at.
Qed.

Lemma all_issued_elem cgs j x p : cgs !! j = Some x -> p ∈ issued x.2 -> p ∈ all_issued cgs.
Proof.
  intros Hj Hp. unfold all_issued. apply list_elem_of_In, in_concat. exists (issued x.2).
  split; apply list_elem_of_In; [|done]. apply (list_elem_of_fmap_2 (issued ∘ snd)). by eapply list_elem_of_lookup_2.
Qed.

Lemma all_issued_insert cgs k x x' p :
  cgs !! k = Some x -> p ∈ all_issued (<[k := x']> cgs) -> p ∈ issued x'.2 \/ p ∈ all_issued cgs.
Proof.
  unfold all_issued. revert k. induction cgs as [|y cgs IH]; intros [|k] Hk; csimpl in *; simplify_eq.
  - rewrite !elem_of_app. tauto.
  - rewrite !elem_of_app. intros [?|H]; [tauto|]. apply IH in H; tauto.
Qed.

Lemma all_issued_update cgs k x x' :
  cgs !! k = Some x -> issued x'.2 = issued x.2 -> all_issued (<[k := x']> cgs) = all_issued cgs.
Proof.
  unfold all_issued. intros Hk E. f_equal. rewrite list_fmap_insert. apply list_insert_id.
  rewrite list_lookup_fmap, Hk. cbn. by rewrite E.
Qed.

(** A slot a thread's step does not concern. *)
Definition unmoved (i : Z) sh sh' x x' : Prop :=
  (i ∈ sh <-> i ∈ sh') /\
  (forall g, creating x'.2 = Some (i, g) -> creating x.2 = Some (i, g) /\ (i ∈ owned x.1 -> i ∈ owned x'.1)) /\
  (forall g, sweeping x'.2 = Some (i, g) -> sweeping x.2 = Some (i, g)) /\
  (forall p, p ∈ issued x'.2 -> p.1 = i -> p ∈ issued x.2).

Lemma SlotOk_unmoved sh sh' cgs hw i g st k x x' :
  cgs !! k = Some x -> unmoved i sh sh' x x' -> SlotOk sh cgs hw i g st -> SlotOk sh' (<[k := x']> cgs) hw i g st.
Proof.
  intros Hk (Hsh & Hcr & Hsw & His) [H1 H2 H3 H4 H5 H6].
  assert (Hlk : forall j y, <[k := x']> cgs !! j = Some y -> (j = k /\ y = x') \/ cgs !! j = Some y).
  { intros j y Hj. apply list_lookup_insert_Some in Hj as [(<- & <- & _)|(_ & Hj)]; [by left|by right]. }
  split.
  - rewrite <- Hsh. done.
  - rewrite <- Hsh. done.
  - intros j y g' [[-> ->]|Hj]%Hlk E; [|by apply (H3 j)]. destruct (Hcr g' E) as [E' Ho].
    destruct (H3 k x g' Hk E') as [-> ?]. auto.
  - intros j y g' [[-> ->]|Hj]%Hlk E; [|by apply (H4 j y)]. apply (H4 k x); [done|auto].
  - intros j j' y y' g1 g2 [[-> ->]|Hj]%Hlk [[-> ->]|Hj']%Hlk E1 E2; [done| | |].
    + apply (H5 k j' x y' g1 g2); auto.
    + apply (H5 j k y x g1 g2); auto.
    + apply (H5 j j' y y' g1 g2); auto.
  - intros p Hp Ep. destruct (all_issued_insert _ _ _ _ _ Hk Hp) as [Hp'|Hp']; [|by apply H6].
    apply H6; [|done]. apply (all_issued_elem cgs k x); auto.
Qed.

Lemma overs_update cgs k x x' :
  cgs !! k = Some x -> over x'.2 = over x.2 -> overs (<[k := x']> cgs) = overs cgs.
Proof.
  intros Hk E. pose proof (sum_list_with_insert (fun x => if over x.2 then 1 else 0)%nat cgs k x x' Hk) as H.
  cbn beta in H. rewrite E in H. unfold overs. lia.
Qed.

(** A step of thread [k] that concerns at most slot [i0]. *)
Lemma CatOk_step i0 m m' sh sh' cgs hw k x x' :
  CatOk m sh cgs hw -> cgs !! k = Some x -> next_slot m' = next_slot m -> over x'.2 = over x.2 -> busy_ok x' ->
  (forall i g st, 0 <= i < c -> i <> i0 -> word_at m i g st -> word_at m' i g st) ->
  (forall i, 0 <= i < c -> i <> i0 -> unmoved i sh sh' x x') ->
  (0 <= i0 < c -> exists g st, word_at m' i0 g st /\ SlotOk sh' (<[k := x']> cgs) hw i0 g st) ->
  (issued x'.2 = issued x.2 \/ (forall p, p ∈ issued x'.2 -> 0 <= p.1 < c) /\ NoDup (all_issued (<[k := x']> cgs))) ->
  CatOk m' sh' (<[k := x']> cgs) hw.
Proof.
  intros HO Hk En Eo Hb Hw Hu Hi0 His. split.
  - rewrite En, (overs_update _ _ _ _ Hk Eo). apply HO.
  - rewrite length_insert. apply HO.
  - intros i Hi. destruct (decide (i = i0)) as [->|Hne]; [auto|].
    destruct (ok_slots _ _ _ _ HO i Hi) as (g & st & Hg & Hs). exists g, st. split; [auto|].
    eapply SlotOk_unmoved; eauto.
  - intros p Hp. destruct His as [E|[Hr _]].
    + rewrite (all_issued_update _ _ _ _ Hk E) in Hp. by apply (ok_range _ _ _ _ HO).
    + destruct (all_issued_insert _ _ _ _ _ Hk Hp) as [?|?]; [auto|by apply (ok_range _ _ _ _ HO)].
  - destruct His as [E|[_ ?]]; [|done]. rewrite (all_issued_update _ _ _ _ Hk E). apply HO.
  - intros j y Hj. apply list_lookup_insert_Some in Hj as [(<- & <- & _)|(_ & Hj)]; [done|by apply (ok_busy _ _ _ _ HO j)].
Qed.

(** Programs that touch only the stack. *)
Definition stack_only {A} (p : prog CatMem A) : Prop := spends (fun m m' => core m' = core m) (fun _ _ => False) p 0.

Lemma wp_stack_only {A} (p : prog CatMem A) i g lo Q :
  stack_only p -> creating lo = None -> wp StackInv p i g Q -> wp CatInv p i (g, lo) (fun a x => x.2 = lo /\ Q a x.1).
Proof.
  unfold stack_only. intros Hsp Hcr. revert g Hsp. induction p as [a|R f k IH]; intros g Hsp H; cbn in *; [done|].
  intros m cgs Hg (sh & hw & HS & HO).
  assert (Hg' : ((fst <$> cgs) ++ [idle sh 0]) !! i = Some g).
  { apply lookup_app_l_Some. by rewrite list_lookup_fmap, Hg. }
  specialize (H m _ Hg' HS). specialize (Hsp m). destruct (f m) as [[r m']|]; [|done].
  destruct (Hsp r m' eq_refl) as [[Hcore Hsp']|(? & ? & [] & _)]. destruct H as (g' & HS' & Hwp).
  exists (g', lo). split; [|by apply IH]. exists sh, hw. split.
  - rewrite insert_app_l in HS' by (rewrite length_fmap; by eapply lookup_lt_Some). by rewrite list_fmap_insert.
  - apply (CatOk_core m); [done|]. apply (CatOk_step (-1) m m sh sh cgs hw i (g, lo)); try done; [| |lia|by left].
    + by apply (ok_busy _ _ _ _ HO i (g, lo)).
    + intros j Hj _. split_and!; try done. cbn. by rewrite Hcr.
Qed.

Lemma stack_only_pop fuel : stack_only (treiber_pop free_stack fuel).
Proof.
  apply spends_retry. intros [] k Hl Hr. cbn. intros m r m' [= <- <-]. left. split; [done|].
  case_match; [apply Hr|]. cbn. intros m1 r m1' E. left. destruct (next_free <$> _); simplify_eq. split; [done|].
  intros m2 r2 m2' E. left. case_match; simplify_eq; cbn; auto.
Qed.

Lemma stack_only_push fuel i : stack_only (treiber_push free_stack fuel i).
Proof.
  apply spends_retry. intros [] k Hl Hr. cbn. intros m r m' [= <- <-]. left. split; [done|].
  intros m1 r m1' E. left. unfold at_index in E. destruct (0 <=? i); [|done].
  destruct (slots m1 !! Z.to_nat i) as [sl|] eqn:Hs; [|done]. simplify_eq. split.
  - unfold core. cbn. f_equal. rewrite list_fmap_insert. apply list_insert_id. by rewrite list_lookup_fmap, Hs.
  - intros m2 r2 m2' E. left. case_match; simplify_eq; cbn; auto.
Qed.

Lemma wp_pop_free fuel i o b lo : creating lo = None ->
  wp CatInv (pop_free fuel) i (idle o (S b), lo) (fun r x =>
    match r with Some (Some j) => x = (idle (j :: o) b, lo) /\ 0 <= j < c | _ => x = (idle o (S b), lo) end).
Proof.
  intros Hlo. eapply wp_mono; [|eapply wp_stack_only; [apply stack_only_pop|done|]].
  2: { by apply (wp_pop_idle free_stack_laws nodes_c 0 B (NoDup_seqZ 0 c) nodes_c_ok HB). }
  intros [[j|]|] [g l] [E1 E2]; cbn in E1, E2; [|by subst|by subst].
  destruct E2 as [-> [Hj _]%nodes_c_ok]. by subst.
Qed.

Lemma wp_push_free fuel i j o b lo : creating lo = None ->
  wp CatInv (push_free fuel j) i (idle (j :: o) (S b), lo) (fun r x =>
    x = match r with Some _ => (idle o b, lo) | None => (idle (j :: o) (S b), lo) end).
Proof.
  intros Hlo. eapply wp_mono; [|eapply wp_stack_only; [apply stack_only_push|done|]].
  2: { by apply (wp_push_idle free_stack_laws nodes_c 0 B (NoDup_seqZ 0 c) nodes_c_ok HB). }
  intros [[]|] [g l] [E1 E2]; cbn in E1, E2; by subst.
Qed.

(** ** Indices changing hands *)

(** The stack sees only the head word and the links. *)
Lemma StackInv_view m m' gs :
  cat_ok m' -> free_head m' = free_head m -> (forall j, s_next free_stack j m' = s_next free_stack j m) ->
  StackInv m gs -> StackInv m' gs.
Proof.
  intros Hok' Eh' Enx (l & T & h & Hok & Eh & Hch & Hp & HT & Hall). exists l, T, h. split_and!; try done.
  - cbn in *. by rewrite Eh'.
  - by apply (chain_agree m).
  - intros j g Hj. destruct (Hall j g Hj) as [Hs Hl]. split.
    + destruct (snap g) as [[[a slot] [nx|]]|]; [|done|done]. destruct Hs as [Hle Himp]. split; [done|]. by rewrite Enx.
    + unfold link_ok in *. destruct (link g) as [[a nx]|]; [|done]. by rewrite Enx.
Qed.

Lemma StackInv_move m gs sh sh' k o o' b :
  StackInv m (gs ++ [idle sh 0]) -> gs !! k = Some (idle o b) -> o' ++ sh' ≡ₚ o ++ sh ->
  StackInv m (<[k := idle o' b]> gs ++ [idle sh' 0]).
Proof.
  intros (l & T & h & Hok & Eh & Hch & Hp & HT & Hall) Hk Hperm. exists l, T, h. split_and!; try done.
  - rewrite <- Hp. apply Permutation_app_head. unfold all_owned. rewrite !fmap_app, !concat_app. cbn. rewrite !app_nil_r.
    pose proof (all_owned_update gs k _ (idle o' b) Hk) as Hu. unfold all_owned in Hu. cbn in Hu.
    apply (Permutation_app_inv_r o). rewrite <- !app_assoc, (Permutation_app_comm sh'), app_assoc, Hu, <- !app_assoc.
    apply Permutation_app_head. by rewrite Hperm, Permutation_app_comm.
  - unfold total_budget in *. rewrite sum_list_with_app in *. pose proof (total_budget_update gs k _ (idle o' b) Hk) as Hu.
    unfold total_budget in Hu. cbn in *. lia.
  - intros j g Hj. apply lookup_app_Some in Hj as [Hj|[_ Hj]].
    + apply list_lookup_insert_Some in Hj as [(<- & <- & _)|(_ & Hj)]; [done|].
      apply (Hall j g). by apply lookup_app_l_Some.
    + apply list_lookup_singleton_Some in Hj as [_ <-]. done.
Qed.

Lemma shared_nodup m gs sh : StackInv m (gs ++ [idle sh 0]) -> NoDup (all_owned gs ++ sh) /\ forall i, i ∈ sh -> i ∈ nodes_c.
Proof.
  intros (l & T & h & HI). pose proof (InvAt_nodup nodes_c 0 B (NoDup_seqZ 0 c) _ _ _ _ _ HI) as (_ & _ & Hnd)%list.NoDup_app.
  destruct HI as (_ & _ & _ & Hp & _).
  assert (E : all_owned (gs ++ [idle sh 0]) = all_owned gs ++ sh).
  { unfold all_owned. rewrite fmap_app, concat_app. cbn. by rewrite app_nil_r. }
  rewrite E in *. split; [done|]. intros i Hi. rewrite <- Hp. set_solver.
Qed.

Lemma owned_not_shared m cgs sh k x i :
  StackInv m ((fst <$> cgs) ++ [idle sh 0]) -> cgs !! k = Some x -> i ∈ owned x.1 -> (i ∉ sh) /\ 0 <= i < c.
Proof.
  intros HS Hk Hi. assert (Hk' : (fst <$> cgs) !! k = Some x.1) by (by rewrite list_lookup_fmap, Hk). split.
  - destruct (shared_nodup m _ sh HS) as [(_ & Hd & _)%list.NoDup_app _]. apply Hd. by eapply all_owned_elem.
  - destruct HS as (l & T & h & HI). apply nodes_c_ok.
    eapply (InvAt_owned free_stack_laws nodes_c 0 B (NoDup_seqZ 0 c) nodes_c_ok HB); [exact HI| |exact Hi].
    by apply lookup_app_l_Some.
Qed.

(** Taking a shared index into one's hands. *)
Lemma shared_take m gs sh i : StackInv m (gs ++ [idle sh 0]) -> i ∈ sh ->
  exists sh', sh ≡ₚ i :: sh' /\ i ∉ sh'.
Proof.
  intros HS Hi. destruct (shared_nodup m gs sh HS) as [(_ & _ & Hnd)%list.NoDup_app _].
  apply elem_of_Permutation in Hi as [sh' Hp]. exists sh'. split; [done|].
  rewrite Hp in Hnd. by apply list.NoDup_cons in Hnd as [? _].
Qed.

(** ** Actions on one slot *)

Definition upd m (idx : Z) (s : CatalogSlot) : CatMem := set_slots (<[Z.to_nat idx := s]> (slots m)) m.

Lemma cat_ok_upd m idx s : cat_ok m -> cat_ok (upd m idx s).
Proof. unfold cat_ok. cbn. by rewrite length_insert. Qed.

Lemma word_at_other m idx s i g st : 0 <= idx -> 0 <= i -> i <> idx -> word_at m i g st -> word_at (upd m idx s) i g st.
Proof. intros ? ? ? (s' & Hs & Hg). exists s'. split; [|done]. cbn. by rewrite list_lookup_insert_ne by lia. Qed.

Lemma word_at_here m idx s s' g st : slots m !! Z.to_nat idx = Some s -> word_is (word s') g st -> word_at (upd m idx s') idx g st.
Proof. intros Hs ?. exists s'. split; [|done]. cbn. apply list_lookup_insert_eq. by eapply lookup_lt_Some. Qed.

Lemma CatInv_slot m sh sh' cgs hw k o o' b lo lo' idx s s' g st :
  StackInv m ((fst <$> cgs) ++ [idle sh 0]) -> CatOk m sh cgs hw -> cgs !! k = Some (idle o b, lo) ->
  0 <= idx < c -> slots m !! Z.to_nat idx = Some s -> next_free s' = next_free s -> word_is (word s') g st ->
  o' ++ sh' ≡ₚ o ++ sh -> over lo' = over lo -> busy_ok (idle o' b, lo') ->
  (forall i, i <> idx -> unmoved i sh sh' (idle o b, lo) (idle o' b, lo')) ->
  SlotOk sh' (<[k := (idle o' b, lo')]> cgs) hw idx g st ->
  (issued lo' = issued lo \/ (forall p, p ∈ issued lo' -> 0 <= p.1 < c) /\ NoDup (all_issued (<[k := (idle o' b, lo')]> cgs))) ->
  CatInv (upd m idx s') (<[k := (idle o' b, lo')]> cgs).
Proof.
  intros HS HO Hk Hidx Hs Hnx Hw Hp Hov Hbusy Hun Hso His. exists sh', hw. split.
  - rewrite list_fmap_insert. cbn [fst]. apply (StackInv_view m).
    + by apply cat_ok_upd; destruct HS as (? & ? & ? & ? & _).
    + done.
    + intros j. cbn. by eapply at_index_insert_same.
    + apply (StackInv_move m _ sh sh' k o o'); try done. by rewrite list_lookup_fmap, Hk.
  - eapply (CatOk_step idx); try done.
    + intros i g' st' Hi Hne Hg. apply word_at_other; [lia|lia|done|done].
    + intros i _ Hne. by apply Hun.
    + intros _. exists g, st. split; [|done]. by eapply word_at_here.
Qed.

(** A slot in range is there, with a well-formed word. *)
Lemma slot_there m sh cgs hw idx : CatOk m sh cgs hw -> 0 <= idx < c ->
  exists s g st, slots m !! Z.to_nat idx = Some s /\ word_is (word s) g st /\ SlotOk sh cgs hw idx g st.
Proof. intros HO Hi. destruct (ok_slots _ _ _ _ HO idx Hi) as (g & st & (s & Hs & Hg) & Hso). by exists s, g, st. Qed.

(** What a thread [k] in state [x] can see at slot [idx]. *)
Definition sees (k : nat) x (idx : Z) (s : CatalogSlot) (g st : Z) : Prop :=
  exists m sh cgs hw, StackInv m ((fst <$> cgs) ++ [idle sh 0]) /\ CatOk m sh cgs hw /\ cgs !! k = Some x /\
    slots m !! Z.to_nat idx = Some s /\ word_is (word s) g st /\ SlotOk sh cgs hw idx g st.

(** An action that leaves word and link of the slot alone. *)
Lemma wp_slot_plain {X} {R : Set} (f : CatalogSlot -> option (R * CatalogSlot)) (q : R -> prog CatalogSlot X) idx k x Q :
  0 <= idx < c ->
  (forall s, exists r s', f s = Some (r, s') /\ word s' = word s /\ next_free s' = next_free s) ->
  (forall s g st r s', sees k x idx s g st -> f s = Some (r, s') -> wp CatInv (slot idx (q r)) k x Q) ->
  wp CatInv (slot idx (Atomic f q)) k x Q.
Proof.
  intros Hidx Hf Hq. cbn [slot lift wp]. intros m cgs Hk (sh & hw & HS & HO).
  destruct (slot_there m sh cgs hw idx HO Hidx) as (s & g & st & Hs & Hg & Hso). unfold elem. rewrite Hs.
  destruct (Hf s) as (r & s' & E & Ew & En). rewrite E. exists x. rewrite (list_insert_id cgs k x) by done. split.
  - exists sh, hw. split.
    + apply (StackInv_view m); [by apply cat_ok_upd; destruct HS as (? & ? & ? & ? & _)|done| |done].
      intros j. cbn. by eapply at_index_insert_same.
    + apply (CatOk_core m); [|done]. unfold core. cbn. f_equal. rewrite list_fmap_insert. apply list_insert_id.
      by rewrite list_lookup_fmap, Hs, Ew.
  - eapply Hq; [|exact E]. by exists m, sh, cgs, hw.
Qed.

Lemma wp_cat_store {X} (f : CatalogSlot -> CatalogSlot) (q : unit -> prog CatalogSlot X) idx k x Q :
  0 <= idx < c -> (forall s, word (f s) = word s /\ next_free (f s) = next_free s) ->
  wp CatInv (slot idx (q tt)) k x Q -> wp CatInv (slot idx (pbind (store f) q)) k x Q.
Proof.
  intros Hidx Hf Hq. apply wp_slot_plain; [done| |by intros s g st [] s' _ _].
  intros s. exists tt, (f s). split; [done|apply Hf].
Qed.

Lemma wp_cas_state fuel from to idx k x Q :
  0 <= idx < c ->
  (forall m sh cgs hw s g, StackInv m ((fst <$> cgs) ++ [idle sh 0]) -> CatOk m sh cgs hw -> cgs !! k = Some x ->
    slots m !! Z.to_nat idx = Some s -> word_is (word s) g from -> SlotOk sh cgs hw idx g from ->
    exists x', CatInv (upd m idx (set_word (pack_slot_word g to) s)) (<[k := x']> cgs) /\ Q (Some true) x') ->
  (forall s g st, sees k x idx s g st -> st <> from -> Q (Some false) x) -> Q None x ->
  wp CatInv (slot idx (cas_state fuel from to)) k x Q.
Proof.
  intros Hidx Hhit Hmiss Hnone. unfold cas_state. cbn [pbind load act].
  apply wp_slot_plain; [done|by intros ?; eexists _, _|]. intros s0 g0 st0 cur s0' Hs0 [= <- <-].
  apply wp_lift_retry with (P := fun cur y => y = x /\ exists s g st, sees k x idx s g st /\ cur = word s).
  - split; [done|]. by exists s0, g0, st0.
  - clear s0 g0 st0 Hs0. intros cur y [-> (s & g & st & Hsee & ->)].
    assert (Hg : word_is (word s) g st) by (by destruct Hsee as (? & ? & ? & ? & _ & _ & _ & _ & Hg & _)).
    destruct (word_is_parts _ _ _ Hg) as [Eg Est]. rewrite Est, Eg.
    destruct (Z.eqb_spec st from) as [->|Hne]; cbn [negb]; [|by apply (Hmiss s g st)].
    cbn [pbind cas_slot cas act lift wp]. intros m cgs Hk (sh & hw & HS & HO). unfold elem.
    destruct (slot_there m sh cgs hw idx HO Hidx) as (s1 & g1 & st1 & Hs1 & Hg1 & Hso1). rewrite Hs1.
    destruct (Z.eqb_spec (word s1) (word s)) as [E|E]; cbn [fst].
    + rewrite <- E in Hg. destruct (word_is_inj _ _ _ _ _ Hg Hg1) as [<- <-].
      destruct (Hhit m sh cgs hw s1 g HS HO Hk Hs1 Hg1 Hso1) as (x' & HI & HQ). exists x'. by split.
    + exists x. split.
      * rewrite (list_insert_id cgs k x), (list_insert_id (slots m)) by done. exists sh, hw. by destruct m.
      * split; [done|]. exists s1, g1, st1. split; [|done]. by exists m, sh, cgs, hw.
  - by intros cur y [-> _].
Qed.

(** ** The life of a slot *)

Lemma SlotOk_build m sh sh' cgs hw i g st k x x' g' st' :
  StackInv m ((fst <$> cgs) ++ [idle sh 0]) -> SlotOk sh cgs hw i g st -> cgs !! k = Some x ->
  (i ∉ sh' -> st' = SLOT_FREE /\ i < hw) -> (hw <= i -> i ∈ sh' /\ st' = SLOT_FREE) ->
  (forall g0, creating x'.2 = Some (i, g0) -> g0 = g' /\ i ∈ owned x'.1) ->
  (forall g0, sweeping x'.2 = Some (i, g0) -> g0 = g' /\ st' = SLOT_RECLAIMING) ->
  (g' = g \/ i ∈ sh) -> (st = SLOT_RECLAIMING -> exists g0, sweeping x.2 = Some (i, g0)) ->
  (forall p, p ∈ all_issued (<[k := x']> cgs) -> p.1 = i -> p.2 < g' \/ p.2 = g' /\ st' <> SLOT_FREE) ->
  SlotOk sh' (<[k := x']> cgs) hw i g' st'.
Proof.
  intros HS [H1 H2 H3 H4 H5 H6] Hk K1 K2 K3 K4 Kg Kst K6.
  assert (Hsw : forall j y g0, j <> k -> cgs !! j = Some y -> sweeping y.2 = Some (i, g0) -> False).
  { intros j y g0 Hne Hj E. destruct (H4 j y g0 Hj E) as [_ Est]. destruct (Kst Est) as [g1 E1].
    apply Hne. by apply (H5 j k y x g0 g1). }
  split; try done.
  - intros j y g0 Hj E. apply list_lookup_insert_Some in Hj as [(<- & <- & _)|(Hne & Hj)]; [auto|].
    destruct (H3 j y g0 Hj E) as [-> Hin]. split; [|done]. destruct Kg as [->|Hsh]; [done|].
    by destruct (owned_not_shared m cgs sh j y i HS Hj Hin).
  - intros j y g0 Hj E. apply list_lookup_insert_Some in Hj as [(<- & <- & _)|(Hne & Hj)]; [auto|].
    by destruct (Hsw j y g0).
  - intros j j' y y' g1 g2 Hj Hj' E1 E2.
    apply list_lookup_insert_Some in Hj as [(<- & <- & _)|(Hne & Hj)]; [|by destruct (Hsw j y g1)].
    apply list_lookup_insert_Some in Hj' as [(<- & <- & _)|(Hne' & Hj')]; [done|by destruct (Hsw j' y' g2)].
Qed.

Lemma word_is_set g st s : 1 <= g <= U32_MAX -> 0 <= st <= 3 -> word_is (word (set_word (pack_slot_word g st) s)) g st.
Proof. done. Qed.

Section life.
Context m sh cgs (hw : Z) (s : CatalogSlot) (g : Z) (k : nat) (o : list Z) (b : nat) (lo : local) (idx : Z).
Context (HS : StackInv m ((fst <$> cgs) ++ [idle sh 0])) (HO : CatOk m sh cgs hw) (Hk : cgs !! k = Some (idle o b, lo)).
Context (Hidx : 0 <= idx < c) (Hs : slots m !! Z.to_nat idx = Some s).

Lemma step_tombstone :
  word_is (word s) g SLOT_LIVE -> SlotOk sh cgs hw idx g SLOT_LIVE ->
  CatInv (upd m idx (set_word (pack_slot_word g SLOT_TOMBSTONE) s)) (<[k := (idle o b, lo)]> cgs).
Proof.
  intros (Ew & Hg & _) Hso. eapply (CatInv_slot m sh sh); try done; [by apply (ok_busy _ _ _ _ HO k)| |by left].
  assert (Hin : idx ∈ sh) by (destruct (decide (idx ∈ sh)) as [|Hn']; [done|by destruct (so_free _ _ _ _ _ _ Hso Hn')]).
  eapply SlotOk_build; try done.
  - intros H. by destruct (so_new _ _ _ _ _ _ Hso H).
  - intros g0 E. by apply (so_creating _ _ _ _ _ _ Hso k (idle o b, lo)).
  - intros g0 E. by destruct (so_sweeping _ _ _ _ _ _ Hso k (idle o b, lo) g0 Hk E).
  - by left.
  - intros p Hp Ep. rewrite list_insert_id in Hp by done. destruct (so_issued _ _ _ _ _ _ Hso p Hp Ep) as [?|[? _]]; [by left|by right].
Qed.

(** A slot that is not free is in nobody's hands. *)
Lemma not_free_shared st : SlotOk sh cgs hw idx g st -> st <> SLOT_FREE -> idx ∈ sh.
Proof. intros Hso Hne. destruct (decide (idx ∈ sh)) as [|Hn']; [done|]. by destruct (so_free _ _ _ _ _ _ Hso Hn'). Qed.

Definition with_sweeping (w : option (Z * Z)) : local := mkLocal (creating lo) w (over lo) (issued lo).
Definition with_creating (w : option (Z * Z)) : local := mkLocal w (sweeping lo) (over lo) (issued lo).

Lemma step_begin :
  sweeping lo = None -> word_is (word s) g SLOT_TOMBSTONE -> SlotOk sh cgs hw idx g SLOT_TOMBSTONE ->
  CatInv (upd m idx (set_word (pack_slot_word g SLOT_RECLAIMING) s)) (<[k := (idle o b, with_sweeping (Some (idx, g)))]> cgs).
Proof.
  intros Hnone (Ew & Hg & _) Hso. eapply (CatInv_slot m sh sh); try done; [| | |by left].
  - split; [exact (proj1 (ok_busy _ _ _ _ HO k _ Hk))|]. by intros i g' [= <- <-].
  - intros i Hne. split_and!; try done. by intros g0 [= <- <-].
  - pose proof (not_free_shared _ Hso ltac:(done)) as Hin. eapply SlotOk_build; try done.
    + intros H. by destruct (so_new _ _ _ _ _ _ Hso H).
    + intros g0 E. by apply (so_creating _ _ _ _ _ _ Hso k (idle o b, lo)).
    + by intros g0 [= <-].
    + by left.
    + intros p Hp Ep. rewrite (all_issued_update _ _ _ _ Hk) in Hp by done.
      destruct (so_issued _ _ _ _ _ _ Hso p Hp Ep) as [?|[? _]]; [by left|by right].
Qed.

Lemma step_abort :
  sweeping lo = Some (idx, g) -> word_is (word s) g SLOT_RECLAIMING -> SlotOk sh cgs hw idx g SLOT_RECLAIMING ->
  CatInv (upd m idx (set_word (pack_slot_word g SLOT_TOMBSTONE) s)) (<[k := (idle o b, with_sweeping None)]> cgs).
Proof.
  intros Hsw (Ew & Hg & _) Hso. eapply (CatInv_slot m sh sh); try done; [| |by left].
  - split; [exact (proj1 (ok_busy _ _ _ _ HO k _ Hk))|done].
  - pose proof (not_free_shared _ Hso ltac:(done)) as Hin. eapply SlotOk_build; try done.
    + intros H. by destruct (so_new _ _ _ _ _ _ Hso H).
    + intros g0 E. by apply (so_creating _ _ _ _ _ _ Hso k (idle o b, lo)).
    + by left.
    + intros _. by exists g.
    + intros p Hp Ep. rewrite (all_issued_update _ _ _ _ Hk) in Hp by done.
      destruct (so_issued _ _ _ _ _ _ Hso p Hp Ep) as [?|[? _]]; [by left|by right].
Qed.

Lemma step_finish :
  sweeping lo = Some (idx, g) -> creating lo = None -> g < U32_MAX -> word_is (word s) g SLOT_RECLAIMING ->
  SlotOk sh cgs hw idx g SLOT_RECLAIMING ->
  CatInv (upd m idx (set_word (pack_slot_word (g + 1) SLOT_FREE) s)) (<[k := (idle (idx :: o) b, with_sweeping None)]> cgs).
Proof.
  intros Hsw Hcr Hlt (Ew & Hg & _) Hso. pose proof (not_free_shared _ Hso ltac:(done)) as Hin.
  destruct (shared_take m _ sh idx HS Hin) as (sh' & Hp & Hni).
  eapply (CatInv_slot m sh sh'); try done; [| | | | |by left].
  - apply word_is_set; unfold SLOT_FREE; mach.
  - rewrite Hp. cbn. by apply Permutation_middle.
  - split; [cbn; by rewrite Hcr|done].
  - intros i Hne. split_and!; try done; [rewrite Hp; set_solver|]. cbn. by rewrite Hcr.
  - eapply SlotOk_build; try done.
    + intros _. split; [done|]. destruct (Z.lt_ge_cases idx hw) as [|H]; [done|]. by destruct (so_new _ _ _ _ _ _ Hso H).
    + intros H. by destruct (so_new _ _ _ _ _ _ Hso H).
    + cbn. by rewrite Hcr.
    + by right.
    + intros _. by exists g.
    + intros p Hp' Ep. rewrite (all_issued_update _ _ _ _ Hk) in Hp' by done.
      destruct (so_issued _ _ _ _ _ _ Hso p Hp' Ep) as [?|[? _]]; left; lia.
Qed.

(** A slot whose incarnations are used up stays with the sweep's state for ever. *)
Lemma step_retire : word_is (word s) g SLOT_RECLAIMING -> SlotOk sh cgs hw idx g SLOT_RECLAIMING -> sweeping lo = Some (idx, g) ->
  CatInv (upd m idx s) (<[k := (idle o b, with_sweeping None)]> cgs).
Proof.
  intros Hw Hso Hsw. eapply (CatInv_slot m sh sh); try done; [| |by left].
  - split; [exact (proj1 (ok_busy _ _ _ _ HO k _ Hk))|done].
  - pose proof (not_free_shared _ Hso ltac:(done)) as Hin. eapply SlotOk_build; try done.
    + apply Hso.
    + intros g0 E. by apply (so_creating _ _ _ _ _ _ Hso k (idle o b, lo)).
    + by left.
    + intros _. by exists g.
    + intros p Hp Ep. rewrite (all_issued_update _ _ _ _ Hk) in Hp by done. by apply Hso.
Qed.

Lemma owned_is_free st : idx ∈ o -> SlotOk sh cgs hw idx g st -> st = SLOT_FREE.
Proof. intros Hin Hso. apply Hso. by destruct (owned_not_shared m cgs sh k (idle o b, lo) idx HS Hk). Qed.

Lemma step_adopt : word_is (word s) g SLOT_FREE -> SlotOk sh cgs hw idx g SLOT_FREE -> idx ∈ o -> creating lo = None ->
  CatInv (upd m idx s) (<[k := (idle o b, with_creating (Some (idx, g)))]> cgs).
Proof.
  intros Hw Hso Hin Hcr. eapply (CatInv_slot m sh sh); try done; [| | |by left].
  - split; [by intros i g0 [= <- <-]|exact (proj2 (ok_busy _ _ _ _ HO k _ Hk))].
  - intros i Hne. split_and!; try done. by intros g0 [= <- <-].
  - eapply SlotOk_build; try done; try apply Hso.
    + by intros g0 [= <-].
    + intros g0 E. by apply (so_sweeping _ _ _ _ _ _ Hso k (idle o b, lo)).
    + by left.
    + intros p Hp Ep. rewrite (all_issued_update _ _ _ _ Hk) in Hp by done. by apply Hso.
Qed.

Lemma all_issued_snoc x' p : issued x'.2 = issued lo ++ [p] -> all_issued (<[k := x']> cgs) ≡ₚ p :: all_issued cgs.
Proof.
  clear -Hk. revert k Hk. unfold all_issued. induction cgs as [|y l IH]; intros [|k0] Hk0 E; csimpl in *; simplify_eq.
  - rewrite E, <- app_assoc. cbn. symmetry. apply Permutation_middle.
  - rewrite (IH k0) by done. by rewrite Permutation_middle.
Qed.

Lemma step_publish o' :
  o = idx :: o' -> creating lo = Some (idx, g) -> word_is (word s) g SLOT_FREE -> SlotOk sh cgs hw idx g SLOT_FREE ->
  CatInv (upd m idx (set_word (pack_slot_word g SLOT_LIVE) s))
    (<[k := (idle o' b, mkLocal None (sweeping lo) (over lo) (issued lo ++ [(idx, g)]))]> cgs).
Proof.
  intros Ho Hcr (Ew & Hg & _) Hso. destruct (owned_not_shared m cgs sh k _ idx HS Hk) as [Hni _]; [cbn; rewrite Ho; apply list_elem_of_here|].
  assert (Hnew : (idx, g) ∉ all_issued cgs).
  { intros H. destruct (so_issued _ _ _ _ _ _ Hso _ H eq_refl) as [?|[_ ?]]; [cbn in *; lia|done]. }
  eapply (CatInv_slot m sh (idx :: sh)); try done.
  - rewrite Ho. cbn. by rewrite <- Permutation_middle.
  - split; [done|]. exact (proj2 (ok_busy _ _ _ _ HO k _ Hk)).
  - intros i Hne. split_and!; try done; [set_solver|]. cbn. intros p [?|Hp%list_elem_of_singleton]%elem_of_app; [done|]. subst p. cbn. congruence.
  - eapply SlotOk_build; try done.
    + intros H. destruct H. apply list_elem_of_here.
    + intros H. destruct (so_free _ _ _ _ _ _ Hso Hni). lia.
    + intros g0 E. by destruct (so_sweeping _ _ _ _ _ _ Hso k _ g0 Hk E).
    + by left.
    + intros p Hp Ep. erewrite all_issued_snoc in Hp by done. apply elem_of_cons in Hp as [->|Hp]; [by right|].
      destruct (so_issued _ _ _ _ _ _ Hso p Hp Ep) as [?|[? _]]; [by left|by right].
  - right. split.
    + cbn. intros p [Hp|Hp%list_elem_of_singleton]%elem_of_app; [|by subst p]. apply (ok_range _ _ _ _ HO). by eapply all_issued_elem.
    + erewrite all_issued_snoc by done. apply list.NoDup_cons. split; [done|]. apply HO.
Qed.
End life.

(** ** The high-water mark *)

Definition with_over (lo : local) (v : bool) : local := mkLocal (creating lo) (sweeping lo) v (issued lo).

Lemma overs_with cgs k g lo v : cgs !! k = Some (g, lo) ->
  (overs (<[k := (g, with_over lo v)]> cgs) + (if over lo then 1 else 0) = overs cgs + (if v then 1 else 0))%nat.
Proof. intros Hk. apply (sum_list_with_insert (fun x => if over x.2 then 1 else 0)%nat cgs k _ (g, with_over lo v) Hk). Qed.

Lemma overs_le cgs : (overs cgs <= length cgs)%nat.
Proof. unfold overs. induction cgs as [|x l IH]; cbn; [lia|]. case_match; lia. Qed.

(** Moving the mark while noting who overran it. *)
Lemma CatOk_over m m' sh cgs hw k o b lo v :
  CatOk m sh cgs hw -> cgs !! k = Some (idle o b, lo) -> slots m' = slots m ->
  next_slot m' = hw + Z.of_nat (overs (<[k := (idle o b, with_over lo v)]> cgs)) ->
  ((0 < overs (<[k := (idle o b, with_over lo v)]> cgs))%nat -> hw = c) ->
  CatOk m' sh (<[k := (idle o b, with_over lo v)]> cgs) hw.
Proof.
  intros HO Hk Es En Hov. split.
  - split_and!; try done; apply HO.
  - rewrite length_insert. apply HO.
  - intros i Hi. destruct (ok_slots _ _ _ _ HO i Hi) as (g & st & (s & Hs & Hg) & Hso). exists g, st. split; [exists s; by rewrite Es|].
    by apply (SlotOk_unmoved sh sh cgs hw i g st k (idle o b, lo)).
  - rewrite (all_issued_update _ _ _ _ Hk) by done. apply HO.
  - rewrite (all_issued_update _ _ _ _ Hk) by done. apply HO.
  - intros j y Hj. apply list_lookup_insert_Some in Hj as [(<- & <- & _)|(_ & Hj)]; [|by apply (ok_busy _ _ _ _ HO j)].
    exact (ok_busy _ _ _ _ HO k _ Hk).
Qed.

Lemma StackInv_next_slot m v gs : StackInv m gs -> StackInv (set_next_slot v m) gs.
Proof. intros HS. apply (StackInv_view m); try done. by destruct HS as (? & ? & ? & ? & _). Qed.

(** The mark moves over a slot nobody has had yet. *)
Lemma CatInv_append m sh cgs hw k o b lo :
  StackInv m ((fst <$> cgs) ++ [idle sh 0]) -> CatOk m sh cgs hw -> cgs !! k = Some (idle o b, lo) -> creating lo = None ->
  overs cgs = 0%nat -> hw < c ->
  CatInv (set_next_slot (hw + 1) m) (<[k := (idle (hw :: o) b, lo)]> cgs).
Proof.
  intros HS HO Hk Hcr Hov Hlt. destruct (ok_hw _ _ _ _ HO) as (Hhw & _ & _).
  assert (Hin : hw ∈ sh).
  { destruct (ok_slots _ _ _ _ HO hw) as (g & st & _ & Hso); [lia|]. by destruct (so_new _ _ _ _ _ _ Hso (Z.le_refl _)). }
  destruct (shared_take m _ sh hw HS Hin) as (sh' & Hp & Hni). exists sh', (hw + 1). split.
  - apply StackInv_next_slot. rewrite list_fmap_insert. cbn [fst]. apply (StackInv_move m _ sh sh' k o); [done| |].
    + by rewrite list_lookup_fmap, Hk.
    + rewrite Hp. cbn. by apply Permutation_middle.
  - split.
    + rewrite (overs_update _ _ _ _ Hk), Hov by done. cbn. split_and!; lia.
    + rewrite length_insert. apply HO.
    + intros i Hi. destruct (ok_slots _ _ _ _ HO i Hi) as (g & st & Hw & Hso). exists g, st. split; [done|].
      assert (Hsh : i <> hw -> (i ∈ sh <-> i ∈ sh')) by (intros; rewrite Hp; set_solver).
      destruct (SlotOk_unmoved sh sh cgs hw i g st k (idle o b, lo) (idle (hw :: o) b, lo)) as [H1 H2 H3 H4 H5 H6]; [done| |done|].
      { split_and!; try done. cbn. by rewrite Hcr. }
      split; try done.
      * intros Hn'. destruct (decide (i = hw)) as [->|Hne]; [|rewrite <- Hsh in Hn' by done; destruct (H1 Hn'); split; [done|lia]].
        destruct (H2 (Z.le_refl _)). split; [done|lia].
      * intros Hle. destruct (H2 ltac:(lia)) as [? ?]. split; [|done]. apply Hsh; [lia|done].
    + rewrite (all_issued_update _ _ _ _ Hk) by done. apply HO.
    + rewrite (all_issued_update _ _ _ _ Hk) by done. apply HO.
    + intros j y Hj. apply list_lookup_insert_Some in Hj as [(<- & <- & _)|(_ & Hj)]; [|by apply (ok_busy _ _ _ _ HO j)].
      exact (ok_busy _ _ _ _ HO k _ Hk).
Qed.

Lemma wp_bump_up k o b lo (Q : Z -> cat_ghost -> Prop) :
  over lo = false -> creating lo = None ->
  (forall idx, 0 <= idx < c -> Q idx (idle (idx :: o) b, lo)) ->
  (forall idx, c <= idx -> Q idx (idle o b, with_over lo true)) ->
  wp CatInv (bump 1) k (idle o b, lo) Q.
Proof.
  intros Hov Hcr Hin Hout. cbn. intros m cgs Hk (sh & hw & HS & HO). destruct (ok_hw _ _ _ _ HO) as (Hhw & En & Hfull).
  pose proof (overs_with cgs k _ lo true Hk) as Ho. rewrite Hov in Ho.
  pose proof (overs_le (<[k := (idle o b, with_over lo true)]> cgs)) as Hle. rewrite length_insert in Hle.
  pose proof (ok_few _ _ _ _ HO). rewrite wrap32_id by mach. destruct (Z.lt_ge_cases (next_slot m) c) as [Hlt|Hge].
  - assert (Ho0 : overs cgs = 0%nat) by (destruct (overs cgs); [done|lia]). rewrite Ho0, Z.add_0_r in En.
    exists (idle (next_slot m :: o) b, lo). split; [|apply Hin; lia]. rewrite En. by apply (CatInv_append m sh); [..|lia].
  - exists (idle o b, with_over lo true). split; [|by apply Hout]. exists sh, hw. split.
    + apply StackInv_next_slot. rewrite list_fmap_insert. cbn [fst]. by rewrite list_insert_id by (by rewrite list_lookup_fmap, Hk).
    + apply (CatOk_over m); try done; cbn; lia.
Qed.

Lemma wp_bump_down k o b lo (Q : Z -> cat_ghost -> Prop) :
  over lo = true -> (forall z, Q z (idle o b, with_over lo false)) -> wp CatInv (bump (-1)) k (idle o b, lo) Q.
Proof.
  intros Hov HQ. cbn. intros m cgs Hk (sh & hw & HS & HO). destruct (ok_hw _ _ _ _ HO) as (Hhw & En & Hfull).
  pose proof (overs_with cgs k _ lo false Hk) as Ho. rewrite Hov in Ho. pose proof (overs_le cgs). pose proof (ok_few _ _ _ _ HO).
  rewrite wrap32_id by mach. exists (idle o b, with_over lo false). split; [|done]. exists sh, hw. split.
  - apply StackInv_next_slot. rewrite list_fmap_insert. cbn [fst]. by rewrite list_insert_id by (by rewrite list_lookup_fmap, Hk).
  - apply (CatOk_over m); try done; cbn; lia.
Qed.

Lemma wp_alloc_slot fuel k o b lo :
  over lo = false -> creating lo = None ->
  wp CatInv (alloc_slot fuel c) k (idle o (S b), lo) (fun r x =>
    match r with
    | Some (Ok idx) => 0 <= idx < c /\ exists b', (b <= b')%nat /\ x = (idle (idx :: o) b', lo)
    | _ => x = (idle o (S b), lo)
    end).
Proof.
  intros Hov Hcr. apply wp_fbind. eapply wp_mono; [|by apply wp_pop_free].
  intros [[j|]|] x; [intros [-> ?]|intros ->|by intros ->].
  - split; [done|]. by exists b.
  - apply wp_bind. apply wp_bump_up; [done|done| |].
    + intros idx Hidx. rewrite (proj2 (Z.leb_gt c idx)) by lia. split; [done|]. exists (S b). split; [lia|done].
    + intros idx Hidx. rewrite (proj2 (Z.leb_le c idx)) by lia. apply wp_bind, wp_bump_down; [done|]. intros _. destruct lo. cbn in *. by subst.
Qed.

(** ** The operations *)

Lemma wp_cat_load {X} {R : Set} (get : CatMem -> R) (q : R -> prog CatMem X) k x Q :
  (forall r, wp CatInv (q r) k x Q) -> wp CatInv (y <- load get ;; q y) k x Q.
Proof. intros H. cbn. intros m cgs Hk HI. exists x. by rewrite list_insert_id. Qed.

(** A creator reads the incarnation of the slot it was given. *)
Lemma wp_adopt idx k o b lo (Q : Z -> cat_ghost -> Prop) :
  0 <= idx < c -> idx ∈ o -> creating lo = None ->
  (forall g, Q g (idle o b, with_creating lo (Some (idx, g)))) ->
  wp CatInv (slot idx gen) k (idle o b, lo) Q.
Proof.
  intros Hidx Hin Hcr HQ. cbn. intros m cgs Hk (sh & hw & HS & HO).
  destruct (slot_there m sh cgs hw idx HO Hidx) as (s & g & st & Hs & Hg & Hso). unfold elem. rewrite Hs.
  assert (st = SLOT_FREE) as -> by by apply (owned_is_free m sh cgs hw g k o b lo idx).
  exists (idle o b, with_creating lo (Some (idx, g))). split; [by eapply step_adopt|].
  destruct (word_is_parts _ _ _ Hg) as [-> _]. done.
Qed.

Lemma wp_publish_slot fuel idx key kd k o b lo g :
  0 <= idx < c -> creating lo = Some (idx, g) ->
  wp CatInv (publish_slot fuel idx key kd) k (idle (idx :: o) b, lo) (fun r x =>
    match r with
    | Some _ => x = (idle o b, mkLocal None (sweeping lo) (over lo) (issued lo ++ [(idx, g)]))
    | None => x = (idle (idx :: o) b, lo)
    end).
Proof.
  intros Hidx Hcr. unfold publish_slot, artifact_id_for, head_off_for. apply wp_bind, wp_cat_load. intros base. cbn [wp].
  apply wp_bind, wp_cat_load. intros stride. cbn [wp]. apply wp_bind.
  do 4 (apply wp_cat_store; [done|done|]). cbn [slot lift wp].
  apply wp_fbind. apply wp_cas_state; [done| | |done].
  - intros m sh cgs hw s g' HS HO Hk Hs Hw Hso. destruct (so_creating _ _ _ _ _ _ Hso k _ g Hk Hcr) as [<- _].
    eexists. split; [by eapply step_publish|]. done.
  - intros s g' st (m & sh & cgs & hw & HS & HO & Hk & Hs & Hw & Hso) Hne. destruct Hne.
    eapply (owned_is_free m sh); [exact HS|exact Hk|apply list_elem_of_here|exact Hso].
Qed.

Lemma wp_tombstone fuel idx k o b lo : 0 <= idx < c ->
  wp CatInv (slot idx (tombstone fuel)) k (idle o b, lo) (fun _ x => x = (idle o b, lo)).
Proof.
  intros Hidx. apply wp_cas_state; try done. intros m sh cgs hw s g HS HO Hk Hs Hw Hso. eexists. split; [by eapply step_tombstone|done].
Qed.

Lemma wp_tombstone_gen idx g k o b lo : 0 <= idx < c -> is_u32 g ->
  wp CatInv (slot idx (tombstone_gen g)) k (idle o b, lo) (fun _ x => x = (idle o b, lo)).
Proof.
  intros Hidx Hg. cbn. intros m cgs Hk (sh & hw & HS & HO).
  destruct (slot_there m sh cgs hw idx HO Hidx) as (s & g' & st & Hs & Hw & Hso). unfold elem. rewrite Hs.
  destruct (Z.eqb_spec (word s) (pack_slot_word g SLOT_LIVE)) as [E|E].
  - destruct (word_is_u32 _ _ _ Hw) as [Hg' Hst]. pose proof Hw as (Ew & _). rewrite E in Ew.
    apply pack_slot_word_inj in Ew as [<- <-]; [|done|by unfold SLOT_LIVE; mach|done|done].
    eexists. split; [by eapply step_tombstone|done].
  - exists (idle o b, lo). split; [|done]. rewrite (list_insert_id cgs k), (list_insert_id (slots m)) by done.
    exists sh, hw. by destruct m.
Qed.

Lemma wp_whole {X} (p : prog CatMem X) k x Q : wp CatInv p k x Q -> wp CatInv (lift whole p) k x Q.
Proof.
  revert x. induction p as [a|R f q IH]; intros x H; cbn in *; [done|]. intros m cgs Hk HI. specialize (H m cgs Hk HI).
  unfold whole, field. destruct (f m) as [[r m']|]; [|done]. destruct H as (x' & HI' & H'). eauto.
Qed.

(** The word of a slot one is sweeping stays as the sweep left it. *)
Lemma sees_sweeping k x idx s g g' st :
  sees k x idx s g' st -> sweeping x.2 = Some (idx, g) -> word_is (word s) g SLOT_RECLAIMING.
Proof.
  intros (m & sh & cgs & hw & _ & _ & Hk & _ & Hw & Hso) Hsw. by destruct (so_sweeping _ _ _ _ _ _ Hso k x g Hk Hsw) as [-> ->].
Qed.

(** An action on the slot one is sweeping. *)
Lemma wp_sweeping {X} {R : Set} (f : CatalogSlot -> option (R * CatalogSlot)) (q : R -> prog CatalogSlot X) idx g k o b lo Q :
  0 <= idx < c -> sweeping lo = Some (idx, g) ->
  (forall m sh cgs hw s, StackInv m ((fst <$> cgs) ++ [idle sh 0]) -> CatOk m sh cgs hw -> cgs !! k = Some (idle o b, lo) ->
    slots m !! Z.to_nat idx = Some s -> word_is (word s) g SLOT_RECLAIMING -> SlotOk sh cgs hw idx g SLOT_RECLAIMING ->
    exists r s' x', f s = Some (r, s') /\ CatInv (upd m idx s') (<[k := x']> cgs) /\ wp CatInv (slot idx (q r)) k x' Q) ->
  wp CatInv (slot idx (Atomic f q)) k (idle o b, lo) Q.
Proof.
  intros Hidx Hsw H. cbn [slot lift wp]. intros m cgs Hk (sh & hw & HS & HO).
  destruct (slot_there m sh cgs hw idx HO Hidx) as (s & g' & st & Hs & Hw & Hso). unfold elem. rewrite Hs.
  destruct (so_sweeping _ _ _ _ _ _ Hso k _ g Hk Hsw) as [<- ->].
  destruct (H m sh cgs hw s HS HO Hk Hs Hw Hso) as (r & s' & x' & E & HI & Hwp). rewrite E. exists x'. by split.
Qed.

Lemma wp_abort idx g k o b lo (Q : unit -> cat_ghost -> Prop) :
  0 <= idx < c -> sweeping lo = Some (idx, g) -> Q tt (idle o b, with_sweeping lo None) ->
  wp CatInv (slot idx abort_reclaim) k (idle o b, lo) Q.
Proof.
  intros Hidx Hsw HQ. unfold abort_reclaim. cbn [pbind load act].
  apply wp_slot_plain; [done|by intros ?; eexists _, _|]. intros s g' st r s' Hsee [= <- <-].
  destruct (word_is_parts _ _ _ (sees_sweeping _ _ _ _ g _ _ Hsee Hsw)) as [-> _].
  eapply wp_sweeping; [done|done|]. intros m sh cgs hw s1 HS HO Hk Hs Hw Hso. eexists _, _, _. split; [done|].
  split; [by eapply step_abort|done].
Qed.

Lemma wp_finish idx g k o b lo (Q : option Z -> cat_ghost -> Prop) :
  0 <= idx < c -> sweeping lo = Some (idx, g) -> creating lo = None ->
  Q None (idle o b, with_sweeping lo None) ->
  (forall g', Q (Some g') (idle (idx :: o) b, with_sweeping lo None)) ->
  wp CatInv (slot idx finish_reclaim) k (idle o b, lo) Q.
Proof.
  intros Hidx Hsw Hcr HQ1 HQ2. unfold finish_reclaim. cbn [pbind load act].
  eapply wp_sweeping; [done|done|]. intros m sh cgs hw s HS HO Hk Hs Hw Hso.
  destruct (word_is_parts _ _ _ Hw) as [Eg _]. pose proof Hw as (_ & Hg & _).
  destruct (Z.eqb_spec g U32_MAX) as [Emax|Hne].
  - exists (word s), s, (idle o b, with_sweeping lo None). split; [done|]. split; [by eapply step_retire|].
    rewrite Eg, Emax, Z.eqb_refl. done.
  - exists (word s), s, (idle o b, lo). split; [done|]. split.
    { rewrite (list_insert_id cgs k) by done. exists sh, hw. unfold upd. rewrite (list_insert_id (slots m)) by done. by destruct m. }
    rewrite Eg. rewrite (proj2 (Z.eqb_neq g U32_MAX)) by done.
    apply wp_cat_store; [done|done|]. cbn [pbind store act].
    eapply wp_sweeping; [done|done|]. clear m sh cgs hw s HS HO Hk Hs Hw Hso Eg. intros m sh cgs hw s HS HO Hk Hs Hw Hso.
    eexists _, _, _. split; [done|]. split; [eapply step_finish; try done; lia|]. apply HQ2.
Qed.

Lemma with_sweeping_back lo w : sweeping lo = None -> with_sweeping (with_sweeping lo w) None = lo.
Proof. destruct lo. cbn. by intros ->. Qed.

Lemma wp_cat_reclaim fuel idx (q : bool) k o b lo :
  0 <= idx < c -> creating lo = None -> sweeping lo = None ->
  wp CatInv (try_reclaim fuel whole (fun _ _ => done q) idx) k (idle o (S b), lo) (fun _ x =>
    exists o' b', (b <= b')%nat /\ x.1 = idle o' b' /\ x.2 = lo).
Proof.
  intros Hidx Hcr Hsw.
  assert (Hsame : exists o' b', (b <= b')%nat /\ idle o (S b) = idle o' b' /\ lo = lo) by (exists o, (S b); split; [lia|done]).
  unfold try_reclaim, on_cat. apply wp_fbind, wp_whole, wp_cas_state; [done| |done|done].
  intros m sh cgs hw s g HS HO Hk Hs Hw Hso. eexists. split; [by eapply step_begin|]. clear m sh cgs hw s HS HO Hk Hs Hw Hso.
  set (lo' := with_sweeping lo (Some (idx, g))). cbn [negb].
  apply wp_bind, wp_whole, wp_slot_plain; [done|by intros ?; eexists _, _|]. intros _ _ _ aid _ _ _. cbn [slot lift wp].
  apply wp_bind, wp_whole, wp_slot_plain; [done|by intros ?; eexists _, _|]. intros _ _ _ off _ _ _. cbn [slot lift wp].
  apply wp_fbind. cbn [wp done]. destruct q; cbn [negb].
  - apply wp_bind, wp_whole, (wp_finish idx g); [done|done|done| |].
    + cbn [wp done]. exists o, (S b). unfold lo'. rewrite with_sweeping_back by done. split; [lia|done].
    + intros g'. unfold lo'. rewrite with_sweeping_back by done. apply wp_fbind, wp_whole. eapply wp_mono; [|by apply wp_push_free].
      intros [[]|] x ->; [by exists o, b|]. exists (idx :: o), (S b). split; [lia|done].
  - apply wp_bind, wp_whole, (wp_abort idx g); [done|done|]. unfold lo'. rewrite with_sweeping_back by done. done.
Qed.

Lemma wp_cat_client fuel cs k o b log :
  Forall (cat_cmd_ok c) cs -> (length cs <= b)%nat ->
  wp CatInv (cat_client fuel c cs log) k (idle o b, mkLocal None None false log) (fun log' x => issued x.2 = log').
Proof.
  intros Hcs. revert o b log. induction Hcs as [|cmd cs Hcmd Hcs IH]; intros o b log Hb; [done|]. cbn in Hb.
  destruct b as [|b]; [lia|]. cbn [cat_client]. destruct cmd as [key kd|idx g|idx|idx q].
  - apply wp_bind. eapply wp_mono; [|by apply wp_alloc_slot]. intros [[idx|e]|] x; [|intros ->; apply IH; lia|intros ->; apply IH; lia].
    intros (Hidx & b' & Hb' & ->). apply wp_bind, wp_adopt; [done|apply list_elem_of_here|done|]. intros g.
    apply wp_bind. eapply wp_mono; [|by apply (wp_publish_slot fuel idx key kd k o b' _ g)].
    intros [[aid off]|] x ->; [|done]. apply IH. lia.
  - destruct Hcmd as [Hidx Hg]. apply wp_bind. eapply wp_mono; [|by apply wp_tombstone_gen]. intros r x ->. apply IH. lia.
  - apply wp_bind. eapply wp_mono; [|by apply wp_tombstone]. intros r x ->. apply IH. lia.
  - apply wp_bind. eapply wp_mono; [|by apply wp_cat_reclaim]. intros r [x1 x2] (o' & b' & Hb' & E1 & E2). cbn in E1, E2. subst.
    apply IH. lia.
Qed.
End conc.

(** ** The theorem *)

Lemma finished_issued (tp : list (prog CatMem (list (Z * Z)))) cgs :
  length tp = length cgs ->
  (forall i log x, tp !! i = Some (Ret log) -> cgs !! i = Some x -> issued x.2 = log) ->
  concat (finished tp) ⊆+ all_issued cgs.
Proof.
  unfold all_issued. revert cgs. induction tp as [|p tp IH]; intros [|x cgs] Hlen H; csimpl in *; try done.
  assert (IH' : concat (finished tp) ⊆+ concat (issued ∘ snd <$> cgs)).
  { apply IH; [lia|]. intros i log y Hi Hy. by apply (H (S i)). }
  destruct p as [log|R f k]; cbn [finished omap list_omap].
  - cbn [concat]. rewrite (H 0%nat log x eq_refl eq_refl). by apply submseteq_skips_l.
  - etrans; [exact IH'|]. by apply submseteq_inserts_l.
Qed.

Section start.
Context (c : Z) (scripts : list (list cat_cmd)) (Hc : 0 <= c).

Definition cat_start : list cat_ghost := (fun cs : list cat_cmd => (idle [] (length cs), mkLocal None None false [])) <$> scripts.
Definition cat_swaps : nat := sum_list_with length scripts.

Lemma cat_start_lookup j x : cat_start !! j = Some x -> exists b, x = (idle [] b, mkLocal None None false []).
Proof. unfold cat_start. rewrite list_lookup_fmap. destruct (scripts !! j); [|done]. cbn. intros [= <-]. by eexists. Qed.

Lemma cat_start_issued : all_issued cat_start = [].
Proof. unfold all_issued, cat_start. clear. induction scripts; [done|]. by csimpl. Qed.

Lemma cat_start_overs : overs cat_start = 0%nat.
Proof. unfold overs, cat_start. clear. induction scripts; [done|]. by csimpl. Qed.

Lemma CatInv_start payload stride base m0 :
  init payload c stride base = Ok (c, m0) -> c + Z.of_nat (length scripts) < U32_MOD ->
  CatInv c (length scripts) cat_swaps m0 cat_start.
Proof.
  unfold init. case_match; [done|]. intros [= <-] Hn. exists (seqZ 0 c), 0. split.
  - exists [], 0%nat, EMPTY. split_and!; try done.
    + unfold cat_ok. cbn. rewrite length_replicate. lia.
    + unfold all_owned. rewrite fmap_app, concat_app. cbn. rewrite app_nil_r.
      assert (E : concat (owned <$> (fst <$> cat_start)) = []); [|by rewrite E].
      unfold cat_start. clear. induction scripts; [done|]. by csimpl.
    + unfold total_budget, cat_swaps, cat_start. rewrite sum_list_with_app. cbn. clear. induction scripts; cbn in *; lia.
    + intros j g Hj. apply lookup_app_Some in Hj as [Hj|[_ Hj]].
      * rewrite list_lookup_fmap in Hj. destruct (cat_start !! j) as [x|] eqn:E; [|done].
        apply cat_start_lookup in E as [b ->]. by simplify_eq/=.
      * by apply list_lookup_singleton_Some in Hj as [_ <-].
  - split.
    + rewrite cat_start_overs. cbn. split_and!; lia.
    + unfold cat_start. by rewrite length_fmap.
    + intros i Hi. exists FIRST_GEN, SLOT_FREE. split.
      * eexists. split; [cbn; apply lookup_replicate_2; lia|]. by unfold word_is, FIRST_GEN, SLOT_FREE; cbn; split_and!; mach || done.
      * split.
        -- intros Hout. destruct Hout. apply elem_of_seqZ. lia.
        -- intros _. split; [|done]. apply elem_of_seqZ. lia.
        -- by intros j x g' [b ->]%cat_start_lookup.
        -- by intros j x g' [b ->]%cat_start_lookup.
        -- by intros j k x y g1 g2 [b ->]%cat_start_lookup.
        -- rewrite cat_start_issued. by intros p Hp%elem_of_nil.
    + rewrite cat_start_issued. by intros p Hp%elem_of_nil.
    + rewrite cat_start_issued. constructor.
    + by intros j x [b ->]%cat_start_lookup.
Qed.
End start.

(** C36. An entry's name is never reused.  Creators, evictors and sweeps run on one catalog
    in any interleaving, from a fresh catalog, for fewer than 2^32 commands.  No access is out
    of bounds; no two creations, of one thread or of different threads, ever get the same pair
    of index and incarnation; a pair that was handed out either still names the occupant of
    its slot or the slot has moved on to a later incarnation for good, so an evictor or a
    reader holding the pair cannot hit a later occupant; and the free list holds free slots
    only, without repetition. *)
Theorem catalog_incarnations_unique payload c stride base m0 fuel scripts tp m :
  init payload c stride base = Ok (c, m0) -> 0 <= c -> Forall (Forall (cat_cmd_ok c)) scripts ->
  c + Z.of_nat (length scripts) < U32_MOD -> Z.of_nat (sum_list_with length scripts) < U32_MOD ->
  pool_reach ((fun cs => cat_client fuel c cs []) <$> scripts, m0) (tp, m) ->
  ~ pool_stuck (tp, m) /\
  NoDup (concat (finished tp)) /\
  (forall idx g, (idx, g) ∈ concat (finished tp) -> exists s, at_index (slots m) idx = Some s /\
    (g < slot_word_gen (word s) \/ g = slot_word_gen (word s) /\ slot_word_state (word s) <> SLOT_FREE)) /\
  exists l, holds free_stack m l /\
    forall i, i ∈ l -> exists s, at_index (slots m) i = Some s /\ slot_word_state (word s) = SLOT_FREE.
Proof.
  intros Hinit Hc Hcs Hn HB Hreach.
  destruct (pool_ok_reach (CatInv c (length scripts) (cat_swaps scripts)) (fun log x => issued x.2 = log) _ _ _ _ (cat_start scripts) Hreach)
    as (cgs & Hok & HI).
  { split; [unfold cat_start; by rewrite !length_fmap|]. intros i p x Hp Hx. unfold cat_start in Hx.
    rewrite list_lookup_fmap in Hp; rewrite list_lookup_fmap in Hx. destruct (scripts !! i) as [cs|] eqn:E; [|done]. simplify_eq/=.
    eapply wp_cat_client; try done. by eapply (list.Forall_lookup_1 _ _ _ _ Hcs). }
  { by eapply CatInv_start. }
  split; [by eapply pool_ok_not_stuck|]. destruct Hok as [Hlen Hall].
  assert (Hsub : concat (finished tp) ⊆+ all_issued cgs) by (apply finished_issued; [done|]; intros i log x Hi Hx; exact (Hall i _ x Hi Hx)).
  destruct HI as (sh & hw & HS & HO). split_and!.
  - destruct (submseteq_Permutation _ _ Hsub) as [rest Hrest]. pose proof (ok_once _ _ _ _ _ _ HO) as Hnd.
    rewrite Hrest in Hnd. by apply list.NoDup_app in Hnd as (? & _).
  - intros idx g Hin. assert (Hin' : (idx, g) ∈ all_issued cgs) by (by eapply elem_of_submseteq).
    destruct (slot_there c _ m sh cgs hw idx HO) as (s & g' & st & Hs & Hw & Hso); [by apply (ok_range _ _ _ _ _ _ HO (idx, g))|].
    exists s. destruct (word_is_parts _ _ _ Hw) as [-> ->]. split.
    + unfold at_index. rewrite (proj2 (Z.leb_le 0 idx)); [done|]. by apply (ok_range _ _ _ _ _ _ HO (idx, g)).
    + by apply (so_issued _ _ _ _ _ _ Hso (idx, g)).
  - destruct HS as (l & T & h & HI). pose proof HI as (Hokm & Eh & Hch & Hp & _).
    pose proof (InvAt_nodup _ _ _ (NoDup_seqZ 0 c) _ _ _ _ _ HI) as Hnd. exists l. split.
    + split; [by apply list.NoDup_app in Hnd as (? & _)|]. exists (tag_at 0 T), h.
      split_and!; [apply tag_u32| |done|done]. by eapply chain_head_u32.
    + intros i Hi. assert (Hic : i ∈ nodes_c c) by (rewrite <- Hp; set_solver). apply elem_of_seqZ in Hic.
      destruct (slot_there c _ m sh cgs hw i HO ltac:(lia)) as (s & g' & st & Hs & Hw & Hso). exists s. split.
      * unfold at_index. by rewrite (proj2 (Z.leb_le 0 i)) by lia.
      * destruct (word_is_parts _ _ _ Hw) as [_ ->]. apply (so_free _ _ _ _ _ _ Hso). intros Hsh.
        apply list.NoDup_app in Hnd as (_ & Hd & _). apply (Hd i Hi). unfold all_owned. rewrite fmap_app, concat_app. cbn.
        rewrite app_nil_r. set_solver.
Qed.

(** Two creations at once; then the first entry is evicted, swept and its slot reused. *)
Definition reuse_mem : CatMem :=
  match init (required_bytes 2) 2 2048 100 with Ok (_, m) => m | Err _ => mkCatMem 0 0 0 0 0 0 [] end.
Definition reuse_scripts : list (list cat_cmd) :=
  [[CCreate 7 KArtifact]; [CEvict 0 1; CSweep 0 true; CCreate 8 KDataset]; [CCreate 9 KResult]].
Definition reuse_schedule : list nat := concat (replicate 11 [0; 2]%nat) ++ replicate 23 1%nat.

Lemma catalog_incarnations_unique_witness : exists m,
  pool_run reuse_schedule ((fun cs => cat_client 2 2 cs []) <$> reuse_scripts, reuse_mem)
    = Some (Ret <$> [[(0, 1)]; [(0, 2)]; [(1, 1)]], m) /\
  NoDup [(0, 1); (0, 2); (1, 1)] /\
  exists s, at_index (slots m) 0 = Some s /\
    (1 < slot_word_gen (word s) \/ 1 = slot_word_gen (word s) /\ slot_word_state (word s) <> SLOT_FREE).
Proof.
  eexists. split; [vm_compute; reflexivity|].
  eassert (Hrun : pool_run reuse_schedule ((fun cs => cat_client 2 2 cs []) <$> reuse_scripts, reuse_mem)
    = Some (Ret <$> [[(0, 1)]; [(0, 2)]; [(1, 1)]], _)) by (vm_compute; reflexivity).
  edestruct (catalog_incarnations_unique (required_bytes 2) 2 2048 100 reuse_mem 2 reuse_scripts)
    as (_ & Hnd & Hin & _); [reflexivity|lia| |vm_compute; reflexivity|vm_compute; reflexivity|exact (pool_run_reach _ _ _ Hrun)|].
  - repeat constructor; cbn; mach.
  - split; [exact Hnd|]. apply (Hin 0 1). exact (list_elem_of_here _ _).
Defined.
