(* ===== verification/Arrow.v ===== *)
(** * Arrow batches over chunks

    [src/crates/shm-arrow/src]: the schema registry ([schema.rs]), the on-chunk layout of a
    record batch ([layout.rs]), the writer that flattens, packs and copies a batch into
    chunks of a pool ([write.rs], [alloc.rs]) and the reader that checks the layout and
    rebuilds the batch over the mapped bytes ([read.rs]).

    The Arrow libraries themselves are third-party code: their types' unexamined parts and
    the functions the crate calls are fields of the classes [ArrowTypes] and [ArrowLib]. *)

From S2P Require Import Prelude Atomic ChunkDesc ChunkCtrl Pod Treiber Pool PoolInv SegBytes PoolClient PoolDraw.

(** ** Arrow's data model *)

(** What the crate never looks into: the flat types, a field's name, nullability and
    metadata, a schema's metadata, Arrow's own errors. *)
Class ArrowTypes := {
  flat_type : Set;
  field_info : Set;
  schema_meta : Set;
  arrow_error : Set
}.

Set Warnings "-register-all".

Section data.
Context `{ArrowTypes}.

Inductive DataType : Set :=
| Flat (t : flat_type)
| Struct (fields : list (field_info * DataType))
| DList (item : field_info * DataType)
| LargeList (item : field_info * DataType)
| FixedSizeList (item : field_info * DataType) (n : Z)
| Dictionary (key value : DataType)
| Union (fields : list (Z * (field_info * DataType))) (sparse : bool)
| Map (entries : field_info * DataType) (sorted : bool)
| RunEndEncoded (run_ends values : field_info * DataType).

Record Schema : Set := mkSchema { fields : list (field_info * DataType); metadata : schema_meta }.

Record NullBuffer : Set := mkNulls { nb_buffer : list Z; nb_offset : Z; nb_nulls : Z }.

Inductive ArrayData : Set :=
| mkArrayData (dt : DataType) (alen aoffset : Z) (nulls : option NullBuffer)
    (buffers : list (list Z)) (child_data : list ArrayData).

Definition data_type (a : ArrayData) : DataType := match a with mkArrayData dt _ _ _ _ _ => dt end.
Definition array_len (a : ArrayData) : Z := match a with mkArrayData _ n _ _ _ _ => n end.
Definition nulls_of (a : ArrayData) : option NullBuffer := match a with mkArrayData _ _ _ n _ _ => n end.
Definition buffers_of (a : ArrayData) : list (list Z) := match a with mkArrayData _ _ _ _ b _ => b end.
Definition child_data_of (a : ArrayData) : list ArrayData := match a with mkArrayData _ _ _ _ _ c => c end.
Definition null_count (a : ArrayData) : Z := match nulls_of a with Some n => nb_nulls n | None => 0 end.

(** Induction on the tree of arrays. *)
Lemma ArrayData_tree_ind (P : ArrayData -> Prop) :
  (forall dt n o nb bs cs, Forall P cs -> P (mkArrayData dt n o nb bs cs)) -> forall a, P a.
Proof.
  intros Hs. fix IH 1. intros [dt n o nb bs cs]. apply Hs.
  induction cs as [|c cs IHc]; constructor; [apply IH|exact IHc].
Qed.
End data.

(** The library: arrays and their data, compaction by [concat] ([arrow_concat]), the checking
    [ArrayDataBuilder::build], the checking [RecordBatch::try_new], the IPC form of a
    schema. *)
Class ArrowLib `{ArrowTypes} := {
  ArrayRef : Type;
  to_data : ArrayRef -> ArrayData;
  make_array : ArrayData -> ArrayRef;
  arrow_concat : ArrayRef -> result arrow_error ArrayRef;
  build : DataType -> Z -> Z -> option (list Z) -> list (list Z) -> list ArrayData -> result arrow_error ArrayData;
  RecordBatch : Type;
  batch_schema : RecordBatch -> Schema;
  columns : RecordBatch -> list ArrayRef;
  num_rows : RecordBatch -> Z;
  try_new : Schema -> list ArrayRef -> result arrow_error RecordBatch;
  serialize_schema : Schema -> list Z
}.

(** ** Errors *)

Inductive UnsupportedWhat : Set :=
| UDictionary | UUnion | UMap | URunEnd
| ULength | UNullCount | UDataBuffers | UChildren
| UBufferSize | URowCount | UNodeCount | UBufferCount.

Inductive LayoutWhat : Set :=
| LEmptyChunks | LCtrlMismatch | LShortPrimary | LChunkCount
| LNodeSize | LNodeOffset | LBufferSize | LBufferOffset | LTablesOverrun
| LChunkIndex | LExtentOverflow | LPastChunk
| LBuffersUnderrun | LNodeUnderrun | LChildCount | LNotConsumed.

Inductive ArrowErr `{ArrowTypes} : Set :=
| ACore (e : CoreError)
| AArrow (e : arrow_error)
| ABadMagic
| UnknownSchema (id : Z)
| SchemaMismatch (desc header : Z)
| ChunkTooSmall (need have : Z)
| Unsupported (w : UnsupportedWhat)
| LayoutErr (w : LayoutWhat).

(** ** Schema registry *)

Definition RAW_SCHEMA_ID : Z := 0.

Definition FNV_OFFSET : Z := 14695981039346656037. (* 0xcbf2_9ce4_8422_2325 *)
Definition FNV_PRIME : Z := 1099511628211. (* 0x0000_0100_0000_01b3 *)

Definition schema_content_hash (bytes : list Z) : Z :=
  foldl (fun hash byte => wrap64 (Z.lxor hash byte * FNV_PRIME)) FNV_OFFSET bytes.

Section registry.
Context `{ArrowLib}.

Definition content_key (s : Schema) : Z := schema_content_hash (serialize_schema s).

Record SchemaRegistry : Set := mkRegistry {
  by_id : gmap Z Schema;
  by_hash : gmap Z Z;
  next_id : Z
}.

Definition registry_new : SchemaRegistry := mkRegistry ∅ ∅ 1.

(** A minted id beyond [u32::MAX] wraps. *)
Definition intern (s : Schema) (r : SchemaRegistry) : Z * SchemaRegistry :=
  let key := content_key s in
  match by_hash r !! key with
  | Some id => (id, r)
  | None =>
      let id := next_id r in
      (id, mkRegistry (<[id := s]> (by_id r)) (<[key := id]> (by_hash r)) (wrap32 (next_id r + 1)))
  end.

Definition with_schemas (schemas : list Schema) : SchemaRegistry :=
  foldl (fun r s => (intern s r).2) registry_new schemas.

(** [entry(k).or_insert(v)] *)
Definition or_insert {V} (k : Z) (v : V) (m : gmap Z V) : gmap Z V :=
  match m !! k with Some _ => m | None => <[k := v]> m end.

Definition registry_insert (id : Z) (s : Schema) (r : SchemaRegistry) : SchemaRegistry :=
  if id =? RAW_SCHEMA_ID then r
  else
    mkRegistry (or_insert id s (by_id r)) (or_insert (content_key s) id (by_hash r))
      (if next_id r <=? id then wrap32 (id + 1) else next_id r).

Definition id_for (s : Schema) (r : SchemaRegistry) : option Z := by_hash r !! content_key s.

Definition registry_resolve (id : Z) (r : SchemaRegistry) : option Schema :=
  if id =? RAW_SCHEMA_ID then None else by_id r !! id.

Definition registry_len (r : SchemaRegistry) : nat := size (by_id r).
Definition registry_is_empty (r : SchemaRegistry) : bool := (registry_len r =? 0)%nat.
End registry.

(** ** Layout *)

Definition BATCH_MAGIC : Z := of_le [83; 72; 77; 65; 82; 66; 84; 50]. (* b"SHMARBT2" *)
Definition BATCH_FORMAT : Z := 2.
Definition BUFFER_ALIGN : Z := 64.

Record BatchHeader : Set := mkBatchHeader {
  bh_magic : Z; bh_format : Z; bh_schema_id : Z; bh_row_count : Z;
  bh_node_count : Z; bh_buffer_count : Z; bh_chunk_count : Z
}.
Record NodeEntry : Set := mkNode {
  n_len : Z; n_null_count : Z; has_validity : Z; data_buffers : Z; child_count : Z; n_pad : Z
}.
Record BufferEntry : Set := mkEntry { chunk_index : Z; e_offset : Z; e_len : Z }.

Definition header_layout : list nat := [8; 4; 4; 4; 4; 4; 4]%nat.
Definition node_layout : list nat := [4; 4; 4; 4; 4; 4]%nat.
Definition entry_layout : list nat := [4; 4; 4]%nat.

Definition header_fields (h : BatchHeader) : list Z :=
  [bh_magic h; bh_format h; bh_schema_id h; bh_row_count h; bh_node_count h; bh_buffer_count h; bh_chunk_count h].
Definition node_fields (n : NodeEntry) : list Z :=
  [n_len n; n_null_count n; has_validity n; data_buffers n; child_count n; n_pad n].
Definition entry_fields (e : BufferEntry) : list Z := [chunk_index e; e_offset e; e_len e].

Definition header_of (vs : list Z) : BatchHeader :=
  match vs with [a; b; c; d; e; f; g] => mkBatchHeader a b c d e f g | _ => mkBatchHeader 0 0 0 0 0 0 0 end.
Definition node_of (vs : list Z) : NodeEntry :=
  match vs with [a; b; c; d; e; f] => mkNode a b c d e f | _ => mkNode 0 0 0 0 0 0 end.
Definition entry_of (vs : list Z) : BufferEntry :=
  match vs with [a; b; c] => mkEntry a b c | _ => mkEntry 0 0 0 end.

Definition header_bytes (h : BatchHeader) : list Z := pack header_layout (header_fields h).
Definition node_bytes (n : NodeEntry) : list Z := pack node_layout (node_fields n).
Definition entry_bytes (e : BufferEntry) : list Z := pack entry_layout (entry_fields e).

Definition SIZEOF_BatchHeader : Z := 32.
Definition SIZEOF_NodeEntry : Z := 24.
Definition SIZEOF_BufferEntry : Z := 12.

Definition nodes_offset : Z := SIZEOF_BatchHeader.
Definition buffers_offset (node_count : Z) : Z := nodes_offset + node_count * SIZEOF_NodeEntry.
Definition payload_start (node_count buffer_count : Z) : Z :=
  align_up (buffers_offset node_count + buffer_count * SIZEOF_BufferEntry) BUFFER_ALIGN.

(** ** Writing *)

Definition try_u32 `{ArrowTypes} (x : Z) (w : UnsupportedWhat) : result ArrowErr Z :=
  if x <? U32_MOD then Ok x else Err (Unsupported w).

(** Sequencing over a list, stopping at the first error. *)
Definition try_map {E A B} (f : A -> result E B) : list A -> result E (list B) :=
  fix go (xs : list A) : result E (list B) :=
    match xs with
    | [] => Ok []
    | x :: xs' => let? y := f x in let? ys := go xs' in Ok (y :: ys)
    end.

Section write.
Context `{ArrowLib}.

(** [Plan] without the handles that keep the buffers alive. *)
Record Plan : Set := mkPlan { p_nodes : list NodeEntry; p_buffers : list (list Z); p_row_count : Z }.
Record Packing : Set := mkPacking { locs : list (Z * Z); chunk_used : list Z }.

Definition ensure_supported (dt : DataType) : result ArrowErr unit :=
  match dt with
  | Dictionary _ _ => Err (Unsupported UDictionary)
  | Union _ _ => Err (Unsupported UUnion)
  | Map _ _ => Err (Unsupported UMap)
  | RunEndEncoded _ _ => Err (Unsupported URunEnd)
  | _ => Ok tt
  end.

Fixpoint is_normalized (a : ArrayData) : bool :=
  match a with
  | mkArrayData _ _ off nb _ cs =>
      (off =? 0) && match nb with Some n => nb_offset n =? 0 | None => true end && forallb is_normalized cs
  end.

Definition normalize (a : ArrayRef) : result ArrowErr ArrayRef :=
  if is_normalized (to_data a) then Ok a
  else match arrow_concat a with Ok b => Ok b | Err e => Err (AArrow e) end.

(** The nodes and buffers [plan_node] appends, in pre-order. *)
Fixpoint plan_node (a : ArrayData) : result ArrowErr (list NodeEntry * list (list Z)) :=
  match a with
  | mkArrayData dt n _ nb bufs cs =>
      let? _ := ensure_supported dt in
      let? len := try_u32 n ULength in
      let? nulls := try_u32 (match nb with Some b => nb_nulls b | None => 0 end) UNullCount in
      let? db := try_u32 (Z.of_nat (length bufs)) UDataBuffers in
      let? cc := try_u32 (Z.of_nat (length cs)) UChildren in
      let node := mkNode len nulls (match nb with Some _ => 1 | None => 0 end) db cc 0 in
      let own := match nb with Some b => [nb_buffer b] | None => [] end ++ bufs in
      let? below := (fix children (cs : list ArrayData) :=
        match cs with
        | [] => Ok ([], [])
        | c :: cs' =>
            let? (ns, bs) := plan_node c in
            let? (ns', bs') := children cs' in
            Ok (ns ++ ns', bs ++ bs')
        end) cs in
      Ok (node :: below.1, own ++ below.2)
  end.

Fixpoint plan_columns (cols : list ArrayRef) : result ArrowErr (list NodeEntry * list (list Z)) :=
  match cols with
  | [] => Ok ([], [])
  | col :: cols' =>
      let? a := normalize col in
      let? (ns, bs) := plan_node (to_data a) in
      let? (ns', bs') := plan_columns cols' in
      Ok (ns ++ ns', bs ++ bs')
  end.

Definition plan_batch (b : RecordBatch) : result ArrowErr Plan :=
  let? (ns, bs) := plan_columns (columns b) in Ok (mkPlan ns bs (num_rows b)).

(** [pack]'s loop: the chunk being filled is [cur], its high-water mark [cursor]. *)
Fixpoint pack_loop (bufs : list (list Z)) (cap : Z) (cur : nat) (cursor : Z) (used : list Z)
    : result ArrowErr (list (Z * Z) * list Z) :=
  match bufs with
  | [] => Ok ([], used)
  | b :: bufs' =>
      let blen := Z.of_nat (length b) in
      if cap <? blen then Err (Unsupported UBufferSize)
      else
        let off := align_up cursor BUFFER_ALIGN in
        let '(cur', used', off') :=
          if cap <? off + blen then (S cur, used ++ [0], 0) else (cur, used, off) in
        let cursor' := off' + blen in
        let? (ls, u) := pack_loop bufs' cap cur' cursor' (<[cur' := cursor']> used') in
        Ok ((wrap32 (Z.of_nat cur'), wrap32 off') :: ls, u)
  end.

Definition pack_plan (plan : Plan) (cap : Z) : result ArrowErr Packing :=
  let start := payload_start (Z.of_nat (length (p_nodes plan))) (Z.of_nat (length (p_buffers plan))) in
  if cap <? start then Err (ChunkTooSmall start cap)
  else
    let? (ls, u) := pack_loop (p_buffers plan) cap 0 start [start] in Ok (mkPacking ls u).

Definition serialized_len (b : RecordBatch) : option Z :=
  match plan_batch b with
  | Ok plan =>
      Some (foldl (fun cursor buf => align_up cursor BUFFER_ALIGN + Z.of_nat (length buf))
        (payload_start (Z.of_nat (length (p_nodes plan))) (Z.of_nat (length (p_buffers plan)))) (p_buffers plan))
  | Err _ => None
  end.

(** [PoolAllocator] *)
Definition pool_alloc (p : Pool) (fuel : nat) (size : Z) : prog PoolMem (option (result ArrowErr ChunkDesc)) :=
  if U32_MOD <=? size then done (Err (ACore LayoutOverflow))
  else r <-- alloc p fuel size ;; done (match r with Ok d => Ok d | Err e => Err (ACore e) end).

Definition pool_free (p : Pool) (fuel : nat) (d : ChunkDesc) : prog PoolMem (option unit) :=
  _ <-- free p fuel d ;; done tt.

Definition free_all (p : Pool) (fuel : nat) (ds : list ChunkDesc) : prog PoolMem (option unit) :=
  loop_fold ds (fun _ d => pool_free p fuel d) tt.

(** The payload offset [resolve] points at. *)
Definition base_of (d : ChunkDesc) : Z := offset d - HEADER_SIZE.

Fixpoint alloc_chunks (p : Pool) (fuel : nat) (schema_id : Z) (used : list Z) (chunks : list ChunkDesc)
    : prog PoolMem (option (result ArrowErr (list ChunkDesc))) :=
  match used with
  | [] => done (Ok chunks)
  | u :: used' =>
      r <-- pool_alloc p fuel u ;;
      match r with
      | Ok d =>
          if len d <? u then
            _ <-- pool_free p fuel d ;;
            _ <-- free_all p fuel chunks ;;
            done (Err (ChunkTooSmall u (len d)))
          else alloc_chunks p fuel schema_id used' (chunks ++ [with_schema d schema_id])
      | Err e => _ <-- free_all p fuel chunks ;; done (Err e)
      end
  end.

(** One unaligned record write or [copy_nonoverlapping]; the chunk is the writer's own. *)
Definition put_at (a : Z) (bs : list Z) : prog PoolMem unit :=
  store (fun m => set_words (put_bytes (words m) a bs) m).

Definition put_all (ws : list (Z * list Z)) : prog PoolMem unit := for_fold ws (fun _ w => put_at w.1 w.2) tt.

(** The records of a table that starts at [a], [stride] bytes each. *)
Fixpoint table_at (a stride : Z) (rs : list (list Z)) : list (Z * list Z) :=
  match rs with
  | [] => []
  | r :: rs' => (a, r) :: table_at (a + stride) stride rs'
  end.

Definition entry_for (loc : Z * Z) (buf : list Z) : BufferEntry := mkEntry loc.1 loc.2 (wrap32 (Z.of_nat (length buf))).

(** [bases[chunk_index].add(offset)]: an index out of range is a panic. *)
Definition copy_to (chunks : list ChunkDesc) (loc : Z * Z) (bs : list Z) : prog PoolMem unit :=
  match at_index chunks loc.1 with
  | Some d => put_at (base_of d + loc.2) bs
  | None => fault
  end.

Definition write_plan (chunks : list ChunkDesc) (primary : ChunkDesc) (hdr : BatchHeader) (plan : Plan) (packing : Packing)
    : prog PoolMem unit :=
  let b := base_of primary in
  let placed := zip (locs packing) (p_buffers plan) in
  put_at b (header_bytes hdr) ;;;
  put_all (table_at (b + nodes_offset) SIZEOF_NodeEntry (node_bytes <$> p_nodes plan)) ;;;
  put_all (table_at (b + buffers_offset (Z.of_nat (length (p_nodes plan)))) SIZEOF_BufferEntry
    ((fun pb => entry_bytes (entry_for pb.1 pb.2)) <$> placed)) ;;;
  for_fold placed (fun _ pb => copy_to chunks pb.1 pb.2) tt.

(** The body after [registry.intern] gave [schema_id]. *)
Definition write_chunks_as (p : Pool) (fuel : nat) (schema_id : Z) (b : RecordBatch)
    : prog PoolMem (option (result ArrowErr (list ChunkDesc))) :=
  match plan_batch b with
  | Err e => done (Err e)
  | Ok plan =>
      cap <- max_chunk_size p ;;
      match
        let? packing := pack_plan plan cap in
        let? rows := try_u32 (p_row_count plan) URowCount in
        let? nodes := try_u32 (Z.of_nat (length (p_nodes plan))) UNodeCount in
        let? bufs := try_u32 (Z.of_nat (length (p_buffers plan))) UBufferCount in
        Ok (packing, rows, nodes, bufs)
      with
      | Err e => done (Err e)
      | Ok (packing, rows, nodes, bufs) =>
          r <-- alloc_chunks p fuel schema_id (chunk_used packing) [] ;;
          match r with
          | Err e => done (Err e)
          | Ok [] => fault
          | Ok (primary :: rest) =>
              let chunks := primary :: rest in
              let hdr := mkBatchHeader BATCH_MAGIC BATCH_FORMAT schema_id rows nodes bufs
                (wrap32 (Z.of_nat (length (chunk_used packing)))) in
              write_plan chunks primary hdr plan packing ;;;
              done (Ok chunks)
          end
      end
  end.

Definition write_batch_chunks (p : Pool) (fuel : nat) (reg : SchemaRegistry) (b : RecordBatch)
    : SchemaRegistry * prog PoolMem (option (result ArrowErr (list ChunkDesc))) :=
  let '(schema_id, reg') := intern (batch_schema b) reg in (reg', write_chunks_as p fuel schema_id b).

Definition write_batch (p : Pool) (fuel : nat) (reg : SchemaRegistry) (b : RecordBatch)
    : SchemaRegistry * prog PoolMem (option (result ArrowErr ChunkDesc)) :=
  let '(reg', q) := write_batch_chunks p fuel reg b in
  (reg',
   r <-- q ;;
   match r with
   | Err e => done (Err e)
   | Ok [d] => done (Ok d)
   | Ok chunks =>
       _ <-- free_all p fuel chunks ;;
       cap <- max_chunk_size p ;;
       done (Err (ChunkTooSmall (default U64_MAX (serialized_len b)) cap))
   end).
End write.

(** ** Reading *)

(** An unaligned read; out of bounds of the slice it is undefined. *)
Definition read_pod (ws : list nat) (buf : list Z) (off : Z) : option (list Z) :=
  if (0 <=? off) && (off + Z.of_nat (size_of ws) <=? Z.of_nat (length buf))
  then Some (unpack ws (drop (Z.to_nat off) buf)) else None.

Definition checked_mul (x y : Z) : option Z := if x * y <? U64_MOD then Some (x * y) else None.
Definition checked_add (x y : Z) : option Z := if x + y <? U64_MOD then Some (x + y) else None.

Section read.
Context `{ArrowLib}.

Definition check_entry (chunk_lens : list Z) (e : BufferEntry) : result ArrowErr unit :=
  let? clen := ok_or (at_index chunk_lens (chunk_index e)) (LayoutErr LChunkIndex) in
  let? end_ := ok_or (checked_add (e_offset e) (e_len e)) (LayoutErr LExtentOverflow) in
  if clen <? end_ then Err (LayoutErr LPastChunk) else Ok tt.

Definition read_table {A} (ws : list nat) (mk : list Z -> A) (buf : list Z) (a n : Z) : option (list A) :=
  mapM (fun i => vs ← read_pod ws buf (a + i * Z.of_nat (size_of ws)); Some (mk vs)) (seqZ 0 n).

(** The extents of the two tables, by checked arithmetic. *)
Definition table_extents (h : BatchHeader) : result ArrowErr (Z * Z) :=
  let? nb := ok_or (checked_mul (bh_node_count h) SIZEOF_NodeEntry) (LayoutErr LNodeSize) in
  let? buffers_off := ok_or (checked_add nodes_offset nb) (LayoutErr LNodeOffset) in
  let? bb := ok_or (checked_mul (bh_buffer_count h) SIZEOF_BufferEntry) (LayoutErr LBufferSize) in
  let? tables_end := ok_or (checked_add buffers_off bb) (LayoutErr LBufferOffset) in
  Ok (buffers_off, tables_end).

(** [None] is an out-of-bounds read. *)
Definition read_batch_layout (primary : list Z) (chunk_lens : list Z)
    : option (result ArrowErr (BatchHeader * list NodeEntry * list BufferEntry)) :=
  if Z.of_nat (length primary) <? SIZEOF_BatchHeader then Some (Err (LayoutErr LShortPrimary))
  else
    vs ← read_pod header_layout primary 0;
    let h := header_of vs in
    if negb (bh_magic h =? BATCH_MAGIC) || negb (bh_format h =? BATCH_FORMAT) then Some (Err ABadMagic)
    else if negb (bh_chunk_count h =? Z.of_nat (length chunk_lens)) then Some (Err (LayoutErr LChunkCount))
    else
      match table_extents h with
      | Err e => Some (Err e)
      | Ok (buffers_off, tables_end) =>
          if Z.of_nat (length primary) <? tables_end then Some (Err (LayoutErr LTablesOverrun))
          else
            nodes ← read_table node_layout node_of primary nodes_offset (bh_node_count h);
            entries ← read_table entry_layout entry_of primary buffers_off (bh_buffer_count h);
            Some (let? _ := try_map (check_entry chunk_lens) entries in Ok (h, nodes, entries))
      end.

Definition child_data_types (dt : DataType) : list DataType :=
  match dt with
  | Struct fs => fs.*2
  | DList f | LargeList f | FixedSizeList f _ => [f.2]
  | _ => []
  end.

(** The two cursors of the walk. *)
Record Cursors : Set := mkCursors { ni : nat; bi : nat }.

Section build_node.
Variable nodes : list NodeEntry.
Variable make_buffer : nat -> result ArrowErr (list Z).

Fixpoint add_buffers (n : nat) (b : nat) : result ArrowErr (list (list Z) * nat) :=
  match n with
  | O => Ok ([], b)
  | S n' => let? buf := make_buffer b in let? (rest, b') := add_buffers n' (S b) in Ok (buf :: rest, b')
  end.

Definition each_field {F} (node : F -> Cursors -> result ArrowErr (ArrayData * Cursors)) :=
  fix go (fs : list F) (c : Cursors) : result ArrowErr (list ArrayData * Cursors) :=
    match fs with
    | [] => Ok ([], c)
    | f :: fs' => let? (a, c') := node f c in let? (rest, c'') := go fs' c' in Ok (a :: rest, c'')
    end.

Fixpoint build_node (dt : DataType) (c : Cursors) : result ArrowErr (ArrayData * Cursors) :=
  let? node := ok_or (nodes !! ni c) (LayoutErr LNodeUnderrun) in
  let? (nulls, b) :=
    if negb (has_validity node =? 0) then let? buf := make_buffer (bi c) in Ok (Some buf, S (bi c))
    else Ok (None, bi c) in
  let? (bufs, b') := add_buffers (Z.to_nat (data_buffers node)) b in
  if negb (Z.of_nat (length (child_data_types dt)) =? child_count node) then Err (LayoutErr LChildCount)
  else
    let c' := mkCursors (S (ni c)) b' in
    let? (children, c'') :=
      match dt with
      | Struct fs => each_field (fun f => build_node f.2) fs c'
      | DList f | LargeList f | FixedSizeList f _ => let? (a, c'') := build_node f.2 c' in Ok ([a], c'')
      | _ => Ok ([], c')
      end in
    match build dt (n_len node) (n_null_count node) nulls bufs children with
    | Ok a => Ok (a, c'')
    | Err e => Err (AArrow e)
    end.
End build_node.

Definition in_mapping (seg : Segment) (d : ChunkDesc) : bool :=
  (HEADER_SIZE <=? offset d) && (offset d + len d <=? HEADER_SIZE + payload_len seg).

(** The chunks' bytes.  They are views of the mapping, which is immutable while the caller's
    pins last: one action takes what they show.  Outside the mapping it is undefined. *)
Definition view_chunks (seg : Segment) (chunks : list ChunkDesc) : prog PoolMem (list (list Z)) :=
  act (R := list (list Z)) (fun m =>
    if forallb (in_mapping seg) chunks then Some ((fun d => bytes_at (words m) (base_of d) (len d)) <$> chunks, m)
    else None).

(** The buffer of a table entry: a slice of its chunk. *)
Definition make_buffer_of (views : list (list Z)) (entries : list BufferEntry) (idx : nat) : result ArrowErr (list Z) :=
  let? e := ok_or (entries !! idx) (LayoutErr LBuffersUnderrun) in
  Ok (take (Z.to_nat (e_len e)) (drop (Z.to_nat (e_offset e)) (default [] (at_index views (chunk_index e))))).

(** Steps 3 and 5 and the walk, after the layout was accepted. *)
Definition rebuild_batch (reg : SchemaRegistry) (desc_schema : Z) (views : list (list Z))
    (h : BatchHeader) (nodes : list NodeEntry) (entries : list BufferEntry) : result ArrowErr RecordBatch :=
  if negb (bh_schema_id h =? desc_schema) then Err (SchemaMismatch desc_schema (bh_schema_id h))
  else
    let? schema := ok_or (registry_resolve (bh_schema_id h) reg) (UnknownSchema (bh_schema_id h)) in
    let? (arrays, c) := each_field (fun f => build_node nodes (make_buffer_of views entries) f.2) (fields schema) (mkCursors 0 0) in
    if negb (Z.of_nat (ni c) =? bh_node_count h) || negb (Z.of_nat (bi c) =? bh_buffer_count h)
    then Err (LayoutErr LNotConsumed)
    else match try_new schema (make_array <$> arrays) with Ok b => Ok b | Err e => Err (AArrow e) end.

(** [ctrls] names the control words the caller passed by reference. *)
Definition read_batch_chunks (seg : Segment) (chunks : list ChunkDesc) (ctrls : list Z) (reg : SchemaRegistry)
    : prog PoolMem (result ArrowErr RecordBatch) :=
  match chunks with
  | [] => Ret (Err (LayoutErr LEmptyChunks))
  | primary :: _ =>
      if negb (length chunks =? length ctrls)%nat then Ret (Err (LayoutErr LCtrlMismatch))
      else
        stale <- for_each (zip chunks ctrls) (fun dc =>
          r <- ctrl_at dc.2 (validate dc.1) ;; Ret (match r with Ok _ => None | Err e => Some e end)) ;;
        match stale with
        | Some e => Ret (Err (ACore e))
        | None =>
            views <- view_chunks seg chunks ;;
            match read_batch_layout (default [] (views !! 0%nat)) (len <$> chunks) with
            | None => fault
            | Some (Err e) => Ret (Err e)
            | Some (Ok (h, nodes, entries)) => Ret (rebuild_batch reg (schema_id primary) views h nodes entries)
            end
        end
  end.

Definition read_batch (seg : Segment) (d : ChunkDesc) (ctrl : Z) (reg : SchemaRegistry) : prog PoolMem (result ArrowErr RecordBatch) :=
  read_batch_chunks seg [d] [ctrl] reg.
End read.
