(* ===== verification/ArrowLayout.v ===== *)
(** * The batch layout

    The reader's layout check is the boundary a corrupt or hostile peer reaches across: it
    never reads outside the primary chunk, whatever the bytes, and what it accepts is the
    wire form of tables whose every entry lies inside its chunk.  Conversely it accepts what
    a writer lays out.  The second part is what the writer puts there: the tables and places
    of a batch's buffers. *)

From S2P Require Import Prelude Atomic ChunkDesc ChunkCtrl Pod Treiber Pool PoolInv SegBytes PoolClient PoolDraw Arrow.

(** ** Records *)

Definition header_wf (h : BatchHeader) : Prop := in_range header_layout (header_fields h).
Definition node_wf (n : NodeEntry) : Prop := in_range node_layout (node_fields n).
Definition entry_wf (e : BufferEntry) : Prop := in_range entry_layout (entry_fields e).

Lemma header_of_fields h : header_of (header_fields h) = h.
Proof. by destruct h. Qed.
Lemma node_of_fields n : node_of (node_fields n) = n.
Proof. by destruct n. Qed.
Lemma entry_of_fields e : entry_of (entry_fields e) = e.
Proof. by destruct e. Qed.

Lemma batch_header_fields_of vs : length vs = length header_layout -> header_fields (header_of vs) = vs.
Proof. intros E. do 7 (destruct vs as [|? vs]; [done|]). by destruct vs. Qed.
Lemma node_fields_of vs : length vs = length node_layout -> node_fields (node_of vs) = vs.
Proof. intros E. do 6 (destruct vs as [|? vs]; [done|]). by destruct vs. Qed.
Lemma entry_fields_of vs : length vs = length entry_layout -> entry_fields (entry_of vs) = vs.
Proof. intros E. do 3 (destruct vs as [|? vs]; [done|]). by destruct vs. Qed.

Lemma length_header_bytes h : length (header_bytes h) = 32%nat.
Proof. unfold header_bytes. by rewrite length_pack. Qed.
Lemma length_node_bytes n : length (node_bytes n) = 24%nat.
Proof. unfold node_bytes. by rewrite length_pack. Qed.
Lemma length_entry_bytes e : length (entry_bytes e) = 12%nat.
Proof. unfold entry_bytes. by rewrite length_pack. Qed.

(** ** Tables *)

Lemma read_table_in_bounds {A} ws (mk : list Z -> A) buf a n :
  0 <= a -> 0 <= n -> a + n * Z.of_nat (size_of ws) <= Z.of_nat (length buf) ->
  read_table ws mk buf a n = Some (mk <$> unpack_many ws (Z.to_nat n) (drop (Z.to_nat a) buf)).
Proof.
  intros Ha Hn Hb. unfold read_table. apply mapM_Some. apply Forall2_same_length_lookup. split.
  { by rewrite length_seqZ, length_fmap, length_unpack_many. }
  intros i x y [-> Hi]%lookup_seqZ Hy. rewrite list_lookup_fmap, unpack_many_lookup in Hy by lia. injection Hy as <-.
  unfold read_pod. assert ((0 + Z.of_nat i) * Z.of_nat (size_of ws) + Z.of_nat (size_of ws) <= n * Z.of_nat (size_of ws)) by nia.
  rewrite (proj2 (Z.leb_le _ _)) by lia. rewrite (proj2 (Z.leb_le _ _)) by lia. cbn [andb mbind option_bind].
  do 2 f_equal. rewrite drop_drop. do 2 f_equal. lia.
Qed.

Lemma table_bytes {A} ws (mk : list Z -> A) (fields : A -> list Z) n bs :
  (forall vs, length vs = length ws -> fields (mk vs) = vs) -> Forall is_u8 bs -> (n * size_of ws <= length bs)%nat ->
  let es := mk <$> unpack_many ws n bs in
  List.concat ((fun e => pack ws (fields e)) <$> es) = take (n * size_of ws) bs /\
  Forall (fun e => in_range ws (fields e)) es.
Proof.
  intros Hmk Hb Hl es. assert (E : fields <$> es = unpack_many ws n bs).
  { unfold es. rewrite <- list_fmap_compose. etransitivity; [|apply list_fmap_id]. apply list_fmap_ext.
    intros i vs Hi. cbn. apply Hmk. assert (Hin : (i < n)%nat) by (rewrite <- (length_unpack_many ws n bs); by eapply lookup_lt_Some).
    rewrite unpack_many_lookup in Hi by done. injection Hi as <-. by rewrite length_unpack. }
  split.
  - rewrite <- (pack_unpack_many ws n bs Hb Hl), <- E. by rewrite <- list_fmap_compose.
  - apply Forall_fmap with (f := fields) (P := in_range ws). rewrite E. by apply unpack_many_in_range.
Qed.

Lemma table_read_back {A} ws (mk : list Z -> A) (fields : A -> list Z) es rest :
  (forall e, mk (fields e) = e) -> Forall (fun e => in_range ws (fields e)) es ->
  mk <$> unpack_many ws (length es) (List.concat ((fun e => pack ws (fields e)) <$> es) ++ rest) = es.
Proof.
  intros Hmk Hr. replace ((fun e => pack ws (fields e)) <$> es) with (pack ws <$> (fields <$> es)) by (by rewrite <- list_fmap_compose).
  rewrite <- (length_fmap fields es). rewrite unpack_many_pack by (by apply Forall_fmap).
  rewrite <- list_fmap_compose. etransitivity; [|apply list_fmap_id]. apply list_fmap_ext. intros i e _. apply Hmk.
Qed.

(** ** The check *)

(** The bytes of a primary chunk up to the end of its tables. *)
Definition tables_bytes (h : BatchHeader) (ns : list NodeEntry) (es : list BufferEntry) : list Z :=
  header_bytes h ++ List.concat (node_bytes <$> ns) ++ List.concat (entry_bytes <$> es).

(** Entry [e] names an existing chunk and lies inside it. *)
Definition entry_inside (chunk_lens : list Z) (e : BufferEntry) : Prop :=
  exists n, at_index chunk_lens (chunk_index e) = Some n /\ 0 <= e_offset e /\ 0 <= e_len e /\ e_offset e + e_len e <= n.

#[export] Instance header_wf_dec h : Decision (header_wf h).
Proof. unfold header_wf, in_range. apply _. Defined.

Lemma header_wf_u32 h : header_wf h ->
  is_u32 (bh_schema_id h) /\ is_u32 (bh_node_count h) /\ is_u32 (bh_buffer_count h) /\ is_u32 (bh_chunk_count h).
Proof.
  unfold header_wf, in_range, header_fields, header_layout. intros Hh.
  do 7 (apply list.Forall2_cons in Hh as [? Hh]). cbn in *. split_and!; mach.
Qed.

Lemma entry_wf_u32 e : entry_wf e -> is_u32 (chunk_index e) /\ is_u32 (e_offset e) /\ is_u32 (e_len e).
Proof.
  unfold entry_wf, in_range, entry_fields, entry_layout. intros He.
  do 3 (apply list.Forall2_cons in He as [? He]). cbn in *. split_and!; mach.
Qed.

Lemma try_map_check {E A} (f : A -> result E unit) xs l : try_map f xs = Ok l -> Forall (fun x => f x = Ok tt) xs.
Proof.
  revert l. induction xs as [|x xs IH]; intros l; [constructor|]. cbn [try_map]. rewrite rbind_Ok. intros ([] & Hx & Hr).
  apply rbind_Ok in Hr as (ys & Hys & _). constructor; [done|]. by eapply IH.
Qed.

Lemma try_map_checked {E A} (f : A -> result E unit) xs : Forall (fun x => f x = Ok tt) xs -> is_ok (try_map f xs) = true.
Proof.
  induction 1 as [|x xs Hx _ IH]; [done|]. cbn [try_map]. rewrite Hx. cbn [rbind]. by destruct (try_map f xs).
Qed.

Section layout.
Context `{ArrowTypes}.

Lemma table_extents_ok h : is_u32 (bh_node_count h) -> is_u32 (bh_buffer_count h) ->
  table_extents h = Ok (buffers_offset (bh_node_count h), buffers_offset (bh_node_count h) + bh_buffer_count h * SIZEOF_BufferEntry).
Proof.
  intros Hn Hb. unfold table_extents, checked_mul, checked_add, buffers_offset, nodes_offset, SIZEOF_BatchHeader, SIZEOF_NodeEntry, SIZEOF_BufferEntry.
  repeat (rewrite (proj2 (Z.ltb_lt _ _)) by mach; cbn [ok_or rbind]). done.
Qed.

Lemma check_entry_inside lens e : entry_wf e -> check_entry lens e = Ok tt <-> entry_inside lens e.
Proof.
  intros (Hc & Ho & Hl)%entry_wf_u32. unfold check_entry, entry_inside.
  destruct (at_index lens (chunk_index e)) as [n|]; cbn [ok_or rbind]; [|naive_solver].
  unfold checked_add. rewrite (proj2 (Z.ltb_lt _ _)) by mach. cbn [ok_or rbind].
  destruct (Z.ltb_spec n (e_offset e + e_len e)) as [Hn|Hn].
  - split; [done|]. intros (n' & [= <-] & ? & ? & ?). lia.
  - split; [|done]. intros _. exists n. split_and!; [done|mach|mach|mach].
Qed.

Lemma read_header primary : 32 <= Z.of_nat (length primary) ->
  read_pod header_layout primary 0 = Some (unpack header_layout primary).
Proof. intros Hl. unfold read_pod. change (Z.of_nat (size_of header_layout)) with 32. rewrite (proj2 (Z.leb_le (0 + 32) _)) by lia. done. Qed.

(** A branch that answers with an error. *)
Local Ltac rejected := eexists (Err _); split; [reflexivity|by intros ? ? ?].

(** What the check should accept: a header with the right magic, version and chunk count whose
    tables are at the front of the chunk, every entry inside its chunk. *)
Definition well_laid_out (primary lens : list Z) (h : BatchHeader) (ns : list NodeEntry) (es : list BufferEntry) : Prop :=
  header_wf h /\ bh_magic h = BATCH_MAGIC /\ bh_format h = BATCH_FORMAT /\ bh_chunk_count h = Z.of_nat (length lens) /\
  bh_node_count h = Z.of_nat (length ns) /\ bh_buffer_count h = Z.of_nat (length es) /\
  Forall node_wf ns /\ Forall entry_wf es /\ Forall (entry_inside lens) es /\ tables_bytes h ns es `prefix_of` primary.

(** The check always answers, and what it accepts is well laid out. *)
Lemma layout_total primary lens : Forall is_u8 primary ->
  exists r, read_batch_layout primary lens = Some r /\ forall h ns es, r = Ok (h, ns, es) -> well_laid_out primary lens h ns es.
Proof.
  intros Hb. unfold read_batch_layout. destruct (Z.ltb_spec (Z.of_nat (length primary)) SIZEOF_BatchHeader) as [|Hl].
  { rejected. }
  unfold SIZEOF_BatchHeader in Hl. rewrite read_header by done. cbn [mbind option_bind]. set (h := header_of _).
  assert (Ef : header_fields h = unpack header_layout primary) by (apply batch_header_fields_of; by rewrite length_unpack).
  assert (Hwf : header_wf h) by (unfold header_wf; rewrite Ef; apply unpack_in_range; [done|change (size_of header_layout) with 32%nat; lia]).
  clearbody h. destruct (header_wf_u32 h Hwf) as (_ & Hn & Hbc & _).
  destruct (Z.eqb_spec (bh_magic h) BATCH_MAGIC) as [Em|]; [|rejected].
  destruct (Z.eqb_spec (bh_format h) BATCH_FORMAT) as [Efm|]; [|rejected].
  destruct (Z.eqb_spec (bh_chunk_count h) (Z.of_nat (length lens))) as [Ec|]; [|rejected].
  cbn [negb orb]. rewrite table_extents_ok by done.
  destruct (Z.ltb_spec (Z.of_nat (length primary)) (buffers_offset (bh_node_count h) + bh_buffer_count h * SIZEOF_BufferEntry)) as [|Ht];
    [rejected|].
  unfold buffers_offset, nodes_offset, SIZEOF_BatchHeader, SIZEOF_NodeEntry, SIZEOF_BufferEntry in *.
  rewrite (read_table_in_bounds node_layout) by (change (size_of node_layout) with 24%nat; mach).
  rewrite (read_table_in_bounds entry_layout) by (change (size_of entry_layout) with 12%nat; mach).
  cbn [mbind option_bind]. eexists. split; [done|]. intros h' ns es. rewrite rbind_Ok. intros (l & Hchk & [= <- <- <-]).
  destruct (table_bytes node_layout node_of node_fields (Z.to_nat (bh_node_count h)) (drop (Z.to_nat 32) primary))
    as [Bn Wn]; [apply node_fields_of|by apply Forall_drop|change (size_of node_layout) with 24%nat; rewrite length_drop; mach|].
  destruct (table_bytes entry_layout entry_of entry_fields (Z.to_nat (bh_buffer_count h)) (drop (Z.to_nat (32 + bh_node_count h * 24)) primary))
    as [Be We]; [apply entry_fields_of|by apply Forall_drop|change (size_of entry_layout) with 12%nat; rewrite length_drop; mach|].
  unfold well_laid_out. split_and!; try done.
  - rewrite length_fmap, length_unpack_many. mach.
  - rewrite length_fmap, length_unpack_many. mach.
  - apply try_map_check in Hchk. apply list.Forall_forall. intros e He. rewrite list.Forall_forall in We, Hchk.
    apply check_entry_inside; [by apply We|by apply Hchk].
  - unfold tables_bytes. cbn zeta in Bn, Be. unfold node_bytes at 1, entry_bytes at 1. rewrite Bn, Be. unfold header_bytes. rewrite Ef.
    rewrite pack_unpack by (done || (change (size_of header_layout) with 32%nat; lia)).
    exists (drop (Z.to_nat (32 + bh_node_count h * 24 + bh_buffer_count h * 12)) primary).
    change (size_of header_layout) with 32%nat. change (size_of node_layout) with 24%nat. change (size_of entry_layout) with 12%nat.
    change (Z.to_nat 32) with 32%nat.
    replace (Z.to_nat (32 + bh_node_count h * 24)) with (32 + Z.to_nat (bh_node_count h) * 24)%nat by mach.
    replace (Z.to_nat (32 + bh_node_count h * 24 + bh_buffer_count h * 12)) with (32 + Z.to_nat (bh_node_count h) * 24 + Z.to_nat (bh_buffer_count h) * 12)%nat by mach.
    rewrite <- !app_assoc. etransitivity; [symmetry; apply (take_drop 32)|]. f_equal.
    etransitivity; [symmetry; apply (take_drop (Z.to_nat (bh_node_count h) * 24))|]. f_equal. rewrite drop_drop.
    etransitivity; [symmetry; apply (take_drop (Z.to_nat (bh_buffer_count h) * 12))|]. f_equal. by rewrite drop_drop.
Qed.

(** What a writer lays out is accepted. *)
Lemma layout_accepts primary h ns es lens :
  well_laid_out primary lens h ns es -> read_batch_layout primary lens = Some (Ok (h, ns, es)).
Proof.
  intros (Hwf & Em & Ef & Ec & En & Eb & Wn & We & Hin & rest & ->). destruct (header_wf_u32 h Hwf) as (_ & Hn & Hb & _).
  assert (Ln : length (List.concat (node_bytes <$> ns)) = (length ns * 24)%nat).
  { clear. induction ns as [|n ns IH]; [done|]. rewrite fmap_cons. cbn [List.concat length]. rewrite length_app, length_node_bytes, IH. lia. }
  assert (Le : length (List.concat (entry_bytes <$> es)) = (length es * 12)%nat).
  { clear. induction es as [|n es IH]; [done|]. rewrite fmap_cons. cbn [List.concat length]. rewrite length_app, length_entry_bytes, IH. lia. }
  unfold tables_bytes. rewrite <- !app_assoc. unfold read_batch_layout.
  rewrite !length_app, length_header_bytes, Ln, Le. unfold SIZEOF_BatchHeader. rewrite (proj2 (Z.ltb_ge _ _)) by lia.
  rewrite read_header by (rewrite length_app, length_header_bytes; lia). cbn [mbind option_bind].
  assert (Eu : forall r, unpack header_layout (header_bytes h ++ r) = header_fields h) by (intros r; by apply unpack_pack).
  rewrite !Eu, !header_of_fields, Em, Ef, Ec, !Z.eqb_refl. cbn [negb orb].
  rewrite table_extents_ok by done. unfold buffers_offset, nodes_offset, SIZEOF_BatchHeader, SIZEOF_NodeEntry, SIZEOF_BufferEntry.
  rewrite (proj2 (Z.ltb_ge _ _)) by lia.
  rewrite (read_table_in_bounds node_layout) by (change (size_of node_layout) with 24%nat; rewrite ?length_app, ?length_header_bytes, ?Ln, ?Le; mach).
  rewrite (read_table_in_bounds entry_layout) by (change (size_of entry_layout) with 12%nat; rewrite ?length_app, ?length_header_bytes, ?Ln, ?Le; mach).
  cbn [mbind option_bind]. rewrite En, Eb, Nat2Z.id, Nat2Z.id.
  set (tn := List.concat (node_bytes <$> ns)) in *. set (te := List.concat (entry_bytes <$> es)) in *.
  assert (E1 : drop (Z.to_nat 32) (header_bytes h ++ tn ++ te ++ rest) = tn ++ te ++ rest)
    by (apply drop_app_length'; by rewrite length_header_bytes).
  assert (E2 : drop (Z.to_nat (32 + Z.of_nat (length ns) * 24)) (header_bytes h ++ tn ++ te ++ rest) = te ++ rest)
    by (rewrite app_assoc; apply drop_app_length'; rewrite length_app, length_header_bytes, Ln; lia).
  rewrite E1, E2. unfold tn, te.
  rewrite (table_read_back node_layout node_of node_fields ns _ node_of_fields Wn).
  rewrite (table_read_back entry_layout entry_of entry_fields es _ entry_of_fields We).
  assert (Hck : Forall (fun e => check_entry lens e = Ok tt) es).
  { apply list.Forall_forall. intros e He. rewrite list.Forall_forall in We, Hin. apply check_entry_inside; [by apply We|by apply Hin]. }
  apply try_map_checked in Hck. destruct (try_map (check_entry lens) es); [done|discriminate].
Qed.
(** C40. The layout check is safe on bytes it cannot trust and exact.  For any bytes in the
    primary chunk and any chunk lengths it answers without reading outside the chunk, and it
    accepts a header with its node and buffer tables if and only if they are what a writer
    lays out there: right magic, version and chunk count, both tables inside the chunk, and
    every buffer entry inside the chunk it names. *)
Theorem layout_check_exact primary lens : Forall is_u8 primary ->
  exists r, read_batch_layout primary lens = Some r /\
    forall h ns es, r = Ok (h, ns, es) <-> well_laid_out primary lens h ns es.
Proof.
  intros Hb. destruct (layout_total primary lens Hb) as (r & Hr & Hok). exists r. split; [done|].
  intros h ns es. split; [apply Hok|]. intros Hw%layout_accepts. congruence.
Qed.
End layout.

(** A hostile header: four billion nodes in a 64-byte chunk. *)
Definition hostile_primary : list Z :=
  header_bytes (mkBatchHeader BATCH_MAGIC BATCH_FORMAT 1 3 U32_MAX 0 1) ++ replicate 32 0.

#[export] Instance demo_types : ArrowTypes := {| flat_type := Z; field_info := Z; schema_meta := unit; arrow_error := unit |}.

Lemma layout_check_exact_witness :
  exists r, read_batch_layout hostile_primary [64] = Some r /\
    forall h ns es, r = Ok (h, ns, es) <-> well_laid_out hostile_primary [64] h ns es.
Proof. apply (layout_check_exact hostile_primary [64]). apply (bool_decide_unpack _). vm_compute. exact I. Defined.

(** * Flattening and packing a batch

    The pre-order tables [plan_node] emits are exactly what the reader's lockstep walk of the
    schema consumes, and [pack] assigns every buffer to a place of its own inside a chunk. *)

Section plan.
Context `{ArrowLib}.

(** ** Specification of the walk *)

(** An array tree as Arrow guarantees it: the children's types are those of the parent's
    type, lengths and null counts are [usize] values, buffers are bytes. *)
Fixpoint typed (a : ArrayData) : Prop :=
  match a with
  | mkArrayData dt n _ nb bufs cs =>
      0 <= n /\ match nb with Some b => 0 <= nb_nulls b /\ Forall is_u8 (nb_buffer b) | None => True end /\
      Forall (Forall is_u8) bufs /\ data_type <$> cs = child_data_types dt /\
      foldr (fun c P => typed c /\ P) True cs
  end.

(** The tree handed to Arrow's builder again, bottom-up and in order. *)
Fixpoint rebuild (a : ArrayData) : result ArrowErr ArrayData :=
  match a with
  | mkArrayData dt n _ nb bufs cs =>
      let? cs' := try_map rebuild cs in
      match build dt n (match nb with Some b => nb_nulls b | None => 0 end) (nb_buffer <$> nb) bufs cs' with
      | Ok a' => Ok a'
      | Err e => Err (AArrow e)
      end
  end.

(** ** The writer's tables drive the reader *)

(** The children part of [plan_node]. *)
Definition plan_list : list ArrayData -> result ArrowErr (list NodeEntry * list (list Z)) :=
  fix children (cs : list ArrayData) :=
    match cs with
    | [] => Ok ([], [])
    | c :: cs' =>
        let? (ns, bs) := plan_node c in
        let? (ns', bs') := children cs' in
        Ok (ns ++ ns', bs ++ bs')
    end.

Lemma each_field_fmap {F G} (g : F -> G) (node : G -> Cursors -> result ArrowErr (ArrayData * Cursors)) fs c :
  each_field (fun f => node (g f)) fs c = each_field node (g <$> fs) c.
Proof.
  revert c. induction fs as [|f fs IH]; intros c; [done|]. rewrite fmap_cons. cbn [each_field].
  destruct (node (g f) c) as [[a c']|]; cbn [rbind]; [|done]. by rewrite IH.
Qed.

(** [build_node] with its children read off [child_data_types]. *)
Lemma build_node_eq nodes mb dt c :
  build_node nodes mb dt c =
    (let? node := ok_or (nodes !! ni c) (LayoutErr LNodeUnderrun) in
     let? (nulls, b) :=
       if negb (has_validity node =? 0) then let? buf := mb (bi c) in Ok (Some buf, S (bi c)) else Ok (None, bi c) in
     let? (bufs, b') := add_buffers mb (Z.to_nat (data_buffers node)) b in
     if negb (Z.of_nat (length (child_data_types dt)) =? child_count node) then Err (LayoutErr LChildCount)
     else
       let? (children, c'') := each_field (build_node nodes mb) (child_data_types dt) (mkCursors (S (ni c)) b') in
       match build dt (n_len node) (n_null_count node) nulls bufs children with
       | Ok a => Ok (a, c'')
       | Err e => Err (AArrow e)
       end).
Proof.
  destruct dt; cbn [build_node child_data_types each_field];
    (destruct (nodes !! ni c) as [nd|]; cbn [ok_or rbind]; [|done]);
    (destruct (negb (has_validity nd =? 0)); [destruct (mb (bi c)); cbn [rbind]; [|done]|cbn [rbind]]);
    (destruct (add_buffers mb (Z.to_nat (data_buffers nd)) _) as [[bufs b']|]; cbn [rbind]; [|done]);
    (case (negb _); [done|]); try done; try (by rewrite <- each_field_fmap);
    by destruct (build_node nodes mb _ _) as [[]|].
Qed.

Lemma ensure_ok dt u : ensure_supported dt = Ok u -> u = tt.
Proof. by destruct u. Qed.

Lemma try_u32_Ok x w y : try_u32 x w = Ok y <-> y = x /\ x < U32_MOD.
Proof. unfold try_u32. destruct (Z.ltb_spec x U32_MOD); naive_solver lia. Qed.

(** A node's own part of its plan. *)
Lemma plan_node_Ok dt n o nb bufs cs ns bs :
  plan_node (mkArrayData dt n o nb bufs cs) = Ok (ns, bs) ->
  exists ns' bs', plan_list cs = Ok (ns', bs') /\
    ns = mkNode n (match nb with Some b => nb_nulls b | None => 0 end) (match nb with Some _ => 1 | None => 0 end)
           (Z.of_nat (length bufs)) (Z.of_nat (length cs)) 0 :: ns' /\
    bs = (match nb with Some b => [nb_buffer b] | None => [] end ++ bufs) ++ bs' /\
    n < U32_MOD /\ match nb with Some b => nb_nulls b | None => 0 end < U32_MOD /\
    Z.of_nat (length bufs) < U32_MOD /\ Z.of_nat (length cs) < U32_MOD.
Proof.
  cbn [plan_node]. fold plan_list. rewrite rbind_Ok. intros (u & _ & E).
  apply rbind_Ok in E as (l & [-> ?]%try_u32_Ok & E). apply rbind_Ok in E as (k & [-> ?]%try_u32_Ok & E).
  apply rbind_Ok in E as (db & [-> ?]%try_u32_Ok & E). apply rbind_Ok in E as (cc & [-> ?]%try_u32_Ok & E).
  apply rbind_Ok in E as ([ns' bs'] & Ep & [= <- <-]). exists ns', bs'. rewrite <- app_assoc. split_and!; done.
Qed.

(** The buffers a table of them serves. *)
Definition serve (bufs : list (list Z)) (idx : nat) : result ArrowErr (list Z) := ok_or (bufs !! idx) (LayoutErr LBuffersUnderrun).

Lemma serve_app pre b post : serve (pre ++ b :: post) (length pre) = Ok b.
Proof. unfold serve. by rewrite list_lookup_middle. Qed.

(** A buffer factory that serves the buffers [bufs]. *)
Definition serves (mb : nat -> result ArrowErr (list Z)) (bufs : list (list Z)) : Prop := forall i, mb i = serve bufs i.

Lemma add_buffers_app mb pre bs post : serves mb (pre ++ bs ++ post) ->
  add_buffers mb (length bs) (length pre) = Ok (bs, (length pre + length bs)%nat).
Proof.
  revert pre. induction bs as [|b bs IH]; intros pre Hmb; cbn [length add_buffers].
  { by rewrite Nat.add_0_r. }
  rewrite Hmb. change ((b :: bs) ++ post) with (b :: bs ++ post) in *. rewrite serve_app. cbn [rbind].
  replace (S (length pre)) with (length (pre ++ [b])) by (rewrite length_app; cbn; lia).
  rewrite IH by (by rewrite <- app_assoc). cbn [rbind]. do 2 f_equal. rewrite length_app. cbn. lia.
Qed.

Definition walks (a : ArrayData) : Prop :=
  forall ns bs pn rn pb rb mb, plan_node a = Ok (ns, bs) -> serves mb (pb ++ bs ++ rb) ->
    build_node (pn ++ ns ++ rn) mb (data_type a) (mkCursors (length pn) (length pb)) =
      let? a' := rebuild a in Ok (a', mkCursors (length pn + length ns) (length pb + length bs)).

Lemma walk_list cs : Forall walks cs -> forall ns bs pn rn pb rb mb, plan_list cs = Ok (ns, bs) -> serves mb (pb ++ bs ++ rb) ->
  each_field (build_node (pn ++ ns ++ rn) mb) (data_type <$> cs) (mkCursors (length pn) (length pb)) =
    let? cs' := try_map rebuild cs in Ok (cs', mkCursors (length pn + length ns) (length pb + length bs)).
Proof.
  induction 1 as [|c cs Hc _ IH]; intros ns bs pn rn pb rb mb.
  { intros [= <- <-] _. cbn. by rewrite !Nat.add_0_r. }
  cbn [plan_list]. rewrite rbind_Ok. intros ([n1 b1] & E1 & E). apply rbind_Ok in E as ([n2 b2] & E2 & [= <- <-]).
  rewrite fmap_cons. cbn [each_field try_map]. rewrite <- !app_assoc. intros Hmb.
  rewrite (Hc n1 b1 pn (n2 ++ rn) pb (b2 ++ rb) mb E1 Hmb).
  destruct (rebuild c) as [a'|]; cbn [rbind]; [|done].
  rewrite (app_assoc pn), <- !length_app. rewrite (IH n2 b2 (pn ++ n1) rn (pb ++ b1) rb mb E2) by (by rewrite <- app_assoc).
  destruct (try_map rebuild cs) as [cs'|]; cbn [rbind]; [|done]. rewrite !length_app. do 3 f_equal; lia.
Qed.

Lemma typed_children cs : foldr (fun c P => typed c /\ P) True cs -> Forall typed cs.
Proof. induction cs as [|c cs IH]; [constructor|]. cbn. intros [? ?]. constructor; auto. Qed.

(** A node's own buffers: the validity bitmap, if any, then the data buffers. *)
Definition own_buffers (nb : option NullBuffer) (bufs : list (list Z)) : list (list Z) :=
  match nb with Some b => [nb_buffer b] | None => [] end ++ bufs.

Lemma take_own {B} nb bufs pb rest mb (k : option (list Z) -> list (list Z) -> nat -> result ArrowErr B) :
  serves mb (pb ++ own_buffers nb bufs ++ rest) ->
  (let? (nulls, b) :=
     if negb (match nb with Some _ => 1 | None => 0 end =? 0) then let? buf := mb (length pb) in Ok (Some buf, S (length pb))
     else Ok (None, length pb) in
   let? (bufs', b') := add_buffers mb (length bufs) b in k nulls bufs' b') =
  k (nb_buffer <$> nb) bufs (length pb + length (own_buffers nb bufs))%nat.
Proof.
  unfold own_buffers. intros Hmb. destruct nb as [b|]; cbn [negb Z.eqb rbind fmap option_fmap option_map app] in *.
  - rewrite Hmb, serve_app. cbn [rbind].
    replace (S (length pb)) with (length (pb ++ [nb_buffer b])) by (rewrite length_app; cbn; lia).
    rewrite (add_buffers_app mb _ bufs rest) by (by rewrite <- app_assoc). cbn [rbind]. f_equal. rewrite length_app. cbn. lia.
  - by rewrite (add_buffers_app mb pb bufs rest).
Qed.

Lemma typed_walks a : typed a -> walks a.
Proof.
  induction a as [dt n o nb bufs cs IH] using ArrayData_tree_ind. intros (Hn & Hnb & _ & Ety & Hcs%typed_children).
  assert (Hw : Forall walks cs) by (rewrite list.Forall_forall in IH, Hcs |- *; auto).
  intros ns bs pn rn pb rb mb E. destruct (plan_node_Ok _ _ _ _ _ _ _ _ E) as (ns' & bs' & Ep & -> & -> & _).
  fold (own_buffers nb bufs). rewrite <- (app_assoc (own_buffers nb bufs)). intros Hmb.
  rewrite build_node_eq. cbn [ni bi data_type]. set (node := mkNode _ _ _ _ _ _).
  change ((node :: ns') ++ rn) with (node :: ns' ++ rn). rewrite list_lookup_middle by done.
  cbn [ok_or rbind]. rewrite <- Ety, length_fmap. cbn [node has_validity data_buffers child_count n_len n_null_count].
  rewrite Nat2Z.id, Z.eqb_refl. cbn [negb]. rewrite (take_own nb bufs pb (bs' ++ rb) mb _ Hmb).
  replace (pn ++ node :: ns' ++ rn) with ((pn ++ [node]) ++ ns' ++ rn) by (by rewrite <- app_assoc).
  replace (S (length pn)) with (length (pn ++ [node])) by (rewrite length_app; cbn; lia).
  rewrite <- (length_app pb (own_buffers nb bufs)).
  rewrite (walk_list cs Hw ns' bs' _ _ (pb ++ own_buffers nb bufs) rb mb Ep) by (by rewrite <- app_assoc). cbn [rebuild].
  destruct (try_map rebuild cs) as [cs'|]; cbn [rbind]; [|done].
  destruct (build dt n _ _ bufs cs') as [a'|]; cbn [rbind]; [|done]. do 2 f_equal. rewrite !length_app. cbn [length]. f_equal; lia.
Qed.

(** ** What the writer puts into its tables *)

Lemma plan_list_inv (P : ArrayData -> list NodeEntry -> list (list Z) -> Prop) (Q : list NodeEntry -> list (list Z) -> Prop) cs ns bs :
  Q [] [] -> (forall c n b n' b', P c n b -> Q n' b' -> Q (n ++ n') (b ++ b')) ->
  Forall (fun c => forall n b, plan_node c = Ok (n, b) -> P c n b) cs -> plan_list cs = Ok (ns, bs) -> Q ns bs.
Proof.
  intros H0' Hs Hcs. revert ns bs. induction Hcs as [|c cs Hc _ IH]; intros ns bs; [by intros [= <- <-]|].
  cbn [plan_list]. rewrite rbind_Ok. intros ([n b] & E1 & E). apply rbind_Ok in E as ([n' b'] & E2 & [= <- <-]). eauto.
Qed.

Definition tables_ok (ns : list NodeEntry) (bs : list (list Z)) : Prop := Forall node_wf ns /\ Forall (Forall is_u8) bs.

Lemma tables_ok_app n b n' b' : tables_ok n b -> tables_ok n' b' -> tables_ok (n ++ n') (b ++ b').
Proof. intros [? ?] [? ?]. split; by apply Forall_app. Qed.

Lemma plan_node_tables a ns bs : typed a -> plan_node a = Ok (ns, bs) -> tables_ok ns bs.
Proof.
  revert ns bs. induction a as [dt n o nb bufs cs IH] using ArrayData_tree_ind.
  intros ns bs (Hn & Hnb & Hb & _ & Hcs%typed_children) E.
  destruct (plan_node_Ok _ _ _ _ _ _ _ _ E) as (ns' & bs' & Ep & -> & -> & H1 & H2 & H3 & H4).
  assert (Hch : tables_ok ns' bs').
  { refine (plan_list_inv (fun _ => tables_ok) tables_ok cs ns' bs' _ _ _ Ep).
    - by split.
    - intros _. apply tables_ok_app.
    - rewrite list.Forall_forall in IH, Hcs |- *. eauto. }
  destruct Hch as [Hns Hbs]. split.
  - constructor; [|done]. unfold node_wf, in_range, node_fields, node_layout. cbn [n_len n_null_count has_validity data_buffers child_count n_pad].
    assert (0 <= match nb with Some b => nb_nulls b | None => 0 end) by (destruct nb; [apply Hnb|lia]).
    assert (0 <= match nb with Some _ => 1 | None => 0 end <= 1) by (destruct nb; lia).
    do 6 (constructor; [change (256 ^ Z.of_nat 4) with U32_MOD; mach|]). constructor.
  - apply Forall_app. split; [|done]. apply Forall_app. split; [|done]. destruct nb as [b|]; [|constructor].
    constructor; [apply Hnb|constructor].
Qed.

(** ** Columns *)

(** What Arrow guarantees of [concat]: it compacts, it does not change the type. *)
Class ArrowLaws : Prop := {
  concat_typed a b : arrow_concat a = Ok b -> typed (to_data a) -> typed (to_data b) /\ data_type (to_data b) = data_type (to_data a)
}.

(** A batch as [RecordBatch::try_new] guarantees it: a column of the field's type for every
    field. *)
Definition batch_ok (b : RecordBatch) : Prop :=
  0 <= num_rows b /\
  Forall2 (fun f col => typed (to_data col) /\ data_type (to_data col) = f.2) (fields (batch_schema b)) (columns b).

(** The column as written, rebuilt. *)
Definition rebuild_column (col : ArrayRef) : result ArrowErr ArrayData := let? a := normalize col in rebuild (to_data a).

(** The batch a reader should get: every column's tree, normalised, goes to Arrow's builder;
    the arrays go to Arrow's batch constructor under the batch's schema. *)
Definition rebuilt_batch (b : RecordBatch) : result ArrowErr RecordBatch :=
  let? arrays := try_map rebuild_column (columns b) in
  match try_new (batch_schema b) (make_array <$> arrays) with Ok b' => Ok b' | Err e => Err (AArrow e) end.

Context `{!ArrowLaws}.

Lemma normalize_typed col a ty : normalize col = Ok a -> typed (to_data col) /\ data_type (to_data col) = ty ->
  typed (to_data a) /\ data_type (to_data a) = ty.
Proof.
  unfold normalize. destruct (is_normalized (to_data col)); [by intros [= <-]|].
  destruct (arrow_concat col) as [c|] eqn:E; [|done]. intros [= <-] [Ht <-]. by apply concat_typed.
Qed.

Lemma plan_columns_inv fs cols ns bs :
  Forall2 (fun (f : field_info * DataType) col => typed (to_data col) /\ data_type (to_data col) = f.2) fs cols ->
  plan_columns cols = Ok (ns, bs) ->
  tables_ok ns bs /\
  forall pn rn pb rb mb, serves mb (pb ++ bs ++ rb) ->
    each_field (fun f => build_node (pn ++ ns ++ rn) mb f.2) fs (mkCursors (length pn) (length pb)) =
      let? arrays := try_map rebuild_column cols in Ok (arrays, mkCursors (length pn + length ns) (length pb + length bs)).
Proof.
  intros Hf. revert ns bs. induction Hf as [|f col fs cols Hc _ IH]; intros ns bs.
  { intros [= <- <-]. split; [by split|]. intros. cbn. by rewrite !Nat.add_0_r. }
  cbn [plan_columns]. rewrite rbind_Ok. intros (a & En & E). apply rbind_Ok in E as ([n1 b1] & E1 & E).
  apply rbind_Ok in E as ([n2 b2] & E2 & [= <- <-]). destruct (normalize_typed col a _ En Hc) as [Ht Ety].
  destruct (IH n2 b2 E2) as [Hok Hw]. split; [apply tables_ok_app; [by eapply plan_node_tables|done]|].
  intros pn rn pb rb mb. rewrite <- !app_assoc. intros Hmb. cbn [each_field try_map]. unfold rebuild_column at 1.
  rewrite En. cbn [rbind]. rewrite <- Ety. rewrite (typed_walks _ Ht n1 b1 pn (n2 ++ rn) pb (b2 ++ rb) mb E1 Hmb).
  destruct (rebuild (to_data a)) as [a'|]; cbn [rbind]; [|done].
  rewrite (app_assoc pn), <- !length_app, (Hw (pn ++ n1) rn (pb ++ b1) rb mb) by (by rewrite <- app_assoc).
  destruct (try_map rebuild_column cols) as [cs'|]; cbn [rbind]; [|done]. rewrite !length_app. do 3 f_equal; lia.
Qed.

(** ** Packing *)

(** [loc] is at or after position [(chunk, off)]. *)
Definition at_or_after (chunk off : Z) (loc : Z * Z) : Prop := chunk < loc.1 \/ (chunk = loc.1 /\ off <= loc.2).

Fixpoint in_order (chunk off : Z) (placed : list ((Z * Z) * list Z)) : Prop :=
  match placed with
  | [] => True
  | (loc, b) :: placed' => at_or_after chunk off loc /\ in_order loc.1 (loc.2 + Z.of_nat (length b)) placed'
  end.

(** Buffer [b] at [loc] lies inside the used part of its chunk. *)
Definition fits_in (used : list Z) (loc : Z * Z) (b : list Z) : Prop :=
  exists y, at_index used loc.1 = Some y /\ 0 <= loc.2 /\ loc.2 + Z.of_nat (length b) <= y.

Lemma pack_loop_ok bufs cap cur cursor used ls u :
  pack_loop bufs cap cur cursor used = Ok (ls, u) ->
  length used = S cur -> used !! cur = Some cursor -> Forall (fun x => 0 <= x <= cap) used ->
  cap < U32_MOD -> Z.of_nat (cur + length bufs) < U32_MOD ->
  length ls = length bufs /\ in_order (Z.of_nat cur) cursor (zip ls bufs) /\ Forall2 (fits_in u) ls bufs /\
  Forall (fun x => 0 <= x <= cap) u /\ (length used <= length u <= length used + length bufs)%nat /\
  forall k x, used !! k = Some x -> exists y, u !! k = Some y /\ x <= y.
Proof.
  revert cur cursor used ls u. induction bufs as [|b bufs IH]; intros cur cursor used ls u E Hlen Hcur Hall Hcap Hn.
  { cbn in E. injection E as <- <-. cbn. split_and!; try done; try lia. intros k x Hx. exists x. split; [done|lia]. }
  cbn [pack_loop] in E. cbn zeta in E. cbn [length] in *. set (blen := Z.of_nat (length b)) in *.
  destruct (Z.ltb_spec cap blen) as [|Hb]; [done|].
  pose proof (proj1 (list.Forall_lookup _ _) Hall cur cursor Hcur) as Hc. cbn in Hc.
  pose proof (align_up_spec cursor 6 ltac:(lia)) as [Ha _]. change (2 ^ 6) with 64 in Ha.
  set (off := align_up cursor BUFFER_ALIGN) in *. change (align_up cursor 64) with off in Ha.
  (* one placement at [(cur', off')] from the chunk list [used'] *)
  assert (Step : forall cur' off' used', length used' = S cur' -> (cur <= cur' <= S cur)%nat -> 0 <= off' -> off' + blen <= cap ->
    Forall (fun x => 0 <= x <= cap) used' -> at_or_after (Z.of_nat cur) cursor (Z.of_nat cur', off') ->
    (forall k x, used !! k = Some x -> exists y, <[cur' := off' + blen]> used' !! k = Some y /\ x <= y) ->
    (let? (ls, u) := pack_loop bufs cap cur' (off' + blen) (<[cur' := off' + blen]> used') in
      Ok ((wrap32 (Z.of_nat cur'), wrap32 off') :: ls, u)) = Ok (ls, u) ->
    length ls = S (length bufs) /\ in_order (Z.of_nat cur) cursor (zip ls (b :: bufs)) /\ Forall2 (fits_in u) ls (b :: bufs) /\
    Forall (fun x => 0 <= x <= cap) u /\ (length used <= length u <= length used + S (length bufs))%nat /\
    forall k x, used !! k = Some x -> exists y, u !! k = Some y /\ x <= y).
  { clear E. intros cur' off' used' Hl' Hcc Ho Hoc Hall' Haft Hgrow E. apply rbind_Ok in E as ([ls' u'] & E & [= <- <-]).
    assert (Hlt : (cur' < length used')%nat) by lia.
    apply IH in E as (L1 & L2 & L3 & L4 & L5 & L6); try done; try lia.
    2: { by rewrite length_insert. } 2: { by apply list_lookup_insert_eq. } 2: { apply Forall_insert; [done|lia]. }
    rewrite length_insert in L5. rewrite !wrap32_id by mach. cbn [length zip zip_with in_order].
    split_and!; try done; try lia.
    - constructor; [|done]. destruct (L6 cur' (off' + blen)) as (y & Hy & Hle); [by apply list_lookup_insert_eq|].
      exists y. cbn [fst snd]. unfold at_index. rewrite (proj2 (Z.leb_le 0 _)) by lia. rewrite Nat2Z.id. split_and!; [done|lia|lia].
    - intros k x Hx. destruct (Hgrow k x Hx) as (y & Hy & Hxy). destruct (L6 k y Hy) as (z & Hz & Hyz). exists z. split; [done|lia]. }
  destruct (Z.ltb_spec cap (off + blen)) as [Hov|Hfit]; (eapply Step; [..|exact E]); clear Step E.
  - rewrite length_app. cbn. lia.
  - lia.
  - lia.
  - lia.
  - apply Forall_app. split; [done|]. constructor; [lia|constructor].
  - left. cbn. lia.
  - intros k x Hx. exists x. split; [|lia]. rewrite list_lookup_insert_ne by (apply lookup_lt_Some in Hx; lia).
    rewrite lookup_app_l by (by eapply lookup_lt_Some). done.
  - done.
  - lia.
  - lia.
  - lia.
  - done.
  - right. cbn. lia.
  - intros k x Hx. destruct (decide (k = cur)) as [->|Hne].
    + exists (off + blen). split; [apply list_lookup_insert_eq; lia|]. assert (x = cursor) by congruence. lia.
    + exists x. split; [|lia]. by rewrite list_lookup_insert_ne.
Qed.
End plan.
