(* ===== verification/ArrowBatch.v ===== *)
(** * Batches through chunks

    A batch written into chunks of a pool is read back: the reader hands Arrow's builder the
    same tree of arrays the writer was given (normalised), in any later memory in which the
    chunks still hold their bytes and generations.  A failed write leaves the pool as it
    was. *)

From S2P Require Import Prelude Atomic ChunkDesc ChunkCtrl Pod Treiber Pool PoolInv SegBytes PoolClient PoolDraw Arrow ArrowLayout.

(** ** Memory after the copies *)

Lemma put_bytes_app w a b1 b2 : put_bytes w a (b1 ++ b2) = put_bytes (put_bytes w a b1) (a + Z.of_nat (length b1)) b2.
Proof.
  revert w a. induction b1 as [|b b1 IH]; intros w a; cbn [app put_bytes length].
  { by rewrite Z.add_0_r. }
  rewrite IH. f_equal. lia.
Qed.

Lemma run_put_at a bs m : run (put_at a bs) m = Some (tt, set_words (put_bytes (words m) a bs) m).
Proof. done. Qed.

(** A table is one contiguous write. *)
Lemma run_table stride rs a m : Forall (fun r => Z.of_nat (length r) = stride) rs ->
  run (put_all (table_at a stride rs)) m = Some (tt, set_words (put_bytes (words m) a (List.concat rs)) m).
Proof.
  intros Hs. revert a m. induction Hs as [|r rs Hr _ IH]; intros a m.
  { by destruct m. }
  unfold put_all in *. cbn [table_at for_fold List.concat]. rewrite run_bind, run_put_at, IH. cbn [words set_words].
  rewrite put_bytes_app, Hr. done.
Qed.

Section copies.
Variable chunks : list ChunkDesc.

Definition copy_word (w : gmap Z Z) (pb : (Z * Z) * list Z) : gmap Z Z :=
  match at_index chunks pb.1.1 with Some d => put_bytes w (base_of d + pb.1.2) pb.2 | None => w end.

(** A placed buffer lies inside its chunk and is made of bytes. *)
Definition placed_in (pb : (Z * Z) * list Z) : Prop :=
  exists d, at_index chunks pb.1.1 = Some d /\ 0 <= pb.1.2 /\ pb.1.2 + Z.of_nat (length pb.2) <= len d /\ Forall is_u8 pb.2.

Lemma run_copies placed m : Forall placed_in placed ->
  run (for_fold placed (fun _ pb => copy_to chunks pb.1 pb.2) tt) m = Some (tt, set_words (foldl copy_word (words m) placed) m).
Proof.
  intros Hp. revert m. induction Hp as [|pb placed (d & Hd & _) _ IH]; intros m.
  { by destruct m. }
  cbn [for_fold foldl]. unfold copy_to at 1, copy_word at 2. rewrite Hd, run_bind, run_put_at, IH. done.
Qed.

Lemma copies_keep placed w a n :
  Forall (fun pb => forall d, at_index chunks pb.1.1 = Some d -> Forall is_u8 pb.2 /\
    (a + n <= base_of d + pb.1.2 \/ base_of d + pb.1.2 + Z.of_nat (length pb.2) <= a)) placed ->
  bytes_at (foldl copy_word w placed) a n = bytes_at w a n.
Proof.
  intros Hp. revert w. induction Hp as [|pb placed Hpb _ IH]; intros w; [done|]. cbn [foldl]. rewrite IH.
  unfold copy_word. destruct (at_index chunks pb.1.1) as [d|]; [|done]. destruct (Hpb d eq_refl). by apply bytes_at_put_outside.
Qed.

Lemma in_order_after c o placed : in_order c o placed -> Forall (fun pb => at_or_after c o pb.1) placed.
Proof.
  revert c o. induction placed as [|[loc b] placed IH]; intros c o; [constructor|]. cbn [in_order]. intros [Hl Hr]. constructor; [done|].
  eapply Forall_impl; [|exact (IH _ _ Hr)]. intros [loc' b']. unfold at_or_after in *. cbn in *. lia.
Qed.

(** Chunks do not overlap. *)
Variable apart : forall j k d e, chunks !! j = Some d -> chunks !! k = Some e -> j <> k ->
  offset d + len d <= offset e \/ offset e + len e <= offset d.

Lemma at_index_lookup {A} (l : list A) i x : at_index l i = Some x -> 0 <= i /\ l !! Z.to_nat i = Some x.
Proof. unfold at_index. destruct (Z.leb_spec 0 i); [done|discriminate]. Qed.

(** What lies before a position of the packing is not touched by what is placed after it. *)
Lemma copies_before placed w c o d a n :
  at_index chunks c = Some d -> 0 <= a -> a + n <= o -> 0 <= n -> a + n <= len d ->
  Forall placed_in placed -> Forall (fun pb => at_or_after c o pb.1) placed ->
  bytes_at (foldl copy_word w placed) (base_of d + a) n = bytes_at w (base_of d + a) n.
Proof.
  intros [Hc Hd]%at_index_lookup Ha Hn Hn0 Hl Hp Hi. apply copies_keep. rewrite list.Forall_forall in Hp, Hi |- *.
  intros pb Hpb e He. destruct (Hp pb Hpb) as (e' & He' & Ho & Hb & Hu). assert (e' = e) as -> by congruence. split; [done|].
  apply at_index_lookup in He as [Hc' He]. destruct (Hi pb Hpb) as [Hlt|[Heq Hle]].
  - destruct (apart (Z.to_nat c) (Z.to_nat pb.1.1) d e Hd He ltac:(lia)); unfold base_of; lia.
  - rewrite <- Heq in He. assert (e = d) as -> by congruence. lia.
Qed.

(** Every buffer is read back from where it was placed. *)
Lemma copies_get placed w c o i loc b d :
  in_order c o placed -> Forall placed_in placed -> placed !! i = Some (loc, b) -> at_index chunks loc.1 = Some d ->
  bytes_at (foldl copy_word w placed) (base_of d + loc.2) (Z.of_nat (length b)) = b.
Proof.
  intros Ho Hp. revert w c o i Ho. induction Hp as [|[loc0 b0] placed Hpb Hp IH]; intros w c o i Ho Hi Hd; [done|].
  destruct Ho as [_ Ho]. destruct i as [|i]; [|by eapply IH]. cbn in Hi. injection Hi as <- <-. cbn [foldl].
  destruct Hpb as (d' & Hd' & H1 & H2 & H3). cbn in Hd', H1, H2, H3. assert (d' = d) as -> by congruence.
  rewrite (copies_before placed _ loc0.1 (loc0.2 + Z.of_nat (length b0)) d); [|done|done|lia|lia|done|done|by apply in_order_after].
  unfold copy_word. cbn [fst snd]. rewrite Hd. by apply bytes_at_put.
Qed.
End copies.

(** ** Allocation and rollback *)

Lemma drawn_with_schema p fl m ds d xs s : drawn p fl m (ds ++ [d]) xs -> drawn p fl m (ds ++ [with_schema d s]) xs.
Proof.
  intros (Hnd & Hd & Hr). split_and!; [done| |done]. apply Forall2_app_inv_l in Hd as (xs1 & xs2 & H1 & H2 & ->).
  apply Forall2_app; [done|]. inversion H2 as [|? x ? ? Hx Hn]; subst. inversion Hn; subst. by constructor.
Qed.

(** The pool is as it was, its free lists perhaps in another order. *)
Definition restored (p : Pool) (m : PoolMem) (fl : list (list Z)) (m' : PoolMem) : Prop :=
  ctrls m' = ctrls m /\ exists fl', pool_inv p m' fl' /\ Forall2 Permutation fl' fl.

Lemma keeps_app_r ds ds' m m' : keeps (ds ++ ds') m m' -> keeps ds' m m'.
Proof. intros H e He. apply H, elem_of_app. by right. Qed.

(** Chunks [ds0] are held throughout. *)
Section frame.
Context (p : Pool) (fl : list (list Z)) (ds0 : list ChunkDesc) (xs0 : list (nat * Z)).

Lemma run_free_all fuel m ds xs : length ds = length xs -> drawn p fl m (ds ++ ds0) (xs ++ xs0) ->
  exists m', run (free_all p (S fuel) ds) m = Some (Some tt, m') /\ drawn p fl m' ds0 xs0 /\ settled_pool m m' /\ keeps ds0 m m'.
Proof.
  revert m xs. induction ds as [|d ds IH]; intros m [|x xs] Hl Hd; try done.
  { exists m. split_and!; [done|done|done|apply keeps_refl]. }
  destruct (drawn_free p fl m d (ds ++ ds0) x (xs ++ xs0) fuel Hd) as (m1 & Hrun & Hd1 & Hs1 & Hk1).
  destruct (IH m1 xs ltac:(by injection Hl) Hd1) as (m2 & Hrun2 & Hd2 & Hs2 & Hk2).
  exists m2. split_and!; [|done|by eapply settled_trans|eapply keeps_trans; [by eapply keeps_app_r|done]].
  unfold free_all in *. cbn [loop_fold]. unfold fbind at 1, pool_free, fbind. rewrite !run_bind, Hrun. exact Hrun2.
Qed.
End frame.

Lemma run_max_chunk_size p m : pool_geom p m -> exists cap, run (max_chunk_size p) m = Some (cap, m) /\ is_u32 cap.
Proof.
  intros Hg. unfold max_chunk_size, class_indices. rewrite (geom_classes p m Hg), Nat2Z.id.
  assert (Hsz : Forall (fun c => is_u32 (chunk_size c)) (classes m)).
  { apply list.Forall_lookup. intros i c Hi. destruct (geom_layout p m Hg) as (lo & hi & _ & _ & Hlo).
    destruct (laid_out_lookup _ _ _ _ _ _ _ Hlo Hi) as ((_ & _ & Hs & _) & _). done. }
  assert (G : forall n k acc, (k + n <= length (classes m))%nat -> is_u32 acc ->
    exists cap, run (for_fold (seq k n) (fun acc i => c <- class i ;; Ret (Z.max acc (chunk_size c))) acc) m = Some (cap, m) /\ is_u32 cap).
  { induction n as [|n IH]; intros k acc Hk Ha; [by exists acc|]. cbn [seq for_fold]. rewrite !run_bind.
    destruct (lookup_lt_is_Some_2 (classes m) k) as [c Hc]; [lia|]. unfold class at 1. rewrite run_act, Hc. cbn [run].
    apply IH; [lia|]. rewrite list.Forall_lookup in Hsz. specialize (Hsz k c Hc). cbn in Hsz. mach. }
  apply (G _ 0%nat); [lia|mach].
Qed.

Section batch.
Context `{ArrowLib}.

Lemma run_alloc_chunks p fl ds0 xs0 fuel sid used m ds xs :
  length ds0 = length xs0 -> length ds = length xs ->
  drawn p fl m (ds0 ++ ds) (xs0 ++ xs) -> Forall2 (current m) ds xs -> Forall is_u32 used ->
  exists r m', run (alloc_chunks p (S fuel) sid used ds) m = Some (Some r, m') /\ settled_pool m m' /\ keeps ds0 m m' /\
    match r with
    | Ok ds' => exists new xs', ds' = ds ++ new /\ drawn p fl m' (ds0 ++ ds') (xs0 ++ xs') /\ Forall2 (current m') ds' xs' /\
        Forall2 (fun u d => u <= len d) used new /\ Forall (of_pool p sid) new
    | Err e => drawn p fl m' ds0 xs0 /\ (e = ACore PoolExhausted \/ e = ACore LayoutOverflow)
    end.
Proof.
  intros Hl0 Hl Hd Hc Hu. revert m ds xs Hl Hd Hc. induction Hu as [|u used Hu0 _ IH]; intros m ds xs Hl Hd Hc.
  { exists (Ok ds), m. split_and!; [done|done|apply keeps_refl|]. exists [], xs. rewrite app_nil_r. split_and!; done. }
  destruct (drawn_alloc p fl m (ds0 ++ ds) (xs0 ++ xs) fuel u Hd) as (r & m1 & Hrun & Hr).
  cbn [alloc_chunks]. unfold fbind at 1, pool_alloc. rewrite (proj2 (Z.leb_gt _ _)) by mach. unfold fbind at 1.
  rewrite run_bind, run_bind, Hrun. destruct r as [d|e]; cbn [run done].
  - destruct Hr as (x & Hd1 & Hc1 & Hlen & Ew & (Hid & _ & Hpad) & Hset). rewrite (proj2 (Z.ltb_ge _ _)) by lia.
    destruct (IH m1 (ds ++ [with_schema d sid]) (xs ++ [x])) as (r & m2 & Hrun2 & Hset2 & Hk2 & Hr).
    { rewrite !length_app. cbn. lia. }
    { rewrite !app_assoc. by apply drawn_with_schema. }
    { apply Forall2_app; [|by constructor]. eapply list.Forall2_impl; [exact Hc|]. intros e y. by apply settled_current. }
    exists r, m2. split_and!; [done|by eapply settled_trans| |].
    { eapply keeps_trans; [|exact Hk2]. intros e _. unfold chunk_bytes. by rewrite Ew. }
    destruct r as [ds'|e]; [|done].
    destruct Hr as (new & xs' & -> & ? & ? & ? & ?). exists (with_schema d sid :: new), xs'.
    rewrite <- app_assoc in *. split_and!; [done|done|done| |]; by constructor.
  - destruct Hr as [-> He]. apply drawn_swap in Hd; [|done].
    destruct (run_free_all p fl ds0 xs0 fuel m ds xs Hl Hd) as (m2 & Hf & Hd2 & Hset & Hk). unfold fbind. rewrite run_bind, Hf.
    exists (Err (ACore e)), m2. split_and!; [done|done|done|done|]. destruct He as [-> | ->]; auto.
Qed.

(** ** The write *)

Lemma length_concat_nodes ns : length (List.concat (node_bytes <$> ns)) = (length ns * 24)%nat.
Proof. induction ns as [|n ns IH]; [done|]. rewrite fmap_cons. cbn [List.concat length]. rewrite length_app, length_node_bytes, IH. lia. Qed.

Lemma length_concat_entries es : length (List.concat (entry_bytes <$> es)) = (length es * 12)%nat.
Proof. induction es as [|n es IH]; [done|]. rewrite fmap_cons. cbn [List.concat length]. rewrite length_app, length_entry_bytes, IH. lia. Qed.

Lemma length_tables h ns es : length (tables_bytes h ns es) = (32 + length ns * 24 + length es * 12)%nat.
Proof. unfold tables_bytes. rewrite !length_app, length_header_bytes, length_concat_nodes, length_concat_entries. lia. Qed.

Lemma concat_bytes bss : Forall (Forall is_u8) bss -> Forall is_u8 (List.concat bss).
Proof. induction 1; cbn; [constructor|]. by apply Forall_app. Qed.

Lemma tables_are_bytes h ns es : Forall is_u8 (tables_bytes h ns es).
Proof.
  unfold tables_bytes. rewrite !Forall_app. split_and!; [apply pack_bytes| |]; apply concat_bytes, Forall_fmap, Forall_true; intros; apply pack_bytes.
Qed.

(** The three parts of the primary chunk's head are one write. *)
Lemma run_write_plan chunks primary h plan packing m :
  let placed := zip (locs packing) (p_buffers plan) in
  Forall (placed_in chunks) placed ->
  run (write_plan chunks primary h plan packing) m =
    Some (tt, set_words (foldl (copy_word chunks)
      (put_bytes (words m) (base_of primary) (tables_bytes h (p_nodes plan) ((fun pb => entry_for pb.1 pb.2) <$> placed))) placed) m).
Proof.
  intros placed Hp. unfold write_plan. fold placed. rewrite run_bind, run_put_at.
  rewrite run_bind, run_table by (apply Forall_fmap, Forall_true; intros n; unfold compose; by rewrite length_node_bytes).
  rewrite run_bind, run_table by (apply Forall_fmap, Forall_true; intros n; unfold compose; by rewrite length_entry_bytes).
  rewrite run_copies by done. unfold tables_bytes. rewrite !put_bytes_app, length_header_bytes, length_concat_nodes.
  rewrite <- (list_fmap_compose (fun pb => entry_for pb.1 pb.2) entry_bytes). cbn [words set_words].
  unfold buffers_offset, nodes_offset, SIZEOF_BatchHeader, SIZEOF_NodeEntry.
  replace (base_of primary + Z.of_nat 32 + Z.of_nat (length (p_nodes plan) * 24))
    with (base_of primary + (32 + Z.of_nat (length (p_nodes plan)) * 24)) by lia. done.
Qed.

Lemma payload_start_ge n k : buffers_offset n + k * SIZEOF_BufferEntry <= payload_start n k.
Proof. unfold payload_start. apply (align_up_spec _ 6). lia. Qed.

Lemma tables_end h ns es : Z.of_nat (length (tables_bytes h ns es)) <= payload_start (Z.of_nat (length ns)) (Z.of_nat (length es)).
Proof.
  rewrite length_tables. etransitivity; [|apply payload_start_ge].
  unfold buffers_offset, nodes_offset, SIZEOF_BatchHeader, SIZEOF_NodeEntry, SIZEOF_BufferEntry. lia.
Qed.

Lemma length_entries_for ls (bufs : list (list Z)) : length ls = length bufs ->
  length ((fun pb => entry_for pb.1 pb.2) <$> zip ls bufs) = length bufs.
Proof. intros E. rewrite length_fmap, length_zip_with. lia. Qed.

Lemma pack_plan_ok plan cap packing :
  let start := payload_start (Z.of_nat (length (p_nodes plan))) (Z.of_nat (length (p_buffers plan))) in
  pack_plan plan cap = Ok packing -> is_u32 cap ->
  length (locs packing) = length (p_buffers plan) /\ in_order 0 start (zip (locs packing) (p_buffers plan)) /\
  Forall2 (fits_in (chunk_used packing)) (locs packing) (p_buffers plan) /\ Forall is_u32 (chunk_used packing) /\
  (exists u0 us, chunk_used packing = u0 :: us /\ start <= u0) /\ Z.of_nat (length (chunk_used packing)) < U32_MOD /\ start < U32_MOD.
Proof.
  intros start. unfold pack_plan. fold start. destruct (Z.ltb_spec cap start) as [|Hs]; [done|].
  rewrite rbind_Ok. intros ([ls u] & E & [= <-]) Hcap.
  pose proof (payload_start_ge (Z.of_nat (length (p_nodes plan))) (Z.of_nat (length (p_buffers plan)))) as Hge. fold start in Hge.
  unfold buffers_offset, nodes_offset, SIZEOF_BatchHeader, SIZEOF_NodeEntry, SIZEOF_BufferEntry in Hge.
  apply pack_loop_ok in E as (L1 & L2 & L3 & L4 & L5 & L6); try done; try mach.
  2: { constructor; [lia|constructor]. }
  destruct (L6 0%nat start eq_refl) as (y & Hy & Hle). cbn [length] in L5. cbn [locs chunk_used]. split_and!; try done; try mach.
  - eapply Forall_impl; [|exact L4]. cbn. mach.
  - destruct u as [|u0 us]; [done|]. injection Hy as ->. eauto.
Qed.

(** The buffers land inside the allocated chunks. *)
Lemma placed_in_chunks used chunks ls bufs :
  Forall2 (fits_in used) ls bufs -> Forall (Forall is_u8) bufs -> Forall2 (fun u d => u <= len d) used chunks ->
  Forall (placed_in chunks) (zip ls bufs).
Proof.
  intros Hf Hb Hl. revert Hb. induction Hf as [|loc b ls bufs (y & Hy & Ho & Hle) _ IH]; intros [Hb Hbs]%list.Forall_cons || intros _; [constructor|].
  constructor; [|by apply IH]. apply at_index_lookup in Hy as [Hc Hy]. destruct (Forall2_lookup_l _ _ _ _ _ Hl Hy) as (d & Hd & Hud).
  exists d. cbn [fst snd]. unfold at_index. rewrite (proj2 (Z.leb_le 0 _)) by done. split_and!; [done|done|lia|done].
Qed.

(** What a reader sees in the chunks. *)
Lemma written_views chunks primary rest w h ns placed start :
  chunks = primary :: rest ->
  (forall j k d e, chunks !! j = Some d -> chunks !! k = Some e -> j <> k -> offset d + len d <= offset e \/ offset e + len e <= offset d) ->
  Forall (placed_in chunks) placed -> in_order 0 start placed ->
  let tables := tables_bytes h ns ((fun pb => entry_for pb.1 pb.2) <$> placed) in
  Z.of_nat (length tables) <= start -> Z.of_nat (length tables) <= len primary ->
  let w' := foldl (copy_word chunks) (put_bytes w (base_of primary) tables) placed in
  (exists tail, bytes_at w' (base_of primary) (len primary) = tables ++ tail) /\
  forall i loc b, placed !! i = Some (loc, b) -> exists d, at_index chunks loc.1 = Some d /\
    take (length b) (drop (Z.to_nat loc.2) (bytes_at w' (base_of d) (len d))) = b.
Proof.
  intros Ech Hap Hp Ho tables Hts Htl w'. split.
  - replace (len primary) with (Z.of_nat (length tables) + (len primary - Z.of_nat (length tables))) by lia.
    rewrite bytes_at_app by lia. eexists. f_equal. unfold w'. rewrite <- (Z.add_0_r (base_of primary)) at 2.
    rewrite (copies_before chunks Hap placed _ 0 start primary); try lia; try done; [|by rewrite Ech|by apply in_order_after].
    rewrite Z.add_0_r. apply bytes_at_put, tables_are_bytes.
  - intros i loc b Hi. pose proof (proj1 (list.Forall_lookup _ _) Hp i _ Hi) as (d & Hd & H1 & H2 & _). cbn [fst snd] in Hd, H1, H2.
    exists d. split; [done|]. etransitivity; [|exact (copies_get chunks Hap placed (put_bytes w (base_of primary) tables) 0 start i loc b d Ho Hp Hi Hd)].
    fold w'. rewrite (bytes_at_sub w' (base_of d) (len d) loc.2 (Z.of_nat (length b))) by lia. by rewrite Nat2Z.id.
Qed.

(** ** Reading *)

(** The control words show the descriptors' generations. *)
Definition fresh_in (m : PoolMem) (d : ChunkDesc) (g : Z) : Prop :=
  exists k, ctrls m !! Z.to_nat g = Some k /\ ChunkDesc.generation d = ctrl_gen k.

Lemma run_validate_all m chunks gs : Forall2 (fresh_in m) chunks gs ->
  run (for_each (zip chunks gs) (fun dc =>
    r <- ctrl_at dc.2 (validate dc.1) ;; Ret (match r with Ok _ => None | Err e => Some e end))) m = Some (None, m).
Proof.
  induction 1 as [|d g chunks gs (k & Hk & Eg) _ IH]; [done|]. cbn [zip zip_with for_each]. rewrite !run_bind.
  assert (E : run (ctrl_at g (validate d)) m = Some (Ok tt, m)).
  { unfold ctrl_at, validate, ChunkCtrl.generation, load. cbn. unfold elem. rewrite Hk. cbn. rewrite Eg, Z.eqb_refl, list_insert_id by done. by destruct m. }
  cbn [fst snd]. rewrite E. cbn [run]. exact IH.
Qed.

Context `{!ArrowLaws}.

(** The walk over what was written. *)
Lemma rebuild_written b plan packing views reg h :
  batch_ok b -> plan_batch b = Ok plan ->
  let placed := zip (locs packing) (p_buffers plan) in
  length (locs packing) = length (p_buffers plan) -> Forall (fun x => Z.of_nat (length x) < U32_MOD) (p_buffers plan) ->
  (forall i loc x, placed !! i = Some (loc, x) -> exists v, at_index views loc.1 = Some v /\
    take (length x) (drop (Z.to_nat loc.2) v) = x) ->
  registry_resolve (bh_schema_id h) reg = Some (batch_schema b) ->
  bh_node_count h = Z.of_nat (length (p_nodes plan)) -> bh_buffer_count h = Z.of_nat (length (p_buffers plan)) ->
  rebuild_batch reg (bh_schema_id h) views h (p_nodes plan) ((fun pb => entry_for pb.1 pb.2) <$> placed) = rebuilt_batch b.
Proof.
  intros [_ Hb] Hpl placed Hlen Hu Hv Hr En Ebc. unfold rebuild_batch, rebuilt_batch. rewrite Z.eqb_refl. cbn [negb]. rewrite Hr. cbn [ok_or rbind].
  unfold plan_batch in Hpl. apply rbind_Ok in Hpl as ([ns bs] & Epc & [= <-]). cbn [p_nodes p_buffers] in *.
  destruct (plan_columns_inv _ _ _ _ Hb Epc) as [_ Hw].
  assert (Hs : serves (make_buffer_of views ((fun pb => entry_for pb.1 pb.2) <$> placed)) ([] ++ bs ++ [])).
  { intros i. unfold make_buffer_of, serve. cbn [app]. rewrite app_nil_r, list_lookup_fmap.
    destruct (bs !! i) as [x|] eqn:Hx.
    - destruct (lookup_lt_is_Some_2 (locs packing) i) as [loc Hl]; [rewrite Hlen; by eapply lookup_lt_Some|].
      assert (Hi : placed !! i = Some (loc, x)) by (unfold placed; rewrite lookup_zip_with, Hl; cbn; by rewrite Hx).
      rewrite Hi. cbn [fmap option_fmap option_map ok_or rbind entry_for e_len e_offset chunk_index fst snd].
      destruct (Hv i loc x Hi) as (v & Hvv & Et). rewrite Hvv. change (default [] (Some v)) with v.
      rewrite wrap32_id by (rewrite list.Forall_lookup in Hu; specialize (Hu i x Hx); mach). by rewrite Nat2Z.id, Et.
    - rewrite (lookup_ge_None_2 placed); [done|]. unfold placed. rewrite length_zip_with. apply lookup_ge_None in Hx. lia. }
  specialize (Hw [] [] [] [] _ Hs). cbn [app length Nat.add] in Hw. rewrite app_nil_r in Hw. rewrite Hw.
  destruct (try_map rebuild_column (columns b)) as [arrays|]; cbn [rbind ni bi]; [|done].
  by rewrite En, Ebc, !Z.eqb_refl.
Qed.

(** ** The theorem *)

(** In [m'], the chunks still hold what they held in [m] and have not been recycled. *)
Definition still_holds (m m' : PoolMem) (chunks : list ChunkDesc) (gs : list Z) : Prop :=
  Forall (fun d => bytes_at (words m') (base_of d) (len d) = bytes_at (words m) (base_of d) (len d)) chunks /\
  Forall2 (fresh_in m') chunks gs.

(** What the chunks hold in [m] is batch [b] to every reader. *)
Definition reads_back (p : Pool) (m : PoolMem) (chunks : list ChunkDesc) (sid : Z) (b : RecordBatch) : Prop :=
  forall m2 reg gs, still_holds m m2 chunks gs -> registry_resolve sid reg = Some (batch_schema b) ->
    run (read_batch_chunks (segment p) chunks gs reg) m2 = Some (rebuilt_batch b, m2).

(** The writes keep the pool consistent. *)
Lemma drawn_copies cs p fl m ds xs w placed : (forall d, d ∈ cs -> d ∈ ds) ->
  drawn p fl (set_words w m) ds xs -> Forall (placed_in cs) placed ->
  drawn p fl (set_words (foldl (copy_word cs) w placed) m) ds xs.
Proof.
  intros Hcs Hd Hp. revert w Hd. induction Hp as [|pb placed (d & Hix & G1 & G2 & _) _ IH]; intros w Hd; [done|]. cbn [foldl]. apply IH.
  unfold copy_word. rewrite Hix. apply at_index_lookup in Hix as [_ Hix].
  exact (drawn_put p fl (set_words w m) ds xs d pb.1.2 pb.2 Hd (Hcs d (list_elem_of_lookup_2 _ _ _ Hix)) G1 G2).
Qed.

(** The outcome of a write, with chunks [ds0] held throughout: an error that left nothing
    behind, or chunks that read back. *)
Definition wrote (p : Pool) (fl : list (list Z)) (ds0 : list ChunkDesc) (xs0 : list (nat * Z)) (m : PoolMem) (b : RecordBatch) (sid : Z)
    (r : result ArrowErr (list ChunkDesc)) (m' : PoolMem) : Prop :=
  settled_pool m m' /\ keeps ds0 m m' /\
  match r with
  | Err _ => drawn p fl m' ds0 xs0
  | Ok chunks => exists xs, drawn p fl m' (ds0 ++ chunks) (xs0 ++ xs) /\ Forall2 (current m') chunks xs /\ chunks <> [] /\
      Z.of_nat (length chunks) < U32_MOD /\ Forall (of_pool p sid) chunks /\ reads_back p m' chunks sid b
  end.

(** The same for a writer that held nothing before. *)
Definition written (p : Pool) (m : PoolMem) (fl : list (list Z)) (b : RecordBatch) (sid : Z)
    (r : result ArrowErr (list ChunkDesc)) (m' : PoolMem) : Prop :=
  match r with
  | Err _ => restored p m fl m'
  | Ok chunks => exists xs gs, drawn p fl m' chunks xs /\ gs = ctrl_index m' <$> xs /\ still_holds m' m' chunks gs /\
      Forall (fun d => schema_id d = sid) chunks /\ reads_back p m' chunks sid b
  end.

Lemma restored_drawn p m fl m' : drawn p fl m' [] [] -> ctrls m' = ctrls m -> restored p m fl m'.
Proof. intros Hd Ec. split; [done|]. by eapply drawn_none. Qed.

(** The entries point inside the chunks. *)
Lemma entries_inside ds ls bufs : Forall (placed_in ds) (zip ls bufs) -> Forall (fun x => Z.of_nat (length x) < U32_MOD) bufs ->
  Forall (entry_inside (len <$> ds)) ((fun pb => entry_for pb.1 pb.2) <$> zip ls bufs).
Proof.
  intros Hp Hu. apply Forall_fmap, list.Forall_lookup. intros i [loc x] Hi. rewrite list.Forall_lookup in Hp. rewrite list.Forall_lookup in Hu.
  destruct (Hp i _ Hi) as (d & Hd & G1 & G2 & _). apply at_index_lookup in Hd as [G0 Hd].
  apply lookup_zip_with_Some in Hi as (? & y & [= <- <-] & _ & Hx). specialize (Hu i x Hx). cbn in Hu.
  unfold compose, entry_for, entry_inside. cbn [fst snd chunk_index e_offset e_len] in *. rewrite wrap32_id by mach.
  exists (len d). unfold at_index. rewrite (proj2 (Z.leb_le _ _)) by done. rewrite list_lookup_fmap, Hd. split_and!; [done|lia|lia|lia].
Qed.

(** The reader on chunks that show a written batch. *)
Lemma read_written p fl m ds xs b plan packing h reg gs m2 primary rest :
  ds = primary :: rest -> drawn p fl m ds xs -> batch_ok b -> plan_batch b = Ok plan ->
  let placed := zip (locs packing) (p_buffers plan) in
  let start := payload_start (Z.of_nat (length (p_nodes plan))) (Z.of_nat (length (p_buffers plan))) in
  let es := (fun pb => entry_for pb.1 pb.2) <$> placed in
  length (locs packing) = length (p_buffers plan) -> Forall (placed_in ds) placed -> in_order 0 start placed -> start <= len primary ->
  Forall (fun x => Z.of_nat (length x) < U32_MOD) (p_buffers plan) -> Forall entry_wf es -> tables_ok (p_nodes plan) (p_buffers plan) ->
  header_wf h -> bh_magic h = BATCH_MAGIC -> bh_format h = BATCH_FORMAT -> bh_chunk_count h = Z.of_nat (length ds) ->
  bh_node_count h = Z.of_nat (length (p_nodes plan)) -> bh_buffer_count h = Z.of_nat (length (p_buffers plan)) ->
  bh_schema_id h = schema_id primary -> registry_resolve (bh_schema_id h) reg = Some (batch_schema b) ->
  still_holds (set_words (foldl (copy_word ds) (put_bytes (words m) (base_of primary) (tables_bytes h (p_nodes plan) es)) placed) m) m2 ds gs ->
  run (read_batch_chunks (segment p) ds gs reg) m2 = Some (rebuilt_batch b, m2).
Proof.
  intros Eds Hd Hb Hpl placed start es Hll Hpin Hord Hst Hu He [Hn _] Hwf Em Ef Ecc Enc Ebc Esid Hreg [Hw Hfr].
  assert (Hes : length es = length (p_buffers plan)) by (by apply length_entries_for).
  assert (Htab : Z.of_nat (length (tables_bytes h (p_nodes plan) es)) <= start) by (unfold start; rewrite <- Hes; apply tables_end).
  destruct (written_views ds primary rest (words m) h (p_nodes plan) placed start Eds (fun j k d e => drawn_disjoint p fl m ds xs j k d e Hd) Hpin Hord Htab (Z.le_trans _ _ _ Htab Hst))
    as [[tail Etab] Hviews].
  fold es in Etab, Hviews. cbn [words set_words] in Hw. set (w' := foldl (copy_word ds) _ placed) in *.
  assert (Ev : (fun d => bytes_at (words m2) (base_of d) (len d)) <$> ds = (fun d => bytes_at w' (base_of d) (len d)) <$> ds).
  { apply list_fmap_ext. intros i d Hi. rewrite list.Forall_lookup in Hw. exact (Hw i d Hi). }
  unfold read_batch_chunks. rewrite Eds at 1. rewrite (Forall2_length Hfr), Nat.eqb_refl. cbn [negb].
  rewrite run_bind, (run_validate_all m2 ds gs Hfr), run_bind. unfold view_chunks. rewrite run_act.
  assert (Hmap : forallb (in_mapping (segment p)) ds = true).
  { apply forallb_forall. intros d Hin%list_elem_of_In. destruct (drawn_bounds _ _ _ _ _ _ Hd Hin) as (G1 & G2 & _).
    unfold in_mapping. rewrite (proj2 (Z.leb_le _ _)), (proj2 (Z.leb_le _ _)) by done. done. }
  rewrite Hmap, Ev. rewrite Eds at 1. rewrite fmap_cons. cbn [lookup list_lookup]. change (default [] (Some ?v)) with v. rewrite Etab.
  rewrite (layout_accepts _ h (p_nodes plan) es).
  - cbn [run]. do 2 f_equal. rewrite <- Esid. apply (rebuild_written b plan packing); try done.
    intros i loc x Hi. destruct (Hviews i loc x Hi) as (d & [G0 Hix]%at_index_lookup & Et).
    eexists. split; [|exact Et]. unfold at_index. rewrite (proj2 (Z.leb_le _ _)) by done. by rewrite list_lookup_fmap, Hix.
  - unfold well_laid_out. rewrite length_fmap, Hes. split_and!; try done; [by apply entries_inside|by eexists].
Qed.

(** The header and entries fit their fields. *)
Lemma entries_wf p fl m ds xs ls bufs : drawn p fl m ds xs -> Z.of_nat (length ds) < U32_MOD -> Forall (placed_in ds) (zip ls bufs) ->
  Forall entry_wf ((fun pb => entry_for pb.1 pb.2) <$> zip ls bufs).
Proof.
  intros Hd Hl Hp. apply Forall_fmap. eapply Forall_impl; [|exact Hp]. intros [loc x] (d & Hix & G1 & G2 & _).
  apply at_index_lookup in Hix as [G0 Hix]. destruct (drawn_bounds _ _ _ _ _ d Hd (list_elem_of_lookup_2 _ _ _ Hix)) as (_ & _ & _ & _ & _ & Hu).
  apply lookup_lt_Some in Hix. unfold compose, entry_wf, in_range, entry_fields, entry_layout, entry_for. cbn [fst snd chunk_index e_offset e_len] in *.
  do 3 (constructor; [change (256 ^ Z.of_nat 4) with U32_MOD; try apply wrap32_u32; mach|]). constructor.
Qed.

Lemma buffers_small p fl m ds xs ls bufs : drawn p fl m ds xs -> length ls = length bufs -> Forall (placed_in ds) (zip ls bufs) ->
  Forall (fun x => Z.of_nat (length x) < U32_MOD) bufs.
Proof.
  intros Hd Hl Hp. apply list.Forall_lookup. intros i x Hx.
  destruct (lookup_lt_is_Some_2 ls i) as [loc Hloc]; [rewrite Hl; by eapply lookup_lt_Some|].
  assert (Hi : zip ls bufs !! i = Some (loc, x)) by (rewrite lookup_zip_with, Hloc; cbn; by rewrite Hx).
  rewrite list.Forall_lookup in Hp. destruct (Hp i _ Hi) as (d & Hix & G1 & G2 & _). apply at_index_lookup in Hix as [_ Hix].
  destruct (drawn_bounds _ _ _ _ _ d Hd (list_elem_of_lookup_2 _ _ _ Hix)) as (_ & _ & _ & _ & _ & Hu). cbn [fst snd] in *. mach.
Qed.

Lemma header_fits sid rows nodes bufs chunks : is_u32 sid -> is_u32 rows -> is_u32 nodes -> is_u32 bufs -> is_u32 chunks ->
  header_wf (mkBatchHeader BATCH_MAGIC BATCH_FORMAT sid rows nodes bufs chunks).
Proof.
  intros. unfold header_wf, in_range, header_fields, header_layout.
  cbn [bh_magic bh_format bh_schema_id bh_row_count bh_node_count bh_buffer_count bh_chunk_count]. constructor; [vm_compute; split; congruence|].
  constructor; [vm_compute; split; congruence|]. do 5 (constructor; [change (256 ^ Z.of_nat 4) with U32_MOD; mach|]). constructor.
Qed.

Lemma current_fresh m ds xs : Forall2 (current m) ds xs -> Forall2 (fresh_in m) ds (ctrl_index m <$> xs).
Proof. intros Hc. apply Forall2_fmap_r. eapply Forall2_impl; [|exact Hc]. done. Qed.

(** The part after the allocation. *)
Lemma write_allocated p fl ds0 xs0 m m1 ds xs sid b plan packing rows :
  length ds0 = length xs0 -> drawn p fl m1 (ds0 ++ ds) (xs0 ++ xs) -> Forall2 (current m1) ds xs ->
  Forall2 (fun u d => u <= len d) (chunk_used packing) ds ->
  Forall (of_pool p sid) ds -> is_u32 sid -> is_u32 rows -> batch_ok b -> plan_batch b = Ok plan ->
  forall cap, pack_plan plan cap = Ok packing -> is_u32 cap -> settled_pool m m1 -> keeps ds0 m m1 ->
  Z.of_nat (length (p_nodes plan)) < U32_MOD -> Z.of_nat (length (p_buffers plan)) < U32_MOD ->
  exists primary rest m', ds = primary :: rest /\
    run (write_plan ds primary (mkBatchHeader BATCH_MAGIC BATCH_FORMAT sid rows (Z.of_nat (length (p_nodes plan)))
      (Z.of_nat (length (p_buffers plan))) (wrap32 (Z.of_nat (length (chunk_used packing))))) plan packing) m1 = Some (tt, m') /\
    wrote p fl ds0 xs0 m b sid (Ok ds) m'.
Proof.
  intros Hl0 Hda Hc Hul Hsid Hs Hr Hb Hpl cap Hpk Hcap Hset Hkeep Hnn Hbb. pose proof (Forall2_length Hc) as Hlx.
  assert (Hd : exists fl1, drawn p fl1 m1 ds xs) by (eapply drawn_part; [done|]; exact (drawn_swap _ _ _ _ _ _ _ Hl0 Hda)).
  destruct Hd as [fl1 Hd].
  assert (Hout : forall e d, e ∈ ds0 -> d ∈ ds -> offset e + len e <= offset d \/ offset d + len d <= offset e).
  { intros e d [k Hk]%list_elem_of_lookup [j Hj]%list_elem_of_lookup.
    apply (drawn_disjoint p fl m1 _ _ k (length ds0 + j)%nat e d Hda); [by apply lookup_app_l_Some|by rewrite lookup_app_r, Nat.add_comm, Nat.add_sub by lia|].
    apply lookup_lt_Some in Hk. lia. }
  destruct (pack_plan_ok plan cap packing Hpk Hcap) as (L1 & L2 & L3 & L4 & (u0 & us & Eu & Hu0) & L6 & L7).
  assert (Htok : tables_ok (p_nodes plan) (p_buffers plan)).
  { unfold plan_batch in Hpl. apply rbind_Ok in Hpl as ([ns bs] & Epc & [= <-]). cbn. by destruct (plan_columns_inv _ _ _ _ (proj2 Hb) Epc). }
  pose proof (placed_in_chunks _ _ _ _ L3 (proj2 Htok) Hul) as Hpin. pose proof (Forall2_length Hul) as Elen.
  destruct ds as [|primary rest] eqn:Eds; [rewrite Eu in Elen; discriminate|]. rewrite <- Eds in *.
  assert (Hpl0 : u0 <= len primary) by (rewrite Eu, Eds in Hul; by apply list.Forall2_cons in Hul as [? _]).
  assert (Hprim : primary ∈ ds) by (rewrite Eds; apply list_elem_of_here).
  set (h := mkBatchHeader _ _ _ _ _ _ _).
  exists primary, rest. eexists. split; [done|]. split; [by apply run_write_plan|].
  set (tb := tables_bytes h _ _). set (w' := foldl _ _ _).
  assert (Htb : Z.of_nat (length tb) <= len primary).
  { unfold tb. etransitivity; [apply tables_end|]. rewrite (length_entries_for _ _ L1). lia. }
  split_and!; [done| |exists xs; split_and!].
  - eapply keeps_trans; [exact Hkeep|]. intros e He. unfold chunk_bytes, w'. cbn [words set_words]. rewrite copies_keep.
    + apply bytes_at_put_outside; [apply tables_are_bytes|]. destruct (Hout e primary He Hprim); unfold base_of; lia.
    + eapply Forall_impl; [|exact Hpin]. intros pb (d & Hix & G1 & G2 & G3) d' Hd'. assert (d' = d) as -> by congruence. split; [done|].
      apply at_index_lookup in Hix as [_ Hix]. destruct (Hout e d He ltac:(by eapply list_elem_of_lookup_2)); unfold base_of; lia.
  - unfold w'. apply drawn_copies; [intros d Hin; apply elem_of_app; by right| |done].
    replace (base_of primary) with (offset primary - HEADER_SIZE + 0) by (unfold base_of; lia).
    apply drawn_put; [done|apply elem_of_app; by right|lia|lia].
  - done.
  - by rewrite Eds.
  - by rewrite <- Elen.
  - done.
  - intros m2 reg gs Hst Hreg.
    eapply (read_written p fl1 m1 ds xs b plan packing h reg _ m2 primary rest); try done; try lia.
    + by eapply buffers_small.
    + eapply entries_wf; [done| |done]. rewrite <- Elen. done.
    + apply header_fits; try done; try mach. apply wrap32_u32.
    + cbn. rewrite wrap32_id by mach. by rewrite Elen.
    + rewrite Eds in Hsid. by apply list.Forall_cons in Hsid as [(_ & ? & _) _].
Qed.

(** Everything up to the first access may only fail. *)
Lemma checks_Ok plan cap packing rows nodes bufs :
  (let? packing := pack_plan plan cap in
   let? rows := try_u32 (p_row_count plan) URowCount in
   let? nodes := try_u32 (Z.of_nat (length (p_nodes plan))) UNodeCount in
   let? bufs := try_u32 (Z.of_nat (length (p_buffers plan))) UBufferCount in
   Ok (packing, rows, nodes, bufs)) = Ok (packing, rows, nodes, bufs) ->
  pack_plan plan cap = Ok packing /\ rows = p_row_count plan /\ rows < U32_MOD /\
  nodes = Z.of_nat (length (p_nodes plan)) /\ nodes < U32_MOD /\ bufs = Z.of_nat (length (p_buffers plan)) /\ bufs < U32_MOD.
Proof.
  rewrite rbind_Ok. intros (pk & Epk & E). apply rbind_Ok in E as (r & [-> ?]%try_u32_Ok & E).
  apply rbind_Ok in E as (n & [-> ?]%try_u32_Ok & E). apply rbind_Ok in E as (k & [-> ?]%try_u32_Ok & [= <- <- <- <-]). split_and!; done.
Qed.

(** A write by a holder of [ds0]. *)
Lemma run_write_chunks p fl ds0 xs0 m fuel sid b :
  drawn p fl m ds0 xs0 -> batch_ok b -> is_u32 sid ->
  exists r m', run (write_chunks_as p (S fuel) sid b) m = Some (Some r, m') /\ wrote p fl ds0 xs0 m b sid r m'.
Proof.
  intros Hd0 Hb Hs. unfold write_chunks_as. pose proof (proj1 (proj2 Hd0)) as Hl0%Forall2_length.
  assert (Hfail : forall e, wrote p fl ds0 xs0 m b sid (Err e) m) by (intros e; split_and!; [done|apply keeps_refl|done]).
  destruct (plan_batch b) as [plan|e] eqn:Hpl; [|exists (Err e), m; by split].
  pose proof Hd0 as (_ & _ & fl' & (Hg & _) & _). destruct (run_max_chunk_size p m Hg) as (cap & Hcap & Hcu). rewrite run_bind, Hcap.
  destruct (let? packing := _ in _) as [[[[packing rows] nodes] bufs]|e] eqn:Echk; [|exists (Err e), m; by split].
  apply checks_Ok in Echk as (Hpk & -> & Hr & -> & Hn & -> & Hbf).
  destruct (pack_plan_ok plan cap packing Hpk Hcu) as (_ & _ & _ & Hused & _).
  destruct (run_alloc_chunks p fl ds0 xs0 fuel sid (chunk_used packing) m [] []) as (r & m1 & Hrun & Hset & Hk & Hm1);
    [done|done|by rewrite !app_nil_r|constructor|done|].
  unfold fbind. rewrite run_bind, Hrun. destruct r as [ds|e]; [|exists (Err e), m1; split; [done|]; split_and!; [done|done|apply Hm1]].
  destruct Hm1 as (new & xs & -> & Hd & Hc & Hul & Hsid). cbn [app] in *.
  assert (Hrows : is_u32 (p_row_count plan)).
  { unfold plan_batch in Hpl. apply rbind_Ok in Hpl as ([ns bs] & _ & [= <-]). cbn in *. destruct Hb as [? _]. mach. }
  destruct (write_allocated p fl ds0 xs0 m m1 new xs sid b plan packing (p_row_count plan) Hl0 Hd Hc Hul Hsid Hs Hrows Hb Hpl cap Hpk Hcu Hset Hk Hn Hbf)
    as (primary & rest & m' & -> & Hw & Hres).
  exists (Ok (primary :: rest)), m'. split; [|done]. rewrite run_bind, Hw. done.
Qed.

(** C39. A record batch survives its trip through shared memory.  On any consistent pool,
    writing a batch terminates; if it fails (unsupported type, too large, no free chunk) every
    chunk taken was given back.  If it succeeds the chunks are drawn from the free lists,
    do not overlap, leave the pool consistent and carry the interned schema id; and a
    reader whose registry resolves that id gets, in any later memory where the chunks were neither overwritten nor
    recycled, exactly what Arrow's builder makes of the normalised columns: the same tree of
    types, lengths, null counts, validity bitmaps and buffers, however nested, sliced or
    spread over chunks the batch was. *)
Theorem batch_round_trip p m fl fuel reg b :
  pool_inv p m fl -> batch_ok b -> is_u32 (intern (batch_schema b) reg).1 ->
  exists r m', run (write_batch_chunks p (S fuel) reg b).2 m = Some (Some r, m') /\
    written p m fl b (intern (batch_schema b) reg).1 r m'.
Proof.
  intros Hinv Hb Hs. unfold write_batch_chunks. destruct (intern (batch_schema b) reg) as [sid reg']. cbn [fst snd] in *.
  destruct (run_write_chunks p fl [] [] m fuel sid b (drawn_nil p m fl Hinv) Hb Hs) as (r & m' & Hrun & Hset & _ & Hr).
  exists r, m'. split; [done|]. destruct r as [chunks|e]; [|by apply restored_drawn; [|apply Hset]].
  destruct Hr as (xs & Hd & Hc & _ & _ & Hsid & Hread). exists xs, (ctrl_index m' <$> xs). split_and!; [done|done| | |done].
  2: { eapply Forall_impl; [|exact Hsid]. by intros d (_ & ? & _). }
  split; [by apply Forall_true|by apply current_fresh].
Qed.
End batch.

(** ** A small Arrow *)

(** Compaction for the example: offsets dropped at every level. *)
Fixpoint demo_compact (a : ArrayData) : ArrayData :=
  match a with
  | mkArrayData dt n _ nb bufs cs =>
      mkArrayData dt n 0 ((fun b => mkNulls (nb_buffer b) 0 (nb_nulls b)) <$> nb) bufs (map demo_compact cs)
  end.

#[export] Instance demo_lib : ArrowLib := {|
  ArrayRef := ArrayData;
  to_data a := a;
  make_array a := a;
  arrow_concat a := Ok (demo_compact a);
  build dt n nc nb bufs cs := Ok (mkArrayData dt n 0 ((fun b => mkNulls b 0 nc) <$> nb) bufs cs);
  RecordBatch := Schema * list ArrayData;
  batch_schema := fst;
  columns := snd;
  num_rows b := match b.2 with a :: _ => array_len a | [] => 0 end;
  try_new s cols := Ok (s, cols);
  serialize_schema s := fst <$> fields s
|}.

Lemma demo_compact_typed a : typed a -> typed (demo_compact a) /\ data_type (demo_compact a) = data_type a.
Proof.
  induction a as [dt n o nb bufs cs IH] using ArrayData_tree_ind. intros (Hn & Hnb & Hb & Ety & Hcs). split; [|done].
  cbn [demo_compact typed]. split_and!; [done|by destruct nb|done| |].
  - rewrite <- Ety. clear -IH Hcs. induction IH as [|c cs Hc _ IHc]; [done|]. destruct Hcs as [Ht Hcs]. cbn [map]. rewrite !fmap_cons.
    destruct (Hc Ht) as [_ ->]. f_equal. by apply IHc.
  - clear -IH Hcs. induction IH as [|c cs Hc _ IHc]; [done|]. destruct Hcs as [Ht Hcs]. cbn. split; [by apply Hc|by apply IHc].
Qed.

#[export] Instance demo_laws : ArrowLaws.
Proof. split. intros a b [= <-]. apply demo_compact_typed. Qed.

(** A nullable struct of two columns, its second child sliced, and a column too large for what
    is left of the first chunk. *)
Definition demo_schema : Schema :=
  mkSchema [(1, Struct [(2, Flat 10); (3, DList (4, Flat 11))]); (5, Flat 12)] tt.

Definition demo_batch : Schema * list ArrayData :=
  (demo_schema,
   [mkArrayData (Struct [(2, Flat 10); (3, DList (4, Flat 11))]) 2 0 (Some (mkNulls [1] 0 1)) []
      [mkArrayData (Flat 10) 2 0 None [[1; 2; 3; 4; 5; 6; 7; 8]] [];
       mkArrayData (DList (4, Flat 11)) 2 3 None [[0; 1; 2]] [mkArrayData (Flat 11) 2 0 None [[7; 9]] []]];
    mkArrayData (Flat 12) 2 0 None [replicate 200 5] []]).

Definition wide_cfg : PoolConfig := [mkSizeClass 64 3; mkSizeClass 512 2].
Definition wide_seg : Segment := mkSegment 9 4096.

Lemma wide_cfg_ok : cfg_ok wide_cfg.
Proof.
  split_and!; [done| |vm_compute; discriminate].
  repeat constructor; cbn; try lia; by apply Z.mod_divide.
Qed.

Lemma batch_round_trip_witness :
  exists p m chunks m' gs, create wide_seg wide_cfg = Ok (p, m) /\
    run (write_batch_chunks p 1 registry_new demo_batch).2 m = Some (Some (Ok chunks), m') /\ length chunks = 2%nat /\
    run (read_batch_chunks (segment p) chunks gs (write_batch_chunks p 1 registry_new demo_batch).1) m' = Some (rebuilt_batch demo_batch, m').
Proof.
  destruct (create_ok wide_seg wide_cfg wide_cfg_ok ltac:(vm_compute; discriminate))
    as (p & m & Hcr & _ & _ & _ & _ & _ & _ & Hinv).
  destruct (@batch_round_trip _ demo_lib _ p m (all_free (classes m)) 0 registry_new demo_batch Hinv) as (r & m' & Hrun & Hw).
  - split; [done|]. repeat constructor; cbn; try done; try lia; repeat constructor; try lia.
  - vm_compute. split; congruence.
  - assert (E : exists chunks, r = Ok chunks /\ length chunks = 2%nat).
    { clear Hw Hinv. vm_compute in Hcr. injection Hcr as <- <-. vm_compute in Hrun. destruct r as [ds|]; [|discriminate].
      exists ds. split; [done|]. injection Hrun as <- _. done. }
    destruct E as (chunks & -> & Hl). destruct Hw as (xs & gs & _ & _ & Hst & _ & Hread).
    exists p, m, chunks, m', gs. split_and!; [done|done|done|]. apply Hread; [done|reflexivity].
Defined.
