(* ===== verification/ArrowTyped.v ===== *)
(** * What a read hands to Arrow is well typed

    The reader walks the types of a schema in lockstep with tables it cannot trust.  This
    file says what such a walk accepts, whatever the bytes: it builds a batch exactly when
    the tables spell, in pre-order, one tree of arrays per field of the schema, each with the
    field's type and with children of its type's child types, every buffer of which is the
    slice of a chunk that an entry names; and the batch is then what Arrow's builder makes of
    those trees. *)

From S2P Require Import Prelude Atomic ChunkDesc ChunkCtrl Pod Treiber Pool PoolInv SegBytes PoolClient PoolDraw Arrow ArrowLayout ArrowBatch.

Set Warnings "-register-all".

Section offers.
Context `{ArrowLib}.

(** ** Trees offered to Arrow's builder *)

(** The arguments of one [ArrayDataBuilder]. *)
Inductive Offer : Set :=
| mkOffer (dt : DataType) (olen onulls : Z) (validity : option (list Z)) (obuffers : list (list Z)) (children : list Offer).

Lemma Offer_tree_ind (P : Offer -> Prop) :
  (forall dt n k v bs os, Forall P os -> P (mkOffer dt n k v bs os)) -> forall o, P o.
Proof.
  intros Hs. fix IH 1. intros [dt n k v bs os]. apply Hs. induction os as [|o os IHo]; constructor; [apply IH|exact IHo].
Qed.

(** Induction on types along the children the reader descends into. *)
Lemma DataType_tree_ind (P : DataType -> Prop) : (forall dt, Forall P (child_data_types dt) -> P dt) -> forall dt, P dt.
Proof.
  intros Hs. fix IH 1. intros [t|fs|[i dt]|[i dt]|[i dt] n|k v|fs s|e s|r v]; apply Hs; cbn [child_data_types];
    try constructor; try apply IH; try constructor.
  induction fs as [|[i dt] fs IHfs]; constructor; [apply IH|exact IHfs].
Qed.

Definition offer_type (o : Offer) : DataType := match o with mkOffer dt _ _ _ _ _ => dt end.

Fixpoint well_typed (o : Offer) : Prop :=
  match o with
  | mkOffer dt _ _ _ _ os => offer_type <$> os = child_data_types dt /\ foldr (fun o P => well_typed o /\ P) True os
  end.

Lemma well_typed_children os : foldr (fun o P => well_typed o /\ P) True os <-> Forall well_typed os.
Proof. induction os as [|o os IH]; cbn; [split; constructor|]. by rewrite list.Forall_cons, IH. Qed.

(** The builder's calls, children first. *)
Fixpoint assemble (o : Offer) : result ArrowErr ArrayData :=
  match o with
  | mkOffer dt n k v bs os =>
      let? cs := try_map assemble os in
      match build dt n k v bs cs with Ok a => Ok a | Err e => Err (AArrow e) end
  end.

(** What a node of the table says of its tree: the length, the null count, whether there is a
    validity bitmap, how many buffers and children follow. *)
Abbreviation sig := (Z * Z * bool * nat * Z)%type.
Definition node_sig (nd : NodeEntry) : sig :=
  (n_len nd, n_null_count nd, negb (has_validity nd =? 0), Z.to_nat (data_buffers nd), child_count nd).

Fixpoint offer_sigs (o : Offer) : list sig :=
  match o with
  | mkOffer _ n k v bs os => (n, k, bool_decide (is_Some v), length bs, Z.of_nat (length os)) :: concat (map offer_sigs os)
  end.

Definition own (v : option (list Z)) (bs : list (list Z)) : list (list Z) := option_list v ++ bs.

Fixpoint offer_buffers (o : Offer) : list (list Z) :=
  match o with mkOffer _ _ _ v bs os => own v bs ++ concat (map offer_buffers os) end.

Definition sigs_of (os : list Offer) : list sig := concat (map offer_sigs os).
Definition buffers_all (os : list Offer) : list (list Z) := concat (map offer_buffers os).

(** ** The walk *)

Section walk.
Context (nodes : list NodeEntry) (mb : nat -> result ArrowErr (list Z)).

(** From [c] to [c'] the tables hold [sigs] and [bufs]. *)
Definition spells (sigs : list sig) (bufs : list (list Z)) (c c' : Cursors) : Prop :=
  (forall i s, sigs !! i = Some s -> node_sig <$> nodes !! (ni c + i)%nat = Some s) /\
  (forall i b, bufs !! i = Some b -> mb (bi c + i)%nat = Ok b) /\
  c' = mkCursors (ni c + length sigs) (bi c + length bufs).

Lemma spells_nil c c' : spells [] [] c c' <-> c' = c.
Proof.
  unfold spells. cbn [length]. rewrite !Nat.add_0_r. destruct c as [a b]. cbn. split; [by intros (_ & _ & ->)|].
  intros ->. by split_and!.
Qed.

Lemma spells_app s1 s2 b1 b2 c c'' : spells (s1 ++ s2) (b1 ++ b2) c c'' <-> exists c', spells s1 b1 c c' /\ spells s2 b2 c' c''.
Proof.
  unfold spells. rewrite !length_app. split.
  - intros (Hs & Hb & ->). exists (mkCursors (ni c + length s1) (bi c + length b1)). cbn [ni bi]. split_and!; try done.
    + intros i s Hi. apply Hs. by apply lookup_app_l_Some.
    + intros i b Hi. apply Hb. by apply lookup_app_l_Some.
    + intros i s Hi. rewrite <- Nat.add_assoc. apply Hs. rewrite lookup_app_r by lia. rewrite <- Hi. f_equal. lia.
    + intros i b Hi. rewrite <- Nat.add_assoc. apply Hb. rewrite lookup_app_r by lia. rewrite <- Hi. f_equal. lia.
    + f_equal; lia.
  - intros (c' & (Hs1 & Hb1 & ->) & Hs2 & Hb2 & ->). cbn [ni bi] in *. split_and!.
    + intros i s [Hi|[Hl Hi]]%lookup_app_Some; [by apply Hs1|]. rewrite <- (Hs2 _ _ Hi). do 2 f_equal. lia.
    + intros i b [Hi|[Hl Hi]]%lookup_app_Some; [by apply Hb1|]. rewrite <- (Hb2 _ _ Hi). f_equal. lia.
    + f_equal; lia.
Qed.

Lemma add_buffers_exact n b bufs b' : add_buffers mb n b = Ok (bufs, b') <->
  length bufs = n /\ b' = (b + n)%nat /\ forall i x, bufs !! i = Some x -> mb (b + i)%nat = Ok x.
Proof.
  revert b bufs b'. induction n as [|n IH]; intros b bufs b'; cbn [add_buffers].
  { split; [intros [= <- <-]; split_and!; [done|lia|by intros i x Hi]|]. intros (->%nil_length_inv & -> & _). by rewrite Nat.add_0_r. }
  rewrite rbind_Ok. split.
  - intros (x & Hx & E). apply rbind_Ok in E as ([rest b1] & E & [= <- <-]). apply IH in E as (<- & -> & Hr). split_and!; [done|lia|].
    intros [|i] y Hy; [injection Hy as <-; by rewrite Nat.add_0_r|]. rewrite <- (Hr i y Hy). f_equal. lia.
  - destruct bufs as [|x bufs]; [by intros (? & _)|]. cbn [length]. intros ([= Hl] & -> & Hb). exists x. split; [rewrite <- (Hb 0%nat x eq_refl); f_equal; lia|].
    apply rbind_Ok. exists (bufs, (S b + n)%nat). split; [|do 2 f_equal; lia]. apply IH. split_and!; [done|done|].
    intros i y Hy. rewrite <- (Hb (S i) y Hy). f_equal. lia.
Qed.

(** A node's own buffers. *)
Lemma own_exact nd c v bs b' :
  (let? (nulls, b) := if negb (has_validity nd =? 0) then let? buf := mb (bi c) in Ok (Some buf, S (bi c)) else Ok (None, bi c) in
   let? (bufs, b') := add_buffers mb (Z.to_nat (data_buffers nd)) b in Ok (nulls, bufs, b')) = Ok (v, bs, b') <->
  negb (has_validity nd =? 0) = bool_decide (is_Some v) /\ Z.to_nat (data_buffers nd) = length bs /\
  b' = (bi c + length (own v bs))%nat /\ forall i x, own v bs !! i = Some x -> mb (bi c + i)%nat = Ok x.
Proof.
  unfold own. rewrite rbind_Ok. split.
  - intros ([nulls b] & E1 & E2). apply rbind_Ok in E2 as ([bufs b1] & (<- & -> & Hb)%add_buffers_exact & [= <- <- <-]).
    destruct (has_validity nd =? 0); cbn [negb] in *.
    + injection E1 as <- <-. cbn. split_and!; try done.
    + apply rbind_Ok in E1 as (buf & Hbuf & [= <- <-]). simpl. split_and!; [done|done|lia|].
      intros [|i] x Hx; [injection Hx as <-; by rewrite Nat.add_0_r|]. rewrite <- (Hb i x Hx). f_equal. lia.
  - intros (Ev & El & -> & Hb). destruct v as [buf|].
    + rewrite bool_decide_eq_true_2 in Ev by done. rewrite Ev. exists (Some buf, S (bi c)). simpl in *. split.
      * rewrite <- (Nat.add_0_r (bi c)) at 1. by rewrite (Hb 0%nat buf eq_refl).
      * apply rbind_Ok. exists (bs, (bi c + S (length bs))%nat). split; [|done]. apply add_buffers_exact. split_and!; [done|lia|].
        intros i x Hx. rewrite <- (Hb (S i) x Hx). f_equal. lia.
    + rewrite bool_decide_eq_false_2 in Ev by (by intros [? ?]). rewrite Ev. exists (None, bi c). split; [done|]. simpl in *.
      apply rbind_Ok. exists (bs, (bi c + length bs)%nat). split; [|done]. apply add_buffers_exact. split_and!; [done|lia|exact Hb].
Qed.

Definition walk_exact (dt : DataType) : Prop := forall c a c', build_node nodes mb dt c = Ok (a, c') <->
  exists o, offer_type o = dt /\ well_typed o /\ spells (offer_sigs o) (offer_buffers o) c c' /\ assemble o = Ok a.

(** The walk over several types, the fields of a schema or the children of a node. *)
Lemma walk_fields dts : Forall walk_exact dts -> forall c ars c', each_field (build_node nodes mb) dts c = Ok (ars, c') <->
  exists os, offer_type <$> os = dts /\ Forall well_typed os /\ spells (sigs_of os) (buffers_all os) c c' /\ try_map assemble os = Ok ars.
Proof.
  induction 1 as [|dt dts Hdt _ IH]; intros c ars c'; cbn [each_field].
  - split.
    + intros [= <- <-]. exists []. split_and!; try done. by apply spells_nil.
    + intros ([|o os] & E & _ & Hs & Ha); [|done]. apply spells_nil in Hs as ->. by injection Ha as <-.
  - rewrite rbind_Ok. split.
    + intros ([a c1] & (o & <- & Ht & Hs & Ha)%Hdt & E). apply rbind_Ok in E as ([rest c2] & (os & <- & Hts & Hss & Has)%IH & [= <- <-]).
      exists (o :: os). split_and!; [done|by constructor|apply spells_app; by exists c1|]. cbn [try_map]. rewrite Ha. cbn [rbind]. by rewrite Has.
    + intros ([|o os] & E & Hts & Hs & Ha); [done|]. injection E as <- <-. apply list.Forall_cons in Hts as [Ht Hts].
      apply spells_app in Hs as (c1 & Hs & Hss). cbn [try_map] in Ha. apply rbind_Ok in Ha as (a & Ha & E). apply rbind_Ok in E as (rest & Has & [= <-]).
      exists (a, c1). split; [apply Hdt; by exists o|]. apply rbind_Ok. exists (rest, c'). split; [|done]. apply IH. by exists os.
Qed.

Lemma build_node_exact dt : walk_exact dt.
Proof.
  induction dt as [dt IH] using DataType_tree_ind. intros c a c'. rewrite build_node_eq, rbind_Ok. split.
  - intros (nd & Hnd & E). destruct (nodes !! ni c) as [nd'|] eqn:En; [|done]. injection Hnd as ->.
    apply rbind_Ok in E as ([nulls b] & E1 & E). apply rbind_Ok in E as ([bufs b'] & E2 & E).
    assert (Eown := proj1 (own_exact nd c nulls bufs b')). rewrite E1 in Eown. cbn [rbind] in Eown. rewrite E2 in Eown. destruct (Eown eq_refl) as (Ev & El & -> & Hb).
    destruct (Z.eqb_spec (Z.of_nat (length (child_data_types dt))) (child_count nd)) as [Ec|]; [|done]. cbn [negb] in E.
    apply rbind_Ok in E as ([cs c2] & (os & Et & Hts & Hs & Ha)%(walk_fields _ IH) & E). destruct (build _ _ _ _ _ _) as [a'|] eqn:Eb; [|done]. injection E as <- <-.
    exists (mkOffer dt (n_len nd) (n_null_count nd) nulls bufs os). split_and!; [done| | |].
    + split; [done|by apply well_typed_children].
    + cbn [offer_sigs offer_buffers]. apply (spells_app [_] _ (own nulls bufs)). eexists. split; [|exact Hs]. split_and!; [|done|cbn; f_equal; lia].
      intros [|i] s Hi; [|done]. injection Hi as <-. rewrite Nat.add_0_r, En. cbn. unfold node_sig.
      rewrite Ev, El, <- Ec, <- Et, length_fmap. done.
    + cbn [assemble]. rewrite Ha. cbn [rbind]. by rewrite Eb.
  - intros ([dt' n k v bs os] & <- & [Et Hts%well_typed_children] & Hs & Ha). cbn [offer_type] in *. cbn [offer_sigs offer_buffers] in Hs.
    apply (spells_app [_] _ (own v bs)) in Hs as (c1 & (Hn & Hb & ->) & Hs). pose proof (Hn 0%nat _ eq_refl) as Hn0. rewrite Nat.add_0_r in Hn0.
    destruct (nodes !! ni c) as [nd|] eqn:En; [|done]. injection Hn0 as En1 En2 Ev El Ec. exists nd. split; [done|].
    pose proof (proj2 (own_exact nd c v bs (bi c + length (own v bs))%nat) (conj Ev (conj El (conj eq_refl Hb)))) as E0.
    apply rbind_Ok in E0 as ([nulls b] & E1 & E0). apply rbind_Ok in E0 as ([bufs b'] & E2 & [= -> -> ->]). rewrite E1. cbn [rbind]. rewrite E2. cbn [rbind].
    rewrite Ec, <- Et, length_fmap, Z.eqb_refl. cbn [negb]. cbn [assemble] in Ha. apply rbind_Ok in Ha as (cs & Has & Ea).
    apply rbind_Ok. exists (cs, c'). split.
    + rewrite Et. apply (walk_fields _ IH). exists os. split_and!; try done. cbn [length] in Hs. by rewrite Nat.add_1_r in Hs.
    + rewrite En1, En2. destruct (build dt' n k v bs cs) as [a'|]; [|done]. by injection Ea as ->.
Qed.
End walk.

(** ** What a read accepts *)

Definition shown (m : PoolMem) (d : ChunkDesc) : list Z := bytes_at (words m) (base_of d) (len d).

(** The bytes an entry of the buffer table names. *)
Definition slice (views : list (list Z)) (e : BufferEntry) : list Z :=
  take (Z.to_nat (e_len e)) (drop (Z.to_nat (e_offset e)) (default [] (at_index views (chunk_index e)))).

(** The tables spell one well-typed tree per field of the schema. *)
Definition tables_spell (s : Schema) (views : list (list Z)) (ns : list NodeEntry) (es : list BufferEntry) (os : list Offer) : Prop :=
  offer_type <$> os = (fields s).*2 /\ Forall well_typed os /\ node_sig <$> ns = sigs_of os /\ slice views <$> es = buffers_all os.

(** Chunks [chunks] with control words [gs] hold batch [b]. *)
Definition holds_batch (m : PoolMem) (chunks : list ChunkDesc) (gs : list Z) (reg : SchemaRegistry) (b : RecordBatch) : Prop :=
  exists primary rest h ns es s os arrays,
    chunks = primary :: rest /\ Forall2 (fresh_in m) chunks gs /\
    well_laid_out (shown m primary) (len <$> chunks) h ns es /\
    bh_schema_id h = schema_id primary /\ registry_resolve (bh_schema_id h) reg = Some s /\
    tables_spell s (shown m <$> chunks) ns es os /\
    try_map assemble os = Ok arrays /\ try_new s (make_array <$> arrays) = Ok b.

(** The whole of two tables is spelled exactly when the cursors end at their ends. *)
Lemma spells_whole views ns es sigs bufs : node_sig <$> ns = sigs /\ slice views <$> es = bufs <->
  spells ns (make_buffer_of views es) sigs bufs (mkCursors 0 0) (mkCursors (length ns) (length es)).
Proof.
  unfold spells. cbn [ni bi]. assert (Hmk : forall i b, make_buffer_of views es i = Ok b <-> slice views <$> es !! i = Some b).
  { intros i b. unfold make_buffer_of. destruct (es !! i) as [e|]; cbn; [|done]. split; by intros [= <-]. }
  split.
  - intros [<- <-]. rewrite !length_fmap. split_and!; [| |done].
    + intros i s Hi. by rewrite <- list_lookup_fmap.
    + intros i b Hi. apply Hmk. by rewrite <- list_lookup_fmap.
  - intros (Hn & Hb & [= El1 El2]). split; [apply (list_eq_same_length _ _ (length sigs))|apply (list_eq_same_length _ _ (length bufs))]; rewrite ?length_fmap; try done.
    + intros i x y _ Hx Hy. rewrite list_lookup_fmap in Hx. pose proof (Hn i y Hy) as E. cbn in E. congruence.
    + intros i x y _ Hx Hy. rewrite list_lookup_fmap in Hx. apply Hb, Hmk in Hy. cbn in Hy. congruence.
Qed.

(** The rebuilding of a batch from accepted tables. *)
Lemma rebuild_exact reg sid views h ns es b : bh_node_count h = Z.of_nat (length ns) -> bh_buffer_count h = Z.of_nat (length es) ->
  rebuild_batch reg sid views h ns es = Ok b <->
  exists s os arrays, bh_schema_id h = sid /\ registry_resolve (bh_schema_id h) reg = Some s /\
    tables_spell s views ns es os /\ try_map assemble os = Ok arrays /\ try_new s (make_array <$> arrays) = Ok b.
Proof.
  intros En Eb. unfold rebuild_batch. destruct (Z.eqb_spec (bh_schema_id h) sid) as [<-|]; cbn [negb].
  2: { split; [done|]. by intros (? & ? & ? & ? & _). }
  destruct (registry_resolve (bh_schema_id h) reg) as [s|]; cbn [ok_or rbind].
  2: { split; [done|]. by intros (? & ? & ? & _ & ? & _). }
  rewrite (each_field_fmap snd), rbind_Ok.
  pose proof (walk_fields ns (make_buffer_of views es) (fields s).*2 (proj2 (list.Forall_forall _ _) (fun dt _ => build_node_exact _ _ dt)) (mkCursors 0 0)) as Hw.
  split.
  - intros ([arrays c] & (os & Et & Hts & Hs & Ha)%Hw & E). rewrite En, Eb in E. destruct c as [n k]. cbn [ni bi] in E.
    destruct (Z.eqb_spec (Z.of_nat n) (Z.of_nat (length ns))) as [->%Nat2Z.inj|]; [|done].
    destruct (Z.eqb_spec (Z.of_nat k) (Z.of_nat (length es))) as [->%Nat2Z.inj|]; [|done]. cbn [negb orb] in E.
    destruct (try_new _ _) as [b'|] eqn:Eq; [|done]. injection E as ->. exists s, os, arrays. apply spells_whole in Hs. by split_and!.
  - intros (s' & os & arrays & _ & [= <-] & (Et & Hts & Hs) & Ha & Eq). exists (arrays, mkCursors (length ns) (length es)). split.
    + apply Hw. exists os. split_and!; try done. by apply spells_whole.
    + cbn [ni bi]. rewrite En, Eb, !Z.eqb_refl. cbn [negb orb]. by rewrite Eq.
Qed.

(** Validation in general: it answers, and with no error exactly when every generation matches. *)
Lemma run_validate_each m chunks gs : length chunks = length gs -> Forall (fun g => is_Some (ctrls m !! Z.to_nat g)) gs ->
  exists s, run (for_each (zip chunks gs) (fun dc =>
    r <- ctrl_at dc.2 (validate dc.1) ;; Ret (match r with Ok _ => None | Err e => Some e end))) m = Some (s, m) /\
    (s = None <-> Forall2 (fresh_in m) chunks gs).
Proof.
  revert gs. induction chunks as [|d chunks IH]; intros [|g gs] El Hg; [by exists None|done|done|]. injection El as El.
  apply list.Forall_cons in Hg as [[k Hk] Hg]. cbn [zip zip_with for_each]. rewrite !run_bind. cbn [fst snd].
  assert (E : run (ctrl_at g (validate d)) m = Some (if ChunkDesc.generation d =? ctrl_gen k then Ok tt else Err StaleDescriptor, m)).
  { unfold ctrl_at, validate, ChunkCtrl.generation, load. cbn. unfold elem. rewrite Hk. cbn. rewrite list_insert_id by done. destruct m. by case_match. }
  rewrite E. cbn [run]. destruct (Z.eqb_spec (ChunkDesc.generation d) (ctrl_gen k)) as [Eg|Ng].
  - destruct (IH gs El Hg) as (s & Hrun & Hs). exists s. split; [exact Hrun|]. rewrite Hs, list.Forall2_cons. split; [|by intros []].
    split; [by exists k|done].
  - eexists (Some _). split; [reflexivity|]. split; [done|]. intros [(k' & Hk' & Eg) _]%list.Forall2_cons. rewrite Hk in Hk'. by injection Hk' as <-.
Qed.

(** C38. A batch read from memory nobody vouches for is well typed.  For any chunks inside the
    mapping, whatever their bytes and whatever control words the caller passes for them, the
    read answers and leaves the memory alone; and it answers a batch exactly when every
    descriptor is fresh, the primary chunk's layout is well formed and of the descriptor's
    schema, the node and buffer tables spell in pre-order exactly one tree of arrays per field
    of the registered schema -- each with the field's type, every node with one child per child
    type and of that type, every buffer the slice its entry names inside a chunk, nothing left
    over -- and Arrow's own builder accepts those trees. *)
Theorem read_is_typed seg m chunks gs reg :
  Forall (in_mapping seg) chunks -> Forall (fun g => is_Some (ctrls m !! Z.to_nat g)) gs ->
  exists r, run (read_batch_chunks seg chunks gs reg) m = Some (r, m) /\
    forall b, r = Ok b <-> holds_batch m chunks gs reg b.
Proof.
  intros Hmap Hg. destruct chunks as [|primary rest].
  { eexists. split; [reflexivity|]. intros b. split; [done|]. by intros (? & ? & ? & ? & ? & ? & ? & ? & ? & _). }
  unfold read_batch_chunks. destruct (Nat.eqb_spec (length (primary :: rest)) (length gs)) as [El|Nl]; cbn [negb].
  2: { eexists. split; [reflexivity|]. intros b. split; [done|].
       by intros (? & ? & ? & ? & ? & ? & ? & ? & _ & ?%Forall2_length & _). }
  destruct (run_validate_each m (primary :: rest) gs El Hg) as (s & Hv & Hs). rewrite run_bind, Hv. destruct s as [e|].
  { eexists. split; [reflexivity|]. intros b. split; [done|]. intros (? & ? & ? & ? & ? & ? & ? & ? & _ & Hf%Hs & _). done. }
  rewrite run_bind. unfold view_chunks. rewrite run_act.
  rewrite (proj2 (forallb_forall _ _)) by (intros d Hd%list_elem_of_In; apply Is_true_true; by eapply list.Forall_forall in Hmap).
  fold (shown m). change (default [] _) with (shown m primary).
  destruct (layout_total (shown m primary) (len <$> primary :: rest) (bytes_at_bytes _ _ _)) as (r & Er & Hok). rewrite Er.
  destruct r as [[[h ns] es]|e].
  - eexists. split; [reflexivity|]. intros b. specialize (Hok h ns es eq_refl). pose proof Hok as (_ & _ & _ & _ & En & Eb & _).
    rewrite rebuild_exact by done. split.
    + intros (sc & os & arrays & Esid & Hr & Hsp & Ha & Eq). exists primary, rest, h, ns, es, sc, os, arrays. split_and!; try done. by apply Hs.
    + intros (p & rs & h' & ns' & es' & sc & os & arrays & [= <- <-] & _ & Hl%layout_accepts & Esid & Hr & Hsp & Ha & Eq).
      rewrite Er in Hl. injection Hl as <- <- <-. by exists sc, os, arrays.
  - eexists. split; [reflexivity|]. intros b. split; [done|].
    intros (p & rs & h' & ns' & es' & sc & os & arrays & [= <- <-] & _ & Hl%layout_accepts & _). rewrite Er in Hl. done.
Qed.
End offers.

Lemma read_is_typed_witness :
  exists p m chunks m' gs r, create wide_seg wide_cfg = Ok (p, m) /\
    run (write_batch_chunks p 1 registry_new demo_batch).2 m = Some (Some (Ok chunks), m') /\
    run (read_batch_chunks wide_seg chunks gs (write_batch_chunks p 1 registry_new demo_batch).1) m' = Some (r, m') /\
    is_ok r = true /\ forall b, r = Ok b <-> holds_batch m' chunks gs (write_batch_chunks p 1 registry_new demo_batch).1 b.
Proof.
  do 4 eexists. exists [3; 4]. edestruct (read_is_typed wide_seg) as (r & Hr & Hb); cycle 2.
  - exists r. split; [vm_compute; reflexivity|]. split; [vm_compute; reflexivity|]. split; [exact Hr|]. split; [|exact Hb]. clear Hb. vm_compute in Hr.
    injection Hr as <-. reflexivity.
  - repeat constructor.
  - repeat constructor; vm_compute; eauto.
Defined.
