(* ===== verification/Batches.v ===== *)
(** * Record batches in artifacts

    The part of [src/crates/shm-artifact/src/artifact.rs] that writes and reads Arrow
    batches: a commit writes a batch into chunks of the data segment, loans them and takes
    the install path of [Commit]; a pinned version is rebuilt, batch by batch, from the
    groups of chunks its chain of manifests lists.  The entries of the keyed store
    ([src/crates/shm-store/src/store.rs]) do both under a journaled lease.

    The data segment is a pool ([pool_data]); a schema registry belongs to one process, so a
    commit returns it beside its result. *)

From S2P Require Import Prelude Atomic Arrow ChunkDesc ChunkCtrl Pool SegBytes BorrowJournal Manifest Window Head Artifact Commit.

Section batches.
Context `{ArrowLib} (seg : Segment) (fuel : nat).
#[local] Hint Extern 0 (DataSeg _) => exact (pool_data seg) : typeclass_instances.
Abbreviation M := (ArtMem PoolMem).

(** ** Errors: [shm_artifact]'s with all of [shm_arrow]'s inside *)

Inductive BatchError : Set :=
| OfArtifact (e : ArtifactError)
| OfArrow (e : ArrowErr).

Definition of_arrow (e : ArrowErr) : BatchError :=
  match e with
  | ACore e => OfArtifact (ArrowCore e)
  | ChunkTooSmall need have => OfArtifact (Manifest.Arrow need have)
  | e => OfArrow e
  end.

Definition artifact_step {A} (p : prog M (option (result ArtifactError A))) : prog M (option (result BatchError A)) :=
  r <-- p ;; done (map_err OfArtifact r).

(** ** Commits *)

(** A result with the registry as the commit leaves it. *)
Abbreviation committed := (prog M (option (SchemaRegistry * result BatchError Z))).

Definition commit_inner_j (art : Artifact) (expect owner : Z) (c : Commit) (b : RecordBatch) (reg : SchemaRegistry)
    (fence : option Z) (journal : option jref) : committed :=
  match c with
  | Patch _ _ => done (reg, Err (OfArtifact Manifest.Unsupported))
  | _ =>
      r <-- attach_pool ;;
      match r with
      | Err e => done (reg, Err (OfArtifact e))
      | Ok p =>
          let '(schema_id, reg) := intern (batch_schema b) reg in
          let '(reg, write) := write_batch_chunks p fuel reg b in
          r <-- on_data write ;;
          match r with
          | Err e => done (reg, Err (of_arrow e))
          | Ok staged =>
              r <-- loan_all fuel p staged owner ;;
              match r with
              | Err e => done (reg, Err (OfArtifact e))
              | Ok _ =>
                  r <-- commit_staged_inner_j fuel art expect owner c staged [wrap32 (Z.of_nat (length staged))]
                    schema_id fence journal ;;
                  done (reg, map_err OfArtifact r)
              end
          end
      end
  end.

Definition commit_inner (art : Artifact) (expect owner : Z) (c : Commit) (b : RecordBatch) (reg : SchemaRegistry)
    (fence : option Z) : committed := commit_inner_j art expect owner c b reg fence None.

Definition commit_optimistic (art : Artifact) (owner expect : Z) (c : Commit) (b : RecordBatch) (reg : SchemaRegistry)
    : committed := commit_inner art expect owner c b reg None.

(** [Committer::commit]. *)
Definition committer_commit (art : Artifact) (com : Committer) (c : Commit) (b : RecordBatch) (reg : SchemaRegistry)
    : committed :=
  expect <- on_head (load current) ;;
  commit_inner_j art expect (c_owner com) c b reg (Some (c_token com)) (fst <$> c_lease com).

(** [Committer::commit_windowed]. *)
Definition committer_commit_windowed (art : Artifact) (com : Committer) (policy : WindowPolicy) (b : RecordBatch)
    (reg : SchemaRegistry) : committed :=
  d <- current_depth art ;;
  committer_commit art com (commit_for_depth policy d) b reg.

(** ** Reads *)

(** The control word [Pool::ctrl] finds for a descriptor. *)
Definition ctrl_of (p : Pool) (d : ChunkDesc) : prog M (option (result BatchError Z)) :=
  r <- on_data (locate p (offset d)) ;;
  done (match r with Ok (_, _, g) => Ok g | Err e => Err (OfArtifact (Core e)) end).

Fixpoint ctrls_of (p : Pool) (ds : list ChunkDesc) : prog M (option (result BatchError (list Z))) :=
  match ds with
  | [] => done (Ok [])
  | d :: ds' => g <-? ctrl_of p d ;; gs <-? ctrls_of p ds' ;; done (Ok (g :: gs))
  end.

Definition read_group (p : Pool) (reg : SchemaRegistry) (group : list ChunkDesc) : prog M (option (result BatchError RecordBatch)) :=
  gs <-? ctrls_of p group ;;
  r <- on_data (read_batch_chunks seg group gs reg) ;;
  done (map_err of_arrow r).

(** The groups of one manifest, less its first [skip]. *)
Fixpoint batches_from (p : Pool) (reg : SchemaRegistry) (cs : list ChunkDesc) (skip : nat) (spans : list Z) (bi idx : nat)
    : prog M (option (result BatchError (list RecordBatch))) :=
  match spans with
  | [] => done (Ok [])
  | s :: spans' =>
      let stop := (idx + Z.to_nat s)%nat in
      if (bi <? skip)%nat then batches_from p reg cs skip spans' (S bi) stop
      else
        match slice_get cs idx stop with
        | None => done (Err (OfArtifact (Core OutOfBounds)))
        | Some group =>
            b <-? read_group p reg group ;;
            bs <-? batches_from p reg cs skip spans' (S bi) stop ;;
            done (Ok (b :: bs))
        end
  end.

Fixpoint batches_in (p : Pool) (reg : SchemaRegistry) (ms : list Manifest) (skip : nat)
    : prog M (option (result BatchError (list RecordBatch))) :=
  match ms with
  | [] => done (Ok [])
  | m :: ms' =>
      bs <-? batches_from p reg (chunks m) skip (batch_spans m) 0 0 ;;
      rest <-? batches_in p reg ms' 0 ;;
      done (Ok (bs ++ rest))
  end.

(** [batches_of]. *)
Definition batches_of (ms : list Manifest) (skip_first : nat) (reg : SchemaRegistry)
    : prog M (option (result BatchError (list RecordBatch))) :=
  p <-? artifact_step attach_pool ;;
  batches_in p reg ms skip_first.

Definition as_arrow_batches (ps : PinState) (reg : SchemaRegistry) : prog M (option (result BatchError (list RecordBatch))) :=
  ms <-? artifact_step (chain ps) ;;
  batches_of ms 0 reg.

(** [concat_batches] copies its batches into one. *)
Definition as_arrow (concat_batches : Schema -> list RecordBatch -> result arrow_error RecordBatch) (ps : PinState) (reg : SchemaRegistry)
    : prog M (option (result BatchError RecordBatch)) :=
  bs <-? as_arrow_batches ps reg ;;
  done (match bs with
        | [] => Err (OfArtifact VersionGone)
        | [b] => Ok b
        | b :: _ => match concat_batches (batch_schema b) bs with Ok b => Ok b | Err e => Err (OfArrow (AArrow e)) end
        end).

Record Delta : Type := mkDelta { delta_batches : list RecordBatch; delta_from : Z; delta_truncated : bool }.

(** How many leading batches of a chain's oldest member a reader at [since] holds, and whether
    the history between is gone. *)
Definition delta_skip (oldest : Manifest) (since : Z) : Z * bool :=
  if (since =? NO_VERSION) || match prev oldest with Some _ => true | None => false end then (0, false)
  else match kept_batches_before oldest since with Some skip => (skip, false) | None => (0, true) end.

Definition batches_since (ps : PinState) (since : Z) (reg : SchemaRegistry) : prog M (option (result BatchError Delta)) :=
  let head := ps_manifest ps in
  if Manifest.version head <=? since then done (Ok (mkDelta [] (Manifest.version head) false))
  else
    p <-? artifact_step attach_pool ;;
    ms <-? artifact_step (r <- walk_chain_newest_first head (read_link p (artifact_id head)) (delta_stop since) tt ;; done r) ;;
    match rev ms with
    | [] => out_of_bounds
    | oldest :: rest =>
        let '(skip, truncated) := delta_skip oldest since in
        bs <-? batches_of (oldest :: rest) (Z.to_nat skip) reg ;;
        done (Ok (mkDelta bs (Manifest.version oldest) truncated))
    end.
End batches.
