(* ===== verification/TypedRef.v ===== *)
(** * Typed references

    [src/crates/shm-store/src/typed_ref.rs]: the 56-byte envelope that names an entry of a
    keyed store by its key, with an optional located chunk as a hint, and how it travels
    inside a chunk of a pool. *)

From S2P Require Import Prelude Atomic ChunkDesc ChunkCtrl Pod Treiber Pool PoolInv SegBytes PoolClient Catalog.

(** ** The envelope *)

Definition TYPED_REF_MAGIC : Z := 1414677830. (* 0x5452_4546 *)
Definition TYPED_REF_ABI_VERSION : Z := 1.
Definition TYPED_REF_SIZE : nat := 56.
Definition SCHEMA_TYPED_REF : Z := 1.
Definition FIRST_USER_SCHEMA_ID : Z := 16.

Record TypedRef : Set := mkTypedRef {
  t_magic : Z;
  t_abi_version : Z;
  t_kind : Z;
  t_key_id : Z;
  t_schema_id : Z;
  t_version : Z;
  locator : ChunkDesc;
  manifest : Z
}.

#[export] Instance TypedRef_eq_dec : EqDecision TypedRef.
Proof. solve_decision. Defined.

(** Offsets 0, 4, 6, 8, 12, 16, 24 (six words), 48. *)
Definition tref_layout : list nat := [4; 2; 2; 4; 4; 8; 4; 4; 4; 4; 4; 4; 8]%nat.

Definition tref_fields (t : TypedRef) : list Z :=
  let d := locator t in
  [t_magic t; t_abi_version t; t_kind t; t_key_id t; t_schema_id t; t_version t;
   segment_id d; ChunkDesc.generation d; offset d; len d; schema_id d; pad d; manifest t].

Definition tref_of_fields (vs : list Z) : TypedRef :=
  match vs with
  | [a; b; c; d; e; f; g; h; i; j; k; l; m] => mkTypedRef a b c d e f (mkChunkDesc g h i j k l) m
  | _ => mkTypedRef 0 0 0 0 0 0 ZERO 0
  end.

Definition resolved (k : RefKind) (key schema v : Z) (loc : ChunkDesc) (mbits : Z) : TypedRef :=
  mkTypedRef TYPED_REF_MAGIC TYPED_REF_ABI_VERSION (as_u16 k) key schema v loc mbits.
Definition by_key (k : RefKind) (key schema v : Z) : TypedRef := resolved k key schema v ZERO 0.

Definition tref_kind (t : TypedRef) : result StoreError RefKind := from_u16 (t_kind t).
Definition has_locator (t : TypedRef) : bool := negb (is_zero (locator t)).
Definition manifest_ref (t : TypedRef) : option PackedRef :=
  if negb (manifest t =? 0) then Some (mkPackedRef (manifest t)) else None.

Definition validate (t : TypedRef) : result StoreError unit :=
  if negb (t_magic t =? TYPED_REF_MAGIC) || negb (t_abi_version t =? TYPED_REF_ABI_VERSION) then Err BadEnvelope else Ok tt.

Definition to_bytes (t : TypedRef) : list Z := pack tref_layout (tref_fields t).

Definition from_bytes (bytes : list Z) : result StoreError TypedRef :=
  if (length bytes <? TYPED_REF_SIZE)%nat then Err BadEnvelope
  else
    let t := tref_of_fields (unpack tref_layout (take TYPED_REF_SIZE bytes)) in
    let? _ := validate t in Ok t.

Inductive ResolvePath : Set := FastPath | ByKey.

Definition resolve_path (t : TypedRef) : ResolvePath :=
  if has_locator t && (schema_id (locator t) =? t_schema_id t) then FastPath else ByKey.

(** ** In a chunk

    The allocator is the pool's; the writer's chunk is its own, so its bytes go out in
    one action. *)

Definition write_typed_ref (p : Pool) (fuel : nat) (t : TypedRef) : prog PoolMem (option (result CoreError ChunkDesc)) :=
  r <-- alloc p fuel (Z.of_nat TYPED_REF_SIZE) ;;
  match r with
  | Err e => done (Err e)
  | Ok d =>
      let bytes := to_bytes t in
      store (fun m => set_words (write_words (words m) (offset d - HEADER_SIZE) (length bytes / 4) bytes) m) ;;;
      done (Ok (with_schema d SCHEMA_TYPED_REF))
  end.

(** The base pointer is offset without a check; the access is only defined inside the
    payload. *)
Definition read_typed_ref (seg : Segment) (d : ChunkDesc) : prog PoolMem (result StoreError TypedRef) :=
  if negb (schema_id d =? SCHEMA_TYPED_REF) then Ret (Err (NotEnvelope (schema_id d)))
  else if len d <? Z.of_nat TYPED_REF_SIZE then Ret (Err BadEnvelope)
  else
    bytes <- act (fun m =>
      if (HEADER_SIZE <=? offset d) && (offset d + Z.of_nat TYPED_REF_SIZE <=? HEADER_SIZE + payload_len seg) then
        Some (bytes_at (words m) (offset d - HEADER_SIZE) (Z.of_nat TYPED_REF_SIZE), m)
      else None) ;;
    Ret (from_bytes bytes).

(** ** Codec *)

Definition tref_wf (t : TypedRef) : Prop := in_range tref_layout (tref_fields t).

Definition valid_tref (t : TypedRef) : Prop := t_magic t = TYPED_REF_MAGIC /\ t_abi_version t = TYPED_REF_ABI_VERSION.

#[export] Instance tref_wf_dec t : Decision (tref_wf t).
Proof. unfold tref_wf, in_range. apply _. Defined.

Lemma tref_fields_of vs : length vs = length tref_layout -> tref_fields (tref_of_fields vs) = vs.
Proof. intros H. do 13 (destruct vs as [|? vs]; [done|]). by destruct vs. Qed.

Lemma tref_of_fields_of t : tref_of_fields (tref_fields t) = t.
Proof. by destruct t as [? ? ? ? ? ? [] ?]. Qed.

Lemma length_tref_bytes t : length (to_bytes t) = TYPED_REF_SIZE.
Proof. unfold to_bytes. by rewrite length_pack. Qed.

Lemma validate_valid t : validate t = Ok tt <-> valid_tref t.
Proof.
  unfold validate, valid_tref.
  destruct (Z.eqb_spec (t_magic t) TYPED_REF_MAGIC), (Z.eqb_spec (t_abi_version t) TYPED_REF_ABI_VERSION); cbn; naive_solver.
Qed.

Lemma tref_decode t rest : tref_wf t -> valid_tref t -> from_bytes (to_bytes t ++ rest) = Ok t.
Proof.
  intros Hwf Hv%validate_valid. unfold from_bytes. rewrite length_app, length_tref_bytes.
  rewrite (proj2 (Nat.ltb_ge _ _)) by lia. rewrite take_app_length' by (by rewrite length_tref_bytes).
  unfold to_bytes. rewrite <- (app_nil_r (pack _ _)), unpack_pack by done. rewrite tref_of_fields_of. cbn zeta. by rewrite Hv.
Qed.

(** Only the wire form of a valid envelope is accepted. *)
Lemma tref_decode_inv bytes t : Forall is_u8 bytes -> from_bytes bytes = Ok t ->
  tref_wf t /\ valid_tref t /\ take TYPED_REF_SIZE bytes = to_bytes t.
Proof.
  intros Hb. unfold from_bytes. destruct (Nat.ltb_spec (length bytes) TYPED_REF_SIZE) as [|Hl]; [done|]. cbn zeta.
  set (vs := unpack tref_layout (take TYPED_REF_SIZE bytes)).
  assert (Hlen : length (take TYPED_REF_SIZE bytes) = TYPED_REF_SIZE) by (rewrite length_take; lia).
  assert (Ef : tref_fields (tref_of_fields vs) = vs) by (apply tref_fields_of; unfold vs; by rewrite length_unpack).
  destruct (validate (tref_of_fields vs)) as [[]|] eqn:Ev; [|done]. cbn [rbind]. intros E.
  assert (t = tref_of_fields vs) as -> by congruence. clear E. split_and!.
  - unfold tref_wf. rewrite Ef. apply unpack_in_range; [by apply Forall_take|]. by rewrite Hlen.
  - by apply validate_valid.
  - unfold to_bytes. rewrite Ef. unfold vs. rewrite pack_unpack; [|by apply Forall_take|by rewrite Hlen].
    change (size_of tref_layout) with TYPED_REF_SIZE. by rewrite take_take, Nat.min_id.
Qed.

(** Everything a front can build is well formed and accepted. *)
Lemma resolved_valid k key schema v loc mbits :
  is_u32 key -> is_u32 schema -> is_u64 v -> desc_wf loc -> is_u64 mbits ->
  tref_wf (resolved k key schema v loc mbits) /\ valid_tref (resolved k key schema v loc mbits).
Proof.
  intros Hk Hs Hv (H1 & H2 & H3 & H4 & H5 & H6) Hm. split; [|done]. unfold tref_wf, in_range, tref_fields, tref_layout.
  assert (0 <= as_u16 k <= 4) by (destruct k; cbn; lia).
  do 13 (constructor; [cbn -[as_u16]; unfold TYPED_REF_MAGIC, TYPED_REF_ABI_VERSION; mach|]). constructor.
Qed.

(** ** The theorem *)

Lemma read_typed_ref_inv seg d m r m' :
  run (read_typed_ref seg d) m = Some (Ok r, m') ->
  m' = m /\ schema_id d = SCHEMA_TYPED_REF /\ Z.of_nat TYPED_REF_SIZE <= len d /\
  from_bytes (bytes_at (words m) (offset d - HEADER_SIZE) (Z.of_nat TYPED_REF_SIZE)) = Ok r.
Proof.
  unfold read_typed_ref. destruct (Z.eqb_spec (schema_id d) SCHEMA_TYPED_REF) as [Es|]; cbn [negb]; [|done].
  destruct (Z.ltb_spec (len d) (Z.of_nat TYPED_REF_SIZE)) as [|Hl]; [done|]. rewrite run_bind, run_act.
  destruct (_ && _); [|done]. cbn [run]. intros E. by simplify_eq.
Qed.

(** C37. A typed reference survives its trip through a chunk.  On any pool in a consistent
    state, writing a valid reference either fails with the pool's error and changes nothing,
    or takes one free chunk of at least 56 bytes, marks its descriptor as an envelope, leaves
    the pool consistent and every byte outside the 56 written ones as it was, and whoever
    reads the descriptor gets the same reference back, within bounds.  Conversely whatever a
    reader accepts is marked as an envelope and is the wire form of a valid reference. *)
Theorem typed_ref_through_chunk p m fl fuel t :
  pool_inv p m fl -> tref_wf t -> valid_tref t ->
  (exists r m', run (write_typed_ref p (S fuel) t) m = Some (Some r, m') /\
    match r with
    | Ok d =>
        schema_id d = SCHEMA_TYPED_REF /\ Z.of_nat TYPED_REF_SIZE <= len d /\
        run (read_typed_ref (segment p) d) m' = Some (Ok t, m') /\
        (exists i l f, fl !! i = Some (l :: f) /\ pool_inv p m' (<[i := f]> fl)) /\
        forall a n, (a + n <= offset d - HEADER_SIZE \/ offset d - HEADER_SIZE + Z.of_nat TYPED_REF_SIZE <= a) ->
          bytes_at (words m') a n = bytes_at (words m) a n
    | Err e => m' = m /\ (e = PoolExhausted \/ e = LayoutOverflow)
    end) /\
  (forall d t' m', run (read_typed_ref (segment p) d) m = Some (Ok t', m') ->
    schema_id d = SCHEMA_TYPED_REF /\ tref_wf t' /\ valid_tref t' /\
    bytes_at (words m) (offset d - HEADER_SIZE) (Z.of_nat TYPED_REF_SIZE) = to_bytes t').
Proof.
  intros Hinv Hwf Hv. split.
  - unfold write_typed_ref, fbind. destruct (first_fit (Z.of_nat TYPED_REF_SIZE) (classes m)) as [i|] eqn:Hff.
    2: { eexists _, m. rewrite run_bind, (alloc_no_class p m fl) by done. split; [done|]. cbn. auto. }
    pose proof Hinv as (Hg & Hlen & _). pose proof (proj1 (first_fit_Some _ _ _) Hff) as (c & Hi & Hsz & _).
    destruct (lookup_lt_is_Some_2 fl i) as [[|l f] Hf]; [rewrite Hlen; by eapply lookup_lt_Some| |].
    { eexists _, m. rewrite run_bind, (alloc_exhausted p m fl fuel _ i) by done. split; [done|]. cbn. auto. }
    destruct (alloc_succeeds p m fl fuel _ i l f Hinv Hff Hf) as (c' & k & h & Hi' & Hl & Hk & Hrun & Hinv').
    assert (c' = c) as -> by congruence. set (m1 := set_classes _ m) in *. rewrite run_bind, Hrun.
    destruct (seg_offset_bounds p m i c l Hg Hi Hl) as (Gc & Hu & Htop & Hlow & H64 & _ & _).
    assert (Hoff : seg_offset_of c l - HEADER_SIZE = chunk_ptr c l) by (unfold seg_offset_of; lia).
    assert (H4 : (4 | chunk_ptr c l)).
    { rewrite <- Hoff. apply Z.divide_sub_r; [|by exists 16]. eapply Z.divide_trans; [|exact H64]. by exists 16. }
    set (w := write_words (words m) (chunk_ptr c l) 14 (to_bytes t)).
    exists (Ok (with_schema (chunk_desc p c l (ctrl_gen k)) SCHEMA_TYPED_REF)), (set_words w m1). split.
    { cbn [pbind store act run done offset chunk_desc]. by rewrite Hoff, length_tref_bytes. }
    cbn [schema_id with_schema len chunk_desc offset]. rewrite Hoff. split_and!; [done|done| | |].
    + unfold read_typed_ref. cbn [schema_id with_schema len chunk_desc offset]. rewrite Z.eqb_refl. cbn [negb].
      rewrite (proj2 (Z.ltb_ge _ _)) by done. rewrite run_bind, run_act.
      destruct (geom_layout p m Hg) as (lo & hi & Hlo0 & [_ Hpay] & Hlo).
      destruct (laid_out_lookup _ _ _ _ _ _ _ Hlo Hi) as (_ & _ & _ & Hend & _).
      pose proof (chunk_ptr_range c l Gc Hl) as Hr.
      rewrite (proj2 (Z.leb_le _ _)) by done. rewrite (proj2 (Z.leb_le _ _)) by lia. cbn [andb]. rewrite Hoff.
      change (Z.of_nat TYPED_REF_SIZE) with (4 * Z.of_nat 14). cbn [words set_words]. unfold w.
      rewrite bytes_at_write; [|done|apply pack_bytes|by rewrite length_tref_bytes].
      cbn [run]. by rewrite <- (app_nil_r (to_bytes t)), tref_decode.
    + exists i, l, f. split; [done|].
      assert (Hi1 : classes m1 !! i = Some (set_class_head h c)) by (cbn; by rewrite list_lookup_alter_eq, Hi).
      apply (pool_inv_write p m1 _ i (set_class_head h c) l f 14 (to_bytes t)); try done.
      * apply list_lookup_insert_eq. rewrite Hlen. by eapply lookup_lt_Some.
      * destruct (proj2 (proj2 Hinv) i _ Hf) as (_ & _ & [[Hni _]%list.NoDup_cons _] & _). done.
    + intros a n Ha. by apply bytes_at_write_outside.
  - intros d t' m' Hr. destruct (read_typed_ref_inv _ _ _ _ _ Hr) as (_ & Hs & _ & E).
    destruct (tref_decode_inv _ _ (bytes_at_bytes _ _ _) E) as (? & ? & Eb). split_and!; try done.
Qed.

Definition demo_tref : TypedRef := resolved KDataset 42 16 7 (mkChunkDesc 9 1 128 256 16 0) 4660.

Lemma typed_ref_through_chunk_witness :
  exists p m r m', create demo_seg demo_cfg = Ok (p, m) /\ run (write_typed_ref p 1 demo_tref) m = Some (Some (Ok r), m') /\
    run (read_typed_ref (segment p) r) m' = Some (Ok demo_tref, m').
Proof.
  destruct (create_ok demo_seg demo_cfg demo_cfg_ok ltac:(vm_compute; discriminate))
    as (p & m & Hcr & _ & _ & _ & _ & _ & _ & Hinv).
  destruct (typed_ref_through_chunk p m (all_free (classes m)) 0 demo_tref Hinv
    ltac:(apply (bool_decide_unpack _); vm_compute; exact I) ltac:(done)) as [([d|e] & m' & Hrun & H) _].
  - exists p, m, d, m'. split_and!; [exact Hcr|exact Hrun|]. by destruct H as (_ & _ & ? & _).
  - exfalso. clear H Hinv. vm_compute in Hcr. injection Hcr as <- <-. vm_compute in Hrun. discriminate.
Defined.
