(* ===== verification/Store.v ===== *)
(** * The keyed store

    [src/crates/shm-store/src/store.rs]: a directory of artifacts by key.  A catalog slot
    names an entry; the entry's head sits at the slot's offset in the head segment; all
    entries share one data segment.  Creating, opening, evicting and sweeping are programs
    over the three segments and the actors' journals, made of the catalog's and the
    artifacts' own routines.

    The head segment maps each head's offset to the head there (offsets are multiples of
    the catalog's stride, so heads do not overlap); a region never written reads as zeroes.
    Key interning is the coordinator's and a parameter; so is, in [resolve_and_pin], the
    reconstruction of the batch.  [StoreBatches] adds the operations on batches.  The schema registry is local to a process and not
    part of the shared memory. *)

From S2P Require Import Prelude Atomic ChunkDesc Treiber BorrowJournal Manifest Window Head Artifact Commit Catalog TypedRef.

(** ** Memory *)

Record StoreMem (D : Type) : Type := mkStoreMem {
  s_cat : CatMem;
  s_heads : gmap Z ArtifactHead;
  s_data : D;
  s_journals : list JournalMem;
  s_events : list VersionEvent
}.
Arguments mkStoreMem {D}.
Arguments s_cat {D}.
Arguments s_heads {D}.
Arguments s_data {D}.
Arguments s_journals {D}.
Arguments s_events {D}.

Definition zero_head : ArtifactHead := mkHead 0 0 0 0 0 0 (replicate MAX_LIVE_VERSIONS (mkPinSlot 0 0 0 0)).

Definition head_of {D} (m : StoreMem D) (off : Z) : ArtifactHead := default zero_head (s_heads m !! off).

(** The entry whose head is at [off], as an artifact's memory. *)
Definition art_at {D} (off : Z) : focus (StoreMem D) (ArtMem D) :=
  field (fun m => mkArtMem (head_of m off) (s_data m) (s_journals m) (s_events m))
        (fun a m => mkStoreMem (s_cat m) (<[off := a_head a]> (s_heads m)) (a_data a) (a_journals a) (a_events a)).

Definition cat_of {D} : focus (StoreMem D) CatMem :=
  field s_cat (fun c m => mkStoreMem c (s_heads m) (s_data m) (s_journals m) (s_events m)).

Definition journal_of {D} (k : nat) : focus (StoreMem D) JournalMem :=
  elem s_journals (fun js m => mkStoreMem (s_cat m) (s_heads m) (s_data m) js (s_events m)) k.

(** ** Handles *)

Definition MAX_KEY_LEN : Z := 1024.

(** The store handle of one actor: its journal segment and its owner id. *)
Record KeyedStore : Set := mkStore { ks_journal : nat; ks_owner : Z }.

Record Entry : Set := mkEntry { e_artifact : Artifact; e_off : Z; e_key_id : Z; e_kind : RefKind }.

Record RetainedRef : Set := mkRetained { r_artifact_id : Z; r_incarnation : Z; r_version : Z; journal_slot : nat }.

Section store.
Context {D : Type} `{!DataSeg D} (fuel : nat).
(** The payload length of the head segment; the coordinator's key interning. *)
Context (head_payload : Z) (intern_key : list Z -> result StoreError Z).
Abbreviation S := (StoreMem D).
Abbreviation io A := (prog S (option (result StoreError A))).

Definition on_art {A} (off : Z) (p : prog (ArtMem D) A) : prog S A := lift (art_at off) p.
Definition on_catalog {A} (p : prog CatMem A) : prog S A := lift cat_of p.
Definition on_journal_of {A} (k : nat) (p : prog JournalMem A) : prog S A := lift (journal_of k) p.

(** An artifact's routine as one of the store's. *)
Definition artifact_io {A} (off : Z) (p : prog (ArtMem D) (option (result ArtifactError A))) : io A :=
  r <-- on_art off p ;; done (map_err StoreArtifact r).

Definition catalog : io Catalog := on_catalog (act (fun m => Some (Some (Catalog.attach m), m))).

Definition key_id_of (key : list Z) : result StoreError Z :=
  if MAX_KEY_LEN <? Z.of_nat (length key) then Err (KeyTooLong (Z.of_nat (length key))) else intern_key key.

Definition attach_journal (k : nat) : io BorrowJournal :=
  r <- on_journal_of k (act (fun m => Some (BorrowJournal.attach m, m))) ;; done (map_err StoreCore r).

(** ** Entries *)

Definition entry_at (idx : Z) : io Entry :=
  aid <- on_catalog (slot idx (load Catalog.artifact_id)) ;;
  off <- on_catalog (slot idx (load head_off)) ;;
  art <-? artifact_io off (attach_at aid head_payload off) ;;
  key <- on_catalog (slot idx (load key_id)) ;;
  k <- on_catalog (slot idx slot_kind) ;;
  done (match k with Ok k => Ok (mkEntry art off key k) | Err e => Err e end).

Definition create (key : list Z) (k : RefKind) : io Entry :=
  match key_id_of key with
  | Err e => done (Err e)
  | Ok kid =>
      cat <-? catalog ;;
      found <- on_catalog (find_live_by_key cat kid) ;;
      match found with
      | Some idx => entry_at idx
      | None =>
          idx <-? on_catalog (alloc_slot fuel cat) ;;
          aid <- on_catalog (artifact_id_for idx) ;;
          off <- on_catalog (head_off_for idx) ;;
          inc <- on_catalog (slot idx gen) ;;
          art <-? artifact_io off (r <- on_head (create_at aid inc head_payload off) ;; done r) ;;
          _ <-- on_catalog (publish_slot fuel idx kid k) ;;
          done (Ok (mkEntry art off kid k))
      end
  end.

Definition open_id (kid : Z) : io Entry :=
  cat <-? catalog ;;
  found <- on_catalog (find_live_by_key cat kid) ;;
  match found with
  | Some idx => entry_at idx
  | None => done (Err NotFound)
  end.

Definition open (key : list Z) : io Entry :=
  match key_id_of key with Err e => done (Err e) | Ok kid => open_id kid end.

(** ** Eviction and sweeps *)

(** The sweep's quiescence predicate. *)
Definition entry_is_finished (aid off : Z) : prog S (option bool) :=
  r <-- on_art off (attach_at aid head_payload off) ;;
  match r with
  | Err _ => done false
  | Ok art =>
      r <-- on_art off (evict_all fuel art) ;;
      match r with
      | Err _ => done false
      | Ok _ =>
          held <- on_art off (on_head retire) ;;
          q <- on_art off (on_head is_quiescent) ;;
          if q : bool then done true
          else on_art off (on_head (commission held)) ;;; done false
      end
  end.

Definition try_reclaim_slot (idx : Z) : prog S (option bool) := try_reclaim fuel cat_of entry_is_finished idx.

Definition evict (key : list Z) : io unit :=
  match key_id_of key with
  | Err e => done (Err e)
  | Ok kid =>
      cat <-? catalog ;;
      found <- on_catalog (find_live_by_key cat kid) ;;
      match found with
      | None => done (Ok tt)
      | Some idx =>
          expected <- on_catalog (slot idx gen) ;;
          hit <- on_catalog (slot idx (tombstone_gen expected)) ;;
          if negb hit then done (Ok tt)
          else
            aid <- on_catalog (slot idx (load Catalog.artifact_id)) ;;
            off <- on_catalog (slot idx (load head_off)) ;;
            r <-- on_art off (attach_at_incarnation aid expected head_payload off) ;;
            _ <-? (match r with
                   | Ok art =>
                       r <-- on_art off (evict_all fuel art) ;;
                       done (match r with Ok _ | Err Stale => Ok tt | Err e => Err (StoreArtifact e) end)
                   | Err Stale => done (Ok tt)
                   | Err e => done (Err (StoreArtifact e))
                   end) ;;
            _ <-- try_reclaim_slot idx ;;
            done (Ok tt)
      end
  end.

Definition sweep_tombstones : io nat :=
  cat <-? catalog ;;
  n <-- reclaim_tombstones fuel cat cat_of entry_is_finished ;;
  done (Ok n).

(** [KeyedStore::reclaim_tombstones]. *)
Definition store_reclaim_tombstones : io nat := sweep_tombstones.

(** ** Task bindings *)

Definition release_task_binding (aid inc v : Z) : prog S (option bool) :=
  r <-- catalog ;;
  match r with
  | Err _ => done false
  | Ok cat =>
      found <- on_catalog (slot_for_artifact_id cat aid) ;;
      match found with
      | None => done false
      | Some idx =>
          off <- on_catalog (slot idx (load head_off)) ;;
          r <-- on_art off (attach_at_incarnation aid inc head_payload off) ;;
          match r with
          | Err _ => done false
          | Ok art =>
              r <-- on_art off (release_leaked_pin fuel v) ;;
              done (match r with Ok b => b | Err _ => false end)
          end
      end
  end.

(** ** Operations on an entry *)

Section entry.
Context (ks : KeyedStore) (e : Entry).

Definition entry_pin : io PinState := artifact_io (e_off e) (pin_journaled fuel (e_artifact e) (ks_journal ks)).

(** The committer is dropped on every way out. *)
Definition entry_evict_current : io Z :=
  j <-? attach_journal (ks_journal ks) ;;
  com <-? artifact_io (e_off e) (open_exclusive_journaled fuel (e_artifact e) (ks_owner ks) (ks_journal ks, j)) ;;
  r <-- artifact_io (e_off e) (evict_current fuel (e_artifact e) com) ;;
  on_art (e_off e) (drop_committer com) ;;;
  done r.

Definition retain_current : io RetainedRef :=
  v <-? artifact_io (e_off e) (retain_pin fuel (e_artifact e)) ;;
  j <-? attach_journal (ks_journal ks) ;;
  r <-- on_journal_of (ks_journal ks)
    (record_artifact_pin j fuel (name_id (e_artifact e)) (art_incarnation (e_artifact e)) v) ;;
  done (match r with
        | Err er => Err (StoreCore er)
        | Ok s => Ok (mkRetained (name_id (e_artifact e)) (art_incarnation (e_artifact e)) v s)
        end).

Definition handoff (r : RetainedRef) : io RetainedRef :=
  j <-? attach_journal (ks_journal ks) ;;
  b <- on_journal_of (ks_journal ks) (BorrowJournal.release j (journal_slot r)) ;;
  done (match b with
        | Err er => Err (StoreCore er)
        | Ok false => Err (StoreArtifact Stale)
        | Ok true => Ok r
        end).

Definition release_retained (r : RetainedRef) : io bool :=
  j <-? attach_journal (ks_journal ks) ;;
  on_journal_of (ks_journal ks) (BorrowJournal.release j (journal_slot r)) ;;;
  artifact_io (e_off e) (release_leaked_pin fuel (r_version r)).
End entry.

(** ** Typed references *)

Definition store_resolve (t : TypedRef) : io Entry :=
  match tref_kind t with
  | Err e => done (Err e)
  | Ok RawChunk => done (Err NotResolvable)
  | Ok _ => open_id (t_key_id t)
  end.

(** [as_arrow] rebuilds the batch of a pinned version; the pin is dropped on the error
    paths after it was taken. *)
Definition resolve_and_pin {B} (as_arrow : PinState -> prog (ArtMem D) (option (result ArtifactError B))) (ks : KeyedStore)
    (t : TypedRef) : io (Entry * PinState * B) :=
  e <-? store_resolve t ;;
  ps <-? entry_pin ks e ;;
  if negb (t_version t =? 0) && negb (ps_version ps =? t_version t) then
    _ <-- on_art (e_off e) (drop_pin fuel ps) ;;
    done (Err (VersionMismatch (t_version t) (ps_version ps)))
  else
    r <-- on_art (e_off e) (as_arrow ps) ;;
    match r with
    | Err er => _ <-- on_art (e_off e) (drop_pin fuel ps) ;; done (Err (StoreArtifact er))
    | Ok b => done (Ok (e, ps, b))
    end.
End store.
