(* ===== verification/StoreBatches.v ===== *)
(** * Batches in the keyed store

    The operations of [Entry] in [src/crates/shm-store/src/store.rs] that write and read
    record batches: each attaches the actor's journal, takes the entry's exclusive lease
    through it (or pins the current version through it), runs the artifact's routine of
    [Batches] and releases the lease on every way out.  The data segment is a pool. *)

From S2P Require Import Prelude Atomic Arrow ChunkDesc Pool BorrowJournal Manifest Window Head Artifact Commit Batches Catalog TypedRef Store.

Section entries.
Context `{ArrowLib} (seg : Segment) (fuel : nat).
#[local] Hint Extern 0 (DataSeg _) => exact (pool_data seg) : typeclass_instances.
Abbreviation S := (StoreMem PoolMem).

(** The store's errors with all of [shm_arrow]'s inside. *)
Inductive StoreBatchError : Set :=
| OfStore (e : StoreError)
| OfBatch (e : BatchError).

(** The store's handle, the entry, and the registry of the process. *)
Context (ks : KeyedStore) (e : Entry) (reg : SchemaRegistry).

(** A commit's result with the registry as it leaves it. *)
Abbreviation committed := (prog S (option (SchemaRegistry * result StoreBatchError Z))).

(** The committer is dropped on every way out. *)
Definition leased (body : Committer -> prog (ArtMem PoolMem) (option (SchemaRegistry * result BatchError Z))) : committed :=
  r <-- attach_journal (ks_journal ks) ;;
  match r with
  | Err er => done (reg, Err (OfStore er))
  | Ok j =>
      r <-- artifact_io (e_off e) (open_exclusive_journaled fuel (e_artifact e) (ks_owner ks) (ks_journal ks, j)) ;;
      match r with
      | Err er => done (reg, Err (OfStore er))
      | Ok com =>
          r <-- on_art (e_off e) (body com) ;;
          on_art (e_off e) (drop_committer com) ;;;
          done (r.1, map_err OfBatch r.2)
      end
  end.

Definition entry_commit (c : Commit) (b : RecordBatch) : committed :=
  leased (fun com => committer_commit seg fuel (e_artifact e) com c b reg).

Definition commit_replace (b : RecordBatch) : committed := entry_commit Replace b.

Definition append_windowed (policy : WindowPolicy) (b : RecordBatch) : committed :=
  leased (fun com => committer_commit_windowed seg fuel (e_artifact e) com policy b reg).

(** A pinned version and what is rebuilt from it; the pin is dropped when that fails. *)
Definition pinned_read {A} (body : PinState -> prog (ArtMem PoolMem) (option (result BatchError A)))
    : prog S (option (result StoreBatchError (PinState * A))) :=
  r <-- entry_pin fuel ks e ;;
  match r with
  | Err er => done (Err (OfStore er))
  | Ok ps =>
      r <-- on_art (e_off e) (body ps) ;;
      match r with
      | Ok a => done (Ok (ps, a))
      | Err er => _ <-- on_art (e_off e) (drop_pin fuel ps) ;; done (Err (OfBatch er))
      end
  end.

Definition entry_read (concat_batches : Schema -> list RecordBatch -> result arrow_error RecordBatch)
    : prog S (option (result StoreBatchError (PinState * RecordBatch))) :=
  pinned_read (fun ps => as_arrow seg concat_batches ps reg).

Definition read_since (since : Z) : prog S (option (result StoreBatchError (PinState * Delta))) :=
  pinned_read (fun ps => batches_since seg ps since reg).
End entries.
