(* ===== verification/StoreRace.v ===== *)
(** * Races of the keyed store

    [evict] finds the slot of a key and reads the slot's incarnation afterwards, so the
    incarnation it binds to need not be that of the entry it found; [create] scans for the
    key and publishes without scanning again.  Two schedules show what follows. *)

From S2P Require Import Prelude Atomic ChunkDesc ChunkCtrl Pool BorrowJournal Manifest Window Head Artifact Commit Catalog TypedRef Store.

(** ** The scene: a store of two slots, keys interned by their first byte *)

Definition store_seg : Segment := mkSegment 9 4096.
#[local] Instance store_data : DataSeg PoolMem := pool_data store_seg.

Definition head_bytes : Z := 65536.
Definition intern_first (key : list Z) : result StoreError Z := match key with b :: _ => Ok b | [] => Err Intern end.

Definition store_fresh : StoreMem PoolMem :=
  mkStoreMem
    (match Catalog.init (required_bytes 2) 2 2048 100 with Ok (_, m) => m | Err _ => mkCatMem 0 0 0 0 0 0 [] end) ∅
    (match Pool.create store_seg [mkSizeClass 128 4] with
     | Ok (_, m) => m
     | Err _ => mkPoolMem (mkPoolHeader 0 0 0 0 0) [] [] ∅
     end) [] [].

Abbreviation action := (prog (StoreMem PoolMem) (option (result StoreError Z))).

Definition act_create (key : list Z) : action :=
  e <-? create 4 head_bytes intern_first key KArtifact ;; done (Ok (name_id (e_artifact e))).
Definition act_evict (key : list Z) : action := _ <-? evict 4 head_bytes intern_first key ;; done (Ok 0).
Definition act_open (key : list Z) : action :=
  e <-? open head_bytes intern_first key ;; done (Ok (name_id (e_artifact e))).

Definition key_a : list Z := [1].
Definition key_b : list Z := [2].

(** ** Evicting a key takes another one down *)

(** The store with an entry for [key_a]. *)
Definition one_entry : StoreMem PoolMem :=
  match run (act_create key_a) store_fresh with Some (_, m) => m | None => store_fresh end.

(** Another actor evicts [key_a] too, then creates an entry for [key_b]. *)
Definition replacer : action := _ <-? act_evict key_a ;; act_create key_b.

(** The evictor finds [key_a] in slot 0; the other actor runs; the evictor goes on. *)
Definition evict_schedule : list nat := replicate 4 0%nat ++ replicate 321 1%nat ++ replicate 295 0%nat.

Definition evict_raced : list action * StoreMem PoolMem := pool_after evict_schedule ([act_evict key_a; replacer], one_entry).

Lemma evict_raced_reach : pool_reach ([act_evict key_a; replacer], one_entry) (evict_raced.1, evict_raced.2).
Proof. unfold evict_raced. apply pool_after_reach. Qed.

Lemma evict_raced_facts :
  run (act_open key_a) one_entry = Some (Some (Ok 100), one_entry) /\
  evict_raced.1 = [Ret (Some (Ok 0)); Ret (Some (Ok 100))] /\
  run (act_open key_b) evict_raced.2 = Some (Some (Err NotFound), evict_raced.2).
Proof. vm_compute. repeat split. Qed.

(** [evict] can evict an entry of another key.  A store holds one entry, of key A.  One
    actor evicts A; another evicts A and then creates B, and nobody ever evicts B.  There is an
    interleaving in which all three operations report success and afterwards B does not
    exist: the first evictor had found A's slot before it was recycled and reads the
    incarnation of whatever is there afterwards. *)
Theorem evict_can_evict_another_key :
  run (act_open key_a) one_entry = Some (Some (Ok 100), one_entry) /\
  exists m, pool_reach ([act_evict key_a; replacer], one_entry) ([Ret (Some (Ok 0)); Ret (Some (Ok 100))], m) /\
    run (act_open key_b) m = Some (Some (Err NotFound), m).
Proof.
  destruct evict_raced_facts as (Ha & Hret & Hb). split; [exact Ha|]. exists evict_raced.2. rewrite <- Hret.
  split; [exact evict_raced_reach|exact Hb].
Qed.

(** ** One key, two entries *)

Definition create_schedule : list nat := replicate 2 0%nat ++ replicate 19 1%nat ++ replicate 17 0%nat.

Definition create_raced : list action * StoreMem PoolMem :=
  pool_after create_schedule ([act_create key_a; act_create key_a], store_fresh).

Lemma create_raced_reach : pool_reach ([act_create key_a; act_create key_a], store_fresh) (create_raced.1, create_raced.2).
Proof. unfold create_raced. apply pool_after_reach. Qed.

(** Two concurrent get-or-creates of one key get two different entries; opening the key finds
    one of them, and evicting it uncovers the other. *)
Theorem create_can_duplicate_a_key :
  exists m, pool_reach ([act_create key_a; act_create key_a], store_fresh) ([Ret (Some (Ok 101)); Ret (Some (Ok 100))], m) /\
    run (act_open key_a) m = Some (Some (Ok 100), m) /\
    exists m', run (act_evict key_a) m = Some (Some (Ok 0), m') /\ run (act_open key_a) m' = Some (Some (Ok 101), m').
Proof.
  assert (Hret : create_raced.1 = [Ret (Some (Ok 101)); Ret (Some (Ok 100))]) by (vm_compute; reflexivity).
  exists create_raced.2. rewrite <- Hret. split; [exact create_raced_reach|]. split; [vm_compute; reflexivity|].
  exists (match run (act_evict key_a) create_raced.2 with Some (_, m) => m | None => store_fresh end).
  split; vm_compute; reflexivity.
Qed.
