(* ===== verification/Segments.v ===== *)
(** * Segments and the platform seam

    [src/crates/shm-core/src/segment.rs], [platform.rs] and [platform_linux.rs]: a segment
    is a shared-memory object with a 64-byte header, named or anonymous, created once and
    attached by name or by descriptor.  The system calls are the class [ShmOs]; what is
    relied on of them is [ShmOsLaws], stated over the length and the header of every object,
    and has the model [Sim].  [Platform] is the source's trait, with its POSIX and Linux
    implementations.

    An object is named by a number that stands for the open file description; a descriptor
    passed to another process names the same object. *)

From S2P Require Import Prelude Atomic ChunkDesc Pool.

(** [?] in programs without loops. *)
Definition ebind {S E A B} (p : prog S (result E A)) (k : A -> prog S (result E B)) : prog S (result E B) :=
  r <- p ;; match r with Ok a => k a | Err e => Ret (Err e) end.
Notation "x <-! p ;; k" := (ebind p (fun x => k))
  (at level 100, p at next level, k at level 200, right associativity) : prog_scope.

Lemma run_ebind {S E A B} (p : prog S (result E A)) (k : A -> prog S (result E B)) s :
  run (ebind p k) s =
    match run p s with
    | Some (Ok a, s') => run (k a) s'
    | Some (Err e, s') => Some (Err e, s')
    | None => None
    end.
Proof. unfold ebind. rewrite run_bind. by destruct (run p s) as [[[a|e] s']|]. Qed.

(** The error of a call, as the error of the caller. *)
Definition errs {S E F A} (f : E -> F) (p : prog S (result E A)) : prog S (result F A) :=
  r <- p ;; Ret (match r with Ok a => Ok a | Err e => Err (f e) end).

Lemma run_errs {S E F A} (f : E -> F) (p : prog S (result E A)) s :
  run (errs f p) s =
    match run p s with
    | Some (r, s') => Some (match r with Ok a => Ok a | Err e => Err (f e) end, s')
    | None => None
    end.
Proof. unfold errs. rewrite run_bind. by destruct (run p s) as [[r s']|]. Qed.

(** ** The header *)

Definition SEGMENT_MAGIC : Z := of_le [83; 72; 77; 65; 67; 84; 82; 49]. (* b"SHMACTR1" *)
Definition LAYOUT_VERSION : Z := 1.

Record SegmentHeader : Set := mkSegHeader {
  sh_magic : Z;
  sh_layout_version : Z;
  sh_segment_id : Z;
  sh_generation : Z;
  sh_size : Z
}.

Definition ZERO_HEADER : SegmentHeader := mkSegHeader 0 0 0 0 0.

#[export] Instance SegmentHeader_eq_dec : EqDecision SegmentHeader.
Proof. solve_decision. Defined.

(** ** System calls

    A failing call reports its [errno].  A name is the number in ["/shmactr.{id}"]. *)

Definition EEXIST : Z := 17.

Class ShmOs (O : Type) := {
  sys_shm_open_excl : Z -> prog O (result Z nat); (* O_CREAT | O_EXCL | O_RDWR *)
  sys_shm_open : Z -> prog O (result Z nat);
  sys_shm_unlink : Z -> prog O (result Z unit);
  sys_memfd_create : Z -> prog O (result Z nat);
  sys_ftruncate : nat -> Z -> prog O (result Z unit);
  sys_add_seals : nat -> prog O (result Z unit);
  sys_fstat : nat -> prog O (result Z Z);
  sys_mmap : nat -> Z -> prog O (result Z Z); (* the address *)
  sys_eventfd : prog O (result Z nat);
  sys_dup : nat -> prog O (result Z nat);
  sys_pipe : prog O (result Z (nat * nat));
  sys_nonblock_cloexec : nat -> prog O (result Z unit);
  header_read : nat -> prog O SegmentHeader;
  header_write : nat -> SegmentHeader -> prog O unit
}.

(** ** Segments *)

(** The handle: the name if it has one, the descriptor, the address of the mapping, the
    logical and the mapped size. *)
Record SegHandle : Set := mkSegHandle {
  sg_name : option Z;
  sg_id : Z;
  sg_fd : nat;
  sg_ptr : Z;
  sg_size : Z;
  sg_map_len : Z;
  sg_generation : Z
}.

Definition sg_payload_len (s : SegHandle) : Z := sg_size s - HEADER_SIZE.
Definition sg_payload_ptr (s : SegHandle) : Z := sg_ptr s + HEADER_SIZE.

(** What pools and artifacts need of a handle. *)
Definition seg_of (s : SegHandle) : Segment := mkSegment (sg_id s) (sg_payload_len s).

(** [Segment::typed_ptr], on the address of the mapping: the address of a [T] of [size]
    bytes aligned to [align] at [offset] in the payload. *)
Definition typed_ptr (base payload offset size align : Z) : result CoreError Z :=
  if U64_MOD <=? offset + size then Err OutOfBounds
  else if payload <? offset + size then Err OutOfBounds
  else
    let addr := base + HEADER_SIZE + offset in
    if negb (addr mod align =? 0) then Err Misaligned else Ok addr.

(** The checks of an attaching process on the header it finds. *)
Definition header_bad (h : SegmentHeader) (id map_len : Z) : bool :=
  negb (sh_magic h =? SEGMENT_MAGIC) || negb (sh_layout_version h =? LAYOUT_VERSION) ||
  negb (sh_segment_id h =? id) || (sh_generation h =? 0) ||
  (sh_size h <? HEADER_SIZE) || (map_len <? sh_size h).

Section segment.
Context {O : Type} `{!ShmOs O}.
Abbreviation io A := (prog O (result CoreError A)).

Definition map_fd (fd : nat) (size : Z) : io Z :=
  if size =? 0 then Ret (Err LayoutOverflow) else errs Nix (sys_mmap fd size).

Definition first_header (id size : Z) : SegmentHeader := mkSegHeader SEGMENT_MAGIC LAYOUT_VERSION id 1 size.

Definition segment_create (id size : Z) : io SegHandle :=
  if size <? HEADER_SIZE then Ret (Err LayoutOverflow)
  else
    fd <-! errs Nix (sys_shm_open_excl id) ;;
    _ <-! errs Nix (sys_ftruncate fd size) ;;
    ptr <-! map_fd fd size ;;
    header_write fd (first_header id size) ;;;
    Ret (Ok (mkSegHandle (Some id) id fd ptr size size 1)).

Definition memfd_sealed_fd (debug_id size : Z) : io nat :=
  fd <-! errs Io (sys_memfd_create debug_id) ;;
  _ <-! errs Io (sys_ftruncate fd size) ;;
  _ <-! errs Io (sys_add_seals fd) ;;
  Ret (Ok fd).

Definition create_sealed (id size : Z) : io SegHandle :=
  if size <? HEADER_SIZE then Ret (Err LayoutOverflow)
  else
    fd <-! memfd_sealed_fd id size ;;
    ptr <-! map_fd fd size ;;
    header_write fd (first_header id size) ;;;
    Ret (Ok (mkSegHandle None id fd ptr size size 1)).

(** The common part of attaching: map what [fstat] reports and check the header. *)
Definition map_existing (name : option Z) (fd : nat) (id : Z) : io SegHandle :=
  map_len <-! errs Io (sys_fstat fd) ;;
  if map_len <? HEADER_SIZE then Ret (Err LayoutMismatch)
  else
    ptr <-! map_fd fd map_len ;;
    h <- header_read fd ;;
    Ret (if header_bad h id map_len then Err LayoutMismatch
         else Ok (mkSegHandle name id fd ptr (sh_size h) map_len (sh_generation h))).

Definition segment_attach (id : Z) : io SegHandle :=
  fd <-! errs Nix (sys_shm_open id) ;;
  map_existing (Some id) fd id.

Definition from_raw_fd (fd : nat) (id : Z) : io SegHandle := map_existing None fd id.

Definition segment_unlink (s : SegHandle) : io unit :=
  match sg_name s with
  | Some id => errs Nix (sys_shm_unlink id)
  | None => Ret (Ok tt)
  end.

Definition unlink_by_id (id : Z) : io unit := errs Nix (sys_shm_unlink id).

(** ** Doorbells *)

Record DoorbellPair : Set := mkDoorbell { db_read : nat; db_write : nat }.

Definition eventfd_doorbell_pair : io DoorbellPair :=
  read <-! errs Io sys_eventfd ;;
  write <-! errs Io (sys_dup read) ;;
  Ret (Ok (mkDoorbell read write)).

Definition doorbell_pair_pipe : io DoorbellPair :=
  p <-! errs Io sys_pipe ;;
  _ <-! errs Io (sys_nonblock_cloexec p.1) ;;
  _ <-! errs Io (sys_nonblock_cloexec p.2) ;;
  Ret (Ok (mkDoorbell p.1 p.2)).
End segment.

(** ** The platform seam

    The operations of the trait that act on segments, and [doorbell_pair], which the source
    selects by the same configuration switch. *)

Class Platform (O : Type) := {
  plat_create : Z -> Z -> prog O (result CoreError SegHandle);
  plat_attach : Z -> prog O (result CoreError SegHandle);
  plat_unlink : Z -> prog O (result CoreError unit);
  plat_create_sealed : Z -> Z -> prog O (result CoreError SegHandle);
  plat_doorbell_pair : prog O (result CoreError DoorbellPair)
}.

Definition posix_platform {O} `{!ShmOs O} : Platform O := {|
  plat_create := segment_create;
  plat_attach := segment_attach;
  plat_unlink := unlink_by_id;
  plat_create_sealed := segment_create;
  plat_doorbell_pair := doorbell_pair_pipe
|}.

Definition linux_platform {O} `{!ShmOs O} : Platform O := {|
  plat_create := segment_create;
  plat_attach := segment_attach;
  plat_unlink := unlink_by_id;
  plat_create_sealed := create_sealed;
  plat_doorbell_pair := eventfd_doorbell_pair
|}.

(** ** What the kernel promises of an object's length and first page *)

Class ShmOsLaws (O : Type) `{!ShmOs O} := {
  os_len : O -> nat -> Z;
  os_header : O -> nat -> SegmentHeader;
  law_ftruncate o fd n o' : run (sys_ftruncate fd n) o = Some (Ok tt, o') -> os_len o' fd = n;
  law_add_seals o fd r o' : run (sys_add_seals fd) o = Some (r, o') -> os_len o' = os_len o;
  law_mmap o fd n r o' : run (sys_mmap fd n) o = Some (r, o') -> os_len o' = os_len o /\ os_header o' = os_header o;
  law_fstat o fd n o' : run (sys_fstat fd) o = Some (Ok n, o') -> n = os_len o fd /\ os_header o' = os_header o;
  law_header_write o fd h o' : run (header_write fd h) o = Some (tt, o') -> os_len o' = os_len o /\ os_header o' fd = h;
  law_header_read o fd h o' : run (header_read fd) o = Some (h, o') -> h = os_header o fd
}.

Section adoption.
Context {O : Type} `{!ShmOs O, !ShmOsLaws O}.

Lemma run_ebind_Ok {S E A B} (p : prog S (result E A)) (k : A -> prog S (result E B)) s b s' :
  run (ebind p k) s = Some (Ok b, s') -> exists a s1, run p s = Some (Ok a, s1) /\ run (k a) s1 = Some (Ok b, s').
Proof. rewrite run_ebind. destruct (run p s) as [[[a|e] s1]|]; [|done|done]. by exists a, s1. Qed.

Lemma run_errs_Ok {S E F A} (f : E -> F) (p : prog S (result E A)) s a s' :
  run (errs f p) s = Some (Ok a, s') -> run p s = Some (Ok a, s').
Proof. rewrite run_errs. destruct (run p s) as [[[b|e] s1]|]; cbn; [|done|done]. by intros [= -> ->]. Qed.

Lemma run_map_fd_Ok fd size o ptr o' : run (map_fd fd size) o = Some (Ok ptr, o') -> run (sys_mmap fd size) o = Some (Ok ptr, o').
Proof. unfold map_fd. destruct (size =? 0); [done|]. apply run_errs_Ok. Qed.

(** A created segment has its size and its header. *)
Lemma run_create_sealed id size o s o' :
  run (create_sealed id size) o = Some (Ok s, o') ->
  HEADER_SIZE <= size /\ sg_name s = None /\ sg_id s = id /\ sg_size s = size /\ sg_map_len s = size /\ sg_generation s = 1 /\
  os_len o' (sg_fd s) = size /\ os_header o' (sg_fd s) = first_header id size.
Proof.
  unfold create_sealed. destruct (Z.ltb_spec size HEADER_SIZE) as [|Hs]; [done|]. intros H.
  apply run_ebind_Ok in H as (fd & o1 & H1 & H). unfold memfd_sealed_fd in H1.
  apply run_ebind_Ok in H1 as (fd0 & o2 & _ & H1). apply run_ebind_Ok in H1 as ([] & o3 & Ht%run_errs_Ok & H1).
  apply run_ebind_Ok in H1 as ([] & o4 & Hse%run_errs_Ok & H1). cbn in H1. simplify_eq.
  apply run_ebind_Ok in H as (ptr & o5 & Hm%run_map_fd_Ok & H). rewrite run_bind in H.
  destruct (run (header_write fd _) o5) as [[[] o6]|] eqn:Hw; [|done]. cbn in H. simplify_eq.
  apply law_ftruncate in Ht. apply law_add_seals in Hse. apply law_mmap in Hm as [Hm _]. apply law_header_write in Hw as [Hw ?].
  split_and!; try done. cbn. by rewrite Hw, Hm, Hse, Ht.
Qed.

(** The peer that was sent the descriptor of a created segment adopts exactly that segment,
    when it expects the right id, and nothing otherwise. *)
Lemma adopt_created id size o s o1 id' r o2 :
  run (create_sealed id size) o = Some (Ok s, o1) ->
  run (from_raw_fd (sg_fd s) id') o1 = Some (Ok r, o2) ->
  id' = id /\ sg_id r = sg_id s /\ sg_fd r = sg_fd s /\ sg_size r = sg_size s /\ sg_generation r = sg_generation s.
Proof.
  intros H. apply run_create_sealed in H as (Hs & _ & Hi & Hsz & _ & Hg & Hlen & Hhd).
  unfold from_raw_fd, map_existing. intros H. apply run_ebind_Ok in H as (n & o3 & [-> Hh]%run_errs_Ok%law_fstat & H).
  rewrite Hlen in H. destruct (size <? HEADER_SIZE); [done|].
  apply run_ebind_Ok in H as (ptr & o4 & [_ Hm]%run_map_fd_Ok%law_mmap & H). rewrite run_bind in H.
  destruct (run (header_read _) o4) as [[h o5]|] eqn:Er; [|done]. apply law_header_read in Er as ->.
  rewrite Hm, Hh, Hhd in H. cbn [run] in H. destruct (header_bad _ _ _) eqn:Eb; [done|]. simplify_eq.
  unfold header_bad, first_header in Eb. cbn in Eb. rewrite !orb_false_iff, !negb_false_iff, !Z.eqb_eq in Eb.
  destruct Eb as [[[[_ Eid] _] _] _]. cbn. by rewrite Hg.
Qed.

(** The header that [create_sealed] writes passes the checks of an attaching process. *)
Lemma created_header_good id size : HEADER_SIZE <= size -> header_bad (first_header id size) id size = false.
Proof.
  intros Hs. unfold header_bad, first_header. cbn [sh_magic sh_layout_version sh_segment_id sh_generation sh_size].
  rewrite !Z.eqb_refl. cbn. rewrite !orb_false_iff, !Z.ltb_ge. lia.
Qed.
End adoption.

(** ** Objects in a table

    The laws have a model: objects numbered in the order they are made, each with its length
    and its header; every call succeeds but those on names that are (or are not) there. *)

Module Sim.
Record Sim : Set := mkSim {
  next_fd : nat;
  lens : gmap nat Z;
  headers : gmap nat SegmentHeader;
  names : gmap Z nat;
  sent : list (nat * list Z * list nat)
}.

Definition empty : Sim := mkSim 3 ∅ ∅ ∅ [].

Definition fresh : prog Sim (result Z nat) :=
  act (fun o => Some (Ok (next_fd o), mkSim (S (next_fd o)) (lens o) (headers o) (names o) (sent o))).

#[global] Instance sim_os : ShmOs Sim := {|
  sys_shm_open_excl id := act (fun o =>
    match names o !! id with
    | Some _ => Some (Err EEXIST, o)
    | None => Some (Ok (next_fd o), mkSim (S (next_fd o)) (lens o) (headers o) (<[id := next_fd o]> (names o)) (sent o))
    end);
  sys_shm_open id := load (fun o => match names o !! id with Some fd => Ok fd | None => Err 2 end);
  sys_shm_unlink id := act (fun o =>
    match names o !! id with
    | Some _ => Some (Ok tt, mkSim (next_fd o) (lens o) (headers o) (delete id (names o)) (sent o))
    | None => Some (Err 2, o)
    end);
  sys_memfd_create _ := fresh;
  sys_ftruncate fd n := act (fun o => Some (Ok tt, mkSim (next_fd o) (<[fd := n]> (lens o)) (headers o) (names o) (sent o)));
  sys_add_seals _ := Ret (Ok tt);
  sys_fstat fd := load (fun o => Ok (default 0 (lens o !! fd)));
  sys_mmap fd _ := Ret (Ok (65536 * Z.of_nat fd));
  sys_eventfd := fresh;
  sys_dup _ := fresh;
  sys_pipe := r <-! fresh ;; w <-! fresh ;; Ret (Ok (r, w));
  sys_nonblock_cloexec _ := Ret (Ok tt);
  header_read fd := load (fun o => default ZERO_HEADER (headers o !! fd));
  header_write fd h := store (fun o => mkSim (next_fd o) (lens o) (<[fd := h]> (headers o)) (names o) (sent o))
|}.

#[global, refine] Instance sim_laws : ShmOsLaws Sim := {|
  os_len o fd := default 0 (lens o !! fd);
  os_header o fd := default ZERO_HEADER (headers o !! fd)
|}.
Proof.
  all: intros *; cbn; intros [= <- <-] || intros [= <-] || intros; simplify_eq; cbn; rewrite ?lookup_insert_eq; try done.
Defined.

#[global] Instance sim_platform : Platform Sim := linux_platform.
End Sim.
