(* ===== verification/Coordinator.v ===== *)
(** * The coordinator: configuration, registry and grants

    [src/crates/shm-runtime/src/config.rs], [error.rs] and the control plane of
    [coordinator.rs]: the segments a coordinator creates, the tables it keeps under one
    mutex (actors, topics, artifacts, interned schemas and keys), and the handling of each
    request of an actor's connection.  Crash reclaim and the lease monitor are in [Reclaim].

    A hold of the mutex is one action ([locked]), with the system calls made under it.  The
    system is the class [Platform] and the socket's [sendmsg]; the contents of every segment
    are kept by the number of the shared-memory object behind it, so two handles on one
    object see the same words.  Replies are the bytes and descriptors given to [sendmsg]. *)

From S2P Require Import Prelude Atomic ChunkDesc ChunkCtrl Pool BorrowJournal Ring Protocol TaskQueue Manifest Window Head Artifact Commit Catalog TypedRef Store Arrow Segments.

#[local] Open Scope prog_scope.

(** ** Configuration *)

Record RuntimeConfig : Set := mkConfig {
  seg_base : Z;
  payload_size : Z;
  cfg_pool : PoolConfig;
  ring_capacity : Z;
  journal_capacity : nat;
  heartbeat_interval : Z;
  lease_deadline : Z;
  monitor_tick : Z;
  task_capacity : Z;
  task_max_retries : Z;
  task_binding_grace : Z;
  artifact_pool : PoolConfig;
  artifact_data_size : Z;
  store_capacity : Z;
  store_pool : PoolConfig;
  store_data_size : Z
}.

Definition JOURNAL_ID_OFFSET : Z := 1024.
Definition TASKQ_ID_OFFSET : Z := 512.
Definition ARTIFACT_ID_OFFSET : Z := 4096.
Definition STORE_ID_OFFSET : Z := 8192.
Definition STORE_ARTIFACT_ID_BASE : Z := Z.shiftl 1 28.

Definition MILLIS : Z := 1000000.

Definition default_config : RuntimeConfig :=
  mkConfig 1 (Z.shiftl 1 20) (default [] (power_of_two 4096 65536 8)) 1024
    (Z.to_nat DEFAULT_CAPACITY) (150 * MILLIS) (500 * MILLIS) (40 * MILLIS)
    256 DEFAULT_MAX_RETRIES (2000 * MILLIS)
    (default [] (power_of_two 256 8192 8)) (Z.shiftl 1 20)
    256 (default [] (power_of_two 256 8192 32)) (Z.shiftl 1 20).

Definition with_seg_base (base : Z) : RuntimeConfig :=
  let c := default_config in
  mkConfig base (payload_size c) (cfg_pool c) (ring_capacity c) (journal_capacity c)
    (heartbeat_interval c) (lease_deadline c) (monitor_tick c) (task_capacity c) (task_max_retries c)
    (task_binding_grace c) (artifact_pool c) (artifact_data_size c) (store_capacity c) (store_pool c)
    (store_data_size c).

(** Segment ids (release build: [u32] additions wrap). *)
Definition payload_seg_id (c : RuntimeConfig) : Z := seg_base c.
Definition ring_seg_id (c : RuntimeConfig) (i : Z) : Z := wrap32 (seg_base c + 1 + i).
Definition journal_seg_id (c : RuntimeConfig) (a : Z) : Z := wrap32 (seg_base c + JOURNAL_ID_OFFSET + a).
Definition task_queue_seg_id (c : RuntimeConfig) : Z := wrap32 (seg_base c + TASKQ_ID_OFFSET).
Definition artifact_head_seg_id (c : RuntimeConfig) (i : Z) : Z := wrap32 (seg_base c + ARTIFACT_ID_OFFSET + 2 * i).
Definition store_catalog_seg_id (c : RuntimeConfig) : Z := wrap32 (seg_base c + STORE_ID_OFFSET).
Definition store_head_seg_id (c : RuntimeConfig) : Z := wrap32 (seg_base c + STORE_ID_OFFSET + 1).
Definition store_data_seg_id (c : RuntimeConfig) : Z := wrap32 (seg_base c + STORE_ID_OFFSET + 2).

(** ** Errors *)

(** The reply a node waited for. *)
Inductive Wanted : Set :=
| WRegistered | WGranted | WArtifact | WTaskQueue | WStore | WInternedSchema | WResolvedSchema | WInternedKey | WResolvedKey.

(** Errors of the layers below are carried as text; of the Arrow and stream layers, whose
    errors depend on the Arrow library, not even that is kept. *)
Inductive RtError : Set :=
| RtCore (e : CoreError)
| RtRing (e : RingError)
| RtArtifact (e : ArtifactError)
| RtTask (e : TaskError)
| RtStore (e : StoreError)
| RtIo (errno : Z)
| RtNix (errno : Z)
| RtProtocol (e : ProtoError)
| RtPeerClosed
| RtNotFound
| RtArrow
| RtStream
| RtMissingFds (expected received : nat)
| RtRejected (message : string_t)
| RtUnexpected (wanted : Wanted).

(** ** State *)

Inductive Liveness : Set := Alive | Left | Dead.

#[export] Instance Liveness_eq_dec : EqDecision Liveness.
Proof. solve_decision. Defined.

Record ActorEntry : Set := mkActor {
  ae_name : string_t;
  ae_journal_seg : SegHandle;
  ae_last_heartbeat : Z;
  ae_liveness : Liveness;
  ae_pidfd : option nat
}.

Definition set_liveness (l : Liveness) (a : ActorEntry) : ActorEntry :=
  mkActor (ae_name a) (ae_journal_seg a) (ae_last_heartbeat a) l (ae_pidfd a).
Definition set_heartbeat (t : Z) (a : ActorEntry) : ActorEntry :=
  mkActor (ae_name a) (ae_journal_seg a) t (ae_liveness a) (ae_pidfd a).

Record TopicEntry : Set := mkTopic { te_index : Z; te_segment : SegHandle; te_region_len : Z; te_doorbell : DoorbellPair }.

Record ArtifactEntry : Set := mkArtEntry { ar_name_id : Z; ar_index : Z; ar_head_seg : SegHandle; ar_data_seg : SegHandle }.

(** One interned name space: the issued id of each name, the bytes of each id, and the
    next id.  Schemas are named by their content hash, keys by their bytes. *)
Record InternTable (K : Set) `{Countable K} : Set := mkInterned {
  it_ids : gmap K Z;
  it_bytes : gmap Z bytes_t;
  it_next : Z
}.
Arguments mkInterned {K _ _}.
Arguments it_ids {K _ _}.
Arguments it_bytes {K _ _}.
Arguments it_next {K _ _}.

Definition interned {K : Set} `{Countable K} (name : K) (bytes : bytes_t) (t : InternTable K) : Z * InternTable K :=
  match it_ids t !! name with
  | Some id => (id, t)
  | None =>
      let id := it_next t in
      (id, mkInterned (<[name := id]> (it_ids t)) (<[id := bytes]> (it_bytes t)) (wrap32 (id + 1)))
  end.

Record ActorTable : Set := mkActors { next_actor_id : Z; actors : gmap Z ActorEntry }.
Record TopicTable : Set := mkTopics { next_topic_index : Z; topics : gmap string_t TopicEntry }.
Record ArtifactTable : Set := mkArts {
  next_artifact_index : Z;
  next_name_id : Z;
  artifacts : gmap string_t ArtifactEntry;
  artifact_name_by_id : gmap Z string_t
}.
Record Observed : Set := mkObserved {
  last_published : option ChunkDesc;
  armed : bool;
  reclaimed : list ChunkDesc;
  artifact_pins_reclaimed : Z;
  write_leases_reclaimed : Z;
  task_bindings_reclaimed : Z
}.

(** The fields of [CoordState], grouped. *)
Record CoordState : Set := mkCoordState {
  st_actors : ActorTable;
  st_topics : TopicTable;
  st_artifacts : ArtifactTable;
  st_observed : Observed;
  st_created : list Z; (* created_seg_ids *)
  st_schemas : InternTable Z;
  st_keys : InternTable bytes_t
}.

Definition set_actors v s := mkCoordState v (st_topics s) (st_artifacts s) (st_observed s) (st_created s) (st_schemas s) (st_keys s).
Definition set_topics v s := mkCoordState (st_actors s) v (st_artifacts s) (st_observed s) (st_created s) (st_schemas s) (st_keys s).
Definition set_artifacts v s := mkCoordState (st_actors s) (st_topics s) v (st_observed s) (st_created s) (st_schemas s) (st_keys s).
Definition set_observed v s := mkCoordState (st_actors s) (st_topics s) (st_artifacts s) v (st_created s) (st_schemas s) (st_keys s).
Definition push_created ids s := mkCoordState (st_actors s) (st_topics s) (st_artifacts s) (st_observed s) (st_created s ++ ids) (st_schemas s) (st_keys s).
Definition set_schemas v s := mkCoordState (st_actors s) (st_topics s) (st_artifacts s) (st_observed s) (st_created s) v (st_keys s).
Definition set_keys v s := mkCoordState (st_actors s) (st_topics s) (st_artifacts s) (st_observed s) (st_created s) (st_schemas s) v.

(** ** Memory *)

(** What the segments hold, by object number; the queue, the catalog and the store's heads
    have one segment each. *)
Record Contents : Set := mkContents {
  c_pools : gmap nat PoolMem;
  c_journals : gmap nat JournalMem;
  c_rings : gmap nat RingMem;
  c_heads : gmap nat ArtifactHead;
  c_queue : QueueMem;
  c_cat : CatMem;
  c_store_heads : gmap Z ArtifactHead;
  c_events : list VersionEvent
}.

Definition set_pools v c := mkContents v (c_journals c) (c_rings c) (c_heads c) (c_queue c) (c_cat c) (c_store_heads c) (c_events c).
Definition set_journals v c := mkContents (c_pools c) v (c_rings c) (c_heads c) (c_queue c) (c_cat c) (c_store_heads c) (c_events c).
Definition set_rings v c := mkContents (c_pools c) (c_journals c) v (c_heads c) (c_queue c) (c_cat c) (c_store_heads c) (c_events c).
Definition set_heads v c := mkContents (c_pools c) (c_journals c) (c_rings c) v (c_queue c) (c_cat c) (c_store_heads c) (c_events c).
Definition set_queue v c := mkContents (c_pools c) (c_journals c) (c_rings c) (c_heads c) v (c_cat c) (c_store_heads c) (c_events c).

(** [data_ids] is the process-wide counter behind [alloc_artifact_data_id]. *)
Record CoordMem (O : Type) : Type := mkCoordMem {
  cm_os : O;
  cm_clock : Z;
  cm_running : bool;
  cm_data_ids : Z;
  cm_state : CoordState;
  cm_seg : Contents
}.
Arguments mkCoordMem {O}.
Arguments cm_os {O}.
Arguments cm_clock {O}.
Arguments cm_running {O}.
Arguments cm_data_ids {O}.
Arguments cm_state {O}.
Arguments cm_seg {O}.

Definition set_os {O} (o : O) (m : CoordMem O) := mkCoordMem o (cm_clock m) (cm_running m) (cm_data_ids m) (cm_state m) (cm_seg m).
Definition set_data_ids {O} n (m : CoordMem O) := mkCoordMem (cm_os m) (cm_clock m) (cm_running m) n (cm_state m) (cm_seg m).
Definition set_cstate {O} s (m : CoordMem O) := mkCoordMem (cm_os m) (cm_clock m) (cm_running m) (cm_data_ids m) s (cm_seg m).
Definition set_seg {O} c (m : CoordMem O) := mkCoordMem (cm_os m) (cm_clock m) (cm_running m) (cm_data_ids m) (cm_state m) c.

(** What is fixed once the coordinator is bound. *)
Record CoordShared : Set := mkShared {
  config : RuntimeConfig;
  payload_seg : SegHandle;
  task_queue_seg : SegHandle;
  task_queue : TaskQueue;
  work_db : DoorbellPair;
  done_db : DoorbellPair;
  store_catalog_seg : SegHandle;
  store_head_seg : SegHandle;
  store_data_seg : SegHandle
}.

(** A connection's socket: sending a frame with descriptors, and watching its peer. *)
Class Socket (O : Type) := {
  sys_sendmsg : nat -> list Z -> list nat -> prog O (result Z unit);
  sys_peer_pidfd : nat -> prog O (option nat) (* SO_PEERCRED, then pidfd_open *)
}.

(** ** Parts of the memory *)

(** Focus on the entry [k] of a map component. *)
Definition entry {M C K} `{Countable K} (get : M -> gmap K C) (set : gmap K C -> M -> M) (k : K) : focus M C :=
  fun R f m =>
    match get m !! k with
    | Some c => match f c with Some (r, c') => Some (r, set (<[k := c']> (get m)) m) | None => None end
    | None => None
    end.

Section parts.
Context {O : Type}.
Abbreviation CM := (CoordMem O).

Definition on_os {A} (p : prog O A) : prog CM A := lift (field cm_os set_os) p.

Definition pool_part (fd : nat) : focus CM PoolMem := entry (fun m => c_pools (cm_seg m)) (fun v m => set_seg (set_pools v (cm_seg m)) m) fd.
Definition journal_part (fd : nat) : focus CM JournalMem := entry (fun m => c_journals (cm_seg m)) (fun v m => set_seg (set_journals v (cm_seg m)) m) fd.
Definition head_part (fd : nat) : focus CM ArtifactHead := entry (fun m => c_heads (cm_seg m)) (fun v m => set_seg (set_heads v (cm_seg m)) m) fd.
Definition queue_part : focus CM QueueMem := field (fun m => c_queue (cm_seg m)) (fun v m => set_seg (set_queue v (cm_seg m)) m).

Definition on_pool {A} (s : SegHandle) (p : prog PoolMem A) : prog CM A := lift (pool_part (sg_fd s)) p.
Definition on_journal {A} (s : SegHandle) (p : prog JournalMem A) : prog CM A := lift (journal_part (sg_fd s)) p.
Definition on_queue {A} (p : prog QueueMem A) : prog CM A := lift queue_part p.

(** A hold of the state mutex. *)
Definition locked {A : Set} (p : prog CM A) : prog CM A := act (fun m => run p m).

Definition with_state {A : Set} (f : CoordState -> A * CoordState) : prog CM A :=
  act (fun m => let '(a, s) := f (cm_state m) in Some (a, set_cstate s m)).
Definition get_state {A : Set} (f : CoordState -> A) : prog CM A := with_state (fun s => (f s, s)).
Definition update_state (f : CoordState -> CoordState) : prog CM unit := with_state (fun s => (tt, f s)).

Definition clock : prog CM Z := load cm_clock.
Definition running : prog CM bool := load cm_running.

(** Attaching to the pool or the journal of a mapped segment. *)
Definition pool_attach (s : SegHandle) : prog CM (result CoreError Pool) :=
  on_pool s (act (fun m => Some (Pool.attach (seg_of s) m, m))).
Definition journal_attach (s : SegHandle) : prog CM (result CoreError BorrowJournal) :=
  on_journal s (act (fun m => Some (BorrowJournal.attach m, m))).

(** Laying out a pool, a journal, a ring or a head in a fresh segment. *)
Definition init_pool (s : SegHandle) (cfg : PoolConfig) : prog CM (result CoreError Pool) :=
  match Pool.create (seg_of s) cfg with
  | Err e => Ret (Err e)
  | Ok (p, pm) => store (fun m => set_seg (set_pools (<[sg_fd s := pm]> (c_pools (cm_seg m))) (cm_seg m)) m) ;;; Ret (Ok p)
  end.

Definition init_journal (s : SegHandle) (cap : nat) : prog CM (result CoreError BorrowJournal) :=
  match BorrowJournal.create (sg_payload_len s) cap with
  | Err e => Ret (Err e)
  | Ok (j, jm) => store (fun m => set_seg (set_journals (<[sg_fd s := jm]> (c_journals (cm_seg m))) (cm_seg m)) m) ;;; Ret (Ok j)
  end.

Definition init_ring (s : SegHandle) (region_len cap : Z) : prog CM (result RingError Ring) :=
  match Ring.init (sg_payload_ptr s) region_len cap with
  | Err e => Ret (Err e)
  | Ok (r, rm) => store (fun m => set_seg (set_rings (<[sg_fd s := rm]> (c_rings (cm_seg m))) (cm_seg m)) m) ;;; Ret (Ok r)
  end.

(** [Artifact::create]. *)
Definition artifact_create (nid : Z) (head_seg data_seg : SegHandle) (cfg : PoolConfig) : prog CM (result ArtifactError Artifact) :=
  _ <-! errs Core (init_pool data_seg cfg) ;;
  store (fun m => set_seg (set_heads (<[sg_fd head_seg := zero_head]> (c_heads (cm_seg m))) (cm_seg m)) m) ;;;
  lift (head_part (sg_fd head_seg)) (create_head nid (sg_payload_len head_seg)).
End parts.

(** ** Text of error replies *)

Fixpoint decimal_loop (fuel : nat) (n : Z) (acc : list Z) : list Z :=
  match fuel with
  | O => acc
  | S fuel' =>
      let acc := (48 + n mod 10) :: acc in
      if n / 10 =? 0 then acc else decimal_loop fuel' (n / 10) acc
  end.

(** A [u32] in decimal: at most ten digits. *)
Definition decimal (n : Z) : string_t := decimal_loop 10 n [].

Definition unknown_schema_id (id : Z) : string_t :=
  [117; 110; 107; 110; 111; 119; 110; 32; 115; 99; 104; 101; 109; 97; 95; 105; 100; 32] ++ decimal id.
Definition unknown_key_id (id : Z) : string_t :=
  [117; 110; 107; 110; 111; 119; 110; 32; 107; 101; 121; 95; 105; 100; 32] ++ decimal id.

Definition ARTIFACTS_TOPIC : string_t := [95; 95; 97; 114; 116; 105; 102; 97; 99; 116; 115]. (* "__artifacts" *)

(** Header, a page and 32 bytes per pin. *)
Definition journal_segment_size (capacity : nat) : Z := HEADER_SIZE + 4096 + Z.of_nat capacity * 32.

Definition is_timeout (errno : Z) : bool := (errno =? 11) || (errno =? 4). (* EAGAIN, EINTR *)

(** ** Creation *)

Section coordinator.
Context {O : Type} `{!Platform O, !Socket O}.
(** The randomized base of the artifacts' data-segment ids. *)
Context (data_base : Z).
Abbreviation CM := (CoordMem O).
Abbreviation io A := (prog CM (result RtError A)).

(** A name left over from a crashed run is removed and the creation tried again. *)
Definition create_segment (id size : Z) : prog O (result RtError SegHandle) :=
  r <- plat_create_sealed id size ;;
  match r with
  | Ok s => Ret (Ok s)
  | Err e =>
      if decide (e = Nix EEXIST) then
        plat_unlink id ;;;
        errs RtCore (plat_create_sealed id size)
      else Ret (Err (RtCore e))
  end.

Definition head_stride : Z := align_up region_bytes 64.

Definition first_state (created : list Z) : CoordState :=
  mkCoordState (mkActors 1 ∅) (mkTopics 0 ∅) (mkArts 0 1 ∅ ∅) (mkObserved None false [] 0 0 0) created
    (mkInterned ∅ ∅ FIRST_USER_SCHEMA_ID) (mkInterned ∅ ∅ 1).

(** A step of [bind] that only lays out memory. *)
Definition laid {S E F A} (f : E -> F) (r : result E A) : prog S (result F A) := Ret (map_err f r).

Definition bind (cfg : RuntimeConfig) : prog O (result RtError (CoordShared * Contents * CoordState)) :=
  payload <-! create_segment (payload_seg_id cfg) (payload_size cfg) ;;
  pool <-! laid RtCore (Pool.create (seg_of payload) (cfg_pool cfg)) ;;
  tq_seg <-! create_segment (task_queue_seg_id cfg) (HEADER_SIZE + TaskQueue.required_bytes (task_capacity cfg)) ;;
  tq <-! laid RtTask (TaskQueue.init_with_max_retries (sg_payload_ptr tq_seg) (sg_payload_len tq_seg)
                        (task_capacity cfg) (task_max_retries cfg)) ;;
  work <-! errs RtCore plat_doorbell_pair ;;
  dn <-! errs RtCore plat_doorbell_pair ;;
  cat_seg <-! create_segment (store_catalog_seg_id cfg) (Catalog.segment_bytes (store_capacity cfg)) ;;
  cat <-! laid RtStore (Catalog.init (sg_payload_len cat_seg) (store_capacity cfg) (wrap32 head_stride) STORE_ARTIFACT_ID_BASE) ;;
  head_seg <-! create_segment (store_head_seg_id cfg) (HEADER_SIZE + store_capacity cfg * head_stride) ;;
  data_seg <-! create_segment (store_data_seg_id cfg) (store_data_size cfg) ;;
  data <-! laid RtCore (Pool.create (seg_of data_seg) (store_pool cfg)) ;;
  queue <-! laid RtTask (TaskQueue.attach (sg_payload_ptr tq_seg) (sg_payload_len tq_seg) tq.2) ;;
  Ret (Ok (mkShared cfg payload tq_seg queue work dn cat_seg head_seg data_seg,
           mkContents (<[sg_fd data_seg := data.2]> {[sg_fd payload := pool.2]}) ∅ ∅ ∅ tq.2 cat.2 ∅ [],
           first_state [payload_seg_id cfg; task_queue_seg_id cfg; store_catalog_seg_id cfg;
                        store_head_seg_id cfg; store_data_seg_id cfg])).

Context (shared : CoordShared).
Abbreviation cfg := (config shared).

(** ** Replies *)

(** A frame over the limit panics. *)
Definition reply (conn : nat) (resp : Response) (fds : list nat) : io unit :=
  match Protocol.send_frame (encode_response resp) with
  | None => fault
  | Some frame => on_os (errs RtNix (sys_sendmsg conn frame fds))
  end.

(** ** Topics *)

(** [(ring_seg_id, ring_fd, region_len, read_fd, write_fd)]; the caller holds the mutex. *)
Definition get_or_create_topic (topic : string_t) : io (Z * nat * Z * nat * nat) :=
  found <- get_state (fun s => topics (st_topics s) !! topic) ;;
  match found with
  | Some t =>
      Ret (Ok (sg_id (te_segment t), sg_fd (te_segment t), te_region_len t,
               db_read (te_doorbell t), db_write (te_doorbell t)))
  | None =>
      let region_len := Ring.required_bytes (ring_capacity cfg) in
      idx <- with_state (fun s =>
        let t := st_topics s in
        (next_topic_index t, set_topics (mkTopics (wrap32 (next_topic_index t + 1)) (topics t)) s)) ;;
      let id := ring_seg_id cfg idx in
      seg <-! on_os (create_segment id (HEADER_SIZE + region_len)) ;;
      _ <-! errs RtRing (init_ring seg region_len (ring_capacity cfg)) ;;
      bell <-! on_os (errs RtCore plat_doorbell_pair) ;;
      update_state (push_created [id]) ;;;
      update_state (fun s =>
        set_topics (mkTopics (next_topic_index (st_topics s))
                      (<[topic := mkTopic idx seg region_len bell]> (topics (st_topics s)))) s) ;;;
      Ret (Ok (id, sg_fd seg, region_len, db_read bell, db_write bell))
  end.

Definition grant_topic (conn : nat) (topic : string_t) (subscribe : bool) : io unit :=
  g <-! locked (get_or_create_topic topic) ;;
  let '(id, ring_fd, region_len, read_fd, write_fd) := g in
  reply conn (Granted id (wrap32 region_len)) [ring_fd; if subscribe then read_fd else write_fd].

(** ** Actors *)

Definition register_actor (conn : nat) (name : string_t) : io Z :=
  id <- locked (with_state (fun s =>
    let a := st_actors s in
    (next_actor_id a, set_actors (mkActors (wrap32 (next_actor_id a + 1)) (actors a)) s))) ;;
  let jid := journal_seg_id cfg id in
  seg <-! on_os (create_segment jid (journal_segment_size (journal_capacity cfg))) ;;
  _ <-! errs RtCore (init_journal seg (journal_capacity cfg)) ;;
  locked (
    update_state (push_created [jid]) ;;;
    now <- clock ;;
    pidfd <- on_os (sys_peer_pidfd conn) ;;
    update_state (fun s =>
      set_actors (mkActors (next_actor_id (st_actors s))
        (<[id := mkActor name seg now Alive pidfd]> (actors (st_actors s)))) s)) ;;;
  _ <-! reply conn (Registered id id (payload_seg_id cfg) jid) [sg_fd (payload_seg shared); sg_fd seg] ;;
  Ret (Ok id).

Definition update_actor (id : Z) (f : ActorEntry -> ActorEntry) : CoordState -> CoordState := fun s =>
  set_actors (mkActors (next_actor_id (st_actors s)) (alter f id (actors (st_actors s)))) s.

(** ** Artifacts *)

Definition alloc_artifact_data_id : prog CM Z :=
  n <- fetch_add32 cm_data_ids set_data_ids 1 ;;
  Ret (Z.max (wrap32 (data_base + n) mod 65536) 1).

(** [(name_id, head_seg_id, data_seg_id, head_fd, data_fd)], under the mutex. *)
Definition get_or_create_artifact (name : string_t) : io (Z * Z * Z * nat * nat) :=
  found <- get_state (fun s => artifacts (st_artifacts s) !! name) ;;
  match found with
  | Some a =>
      Ret (Ok (ar_name_id a, sg_id (ar_head_seg a), sg_id (ar_data_seg a),
               sg_fd (ar_head_seg a), sg_fd (ar_data_seg a)))
  | None =>
      ids <- with_state (fun s =>
        let a := st_artifacts s in
        ((next_artifact_index a, next_name_id a),
         set_artifacts (mkArts (wrap32 (next_artifact_index a + 1)) (wrap32 (next_name_id a + 1))
                          (artifacts a) (artifact_name_by_id a)) s)) ;;
      let '(index, nid) := ids in
      let head_id := artifact_head_seg_id cfg index in
      data_id <- alloc_artifact_data_id ;;
      head_seg <-! on_os (create_segment head_id (HEADER_SIZE + region_bytes)) ;;
      data_seg <-! on_os (create_segment data_id (artifact_data_size cfg)) ;;
      _ <-! errs RtArtifact (artifact_create nid head_seg data_seg (artifact_pool cfg)) ;;
      update_state (push_created [head_id; data_id]) ;;;
      update_state (fun s =>
        let a := st_artifacts s in
        set_artifacts (mkArts (next_artifact_index a) (next_name_id a)
          (<[name := mkArtEntry nid index head_seg data_seg]> (artifacts a))
          (<[nid := name]> (artifact_name_by_id a))) s) ;;;
      Ret (Ok (nid, head_id, data_id, sg_fd head_seg, sg_fd data_seg))
  end.

Definition grant_artifact (conn : nat) (name : string_t) : io unit :=
  g <-! locked (get_or_create_artifact name) ;;
  let '(nid, head_id, data_id, head_fd, data_fd) := g in
  reply conn (ArtifactGranted nid head_id data_id) [head_fd; data_fd].

(** ** The built-in queue and store *)

Definition grant_task_queue (conn : nat) : io unit :=
  let seg := task_queue_seg shared in
  reply conn (TaskQueueGranted (sg_id seg) (wrap32 (sg_payload_len seg)))
    [sg_fd seg; db_read (work_db shared); db_write (work_db shared); db_read (done_db shared); db_write (done_db shared)].

Definition grant_store (conn : nat) : io unit :=
  let cat := store_catalog_seg shared in
  let head := store_head_seg shared in
  let data := store_data_seg shared in
  reply conn (StoreGranted (sg_id cat) (wrap32 (sg_payload_len cat)) (sg_id head) (wrap32 (sg_payload_len head))
                (sg_id data) (wrap32 (sg_payload_len data)))
    [sg_fd cat; sg_fd head; sg_fd data].

(** ** Interning *)

Definition intern_schema (bytes : bytes_t) : prog CM Z :=
  let hash := schema_content_hash bytes in
  locked (with_state (fun s => let '(id, t) := interned hash bytes (st_schemas s) in (id, set_schemas t s))).

Definition resolve_schema_bytes (id : Z) : prog CM (option bytes_t) :=
  locked (get_state (fun s => it_bytes (st_schemas s) !! id)).

Definition intern_key (bytes : bytes_t) : prog CM Z :=
  locked (with_state (fun s => let '(id, t) := interned bytes bytes (st_keys s) in (id, set_keys t s))).

Definition resolve_key_bytes (id : Z) : prog CM (option bytes_t) :=
  locked (get_state (fun s => it_bytes (st_keys s) !! id)).

(** ** A consumer's pin *)

(** The producer's ownership is given up once a pin is held. *)
Definition handle_pinned (d : ChunkDesc) : prog CM unit :=
  r <- pool_attach (payload_seg shared) ;;
  match r with
  | Err _ => Ret tt
  | Ok p =>
      on_pool (payload_seg shared) (Pool.ctrl p d (
        st <- ChunkCtrl.state ;;
        if st =? ChunkCtrl.PUBLISHED then
          n <- ChunkCtrl.refcount ;;
          if 0 <? n then owner_release ;;; Ret tt else Ret tt
        else Ret tt)) ;;;
      Ret tt
  end ;;;
  locked (update_state (fun s =>
    let o := st_observed s in
    set_observed (mkObserved (last_published o) true (reclaimed o) (artifact_pins_reclaimed o)
                    (write_leases_reclaimed o) (task_bindings_reclaimed o)) s)).

(** ** Requests *)

(** What one connection knows of its actor, and whether it is over. *)
Definition handle_request (conn : nat) (me : option Z) (req : Request) : io (option Z * bool) :=
  let go : option Z * bool := (me, true) in
  match req with
  | Register name => id <-! register_actor conn name ;; Ret (Ok (Some id, true))
  | Heartbeat =>
      match me with
      | Some id => locked (now <- clock ;; update_state (update_actor id (set_heartbeat now)))
      | None => Ret tt
      end ;;;
      Ret (Ok go)
  | CreateTopic topic => _ <-! grant_topic conn topic false ;; Ret (Ok go)
  | Subscribe topic => _ <-! grant_topic conn topic true ;; Ret (Ok go)
  | Protocol.Published d =>
      locked (update_state (fun s =>
        let o := st_observed s in
        set_observed (mkObserved (Some d) (armed o) (reclaimed o) (artifact_pins_reclaimed o)
                        (write_leases_reclaimed o) (task_bindings_reclaimed o)) s)) ;;;
      Ret (Ok go)
  | Pinned d => handle_pinned d ;;; Ret (Ok go)
  | OpenArtifact name => _ <-! grant_artifact conn name ;; Ret (Ok go)
  | OpenTaskQueue => _ <-! grant_task_queue conn ;; Ret (Ok go)
  | InternSchema bytes =>
      id <- intern_schema bytes ;;
      _ <-! reply conn (SchemaInterned id) [] ;; Ret (Ok go)
  | ResolveSchema id =>
      r <- resolve_schema_bytes id ;;
      _ <-! reply conn (match r with Some b => SchemaResolved b | None => RError (unknown_schema_id id) end) [] ;;
      Ret (Ok go)
  | InternKey bytes =>
      id <- intern_key bytes ;;
      _ <-! reply conn (KeyInterned id) [] ;; Ret (Ok go)
  | ResolveKey id =>
      r <- resolve_key_bytes id ;;
      _ <-! reply conn (match r with Some b => KeyResolved b | None => RError (unknown_key_id id) end) [] ;;
      Ret (Ok go)
  | OpenStore => _ <-! grant_store conn ;; Ret (Ok go)
  | Bye =>
      match me with
      | Some id => locked (update_state (update_actor id (set_liveness Left)))
      | None => Ret tt
      end ;;;
      Ret (Ok (me, false))
  end.

(** What one [recvmsg] gives: bytes (none at end of file) or an [errno]. *)
Inductive Received : Set := Got (bytes : list Z) | RecvFailed (errno : Z).

(** A connection, on what its socket delivers; after the last delivery the socket is silent. *)
Fixpoint handle_connection (conn : nat) (me : option Z) (inputs : list Received) : io unit :=
  match inputs with
  | [] => Ret (Ok tt)
  | input :: inputs' =>
      live <- running ;;
      if negb live then Ret (Ok tt)
      else
        match input with
        | RecvFailed errno =>
            if is_timeout errno then handle_connection conn me inputs' else Ret (Err (RtNix errno))
        | Got bytes =>
            match Protocol.recv_frame bytes with
            | Err PeerClosed => Ret (Ok tt)
            | Err e => Ret (Err (RtProtocol e))
            | Ok body =>
                match decode_request body with
                | Err e => Ret (Err (RtProtocol e))
                | Ok req =>
                    r <-! handle_request conn me req ;;
                    if r.2 : bool then handle_connection conn r.1 inputs' else Ret (Ok tt)
                end
            end
        end
  end.

(** ** Starting *)

(** The built-in topic of commit events is there before any connection is accepted. *)
Definition start : io unit :=
  _ <-! locked (get_or_create_topic ARTIFACTS_TOPIC) ;;
  Ret (Ok tt).
End coordinator.
