(* ===== verification/Reclaim.v ===== *)
(** * The coordinator: crash reclaim and the lease monitor

    The second half of [src/crates/shm-runtime/src/coordinator.rs]: an actor whose lease
    lapsed (or whose exit the kernel reported) is marked dead under the mutex and its borrow
    journal is replayed.  Each record is first won by releasing its slot, then the hold it
    stands for is given back: a chunk pin in the pool its segment id names, an artifact's
    version pin, write lease or staged manifest through the artifact's head, found by
    artifact id and incarnation.  A tick of the monitor then reaps lapsed task claims and
    unacknowledged task bindings and sweeps the store's tombstones. *)

From S2P Require Import Prelude Atomic ChunkDesc ChunkCtrl Pool BorrowJournal TaskQueue Manifest Window Head Artifact Commit Catalog Store Segments Coordinator.

#[local] Open Scope prog_scope.

(** ** One chunk *)

Section chunk.
Context (fuel : nat).

(** The hold that a journaled descriptor stands for is given back; whether that freed the
    chunk. *)
Definition release_hold (d : ChunkDesc) (actor : Z) : prog ChunkCtrl (option bool) :=
  v <- validate d ;;
  match v with
  | Err _ => done false
  | Ok _ =>
      st <- ChunkCtrl.state ;;
      if st =? PUBLISHED then
        n <- ChunkCtrl.refcount ;;
        if 0 <? n then release_shared fuel
        else b <- owner_release ;; done b
      else if st =? LOANED then
        o <- load owner_actor ;;
        if o =? actor then r <-- drop_loan fuel ;; done (is_ok r) else done false
      else done false
  end.

Definition reclaim_one (p : Pool) (d : ChunkDesc) (actor : Z) : prog PoolMem (option (option ChunkDesc)) :=
  r <- Pool.ctrl p d (release_hold d actor) ;;
  match r with
  | Err _ => done None
  | Ok None => Ret None
  | Ok (Some false) => done None
  | Ok (Some true) => _ <-- Pool.free p fuel d ;; done (Some d)
  end.

(** The single-pool core, over one memory that holds the pool and the journal. *)
Definition replay_and_reclaim {S} (pool_of : focus S PoolMem) (journal_of : focus S JournalMem)
    (p : Pool) (j : BorrowJournal) (actor : Z) : prog S (option (list ChunkDesc)) :=
  recs <-- lift journal_of (replay j) ;;
  loop_fold recs (fun out rec =>
    match rec with
    | ChunkPin d =>
        r <-- lift pool_of (reclaim_one p d actor) ;;
        done (match r with Some d => out ++ [d] | None => out end)
    | _ => done out
    end) [].
End chunk.

(** ** Parts of the memory that belong to an artifact *)

(** Where an artifact lives: its own pair of segments, or an entry of the store. *)
Inductive ArtPlace : Set :=
| Hosted (head_seg data_seg : SegHandle)
| StoreEntry (off : Z).

Section reclaim.
Context {O : Type} (fuel : nat) (shared : CoordShared).
Abbreviation CM := (CoordMem O).

Definition set_store (c : CatMem) (hs : gmap Z ArtifactHead) (d : PoolMem) (evs : list VersionEvent) (m : CM) : CM :=
  let s := cm_seg m in
  set_seg (mkContents (<[sg_fd (store_data_seg shared) := d]> (c_pools s)) (c_journals s) (c_rings s) (c_heads s)
             (c_queue s) c hs evs) m.

(** The store without journals: the coordinator's handles have none. *)
Definition store_part : focus CM (StoreMem PoolMem) := fun R f m =>
  let s := cm_seg m in
  match c_pools s !! sg_fd (store_data_seg shared) with
  | None => None
  | Some d =>
      match f (mkStoreMem (c_cat s) (c_store_heads s) d [] (c_events s)) with
      | None => None
      | Some (r, sm) => Some (r, set_store (s_cat sm) (s_heads sm) (s_data sm) (s_events sm) m)
      end
  end.

(** An artifact with its own head and data segments. *)
Definition hosted_part (head_fd data_fd : nat) : focus CM (ArtMem PoolMem) := fun R f m =>
  let s := cm_seg m in
  match c_heads s !! head_fd, c_pools s !! data_fd with
  | Some h, Some d =>
      match f (mkArtMem h d [] (c_events s)) with
      | None => None
      | Some (r, a) =>
          Some (r, set_seg (mkContents (<[data_fd := a_data a]> (c_pools s)) (c_journals s) (c_rings s)
                              (<[head_fd := a_head a]> (c_heads s)) (c_queue s) (c_cat s) (c_store_heads s)
                              (a_events a)) m)
      end
  | _, _ => None
  end.

Definition on_store {A} (p : prog (StoreMem PoolMem) A) : prog CM A := lift store_part p.

Definition on_art {A} (pl : ArtPlace) (p : prog (ArtMem PoolMem) A) : prog CM A :=
  match pl with
  | Hosted h d => lift (hosted_part (sg_fd h) (sg_fd d)) p
  | StoreEntry off => on_store (lift (art_at off) p)
  end.

Definition data_seg_of (pl : ArtPlace) : SegHandle :=
  match pl with Hosted _ d => d | StoreEntry _ => store_data_seg shared end.

(** ** Routing *)

Definition attach_store_entry_by_id (aid inc : Z) : prog CM (option (option ArtPlace)) :=
  let data := pool_data (seg_of (store_data_seg shared)) in
  r <- on_store (lift cat_of (act (fun c => Some (Catalog.attach c, c)))) ;;
  match r with
  | Err _ => done None
  | Ok cat =>
      found <- on_store (lift cat_of (slot_for_artifact_id cat aid)) ;;
      match found with
      | None => done None
      | Some idx =>
          off <- on_store (lift cat_of (Catalog.slot idx (load head_off))) ;;
          r <-- on_art (StoreEntry off) (attach_at_incarnation aid inc (sg_payload_len (store_head_seg shared)) off) ;;
          done (match r with Ok _ => Some (StoreEntry off) | Err _ => None end)
      end
  end.

Definition attach_artifact_by_id (aid inc : Z) : prog CM (option (option ArtPlace)) :=
  if STORE_ARTIFACT_ID_BASE <=? aid then attach_store_entry_by_id aid inc
  else
    found <- locked (get_state (fun s =>
      match artifact_name_by_id (st_artifacts s) !! aid with
      | Some name => artifacts (st_artifacts s) !! name
      | None => None
      end)) ;;
    match found with
    | None => done None
    | Some a =>
        let pl := Hosted (ar_head_seg a) (ar_data_seg a) in
        let data := pool_data (seg_of (ar_data_seg a)) in
        r <-- on_art pl (attach_at (ar_name_id a) (sg_payload_len (ar_head_seg a)) 0) ;;
        done (match r with
              | Ok art => if art_incarnation art =? inc then Some pl else None
              | Err _ => None
              end)
    end.

(** [unwrap_or(false)]. *)
Definition or_false {E} (r : result E bool) : bool := match r with Ok b => b | Err _ => false end.

Definition reclaim_artifact_pin (aid inc v : Z) : prog CM (option bool) :=
  pl <-- attach_artifact_by_id aid inc ;;
  match pl with
  | None => done false
  | Some pl =>
      let data := pool_data (seg_of (data_seg_of pl)) in
      r <-- on_art pl (release_leaked_pin fuel v) ;; done (or_false r)
  end.

Definition reclaim_write_lease (aid inc : Z) : prog CM (option bool) :=
  pl <-- attach_artifact_by_id aid inc ;;
  match pl with
  | None => done false
  | Some pl => on_art pl (release_leaked_write_lease fuel)
  end.

(** The arm of [reclaim_dead] for a staged manifest. *)
Definition reclaim_manifest (aid inc manifest gen : Z) : prog CM (option bool) :=
  pl <-- attach_artifact_by_id aid inc ;;
  match pl with
  | None => done false
  | Some pl =>
      let data := pool_data (seg_of (data_seg_of pl)) in
      r <-- on_art pl (reclaim_staged_manifest fuel manifest gen) ;; done (or_false r)
  end.

(** ** A dead actor *)

(** The pools a journaled chunk can lie in: the payload's, every hosted artifact's, the
    store's.  Those that do not attach are skipped. *)
Definition reclaim_segments (s : CoordState) : list SegHandle :=
  payload_seg shared :: ((fun x => ar_data_seg x.2) <$> map_to_list (artifacts (st_artifacts s))) ++ [store_data_seg shared].

Fixpoint attach_pools (segs : list SegHandle) : prog CM (list (SegHandle * Pool)) :=
  match segs with
  | [] => Ret []
  | s :: segs' =>
      r <- pool_attach s ;;
      rest <- attach_pools segs' ;;
      Ret (match r with Ok p => (s, p) :: rest | Err _ => rest end)
  end.

(** [pools.iter().find(|(id, _)| *id == segment_id)] *)
Definition pool_for (pools : list (SegHandle * Pool)) (id : Z) : option (SegHandle * Pool) :=
  snd <$> list_find (fun x => sg_id x.1 = id) pools.

(** Chunks freed, version pins (and manifests) and write leases given back. *)
Record Reclaimed : Set := mkReclaimed { rc_chunks : list ChunkDesc; rc_pins : Z; rc_leases : Z }.

Definition reclaim_record (pools : list (SegHandle * Pool)) (actor : Z) (acc : Reclaimed) (rec : JournalRecord)
    : prog CM (option Reclaimed) :=
  let pins (b : bool) := mkReclaimed (rc_chunks acc) (if b then rc_pins acc + 1 else rc_pins acc) (rc_leases acc) in
  match rec with
  | ChunkPin d =>
      match pool_for pools (segment_id d) with
      | None => done acc
      | Some (s, p) =>
          r <-- on_pool s (reclaim_one fuel p d actor) ;;
          done (match r with
                | Some d => mkReclaimed (rc_chunks acc ++ [d]) (rc_pins acc) (rc_leases acc)
                | None => acc
                end)
      end
  | ArtifactPin aid inc v => b <-- reclaim_artifact_pin aid inc v ;; done (pins b)
  | WriteLease aid inc _ =>
      b <-- reclaim_write_lease aid inc ;;
      done (mkReclaimed (rc_chunks acc) (rc_pins acc) (if b : bool then rc_leases acc + 1 else rc_leases acc))
  | StagedManifest aid inc mref gen => b <-- reclaim_manifest aid inc mref gen ;; done (pins b)
  end.

(** A record is reclaimed only by the caller that empties its slot. *)
Definition reclaim_slot (jseg : SegHandle) (j : BorrowJournal) (pools : list (SegHandle * Pool)) (actor : Z)
    (acc : Reclaimed) (x : nat * JournalRecord) : prog CM (option Reclaimed) :=
  won <- on_journal jseg (BorrowJournal.release j x.1) ;;
  if or_false won then reclaim_record pools actor acc x.2 else done acc.

Definition count_reclaimed (pins leases : Z) (s : CoordState) : CoordState :=
  let o := st_observed s in
  set_observed (mkObserved (last_published o) (armed o) (reclaimed o) (wrap64 (artifact_pins_reclaimed o + pins))
                  (wrap64 (write_leases_reclaimed o + leases)) (task_bindings_reclaimed o)) s.

Definition reclaim_dead (actor : Z) (jseg : SegHandle) : prog CM (option (list ChunkDesc)) :=
  r <- journal_attach jseg ;;
  match r with
  | Err _ => done []
  | Ok j =>
      segs <- locked (get_state reclaim_segments) ;;
      pools <- attach_pools segs ;;
      recs <-- on_journal jseg (replay_indexed j) ;;
      acc <-- loop_fold recs (reclaim_slot jseg j pools actor) (mkReclaimed [] 0 0) ;;
      (if (0 <? rc_pins acc) || (0 <? rc_leases acc)
       then locked (update_state (count_reclaimed (rc_pins acc) (rc_leases acc)))
       else Ret tt) ;;;
      done (rc_chunks acc)
  end.

Definition extend_reclaimed (ds : list ChunkDesc) (s : CoordState) : CoordState :=
  let o := st_observed s in
  set_observed (mkObserved (last_published o) (armed o) (reclaimed o ++ ds) (artifact_pins_reclaimed o)
                  (write_leases_reclaimed o) (task_bindings_reclaimed o)) s.

Definition force_reclaim (actor : Z) : prog CM (option (result RtError (list ChunkDesc))) :=
  found <- locked (with_state (fun s =>
    match actors (st_actors s) !! actor with
    | Some a => (Some (ae_journal_seg a), update_actor actor (set_liveness Dead) s)
    | None => (None, s)
    end)) ;;
  match found with
  | None => done (Err RtNotFound)
  | Some jseg =>
      ds <-- reclaim_dead actor jseg ;;
      locked (update_state (extend_reclaimed ds)) ;;;
      done (Ok ds)
  end.

(** ** The lease monitor *)

(** The lease of [a] lapsed at [now], or the kernel reported its exit. *)
Definition expired (deadline now : Z) (kernel_dead : list Z) (id : Z) (a : ActorEntry) : bool :=
  bool_decide (ae_liveness a = Alive) &&
  ((deadline <? Z.max 0 (now - ae_last_heartbeat a)) || bool_decide (id ∈ kernel_dead)).

Definition mark_dead (deadline now : Z) (kernel_dead : list Z) (s : CoordState) : list (Z * SegHandle) * CoordState :=
  let t := st_actors s in
  let dies := expired deadline now kernel_dead in
  ((fun x => (x.1, ae_journal_seg x.2)) <$> filter (fun x => dies x.1 x.2 = true) (map_to_list (actors t)),
   set_actors (mkActors (next_actor_id t)
     (map_imap (fun id a => Some (if dies id a then set_liveness Dead a else a)) (actors t))) s).

(** The actors whose pidfd [poll] reported ready, of those alive with one. *)
Definition watched_actors (s : CoordState) : list (Z * nat) :=
  omap (fun x : Z * ActorEntry => if decide (ae_liveness x.2 = Alive) then pair x.1 <$> ae_pidfd x.2 else None)
    (map_to_list (actors (st_actors s))).

Definition wait_tick (ready : list nat) : prog CM (list Z) :=
  watched <- locked (get_state watched_actors) ;;
  Ret (fst <$> filter (fun x : Z * nat => x.2 ∈ ready) watched).

Definition reap_task_bindings (now grace : Z) : prog CM (option Z) :=
  won <-- on_queue (reap_bindings (task_queue shared) fuel now grace) ;;
  if decide (won = []) then done 0
  else
    let data := pool_data (seg_of (store_data_seg shared)) in
    released <-- loop_fold won (fun n b =>
      ok <-- on_store (release_task_binding fuel (sg_payload_len (store_head_seg shared))
                         (TaskQueue.artifact_id b) (TaskQueue.incarnation b) (TaskQueue.version b)) ;;
      done (if ok : bool then n + 1 else n)) 0 ;;
    locked (update_state (fun s =>
      let o := st_observed s in
      set_observed (mkObserved (last_published o) (armed o) (reclaimed o) (artifact_pins_reclaimed o)
                      (write_leases_reclaimed o) (wrap64 (task_bindings_reclaimed o + released))) s)) ;;;
    done released.

Definition sweep_store_tombstones : prog CM (option nat) :=
  let data := pool_data (seg_of (store_data_seg shared)) in
  r <-- on_store (sweep_tombstones fuel (sg_payload_len (store_head_seg shared))) ;;
  done (match r with Ok n => n | Err _ => 0%nat end).

(** The thread of the monitor and the address its shard cursor is seeded from; the
    queue's notifiers. *)
Context (tid : nat) (tls_addr : Z) (work_notify done_notify : prog QueueMem unit).

Definition reap_tasks (now : Z) : prog CM (option ReapReport) :=
  on_queue (reap (task_queue shared) fuel tid tls_addr work_notify done_notify now).

Definition reclaim_each (dead : list (Z * SegHandle)) : prog CM (option unit) :=
  loop_fold dead (fun _ x =>
    ds <-- reclaim_dead x.1 x.2 ;;
    (if decide (ds = []) then Ret tt else locked (update_state (extend_reclaimed ds))) ;;;
    done tt) tt.

(** One turn of [lease_monitor]; [ready] are the pidfds [poll] reports. *)
Definition monitor_turn (ready : list nat) : prog CM (option unit) :=
  kernel_dead <- wait_tick ready ;;
  now <- clock ;;
  dead <- locked (with_state (mark_dead (lease_deadline (config shared)) now kernel_dead)) ;;
  _ <-- reclaim_each dead ;;
  t <- clock ;;
  _ <-- reap_tasks t ;;
  _ <-- (if decide (dead = []) then done (mkReport 0 0) else t <- clock ;; reap_tasks t) ;;
  t <- clock ;;
  _ <-- reap_task_bindings t (wrap64 (task_binding_grace (config shared))) ;;
  _ <-- sweep_store_tombstones ;;
  done tt.

(** The monitor, on what [poll] reports turn by turn. *)
Fixpoint lease_monitor (turns : list (list nat)) : prog CM (option unit) :=
  match turns with
  | [] => done tt
  | ready :: turns' =>
      live <- running ;;
      if negb live then done tt
      else _ <-- monitor_turn ready ;; lease_monitor turns'
  end.
End reclaim.
