(* ===== verification/Observers.v ===== *)
(** * The coordinator: what it reports, and its end

    The accessors of [Coordinator] in [src/crates/shm-runtime/src/coordinator.rs] (counters
    under the mutex, control words and free lists of its pools, versions, pins and leases of
    hosted artifacts and store entries), the requests it serves in its own process, and
    [Drop]. *)

From S2P Require Import Prelude Atomic ChunkDesc ChunkCtrl Pool BorrowJournal Ring Protocol TaskQueue Manifest Window Head Artifact Commit Catalog TypedRef Store Arrow Segments Coordinator Reclaim.

#[local] Open Scope prog_scope.

Record ChunkSnapshot : Set := mkSnapshot { sn_state : Z; sn_generation : Z; sn_refcount : Z; sn_owner : Z }.

Definition snapshot_ctrl : prog ChunkCtrl ChunkSnapshot :=
  st <- ChunkCtrl.state ;;
  g <- ChunkCtrl.generation ;;
  n <- ChunkCtrl.refcount ;;
  o <- load owner_actor ;;
  Ret (mkSnapshot st g n o).

Section observers.
Context {O : Type} (fuel : nat) (shared : CoordShared).
Abbreviation CM := (CoordMem O).

(** ** Counters *)

Definition get_last_published : prog CM (option ChunkDesc) := locked (get_state (fun s => last_published (st_observed s))).
Definition is_armed : prog CM bool := locked (get_state (fun s => armed (st_observed s))).
Definition get_reclaimed : prog CM (list ChunkDesc) := locked (get_state (fun s => reclaimed (st_observed s))).
Definition get_artifact_pins_reclaimed : prog CM Z := locked (get_state (fun s => artifact_pins_reclaimed (st_observed s))).
Definition get_write_leases_reclaimed : prog CM Z := locked (get_state (fun s => write_leases_reclaimed (st_observed s))).
Definition get_task_bindings_reclaimed : prog CM Z := locked (get_state (fun s => task_bindings_reclaimed (st_observed s))).

Definition alive_actor_count : prog CM nat :=
  locked (get_state (fun s => length (filter (fun x : Z * ActorEntry => ae_liveness x.2 = Alive) (map_to_list (actors (st_actors s)))))).

(** ** Chunks *)

Definition chunk_snapshot (d : ChunkDesc) : prog CM (option ChunkSnapshot) :=
  r <- pool_attach (payload_seg shared) ;;
  match r with
  | Err _ => Ret None
  | Ok p =>
      c <- on_pool (payload_seg shared) (Pool.ctrl p d snapshot_ctrl) ;;
      Ret (match c with Ok s => Some s | Err _ => None end)
  end.

Definition validate_desc (d : ChunkDesc) : prog CM (result RtError unit) :=
  p <-! errs RtCore (pool_attach (payload_seg shared)) ;;
  v <-! errs RtCore (on_pool (payload_seg shared) (Pool.ctrl p d (ChunkCtrl.validate d))) ;;
  Ret (map_err RtCore v).

(** Free chunks of one class, and of all of them. *)
Definition seg_free_count (s : SegHandle) (class_idx : nat) : prog CM (option (option Z)) :=
  r <- pool_attach s ;;
  match r with
  | Err _ => done None
  | Ok p => n <-- on_pool s (Pool.free_count fuel class_idx) ;; done (Some n)
  end.

Definition seg_free_total (s : SegHandle) : prog CM (option (option Z)) :=
  r <- pool_attach s ;;
  match r with
  | Err _ => done None
  | Ok p =>
      n <-- loop_fold (List.seq 0 (Z.to_nat (num_classes p))) (fun acc c =>
              n <-- on_pool s (Pool.free_count fuel c) ;; done (acc + n)) 0 ;;
      done (Some n)
  end.

Definition free_count (class_idx : nat) : prog CM (option (option Z)) := seg_free_count (payload_seg shared) class_idx.
Definition store_data_free_total : prog CM (option (option Z)) := seg_free_total (store_data_seg shared).

(** ** Hosted artifacts *)

Definition hosted (name : string_t) : prog CM (option ArtifactEntry) := locked (get_state (fun s => artifacts (st_artifacts s) !! name)).

(** Attach to the artifact called [name] and look at its head. *)
Definition at_hosted {A} (name : string_t) (look : prog (ArtMem PoolMem) (option A)) : prog CM (option (option A)) :=
  found <- hosted name ;;
  match found with
  | None => done None
  | Some a =>
      let pl := Hosted (ar_head_seg a) (ar_data_seg a) in
      let data := pool_data (seg_of (ar_data_seg a)) in
      r <-- on_art shared pl (attach_at (ar_name_id a) (sg_payload_len (ar_head_seg a)) 0) ;;
      match r with
      | Err _ => done None
      | Ok _ => x <- on_art shared pl look ;; done x
      end
  end.

Definition artifact_current_version (name : string_t) : prog CM (option (option Z)) :=
  at_hosted name (v <- on_head (load current) ;; Ret (Some v)).
Definition artifact_slot_pins (name : string_t) (v : Z) : prog CM (option (option Z)) := at_hosted name (version_pin_count v).
Definition artifact_write_lease_owner (name : string_t) : prog CM (option (option Z)) :=
  at_hosted name (o <- on_head write_lease_owner ;; Ret (Some o)).

Definition artifact_free_count (name : string_t) (class_idx : nat) : prog CM (option (option Z)) :=
  found <- hosted name ;;
  match found with None => done None | Some a => seg_free_count (ar_data_seg a) class_idx end.
Definition artifact_free_total (name : string_t) : prog CM (option (option Z)) :=
  found <- hosted name ;;
  match found with None => done None | Some a => seg_free_total (ar_data_seg a) end.

(** ** Store entries *)

Definition store_entry_artifact {A} (key : bytes_t) (look : prog (ArtMem PoolMem) (option A)) : prog CM (option (option A)) :=
  k <- locked (get_state (fun s => it_ids (st_keys s) !! key)) ;;
  match k with
  | None => done None
  | Some kid =>
      r <- on_store shared (lift cat_of (act (fun c => Some (Catalog.attach c, c)))) ;;
      match r with
      | Err _ => done None
      | Ok cat =>
          found <- on_store shared (lift cat_of (find_live_by_key cat kid)) ;;
          match found with
          | None => done None
          | Some idx =>
              off <- on_store shared (lift cat_of (Catalog.slot idx (load head_off))) ;;
              aid <- on_store shared (lift cat_of (artifact_id_for idx)) ;;
              let data := pool_data (seg_of (store_data_seg shared)) in
              r <-- on_art shared (StoreEntry off) (attach_at aid (sg_payload_len (store_head_seg shared)) off) ;;
              match r with
              | Err _ => done None
              | Ok _ => x <- on_art shared (StoreEntry off) look ;; done x
              end
          end
      end
  end.

Definition store_entry_version (key : bytes_t) : prog CM (option (option Z)) :=
  store_entry_artifact key (v <- on_head (load current) ;; Ret (Some v)).
Definition store_entry_pins (key : bytes_t) (v : Z) : prog CM (option (option Z)) := store_entry_artifact key (version_pin_count v).

Fixpoint slot_states (idxs : list Z) : prog CatMem (list Z) :=
  match idxs with
  | [] => Ret []
  | i :: idxs' => st <- Catalog.slot i slot_state ;; rest <- slot_states idxs' ;; Ret (st :: rest)
  end.

Definition store_slot_states : prog CM (list Z) :=
  r <- on_store shared (lift cat_of (act (fun c => Some (Catalog.attach c, c)))) ;;
  match r with
  | Err _ => Ret []
  | Ok cat => on_store shared (lift cat_of (idxs <- appended cat ;; slot_states idxs))
  end.

(** ** The end

    The threads see the flag and are joined; then every name the coordinator created is
    removed, whatever the result. *)

Definition set_running (b : bool) (m : CM) : CM := mkCoordMem (cm_os m) (cm_clock m) b (cm_data_ids m) (cm_state m) (cm_seg m).

Context `{!Platform O}.

Fixpoint unlink_all (ids : list Z) : prog O unit :=
  match ids with
  | [] => Ret tt
  | id :: ids' => plat_unlink id ;;; unlink_all ids'
  end.

Definition drop_coordinator : prog CM unit :=
  store (set_running false) ;;;
  ids <- locked (get_state st_created) ;;
  on_os (unlink_all ids).
End observers.
