(* ===== verification/PoolState.v ===== *)
(** * A pool with the states of its chunks

    The pool's free lists together with the abstract state of every control word: which
    chunk a descriptor names, and what allocation and the operations on a control word do
    to the whole.  A chunk on a free list is free.  The second part is about the chunks a
    sequential user holds. *)

From S2P Require Import Prelude Atomic ChunkDesc ChunkCtrl Treiber Pool PoolInv SegBytes PoolClient PoolDraw.

(** ** Where a descriptor points *)

(** The class, index in the class and control word of the chunk at [d]'s offset. *)
Definition place (p : Pool) (m : PoolMem) (d : ChunkDesc) : option (nat * Z * Z) :=
  match run (locate p (offset d)) m with Some (Ok r, _) => Some r | _ => None end.

Lemma place_Some p m d i l g : pool_geom p m ->
  place p m d = Some (i, l, g) <->
  exists c, classes m !! i = Some c /\ 0 <= l < chunk_count c /\ offset d = seg_offset_of c l /\ g = base_index c + l.
Proof.
  intros Hg. unfold place. split.
  - destruct (locate_total p m (offset d) Hg) as (r & Hr). rewrite Hr. destruct r as [r|e]; [|done]. intros [= ->].
    destruct (locate_inv p m _ _ Hg Hr) as (i' & c & l' & Hc & Hl & Ho & E). simplify_eq. eauto.
  - intros (c & Hc & Hl & -> & ->). by rewrite (chunk_located p m i c l).
Qed.

(** Moving a free list's head moves no chunk. *)
Definition same_places (m m' : PoolMem) : Prop :=
  length (classes m') = length (classes m) /\
  forall i c, classes m !! i = Some c -> exists c', classes m' !! i = Some c' /\
    chunk_count c' = chunk_count c /\ base_index c' = base_index c /\ data_offset c' = data_offset c /\ chunk_size c' = chunk_size c.

Lemma same_places_refl m : same_places m m.
Proof. split; [done|]. intros i c Hc. exists c. done. Qed.

Lemma same_places_head m m' i h : classes m' = alter (set_class_head h) i (classes m) -> same_places m m'.
Proof.
  intros E. split; [by rewrite E, length_alter|]. intros j c Hc. rewrite E. destruct (decide (i = j)) as [<-|Hne].
  - rewrite list_lookup_alter_eq, Hc. cbn. eexists. split; [done|]. done.
  - rewrite list_lookup_alter_ne by done. exists c. done.
Qed.

Lemma same_places_trans m1 m2 m3 : same_places m1 m2 -> same_places m2 m3 -> same_places m1 m3.
Proof.
  intros [L1 H1] [L2 H2]. split; [congruence|]. intros i c Hc. destruct (H1 i c Hc) as (c' & Hc' & E1 & E2 & E3 & E4).
  destruct (H2 i c' Hc') as (c'' & Hc'' & F1 & F2 & F3 & F4). exists c''. split_and!; congruence.
Qed.

Lemma same_places_place p m m' d : pool_geom p m -> pool_geom p m' -> same_places m m' -> place p m' d = place p m d.
Proof.
  intros Hg Hg' [L H]. apply option_eq. intros [[i l] g]. rewrite !place_Some by done. split.
  - intros (c' & Hc' & Hl & Ho & Eg). destruct (lookup_lt_is_Some_2 (classes m) i) as [c Hc].
    { rewrite <- L. by eapply lookup_lt_Some. }
    destruct (H i c Hc) as (c'' & Hc'' & E1 & E2 & E3 & E4). simplify_eq. exists c.
    unfold seg_offset_of, chunk_ptr in *. rewrite E3, E4 in Ho. rewrite E1 in Hl. split_and!; try done; try apply Hl; lia.
  - intros (c & Hc & Hl & Ho & Eg). destruct (H i c Hc) as (c' & Hc' & E1 & E2 & E3 & E4). exists c'.
    unfold seg_offset_of, chunk_ptr in *. rewrite E1, E2, E3, E4. done.
Qed.

(** ** A pool and its chunks' states *)

(** [m] is a consistent pool with control words [cs] and free lists [fl]; what is on a free
    list is free. *)
Record pool_at (p : Pool) (m : PoolMem) (cs : list AbsCtrl) (fl : list (list Z)) : Prop := {
  at_inv : pool_inv p m fl;
  at_ctrls : ctrls m = concrete <$> cs;
  at_wf : Forall abs_wf cs;
  at_free : forall d i l g f, place p m d = Some (i, l, g) -> fl !! i = Some f -> l ∈ f ->
    exists a, cs !! Z.to_nat g = Some a /\ life a = Free
}.

Lemma pool_inv_ctrls p m fl cs : pool_inv p m fl -> length cs = length (ctrls m) -> pool_inv p (set_ctrls cs m) fl.
Proof.
  intros ([H1 H2 H3 H4] & Hl & Hc) Hlen. split_and!; [|done|].
  - split; cbn; [done|by rewrite Hlen|by rewrite Hlen|done].
  - intros i f Hf. destruct (Hc i f Hf) as (c & Hi & Hh & Hin). exists c. split_and!; [done| |done].
    by apply (holds_agree m).
Qed.

Lemma ctrls_lens : lens_ok ctrls set_ctrls.
Proof. split; [done|by intros []|done]. Qed.

(** Changing one control word. *)
Lemma pool_at_ctrl p m cs fl g a a' :
  pool_at p m cs fl -> cs !! g = Some a -> abs_wf a' -> (life a = Free -> life a' = Free) ->
  pool_at p (set_ctrls (<[g := concrete a']> (ctrls m)) m) (<[g := a']> cs) fl.
Proof.
  intros [Hi Hc Hw Hf] Hg Ha' Hfree. split.
  - apply pool_inv_ctrls; [done|by rewrite length_insert].
  - cbn. by rewrite list_fmap_insert, Hc.
  - by apply list.Forall_insert.
  - intros d i l gz f Hpl Hfl Hl. rewrite (same_places_place p m) in Hpl;
      [|apply Hi|by apply (pool_inv_ctrls p m fl); [|rewrite length_insert]|exact (same_places_refl m)].
    destruct (Hf d i l gz f Hpl Hfl Hl) as (b & Hb & Eb).
    destruct (decide (g = Z.to_nat gz)) as [->|Hne].
    + exists a'. rewrite list_lookup_insert_eq by (by eapply lookup_lt_Some). split; [done|]. apply Hfree. by simplify_eq.
    + exists b. by rewrite list_lookup_insert_ne.
Qed.

(** Two descriptors at one control word are at one chunk. *)
Lemma place_inj p m d e i l g j k :
  pool_geom p m -> place p m d = Some (i, l, g) -> place p m e = Some (j, k, g) -> (i, l) = (j, k).
Proof.
  intros Hg (c & Hc & Hl & _ & Eg)%(place_Some p m d i l g Hg) (c' & Hc' & Hk & _ & Eg')%(place_Some p m e j k g Hg).
  destruct (decide ((i, l) = (j, k))) as [?|Hne]; [done|]. destruct (geom_layout p m Hg) as (lo & hi & _ & _ & Hlo).
  destruct (chunks_disjoint _ _ _ _ _ _ _ _ _ _ _ Hlo Hc Hc' Hl Hk Hne) as [_ Hn]. lia.
Qed.

Lemma place_bounds p m d i l g : pool_geom p m -> place p m d = Some (i, l, g) -> 0 <= g < Z.of_nat (length (ctrls m)).
Proof.
  intros Hg (c & Hc & Hl & _ & ->)%(place_Some p m d i l g Hg).
  destruct (seg_offset_bounds p m i c l Hg Hc Hl) as (_ & _ & _ & _ & _ & _ & Hb). by rewrite (geom_total p m Hg) in Hb.
Qed.

Lemma alter_lookup_insert {A} (f : A -> A) (l : list A) i x : l !! i = Some x -> alter f i l = <[i := f x]> l.
Proof. revert i. induction l as [|y l IH]; intros [|i] H; csimpl in *; simplify_eq; [done|]. by rewrite IH. Qed.

(** ** A fresh pool *)

Definition free_ctrl : AbsCtrl := mkAbs Free OWNER_NONE 0.

Lemma pool_at_create seg cfg :
  cfg_ok cfg -> ideal_bytes cfg <= payload_len seg ->
  exists p m, create seg cfg = Ok (p, m) /\ segment p = seg /\ Pool.attach seg m = Ok p /\
    pool_at p m (replicate (Z.to_nat (ideal_chunks cfg)) free_ctrl) (all_free (classes m)).
Proof.
  intros Hcfg Hfit. destruct (create_ok seg cfg Hcfg Hfit) as (p & m & Hcr & Hseg & _ & _ & _ & Hct & Hh & Hinv).
  exists p, m. split_and!; [done|done| |].
  - unfold Pool.attach. rewrite Hh. cbn. destruct p. cbn in *. by subst.
  - split; [done|rewrite Hct; by rewrite fmap_replicate|apply Forall_replicate; split_and!; cbn; auto with shm|].
    intros d i l g f Hpl _ _. exists free_ctrl. split; [|done]. apply lookup_replicate. split; [done|].
    pose proof (place_bounds p m d i l g (proj1 Hinv) Hpl) as Hb. rewrite Hct, length_replicate in Hb. lia.
Qed.

(** ** Allocation *)

Lemma pool_at_alloc p m cs fl fuel size i l f :
  pool_at p m cs fl -> first_fit size (classes m) = Some i -> fl !! i = Some (l :: f) ->
  exists c a g m', run (alloc p (S fuel) size) m = Some (Some (Ok (chunk_desc p c l (recycled a))), m') /\
    classes m !! i = Some c /\ cs !! Z.to_nat g = Some a /\ life a = Free /\
    place p m (chunk_desc p c l (recycled a)) = Some (i, l, g) /\
    pool_at p m' cs (<[i := f]> fl) /\ same_places m m' /\ (l ∉ f) /\ hdr m' = hdr m.
Proof.
  intros [Hinv Hc Hw Hf] Hff Hfl. pose proof Hinv as (Hg & Hlen & Hcl).
  destruct (alloc_succeeds p m fl fuel size i l f Hinv Hff Hfl) as (c & k & h & Hi & Hl & Hk & Hrun & Hinv').
  assert (Hpl : forall gen, place p m (chunk_desc p c l gen) = Some (i, l, base_index c + l))
    by (intros gen; apply place_Some; [done|]; exists c; done).
  destruct (Hf (chunk_desc p c l 0) i l _ _ (Hpl 0) Hfl (list_elem_of_here _ _)) as (a & Ha & El).
  assert (Ek : ctrl_gen k = recycled a) by (rewrite Hc, list_lookup_fmap, Ha in Hk; by injection Hk as <-).
  rewrite Ek in Hrun. eexists c, a, _, _. split; [exact Hrun|].
  assert (Hsp : same_places m (set_classes (alter (set_class_head h) i (classes m)) m)) by (by apply (same_places_head _ _ i h)).
  assert (Hni : l ∉ f).
  { destruct (Hcl i _ Hfl) as (? & _ & [Hnd _] & _). by apply list.NoDup_cons in Hnd as [? _]. }
  split_and!; [done|done|done|apply Hpl| |done|done|done]. split; [done|done|done|].
  intros d j k' g f' Hd Hj Hin. rewrite (same_places_place p m _ d Hg (proj1 Hinv') Hsp) in Hd.
  destruct (decide (i = j)) as [<-|Hne].
  - rewrite list_lookup_insert_eq in Hj by (by eapply lookup_lt_Some). injection Hj as <-.
    apply (Hf d i k' g (l :: f)); [done|done|by apply list_elem_of_further].
  - rewrite list_lookup_insert_ne in Hj by done. by apply (Hf d j k' g f').
Qed.

(** ** Operations on a control word *)

Lemma pool_at_held p m cs fl d i l g f a a' :
  pool_at p m cs fl -> place p m d = Some (i, l, g) -> cs !! Z.to_nat g = Some a -> abs_wf a' ->
  fl !! i = Some f -> l ∉ f ->
  pool_at p (set_ctrls (<[Z.to_nat g := concrete a']> (ctrls m)) m) (<[Z.to_nat g := a']> cs) fl.
Proof.
  intros [Hi Hc Hw Hf] Hpl Hg Ha' Hfl Hni. split.
  - apply pool_inv_ctrls; [done|by rewrite length_insert].
  - cbn. by rewrite list_fmap_insert, Hc.
  - by apply list.Forall_insert.
  - intros e j k gz f' Hpe Hfj Hk. rewrite (same_places_place p m) in Hpe;
      [|apply Hi|by apply (pool_inv_ctrls p m fl); [|rewrite length_insert]|exact (same_places_refl m)].
    destruct (Hf e j k gz f' Hpe Hfj Hk) as (b & Hb & Eb). destruct (decide (Z.to_nat g = Z.to_nat gz)) as [E|Hne].
    + exfalso. apply Hni. pose proof (place_bounds p m d i l g (proj1 Hi) Hpl). pose proof (place_bounds p m e j k gz (proj1 Hi) Hpe).
      assert (g = gz) as -> by lia. pose proof (place_inj p m d e i l gz j k (proj1 Hi) Hpl Hpe). by simplify_eq.
    + exists b. by rewrite list_lookup_insert_ne.
Qed.

Lemma run_ctrl_at {A} p m cs fl d i l g a (q : prog ChunkCtrl A) r a' :
  pool_at p m cs fl -> place p m d = Some (i, l, g) -> cs !! Z.to_nat g = Some a ->
  run q (concrete a) = Some (r, concrete a') ->
  run (ctrl p d q) m = Some (Ok r, set_ctrls (<[Z.to_nat g := concrete a']> (ctrls m)) m).
Proof.
  intros [Hi Hc _ _] Hpl Ha Hq. unfold ctrl. rewrite run_bind. unfold place in Hpl.
  destruct (locate_total p m (offset d) (proj1 Hi)) as (x & Hx). rewrite Hx in Hpl |- *. destruct x as [y|]; [|done].
  injection Hpl as ->. rewrite run_bind. unfold ctrl_at.
  rewrite (run_lift_elem _ _ _ _ _ (concrete a) ctrls_lens); [by rewrite Hq|]. by rewrite Hc, list_lookup_fmap, Ha.
Qed.

(** * Chunks held and their control words

    A sequential user of a pool: the chunks it holds, each with the abstract state of its
    control word, and everything else free.  Allocation, the operations on a control word,
    writes and frees each change one chunk and leave what the others show alone. *)

Abbreviation holding := (ChunkDesc * AbsCtrl)%type.

(** The control word of chunk [x] is in state [a]. *)
Definition in_state (m : PoolMem) (x : nat * Z) (a : AbsCtrl) : Prop :=
  ctrls m !! Z.to_nat (ctrl_index m x) = Some (concrete a) /\ abs_wf a.

(** The chunks of [fl] that are not among [xs] are free. *)
Definition rest_free (fl : list (list Z)) (m : PoolMem) (xs : list (nat * Z)) : Prop :=
  forall i f l, fl !! i = Some f -> l ∈ f -> (i, l) ∉ xs -> exists a, in_state m (i, l) a /\ life a = Free.

Definition held (p : Pool) (fl : list (list Z)) (m : PoolMem) (hs : list holding) : Prop :=
  Pool.attach (segment p) m = Ok p /\
  exists xs, drawn p fl m hs.*1 xs /\ Forall2 (in_state m) xs hs.*2 /\ rest_free fl m xs.

(** ** The start: a pool just created *)

Lemma create_held seg cfg : cfg_ok cfg -> ideal_bytes cfg <= payload_len seg ->
  exists p m, create seg cfg = Ok (p, m) /\ segment p = seg /\ held p (all_free (classes m)) m [].
Proof.
  intros Hcfg Hfit. destruct (pool_at_create seg cfg Hcfg Hfit) as (p & m & Hcr & Hs & Ha & Hat).
  exists p, m. split_and!; [done|done|]. split; [by rewrite Hs|]. exists []. split_and!; [apply drawn_nil, Hat|constructor|].
  pose proof Hat as [Hinv Hc Hw Hf]. pose proof Hinv as (Hg & Hlen & Hcl). intros i f l Hfi Hl _.
  destruct (Hcl i f Hfi) as (c & Hi & _ & Hr). rewrite list.Forall_forall in Hr. specialize (Hr l Hl).
  destruct (Hf (mkChunkDesc 0 0 (seg_offset_of c l) 0 0 0) i l (base_index c + l) f) as (a & Ha' & El); [|done|done|].
  { apply place_Some; [done|]. exists c. done. }
  exists a. split; [|done]. unfold in_state, ctrl_index. cbn [fst snd]. rewrite Hi. rewrite Hc, list_lookup_fmap, Ha'. split; [done|].
  rewrite list.Forall_lookup in Hw. by eapply Hw.
Qed.

(** ** Order *)

Lemma held_perm p fl m hs hs' : hs ≡ₚ hs' -> held p fl m hs -> held p fl m hs'.
Proof.
  intros Hp (Ha & xs & (Hnd & Hd & fl' & Hinv & Hlen & Hf) & Hs & Hr). split; [done|].
  destruct (Permutation_Forall2 (P := fun h x => denotes m h.1 x /\ in_state m x h.2) (l2 := xs) Hp) as (xs' & Hx & H).
  { apply Forall2_conj. rewrite Forall2_fmap_l in Hd. rewrite Forall2_fmap_r in Hs. split; [done|]. by apply Forall2_flip. }
  apply Forall2_conj in H as [Hd' Hs']. exists xs'. split_and!.
  - split_and!; [done|by apply Forall2_fmap_l|]. exists fl'. split_and!; [done|done|]. intros i f f' H1 H2.
    rewrite <- (of_class_perm i _ _ Hx). by apply Hf.
  - apply Forall2_fmap_r. by apply Forall2_flip.
  - intros i f l Hfi Hl Hni. apply (Hr i f l Hfi Hl). by rewrite Hx.
Qed.

Lemma held_swap p fl m hs hs' : held p fl m (hs ++ hs') -> held p fl m (hs' ++ hs).
Proof. apply held_perm, Permutation_app_comm. Qed.

(** ** Where held chunks lie *)

Lemma held_drawn p fl m hs : held p fl m hs -> exists xs, drawn p fl m hs.*1 xs.
Proof. intros (_ & xs & Hd & _). by exists xs. Qed.

Lemma held_bounds p fl m hs d a : held p fl m hs -> (d, a) ∈ hs ->
  HEADER_SIZE <= offset d /\ offset d + len d <= HEADER_SIZE + payload_len (segment p) /\
  (64 | offset d) /\ is_u32 (offset d) /\ 64 <= len d /\ is_u32 (len d).
Proof.
  intros (xs & Hd)%held_drawn Hin. assert (Hi : d ∈ hs.*1) by (apply list_elem_of_fmap; by exists (d, a)).
  destruct (drawn_bounds _ _ _ _ _ _ Hd Hi) as (? & ? & ? & ? & _ & ?). split_and!; try done. by eapply drawn_len.
Qed.

Lemma held_wf p fl m hs d a : held p fl m hs -> (d, a) ∈ hs -> abs_wf a.
Proof.
  intros (_ & xs & _ & Hs & _) [k Hk]%list_elem_of_lookup.
  assert (Ha : hs.*2 !! k = Some a) by (by rewrite list_lookup_fmap, Hk). by destruct (Forall2_lookup_r _ _ _ _ _ Hs Ha) as (x & _ & _ & Hw).
Qed.

Lemma held_disjoint p fl m d a hs e : held p fl m ((d, a) :: hs) -> e ∈ hs.*1 ->
  offset d + len d <= offset e \/ offset e + len e <= offset d.
Proof.
  intros (xs & Hd)%held_drawn [k Hk]%list_elem_of_lookup. by apply (drawn_disjoint p fl m _ xs 0 (S k) d e Hd).
Qed.

(** ** Control words of distinct chunks are distinct *)

Lemma ctrl_index_inj p m d e x y : pool_geom p m -> denotes m d x -> denotes m e y -> x <> y ->
  0 <= ctrl_index m x /\ 0 <= ctrl_index m y /\ ctrl_index m x <> ctrl_index m y.
Proof.
  intros Hg (c & Hc & Hl & _) (c' & Hc' & Hl' & _) Hne. unfold ctrl_index. rewrite Hc, Hc'.
  destruct (geom_layout p m Hg) as (lo & hi & _ & _ & Hlo).
  destruct (laid_out_lookup _ _ _ _ _ _ _ Hlo Hc) as (_ & _ & _ & _ & Hb & _).
  destruct (laid_out_lookup _ _ _ _ _ _ _ Hlo Hc') as (_ & _ & _ & _ & Hb' & _).
  destruct x as [i l], y as [j k]. cbn [fst snd] in *.
  destruct (chunks_disjoint _ _ _ _ _ _ _ _ _ _ _ Hlo Hc Hc' Hl Hl' Hne) as [_ ?]. lia.
Qed.

(** A chunk of the free lists as a descriptor would name it. *)
Lemma listed_denotes p fl m ds xs i f l : drawn p fl m ds xs -> fl !! i = Some f -> l ∈ f -> (i, l) ∉ xs ->
  exists d, denotes m d (i, l).
Proof.
  intros (Hnd & Hd & fl' & (Hg & Hlc & Hcl) & Hlen & Hp) Hf Hl Hni.
  destruct (lookup_lt_is_Some_2 fl' i) as [f' Hf']; [rewrite Hlen; by eapply lookup_lt_Some|].
  rewrite <- (Hp i f f' Hf Hf') in Hl. apply elem_of_app in Hl as [Hl|Hl].
  - destruct (Hcl i f' Hf') as (c & Hc & _ & Hr). rewrite list.Forall_forall in Hr.
    exists (mkChunkDesc 0 0 (seg_offset_of c l) (chunk_size c) 0 0), c. split_and!; try done; by apply Hr.
  - unfold of_class in Hl. apply list_elem_of_fmap in Hl as ([j k] & -> & [E Hx]%list_elem_of_filter). cbn in E. by subst.
Qed.

(** ** Operations on the control word of a held chunk *)

Lemma held_located p fl m d a hs d' : held p fl m ((d, a) :: hs) -> offset d' = offset d ->
  exists i l g, run (locate p (offset d')) m = Some (Ok (i, l, g), m) /\ 0 <= g /\ g = ctrl_index m (i, l) /\
    ctrls m !! Z.to_nat g = Some (concrete a).
Proof.
  intros (_ & xs & (_ & Hd & fl' & (Hg & _) & _) & Hs & _) Eo. rewrite !fmap_cons in *.
  apply Forall2_cons_inv_l in Hd as ([i l] & xs' & (c & Hc & Hl & Eoff & _) & _ & ->). cbn [fst snd] in *.
  apply list.Forall2_cons in Hs as [[Hk _] _].
  exists i, l, (base_index c + l). rewrite Eo, Eoff, (chunk_located p m i c l) by done.
  destruct (seg_offset_bounds p m i c l Hg Hc Hl) as (_ & _ & _ & _ & _ & _ & Hb).
  unfold ctrl_index in *. cbn [fst snd] in *. rewrite Hc in *. split_and!; [done|lia|done|done].
Qed.

Lemma held_ctrl {A} p fl m d a hs d' (q : prog ChunkCtrl A) r a' :
  held p fl m ((d, a) :: hs) -> offset d' = offset d -> run q (concrete a) = Some (r, concrete a') -> abs_wf a' ->
  exists m', run (ctrl p d' q) m = Some (Ok r, m') /\ held p fl m' ((d, a') :: hs) /\ words m' = words m.
Proof.
  intros Hh Eo Hq Hw. destruct (held_located p fl m d a hs d' Hh Eo) as (i & l & g & Hloc & Hg0 & Eg & Hk).
  exists (set_ctrls (<[Z.to_nat g := concrete a']> (ctrls m)) m).
  assert (Hrun : run (ctrl p d' q) m = Some (Ok r, set_ctrls (<[Z.to_nat g := concrete a']> (ctrls m)) m)).
  { unfold ctrl. rewrite run_bind, Hloc, run_bind. unfold ctrl_at. by rewrite (run_lift_elem _ _ _ _ _ _ ctrls_lens Hk), Hq. }
  split_and!; [done| |done]. destruct Hh as (Ha & xs & Hdr & Hs & Hr). split; [done|]. exists xs.
  pose proof Hdr as (Hnd & Hd & fl' & Hinv & Hlen & Hp). rewrite !fmap_cons in *. cbn [fst snd] in *.
  apply Forall2_cons_inv_l in Hd as (x & xs' & Hx & Hd & ->). apply list.Forall2_cons in Hs as [_ Hs].
  assert (Ex : x = (i, l)).
  { destruct Hx as (c & Hc & Hl & Eoff & _). destruct x as [j k]. cbn [fst snd] in *. rewrite Eo, Eoff, (chunk_located p m j c k) in Hloc; [|apply Hinv|done|done].
    by injection Hloc as <- <- _. }
  subst x. pose proof (drawn_NoDup _ _ _ _ _ Hdr) as [Hni _]%list.NoDup_cons.
  assert (Hlt : (Z.to_nat g < length (ctrls m))%nat) by (by eapply lookup_lt_Some).
  assert (Hother : forall e y b, denotes m e y -> y <> (i, l) -> in_state m y b ->
    in_state (set_ctrls (<[Z.to_nat g := concrete a']> (ctrls m)) m) y b).
  { intros e y b Hy Hne [Hb Hwb]. split; [|done]. unfold ctrl_index in *. cbn [ctrls set_ctrls classes].
    destruct (ctrl_index_inj p m d e (i, l) y (proj1 Hinv) Hx Hy ltac:(done)) as (H1 & H2 & H3). unfold ctrl_index in *.
    rewrite list_lookup_insert_ne by (rewrite Eg; lia). done. }
  split_and!.
  - split_and!; [done|by constructor|]. exists fl'. split_and!; [|done|done]. apply pool_inv_ctrls; [done|by rewrite length_insert].
  - constructor.
    + split; [|done]. unfold ctrl_index in *. cbn [ctrls set_ctrls classes] in *. rewrite <- Eg. by apply list_lookup_insert_eq.
    + apply Forall2_same_length_lookup. split; [by eapply Forall2_length|]. intros k y b Hy Hb.
      destruct (Forall2_lookup_r _ _ _ _ _ Hd Hy) as (e & He & Hey). apply (Hother e); [done| |].
      * intros ->. apply Hni. by eapply list_elem_of_lookup_2.
      * destruct (Forall2_lookup_l _ _ _ _ _ Hs Hy) as (b' & Hb' & Hst). by simplify_eq.
  - intros j f k Hf Hk' Hni'. destruct (Hr j f k Hf Hk' Hni') as (b & Hb & El). exists b. split; [|done].
    destruct (listed_denotes p fl m _ _ j f k Hdr Hf Hk' Hni') as [e He]. apply (Hother e); [done| |done].
    intros [= -> ->]. apply Hni'. by left.
Qed.

(** ** Allocation *)

Lemma rest_free_settled fl m m' xs xs' : settled_pool m m' -> (forall x, x ∉ xs' -> x ∉ xs) -> rest_free fl m xs -> rest_free fl m' xs'.
Proof.
  intros (Ec & _ & Ei) Hx Hr i f l Hf Hl Hni. destruct (Hr i f l Hf Hl (Hx _ Hni)) as (a & [Ha Hw] & El).
  exists a. split; [|done]. split; [|done]. by rewrite Ec, Ei.
Qed.

Lemma settled_states m m' xs as_ : settled_pool m m' -> Forall2 (in_state m) xs as_ -> Forall2 (in_state m') xs as_.
Proof. intros (Ec & _ & Ei) H. eapply list.Forall2_impl; [exact H|]. intros x a [Hx Hw]. split; [|done]. by rewrite Ec, Ei. Qed.

Lemma settled_attach p m m' : settled_pool m m' -> Pool.attach (segment p) m = Ok p -> Pool.attach (segment p) m' = Ok p.
Proof. intros (_ & Eh & _) Ha. unfold Pool.attach in *. by rewrite Eh. Qed.

(** More chunks drawn, with what their control words say. *)
Lemma held_more p fl m m' hs ds xs0 xs : Pool.attach (segment p) m = Ok p ->
  Forall2 (in_state m) xs0 hs.*2 -> rest_free fl m xs0 -> settled_pool m m' ->
  drawn p fl m' (hs.*1 ++ ds) (xs0 ++ xs) -> Forall2 (current m') ds xs ->
  exists as_, held p fl m' (zip ds as_ ++ hs) /\ Forall (fun a => life a = Free) as_ /\
    Forall2 (fun d a => ChunkDesc.generation d = recycled a) ds as_.
Proof.
  intros Ha Hs Hr Hset Hd Hc. pose proof (Forall2_length Hc) as Hlx.
  assert (Hl0 : length hs.*1 = length xs0) by (rewrite (Forall2_length Hs), !length_fmap; done).
  pose proof (drawn_NoDup _ _ _ _ _ Hd) as (Hnd0 & Hdis & Hnd)%list.NoDup_app.
  assert (Hst : exists as_, Forall2 (in_state m') xs as_ /\ Forall (fun a => life a = Free) as_ /\
    Forall2 (fun d a => ChunkDesc.generation d = recycled a) ds as_).
  { pose proof Hd as (_ & Hden & fl' & Hinv & Hlen & Hp). apply Forall2_app_inv in Hden as [_ Hden]; [|done].
    assert (Hin : forall x, x ∈ xs -> exists f, fl !! x.1 = Some f /\ x.2 ∈ f /\ x ∉ xs0).
    { intros x Hx. assert (Hlt : is_Some (fl !! x.1)).
      { apply list_elem_of_lookup in Hx as [k Hk]. destruct (Forall2_lookup_r _ _ _ _ _ Hden Hk) as (d & _ & c & Hcl & _).
        destruct Hinv as (_ & Hlc & _). apply lookup_lt_is_Some_2. rewrite <- Hlen, Hlc. by eapply lookup_lt_Some. }
      destruct Hlt as [f Hf]. destruct (lookup_lt_is_Some_2 fl' x.1) as [f' Hf']; [rewrite Hlen; by eapply lookup_lt_Some|].
      exists f. split_and!; [done| |].
      - rewrite <- (Hp _ _ _ Hf Hf'), of_class_app, !elem_of_app. right. right. unfold of_class. apply list_elem_of_fmap.
        exists x. split; [done|]. by apply list_elem_of_filter.
      - intros H0. by apply (Hdis x H0). }
    clear -Hc Hin Hr Hset. induction Hc as [|d x ds xs (k & Hk & Eg) Hc IH].
    { exists []. split_and!; constructor. }
    destruct IH as (as_ & H1 & H2 & H3); [intros y Hy; apply Hin; by right|].
    destruct (Hin x ltac:(by left)) as (f & Hf & Hl & Hni). destruct x as [i l].
    destruct (Hr i f l Hf Hl Hni) as (a & [Hia Hw] & El). destruct Hset as (Ec & Eh & Ei). rewrite <- Ec, <- Ei in Hia. exists (a :: as_).
    split_and!; constructor; try done. assert (k = concrete a) as -> by congruence. done. }
  destruct Hst as (as_ & Hsx & Hfree & Hgen). exists as_. split_and!; [|done|done].
  pose proof (Forall2_length Hgen) as Hla. apply held_swap. split; [by eapply settled_attach|]. exists (xs0 ++ xs). split_and!.
  - rewrite fmap_app, fst_zip by lia. done.
  - rewrite fmap_app, snd_zip by lia. apply Forall2_app; [by eapply settled_states|done].
  - eapply rest_free_settled; [done| |done]. intros x Hx. rewrite elem_of_app in Hx. tauto.
Qed.

Lemma held_alloc p fl m hs fuel size : held p fl m hs ->
  exists r m', run (alloc p (S fuel) size) m = Some (Some r, m') /\
    match r with
    | Ok d => exists a, held p fl m' ((d, a) :: hs) /\ life a = Free /\ ChunkDesc.generation d = recycled a /\
        size <= len d /\ of_pool p 0 d /\ words m' = words m
    | Err e => m' = m /\ (e = PoolExhausted \/ e = LayoutOverflow)
    end.
Proof.
  intros (Ha & xs & Hd & Hs & Hr). destruct (drawn_alloc p fl m _ xs fuel size Hd) as (r & m' & Hrun & H).
  exists r, m'. split; [done|]. destruct r as [d|e]; [|done].
  destruct H as (x & Hd' & Hc & Hsz & Ew & Eid & Hset).
  destruct (held_more p fl m m' hs [d] xs [x] Ha Hs Hr Hset Hd' ltac:(by constructor)) as (as_ & Hh & Hf & Hg).
  apply Forall2_cons_inv_l in Hg as (a & ? & Eg & ->%Forall2_nil_inv_l & ->). apply list.Forall_cons in Hf as [El _].
  exists a. done.
Qed.

(** ** Giving a chunk back *)

Lemma held_free p fl m d a hs d' fuel : held p fl m ((d, a) :: hs) -> life a = Free -> offset d' = offset d ->
  exists m', run (free p (S fuel) d') m = Some (Some (Ok tt), m') /\ held p fl m' hs /\ keeps hs.*1 m m'.
Proof.
  intros (Ha & xs & Hd & Hs & Hr) El Eo. rewrite !fmap_cons in *. cbn [fst snd] in *.
  pose proof Hs as (x & xs' & Hx & Hs' & ->)%Forall2_cons_inv_r.
  destruct (drawn_free p fl m d hs.*1 x xs' fuel Hd) as (m' & Hrun & Hd' & Hset & Hk).
  exists m'. split_and!; [|split|done].
  - unfold free. rewrite Eo. exact Hrun.
  - by eapply settled_attach.
  - exists xs'. split_and!; [done|by eapply settled_states|].
    intros i f l Hf Hl Hni. destruct (decide ((i, l) = x)) as [<-|Hne].
    + exists a. split; [|done]. destruct Hx as [Hx Hw]. split; [|done]. destruct Hset as (Ec & _ & Ei). by rewrite Ec, Ei.
    + destruct (Hr i f l Hf Hl) as (b & [Hb Hw] & Hfree).
      { rewrite elem_of_cons. tauto. }
      exists b. split; [|done]. split; [|done]. destruct Hset as (Ec & _ & Ei). by rewrite Ec, Ei.
Qed.

(** ** Writing *)

Lemma held_write p fl m d a hs n bs : held p fl m ((d, a) :: hs) -> length bs = (4 * n)%nat -> Forall is_u8 bs ->
  4 * Z.of_nat n <= len d ->
  let m' := set_words (write_words (words m) (offset d - HEADER_SIZE) n bs) m in
  held p fl m' ((d, a) :: hs) /\ keeps hs.*1 m m' /\ take (length bs) (chunk_bytes m' d) = bs.
Proof.
  intros Hh Hl Hb Hn m'. pose proof (held_bounds p fl m _ d a Hh ltac:(by left)) as (_ & _ & [q Hq] & _).
  assert (H4 : (4 | offset d - HEADER_SIZE)) by (exists (16 * q - 16); unfold HEADER_SIZE; lia).
  split_and!.
  - destruct Hh as (Ha & xs & Hd & Hs & Hr). split; [done|]. exists xs. split_and!; [|done|done].
    apply (drawn_write p fl m _ xs d n bs); [done|by left|done].
  - intros e He. unfold chunk_bytes, m'. cbn [words set_words]. apply bytes_at_write_outside; [done|].
    destruct (held_disjoint _ _ _ _ _ _ _ Hh He); lia.
  - unfold chunk_bytes, m'. cbn [words set_words]. replace (len d) with (4 * Z.of_nat n + (len d - 4 * Z.of_nat n)) by lia.
    rewrite bytes_at_app by lia. rewrite bytes_at_write by done. rewrite take_app_length. done.
Qed.
