(* ===== verification/HeadIdle.v ===== *)
(** * A head at rest

    The words of an artifact head between the operations of a sequential caller: one live
    slot for the current version, every other slot free, the lease free or held by that
    caller.  What the scans of the slot table, the lease operations and the retire protocol
    do to such a head. *)

From S2P Require Import Prelude Atomic Head.

Definition free_slot : PinSlot := mkPinSlot 0 0 0 SLOT_FREE.
Definition live_slot (v m : Z) : PinSlot := mkPinSlot v m 0 SLOT_LIVE.

Lemma run_slot_at {A} i (q : prog PinSlot A) h s : pin_table h !! i = Some s ->
  run (slot_at i q) h = match run q s with Some (a, s') => Some (a, set_pin_table (<[i := s']> (pin_table h)) h) | None => None end.
Proof. intros Hs. unfold slot_at. rewrite (run_lift_elem pin_table set_pin_table i q h s); [done| |done]. split; [done|by intros []|done]. Qed.

(** A slot that is only read. *)
Lemma run_slot_read {A} i (q : prog PinSlot A) h s a : pin_table h !! i = Some s -> run q s = Some (a, s) -> run (slot_at i q) h = Some (a, h).
Proof. intros Hs Hq. rewrite (run_slot_at i q h s Hs), Hq, list_insert_id by done. by destruct h. Qed.

Lemma slot_indices_split i : (i < MAX_LIVE_VERSIONS)%nat -> slot_indices = seq 0 i ++ i :: seq (S i) (MAX_LIVE_VERSIONS - S i).
Proof.
  intros Hi. unfold slot_indices. transitivity (seq 0 (i + S (MAX_LIVE_VERSIONS - S i))); [f_equal; lia|]. by rewrite seq_app.
Qed.

(** The scans stop at the first slot that answers. *)
Section scan.
Context {C : Type} (body : nat -> prog ArtifactHead (option C)) (h : ArtifactHead).
Context (Hlen : length (pin_table h) = MAX_LIVE_VERSIONS).

Lemma run_slot_scan i c h' : (i < MAX_LIVE_VERSIONS)%nat ->
  (forall j s, (j < i)%nat -> pin_table h !! j = Some s -> run (body j) h = Some (None, h)) ->
  run (body i) h = Some (Some c, h') -> run (for_each slot_indices body) h = Some (Some c, h').
Proof.
  intros Hi Hb Hc. rewrite (slot_indices_split i Hi). apply run_for_each_first; [|done]. intros j [_ Hj]%elem_of_seq.
  destruct (lookup_lt_is_Some_2 (pin_table h) j) as [s Hs]; [lia|]. by apply (Hb j s).
Qed.
End scan.

Definition named (v : Z) (s : PinSlot) : bool := (state s =? SLOT_LIVE) && (version s =? v).

Lemma run_find_body v h i s : pin_table h !! i = Some s ->
  run (st <- slot_at i (load state) ;; if negb (st =? SLOT_LIVE) then Ret None else w <- slot_at i (load version) ;; Ret (if w =? v then Some i else None)) h
  = Some (if named v s then Some i else None, h).
Proof.
  intros Hs. rewrite run_bind, (run_slot_read i (load state) h s (state s)) by done. unfold named.
  destruct (state s =? SLOT_LIVE); [|done]. cbn [negb andb]. by rewrite run_bind, (run_slot_read i (load version) h s (version s)) by done.
Qed.

Lemma run_find_with_body v m h i s : pin_table h !! i = Some s ->
  run (st <- slot_at i (load state) ;; if negb (st =? SLOT_LIVE) then Ret None
       else w <- slot_at i (load version) ;; if negb (w =? v) then Ret None
       else b <- slot_at i (load manifest) ;; Ret (if b =? m then Some i else None)) h
  = Some (if named v s && (manifest s =? m) then Some i else None, h).
Proof.
  intros Hs. rewrite run_bind, (run_slot_read i (load state) h s (state s)) by done. unfold named.
  destruct (state s =? SLOT_LIVE); [|done]. cbn [negb andb]. rewrite run_bind, (run_slot_read i (load version) h s (version s)) by done.
  destruct (version s =? v); [|done]. cbn [negb andb]. by rewrite run_bind, (run_slot_read i (load manifest) h s (manifest s)) by done.
Qed.

Lemma run_find_slot v h i s : length (pin_table h) = MAX_LIVE_VERSIONS -> pin_table h !! i = Some s -> named v s = true ->
  (forall j s, (j < i)%nat -> pin_table h !! j = Some s -> named v s = false) -> run (find_slot v) h = Some (Some i, h).
Proof.
  intros Hl Hs Hn Hb. pose proof (lookup_lt_Some _ _ _ Hs). apply (run_slot_scan _ h Hl i i h); [lia| |].
  - intros j s' Hj Hs'. by rewrite (run_find_body v h j s' Hs'), (Hb j s' Hj Hs').
  - by rewrite (run_find_body v h i s Hs), Hn.
Qed.

Lemma run_find_slot_with v m h i s : length (pin_table h) = MAX_LIVE_VERSIONS -> pin_table h !! i = Some s ->
  named v s = true -> manifest s = m ->
  (forall j s, (j < i)%nat -> pin_table h !! j = Some s -> named v s = false) -> run (find_slot_with_manifest v m) h = Some (Some i, h).
Proof.
  intros Hl Hs Hn Hm Hb. pose proof (lookup_lt_Some _ _ _ Hs). apply (run_slot_scan _ h Hl i i h); [lia| |].
  - intros j s' Hj Hs'. by rewrite (run_find_with_body v m h j s' Hs'), (Hb j s' Hj Hs').
  - by rewrite (run_find_with_body v m h i s Hs), Hn, Hm, Z.eqb_refl.
Qed.

Lemma run_claim_slot v m h i s : length (pin_table h) = MAX_LIVE_VERSIONS -> pin_table h !! i = Some s -> state s = SLOT_FREE ->
  (forall j s, (j < i)%nat -> pin_table h !! j = Some s -> state s <> SLOT_FREE) ->
  run (claim_slot v m) h = Some (Some i, set_pin_table (<[i := mkPinSlot v m (pins s) SLOT_LIVE]> (pin_table h)) h).
Proof.
  intros Hl Hs Hf Hb. pose proof (lookup_lt_Some _ _ _ Hs) as Hi. apply (run_slot_scan _ h Hl i i); [lia| |].
  - intros j s' Hj Hs'. rewrite run_bind, (run_slot_read j _ h s' (false, state s')); [done|done|]. cbn. by rewrite (proj2 (Z.eqb_neq _ _) (Hb j s' Hj Hs')).
  - rewrite run_bind, (run_slot_at i _ h s Hs). cbn [cas run act]. rewrite Hf, Z.eqb_refl. cbn [fst].
    rewrite run_bind, (run_slot_at i _ _ (set_state SLOT_LIVE s)) by (cbn; by rewrite list_lookup_insert_eq). cbn [store act run].
    rewrite run_bind, (run_slot_at i _ _ (set_manifest m (set_state SLOT_LIVE s))) by (cbn; by rewrite !list_lookup_insert_eq by (by rewrite ?length_insert)).
    cbn [store act run pin_table set_pin_table]. by rewrite !list_insert_insert_eq.
Qed.

(** ** The slots of a sequential caller *)

Definition no_slots : list PinSlot := replicate MAX_LIVE_VERSIONS free_slot.

(** The current version [v] in slot [i], its manifest at [m], with [n] pins. *)
Definition slots (v m n : Z) (i : nat) : list PinSlot :=
  if v =? NO_VERSION then no_slots else <[i := mkPinSlot v m n SLOT_LIVE]> no_slots.

Definition idle (lease inc v m sch n : Z) (i : nat) : ArtifactHead := mkHead HEAD_MAGIC v m lease sch inc (slots v m n i).

(** Where the next version goes: two slots are used in turn. *)
Definition next_slot (v : Z) (i : nat) : nat := if v =? NO_VERSION then 0%nat else (1 - i)%nat.

Lemma length_slots v m n i : length (slots v m n i) = MAX_LIVE_VERSIONS.
Proof. unfold slots, no_slots. destruct (v =? NO_VERSION); by rewrite ?length_insert, length_replicate. Qed.

Lemma no_slots_lookup j s : no_slots !! j = Some s -> s = free_slot.
Proof. intros [-> _]%lookup_replicate. done. Qed.

Lemma slots_live v m n i : v <> NO_VERSION -> (i < MAX_LIVE_VERSIONS)%nat -> slots v m n i !! i = Some (mkPinSlot v m n SLOT_LIVE).
Proof.
  intros Hv Hi. unfold slots. rewrite (proj2 (Z.eqb_neq _ _) Hv). apply list_lookup_insert_eq. unfold no_slots. by rewrite length_replicate.
Qed.

Lemma slots_other v m n i j s : j <> i -> slots v m n i !! j = Some s -> s = free_slot.
Proof. intros Hne. unfold slots. destruct (v =? NO_VERSION); [|rewrite list_lookup_insert_ne by done]; apply no_slots_lookup. Qed.

Lemma slots_pins v m n n' i : v <> NO_VERSION -> <[i := mkPinSlot v m n' SLOT_LIVE]> (slots v m n i) = slots v m n' i.
Proof. intros Hv. unfold slots. rewrite (proj2 (Z.eqb_neq _ _) Hv). apply list_insert_insert_eq. Qed.

Lemma named_free v : named v free_slot = false.
Proof. done. Qed.

Lemma named_live v m n : named v (mkPinSlot v m n SLOT_LIVE) = true.
Proof. unfold named. cbn. apply Z.eqb_refl. Qed.

Section idle.
Context (inc v m sch : Z) (i : nat).
Context (Hi : (i < 2)%nat).

Lemma run_find_current lease n : v <> NO_VERSION -> run (find_slot v) (idle lease inc v m sch n i) = Some (Some i, idle lease inc v m sch n i).
Proof.
  intros Hv. apply (run_find_slot v _ i (mkPinSlot v m n SLOT_LIVE)); cbn [pin_table idle].
  - apply length_slots.
  - apply slots_live; [done|unfold MAX_LIVE_VERSIONS; lia].
  - apply named_live.
  - intros j s Hj ->%slots_other; [done|lia].
Qed.

(** A slot operation on the live slot that changes only its pins. *)
Lemma run_slot_pins {A} lease (q : prog PinSlot A) n n' a : v <> NO_VERSION ->
  run q (mkPinSlot v m n SLOT_LIVE) = Some (a, mkPinSlot v m n' SLOT_LIVE) ->
  run (slot_at i q) (idle lease inc v m sch n i) = Some (a, idle lease inc v m sch n' i).
Proof.
  intros Hv Hq. rewrite (run_slot_at i q _ (mkPinSlot v m n SLOT_LIVE)) by (apply slots_live; [done|unfold MAX_LIVE_VERSIONS; lia]).
  rewrite Hq. unfold idle, set_pin_table. cbn. by rewrite slots_pins.
Qed.

(** ** The lease *)

Lemma run_acquire fuel o f n : is_u32 o -> is_u32 f -> run (acquire_write_lease (S fuel) o) (idle (pack_lease OWNER_NONE f) inc v m sch n i)
  = Some (Some (Some f), idle (pack_lease o f) inc v m sch n i).
Proof.
  intros Ho Hf. cbn. rewrite lease_owner_pack by (done || apply zero_u32). cbn. rewrite lease_fence_pack by done. by rewrite Z.eqb_refl.
Qed.

Lemma run_release_lease o f n : run (release_write_lease o f) (idle (pack_lease o f) inc v m sch n i)
  = Some (true, idle (pack_lease OWNER_NONE (wrap32 (f + 1))) inc v m sch n i).
Proof. cbn. by rewrite Z.eqb_refl. Qed.

Lemma run_held_by o f n : run (lease_held_by o f) (idle (pack_lease o f) inc v m sch n i) = Some (true, idle (pack_lease o f) inc v m sch n i).
Proof. cbn. by rewrite Z.eqb_refl. Qed.

Lemma run_incarnation lease n : run (is_incarnation inc) (idle lease inc v m sch n i) = Some (true, idle lease inc v m sch n i).
Proof. cbn. by rewrite Z.eqb_refl. Qed.

(** ** Installing a version *)

(** The slots between the claim of version [v'] and the retirement of [v]. *)
Definition both (v' m' : Z) : list PinSlot := <[next_slot v i := live_slot v' m']> (slots v m 0 i).

Lemma next_slot_free : slots v m 0 i !! next_slot v i = Some free_slot /\ (next_slot v i < 2)%nat.
Proof.
  unfold slots, next_slot. destruct (v =? NO_VERSION); [by split; [|lia]|]. split; [|lia].
  rewrite list_lookup_insert_ne by lia. unfold no_slots. apply lookup_replicate_2. unfold MAX_LIVE_VERSIONS. lia.
Qed.

Lemma run_claim_next lease v' m' : run (claim_slot v' m') (idle lease inc v m sch 0 i)
  = Some (Some (next_slot v i), set_pin_table (both v' m') (idle lease inc v m sch 0 i)).
Proof.
  destruct next_slot_free as [Hs Hn]. rewrite (run_claim_slot v' m' _ (next_slot v i) free_slot); [done|apply length_slots|exact Hs|done|].
  intros j s Hj Hjs. unfold next_slot in Hj. destruct (Z.eqb_spec v NO_VERSION) as [|Hv]; [lia|]. assert (j = i) as -> by lia.
  cbn in Hjs. rewrite (slots_live v m 0 i Hv) in Hjs by (unfold MAX_LIVE_VERSIONS; lia). injection Hjs as <-. done.
Qed.

Lemma slots_first v' m' : v = NO_VERSION -> v' <> NO_VERSION -> both v' m' = slots v' m' 0 (next_slot v i).
Proof. intros E Hv'. unfold both, slots. rewrite (proj2 (Z.eqb_neq _ _) Hv'), (proj2 (Z.eqb_eq _ _) E). done. Qed.

(** The head while [v] retires: [v'] is current, and the slot of [v] is in state [s]. *)
Definition retiring (lease v' m' sch' : Z) (s : PinSlot) : ArtifactHead :=
  mkHead HEAD_MAGIC v' m' lease sch' inc (<[i := s]> (both v' m')).

Context (v' : Z) (Hv : v <> NO_VERSION) (Hv' : v' <> NO_VERSION) (Hne : v' <> v).

Lemma both_old m' : both v' m' !! i = Some (live_slot v m).
Proof.
  unfold both. rewrite list_lookup_insert_ne; [apply slots_live; [done|unfold MAX_LIVE_VERSIONS; lia]|].
  unfold next_slot. rewrite (proj2 (Z.eqb_neq _ _) Hv). lia.
Qed.

Lemma retiring_slot lease m' sch' s : pin_table (retiring lease v' m' sch' s) !! i = Some s.
Proof.
  cbn. apply list_lookup_insert_eq. unfold both. rewrite length_insert, length_slots. unfold MAX_LIVE_VERSIONS. lia.
Qed.

Lemma run_find_old lease m' sch' :
  let h := mkHead HEAD_MAGIC v' m' lease sch' inc (both v' m') in
  run (find_slot_with_manifest v m) h = Some (Some i, retiring lease v' m' sch' (live_slot v m)).
Proof.
  intros h. assert (Eh : retiring lease v' m' sch' (live_slot v m) = h) by (unfold retiring, h; f_equal; by apply list_insert_id, both_old).
  rewrite Eh. apply (run_find_slot_with v m h i (live_slot v m)); cbn [pin_table h]; [|apply both_old|apply named_live|done|].
  - unfold both. by rewrite length_insert, length_slots.
  - intros j s Hj Hs. unfold both in Hs. destruct (decide (j = next_slot v i)) as [->|Hjn].
    + rewrite list_lookup_insert_eq in Hs by (rewrite length_slots; pose proof (proj2 next_slot_free); unfold MAX_LIVE_VERSIONS; lia). injection Hs as <-.
      unfold named. cbn. by rewrite (proj2 (Z.eqb_neq _ _) Hne).
    + rewrite list_lookup_insert_ne in Hs by done. apply slots_other in Hs as ->; [done|lia].
Qed.

Lemma run_retiring {A} (q : prog PinSlot A) lease m' sch' s a s' : run q s = Some (a, s') ->
  run (slot_at i q) (retiring lease v' m' sch' s) = Some (a, retiring lease v' m' sch' s').
Proof.
  intros Hq. rewrite (run_slot_at i q _ s (retiring_slot lease m' sch' s)), Hq. unfold retiring, set_pin_table. cbn. by rewrite list_insert_insert_eq.
Qed.

Lemma retired lease m' sch' : retiring lease v' m' sch' free_slot = idle lease inc v' m' sch' 0 (next_slot v i).
Proof.
  unfold retiring, idle, both. f_equal. unfold slots. rewrite (proj2 (Z.eqb_neq _ _) Hv), (proj2 (Z.eqb_neq _ _) Hv').
  unfold next_slot. rewrite (proj2 (Z.eqb_neq _ _) Hv). rewrite list_insert_insert_ne by lia. f_equal.
  rewrite list_insert_insert_eq. apply list_insert_id. unfold no_slots. apply lookup_replicate_2. unfold MAX_LIVE_VERSIONS. lia.
Qed.
End idle.
