(* ===== verification/ArtifactChunks.v ===== *)
(** * The chunk operations of an artifact, run alone

    What the routines of [Artifact] and [Commit] that touch the data segment do to the
    chunks a sequential caller holds ([PoolState]): loans, publication, the release of a
    reference, manifests written and read back, and the cascade down a chain of manifests.
    Each leaves the rest of the pool as it was. *)

From S2P Require Import Prelude Atomic BorrowJournal Pod Treiber ChunkDesc ChunkCtrl Pool PoolInv SegBytes PoolClient PoolDraw PoolState.
From S2P Require Import Manifest ManifestCodec Window Head Artifact Commit.

Definition with_data {D} (d : D) (m : ArtMem D) : ArtMem D := mkArtMem (a_head m) d (a_journals m) (a_events m).
Definition with_head {D} (h : ArtifactHead) (m : ArtMem D) : ArtMem D := mkArtMem h (a_data m) (a_journals m) (a_events m).

(** A version's manifest and the chunk it is in. *)
Abbreviation member := (ChunkDesc * Manifest)%type.

(** The control word of a chunk a version holds, with [n] references. *)
Definition published (n : Z) (d : ChunkDesc) : holding := (d, mkAbs (Published n) ChunkCtrl.OWNER_NONE (ChunkDesc.generation d)).
Definition pinned (d : ChunkDesc) : holding := published 1 d.
Definition loaned (owner : Z) (d : ChunkDesc) : holding := (d, mkAbs Loaned owner (ChunkDesc.generation d)).

Lemma fst_pinned ds : (pinned <$> ds).*1 = ds.
Proof. induction ds as [|d ds IH]; [done|]. rewrite !fmap_cons. cbn. by f_equal. Qed.

Lemma fst_loaned o ds : (loaned o <$> ds).*1 = ds.
Proof. induction ds as [|d ds IH]; [done|]. rewrite !fmap_cons. cbn. by f_equal. Qed.

(** ** Control words *)

Section words.
Context (fuel : nat) (o g : Z) (Ho : is_u32 o) (Hg : is_u32 g).

Lemma run_try_loan_free w : run (try_loan w) (concrete (mkAbs Free o g)) = Some (Ok tt, concrete (mkAbs Loaned w g)).
Proof. cbn. ctrl_words. done. Qed.

Lemma run_publish_loan : run (ChunkCtrl.publish (S fuel)) (concrete (mkAbs Loaned o g)) = Some (Some (Ok tt), concrete (mkAbs (Published 0) o g)).
Proof. cbn. ctrl_words. cbn. ctrl_words. done. Qed.

Lemma run_borrow n : is_u32 n -> n < U32_MAX ->
  run (borrow_shared (S fuel)) (concrete (mkAbs (Published n) o g)) = Some (Some (Ok tt), concrete (mkAbs (Published (n + 1)) o g)).
Proof. intros Hn Hm. cbn. ctrl_words. cbn. ctrl_words. cbn. rewrite wrap32_id by mach. done. Qed.

Lemma run_owner_release : run owner_release (concrete (mkAbs (Published 1) o g)) = Some (false, concrete (mkAbs (Published 1) ChunkCtrl.OWNER_NONE g)).
Proof. cbn. ctrl_words. done. Qed.

Lemma run_validate d a : ChunkDesc.generation d = recycled a -> run (ChunkCtrl.validate d) (concrete a) = Some (Ok tt, concrete a).
Proof. intros E. cbn. by rewrite E, Z.eqb_refl. Qed.

Lemma run_is_published n : is_u32 n -> run ChunkCtrl.state (concrete (mkAbs (Published n) o g)) = Some (PUBLISHED, concrete (mkAbs (Published n) o g)).
Proof. intros Hn. cbn. ctrl_words. done. Qed.
End words.

(** [publish], [borrow_shared], [owner_release]: from a loan to the one reference of a version. *)
Lemma run_publish_loaned fuel o g : is_u32 o -> is_u32 g ->
  run (_ <-? ChunkCtrl.publish (S fuel) ;; _ <-? borrow_shared (S fuel) ;; owner_release ;;; done (Ok tt)) (concrete (mkAbs Loaned o g))
  = Some (Some (Ok tt : result CoreError unit), concrete (mkAbs (Published 1) ChunkCtrl.OWNER_NONE g)).
Proof.
  intros Ho Hg. unfold tbind. rewrite run_bind, run_publish_loan by done.
  rewrite run_bind, run_borrow by (done || mach). by rewrite run_bind, run_owner_release.
Qed.

(** A reference given back: the last one frees the chunk. *)
Definition unref (n g : Z) : AbsCtrl :=
  if n =? 1 then mkAbs Free ChunkCtrl.OWNER_NONE (wrap32 (g + 1)) else mkAbs (Published (n - 1)) ChunkCtrl.OWNER_NONE g.

Lemma run_unref fuel n g : is_u32 n -> 0 < n -> is_u32 g ->
  run (st <- ChunkCtrl.state ;; if st =? PUBLISHED then release_shared (S fuel) else done false)
    (concrete (mkAbs (Published n) ChunkCtrl.OWNER_NONE g)) = Some (Some (n =? 1), concrete (unref n g)).
Proof.
  intros Hn H0 Hg. rewrite run_bind, run_is_published by done. rewrite Z.eqb_refl.
  rewrite run_release_shared by (done || apply zero_u32). unfold reclaim, unref, recycle. cbn [life owner recycled].
  rewrite Z.eqb_refl, andb_true_r. destruct (Z.eqb_spec n 1) as [->|]; [done|]. by rewrite (proj2 (Z.eqb_neq (n - 1) 0)) by lia.
Qed.

(** ** The caller's chunks *)

Section chunks.
Context (p : Pool) (fl : list (list Z)) (fuel : nat).
#[local] Hint Extern 0 (DataSeg _) => exact (pool_data (segment p)) : typeclass_instances.
#[local] Abbreviation M := (ArtMem PoolMem).
Implicit Types (m : M) (hs : list holding) (keep : list ChunkDesc).

(** [q] turns the holdings [hs] into [hs'], leaving alone what the chunks [keep] show. *)
Definition turns {A} (q : prog M A) m (r : A) hs hs' keep : Prop :=
  held p fl (a_data m) hs ->
  exists d, run q m = Some (r, with_data d m) /\ held p fl d hs' /\ keeps keep (a_data m) d.

Lemma run_on_data {A} (q : prog PoolMem A) m :
  run (on_data q) m = match run q (a_data m) with Some (a, d) => Some (a, with_data d m) | None => None end.
Proof. unfold on_data. rewrite run_lift_field; [done|]. split; [done|by intros []|done]. Qed.

Lemma run_attach_pool m hs : held p fl (a_data m) hs -> run attach_pool m = Some (Some (Ok p), m).
Proof.
  intros (Ha & _). unfold attach_pool. rewrite run_bind, run_on_data. cbn [d_attach pool_data act run]. rewrite Ha. by destruct m.
Qed.

Lemma turns_perm {A} (q : prog M A) m r hs1 hs1' hs2 hs2' keep :
  hs1 ≡ₚ hs1' -> hs2 ≡ₚ hs2' -> turns q m r hs1' hs2' keep -> turns q m r hs1 hs2 keep.
Proof.
  intros E1 E2 H Hh. destruct (H (held_perm _ _ _ _ _ E1 Hh)) as (d & Hrun & Hh' & Hk). exists d. split_and!; [done| |done].
  by eapply held_perm; [symmetry; exact E2|].
Qed.

Lemma turns_ret {A} (a : A) m hs keep : turns (Ret a) m a hs hs keep.
Proof. intros Hh. exists (a_data m). split_and!; [by destruct m|done|apply keeps_refl]. Qed.

Lemma turns_bind_keeps {A B} (q : prog M A) (k : A -> prog M B) m a b hs hs1 hs2 keep keep' :
  keep' ⊆ keep -> turns q m a hs hs1 keep ->
  (forall d, keeps keep (a_data m) d -> turns (k a) (with_data d m) b hs1 hs2 keep') -> turns (pbind q k) m b hs hs2 keep'.
Proof.
  intros Hs Hq Hk Hh. destruct (Hq Hh) as (d1 & Hrun & Hh1 & Hk1). destruct (Hk d1 Hk1 Hh1) as (d2 & Hrun2 & Hh2 & Hk2).
  exists d2. rewrite run_bind, Hrun. split_and!; [exact Hrun2|done|]. eapply keeps_trans; [by eapply keeps_sub|done].
Qed.

Lemma turns_bind {A B} (q : prog M A) (k : A -> prog M B) m a b hs hs1 hs2 keep keep' :
  keep' ⊆ keep -> turns q m a hs hs1 keep -> (forall d, turns (k a) (with_data d m) b hs1 hs2 keep') -> turns (pbind q k) m b hs hs2 keep'.
Proof. intros Hs Hq Hk. eapply turns_bind_keeps; eauto. Qed.

Lemma turns_fbind {A B} (q : prog M (option A)) (k : A -> prog M (option B)) m a b hs hs1 hs2 keep keep' :
  keep' ⊆ keep -> turns q m (Some a) hs hs1 keep -> (forall d, turns (k a) (with_data d m) b hs1 hs2 keep') -> turns (fbind q k) m b hs hs2 keep'.
Proof. intros Hs Hq Hk. unfold fbind. by eapply turns_bind. Qed.

Lemma turns_fbind_keeps {A B} (q : prog M (option A)) (k : A -> prog M (option B)) m a b hs hs1 hs2 keep keep' :
  keep' ⊆ keep -> turns q m (Some a) hs hs1 keep ->
  (forall d, keeps keep (a_data m) d -> turns (k a) (with_data d m) b hs1 hs2 keep') -> turns (fbind q k) m b hs hs2 keep'.
Proof. intros Hs Hq Hk. unfold fbind. by eapply turns_bind_keeps. Qed.

Lemma turns_tbind {E A B} (q : prog M (option (result E A))) (k : A -> prog M (option (result E B))) m a b hs hs1 hs2 keep keep' :
  keep' ⊆ keep -> turns q m (Some (Ok a)) hs hs1 keep -> (forall d, turns (k a) (with_data d m) b hs1 hs2 keep') -> turns (tbind q k) m b hs hs2 keep'.
Proof. intros Hs Hq Hk. unfold tbind. by eapply turns_bind. Qed.

Lemma turns_ctrl {A} m d a a' hs d' (q : prog ChunkCtrl A) r keep :
  offset d' = offset d -> run q (concrete a) = Some (r, concrete a') -> abs_wf a' ->
  turns (on_data (d_ctrl p d' q)) m (Ok r) ((d, a) :: hs) ((d, a') :: hs) keep.
Proof.
  intros Eo Hq Hw Hh. destruct (held_ctrl p fl (a_data m) d a hs d' q r a' Hh Eo Hq Hw) as (d1 & Hrun & Hh1 & Ew).
  exists d1. rewrite run_on_data. cbn [d_ctrl pool_data]. rewrite Hrun. split_and!; [done|done|by apply keeps_words].
Qed.

Lemma turns_free m d a hs d' : life a = Free -> offset d' = offset d ->
  turns (pool_free (S fuel) p d') m (Some (Ok tt)) ((d, a) :: hs) hs hs.*1.
Proof.
  intros El Eo Hh. destruct (held_free p fl (a_data m) d a hs d' fuel Hh El Eo) as (d1 & Hrun & Hh1 & Hk).
  exists d1. unfold pool_free. rewrite run_on_data. cbn [d_free pool_data]. rewrite Hrun. done.
Qed.

Lemma turns_wf {A} (q : prog M A) m r d a hs hs' keep :
  (abs_wf a -> turns q m r ((d, a) :: hs) hs' keep) -> turns q m r ((d, a) :: hs) hs' keep.
Proof.
  intros H Hh. apply H; [|done]. eapply held_wf; [exact Hh|by left].
Qed.

(** *** Publication *)

Lemma turns_publish_staged m o d hs keep :
  turns (publish_staged (S fuel) p d) m (Some (Ok tt)) (loaned o d :: hs) (pinned d :: hs) keep.
Proof.
  apply turns_wf. intros (Ho & Hg & _). cbn in Ho, Hg. unfold publish_staged, with_ctrl.
  eapply turns_bind with (a := Ok (Some (Ok tt))); [reflexivity| |intros d1; apply turns_ret].
  apply turns_ctrl; [done|by apply run_publish_loaned|]. split_and!; [apply zero_u32|done|cbn; mach].
Qed.

Lemma turns_publish_all m o pub ds hs keep :
  turns (publish_all (S fuel) p pub ds) m (Some (Ok tt)) ((loaned o <$> ds) ++ hs) ((pinned <$> ds) ++ hs) keep.
Proof.
  revert m pub hs. induction ds as [|d ds IH]; intros m pub hs; [apply turns_ret|].
  cbn [publish_all]. eapply turns_fbind; [reflexivity|apply turns_publish_staged|]. intros d1. cbn beta iota.
  eapply turns_perm; [..|apply (IH _ _ (pinned d :: hs))]; rewrite ?fmap_cons; cbn; by rewrite Permutation_middle.
Qed.
(** *** Loans *)

Definition fresh_state (d : ChunkDesc) (a : AbsCtrl) : Prop := life a = Free /\ ChunkDesc.generation d = recycled a.

Lemma turns_loan_from m o before ds as_ all hs keep : is_u32 o -> Forall2 fresh_state ds as_ ->
  turns (loan_from (S fuel) p o before ds all) m (Some (Ok tt)) (zip ds as_ ++ hs) ((loaned o <$> ds) ++ hs) keep.
Proof.
  intros Ho Hf. revert m before hs. induction Hf as [|d a ds as_ [El Eg] _ IH]; intros m before hs; [apply turns_ret|].
  cbn [loan_from zip zip_with app]. apply turns_wf. intros (Hwo & Hwg & _).
  eapply turns_bind; [reflexivity| |].
  - apply (turns_ctrl m d a (mkAbs Loaned o (ChunkDesc.generation d)) _ d (try_loan o) (Ok tt) keep); [done| |].
    + rewrite Eg. destruct a as [l w g]. cbn in El. subst l. by apply run_try_loan_free.
    + split_and!; [done|cbn; by rewrite Eg|done].
  - intros d1. cbn beta iota. eapply turns_perm; [..|apply (IH _ _ (loaned o d :: hs))]; rewrite ?fmap_cons; cbn; by rewrite Permutation_middle.
Qed.

(** *** References given back *)

(** What giving a reference back leaves, and whether it freed the chunk. *)
Definition after_unref (n : Z) (d : ChunkDesc) hs : list holding := if n =? 1 then hs else published (n - 1) d :: hs.

Lemma turns_freed_by m n d d' hs keep (q : prog ChunkCtrl (option bool)) : offset d' = offset d -> 0 < n ->
  (n = 1 -> keep ⊆ hs.*1) ->
  (forall g, is_u32 n -> is_u32 g -> g = ChunkDesc.generation d ->
    run q (concrete (mkAbs (Published n) ChunkCtrl.OWNER_NONE g)) = Some (Some (n =? 1), concrete (unref n g))) ->
  turns (freed_by (S fuel) p d' q) m (Some (n =? 1)) (published n d :: hs) (after_unref n d hs) keep.
Proof.
  intros Eo H0 Hkeep Hq. apply turns_wf. intros (_ & Hg & Hn). cbn in Hg, Hn. unfold freed_by, after_unref.
  assert (Hw : abs_wf (unref n (ChunkDesc.generation d))).
  { unfold unref. destruct (n =? 1); split_and!; cbn; try apply zero_u32; try done; [apply wrap32_u32|mach]. }
  eapply turns_bind; [reflexivity|by apply (turns_ctrl m d _ _ hs d' q _ keep Eo (Hq _ Hn Hg eq_refl) Hw)|].
  intros d1. cbn beta iota. unfold unref. destruct (Z.eqb_spec n 1) as [->|]; [|apply turns_ret].
  eapply turns_fbind; [by apply Hkeep|by apply turns_free|]. intros d2. apply turns_ret.
Qed.

Lemma turns_release_chunk m n d d' hs keep : offset d' = offset d -> ChunkDesc.generation d' = ChunkDesc.generation d -> 0 < n ->
  (n = 1 -> keep ⊆ hs.*1) -> turns (release_chunk (S fuel) p d') m (Some (n =? 1)) (published n d :: hs) (after_unref n d hs) keep.
Proof.
  intros Eo Eg H0 Hk. apply turns_freed_by; [done|done|done|]. intros g Hn Hg ->. rewrite run_bind, run_validate by done. by apply run_unref.
Qed.

Lemma turns_release_chunk_owned m n d d' hs keep : offset d' = offset d -> 0 < n -> (n = 1 -> keep ⊆ hs.*1) ->
  turns (release_chunk_owned (S fuel) p d') m (Some (n =? 1)) (published n d :: hs) (after_unref n d hs) keep.
Proof. intros Eo H0 Hk. apply turns_freed_by; [done|done|done|]. intros g Hn Hg ->. by apply run_unref. Qed.

Lemma turns_release_all m ds hs : turns (release_all (S fuel) p ds) m (Some tt) ((pinned <$> ds) ++ hs) hs hs.*1.
Proof.
  unfold release_all. revert m. induction ds as [|d ds IH]; intros m; [apply turns_ret|]. rewrite fmap_cons. cbn [loop_fold app].
  eapply turns_fbind; [|eapply turns_fbind; [reflexivity|apply (turns_release_chunk m 1 d d); [done|done|done|reflexivity]|intros; apply turns_ret]|intros; apply IH].
  rewrite fmap_app. set_solver.
Qed.
(** *** Manifests in memory *)

(** Chunk [c] holds what [write_manifest] writes for [mf]. *)
Definition holds_manifest (d : PoolMem) (c : ChunkDesc) (mf : Manifest) : Prop :=
  manifest_ok mf /\ writable mf = true /\ Z.of_nat (length (image_of mf)) <= len c /\
  take (length (image_of mf)) (chunk_bytes d c) = image_of mf.

Lemma holds_manifest_keeps ds d d' c mf : keeps ds d d' -> c ∈ ds -> holds_manifest d c mf -> holds_manifest d' c mf.
Proof. intros Hk Hc (H1 & H2 & H3 & H4). split_and!; try done. by rewrite (Hk c Hc). Qed.

Lemma chunk_prefix d c n : Z.of_nat n <= len c -> take n (chunk_bytes d c) = bytes_at (words d) (offset c - HEADER_SIZE) (Z.of_nat n).
Proof.
  intros Hn. unfold chunk_bytes. replace (len c) with (Z.of_nat n + (len c - Z.of_nat n)) by lia.
  rewrite bytes_at_app by lia. rewrite take_app_length' by (rewrite length_bytes_at; lia). done.
Qed.

Lemma turns_read_manifest m c a mf mref hs keep : holds_manifest (a_data m) c mf -> (c, a) ∈ hs -> PackedRef_offset mref = offset c ->
  turns (read_manifest mref) m (Ok mf) hs hs keep.
Proof.
  intros (Hm & Hw & Hl & Him) Hin Eo Hh. apply manifest_ok_wf in Hm; [|done]. exists (a_data m). split_and!; [|done|apply keeps_refl].
  destruct (held_bounds p fl (a_data m) hs c a Hh Hin) as (Hlo & Hhi & _ & _ & H64 & Hu).
  assert (Hres : forall n, n <= len c -> resolve (segment p) (offset c) n = Ok tt).
  { intros n Hn. unfold resolve. rewrite (proj2 (Z.ltb_ge _ _)), (proj2 (Z.ltb_ge _ _)) by lia. done. }
  assert (Hrd : forall n, Z.of_nat n <= len c ->
    run (on_data (d_read (offset c) (Z.of_nat n))) m = Some (take n (chunk_bytes (a_data m) c), m)).
  { intros n Hn. rewrite run_on_data. cbn [d_read pool_data load act run]. rewrite chunk_prefix by done. by destruct m. }
  pose proof (image_of_length mf Hm) as Elen. set (im := image_of mf) in *.
  assert (H64i : 64 <= Z.of_nat (length im)) by (rewrite Elen; unfold manifest_len, kept_offset, spans_offset, chunks_offset; lia).
  assert (Et : forall n, (n <= length im)%nat -> take n (chunk_bytes (a_data m) c) = take n im).
  { intros n Hn. rewrite <- Him, take_take. f_equal. lia. }
  unfold read_manifest. rewrite Eo, run_bind, run_on_data. cbn [d_resolve pool_data run]. rewrite Hres by lia.
  replace (with_data (a_data m) m) with m by (by destruct m).
  rewrite run_bind. change 64 with (Z.of_nat 64). rewrite Hrd by lia. rewrite Et by lia. unfold im at 1. rewrite read_header_image by done.
  change (header_of (header_fields (header_for mf))) with (header_for mf).
  change (vm_magic (header_for mf)) with MANIFEST_MAGIC. rewrite Z.eqb_refl. cbn [negb header_for vm_chunk_count vm_batch_count vm_kept_count].
  rewrite <- Elen. rewrite (proj2 (Z.ltb_ge _ _)) by mach. rewrite run_bind, run_on_data. cbn [d_resolve pool_data run]. rewrite Hres by lia.
  replace (with_data (a_data m) m) with m by (by destruct m). rewrite run_bind, Hrd, Et by lia. rewrite take_ge by done.
  rewrite <- (app_nil_r im). unfold im, image_of. rewrite parse_image by done. done.
Qed.

Lemma turns_read_checked m c a mf mref hs keep : holds_manifest (a_data m) c mf -> (c, a) ∈ hs -> PackedRef_offset mref = offset c ->
  turns (read_manifest_checked mref (artifact_id mf) (Manifest.version mf)) m (Ok mf) hs hs keep.
Proof.
  intros Hm Hin Eo. unfold read_manifest_checked. eapply turns_bind; [reflexivity|by eapply turns_read_manifest|]. intros d.
  cbn [rbind]. unfold check_identity. rewrite !Z.eqb_refl. apply turns_ret.
Qed.
(** *** Staging a manifest *)

Definition no_room (e : ArtifactError) : Prop := e = ArrowCore PoolExhausted \/ e = ArrowCore LayoutOverflow.

Lemma run_write_manifest m hs mf link : held p fl (a_data m) hs -> manifest_ok mf -> writable mf = true -> kept mf = [] ->
  manifest_header (artifact_id mf) (Manifest.version mf) (mf_schema_id mf) (chunks mf) (batch_spans mf) link None = Ok (header_for mf) ->
  exists r d, run (write_manifest (S fuel) p (artifact_id mf) (Manifest.version mf) (mf_schema_id mf) (chunks mf) (batch_spans mf) link None) m
      = Some (Some r, with_data d m) /\
    match r with
    | Err e => d = a_data m /\ no_room e
    | Ok c => exists a, held p fl d ((c, a) :: hs) /\ fresh_state c a /\ of_pool p 0 c /\ keeps hs.*1 (a_data m) d /\ holds_manifest d c mf
    end.
Proof.
  intros Hh Hm Hw Ek Eh. unfold write_manifest. rewrite Eh. cbn [default option_fmap fst snd length]. pose proof (manifest_ok_wf mf Hm Hw) as Hwf. pose proof (image_of_length mf Hwf) as Elen.
  rewrite Ek in Elen. cbn [length] in Elen. rewrite <- Elen.
  assert (Hd0 : with_data (a_data m) m = m) by (by destruct m).
  destruct (U32_MAX <? Z.of_nat (length (image_of mf))).
  { exists (Err (ArrowCore LayoutOverflow)), (a_data m). rewrite Hd0. split_and!; [done|done|by right]. }
  destruct (held_alloc p fl (a_data m) hs fuel (Z.of_nat (length (image_of mf))) Hh) as (r & d1 & Hrun & Hr).
  unfold fbind. rewrite run_bind, run_on_data. cbn [d_alloc pool_data]. rewrite Hrun. destruct r as [c|e].
  2: { destruct Hr as [-> He]. exists (Err (ArrowCore e)), (a_data m). split_and!; [done|done|]. destruct He as [-> | ->]; [by left|by right]. }
  destruct Hr as (a & Hh1 & El & Eg & Hl & Hof & Ew). rewrite (proj2 (Z.ltb_ge _ _)) by lia.
  assert (Hdiv : length (image_of mf) = (4 * (length (image_of mf) / 4))%nat).
  { assert (Hq : (4 | Z.of_nat (length (image_of mf)))).
    { rewrite Elen. unfold manifest_len, kept_offset, spans_offset, chunks_offset.
      exists (16 + Z.of_nat (length (chunks mf)) * 6 + Z.of_nat (length (batch_spans mf))). lia. }
    destruct Hq as [q Hq]. replace (length (image_of mf)) with (Z.to_nat q * 4)%nat by lia. rewrite Nat.div_mul; lia. }
  destruct (held_write p fl d1 c a hs (length (image_of mf) / 4) (image_of mf) Hh1 Hdiv (image_of_bytes mf Hwf) ltac:(lia)) as (Hh2 & Hk2 & Ht).
  eexists (Ok c), _. rewrite run_bind, run_on_data. cbn [d_write pool_data]. split.
  { assert (Him : manifest_image (header_for mf) (chunks mf) (batch_spans mf) [] = image_of mf) by (unfold image_of; by rewrite Ek).
    rewrite Him. reflexivity. }
  exists a. split_and!; [exact Hh2|done|done| |split_and!; [done|done|lia|exact Ht]].
  eapply keeps_trans; [by apply keeps_words|exact Hk2].
Qed.

Lemma turns_stage m o c a hs keep : is_u32 o -> fresh_state c a ->
  turns (with_ctrl p c (
      _ <-? (r <- try_loan o ;; done r) ;;
      _ <-? ChunkCtrl.publish (S fuel) ;;
      _ <-? borrow_shared (S fuel) ;;
      owner_release ;;;
      done (Ok tt))) m (Some (Ok tt)) ((c, a) :: hs) (pinned c :: hs) keep.
Proof.
  intros Ho [El Eg]. apply turns_wf. intros (Hwo & Hwg & _). unfold with_ctrl.
  eapply turns_bind with (a := Ok (Some (Ok tt))); [reflexivity| |intros d; apply turns_ret].
  apply turns_ctrl; [done| |split_and!; [apply zero_u32|cbn; by rewrite Eg|cbn; mach]].
  destruct a as [l w g]. cbn [life recycled] in El, Eg |- *. subst. unfold tbind at 1. rewrite !run_bind, run_try_loan_free by done.
  cbn [run done]. by apply run_publish_loaned.
Qed.

Lemma run_stage_manifest m hs mf link o : held p fl (a_data m) hs -> is_u32 o -> manifest_ok mf -> writable mf = true -> kept mf = [] ->
  manifest_header (artifact_id mf) (Manifest.version mf) (mf_schema_id mf) (chunks mf) (batch_spans mf) link None = Ok (header_for mf) ->
  exists r d, run (stage_chunk (S fuel) p
      (write_manifest (S fuel) p (artifact_id mf) (Manifest.version mf) (mf_schema_id mf) (chunks mf) (batch_spans mf) link None) o) m
      = Some (Some r, with_data d m) /\
    match r with
    | Err e => d = a_data m /\ no_room e
    | Ok c => held p fl d (pinned c :: hs) /\ of_pool p 0 c /\ keeps hs.*1 (a_data m) d /\ holds_manifest d c mf
    end.
Proof.
  intros Hh Ho Hm Hw Ek Eh. destruct (run_write_manifest m hs mf link Hh Hm Hw Ek Eh) as (r & d1 & Hrun & Hr).
  unfold stage_chunk, tbind at 1. rewrite run_bind, Hrun. destruct r as [c|e]; [|by exists (Err e), d1].
  destruct Hr as (a & Hh1 & Hf & Hof & Hk1 & Hm1).
  destruct (turns_stage (with_data d1 m) o c a hs (c :: hs.*1) Ho Hf Hh1) as (d2 & Hrun2 & Hh2 & Hk2).
  exists (Ok c), d2. unfold tbind at 1. rewrite run_bind, Hrun2. split_and!; [done|done|done| |].
  - eapply keeps_trans; [done|]. eapply keeps_sub; [|exact Hk2]. set_solver.
  - eapply holds_manifest_keeps; [exact Hk2|by left|done].
Qed.
(** *** Chains of manifests *)

Definition holds_of (mb : member) : list holding := pinned mb.1 :: (pinned <$> chunks mb.2).
Definition chain_holds (ms : list member) : list holding := concat (holds_of <$> ms).

(** Newest first: each manifest links to the next. *)
Fixpoint linked (ms : list member) : Prop :=
  match ms with
  | [] => True
  | (c, mf) :: rest =>
      prev mf = match rest with
                | [] => None
                | (c', mf') :: _ => Some (link_from mf' (PackedRef_from_desc c') (ChunkDesc.generation c'))
                end /\ linked rest
  end.

Definition member_ok (d : PoolMem) (mb : member) : Prop :=
  holds_manifest d mb.1 mb.2 /\ PackedRef_offset (PackedRef_from_desc mb.1) = offset mb.1.

Lemma member_ok_keeps d d' ds ms : keeps ds d d' -> ms.*1 ⊆ ds -> Forall (member_ok d) ms -> Forall (member_ok d') ms.
Proof.
  intros Hk Hs H. rewrite !list.Forall_forall in *. intros [c mf] Hin. destruct (H _ Hin) as [Hm Eo]. split; [|done].
  eapply holds_manifest_keeps; [exact Hk| |done]. apply Hs. apply list_elem_of_fmap. by exists (c, mf).
Qed.

Lemma chain_holds_descs ms : ms.*1 ⊆ (chain_holds ms).*1.
Proof.
  intros c Hc. apply list_elem_of_fmap in Hc as ([c' mf] & -> & Hin). unfold chain_holds. apply list_elem_of_fmap. exists (pinned c'). split; [done|].
  apply list_elem_of_In, in_concat. exists (holds_of (c', mf)). split; apply list_elem_of_In; [|by left].
  apply list_elem_of_fmap. by exists (c', mf).
Qed.

Definition names_gen (gen : option Z) (c : ChunkDesc) : Prop := match gen with Some g => g = ChunkDesc.generation c | None => True end.

Lemma turns_release_named m n c mref gen hs keep : PackedRef_offset mref = offset c -> names_gen gen c -> 0 < n -> (n = 1 -> keep ⊆ hs.*1) ->
  turns (match gen with
         | Some g => release_chunk (S fuel) p (manifest_chunk_desc mref g)
         | None => release_chunk_owned (S fuel) p (manifest_chunk_desc mref 0)
         end) m (Some (n =? 1)) (published n c :: hs) (after_unref n c hs) keep.
Proof. intros Eo Hg H0 Hk. destruct gen as [g|]; [apply turns_release_chunk|apply turns_release_chunk_owned]; done. Qed.

(** One turn that releases the last reference. *)
Lemma turns_step_last m c mf mref gen hs : holds_manifest (a_data m) c mf -> PackedRef_offset mref = offset c -> names_gen gen c ->
  turns (release_step (S fuel) p (mref, gen)) m
    (Some (match prev mf with Some l => inl (lk_mref l, Some (lk_generation l)) | None => inr tt end))
    (holds_of (c, mf) ++ hs) hs hs.*1.
Proof.
  intros Hm Eo Hg. unfold release_step, holds_of. cbn [fst snd app].
  eapply turns_bind; [reflexivity|eapply (turns_read_manifest m c _ mf); [done|by left|done]|]. intros d1.
  eapply turns_fbind; [|apply (turns_release_named _ 1); [done|done|done|reflexivity]|].
  - rewrite fmap_app. set_solver.
  - intros d2. cbn [after_unref Z.eqb Pos.eqb negb]. eapply turns_fbind; [reflexivity|apply turns_release_all|]. intros d3. apply turns_ret.
Qed.

(** One turn that leaves another reference. *)
Lemma turns_release_shared m c mf mref gen n hs keep : holds_manifest (a_data m) c mf -> PackedRef_offset mref = offset c -> 1 < n ->
  names_gen gen c ->
  turns (release_manifest_ref (S fuel) p mref gen) m (Some tt) (published n c :: hs) (published (n - 1) c :: hs) keep.
Proof.
  intros Hm Eo Hn Hg. unfold release_manifest_ref. cbn [loop].
  eapply turns_fbind with (a := inr tt) (keep := keep); [reflexivity| |intros d; apply turns_ret]. unfold release_step.
  eapply turns_bind; [reflexivity|eapply (turns_read_manifest m c _ mf); [done|by left|done]|]. intros d1.
  eapply turns_fbind; [reflexivity|apply (turns_release_named _ n); [done|done|lia|lia]|].
  intros d2. unfold after_unref. rewrite (proj2 (Z.eqb_neq n 1)) by lia. cbn [negb]. apply turns_ret.
Qed.

(** The cascade down a chain nobody else holds. *)
Lemma turns_cascade n m c mf rest mref gen hs : let ms := (c, mf) :: rest in
  Forall (member_ok (a_data m)) ms -> linked ms -> (length ms <= n)%nat -> PackedRef_offset mref = offset c ->
  names_gen gen c ->
  turns (loop n (release_step (S fuel) p) (mref, gen)) m (Some tt) (chain_holds ms ++ hs) hs hs.*1.
Proof.
  revert m c mf mref gen rest. induction n as [|n IH]; intros m c mf mref gen rest ms Hok [Ep Hl] Hn Eo Hg; [cbn in Hn; lia|].
  apply list.Forall_cons in Hok as [[Hm _] Hok]. unfold ms, chain_holds in *. rewrite fmap_cons. cbn [concat loop]. rewrite <- app_assoc.
  eapply turns_fbind_keeps; [|by apply (turns_step_last m c mf)|].
  { rewrite fmap_app. set_solver. }
  intros d Hk. rewrite Ep. destruct rest as [|[c' mf'] rest].
  - apply turns_ret.
  - cbn [link_from lk_mref lk_generation]. pose proof Hok as [[_ Eo'] _]%list.Forall_cons.
    apply (IH (with_data d m) c' mf'); [|done|cbn in *; lia|done|done].
    eapply member_ok_keeps; [exact Hk| |done]. rewrite fmap_app. etransitivity; [apply chain_holds_descs|]. unfold chain_holds. set_solver.
Qed.
(** *** Rollback *)

Lemma turns_rollback m ds hs : turns (rollback_staged (S fuel) p ds None [] None None) m (Some tt) ((pinned <$> ds) ++ hs) hs hs.*1.
Proof.
  unfold rollback_staged. eapply turns_bind; [reflexivity|apply turns_ret|]. intros d1.
  eapply turns_fbind; [reflexivity|apply turns_ret|]. intros d2. eapply turns_fbind; [reflexivity|apply turns_ret|]. intros d3.
  eapply turns_fbind; [|exact (turns_release_all _ [] ((pinned <$> ds) ++ hs))|intros d4; apply turns_release_all].
  rewrite fmap_app. set_solver.
Qed.

(** With the link's reference. *)
Lemma turns_rollback_link m ds c mf hs : holds_manifest (a_data m) c mf -> PackedRef_offset (PackedRef_from_desc c) = offset c ->
  turns (rollback_staged (S fuel) p ds (Some (link_from mf (PackedRef_from_desc c) (ChunkDesc.generation c))) [] None None) m (Some tt)
    (published 2 c :: (pinned <$> ds) ++ hs) (pinned c :: hs) (c :: hs.*1).
Proof.
  intros Hm Eo. set (K := c :: ((pinned <$> ds) ++ hs).*1). assert (HK : c :: hs.*1 ⊆ K) by (unfold K; rewrite fmap_app; set_solver).
  assert (Hin : c ∈ K) by by left.
  unfold rollback_staged. eapply (turns_bind_keeps _ _ _ _ _ _ _ _ K); [done|apply turns_ret|]. intros d1 Hk1.
  eapply (turns_fbind_keeps _ _ _ _ _ _ _ _ K); [done|apply turns_ret|]. intros d2 Hk2.
  eapply (turns_fbind _ _ _ tt _ _ (pinned c :: (pinned <$> ds) ++ hs) _ K); [done| |].
  - unfold release_link. apply turns_wf. intros Hw. cbn [lk_mref link_from lk_generation].
    eapply (turns_bind_keeps _ _ _ (Ok (ChunkDesc.generation c)) _ _ _ _ K);
      [done|by eapply (turns_ctrl _ c)|]. intros d3 Hk3.
    cbn beta iota. rewrite Z.eqb_refl. change (pinned c) with (published (2 - 1) c). eapply turns_release_shared; [|done|lia|done].
    eapply holds_manifest_keeps; [exact Hk3|done|]. eapply holds_manifest_keeps; [exact Hk2|done|]. by eapply holds_manifest_keeps.
  - intros d3. eapply (turns_fbind _ _ _ tt _ _ _ _ K); [done|exact (turns_release_all _ [] _)|]. intros d4.
    eapply turns_perm; [..|apply (turns_release_all _ ds (pinned c :: hs))]; [by rewrite Permutation_middle|done].
Qed.
End chunks.
