(* ===== verification/ArtifactCommit.v ===== *)
(** * Commits of a sequential caller

    The install path of [Commit], run by a caller that holds the write lease and nobody
    else: what it makes of the head ([HeadIdle]) and of the chunks of the data segment
    ([ArtifactChunks]), on every way out; and, in the second part, the batches such a commit
    stores and a pin rebuilds. *)

From S2P Require Import Prelude Atomic Pod BorrowJournal Arrow ArrowLayout ArrowBatch Treiber ChunkDesc ChunkCtrl Pool PoolInv SegBytes PoolClient PoolDraw PoolState.
From S2P Require Import Manifest ManifestCodec Window Head HeadIdle Artifact Commit Batches ArtifactChunks.

(** Memories are kept as constructors. *)
Ltac mem := unfold with_head, with_data; cbn [a_head a_data a_journals a_events].

Section table.
Context (p : Pool) (fl : list (list Z)) (fuel : nat).
#[local] Hint Extern 0 (DataSeg _) => exact (pool_data (segment p)) : typeclass_instances.
#[local] Abbreviation M := (ArtMem PoolMem).
#[local] Abbreviation turns := (ArtifactChunks.turns p fl).
Implicit Types (m : M) (hs : list holding) (keep : list ChunkDesc).

(** ** The head under the data segment's rules *)

Lemma run_on_head {A} (q : prog ArtifactHead A) m :
  run (on_head q) m = match run q (a_head m) with Some (a, h) => Some (a, with_head h m) | None => None end.
Proof. unfold on_head. rewrite run_lift_field; [done|]. split; [done|by intros []|done]. Qed.

(** The head is only read. *)
Lemma turns_head {A} (q : prog ArtifactHead A) m r hs keep : run q (a_head m) = Some (r, a_head m) -> turns (on_head q) m r hs hs keep.
Proof. intros Hq Hh. exists (a_data m). rewrite run_on_head, Hq. split_and!; [by destruct m|done|apply keeps_refl]. Qed.

Lemma run_head_read {A} (q : prog ArtifactHead A) m r : run q (a_head m) = Some (r, a_head m) -> run (on_head q) m = Some (r, m).
Proof. intros Hq. rewrite run_on_head, Hq. by destruct m. Qed.

Lemma packed_bits r : mkPackedRef (PackedRef_to_bits r) = r.
Proof. by destruct r. Qed.

(** ** The link of an append *)

Definition link_to (mb : member) : ManifestLink := link_from mb.2 (PackedRef_from_desc mb.1) (ChunkDesc.generation mb.1).

Lemma run_link_borrow o g : is_u32 o -> is_u32 g ->
  run (g <- ChunkCtrl.generation ;; b <-- borrow_shared (S fuel) ;; done (match b with Ok _ => Some g | Err _ => None end))
    (concrete (mkAbs (Published 1) o g)) = Some (Some (Some g), concrete (mkAbs (Published 2) o g)).
Proof.
  intros Ho Hg. rewrite run_bind. assert (E : run ChunkCtrl.generation (concrete (mkAbs (Published 1) o g)) = Some (g, concrete (mkAbs (Published 1) o g))) by done.
  rewrite E. unfold fbind. rewrite run_bind, run_borrow by (done || mach). done.
Qed.

Section append.
Context (art : Artifact) (m : M) (c : ChunkDesc) (mf : Manifest) (staged : list ChunkDesc) (sid : Z).
Context (Hm : holds_manifest (a_data m) c mf) (Eo : PackedRef_offset (PackedRef_from_desc c) = offset c).
Context (Ehead : manifest_desc (a_head m) = PackedRef_to_bits (PackedRef_from_desc c)) (Eid : artifact_id mf = name_id art).

Lemma turns_link_other hs : mf_schema_id mf <> sid ->
  turns (append_link (S fuel) art p (Manifest.version mf) sid staged) m (Some (Err Unsupported))
    ((pinned <$> staged) ++ pinned c :: hs) (pinned c :: hs) (pinned c :: hs).*1.
Proof.
  intros Hs. unfold append_link. eapply (turns_bind_keeps p fl _ _ _ _ _ _ _ _ (pinned c :: hs).*1); [done|by apply turns_head|]. intros d1 Hk1.
  rewrite Ehead, packed_bits, <- Eid.
  eapply (turns_bind_keeps p fl _ _ _ _ _ _ _ _ (pinned c :: hs).*1); [done| |].
  { eapply (turns_read_checked p fl _ c _ mf); [by eapply holds_manifest_keeps; [|by left|]|apply elem_of_app; right; by left|done]. }
  intros d2 Hk2. cbn beta iota. rewrite (proj2 (Z.eqb_neq _ _) Hs). cbn [negb]. unfold fail_with.
  eapply (turns_fbind p fl _ _ _ tt _ _ _ _ (pinned c :: hs).*1); [done|apply turns_rollback|]. intros d3. apply turns_ret.
Qed.

Lemma turns_link hs keep : mf_schema_id mf = sid -> c ∈ keep ->
  turns (append_link (S fuel) art p (Manifest.version mf) sid staged) m (Some (Ok (link_to (c, mf))))
    (pinned c :: hs) (published 2 c :: hs) keep.
Proof.
  intros Hs Hin. unfold append_link. eapply (turns_bind_keeps p fl _ _ _ _ _ _ _ _ keep); [done|by apply turns_head|]. intros d1 Hk1.
  rewrite Ehead, packed_bits, <- Eid.
  eapply (turns_bind_keeps p fl _ _ _ _ _ _ _ _ keep); [done| |].
  { eapply (turns_read_checked p fl _ c _ mf); [by eapply holds_manifest_keeps|by left|done]. }
  intros d2 Hk2. cbn beta iota. rewrite Hs, Z.eqb_refl. cbn [negb]. apply turns_wf. intros (Hwo & Hwg & _).
  eapply (turns_bind_keeps p fl _ _ _ _ _ _ _ _ keep); [done| |].
  { eapply (turns_ctrl p fl _ c _ (mkAbs (Published 2) ChunkCtrl.OWNER_NONE (ChunkDesc.generation c))); [done|by apply run_link_borrow|].
    split_and!; [apply zero_u32|done|cbn; mach]. }
  intros d3 Hk3. cbn beta iota.
  eapply (turns_bind_keeps p fl _ _ _ _ _ _ _ _ keep); [done| |].
  { eapply (turns_read_checked p fl _ c _ mf); [|by left|done]. eapply holds_manifest_keeps; [exact Hk3|done|].
    eapply holds_manifest_keeps; [exact Hk2|done|]. by eapply holds_manifest_keeps. }
  intros d4 Hk4. eapply (turns_bind_keeps p fl _ _ _ (Ok (ChunkDesc.generation c)) _ _ _ _ keep); [done| |].
  { eapply (turns_ctrl p fl _ c); [done|done|]. split_and!; [apply zero_u32|done|cbn; mach]. }
  intros d5 Hk5. cbn beta iota. rewrite Z.eqb_refl. apply turns_ret.
Qed.
End append.

(** ** The manifest a commit writes *)

(** A manifest of this caller: its own lists, and a link if it appends. *)
Definition next_manifest (art : Artifact) (v sid : Z) (cs : list ChunkDesc) (spans : list Z) (prior : option member) : Manifest :=
  mkManifest (name_id art) v sid cs spans (link_to <$> prior)
    (match prior with Some mb => depth mb.2 + 1 | None => 0 end)
    (Z.of_nat (length spans) + match prior with Some mb => total_batches mb.2 | None => 0 end) 0 [].

(** What the link of an append may point to. *)
Definition linkable (v : Z) (mb : member) : Prop :=
  is_u64 (bits (PackedRef_from_desc mb.1)) /\ bits (PackedRef_from_desc mb.1) <> 0 /\ is_u32 (ChunkDesc.generation mb.1) /\
  0 < Manifest.version mb.2 < v /\ 0 <= depth mb.2 < U32_MAX /\ 0 <= total_batches mb.2 < U32_MAX.

Lemma next_manifest_ok art v sid cs spans prior : is_u32 (name_id art) -> is_u64 v -> 0 < v -> is_u32 sid ->
  Forall desc_wf cs -> Z.of_nat (length cs) < U32_MOD -> Forall is_u32 spans -> (length spans <= 1)%nat ->
  (forall mb, prior = Some mb -> linkable v mb) ->
  let mf := next_manifest art v sid cs spans prior in
  manifest_ok mf /\ writable mf = true /\
  manifest_header (name_id art) v sid cs spans (link_to <$> prior) None = Ok (header_for mf).
Proof.
  intros Hn Hv H0 Hs Hc Hlc Hsp Hls Hp mf.
  assert (Hok : manifest_ok mf).
  { unfold mf, manifest_ok, next_manifest. cbn. split_and!; try done. destruct prior as [[c m]|]; cbn.
    - destruct (Hp _ eq_refl) as (H1 & H2 & H3 & H4 & H5 & H6). cbn in *. unfold link_wf. cbn. split_and!; try done; try mach.
    - split_and!; try done; try lia; try mach. }
  assert (Hw : writable mf = true).
  { unfold mf, writable, next_manifest. cbn. rewrite (proj2 (Z.ltb_lt (Z.of_nat (length cs)) _)) by done.
    rewrite (proj2 (Z.ltb_lt (Z.of_nat (length spans)) _)) by mach. destruct prior as [[c m]|]; cbn.
    - destruct (Hp _ eq_refl) as (H1 & H2 & H3 & H4 & H5 & H6). cbn in *.
      rewrite !(proj2 (Z.ltb_lt _ _)) by lia. rewrite !(proj2 (Z.eqb_neq _ _)) by lia. done.
    - unfold window_ok. cbn. by rewrite (proj2 (Z.leb_gt v 0)), (proj2 (Z.ltb_ge (Z.of_nat (length spans)) 0)) by lia. }
  split_and!; [done|done|]. pose proof (encode_header_spec mf Hok) as E. rewrite Hw in E. rewrite <- E.
  unfold encode_header, mf. by destruct prior as [mb|].
Qed.

(** ** The chain of the current version *)

Definition newest_bits (ms : list member) : Z :=
  match ms with [] => 0 | mb :: _ => PackedRef_to_bits (PackedRef_from_desc mb.1) end.

Definition newest_is (v : Z) (ms : list member) : Prop :=
  match ms with [] => v = NO_VERSION | mb :: _ => v <> NO_VERSION /\ Manifest.version mb.2 = v end.

(** A manifest of the artifact, of at most one batch. *)
Definition own_member (art : Artifact) (sid : Z) (mb : member) : Prop :=
  of_pool p 0 mb.1 /\ artifact_id mb.2 = name_id art /\ mf_schema_id mb.2 = sid /\ kept mb.2 = [] /\ (length (batch_spans mb.2) <= 1)%nat.

Record chain_at (art : Artifact) (v sid : Z) (d : PoolMem) (ms : list member) : Prop := mkChainAt {
  ca_linked : linked ms;
  ca_held : Forall (member_ok d) ms;
  ca_own : Forall (own_member art sid) ms;
  ca_newest : newest_is v ms;
  ca_length : Z.of_nat (length ms) <= v
}.

Lemma chain_at_keeps art v sid d d' ms ds : keeps ds d d' -> ms.*1 ⊆ ds -> chain_at art v sid d ms -> chain_at art v sid d' ms.
Proof. intros Hk Hs [H1 H2 H3 H4 H5]. split; try done. by eapply member_ok_keeps. Qed.

(** Depths and batch counts along the chain. *)
Lemma chain_counts d ms c mf rest art sid : ms = (c, mf) :: rest -> linked ms -> Forall (member_ok d) ms -> Forall (own_member art sid) ms ->
  depth mf = Z.of_nat (length rest) /\ 0 <= total_batches mf <= Z.of_nat (length ms).
Proof.
  revert c mf rest. induction ms as [|mb ms IH]; intros c mf rest [= -> ->] [Ep Hl] Hok Hown.
  apply list.Forall_cons in Hok as [[(Hm & _) _] Hok]. apply list.Forall_cons in Hown as [(_ & _ & _ & _ & Hs) Hown]. cbn [fst snd] in *.
  destruct Hm as (_ & _ & _ & _ & _ & Hp). rewrite Ep in Hp. destruct rest as [|[c' mf'] rest].
  - destruct Hp as (-> & -> & _). cbn. lia.
  - destruct Hp as (_ & -> & -> & _). cbn [lk_depth lk_total_batches link_from].
    destruct (IH c' mf' rest eq_refl Hl Hok Hown) as [-> H]. cbn [length] in *. lia.
Qed.

Context (Hseg : is_u32 (seg_id (segment p))).

Lemma held_ref m hs c a : held p fl (a_data m) hs -> (c, a) ∈ hs -> of_pool p 0 c ->
  is_u64 (bits (PackedRef_from_desc c)) /\ bits (PackedRef_from_desc c) <> 0 /\ PackedRef_offset (PackedRef_from_desc c) = offset c.
Proof.
  intros Hh Hin (Es & _). destruct (held_bounds p fl (a_data m) hs c a Hh Hin) as (Hlo & _ & _ & Hu & _).
  assert (Eo : PackedRef_offset (PackedRef_from_desc c) = offset c) by (apply PackedRef_from_desc_offset; [by rewrite Es|done]).
  split_and!; [|intros E; rewrite PackedRef_offset_lo, E in Eo; change (0 = offset c) in Eo; unfold HEADER_SIZE in Hlo; lia|done].
  unfold PackedRef_from_desc. rewrite PackedRef_pack_join. apply join32_u64; [by rewrite Es|done].
Qed.

(** ** What a commit adds to its staged chunks *)

Definition whole (c : Commit) : Prop := c = Replace \/ c = Append.
Definition appends (c : Commit) (v : Z) : bool := match c with Append => negb (v =? NO_VERSION) | _ => false end.

(** What becomes of the chain behind a commit: kept behind it, or released. *)
Definition behind (c : Commit) (v : Z) (ms : list member) : list member := if appends c v then ms else [].

(** The chain's holdings once an append has its reference on the newest manifest. *)
Definition linked_holds (c : Commit) (v : Z) (ms : list member) : list holding :=
  if appends c v then match ms with [] => [] | mb :: rest => published 2 mb.1 :: (pinned <$> chunks mb.2) ++ chain_holds rest end
  else chain_holds ms.

Lemma chain_holds_cons mb ms : chain_holds (mb :: ms) = pinned mb.1 :: (pinned <$> chunks mb.2) ++ chain_holds ms.
Proof. done. Qed.

Lemma linked_holds_descs c v ms : (linked_holds c v ms).*1 = (chain_holds ms).*1.
Proof. unfold linked_holds. destruct (appends c v); [|done]. destruct ms as [|mb ms]; [done|]. by rewrite chain_holds_cons, !fmap_cons. Qed.

(** [F] is what else the caller holds. *)
Section commit.
Context (art : Artifact) (v sid0 sid : Z) (c : Commit) (ms : list member) (staged : list ChunkDesc) (F : list holding).
Context (Hc : whole c).

Lemma behind_head : newest_is v ms -> appends c v = true -> exists mb rest, ms = mb :: rest /\ v <> NO_VERSION /\ Manifest.version mb.2 = v.
Proof.
  unfold appends. intros Hn. destruct c; try done. intros H%negb_true_iff%Z.eqb_neq. destruct ms as [|mb rest]; [done|]. by exists mb, rest.
Qed.

Lemma turns_prior_refused m : chain_at art v sid0 (a_data m) ms -> manifest_desc (a_head m) = newest_bits ms -> appends c v = true -> sid0 <> sid ->
  turns (prior_part (S fuel) art p v sid c staged) m (Some (Err Unsupported)) ((pinned <$> staged) ++ chain_holds ms ++ F) (chain_holds ms ++ F) (chain_holds ms ++ F).*1.
Proof.
  intros [_ Hok Hown Hn _] Eh Ha Hs. destruct (behind_head Hn Ha) as ([k mf] & rest & -> & Hv & <-). unfold appends in Ha. destruct c; try done.
  apply list.Forall_cons in Hok as [[Hm Eo] _]. apply list.Forall_cons in Hown as [(_ & Eid & Esid & _) _]. cbn [fst snd] in *.
  unfold prior_part. rewrite (proj2 (Z.eqb_neq _ _) Hv). unfold tbind.
  eapply turns_bind with (a := Some (Err Unsupported)) (keep := (chain_holds ((k, mf) :: rest) ++ F).*1); [done| |intros d; apply turns_ret].
  rewrite chain_holds_cons. eapply turns_link_other; [done|done|done|done|congruence].
Qed.

Lemma turns_prior m keep : chain_at art v sid0 (a_data m) ms -> manifest_desc (a_head m) = newest_bits ms -> (appends c v = true -> sid0 = sid) ->
  ms.*1 ⊆ keep ->
  turns (prior_part (S fuel) art p v sid c staged) m (Some (Ok (link_to <$> hd_error (behind c v ms), None)))
    ((pinned <$> staged) ++ chain_holds ms ++ F) ((pinned <$> staged) ++ linked_holds c v ms ++ F) keep.
Proof.
  intros [_ Hok Hown Hn _] Eh Hs Hk. unfold linked_holds, behind. destruct (appends c v) eqn:Ha.
  - destruct (behind_head Hn Ha) as ([k mf] & rest & -> & Hv & <-). unfold appends in Ha. destruct c; try done.
    apply list.Forall_cons in Hok as [[Hm Eo] _]. apply list.Forall_cons in Hown as [(_ & Eid & Esid & _) _]. cbn [fst snd] in *.
    unfold prior_part. rewrite (proj2 (Z.eqb_neq _ _) Hv). unfold tbind. rewrite chain_holds_cons. cbn [fst snd].
    eapply turns_bind with (a := Some (Ok (link_to (k, mf)))); [reflexivity| |intros d; apply turns_ret]. eapply turns_perm; [symmetry; apply Permutation_middle|symmetry; apply Permutation_middle|].
    eapply turns_link; [done|done|done|done|rewrite <- Hs; congruence|]. apply Hk. by left.
  - destruct Hc as [-> | ->]; [apply turns_ret|]. unfold appends in Ha. apply negb_false_iff in Ha. unfold prior_part. rewrite Ha. apply turns_ret.
Qed.

(** The rollback of a commit that could not stage its manifest. *)
Lemma turns_undo m : chain_at art v sid0 (a_data m) ms ->
  turns (rollback_staged (S fuel) p staged (link_to <$> hd_error (behind c v ms)) [] None None) m (Some tt)
    ((pinned <$> staged) ++ linked_holds c v ms ++ F) (chain_holds ms ++ F) (chain_holds ms ++ F).*1.
Proof.
  intros [_ Hok _ Hn _]. unfold linked_holds, behind. destruct (appends c v) eqn:Ha; [|apply turns_rollback].
  destruct (behind_head Hn Ha) as ([k mf] & rest & -> & Hv & <-). apply list.Forall_cons in Hok as [[Hm Eo] _].
  rewrite chain_holds_cons. cbn [fst snd hd_error fmap option_fmap option_map].
  eapply turns_perm; [symmetry; apply Permutation_middle|reflexivity|]. rewrite <- !app_comm_cons, fmap_cons. by apply turns_rollback_link.
Qed.

(** The reference the old version gives back. *)
Lemma turns_release_old m : chain_at art v sid0 (a_data m) ms -> v <> NO_VERSION -> (length ms <= S fuel)%nat ->
  turns (release_manifest_ref (S fuel) p (mkPackedRef (newest_bits ms)) None) m (Some tt)
    ((pinned <$> staged) ++ linked_holds c v ms ++ F) ((pinned <$> staged) ++ chain_holds (behind c v ms) ++ F)
    (staged ++ (chain_holds (behind c v ms) ++ F).*1).
Proof.
  intros [Hl Hok _ Hn _] Hv Hfuel. destruct ms as [|[k mf] rest] eqn:Ems; [done|]. rewrite <- Ems in *.
  pose proof Hok as Hok'. rewrite Ems in Hok'. apply list.Forall_cons in Hok' as [[Hm Eo] _]. cbn [fst snd] in Hm, Eo.
  assert (Eb : mkPackedRef (newest_bits ms) = PackedRef_from_desc k) by (rewrite Ems; apply packed_bits). rewrite Eb.
  unfold linked_holds, behind. destruct (appends c v) eqn:Ha.
  - rewrite Ems, chain_holds_cons. cbn [fst snd]. eapply turns_perm; [symmetry; apply Permutation_middle|symmetry; apply Permutation_middle|].
    change (pinned k) with (published (2 - 1) k). by eapply turns_release_shared.
  - cbn [chain_holds fmap list_fmap concat app].
    replace (staged ++ F.*1) with ((pinned <$> staged) ++ F).*1 by (by rewrite fmap_app, fst_pinned).
    eapply turns_perm; [apply Permutation_app_swap_app|reflexivity|]. rewrite Ems in *. unfold release_manifest_ref. by apply turns_cascade.
Qed.
End commit.

(** ** The old version retires *)

Lemma run_retire inc v b i v' b' lease sch' d js ev hs hs' keep : (i < 2)%nat -> v <> NO_VERSION -> v' <> NO_VERSION -> v' <> v ->
  held p fl d hs ->
  (forall h, turns (release_manifest_ref (S fuel) p (mkPackedRef b) None) (mkArtMem h d js ev) (Some tt) hs hs' keep) ->
  exists d', run (try_retire_version_at (S fuel) v (Some b)) (mkArtMem (mkHead HEAD_MAGIC v' b' lease sch' inc (both v b i v' b')) d js ev)
      = Some (Some (Ok tt), mkArtMem (idle lease inc v' b' sch' 0 (next_slot v i)) d' js ev) /\ held p fl d' hs' /\ keeps keep d d'.
Proof.
  intros Hi Hv Hv' Hne Hh Hrel. unfold try_retire_version_at. cbn [loop]. unfold fbind at 1, slot_of. rewrite run_bind.
  rewrite run_bind, run_on_head. mem. rewrite (run_find_old inc v b i Hi v' Hv Hv' Hne). mem.
  rewrite run_bind, run_on_head. mem. cbn [load run act retiring current]. rewrite (proj2 (Z.eqb_neq _ _) Hne). mem.
  fold (retiring inc v b i lease v' b' sch' (live_slot v b)).
  rewrite run_bind, run_on_head. mem.
  rewrite (run_retiring inc v b i Hi v' elect_freeing lease b' sch' _ true (mkPinSlot v b 0 SLOT_FREEING)) by done. cbn [negb]. mem.
  rewrite run_bind, run_on_head. mem.
  rewrite (run_retiring inc v b i Hi v' pin_scan lease b' sch' _ 0 (mkPinSlot v b 0 SLOT_FREEING)) by done. cbn [negb Z.eqb]. mem.
  set (h1 := retiring inc v b i lease v' b' sch' (mkPinSlot v b 0 SLOT_FREEING)).
  unfold fbind at 1. rewrite run_bind, (run_attach_pool p fl (mkArtMem h1 d js ev) hs Hh).
  rewrite run_bind, run_on_head. mem. unfold h1 at 1.
  rewrite (run_retiring inc v b i Hi v' (load Head.manifest) lease b' sch' _ b (mkPinSlot v b 0 SLOT_FREEING)) by done. mem.
  fold h1. destruct (Hrel h1 Hh) as (d1 & Hrun & Hh1 & Hk1). unfold fbind at 1. rewrite run_bind, Hrun. mem.
  rewrite run_bind, run_on_head. mem. unfold h1.
  rewrite (run_retiring inc v b i Hi v' store_free lease b' sch' _ tt free_slot) by done. mem.
  rewrite (retired inc v b i Hi v' Hv Hv' Hne). cbn [done run]. eauto.
Qed.

(** ** The installation *)

(** The head's schema id is set by the first commit and never changed. *)
Definition first_schema (sch sid : Z) : Z := if sch =? 0 then sid else sch.

Definition announced (art : Artifact) (v : Z) (c : Commit) : list VersionEvent :=
  if watch art then [event_new (name_id art) v (commit_kind c)] else [].

Lemma run_announce art v c h d js ev :
  run (if watch art then emit (event_new (name_id art) v (commit_kind c)) else Ret tt) (mkArtMem (D := PoolMem) h d js ev)
  = Some (tt, mkArtMem h d js (ev ++ announced art v c)).
Proof. unfold announced. destruct (watch art); cbn; by rewrite ?app_nil_r. Qed.

Lemma run_install art c v sid0 sid ms staged lease b' sch i d js js' ev undo drop_rec F : whole c -> (i < 2)%nat -> 0 <= v < U64_MAX ->
  chain_at art v sid0 d ms -> (length ms <= S fuel)%nat -> held p fl d ((pinned <$> staged) ++ linked_holds c v ms ++ F) ->
  (forall h d ev, run drop_rec (mkArtMem h d js ev) = Some (tt, mkArtMem h d js' ev)) ->
  exists d', run (install (S fuel) art c v sid b' undo drop_rec)
      (mkArtMem (mkHead HEAD_MAGIC v (newest_bits ms) lease sch (art_incarnation art) (both v (newest_bits ms) i (v + 1) b')) d js ev)
      = Some (Some (Ok (v + 1)), mkArtMem (idle lease (art_incarnation art) (v + 1) b' (first_schema sch sid) 0 (next_slot v i)) d' js' (ev ++ announced art (v + 1) c)) /\
    held p fl d' ((pinned <$> staged) ++ chain_holds (behind c v ms) ++ F) /\ keeps (staged ++ (chain_holds (behind c v ms) ++ F).*1) d d'.
Proof.
  intros Hc Hi Hv Hch Hfuel Hh Hdrop. unfold install. rewrite wrap64_id by mach.
  rewrite run_bind, run_on_head. mem. cbn [load run act manifest_desc]. mem.
  rewrite run_bind, run_on_head. mem. cbn [cas run act current]. rewrite Z.eqb_refl. unfold set_current. cbn [fst magic manifest_desc write_lease schema_id head_incarnation pin_table]. mem.
  rewrite run_bind, run_on_head. mem. cbn [store run act]. unfold set_manifest_desc. cbn [magic current write_lease schema_id head_incarnation pin_table]. mem.
  rewrite run_bind, run_on_head. mem.
  assert (Esch : exists r, run (cas Head.schema_id set_schema_id 0 sid) (mkHead HEAD_MAGIC (v + 1) b' lease sch (art_incarnation art) (both v (newest_bits ms) i (v + 1) b'))
    = Some (r, mkHead HEAD_MAGIC (v + 1) b' lease (first_schema sch sid) (art_incarnation art) (both v (newest_bits ms) i (v + 1) b'))).
  { unfold first_schema. cbn. by destruct (sch =? 0); eexists. }
  destruct Esch as [r Er]. rewrite Er. mem.
  assert (Hret : exists d', run (if v =? NO_VERSION then done tt else _ <-- try_retire_version_at (S fuel) v (Some (newest_bits ms)) ;; done tt)
      (mkArtMem (mkHead HEAD_MAGIC (v + 1) b' lease (first_schema sch sid) (art_incarnation art) (both v (newest_bits ms) i (v + 1) b')) d js ev)
      = Some (Some tt, mkArtMem (idle lease (art_incarnation art) (v + 1) b' (first_schema sch sid) 0 (next_slot v i)) d' js ev) /\
    held p fl d' ((pinned <$> staged) ++ chain_holds (behind c v ms) ++ F) /\ keeps (staged ++ (chain_holds (behind c v ms) ++ F).*1) d d').
  { destruct (Z.eqb_spec v NO_VERSION) as [E|Hne].
    - exists d. rewrite (slots_first v (newest_bits ms) i (v + 1) b' E) by (unfold NO_VERSION; lia). split_and!; [done| |apply keeps_refl].
      assert (Ems : ms = []) by (destruct ms as [|mb rest]; [done|]; destruct (ca_newest _ _ _ _ _ Hch) as [? _]; done).
      unfold linked_holds, behind in *. rewrite Ems in *. by destruct (appends c v).
    - destruct (run_retire (art_incarnation art) v (newest_bits ms) i (v + 1) b' lease (first_schema sch sid) d js ev
        ((pinned <$> staged) ++ linked_holds c v ms ++ F) ((pinned <$> staged) ++ chain_holds (behind c v ms) ++ F)
        (staged ++ (chain_holds (behind c v ms) ++ F).*1))
        as (d' & Hrun & Hd'); [done|done|unfold NO_VERSION; lia|lia|done| |].
      { intros h. by apply (turns_release_old art v sid0 c ms staged F (mkArtMem h d js ev)). }
      exists d'. split; [|done]. unfold fbind. by rewrite run_bind, Hrun. }
  destruct Hret as (d' & Hrun & Hd'). exists d'. split; [|done]. unfold fbind at 1. rewrite run_bind, Hrun.
  rewrite run_bind, run_announce. by rewrite run_bind, Hdrop.
Qed.

(** ** A commit of staged chunks *)

Section staged.
Context (art : Artifact) (owner f v sid0 sid sch : Z) (i : nat) (c : Commit) (ms : list member) (js : list JournalMem) (ev : list VersionEvent).
(** What else the caller holds; the journals between its operations. *)
Context (F : list holding) (J : list JournalMem -> Prop) (journal : option jref).

(** The head of the artifact while the caller holds the lease. *)
Definition leased (v b sch : Z) (i : nat) : ArtifactHead := idle (pack_lease owner f) (art_incarnation art) v b sch 0 i.

(** What a commit leaves: a new version in front of the chain, or everything as it was. *)
Definition committed (staged : list ChunkDesc) (spans : list Z) (d : PoolMem) (r : result ArtifactError Z) (m' : M) : Prop :=
  match r with
  | Ok v' => v' = v + 1 /\ (appends c v = true -> sid0 = sid) /\ exists k d' js',
      let ms' := (k, next_manifest art (v + 1) sid staged spans (hd_error (behind c v ms))) :: behind c v ms in
      m' = mkArtMem (leased (v + 1) (newest_bits ms') (first_schema sch sid) (next_slot v i)) d' js' (ev ++ announced art (v + 1) c) /\ J js' /\
      held p fl d' (chain_holds ms' ++ F) /\ chain_at art (v + 1) sid d' ms' /\ keeps (staged ++ (chain_holds (behind c v ms) ++ F).*1) d d'
  | Err e => exists d', m' = mkArtMem (leased v (newest_bits ms) sch i) d' js ev /\ held p fl d' (chain_holds ms ++ F) /\
      chain_at art v sid0 d' ms /\ keeps (chain_holds ms ++ F).*1 d d' /\ (no_room e \/ e = Unsupported /\ appends c v = true /\ sid0 <> sid)
  end.

Context (Hname : is_u32 (name_id art)) (Howner : is_u32 owner) (Hsid : is_u32 sid) (Hc : whole c) (Hi : (i < 2)%nat).
Context (Hv : 0 <= v < U32_MAX) (Hfuel : v <= Z.of_nat fuel).
Context (Hrec : forall h d ev bits g, exists rec js1 js2,
  run (record_staged (S fuel) art journal bits g) (mkArtMem h d js ev) = Some (Some rec, mkArtMem (D := PoolMem) h d js1 ev) /\
  (forall h d ev, run (drop_record journal rec) (mkArtMem (D := PoolMem) h d js1 ev) = Some (tt, mkArtMem h d js2 ev)) /\ J js2).

Lemma behind_chain d : chain_at art v sid0 d ms -> (appends c v = true -> sid0 = sid) ->
  linked (behind c v ms) /\ Forall (member_ok d) (behind c v ms) /\ Forall (own_member art sid) (behind c v ms) /\
  Z.of_nat (length (behind c v ms)) <= v.
Proof.
  intros [H1 H2 H3 H4 H5] Hs. unfold behind. destruct (appends c v); [rewrite <- Hs by done; done|]. split_and!; [done|constructor|constructor|cbn; lia].
Qed.

Lemma behind_linkable m hs mb : chain_at art v sid0 (a_data m) ms -> held p fl (a_data m) hs -> chain_holds ms ⊆ hs ->
  hd_error (behind c v ms) = Some mb -> linkable (v + 1) mb.
Proof.
  intros Hch Hh Hsub. unfold behind. destruct (appends c v) eqn:Ha; [|done]. destruct ms as [|[k mf] rest] eqn:Ems; [done|]. intros [= <-].
  destruct Hch as [Hl Hok Hown [Hv0 Hn] Hlen]. destruct (chain_counts _ _ k mf rest art sid0 eq_refl Hl Hok Hown) as [Hd Ht].
  apply list.Forall_cons in Hown as [(Hof & _) _]. cbn [fst snd] in *.
  assert (Hin : pinned k ∈ hs) by (apply Hsub; by left).
  destruct (held_ref m hs k _ Hh Hin Hof) as (H1 & H2 & _). destruct (held_wf p fl _ hs k _ Hh Hin) as (_ & Hg & _). unfold linkable. cbn [fst snd].
  cbn [length] in Hlen, Ht. unfold NO_VERSION in *. split_and!; try done; try lia; try (rewrite Hd; mach); mach.
Qed.

Lemma behind_descs : (chain_holds (behind c v ms)).*1 ⊆ (chain_holds ms).*1.
Proof. unfold behind. destruct (appends c v); [done|cbn; set_solver]. Qed.

(** The new version's manifest in front of what stays behind it. *)
Lemma committed_chain d d' k staged spans hs : chain_at art v sid0 d ms -> (appends c v = true -> sid0 = sid) ->
  keeps (k :: staged ++ (chain_holds (behind c v ms)).*1) d d' -> held p fl d' (pinned k :: hs) -> of_pool p 0 k -> (length spans <= 1)%nat ->
  let mf := next_manifest art (v + 1) sid staged spans (hd_error (behind c v ms)) in
  holds_manifest d k mf -> chain_at art (v + 1) sid d' ((k, mf) :: behind c v ms).
Proof.
  intros Hch Hs Hk Hh Hof Hl1 mf Hmf. destruct (behind_chain d Hch Hs) as (H1 & H2 & H3 & H4).
  assert (Hsub : (behind c v ms).*1 ⊆ k :: staged ++ (chain_holds (behind c v ms)).*1).
  { pose proof (chain_holds_descs (behind c v ms)). set_solver. }
  split.
  - split; [|done]. unfold mf, next_manifest. cbn [prev]. by destruct (behind c v ms) as [|[k' mf'] rest].
  - constructor; [|by eapply member_ok_keeps]. split; [eapply holds_manifest_keeps; [exact Hk|by left|done]|].
    by destruct (held_ref (mkArtMem fresh d' [] []) _ k _ Hh ltac:(by left) Hof) as (_ & _ & ?).
  - constructor; [|done]. done.
  - split; [unfold NO_VERSION; lia|done].
  - cbn [length]. lia.
Qed.

Lemma run_commit_staged d staged spans : chain_at art v sid0 d ms -> held p fl d ((loaned owner <$> staged) ++ chain_holds ms ++ F) ->
  Forall desc_wf staged -> Z.of_nat (length staged) < U32_MOD -> Forall is_u32 spans -> (length spans <= 1)%nat ->
  exists r m', run (commit_staged_inner_j (S fuel) art v owner c staged spans sid (Some f) journal)
      (mkArtMem (leased v (newest_bits ms) sch i) d js ev) = Some (Some r, m') /\ committed staged spans d r m'.
Proof.
  intros Hch Hh Hwf Hls Hsp Hl1. unfold commit_staged_inner_j. set (m0 := mkArtMem _ d js ev).
  assert (Hlink : forall mb, hd_error (behind c v ms) = Some mb -> linkable (v + 1) mb).
  { intros mb. eapply (behind_linkable m0); [done|exact Hh|set_solver]. }
  assert (Hm : forall X : prog M (option (result ArtifactError Z)),
    match c with Patch _ _ => done (Err Unsupported) | _ => X end = X) by (intros X; destruct Hc; by subst c).
  unfold tbind at 1, check_live. rewrite !run_bind, (run_head_read _ m0 true) by apply run_incarnation. cbn [run done]. rewrite Hm.
  unfold tbind at 1. rewrite run_bind, (run_attach_pool p fl m0 _ Hh).
  rewrite run_bind, (run_head_read _ m0 true) by apply run_held_by. cbn [negb].
  destruct (turns_publish_all p fl fuel m0 owner [] staged (chain_holds ms ++ F) (staged ++ (chain_holds ms ++ F).*1) Hh) as (d1 & Hrun1 & Hh1 & Hk1).
  unfold tbind at 1. rewrite run_bind, Hrun1. cbn beta iota.
  assert (Hch1 : chain_at art v sid0 d1 ms).
  { eapply chain_at_keeps; [exact Hk1| |exact Hch]. rewrite ?fmap_app. pose proof (chain_holds_descs ms). set_solver. }
  destruct (decide (appends c v = true /\ sid0 <> sid)) as [[Ha Hne]|Hsame].
  { destruct (turns_prior_refused art v sid0 sid c ms staged F Hc (with_data d1 m0) Hch1 eq_refl Ha Hne Hh1) as (d2 & Hrun2 & Hh2 & Hk2).
    unfold tbind at 1. rewrite run_bind, Hrun2. exists (Err Unsupported), (mkArtMem (leased v (newest_bits ms) sch i) d2 js ev).
    split; [done|]. exists d2. split_and!; [done|done| | |by right].
    - eapply chain_at_keeps; [exact Hk2| |exact Hch1]. rewrite fmap_app. pose proof (chain_holds_descs ms). set_solver.
    - eapply keeps_trans; [|exact Hk2]. eapply keeps_sub; [|exact Hk1]. set_solver. }
  assert (Hs : appends c v = true -> sid0 = sid) by (intros; destruct (decide (sid0 = sid)); naive_solver).
  destruct (turns_prior art v sid0 sid c ms staged F Hc (with_data d1 m0) (staged ++ (chain_holds ms ++ F).*1) Hch1 eq_refl Hs) as (d2 & Hrun2 & Hh2 & Hk2); [|exact Hh1|].
  { rewrite fmap_app. rewrite ?fmap_app. pose proof (chain_holds_descs ms). set_solver. }
  unfold tbind at 1. rewrite run_bind, Hrun2. cbn beta iota. cbn [default option_fmap option_map own_lists w_chunks].
  assert (Hk12 : keeps (staged ++ (chain_holds ms ++ F).*1) d d2) by (eapply keeps_trans; [exact Hk1|exact Hk2]).
  destruct (next_manifest_ok art (v + 1) sid staged spans (hd_error (behind c v ms)) Hname ltac:(mach) ltac:(lia) Hsid Hwf Hls Hsp Hl1 Hlink) as (Hmok & Hmw & Hmh).
  set (mf := next_manifest art (v + 1) sid staged spans (hd_error (behind c v ms))) in *.
  destruct (run_stage_manifest p fl fuel (with_data d2 (with_data d1 m0)) _ mf (link_to <$> hd_error (behind c v ms)) owner Hh2 Howner Hmok Hmw eq_refl Hmh)
    as (r & d3 & Hrun3 & Hr).
  rewrite wrap64_id by mach. cbn [fmap option_fmap option_map]. unfold fbind at 1. rewrite run_bind.
  replace (run (stage_chunk _ _ _ _) _) with (Some (Some r, with_data d3 (with_data d2 (with_data d1 m0)))) by (symmetry; exact Hrun3).
  assert (Hch2 : chain_at art v sid0 d2 ms).
  { eapply chain_at_keeps; [exact Hk12| |exact Hch]. rewrite ?fmap_app. pose proof (chain_holds_descs ms). set_solver. }
  destruct r as [k|e].
  2: { destruct Hr as [-> He]. destruct (turns_undo art v sid0 c ms staged F Hc (with_data d2 (with_data d1 m0)) Hch2 Hh2) as (d4 & Hrun4 & Hh4 & Hk4).
    change (with_data (a_data (with_data d2 (with_data d1 m0))) (with_data d2 (with_data d1 m0))) with (with_data d2 (with_data d1 m0)).
    unfold fail_with, fbind. rewrite run_bind, Hrun4.
    exists (Err e), (mkArtMem (leased v (newest_bits ms) sch i) d4 js ev). split; [done|]. exists d4. split_and!; [done|done| | |by left].
    - eapply chain_at_keeps; [exact Hk4| |exact Hch2]. rewrite fmap_app. pose proof (chain_holds_descs ms). set_solver.
    - eapply keeps_trans; [|exact Hk4]. eapply keeps_sub; [|exact Hk12]. set_solver. }
  destruct Hr as (Hh3 & Hof & Hk3 & Hmf). set (b' := PackedRef_to_bits (PackedRef_from_desc k)).
  assert (Hch3 : chain_at art v sid0 d3 ms).
  { eapply chain_at_keeps; [exact Hk3| |exact Hch2]. rewrite !fmap_app, linked_holds_descs. pose proof (chain_holds_descs ms). set_solver. }
  destruct (Hrec (leased v (newest_bits ms) sch i) d3 ev b' (ChunkDesc.generation k)) as (rec & js1 & js2 & Hrec1 & Hdrop & HJ).
  unfold fbind at 1. rewrite run_bind. unfold m0. mem. fold b'. rewrite Hrec1.
  rewrite run_bind, run_on_head. mem. unfold leased. rewrite (run_claim_next _ v (newest_bits ms) sch i Hi). mem.
  rewrite run_bind. unfold set_pin_table, idle. cbn [magic current manifest_desc write_lease schema_id head_incarnation].
  rewrite (run_head_read _ _ true) by (cbn; by rewrite Z.eqb_refl). cbn [negb].
  edestruct (run_install art c v sid0 sid ms (k :: staged) (pack_lease owner f) b' sch i d3 js1 js2 ev) as (d4 & Hrun4 & Hh4 & Hk4); [done|done|mach|done| |exact Hh3|exact Hdrop|].
  { pose proof (ca_length _ _ _ _ _ Hch). lia. }
  rewrite Hrun4. eexists (Ok (v + 1)), _. split; [reflexivity|]. split_and!; [done|done|]. exists k, d4, js2. cbv zeta. fold mf.
  split_and!; [reflexivity|exact HJ|by rewrite chain_holds_cons, <- app_comm_cons, <- app_assoc| |].
  - eapply (committed_chain d3); [exact Hch3|exact Hs|eapply keeps_sub; [|exact Hk4]; rewrite fmap_app; set_solver|exact Hh4|exact Hof|exact Hl1|exact Hmf].
  - eapply keeps_trans; [eapply keeps_sub; [|exact Hk12]|eapply keeps_trans; [eapply keeps_sub; [|exact Hk3]|eapply keeps_sub; [|exact Hk4]]].
    all: rewrite ?fmap_app, ?linked_holds_descs, ?fst_pinned; pose proof (behind_descs); set_solver.
Qed.
End staged.
End table.

(** * The batches of a version

    A sequential caller's versions hold Arrow batches: a commit writes a batch into chunks,
    loans them and installs a manifest over them; a pinned version is
    rebuilt from its chain of manifests.  Chunks a version holds read back as its batches
    for as long as it holds them. *)

Section rows.
Context `{ArrowLib} `{!ArrowLaws} (p : Pool) (fl : list (list Z)) (fuel : nat).
#[local] Hint Extern 0 (DataSeg _) => exact (pool_data (segment p)) : typeclass_instances.
#[local] Abbreviation M := (ArtMem PoolMem).
#[local] Abbreviation turns := (ArtifactChunks.turns p fl).
Implicit Types (m : M) (hs : list holding) (keep : list ChunkDesc) (b : RecordBatch).

Lemma reads_back_keeps ds d d' sid b keep : keeps keep d d' -> ds ⊆ keep -> reads_back p d ds sid b -> reads_back p d' ds sid b.
Proof.
  intros Hk Hs Hr m2 reg gs [Hw Hf] Hreg. apply Hr; [|done]. split; [|done]. rewrite list.Forall_forall in *.
  intros c Hc. rewrite (Hw c Hc). exact (Hk c (Hs c Hc)).
Qed.

(** ** Writing *)

Lemma held_write_chunks m hs sid b : held p fl (a_data m) hs -> batch_ok b -> is_u32 sid ->
  exists r d, run (on_data (write_chunks_as p (S fuel) sid b)) m = Some (Some r, with_data d m) /\ keeps hs.*1 (a_data m) d /\
    match r with
    | Err _ => held p fl d hs
    | Ok ds => exists as_, held p fl d (zip ds as_ ++ hs) /\ Forall2 fresh_state ds as_ /\ ds <> [] /\ Z.of_nat (length ds) < U32_MOD /\
        Forall (of_pool p sid) ds /\ reads_back p d ds sid b
    end.
Proof.
  intros (Ha & xs & Hd & Hs & Hr) Hb Hsid.
  destruct (run_write_chunks p fl hs.*1 xs (a_data m) fuel sid b Hd Hb Hsid) as (r & d & Hrun & Hset & Hk & Hw).
  exists r, d. rewrite run_on_data, Hrun. split_and!; [done|done|]. destruct r as [ds|e].
  - destruct Hw as (ys & Hdr & Hcur & Hne & Hl & Hof & Hrb).
    destruct (held_more p fl (a_data m) d hs ds xs ys Ha Hs Hr Hset Hdr Hcur) as (as_ & Hh & Hfree & Hgen).
    exists as_. split_and!; try done. apply Forall2_same_length_lookup. split; [by eapply Forall2_length|]. intros k c a Hc Hka.
    split; [exact (proj1 (list.Forall_lookup _ _) Hfree k a Hka)|]. exact (Forall2_lookup_lr _ _ _ _ _ _ Hgen Hc Hka).
  - destruct (held_more p fl (a_data m) d hs [] xs [] Ha Hs Hr Hset) as (as_ & Hh & _); [by rewrite !app_nil_r|constructor|exact Hh].
Qed.

Context (Hseg : is_u32 (seg_id (segment p))).

Lemma fresh_descs_wf d hs ds as_ sid : held p fl d (zip ds as_ ++ hs) -> Forall2 fresh_state ds as_ -> Forall (of_pool p sid) ds -> is_u32 sid ->
  Forall desc_wf ds.
Proof.
  intros Hh Hf Hof Hsid. rewrite list.Forall_lookup in *. intros i c Hc. destruct (Forall2_lookup_l _ _ _ _ _ Hf Hc) as (a & Ha & _ & Eg).
  assert (Hin : (c, a) ∈ zip ds as_ ++ hs).
  { apply elem_of_app. left. apply list_elem_of_lookup. exists i. rewrite lookup_zip_with, Hc. cbn. by rewrite Ha. }
  destruct (held_bounds p fl d _ c a Hh Hin) as (_ & _ & _ & Ho & _ & Hl). destruct (held_wf p fl d _ c a Hh Hin) as (_ & Hg & _).
  destruct (Hof i c Hc) as (Es & Esid & Ep). unfold desc_wf. rewrite Es, Esid, Ep, Eg. split_and!; try done; apply zero_u32.
Qed.

(** ** The batch of a manifest *)

Definition holds_row (sid : Z) (d : PoolMem) (mb : member) (ob : option RecordBatch) : Prop :=
  match ob with
  | None => chunks mb.2 = [] /\ batch_spans mb.2 = []
  | Some b => batch_spans mb.2 = [wrap32 (Z.of_nat (length (chunks mb.2)))] /\ Z.of_nat (length (chunks mb.2)) < U32_MOD /\
      chunks mb.2 <> [] /\ reads_back p d (chunks mb.2) sid b
  end.

Lemma member_chunks ms mb : mb ∈ ms -> chunks mb.2 ⊆ (chain_holds ms).*1.
Proof.
  intros Hin c Hc. apply list_elem_of_fmap. exists (pinned c). split; [done|]. unfold chain_holds. apply list_elem_of_In, in_concat.
  exists (holds_of mb). split; apply list_elem_of_In; [by apply list_elem_of_fmap_2|]. right. by apply list_elem_of_fmap_2.
Qed.

Lemma rows_keep sid d d' ms obs keep : keeps keep d d' -> (chain_holds ms).*1 ⊆ keep ->
  Forall2 (holds_row sid d) ms obs -> Forall2 (holds_row sid d') ms obs.
Proof.
  intros Hk Hs Hrs. apply Forall2_same_length_lookup. split; [by eapply Forall2_length|]. intros i mb ob Hm Ho.
  pose proof (Forall2_lookup_lr _ _ _ _ _ _ Hrs Hm Ho) as Hr. destruct ob as [b|]; [|exact Hr].
  destruct Hr as (E1 & E2 & E3 & E4). split_and!; try done. eapply reads_back_keeps; [exact Hk| |done].
  etransitivity; [|exact Hs]. apply member_chunks. by eapply list_elem_of_lookup_2.
Qed.

(** ** A commit of a batch *)

Section commit.
Context (art : Artifact) (owner f v sid0 sid sch : Z) (i : nat) (c : Commit) (ms : list member) (js : list JournalMem) (ev : list VersionEvent).
Context (F : list holding) (J : list JournalMem -> Prop) (journal : option jref).
Context (Hname : is_u32 (name_id art)) (Howner : is_u32 owner) (Hsid : is_u32 sid) (Hc : whole c) (Hi : (i < 2)%nat).
Context (Hv : 0 <= v < U32_MAX) (Hfuel : v <= Z.of_nat fuel).
Context (Hrec : forall h d ev bits g, exists rec js1 js2,
  run (record_staged (S fuel) art journal bits g) (mkArtMem h d js ev) = Some (Some rec, mkArtMem (D := PoolMem) h d js1 ev) /\
  (forall h d ev, run (drop_record journal rec) (mkArtMem (D := PoolMem) h d js1 ev) = Some (tt, mkArtMem h d js2 ev)) /\ J js2).
Context (reg : SchemaRegistry) (b : RecordBatch) (Hb : batch_ok b) (Hreg : intern (batch_schema b) reg = (sid, reg)).
Context (obs : list (option RecordBatch)) (d : PoolMem).
Context (Hch : chain_at p art v sid0 d ms) (Hh : held p fl d (chain_holds ms ++ F)) (Hrows : Forall2 (holds_row sid0 d) ms obs).

Definition behind_rows : list (option RecordBatch) := if appends c v then obs else [].

(** What [commit_inner_j] leaves. *)
Definition committed_row (r : result BatchError Z) (m' : M) : Prop :=
  match r with
  | Ok v' => v' = v + 1 /\ (appends c v = true -> sid0 = sid) /\ exists ms' d' js',
      m' = mkArtMem (leased art owner f (v + 1) (newest_bits ms') (first_schema sch sid) (next_slot v i)) d' js' (ev ++ announced art (v + 1) c) /\ J js' /\
      held p fl d' (chain_holds ms' ++ F) /\ keeps F.*1 d d' /\ chain_at p art (v + 1) sid d' ms' /\ Forall2 (holds_row sid d') ms' (Some b :: behind_rows)
  | Err e => exists d', m' = mkArtMem (leased art owner f v (newest_bits ms) sch i) d' js ev /\ held p fl d' (chain_holds ms ++ F) /\ keeps F.*1 d d' /\
      chain_at p art v sid0 d' ms /\ Forall2 (holds_row sid0 d') ms obs /\
      ((exists ew, e = of_arrow ew) \/ e = OfArtifact Unsupported /\ appends c v = true /\ sid0 <> sid)
  end.

Lemma no_room_write e : no_room e -> exists ew, OfArtifact e = of_arrow ew.
Proof. intros [-> | ->]; [by exists (ACore PoolExhausted)|by exists (ACore LayoutOverflow)]. Qed.

Lemma run_commit_batch : exists r m', run (commit_inner_j (segment p) (S fuel) art v owner c b reg (Some f) journal)
    (mkArtMem (leased art owner f v (newest_bits ms) sch i) d js ev) = Some (Some (reg, r), m') /\ committed_row r m'.
Proof.
  unfold commit_inner_j. set (m0 := mkArtMem _ d js ev).
  assert (Hm : forall X : prog M (option (SchemaRegistry * result BatchError Z)),
    match c with Patch _ _ => done (reg, Err (OfArtifact Manifest.Unsupported)) | _ => X end = X) by (intros X; destruct Hc; by subst c).
  rewrite Hm. unfold fbind at 1. rewrite run_bind, (run_attach_pool p fl m0 _ Hh), Hreg. unfold write_batch_chunks. rewrite Hreg.
  destruct (held_write_chunks m0 (chain_holds ms ++ F) sid b Hh Hb Hsid) as (r & d1 & Hrun1 & Hk1 & Hr). unfold fbind at 1. rewrite run_bind, Hrun1.
  assert (Hch1 : chain_at p art v sid0 d1 ms) by (eapply chain_at_keeps; [exact Hk1|rewrite fmap_app; pose proof (chain_holds_descs ms); set_solver|exact Hch]).
  assert (Hrows1 : Forall2 (holds_row sid0 d1) ms obs) by (eapply rows_keep; [exact Hk1|rewrite fmap_app; set_solver|done]).
  destruct r as [ds|e].
  2: { eexists (Err (of_arrow e)), _. split; [reflexivity|]. exists d1. split_and!; [done|done| |done|done|left; by eexists]. eapply keeps_sub; [|exact Hk1]. rewrite fmap_app. set_solver. }
  destruct Hr as (as_ & Hh1 & Hf & Hne & Hl & Hof & Hrb). pose proof (fresh_descs_wf d1 _ ds as_ sid Hh1 Hf Hof Hsid) as Hwf.
  destruct (turns_loan_from p fl fuel (with_data d1 m0) owner [] ds as_ ds (chain_holds ms ++ F) (ds ++ (chain_holds ms ++ F).*1) Howner Hf Hh1) as (d2 & Hrun2 & Hh2 & Hk2).
  unfold loan_all, fbind at 1. rewrite run_bind, Hrun2. cbn beta iota.
  assert (Hch2 : chain_at p art v sid0 d2 ms).
  { eapply chain_at_keeps; [exact Hk2| |exact Hch1]. rewrite fmap_app. pose proof (chain_holds_descs ms). set_solver. }
  destruct (run_commit_staged p fl fuel Hseg art owner f v sid0 sid sch i c ms js ev F J journal Hname Howner Hsid Hc Hi Hv Hfuel Hrec d2 ds
    [wrap32 (Z.of_nat (length ds))] Hch2 Hh2 Hwf Hl) as (r & m' & Hrun3 & Hcom); [constructor; [apply wrap32_u32|constructor]|done|].
  unfold fbind at 1. rewrite run_bind.
  change (with_data d2 (with_data d1 m0)) with (mkArtMem (leased art owner f v (newest_bits ms) sch i) d2 js ev). rewrite Hrun3.
  exists (map_err OfArtifact r), m'. split; [done|].
  assert (Hrows2 : Forall2 (holds_row sid0 d2) ms obs) by (eapply rows_keep; [exact Hk2|rewrite fmap_app; set_solver|exact Hrows1]).
  assert (Hrb2 : reads_back p d2 ds sid b) by (eapply reads_back_keeps; [exact Hk2|set_solver|exact Hrb]).
  destruct r as [v'|e]; cbn [committed map_err] in Hcom |- *.
  - destruct Hcom as (-> & Hs & k & d3 & js' & -> & HJ & Hh3 & Hch3 & Hk3). split_and!; [done|done|].
    eexists _, d3, js'. split_and!; [done|exact HJ|exact Hh3| |exact Hch3|].
    { eapply keeps_trans; [|eapply keeps_trans; [|eapply keeps_sub; [|exact Hk3]]; [eapply keeps_sub; [|exact Hk2]|]]; [eapply keeps_sub; [|exact Hk1]|..]; rewrite ?fmap_app; set_solver. }
    constructor.
    + split_and!; [done|done|done|]. eapply reads_back_keeps; [exact Hk3|set_solver|exact Hrb2].
    + assert (Hb3 : Forall2 (holds_row sid d2) (behind c v ms) behind_rows).
      { unfold behind, behind_rows. destruct (appends c v); [by rewrite <- (Hs eq_refl)|constructor]. }
      eapply rows_keep; [exact Hk3|rewrite fmap_app; set_solver|exact Hb3].
  - destruct Hcom as (d3 & -> & Hh3 & Hch3 & Hk3 & He). exists d3. split_and!; [done|done| |done| |].
    + eapply keeps_trans; [|eapply keeps_trans; [|eapply keeps_sub; [|exact Hk3]]; [eapply keeps_sub; [|exact Hk2]|]]; [eapply keeps_sub; [|exact Hk1]|..]; rewrite ?fmap_app; set_solver.
    + eapply rows_keep; [exact Hk3|rewrite fmap_app; set_solver|exact Hrows2].
    + destruct He as [He|(-> & ? & ?)]; [left; by apply no_room_write|by right].
Qed.
End commit.

(** ** Walking the chain *)

Lemma turns_ctrl_read {A} m c a hs d' (q : prog ChunkCtrl A) r keep : (c, a) ∈ hs -> offset d' = offset c ->
  run q (concrete a) = Some (r, concrete a) -> turns (on_data (d_ctrl p d' q)) m (Ok r) hs hs keep.
Proof.
  intros [hs' Hp]%elem_of_Permutation Eo Hq. eapply turns_perm; [exact Hp|exact Hp|]. apply turns_wf. intros Hw. by apply turns_ctrl.
Qed.

Lemma turns_read_link m mb hs keep : member_ok (a_data m) mb -> pinned mb.1 ∈ hs -> mb.1 ∈ keep ->
  turns (read_link p (artifact_id mb.2) (link_to mb)) m (Ok mb.2) hs hs keep.
Proof.
  intros [Hm Eo] Hin Hk. unfold read_link, link_to. cbn [lk_mref lk_generation lk_version link_from].
  eapply (turns_bind_keeps p fl _ _ _ (Ok (ChunkDesc.generation mb.1)) _ _ _ _ keep); [done|by eapply turns_ctrl_read|]. intros d1 Hk1.
  cbn beta iota. rewrite Z.eqb_refl. cbn [negb]. eapply (turns_read_checked p fl _ mb.1); [by eapply holds_manifest_keeps|exact Hin|exact Eo].
Qed.

(** Nothing stops the walk early. *)
Definition no_stop (x : unit) (_ : Manifest) : unit * bool := (x, false).

Lemma turns_walk art sid head ms m mb rest hs keep : artifact_id head = name_id art -> mf_schema_id head = sid -> ms = mb :: rest ->
  linked ms -> Forall (member_ok (a_data m)) ms -> Forall (own_member p art sid) ms -> chain_holds ms ⊆ hs -> ms.*1 ⊆ keep ->
  turns (walk_from head (read_link p (name_id art)) no_stop (length rest) tt mb.2) m (Ok (snd <$> ms)) hs hs keep.
Proof.
  intros Ea Es. revert m mb rest. induction ms as [|mb' ms IH]; intros m mb rest [= -> ->] Hl Hok Hown Hin Hk.
  destruct mb as [c mf]. destruct Hl as [Ep Hl]. apply list.Forall_cons in Hok as [[(Hm & Hw & _) _] Hok]. apply list.Forall_cons in Hown as [(_ & Eid & Esid & _ & Hsp) Hown].
  cbn [fst snd] in *. destruct Hm as (_ & _ & _ & _ & _ & Hp). unfold writable in Hw. rewrite !andb_true_iff in Hw. destruct Hw as [_ Hw].
  rewrite Ep in Hp, Hw. rewrite fmap_cons.
  assert (Hu : try_u32 (length (batch_spans mf)) = Some (Z.of_nat (length (batch_spans mf)))) by (unfold try_u32; by rewrite (proj2 (Z.ltb_lt _ _)) by mach).
  destruct rest as [|[c' mf'] rest]; cbn [walk_from length snd]; rewrite Hu, Eid, Ea, Esid, Es, !Z.eqb_refl; cbn [negb orb]; rewrite Ep.
  - destruct Hp as (-> & -> & _). rewrite Z.ltb_irrefl, !Z.eqb_refl. cbn. apply turns_ret.
  - destruct Hp as (Hlk & Ed & Et & _). cbn [lk_depth lk_total_batches lk_version link_from] in Ed, Et, Hw.
    rewrite !andb_true_iff, Z.ltb_lt in Hw. destruct Hw as (((Hv & _) & _) & _).
    destruct Hlk as (_ & _ & _ & Hd0 & Ht0). cbn [lk_depth lk_total_batches link_from] in Hd0, Ht0.
    rewrite (proj2 (Z.ltb_ge _ _)) by mach. rewrite (proj2 (Z.eqb_neq (depth mf) 0)) by mach.
    cbn [lk_depth lk_total_batches lk_version link_from length no_stop]. rewrite (proj2 (Z.leb_gt _ _)) by done.
    rewrite (proj2 (Z.eqb_eq (depth mf') (depth mf - 1))) by lia. rewrite (proj2 (Z.eqb_eq (total_batches mf') _)) by lia. cbn [negb orb].
    pose proof Hok as [Hmok _]%list.Forall_cons. pose proof Hown as [(_ & Eid' & _) _]%list.Forall_cons. cbn [fst snd] in Eid'.
    eapply (turns_bind_keeps p fl _ _ _ (Ok mf') _ _ _ _ keep); [done| |].
    { rewrite <- Eid'. apply (turns_read_link m (c', mf')); [done| |].
      - apply Hin. rewrite chain_holds_cons. right. apply elem_of_app. right. by left.
      - apply Hk. rewrite !fmap_cons. right. by left. }
    intros d1 Hk1. rewrite !Z.eqb_refl. cbn [negb orb].
    eapply (turns_bind p fl _ _ _ (Ok (snd <$> (c', mf') :: rest)) _ _ _ _ keep); [done| |].
    { apply (IH (with_data d1 m) (c', mf') rest eq_refl Hl).
      - eapply member_ok_keeps; [exact Hk1| |exact Hok]. rewrite fmap_cons in Hk. set_solver.
      - done.
      - rewrite chain_holds_cons in Hin. set_solver.
      - rewrite fmap_cons in Hk. set_solver. }
    intros d2. apply turns_ret.
Qed.

Lemma turns_chain art v sid m mb rest ps hs keep : chain_at p art v sid (a_data m) (mb :: rest) -> ps_manifest ps = mb.2 ->
  chain_holds (mb :: rest) ⊆ hs -> (mb :: rest).*1 ⊆ keep ->
  turns (chain ps) m (Some (Ok (rev (snd <$> mb :: rest)))) hs hs keep.
Proof.
  intros [Hl Hok Hown _ _] Eps Hin Hk. destruct mb as [c mf]. destruct (chain_counts p _ _ c mf rest art sid eq_refl Hl Hok Hown) as [Hd _].
  pose proof Hown as [(_ & Eid & Esid & _) _]%list.Forall_cons. cbn [fst snd] in *.
  assert (Hwalk : turns (walk_chain_with mf (read_link p (name_id art))) m (Ok (rev (snd <$> (c, mf) :: rest))) hs hs keep).
  { unfold walk_chain_with, walk_chain_newest_first. rewrite Hd, Nat2Z.id.
    eapply turns_bind; [reflexivity|by apply (turns_walk art sid mf ((c, mf) :: rest) m (c, mf) rest)|]. intros d1. apply turns_ret. }
  intros Hh. destruct (Hwalk Hh) as (d1 & Hrun & Hh1 & Hk1). exists d1. split; [|done].
  unfold chain, tbind. rewrite run_bind, (run_attach_pool p fl m hs Hh), Eps, Eid, run_bind, Hrun. done.
Qed.

(** ** Rebuilding the batches *)

(** The control word of a chunk that is pinned. *)
Lemma run_ctrl_of m hs c : held p fl (a_data m) hs -> pinned c ∈ hs ->
  exists g, run (ctrl_of p c) m = Some (Some (Ok g), m) /\ fresh_in (a_data m) c g.
Proof.
  intros Hh [hs' Hp]%elem_of_Permutation. destruct (held_located p fl (a_data m) c _ hs' c (held_perm _ _ _ _ _ Hp Hh) eq_refl) as (i & l & g & Hloc & _ & _ & Hg).
  exists g. unfold ctrl_of. rewrite run_bind, run_on_data, Hloc. split; [by destruct m|]. eexists. split; [exact Hg|]. done.
Qed.

Lemma run_ctrls_of m hs ds : held p fl (a_data m) hs -> (forall c, c ∈ ds -> pinned c ∈ hs) ->
  exists gs, run (ctrls_of p ds) m = Some (Some (Ok gs), m) /\ Forall2 (fresh_in (a_data m)) ds gs.
Proof.
  intros Hh. induction ds as [|c ds IH]; intros Hin; [by exists []|].
  destruct (run_ctrl_of m hs c Hh (Hin c ltac:(by left))) as (g & Hrun & Hg). destruct IH as (gs & Hruns & Hgs); [intros e He; apply Hin; by right|].
  exists (g :: gs). split; [|by constructor]. cbn [ctrls_of]. unfold tbind. by rewrite run_bind, Hrun, run_bind, Hruns.
Qed.

(** The registry resolves a version's schema to that of its batches. *)
Definition resolves (reg : SchemaRegistry) (sid : Z) (ob : option RecordBatch) : Prop :=
  forall b, ob = Some b -> registry_resolve sid reg = Some (batch_schema b).

Lemma run_read_group m hs ds sid reg b : held p fl (a_data m) hs -> (forall c, c ∈ ds -> pinned c ∈ hs) -> reads_back p (a_data m) ds sid b ->
  registry_resolve sid reg = Some (batch_schema b) ->
  run (read_group (segment p) p reg ds) m = Some (Some (map_err of_arrow (rebuilt_batch b)), m).
Proof.
  intros Hh Hin Hrb Hreg. destruct (run_ctrls_of m hs ds Hh Hin) as (gs & Hrun & Hgs). unfold read_group, tbind. rewrite run_bind, Hrun.
  rewrite run_bind, run_on_data, (Hrb (a_data m) reg gs); [by destruct m| |done]. split; [by apply Forall_true|done].
Qed.

Lemma run_batches_in m hs ms obs sid reg : held p fl (a_data m) hs -> (forall mb, mb ∈ ms -> (pinned <$> chunks mb.2) ⊆ hs) ->
  Forall2 (holds_row sid (a_data m)) ms obs -> Forall (resolves reg sid) obs ->
  run (batches_in (segment p) p reg (snd <$> ms) 0) m = Some (Some (map_err of_arrow (try_map rebuilt_batch (omap id obs))), m).
Proof.
  intros Hh Hin Hrows. revert Hin. induction Hrows as [|mb ob ms obs Hrow _ IH]; intros Hin Hreg; [done|].
  apply list.Forall_cons in Hreg as [Hreg Hregs]. specialize (IH ltac:(intros e He; apply Hin; by right) Hregs).
  rewrite fmap_cons. cbn [batches_in]. unfold tbind at 1. destruct ob as [b|].
  - destruct Hrow as (Es & Hl & _ & Hrb). rewrite Es. cbn [batches_from Nat.ltb Nat.leb Nat.add].
    rewrite wrap32_id by mach. rewrite Nat2Z.id. unfold slice_get. rewrite decide_True by lia. rewrite drop_0, Nat.sub_0_r, firstn_all.
    assert (Hg : run (read_group (segment p) p reg (chunks mb.2)) m = Some (Some (map_err of_arrow (rebuilt_batch b)), m)).
    { eapply run_read_group; [exact Hh| |exact Hrb|by apply Hreg]. intros c Hc. apply (Hin mb); [by left|]. by apply list_elem_of_fmap_2. }
    unfold tbind at 1. rewrite !run_bind, Hg. cbn [omap list_omap id try_map].
    destruct (rebuilt_batch b) as [b'|e]; [|done]. cbn [map_err rbind]. unfold tbind. cbn [pbind done run]. rewrite run_bind, IH.
    by destruct (try_map rebuilt_batch (omap id obs)).
  - destruct Hrow as [_ Es]. rewrite Es. cbn [batches_from]. rewrite run_bind. cbn [run done]. unfold tbind. rewrite run_bind, IH.
    cbn [omap list_omap id]. by destruct (try_map rebuilt_batch (omap id obs)).
Qed.
End rows.
