(* ===== verification/CatalogIdle.v ===== *)
(** * The catalog of a sequential caller

    What the catalog holds between the operations of a single caller: the live entries by
    key, the free indices on the free list, and never-used indices above the high-water
    mark; during an operation one index may be in that operation's hands.  What each
    routine of the catalog makes of such a state. *)

From S2P Require Import Prelude Atomic ChunkDesc Treiber TreiberConc Manifest Catalog CatalogConc.

(** What the catalog says of an entry: its index, its incarnation, its kind. *)
Abbreviation listing := (Z * Z * RefKind)%type.
Definition l_idx (l : listing) : Z := l.1.1.

Section idle.
Context (c stride base : Z) (Hc : 0 <= c < U32_MAX).

(** The artifact and the head of index [i]. *)
Definition aid_of (i : Z) : Z := wrap32 (base + i).
Definition off_of (i : Z) : Z := wrap32 (i * stride).

Definition listed (k : Z) (l : listing) (n : Z) : CatalogSlot :=
  let '(i, g, kd) := l in Catalog.mkSlot k (aid_of i) (off_of i) (as_u16 kd) (pack_slot_word g SLOT_LIVE) n.

(** An index waiting for an occupant. *)
Definition unused (G : Z) (s : CatalogSlot) : Prop := exists g, 1 <= g <= G /\ word s = pack_slot_word g SLOT_FREE.

Implicit Types (m : CatMem) (live : gmap Z listing) (free : list Z) (busy : option (Z * CatalogSlot)).

(** [busy] is the index in the caller's hands. *)
Definition accounted live free busy (i : Z) : Prop :=
  i ∈ free \/ (exists k l, live !! k = Some l /\ l_idx l = i) \/ exists s, busy = Some (i, s).

Record cat_at (G : Z) m live free busy : Prop := mkCatAt {
  ca_fixed : cat_magic m = CATALOG_MAGIC /\ cat_capacity m = c /\ head_stride m = stride /\ artifact_id_base m = base;
  ca_range : 0 <= Catalog.next_slot m <= c /\ cat_ok c m;
  ca_stack : Treiber.holds free_stack m free;
  ca_slot i : 0 <= i < Catalog.next_slot m -> accounted live free busy i;
  ca_new i : Catalog.next_slot m <= i < c -> exists s, Catalog.slots m !! Z.to_nat i = Some s /\ unused 1 s;
  ca_live k l : live !! k = Some l -> 0 <= l_idx l < Catalog.next_slot m /\ 1 <= l.1.2 <= G /\
    exists n, Catalog.slots m !! Z.to_nat (l_idx l) = Some (listed k l n);
  ca_idle i : i ∈ free -> 0 <= i < Catalog.next_slot m /\ exists s, Catalog.slots m !! Z.to_nat i = Some s /\ unused G s;
  ca_busy i s : busy = Some (i, s) -> 0 <= i < Catalog.next_slot m /\ Catalog.slots m !! Z.to_nat i = Some s /\ (i ∉ free) /\
    forall k l, live !! k = Some l -> l_idx l <> i;
  ca_count : Catalog.next_slot m = Z.of_nat (size live) + Z.of_nat (length free) + (if busy is Some _ then 1 else 0)
}.

Definition gen_max : Z := U32_MAX.

Lemma unused_mono G G' s : G <= G' -> unused G s -> unused G' s.
Proof. intros Hle (g & Hg & E). exists g. split; [lia|done]. Qed.

Lemma cat_at_mono G G' m live free busy : G <= G' -> cat_at G m live free busy -> cat_at G' m live free busy.
Proof.
  intros Hle [C1 C2 C3 C4 C5 C6 C7 C8 C9]. split; try done.
  - intros k l Hl. destruct (C6 k l Hl) as (? & ? & ?). split_and!; first [done|lia].
  - intros i Hi. destruct (C7 i Hi) as (? & s & ? & Hu). split; [done|]. exists s. split; [done|by eapply unused_mono].
Qed.

(** ** Slot words *)

Lemma run_gen s g st : is_u32 g -> is_u32 st -> word s = pack_slot_word g st -> run gen s = Some (g, s).
Proof. intros Hg Hst E. cbn. by rewrite E, slot_word_gen_pack by done. Qed.

Lemma run_slot_state s g st : is_u32 st -> word s = pack_slot_word g st -> run slot_state s = Some (st, s).
Proof. intros Hst E. cbn. by rewrite E, slot_word_state_pack by done. Qed.

Lemma run_cas_state fuel s g from to : is_u32 g -> is_u32 from -> word s = pack_slot_word g from ->
  run (cas_state (S fuel) from to) s = Some (Some true, set_word (pack_slot_word g to) s).
Proof.
  intros Hg Hf E. unfold cas_state. rewrite run_bind. cbn [load act run]. apply run_retry_done. cbn beta.
  rewrite E, slot_word_state_pack, slot_word_gen_pack by done. rewrite Z.eqb_refl. cbn [negb]. rewrite run_bind. cbn [cas_slot cas act run].
  by rewrite E, Z.eqb_refl.
Qed.

Lemma live_state : is_u32 SLOT_LIVE /\ is_u32 SLOT_FREE /\ is_u32 SLOT_TOMBSTONE /\ is_u32 SLOT_RECLAIMING.
Proof. unfold SLOT_LIVE, SLOT_FREE, SLOT_TOMBSTONE, SLOT_RECLAIMING. split_and!; mach. Qed.

Lemma live_not_free g g' : pack_slot_word g SLOT_LIVE = pack_slot_word g' SLOT_FREE -> False.
Proof. intros E%(f_equal slot_word_state). by rewrite !slot_word_state_pack in E by apply live_state. Qed.

(** ** Operations on the slots *)

Lemma run_slot {A} (q : prog CatalogSlot A) m i s : Catalog.slots m !! Z.to_nat i = Some s ->
  run (Catalog.slot i q) m = match run q s with Some (a, s') => Some (a, upd m i s') | None => None end.
Proof. intros Hs. unfold Catalog.slot. rewrite (run_lift_elem Catalog.slots Catalog.set_slots _ q m s); [done| |done]. split; [done|by intros []|done]. Qed.

Lemma upd_id m i s : Catalog.slots m !! Z.to_nat i = Some s -> upd m i s = m.
Proof. intros Hs. unfold upd. rewrite list_insert_id by done. by destruct m. Qed.

Lemma run_cat_slot_read {A} (q : prog CatalogSlot A) m i s a : Catalog.slots m !! Z.to_nat i = Some s -> run q s = Some (a, s) ->
  run (Catalog.slot i q) m = Some (a, m).
Proof. intros Hs Hq. by rewrite (run_slot q m i s Hs), Hq, upd_id. Qed.

Section at_rest.
Context {G : Z} {m : CatMem} {live : gmap Z listing} {free : list Z}.

(** The slot of a live entry is read. *)
Lemma run_live {busy A} (q : prog CatalogSlot A) k l a : cat_at G m live free busy -> live !! k = Some l -> (forall n, run q (listed k l n) = Some (a, listed k l n)) ->
  run (Catalog.slot (l_idx l) q) m = Some (a, m).
Proof. intros Hm Hl Hq. destruct (ca_live _ _ _ _ _ Hm k l Hl) as (_ & _ & n & Hn). by eapply run_cat_slot_read. Qed.

Lemma upd_other i j s s' : 0 <= i -> 0 <= j -> j <> i -> Catalog.slots (upd m i s') !! Z.to_nat j = Some s <-> Catalog.slots m !! Z.to_nat j = Some s.
Proof. intros Hi Hj Hne. cbn. by rewrite list_lookup_insert_ne by lia. Qed.

Lemma upd_here i s s' : Catalog.slots m !! Z.to_nat i = Some s -> Catalog.slots (upd m i s') !! Z.to_nat i = Some s'.
Proof. intros Hs. cbn. apply list_lookup_insert_eq. by eapply lookup_lt_Some. Qed.

(** The slot in hand is changed. *)
Lemma run_busy {A} (q : prog CatalogSlot A) i s a s' : cat_at G m live free (Some (i, s)) -> run q s = Some (a, s') ->
  run (Catalog.slot i q) m = Some (a, upd m i s') /\ cat_at G (upd m i s') live free (Some (i, s')).
Proof.
  intros Hm Hq. pose proof Hm as [C1 C2 C3 C4 C5 C6 C7 C8 C9]. destruct (C8 i s eq_refl) as (Hi & Hs & Hni & Hnl).
  split; [by rewrite (run_slot q m i s Hs), Hq|]. split; try done.
  - split; [apply C2|]. unfold cat_ok. cbn. rewrite length_insert. apply C2.
  - eapply (holds_agree m); [done| |exact C3]. intros j Hj. destruct (C7 j Hj) as [Hjr _]. cbn. rewrite at_index_insert by (apply (below_c c 0 0); [apply C2|lia]).
    rewrite decide_False; [done|]. intros ->. done.
  - intros j Hj. destruct (C4 j Hj) as [?|[?|[s0 [= <- <-]]]]; [by left|by right; left|right; right; by exists s'].
  - intros j Hj. cbn in Hj. destruct (C5 j Hj) as (s0 & ? & ?). exists s0. rewrite upd_other by lia. done.
  - intros k l Hl. destruct (C6 k l Hl) as (? & ? & n & Hn). split; [done|]. split; [done|]. exists n. rewrite upd_other; [done|lia|lia|by eapply Hnl].
  - intros j Hj. destruct (C7 j Hj) as (? & s0 & ? & ?). split; [done|]. exists s0. rewrite upd_other; [done|lia|lia|by intros ->].
  - intros j s0 [= <- <-]. split; [done|]. split; [by eapply upd_here|done].
Qed.

(** ** Looking a key up *)

Definition find_body (k idx : Z) : prog CatMem (option Z) :=
  st <- Catalog.slot idx slot_state ;;
  if negb (st =? SLOT_LIVE) then Ret None
  else k' <- Catalog.slot idx (load key_id) ;; Ret (if k' =? k then Some idx else None).

Lemma run_cat_find_slot k idx s g st : Catalog.slots m !! Z.to_nat idx = Some s -> is_u32 st -> word s = pack_slot_word g st ->
  run (find_body k idx) m = Some (if (st =? SLOT_LIVE) && (key_id s =? k) then Some idx else None, m).
Proof.
  intros Hs Hst E. unfold find_body. rewrite run_bind, (run_cat_slot_read slot_state m idx s st Hs) by (by eapply run_slot_state).
  destruct (st =? SLOT_LIVE); [|done]. cbn [negb andb]. by rewrite run_bind, (run_cat_slot_read (load key_id) m idx s (key_id s) Hs).
Qed.

Lemma run_find_other k idx : cat_at G m live free None -> 0 <= idx < Catalog.next_slot m ->
  (forall l, live !! k = Some l -> l_idx l <> idx) -> run (find_body k idx) m = Some (None, m).
Proof.
  intros Hm Hi Hk. destruct (ca_slot _ _ _ _ _ Hm idx Hi) as [Hf|[(k' & l & Hl & <-)|[s ?]]]; [| |done].
  - destruct (ca_idle _ _ _ _ _ Hm idx Hf) as (_ & s & Hs & g & _ & E). by rewrite (run_cat_find_slot k idx s g SLOT_FREE Hs) by (done || apply live_state).
  - destruct (ca_live _ _ _ _ _ Hm k' l Hl) as (_ & _ & n & Hn). destruct l as [[i g] kd].
    rewrite (run_cat_find_slot k _ _ g SLOT_LIVE Hn) by (done || apply live_state). cbn. rewrite (proj2 (Z.eqb_neq _ _)); [done|]. intros ->. by destruct (Hk _ Hl).
Qed.

Lemma run_find_live_by_key k : cat_at G m live free None -> run (find_live_by_key c k) m = Some (l_idx <$> live !! k, m).
Proof.
  intros Hm. unfold find_live_by_key, appended. rewrite run_bind. cbn [load act run pbind].
  destruct (ca_range _ _ _ _ _ Hm) as [Hn _]. rewrite (Z.min_l _ c) by lia. change (run (for_each ?xs _) m) with (run (for_each xs (find_body k)) m).
  destruct (live !! k) as [l|] eqn:El.
  - destruct (ca_live _ _ _ _ _ Hm k l El) as (Hi & _ & n & Hs). replace (Catalog.next_slot m) with (l_idx l + (Catalog.next_slot m - l_idx l)) by lia.
    rewrite seqZ_app, Z.add_0_l, (seqZ_cons (l_idx l)) by lia. apply run_for_each_first.
    + intros j Hj%elem_of_seqZ. apply run_find_other; [done|lia|]. intros l' E. rewrite El in E. injection E as <-. lia.
    + destruct l as [[i g] kd]. rewrite (run_cat_find_slot k _ _ g SLOT_LIVE Hs) by (done || apply live_state). cbn. by rewrite Z.eqb_refl.
  - apply run_for_each_none. intros j Hj%elem_of_seqZ. apply run_find_other; [done|lia|]. intros l' E. by rewrite El in E.
Qed.

(** ** An entry taken up, an entry put down *)

Lemma cat_take k l : cat_at G m live free None -> live !! k = Some l ->
  exists n, cat_at G m (delete k live) free (Some (l_idx l, listed k l n)).
Proof.
  intros Hm Hl. pose proof Hm as [C1 C2 C3 C4 C5 C6 C7 C8 C9]. destruct (C6 k l Hl) as (Hi & Hg & n & Hn). exists n. split; try done.
  - intros j Hj. destruct (C4 j Hj) as [?|[(k' & l' & Hl' & <-)|[s ?]]]; [by left| |done]. right. destruct (decide (k' = k)) as [->|Hne].
    + rewrite Hl in Hl'. injection Hl' as <-. right. by eexists.
    + left. exists k', l'. by rewrite lookup_delete_ne.
  - intros k' l' [_ Hl']%lookup_delete_Some. by apply C6.
  - intros j s [= <- <-]. split; [done|]. split; [done|]. split.
    + intros Hf. destruct (C7 _ Hf) as (_ & s & Hs & g & Hg' & E). rewrite Hn in Hs. injection Hs as <-. destruct l as [[i g0] kd]. cbn in E, Hg.
      by apply live_not_free in E.
    + intros k' l' [Hne Hl']%lookup_delete_Some E. destruct (C6 k' l' Hl') as (_ & _ & n' & Hn'). rewrite E, Hn in Hn'. injection Hn' as E'.
      destruct l as [[i g] kd], l' as [[i' g'] kd']. cbn in *. congruence.
  - rewrite map_size_delete_Some by done. pose proof (map_size_ne_0_lookup_2 live k ltac:(by eexists)). cbn in C9 |- *. lia.
Qed.

Lemma cat_put k l n : cat_at G m live free (Some (l_idx l, listed k l n)) -> live !! k = None -> 1 <= l.1.2 <= G ->
  cat_at G m (<[k := l]> live) free None.
Proof.
  intros Hm Hk Hg. pose proof Hm as [C1 C2 C3 C4 C5 C6 C7 C8 C9]. destruct (C8 _ _ eq_refl) as (Hi & Hs & Hni & Hnl). split; try done.
  - intros j Hj. destruct (C4 j Hj) as [?|[(k' & l' & Hl' & <-)|[s [= <- _]]]]; [by left| |].
    + right. left. exists k', l'. rewrite lookup_insert_ne; [done|]. intros ->. by rewrite Hk in Hl'.
    + right. left. exists k, l. by rewrite lookup_insert_eq.
  - intros k' l' [[<- <-]|[Hne Hl']]%lookup_insert_Some; [|by apply C6]. split_and!; try done; try lia. by exists n.
  - rewrite map_size_insert_None by done. cbn in C9 |- *. lia.
Qed.

(** ** Allocation *)

Lemma cat_pop fuel i free' : cat_at G m live (i :: free') None -> exists m' s, run (pop_free (S fuel)) m = Some (Some (Some i), m') /\
  cat_at G m' live free' (Some (i, s)) /\ unused G s.
Proof.
  intros Hm. pose proof Hm as [C1 C2 C3 C4 C5 C6 C7 C8 C9]. destruct (run_pop_cons (free_stack_laws c 0 0) m i free' fuel (proj2 C2) C3) as (h & Hrun & Hst).
  destruct (C7 i ltac:(by left)) as (Hi & s & Hs & Hu). destruct C3 as [[Hni Hnd]%list.NoDup_cons _].
  exists (set_free_head h m), s. split; [done|]. split; [|done]. split; try done.
  - intros j Hj. destruct (C4 j Hj) as [[->|?]%elem_of_cons|[?|[s0 ?]]]; [|by left|by right; left|done]. right. right. by exists s.
  - intros j Hj. apply C7. by right.
  - intros j s0 [= <- <-]. split; [done|]. split; [done|]. split; [done|]. intros k l Hl E.
    destruct (C6 k l Hl) as (_ & Hg & n & Hn). rewrite E, Hs in Hn. injection Hn as ->. destruct Hu as (g & Hg' & E'). destruct l as [[i' g'] kd]. cbn in E', Hg.
    by apply live_not_free in E'.
  - cbn in C9 |- *. lia.
Qed.

Lemma cat_bump : cat_at G m live [] None -> 1 <= G -> Catalog.next_slot m < c -> exists s,
  cat_at G (set_next_slot (Catalog.next_slot m + 1) m) live [] (Some (Catalog.next_slot m, s)) /\ unused G s.
Proof.
  intros Hm HG Hlt. pose proof Hm as [C1 C2 C3 C4 C5 C6 C7 C8 C9]. destruct (C5 (Catalog.next_slot m) ltac:(lia)) as (s & Hs & Hu).
  exists s. split; [|by eapply unused_mono]. split; try done; cbn [Catalog.next_slot set_next_slot].
  - split; [lia|apply C2].
  - intros j Hj. destruct (decide (j = Catalog.next_slot m)) as [->|Hne]; [by right; right; exists s|].
    destruct (C4 j ltac:(lia)) as [?|[?|[s0 ?]]]; [by left|by right; left|done].
  - intros j Hj. apply C5. lia.
  - intros k l Hl. destruct (C6 k l Hl) as (? & ? & ?). split; [lia|done].
  - intros j Hj. by apply not_elem_of_nil in Hj.
  - intros j s0 [= <- <-]. split; [lia|]. split; [done|]. split; [apply not_elem_of_nil|]. intros k l Hl. destruct (C6 k l Hl) as (? & _). lia.
  - cbn in C9 |- *. lia.
Qed.
End at_rest.

Context {G : Z} {m : CatMem} {live : gmap Z listing} {free : list Z} (HG : 1 <= G <= U32_MAX).

Lemma run_alloc_slot fuel : cat_at G m live free None ->
  (exists i s m' free', run (alloc_slot (S fuel) c) m = Some (Some (Ok i), m') /\ cat_at G m' live free' (Some (i, s)) /\ unused G s) \/
  run (alloc_slot (S fuel) c) m = Some (Some (Err (CatalogFull c)), m) /\ Z.of_nat (size live) = c.
Proof.
  intros Hm. unfold alloc_slot, fbind. destruct free as [|i free'].
  - pose proof Hm as [C1 [C2 C2'] C3 _ _ _ _ _ C9]. unfold pop_free. rewrite run_bind, (run_pop_nil m fuel C3). cbn beta iota.
    rewrite run_bind. cbn [bump fetch_add32 act run]. rewrite wrap32_id by mach. destruct (Z.leb_spec c (Catalog.next_slot m)) as [Hle|Hlt].
    + right. split; [|cbn in C9; lia]. rewrite run_bind. cbn [bump fetch_add32 act run done Catalog.next_slot set_next_slot].
      replace (Catalog.next_slot m + 1 + -1) with (Catalog.next_slot m) by lia. rewrite wrap32_id by mach. by destruct m.
    + left. destruct (cat_bump Hm (proj1 HG) Hlt) as (s & Hm' & Hu). by eexists _, s, _, [].
  - left. destruct (cat_pop fuel i free' Hm) as (m' & s & Hrun & Hm' & Hu). exists i, s, m', free'. split; [|done]. by rewrite run_bind, Hrun.
Qed.

Lemma run_push_free fuel i s : cat_at G m live free (Some (i, s)) -> unused G s ->
  exists m', run (push_free (S fuel) i) m = Some (Some tt, m') /\ cat_at G m' live (i :: free) None.
Proof.
  intros Hm Hu. pose proof Hm as [C1 C2 C3 C4 C5 C6 C7 C8 C9]. destruct (C8 _ _ eq_refl) as (Hi & Hs & Hni & Hnl).
  destruct (run_push (free_stack_laws c 0 0) m i free fuel (proj2 C2)) as (n & m1 & h & Hset & Hrun & Hst & Hok);
    [lia|mach|unfold EMPTY; lia|done|done|]. exists (set_free_head h m1). split; [exact Hrun|].
  cbn [free_stack s_set_next] in Hset. unfold at_index in Hset. rewrite (proj2 (Z.leb_le _ _)), Hs in Hset by lia. injection Hset as <-.
  fold (upd m i (set_next_free n s)) in *. split; try done.
  - split; [apply C2|exact Hok].
  - intros j Hj. destruct (C4 j Hj) as [?|[?|[s0 [= <- _]]]]; [by left; right|by right; left|by left; left].
  - intros j Hj. cbn in Hj. destruct (C5 j Hj) as (s0 & ? & ?). exists s0. split; [|done]. apply upd_other; [lia|lia|lia|done].
  - intros k l Hl. destruct (C6 k l Hl) as (? & ? & n' & Hn). split; [done|]. split; [done|]. exists n'. apply upd_other; [lia|lia|by eapply Hnl|done].
  - intros j [->|Hj]%elem_of_cons.
    + split; [done|]. exists (set_next_free n s). split; [by eapply upd_here|done].
    + destruct (C7 j Hj) as (? & s0 & ? & ?). split; [done|]. exists s0. split; [|done]. apply upd_other; [lia|lia|by intros ->|done].
  - cbn in C9 |- *. lia.
Qed.

(** ** An entry published *)

Lemma run_ids busy i : cat_at G m live free busy -> run (artifact_id_for i) m = Some (aid_of i, m) /\ run (head_off_for i) m = Some (off_of i, m).
Proof. intros Hm. destruct (ca_fixed _ _ _ _ _ Hm) as (_ & _ & E1 & E2). cbn. by rewrite E1, E2. Qed.

Lemma run_new_gen i s : cat_at G m live free (Some (i, s)) -> unused G s ->
  exists g, run (Catalog.slot i gen) m = Some (g, m) /\ 1 <= g <= G /\ word s = pack_slot_word g SLOT_FREE.
Proof.
  intros Hm (g & Hg & E). exists g. split; [|done]. destruct (ca_busy _ _ _ _ _ Hm i s eq_refl) as (_ & Hs & _).
  apply (run_cat_slot_read gen m i s g Hs). apply (run_gen s g SLOT_FREE); [mach|apply live_state|done].
Qed.
End idle.

Lemma run_publish_slot {c stride base G m live free} fuel i s g k kd : 1 <= G <= U32_MAX -> cat_at c stride base G m live free (Some (i, s)) ->
  1 <= g <= G -> word s = pack_slot_word g SLOT_FREE -> live !! k = None -> exists m',
  run (publish_slot (S fuel) i k kd) m = Some (Some (aid_of base i, off_of stride i), m') /\ cat_at c stride base G m' (<[k := (i, g, kd)]> live) free None.
Proof.
  intros HG Hm Hg E Hk. unfold publish_slot. destruct (run_ids c stride base _ i Hm) as [Ea Eo]. rewrite run_bind, Ea, run_bind, Eo, run_bind.
  destruct (run_busy c stride base (write_fields k (aid_of base i) (off_of stride i) kd) i s tt
    (Catalog.mkSlot k (aid_of base i) (off_of stride i) (as_u16 kd) (word s) (next_free s)) Hm) as [-> Hm1]; [done|].
  unfold fbind. rewrite run_bind. set (s1 := Catalog.mkSlot _ _ _ _ _ _) in *.
  destruct (run_busy c stride base (publish (S fuel)) i s1 (Some true) (listed stride base k (i, g, kd) (next_free s)) Hm1) as [-> Hm2].
  { unfold publish. rewrite (run_cas_state fuel s1 g SLOT_FREE SLOT_LIVE); [done|mach|apply live_state|done]. }
  eexists. split; [reflexivity|]. by apply (cat_put c stride base k (i, g, kd) (next_free s)).
Qed.

(** A catalog just initialised. *)
Lemma cat_at_init payload c stride base cat m : init payload c stride base = Ok (cat, m) -> 0 <= c -> cat = c /\ cat_at c stride base 1 m ∅ [] None.
Proof.
  unfold init. intros Hin Hc. destruct (payload <? required_bytes c); [done|]. injection Hin as <- <-. split; [done|]. split; cbn; try done.
  - split; [lia|]. unfold cat_ok. cbn. rewrite length_replicate. lia.
  - split; [constructor|]. exists 0, EMPTY. split_and!; [mach|apply EMPTY_u32|done|done].
  - lia.
  - intros i Hi. eexists. split; [apply lookup_replicate_2; lia|]. exists FIRST_GEN. split; [unfold FIRST_GEN; lia|done].
  - by intros i Hi%not_elem_of_nil.
Qed.
