(* ===== verification/JournalBooks.v ===== *)
(** * The journal of a sequential actor

    What one actor's journal holds between its own operations: the set of slots it has
    taken.  Recording takes a slot while there is one left; releasing gives back the slot
    it names, and the caller is told that it did.  The handle stays good throughout. *)

From S2P Require Import Prelude Atomic ChunkDesc BorrowJournal.

(** ** Programs that leave the header of the journal alone *)

Definition header (m : JournalMem) : Z * Z := (j_magic m, j_capacity m).

Fixpoint headed {A} (q : prog JournalMem A) : Prop :=
  match q with
  | Ret _ => True
  | Atomic f k => (forall m r m', f m = Some (r, m') -> header m' = header m) /\ forall r, headed (k r)
  end.

Lemma headed_run {A} (q : prog JournalMem A) m r m' : headed q -> run q m = Some (r, m') -> header m' = header m.
Proof.
  revert m. induction q as [a|R f k IH]; intros m; cbn; [by intros _ [= _ <-]|]. intros [Hf Hk].
  destruct (f m) as [[x m1]|] eqn:E; [|done]. intros Hr. rewrite (IH x m1 (Hk x) Hr). by eapply Hf.
Qed.

Lemma headed_bind {A B} (q : prog JournalMem A) (k : A -> prog JournalMem B) : headed q -> (forall a, headed (k a)) -> headed (pbind q k).
Proof. intros Hq Hk. induction q as [a|R f k' IH]; cbn in *; [done|]. destruct Hq as [Hf Hr]. split; [done|]. intros r. by apply IH. Qed.

Lemma headed_retry {B C} fuel (body : B -> prog JournalMem (B + C)) b : (forall b, headed (body b)) -> headed (retry fuel body b).
Proof. intros Hb. revert b. induction fuel as [|n IH]; intros b; cbn; [done|]. apply headed_bind; [done|]. by intros [b'|c]; cbn. Qed.

Lemma headed_for_each {X C} (xs : list X) (body : X -> prog JournalMem (option C)) : (forall x, headed (body x)) -> headed (for_each xs body).
Proof. intros Hb. induction xs as [|x xs IH]; cbn; [done|]. apply headed_bind; [done|]. by intros [c|]; cbn. Qed.

Section books.
Context (j : BorrowJournal).

Lemma headed_release s : headed (release j s).
Proof.
  unfold release. case_match; [done|]. cbn. split; [|intros r; split; [|done]].
  - intros m r m' E. case_match; [|done]. by injection E as <- <-.
  - by intros m u m' [= <- <-].
Qed.

Lemma headed_record fuel e : headed (record_entry j fuel e).
Proof.
  unfold record_entry. apply headed_bind; [cbn; split; [|done]; by intros m r m' [= <- <-]|]. intros h. apply headed_bind; [|done].
  apply headed_for_each. intros step. apply headed_bind; [|done]. apply headed_retry. intros _.
  apply headed_bind; [cbn; split; [|done]; intros m r m' E; case_match; by simplify_eq|]. intros cur. cbn zeta. case_match; [done|].
  apply headed_bind; [cbn; split; [|done]; intros m r m' E; case_match; by simplify_eq|]. intros _.
  apply headed_bind; [cbn; split; [|done]; intros m r m' E; case_match; [case_match|]; by simplify_eq|]. intros r. case_match; [|done].
  cbn. split; [|done]. by intros m u m' [= <- <-].
Qed.

Lemma attach_header m m' : header m' = header m -> BorrowJournal.attach m' = BorrowJournal.attach m.
Proof. unfold header, BorrowJournal.attach. intros [= -> ->]. done. Qed.

(** ** The slots taken *)

Record books (m : JournalMem) (taken : gset nat) : Prop := mkBooks {
  bk_attach : BorrowJournal.attach m = Ok j;
  bk_wf : journal_wf j m;
  bk_taken i : (i < capacity j)%nat -> occupied m i = bool_decide (i ∈ taken);
  bk_range i : i ∈ taken -> (i < capacity j)%nat
}.

Lemma books_full m taken : books m taken -> (forall i, (i < capacity j)%nat -> occupied m i = true) -> (capacity j <= size taken)%nat.
Proof.
  intros [_ _ Ht _] Hall. rewrite <- (size_set_seq (C := gset nat) 0 (capacity j)). apply subseteq_size. intros i [_ Hi]%elem_of_set_seq.
  specialize (Hall i Hi). rewrite Ht in Hall by done. by apply bool_decide_eq_true_1 in Hall.
Qed.

Lemma books_record m taken fuel e : books m taken -> (size taken < capacity j)%nat ->
  exists s m', run (record_entry j (S fuel) e) m = Some (Some (Ok s), m') /\ (s ∉ taken) /\ books m' ({[s]} ∪ taken).
Proof.
  intros Hb Hsz. destruct (record_entry_run j m fuel e (bk_wf _ _ Hb)) as [(s & m' & Hrun & Hs & Ho & Hw & _ & Hocc)|[_ Hall]].
  2: { pose proof (books_full m taken Hb Hall). lia. }
  exists s, m'. split; [done|]. destruct Hb as [Ha _ Ht Hr]. rewrite Ht in Ho by done. apply bool_decide_eq_false_1 in Ho. split; [done|]. split.
  - rewrite <- Ha. apply attach_header. eapply headed_run; [apply headed_record|exact Hrun].
  - done.
  - intros i Hi. rewrite Hocc, Ht by done. apply eq_bool_prop_intro. rewrite orb_True, !bool_decide_spec. set_solver.
  - set_solver.
Qed.

Lemma books_release m taken s : books m taken -> s ∈ taken ->
  exists m', run (release j s) m = Some (Ok true, m') /\ books m' (taken ∖ {[s]}).
Proof.
  intros Hb Hs. destruct (release_run j m s (bk_wf _ _ Hb) (bk_range _ _ Hb s Hs)) as (m' & Hrun & Hw & _ & Hocc).
  pose proof (bk_range _ _ Hb s Hs). destruct Hb as [Ha _ Ht Hr]. rewrite Ht, bool_decide_eq_true_2 in Hrun by done. exists m'. split; [done|]. split.
  - rewrite <- Ha. apply attach_header. eapply headed_run; [apply headed_release|exact Hrun].
  - done.
  - intros i Hi. rewrite Hocc, Ht by done. apply eq_bool_prop_intro. rewrite andb_True, negb_True, !bool_decide_spec. set_solver.
  - set_solver.
Qed.
End books.

Lemma books_create payload cap j m : create payload cap = Ok (j, m) -> Z.of_nat cap < U32_MOD -> books j m ∅.
Proof.
  intros Hcr Hcap. unfold create in Hcr. destruct (Nat.eqb_spec cap 0) as [|H0]; [done|]. unfold layout in Hcr. cbn zeta iota beta in Hcr.
  destruct (payload <? _); [done|]. injection Hcr as <- <-. pose proof (div_ceil_spec cap ltac:(lia)). split.
  - unfold BorrowJournal.attach. cbn [j_magic j_capacity]. rewrite Z.eqb_refl. cbn [negb layout]. rewrite wrap32_id by mach. by rewrite Nat2Z.id.
  - split; cbn [words capacity bitmap slots]; [lia|lia|by rewrite length_replicate| |by rewrite length_replicate]. apply Forall_replicate. mach.
  - intros i _. rewrite bool_decide_eq_false_2 by set_solver. unfold occupied. cbn.
    destruct (replicate _ _ !! _) as [x|] eqn:E; [|done]. apply lookup_replicate in E as [-> _]. apply Z.bits_0.
  - set_solver.
Qed.
