(* ===== verification/ArtifactCell.v ===== *)
(** * The state of an artifact at rest

    A cell is what an artifact amounts to between operations: its chain of manifests with
    the batch of each, the slot of the current version, and the table they make.  The
    bodies of the sessions, a commit, an eviction, a pinned read, take cells to cells and
    leave alone whatever else is held in the data segment: [F] is the rest of the store.
    The second part adds what surrounds those bodies. *)

From S2P Require Import Prelude Atomic BorrowJournal Arrow ArrowLayout ArrowBatch Treiber ChunkDesc ChunkCtrl Pool PoolInv SegBytes PoolClient PoolDraw PoolState JournalBooks.
From S2P Require Import Manifest ManifestCodec Window Head HeadIdle Artifact Commit Batches ArtifactChunks ArtifactCommit.

Section cells.
Context `{ArrowLib} (reg : SchemaRegistry).

(** A table: its version, the schema of that version, the schema of the first one, and its
    batches, oldest first. *)
Record Table : Type := mkTable { t_version : Z; t_schema : Z; t_first : Z; t_rows : list RecordBatch }.

Definition empty_table : Table := mkTable NO_VERSION 0 0 [].

Definition committed_table (t : Table) (c : Commit) (sid : Z) (rows : list RecordBatch) : Table :=
  mkTable (t_version t + 1) sid (first_schema (t_first t) sid) (if appends c (t_version t) then t_rows t ++ rows else rows).

(** What a reader who wants one batch gets; [concat_batches] is Arrow's. *)
Definition table_batch (concat_batches : Schema -> list RecordBatch -> result arrow_error RecordBatch) (t : Table) : result BatchError RecordBatch :=
  let? bs := map_err of_arrow (try_map rebuilt_batch (t_rows t)) in
  match bs with
  | [] => Err (OfArtifact VersionGone)
  | [b] => Ok b
  | b :: _ => match concat_batches (batch_schema b) bs with Ok b => Ok b | Err e => Err (OfArrow (AArrow e)) end
  end.

(** ** What commits and evictions do to a table *)

Inductive commits (t : Table) (c : Commit) (b : RecordBatch) : result BatchError Z -> Table -> Prop :=
| commit_done sid : intern (batch_schema b) reg = (sid, reg) -> (appends c (t_version t) = true -> t_schema t = sid) ->
    commits t c b (Ok (t_version t + 1)) (committed_table t c sid [b])
| commit_refused : appends c (t_version t) = true -> t_schema t <> (intern (batch_schema b) reg).1 ->
    commits t c b (Err (OfArtifact Manifest.Unsupported)) t
| commit_not_written e : commits t c b (Err (of_arrow e)) t.

Inductive evicts (t : Table) : result ArtifactError Z -> Table -> Prop :=
| evict_done : t_version t <> NO_VERSION -> evicts t (Ok (t_version t + 1)) (committed_table t Replace (t_first t) [])
| evict_no_room e : t_version t <> NO_VERSION -> no_room e -> evicts t (Err e) t
| evict_nothing : t_version t = NO_VERSION -> evicts t (Err VersionGone) t.

(** ** Cells *)

Record cell : Type := mkCell { c_chain : list member; c_batches : list (option RecordBatch); c_slot : nat; c_table : Table }.

Definition empty_cell : cell := mkCell [] [] 0 empty_table.

Context (p : Pool) (fl : list (list Z)) (fuel : nat) (art : Artifact).
#[local] Hint Extern 0 (DataSeg _) => exact (pool_data (segment p)) : typeclass_instances.
#[local] Abbreviation M := (ArtMem PoolMem).

Definition cell_head (lease : Z) (c : cell) : ArtifactHead :=
  idle lease (art_incarnation art) (t_version (c_table c)) (newest_bits (c_chain c)) (t_first (c_table c)) 0 (c_slot c).

Record cell_ok (d : PoolMem) (c : cell) : Prop := mkCellOk {
  ok_slot : (c_slot c < 2)%nat;
  ok_first : is_u32 (t_first (c_table c));
  ok_chain : chain_at p art (t_version (c_table c)) (t_schema (c_table c)) d (c_chain c);
  ok_rows : Forall2 (holds_row p (t_schema (c_table c)) d) (c_chain c) (c_batches c);
  ok_schema : Forall (resolves reg (t_schema (c_table c))) (c_batches c);
  ok_table : t_rows (c_table c) = rev (omap id (c_batches c))
}.

Definition cell_holds (c : cell) : list holding := chain_holds (c_chain c).

Lemma cell_ok_keeps d d' c keep : keeps keep d d' -> (cell_holds c).*1 ⊆ keep -> cell_ok d c -> cell_ok d' c.
Proof.
  intros Hk Hs [O1 O2 O3 O4 O5 O6]. split; try done.
  - eapply chain_at_keeps; [exact Hk| |exact O3]. etransitivity; [apply chain_holds_descs|exact Hs].
  - by eapply rows_keep.
Qed.

Lemma empty_cell_ok d : cell_ok d empty_cell.
Proof. split; try done; try constructor; try apply zero_u32; try done; try constructor; try lia. Qed.

(** ** A commit, an eviction *)

Context `{!ArrowLaws} (Hseg : is_u32 (seg_id (segment p))) (Hname : is_u32 (name_id art)).
Context (F : list holding) (com : Committer) (js : list JournalMem) (ev : list VersionEvent) (d : PoolMem) (c : cell).
Context (Howner : is_u32 (c_owner com)) (Hok : cell_ok d c) (Hh : held p fl d (cell_holds c ++ F)).
Context (Hv : t_version (c_table c) < U32_MAX) (Hfuel : t_version (c_table c) <= Z.of_nat fuel).

Definition com_lease : Z := pack_lease (c_owner com) (c_token com).

(** [r] and the memory after a body that turned cell [c] into [c']. *)
Definition turned {A} (q : prog M (option A)) (K : list JournalMem -> Prop) (r : A) (c' : cell) : Prop :=
  exists d' js' ev', run q (mkArtMem (cell_head com_lease c) d js ev) = Some (Some r, mkArtMem (cell_head com_lease c') d' js' ev') /\
    K js' /\ held p fl d' (cell_holds c' ++ F) /\ cell_ok d' c' /\ keeps F.*1 d d'.

Lemma first_schema_u32 sch sid : is_u32 sch -> is_u32 sid -> is_u32 (first_schema sch sid).
Proof. unfold first_schema. by destruct (sch =? 0). Qed.

Lemma next_slot_lt v i : (i < 2)%nat -> (next_slot v i < 2)%nat.
Proof. unfold next_slot. destruct (v =? NO_VERSION); lia. Qed.

(** A batch that Arrow could have made, of a schema the process has registered. *)
Definition batch_known (b : RecordBatch) : Prop :=
  batch_ok b /\ exists sid, is_u32 sid /\ intern (batch_schema b) reg = (sid, reg) /\ registry_resolve sid reg = Some (batch_schema b).

Lemma cell_commit (J : list JournalMem -> Prop) w b : whole w -> batch_known b -> J js ->
  (forall h d ev bits g, exists rec js1 js2,
    run (record_staged (S fuel) art (fst <$> c_lease com) bits g) (mkArtMem h d js ev) = Some (Some rec, mkArtMem (D := PoolMem) h d js1 ev) /\
    (forall h d ev, run (drop_record (fst <$> c_lease com) rec) (mkArtMem (D := PoolMem) h d js1 ev) = Some (tt, mkArtMem h d js2 ev)) /\ J js2) ->
  exists r c', turned (committer_commit (segment p) (S fuel) art com w b reg) J (reg, r) c' /\ commits (c_table c) w b r (c_table c') /\
    t_version (c_table c') <= t_version (c_table c) + 1.
Proof.
  intros Hw (Hb & sid & Hsid & Hreg & Hrsv) HJ Hrec. destruct Hok as [O1 O2 O3 O4 O5 O6].
  assert (Hv0 : 0 <= t_version (c_table c)) by (pose proof (ca_length _ _ _ _ _ _ O3); lia).
  destruct (run_commit_batch p fl fuel Hseg art (c_owner com) (c_token com) (t_version (c_table c)) (t_schema (c_table c)) sid (t_first (c_table c)) (c_slot c)
    w (c_chain c) js ev F J (fst <$> c_lease com) Hname Howner Hsid Hw O1 ltac:(lia) Hfuel Hrec reg b Hb Hreg (c_batches c) d O3 Hh O4) as (r & m' & Hrun & Hcom).
  assert (Hbody : run (committer_commit (segment p) (S fuel) art com w b reg) (mkArtMem (cell_head com_lease c) d js ev) = Some (Some (reg, r), m')).
  { unfold committer_commit. rewrite run_bind, (run_head_read _ _ (t_version (c_table c))) by done. exact Hrun. }
  exists r. destruct r as [v'|e]; cbn [committed_row] in Hcom.
  - destruct Hcom as (-> & Hs & ms' & d' & js' & -> & HJ' & Hh' & Hk' & Hch' & Hrows').
    exists (mkCell ms' (Some b :: behind_rows (t_version (c_table c)) w (c_batches c)) (next_slot (t_version (c_table c)) (c_slot c))
      (committed_table (c_table c) w sid [b])). split; [|split; [by apply commit_done|cbn; lia]].
    exists d', js', (ev ++ announced art (t_version (c_table c) + 1) w). split_and!; [exact Hbody|done|done| |done].
    split; cbn [c_table c_slot c_chain c_batches t_version t_schema t_first t_rows committed_table].
    + by apply next_slot_lt.
    + by apply first_schema_u32.
    + done.
    + done.
    + constructor; [intros b' [= <-]; exact Hrsv|]. unfold behind_rows. destruct (appends w (t_version (c_table c))); [|constructor]. by rewrite <- Hs.
    + cbn [omap list_omap id rev]. unfold behind_rows. destruct (appends w (t_version (c_table c))); cbn; by rewrite ?O6.
  - destruct Hcom as (d' & -> & Hh' & Hk' & Hch' & Hrows' & He). exists c. split; [|split; [|lia]].
    + exists d', js, ev. split_and!; try done.
    + destruct He as [[ew ->]|(-> & Ha & Hne)]; [apply commit_not_written|apply commit_refused; [done|by rewrite Hreg]].
Qed.

Lemma cell_evict : exists r c', turned (evict_current (S fuel) art com) (eq js) r c' /\ evicts (c_table c) r (c_table c') /\
  t_version (c_table c') <= t_version (c_table c) + 1.
Proof.
  destruct Hok as [O1 O2 O3 O4 O5 O6]. assert (Hv0 : 0 <= t_version (c_table c)) by (pose proof (ca_length _ _ _ _ _ _ O3); lia).
  set (m0 := mkArtMem (cell_head com_lease c) d js ev). destruct (Z.eqb_spec (t_version (c_table c)) NO_VERSION) as [E0|E0].
  { exists (Err VersionGone), c. split; [|split; [by apply evict_nothing|lia]].
    exists d, js, ev. split_and!; [|done|done|done|apply keeps_refl].
    unfold evict_current. rewrite run_bind, (run_head_read _ _ (t_version (c_table c))) by done. by rewrite (proj2 (Z.eqb_eq _ _) E0). }
  destruct (run_commit_staged p fl fuel Hseg art (c_owner com) (c_token com) (t_version (c_table c)) (t_schema (c_table c)) (t_first (c_table c)) (t_first (c_table c))
    (c_slot c) Replace (c_chain c) js ev F (eq js) None Hname Howner O2 ltac:(by left) O1 ltac:(lia) Hfuel
    ltac:(intros; exists None, js, js; done) d [] [] O3 Hh) as (r & m' & Hrun & Hcom); [constructor|cbn; mach|constructor|cbn; lia|].
  assert (Hbody : run (evict_current (S fuel) art com) m0 = Some (Some r, m')).
  { unfold evict_current. rewrite run_bind, (run_head_read _ _ (t_version (c_table c))) by done. rewrite (proj2 (Z.eqb_neq _ _) E0).
    rewrite run_bind, (run_head_read _ _ (t_first (c_table c))) by done. exact Hrun. }
  exists r. destruct r as [v'|e]; cbn [committed] in Hcom.
  - destruct Hcom as (-> & _ & k & d' & js' & -> & <- & Hh' & Hch' & Hk').
    eexists (mkCell _ [None] (next_slot (t_version (c_table c)) (c_slot c)) (committed_table (c_table c) Replace (t_first (c_table c)) [])).
    split; [|split; [by apply evict_done|cbn; lia]].
    exists d', js, (ev ++ announced art (t_version (c_table c) + 1) Replace). split_and!; [exact Hbody|done|exact Hh'| |eapply keeps_sub; [|exact Hk']; cbn; set_solver].
    split; cbn [c_table c_slot c_chain c_batches t_version t_schema t_first t_rows committed_table].
    + by apply next_slot_lt.
    + by apply first_schema_u32.
    + exact Hch'.
    + constructor; [done|constructor].
    + constructor; [done|constructor].
    + done.
  - destruct Hcom as (d' & -> & Hh' & Hch' & Hk' & He). exists c. split; [|split; [|lia]].
    + exists d', js, ev. split_and!; [exact Hbody|done|done| |eapply keeps_sub; [|exact Hk']; rewrite fmap_app; set_solver].
      eapply (cell_ok_keeps d); [exact Hk'|unfold cell_holds; rewrite fmap_app; set_solver|done].
    + destruct He as [He|(_ & ? & _)]; [by apply evict_no_room|done].
Qed.
End cells.

(** ** A pinned read *)

Section reads.
Context `{ArrowLib} `{!ArrowLaws} (reg : SchemaRegistry) (p : Pool) (fl : list (list Z)) (fuel : nat) (art : Artifact).
#[local] Hint Extern 0 (DataSeg _) => exact (pool_data (segment p)) : typeclass_instances.
#[local] Abbreviation M := (ArtMem PoolMem).
Context (Hseg : is_u32 (seg_id (segment p))) (F : list holding) (lease : Z) (ev : list VersionEvent) (c : cell).

(** The head while the current version has one pin. *)
Definition cell_pinned : ArtifactHead :=
  idle lease (art_incarnation art) (t_version (c_table c)) (newest_bits (c_chain c)) (t_first (c_table c)) 1 (c_slot c).

(** A handle on the current version. *)
Definition pins_current (ps : PinState) : Prop :=
  ps_version ps = t_version (c_table c) /\ ps_slot ps = c_slot c /\ Some (ps_manifest ps) = snd <$> hd_error (c_chain c).

Lemma cell_pin_nothing jseg d js : t_version (c_table c) = NO_VERSION ->
  run (pin_inner (S fuel) art jseg) (mkArtMem (cell_head art lease c) d js ev) = Some (Some (Err VersionGone), mkArtMem (cell_head art lease c) d js ev).
Proof.
  intros E0. unfold pin_inner. cbn [loop]. unfold fbind at 1.
  rewrite run_bind, run_bind, (run_head_read _ _ (t_version (c_table c))) by done. by rewrite (proj2 (Z.eqb_eq _ _) E0).
Qed.

Lemma cell_nonempty d : cell_ok reg p art d c -> t_version (c_table c) <> NO_VERSION -> exists mb rest, c_chain c = mb :: rest.
Proof. intros Hok E0. destruct (c_chain c) as [|mb rest] eqn:Ems; [|by exists mb, rest]. pose proof (ca_newest _ _ _ _ _ _ (ok_chain _ _ _ _ _ Hok)) as Hn. by rewrite Ems in Hn. Qed.

Lemma cell_pin jseg d js js1 jp : cell_ok reg p art d c -> held p fl d (cell_holds c ++ F) -> t_version (c_table c) <> NO_VERSION ->
  (forall h d ev, run (journal_pin (S fuel) art jseg (c_slot c) (t_version (c_table c))) (mkArtMem h d js ev) = Some (Some (Ok jp), mkArtMem (D := PoolMem) h d js1 ev)) ->
  exists ps d', run (pin_inner (S fuel) art jseg) (mkArtMem (cell_head art lease c) d js ev) = Some (Some (Ok ps), mkArtMem cell_pinned d' js1 ev) /\
    pins_current ps /\ ps_journal ps = jp /\ held p fl d' (cell_holds c ++ F) /\ keeps (cell_holds c ++ F).*1 d d'.
Proof.
  intros Hok Hh E0 Hj. destruct (cell_nonempty d Hok E0) as ([k mf] & rest & Ems). destruct Hok as [Hi _ Hch _ _ _].
  rewrite Ems in Hch. destruct Hch as [_ Hmok Hown [_ Hver] _]. apply list.Forall_cons in Hmok as [[Hm Eo] _]. apply list.Forall_cons in Hown as [(_ & Eid & _) _].
  cbn [fst snd] in *. set (v := t_version (c_table c)) in *. set (i := c_slot c) in *. set (b := newest_bits (c_chain c)). set (sch := t_first (c_table c)).
  unfold pin_inner. cbn [loop]. unfold fbind at 1, slot_of. rewrite run_bind.
  rewrite run_bind, (run_head_read _ _ v) by done. rewrite (proj2 (Z.eqb_neq _ _) E0).
  rewrite run_bind, (run_head_read _ _ (Some i)) by (by apply run_find_current).
  rewrite run_bind, run_on_head. mem. unfold cell_head. fold v i b sch. rewrite (run_slot_pins _ v b sch i Hi _ publish_pin 0 1 tt E0) by done. mem.
  change (idle lease (art_incarnation art) v b sch 1 i) with cell_pinned.
  rewrite run_bind, (run_head_read _ _ true).
  2: { apply (run_slot_pins _ v b sch i Hi _ (accept_pin v) 1 1 true E0). cbn. by rewrite Z.eqb_refl. }
  cbn [negb]. rewrite run_bind, (run_head_read _ _ true) by apply run_incarnation. cbn [negb].
  rewrite run_bind, (run_head_read _ _ b) by done. rewrite run_bind, (run_head_read _ _ b) by (by apply (run_slot_pins _ v b sch i Hi)).
  rewrite Z.eqb_refl. cbn [negb]. assert (Eb : mkPackedRef b = PackedRef_from_desc k) by (unfold b; rewrite Ems; apply packed_bits). rewrite Eb, <- Eid, <- Hver.
  assert (Hin : pinned k ∈ cell_holds c ++ F) by (unfold cell_holds; rewrite Ems; by left).
  destruct (turns_read_checked p fl (mkArtMem cell_pinned d js ev) k _ mf (PackedRef_from_desc k) (cell_holds c ++ F) (cell_holds c ++ F).*1 Hm Hin Eo Hh) as (d' & Hrun & Hh' & Hk').
  rewrite run_bind, Hrun. mem. unfold fbind at 1. rewrite run_bind, Hver, Hj.
  exists (mkPin v i mf jp), d'. split; [reflexivity|]. split; [unfold pins_current; by rewrite Ems|done].
Qed.

Lemma omap_rev {A} (l : list (option A)) : omap id (rev l) = rev (omap id l).
Proof. induction l as [|[x|] l IH]; [done|..]; cbn [rev]; rewrite omap_app, IH; cbn; by rewrite ?app_nil_r. Qed.

(** The batches of a pinned version. *)
Lemma cell_rows h d js ps : cell_ok reg p art d c -> held p fl d (cell_holds c ++ F) -> pins_current ps ->
  exists d', run (as_arrow_batches (segment p) ps reg) (mkArtMem h d js ev)
      = Some (Some (map_err of_arrow (try_map rebuilt_batch (t_rows (c_table c)))), mkArtMem h d' js ev) /\
    held p fl d' (cell_holds c ++ F) /\ keeps (cell_holds c ++ F).*1 d d'.
Proof.
  intros Hok Hh (_ & _ & Eps). destruct Hok as [_ _ Hch Hrows Hres Erows]. destruct (c_chain c) as [|mb rest] eqn:Ems; [discriminate|]. injection Eps as Eps.
  set (m := mkArtMem h d js ev). set (ms := mb :: rest) in *. assert (Hin : chain_holds ms ⊆ cell_holds c ++ F) by (unfold cell_holds; rewrite Ems; set_solver).
  assert (Hds : ms.*1 ⊆ (cell_holds c ++ F).*1).
  { rewrite fmap_app. unfold cell_holds. rewrite Ems. fold ms. pose proof (chain_holds_descs ms). set_solver. }
  destruct (turns_chain p fl Hseg art _ _ m mb rest ps (cell_holds c ++ F) (cell_holds c ++ F).*1 Hch Eps Hin Hds Hh) as (d' & Hrun & Hh1 & Hk).
  exists d'. split; [|done]. unfold as_arrow_batches, artifact_step, tbind at 1. rewrite run_bind. unfold fbind at 1. rewrite run_bind, Hrun.
  cbn [run done map_err]. unfold batches_of, tbind, artifact_step. rewrite run_bind. unfold fbind at 1.
  rewrite run_bind, (run_attach_pool p fl (with_data d' m) _ Hh1). cbn [run done map_err].
  assert (Erev : rev (snd <$> ms) = snd <$> rev ms) by (symmetry; apply map_rev).
  change (rev (snd <$> mb :: rest)) with (rev (snd <$> ms)). rewrite Erev, Erows, <- omap_rev.
  apply (run_batches_in p fl (with_data d' m) (cell_holds c ++ F) (rev ms) (rev (c_batches c)) (t_schema (c_table c)) reg Hh1).
  - intros e He%list_elem_of_In%in_rev%list_elem_of_In x Hx. apply Hin. unfold chain_holds. apply list_elem_of_In, in_concat. exists (holds_of e).
    split; apply list_elem_of_In; [by apply list_elem_of_fmap_2|by right].
  - rewrite !rev_alt. apply Forall2_reverse. eapply rows_keep; [exact Hk| |exact Hrows]. rewrite fmap_app. unfold cell_holds. rewrite Ems. set_solver.
  - by apply Forall_rev.
Qed.

Lemma cell_batch concat_batches h d js ps : cell_ok reg p art d c -> held p fl d (cell_holds c ++ F) -> pins_current ps ->
  exists d', run (as_arrow (segment p) concat_batches ps reg) (mkArtMem h d js ev) = Some (Some (table_batch concat_batches (c_table c)), mkArtMem h d' js ev) /\
    held p fl d' (cell_holds c ++ F) /\ keeps (cell_holds c ++ F).*1 d d'.
Proof.
  intros Hok Hh Hps. destruct (cell_rows h d js ps Hok Hh Hps) as (d' & Hrun & Hd'). exists d'. split; [|done].
  unfold as_arrow, tbind, table_batch. rewrite run_bind, Hrun. destruct (map_err of_arrow _) as [bs|e]; [|done]. cbn [done run]. by destruct bs as [|b [|b' bs]].
Qed.

Lemma cell_unpin d js ps : pins_current ps -> (c_slot c < 2)%nat -> t_version (c_table c) <> NO_VERSION ->
  run (release_pin (S fuel) ps) (mkArtMem cell_pinned d js ev) = Some (Some tt, mkArtMem (cell_head art lease c) d js ev).
Proof.
  intros (Ev & Ei & _) Hi E0. unfold release_pin, slot_of. rewrite Ev, Ei, run_bind, run_on_head. mem. unfold cell_pinned.
  rewrite (run_slot_pins _ _ _ _ _ Hi _ unpin 1 0 1 E0) by done. mem. cbn [Z.eqb Pos.eqb].
  rewrite run_bind, (run_head_read _ _ (t_version (c_table c))) by done. by rewrite Z.eqb_refl.
Qed.
End reads.

(** * Opening, closing and evicting an artifact at rest

    What surrounds those bodies: the exclusive lease and its record in the
    actor's journal, the journaled pin, and the teardown of an artifact down to a head that
    nothing holds. *)

(** ** Scans that change nothing *)

Lemma run_loop_each_none {S X C} (xs : list X) (body : X -> prog S (option (option C))) s :
  (forall x, x ∈ xs -> run (body x) s = Some (Some None, s)) -> run (loop_each xs body) s = Some (Some None, s).
Proof.
  induction xs as [|x xs IH]; intros Hb; [done|]. cbn [loop_each]. unfold fbind. rewrite run_bind, (Hb x) by (by left).
  apply IH. intros y Hy. apply Hb. by right.
Qed.

Lemma run_loop_each_app {S X C} (xs ys : list X) (body : X -> prog S (option (option C))) s s1 :
  run (loop_each xs body) s = Some (Some None, s1) -> run (loop_each (xs ++ ys) body) s = run (loop_each ys body) s1.
Proof.
  revert s. induction xs as [|x xs IH]; intros s; cbn [loop_each app]; [by intros [= ->]|]. unfold fbind. rewrite !run_bind.
  destruct (run (body x) s) as [[[[c|]|] s2]|]; try done. apply IH.
Qed.

(** ** The journal of the actor *)

(** Journal [k] has the slots [taken]. *)
Definition booked (k : nat) (j : BorrowJournal) (taken : gset nat) (js : list JournalMem) : Prop :=
  exists m, js !! k = Some m /\ books j m taken.

Section journal.
Context {D : Type} `{!DataSeg D} (k : nat) (j : BorrowJournal).

Lemma run_on_art_journal {A} (q : prog JournalMem A) h (d : D) js ev m : js !! k = Some m ->
  run (on_journal k q) (mkArtMem h d js ev) = match run q m with Some (a, m') => Some (a, mkArtMem h d (<[k := m']> js) ev) | None => None end.
Proof.
  intros Hm. unfold on_journal. rewrite (run_lift_elem a_journals _ k q (mkArtMem h d js ev) m); [done| |done]. split; [done|by intros []|done].
Qed.

Lemma booked_attach taken js : booked k j taken js -> forall h (d : D) ev,
  run (on_journal k (act (fun m => Some (BorrowJournal.attach m, m)))) (mkArtMem h d js ev) = Some (Ok j, mkArtMem h d js ev).
Proof. intros (m & Hm & Hb) h d ev. rewrite (run_on_art_journal _ h d js ev m Hm). cbn. by rewrite (bk_attach _ _ _ Hb), list_insert_id. Qed.

Lemma booked_record taken js fuel e : booked k j taken js -> (size taken < capacity j)%nat ->
  exists s js', (s ∉ taken) /\ booked k j ({[s]} ∪ taken) js' /\ forall h (d : D) ev,
    run (on_journal k (record_entry j (S fuel) e)) (mkArtMem h d js ev) = Some (Some (Ok s), mkArtMem h d js' ev).
Proof.
  intros (m & Hm & Hb) Hsz. destruct (books_record j m taken fuel e Hb Hsz) as (s & m' & Hrun & Hs & Hb').
  exists s, (<[k := m']> js). split; [done|]. split; [exists m'; split; [|done]; apply list_lookup_insert_eq; by eapply lookup_lt_Some|].
  intros h d ev. by rewrite (run_on_art_journal _ h d js ev m Hm), Hrun.
Qed.

Lemma booked_release taken js s : booked k j taken js -> s ∈ taken ->
  exists js', booked k j (taken ∖ {[s]}) js' /\ forall h (d : D) ev,
    run (on_journal k (BorrowJournal.release j s)) (mkArtMem h d js ev) = Some (Ok true, mkArtMem h d js' ev).
Proof.
  intros (m & Hm & Hb) Hs. destruct (books_release j m taken s Hb Hs) as (m' & Hrun & Hb').
  exists (<[k := m']> js). split; [exists m'; split; [|done]; apply list_lookup_insert_eq; by eapply lookup_lt_Some|].
  intros h d ev. by rewrite (run_on_art_journal _ h d js ev m Hm), Hrun.
Qed.

(** A commit's record of its staged manifest comes and goes. *)
Lemma booked_staged fuel art taken js : booked k j taken js -> (size taken < capacity j)%nat -> forall h (d : D) ev bits g, exists rec js1 js2,
  run (record_staged (S fuel) art (Some (k, j)) bits g) (mkArtMem h d js ev) = Some (Some rec, mkArtMem h d js1 ev) /\
  (forall h (d : D) ev, run (drop_record (Some (k, j)) rec) (mkArtMem h d js1 ev) = Some (tt, mkArtMem h d js2 ev)) /\ booked k j taken js2.
Proof.
  intros Hb Hsz h d ev bits g. destruct (booked_record taken js fuel (staged_manifest (name_id art) (art_incarnation art) bits g) Hb Hsz) as (s & js1 & Hs & Hb1 & Hrun).
  destruct (booked_release _ js1 s Hb1 ltac:(set_solver)) as (js2 & Hb2 & Hrel). exists (Some s), js1, js2. split_and!.
  - unfold record_staged, fbind, record_staged_manifest. by rewrite run_bind, Hrun.
  - intros h' d' ev'. unfold drop_record. by rewrite run_bind, Hrel.
  - replace taken with (({[s]} ∪ taken) ∖ {[s]}) by set_solver. done.
Qed.
End journal.

(** ** The exclusive lease *)

Section sessions.
Context `{ArrowLib} `{!ArrowLaws} (reg : SchemaRegistry) (p : Pool) (fl : list (list Z)) (fuel : nat) (art : Artifact).
#[local] Hint Extern 0 (DataSeg _) => exact (pool_data (segment p)) : typeclass_instances.
#[local] Abbreviation M := (ArtMem PoolMem).
Context (Hseg : is_u32 (seg_id (segment p))) (F : list holding) (ev : list VersionEvent).
Implicit Types (c : cell) (js : list JournalMem) (d : PoolMem) (o f : Z).

Definition unleased (f : Z) : Z := pack_lease Head.OWNER_NONE f.

Lemma cell_open o f c d js : is_u32 o -> is_u32 f ->
  run (open_exclusive (S fuel) art o) (mkArtMem (cell_head art (unleased f) c) d js ev)
    = Some (Some (Ok (mkCommitter o f None)), mkArtMem (cell_head art (pack_lease o f) c) d js ev).
Proof.
  intros Ho Hf. unfold open_exclusive, cell_head, unleased. unfold fbind at 1. rewrite run_bind, run_on_head. mem. rewrite run_acquire by done. mem.
  rewrite run_bind, run_on_head. mem. unfold revalidate_incarnation. by rewrite run_incarnation.
Qed.

Lemma cell_close o f c d js :
  run (drop_committer (mkCommitter o f None)) (mkArtMem (cell_head art (pack_lease o f) c) d js ev)
    = Some (tt, mkArtMem (cell_head art (unleased (wrap32 (f + 1))) c) d js ev).
Proof. unfold drop_committer, cell_head. cbn [c_lease c_owner c_token]. cbn [pbind]. rewrite run_bind, run_on_head. mem. rewrite run_release_lease. by mem. Qed.

(** The lease recorded in the actor's journal. *)
Lemma cell_open_journaled k j o f c d js taken : is_u32 o -> is_u32 f -> booked k j taken js -> (size taken < capacity j)%nat ->
  exists s js', run (open_exclusive_journaled (S fuel) art o (k, j)) (mkArtMem (cell_head art (unleased f) c) d js ev)
      = Some (Some (Ok (mkCommitter o f (Some ((k, j), s)))), mkArtMem (cell_head art (pack_lease o f) c) d js' ev) /\
    booked k j ({[s]} ∪ taken) js' /\ (s ∉ taken).
Proof.
  intros Ho Hf Hb Hsz. destruct (booked_record (D := PoolMem) k j taken js fuel (BorrowJournal.write_lease (name_id art) (art_incarnation art) f) Hb Hsz) as (s & js' & Hs & Hb' & Hrun).
  exists s, js'. split; [|done]. unfold open_exclusive_journaled, tbind. unfold fbind at 1. rewrite run_bind, cell_open by done.
  unfold record_write_lease. cbn [fst snd c_token]. by rewrite run_bind, Hrun.
Qed.

Lemma cell_close_journaled k j o f s c d js taken : booked k j taken js -> s ∈ taken ->
  exists js', run (drop_committer (mkCommitter o f (Some ((k, j), s)))) (mkArtMem (cell_head art (pack_lease o f) c) d js ev)
      = Some (tt, mkArtMem (cell_head art (unleased (wrap32 (f + 1))) c) d js' ev) /\ booked k j (taken ∖ {[s]}) js'.
Proof.
  intros Hb Hs. destruct (booked_release (D := PoolMem) k j taken js s Hb Hs) as (js' & Hb' & Hrel). exists js'. split; [|done].
  unfold drop_committer, cell_head. cbn [c_lease c_owner c_token]. rewrite run_bind, Hrel. rewrite run_bind, run_on_head. mem. rewrite run_release_lease. by mem.
Qed.

(** ** Journaled pins *)

Lemma cell_pin_journaled k j lease c d js taken : cell_ok reg p art d c -> held p fl d (cell_holds c ++ F) -> t_version (c_table c) <> NO_VERSION ->
  booked k j taken js -> (size taken < capacity j)%nat ->
  exists ps s d' js', run (pin_journaled (S fuel) art k) (mkArtMem (cell_head art lease c) d js ev) = Some (Some (Ok ps), mkArtMem (cell_pinned art lease c) d' js' ev) /\
    pins_current c ps /\ ps_journal ps = Some (k, s) /\ (s ∉ taken) /\ booked k j ({[s]} ∪ taken) js' /\
    held p fl d' (cell_holds c ++ F) /\ keeps (cell_holds c ++ F).*1 d d'.
Proof.
  intros Hok Hh E0 Hb Hsz.
  destruct (booked_record (D := PoolMem) k j taken js fuel (artifact_pin (name_id art) (art_incarnation art) (t_version (c_table c))) Hb Hsz) as (s & js' & Hs & Hb' & Hrec).
  destruct (cell_pin reg p fl fuel art F lease ev c (Some k) d js js' (Some (k, s)) Hok Hh E0) as (ps & d' & Hrun & Hps & Ej & Hh' & Hk').
  { intros h d0 ev0. unfold journal_pin. rewrite run_bind, (booked_attach k j taken js Hb). unfold fbind, record_artifact_pin. by rewrite run_bind, Hrec. }
  by exists ps, s, d', js'.
Qed.

Lemma cell_unpin_journaled k j lease c d js taken ps s : pins_current c ps -> ps_journal ps = Some (k, s) -> (c_slot c < 2)%nat -> t_version (c_table c) <> NO_VERSION ->
  booked k j taken js -> s ∈ taken ->
  exists js', run (drop_pin (S fuel) ps) (mkArtMem (cell_pinned art lease c) d js ev) = Some (Some tt, mkArtMem (cell_head art lease c) d js' ev) /\
    booked k j (taken ∖ {[s]}) js'.
Proof.
  intros Hps Ej Hi E0 Hb Hs. destruct (booked_release (D := PoolMem) k j taken js s Hb Hs) as (js' & Hb' & Hrel). exists js'. split; [|done].
  unfold drop_pin. rewrite Ej, run_bind, (booked_attach k j taken js Hb), run_bind, Hrel. by apply cell_unpin.
Qed.
End sessions.

(** ** Teardown *)

Section teardown.
Context `{ArrowLib} `{!ArrowLaws} (reg : SchemaRegistry) (p : Pool) (fl : list (list Z)) (fuel : nat) (art : Artifact).
#[local] Hint Extern 0 (DataSeg _) => exact (pool_data (segment p)) : typeclass_instances.
#[local] Abbreviation M := (ArtMem PoolMem).
Context (F : list holding) (c : cell) (js : list JournalMem) (ev : list VersionEvent).

(** Nothing is left of the cell but the schema id of its head. *)
Definition emptied : cell := mkCell [] [] 0 (mkTable NO_VERSION 0 (t_first (c_table c)) []).

Lemma emptied_ok d d' : cell_ok reg p art d c -> cell_ok reg p art d' emptied.
Proof. intros [_ O2 _ _ _ _]. split; try done; try constructor; try done; try constructor; cbn; lia. Qed.

(** The head without a current version; its slots are [ss]. *)
Definition condemned (lease : Z) (ss : list PinSlot) : ArtifactHead :=
  mkHead HEAD_MAGIC NO_VERSION 0 lease (t_first (c_table c)) (art_incarnation art) ss.

Lemma condemned_slot {A} lease ss i s (q : prog PinSlot A) a s' d : ss !! i = Some s -> run q s = Some (a, s') ->
  run (slot_of i q) (mkArtMem (condemned lease ss) d js ev) = Some (a, mkArtMem (D := PoolMem) (condemned lease (<[i := s']> ss)) d js ev).
Proof. intros Hs Hq. unfold slot_of. rewrite run_on_head. mem. by rewrite (run_slot_at i q (condemned lease ss) s Hs), Hq. Qed.

Lemma condemned_read {A} lease ss i s (q : prog PinSlot A) a d : ss !! i = Some s -> run q s = Some (a, s) ->
  run (slot_of i q) (mkArtMem (condemned lease ss) d js ev) = Some (a, mkArtMem (D := PoolMem) (condemned lease ss) d js ev).
Proof. intros Hs Hq. by rewrite (condemned_slot lease ss i s q a s d Hs Hq), list_insert_id. Qed.

(** The scan's body. *)
Definition evict_slot (i : nat) : prog M (option (option ArtifactError)) :=
  st <- slot_of i (load Head.state) ;;
  if negb (st =? SLOT_LIVE) then done None
  else
    v <- slot_of i (load Head.version) ;;
    if v =? NO_VERSION then done None
    else
      r <-- try_retire_version (S fuel) v ;;
      done (match r with Ok _ => None | Err e => Some e end).

Lemma evict_slot_free lease ss i d : ss !! i = Some free_slot ->
  run (evict_slot i) (mkArtMem (condemned lease ss) d js ev) = Some (Some None, mkArtMem (condemned lease ss) d js ev).
Proof. intros Hs. unfold evict_slot. by rewrite run_bind, (condemned_read lease ss i free_slot (load Head.state) SLOT_FREE). Qed.

Lemma evict_slot_live lease i d : cell_ok reg p art d c -> held p fl d (cell_holds c ++ F) -> (i < 2)%nat -> t_version (c_table c) <> NO_VERSION ->
  t_version (c_table c) <= Z.of_nat (S fuel) ->
  exists d', run (evict_slot i) (mkArtMem (condemned lease (HeadIdle.slots (t_version (c_table c)) (newest_bits (c_chain c)) 0 i)) d js ev)
    = Some (Some None, mkArtMem (condemned lease no_slots) d' js ev) /\ held p fl d' F /\ keeps F.*1 d d'.
Proof.
  intros Hok Hh Hi E0 Hfuel. pose proof (ok_chain _ _ _ _ _ Hok) as Hch. set (v := t_version (c_table c)) in *. set (b := newest_bits (c_chain c)).
  set (sl := fun st => <[i := mkPinSlot v b 0 st]> no_slots). assert (Esl : HeadIdle.slots v b 0 i = sl SLOT_LIVE) by (unfold HeadIdle.slots; by rewrite (proj2 (Z.eqb_neq _ _) E0)).
  assert (Hsl : forall st, sl st !! i = Some (mkPinSlot v b 0 st)) by (intros st; apply list_lookup_insert_eq; unfold no_slots; rewrite length_replicate; unfold MAX_LIVE_VERSIONS; lia).
  assert (Hins : forall st s, <[i := s]> (sl st) = <[i := s]> no_slots) by (intros st s; apply list_insert_insert_eq).
  rewrite Esl. unfold evict_slot. rewrite run_bind, (condemned_read lease _ i _ (load Head.state) SLOT_LIVE d (Hsl _)) by done. cbn [negb Z.eqb SLOT_LIVE Pos.eqb].
  rewrite run_bind, (condemned_read lease _ i _ (load Head.version) v d (Hsl _)) by done. rewrite (proj2 (Z.eqb_neq _ _) E0).
  unfold fbind at 1. rewrite run_bind. unfold try_retire_version, try_retire_version_at. cbn [loop]. unfold fbind at 1. rewrite run_bind.
  rewrite run_bind, (run_head_read _ _ (Some i)).
  2: { apply (run_find_slot v _ i (mkPinSlot v b 0 SLOT_LIVE)); cbn [a_head condemned pin_table]; [by rewrite <- Esl, length_slots|apply Hsl|apply named_live|].
       intros k s Hk. rewrite <- Esl. intros ->%slots_other; [done|lia]. }
  rewrite run_bind, (run_head_read _ _ NO_VERSION) by done. rewrite (proj2 (Z.eqb_neq _ _)) by done.
  rewrite run_bind, (condemned_slot lease _ i _ elect_freeing true (mkPinSlot v b 0 SLOT_FREEING) d (Hsl _)) by done. cbn [negb]. rewrite Hins. fold (sl SLOT_FREEING).
  rewrite run_bind, (condemned_read lease _ i _ pin_scan 0 d (Hsl _)) by done. cbn [negb Z.eqb].
  unfold fbind at 1. rewrite run_bind, (run_attach_pool p fl (mkArtMem _ d js ev) _ Hh).
  rewrite run_bind, (condemned_read lease _ i _ (load Head.manifest) b d (Hsl _)) by done.
  destruct (turns_release_old p fl fuel art v (t_schema (c_table c)) Replace (c_chain c) [] F (mkArtMem (condemned lease (sl SLOT_FREEING)) d js ev) Hch E0) as (d' & Hrun & Hh' & Hk').
  { pose proof (ca_length _ _ _ _ _ _ Hch) as Hlen. fold v in Hlen. lia. }
  { exact Hh. }
  unfold fbind at 1. fold b in Hrun. rewrite run_bind, Hrun. mem.
  rewrite run_bind, (condemned_slot lease _ i _ store_free tt free_slot d' (Hsl _)) by done. rewrite Hins. cbn [done run].
  exists d'. split; [|done]. do 4 f_equal. apply list_insert_id. unfold no_slots. apply lookup_replicate_2. unfold MAX_LIVE_VERSIONS. lia.
Qed.

Lemma evict_slots lease i d : cell_ok reg p art d c -> held p fl d (cell_holds c ++ F) -> (i < 2)%nat -> t_version (c_table c) <= Z.of_nat (S fuel) ->
  exists d', run (loop_each slot_indices evict_slot) (mkArtMem (condemned lease (HeadIdle.slots (t_version (c_table c)) (newest_bits (c_chain c)) 0 i)) d js ev)
    = Some (Some None, mkArtMem (condemned lease no_slots) d' js ev) /\ held p fl d' F /\ keeps F.*1 d d'.
Proof.
  intros Hok Hh Hi Hfuel. set (v := t_version (c_table c)) in *. set (b := newest_bits (c_chain c)).
  assert (Hfree : forall ss ks d, (forall j, j ∈ ks -> ss !! j = Some free_slot) ->
    run (loop_each ks evict_slot) (mkArtMem (condemned lease ss) d js ev) = Some (Some None, mkArtMem (condemned lease ss) d js ev)).
  { intros ss ks d0 Hs. apply run_loop_each_none. intros j Hj. apply evict_slot_free, Hs, Hj. }
  assert (Hno : forall j, (j < MAX_LIVE_VERSIONS)%nat -> no_slots !! j = Some free_slot) by (intros j Hj; by apply lookup_replicate_2).
  destruct (Z.eqb_spec v NO_VERSION) as [E0|E0].
  - assert (Ems : c_chain c = []).
    { pose proof (ca_newest _ _ _ _ _ _ (ok_chain _ _ _ _ _ Hok)) as Hn. destruct (c_chain c) as [|mb rest]; [done|]. by destruct Hn. }
    unfold HeadIdle.slots. rewrite (proj2 (Z.eqb_eq _ _) E0). exists d. unfold cell_holds in Hh. rewrite Ems in Hh. split; [|split; [exact Hh|apply keeps_refl]].
    apply Hfree. intros j [_ Hj]%elem_of_seq. by apply Hno.
  - destruct (evict_slot_live lease i d Hok Hh Hi E0 Hfuel) as (d' & Hrun & Hd'). exists d'. split; [|done].
    rewrite (slot_indices_split i) by (unfold MAX_LIVE_VERSIONS; lia).
    rewrite (run_loop_each_app _ _ _ _ (mkArtMem (condemned lease (HeadIdle.slots v b 0 i)) d js ev)).
    + cbn [loop_each]. unfold fbind at 1. fold v b in Hrun. rewrite run_bind, Hrun. apply Hfree. intros j [Hj1 Hj2]%elem_of_seq. apply Hno. unfold MAX_LIVE_VERSIONS in *. lia.
    + apply Hfree. intros j [_ Hj]%elem_of_seq. unfold HeadIdle.slots. rewrite (proj2 (Z.eqb_neq _ _) E0). rewrite list_lookup_insert_ne by lia.
      apply Hno. unfold MAX_LIVE_VERSIONS. lia.
Qed.

(** What [evict_all] leaves: a head with the next fence, and every chunk of the cell free. *)
Lemma cell_evict_all f d : is_u32 f -> cell_ok reg p art d c -> held p fl d (cell_holds c ++ F) -> t_version (c_table c) <= Z.of_nat (S fuel) ->
  exists d', run (evict_all (S fuel) art) (mkArtMem (cell_head art (unleased f) c) d js ev)
    = Some (Some (Ok tt), mkArtMem (cell_head art (unleased (wrap32 (f + 1))) emptied) d' js ev) /\ held p fl d' F /\ keeps F.*1 d d'.
Proof.
  intros Hf Hok Hh Hfuel. pose proof (ok_slot _ _ _ _ _ Hok) as Hi. unfold evict_all, check_live, tbind. unfold fbind at 1. rewrite run_bind.
  unfold cell_head at 1. rewrite run_bind, (run_head_read _ _ true) by (mem; apply run_incarnation). cbn [done run].
  unfold fbind at 1. rewrite run_bind. cbn [loop]. unfold fbind at 1. rewrite run_bind. unfold fbind at 1. rewrite run_bind.
  rewrite (run_head_read _ _ (Some false)).
  2: { cbn. unfold unleased. rewrite lease_owner_pack by (done || apply zero_u32). done. }
  unfold fbind at 1. rewrite run_bind, run_on_head. mem. unfold unleased at 1. rewrite run_acquire by (done || (unfold EVICTOR_OWNER; mach)). mem. cbn [done run].
  rewrite run_bind, run_on_head. mem. unfold revalidate_incarnation. rewrite run_incarnation. mem. cbn [negb].
  rewrite run_bind, run_on_head. mem. cbn [store run act]. unfold idle, set_current. cbn [magic manifest_desc write_lease schema_id head_incarnation pin_table]. mem.
  rewrite run_bind, run_on_head. mem. cbn [store run act]. unfold set_manifest_desc. cbn [magic current write_lease schema_id head_incarnation pin_table]. mem.
  fold (condemned (pack_lease EVICTOR_OWNER f) (HeadIdle.slots (t_version (c_table c)) (newest_bits (c_chain c)) 0 (c_slot c))).
  destruct (evict_slots (pack_lease EVICTOR_OWNER f) (c_slot c) d Hok Hh Hi Hfuel) as (d' & Hrun & Hd'). exists d'. split; [|done].
  unfold fbind at 1. rewrite run_bind. fold evict_slot. setoid_rewrite Hrun.
  rewrite run_bind, run_on_head. mem.
  change (condemned (pack_lease EVICTOR_OWNER f) no_slots) with (idle (pack_lease EVICTOR_OWNER f) (art_incarnation art) NO_VERSION 0 (t_first (c_table c)) 0 0).
  by rewrite run_release_lease.
Qed.
End teardown.

(** ** A head that nothing holds *)

Lemma run_is_quiescent f inc sch i : is_u32 f -> run is_quiescent (idle (pack_lease Head.OWNER_NONE f) inc NO_VERSION 0 sch 0 i)
  = Some (true, idle (pack_lease Head.OWNER_NONE f) inc NO_VERSION 0 sch 0 i).
Proof.
  intros Hf. set (h := idle _ _ _ _ _ _ _). unfold is_quiescent. rewrite run_bind. cbn [load act run]. cbn [current h idle]. rewrite Z.eqb_refl. cbn [negb].
  rewrite run_bind. cbn [load act run h idle write_lease]. rewrite lease_owner_pack by (apply zero_u32 || done). rewrite Z.eqb_refl. cbn [negb].
  fold h. rewrite run_bind, run_for_each_none; [done|]. intros j [_ Hj]%elem_of_seq.
  assert (Hs : pin_table h !! j = Some free_slot) by (by apply lookup_replicate_2).
  unfold slot_busy. rewrite run_bind, (run_slot_read j (load Head.state) h free_slot SLOT_FREE) by done. rewrite Z.eqb_refl. cbn [negb].
  by rewrite run_bind, (run_slot_read j pin_scan h free_slot 0).
Qed.
