(* ===== verification/ArtifactTable.v ===== *)
(** * An artifact is a versioned table

    The contract of an artifact, for one client at a time: a table of record batches with a
    version number.  [Replace] makes a batch the whole table, [Append] adds one at the end,
    an eviction empties it, and a reader gets every batch in order.  [table_step] is that
    contract; the theorem shows that sessions of the real operations (the exclusive lease,
    the commit, the release of the lease; the pin, the rebuild of the batches, the release
    of the pin) behave like it from the creation of the segment on, and that between
    sessions the data segment holds the chunks of the current version and nothing else. *)

From S2P Require Import Prelude Atomic BorrowJournal Arrow ArrowLayout ArrowBatch Treiber ChunkDesc ChunkCtrl Pool PoolInv SegBytes PoolClient PoolDraw PoolState.
From S2P Require Import Manifest ManifestCodec Window Head HeadIdle Artifact Commit Batches ArtifactChunks ArtifactCommit ArtifactCell.

(** ** Sessions of the real operations *)

Section sessions.
Context `{ArrowLib} (seg : Segment) (fuel : nat) (art : Artifact) (owner : Z) (reg : SchemaRegistry).
#[local] Hint Extern 0 (DataSeg _) => exact (pool_data seg) : typeclass_instances.
#[local] Abbreviation M := (ArtMem PoolMem).

Inductive request : Type :=
| RCommit (c : Commit) (b : RecordBatch)
| REvict
| RRead.

Inductive reply : Type :=
| Committed (v : Z)
| Rows (bs : list RecordBatch).

(** The lease is released on every way out. *)
Definition leased_session (body : Committer -> prog M (option (result BatchError Z))) : prog M (option (result BatchError reply)) :=
  com <-? artifact_step (open_exclusive fuel art owner) ;;
  r <-- body com ;;
  drop_committer com ;;;
  done (let? v := r in Ok (Committed v)).

Definition commit_session (c : Commit) (b : RecordBatch) : prog M (option (result BatchError reply)) :=
  leased_session (fun com => r <-- committer_commit seg fuel art com c b reg ;; done r.2).

Definition evict_session : prog M (option (result BatchError reply)) :=
  leased_session (fun com => artifact_step (evict_current fuel art com)).

Definition read_session : prog M (option (result BatchError reply)) :=
  ps <-? artifact_step (pin fuel art) ;;
  r <-- as_arrow_batches seg ps reg ;;
  _ <-- drop_pin fuel ps ;;
  done (let? bs := r in Ok (Rows bs)).

Definition serve (q : request) : prog M (option (result BatchError reply)) :=
  match q with
  | RCommit c b => commit_session c b
  | REvict => evict_session
  | RRead => read_session
  end.

Fixpoint serve_all (qs : list request) : prog M (option (list (result BatchError reply))) :=
  match qs with
  | [] => done []
  | q :: qs' => r <-- serve q ;; rs <-- serve_all qs' ;; done (r :: rs)
  end.

(** ** The contract *)

Inductive table_step : Table -> request -> result BatchError reply -> Table -> Prop :=
| step_commit t c b r t' : commits reg t c b r t' -> table_step t (RCommit c b) (let? v := r in Ok (Committed v)) t'
| step_evict t r t' : evicts t r t' -> table_step t REvict (let? v := map_err OfArtifact r in Ok (Committed v)) t'
| step_nothing t : t_version t = NO_VERSION -> table_step t RRead (Err (OfArtifact VersionGone)) t
| step_read t : t_version t <> NO_VERSION ->
    table_step t RRead (let? bs := map_err of_arrow (try_map rebuilt_batch (t_rows t)) in Ok (Rows bs)) t.

Inductive table_run : Table -> list request -> list (result BatchError reply) -> Table -> Prop :=
| run_nil t : table_run t [] [] t
| run_cons t q r t1 qs rs t2 : table_step t q r t1 -> table_run t1 qs rs t2 -> table_run t (q :: qs) (r :: rs) t2.

(** What a client may ask: whole commits of batches Arrow could have made, of schemas the
    process has registered. *)
Definition request_ok (q : request) : Prop :=
  match q with
  | RCommit c b => whole c /\ batch_known reg b
  | _ => True
  end.
End sessions.

(** ** The implementation *)

Section refines.
Context `{ArrowLib} `{!ArrowLaws} (p : Pool) (fl : list (list Z)) (fuel : nat) (art : Artifact) (owner : Z) (reg : SchemaRegistry).
#[local] Hint Extern 0 (DataSeg _) => exact (pool_data (segment p)) : typeclass_instances.
#[local] Abbreviation M := (ArtMem PoolMem).
Context (Howner : is_u32 owner).

(** The memory between sessions: a cell, its lease free, and in the data segment its chunks
    and no others. *)
Definition represents (m : M) (t : Table) : Prop :=
  exists c f d js ev, m = mkArtMem (cell_head art (unleased f) c) d js ev /\ c_table c = t /\ is_u32 f /\
    cell_ok reg p art d c /\ held p fl d (cell_holds c).

Lemma run_leased_session body f c d js ev r c' d' js' ev' : is_u32 f ->
  run (body (mkCommitter owner f None)) (mkArtMem (cell_head art (pack_lease owner f) c) d js ev)
    = Some (Some r, mkArtMem (cell_head art (pack_lease owner f) c') d' js' ev') ->
  run (leased_session (S fuel) art owner body) (mkArtMem (cell_head art (unleased f) c) d js ev)
    = Some (Some (let? v := r in Ok (Committed v)), mkArtMem (cell_head art (unleased (wrap32 (f + 1))) c') d' js' ev').
Proof.
  intros Hf Hbody. unfold leased_session, tbind, artifact_step. rewrite run_bind. unfold fbind at 1.
  rewrite run_bind, cell_open by done. cbn [done run map_err]. unfold fbind at 1. by rewrite run_bind, Hbody, run_bind, cell_close.
Qed.

Context (Hseg : is_u32 (seg_id (segment p))) (Hname : is_u32 (name_id art)).

(** A request is answered as the contract allows. *)
Definition answered (m : M) (t : Table) (q : request) : Prop :=
  exists r m' t', run (serve (segment p) (S fuel) art owner reg q) m = Some (Some r, m') /\ table_step reg t q r t' /\ represents m' t' /\
    t_version t' <= t_version t + 1.

(** A session whose body turns the cell. *)
Lemma answered_leased q body c f d js ev r c' :
  serve (segment p) (S fuel) art owner reg q = leased_session (S fuel) art owner body -> is_u32 f ->
  (exists d' js' ev', run (body (mkCommitter owner f None)) (mkArtMem (cell_head art (pack_lease owner f) c) d js ev)
      = Some (Some r, mkArtMem (cell_head art (pack_lease owner f) c') d' js' ev') /\ held p fl d' (cell_holds c') /\ cell_ok reg p art d' c') ->
  table_step reg (c_table c) q (let? v := r in Ok (Committed v)) (c_table c') -> t_version (c_table c') <= t_version (c_table c) + 1 ->
  answered (mkArtMem (cell_head art (unleased f) c) d js ev) (c_table c) q.
Proof.
  intros Eq Hf (d' & js' & ev' & Hrun & Hh' & Hok') Hst Hle. eexists _, _, (c_table c'). rewrite Eq.
  split; [exact (run_leased_session body f c d js ev r c' d' js' ev' Hf Hrun)|]. split; [exact Hst|]. split; [|exact Hle].
  exists c', (wrap32 (f + 1)), d', js', ev'. split_and!; try done. apply wrap32_u32.
Qed.

Lemma serve_answered m t q : represents m t -> request_ok reg q -> t_version t < U32_MAX -> t_version t <= Z.of_nat fuel -> answered m t q.
Proof.
  intros (c & f & d & js & ev & -> & <- & Hf & Hok & Hh) Hq Hv Hfuel. set (com := mkCommitter owner f None).
  assert (Hh0 : held p fl d (cell_holds c ++ [])) by (by rewrite app_nil_r).
  destruct q as [w b| |].
  - destruct Hq as [Hw Hb]. destruct (cell_commit reg p fl fuel art Hseg Hname [] com js ev d c Howner Hok Hh0 Hv Hfuel (eq js) w b Hw Hb eq_refl)
      as (r & c' & (d' & js' & ev' & Hrun & _ & Hh' & Hok' & _) & Hst & Hle); [intros; by exists None, js, js|].
    eapply (answered_leased _ _ c f d js ev r c'); [reflexivity|done| |by apply step_commit|done].
    exists d', js', ev'. rewrite app_nil_r in Hh'. split; [|done]. unfold fbind. fold com. change (pack_lease owner f) with (com_lease com).
    by rewrite run_bind, Hrun.
  - destruct (cell_evict reg p fl fuel art Hseg Hname [] com js ev d c Howner Hok Hh0 Hv Hfuel)
      as (r & c' & (d' & js' & ev' & Hrun & _ & Hh' & Hok' & _) & Hst & Hle).
    eapply (answered_leased _ _ c f d js ev (map_err OfArtifact r) c'); [reflexivity|done| |by apply step_evict|done].
    exists d', js', ev'. rewrite app_nil_r in Hh'. split; [|done]. unfold artifact_step, fbind. fold com. change (pack_lease owner f) with (com_lease com).
    by rewrite run_bind, Hrun.
  - unfold answered. cbn [serve]. unfold read_session, artifact_step, tbind. destruct (Z.eq_dec (t_version (c_table c)) NO_VERSION) as [E0|E0].
    + eexists _, _, (c_table c). split; [unfold pin; by rewrite run_bind; unfold fbind at 1; rewrite run_bind, cell_pin_nothing|].
      split; [by apply step_nothing|]. split; [|lia]. by exists c, f, d, js, ev.
    + destruct (cell_pin reg p fl fuel art [] (unleased f) ev c None d js js None Hok Hh0 E0) as (ps & d1 & Hrun1 & Hps & Ej & Hh1 & Hk1); [done|].
      rewrite !app_nil_r in *. assert (Hok1 : cell_ok reg p art d1 c) by (by eapply cell_ok_keeps).
      destruct (cell_rows reg p fl art Hseg [] ev c (cell_pinned art (unleased f) c) d1 js ps Hok1) as (d2 & Hrun2 & Hh2 & Hk2); [by rewrite app_nil_r|done|].
      rewrite !app_nil_r in *. eexists _, _, (c_table c). split.
      { unfold pin. rewrite run_bind. unfold fbind at 1. rewrite run_bind, Hrun1. cbn [done run map_err]. unfold fbind at 1. rewrite run_bind, Hrun2.
        unfold fbind at 1. unfold drop_pin. rewrite Ej, run_bind, (cell_unpin p fuel art (unleased f) ev c d2 js ps Hps (ok_slot _ _ _ _ _ Hok) E0). reflexivity. }
      split; [by apply step_read|]. split; [|lia]. exists c, f, d2, js, ev. split_and!; try done. by eapply cell_ok_keeps.
Qed.

(** ** Whole histories *)

Lemma history_answered qs m t : represents m t -> Forall (request_ok reg) qs -> t_version t + Z.of_nat (length qs) <= U32_MAX ->
  t_version t + Z.of_nat (length qs) <= Z.of_nat fuel ->
  exists rs m' t', run (serve_all (segment p) (S fuel) art owner reg qs) m = Some (Some rs, m') /\ table_run reg t qs rs t' /\ represents m' t'.
Proof.
  intros Hr Hqs. revert m t Hr. induction Hqs as [|q qs Hq _ IH]; intros m t Hr Hv Hf; [exists [], m, t; split_and!; [done|constructor|done]|].
  cbn [length] in *. destruct (serve_answered m t q Hr Hq ltac:(lia) ltac:(lia)) as (r & m1 & t1 & Hrun & Hst & Hr1 & Hle).
  destruct (IH m1 t1 Hr1 ltac:(lia) ltac:(lia)) as (rs & m2 & t2 & Hrun2 & Hst2 & Hr2).
  exists (r :: rs), m2, t2. split_and!; [|by econstructor|done]. cbn [serve_all]. unfold fbind. by rewrite run_bind, Hrun, run_bind, Hrun2.
Qed.
End refines.

Lemma fresh_head nid payload h0 : region_bytes <= payload ->
  run (create_head nid payload) h0 = Some (Ok (mkArtifact nid FIRST_INCARNATION false),
    idle (pack_lease Head.OWNER_NONE 0) FIRST_INCARNATION NO_VERSION 0 0 0 0).
Proof. intros Hp. unfold create_head. by rewrite (proj2 (Z.ltb_ge _ _)). Qed.

(** C13. An artifact is a versioned table of record batches.  On a segment and a head just
    created, for every history of commits of whole batches (replacing or appending),
    evictions and reads, each in a session of its own, every request terminates and is
    answered as the table allows: a commit installs the next version, holding its batch
    alone or behind the batches of the version before; it fails only when the batch or its
    manifest could not be written or an append names another schema, and then the version and its
    batches are as they were; a reader gets every batch of the current version, in order, as Arrow rebuilds it.
    After the history the segment holds, besides free chunks, exactly the manifests and the
    data of the current version: nothing leaks, whatever failed on the way. *)
Theorem artifact_refines_table `{ArrowLib} `{!ArrowLaws} seg cfg nid payload h0 js ev watched owner reg qs fuel :
  cfg_ok cfg -> ideal_bytes cfg <= payload_len seg -> is_u32 (seg_id seg) ->
  region_bytes <= payload -> is_u32 nid -> is_u32 owner ->
  Forall (request_ok reg) qs -> Z.of_nat (length qs) <= U32_MAX -> (length qs <= fuel)%nat ->
  exists p d a h rs m t,
    create seg cfg = Ok (p, d) /\ run (create_head nid payload) h0 = Some (Ok a, h) /\
    let art := if watched : bool then with_watch a else a in
    run (serve_all seg (S fuel) art owner reg qs) (mkArtMem h d js ev) = Some (Some rs, m) /\
    table_run reg empty_table qs rs t /\ represents p (all_free (classes d)) art reg m t.
Proof.
  intros Hcfg Hfit Hseg Hpay Hnid Howner Hqs Hlen Hfuel.
  destruct (create_held seg cfg Hcfg Hfit) as (p & d & Hcr & Es & Hh).
  exists p, d, (mkArtifact nid FIRST_INCARNATION false), (idle (pack_lease Head.OWNER_NONE 0) FIRST_INCARNATION NO_VERSION 0 0 0 0).
  set (art := if watched then _ else _). subst seg.
  destruct (history_answered p (all_free (classes d)) fuel art owner reg Howner Hseg ltac:(by destruct watched) qs
    (mkArtMem (idle (pack_lease Head.OWNER_NONE 0) FIRST_INCARNATION NO_VERSION 0 0 0 0) d js ev) empty_table) as (rs & m & t & Hrun & Htab & Hrep).
  - exists empty_cell, 0, d, js, ev. split; [unfold art; by destruct watched|]. split; [done|]. split; [apply zero_u32|]. split; [apply empty_cell_ok|exact Hh].
  - done.
  - change (t_version empty_table) with 0. lia.
  - change (t_version empty_table) with 0. lia.
  - exists rs, m, t. split; [exact Hcr|]. split; [by apply fresh_head|]. split_and!; [exact Hrun|exact Htab|exact Hrep].
Qed.

(** ** A history *)

Definition table_cfg : PoolConfig := [mkSizeClass 128 4; mkSizeClass 512 8].
Definition table_seg : Segment := mkSegment 9 16384.
Definition table_reg : SchemaRegistry := with_schemas [demo_schema].
Definition demo_commit (c : Commit) : @request _ demo_lib := @RCommit _ demo_lib c demo_batch.
Definition demo_requests : list (@request _ demo_lib) :=
  [RRead; demo_commit Append; demo_commit Append; RRead; REvict; RRead; demo_commit Replace; RRead].

(** What Arrow rebuilds. *)
Definition demo_rebuilt : Schema * list ArrayData :=
  match rebuilt_batch demo_batch with Ok b => b | Err _ => demo_batch end.
Definition demo_rows (n : nat) : @reply _ demo_lib := @Rows _ demo_lib (replicate n demo_rebuilt).
Definition demo_replies : list (result BatchError (@reply _ demo_lib)) :=
  [Err (OfArtifact VersionGone); Ok (Committed 1); Ok (Committed 2); Ok (demo_rows 2); Ok (Committed 3); Ok (demo_rows 0);
   Ok (Committed 4); Ok (demo_rows 1)].

Lemma demo_commit_ok c : whole c -> request_ok table_reg (demo_commit c).
Proof.
  intros Hc. split; [done|]. split.
  - split; [done|]. repeat constructor; cbn; try done; try lia; repeat constructor; try lia.
  - exists 1. split; [vm_compute; split; congruence|]. split; reflexivity.
Qed.

Lemma artifact_refines_table_witness : exists p d a h m t,
  create table_seg table_cfg = Ok (p, d) /\ run (create_head 5 4096) fresh = Some (Ok a, h) /\
  run (serve_all table_seg 9 (with_watch a) 7 table_reg demo_requests) (mkArtMem h d [] []) = Some (Some demo_replies, m) /\
  table_run table_reg empty_table demo_requests demo_replies t /\ represents p (all_free (classes d)) (with_watch a) table_reg m t.
Proof.
  destruct (@artifact_refines_table _ demo_lib _ table_seg table_cfg 5 4096 fresh [] [] true 7 table_reg demo_requests 8)
    as (p & d & a & h & rs & m & t & Hcr & Hh & Hrun & Htab & Hrep).
  - split_and!; [done| |vm_compute; discriminate]. repeat constructor; cbn; try lia; by apply Z.mod_divide.
  - vm_compute. discriminate.
  - split; reflexivity || discriminate.
  - vm_compute. discriminate.
  - split; reflexivity || discriminate.
  - split; reflexivity || discriminate.
  - repeat (apply list.Forall_cons; split; [first [exact I|apply demo_commit_ok; first [by left|by right]]|]). constructor.
  - vm_compute. discriminate.
  - vm_compute. lia.
  - exists p, d, a, h, m, t. assert (Ers : rs = demo_replies); [|by subst rs].
    assert (E : fst <$> run (serve_all table_seg 9 (with_watch a) 7 table_reg demo_requests) (mkArtMem h d [] []) = Some (Some rs)) by (by rewrite Hrun).
    clear Hrun Htab Hrep. vm_compute in Hcr. injection Hcr as <- <-. vm_compute in Hh. injection Hh as <- <-.
    vm_compute in E. injection E as <-. vm_compute. reflexivity.
Defined.
