(* ===== verification/StoreRest.v ===== *)
(** * A keyed store at rest

    The state of a store between the operations of a single client: the catalog lists the
    live entries, the head of each is that of an artifact at rest, and the data segment
    holds the chunks of their current versions.  What the store's routines make of such a
    state: looking an entry up, creating one, acting on one, taking one out; in the second
    part, the operations of the store's handle on one entry. *)

From S2P Require Import Prelude Atomic BorrowJournal Arrow ArrowLayout ArrowBatch Treiber ChunkDesc ChunkCtrl Pool PoolInv SegBytes PoolClient PoolDraw PoolState JournalBooks.
From S2P Require Import Catalog CatalogConc CatalogIdle TypedRef Store StoreBatches.
From S2P Require Import Manifest ManifestCodec Window Head HeadIdle Artifact Commit Batches ArtifactChunks ArtifactCommit ArtifactCell.

(** ** Programs on a part that is written back *)

Section lifting.
Context {M C A : Type} (get : M -> C) (set : C -> M -> M).
Context (Hgs : forall c m, get (set c m) = c) (Hss : forall c c' m, set c' (set c m) = set c' m).

Lemma run_lift_set (q : prog C A) c m :
  run (lift (field get set) q) (set c m) = match run q c with Some (a, c') => Some (a, set c' m) | None => None end.
Proof.
  revert c. induction q as [a|R f k IH]; intros c; cbn; [done|]. unfold field at 1. rewrite Hgs.
  destruct (f c) as [[r c1]|]; [|done]. by rewrite Hss, IH.
Qed.

(** After a first action the part has been written. *)
Lemma run_lift_first (R : Set) (f : C -> option (R * C)) (k : R -> prog C A) m :
  run (lift (field get set) (Atomic f k)) m = match run (Atomic f k) (get m) with Some (a, c') => Some (a, set c' m) | None => None end.
Proof. cbn. unfold field at 1. destruct (f (get m)) as [[r c1]|]; [|done]. apply run_lift_set. Qed.
End lifting.

Section parts.
Context {D : Type}.

(** The store with the head at [off] written. *)
Definition with_art (cat : CatMem) (heads : gmap Z ArtifactHead) (off : Z) (a : ArtMem D) : StoreMem D :=
  mkStoreMem cat (<[off := a_head a]> heads) (a_data a) (a_journals a) (a_events a).

Lemma art_at_laws off : (forall a (m : StoreMem D), mkArtMem (head_of (with_art (s_cat m) (s_heads m) off a) off) (a_data a) (a_journals a) (a_events a) = a).
Proof. intros [h d js ev] m. unfold head_of. cbn. by rewrite lookup_insert_eq. Qed.

Lemma run_on_art {A} off (q : prog (ArtMem D) A) cat heads a :
  run (on_art off q) (with_art cat heads off a) = match run q a with Some (r, a') => Some (r, with_art cat heads off a') | None => None end.
Proof.
  refine (run_lift_set _ _ _ _ q a (mkStoreMem cat heads (a_data a) (a_journals a) (a_events a))).
  - intros c m. exact (art_at_laws off c m).
  - intros c c' m. cbn. by rewrite insert_insert_eq.
Qed.

(** The same when the first action of [q] writes the head. *)
Lemma run_on_new_art {A} off (R : Set) (f : ArtMem D -> option (R * ArtMem D)) (k : R -> prog (ArtMem D) A) cat heads d js ev :
  run (on_art off (Atomic f k)) (mkStoreMem cat heads d js ev)
  = match run (Atomic f k) (mkArtMem (default zero_head (heads !! off)) d js ev) with Some (r, a') => Some (r, with_art cat heads off a') | None => None end.
Proof.
  refine (run_lift_first _ _ _ _ R f k (mkStoreMem cat heads d js ev)).
  - intros c m. exact (art_at_laws off c m).
  - intros c c' m. cbn. by rewrite insert_insert_eq.
Qed.

Lemma with_art_id cat heads off h (d : D) js ev : heads !! off = Some h -> mkStoreMem cat heads d js ev = with_art cat heads off (mkArtMem h d js ev).
Proof. intros Hh. unfold with_art. cbn. by rewrite insert_id. Qed.

Lemma run_on_catalog {A} (q : prog CatMem A) cat heads (d : D) js ev :
  run (on_catalog q) (mkStoreMem cat heads d js ev) = match run q cat with Some (r, cat') => Some (r, mkStoreMem cat' heads d js ev) | None => None end.
Proof. unfold on_catalog, cat_of. rewrite run_lift_field; [done|]. split; [done|by intros []|done]. Qed.

Lemma run_on_catalog_art {A} (q : prog CatMem A) cat heads off (a : ArtMem D) :
  run (on_catalog q) (with_art cat heads off a) = match run q cat with Some (r, cat') => Some (r, with_art cat' heads off a) | None => None end.
Proof. apply run_on_catalog. Qed.

Lemma run_on_journal_of {A} k (q : prog JournalMem A) cat heads (d : D) js ev jm : js !! k = Some jm ->
  run (on_journal_of k q) (mkStoreMem cat heads d js ev) = match run q jm with Some (r, jm') => Some (r, mkStoreMem cat heads d (<[k := jm']> js) ev) | None => None end.
Proof. intros Hk. unfold on_journal_of, journal_of. rewrite (run_lift_elem s_journals _ k q _ jm); [done| |done]. split; [done|by intros []|done]. Qed.
End parts.

(** ** The state *)

Section occupants.
Context `{ArrowLib}.

(** A live entry: what the catalog lists, the fence of its lease, its artifact. *)
Record occupant : Type := mkOccupant { o_listing : listing; o_fence : Z; o_cell : cell }.

Definition all_holds (occ : gmap Z occupant) : list holding := concat ((fun x => cell_holds (o_cell x.2)) <$> map_to_list occ).

Lemma all_holds_insert occ k o : occ !! k = None -> all_holds (<[k := o]> occ) ≡ₚ cell_holds (o_cell o) ++ all_holds occ.
Proof. intros Hk. unfold all_holds. by rewrite (map_to_list_insert occ k o Hk). Qed.

Lemma all_holds_split occ k o : occ !! k = Some o -> all_holds occ ≡ₚ cell_holds (o_cell o) ++ all_holds (delete k occ).
Proof. intros Hk. rewrite <- (insert_delete_id occ k o Hk) at 1. apply all_holds_insert, lookup_delete_eq. Qed.
End occupants.

Section rest.
Context `{ArrowLib} (reg : SchemaRegistry) (p : Pool) (fl : list (list Z)) (c stride base : Z) (kj : nat) (j : BorrowJournal).
#[local] Hint Extern 0 (DataSeg _) => exact (pool_data (segment p)) : typeclass_instances.
#[local] Abbreviation off_of := (CatalogIdle.off_of stride).

Definition art_of (l : listing) : Artifact := mkArtifact (aid_of base (l_idx l)) l.1.2 false.

(** An entry whose head is where the catalog says; [v] bounds its version. *)
Record settled (v : Z) (heads : gmap Z ArtifactHead) (d : PoolMem) (o : occupant) : Prop := mkSettled {
  se_head : heads !! off_of (l_idx (o_listing o)) = Some (cell_head (art_of (o_listing o)) (unleased (o_fence o)) (o_cell o));
  se_fence : is_u32 (o_fence o);
  se_cell : cell_ok reg p (art_of (o_listing o)) d (o_cell o);
  se_version : t_version (c_table (o_cell o)) <= v
}.

(** Incarnations and versions are at most the numbers of operations so far. *)
Record at_rest (n : Z) (m : StoreMem PoolMem) (occ : gmap Z occupant) (free : list Z) : Prop := mkAtRest {
  ar_catalog : cat_at c stride base (n + 1) (s_cat m) (o_listing <$> occ) free None;
  ar_entries k o : occ !! k = Some o -> settled n (s_heads m) (s_data m) o;
  ar_held : held p fl (s_data m) (all_holds occ);
  ar_books : booked kj j ∅ (s_journals m)
}.

Context (Hc : 0 <= c < U32_MAX) (Hstride : region_bytes <= stride) (Hoffs : c * stride <= U32_MAX).

Lemma off_val i : 0 <= i < c -> off_of i = i * stride.
Proof.
  unfold region_bytes, MAX_LIVE_VERSIONS in Hstride. intros Hi. apply wrap32_id.
  assert (0 <= i * stride <= c * stride) by (split; [|apply Z.mul_le_mono_nonneg_r]; lia). mach.
Qed.

Lemma off_inj i i' : 0 <= i < c -> 0 <= i' < c -> off_of i = off_of i' -> i = i'.
Proof. unfold region_bytes, MAX_LIVE_VERSIONS in Hstride. intros Hi Hi'. rewrite !off_val by done. apply Z.mul_reg_r. lia. Qed.

Lemma at_rest_mono n n' m occ free : n <= n' -> at_rest n m occ free -> at_rest n' m occ free.
Proof.
  intros Hle [A1 A2 A3 A4]. split; try done; [eapply cat_at_mono; [|exact A1]; lia|].
  intros k o Ho. destruct (A2 k o Ho) as [S1 S2 S3 S4]. split; try done. lia.
Qed.

(** Entries have their own indices. *)
Lemma own_index n m occ free k k' o o' : at_rest n m occ free -> occ !! k = Some o -> occ !! k' = Some o' ->
  k <> k' -> off_of (l_idx (o_listing o')) <> off_of (l_idx (o_listing o)).
Proof.
  intros Hm Ho Ho' Hne. pose proof (ar_catalog _ _ _ _ Hm) as Hcat.
  assert (El : forall k o, occ !! k = Some o -> (o_listing <$> occ) !! k = Some (o_listing o)) by (intros k0 o0 E; by rewrite lookup_fmap, E).
  destruct (ca_live _ _ _ _ _ _ _ _ Hcat k _ (El k o Ho)) as (Hi & _ & n1 & E1). destruct (ca_live _ _ _ _ _ _ _ _ Hcat k' _ (El k' o' Ho')) as (Hi' & _ & n2 & E2).
  pose proof (ca_range _ _ _ _ _ _ _ _ Hcat) as [Hr _]. intros E%off_inj; [|lia|lia]. rewrite E, E1 in E2. injection E2 as E2.
  destruct (o_listing o) as [[i g] kd], (o_listing o') as [[i' g'] kd']. cbn in E2. congruence.
Qed.

(** Entry [k] changes, the others are left alone. *)
Lemma at_rest_update n n' cat heads d js ev occ free k o f' cl' d' js' ev' :
  at_rest n (mkStoreMem cat heads d js ev) occ free -> n <= n' -> occ !! k = Some o -> is_u32 f' ->
  cell_ok reg p (art_of (o_listing o)) d' cl' -> t_version (c_table cl') <= n' ->
  held p fl d' (cell_holds cl' ++ all_holds (delete k occ)) -> keeps (all_holds (delete k occ)).*1 d d' -> booked kj j ∅ js' ->
  at_rest n' (with_art cat heads (off_of (l_idx (o_listing o))) (mkArtMem (cell_head (art_of (o_listing o)) (unleased f') cl') d' js' ev'))
    (<[k := mkOccupant (o_listing o) f' cl']> occ) free.
Proof.
  intros Hm Hle Ho Hf Hok Hv Hh Hk Hb. pose proof Hm as [A1 A2 A3 A4]. split; cbn [with_art s_cat s_heads s_data s_journals a_head a_data a_journals].
  - rewrite fmap_insert. cbn [o_listing]. rewrite insert_id by (by rewrite lookup_fmap, Ho). eapply cat_at_mono; [|exact A1]. lia.
  - intros k' o' [[<- <-]|[Hne Ho']]%lookup_insert_Some.
    + split; cbn [o_listing o_fence o_cell]; try done. apply lookup_insert_eq.
    + destruct (A2 k' o' Ho') as [S1 S2 S3 S4]. cbn in S1, S3. split; try done; [|eapply cell_ok_keeps; [exact Hk| |exact S3]|lia].
      * rewrite lookup_insert_ne; [done|]. intros E. by eapply (own_index n _ occ free k k' o o' Hm Ho Ho' Hne).
      * assert (Hd : delete k occ !! k' = Some o') by (by rewrite lookup_delete_ne). intros x Hx.
        apply (elem_of_Permutation_proper x _ _ (Permutation_map _ (all_holds_split _ _ _ Hd))). rewrite map_app. apply elem_of_app. by left.
  - eapply held_perm; [|exact Hh]. rewrite <- insert_delete_eq. symmetry. apply all_holds_insert, lookup_delete_eq.
  - exact Hb.
Qed.

(** ** Looking up *)

Context (fuel : nat) (head_payload : Z) (Hpay : c * stride <= head_payload).

Lemma fits i : 0 <= i < c -> head_fits head_payload (off_of i) = Some true.
Proof.
  intros Hi. rewrite off_val by done. unfold region_bytes, MAX_LIVE_VERSIONS in Hstride.
  assert (0 <= i * stride <= (c - 1) * stride) by (split; [|apply Z.mul_le_mono_nonneg_r]; lia).
  unfold head_fits, region_bytes, MAX_LIVE_VERSIONS. rewrite (proj2 (Z.leb_gt _ _)) by mach. f_equal. apply Z.leb_le. lia.
Qed.

Lemma cell_attach l lease cl d js ev hs : held p fl d hs -> 0 <= l_idx l < c -> 1 <= l.1.2 ->
  run (attach_at (aid_of base (l_idx l)) head_payload (off_of (l_idx l))) (mkArtMem (cell_head (art_of l) lease cl) d js ev)
  = Some (Some (Ok (art_of l)), mkArtMem (cell_head (art_of l) lease cl) d js ev).
Proof.
  intros Hh Hi Hg. unfold attach_at, tbind. rewrite run_bind, (run_attach_pool p fl (mkArtMem _ d js ev) hs Hh), fits by done.
  rewrite run_bind, (run_head_read _ _ true) by done. cbn [negb]. rewrite run_bind, (run_head_read _ _ l.1.2) by done.
  rewrite (proj2 (Z.eqb_neq _ _)) by (unfold NO_INCARNATION; lia). done.
Qed.

Definition entry_of (k : Z) (o : occupant) : Entry := mkEntry (art_of (o_listing o)) (off_of (l_idx (o_listing o))) k (o_listing o).2.

Lemma kind_round kd : from_u16 (wrap16 (as_u16 kd)) = Ok kd.
Proof. by destruct kd. Qed.

Section at_rest.
Context {n : Z} {m : StoreMem PoolMem} {occ : gmap Z occupant} {free : list Z} (Hm : at_rest n m occ free) (Hn : 0 <= n < U32_MAX).

Lemma run_catalog : run catalog m = Some (Some (Ok c), m).
Proof.
  destruct m as [cat heads d js ev]. pose proof (ca_fixed _ _ _ _ _ _ _ _ (ar_catalog _ _ _ _ Hm)) as (Em & Ec & _). cbn in Em, Ec.
  unfold catalog. rewrite run_on_catalog. cbn. unfold Catalog.attach. by rewrite Em, Ec.
Qed.

Lemma listed_entry k o : occ !! k = Some o -> 0 <= l_idx (o_listing o) < c /\ 1 <= (o_listing o).1.2 <= n + 1 /\
  forall A (q : prog CatalogSlot A) a, (forall nx, run q (listed stride base k (o_listing o) nx) = Some (a, listed stride base k (o_listing o) nx)) ->
    run (on_catalog (Catalog.slot (l_idx (o_listing o)) q)) m = Some (a, m).
Proof.
  intros Ho. pose proof (ar_catalog _ _ _ _ Hm) as Hcat. assert (Hl : (o_listing <$> occ) !! k = Some (o_listing o)) by (by rewrite lookup_fmap, Ho).
  destruct (ca_live _ _ _ _ _ _ _ _ Hcat k _ Hl) as (Hi & Hg & _). pose proof (ca_range _ _ _ _ _ _ _ _ Hcat) as [Hr _]. split; [lia|]. split; [done|].
  intros A q a Hq. destruct m as [cat heads d js ev]. rewrite run_on_catalog. cbn [s_cat] in Hcat. by rewrite (run_live c stride base q k _ a Hcat Hl Hq).
Qed.

Lemma run_find k : run (on_catalog (find_live_by_key c k)) m = Some ((fun o => l_idx (o_listing o)) <$> occ !! k, m).
Proof.
  pose proof (ar_catalog _ _ _ _ Hm) as Hcat. destruct m as [cat heads d js ev]. cbn [s_cat] in Hcat.
  rewrite run_on_catalog, (run_find_live_by_key c stride base k Hcat).
  rewrite lookup_fmap. by destruct (occ !! k).
Qed.

(** A routine of the entry's artifact that leaves its memory alone. *)
Lemma run_art_read {A} k o (q : prog (ArtMem PoolMem) A) a : occ !! k = Some o ->
  (forall js ev, run q (mkArtMem (cell_head (art_of (o_listing o)) (unleased (o_fence o)) (o_cell o)) (s_data m) js ev)
    = Some (a, mkArtMem (cell_head (art_of (o_listing o)) (unleased (o_fence o)) (o_cell o)) (s_data m) js ev)) ->
  run (on_art (off_of (l_idx (o_listing o))) q) m = Some (a, m).
Proof.
  intros Ho Hq. pose proof (se_head _ _ _ _ (ar_entries _ _ _ _ Hm k o Ho)) as Hh. destruct m as [cat heads d js ev]. cbn in Hh.
  rewrite (with_art_id cat heads _ _ d js ev Hh), run_on_art. cbn in Hq. by rewrite Hq.
Qed.

Lemma run_entry_at k o : occ !! k = Some o -> run (entry_at head_payload (l_idx (o_listing o))) m = Some (Some (Ok (entry_of k o)), m).
Proof.
  intros Ho. destruct (listed_entry k o Ho) as (Hi & Hg & Hslot). unfold entry_at. destruct (o_listing o) as [[i g] kd] eqn:El. rewrite <- El in *.
  rewrite run_bind, (Hslot _ _ (aid_of base (l_idx (o_listing o)))) by (intros nx; by rewrite El).
  rewrite run_bind, (Hslot _ _ (off_of (l_idx (o_listing o)))) by (intros nx; by rewrite El).
  unfold artifact_io, tbind. rewrite run_bind. unfold fbind at 1.
  rewrite run_bind, (run_art_read k o _ (Some (Ok (art_of (o_listing o)))) Ho) by (intros js ev; by eapply cell_attach; [exact (ar_held _ _ _ _ Hm)|done|lia]).
  cbn [done run map_err]. rewrite run_bind, (Hslot _ _ k) by (intros nx; by rewrite El).
  rewrite run_bind, (Hslot _ _ (Ok (o_listing o).2)) by (intros nx; rewrite El; cbn; by rewrite kind_round). done.
Qed.

Lemma run_open_id k : run (open_id head_payload k) m = Some (Some (match occ !! k with Some o => Ok (entry_of k o) | None => Err NotFound end), m).
Proof.
  unfold open_id, tbind. rewrite run_bind, run_catalog, run_bind, run_find.
  destruct (occ !! k) as [o|] eqn:Ho; [|done]. cbn [fmap option_fmap option_map]. by apply run_entry_at.
Qed.

(** ** Creating an entry *)

Lemma run_create_at h nid inc off : head_fits head_payload off = Some true ->
  exists f, is_u32 f /\ run (create_at nid inc head_payload off) h = Some (Ok (mkArtifact nid inc false), idle (unleased f) inc NO_VERSION 0 0 0 0).
Proof.
  intros Hf. unfold create_at. rewrite Hf. rewrite run_bind. cbn [check_magic load act run pbind].
  destruct (magic h =? HEAD_MAGIC); cbn; eexists; (split; [|reflexivity]); [apply wrap32_u32|apply zero_u32].
Qed.

(** Whatever was at the offset before. *)
Lemma run_new_head nid inc off cat heads d js ev : head_fits head_payload off = Some true ->
  exists f, is_u32 f /\ run (artifact_io off (r <- on_head (create_at nid inc head_payload off) ;; done r)) (mkStoreMem cat heads d js ev)
    = Some (Some (Ok (mkArtifact nid inc false)), with_art (D := PoolMem) cat heads off (mkArtMem (idle (unleased f) inc NO_VERSION 0 0 0 0) d js ev)).
Proof.
  intros Hf. destruct (run_create_at (default zero_head (heads !! off)) nid inc off Hf) as (f & Hfu & Hrun). exists f. split; [done|].
  assert (Hq : exists (R : Set) g q, (r <- on_head (D := PoolMem) (create_at nid inc head_payload off) ;; done r) = Atomic (R := R) g q).
  { unfold create_at. rewrite Hf. by eexists _, _, _. }
  destruct Hq as (R & g & q & Eq). unfold artifact_io, fbind. rewrite run_bind, Eq, run_on_new_art, <- Eq. rewrite run_bind, run_on_head. mem. by rewrite Hrun.
Qed.

Context (intern_key : list Z -> result StoreError Z) (key : list Z) (k : Z) (Hkey : key_id_of intern_key key = Ok k).

Lemma run_create_found kd o : occ !! k = Some o -> run (create (S fuel) head_payload intern_key key kd) m = Some (Some (Ok (entry_of k o)), m).
Proof.
  intros Ho. unfold create, tbind. rewrite Hkey, run_bind, run_catalog, run_bind, run_find, Ho. by apply run_entry_at.
Qed.

Lemma run_create_new kd : occ !! k = None ->
  (exists m' o free', run (create (S fuel) head_payload intern_key key kd) m = Some (Some (Ok (entry_of k o)), m') /\
    (o_listing o).2 = kd /\ c_table (o_cell o) = empty_table /\ Z.of_nat (size occ) < c /\ at_rest (n + 1) m' (<[k := o]> occ) free') \/
  run (create (S fuel) head_payload intern_key key kd) m = Some (Some (Err (CatalogFull c)), m) /\ Z.of_nat (size occ) = c.
Proof.
  intros Ho. pose proof Hm as [A1 A2 A3 A4]. pose proof run_catalog as Hcat. pose proof (run_find k) as Hfind. rewrite Ho in Hfind. destruct m as [cat heads d js ev]. cbn [s_cat s_heads s_data s_journals] in *.
  unfold create, tbind. rewrite Hkey, run_bind, Hcat, run_bind, Hfind. cbn [fmap option_fmap option_map]. rewrite run_bind, run_on_catalog.
  destruct (run_alloc_slot c stride base Hc (G := n + 1) ltac:(lia) fuel A1) as [(i & s & cat' & free' & Hal & Hbusy & Hu)|[-> Hsz]].
  2: { right. split; [done|]. by rewrite map_size_fmap in Hsz. }
  left. rewrite Hal. destruct (ca_busy _ _ _ _ _ _ _ _ Hbusy i s eq_refl) as (Hi & _ & _ & _). pose proof (ca_range _ _ _ _ _ _ _ _ Hbusy) as [Hr _].
  pose proof (ca_count _ _ _ _ _ _ _ _ Hbusy) as Hcount. rewrite map_size_fmap in Hcount.
  destruct (run_ids c stride base _ i Hbusy) as [Ea Eo]. destruct (run_new_gen c stride base (G := n + 1) ltac:(lia) i s Hbusy Hu) as (g & Egen & Hg & Ew).
  rewrite run_bind, run_on_catalog, Ea, run_bind, run_on_catalog, Eo, run_bind, run_on_catalog, Egen.
  destruct (run_new_head (aid_of base i) g (off_of i) cat' heads d js ev (fits i ltac:(lia))) as (f & Hf & Hnew). rewrite run_bind, Hnew.
  assert (Hlk : (o_listing <$> occ) !! k = None) by (by rewrite lookup_fmap, Ho).
  destruct (run_publish_slot (G := n + 1) fuel i s g k kd ltac:(lia) Hbusy Hg Ew Hlk) as (cat'' & Hpub & Hcat'').
  unfold fbind. rewrite run_bind. unfold with_art at 1. rewrite run_on_catalog, Hpub. cbn [done run].
  set (o := mkOccupant (i, g, kd) f empty_cell). eexists _, o, free'. split; [reflexivity|]. split; [done|]. split; [done|]. split; [lia|].
  split; cbn [s_cat s_heads s_data s_journals a_head a_data a_journals].
  - rewrite fmap_insert. eapply cat_at_mono; [|exact Hcat'']. lia.
  - intros k' o' [[<- <-]|[Hne Ho']]%lookup_insert_Some.
    + split; cbn [o o_listing o_fence o_cell]; [apply lookup_insert_eq|done|apply empty_cell_ok|change (0 <= n + 1); lia].
    + destruct (A2 k' o' Ho') as [S1 S2 S3 S4]. split; try done; [|lia]. rewrite lookup_insert_ne; [done|]. intros E.
      assert (Hl' : (o_listing <$> occ) !! k' = Some (o_listing o')) by (by rewrite lookup_fmap, Ho').
      destruct (ca_live _ _ _ _ _ _ _ _ Hbusy k' _ Hl') as (Hi' & _). destruct (ca_busy _ _ _ _ _ _ _ _ Hbusy i s eq_refl) as (_ & _ & _ & Hown).
      apply (Hown k' _ Hl'). symmetry. apply off_inj; [lia|lia|done].
  - eapply held_perm; [symmetry; by apply all_holds_insert|]. exact A3.
  - exact A4.
Qed.
End at_rest.
End rest.

(** * Operations on the entries of a store at rest

    A commit, a clearing and a read of one entry through the store's handle ([StoreBatches]),
    and an eviction with the reclamation of its slot: each takes a store at rest
    to a store at rest, and acts on the one entry as the operations of
    artifacts act on a cell ([ArtifactCell]). *)

Section entries.
Context `{ArrowLib} `{!ArrowLaws} (reg : SchemaRegistry) (p : Pool) (fl : list (list Z)) (c stride base : Z) (ks : KeyedStore) (j : BorrowJournal).
#[local] Hint Extern 0 (DataSeg _) => exact (pool_data (segment p)) : typeclass_instances.
#[local] Abbreviation off_of := (CatalogIdle.off_of stride).
#[local] Abbreviation art_of := (StoreRest.art_of base).
#[local] Abbreviation at_rest := (StoreRest.at_rest reg p fl c stride base (ks_journal ks) j).
Context (Hseg : is_u32 (seg_id (segment p))) (Howner : is_u32 (ks_owner ks)) (Hcap : (2 <= capacity j)%nat).
Context (Hc : 0 <= c < U32_MAX) (Hstride : region_bytes <= stride) (Hoffs : c * stride <= U32_MAX).
Context (fuel : nat) (head_payload : Z) (Hpay : c * stride <= head_payload).
Context {n : Z} {m : StoreMem PoolMem} {occ : gmap Z occupant} {free : list Z} (Hm : at_rest n m occ free).
Context (Hn : 0 <= n < U32_MAX) (Hfuel : n <= Z.of_nat fuel).
Context (k : Z) (o : occupant) (Ho : occ !! k = Some o).

#[local] Abbreviation off := (off_of (l_idx (o_listing o))).
#[local] Abbreviation art := (art_of (o_listing o)).
#[local] Abbreviation rest := (all_holds (delete k occ)).

Lemma run_attach_journal taken cat heads d js ev : booked (ks_journal ks) j taken js ->
  run (attach_journal (D := PoolMem) (ks_journal ks)) (mkStoreMem cat heads d js ev) = Some (Some (Ok j), mkStoreMem cat heads d js ev).
Proof.
  intros (jm & Hj & Hb). unfold attach_journal. rewrite run_bind, (run_on_journal_of _ _ cat heads d js ev jm Hj). cbn.
  by rewrite (bk_attach _ _ _ Hb), list_insert_id.
Qed.

Lemma entry_held : held p fl (s_data m) (cell_holds (o_cell o) ++ rest).
Proof. eapply held_perm; [by apply all_holds_split|]. exact (ar_held _ _ _ _ _ _ _ _ _ _ _ _ Hm). Qed.

(** The committer of a session that recorded its lease in slot [s]. *)
Definition com_at (s : nat) : Committer := mkCommitter (ks_owner ks) (o_fence o) (Some ((ks_journal ks, j), s)).

(** A body run under the lease: what it makes of the cell is what the session makes of the entry. *)
Lemma leased_turn {A} (body : Committer -> prog (ArtMem PoolMem) (option A)) (Q : A -> Table -> Prop) n' : n <= n' ->
  (forall s js, booked (ks_journal ks) j {[s]} js -> exists r cl',
    turned reg p fl art rest (com_at s) js (s_events m) (s_data m) (o_cell o) (body (com_at s)) (booked (ks_journal ks) j {[s]}) r cl' /\
    Q r (c_table cl') /\ t_version (c_table cl') <= n') ->
  exists com m1 m2 m3 r cl', run (attach_journal (ks_journal ks)) m = Some (Some (Ok j), m) /\
    run (artifact_io off (open_exclusive_journaled (S fuel) art (ks_owner ks) (ks_journal ks, j))) m = Some (Some (Ok com), m1) /\
    run (on_art off (body com)) m1 = Some (Some r, m2) /\ run (on_art off (drop_committer com)) m2 = Some (tt, m3) /\
    Q r (c_table cl') /\ at_rest n' m3 (<[k := mkOccupant (o_listing o) (wrap32 (o_fence o + 1)) cl']> occ) free.
Proof.
  intros Hle Hbody. pose proof Hm as [_ A2 _ Hb]. pose proof entry_held as Hh. destruct (A2 k o Ho) as [Hhd Hf Hok Hv].
  destruct m as [cat heads d js ev]. cbn [s_cat s_heads s_data s_journals s_events] in *.
  destruct (cell_open_journaled fuel art ev (ks_journal ks) j (ks_owner ks) (o_fence o) (o_cell o) d js ∅ Howner Hf Hb) as (s & js1 & Hopen & Hb1 & _); [rewrite size_empty; lia|].
  rewrite union_empty_r_L in Hb1. destruct (Hbody s js1 Hb1) as (r & cl' & (d' & js2 & ev' & Hrun & Hb2 & Hh' & Hok' & Hk') & HQ & Hv').
  destruct (cell_close_journaled art ev' (ks_journal ks) j (ks_owner ks) (o_fence o) s cl' d' js2 {[s]} Hb2 (proj2 (elem_of_singleton s s) eq_refl)) as (js3 & Hclose & Hb3).
  rewrite difference_diag_L in Hb3.
  exists (com_at s), (with_art cat heads off (mkArtMem (cell_head art (pack_lease (ks_owner ks) (o_fence o)) (o_cell o)) d js1 ev)),
    (with_art cat heads off (mkArtMem (cell_head art (pack_lease (ks_owner ks) (o_fence o)) cl') d' js2 ev')),
    (with_art cat heads off (mkArtMem (cell_head art (unleased (wrap32 (o_fence o + 1))) cl') d' js3 ev')), r, cl'.
  split; [by eapply run_attach_journal|]. split.
  { unfold artifact_io, fbind. rewrite (with_art_id cat heads off _ d js ev Hhd), run_bind, run_on_art, Hopen. done. }
  split; [rewrite run_on_art; change (com_lease (com_at s)) with (pack_lease (ks_owner ks) (o_fence o)) in Hrun; by rewrite Hrun|]. split; [unfold com_at; by rewrite run_on_art, Hclose|]. split; [done|].
  eapply (at_rest_update reg p fl c stride base (ks_journal ks) j Hstride Hoffs n n' cat heads d js ev occ free k o); try done. apply wrap32_u32.
Qed.

#[local] Abbreviation entry := (StoreRest.entry_of stride base k o).
#[local] Abbreviation table := (c_table (o_cell o)).

(** What a session on the entry leaves: the entry with table [t]. *)
Definition entry_becomes (n' : Z) (m' : StoreMem PoolMem) (t : Table) : Prop :=
  exists f cl, c_table cl = t /\ at_rest n' m' (<[k := mkOccupant (o_listing o) f cl]> occ) free.

Lemma run_entry_commit w b : whole w -> batch_known reg b -> exists r m' t',
  run (entry_commit (segment p) (S fuel) ks entry reg w b) m = Some (Some (reg, map_err OfBatch r), m') /\
  commits reg table w b r t' /\ entry_becomes (n + 1) m' t'.
Proof.
  intros Hw Hb. destruct (ar_entries _ _ _ _ _ _ _ _ _ _ _ _ Hm k o Ho) as [_ Hf Hok Hv].
  destruct (leased_turn (fun com => committer_commit (segment p) (S fuel) art com w b reg) (fun r t' => r.1 = reg /\ commits reg table w b r.2 t') (n + 1) ltac:(lia))
    as (com & m1 & m2 & m3 & r & cl' & R1 & R2 & R3 & R4 & (Er & Hcom) & Hrest).
  { intros s js Hb1. destruct (cell_commit reg p fl fuel art Hseg (wrap32_u32 _) rest (com_at s) js (s_events m) (s_data m) (o_cell o) Howner Hok entry_held
      ltac:(lia) ltac:(lia) (booked (ks_journal ks) j {[s]}) w b Hw Hb Hb1) as (r & cl' & Ht & Hc' & Hle).
    - intros h d ev bits g. apply (booked_staged (D := PoolMem) (ks_journal ks) j fuel art {[s]} js Hb1). rewrite size_singleton. lia.
    - exists (reg, r), cl'. split; [exact Ht|]. split; [by split|lia]. }
  destruct r as [reg' r]. cbn [fst snd] in *. subst reg'. exists r, m3, (c_table cl'). split; [|split; [exact Hcom|by eexists _, cl']].
  unfold entry_commit, StoreBatches.leased, fbind. cbn [e_off e_artifact entry_of]. by rewrite run_bind, R1, run_bind, R2, run_bind, R3, run_bind, R4.
Qed.

Lemma run_entry_clear : exists r m' t',
  run (entry_evict_current (S fuel) ks entry) m = Some (Some (map_err StoreArtifact r), m') /\
  evicts table r t' /\ entry_becomes (n + 1) m' t'.
Proof.
  destruct (ar_entries _ _ _ _ _ _ _ _ _ _ _ _ Hm k o Ho) as [_ Hf Hok Hv].
  destruct (leased_turn (fun com => evict_current (S fuel) art com) (evicts table) (n + 1) ltac:(lia))
    as (com & m1 & m2 & m3 & r & cl' & R1 & R2 & R3 & R4 & Hev & Hrest).
  { intros s js Hb1. destruct (cell_evict reg p fl fuel art Hseg (wrap32_u32 _) rest (com_at s) js (s_events m) (s_data m) (o_cell o) Howner Hok entry_held
      ltac:(lia) ltac:(lia)) as (r & cl' & (d' & js' & ev' & Hrun & <- & Ht) & Hc' & Hle). exists r, cl'. split; [by exists d', js, ev'|]. split; [done|lia]. }
  exists r, m3, (c_table cl'). split; [|split; [exact Hev|by eexists _, cl']].
  unfold entry_evict_current, tbind. cbn [e_off e_artifact entry_of]. rewrite run_bind, R1, run_bind, R2.
  unfold fbind. rewrite run_bind. unfold artifact_io, fbind. rewrite run_bind, R3. cbn [done run]. by rewrite run_bind, R4.
Qed.

(** ** Reading *)

Context (concat_batches : Schema -> list RecordBatch -> result arrow_error RecordBatch).

Lemma run_entry_read_nothing : t_version table = NO_VERSION ->
  run (entry_read (segment p) (S fuel) ks entry reg concat_batches) m = Some (Some (Err (OfStore (StoreArtifact VersionGone))), m).
Proof.
  intros E0. unfold entry_read, pinned_read, fbind, entry_pin. rewrite run_bind. cbn [e_off e_artifact entry_of]. unfold artifact_io, fbind.
  rewrite run_bind, (run_art_read reg p fl c stride base (ks_journal ks) j Hm k o _ (Some (Err VersionGone)) Ho); [done|].
  intros js ev. unfold pin_journaled. by apply cell_pin_nothing.
Qed.

(** A pin that is dropped leaves the entry as it was. *)
Lemma entry_same f cl : f = o_fence o -> cl = o_cell o -> <[k := mkOccupant (o_listing o) f cl]> occ = occ.
Proof. intros -> ->. apply insert_id. rewrite Ho. by destruct o. Qed.

Lemma run_entry_read : t_version table <> NO_VERSION -> exists r m1 m',
  run (entry_read (segment p) (S fuel) ks entry reg concat_batches) m = Some (Some r, m1) /\ at_rest n m' occ free /\
  match table_batch concat_batches table with
  | Err e => r = Err (OfBatch e) /\ m1 = m'
  | Ok b => exists ps, r = Ok (ps, b) /\ run (on_art off (drop_pin (S fuel) ps)) m1 = Some (Some tt, m')
  end.
Proof.
  intros E0. pose proof Hm as [_ A2 _ Hb]. pose proof entry_held as Hh. destruct (A2 k o Ho) as [Hhd Hf Hok Hv].
  destruct m as [cat heads d js ev]. cbn [s_cat s_heads s_data s_journals s_events] in *. set (lease := unleased (o_fence o)) in *.
  destruct (cell_pin_journaled reg p fl fuel art rest ev (ks_journal ks) j lease (o_cell o) d js ∅ Hok Hh E0 Hb)
    as (ps & s & d1 & js1 & Hpin & Hps & Ej & _ & Hb1 & Hh1 & Hk1); [rewrite size_empty; lia|]. rewrite union_empty_r_L in Hb1.
  assert (Hok1 : cell_ok reg p art d1 (o_cell o)) by (eapply cell_ok_keeps; [exact Hk1|rewrite fmap_app; set_solver|done]).
  destruct (cell_batch reg p fl art Hseg rest ev (o_cell o) concat_batches (cell_pinned art lease (o_cell o)) d1 js1 ps Hok1 Hh1 Hps) as (d2 & Hrows & Hh2 & Hk2).
  destruct (cell_unpin_journaled p fuel art ev (ks_journal ks) j lease (o_cell o) d2 js1 {[s]} ps s Hps Ej (ok_slot _ _ _ _ _ Hok) E0 Hb1) as (js2 & Hdrop & Hb2).
  { by apply elem_of_singleton. }
  rewrite difference_diag_L in Hb2. set (m1 := with_art cat heads off (mkArtMem (cell_pinned art lease (o_cell o)) d2 js1 ev)).
  set (m' := with_art cat heads off (mkArtMem (cell_head art lease (o_cell o)) d2 js2 ev)).
  assert (Hrest : at_rest n m' occ free).
  { rewrite <- (entry_same (o_fence o) (o_cell o) eq_refl eq_refl). assert (Hk : keeps (cell_holds (o_cell o) ++ rest).*1 d d2) by (by eapply keeps_trans).
    eapply (at_rest_update reg p fl c stride base (ks_journal ks) j Hstride Hoffs n n cat heads d js ev occ free k o); try done.
    - eapply cell_ok_keeps; [exact Hk2|rewrite fmap_app; set_solver|done].
    - eapply keeps_sub; [|exact Hk]. rewrite fmap_app. set_solver. }
  assert (Hdrop' : run (on_art off (drop_pin (S fuel) ps)) m1 = Some (Some tt, m')) by (unfold m1; by rewrite run_on_art, Hdrop).
  assert (Hread : run (entry_read (segment p) (S fuel) ks entry reg concat_batches) (mkStoreMem cat heads d js ev)
    = run (match table_batch concat_batches table with Ok b => done (Ok (ps, b)) | Err er => _ <-- on_art off (drop_pin (S fuel) ps) ;; done (Err (OfBatch er)) end) m1).
  { unfold entry_read, pinned_read, entry_pin, fbind at 1. rewrite run_bind. cbn [e_off e_artifact entry_of]. unfold artifact_io, fbind at 1.
    rewrite (with_art_id cat heads off _ d js ev Hhd), run_bind, run_on_art, Hpin. cbn [done run map_err]. unfold fbind at 1. by rewrite run_bind, run_on_art, Hrows. }
  rewrite Hread. destruct (table_batch concat_batches table) as [b|e].
  - exists (Ok (ps, b)), m1, m'. split; [done|]. split; [done|]. by exists ps.
  - exists (Err (OfBatch e)), m', m'. split; [|done]. unfold fbind. by rewrite run_bind, Hdrop'.
Qed.
End entries.

(** ** Evicting *)

Section evict.
Context `{ArrowLib} `{!ArrowLaws} (reg : SchemaRegistry) (p : Pool) (fl : list (list Z)) (c stride base : Z) (kj : nat) (j : BorrowJournal).
#[local] Hint Extern 0 (DataSeg _) => exact (pool_data (segment p)) : typeclass_instances.
#[local] Abbreviation off_of := (CatalogIdle.off_of stride).
#[local] Abbreviation art_of := (StoreRest.art_of base).
#[local] Abbreviation at_rest := (StoreRest.at_rest reg p fl c stride base kj j).
Context (Hc : 0 <= c < U32_MAX) (Hstride : region_bytes <= stride) (Hoffs : c * stride <= U32_MAX).
Context (fuel : nat) (head_payload : Z) (Hpay : c * stride <= head_payload).

Lemma run_busy_read {G cat live free A} (q : prog CatalogSlot A) i s a : cat_at c stride base G cat live free (Some (i, s)) -> run q s = Some (a, s) ->
  run (Catalog.slot i q) cat = Some (a, cat).
Proof. intros Hcat Hq. destruct (ca_busy _ _ _ _ _ _ _ _ Hcat i s eq_refl) as (_ & Hs & _). by eapply CatalogIdle.run_cat_slot_read. Qed.

(** A teardown of an entry. *)
Lemma run_teardown l f cl heads d js ev F : cell_ok reg p (art_of l) d cl -> held p fl d (cell_holds cl ++ F) -> is_u32 f ->
  t_version (c_table cl) <= Z.of_nat (S fuel) -> exists d',
  (forall cat, run (on_art (off_of (l_idx l)) (evict_all (S fuel) (art_of l)))
      (with_art cat heads (off_of (l_idx l)) (mkArtMem (cell_head (art_of l) (unleased f) cl) d js ev))
    = Some (Some (Ok tt), with_art cat heads (off_of (l_idx l)) (mkArtMem (cell_head (art_of l) (unleased (wrap32 (f + 1))) (emptied cl)) d' js ev))) /\
  held p fl d' F /\ keeps F.*1 d d'.
Proof.
  intros Hok Hh Hf Hv. destruct (cell_evict_all reg p fl fuel (art_of l) F cl js ev f d Hf Hok Hh Hv) as (d' & Hrun & Hd').
  exists d'. split; [|done]. intros cat. by rewrite run_on_art, Hrun.
Qed.

(** The sweep's predicate on an entry whose slot it owns. *)
Lemma run_finished l f cl heads d js ev F : cell_ok reg p (art_of l) d cl -> held p fl d (cell_holds cl ++ F) -> is_u32 f ->
  t_version (c_table cl) <= Z.of_nat (S fuel) -> 0 <= l_idx l < c -> 1 <= l.1.2 -> exists h d',
  (forall cat, run (entry_is_finished (S fuel) head_payload (aid_of base (l_idx l)) (off_of (l_idx l)))
      (with_art cat heads (off_of (l_idx l)) (mkArtMem (cell_head (art_of l) (unleased f) cl) d js ev))
    = Some (Some true, with_art cat heads (off_of (l_idx l)) (mkArtMem h d' js ev))) /\ held p fl d' F /\ keeps F.*1 d d'.
Proof.
  intros Hok Hh Hf Hv Hi Hg. destruct (run_teardown l f cl heads d js ev F Hok Hh Hf Hv) as (d' & Hrun & Hd').
  eexists (set_incarnation NO_INCARNATION (cell_head (art_of l) (unleased (wrap32 (f + 1))) (emptied cl))), d'. split; [|done]. intros cat.
  unfold entry_is_finished, fbind. rewrite run_bind, run_on_art, (cell_attach p fl c stride base Hstride Hoffs head_payload Hpay l (unleased f) cl d js ev _ Hh Hi Hg).
  rewrite run_bind, Hrun. rewrite run_bind, run_on_art, run_on_head. cbn [retire run act a_head]. mem.
  rewrite run_bind, run_on_art, run_on_head. mem. unfold cell_head. cbn [emptied c_table t_version t_first c_chain c_slot newest_bits].
  change (set_incarnation NO_INCARNATION (idle ?lf ?inc ?v ?b ?sch ?n ?i)) with (idle lf NO_INCARNATION v b sch n i).
  unfold unleased. rewrite run_is_quiescent by apply wrap32_u32. done.
Qed.

Context {n : Z} {m : StoreMem PoolMem} {occ : gmap Z occupant} {free : list Z} (Hm : at_rest n m occ free).
Context (Hn : 0 <= n) (Hn' : n + 1 < U32_MAX) (Hfuel : n <= Z.of_nat fuel).
Context (intern_key : list Z -> result StoreError Z) (key : list Z) (k : Z) (Hkey : key_id_of intern_key key = Ok k).

Lemma run_evict_missing : occ !! k = None -> run (evict (S fuel) head_payload intern_key key) m = Some (Some (Ok tt), m).
Proof.
  intros Ho. unfold evict, tbind. rewrite Hkey, run_bind, (run_catalog reg p fl c stride base kj j Hm), run_bind, (run_find reg p fl c stride base kj j Hm).
  by rewrite Ho.
Qed.

Lemma run_on_cat {A} (q : prog CatMem A) cat heads off (a : ArtMem PoolMem) :
  run (on_cat cat_of q) (with_art cat heads off a) = match run q cat with Some (r, cat') => Some (r, with_art cat' heads off a) | None => None end.
Proof. exact (run_on_catalog_art q cat heads off a). Qed.

(** The slot goes back to the free list, under the next incarnation. *)
Lemma run_sweep G live free' cat heads a a' i s g aid off : cat_at c stride base G cat live free' (Some (i, s)) -> 1 <= G <= U32_MAX -> 1 <= g < G ->
  word s = pack_slot_word g SLOT_TOMBSTONE -> Catalog.artifact_id s = aid -> Catalog.head_off s = off ->
  (forall cat', run (entry_is_finished (S fuel) head_payload aid off) (with_art cat' heads off a) = Some (Some true, with_art cat' heads off a')) ->
  exists cat', run (try_reclaim_slot (S fuel) head_payload i) (with_art cat heads off a) = Some (Some true, with_art cat' heads off a') /\
    cat_at c stride base G cat' live (i :: free') None.
Proof.
  intros Hcat HG Hg Ew Ea Eo Hfin. assert (Hgu : is_u32 g) by mach.
  destruct (run_busy c stride base (begin_reclaim (S fuel)) i s (Some true) (set_word (pack_slot_word g SLOT_RECLAIMING) s) Hcat) as [R1 Hcat1].
  { unfold begin_reclaim. by rewrite (run_cas_state fuel s g SLOT_TOMBSTONE SLOT_RECLAIMING) by (done || apply live_state). }
  set (s1 := set_word _ s) in *.
  destruct (run_busy c stride base finish_reclaim i s1 (Some (g + 1)) (set_word (pack_slot_word (g + 1) SLOT_FREE) (set_key 0 s1)) Hcat1) as [R2 Hcat2].
  { unfold finish_reclaim. rewrite run_bind. cbn [load act run]. cbn zeta. change (word s1) with (pack_slot_word g SLOT_RECLAIMING).
    rewrite slot_word_gen_pack by (done || apply live_state). by rewrite (proj2 (Z.eqb_neq _ _)) by lia. }
  destruct (run_push_free c stride base Hc fuel i _ Hcat2) as (cat3 & R3 & Hcat3); [exists (g + 1); split; [lia|done]|].
  exists cat3. split; [|done]. unfold try_reclaim_slot, try_reclaim, fbind. rewrite run_bind, run_on_cat, R1. cbn [negb].
  rewrite run_bind, run_on_cat, (run_busy_read (load Catalog.artifact_id) i s1 aid Hcat1) by (cbn; by rewrite <- Ea).
  rewrite run_bind, run_on_cat, (run_busy_read (load Catalog.head_off) i s1 off Hcat1) by (cbn; by rewrite <- Eo).
  rewrite run_bind, Hfin. cbn [negb]. rewrite run_bind, run_on_cat, R2.
  rewrite run_bind, run_on_cat, R3. done.
Qed.

Lemma run_evict_found o : occ !! k = Some o -> exists m' free',
  run (evict (S fuel) head_payload intern_key key) m = Some (Some (Ok tt), m') /\ at_rest (n + 1) m' (delete k occ) free'.
Proof.
  intros Ho. pose proof Hm as [A1 A2 A3 A4]. destruct (A2 k o Ho) as [Hhd Hf Hok Hv].
  destruct (listed_entry reg p fl c stride base kj j Hm k o Ho) as (Hi & Hg & Hslot).
  pose proof (run_catalog reg p fl c stride base kj j Hm) as Hcat. pose proof (run_find reg p fl c stride base kj j Hm k) as Hfind. rewrite Ho in Hfind.
  pose proof (own_index reg p fl c stride base kj j Hstride Hoffs n m occ free) as Hown.
  set (l := o_listing o) in *. set (cl := o_cell o) in *. set (F := all_holds (delete k occ)).
  assert (Hh : held p fl (s_data m) (cell_holds cl ++ F)) by (eapply held_perm; [by apply all_holds_split|done]).
  assert (Hlk : (o_listing <$> occ) !! k = Some l) by (by rewrite lookup_fmap, Ho).
  destruct m as [cat heads d js ev]. cbn [s_cat s_heads s_data s_journals s_events] in *.
  destruct (cat_take c stride base k l (cat_at_mono c stride base (n + 1) (n + 1 + 1) _ _ _ _ ltac:(lia) A1) Hlk) as (nx & Htake).
  destruct (run_busy c stride base (tombstone_gen l.1.2) (l_idx l) (listed stride base k l nx) true (set_word (pack_slot_word l.1.2 SLOT_TOMBSTONE) (listed stride base k l nx)) Htake) as [R1 Hc1].
  { destruct l as [[i g] kd]. unfold tombstone_gen. cbn. by rewrite Z.eqb_refl. }
  set (s1 := set_word _ _) in *. set (cat1 := upd cat (l_idx l) s1) in *.
  assert (Es1 : Catalog.artifact_id s1 = aid_of base (l_idx l) /\ Catalog.head_off s1 = off_of (l_idx l)) by (unfold s1; by destruct l as [[i g] kd]).
  destruct (run_teardown l (o_fence o) cl heads d js ev F Hok Hh Hf ltac:(lia)) as (d1 & R2 & Hh1 & Hk1).
  destruct (run_finished l (wrap32 (o_fence o + 1)) (emptied cl) heads d1 js ev F (emptied_ok reg p (art_of l) cl d d1 Hok) Hh1 (wrap32_u32 _)) as (h & d2 & R3 & Hh2 & Hk2);
    [change (0 <= Z.of_nat (S fuel)); lia|done|lia|].
  destruct (run_sweep (n + 1 + 1) (delete k (o_listing <$> occ)) free cat1 heads _ _ (l_idx l) s1 l.1.2 _ _ Hc1 ltac:(lia) ltac:(lia) eq_refl (proj1 Es1) (proj2 Es1) R3)
    as (cat' & R4 & Hc').
  assert (Hl : l = (l_idx l, l.1.2, l.2)) by (by destruct l as [[i g] kd]).
  eexists _, _. split.
  { unfold evict, tbind. rewrite Hkey, run_bind, Hcat, run_bind, Hfind. cbn [fmap option_fmap option_map]. fold l.
    rewrite run_bind, (Hslot _ gen l.1.2) by (intros nx'; apply (CatalogIdle.run_gen _ _ SLOT_LIVE); [mach|apply live_state|by destruct l as [[i g] kd]]).
    rewrite run_bind, run_on_catalog, R1. cbn [negb].
    rewrite (with_art_id cat1 heads _ _ d js ev Hhd).
    rewrite run_bind, run_on_catalog_art, (run_busy_read (load Catalog.artifact_id) _ s1 (aid_of base (l_idx l)) Hc1) by exact (f_equal (fun x => Some (x, s1)) (proj1 Es1)).
    rewrite run_bind, run_on_catalog_art, (run_busy_read (load Catalog.head_off) _ s1 (off_of (l_idx l)) Hc1) by exact (f_equal (fun x => Some (x, s1)) (proj2 Es1)).
    unfold fbind at 1. rewrite run_bind, run_on_art. unfold attach_at_incarnation, tbind.
    rewrite run_bind, (cell_attach p fl c stride base Hstride Hoffs head_payload Hpay l _ cl d js ev _ Hh Hi (proj1 Hg)). cbn [art_of art_incarnation]. rewrite Z.eqb_refl. cbn [done run].
    rewrite run_bind. unfold fbind at 1. rewrite run_bind, R2. cbn [done run]. unfold fbind. by rewrite run_bind, R4. }
  unfold with_art. split; cbn [s_cat s_heads s_data s_journals a_head a_data a_journals].
  - rewrite fmap_delete. exact Hc'.
  - intros k' o' [Hne Ho']%lookup_delete_Some. destruct (A2 k' o' Ho') as [S1 S2 S3 S4]. split; try done; [| |lia].
    + rewrite lookup_insert_ne; [done|]. intros E. by eapply (Hown k k' o o').
    + assert (Hd : delete k occ !! k' = Some o') by (by rewrite lookup_delete_ne).
      eapply cell_ok_keeps; [exact (keeps_trans _ _ _ _ Hk1 Hk2)| |exact S3]. intros x Hx.
      apply (elem_of_Permutation_proper x _ _ (Permutation_map _ (all_holds_split _ _ _ Hd))). rewrite map_app. apply elem_of_app. by left.
  - exact Hh2.
  - exact A4.
Qed.
End evict.
