(* ===== verification/StoreTable.v ===== *)
(** * A keyed store is a map from keys to tables

    The contract of the store, for one client at a time: a finite map from interned keys to
    versioned tables ([ArtifactCell.Table]), of bounded size.  Creating an entry adds an
    empty table, a commit or a clearing acts on the table of its key alone, a read gives the
    batches of the current version as one, an eviction removes the key.  [store_step] is
    that contract; the theorem shows that the store's own operations behave like it, from
    the creation of its segments on, and that between operations the data segment holds the
    chunks of the live entries' current versions and nothing else. *)

From S2P Require Import Prelude Atomic BorrowJournal Arrow ArrowLayout ArrowBatch Treiber ChunkDesc ChunkCtrl Pool PoolInv SegBytes PoolClient PoolDraw PoolState JournalBooks.
From S2P Require Import Catalog CatalogConc CatalogIdle TypedRef Store StoreBatches.
From S2P Require Import Manifest ManifestCodec Window Head HeadIdle Artifact Commit Batches ArtifactChunks ArtifactCommit ArtifactCell StoreRest.

(** ** Sessions of the real operations *)

Section sessions.
Context `{ArrowLib} (seg : Segment) (fuel : nat) (head_payload : Z) (intern_key : list Z -> result StoreError Z).
Context (concat_batches : Schema -> list RecordBatch -> result arrow_error RecordBatch) (ks : KeyedStore) (reg : SchemaRegistry).
#[local] Hint Extern 0 (DataSeg _) => exact (pool_data seg) : typeclass_instances.
#[local] Abbreviation S := (StoreMem PoolMem).

Inductive store_request : Type :=
| SCreate (key : list Z) (kd : RefKind)
| SCommit (key : list Z) (c : Commit) (b : RecordBatch)
| SClear (key : list Z)
| SRead (key : list Z)
| SEvict (key : list Z).

Inductive store_reply : Type :=
| Entered (kd : RefKind)
| Installed (v : Z)
| Row (b : RecordBatch)
| Evicted.

Abbreviation io A := (prog S (option (result StoreBatchError A))).

Definition of_store {A} (q : prog S (option (result StoreError A))) : io A := r <-- q ;; done (map_err OfStore r).

(** The entry a request names. *)
Definition opened (key : list Z) : io Entry := of_store (open head_payload intern_key key).

Definition store_session (q : store_request) : io store_reply :=
  match q with
  | SCreate key kd => e <-? of_store (create fuel head_payload intern_key key kd) ;; done (Ok (Entered (e_kind e)))
  | SCommit key c b => e <-? opened key ;; r <-- entry_commit seg fuel ks e reg c b ;; done (let? v := r.2 in Ok (Installed v))
  | SClear key => e <-? opened key ;; v <-? of_store (entry_evict_current fuel ks e) ;; done (Ok (Installed v))
  | SRead key =>
      e <-? opened key ;;
      r <-? entry_read seg fuel ks e reg concat_batches ;;
      _ <-- on_art (e_off e) (drop_pin fuel r.1) ;;
      done (Ok (Row r.2))
  | SEvict key => _ <-? of_store (evict fuel head_payload intern_key key) ;; done (Ok Evicted)
  end.

Fixpoint store_sessions (qs : list store_request) : prog S (option (list (result StoreBatchError store_reply))) :=
  match qs with
  | [] => done []
  | q :: qs' => r <-- store_session q ;; rs <-- store_sessions qs' ;; done (r :: rs)
  end.

(** ** The contract *)

Abbreviation stored := (gmap Z (RefKind * Table)).

Definition key_of (q : store_request) : list Z :=
  match q with SCreate key _ | SCommit key _ _ | SClear key | SRead key | SEvict key => key end.

(** The requests that need an entry to be there. *)
Definition needs_entry (q : store_request) : bool := match q with SCommit _ _ _ | SClear _ | SRead _ => true | _ => false end.

(** Requests on key [k]; [cap] is the capacity of the catalog. *)
Inductive key_step (cap k : Z) (T : stored) : store_request -> result StoreBatchError store_reply -> stored -> Prop :=
| key_found key kd kd' t : T !! k = Some (kd', t) -> key_step cap k T (SCreate key kd) (Ok (Entered kd')) T
| key_created key kd : T !! k = None -> Z.of_nat (size T) < cap -> key_step cap k T (SCreate key kd) (Ok (Entered kd)) (<[k := (kd, empty_table)]> T)
| key_full key kd : T !! k = None -> Z.of_nat (size T) = cap -> key_step cap k T (SCreate key kd) (Err (OfStore (CatalogFull cap))) T
| key_missing q : T !! k = None -> needs_entry q = true -> key_step cap k T q (Err (OfStore NotFound)) T
| key_commit key c b kd t r t' : T !! k = Some (kd, t) -> commits reg t c b r t' ->
    key_step cap k T (SCommit key c b) (let? v := map_err OfBatch r in Ok (Installed v)) (<[k := (kd, t')]> T)
| key_clear key kd t r t' : T !! k = Some (kd, t) -> evicts t r t' ->
    key_step cap k T (SClear key) (let? v := map_err OfStore (map_err StoreArtifact r) in Ok (Installed v)) (<[k := (kd, t')]> T)
| key_empty key kd t : T !! k = Some (kd, t) -> t_version t = NO_VERSION -> key_step cap k T (SRead key) (Err (OfStore (StoreArtifact VersionGone))) T
| key_read key kd t : T !! k = Some (kd, t) -> t_version t <> NO_VERSION ->
    key_step cap k T (SRead key) (let? b := map_err OfBatch (table_batch concat_batches t) in Ok (Row b)) T
| key_evict key : key_step cap k T (SEvict key) (Ok Evicted) (delete k T).

Inductive store_step (cap : Z) (T : stored) (q : store_request) : result StoreBatchError store_reply -> stored -> Prop :=
| bad_key e : key_id_of intern_key (key_of q) = Err e -> store_step cap T q (Err (OfStore e)) T
| good_key k r T' : key_id_of intern_key (key_of q) = Ok k -> key_step cap k T q r T' -> store_step cap T q r T'.

Inductive store_run (cap : Z) : stored -> list store_request -> list (result StoreBatchError store_reply) -> stored -> Prop :=
| store_nil T : store_run cap T [] [] T
| store_cons T q r T1 qs rs T2 : store_step cap T q r T1 -> store_run cap T1 qs rs T2 -> store_run cap T (q :: qs) (r :: rs) T2.

(** What a client may commit. *)
Definition store_request_ok (q : store_request) : Prop :=
  match q with SCommit _ c b => whole c /\ batch_known reg b | _ => True end.
End sessions.

(** ** The implementation *)

Section refines.
Context `{ArrowLib} `{!ArrowLaws} (reg : SchemaRegistry) (p : Pool) (fl : list (list Z)) (c stride base : Z) (ks : KeyedStore) (j : BorrowJournal).
#[local] Hint Extern 0 (DataSeg _) => exact (pool_data (segment p)) : typeclass_instances.
#[local] Abbreviation at_rest := (StoreRest.at_rest reg p fl c stride base (ks_journal ks) j).
#[local] Abbreviation stored := (gmap Z (RefKind * Table)).

(** What a live entry means. *)
Definition view (o : occupant) : RefKind * Table := ((o_listing o).2, c_table (o_cell o)).

(** The memory between operations, after at most [n] of them. *)
Definition stored_at (n : Z) (m : StoreMem PoolMem) (T : stored) : Prop := exists occ free, at_rest n m occ free /\ T = view <$> occ.

Context (Hseg : is_u32 (seg_id (segment p))) (Howner : is_u32 (ks_owner ks)) (Hcap : (2 <= capacity j)%nat).
Context (Hc : 0 <= c < U32_MAX) (Hstride : region_bytes <= stride) (Hoffs : c * stride <= U32_MAX).
Context (fuel : nat) (head_payload : Z) (Hpay : c * stride <= head_payload) (intern_key : list Z -> result StoreError Z).
Context (concat_batches : Schema -> list RecordBatch -> result arrow_error RecordBatch).
#[local] Abbreviation session := (store_session (segment p) (S fuel) head_payload intern_key concat_batches ks reg).
#[local] Abbreviation step := (store_step intern_key concat_batches reg c).

Lemma stored_mono n n' m T : n <= n' -> stored_at n m T -> stored_at n' m T.
Proof. intros Hle (occ & free & Hm & ->). exists occ, free. split; [by eapply at_rest_mono|done]. Qed.

Section one.
Context (n : Z) (m : StoreMem PoolMem) (occ : gmap Z occupant) (free : list Z) (Hm : at_rest n m occ free).
Context (Hn : 0 <= n) (Hn' : n + 1 < U32_MAX) (Hfuel : n <= Z.of_nat fuel).

Definition served (q : store_request) : Prop := exists r m' T',
  run (session q) m = Some (Some r, m') /\ step (view <$> occ) q r T' /\ stored_at (n + 1) m' T'.

Lemma stored_same : stored_at (n + 1) m (view <$> occ).
Proof. apply (stored_mono n); [lia|]. by exists occ, free. Qed.

Lemma served_bad_key q e : key_id_of intern_key (key_of q) = Err e -> served q.
Proof.
  intros He. exists (Err (OfStore e)), m, (view <$> occ). split; [|split; [by apply bad_key|apply stored_same]].
  destruct q; cbn [key_of] in He; unfold store_session, opened, of_store, create, open, evict, tbind, fbind; by rewrite He.
Qed.

Context (k : Z).

Lemma lookup_view : (view <$> occ) !! k = view <$> occ !! k.
Proof. apply lookup_fmap. Qed.

(** Requests on a key that is not there. *)
Lemma served_missing q : key_id_of intern_key (key_of q) = Ok k -> occ !! k = None -> needs_entry q = true -> served q.
Proof.
  intros Hk Ho Hq. pose proof (run_open_id reg p fl c stride base (ks_journal ks) j Hstride Hoffs head_payload Hpay Hm k) as Hopen. rewrite Ho in Hopen.
  exists (Err (OfStore NotFound)), m, (view <$> occ). split; [|split; [eapply good_key; [done|]; apply key_missing; [by rewrite lookup_view, Ho|done]|apply stored_same]].
  destruct q; cbn [key_of] in Hk; try done; unfold store_session, opened, of_store, open, tbind, fbind; rewrite Hk; by rewrite run_bind, run_bind, Hopen.
Qed.

Lemma served_create key kd : key_id_of intern_key key = Ok k -> served (SCreate key kd).
Proof.
  intros Hk. destruct (occ !! k) as [o|] eqn:Ho.
  - eexists _, m, (view <$> occ). split; [|split; [|apply stored_same]].
    + unfold store_session, of_store, tbind, fbind. by rewrite run_bind, run_bind, (run_create_found reg p fl c stride base (ks_journal ks) j Hstride Hoffs fuel head_payload Hpay Hm intern_key key k Hk kd o Ho).
    + eapply good_key; [done|]. eapply key_found. rewrite lookup_view, Ho. reflexivity.
  - assert (Hnone : (view <$> occ) !! k = None) by (by rewrite lookup_view, Ho).
    destruct (run_create_new reg p fl c stride base (ks_journal ks) j Hc Hstride Hoffs fuel head_payload Hpay Hm ltac:(lia) intern_key key k Hk kd Ho)
      as [(m' & o & free' & Hrun & Ekd & Et & Hsz & Hrest)|[Hrun Hsz]].
    + eexists _, m', _. split; [unfold store_session, of_store, tbind, fbind; by rewrite run_bind, run_bind, Hrun|]. split.
      * eapply good_key; [done|]. cbn [entry_of e_kind]. rewrite Ekd. apply key_created; [done|by rewrite map_size_fmap].
      * exists (<[k := o]> occ), free'. split; [done|]. rewrite fmap_insert. unfold view at 2. by rewrite Ekd, Et.
    + eexists _, m, (view <$> occ). split; [unfold store_session, of_store, tbind, fbind; by rewrite run_bind, run_bind, Hrun|]. split; [|apply stored_same].
      eapply good_key; [done|]. apply key_full; [done|by rewrite map_size_fmap].
Qed.

Lemma served_evict key : key_id_of intern_key key = Ok k -> served (SEvict key).
Proof.
  intros Hk. destruct (occ !! k) as [o|] eqn:Ho.
  - destruct (run_evict_found reg p fl c stride base (ks_journal ks) j Hc Hstride Hoffs fuel head_payload Hpay Hm Hn Hn' Hfuel intern_key key k Hk o Ho) as (m' & free' & Hrun & Hrest).
    eexists _, m', _. split; [unfold store_session, of_store, tbind, fbind; by rewrite run_bind, run_bind, Hrun|].
    split; [eapply good_key; [done|apply key_evict]|]. exists (delete k occ), free'. split; [done|]. by rewrite fmap_delete.
  - eexists _, m, _. split.
    { unfold store_session, of_store, tbind, fbind. by rewrite run_bind, run_bind, (run_evict_missing reg p fl c stride base (ks_journal ks) j fuel head_payload Hm intern_key key k Hk Ho). }
    split; [eapply good_key; [done|apply key_evict]|]. rewrite <- fmap_delete, (delete_id occ k Ho). apply stored_same.
Qed.

(** ** Requests on a live entry *)

Context (o : occupant) (Ho : occ !! k = Some o).

Lemma becomes n' m' t : entry_becomes reg p fl c stride base ks j (occ := occ) (free := free) k o n' m' t ->
  stored_at n' m' (<[k := ((o_listing o).2, t)]> (view <$> occ)).
Proof. intros (f & cl & <- & Hrest). eexists _, free. split; [exact Hrest|]. by rewrite fmap_insert. Qed.

Lemma view_live : (view <$> occ) !! k = Some ((o_listing o).2, c_table (o_cell o)).
Proof. by rewrite lookup_view, Ho. Qed.

Lemma run_opened key : key_id_of intern_key key = Ok k -> run (opened (segment p) head_payload intern_key key) m = Some (Some (Ok (entry_of stride base k o)), m).
Proof.
  intros Hk. unfold opened, of_store, open, fbind. rewrite Hk, run_bind, (run_open_id reg p fl c stride base (ks_journal ks) j Hstride Hoffs head_payload Hpay Hm k), Ho. done.
Qed.

Lemma served_commit key w b : key_id_of intern_key key = Ok k -> whole w -> batch_known reg b -> served (SCommit key w b).
Proof.
  intros Hk Hw Hb. destruct (run_entry_commit reg p fl c stride base ks j Hseg Howner Hcap Hstride Hoffs fuel Hm ltac:(lia) Hfuel k o Ho w b Hw Hb)
    as (r & m' & t' & Hrun & Hcom & Hst). eexists _, m', _. split.
  - unfold store_session, tbind. rewrite run_bind, (run_opened key Hk). unfold fbind. by rewrite run_bind, Hrun.
  - split; [|by apply becomes]. eapply good_key; [done|]. eapply key_commit; [apply view_live|done].
Qed.

Lemma served_clear key : key_id_of intern_key key = Ok k -> served (SClear key).
Proof.
  intros Hk. destruct (run_entry_clear reg p fl c stride base ks j Hseg Howner Hcap Hstride Hoffs fuel Hm ltac:(lia) Hfuel k o Ho)
    as (r & m' & t' & Hrun & Hev & Hst). exists (let? v := map_err OfStore (map_err StoreArtifact r) in Ok (Installed v)), m'. eexists. split.
  - unfold store_session, tbind. rewrite run_bind, (run_opened key Hk). unfold of_store, fbind. rewrite run_bind, run_bind, Hrun. by destruct r.
  - split; [|by apply becomes]. eapply good_key; [done|]. eapply key_clear; [apply view_live|done].
Qed.

Lemma served_read key : key_id_of intern_key key = Ok k -> served (SRead key).
Proof.
  intros Hk. destruct (Z.eq_dec (t_version (c_table (o_cell o))) NO_VERSION) as [E0|E0].
  - eexists _, m, _. split; [|split; [eapply good_key; [done|]; eapply key_empty; [apply view_live|done]|apply stored_same]].
    unfold store_session, tbind. rewrite run_bind, (run_opened key Hk).
    by rewrite run_bind, (run_entry_read_nothing reg p fl c stride base ks j fuel Hm k o Ho concat_batches E0).
  - destruct (run_entry_read reg p fl c stride base ks j Hseg Howner Hcap Hc Hstride Hoffs fuel head_payload Hpay Hm ltac:(lia) Hfuel k o Ho concat_batches E0) as (r & m1 & m' & Hrun & Hrest & Hr).
    exists (let? b := map_err OfBatch (table_batch concat_batches (c_table (o_cell o))) in Ok (Row b)), m', (view <$> occ).
    split; [|split; [eapply good_key; [done|]; eapply key_read; [apply view_live|done]|apply (stored_mono n); [lia|by exists occ, free]]].
    unfold store_session, tbind. rewrite run_bind, (run_opened key Hk), run_bind, Hrun. destruct (table_batch _ _) as [b|e]; cbn [map_err].
    + destruct Hr as (ps & -> & Hdrop). cbn [entry_of e_off fst snd]. unfold fbind. by rewrite run_bind, Hdrop.
    + by destruct Hr as [-> ->].
Qed.
End one.

Lemma session_served n m T q : stored_at n m T -> store_request_ok reg q -> 0 <= n -> n + 1 < U32_MAX -> n <= Z.of_nat fuel ->
  exists r m' T', run (session q) m = Some (Some r, m') /\ step T q r T' /\ stored_at (n + 1) m' T'.
Proof.
  intros (occ & free & Hm & ->) Hq Hn Hn' Hf. destruct (key_id_of intern_key (key_of q)) as [k|e] eqn:Hk; [|by eapply served_bad_key].
  destruct q as [key kd|key w b|key|key|key]; cbn [key_of] in Hk; [by eapply served_create| | | |by eapply served_evict];
    (destruct (occ !! k) as [o|] eqn:Ho; [|by eapply served_missing]).
  - destruct Hq as [Hw Hb]. by eapply served_commit.
  - by eapply served_clear.
  - by eapply served_read.
Qed.

Lemma sessions_served qs n m T : stored_at n m T -> Forall (store_request_ok reg) qs -> 0 <= n -> n + Z.of_nat (length qs) < U32_MAX ->
  n + Z.of_nat (length qs) <= Z.of_nat fuel ->
  exists rs m' T', run (store_sessions (segment p) (S fuel) head_payload intern_key concat_batches ks reg qs) m = Some (Some rs, m') /\
    store_run intern_key concat_batches reg c T qs rs T' /\ stored_at (n + Z.of_nat (length qs)) m' T'.
Proof.
  intros Hm Hqs. revert n m T Hm. induction Hqs as [|q qs Hq _ IH]; intros n m T Hm Hn Hv Hf.
  { exists [], m, T. split_and!; [done|constructor|]. apply (stored_mono n); [cbn; lia|done]. }
  cbn [length] in *. destruct (session_served n m T q Hm Hq Hn ltac:(lia) ltac:(lia)) as (r & m1 & T1 & Hrun & Hst & Hm1).
  destruct (IH (n + 1) m1 T1 Hm1 ltac:(lia) ltac:(lia) ltac:(lia)) as (rs & m2 & T2 & Hrun2 & Hst2 & Hm2).
  exists (r :: rs), m2, T2. split_and!; [cbn [store_sessions]; unfold fbind; by rewrite run_bind, Hrun, run_bind, Hrun2|by econstructor|].
  eapply stored_mono; [|exact Hm2]. lia.
Qed.
End refines.

(** C12. A keyed store is a map from keys to versioned tables of record batches.  On a
    catalog, a data segment and a journal just created, for every history of creations,
    commits of whole batches, clearings, reads and evictions by one actor, every request
    terminates and is answered as the map allows.  Creating a key that is not there adds an
    empty table, and fails exactly when the catalog is full of live keys, so an evicted
    key's slot serves again; creating one that is there changes nothing; a commit, a
    clearing or a read concerns the table of its key alone and is answered as the contract
    of artifacts says; the other requests on a missing key report it, and an eviction
    removes the key whatever it held.  After the history the data segment holds, besides
    free chunks, exactly the manifests and the data of the current versions of the live
    keys, and the actor's journal is empty. *)
Theorem store_refines_map `{ArrowLib} `{!ArrowLaws} seg cfg ks reg catalog_payload cap stride base head_payload journal_payload slots j jm
    intern_key concat_batches heads js ev qs fuel :
  cfg_ok cfg -> ideal_bytes cfg <= payload_len seg -> is_u32 (seg_id seg) -> is_u32 (ks_owner ks) ->
  Catalog.required_bytes cap <= catalog_payload -> 0 <= cap < U32_MAX ->
  region_bytes <= stride -> cap * stride <= head_payload -> cap * stride <= U32_MAX ->
  BorrowJournal.create journal_payload slots = Ok (j, jm) -> (2 <= slots)%nat -> Z.of_nat slots < U32_MOD -> js !! ks_journal ks = Some jm ->
  Forall (store_request_ok reg) qs -> Z.of_nat (length qs) < U32_MAX -> (length qs <= fuel)%nat ->
  exists p d cat rs m T,
    Pool.create seg cfg = Ok (p, d) /\ Catalog.init catalog_payload cap stride base = Ok (cap, cat) /\
    run (store_sessions seg (S fuel) head_payload intern_key concat_batches ks reg qs) (mkStoreMem cat heads d js ev) = Some (Some rs, m) /\
    store_run intern_key concat_batches reg cap ∅ qs rs T /\
    stored_at reg p (all_free (classes d)) cap stride base ks j (Z.of_nat (length qs)) m T.
Proof.
  intros Hcfg Hfit Hseg Howner Hcat Hcap Hstride Hpay Hoffs Hj Hslots Hslots' Hjs Hqs Hlen Hfuel.
  destruct (create_held seg cfg Hcfg Hfit) as (p & d & Hcr & Es & Hh). subst seg.
  destruct (Catalog.init catalog_payload cap stride base) as [[cat m0]|e] eqn:Ei; [|unfold Catalog.init in Ei; by rewrite (proj2 (Z.ltb_ge _ _)) in Ei].
  destruct (cat_at_init _ _ _ _ _ _ Ei ltac:(lia)) as [-> Hm0].
  assert (Ecap : capacity j = slots).
  { unfold BorrowJournal.create in Hj. destruct (slots =? 0)%nat; [done|]. cbn -[Z.ltb layout] in Hj. destruct (layout slots) as [[[? ?] ?] ?]. destruct (_ <? _); [done|]. by injection Hj as <- _. }
  destruct (sessions_served reg p (all_free (classes d)) cap stride base ks j Hseg Howner ltac:(lia) Hcap Hstride Hoffs fuel head_payload Hpay intern_key concat_batches
    qs 0 (mkStoreMem m0 heads d js ev) ∅) as (rs & m & T & Hrun & Hst & Hm); [|done|lia|lia|lia|].
  - exists ∅, []. split; [|by rewrite fmap_empty]. split; cbn [s_cat s_heads s_data s_journals].
    + rewrite fmap_empty. exact Hm0.
    + intros k o Ho. by rewrite lookup_empty in Ho.
    + unfold all_holds. rewrite map_to_list_empty. exact Hh.
    + exists jm. split; [done|]. by eapply books_create.
  - exists p, d, m0, rs, m, T. split; [exact Hcr|]. split; [done|]. split; [exact Hrun|]. split; [exact Hst|]. exact Hm.
Qed.

(** ** A history *)

Definition store_cfg : PoolConfig := [mkSizeClass 128 4; mkSizeClass 512 8].
Definition store_seg : Segment := mkSegment 9 16384.
Definition store_reg : SchemaRegistry := with_schemas [demo_schema].
Definition store_handle : KeyedStore := mkStore 0 7.
Definition store_journal : BorrowJournal * JournalMem :=
  match BorrowJournal.create 4096 4 with Ok jm => jm | Err _ => (mkJournal 0 0, mkJournalMem 0 0 0 [] []) end.

(** Keys of one byte are interned as that byte. *)
Definition demo_intern (key : list Z) : result StoreError Z := match key with [b] => Ok b | _ => Err Intern end.

(** The columns of all batches, one after the other. *)
Definition demo_concat (s : Schema) (bs : list (Schema * list ArrayData)) : result unit (Schema * list ArrayData) := Ok (s, concat bs.*2).

Definition demo_put (key : Z) (c : Commit) : @store_request _ demo_lib := @SCommit _ demo_lib [key] c demo_batch.
Definition demo_store_requests : list (@store_request _ demo_lib) :=
  [SCreate [1] KDataset; SCreate [2] KObject; SCreate [3] KDataset; demo_put 1 Append; demo_put 1 Append; SRead [1]; SClear [2];
   SEvict [1]; SRead [1]; SCreate [3] KResult; demo_put 3 Replace; SRead [3]; SCreate [3] KDataset; SCreate [] KDataset].

Definition demo_stored : Schema * list ArrayData := match rebuilt_batch demo_batch with Ok b => b | Err _ => demo_batch end.
Definition demo_row (n : nat) : @store_reply _ demo_lib := @Row _ demo_lib (demo_stored.1, concat (replicate n demo_stored.2)).
Definition demo_store_replies : list (result StoreBatchError (@store_reply _ demo_lib)) :=
  [Ok (Entered KDataset); Ok (Entered KObject); Err (OfStore (CatalogFull 2)); Ok (Installed 1); Ok (Installed 2); Ok (demo_row 2);
   Err (OfStore (StoreArtifact VersionGone)); Ok Evicted; Err (OfStore NotFound); Ok (Entered KResult); Ok (Installed 1); Ok (demo_row 1);
   Ok (Entered KResult); Err (OfStore Intern)].

Lemma demo_put_ok key c : whole c -> store_request_ok store_reg (demo_put key c).
Proof.
  intros Hc. split; [done|]. split.
  - split; [done|]. repeat constructor; cbn; try done; try lia; repeat constructor; try lia.
  - exists 1. split; [vm_compute; split; congruence|]. split; reflexivity.
Qed.

Lemma store_refines_map_witness : exists p d cat m T,
  Pool.create store_seg store_cfg = Ok (p, d) /\ Catalog.init 4096 2 1600 268435456 = Ok (2, cat) /\
  run (store_sessions store_seg 15 3200 demo_intern demo_concat store_handle store_reg demo_store_requests)
    (mkStoreMem cat ∅ d [store_journal.2] []) = Some (Some demo_store_replies, m) /\
  store_run demo_intern demo_concat store_reg 2 ∅ demo_store_requests demo_store_replies T /\
  stored_at store_reg p (all_free (classes d)) 2 1600 268435456 store_handle store_journal.1 14 m T.
Proof.
  destruct (@store_refines_map _ demo_lib _ store_seg store_cfg store_handle store_reg 4096 2 1600 268435456 3200 4096 4 store_journal.1 store_journal.2
    demo_intern demo_concat ∅ [store_journal.2] [] demo_store_requests 14) as (p & d & cat & rs & m & T & Hcr & Hcat & Hrun & Hst & Hm).
  - split_and!; [done| |vm_compute; discriminate]. repeat constructor; cbn; try lia; by apply Z.mod_divide.
  - vm_compute. discriminate.
  - split; reflexivity || discriminate.
  - split; reflexivity || discriminate.
  - vm_compute. discriminate.
  - split; reflexivity || discriminate.
  - vm_compute. discriminate.
  - vm_compute. discriminate.
  - vm_compute. discriminate.
  - vm_compute. reflexivity.
  - lia.
  - reflexivity.
  - reflexivity.
  - repeat (apply list.Forall_cons; split; [first [exact I|apply demo_put_ok; first [by left|by right]]|]). constructor.
  - reflexivity.
  - cbn. lia.
  - exists p, d, cat, m, T. assert (Ers : rs = demo_store_replies); [|by subst rs].
    assert (E : fst <$> run (store_sessions store_seg 15 3200 demo_intern demo_concat store_handle store_reg demo_store_requests) (mkStoreMem cat ∅ d [store_journal.2] []) = Some (Some rs))
      by (by rewrite Hrun).
    clear Hrun Hst Hm. vm_compute in Hcr. injection Hcr as <- <-. vm_compute in Hcat. injection Hcat as <-.
    vm_compute in E. injection E as <-. vm_compute. reflexivity.
Defined.
