(* ===== verification/ReclaimChunks.v ===== *)
(** * What a crash reclaim does to a pool

    One record of a dead actor's journal is the release of one hold on one chunk; the
    records together leave every chunk as if exactly the dead actor's holds on it had been
    given back, free each chunk whose last hold that was, once, and put it on its class's
    free list. *)

From S2P Require Import Prelude Atomic ChunkDesc ChunkCtrl Treiber Pool PoolInv PoolClient PoolState Reclaim.

(** ** One hold *)

(** The abstract effect of [release_hold]: whether it freed the chunk, and what is left. *)
Definition hold_spec (d : ChunkDesc) (actor : Z) (a : AbsCtrl) : bool * AbsCtrl :=
  if negb (ChunkDesc.generation d =? recycled a) then (false, a)
  else
    match life a with
    | Published n =>
        let a1 := if 0 <? n then mkAbs (Published (n - 1)) (owner a) (recycled a)
                  else mkAbs (life a) OWNER_NONE (recycled a) in
        match reclaim a1 with (RFreed b, a') => (b, a') | _ => (false, a) end
    | Loaned => if owner a =? actor then (true, recycle a) else (false, a)
    | Free => (false, a)
    end.

Lemma run_release_hold d actor a fuel :
  abs_wf a ->
  run (release_hold (S fuel) d actor) (concrete a) =
    Some (Some (hold_spec d actor a).1, concrete (hold_spec d actor a).2).
Proof.
  intros Hwf. pose proof Hwf as (Ho & Hr & Hl). destruct a as [l o g].
  unfold release_hold, hold_spec. cbn [life owner recycled] in *.
  rewrite run_bind. cbn [run validate generation pbind load act concrete ctrl_gen recycled].
  destruct (Z.eqb_spec (ChunkDesc.generation d) g) as [Hg|Hg]; cbn [negb]; [|done].
  destruct l as [| |n].
  - cbn. ctrl_words. done.
  - cbn. ctrl_words. cbn. destruct (Z.eqb_spec o actor); cbn; [|done]. ctrl_words. done.
  - unfold ChunkCtrl.state, load_word. rewrite run_bind. cbn [run load act pbind concrete word life life_word].
    ctrl_words. rewrite run_bind. unfold ChunkCtrl.refcount, load_word. cbn [run load act pbind concrete word life life_word].
    ctrl_words. destruct (Z.ltb_spec 0 n) as [Hn|Hn].
    + rewrite (run_release_shared n o g fuel) by done. unfold reclaim. cbn [life].
      by destruct ((n - 1 =? 0) && (owner (mkAbs (Published (n - 1)) o g) =? OWNER_NONE)).
    + rewrite run_bind. unfold owner_release. rewrite run_bind. cbn [run store_owner store act].
      change (set_owner OWNER_NONE (concrete (mkAbs (Published n) o g))) with (concrete (mkAbs (Published n) OWNER_NONE g)).
      rewrite (run_try_reclaim (mkAbs (Published n) OWNER_NONE g)) by (split; [cbn; auto with shm|done]).
      unfold reclaim. cbn [life]. by destruct ((n =? 0) && (owner (mkAbs (Published n) OWNER_NONE g) =? OWNER_NONE)).
Qed.

Lemma hold_spec_wf d actor a : abs_wf a -> abs_wf (hold_spec d actor a).2.
Proof.
  intros Hwf. pose proof Hwf as (Ho & Hr & Hl). unfold hold_spec. destruct (negb _); [done|].
  destruct (life a) as [| |n] eqn:El; [done|destruct (_ =? _); [apply recycle_wf|done]|].
  destruct (Z.ltb_spec 0 n).
  - pose proof (reclaim_wf (mkAbs (Published (n - 1)) (owner a) (recycled a))) as Hw.
    destruct (reclaim _) as [[r|b|g] a']; [done| |done]. apply Hw. split_and!; [done|done|cbn; mach].
  - pose proof (reclaim_wf (mkAbs (Published n) OWNER_NONE (recycled a))) as Hw.
    destruct (reclaim _) as [[r|b|g] a']; [done| |done]. apply Hw. split_and!; [cbn; auto with shm|done|done].
Qed.

Lemma hold_spec_freed d actor a : (hold_spec d actor a).1 = true -> life a <> Free.
Proof. unfold hold_spec. destruct (negb _); [done|]. by destruct (life a). Qed.

Lemma hold_spec_freed_life d actor a : (hold_spec d actor a).1 = true -> life (hold_spec d actor a).2 = Free.
Proof.
  unfold hold_spec, reclaim. destruct (negb _); [done|]. destruct (life a) as [| |n]; [done|by destruct (_ =? _)|].
  destruct (0 <? n); cbn [life]; by destruct (_ && _).
Qed.

Lemma hold_spec_free d actor a : life a = Free -> hold_spec d actor a = (false, a).
Proof. intros E. unfold hold_spec. rewrite E. by destruct (negb _). Qed.

(** ** One record *)

(** The abstract effect of one record on control words and free lists. *)
Definition abs_one (pl : option (nat * Z * Z)) (d : ChunkDesc) (actor : Z) (s : list AbsCtrl * list (list Z))
    : option ChunkDesc * (list AbsCtrl * list (list Z)) :=
  match pl with
  | None => (None, s)
  | Some (i, l, g) =>
      match s.1 !! Z.to_nat g with
      | None => (None, s)
      | Some a =>
          let r := hold_spec d actor a in
          let cs := <[Z.to_nat g := r.2]> s.1 in
          if r.1 then (Some d, (cs, alter (cons l) i s.2)) else (None, (cs, s.2))
      end
  end.

(** [reclaim_one] is its abstract effect, and never faults or loops. *)
Lemma run_reclaim_one p m cs fl fuel d actor :
  pool_at p m cs fl ->
  exists m', run (reclaim_one (S fuel) p d actor) m = Some (Some (abs_one (place p m d) d actor (cs, fl)).1, m') /\
    pool_at p m' (abs_one (place p m d) d actor (cs, fl)).2.1 (abs_one (place p m d) d actor (cs, fl)).2.2 /\
    same_places m m'.
Proof.
  intros Hat. pose proof Hat as [Hinv Hc Hw Hf]. pose proof Hinv as (Hg & Hlen & _).
  unfold reclaim_one, Pool.ctrl. rewrite !run_bind.
  destruct (locate_total p m (offset d) Hg) as (r & Hr). rewrite Hr. unfold place. rewrite Hr.
  destruct r as [[[i l] g]|e]; [|exists m; split_and!; [done|done|apply same_places_refl]].
  assert (Hpl : place p m d = Some (i, l, g)) by (unfold place; by rewrite Hr).
  pose proof (place_bounds p m d i l g Hg Hpl) as Hgb.
  destruct (lookup_lt_is_Some_2 cs (Z.to_nat g)) as [a Ha]; [rewrite Hc, length_fmap in Hgb; lia|].
  assert (Hwa : abs_wf a) by (by apply (Forall_lookup_1 _ _ _ _ Hw Ha)).
  assert (Hca : ctrls m !! Z.to_nat g = Some (concrete a)) by (by rewrite Hc, list_lookup_fmap, Ha).
  rewrite run_bind. unfold ctrl_at. rewrite (run_lift_elem _ _ _ _ _ _ ctrls_lens Hca).
  rewrite (run_release_hold d actor a fuel Hwa). cbn [abs_one fst snd run]. rewrite Ha.
  assert (Hat1 : pool_at p (set_ctrls (<[Z.to_nat g := concrete (hold_spec d actor a).2]> (ctrls m)) m)
                   (<[Z.to_nat g := (hold_spec d actor a).2]> cs) fl).
  { apply (pool_at_ctrl p m cs fl _ a); [done|done|by apply hold_spec_wf|].
    intros E. by rewrite hold_spec_free. }
  destruct (hold_spec d actor a).1 eqn:Eb; cbn [fst snd]; [|eexists; split_and!; [done|done|exact (same_places_refl m)]].
  pose proof Hpl as (c & Hi & Hl & Ho & Eg)%(place_Some p m d i l g Hg).
  destruct (lookup_lt_is_Some_2 fl i) as [f Hfl]; [rewrite Hlen; by eapply lookup_lt_Some|].
  assert (Hni : l ∉ f).
  { intros Hin. destruct (Hf d i l g f Hpl Hfl Hin) as (b & Hb & Eb'). rewrite Ha in Hb. injection Hb as <-. by apply (hold_spec_freed d actor a). }
  destruct (free_pushes p _ fl fuel i c l f d (at_inv _ _ _ _ Hat1) Hi Hl Ho Hfl Hni) as (m' & Hrun & Hinv' & Ec & (h & Ecl) & _).
  assert (Hsp : same_places m m') by (by apply (same_places_head m m' i h)).
  exists m'. unfold fbind. rewrite run_bind, Hrun. split_and!; [done| |done].
  assert (E : alter (cons l) i fl = <[i := l :: f]> fl) by (by apply alter_lookup_insert).
  rewrite E. split; [done|by rewrite Ec; cbn; rewrite Hc, list_fmap_insert|apply Hat1|].
  intros e j k gz f' Hpe Hfj Hk. rewrite (same_places_place p m m' e Hg (proj1 Hinv') Hsp) in Hpe.
  destruct (decide (Z.to_nat g = Z.to_nat gz)) as [Egz|Hne].
  - exists (hold_spec d actor a).2. rewrite <- Egz, list_lookup_insert_eq by (by eapply lookup_lt_Some).
    split; [done|by apply hold_spec_freed_life].
  - rewrite list_lookup_insert_ne by done. destruct (decide (i = j)) as [<-|Hij].
    + rewrite list_lookup_insert_eq in Hfj by (by eapply lookup_lt_Some). injection Hfj as <-.
      apply elem_of_cons in Hk as [->|Hk]; [|by apply (Hf e i k gz f)]. exfalso. apply Hne.
      pose proof Hpe as (c' & Hi' & _ & _ & ->)%(place_Some p m e i l gz Hg). by simplify_eq.
    + rewrite list_lookup_insert_ne in Hfj by done. by apply (Hf e j k gz f').
Qed.

(** ** A whole journal *)

Fixpoint abs_fold (pl : ChunkDesc -> option (nat * Z * Z)) (actor : Z) (ds : list ChunkDesc)
    (s : list AbsCtrl * list (list Z)) : list ChunkDesc * (list AbsCtrl * list (list Z)) :=
  match ds with
  | [] => ([], s)
  | d :: ds' =>
      let r := abs_one (pl d) d actor s in
      let q := abs_fold pl actor ds' r.2 in
      ((match r.1 with Some d => [d] | None => [] end) ++ q.1, q.2)
  end.

(** [d] is at control word [g]. *)
Definition at_word (pl : ChunkDesc -> option (nat * Z * Z)) (g : nat) (d : ChunkDesc) : bool :=
  match pl d with Some (_, _, gz) => (Z.to_nat gz =? g)%nat | None => false end.

(** The records of [ds] that stand for a hold on the chunk in its current use. *)
Definition holds_of (pl : ChunkDesc -> option (nat * Z * Z)) (g : nat) (a : AbsCtrl) (ds : list ChunkDesc) : Z :=
  Z.of_nat (length (filter (fun d => at_word pl g d && (ChunkDesc.generation d =? recycled a) = true) ds)).

(** Giving [k] holds of [actor] back frees the chunk. *)
Definition freed_by (actor k : Z) (a : AbsCtrl) : bool :=
  match life a with
  | Free => false
  | Loaned => (0 <? k) && (owner a =? actor)
  | Published n => (0 <? k) && (k =? n) && (owner a =? OWNER_NONE)
  end.

(** What a chunk is after [k] holds of [actor] were given back. *)
Definition settled (actor k : Z) (a : AbsCtrl) : AbsCtrl :=
  if freed_by actor k a then recycle a
  else match life a with
       | Published n => mkAbs (Published (n - k)) (owner a) (recycled a)
       | _ => a
       end.

(** The records do not outnumber the pins. *)
Definition accounted (k : Z) (a : AbsCtrl) : Prop := forall n, life a = Published n -> k <= n.

Lemma settled_none actor a : settled actor 0 a = a.
Proof. unfold settled, freed_by. destruct a as [[| |n] o g]; cbn; try done. by rewrite Z.sub_0_r. Qed.

Lemma freed_by_none actor a : freed_by actor 0 a = false.
Proof. unfold freed_by. by destruct (life a). Qed.

(** One hold, then the others. *)
Lemma settle_step d actor a k :
  ChunkDesc.generation d = recycled a -> 0 <= k -> accounted (1 + k) a ->
  let r := hold_spec d actor a in
  if r.1 then freed_by actor (1 + k) a = true /\ r.2 = recycle a
  else freed_by actor (1 + k) a = freed_by actor k r.2 /\ settled actor (1 + k) a = settled actor k r.2 /\
    recycled r.2 = recycled a /\ accounted k r.2.
Proof.
  intros Eg Hk Hacc. destruct a as [l o g]. unfold hold_spec, settled, freed_by, accounted, reclaim in *.
  cbn [life owner recycled] in *. rewrite Eg, Z.eqb_refl. cbn [negb].
  destruct l as [| |n]; [done| |].
  - destruct (Z.eqb_spec o actor); cbn [fst snd life owner recycled];
      [split; [|done]; rewrite (proj2 (Z.ltb_lt _ _)) by lia; done|].
    rewrite (proj2 (Z.eqb_neq o actor)) by done. by rewrite !andb_false_r.
  - specialize (Hacc n eq_refl). rewrite (proj2 (Z.ltb_lt 0 n)), (proj2 (Z.ltb_lt 0 (1 + k))) by lia.
    cbn [andb life owner]. destruct (Z.eqb_spec o OWNER_NONE) as [->|Ho].
    + destruct (Z.eqb_spec (n - 1) 0) as [E|E]; cbn [andb fst snd].
      * split; [|done]. rewrite (proj2 (Z.eqb_eq (1 + k) n)) by lia. done.
      * cbn [life owner recycled]. rewrite (andb_true_r (1 + k =? n)).
        assert (Et : (1 + k =? n) = (0 <? k) && (k =? n - 1) && (OWNER_NONE =? OWNER_NONE)).
        { destruct (Z.eqb_spec (1 + k) n), (Z.ltb_spec 0 k), (Z.eqb_spec k (n - 1)); try done; lia. }
        rewrite <- Et. split_and!; [done| |done|intros ? [= <-]; lia].
        destruct (1 + k =? n); [done|]. by replace (n - 1 - k) with (n - (1 + k)) by lia.
    + rewrite !andb_false_r. cbn [fst snd life owner recycled]. rewrite (proj2 (Z.eqb_neq o OWNER_NONE)) by done.
      rewrite !andb_false_r. split_and!; [done| |done|intros ? [= <-]; lia].
      by replace (n - 1 - k) with (n - (1 + k)) by lia.
Qed.

Lemma holds_of_cons pl g a d ds :
  holds_of pl g a (d :: ds) =
    (if at_word pl g d && (ChunkDesc.generation d =? recycled a) then 1 else 0) + holds_of pl g a ds.
Proof.
  unfold holds_of. rewrite filter_cons. case_decide as E; [rewrite E; cbn [length]; lia|].
  apply not_true_is_false in E. rewrite E. lia.
Qed.

Lemma holds_of_nonneg pl g a ds : 0 <= holds_of pl g a ds.
Proof. unfold holds_of. lia. Qed.

(** How often a chunk is in a list of descriptors. *)
Definition times (pl : ChunkDesc -> option (nat * Z * Z)) (g : nat) (ds : list ChunkDesc) : nat :=
  length (filter (fun d => at_word pl g d = true) ds).

Lemma times_app pl g ds es : times pl g (ds ++ es) = (times pl g ds + times pl g es)%nat.
Proof. unfold times. by rewrite list.filter_app, length_app. Qed.

Lemma times_one pl g d : times pl g [d] = if at_word pl g d then 1%nat else 0%nat.
Proof. unfold times. rewrite filter_cons, filter_nil. case_decide as E; [by rewrite E|]. by apply not_true_is_false in E as ->. Qed.

(** What one record changes, word by word. *)
Lemma abs_one_word pl d actor cs fl g a :
  cs !! g = Some a ->
  (abs_one (pl d) d actor (cs, fl)).2.1 !! g = Some (if at_word pl g d then (hold_spec d actor a).2 else a) /\
  (at_word pl g d = true -> (abs_one (pl d) d actor (cs, fl)).1 = if (hold_spec d actor a).1 then Some d else None).
Proof.
  intros Ha. unfold abs_one, at_word. destruct (pl d) as [[[i l] gz]|]; [|done]. cbn [fst snd].
  destruct (Nat.eqb_spec (Z.to_nat gz) g) as [->|Hne].
  - rewrite Ha. destruct (hold_spec d actor a) as [[|] a']; cbn; by rewrite list_lookup_insert_eq by (by eapply lookup_lt_Some).
  - destruct (cs !! Z.to_nat gz) as [b|]; [|done]. destruct (hold_spec d actor b) as [[|] b']; cbn; by rewrite list_lookup_insert_ne.
Qed.

(** Every chunk ends as settled by the dead actor's holds on it, and is reported once if
    that frees it, never otherwise. *)
Lemma abs_fold_exact pl actor ds cs fl g a :
  cs !! g = Some a -> accounted (holds_of pl g a ds) a ->
  (abs_fold pl actor ds (cs, fl)).2.1 !! g = Some (settled actor (holds_of pl g a ds) a) /\
  times pl g (abs_fold pl actor ds (cs, fl)).1 = if freed_by actor (holds_of pl g a ds) a then 1%nat else 0%nat.
Proof.
  revert cs fl a. induction ds as [|d ds IH]; intros cs fl a Ha Hacc.
  { change (holds_of pl g a []) with 0. rewrite settled_none, freed_by_none. done. }
  cbn [abs_fold fst snd]. rewrite times_app. destruct (abs_one_word pl d actor cs fl g a Ha) as [Hw Hr].
  destruct (abs_one (pl d) d actor (cs, fl)) as [r [cs1 fl1]] eqn:E1. cbn [fst snd] in *.
  rewrite holds_of_cons in Hacc |- *. destruct (at_word pl g d) eqn:Eat; cbn [andb] in *.
  2: { rewrite Z.add_0_l in *. destruct (IH cs1 fl1 a Hw Hacc) as [-> ->]. split; [done|].
       destruct r as [d'|]; [|done].
       assert (d' = d) as -> by (revert E1; unfold abs_one; repeat case_match; intros; by simplify_eq).
       by rewrite times_one, Eat. }
  rewrite (Hr eq_refl). destruct (Z.eqb_spec (ChunkDesc.generation d) (recycled a)) as [Eg|Eg].
  - pose proof (settle_step d actor a _ Eg (holds_of_nonneg pl g a ds) Hacc) as Hs.
    destruct (hold_spec d actor a) as [[|] a'] eqn:Eh; cbn [fst snd] in *.
    + destruct Hs as [Hf ->]. rewrite times_one, Eat.
      destruct (IH cs1 fl1 (recycle a) Hw) as [-> ->]; [done|]. unfold settled. rewrite Hf. done.
    + destruct Hs as (-> & -> & Erc & Hacc'). assert (Eh' : holds_of pl g a ds = holds_of pl g a' ds) by (unfold holds_of; by rewrite Erc).
      rewrite Eh' in *. by apply IH.
  - assert (Eh : hold_spec d actor a = (false, a)) by (unfold hold_spec; by rewrite (proj2 (Z.eqb_neq _ _) Eg)).
    rewrite Eh in *. cbn [fst snd] in *. rewrite Z.add_0_l in *. by apply IH.
Qed.

(** The freed chunks are pushed on their classes' free lists. *)
Lemma abs_fold_lists pl actor ds cs fl i f :
  fl !! i = Some f ->
  exists f', (abs_fold pl actor ds (cs, fl)).2.2 !! i = Some f' /\
    f' ≡ₚ omap (fun d => match pl d with Some (j, l, _) => if decide (j = i) then Some l else None | None => None end)
            (abs_fold pl actor ds (cs, fl)).1 ++ f.
Proof.
  revert cs fl f. induction ds as [|d ds IH]; intros cs fl f Hf; [by exists f|].
  cbn [abs_fold fst snd]. destruct (abs_one (pl d) d actor (cs, fl)) as [r [cs1 fl1]] eqn:E1. cbn [fst snd].
  assert (E : exists f1, fl1 !! i = Some f1 /\ f1 = omap (fun d => match pl d with Some (j, l, _) => if decide (j = i) then Some l else None | None => None end)
      (match r with Some d => [d] | None => [] end) ++ f).
  { revert E1. unfold abs_one. destruct (pl d) as [[[j l] gz]|] eqn:Ep; cbn [fst snd]; [|intros; simplify_eq; eauto].
    destruct (cs !! Z.to_nat gz) as [a|]; [|intros; simplify_eq; eauto].
    destruct (hold_spec d actor a).1; intros; simplify_eq; [|eauto]. csimpl. rewrite Ep.
    destruct (decide (j = i)) as [->|Hne]; [rewrite list_lookup_alter_eq, Hf; by eexists|].
    rewrite list_lookup_alter_ne by done. eauto. }
  destruct E as (f1 & Hf1 & ->). destruct (IH cs1 fl1 _ Hf1) as (f' & -> & Hp). exists f'. split; [done|].
  rewrite Hp, omap_app, Permutation_app_swap_app, app_assoc. done.
Qed.
