(* ===== verification/ReclaimProof.v ===== *)
(** * Crash reclaim is exact

    [reclaim_dead] over the coordinator's memory: the journal of a dead actor that holds
    chunk pins is emptied, and each pool the coordinator hosts is left as the abstract
    effect of [ReclaimChunks] on the records routed to it. *)

From S2P Require Import Prelude Atomic ChunkDesc ChunkCtrl Pool PoolInv PoolClient PoolState BorrowJournal Segments Coordinator Reclaim ReclaimChunks.

(** ** Running on parts of the coordinator's memory *)

Lemma foldr_delete_swap {A} (v : gmap nat A) i l : foldr delete (delete i v) l = delete i (foldr delete v l).
Proof. induction l as [|k l IH]; [done|]. cbn. by rewrite IH, delete_delete. Qed.

Lemma run_lift_entry {M C K A} `{Countable K} (get : M -> gmap K C) set k (p : prog C A) m c :
  lens_ok get set -> get m !! k = Some c ->
  run (lift (entry get set k) p) m =
    match run p c with
    | Some (a, c') => Some (a, set (<[k := c']> (get m)) m)
    | None => None
    end.
Proof.
  intros [Hgs Hsg Hss]. revert m c. induction p as [a|R f q IH]; intros m c Hc; cbn.
  - by rewrite insert_id, Hsg.
  - unfold entry at 1. rewrite Hc. destruct (f c) as [[r c']|]; [|done].
    rewrite (IH r _ c') by (by rewrite Hgs, lookup_insert_eq). rewrite Hgs.
    destruct (run (q r) c') as [[a c'']|]; [|done]. by rewrite Hss, insert_insert_eq.
Qed.

Section parts.
Context {O : Type}.
Abbreviation CM := (CoordMem O).

Lemma run_locked {A : Set} (p : prog CM A) m : run (locked p) m = run p m.
Proof. unfold locked. apply run_act. Qed.

Lemma pools_lens : lens_ok (fun m : CM => c_pools (cm_seg m)) (fun v m => set_seg (set_pools v (cm_seg m)) m).
Proof. split; [done| |done]. by intros [? ? ? ? ? []]. Qed.

Lemma journals_lens : lens_ok (fun m : CM => c_journals (cm_seg m)) (fun v m => set_seg (set_journals v (cm_seg m)) m).
Proof. split; [done| |done]. by intros [? ? ? ? ? []]. Qed.

Lemma run_on_pool {A} s (p : prog PoolMem A) (m : CM) pm a pm' :
  c_pools (cm_seg m) !! sg_fd s = Some pm -> run p pm = Some (a, pm') ->
  run (on_pool s p) m = Some (a, set_seg (set_pools (<[sg_fd s := pm']> (c_pools (cm_seg m))) (cm_seg m)) m).
Proof. intros Hc Hr. unfold on_pool, pool_part. by rewrite (run_lift_entry _ _ _ _ _ _ pools_lens Hc), Hr. Qed.

Lemma run_on_journal {A} s (p : prog JournalMem A) (m : CM) jm a jm' :
  c_journals (cm_seg m) !! sg_fd s = Some jm -> run p jm = Some (a, jm') ->
  run (on_journal s p) m = Some (a, set_seg (set_journals (<[sg_fd s := jm']> (c_journals (cm_seg m))) (cm_seg m)) m).
Proof. intros Hc Hr. unfold on_journal, journal_part. by rewrite (run_lift_entry _ _ _ _ _ _ journals_lens Hc), Hr. Qed.

Lemma run_pool_attach s (m : CM) pm :
  c_pools (cm_seg m) !! sg_fd s = Some pm -> run (pool_attach s) m = Some (Pool.attach (seg_of s) pm, m).
Proof.
  intros Hc. unfold pool_attach. rewrite (run_on_pool s _ m pm _ pm Hc (run_act _ _)), insert_id by done.
  by rewrite (lens_set_get _ _ pools_lens).
Qed.

Lemma run_journal_attach s (m : CM) jm :
  c_journals (cm_seg m) !! sg_fd s = Some jm -> run (journal_attach s) m = Some (BorrowJournal.attach jm, m).
Proof.
  intros Hc. unfold journal_attach. rewrite (run_on_journal s _ m jm _ jm Hc (run_act _ _)), insert_id by done.
  by rewrite (lens_set_get _ _ journals_lens).
Qed.

(** [m] and [m'] differ in the pools [fds] and the journal [jfd] only. *)
Definition touches (fds : list nat) (jfd : nat) (m m' : CM) : Prop :=
  exists ps js, m' = set_seg (set_journals js (set_pools ps (cm_seg m))) m /\
    (forall fd, fd ∉ fds -> ps !! fd = c_pools (cm_seg m) !! fd) /\
    (forall fd, fd <> jfd -> js !! fd = c_journals (cm_seg m) !! fd).

Lemma touches_refl fds jfd m : touches fds jfd m m.
Proof. exists (c_pools (cm_seg m)), (c_journals (cm_seg m)). split_and!; [by destruct m as [? ? ? ? ? []]|done|done]. Qed.

Lemma touches_trans fds jfd m1 m2 m3 : touches fds jfd m1 m2 -> touches fds jfd m2 m3 -> touches fds jfd m1 m3.
Proof.
  intros (ps & js & -> & Hp & Hj) (ps' & js' & -> & Hp' & Hj'). exists ps', js'. split_and!; [done| |].
  - intros fd Hfd. rewrite Hp' by done. by apply Hp.
  - intros fd Hfd. rewrite Hj' by done. by apply Hj.
Qed.

Lemma touches_pool fds jfd m fd pm :
  fd ∈ fds -> touches fds jfd m (set_seg (set_pools (<[fd := pm]> (c_pools (cm_seg m))) (cm_seg m)) m).
Proof.
  intros Hin. exists (<[fd := pm]> (c_pools (cm_seg m))), (c_journals (cm_seg m)). split_and!; [done| |done].
  intros fd' Hne. rewrite lookup_insert_ne; [done|]. by intros ->.
Qed.

Lemma touches_journal fds jfd m jm :
  touches fds jfd m (set_seg (set_journals (<[jfd := jm]> (c_journals (cm_seg m))) (cm_seg m)) m).
Proof.
  exists (c_pools (cm_seg m)), (<[jfd := jm]> (c_journals (cm_seg m))). split_and!; [done|done|].
  intros fd' Hne. by rewrite lookup_insert_ne.
Qed.
End parts.

(** ** One record *)

Section reclaim.
Context {O : Type} (shared : CoordShared) (pools : list (SegHandle * Pool)) (actor : Z) (jseg : SegHandle) (j : BorrowJournal) (fuel : nat).
Abbreviation CM := (CoordMem O).
Abbreviation states := (nat -> list AbsCtrl * list (list Z)).
Abbreviation places := (nat -> ChunkDesc -> option (nat * Z * Z)).
Abbreviation fds := ((fun x => sg_fd x.1) <$> pools).
Context (Hfds : NoDup fds) (pl : places).

(** Every pool of the list is in the state [sg] gives it. *)
Definition pools_at (sg : states) (m : CM) : Prop :=
  forall s p, (s, p) ∈ pools -> exists pm, c_pools (cm_seg m) !! sg_fd s = Some pm /\
    pool_at p pm (sg (sg_fd s)).1 (sg (sg_fd s)).2 /\ forall d, place p pm d = pl (sg_fd s) d.

(** The record of [d] goes to the pool of object [fd]. *)
Definition routed (fd : nat) (d : ChunkDesc) : bool :=
  match pool_for pools (segment_id d) with Some (s, _) => (sg_fd s =? fd)%nat | None => false end.

Definition route (sg : states) (d : ChunkDesc) : option ChunkDesc * states :=
  match pool_for pools (segment_id d) with
  | None => (None, sg)
  | Some (s, _) =>
      let r := abs_one (pl (sg_fd s) d) d actor (sg (sg_fd s)) in
      (r.1, fun fd => if (sg_fd s =? fd)%nat then r.2 else sg fd)
  end.

Lemma pool_for_elem id s p : pool_for pools id = Some (s, p) -> (s, p) ∈ pools /\ sg_id s = id.
Proof.
  unfold pool_for. destruct (list_find _ pools) as [[i x]|] eqn:E; [|done]. intros [= ->].
  apply list_find_Some in E as (Hi & Eid & _). split; [by eapply list_elem_of_lookup_2|done].
Qed.

Lemma pools_fd s p s' p' : (s, p) ∈ pools -> (s', p') ∈ pools -> sg_fd s = sg_fd s' -> (s, p) = (s', p').
Proof.
  intros [i Hi]%list_elem_of_lookup [k Hk]%list_elem_of_lookup E.
  assert (i = k) as ->; [|congruence]. apply (NoDup_lookup fds i k (sg_fd s)); [done| |].
  - by rewrite list_lookup_fmap, Hi.
  - by rewrite list_lookup_fmap, Hk, E.
Qed.

Lemma run_reclaim_record sg (m : CM) acc d :
  pools_at sg m ->
  exists m', run (reclaim_record (S fuel) shared pools actor acc (ChunkPin d)) m =
      Some (Some (match (route sg d).1 with
                  | Some d => mkReclaimed (rc_chunks acc ++ [d]) (rc_pins acc) (rc_leases acc)
                  | None => acc
                  end), m') /\
    pools_at (route sg d).2 m' /\ touches fds (sg_fd jseg) m m' /\ c_journals (cm_seg m') = c_journals (cm_seg m).
Proof.
  intros Hat. unfold reclaim_record, route. destruct (pool_for pools (segment_id d)) as [[s p]|] eqn:Ep.
  2: { exists m. split_and!; [done|done|apply touches_refl|done]. }
  destruct (pool_for_elem _ _ _ Ep) as [Hin _]. destruct (Hat s p Hin) as (pm & Hpm & Hpat & Hpl).
  destruct (run_reclaim_one p pm _ _ fuel d actor Hpat) as (pm' & Hrun & Hpat' & Hsp).
  rewrite <- surjective_pairing in Hrun, Hpat'. rewrite Hpl in Hrun, Hpat'.
  eexists. unfold fbind. rewrite run_bind, (run_on_pool s _ m pm _ pm' Hpm Hrun). cbn [fst snd]. split_and!.
  - by destruct (abs_one _ _ _ _).1.
  - intros s' p' Hin'. cbn. destruct (Nat.eqb_spec (sg_fd s) (sg_fd s')) as [E|E].
    + pose proof (pools_fd _ _ _ _ Hin Hin' E). simplify_eq. exists pm'. rewrite lookup_insert_eq.
      split_and!; [done|done|]. intros e. rewrite <- Hpl. apply same_places_place; [apply Hpat|apply Hpat'|done].
    + rewrite lookup_insert_ne by done. by apply Hat.
  - apply touches_pool. apply list_elem_of_fmap. by exists (s, p).
  - done.
Qed.

(** ** All records *)

Fixpoint route_all (sg : states) (ds : list ChunkDesc) : list ChunkDesc * states :=
  match ds with
  | [] => ([], sg)
  | d :: ds' =>
      let r := route sg d in
      let q := route_all r.2 ds' in
      ((match r.1 with Some d => [d] | None => [] end) ++ q.1, q.2)
  end.

Lemma abs_one_self x d sg' d' : (abs_one x d actor sg').1 = Some d' -> d' = d.
Proof. unfold abs_one. intros H. repeat case_match; cbn in H; by simplify_eq. Qed.

Lemma route_pool sg d fd :
  (route sg d).2 fd = (if routed fd d then (abs_one (pl fd d) d actor (sg fd)).2 else sg fd) /\
  (routed fd d = true -> (route sg d).1 = (abs_one (pl fd d) d actor (sg fd)).1) /\
  (forall d', (route sg d).1 = Some d' -> d' = d).
Proof.
  unfold route, routed. destruct (pool_for pools (segment_id d)) as [[s p]|]; [|done]. cbn [fst snd].
  destruct (Nat.eqb_spec (sg_fd s) fd) as [<-|Hne]; (split_and!; [done|done|]); intros d'; apply abs_one_self.
Qed.

(** Seen from one pool, the records routed to it are all that happens. *)
Lemma route_all_pool sg ds fd :
  (route_all sg ds).2 fd = (abs_fold (pl fd) actor (filter (fun d => routed fd d = true) ds) (sg fd)).2 /\
  filter (fun d => routed fd d = true) (route_all sg ds).1 =
    (abs_fold (pl fd) actor (filter (fun d => routed fd d = true) ds) (sg fd)).1.
Proof.
  revert sg. induction ds as [|d ds IH]; intros sg; [done|].
  cbn [route_all fst snd]. rewrite list.filter_app. destruct (IH (route sg d).2) as [-> ->].
  destruct (route_pool sg d fd) as (-> & H1 & Hself). rewrite (filter_cons _ d ds).
  destruct (routed fd d) eqn:Er.
  - rewrite decide_True by done. cbn [abs_fold fst snd]. split; [done|]. f_equal. rewrite (H1 eq_refl) in *.
    destruct (abs_one _ d actor (sg fd)).1 as [d'|]; [|done]. rewrite (Hself d' eq_refl).
    by rewrite filter_cons, filter_nil, decide_True.
  - rewrite decide_False by done. split; [done|]. destruct (route sg d).1 as [d'|]; [|done].
    rewrite (Hself d' eq_refl). by rewrite filter_cons, filter_nil, decide_False by (by rewrite Er).
Qed.

Lemma run_reclaim_slots sg (m : CM) jm v xs acc :
  pools_at sg m -> c_journals (cm_seg m) !! sg_fd jseg = Some jm -> represents j jm v ->
  NoDup xs.*1 -> (forall x, x ∈ xs -> exists d, x.2 = ChunkPin d /\ v !! x.1 = Some (ChunkPin d)) ->
  let ds := omap (fun x : nat * JournalRecord => match x.2 with ChunkPin d => Some d | _ => None end) xs in
  exists m', run (loop_fold xs (reclaim_slot (S fuel) shared jseg j pools actor) acc) m =
      Some (Some (mkReclaimed (rc_chunks acc ++ (route_all sg ds).1) (rc_pins acc) (rc_leases acc)), m') /\
    pools_at (route_all sg ds).2 m' /\ touches fds (sg_fd jseg) m m' /\
    exists jm', c_journals (cm_seg m') !! sg_fd jseg = Some jm' /\ represents j jm' (foldr delete v xs.*1).
Proof.
  revert sg m jm v acc. induction xs as [|[i r] xs IH]; intros sg m jm v acc Hat Hjm Hrep Hnd Hxs ds.
  { exists m. cbn. rewrite app_nil_r. split_and!; [by destruct acc|done|apply touches_refl|by exists jm]. }
  destruct (Hxs (i, r)) as (d & Er & Hv); [apply list_elem_of_here|]. cbn [fst snd] in Er, Hv. subst r.
  cbn [loop_fold]. unfold fbind. rewrite run_bind. unfold reclaim_slot at 1. rewrite run_bind. cbn [fst snd].
  destruct (exec_refines j jm v (JRelease i) Hrep I) as (ret & jm1 & v1 & He & Hs & Hrep1). cbn [exec] in He.
  destruct (run (release j i) jm) as [[x jm1']|] eqn:Erel; [|done]. simplify_eq.
  assert (Hi : (i < capacity j)%nat) by (by apply (proj1 (proj2 Hrep) i _ Hv)).
  destruct x as [b|e]; cbn [spec] in Hs; [|lia]. destruct Hs as (_ & -> & ->).
  rewrite bool_decide_eq_true_2 in Erel by (by rewrite Hv).
  rewrite (run_on_journal jseg _ m jm _ jm1 Hjm Erel). cbn [or_false].
  set (m1 := set_seg _ m). assert (Hat1 : pools_at sg m1) by exact Hat.
  destruct (run_reclaim_record sg m1 acc d Hat1) as (m2 & Hrun & Hat2 & Ht2 & Ej). rewrite Hrun.
  apply list.NoDup_cons in Hnd as [Hni Hnd].
  destruct (IH (route sg d).2 m2 jm1 (delete i v)
    (match (route sg d).1 with Some d => mkReclaimed (rc_chunks acc ++ [d]) (rc_pins acc) (rc_leases acc) | None => acc end))
    as (m3 & -> & Hat3 & Ht3 & jm3 & Hjm3 & Hrep3); [done| |done|done| |].
  { rewrite Ej. cbn. by rewrite lookup_insert_eq. }
  { intros x Hx. destruct (Hxs x) as (e & He1 & He2); [by apply list_elem_of_further|]. exists e. split; [done|].
    rewrite lookup_delete_ne; [done|]. intros ->. apply Hni. apply list_elem_of_fmap. by exists x. }
  exists m3. split_and!.
  - unfold ds. csimpl. cbn [route_all fst snd]. destruct (route sg d).1; cbn [rc_chunks rc_pins rc_leases];
      [by rewrite <- app_assoc|done].
  - done.
  - eapply touches_trans; [apply touches_journal|]. by eapply touches_trans.
  - exists jm3. split; [done|]. cbn [fmap list_fmap foldr]. by rewrite <- foldr_delete_swap.
Qed.
End reclaim.

(** ** The theorem *)

(** All records deleted. *)
Lemma replayed_all (v : gmap nat JournalRecord) cap :
  (forall i r, v !! i = Some r -> (i < cap)%nat) ->
  foldr delete v (omap (fun i => pair i <$> v !! i) (seq 0 cap)).*1 = ∅.
Proof.
  intros Hb. apply map_eq. intros i. rewrite lookup_empty.
  destruct (decide (i ∈ (omap (fun i => pair i <$> v !! i) (seq 0 cap)).*1)) as [Hin|Hni].
  - revert Hin. induction (omap _ _).*1 as [|k l IH]; [by intros ?%not_elem_of_nil|].
    intros [->|Hin]%elem_of_cons; cbn; [by rewrite lookup_delete_eq|].
    destruct (decide (k = i)) as [->|Hne]; [by rewrite lookup_delete_eq|]. rewrite lookup_delete_ne by done. auto.
  - assert (Hv : v !! i = None).
    { destruct (v !! i) as [r|] eqn:E; [|done]. exfalso. apply Hni. apply list_elem_of_fmap. exists (i, r).
      split; [done|]. apply list_elem_of_omap. exists i. rewrite E. split; [|done]. apply elem_of_seq.
      specialize (Hb i r E). lia. }
    clear Hni. induction (omap _ _).*1 as [|k l IH]; [done|]. cbn.
    destruct (decide (k = i)) as [->|Hne]; [by rewrite lookup_delete_eq|]. by rewrite lookup_delete_ne.
Qed.

Lemma replayed_slots (v : gmap nat JournalRecord) cap : NoDup (omap (fun i => pair i <$> v !! i) (seq 0 cap)).*1.
Proof.
  assert (E : (omap (fun i => pair i <$> v !! i) (seq 0 cap)).*1 `sublist_of` seq 0 cap).
  { induction (seq 0 cap) as [|i l IH]; [done|]. csimpl. destruct (v !! i); csimpl; by constructor. }
  eapply sublist_NoDup; [apply NoDup_seq|exact E].
Qed.

Section claim.
Context {O : Type} (shared : CoordShared).
Abbreviation CM := (CoordMem O).

(** The segment's pool attaches as [p], with control words [cs] and free lists [fl]. *)
Definition hosted_pool (m : CM) (s : SegHandle) (p : Pool) (cs : list AbsCtrl) (fl : list (list Z)) : Prop :=
  exists pm, c_pools (cm_seg m) !! sg_fd s = Some pm /\ Pool.attach (seg_of s) pm = Ok p /\ pool_at p pm cs fl.

(** The chunk a descriptor names in the pool of object [fd]. *)
Definition spot (pools : list (SegHandle * Pool)) (m : CM) (fd : nat) (d : ChunkDesc) : option (nat * Z * Z) :=
  match list_find (fun x => sg_fd x.1 = fd) pools with
  | Some (_, (s, p)) => match c_pools (cm_seg m) !! fd with Some pm => place p pm d | None => None end
  | None => None
  end.

(** The chunk pins of a journal, in slot order. *)
Definition pins_of (v : gmap nat JournalRecord) (cap : nat) : list ChunkDesc :=
  omap (fun x : nat * JournalRecord => match x.2 with ChunkPin d => Some d | _ => None end)
    (omap (fun i => pair i <$> v !! i) (seq 0 cap)).

(** The positions of [ds] in class [i]. *)
Definition locals (pl : ChunkDesc -> option (nat * Z * Z)) (i : nat) (ds : list ChunkDesc) : list Z :=
  omap (fun d => match pl d with Some (j, l, _) => if decide (j = i) then Some l else None | None => None end) ds.

Lemma spot_pool pools (m : CM) s p pm d :
  NoDup ((fun x => sg_fd x.1) <$> pools) -> (s, p) ∈ pools -> c_pools (cm_seg m) !! sg_fd s = Some pm ->
  spot pools m (sg_fd s) d = place p pm d.
Proof.
  intros Hnd Hin Hpm. unfold spot. destruct (list_find _ pools) as [[i [s' p']]|] eqn:E.
  - apply list_find_Some in E as (Hi & E & _). cbn in E.
    pose proof (pools_fd pools Hnd s' p' s p ltac:(by eapply list_elem_of_lookup_2) Hin E). simplify_eq. by rewrite Hpm.
  - apply list_find_None in E. rewrite list.Forall_forall in E. by specialize (E (s, p) Hin eq_refl).
Qed.

Lemma run_attach_pools pools (m : CM) :
  (forall s p, (s, p) ∈ pools -> exists cs fl, hosted_pool m s p cs fl) ->
  run (attach_pools pools.*1) m = Some (pools, m).
Proof.
  induction pools as [|[s p] pools IH]; intros H; [done|]. cbn [fmap list_fmap attach_pools fst]. rewrite run_bind.
  destruct (H s p) as (cs & fl & pm & Hpm & Ha & _); [apply list_elem_of_here|].
  rewrite (run_pool_attach s m pm Hpm), Ha, run_bind. cbn [fst] in *.
  rewrite IH; [done|]. intros s' p' Hin. apply H. by apply list_elem_of_further.
Qed.

(** C7. Crash reclaim is exact.  For a dead actor whose journal [v] holds chunk pins, and
    hosted pools in a consistent state in which the actor's records do not outnumber the
    pins, [reclaim_dead] ends without fault; it empties the journal; and in every hosted
    pool every chunk is as if exactly the actor's [k] current records on it had been given
    back: its pins drop by [k], it is freed (generation bumped) just when these were its
    last holds, records of earlier uses change nothing; each freed chunk is reported once
    and is on its class's free list once, with what was there before; and no other segment,
    journal or table of the coordinator is touched. *)
Theorem crash_reclaim_exact (m : CM) actor jseg jm j v pools sg fuel :
  pools.*1 = reclaim_segments shared (cm_state m) -> NoDup ((fun x => sg_fd x.1) <$> pools) ->
  (forall s p, (s, p) ∈ pools -> hosted_pool m s p (sg (sg_fd s)).1 (sg (sg_fd s)).2) ->
  c_journals (cm_seg m) !! sg_fd jseg = Some jm -> BorrowJournal.attach jm = Ok j -> represents j jm v ->
  (forall i r, v !! i = Some r -> exists d, r = ChunkPin d) ->
  let recs fd := filter (fun d => routed pools fd d = true) (pins_of v (capacity j)) in
  (forall s p g a, (s, p) ∈ pools -> (sg (sg_fd s)).1 !! g = Some a ->
     accounted (holds_of (spot pools m (sg_fd s)) g a (recs (sg_fd s))) a) ->
  exists out m', run (reclaim_dead (S fuel) shared actor jseg) m = Some (Some out, m') /\
    touches ((fun x => sg_fd x.1) <$> pools) (sg_fd jseg) m m' /\
    (exists jm', c_journals (cm_seg m') !! sg_fd jseg = Some jm' /\ represents j jm' ∅) /\
    forall s p, (s, p) ∈ pools ->
      let freed := filter (fun d => routed pools (sg_fd s) d = true) out in
      let pl := spot pools m (sg_fd s) in
      exists pm' cs' fl', c_pools (cm_seg m') !! sg_fd s = Some pm' /\ pool_at p pm' cs' fl' /\
        (forall g a, (sg (sg_fd s)).1 !! g = Some a ->
           let k := holds_of pl g a (recs (sg_fd s)) in
           cs' !! g = Some (settled actor k a) /\ times pl g freed = if freed_by actor k a then 1%nat else 0%nat) /\
        forall i f, (sg (sg_fd s)).2 !! i = Some f -> exists f', fl' !! i = Some f' /\ f' ≡ₚ locals pl i freed ++ f.
Proof.
  intros Hsegs Hnd Hpools Hjm Hatt Hrep Hpins recs Hacc.
  set (pl := spot pools m).
  assert (Hat : pools_at pools pl sg m).
  { intros s p Hin. destruct (Hpools s p Hin) as (pm & Hpm & _ & Hp). exists pm. split_and!; [done|done|].
    intros d. symmetry. by apply spot_pool. }
  assert (Hv : forall i r, v !! i = Some r -> (i < capacity j)%nat) by (intros i r Hi; by apply (proj1 (proj2 Hrep) i r)).
  unfold reclaim_dead. rewrite run_bind, (run_journal_attach jseg m jm Hjm), Hatt, run_bind, run_locked.
  unfold get_state, with_state. rewrite run_act. cbn [run].
  replace (set_cstate (cm_state m) m) with m by (by destruct m). rewrite <- Hsegs, run_bind.
  rewrite (run_attach_pools pools m) by (intros s p Hin; eexists _, _; by apply Hpools).
  unfold fbind. rewrite run_bind.
  rewrite (run_on_journal jseg _ m jm _ jm Hjm (replay_indexed_run j jm (proj1 Hrep))).
  rewrite insert_id by done. rewrite (lens_set_get _ _ journals_lens), (represents_held j jm v Hrep), run_bind.
  destruct (run_reclaim_slots shared pools actor jseg j fuel Hnd pl sg m jm v
    (omap (fun i => pair i <$> v !! i) (seq 0 (capacity j))) (mkReclaimed [] 0 0)) as (m' & -> & Hat' & Ht & jm' & Hjm' & Hrep');
    [done|done|done|apply replayed_slots| |].
  { intros [i r] (k & _ & Hk)%list_elem_of_omap. destruct (v !! k) as [r'|] eqn:E; cbn in Hk; [|done]. injection Hk as -> ->.
    destruct (Hpins i r E) as (d & ->). by exists d. }
  rewrite replayed_all in Hrep' by done. cbn [rc_pins rc_leases rc_chunks app Z.ltb Z.compare orb].
  fold (pins_of v (capacity j)) in *. eexists _, m'. split_and!; [done|done|by exists jm'|].
  intros s p Hin. destruct (Hat' s p Hin) as (pm' & Hpm' & Hp' & _).
  destruct (route_all_pool pools actor pl sg (pins_of v (capacity j)) (sg_fd s)) as [E1 E2].
  rewrite E1 in Hp'. fold (recs (sg_fd s)) in *. destruct (sg (sg_fd s)) as [cs fl] eqn:Esg. cbn [fst snd] in *.
  eexists pm', _, _. split_and!; [done|exact Hp'| |].
  - intros g a Ha. rewrite E2. apply abs_fold_exact; [done|].
    apply (Hacc s p g a Hin). by rewrite Esg.
  - intros i f Hf. unfold locals. rewrite E2. by apply abs_fold_lists.
Qed.
End claim.

(** ** A dead reader *)

Definition demo_handle (id : Z) (fd : nat) : SegHandle := mkSegHandle None id fd 0 2112 2112 1.
Definition demo_doorbell : DoorbellPair := mkDoorbell 0 0.
Definition demo_shared : CoordShared :=
  mkShared default_config (demo_handle 9 1) (demo_handle 521 4) (TaskQueue.mkTaskQueue 0) demo_doorbell demo_doorbell
    (demo_handle 8201 5) (demo_handle 8202 6) (demo_handle 8203 2).
Definition demo_queue : TaskQueue.QueueMem := TaskQueue.mkQueueMem 0 0 0 0 0 0 0 0 0 [] [] [] [] ∅.
Definition demo_cat : Catalog.CatMem := Catalog.mkCatMem 0 0 0 0 0 0 [].
Definition demo_mem (payload data : PoolMem) (jm : JournalMem) : CoordMem unit :=
  mkCoordMem tt 0 true 0 (first_state []) (mkContents {[1%nat := payload; 2%nat := data]} {[3%nat := jm]} ∅ ∅ demo_queue demo_cat ∅ []).

(** A journal of two slots with one pin. *)
Definition demo_journal (d : ChunkDesc) : JournalMem := mkJournalMem JOURNAL_MAGIC 2 0 [1] [chunk_pin d; ZERO_ENTRY].

Lemma demo_journal_pin d : desc_wf d -> represents (mkJournal 1 2) (demo_journal d) {[0%nat := ChunkPin d]}.
Proof.
  intros Hd. split_and!.
  - split; cbn; try done; try lia. repeat constructor; mach.
  - intros i r [<- <-]%lookup_singleton_Some. split_and!; [cbn; lia|done|exact Hd].
  - intros [|[|i]] Hi; [done|done|cbn in Hi; lia].
Qed.

Lemma holds_of_le pl g a ds : holds_of pl g a ds <= Z.of_nat (length ds).
Proof. unfold holds_of. pose proof (length_filter (fun d => at_word pl g d && (ChunkDesc.generation d =? recycled a) = true) ds). lia. Qed.

(** A pool with one chunk in use: published, pinned once, its owner gone. *)
Lemma demo_pinned seg : 2048 <= payload_len seg -> is_u32 (seg_id seg) ->
  exists p m d g fl, Pool.attach seg m = Ok p /\ desc_wf d /\ segment_id d = seg_id seg /\ ChunkDesc.generation d = 0 /\
    place p m d = Some (0%nat, 0, g) /\ (Z.to_nat g < 5)%nat /\
    pool_at p m (<[Z.to_nat g := mkAbs (Published 1) OWNER_NONE 0]> (replicate 5 free_ctrl)) fl.
Proof.
  intros Hpay Hid.
  destruct (pool_at_create seg demo_cfg demo_cfg_ok ltac:(etransitivity; [|exact Hpay]; vm_compute; discriminate))
    as (p & m0 & Hcr & Hseg & Hatt & Hat).
  assert (Hcl : classes m0 = make_classes demo_cfg (data_offsets (compute_layout demo_cfg)) (base_indices (compute_layout demo_cfg))).
  { rewrite (create_nonempty seg demo_cfg ltac:(done)) in Hcr. cbn zeta in Hcr.
    destruct (payload_len seg <? total_bytes (compute_layout demo_cfg)); [discriminate|]. by injection Hcr as _ <-. }
  assert (Hfl : all_free (classes m0) !! 0%nat = Some [0; 1; 2]) by (rewrite Hcl; reflexivity).
  assert (Hff : first_fit 64 (classes m0) = Some 0%nat) by (rewrite Hcl; reflexivity).
  destruct (pool_at_alloc p m0 _ _ 0 64 0 0 [1; 2] Hat Hff Hfl) as (c & a & g & m1 & _ & Hc & Ha & _ & Hpl & Hat1 & Hsp & Hni & Hh).
  pose proof (proj1 (lookup_replicate _ _ _ _) Ha) as [-> Hgn]. change (recycled free_ctrl) with 0 in *.
  assert (Hpl1 : place p m1 (chunk_desc p c 0 0) = Some (0%nat, 0, g))
    by (rewrite (same_places_place p m0 m1); [exact Hpl|apply Hat|apply Hat1|done]).
  assert (Hf1 : <[0%nat := [1; 2]]> (all_free (classes m0)) !! 0%nat = Some [1; 2])
    by (rewrite list_lookup_insert_eq by (by eapply lookup_lt_Some); done).
  pose proof (pool_at_held p m1 _ _ _ 0 0 g [1; 2] _ (mkAbs (Published 1) OWNER_NONE 0) Hat1 Hpl1 Ha
    ltac:(split_and!; cbn; auto with shm; mach) Hf1 Hni) as Hat3.
  pose proof (proj1 (at_inv _ _ _ _ Hat)) as Hg. assert (Hl0 : 0 <= 0 < chunk_count c) by (rewrite Hcl in Hc; injection Hc as <-; cbn; lia).
  destruct (seg_offset_bounds p m0 0 c 0 Hg Hc Hl0) as ((_ & _ & Hsu & _) & Hu & _).
  eexists p, _, (chunk_desc p c 0 0), g, _. split_and!; [| | | | | |exact Hat3].
  - unfold Pool.attach in Hatt |- *. cbn [set_ctrls hdr]. by rewrite Hh.
  - unfold desc_wf, chunk_desc. cbn [segment_id ChunkDesc.generation offset ChunkDesc.len schema_id pad]. rewrite Hseg. auto 10 with shm.
  - cbn. by rewrite Hseg.
  - done.
  - rewrite (same_places_place p m1); [done|apply Hat1|apply Hat3|exact (same_places_refl m1)].
  - exact Hgn.
Qed.

(** The only pin of a chunk whose owner is gone, in the journal of the dead actor 7: the
    chunk is freed and reported. *)
Lemma crash_reclaim_exact_witness :
  exists (m : CoordMem unit) d out m', run (reclaim_dead 1 demo_shared 7 (demo_handle 1031 3)) m = Some (Some out, m') /\ d ∈ out.
Proof.
  destruct (demo_pinned demo_seg) as (p & m1 & d & g & fl & Hatt & Hdw & Hid & Hgen & Hpl & Hg5 & Hat); [cbn; lia|cbn; mach|].
  destruct (pool_at_create (mkSegment 8203 2048) demo_cfg demo_cfg_ok ltac:(vm_compute; discriminate)) as (p2 & m2 & _ & _ & Hatt2 & Hat2).
  set (m := demo_mem m1 m2 (demo_journal d)). set (pools := [(demo_handle 9 1, p); (demo_handle 8203 2, p2)]).
  set (cs := <[Z.to_nat g := mkAbs (Published 1) OWNER_NONE 0]> (replicate 5 free_ctrl)) in *.
  set (sg := fun fd : nat => if (fd =? 1)%nat then (cs, fl) else (replicate 5 free_ctrl, all_free (classes m2))).
  assert (Hr : filter (fun e => routed pools 1 e = true) (pins_of {[0%nat := ChunkPin d]} 2) = [d]).
  { change (pins_of {[0%nat := ChunkPin d]} 2) with [d]. rewrite filter_cons, filter_nil, decide_True; [done|].
    unfold routed, pool_for. by rewrite Hid. }
  assert (Hcur : cs !! Z.to_nat g = Some (mkAbs (Published 1) OWNER_NONE 0)) by (unfold cs; by rewrite list_lookup_insert_eq by (by rewrite length_replicate)).
  destruct (crash_reclaim_exact demo_shared m 7 (demo_handle 1031 3) (demo_journal d) (mkJournal 1 2) {[0%nat := ChunkPin d]} pools sg 0)
    as (out & m' & Hrun & _ & _ & Hall).
  - done.
  - cbn. repeat constructor; set_solver.
  - intros s q [[= -> ->]|[[= -> ->]|[]%not_elem_of_nil]%elem_of_cons]%elem_of_cons; cbn [sg_fd demo_handle]; eexists; by split_and!.
  - done.
  - done.
  - by apply demo_journal_pin.
  - intros i r [<- <-]%lookup_singleton_Some. by exists d.
  - intros s q k a [[= -> ->]|[[= -> ->]|[]%not_elem_of_nil]%elem_of_cons]%elem_of_cons; cbn [sg_fd demo_handle sg Nat.eqb fst]; intros Ha n Hn.
    + change (capacity (mkJournal 1 2)) with 2%nat. rewrite Hr. etransitivity; [apply holds_of_le|].
      apply list_lookup_insert_Some in Ha as [(_ & <- & _)|[_ [-> _]%lookup_replicate]]; [|done]. injection Hn as <-. done.
    + apply lookup_replicate in Ha as [-> _]. done.
  - destruct (Hall (demo_handle 9 1) p ltac:(apply list_elem_of_here)) as (pm' & cs' & fl' & _ & _ & Hex & _).
    cbn [sg_fd demo_handle] in Hex. change (capacity (mkJournal 1 2)) with 2%nat in Hex. rewrite Hr in Hex.
    destruct (Hex (Z.to_nat g) _ Hcur) as [_ Ht].
    assert (Hsp : spot pools m 1 d = Some (0%nat, 0, g)) by exact Hpl.
    assert (Hk : holds_of (spot pools m 1) (Z.to_nat g) (mkAbs (Published 1) OWNER_NONE 0) [d] = 1).
    { rewrite holds_of_cons. unfold at_word. by rewrite Hsp, Nat.eqb_refl, Hgen. }
    rewrite Hk in Ht. change (freed_by 7 1 _) with true in Ht. cbn iota in Ht. unfold times in Ht.
    destruct (filter _ (filter _ out)) as [|e l] eqn:E; [done|]. exists m, e, out, m'. split; [exact Hrun|].
    assert (He : e ∈ e :: l) by apply list_elem_of_here. rewrite <- E in He.
    apply list_elem_of_filter in He as [_ [_ He]%list_elem_of_filter]. exact He.
Defined.
