(* ===== verification/RelyGuarantee.v ===== *)
(** * A rely-guarantee logic for threads that may stop

    Like [wp], for programs whose actions may be undefined (a panic stops the thread): every
    action keeps the invariant for some new ghost value and stays in the guarantee. *)

From S2P Require Import Prelude Atomic.

#[local] Open Scope prog_scope.

Section partial.
Context {S G : Type} (Inv : S -> list G -> Prop) (Gu : S -> S -> Prop).

Fixpoint rg {X : Type} (p : prog S X) (i : nat) (g : G) (Q : X -> G -> Prop) : Prop :=
  match p with
  | Ret a => Q a g
  | Atomic f k =>
      forall s gs r s', gs !! i = Some g -> Inv s gs -> f s = Some (r, s') ->
        Gu s s' /\ exists g', Inv s' (<[i := g']> gs) /\ rg (k r) i g' Q
  end.

Lemma rg_mono {X} (p : prog S X) i g (Q Q' : X -> G -> Prop) :
  (forall a g', Q a g' -> Q' a g') -> rg p i g Q -> rg p i g Q'.
Proof.
  intros HQ. revert g. induction p as [a|R f k IH]; intros g; cbn; [apply HQ|].
  intros H s gs r s' Hg HI E. destruct (H s gs r s' Hg HI E) as (HG & g' & HI' & Hk). eauto.
Qed.

Lemma rg_bind {X Y} (p : prog S X) (k : X -> prog S Y) i g Q :
  rg p i g (fun a g' => rg (k a) i g' Q) -> rg (pbind p k) i g Q.
Proof.
  revert g. induction p as [a|R f k' IH]; intros g; cbn; [done|].
  intros H s gs r s' Hg HI E. destruct (H s gs r s' Hg HI E) as (HG & g' & HI' & Hk). eauto.
Qed.

(** Loop invariants. *)
Lemma rg_retry {B C} fuel (body : B -> prog S (B + C)) b i g (P : B -> G -> Prop) (Q : option C -> G -> Prop) :
  P b g ->
  (forall b g, P b g -> rg (body b) i g (fun x g' => match x with inl b' => P b' g' | inr c => Q (Some c) g' end)) ->
  (forall b g, P b g -> Q None g) ->
  rg (retry fuel body b) i g Q.
Proof.
  intros HP Hbody Hnone. revert b g HP. induction fuel as [|n IH]; intros b g HP; [exact (Hnone b g HP)|].
  apply rg_bind. eapply rg_mono; [|apply Hbody; exact HP]. intros [b'|c] g'; cbn; eauto.
Qed.

Lemma rg_for_each {X C} (xs : list X) (body : X -> prog S (option C)) i g (P : G -> Prop) (Q : option C -> G -> Prop) :
  P g ->
  (forall x g, P g -> rg (body x) i g (fun r g' => match r with None => P g' | Some c => Q (Some c) g' end)) ->
  (forall g, P g -> Q None g) ->
  rg (for_each xs body) i g Q.
Proof.
  intros HP Hbody Hnone. revert g HP. induction xs as [|x xs IH]; intros g HP; [exact (Hnone g HP)|].
  apply rg_bind. eapply rg_mono; [|apply Hbody; exact HP]. intros [c|] g'; cbn; [done|]. apply IH.
Qed.

(** All threads are verified against [Q]. *)
Definition rg_ok {A} (Q : A -> G -> Prop) (tp : list (prog S A)) (gs : list G) : Prop :=
  length tp = length gs /\ forall i p g, tp !! i = Some p -> gs !! i = Some g -> rg p i g Q.

Lemma rg_step {A} Q (tp : list (prog S A)) s tp' s' gs :
  pool_step (tp, s) (tp', s') -> rg_ok Q tp gs -> Inv s gs ->
  Gu s s' /\ exists gs', rg_ok Q tp' gs' /\ Inv s' gs'.
Proof.
  intros Hstep [Hlen Hok] HI. inversion Hstep as [i R f k tp0 s0 r s0' Hi Hf]; subst.
  destruct (lookup_lt_is_Some_2 gs i) as [g Hg]; [rewrite <- Hlen; by eapply lookup_lt_Some|].
  pose proof (Hok i _ g Hi Hg) as Hrg. cbn in Hrg. destruct (Hrg s gs r s' Hg HI Hf) as (HG & g' & HI' & Hk).
  split; [done|]. exists (<[i := g']> gs). split; [|done]. split; [by rewrite !length_insert|].
  intros j p h Hj Hh. destruct (decide (i = j)) as [<-|Hne].
  - rewrite list_lookup_insert_eq in Hj by (by eapply lookup_lt_Some).
    rewrite list_lookup_insert_eq in Hh by (by eapply lookup_lt_Some). by simplify_eq.
  - rewrite list_lookup_insert_ne in Hj by done. rewrite list_lookup_insert_ne in Hh by done. eauto.
Qed.

Lemma rg_reach {A} Q (Hrefl : forall s, Gu s s) (Htrans : forall s1 s2 s3, Gu s1 s2 -> Gu s2 s3 -> Gu s1 s3)
    (tp : list (prog S A)) s tp' s' gs :
  pool_reach (tp, s) (tp', s') -> rg_ok Q tp gs -> Inv s gs ->
  Gu s s' /\ exists gs', rg_ok Q tp' gs' /\ Inv s' gs'.
Proof.
  intros H. remember (tp, s) as c eqn:Hc. remember (tp', s') as c' eqn:Hc'.
  revert tp s gs Hc. induction H as [c|c [tp1 s1] c2 Hstep _ IH]; intros tp s gs -> Hok HI.
  { simplify_eq. split; [done|]. by exists gs. }
  destruct (rg_step _ _ _ _ _ _ Hstep Hok HI) as (HG1 & gs1 & Hok1 & HI1).
  destruct (IH Hc' tp1 s1 gs1 eq_refl Hok1 HI1) as (HG2 & gs2 & Hok2 & HI2). split; [by eapply Htrans|by exists gs2].
Qed.

Lemma rg_final {A} (Q : A -> G -> Prop) tp gs i a : rg_ok Q tp gs -> tp !! i = Some (Ret a) -> exists g, gs !! i = Some g /\ Q a g.
Proof.
  intros [Hlen Hok] Hi. destruct (lookup_lt_is_Some_2 gs i) as [g Hg]; [rewrite <- Hlen; by eapply lookup_lt_Some|].
  exists g. split; [done|]. exact (Hok i _ g Hi Hg).
Qed.
End partial.
