(* ===== verification/Registry.v ===== *)
(** * The coordinator's tables under any interleaving

    Connections are served by one thread each, beside the lease monitor; all of them change
    the same tables, one hold of the mutex at a time.  Whatever the interleaving: issued ids
    are never issued again, an interned name and its id determine each other for good, a
    topic or an artifact keeps the segments it was first given, and an actor that left or
    died is never alive again. *)

From S2P Require Import Prelude Atomic RelyGuarantee ChunkDesc Pool BorrowJournal Ring Protocol TaskQueue Manifest Head Artifact Commit Catalog TypedRef Store Arrow Segments Coordinator Reclaim.

#[local] Open Scope prog_scope.

(** ** Programs that leave the tables alone *)

Section quiet.
Context {O : Type}.
Abbreviation CM := (CoordMem O).

Fixpoint quiet {X} (p : prog CM X) : Prop :=
  match p with
  | Ret _ => True
  | Atomic f k => forall m r m', f m = Some (r, m') -> cm_state m' = cm_state m /\ quiet (k r)
  end.

Lemma quiet_bind {X Y} (p : prog CM X) (k : X -> prog CM Y) : quiet p -> (forall a, quiet (k a)) -> quiet (pbind p k).
Proof. intros Hp Hk. induction p as [a|R f k' IH]; cbn in *; [done|]. intros m r m' E. destruct (Hp m r m' E). eauto. Qed.

Lemma quiet_ebind {E X Y} (p : prog CM (result E X)) (k : X -> prog CM (result E Y)) :
  quiet p -> (forall a, quiet (k a)) -> quiet (ebind p k).
Proof. intros Hp Hk. apply quiet_bind; [done|]. by intros [a|e]. Qed.

Lemma quiet_fbind {X Y} (p : prog CM (option X)) (k : X -> prog CM (option Y)) :
  quiet p -> (forall a, quiet (k a)) -> quiet (fbind p k).
Proof. intros Hp Hk. apply quiet_bind; [done|]. by intros [a|]. Qed.

Lemma quiet_errs {E F X} (f : E -> F) (p : prog CM (result E X)) : quiet p -> quiet (errs f p).
Proof. intros Hp. by apply quiet_bind. Qed.

(** A focus outside the tables. *)
Definition beside {C} (fo : focus CM C) : Prop :=
  forall R f m r m', fo R f m = Some (r, m') -> cm_state m' = cm_state m.

Lemma quiet_lift {C X} (fo : focus CM C) (p : prog C X) : beside fo -> quiet (lift fo p).
Proof. intros Hfo. induction p as [a|R f k IH]; cbn; [done|]. intros m r m' E. split; [by eapply Hfo|apply IH]. Qed.

Lemma quiet_run {X} (p : prog CM X) m a m' : quiet p -> run p m = Some (a, m') -> cm_state m' = cm_state m.
Proof.
  revert m. induction p as [x|R f k IH]; intros m Hq Hr; cbn in *; [by simplify_eq|].
  destruct (f m) as [[r m1]|] eqn:E; [|done]. destruct (Hq m r m1 E) as [<- Hk]. by eapply IH.
Qed.

Lemma beside_field {C} (get : CM -> C) set : (forall c m, cm_state (set c m) = cm_state m) -> beside (field get set).
Proof. intros H R f m r m' E. unfold field in E. destruct (f (get m)) as [[x c]|]; [|done]. by simplify_eq. Qed.

Lemma beside_entry {C K} `{Countable K} (get : CM -> gmap K C) set k :
  (forall c m, cm_state (set c m) = cm_state m) -> beside (entry get set k).
Proof.
  intros Hs R f m r m' E. unfold entry in E. destruct (get m !! k) as [c|]; [|done].
  destruct (f c) as [[x c']|]; [|done]. by simplify_eq.
Qed.

Lemma beside_hosted hfd dfd : beside (hosted_part (O := O) hfd dfd).
Proof.
  intros R f m r m' E. unfold hosted_part in E. destruct (c_heads (cm_seg m) !! hfd) as [h|]; [|done].
  destruct (c_pools (cm_seg m) !! dfd) as [d|]; [|done]. destruct (f _) as [[x a]|]; [|done]. by simplify_eq.
Qed.

Lemma beside_store shared : beside (store_part (O := O) shared).
Proof.
  intros R f m r m' E. unfold store_part in E. destruct (c_pools (cm_seg m) !! _) as [d|]; [|done].
  destruct (f _) as [[x a]|]; [|done]. by simplify_eq.
Qed.

Lemma quiet_os {X} (p : prog O X) : quiet (on_os p).
Proof. apply quiet_lift. by apply beside_field. Qed.
Lemma quiet_pool {X} s (p : prog PoolMem X) : quiet (on_pool s p).
Proof. apply quiet_lift. by apply beside_entry. Qed.
Lemma quiet_journal {X} s (p : prog JournalMem X) : quiet (on_journal s p).
Proof. apply quiet_lift. by apply beside_entry. Qed.
Lemma quiet_queue {X} (p : prog QueueMem X) : quiet (on_queue p).
Proof. apply quiet_lift. by apply beside_field. Qed.
Lemma quiet_store {X} shared (p : prog (StoreMem PoolMem) X) : quiet (on_store shared p).
Proof. apply quiet_lift. apply beside_store. Qed.
Lemma quiet_art {X} shared pl (p : prog (ArtMem PoolMem) X) : quiet (on_art shared pl p).
Proof. destruct pl; [apply quiet_lift, beside_hosted|apply quiet_store]. Qed.
Lemma quiet_load {R : Set} (f : CM -> R) : quiet (load f).
Proof. intros m r m' [= <- <-]. done. Qed.
Lemma quiet_store_seg (f : CM -> CM) : (forall m, cm_state (f m) = cm_state m) -> quiet (store f).
Proof. intros Hf m r m' [= <- <-]. done. Qed.
Lemma quiet_fault {X} : quiet (fault (A := X)).
Proof. by intros m r m'. Qed.
Lemma quiet_get {R : Set} (f : CoordState -> R) : quiet (locked (get_state f)).
Proof. intros m r m'. cbn. intros [= <- <-]. done. Qed.
Lemma quiet_fold {X C} (xs : list X) (body : C -> X -> prog CM (option C)) acc :
  (forall c x, quiet (body c x)) -> quiet (loop_fold xs body acc).
Proof. intros Hb. revert acc. induction xs as [|x xs IH]; intros acc; [done|]. apply quiet_fbind; [done|]. auto. Qed.
End quiet.

Create HintDb quiet.
#[export] Hint Resolve quiet_os quiet_pool quiet_journal quiet_queue quiet_store quiet_art quiet_load quiet_fault quiet_get : quiet.
#[export] Hint Extern 1 (quiet (Ret _)) => exact I : quiet.
#[export] Hint Extern 1 (quiet (done _)) => exact I : quiet.
#[export] Hint Extern 2 (quiet (store _)) => (apply quiet_store_seg; by intros []) : quiet.

(** Split a program into its actions. *)
Ltac quiet_tac :=
  repeat first
    [ progress (auto with quiet)
    | apply quiet_fbind; [|intros ?]
    | apply quiet_ebind; [|intros ?]
    | apply quiet_errs
    | apply quiet_bind; [|intros ?]
    | apply quiet_fold; intros ? ?
    | case_match ].

(** ** The tables *)

Section interning.
Context {K : Set} `{Countable K}.

(** Names and ids determine each other; ids are below the next one. *)
Record interned_ok (first : Z) (name_of : bytes_t -> K) (t : InternTable K) : Prop := {
  it_id k id : it_ids t !! k = Some id -> exists b, it_bytes t !! id = Some b /\ name_of b = k;
  it_name id b : it_bytes t !! id = Some b -> it_ids t !! name_of b = Some id /\ first <= id < it_next t;
  it_first : first <= it_next t
}.

Lemma interned_step first name_of bytes t id t' :
  interned_ok first name_of t -> 0 <= first -> it_next t < U32_MAX -> interned (name_of bytes) bytes t = (id, t') ->
  interned_ok first name_of t' /\ it_ids t ⊆ it_ids t' /\ it_bytes t ⊆ it_bytes t' /\ it_next t' <= it_next t + 1 /\
  it_ids t' !! name_of bytes = Some id.
Proof.
  intros [H1 H2 H3] Hf Hn. unfold interned. destruct (it_ids t !! name_of bytes) as [id0|] eqn:E.
  { intros [= <- <-]. split_and!; [by split|done|done|lia|done]. }
  intros [= <- <-]. rewrite wrap32_id by mach.
  assert (Hb : it_bytes t !! it_next t = None).
  { destruct (it_bytes t !! it_next t) as [b|] eqn:Eb; [|done]. destruct (H2 _ _ Eb) as [_ ?]. lia. }
  split_and!; cbn [it_ids it_bytes it_next]; [split; cbn [it_ids it_bytes it_next]| | |lia|by rewrite lookup_insert_eq].
  - intros k id Hk. destruct (decide (name_of bytes = k)) as [<-|Hne].
    + rewrite lookup_insert_eq in Hk. injection Hk as <-. exists bytes. by rewrite lookup_insert_eq.
    + rewrite lookup_insert_ne in Hk by done. destruct (H1 k id Hk) as (b & Hb' & En). exists b.
      rewrite lookup_insert_ne; [done|]. intros <-. congruence.
  - intros id b Hid. destruct (decide (it_next t = id)) as [<-|Hne].
    + rewrite lookup_insert_eq in Hid. injection Hid as <-. rewrite lookup_insert_eq. split; [done|lia].
    + rewrite lookup_insert_ne in Hid by done. destruct (H2 id b Hid) as [Hk Hr]. split; [|lia].
      rewrite lookup_insert_ne; [done|]. intros En. congruence.
  - lia.
  - by apply insert_subseteq.
  - by apply insert_subseteq.
Qed.
End interning.

(** An artifact's name and its id determine each other. *)
Record arts_ok (t : ArtifactTable) : Prop := {
  art_id name e : artifacts t !! name = Some e -> artifact_name_by_id t !! ar_name_id e = Some name;
  art_name nid name : artifact_name_by_id t !! nid = Some name ->
    1 <= nid < next_name_id t /\ exists e, artifacts t !! name = Some e /\ ar_name_id e = nid;
  art_first : 1 <= next_name_id t
}.

(** What the threads' connections have: actors registered, an id taken but not yet
    registered, requests left to serve. *)
Record Conn : Set := mkConn { g_ids : list Z; g_pend : list Z; g_left : nat }.

Definition ids_of (gs : list Conn) : list Z := concat ((fun g => g_ids g ++ g_pend g) <$> gs).

(** The tables, when the connections [gs] are served. *)
Record tables (s : CoordState) (gs : list Conn) : Prop := {
  tb_keys : interned_ok 1 id (st_keys s);
  tb_schemas : interned_ok FIRST_USER_SCHEMA_ID schema_content_hash (st_schemas s);
  tb_arts : arts_ok (st_artifacts s);
  tb_ids : NoDup (ids_of gs);
  tb_range x : x ∈ ids_of gs -> 1 <= x < next_actor_id (st_actors s);
  tb_actors x a : actors (st_actors s) !! x = Some a -> exists g, g ∈ gs /\ x ∈ g_ids g;
  tb_first : 1 <= next_actor_id (st_actors s);
  tb_bound : let left := Z.of_nat (sum_list_with g_left gs) in
    it_next (st_keys s) + left <= STORE_ARTIFACT_ID_BASE /\ it_next (st_schemas s) + left <= STORE_ARTIFACT_ID_BASE /\
    next_name_id (st_artifacts s) + left <= STORE_ARTIFACT_ID_BASE /\ next_actor_id (st_actors s) + left <= STORE_ARTIFACT_ID_BASE
}.

(** The tables only grow; actors keep their journal and never come back to life. *)
Record grows (s s' : CoordState) : Prop := {
  gr_keys : it_ids (st_keys s) ⊆ it_ids (st_keys s');
  gr_key_bytes : it_bytes (st_keys s) ⊆ it_bytes (st_keys s');
  gr_schemas : it_ids (st_schemas s) ⊆ it_ids (st_schemas s');
  gr_schema_bytes : it_bytes (st_schemas s) ⊆ it_bytes (st_schemas s');
  gr_topics : topics (st_topics s) ⊆ topics (st_topics s');
  gr_artifacts : artifacts (st_artifacts s) ⊆ artifacts (st_artifacts s');
  gr_names : artifact_name_by_id (st_artifacts s) ⊆ artifact_name_by_id (st_artifacts s');
  gr_actors x a : actors (st_actors s) !! x = Some a ->
    exists a', actors (st_actors s') !! x = Some a' /\ ae_name a' = ae_name a /\ ae_journal_seg a' = ae_journal_seg a /\
      (ae_liveness a <> Alive -> ae_liveness a' <> Alive)
}.

Lemma grows_refl s : grows s s.
Proof. split; try done. intros x a Ha. by exists a. Qed.

Lemma grows_trans s1 s2 s3 : grows s1 s2 -> grows s2 s3 -> grows s1 s3.
Proof.
  intros [A1 A2 A3 A4 A5 A6 A7 A8] [B1 B2 B3 B4 B5 B6 B7 B8].
  split; try (etransitivity; eassumption). intros x a Ha. destruct (A8 x a Ha) as (a' & Ha' & E1 & E2 & E3).
  destruct (B8 x a' Ha') as (a'' & Ha'' & F1 & F2 & F3). exists a''. split_and!; [done|congruence|congruence|auto].
Qed.

(** ** Ghost bookkeeping *)

Lemma insert_split {A} (l : list A) i x : l !! i = Some x -> exists rest, forall y, <[i := y]> l ≡ₚ y :: rest.
Proof.
  intros Hi. exists (delete i l). intros y.
  rewrite (delete_Permutation (<[i := y]> l) i y) by (apply list_lookup_insert_eq; by eapply lookup_lt_Some).
  constructor. rewrite !delete_take_drop. rewrite take_insert_ge, drop_insert_lt by lia. done.
Qed.

Lemma ids_of_cons g gs : ids_of (g :: gs) = (g_ids g ++ g_pend g) ++ ids_of gs.
Proof. done. Qed.

Lemma elem_of_ids x gs : x ∈ ids_of gs <-> exists g, g ∈ gs /\ x ∈ g_ids g ++ g_pend g.
Proof.
  induction gs as [|g gs IH]; [set_solver|]. rewrite ids_of_cons, elem_of_app, IH. split.
  - intros [Hx|(h & Hh & Hx)]; [exists g; split; [apply list_elem_of_here|done]|exists h; split; [by apply list_elem_of_further|done]].
  - intros (h & [->|Hh]%elem_of_cons & Hx); [by left|right; by exists h].
Qed.

#[export] Instance ids_of_proper : Proper (Permutation ==> Permutation) ids_of.
Proof.
  intros l1 l2 H. unfold ids_of. induction H as [|g l1 l2 _ IH|g h l|l1 l2 l3 _ IH1 _ IH2]; cbn; [done|by rewrite IH| |by etransitivity].
  apply Permutation_app_swap_app.
Qed.

Lemma tables_perm s gs gs' : gs ≡ₚ gs' -> tables s gs -> tables s gs'.
Proof.
  intros HP [H1 H2 H3 H4 H5 H6 H7 H8]. split; try done.
  - by rewrite <- HP.
  - intros x Hx. apply H5. by rewrite HP.
  - intros x a Ha. destruct (H6 x a Ha) as (g & Hg & Hx). exists g. by rewrite <- HP.
  - assert (E : sum_list_with g_left gs' = sum_list_with g_left gs); [|rewrite E; by apply H8].
    clear -HP. induction HP; cbn; lia.
Qed.

Lemma base_u32 : STORE_ARTIFACT_ID_BASE < U32_MAX.
Proof. done. Qed.

(** ** What each hold of the mutex does to the tables *)

Section steps.
Context (s : CoordState) (rest : list Conn) (ids pend : list Z) (n : nat).

Lemma tables_key b x t :
  tables s (mkConn ids pend (S n) :: rest) -> interned b b (st_keys s) = (x, t) ->
  tables (set_keys t s) (mkConn ids pend n :: rest) /\ grows s (set_keys t s).
Proof.
  intros [H1 H2 H3 H4 H5 H6 H7 H8] E. cbn in H8. pose proof base_u32.
  destruct (interned_step 1 id b _ x t H1 ltac:(lia) ltac:(lia) E) as (Hok & Hi & Hb & Hn & _). split.
  - split; try done; [intros y a Ha|cbn; lia]. destruct (H6 y a Ha) as (g & [->|Hg]%elem_of_cons & Hy); [|set_solver].
    eexists. split; [apply list_elem_of_here|done].
  - split; try done. intros y a Ha. by exists a.
Qed.

Lemma tables_schema b x t :
  tables s (mkConn ids pend (S n) :: rest) -> interned (schema_content_hash b) b (st_schemas s) = (x, t) ->
  tables (set_schemas t s) (mkConn ids pend n :: rest) /\ grows s (set_schemas t s).
Proof.
  intros [H1 H2 H3 H4 H5 H6 H7 H8] E. cbn in H8. pose proof base_u32.
  destruct (interned_step FIRST_USER_SCHEMA_ID schema_content_hash b _ x t H2 ltac:(done) ltac:(lia) E) as (Hok & Hi & Hb & Hn & _). split.
  - split; try done; [intros y a Ha|cbn; lia]. destruct (H6 y a Ha) as (g & [->|Hg]%elem_of_cons & Hy); [|set_solver].
    eexists. split; [apply list_elem_of_here|done].
  - split; try done. intros y a Ha. by exists a.
Qed.

(** An id taken. *)
Lemma tables_take :
  tables s (mkConn ids [] (S n) :: rest) ->
  let a := st_actors s in
  let s' := set_actors (mkActors (wrap32 (next_actor_id a + 1)) (actors a)) s in
  tables s' (mkConn ids [next_actor_id a] n :: rest) /\ grows s s'.
Proof.
  intros [H1 H2 H3 H4 H5 H6 H7 H8] a s'. cbn in H8. pose proof base_u32. unfold s'. rewrite wrap32_id by (unfold a; mach).
  rewrite ids_of_cons in H4, H5. cbn [g_ids g_pend] in *. rewrite app_nil_r in *.
  assert (HP : ids_of (mkConn ids [next_actor_id a] n :: rest) ≡ₚ next_actor_id a :: ids ++ ids_of rest).
  { rewrite ids_of_cons. cbn. by rewrite <- app_assoc, (Permutation_middle ids). }
  split; [split; try done|].
  - rewrite HP. apply list.NoDup_cons. split; [|done]. intros Hin. specialize (H5 _ Hin). unfold a in H5. lia.
  - intros x Hx. rewrite HP in Hx. cbn. apply elem_of_cons in Hx as [->|Hx]; [unfold a; lia|]. specialize (H5 x Hx). unfold a. lia.
  - intros x e He. destruct (H6 x e He) as (g & [->|Hg]%elem_of_cons & Hx); [|set_solver].
    eexists. split; [apply list_elem_of_here|done].
  - cbn. unfold a. lia.
  - cbn. unfold a. lia.
  - split; try done. intros x e He. by exists e.
Qed.

(** The taken id registered. *)
Lemma tables_register x e :
  tables s (mkConn ids [x] n :: rest) ->
  let a := st_actors s in
  let s' := set_actors (mkActors (next_actor_id a) (<[x := e]> (actors a))) s in
  tables s' (mkConn (ids ++ [x]) [] n :: rest) /\ grows s s'.
Proof.
  intros [H1 H2 H3 H4 H5 H6 H7 H8] a s'. rewrite ids_of_cons in H4, H5. cbn [g_ids g_pend] in *.
  assert (E : ids_of (mkConn (ids ++ [x]) [] n :: rest) = (ids ++ [x]) ++ ids_of rest) by (rewrite ids_of_cons; cbn; by rewrite app_nil_r).
  assert (Hx : actors a !! x = None).
  { destruct (actors a !! x) as [e0|] eqn:E0; [|done]. exfalso. destruct (H6 x e0 E0) as (g & [->|Hg]%elem_of_cons & Hin); cbn [g_ids] in *.
    - rewrite <- app_assoc in H4. apply list.NoDup_app in H4 as (_ & Hd & _). apply (Hd x Hin). cbn. set_solver.
    - apply list.NoDup_app in H4 as (_ & Hd & _). apply (Hd x ltac:(set_solver)). apply elem_of_ids.
      exists g. set_solver. }
  split; [split; try done|].
  - by rewrite E.
  - intros y Hy. rewrite E in Hy. by apply H5.
  - intros y e0 He. cbn in He. destruct (decide (x = y)) as [<-|Hne].
    + eexists. split; [apply list_elem_of_here|]. cbn. set_solver.
    + rewrite lookup_insert_ne in He by done. destruct (H6 y e0 He) as (g & [->|Hg]%elem_of_cons & Hin).
      * eexists. split; [apply list_elem_of_here|]. cbn in *. set_solver.
      * exists g. split; [set_solver|done].
  - split; try done. intros y e0 He. cbn. exists e0. rewrite lookup_insert_ne by (intros ->; unfold a in Hx; congruence). done.
Qed.
End steps.

(** Entries of the actor table changed in place. *)
Lemma tables_actors s gs acts :
  (forall x, match actors (st_actors s) !! x with
             | None => acts !! x = None
             | Some a => exists a', acts !! x = Some a' /\ ae_name a' = ae_name a /\ ae_journal_seg a' = ae_journal_seg a /\
                 (ae_liveness a <> Alive -> ae_liveness a' <> Alive)
             end) ->
  let s' := set_actors (mkActors (next_actor_id (st_actors s)) acts) s in
  tables s gs -> tables s' gs /\ grows s s'.
Proof.
  intros Hx s' [H1 H2 H3 H4 H5 H6 H7 H8]. split; [split; try done|split; try done].
  - intros x a Ha. cbn in Ha. specialize (Hx x). destruct (actors (st_actors s) !! x) as [a0|] eqn:E; [by apply (H6 x a0)|congruence].
  - intros x a Ha. specialize (Hx x). by rewrite Ha in Hx.
Qed.

Lemma tables_alter s gs x f :
  (forall a, ae_name (f a) = ae_name a /\ ae_journal_seg (f a) = ae_journal_seg a /\ (ae_liveness a <> Alive -> ae_liveness (f a) <> Alive)) ->
  tables s gs -> tables (update_actor x f s) gs /\ grows s (update_actor x f s).
Proof.
  intros Hf Ht. apply tables_actors; [|done]. intros y. destruct (decide (x = y)) as [<-|Hne].
  - destruct (actors (st_actors s) !! x) as [a|] eqn:E; [|by rewrite lookup_alter_eq, E].
    exists (f a). by rewrite lookup_alter_eq, E.
  - rewrite lookup_alter_ne by done. destruct (actors (st_actors s) !! y) as [a|]; [by exists a|done].
Qed.

Lemma tables_mark_dead s gs deadline now kd :
  tables s gs -> tables (mark_dead deadline now kd s).2 gs /\ grows s (mark_dead deadline now kd s).2.
Proof.
  intros Ht. apply tables_actors; [|done]. intros x. rewrite map_lookup_imap.
  destruct (actors (st_actors s) !! x) as [a|]; cbn; [|done]. eexists. split; [done|].
  destruct (expired _ _ _ _ _) eqn:E; [|done]. done.
Qed.

Lemma tables_observed s gs o : tables s gs -> tables (set_observed o s) gs /\ grows s (set_observed o s).
Proof. intros [H1 H2 H3 H4 H5 H6 H7 H8]. split; [by split|]. split; try done. intros x a Ha. by exists a. Qed.

Lemma tables_topics s gs tt cr :
  topics (st_topics s) ⊆ topics tt ->
  let s' := mkCoordState (st_actors s) tt (st_artifacts s) (st_observed s) cr (st_schemas s) (st_keys s) in
  tables s gs -> tables s' gs /\ grows s s'.
Proof. intros Hs s' [H1 H2 H3 H4 H5 H6 H7 H8]. split; [by split|]. split; try done. intros x a Ha. by exists a. Qed.

(** Fewer requests left. *)
Lemma tables_less s ids pend n k rest : (k <= n)%nat -> tables s (mkConn ids pend n :: rest) -> tables s (mkConn ids pend k :: rest).
Proof.
  intros Hk [H1 H2 H3 H4 H5 H6 H7 H8]. split; try done.
  - intros x a Ha. destruct (H6 x a Ha) as (g & [->|Hg]%elem_of_cons & Hx); [eexists; split; [apply list_elem_of_here|done]|].
    exists g. split; [by apply list_elem_of_further|done].
  - cbn in *. lia.
Qed.

(** A new artifact, or only its ids used up. *)
Definition arts_step (name : string_t) (t t' : ArtifactTable) : Prop :=
  t' = t \/
  (exists i, t' = mkArts i (wrap32 (next_name_id t + 1)) (artifacts t) (artifact_name_by_id t)) \/
  (artifacts t !! name = None /\ exists i e, ar_name_id e = next_name_id t /\
     t' = mkArts i (wrap32 (next_name_id t + 1)) (<[name := e]> (artifacts t)) (<[next_name_id t := name]> (artifact_name_by_id t))).

Lemma tables_artifact s ids pend n rest name t' cr :
  arts_step name (st_artifacts s) t' ->
  let s' := mkCoordState (st_actors s) (st_topics s) t' (st_observed s) cr (st_schemas s) (st_keys s) in
  tables s (mkConn ids pend (S n) :: rest) -> tables s' (mkConn ids pend n :: rest) /\ grows s s'.
Proof.
  intros Hst s' Ht. pose proof (tables_less s ids pend (S n) n rest ltac:(lia) Ht) as Ht'.
  destruct Ht as [_ _ [A1 A2 A3] _ _ _ _ H8]. cbn in H8. destruct Ht' as [H1 H2 _ H4 H5 H6 H7 H8']. cbn in H8'. pose proof base_u32.
  destruct Hst as [->|[(i & ->)|(Hn & i & e & Ee & ->)]].
  - split; [by split|]. split; try done. intros x a Ha. by exists a.
  - unfold s'. rewrite wrap32_id by mach. split; [split; try done|split; try done; intros x a Ha; by exists a].
    + split; cbn; [done| |lia]. intros nid nm Hnm. destruct (A2 nid nm Hnm) as [Hr He]. split; [lia|done].
    + cbn. lia.
  - assert (Hf : artifact_name_by_id (st_artifacts s) !! next_name_id (st_artifacts s) = None).
    { destruct (_ !! next_name_id _) as [nm|] eqn:E; [|done]. destruct (A2 _ _ E) as [Hr _]. lia. }
    unfold s'. rewrite wrap32_id by mach. split; [split; try done|split; try done].
    + split; cbn; [| |lia].
      * intros nm e0 He. destruct (decide (name = nm)) as [<-|Hne].
        -- rewrite lookup_insert_eq in He. injection He as <-. by rewrite Ee, lookup_insert_eq.
        -- rewrite lookup_insert_ne in He by done. specialize (A1 nm e0 He). rewrite lookup_insert_ne; [done|].
           intros E. rewrite <- E in A1. congruence.
      * intros nid nm Hnm. destruct (decide (next_name_id (st_artifacts s) = nid)) as [<-|Hne].
        -- rewrite lookup_insert_eq in Hnm. injection Hnm as <-. split; [lia|]. exists e. by rewrite lookup_insert_eq.
        -- rewrite lookup_insert_ne in Hnm by done. destruct (A2 nid nm Hnm) as [Hr (e0 & He0 & E0)]. split; [lia|].
           exists e0. split; [|done]. rewrite lookup_insert_ne; [done|]. intros <-. congruence.
    + cbn. lia.
    + cbn. by apply insert_subseteq.
    + cbn. by apply insert_subseteq.
    + intros x a Ha. by exists a.
Qed.

(** ** The programs run under the mutex *)

Section locked_runs.
Context {O : Type} `{!Platform O, !Socket O} (data_base : Z) (shared : CoordShared).
Abbreviation CM := (CoordMem O).

Lemma run_with_state {A : Set} (f : CoordState -> A * CoordState) (m : CM) :
  run (with_state f) m = Some ((f (cm_state m)).1, set_cstate (f (cm_state m)).2 m).
Proof. unfold with_state. rewrite run_act. by destruct (f (cm_state m)). Qed.

Lemma run_get_state {A : Set} (f : CoordState -> A) (m : CM) : run (get_state f) m = Some (f (cm_state m), m).
Proof. unfold get_state. rewrite run_with_state. cbn. by destruct m. Qed.

(** A quiet part that may fail. *)
Lemma run_quiet_ebind {E A B} (p : prog CM (result E A)) (k : A -> prog CM (result E B)) m r m' :
  quiet p -> run (ebind p k) m = Some (r, m') ->
  (exists e, r = Err e /\ cm_state m' = cm_state m) \/
  (exists a m1, cm_state m1 = cm_state m /\ run (k a) m1 = Some (r, m')).
Proof.
  intros Hq. rewrite run_ebind. destruct (run p m) as [[[a|e] m1]|] eqn:E1; [| |done]; intros H.
  - right. exists a, m1. split; [by eapply quiet_run|done].
  - left. simplify_eq. exists e. split; [done|by eapply quiet_run].
Qed.

Lemma run_get_or_create_topic topic (m : CM) r m' :
  run (get_or_create_topic shared topic) m = Some (r, m') ->
  let s := cm_state m in
  exists tt cr, cm_state m' = mkCoordState (st_actors s) tt (st_artifacts s) (st_observed s) cr (st_schemas s) (st_keys s) /\
    topics (st_topics s) ⊆ topics tt.
Proof.
  intros H s. unfold get_or_create_topic in H. rewrite run_bind, run_get_state in H.
  assert (Hsame : exists tt cr, s = mkCoordState (st_actors s) tt (st_artifacts s) (st_observed s) cr (st_schemas s) (st_keys s) /\
    topics (st_topics s) ⊆ topics tt) by (exists (st_topics s), (st_created s); by destruct s).
  destruct (topics (st_topics (cm_state m)) !! topic) as [t|] eqn:Et; [cbn in H; by simplify_eq|].
  rewrite run_bind, run_with_state in H. cbn [fst snd] in H.
  set (m1 := set_cstate _ m) in H.
  assert (Hfail : forall m2 : CM, cm_state m2 = cm_state m1 -> exists tt cr,
    cm_state m2 = mkCoordState (st_actors s) tt (st_artifacts s) (st_observed s) cr (st_schemas s) (st_keys s) /\ topics (st_topics s) ⊆ topics tt)
    by (intros m2 ->; by eexists _, _).
  apply run_quiet_ebind in H as [(e & _ & E)|(seg & m2 & E2 & H)]; [by apply Hfail| |apply quiet_os].
  apply run_quiet_ebind in H as [(e & _ & E)|(rg & m3 & E3 & H)]; [apply Hfail; congruence| |unfold init_ring; quiet_tac].
  apply run_quiet_ebind in H as [(e & _ & E)|(bell & m4 & E4 & H)]; [apply Hfail; congruence| |apply quiet_os].
  unfold update_state in H. rewrite run_bind, run_with_state, run_bind, run_with_state in H. cbn in H. simplify_eq.
  cbn. rewrite E4, E3, E2. cbn. eexists _, _. split; [done|]. by apply insert_subseteq.
Qed.

Lemma run_get_or_create_artifact name (m : CM) r m' :
  run (get_or_create_artifact data_base shared name) m = Some (r, m') ->
  let s := cm_state m in
  exists t' cr, cm_state m' = mkCoordState (st_actors s) (st_topics s) t' (st_observed s) cr (st_schemas s) (st_keys s) /\
    arts_step name (st_artifacts s) t'.
Proof.
  intros H s. unfold get_or_create_artifact in H. rewrite run_bind, run_get_state in H.
  destruct (artifacts (st_artifacts (cm_state m)) !! name) as [a|] eqn:Ea.
  { cbn in H. simplify_eq. exists (st_artifacts s), (st_created s). split; [unfold s; by destruct (cm_state _)|by left]. }
  rewrite run_bind, run_with_state in H. cbn [fst snd] in H.
  set (m1 := set_cstate _ m) in H. rewrite run_bind in H.
  assert (Hfail : forall m2 : CM, cm_state m2 = cm_state m1 -> exists t' cr,
    cm_state m2 = mkCoordState (st_actors s) (st_topics s) t' (st_observed s) cr (st_schemas s) (st_keys s) /\ arts_step name (st_artifacts s) t').
  { intros m2 ->. eexists _, _. split; [done|]. right. left. by eexists. }
  destruct (run (alloc_artifact_data_id data_base) m1) as [[did m2]|] eqn:E0; [|done].
  assert (E2 : cm_state m2 = cm_state m1) by (cbn in E0; by simplify_eq).
  apply run_quiet_ebind in H as [(e & _ & E)|(hseg & m3 & E3 & H)]; [apply Hfail; congruence| |apply quiet_os].
  apply run_quiet_ebind in H as [(e & _ & E)|(dseg & m4 & E4 & H)]; [apply Hfail; congruence| |apply quiet_os].
  apply run_quiet_ebind in H as [(e & _ & E)|(art & m5 & E5 & H)]; [apply Hfail; congruence| |].
  2: { unfold artifact_create, init_pool. quiet_tac. apply quiet_lift. by apply beside_entry. }
  unfold update_state in H. rewrite run_bind, run_with_state, run_bind, run_with_state in H. cbn in H. simplify_eq.
  cbn. rewrite E5, E4, E3, E2. cbn. eexists _, _. split; [done|]. right. right. split; [done|].
  eexists _, (mkArtEntry _ _ hseg dseg). split; [|reflexivity]. reflexivity.
Qed.
End locked_runs.

(** ** Threads *)

Section threads.
Context {O : Type} `{!Platform O, !Socket O} (data_base : Z) (fuel : nat) (shared : CoordShared).
Abbreviation CM := (CoordMem O).
Abbreviation trg p i g Q := (rg (fun m : CM => tables (cm_state m)) (fun m m' : CM => grows (cm_state m) (cm_state m')) p i g Q).

Lemma rg_quiet {X} (p : prog CM X) i g (Q : X -> Conn -> Prop) : quiet p -> (forall a, Q a g) -> trg p i g Q.
Proof.
  intros Hq HQ. induction p as [a|R f k IH]; cbn in *; [done|].
  intros m gs r m' Hg HI E. destruct (Hq m r m' E) as [Es Hk]. rewrite Es. split; [apply grows_refl|].
  exists g. rewrite list_insert_id by done. auto.
Qed.

Lemma rg_quiet_bind {X Y} (p : prog CM X) (k : X -> prog CM Y) i g Q :
  quiet p -> (forall a, trg (k a) i g Q) -> trg (pbind p k) i g Q.
Proof. intros Hq Hk. apply rg_bind. apply rg_quiet; [done|exact Hk]. Qed.

Lemma rg_quiet_ebind {E X Y} (p : prog CM (result E X)) (k : X -> prog CM (result E Y)) i g Q :
  quiet p -> (forall a, trg (k a) i g Q) -> (forall e, Q (Err e) g) -> trg (ebind p k) i g Q.
Proof. intros Hq Hk He. apply rg_quiet_bind; [done|]. intros [a|e]; [apply Hk|apply He]. Qed.

Lemma rg_quiet_fbind {X Y} (p : prog CM (option X)) (k : X -> prog CM (option Y)) i g Q :
  quiet p -> (forall a, trg (k a) i g Q) -> Q None g -> trg (fbind p k) i g Q.
Proof. intros Hq Hk Hn. apply rg_quiet_bind; [done|]. intros [a|]; [apply Hk|exact Hn]. Qed.

(** A hold of the mutex, by what it does when it is run at once. *)
Lemma rg_locked {X : Set} (p : prog CM X) i g (Q : X -> Conn -> Prop) :
  (forall m r m' rest, run p m = Some (r, m') -> tables (cm_state m) (g :: rest) ->
     grows (cm_state m) (cm_state m') /\ exists g', tables (cm_state m') (g' :: rest) /\ Q r g') ->
  trg (locked p) i g Q.
Proof.
  intros H m gs r m' Hg HI E. destruct (insert_split gs i g Hg) as [rest HP].
  assert (HI' : tables (cm_state m) (g :: rest)) by (eapply tables_perm; [|exact HI]; by rewrite <- (HP g), list_insert_id).
  destruct (H m r m' rest E HI') as (HG & g' & Ht & HQ). split; [done|]. exists g'. split; [|done].
  eapply tables_perm; [|exact Ht]. by rewrite HP.
Qed.

(** An update of the tables that needs no id. *)
Lemma rg_update (f : CoordState -> CoordState) i g (Q : unit -> Conn -> Prop) :
  (forall s gs, tables s gs -> tables (f s) gs /\ grows s (f s)) -> Q tt g -> trg (locked (update_state f)) i g Q.
Proof.
  intros Hf HQ. apply rg_locked. intros m r m' rest H Ht. unfold update_state in H. rewrite run_with_state in H.
  cbn in H. simplify_eq. cbn. destruct (Hf _ _ Ht). split; [done|]. by exists g.
Qed.

Lemma quiet_reply conn resp fds : quiet (reply (O := O) conn resp fds).
Proof. unfold reply. quiet_tac. Qed.
#[local] Hint Resolve quiet_reply : quiet.

(** *** Connections *)

(** A request served: no id is left unregistered. *)
Definition served (n : nat) {X} (r : result RtError X) (g : Conn) : Prop :=
  is_ok r = true -> g_pend g = [] /\ (n <= g_left g)%nat.

Lemma rg_register conn name ids n i :
  trg (register_actor shared conn name) i (mkConn ids [] (S n)) (served n).
Proof.
  unfold register_actor. apply rg_bind. apply rg_locked. intros m x m' rest H Ht.
  rewrite run_with_state in H. cbn [fst snd] in H. injection H as <- <-. cbn [cm_state set_cstate]. destruct (tables_take _ _ _ _ Ht) as [Ht' HG]. split; [done|].
  eexists. split; [exact Ht'|]. set (x := next_actor_id _). clearbody x. clear m rest Ht Ht' HG.
  apply rg_quiet_ebind; [quiet_tac| |done]. intros seg.
  apply rg_quiet_ebind; [unfold init_journal; quiet_tac| |done]. intros j.
  apply rg_bind. apply rg_locked. intros m r m' rest H Ht.
  unfold update_state, clock, load in H. rewrite run_bind, run_with_state in H. cbn [fst snd] in H. rewrite run_bind, run_act, run_bind in H.
  destruct (run (on_os _) _) as [[pid m1]|] eqn:E; [|done]. apply quiet_run in E; [|apply quiet_os].
  rewrite run_with_state in H. cbn [fst snd] in H. injection H as <- <-. cbn [cm_state set_cstate] in *. rewrite E.
  set (e := mkActor _ _ _ _ _).
  destruct (tables_register _ _ _ _ x e Ht) as [Ht' HG].
  split; [by destruct HG; split|]. eexists. split; [destruct Ht'; by split|].
  apply rg_quiet_ebind; [quiet_tac|by intros|done].
Qed.

Lemma rg_grant_topic conn topic sub ids n i : trg (grant_topic shared conn topic sub) i (mkConn ids [] n) (served n).
Proof.
  unfold grant_topic. apply rg_bind. apply rg_locked. intros m r m' rest H Ht.
  apply run_get_or_create_topic in H as (tt & cr & -> & Hs). destruct (tables_topics _ _ tt cr Hs Ht). split; [done|].
  eexists. split; [done|]. destruct r as [[[[[id rfd] len] rd] wr]|e]; [|done]. apply rg_quiet; [quiet_tac|done].
Qed.

Lemma rg_grant_artifact conn name ids n i : trg (grant_artifact data_base shared conn name) i (mkConn ids [] (S n)) (served n).
Proof.
  unfold grant_artifact. apply rg_bind. apply rg_locked. intros m r m' rest H Ht.
  apply run_get_or_create_artifact in H as (t' & cr & -> & Hs). destruct (tables_artifact _ _ _ _ _ _ t' cr Hs Ht). split; [done|].
  eexists. split; [done|]. destruct r as [[[[[nid hid] did] hfd] dfd]|e]; [|done]. apply rg_quiet; [quiet_tac|done].
Qed.

Lemma rg_intern_schema bytes ids n i : trg (intern_schema bytes) i (mkConn ids [] (S n)) (fun _ g => g = mkConn ids [] n).
Proof.
  apply rg_locked. intros m r m' rest H Ht. rewrite run_with_state in H.
  destruct (interned _ _ _) as [x t] eqn:E. cbn in H. simplify_eq. destruct (tables_schema _ _ _ _ _ _ _ _ Ht E).
  split; [done|]. eexists. done.
Qed.

Lemma rg_intern_key bytes ids n i : trg (intern_key bytes) i (mkConn ids [] (S n)) (fun _ g => g = mkConn ids [] n).
Proof.
  apply rg_locked. intros m r m' rest H Ht. rewrite run_with_state in H.
  destruct (interned _ _ _) as [x t] eqn:E. cbn in H. simplify_eq. destruct (tables_key _ _ _ _ _ _ _ _ Ht E).
  split; [done|]. eexists. done.
Qed.

Lemma rg_observe (f : CoordState -> Observed) i g (Q : unit -> Conn -> Prop) :
  Q tt g -> trg (locked (update_state (fun s => set_observed (f s) s))) i g Q.
Proof. apply rg_update. intros s gs. apply tables_observed. Qed.

Lemma rg_handle_pinned d i g Q : Q tt g -> trg (handle_pinned shared d) i g Q.
Proof.
  intros HQ. unfold handle_pinned. apply rg_quiet_bind; [apply quiet_pool|intros r].
  apply rg_quiet_bind; [quiet_tac|intros ?; by apply rg_observe].
Qed.

Lemma rg_set_liveness x l i g Q : l <> Alive -> Q tt g -> trg (locked (update_state (update_actor x (set_liveness l)))) i g Q.
Proof. intros Hl. apply rg_update. intros s gs. apply tables_alter. intros a. split_and!; [done|done|]. by intros _. Qed.

Lemma rg_heartbeat x i g (Q : unit -> Conn -> Prop) :
  Q tt g -> trg (locked (now <- clock ;; update_state (update_actor x (set_heartbeat now)))) i g Q.
Proof.
  intros HQ. apply rg_locked. intros m r m' rest H Ht. unfold clock, load, update_state in H.
  rewrite run_bind, run_act, run_with_state in H. cbn [fst snd] in H. injection H as <- <-. cbn [cm_state set_cstate].
  destruct (tables_alter (cm_state m) (g :: rest) x (set_heartbeat (cm_clock m)) ltac:(done) Ht). split; [done|]. by exists g.
Qed.

Lemma rg_ebind_served {X Y} (p : prog CM (result RtError X)) (k : X -> Y) i g n :
  trg p i g (served n) -> trg (ebind p (fun a => Ret (Ok (k a)))) i g (served n).
Proof. intros Hp. apply rg_bind. eapply rg_mono; [|exact Hp]. by intros [a|e] g'. Qed.

Lemma rg_then_served {X Y} (p : prog CM X) (b : Y) i g n :
  trg p i g (fun _ g' => g_pend g' = [] /\ (n <= g_left g')%nat) -> trg (pbind p (fun _ => Ret (Ok b))) i g (served n).
Proof. intros Hp. apply rg_bind. eapply rg_mono; [|exact Hp]. intros a g' Hs _. exact Hs. Qed.

Lemma rg_quiet_served {X Y} (p : prog CM (result RtError X)) (b : Y) i ids n :
  quiet p -> trg (ebind p (fun _ => Ret (Ok b))) i (mkConn ids [] n) (served n).
Proof. intros Hq. by apply rg_quiet_ebind. Qed.

Lemma rg_weaken {X} (p : prog CM (result RtError X)) i g n k : (k <= n)%nat -> trg p i g (served n) -> trg p i g (served k).
Proof. intros Hk. apply rg_mono. intros r g' Hs Hok. destruct (Hs Hok). split; [done|lia]. Qed.

Lemma rg_request conn me req ids n i :
  trg (handle_request data_base shared conn me req) i (mkConn ids [] (S n)) (served n).
Proof.
  assert (Hn : (n <= S n)%nat) by lia.
  destruct req; cbn [handle_request];
    try (apply (rg_weaken _ _ _ _ _ Hn); apply rg_ebind_served; apply rg_grant_topic);
    try solve [apply (rg_weaken _ _ _ _ _ Hn); apply rg_quiet_served; unfold grant_task_queue, grant_store; quiet_tac];
    try solve [apply rg_quiet_bind; [apply quiet_get|intros r]; apply (rg_weaken _ _ _ _ _ Hn); apply rg_quiet_served; quiet_tac].
  - apply (rg_ebind_served _ (fun x => (Some x, true))). apply rg_register.
  - apply rg_then_served. destruct me as [x|]; [|done]. by apply rg_heartbeat.
  - apply rg_then_served. by apply rg_observe.
  - apply rg_then_served. by apply rg_handle_pinned.
  - apply rg_then_served. destruct me as [x|]; [|done]. by apply rg_set_liveness.
  - apply rg_ebind_served. apply rg_grant_artifact.
  - apply rg_bind. eapply rg_mono; [|apply rg_intern_schema]. intros x g ->. apply rg_quiet_served. quiet_tac.
  - apply rg_bind. eapply rg_mono; [|apply rg_intern_key]. intros x g ->. apply rg_quiet_served. quiet_tac.
Qed.

Lemma rg_connection conn inputs : forall me g i,
  g_pend g = [] -> (length inputs <= g_left g)%nat ->
  trg (handle_connection data_base shared conn me inputs) i g (fun _ _ => True).
Proof.
  induction inputs as [|input inputs IH]; intros me g i Hp Hl; [done|]. cbn [handle_connection].
  destruct g as [ids pend [|n]]; cbn in Hp, Hl; subst pend; [lia|].
  apply rg_quiet_bind; [apply quiet_load|]. intros live. destruct (negb live); [done|].
  destruct input as [bytes|errno]; [|destruct (is_timeout errno); [apply IH; cbn; [done|lia]|done]].
  destruct (Protocol.recv_frame bytes) as [body|[]]; try done.
  destruct (decode_request body) as [req|e]; [|done].
  apply rg_bind. eapply rg_mono; [|apply rg_request]. intros [[me' go]|e] g Hs; [|done].
  destruct (Hs eq_refl) as [Hp' Hl']. destruct go; [|done]. apply IH; [done|lia].
Qed.

(** *** The lease monitor *)

Lemma quiet_store_entry aid inc : quiet (attach_store_entry_by_id (O := O) shared aid inc).
Proof. unfold attach_store_entry_by_id. cbn zeta. quiet_tac. Qed.
#[local] Hint Resolve quiet_store_entry : quiet.

Lemma quiet_attach_artifact aid inc : quiet (attach_artifact_by_id (O := O) shared aid inc).
Proof. unfold attach_artifact_by_id. cbn zeta. quiet_tac. Qed.
#[local] Hint Resolve quiet_attach_artifact : quiet.

Lemma quiet_record pools actor acc rec : quiet (reclaim_record (O := O) fuel shared pools actor acc rec).
Proof.
  unfold reclaim_record, reclaim_artifact_pin, reclaim_write_lease, reclaim_manifest. cbn zeta. quiet_tac.
Qed.

Lemma quiet_slot jseg j pools actor acc x : quiet (reclaim_slot (O := O) fuel shared jseg j pools actor acc x).
Proof. unfold reclaim_slot. apply quiet_bind; [apply quiet_journal|]. intros won. destruct (or_false won); [apply quiet_record|done]. Qed.

Lemma quiet_attach_pools segs : quiet (attach_pools (O := O) segs).
Proof.
  induction segs as [|s segs IH]; [done|]. cbn [attach_pools]. apply quiet_bind; [apply quiet_pool|]. intros r.
  apply quiet_bind; [done|]. by intros.
Qed.

Lemma rg_reclaim_dead actor jseg i g (Q : option (list ChunkDesc) -> Conn -> Prop) :
  (forall r, Q r g) -> trg (reclaim_dead fuel shared actor jseg) i g Q.
Proof.
  intros HQ. unfold reclaim_dead. apply rg_quiet_bind; [apply quiet_journal|]. intros [j|e]; [|apply HQ].
  apply rg_quiet_bind; [apply quiet_get|]. intros segs. apply rg_quiet_bind; [apply quiet_attach_pools|]. intros pools.
  apply rg_quiet_fbind; [apply quiet_journal| |apply HQ]. intros recs.
  apply rg_quiet_fbind; [apply quiet_fold; intros; apply quiet_slot| |apply HQ]. intros acc.
  destruct (_ || _); cbn [pbind]; [|apply HQ]. apply rg_bind. apply rg_observe. apply HQ.
Qed.

Lemma rg_loop_fold {X C} (xs : list X) (body : C -> X -> prog CM (option C)) acc i g (Q : option C -> Conn -> Prop) :
  (forall c x (Q' : option C -> Conn -> Prop), (forall r, Q' r g) -> trg (body c x) i g Q') ->
  (forall r, Q r g) -> trg (loop_fold xs body acc) i g Q.
Proof.
  intros Hb HQ. revert acc. induction xs as [|x xs IH]; intros acc; [apply HQ|].
  cbn [loop_fold]. apply rg_bind. apply Hb. intros [c|]; [apply IH|apply HQ].
Qed.

Context (tid : nat) (tls_addr : Z) (work_notify done_notify : prog QueueMem unit).
Abbreviation turn := (monitor_turn fuel shared tid tls_addr work_notify done_notify).

Lemma rg_reclaim_each dead i g (Q : option unit -> Conn -> Prop) :
  (forall r, Q r g) -> trg (reclaim_each fuel shared dead) i g Q.
Proof.
  intros HQ. apply rg_loop_fold; [|done]. intros c x Q' HQ'. apply rg_bind. apply rg_reclaim_dead.
  intros [ds|]; [|apply HQ']. case_decide; cbn [pbind]; [apply HQ'|]. apply rg_bind. apply rg_observe. apply HQ'.
Qed.

Lemma rg_mark_dead now kd i g (Q : list (Z * SegHandle) -> Conn -> Prop) :
  (forall r, Q r g) -> trg (locked (with_state (mark_dead (lease_deadline (config shared)) now kd))) i g Q.
Proof.
  intros HQ. apply rg_locked. intros m r m' rest H Ht. rewrite run_with_state in H. injection H as <- <-.
  destruct (tables_mark_dead _ _ (lease_deadline (config shared)) now kd Ht). split; [done|]. by exists g.
Qed.

Lemma rg_reap_bindings now grace i g (Q : option Z -> Conn -> Prop) :
  (forall r, Q r g) -> trg (reap_task_bindings fuel shared now grace) i g Q.
Proof.
  intros HQ. apply rg_quiet_fbind; [apply quiet_queue| |apply HQ]. intros won. case_decide; [apply HQ|].
  apply rg_quiet_fbind; [quiet_tac| |apply HQ]. intros n. apply rg_bind. apply rg_observe. apply HQ.
Qed.

Lemma rg_turn ready i g (Q : option unit -> Conn -> Prop) : (forall r, Q r g) -> trg (turn ready) i g Q.
Proof.
  intros HQ. unfold monitor_turn. apply rg_quiet_bind; [unfold wait_tick; quiet_tac|]. intros kd.
  apply rg_quiet_bind; [apply quiet_load|]. intros now. apply rg_bind. apply rg_mark_dead. intros dead.
  apply rg_bind. apply rg_reclaim_each. intros [[]|]; [|apply HQ].
  apply rg_quiet_bind; [apply quiet_load|]. intros t. apply rg_quiet_fbind; [apply quiet_queue| |apply HQ]. intros rep.
  apply rg_quiet_fbind; [unfold clock, reap_tasks; quiet_tac| |apply HQ]. intros rep2.
  apply rg_quiet_bind; [apply quiet_load|]. intros t2. apply rg_bind. apply rg_reap_bindings. intros [n|]; [|apply HQ].
  apply rg_quiet_fbind; [unfold sweep_store_tombstones; cbn zeta; quiet_tac|intros; apply HQ|apply HQ].
Qed.

Lemma rg_monitor turns i g : trg (lease_monitor fuel shared tid tls_addr work_notify done_notify turns) i g (fun _ _ => True).
Proof.
  induction turns as [|ready turns IH]; [done|]. cbn [lease_monitor]. apply rg_quiet_bind; [apply quiet_load|].
  intros live. destruct (negb live); [done|]. apply rg_bind. apply rg_turn. by intros [[]|].
Qed.

Lemma rg_force_reclaim actor i g : trg (force_reclaim fuel shared actor) i g (fun _ _ => True).
Proof.
  unfold force_reclaim. apply rg_bind. apply rg_locked. intros m r m' rest H Ht. rewrite run_with_state in H.
  injection H as <- <-.
  destruct (actors _ !! actor) as [a|] eqn:E; cbn [fst snd cm_state set_cstate].
  - destruct (tables_alter (cm_state m) (g :: rest) actor (set_liveness Dead) ltac:(done) Ht). split; [done|]. exists g.
    split; [done|]. apply rg_bind. apply rg_reclaim_dead. intros [ds|]; [|done]. apply rg_bind. by apply rg_observe.
  - split; [apply grows_refl|]. by exists g.
Qed.
End threads.

(** ** The coordinator's process *)

(** Its threads: the accepted connections with what their sockets deliver, the monitor with
    what [poll] reports, callers of [force_reclaim]; and the clock they all read, which shows
    one reading after another whenever it likes. *)
Inductive CoordThread : Set :=
| Connection (conn : nat) (inputs : list Received)
| Monitor (turns : list (list nat))
| Reclaimer (actor : Z)
| Clock (readings : list Z).

Section process.
Context {O : Type} `{!Platform O, !Socket O} (data_base : Z) (fuel : nat) (shared : CoordShared).
Context (tid : nat) (tls_addr : Z) (work_notify done_notify : prog QueueMem unit).
Abbreviation CM := (CoordMem O).

Definition set_clock (now : Z) (m : CM) : CM := mkCoordMem (cm_os m) now (cm_running m) (cm_data_ids m) (cm_state m) (cm_seg m).

Fixpoint ticking (readings : list Z) : prog CM unit :=
  match readings with
  | [] => Ret tt
  | now :: rest => store (set_clock now) ;;; ticking rest
  end.

Definition coord_thread (t : CoordThread) : prog CM unit :=
  match t with
  | Connection conn inputs => handle_connection data_base shared conn None inputs ;;; Ret tt
  | Monitor turns => lease_monitor fuel shared tid tls_addr work_notify done_notify turns ;;; Ret tt
  | Reclaimer actor => force_reclaim fuel shared actor ;;; Ret tt
  | Clock readings => ticking readings
  end.

(** The deliveries of the connections. *)
Definition deliveries (t : CoordThread) : nat := match t with Connection _ inputs => length inputs | _ => 0%nat end.

Definition first_conn (t : CoordThread) : Conn := mkConn [] [] (deliveries t).

Lemma rg_ticking readings i g :
  rg (fun m : CM => tables (cm_state m)) (fun m m' : CM => grows (cm_state m) (cm_state m')) (ticking readings) i g (fun _ _ => True).
Proof.
  induction readings as [|now readings IH]; [done|]. cbn [ticking pbind store act rg]. intros m gs [] m' Hg Ht E. simplify_eq.
  split; [apply grows_refl|]. exists g. split; [by rewrite list_insert_id|exact IH].
Qed.

Lemma threads_ok ts :
  rg_ok (fun m : CM => tables (cm_state m)) (fun m m' : CM => grows (cm_state m) (cm_state m')) (fun _ _ => True) (coord_thread <$> ts) (first_conn <$> ts).
Proof.
  split; [by rewrite !length_fmap|]. intros i p g Hp Hg. rewrite list_lookup_fmap in Hp. rewrite list_lookup_fmap in Hg.
  destruct (ts !! i) as [t|]; [|done]. cbn in Hp, Hg. injection Hp as <-. injection Hg as <-.
  destruct t as [conn inputs|turns|actor|readings]; [apply rg_bind..|apply rg_ticking].
  - by apply rg_connection.
  - apply rg_monitor.
  - apply rg_force_reclaim.
Qed.

Lemma ids_first ts : ids_of (first_conn <$> ts) = [].
Proof. induction ts as [|t ts IH]; [done|]. cbn [fmap list_fmap]. by rewrite ids_of_cons, IH. Qed.

Lemma left_first ts : sum_list_with g_left (first_conn <$> ts) = sum_list_with deliveries ts.
Proof. induction ts as [|t ts IH]; [done|]. cbn. by rewrite IH. Qed.

Lemma tables_first ts created :
  FIRST_USER_SCHEMA_ID + Z.of_nat (sum_list_with deliveries ts) <= STORE_ARTIFACT_ID_BASE ->
  tables (first_state created) (first_conn <$> ts).
Proof.
  intros Hb. split; rewrite ?ids_first, ?left_first; try (intros *; set_solver); try done.
  - constructor.
  - cbn. change FIRST_USER_SCHEMA_ID with 16 in *. lia.
Qed.

Lemma coord_reach (tp : list (prog CM unit)) m tp' m' gs :
  pool_reach (tp, m) (tp', m') ->
  rg_ok (fun m : CM => tables (cm_state m)) (fun m m' : CM => grows (cm_state m) (cm_state m')) (fun _ _ => True) tp gs -> tables (cm_state m) gs ->
  grows (cm_state m) (cm_state m') /\ exists gs',
    rg_ok (fun m : CM => tables (cm_state m)) (fun m m' : CM => grows (cm_state m) (cm_state m')) (fun _ _ => True) tp' gs' /\ tables (cm_state m') gs'.
Proof.
  intros R Hok Ht. eapply (rg_reach (fun m : CM => tables (cm_state m)) (fun m m' : CM => grows (cm_state m) (cm_state m'))); [| |exact R|exact Hok|exact Ht].
  - intros. apply grows_refl.
  - intros. by eapply grows_trans.
Qed.

(** C8. However the coordinator's threads interleave (any number of connections with any
    bytes arriving, the lease monitor, forced reclaims), and whatever the clock shows them
    in the meantime, so that leases lapse at any moment, for up to 2^28 - 16 requests: an
    interned schema or key and its id determine each other, an artifact's name and its id
    too (and no artifact id reaches the range of the store's), every registered actor has an
    id below the next one; and between any two moments nothing of it is forgotten or
    changed: ids keep their bytes, topics and artifacts their segments, actors their
    name and journal, and an actor that left or died is not alive again. *)
Theorem registry_sound ts (m : CM) created tp1 m1 tp2 m2 :
  cm_state m = first_state created ->
  FIRST_USER_SCHEMA_ID + Z.of_nat (sum_list_with deliveries ts) <= STORE_ARTIFACT_ID_BASE ->
  pool_reach (coord_thread <$> ts, m) (tp1, m1) -> pool_reach (tp1, m1) (tp2, m2) ->
  let s := cm_state m1 in
  (forall k i, it_ids (st_keys s) !! k = Some i <-> it_bytes (st_keys s) !! i = Some k) /\
  (forall h i, it_ids (st_schemas s) !! h = Some i <-> exists b, it_bytes (st_schemas s) !! i = Some b /\ schema_content_hash b = h) /\
  (forall i b, it_bytes (st_schemas s) !! i = Some b -> FIRST_USER_SCHEMA_ID <= i) /\
  (forall name i, (exists e, artifacts (st_artifacts s) !! name = Some e /\ ar_name_id e = i) <->
     artifact_name_by_id (st_artifacts s) !! i = Some name) /\
  (forall i name, artifact_name_by_id (st_artifacts s) !! i = Some name -> 1 <= i < STORE_ARTIFACT_ID_BASE) /\
  (forall x a, actors (st_actors s) !! x = Some a -> 1 <= x < next_actor_id (st_actors s)) /\
  grows s (cm_state m2).
Proof.
  intros Hm Hb R1 R2 s.
  assert (Ht : tables (cm_state m) (first_conn <$> ts)) by (rewrite Hm; by apply tables_first).
  destruct (coord_reach _ _ _ _ _ R1 (threads_ok ts) Ht) as (_ & gs1 & Hok1 & Ht1).
  destruct (coord_reach _ _ _ _ _ R2 Hok1 Ht1) as (HG & _).
  destruct Ht1 as [[K1 K2 _] [S1 S2 _] [A1 A2 _] _ Hr Ha _ Hbd]. fold s in K1, K2, S1, S2, A1, A2, Hr, Ha, Hbd.
  split_and!; [intros k i; split|intros h i; split| |intros name i; split| | |done].
  - intros Hk. destruct (K1 k i Hk) as (b & Hb' & <-). exact Hb'.
  - intros Hi. apply (K2 i k Hi).
  - apply S1.
  - intros (b & Hi & <-). apply (S2 i b Hi).
  - intros i b Hi. apply (S2 i b Hi).
  - intros (e & He & <-). by apply A1.
  - intros Hi. apply (A2 i name Hi).
  - intros i name Hi. destruct (A2 i name Hi) as [Hi' _]. cbn in Hbd. lia.
  - intros x a Hx. apply Hr. apply elem_of_ids. destruct (Ha x a Hx) as (g & Hg & Hin). exists g. split; [done|]. set_solver.
Qed.
End process.

(** ** A coordinator on simulated objects *)

#[export] Instance sim_socket : Socket Sim.Sim := {|
  sys_sendmsg conn bytes fds := act (fun o =>
    Some (Ok tt, Sim.mkSim (Sim.next_fd o) (Sim.lens o) (Sim.headers o) (Sim.names o) (Sim.sent o ++ [(conn, bytes, fds)])));
  sys_peer_pidfd _ := Ret None
|}.

Definition small_config : RuntimeConfig :=
  mkConfig 1 4096 [mkSizeClass 64 2] 8 4 150 500 40 4 3 2000 [mkSizeClass 64 2] 4096 2 [mkSizeClass 64 2] 4096.

(** The value of a run that succeeds. *)
Definition succeeds {S E A} (r : option (result E A * S)) : bool := match r with Some (Ok _, _) => true | _ => false end.
Definition value_of {S E A} (r : option (result E A * S)) : succeeds r = true -> A * S :=
  match r with
  | Some (Ok a, s) => fun _ => (a, s)
  | Some (Err e, s) => fun H => False_rect _ (diff_false_true H)
  | None => fun H => False_rect _ (diff_false_true H)
  end.

Lemma small_binds : succeeds (run (bind small_config) Sim.empty) = true.
Proof. vm_compute. reflexivity. Qed.

Definition small_bound : CoordShared * Contents * CoordState * Sim.Sim := value_of (run (bind small_config) Sim.empty) small_binds.

Definition small_shared : CoordShared := small_bound.1.1.1.
Definition small_mem : CoordMem Sim.Sim := mkCoordMem small_bound.2 1000 true 0 small_bound.1.2 small_bound.1.1.2.

Definition request (r : Request) : Received := Got (default [] (Protocol.send_frame (encode_request r))).

(** Two actors register and open one artifact; one of them says goodbye, the other falls silent. *)
Definition small_threads : list CoordThread :=
  [Connection 10 [request (Register [97]); request (OpenArtifact [120]); request (InternKey [5; 6]); request Bye];
   Connection 11 [request (Register [98]); request (InternKey [7]); request (InternKey [5; 6]); request (OpenArtifact [120])];
   Monitor [[]; []]; Clock [2000; 3000000000000]].

Abbreviation small_start := (coord_thread 40 9 small_shared 7 0 (Ret tt) (Ret tt) <$> small_threads, small_mem).
Definition small_run := pool_after (concat (replicate 16 [0; 1; 2]%nat) ++ [1; 3; 2; 3]%nat) small_start.

Lemma small_reach : pool_reach small_start (small_run.1, small_run.2).
Proof. unfold small_run. apply pool_after_reach. Qed.

Lemma small_facts : length (Sim.sent (cm_os small_run.2)) = 7%nat /\ it_ids (st_keys (cm_state small_run.2)) !! [5; 6] = Some 2.
Proof. vm_compute. by split. Qed.

Lemma small_first : cm_state small_mem = first_state [1; 513; 8193; 8194; 8195].
Proof. vm_compute. reflexivity. Qed.

Lemma registry_sound_witness :
  exists tp m, pool_reach small_start (tp, m) /\ length (Sim.sent (cm_os m)) = 7%nat /\
    it_ids (st_keys (cm_state m)) !! [5; 6] = Some 2 /\ it_bytes (st_keys (cm_state m)) !! 2 = Some [5; 6].
Proof.
  pose proof small_reach as R. pose proof small_facts as [Hs E]. destruct small_run as [tp m]. cbn [fst snd] in *.
  exists tp, m. split_and!; [exact R|exact Hs|exact E|].
  destruct (registry_sound 40 9 small_shared 7 0 (Ret tt) (Ret tt) small_threads small_mem _ tp m tp m
    small_first ltac:(vm_compute; discriminate) R (rtc_refl _ _)) as [Hk _].
  exact (proj1 (Hk _ _) E).
Defined.
