(* ===== verification/Stream.v ===== *)
(** * Streams: transactional writes to an artifact

    [src/crates/shm-stream/src/stream.rs] and [error.rs].  A writer stages Arrow batches as
    loaned, journaled chunks that no manifest names, and installs all of them as the next
    version, under the artifact's write lease or against an expected version.

    The memory is the artifact's: head, data pool and the actors' journals.  Everything that
    loops on a compare-and-swap takes fuel. *)

From S2P Require Import Prelude Atomic ChunkDesc ChunkCtrl Pool BorrowJournal Manifest Window Head Artifact Commit Arrow.

#[local] Open Scope prog_scope.

Inductive Coordination : Set :=
| Exclusive
| Optimistic (expect_version : Z).

Inductive StreamError `{ArrowTypes} : Set :=
| SCore (e : CoreError)
| SArrow (e : ArrowErr)
| SArtifact (e : ArtifactError)
| SSchemaMismatch (expected appended : Z)
| SUnsupported.

Record Staged : Set := mkStaged { sd_desc : ChunkDesc; sd_slot : nat }.

Inductive Coord : Set :=
| CExclusive (c : Committer)
| COptimistic (expect : Z).

(** The writer's own fields; the artifact, the journal and the segment are parameters. *)
Record StreamWriter : Set := mkWriter {
  sw_pool : Pool;
  sw_coord : Coord;
  sw_owner : Z;
  sw_kind : Commit;
  sw_staged : list Staged;
  sw_spans : list Z;
  sw_schema_id : option Z;
  sw_finished : bool
}.

Definition staged_len (w : StreamWriter) : nat := length (sw_staged w).

Section stream.
Context `{ArrowLib} (fuel : nat) (art : Artifact) (seg : Segment) (journal : jref).
Abbreviation M := (ArtMem PoolMem).
#[local] Instance stream_data : DataSeg PoolMem := pool_data seg.

Definition stream_open (owner : Z) (kind : Commit) (coordination : Coordination)
    : prog M (option (result StreamError StreamWriter)) :=
  match kind with
  | Patch _ _ => done (Err SUnsupported)
  | _ =>
      r <- on_data (act (fun m => Some (Pool.attach seg m, m))) ;;
      match r with
      | Err e => done (Err (SCore e))
      | Ok p =>
          let writer c := mkWriter p c owner kind [] [] None false in
          match coordination with
          | Exclusive =>
              com <-- open_exclusive_journaled fuel art owner journal ;;
              done (match com with Ok c => Ok (writer (CExclusive c)) | Err e => Err (SArtifact e) end)
          | Optimistic v => done (Ok (writer (COptimistic v)))
          end
      end
  end.

(** [drop_loan] and [free], whatever they answer. *)
Definition unloan (p : Pool) (d : ChunkDesc) : prog M (option unit) :=
  r <- on_data (Pool.ctrl p d (drop_loan fuel)) ;;
  match r with
  | Ok None => Ret None
  | _ => _ <-- on_data (Pool.free p fuel d) ;; done tt
  end.

(** A staged chunk given back, unless a replay won its journal slot first. *)
Definition unstage (p : Pool) (s : Staged) : prog M (option unit) :=
  won <- on_journal journal.1 (BorrowJournal.release journal.2 (sd_slot s)) ;;
  match won with
  | Ok true => unloan p (sd_desc s)
  | _ => done tt
  end.

Fixpoint each_do {X} (f : X -> prog M (option unit)) (xs : list X) : prog M (option unit) :=
  match xs with
  | [] => done tt
  | x :: xs' => _ <-- f x ;; each_do f xs'
  end.

(** Loan and journal one chunk. *)
Definition stage_one (w : StreamWriter) (d : ChunkDesc) : prog M (option (result StreamError Staged)) :=
  r <- on_data (Pool.ctrl (sw_pool w) d (try_loan (sw_owner w))) ;;
  match r with
  | Err e | Ok (Err e) => done (Err (SCore e))
  | Ok (Ok _) =>
      s <-- on_journal journal.1 (BorrowJournal.record journal.2 fuel d) ;;
      done (match s with Ok slot => Ok (mkStaged d slot) | Err e => Err (SCore e) end)
  end.

(** Stage the chunks of one batch; on a failure, those staged are unstaged and the rest
    given back. *)
Fixpoint stage_all (w : StreamWriter) (batch_staged : list Staged) (ds : list ChunkDesc)
    : prog M (option (result StreamError (list Staged))) :=
  match ds with
  | [] => done (Ok batch_staged)
  | d :: ds' =>
      r <-- stage_one w d ;;
      match r with
      | Ok s => stage_all w (batch_staged ++ [s]) ds'
      | Err e =>
          _ <-- each_do (unstage (sw_pool w)) batch_staged ;;
          _ <-- each_do (unloan (sw_pool w)) ds ;;
          done (Err e)
      end
  end.

(** Stage the written chunks of a batch and add them to the transaction. *)
Definition stage_batch (w : StreamWriter) (descs : list ChunkDesc) (batch_schema : Z)
    : prog M (option (result StreamError StreamWriter)) :=
  st <-- stage_all w [] descs ;;
  done (match st with
        | Err e => Err e
        | Ok ss => Ok (mkWriter (sw_pool w) (sw_coord w) (sw_owner w) (sw_kind w) (sw_staged w ++ ss)
                         (sw_spans w ++ [wrap32 (Z.of_nat (length descs))]) (Some (default batch_schema (sw_schema_id w)))
                         (sw_finished w))
        end).

(** The registry is the caller's, shared and locked. *)
Definition append_batch (w : StreamWriter) (reg : SchemaRegistry) (batch : RecordBatch)
    : SchemaRegistry * prog M (option (result StreamError StreamWriter)) :=
  let '(reg', write) := write_batch_chunks (sw_pool w) fuel reg batch in
  (reg',
   r <-- on_data write ;;
   match r with
   | Err e => done (Err (SArrow e))
   | Ok [] => fault (* [descs[0]] *)
   | Ok ((d :: _) as descs) =>
       let batch_schema := ChunkDesc.schema_id d in
       match sw_schema_id w with
       | Some expected =>
           if negb (expected =? batch_schema) then
             _ <-- each_do (fun d => _ <-- on_data (Pool.free (sw_pool w) fuel d) ;; done tt) descs ;;
             done (Err (SSchemaMismatch expected batch_schema))
           else stage_batch w descs batch_schema
       | None => stage_batch w descs batch_schema
       end
   end).

Definition free_staged (w : StreamWriter) : prog M (option unit) := each_do (unstage (sw_pool w)) (sw_staged w).

(** The fields that are dropped with the writer: the committer gives the lease up. *)
Definition drop_coord (c : Coord) : prog M unit :=
  match c with CExclusive com => drop_committer com | COptimistic _ => Ret tt end.

(** [Drop]. *)
Definition stream_drop (w : StreamWriter) : prog M (option unit) :=
  _ <-- (if sw_finished w then done tt else free_staged w) ;;
  drop_coord (sw_coord w) ;;;
  done tt.

Definition commit_install (w : StreamWriter) : prog M (option (result ArtifactError Z)) :=
  let schema := default RAW_SCHEMA_ID (sw_schema_id w) in
  let descs := sd_desc <$> sw_staged w in
  match sw_coord w with
  | CExclusive com => commit_staged fuel art com (sw_kind w) descs (sw_spans w) schema
  | COptimistic expect =>
      commit_staged_optimistic_journaled fuel art (sw_owner w) expect (sw_kind w) descs (sw_spans w) schema journal
  end.

Definition release_slots (ss : list Staged) : prog M (option unit) :=
  each_do (fun s => on_journal journal.1 (BorrowJournal.release journal.2 (sd_slot s)) ;;; done tt) ss.

(** Install, then let the journal slots go; the writer is dropped, finished. *)
Definition stream_commit (w : StreamWriter) : prog M (option (result StreamError Z)) :=
  r <-- commit_install w ;;
  _ <-- release_slots (sw_staged w) ;;
  drop_coord (sw_coord w) ;;;
  done (match r with Ok v => Ok v | Err e => Err (SArtifact e) end).

Definition stream_abort (w : StreamWriter) : prog M (option unit) :=
  _ <-- free_staged w ;;
  drop_coord (sw_coord w) ;;;
  done tt.
End stream.
