(* ===== verification/Node.v ===== *)
(** * The node: an actor's handle on the substrate

    [src/crates/shm-runtime/src/node.rs]: connecting and registering, adopting the segments
    whose descriptors arrive with the replies, publishing and pinning batches in the payload
    segment, and opening topics, artifacts, the task queue and the store.

    A node shares the memory of [Coordinator]: the segments by object number, and the
    system.  Its own fields are passed along and returned by the methods that change them.
    [recvmsg], [connect] and the doorbell write are the class [NodeOs]. *)

From S2P Require Import Prelude Atomic ChunkDesc ChunkCtrl Pool BorrowJournal Ring Protocol TaskQueue Manifest Window Head Artifact Commit Catalog TypedRef Store Arrow Stream Segments Coordinator.

#[local] Open Scope prog_scope.

Class NodeOs (O : Type) := {
  sys_connect : prog O (result Z nat);
  sys_recvmsg : nat -> prog O (result Z (list Z * list nat)); (* bytes and descriptors *)
  sys_doorbell_ring : nat -> prog O (result CoreError unit)
}.

(** ** Fields *)

Record TopicRing : Set := mkTopicRing { tr_segment : SegHandle; tr_region_len : Z; tr_doorbell : nat }.
Record ArtifactMap : Set := mkArtMap { am_artifact : Artifact; am_head_seg : SegHandle; am_data_seg : SegHandle }.
Record TaskQueueMap : Set := mkQueueMap {
  qm_segment : SegHandle;
  qm_region_len : Z;
  work_read : nat;
  work_write : nat;
  done_read : nat;
  done_write : nat
}.
Record StoreMap : Set := mkStoreMap { sm_catalog : SegHandle; sm_head : SegHandle; sm_data : SegHandle }.
Record KeyCache : Set := mkKeyCache { kc_by_bytes : gmap bytes_t Z; kc_by_id : gmap Z bytes_t }.

Section fields.
Context `{ArrowLib}.

Record Node : Set := mkNode {
  n_name : string_t;
  n_actor_id : Z;
  n_payload : SegHandle;
  n_journal : SegHandle;
  n_registry : SchemaRegistry;
  n_topics : gmap string_t TopicRing;
  n_artifacts : gmap string_t ArtifactMap;
  n_task_queue : option TaskQueueMap;
  n_store : option StoreMap;
  n_keys : KeyCache;
  n_send : nat;
  n_read : nat
}.

Definition set_registry v n := mkNode (n_name n) (n_actor_id n) (n_payload n) (n_journal n) v (n_topics n) (n_artifacts n) (n_task_queue n) (n_store n) (n_keys n) (n_send n) (n_read n).
Definition set_node_topics v n := mkNode (n_name n) (n_actor_id n) (n_payload n) (n_journal n) (n_registry n) v (n_artifacts n) (n_task_queue n) (n_store n) (n_keys n) (n_send n) (n_read n).
Definition set_node_artifacts v n := mkNode (n_name n) (n_actor_id n) (n_payload n) (n_journal n) (n_registry n) (n_topics n) v (n_task_queue n) (n_store n) (n_keys n) (n_send n) (n_read n).
Definition set_node_queue v n := mkNode (n_name n) (n_actor_id n) (n_payload n) (n_journal n) (n_registry n) (n_topics n) (n_artifacts n) v (n_store n) (n_keys n) (n_send n) (n_read n).
Definition set_node_store v n := mkNode (n_name n) (n_actor_id n) (n_payload n) (n_journal n) (n_registry n) (n_topics n) (n_artifacts n) (n_task_queue n) v (n_keys n) (n_send n) (n_read n).
Definition set_node_keys v n := mkNode (n_name n) (n_actor_id n) (n_payload n) (n_journal n) (n_registry n) (n_topics n) (n_artifacts n) (n_task_queue n) (n_store n) v (n_send n) (n_read n).
End fields.

(** A live shared pin and the batch read through it. *)
Record Pin `{ArrowLib} : Type := mkPinned { pin_desc : ChunkDesc; pin_slot : nat; pin_batch : RecordBatch }.

Arguments mkPinned {_ _}.
Arguments pin_desc {_ _}.
Arguments pin_slot {_ _}.
Arguments pin_batch {_ _}.

Section node.
Context {O : Type} `{!ShmOs O, !Socket O, !NodeOs O, !ArrowTypes, !ArrowLib} (fuel : nat).
(** [shm_arrow::deserialize_schema]: the inverse of the library's IPC form. *)
Context (deserialize_schema : list Z -> result ArrowErr Schema).
Abbreviation CM := (CoordMem O).
Abbreviation io A := (prog CM (result RtError A)).
(** Operations with a compare-and-swap loop. *)
Abbreviation fio A := (prog CM (option (result RtError A))).

Definition ring_part (fd : nat) : focus CM RingMem := entry (fun m => c_rings (cm_seg m)) (fun v m => set_seg (set_rings v (cm_seg m)) m) fd.
Definition on_ring {A} (s : SegHandle) (p : prog RingMem A) : prog CM A := lift (ring_part (sg_fd s)) p.

(** An artifact's head and data segments with this actor's journal. *)
Definition art_part (head_fd data_fd journal_fd : nat) : focus CM (ArtMem PoolMem) := fun R f m =>
  let s := cm_seg m in
  match c_heads s !! head_fd, c_pools s !! data_fd, c_journals s !! journal_fd with
  | Some h, Some d, Some j =>
      match f (mkArtMem h d [j] (c_events s)) with
      | Some (r, a) =>
          Some (r, set_seg (mkContents (<[data_fd := a_data a]> (c_pools s))
                              (match a_journals a with j' :: _ => <[journal_fd := j']> (c_journals s) | [] => c_journals s end)
                              (c_rings s) (<[head_fd := a_head a]> (c_heads s)) (c_queue s) (c_cat s) (c_store_heads s)
                              (a_events a)) m)
      | None => None
      end
  | _, _, _ => None
  end.

(** ** The control connection *)

Definition send_request (conn : nat) (req : Request) : io unit :=
  match Protocol.send_frame (encode_request req) with
  | None => fault
  | Some frame => on_os (errs RtNix (sys_sendmsg conn frame []))
  end.

Definition recv_response (conn : nat) : io (Response * list nat) :=
  got <-! on_os (errs RtNix (sys_recvmsg conn)) ;;
  match Protocol.recv_frame got.1 with
  | Err PeerClosed => Ret (Err RtPeerClosed)
  | Err e => Ret (Err (RtProtocol e))
  | Ok body =>
      match decode_response body with
      | Err e => Ret (Err (RtProtocol e))
      | Ok resp => Ret (Ok (resp, got.2))
      end
  end.

Definition fire (n : Node) (req : Request) : io unit := send_request (n_send n) req.

Definition request (n : Node) (req : Request) : io (Response * list nat) :=
  _ <-! send_request (n_send n) req ;;
  recv_response (n_read n).

(** Any other reply than the one waited for. *)
Definition refused {A} (resp : Response) (wanted : Wanted) : io A :=
  Ret (Err (match resp with RError msg => RtRejected msg | _ => RtUnexpected wanted end)).

Definition adopt (fd : nat) (id : Z) : io SegHandle := on_os (errs RtCore (from_raw_fd fd id)).

Definition connect (name : string_t) (registry : SchemaRegistry) : io Node :=
  conn <-! on_os (errs RtIo sys_connect) ;;
  send <-! on_os (errs RtIo (sys_dup conn)) ;;
  _ <-! send_request send (Register name) ;;
  r <-! recv_response conn ;;
  match r.1 with
  | Registered actor_id _ payload_id journal_id =>
      match r.2 with
      | [payload_fd; journal_fd] =>
          payload <-! adopt payload_fd payload_id ;;
          journal <-! adopt journal_fd journal_id ;;
          Ret (Ok (mkNode name actor_id payload journal registry ∅ ∅ None None (mkKeyCache ∅ ∅) send conn))
      | fds => Ret (Err (RtMissingFds 2 (length fds)))
      end
  | resp => refused resp WRegistered
  end.

(** ** Schemas and keys *)

Definition node_intern_schema (n : Node) (schema : Schema) : io (Node * Z) :=
  match id_for schema (n_registry n) with
  | Some id => Ret (Ok (n, id))
  | None =>
      r <-! request n (InternSchema (serialize_schema schema)) ;;
      match r.1 with
      | SchemaInterned id => Ret (Ok (set_registry (registry_insert id schema (n_registry n)) n, id))
      | resp => refused resp WInternedSchema
      end
  end.

Definition node_resolve_schema (n : Node) (id : Z) : io (Node * Schema) :=
  match registry_resolve id (n_registry n) with
  | Some schema => Ret (Ok (n, schema))
  | None =>
      r <-! request n (ResolveSchema id) ;;
      match r.1 with
      | SchemaResolved bytes =>
          match deserialize_schema bytes with
          | Err _ => Ret (Err RtArrow)
          | Ok schema => Ret (Ok (set_registry (registry_insert id schema (n_registry n)) n, schema))
          end
      | resp => refused resp WResolvedSchema
      end
  end.

Definition cache_key (key : bytes_t) (id : Z) (c : KeyCache) : KeyCache :=
  mkKeyCache (<[key := id]> (kc_by_bytes c)) (<[id := key]> (kc_by_id c)).

Definition node_intern_key (n : Node) (key : bytes_t) : io (Node * Z) :=
  match kc_by_bytes (n_keys n) !! key with
  | Some id => Ret (Ok (n, id))
  | None =>
      r <-! request n (InternKey key) ;;
      match r.1 with
      | KeyInterned id => Ret (Ok (set_node_keys (cache_key key id (n_keys n)) n, id))
      | resp => refused resp WInternedKey
      end
  end.

Definition node_resolve_key (n : Node) (id : Z) : io (Node * bytes_t) :=
  match kc_by_id (n_keys n) !! id with
  | Some key => Ret (Ok (n, key))
  | None =>
      r <-! request n (ResolveKey id) ;;
      match r.1 with
      | KeyResolved key => Ret (Ok (set_node_keys (cache_key key id (n_keys n)) n, key))
      | resp => refused resp WResolvedKey
      end
  end.

(** [KeyResolver for Node]: what the store sees of it. *)
Definition resolver_intern_key (n : Node) (key : bytes_t) : prog CM (result StoreError (Node * Z)) :=
  errs (fun _ => Intern) (node_intern_key n key).

(** ** The store *)

Definition open_store (n : Node) : io Node :=
  match n_store n with
  | Some _ => Ret (Ok n)
  | None =>
      r <-! request n OpenStore ;;
      match r.1 with
      | StoreGranted cat_id _ head_id _ data_id _ =>
          match r.2 with
          | [cat_fd; head_fd; data_fd] =>
              cat <-! adopt cat_fd cat_id ;;
              head <-! adopt head_fd head_id ;;
              data <-! adopt data_fd data_id ;;
              Ret (Ok (set_node_store (Some (mkStoreMap cat head data)) n))
          | fds => Ret (Err (RtMissingFds 3 (length fds)))
          end
      | resp => refused resp WStore
      end
  end.

(** The store's data pool, once open. *)
Definition with_store_pool {A} (n : Node) (k : SegHandle -> Pool -> fio A) : fio A :=
  match n_store n with
  | None => done (Err RtNotFound)
  | Some m =>
      r <- pool_attach (sm_data m) ;;
      match r with
      | Err e => done (Err (RtCore e))
      | Ok p => k (sm_data m) p
      end
  end.

Definition write_ref_chunk (n : Node) (t : TypedRef) : fio ChunkDesc :=
  with_store_pool n (fun s p => r <-- on_pool s (write_typed_ref p fuel t) ;; done (map_err (fun e => RtStore (StoreCore e)) r)).

Definition read_ref_chunk (n : Node) (d : ChunkDesc) : io TypedRef :=
  match n_store n with
  | None => Ret (Err RtNotFound)
  | Some m => errs RtStore (on_pool (sm_data m) (read_typed_ref (seg_of (sm_data m)) d))
  end.

Definition free_ref_chunk (n : Node) (d : ChunkDesc) : fio unit :=
  with_store_pool n (fun s p => _ <-- on_pool s (Pool.free p fuel d) ;; done (Ok tt)).

(** ** Topics *)

Definition ensure_topic (n : Node) (topic : string_t) (subscribe : bool) : io Node :=
  match n_topics n !! topic with
  | Some _ => Ret (Ok n)
  | None =>
      r <-! request n (if subscribe then Subscribe topic else CreateTopic topic) ;;
      match r.1 with
      | Granted ring_id region_len =>
          match r.2 with
          | [ring_fd; doorbell] =>
              seg <-! adopt ring_fd ring_id ;;
              Ret (Ok (set_node_topics (<[topic := mkTopicRing seg region_len doorbell]> (n_topics n)) n))
          | fds => Ret (Err (RtMissingFds 2 (length fds)))
          end
      | resp => refused resp WGranted
      end
  end.

Definition ring_for (n : Node) (topic : string_t) : io (TopicRing * Ring) :=
  match n_topics n !! topic with
  | None => Ret (Err RtNotFound)
  | Some t =>
      r <-! errs RtRing (on_ring (tr_segment t) (act (fun m => Some (Ring.attach (sg_payload_ptr (tr_segment t)) (tr_region_len t) m, m)))) ;;
      Ret (Ok (t, r))
  end.

(** [Publisher::with_notifier(ring, DoorbellNotifier::new(fd)).publish(desc)] *)
Definition publish_on (t : TopicRing) (r : Ring) (d : ChunkDesc) : prog CM unit :=
  parked <- on_ring (tr_segment t) (Ring.publish r d) ;;
  if parked : bool then on_os (sys_doorbell_ring (tr_doorbell t)) ;;; Ret tt else Ret tt.

(** Both ways to subscribe start with a ring and a duplicate of the doorbell. *)
Definition subscribed (n : Node) (topic : string_t) (seq : Z) : io (Node * Ring * Subscriber * nat) :=
  n <-! ensure_topic n topic true ;;
  tr <-! ring_for n topic ;;
  fd <-! on_os (errs RtIo (sys_dup (tr_doorbell tr.1))) ;;
  s <- on_ring (tr_segment tr.1) (from_seq_with_parker seq) ;;
  Ret (Ok (n, tr.2, s, fd)).

Definition subscribe (n : Node) (topic : string_t) : io (Node * Ring * Subscriber * nat) := subscribed n topic 0.
Definition subscribe_from (n : Node) (topic : string_t) (seq : Z) : io (Node * Ring * Subscriber * nat) := subscribed n topic seq.

(** ** Batches on topics *)

(** A loop's result inside a fallible program. *)
Definition fbindr {E A B} (p : prog CM (option (result E A))) (k : A -> prog CM (option (result E B))) : prog CM (option (result E B)) :=
  r <-- p ;; match r with Ok a => k a | Err e => done (Err e) end.
Definition once {A} (p : io A) : fio A := r <- p ;; done r.

(** FREE to LOANED to PUBLISHED. *)
Definition loan_and_publish (actor : Z) : prog ChunkCtrl (option (result CoreError unit)) :=
  r <- try_loan actor ;;
  match r with Err e => done (Err e) | Ok _ => ChunkCtrl.publish fuel end.

(** Written into a fresh chunk, loaned, published, broadcast, and reported. *)
Definition publish_batch (n : Node) (topic : string_t) (batch : RecordBatch) : fio (Node * ChunkDesc) :=
  fbindr (once (ensure_topic n topic false)) (fun n =>
  fbindr (once (errs RtCore (pool_attach (n_payload n)))) (fun p =>
  let '(reg, write) := write_batch p fuel (n_registry n) batch in
  let n := set_registry reg n in
  fbindr (r <-- on_pool (n_payload n) write ;; done (map_err (fun _ => RtArrow) r)) (fun d =>
  fbindr (once (errs RtCore (on_pool (n_payload n) (Pool.ctrl p d (loan_and_publish (n_actor_id n)))))) (fun r =>
  match r with
  | None => Ret None
  | Some (Err e) => done (Err (RtCore e))
  | Some (Ok _) =>
      fbindr (once (ring_for n topic)) (fun tr =>
      publish_on tr.1 tr.2 d ;;;
      fbindr (once (fire n (Protocol.Published d))) (fun _ => done (Ok (n, d))))
  end)))).

(** The pin is taken before it is journaled; once both are done, any failure leaves them. *)
Definition pin_and_read (n : Node) (d : ChunkDesc) : fio (Pin) :=
  fbindr (once (errs RtCore (pool_attach (n_payload n)))) (fun p =>
  fbindr (once (errs RtCore (on_pool (n_payload n) (Pool.locate p (offset d))))) (fun l =>
  fbindr (r <-- on_pool (n_payload n) (ctrl_at l.2 (borrow_shared fuel)) ;; done (map_err RtCore r)) (fun _ =>
  fbindr (once (errs RtCore (journal_attach (n_journal n)))) (fun j =>
  rec <-- on_journal (n_journal n) (BorrowJournal.record j fuel d) ;;
  match rec with
  | Err e => _ <-- on_pool (n_payload n) (ctrl_at l.2 (release_shared fuel)) ;; done (Err (RtCore e))
  | Ok slot =>
      fbindr (once (errs (fun _ => RtArrow) (on_pool (n_payload n) (read_batch (seg_of (n_payload n)) d l.2 (n_registry n))))) (fun batch =>
      fbindr (once (fire n (Pinned d))) (fun _ => done (Ok (mkPinned d slot batch))))
  end)))).

Definition release_pin (n : Node) (pin : Pin) : fio unit :=
  fbindr (once (errs RtCore (journal_attach (n_journal n)))) (fun j =>
  fbindr (once (errs RtCore (on_journal (n_journal n) (BorrowJournal.release j (pin_slot pin))))) (fun won =>
  if negb won then done (Ok tt)
  else
    fbindr (once (errs RtCore (pool_attach (n_payload n)))) (fun p =>
    r <- on_pool (n_payload n) (Pool.ctrl p (pin_desc pin) (release_shared fuel)) ;;
    match r with
    | Ok None => Ret None
    | _ => done (Ok tt)
    end))).

(** ** Artifacts *)

(** The watch sink only records that commits are announced; the events are kept in the
    shared list. *)
Definition open_artifact (n : Node) (name : string_t) : fio Node :=
  match n_artifacts n !! name with
  | Some _ => done (Ok n)
  | None =>
      fbindr (once (ensure_topic n ARTIFACTS_TOPIC false)) (fun n =>
      fbindr (once (request n (OpenArtifact name))) (fun r =>
      match r.1 with
      | ArtifactGranted nid head_id data_id =>
          match r.2 with
          | [head_fd; data_fd] =>
              fbindr (once (adopt head_fd head_id)) (fun head =>
              fbindr (once (adopt data_fd data_id)) (fun data =>
              match n_topics n !! ARTIFACTS_TOPIC with
              | None => fault
              | Some t =>
                  fbindr (once (on_os (errs RtIo (sys_dup (tr_doorbell t))))) (fun _ =>
                  let ds := pool_data (seg_of data) in
                  art <-- lift (art_part (sg_fd head) (sg_fd data) (sg_fd (n_journal n)))
                            (attach_at nid (sg_payload_len head) 0) ;;
                  match art with
                  | Err e => done (Err (RtArtifact e))
                  | Ok a => done (Ok (set_node_artifacts (<[name := mkArtMap (with_watch a) head data]> (n_artifacts n)) n))
                  end)
              end))
          | fds => done (Err (RtMissingFds 2 (length fds)))
          end
      | resp => once (refused resp WArtifact)
      end))
  end.

(** A program of the artifact layer on an opened artifact, with this actor's journal as
    number 0. *)
Definition on_artifact {A} (n : Node) (a : ArtifactMap) (p : prog (ArtMem PoolMem) A) : prog CM A :=
  lift (art_part (sg_fd (am_head_seg a)) (sg_fd (am_data_seg a)) (sg_fd (n_journal n))) p.

Definition pin_artifact (n : Node) (name : string_t) : fio PinState :=
  match n_artifacts n !! name with
  | None => done (Err RtNotFound)
  | Some a =>
      let ds := pool_data (seg_of (am_data_seg a)) in
      r <-- on_artifact n a (pin_journaled fuel (am_artifact a) 0) ;;
      done (map_err RtArtifact r)
  end.

(** [Node::stream] and [NodeStream::writer]. *)
Definition node_stream (n : Node) (name : string_t) (kind : Commit) (coordination : Coordination)
    : fio (ArtifactMap * BorrowJournal * StreamWriter) :=
  match n_artifacts n !! name with
  | None => done (Err RtNotFound)
  | Some a =>
      fbindr (once (errs RtCore (journal_attach (n_journal n)))) (fun j =>
      r <-- on_artifact n a (stream_open fuel (am_artifact a) (seg_of (am_data_seg a)) (0%nat, j) (n_actor_id n) kind coordination) ;;
      done (match r with Ok w => Ok (a, j, w) | Err _ => Err RtStream end))
  end.

Definition watch_artifacts (n : Node) : io (Node * Ring * Subscriber * nat) := subscribe n ARTIFACTS_TOPIC.

(** [ArtifactWatcher::recv]: lag notices and other descriptors are skipped. *)
Definition watcher_recv (park : prog RingMem unit) (rounds : nat) (r : Ring) (s : Subscriber) : prog RingMem (option (VersionEvent * Subscriber)) :=
  loop rounds (fun s =>
    m <-- Ring.recv r park rounds s ;;
    done (match m with
          | (Sample d, s') => match Manifest.from_desc d with Some ev => inr (ev, s') | None => inl s' end
          | (Lagged _, s') => inl s'
          end)) s.

(** ** The task queue *)

Definition open_task_queue (n : Node) : io Node :=
  match n_task_queue n with
  | Some _ => Ret (Ok n)
  | None =>
      r <-! request n OpenTaskQueue ;;
      match r.1 with
      | TaskQueueGranted queue_id region_len =>
          match r.2 with
          | [queue_fd; wr; ww; dr; dw] =>
              seg <-! adopt queue_fd queue_id ;;
              Ret (Ok (set_node_queue (Some (mkQueueMap seg region_len wr ww dr dw)) n))
          | fds => Ret (Err (RtMissingFds 5 (length fds)))
          end
      | resp => refused resp WTaskQueue
      end
  end.

Record TaskQueueHandle : Set := mkQueueHandle { qh_queue : TaskQueue; qh_map : TaskQueueMap; qh_worker_id : Z }.

Definition node_task_queue (n : Node) : io (Node * TaskQueueHandle) :=
  n <-! open_task_queue n ;;
  match n_task_queue n with
  | None => fault
  | Some m =>
      ww <-! on_os (errs RtIo (sys_dup (work_write m))) ;;
      dw <-! on_os (errs RtIo (sys_dup (done_write m))) ;;
      q <-! errs RtTask (on_queue (act (fun qm => Some (TaskQueue.attach (sg_payload_ptr (qm_segment m)) (qm_region_len m) qm, qm)))) ;;
      wr <-! on_os (errs RtIo (sys_dup (work_read m))) ;;
      dr <-! on_os (errs RtIo (sys_dup (done_read m))) ;;
      Ret (Ok (n, mkQueueHandle q (mkQueueMap (qm_segment m) (qm_region_len m) wr ww dr dw) (n_actor_id n)))
  end.

(** The calling thread, the address its shard cursor is seeded from, and what the notifiers
    and parkers do to the queue. *)
Context (tid : nat) (tls_addr : Z) (work_notify done_notify park : prog QueueMem unit).

Definition queue_submit (h : TaskQueueHandle) (request : ChunkDesc) (deadline : Z) : fio TaskHandle :=
  r <-- on_queue (submit (qh_queue h) fuel tid tls_addr work_notify request deadline) ;; done (map_err RtTask r).

Definition queue_poll (h : TaskQueueHandle) (t : TaskHandle) : io TaskStatus :=
  errs RtTask (on_queue (poll (qh_queue h) t)).

Definition queue_claim (h : TaskQueueHandle) (lease_nanos : Z) : prog CM (option (option ClaimedTask)) :=
  now <- clock ;;
  on_queue (claim_with_lease fuel (qh_worker_id h) (wrap64 (now + lease_nanos))).

Definition queue_wait (h : TaskQueueHandle) (t : TaskHandle) (rounds : nat) : fio Outcome :=
  fbindr (once (on_os (errs RtIo (sys_dup (done_read (qh_map h)))))) (fun _ =>
  r <-- on_queue (TaskQueue.wait (qh_queue h) t park rounds) ;; done (map_err RtTask r)).

Definition queue_claim_blocking (now : prog QueueMem Z) (h : TaskQueueHandle) (lease_nanos : Z) (rounds : nat) : fio ClaimedTask :=
  fbindr (once (on_os (errs RtIo (sys_dup (work_read (qh_map h)))))) (fun _ =>
  r <-- on_queue (claim_blocking_with_lease fuel now (qh_worker_id h) lease_nanos park rounds) ;; done (Ok r)).

Definition work_parker (h : TaskQueueHandle) : io nat := on_os (errs RtIo (sys_dup (work_read (qh_map h)))).
Definition done_parker (h : TaskQueueHandle) : io nat := on_os (errs RtIo (sys_dup (done_read (qh_map h)))).

(** The envelope goes into the store's pool, its descriptor into the queue. *)
Definition submit_typed_task (n : Node) (t : TypedRef) (deadline : Z) : fio (Node * TaskHandle) :=
  fbindr (once (open_store n)) (fun n =>
  fbindr (once (open_task_queue n)) (fun n =>
  fbindr (write_ref_chunk n t) (fun d =>
  fbindr (once (node_task_queue n)) (fun nh =>
  fbindr (queue_submit nh.2 d deadline) (fun h => done (Ok (nh.1, h))))))).

Definition task_ref (n : Node) (c : ClaimedTask) : io TypedRef := read_ref_chunk n (ct_request c).

(** ** Liveness *)

(** [beats] turns of the heartbeat thread: the first frame that cannot be sent ends it. *)
Fixpoint heartbeat (n : Node) (beats : nat) : io unit :=
  match beats with
  | 0%nat => Ret (Ok tt)
  | S beats' => _ <-! fire n Heartbeat ;; heartbeat n beats'
  end.

Definition say_bye (n : Node) : io unit := fire n Bye.
End node.
