(* ===== verification/LeaseMonitor.v ===== *)
(** * The lease monitor finds every dead actor, once

    The first half of a turn of [lease_monitor]: collect the actors whose exit the kernel
    reports, read the clock, and mark under the mutex everyone who is gone.  The list it
    makes is what [reclaim_each] then replays. *)

From S2P Require Import Prelude Atomic ChunkDesc Pool BorrowJournal Ring Protocol TaskQueue Manifest Head Artifact Commit Catalog Store Arrow Segments Coordinator Reclaim Registry.

#[local] Open Scope prog_scope.

Section monitor.
Context {O : Type} (fuel : nat) (shared : CoordShared).
Abbreviation CM := (CoordMem O).
Abbreviation deadline := (lease_deadline (config shared)).

(** The turn up to the mark. *)
Definition find_dead (ready : list nat) : prog CM (list (Z * SegHandle)) :=
  kernel_dead <- wait_tick ready ;;
  now <- clock ;;
  locked (with_state (mark_dead deadline now kernel_dead)).

Lemma monitor_turn_finds tid tls wn dn ready :
  monitor_turn fuel shared tid tls wn dn ready =
  pbind (find_dead ready) (fun dead =>
    _ <-- reclaim_each fuel shared dead ;;
    t <- clock ;;
    _ <-- reap_tasks fuel shared tid tls wn dn t ;;
    _ <-- (if decide (dead = []) then done (mkReport 0 0) else t <- clock ;; reap_tasks fuel shared tid tls wn dn t) ;;
    t <- clock ;;
    _ <-- reap_task_bindings fuel shared t (wrap64 (task_binding_grace (config shared))) ;;
    _ <-- sweep_store_tombstones fuel shared ;;
    done tt).
Proof. reflexivity. Qed.

(** The actor [x] is gone at [now]: its lease lapsed, or its pidfd is ready. *)
Definition gone (m : CM) (ready : list nat) (x : Z) (a : ActorEntry) : Prop :=
  ae_liveness a = Alive /\
  (deadline < cm_clock m - ae_last_heartbeat a \/ exists fd, ae_pidfd a = Some fd /\ fd ∈ ready).

Definition dead_by_kernel (s : CoordState) (ready : list nat) : list Z :=
  fst <$> filter (fun x : Z * nat => x.2 ∈ ready) (watched_actors s).

Lemma elem_of_dead_by_kernel s ready x :
  x ∈ dead_by_kernel s ready <->
  exists a fd, actors (st_actors s) !! x = Some a /\ ae_liveness a = Alive /\ ae_pidfd a = Some fd /\ fd ∈ ready.
Proof.
  unfold dead_by_kernel, watched_actors. rewrite list_elem_of_fmap. split.
  - intros ([y fd] & -> & [Hr Hin]%list_elem_of_filter). apply list_elem_of_omap in Hin as ([z a] & Hz & Hf).
    apply elem_of_map_to_list in Hz. cbn in *. destruct (decide (ae_liveness a = Alive)); [|done].
    destruct (ae_pidfd a) as [fd'|] eqn:E; [|done]. cbn in Hf. injection Hf as -> ->. by exists a, fd.
  - intros (a & fd & Ha & Hl & Hp & Hr). exists (x, fd). split; [done|]. apply list_elem_of_filter. split; [done|].
    apply list_elem_of_omap. exists (x, a). split; [by apply elem_of_map_to_list|]. cbn. by rewrite decide_True, Hp by done.
Qed.

Lemma run_find_dead ready (m : CM) :
  run (find_dead ready) m =
    Some ((mark_dead deadline (cm_clock m) (dead_by_kernel (cm_state m) ready) (cm_state m)).1,
          set_cstate (mark_dead deadline (cm_clock m) (dead_by_kernel (cm_state m) ready) (cm_state m)).2 m).
Proof.
  unfold find_dead, wait_tick, locked, clock, load. rewrite !run_bind, run_act, run_get_state. cbn [fst snd run].
  rewrite run_bind, run_act, run_act, run_with_state. done.
Qed.

Lemma expired_gone m ready x a :
  0 <= deadline -> actors (st_actors (cm_state m)) !! x = Some a ->
  expired deadline (cm_clock m) (dead_by_kernel (cm_state m) ready) x a = true <-> gone m ready x a.
Proof.
  intros Hd Ha. unfold expired, gone. rewrite andb_true_iff, orb_true_iff, !bool_decide_eq_true, Z.ltb_lt, elem_of_dead_by_kernel.
  split.
  - intros [Hl [Hlt|(a' & fd & Ha' & _ & Hp & Hr)]]; split; try done; [left; lia|right]. simplify_eq. by exists fd.
  - intros [Hl [Hlt|(fd & Hp & Hr)]]; split; try done; [left; lia|right]. by exists a, fd.
Qed.

(** C9. A turn of the lease monitor finds exactly the actors that are gone.  From any state
    the first half of a turn returns; the list it hands to crash reclaim names, once each
    and with its journal, every actor that is alive in the table and whose lease has lapsed
    or whose exit the kernel reports, and nobody else; those are Dead afterwards and
    everyone else is as before.  No actor is handed over again by a later turn, whatever the
    coordinator's threads have done in between. *)
Theorem monitor_finds_the_dead ready (m : CM) :
  0 <= deadline ->
  exists dead m',
    run (find_dead ready) m = Some (dead, m') /\
    NoDup (fst <$> dead) /\
    (forall x j, (x, j) ∈ dead <->
       exists a, actors (st_actors (cm_state m)) !! x = Some a /\ ae_journal_seg a = j /\ gone m ready x a) /\
    (forall x a, actors (st_actors (cm_state m)) !! x = Some a ->
       exists a', actors (st_actors (cm_state m')) !! x = Some a' /\
         (gone m ready x a -> a' = set_liveness Dead a) /\ (~ gone m ready x a -> a' = a)) /\
    (forall ready2 m2 dead2 m3, grows (cm_state m') (cm_state m2) -> run (find_dead ready2) m2 = Some (dead2, m3) ->
       forall x j j', (x, j) ∈ dead -> (x, j') ∉ dead2).
Proof.
  intros Hd. eexists _, _. split; [apply run_find_dead|].
  set (kd := dead_by_kernel (cm_state m) ready). set (acts := actors (st_actors (cm_state m))).
  assert (Hin : forall x j, (x, j) ∈ (mark_dead deadline (cm_clock m) kd (cm_state m)).1 <->
    exists a, acts !! x = Some a /\ ae_journal_seg a = j /\ gone m ready x a).
  { intros x j. unfold mark_dead. cbn [fst]. rewrite list_elem_of_fmap. split.
    - intros ([y a] & [= -> ->] & [He Ha]%list_elem_of_filter). apply elem_of_map_to_list in Ha. exists a.
      split_and!; [done|done|]. by apply expired_gone.
    - intros (a & Ha & <- & Hg). exists (x, a). split; [done|]. apply list_elem_of_filter. cbn.
      split; [by apply expired_gone|by apply elem_of_map_to_list]. }
  assert (Hact : forall x a, acts !! x = Some a ->
    exists a', actors (st_actors (mark_dead deadline (cm_clock m) kd (cm_state m)).2) !! x = Some a' /\
      (gone m ready x a -> a' = set_liveness Dead a) /\ (~ gone m ready x a -> a' = a)).
  { intros x a Ha. eexists. split; [cbn; rewrite map_lookup_imap; unfold acts in Ha; rewrite Ha; reflexivity|].
    pose proof (expired_gone m ready x a Hd Ha) as He. fold kd in He.
    destruct (expired deadline (cm_clock m) kd x a); split; try done; [by intros []; apply He|].
    intros Hg. by apply He in Hg. }
  split_and!; [|exact Hin|exact Hact|].
  - unfold mark_dead. cbn [fst]. rewrite <- list_fmap_compose.
    eapply sublist_NoDup; [apply (NoDup_fst_map_to_list acts)|]. apply (fmap_sublist fst), sublist_filter.
  - intros ready2 m2 dead2 m3 HG Hr x j j' Hx. rewrite run_find_dead in Hr. injection Hr as <- <-.
    apply Hin in Hx as (a & Ha & _ & Hg). destruct (Hact x a Ha) as (a' & Ha' & Hdead & _). rewrite (Hdead Hg) in Ha'.
    destruct (gr_actors _ _ HG x _ Ha') as (a2 & Ha2 & _ & _ & Hl).
    unfold mark_dead. cbn [fst]. rewrite list_elem_of_fmap. intros ([y b] & [= -> _] & [He Hb]%list_elem_of_filter).
    apply elem_of_map_to_list in Hb. cbn in He. rewrite Ha2 in Hb. injection Hb as ->.
    unfold expired in He. rewrite andb_true_iff, bool_decide_eq_true in He. exact (Hl ltac:(discriminate) (proj1 He)).
Qed.
End monitor.

(** In the running example the first actor has fallen silent and the third is reported by the
    kernel. *)
Lemma monitor_finds_the_dead_witness :
  let a (hb : Z) (l : Liveness) (fd : option nat) := mkActor [] (mkSegHandle None 0 0 0 0 0 0) hb l fd in
  let s := set_actors (mkActors 5 (<[1 := a 100 Alive None]> (<[2 := a 900 Alive (Some 7%nat)]> (<[3 := a 900 Alive (Some 8%nat)]> {[4 := a 100 Left None]})))) (first_state []) in
  let m := mkCoordMem tt 1000 true 0 s (cm_seg small_mem) in
  exists dead m', run (find_dead small_shared [8%nat]) m = Some (dead, m') /\ NoDup (fst <$> dead) /\
    exists j1 j3, (1, j1) ∈ dead /\ (3, j3) ∈ dead.
Proof.
  intros a s m. destruct (monitor_finds_the_dead small_shared [8%nat] m) as (dead & m' & Hr & Hnd & Hin & _); [vm_compute; discriminate|].
  exists dead, m'. split_and!; [exact Hr|exact Hnd|].
  eexists _, _. split; apply Hin.
  - exists (a 100 Alive None). split_and!; [reflexivity|reflexivity|]. split; [reflexivity|]. left. reflexivity.
  - exists (a 900 Alive (Some 8%nat)). split_and!; [reflexivity|reflexivity|]. split; [reflexivity|]. right.
    exists 8%nat. split; [reflexivity|apply list_elem_of_here].
Defined.
