(* ===== verification/Delivery.v ===== *)
(** * A small system

    A coordinator with three registered actors, one topic and one artifact, on simulated
    objects: the stage for the runs of this file, deliveries of batches
    end to end, and of [CommitCrash].  Everything in it is the
    result of running [bind], [start] and [handle_connection]. *)

From S2P Require Import Prelude Atomic ChunkDesc ChunkCtrl Pool BorrowJournal Ring Protocol TaskQueue Manifest Window Head Artifact Commit Catalog TypedRef Store Arrow ArrowLayout ArrowBatch Stream Segments Coordinator Reclaim Observers Node Registry.

#[local] Open Scope prog_scope.

#[export] Instance sim_node_os : NodeOs Sim.Sim := {|
  sys_connect := Sim.fresh;
  sys_recvmsg _ := Ret (Err 11);
  sys_doorbell_ring _ := Ret (Ok tt)
|}.

Abbreviation SM := (CoordMem Sim.Sim).

(** Enough for every loop that nobody disturbs. *)
Definition FUEL : nat := 9.

Definition topic_t : string_t := [116].
Definition artifact_a : string_t := [97].

(** Two payload chunks; three chunks of either size for the artifact. *)
Definition world_config : RuntimeConfig :=
  mkConfig 1 4096 [mkSizeClass 512 2] 8 4 150 500 40 4 3 2000
    [mkSizeClass 128 3; mkSizeClass 512 3] 8192 2 [mkSizeClass 64 2] 4096.

Definition hello (name : string_t) : list Received :=
  [request (Register name); request (CreateTopic topic_t); request (OpenArtifact artifact_a)].

Lemma world_binds : succeeds (run (bind world_config) Sim.empty) = true.
Proof. vm_compute. reflexivity. Qed.

Definition bound : CoordShared * Contents * CoordState * Sim.Sim := value_of (run (bind world_config) Sim.empty) world_binds.
Definition coord : CoordShared := bound.1.1.1.

Definition setup : prog SM (result RtError unit) :=
  _ <-! start coord ;;
  _ <-! handle_connection 40 coord 10 None (hello [1]) ;;
  _ <-! handle_connection 40 coord 11 None (hello [2]) ;;
  handle_connection 40 coord 12 None (hello [3]).

Lemma world_starts : succeeds (run setup (mkCoordMem bound.2 1000 true 0 bound.1.2 bound.1.1.2)) = true.
Proof. vm_compute. reflexivity. Qed.

Definition world : SM := (value_of (run setup (mkCoordMem bound.2 1000 true 0 bound.1.2 bound.1.1.2)) world_starts).2.

(** What is there. *)
Definition the {A} (o : option A) : bool_decide (is_Some o) = true -> A :=
  match o with Some a => fun _ => a | None => fun H => False_rect _ (diff_false_true H) end.

Lemma actor_there (x : Z) : x ∈ [1; 2; 3] -> bool_decide (is_Some (actors (st_actors (cm_state world)) !! x)) = true.
Proof. intros H. assert (Hall : forallb (fun x => bool_decide (is_Some (actors (st_actors (cm_state world)) !! x))) [1; 2; 3] = true) by (vm_compute; reflexivity).
  rewrite forallb_forall in Hall. apply Hall. by apply list_elem_of_In. Qed.

Lemma topic_there : bool_decide (is_Some (topics (st_topics (cm_state world)) !! topic_t)) = true.
Proof. vm_compute. reflexivity. Qed.

Lemma artifact_there : bool_decide (is_Some (artifacts (st_artifacts (cm_state world)) !! artifact_a)) = true.
Proof. vm_compute. reflexivity. Qed.

Definition topic_entry : TopicEntry := the _ topic_there.
Definition art_entry : ArtifactEntry := the _ artifact_there.

(** One column of two four-byte values. *)
Definition one_schema : Schema := mkSchema [(1, Flat 10)] tt.
Definition one_batch : RecordBatch := (one_schema, [mkArrayData (Flat 10) 2 0 None [[1; 2; 3; 4; 5; 6; 7; 8]] []]).

(** The node of actor [x], with the topic and the artifact mapped. *)
Definition node_of (x : Z) (H : x ∈ [1; 2; 3]) : Node :=
  let a := the _ (actor_there x H) in
  mkNode (ae_name a) x (payload_seg coord) (ae_journal_seg a) (with_schemas [one_schema])
    {[ topic_t := mkTopicRing (te_segment topic_entry) (te_region_len topic_entry) (db_write (te_doorbell topic_entry)) ]}
    {[ artifact_a := mkArtMap (mkArtifact (ar_name_id art_entry) FIRST_INCARNATION true) (ar_head_seg art_entry) (ar_data_seg art_entry) ]}
    None None (mkKeyCache ∅ ∅) 10 10.

Definition node1 : Node := node_of 1 ltac:(apply (bool_decide_unpack _); vm_compute; exact I).
Definition node2 : Node := node_of 2 ltac:(apply (bool_decide_unpack _); vm_compute; exact I).
Definition node3 : Node := node_of 3 ltac:(apply (bool_decide_unpack _); vm_compute; exact I).

(** * Deliveries of batches, end to end

    Producer, consumer and coordinator together: [Node::publish_batch],
    [Node::pin_and_read], the coordinator's [handle_pinned], [Node::release_pin], and crash
    reclaim.  Two ways in which chunks of the payload pool are lost for good. *)

(** The memory after a run, or the same memory if it does not return. *)
Definition after {A} (p : prog SM A) (m : SM) : SM := match run p m with Some (_, m') => m' | None => m end.
Definition result_of {A} (p : prog SM A) (m : SM) : option A := fst <$> run p m.

Lemma run_after {A} (p : prog SM A) m a : result_of p m = Some a -> run p m = Some (a, after p m).
Proof. unfold result_of, after. destruct (run p m) as [[b m']|]; cbn; [by intros [= ->]|done]. Qed.

(** The control words of the payload pool, and the pins in an actor's journal. *)
Definition payload_words (m : SM) : list (Z * Z * Z) :=
  match c_pools (cm_seg m) !! sg_fd (payload_seg coord) with
  | Some pm => (fun c : ChunkCtrl => (word_state (ChunkCtrl.word c), word_refcount (ChunkCtrl.word c), owner_actor c)) <$> ctrls pm
  | None => []
  end.

Definition journaled (n : Node) (m : SM) : option (option nat) :=
  result_of (j <- journal_attach (n_journal n) ;;
             match j with
             | Ok j => r <-- on_journal (n_journal n) (replay_indexed j) ;; done (length r)
             | Err _ => Ret None
             end) m.

(** ** A delivery without a fault *)

(** Published, pinned and read, the pin acknowledged, the pin released. *)
Definition deliver : prog SM (option (result RtError unit)) :=
  fbindr (publish_batch FUEL node1 topic_t one_batch) (fun nd =>
  fbindr (pin_and_read FUEL node2 nd.2) (fun pin =>
  handle_pinned coord nd.2 ;;;
  release_pin FUEL node2 pin)).

Definition twice : SM := after deliver (after deliver world).

(** C22. Deliveries without a fault use the payload pool up.  In a pool of two chunks, two
    batches are published, pinned, read and released, each pin acknowledged, every call
    succeeding.  Afterwards both chunks are FREE, nobody owns or pins them and no journal
    holds anything, but the free list is empty: neither the last release nor the
    coordinator returned a chunk to it, and a third batch cannot be published. *)
Theorem clean_deliveries_exhaust_pool :
  exists m1 m2,
    run deliver world = Some (Some (Ok tt), m1) /\
    run deliver m1 = Some (Some (Ok tt), m2) /\
    payload_words m2 = [(ChunkCtrl.FREE, 0, ChunkCtrl.OWNER_NONE); (ChunkCtrl.FREE, 0, ChunkCtrl.OWNER_NONE)] /\
    journaled node1 m2 = Some (Some 0%nat) /\ journaled node2 m2 = Some (Some 0%nat) /\
    result_of (Observers.free_count FUEL coord 0) m2 = Some (Some (Some 0)) /\
    result_of (publish_batch FUEL node1 topic_t one_batch) m2 = Some (Some (Err RtArrow)).
Proof.
  exists (after deliver world), twice. split; [|split].
  - refine (run_after deliver world _ _). vm_compute. reflexivity.
  - refine (run_after deliver (after deliver world) _ _). vm_compute. reflexivity.
  - vm_compute. repeat split.
Qed.

(** ** A pin through a stale descriptor *)

(** The consumer 2 dies with its pin of the first batch; the second batch goes to the same
    chunk; the slow consumer 3 pins the first descriptor, then the second batch. *)
Definition published (m : SM) : ChunkDesc :=
  match result_of (publish_batch FUEL node1 topic_t one_batch) m with Some (Some (Ok (_, d))) => d | _ => ZERO end.
Definition publish1 (m : SM) : SM := after (publish_batch FUEL node1 topic_t one_batch) m.

Definition first_desc : ChunkDesc := published world.
Definition crashed : SM :=
  after (pin_and_read FUEL node2 first_desc ;;; handle_pinned coord first_desc ;;; force_reclaim FUEL coord 2) (publish1 world).
Definition second_desc : ChunkDesc := published crashed.
Definition late : SM := after (pin_and_read FUEL node3 first_desc) (publish1 crashed).
Definition read_second : prog SM (option (result RtError unit)) :=
  fbindr (pin_and_read FUEL node3 second_desc) (fun pin =>
  handle_pinned coord second_desc ;;;
  release_pin FUEL node3 pin).
Definition finally : SM := after (force_reclaim FUEL coord 3) (after read_second late).

(** A pin through a stale descriptor is never given back.  [pin_and_read] on the first
    descriptor, whose chunk was recycled for the second batch, fails after it has pinned the
    chunk's new occupant and journaled the stale descriptor.  The second batch is then read
    and released as usual and the actor reclaimed, but the replay skips the stale record:
    the chunk keeps one pin that no journal accounts for. *)
Theorem stale_pin_never_released :
  offset second_desc = offset first_desc /\
  result_of (pin_and_read FUEL node3 first_desc) (publish1 crashed) = Some (Some (Err RtArrow)) /\
  result_of read_second late = Some (Some (Ok tt)) /\
  result_of (force_reclaim FUEL coord 3) (after read_second late) = Some (Some (Ok [])) /\
  payload_words finally = [(ChunkCtrl.PUBLISHED, 1, ChunkCtrl.OWNER_NONE); (ChunkCtrl.FREE, 0, ChunkCtrl.OWNER_NONE)] /\
  Forall (fun n => journaled n finally = Some (Some 0%nat)) [node1; node2; node3].
Proof.
  split_and!; [vm_compute; reflexivity..|]. repeat constructor; vm_compute; reflexivity.
Qed.
