(* ===== verification/CommitCrash.v ===== *)
(** * A writer that dies while it commits

    [StreamWriter::commit] installs the staged chunks as a version and releases their
    journal slots afterwards; crash reclaim replays the slots that are left. *)

From S2P Require Import Prelude Atomic ChunkDesc ChunkCtrl Pool BorrowJournal Ring Protocol TaskQueue Manifest Window Head Artifact Commit Catalog TypedRef Store Arrow ArrowLayout ArrowBatch Stream Segments Coordinator Reclaim Observers Node Registry Delivery.

#[local] Open Scope prog_scope.

(** The transaction of actor 1: one batch, as version 1. *)
Definition transaction : prog SM (option (result RtError Z)) :=
  fbindr (node_stream FUEL node1 artifact_a Replace (Optimistic NO_VERSION)) (fun aw =>
  let '(a, j, w) := aw in
  r <-- on_artifact node1 a (append_batch FUEL (0%nat, j) w (n_registry node1) one_batch).2 ;;
  match r with
  | Err _ => done (Err RtStream)
  | Ok w =>
      r <-- on_artifact node1 a (stream_commit FUEL (am_artifact a) (seg_of (am_data_seg a)) (0%nat, j) w) ;;
      done (map_err (fun _ => RtStream) r)
  end).

Lemma transaction_commits : result_of transaction world = Some (Some (Ok 1)).
Proof. vm_compute. reflexivity. Qed.

Definition crash_at (k : nat) : list (prog SM (option (result RtError Z))) * SM := pool_after (replicate k 0%nat) ([transaction], world).

Lemma crash_at_reach k : pool_reach ([transaction], world) ((crash_at k).1, (crash_at k).2).
Proof. unfold crash_at. apply pool_after_reach. Qed.

(** What the artifact's coordinator sees after it replayed the dead writer's journal. *)
Definition replayed (m : SM) : SM := after (force_reclaim FUEL coord 1) m.
Definition current_of (m : SM) : option (option (option Z)) := result_of (artifact_current_version coord artifact_a) m.
Definition free_of (m : SM) : option (option (option Z)) := result_of (artifact_free_total FUEL artifact_a) m.

(** The chunks of the current version, as actor 2 pins it. *)
Definition pinned_chunks (m : SM) : option (option (result RtError (list ChunkDesc))) :=
  result_of (r <-- pin_artifact FUEL node2 artifact_a ;;
             done (match r with Ok ps => Ok (chunks (ps_manifest ps)) | Err e => Err e end)) m.

(** Whether a descriptor of the artifact's data is still what it was. *)
Definition data_valid (d : ChunkDesc) (m : SM) : option (result CoreError (result CoreError unit)) :=
  result_of (p <- pool_attach (ar_data_seg art_entry) ;;
             match p with
             | Ok p => on_pool (ar_data_seg art_entry) (Pool.ctrl p d (ChunkCtrl.validate d))
             | Err e => Ret (Err e)
             end) m.

(** ** Between the install and the release of the journal slots *)

Definition installed : SM := (crash_at 64).2.
Definition the_chunk : ChunkDesc := mkChunkDesc 40 0 640 512 1 0.

(** C19. Crash reclaim can free the data of a committed version.  A writer of one batch dies
    after the install made it version 1 and before it let go of the chunk's journal slot
    (a moment that some schedule reaches).  Another actor pins version 1 and its one chunk
    is valid.  The coordinator then reclaims the dead writer: it gives back the version's
    own reference and frees the chunk.  Version 1 is still current and still names it, but
    its descriptor is stale: the committed data is gone. *)
Theorem committed_version_loses_its_chunks :
  exists tp m m',
    pool_reach ([transaction], world) (tp, m) /\
    current_of m = Some (Some (Some 1)) /\ pinned_chunks m = Some (Some (Ok [the_chunk])) /\ data_valid the_chunk m = Some (Ok (Ok tt)) /\
    run (force_reclaim FUEL coord 1) m = Some (Some (Ok [the_chunk]), m') /\
    current_of m' = Some (Some (Some 1)) /\ pinned_chunks m' = Some (Some (Ok [the_chunk])) /\
    data_valid the_chunk m' = Some (Ok (Err StaleDescriptor)).
Proof.
  exists (crash_at 64).1, installed, (replayed installed). split; [apply crash_at_reach|]. split_and!.
  1-3: vm_compute; reflexivity.
  - refine (run_after (force_reclaim FUEL coord 1) installed _ _). vm_compute. reflexivity.
  - vm_compute. reflexivity.
  - vm_compute. reflexivity.
  - vm_compute. reflexivity.
Qed.

(** ** Inside the commit *)

(** Before the install, with the pin slot claimed. *)

Definition claimed : SM := (crash_at 60).2.

(** Between the two words of the install. *)
Definition torn : SM := (crash_at 63).2.

Lemma loop_stuck {S B C} (body : B -> prog S (option (B + C))) b s :
  run (body b) s = Some (Some (inl b), s) -> forall n, run (loop n body b) s = Some (None, s).
Proof. intros E n. induction n as [|n IH]; [done|]. cbn [loop]. unfold fbind. rewrite run_bind, E. exact IH. Qed.

(** The artifact's memory with actor 2's journal. *)
Definition art_mem (m : SM) : option (ArtMem PoolMem) :=
  let s := cm_seg m in
  match c_heads s !! sg_fd (ar_head_seg art_entry), c_pools s !! sg_fd (ar_data_seg art_entry), c_journals s !! sg_fd (n_journal node2) with
  | Some h, Some d, Some j => Some (mkArtMem h d [j] (c_events s))
  | _, _, _ => None
  end.

Lemma torn_there : bool_decide (is_Some (art_mem (replayed torn))) = true.
Proof. vm_compute. reflexivity. Qed.
Definition torn_art : ArtMem PoolMem := the _ torn_there.

Abbreviation node_art := (mkArtifact (ar_name_id art_entry) FIRST_INCARNATION true).

Lemma torn_pin_spins fuel :
  run (pin_journaled (DataSeg0 := pool_data (seg_of (ar_data_seg art_entry))) fuel node_art 0) torn_art = Some (None, torn_art).
Proof. unfold pin_journaled, pin_inner. apply loop_stuck. vm_compute. reflexivity. Qed.

(** C6. A writer that dies inside a commit is not always undone.  If it dies when its pin
    slot is claimed but before the install, the replay takes the slot for an installed
    version: of the artifact's six chunks one stays allocated for good, and so does the
    slot, although nothing was committed and no journal names them.  If it dies between the
    two stores of the install, version 1 is current but no reader can ever pin it: however
    many rounds the loop is given, it ends where it started. *)
Theorem crashed_commit_is_not_undone :
  free_of world = Some (Some (Some 6)) /\
  (exists tp m, pool_reach ([transaction], world) (tp, m) /\
     current_of (replayed m) = Some (Some (Some NO_VERSION)) /\
     free_of (replayed m) = Some (Some (Some 5)) /\
     result_of (artifact_slot_pins coord artifact_a 1) (replayed m) = Some (Some (Some 0)) /\
     Forall (fun n => journaled n (replayed m) = Some (Some 0%nat)) [node1; node2; node3]) /\
  (exists tp m am, pool_reach ([transaction], world) (tp, m) /\
     current_of (replayed m) = Some (Some (Some 1)) /\ art_mem (replayed m) = Some am /\
     forall fuel, run (pin_journaled (DataSeg0 := pool_data (seg_of (ar_data_seg art_entry))) fuel node_art 0) am = Some (None, am)).
Proof.
  split; [vm_compute; reflexivity|]. split.
  - exists (crash_at 60).1, claimed. split; [apply crash_at_reach|]. split_and!; [vm_compute; reflexivity..|].
    repeat constructor; vm_compute; reflexivity.
  - exists (crash_at 63).1, torn, torn_art. split; [apply crash_at_reach|]. split_and!; [vm_compute; reflexivity..|].
    exact torn_pin_spins.
Qed.
