(* ===== verification/Actors.v ===== *)
(** * Actors: mailboxes, routing, tell and ask

    [src/crates/holon-actor/src/chunk.rs], [system.rs] and [error.rs].  A message is an
    envelope and an inline body in one chunk of the store's data pool; the mailbox is the
    task queue; a handler's reply is written into a chunk the asker allocated.

    The memory has the three things the layer touches: the queue, the data pool and a clock.
    An actor is a state and a dispatch table of handlers, which may touch the memory; the
    states of all actors of a process have one type, as they are erased in the source. *)

From S2P Require Import Prelude Atomic ChunkDesc ChunkCtrl Pool SegBytes TaskQueue Pod Envelope.

#[local] Open Scope prog_scope.

Record ActorMem : Set := mkActorMem { x_queue : QueueMem; x_data : PoolMem; x_clock : Z; x_stop : bool }.

Definition set_x_queue (q : QueueMem) (m : ActorMem) : ActorMem := mkActorMem q (x_data m) (x_clock m) (x_stop m).
Definition set_x_data (d : PoolMem) (m : ActorMem) : ActorMem := mkActorMem (x_queue m) d (x_clock m) (x_stop m).

Definition on_q {A} (p : prog QueueMem A) : prog ActorMem A := lift (field x_queue set_x_queue) p.
Definition on_d {A} (p : prog PoolMem A) : prog ActorMem A := lift (field x_data set_x_data) p.
Definition now : prog ActorMem Z := load x_clock.
Definition stopped : prog ActorMem bool := load x_stop.

(** The variants of the layers above the queue and the pool are in [Node] and [Store]. *)
Inductive ActorError : Set :=
| XCore (e : HolonError)
| XShm (e : CoreError)
| XTask (e : TaskError)
| XFailed
| XCancelled
| XBadReply (kind got expected : Z)
| XNoActor
| XDuplicateActor (id : Z).

(** ** Message chunks *)

Definition REPLY_CHUNK_BYTES : Z := 256.
Definition DEFAULT_LEASE : Z := 500000000.

Section messages.
Context (fuel : nat) (seg : Segment).

(** [Pool::attach(&self.seg)?] *)
Definition with_pool {A} (k : Pool -> prog PoolMem (option (result ActorError A))) : prog PoolMem (option (result ActorError A)) :=
  r <- act (fun m => Some (Pool.attach seg m, m)) ;;
  match r with Ok p => k p | Err e => done (Err (XShm e)) end.

(** The bounds test of a chunk named by a descriptor; [seg.size()] is header and payload. *)
Definition in_segment (d : ChunkDesc) : bool :=
  (segment_id d =? seg_id seg) && (offset d + len d <=? HEADER_SIZE + payload_len seg).

(** The chunk's bytes replaced by [f] of them, in one action: whoever holds the descriptor
    owns the chunk. *)
Definition with_chunk_mut {R : Set} (d : ChunkDesc) (f : list Z -> R * list Z) : prog PoolMem (result ActorError R) :=
  if negb (in_segment d) || (offset d <? HEADER_SIZE) then Ret (Err (XCore BadEnvelope))
  else
    r <- act (fun m =>
      let a := offset d - HEADER_SIZE in
      let '(r, bs) := f (bytes_at (Pool.words m) a (len d)) in
      Some (r, set_words (put_bytes (Pool.words m) a bs) m)) ;;
    Ret (Ok r).

Definition write_message_into (d : ChunkDesc) (env : Envelope) (body : list Z) : prog PoolMem (result ActorError unit) :=
  r <- with_chunk_mut d (fun buf => match encode_message buf env body with Ok (n, buf') => (Ok tt, buf') | Err e => (Err e, buf) end) ;;
  Ret (match r with Err e => Err e | Ok (Err e) => Err (XCore e) | Ok (Ok _) => Ok tt end).

Definition write_message (env : Envelope) (body : list Z) : prog PoolMem (option (result ActorError ChunkDesc)) :=
  with_pool (fun p =>
    r <-- Pool.alloc p fuel (wrap32 (Z.of_nat (ENVELOPE_SIZE + length body))) ;;
    match r with
    | Err e => done (Err (XShm e))
    | Ok d0 =>
        let d := with_schema d0 SCHEMA_ENVELOPE in
        w <- write_message_into d env body ;;
        match w with
        | Ok _ => done (Ok d)
        | Err e => _ <-- Pool.free p fuel d ;; done (Err e)
        end
    end).

(** An empty reply chunk: a zeroed envelope fails validation. *)
Definition alloc_reply : prog PoolMem (option (result ActorError ChunkDesc)) :=
  with_pool (fun p =>
    r <-- Pool.alloc p fuel REPLY_CHUNK_BYTES ;;
    match r with
    | Err e => done (Err (XShm e))
    | Ok d0 =>
        let d := with_schema d0 SCHEMA_ENVELOPE in
        w <- with_chunk_mut d (fun buf => (tt, replicate ENVELOPE_SIZE 0 ++ drop ENVELOPE_SIZE buf)) ;;
        done (match w with Ok _ => Ok d | Err e => Err e end)
    end).

Definition reply_desc (r : PackedRef) : ChunkDesc :=
  mkChunkDesc (PackedRef_segment_id r) 0 (PackedRef_offset r) REPLY_CHUNK_BYTES SCHEMA_ENVELOPE 0.

(** The bytes are copied where they are looked at; the slice is only valid while the caller
    owns the chunk.  There is no lower bound on the offset: a descriptor that reaches into the
    segment header, which no allocation returns, reads words outside this memory. *)
Definition read_message (d : ChunkDesc) : prog PoolMem (result ActorError (Envelope * list Z)) :=
  if negb (ChunkDesc.schema_id d =? SCHEMA_ENVELOPE) then Ret (Err (XCore (NotEnvelope (ChunkDesc.schema_id d))))
  else if negb (in_segment d) then Ret (Err (XCore BadEnvelope))
  else
    buf <- load (fun m => bytes_at (Pool.words m) (offset d - HEADER_SIZE) (len d)) ;;
    Ret (match decode_message buf with Ok v => Ok v | Err e => Err (XCore e) end).

Definition free_message (d : ChunkDesc) : prog PoolMem (option (result ActorError unit)) :=
  with_pool (fun p => r <-- Pool.free p fuel d ;; done (match r with Ok _ => Ok tt | Err e => Err (XShm e) end)).
End messages.

(** ** Hosting *)

(** What a handler learns of its message. *)
Record Cx : Set := mkCx { self_id : Z; sender : Z; cx_corr : Z; cx_attempt : Z }.

Section hosting.
Context {A : Type}.

Definition handler : Type := A -> Envelope -> list Z -> Cx -> prog ActorMem (result HolonError Reply * A).

Record Host : Type := mkHost { h_actor : A; h_dispatch : Dispatch handler }.

Definition host_handle (h : Host) (env : Envelope) (body : list Z) (cx : Cx) : prog ActorMem (result HolonError Reply * Host) :=
  match lookup (h_dispatch h) (schema_id env) with
  | None => Ret (Err (UnknownSchema (schema_id env)), h)
  | Some f => r <- f (h_actor h) env body cx ;; Ret (r.1, mkHost r.2 (h_dispatch h))
  end.

(** The default table: every accepted schema id to one handler. *)
Definition actor_dispatch (accepts : list Z) (handle : handler) : Dispatch handler :=
  foldl (fun d id => register d id handle) Dispatch_new accepts.

(** Sorted by id. *)
Definition spawn (hosts : list (Z * Host)) (name : list Z) (h : Host) : result ActorError (Z * list (Z * Host)) :=
  let id := ActorId_named name in
  match binary_search (fst <$> hosts) id with
  | inl _ => Err (XDuplicateActor id)
  | inr at_ => Ok (id, vec_insert at_ (id, h) hosts)
  end.

Definition route (hosts : list (Z * Host)) (env : Envelope) (body : list Z) (attempt : Z)
    : prog ActorMem (result HolonError Reply * list (Z * Host)) :=
  match from_u16 (kind env) with
  | Err e => Ret (Err e, hosts)
  | Ok KReply => Ret (Err (BadKind (as_u16 KReply)), hosts)
  | Ok KErr => Ret (Err (BadKind (as_u16 KErr)), hosts)
  | Ok _ =>
      match binary_search (fst <$> hosts) (to env) with
      | inr _ => Ret (Err (NoSuchActor (to env)), hosts)
      | inl i =>
          match hosts !! i with
          | None => fault
          | Some (id, h) =>
              r <- host_handle h env body (mkCx id (from env) (corr env) attempt) ;;
              Ret (r.1, <[i := (id, r.2)]> hosts)
          end
      end
  end.

(** ** The mailbox loop *)

Context (fuel : nat) (seg : Segment) (tid : nat) (tls_addr worker_id lease : Z) (done_notify : prog QueueMem unit).

Definition finish (ct : ClaimedTask) (ok : bool) : prog QueueMem (option (result TaskError unit)) :=
  if ok then complete fuel tid tls_addr done_notify ct ZERO else fail fuel tid tls_addr done_notify ct.

(** The request chunk is freed by whoever made the task terminal. *)
Definition finish_and_free (ct : ClaimedTask) (ok : bool) : prog ActorMem (option unit) :=
  r <-- on_q (finish ct ok) ;;
  match r with
  | Ok _ => _ <-- on_d (free_message fuel seg (ct_request ct)) ;; done tt
  | Err _ => done tt
  end.

Definition write_reply (env : Envelope) (r : PackedRef) (outcome : result HolonError Reply) : prog PoolMem (result ActorError unit) :=
  let d := reply_desc r in
  match outcome with
  | Ok (RInline b) => write_message_into seg d (reply_to env (ib_schema_id b) (ib_len b)) (InlineBody_bytes b)
  | Ok RNone => write_message_into seg d (reply_to env 0 0) []
  | Err _ => write_message_into seg d (err_to env) []
  end.

(** What follows a claim. *)
Definition serve (hosts : list (Z * Host)) (ct : ClaimedTask) : prog ActorMem (option (list (Z * Host))) :=
  claimed_at <- now ;;
  n <- on_q (attempt ct) ;;
  msg <- on_d (read_message seg (ct_request ct)) ;;
  match msg with
  | Err _ => _ <-- on_q (fail fuel tid tls_addr done_notify ct) ;; done hosts
  | Ok (env, body) =>
      r <- route hosts env body n ;;
      let '(outcome, hosts) := r in
      if no_reply env then _ <-- finish_and_free ct (is_ok outcome) ;; done hosts
      else
        match payload_ref env with
        | None => _ <-- finish_and_free ct false ;; done hosts
        | Some r =>
            t <- now ;;
            if lease / 2 <? t - claimed_at then done hosts
            else
              wrote <- on_d (write_reply env r outcome) ;;
              _ <-- finish_and_free ct (is_ok outcome && is_ok wrote) ;;
              done hosts
        end
  end.

(** The two ways to wait for a claim; both give up when their rounds are used up. *)
Definition claim_once (spin : bool) (now_q : prog QueueMem Z) (park : prog QueueMem unit) (rounds : nat) : prog QueueMem (option ClaimedTask) :=
  if spin then
    loop rounds (fun _ : unit =>
      t <- now_q ;;
      c <-- claim_with_lease fuel worker_id (wrap64 (t + lease)) ;;
      done (match c with Some ct => inr ct | None => inl tt end)) tt
  else claim_blocking_with_lease fuel now_q worker_id lease park rounds.

(** [turns] turns of the loop of [ActorSystem::run]. *)
Fixpoint mailbox (turns : nat) (claim : prog QueueMem (option ClaimedTask)) (hosts : list (Z * Host))
    : prog ActorMem (option (list (Z * Host))) :=
  match turns with
  | O => done hosts
  | S turns' =>
      over <- stopped ;;
      if over : bool then done hosts
      else
        ct <-- on_q claim ;;
        hosts <-- serve hosts ct ;;
        mailbox turns' claim hosts
  end.

Definition run_system (spin : bool) (now_q : prog QueueMem Z) (park : prog QueueMem unit) (rounds turns : nat) (hosts : list (Z * Host))
    : prog ActorMem (option (result ActorError (list (Z * Host)))) :=
  match hosts with
  | [] => done (Err XNoActor)
  | _ =>
      r <-- mailbox turns (claim_once spin now_q park rounds) hosts ;;
      done (Ok r)
  end.
End hosting.

(** ** Sending *)

Definition SUBMIT_HORIZON : Z := 60000000000.

(** A sender's reference to an actor; [r_corr] is its counter. *)
Record ActorRef : Set := mkActorRef { r_to : Z; r_from : Z; r_corr : Z }.

Section sending.
Context (fuel : nat) (seg : Segment) (q : TaskQueue) (tid : nat) (tls_addr : Z) (work_notify : prog QueueMem unit).

Definition actor_ref_new (actor_id to : Z) : ActorRef := mkActorRef to (ActorId_new 0 actor_id) 1.

Definition actor_submit (r : ActorRef) (k : MessageKind) (schema : Z) (body : list Z) (reply : option PackedRef)
    : prog ActorMem (option (ActorRef * result ActorError (TaskHandle * Z))) :=
  let '(corr, r) := match k with Tell => (0, r) | _ => (r_corr r, mkActorRef (r_to r) (r_from r) (wrap64 (r_corr r + 1))) end in
  t <- now ;;
  let deadline := wrap64 (t + SUBMIT_HORIZON) in
  let env := with_deadline_nanos (inline k (r_to r) (r_from r) corr schema (wrap16 (Z.of_nat (length body)))) deadline in
  let env := match reply with Some x => with_reply_ref env x | None => env end in
  w <-- on_d (write_message fuel seg env body) ;;
  match w with
  | Err e => done (r, Err e)
  | Ok d =>
      s <-- on_q (submit q fuel tid tls_addr work_notify d deadline) ;;
      match s with
      | Ok h => done (r, Ok (h, corr))
      | Err e => _ <-- on_d (free_message fuel seg d) ;; done (r, Err (XTask e))
      end
  end.

Definition tell (r : ActorRef) (schema : Z) (body : list Z) : prog ActorMem (option (ActorRef * result ActorError unit)) :=
  x <-- actor_submit r Tell schema body None ;;
  done (x.1, match x.2 with Ok _ => Ok tt | Err e => Err e end).

(** A stale handle after a wait is terminal. *)
Definition terminal_of (r : result TaskError Outcome) : result TaskError Outcome :=
  match r with Err StaleHandle => Ok (ODone ZERO) | r => r end.

(** The wait, by polling or parked. *)
Definition await (spin : bool) (park : prog QueueMem unit) (rounds : nat) (h : TaskHandle) : prog QueueMem (option (result TaskError Outcome)) :=
  if spin then
    loop rounds (fun _ : unit =>
      s <- poll q h ;;
      done (match s with
            | Ok (SDone _) => inr (Ok (ODone ZERO))
            | Ok SFailed => inr (Ok OFailed)
            | Ok SCancelled => inr (Ok OCancelled)
            | Ok _ => inl tt
            | Err StaleHandle => inr (Ok (ODone ZERO))
            | Err e => inr (Err e)
            end)) tt
  else r <-- TaskQueue.wait q h park rounds ;; done (terminal_of r).

(** What the reply chunk says once the task is terminal. *)
Definition judge (corr : Z) (terminal : result TaskError Outcome) (read : result ActorError (Envelope * list Z)) : result ActorError (Envelope * list Z) :=
  match terminal with
  | Err e => Err (XTask e)
  | Ok OCancelled => Err XCancelled
  | Ok OFailed => Err XFailed
  | Ok (ODone _) =>
      match read with
      | Err _ => Err XFailed
      | Ok (env, body) =>
          match from_u16 (kind env) with
          | Err e => Err (XCore e)
          | Ok KReply => if Envelope.corr env =? corr then Ok (env, body) else Err (XBadReply (kind env) (Envelope.corr env) corr)
          | Ok KErr => if Envelope.corr env =? corr then Err XFailed else Err (XBadReply (kind env) (Envelope.corr env) corr)
          | Ok _ => Err (XBadReply (kind env) (Envelope.corr env) corr)
          end
      end
  end.

(** [ask_raw] up to the wait: the reply chunk and the request that names it. *)
Definition ask_send (r : ActorRef) (schema : Z) (body : list Z)
    : prog ActorMem (option (ActorRef * result ActorError (ChunkDesc * TaskHandle * Z))) :=
  a <-- on_d (alloc_reply fuel seg) ;;
  match a with
  | Err e => done (r, Err e)
  | Ok reply =>
      s <-- actor_submit r Ask schema body (Some (PackedRef_from_desc reply)) ;;
      match s with
      | (r, Err e) => _ <-- on_d (free_message fuel seg reply) ;; done (r, Err e)
      | (r, Ok (h, corr)) => done (r, Ok (reply, h, corr))
      end
  end.

(** [ask_raw] from the wait on: whatever happened, the reply chunk is the asker's to free. *)
Definition ask_collect (spin : bool) (park : prog QueueMem unit) (rounds : nat) (reply : ChunkDesc) (h : TaskHandle) (corr : Z)
    : prog ActorMem (option (result ActorError (Envelope * list Z))) :=
  terminal <-- on_q (await spin park rounds h) ;;
  read <- on_d (read_message seg reply) ;;
  _ <-- on_d (free_message fuel seg reply) ;;
  done (judge corr terminal read).

Definition ask_raw (spin : bool) (park : prog QueueMem unit) (rounds : nat) (r : ActorRef) (schema : Z) (body : list Z)
    : prog ActorMem (option (ActorRef * result ActorError (Envelope * list Z))) :=
  s <-- ask_send r schema body ;;
  match s with
  | (r, Err e) => done (r, Err e)
  | (r, Ok (reply, h, corr)) => x <-- ask_collect spin park rounds reply h corr ;; done (r, x)
  end.

(** The typed ask: the reply decoded as [P]. *)
Definition ask (P : Payload) (spin : bool) (park : prog QueueMem unit) (rounds : nat) (r : ActorRef) (schema : Z) (body : list Z)
    : prog ActorMem (option (ActorRef * result ActorError (list Z))) :=
  x <-- ask_raw spin park rounds r schema body ;;
  done (x.1,
    match x.2 with
    | Err e => Err e
    | Ok (env, b) =>
        if negb (schema_id env =? SCHEMA_ID P) then Err (XCore (SchemaMismatch (SCHEMA_ID P) (schema_id env)))
        else match payload_from_bytes P b with Ok vs => Ok vs | Err e => Err (XCore e) end
    end).
End sending.
