(* ===== verification/ActorProof.v ===== *)
(** * Message chunks

    What the chunk operations of [Actors] do on a consistent pool: a message written into a
    chunk is what its reader gets, whatever happens to other chunks in between; every chunk
    taken is held by somebody and goes back to the free lists.  The second part is an ask
    and its answer. *)

From S2P Require Import Prelude Atomic Treiber SegBytes Pod ChunkDesc Envelope ChunkCtrl Pool PoolInv PoolClient PoolDraw TaskQueue TaskQueueInv TaskQueueSpec TaskQueueProof TaskQueueRefines TaskQueueSweeps TaskQueueClaims Actors.

(** The pool [p], its free lists those of [fl] less the chunks [ds]. *)
Definition msgs_at (p : Pool) (fl : list (list Z)) (m : PoolMem) (ds : list ChunkDesc) : Prop :=
  Pool.attach (Pool.segment p) m = Ok p /\ exists xs, drawn p fl m ds xs /\ Forall2 (current m) ds xs.

(** A message a reader of the segment accepts, and a chunk that starts with it. *)
Definition good_msg (env : Envelope) (body : list Z) : Prop :=
  env_wf env /\ valid_envelope env /\ is_inline env = true /\ body_len env = Z.of_nat (length body) /\ Forall is_u8 body.

Definition holds_msg (m : PoolMem) (d : ChunkDesc) (env : Envelope) (body : list Z) : Prop :=
  exists rest, chunk_bytes m d = to_bytes env ++ body ++ rest.

(** A chunk of this segment, marked as an envelope. *)
Definition is_message (p : Pool) (d : ChunkDesc) : Prop :=
  segment_id d = seg_id (Pool.segment p) /\ ChunkDesc.schema_id d = SCHEMA_ENVELOPE.

(** ** Held chunks *)

Lemma msgs_perm p fl m ds ds' : ds ≡ₚ ds' -> msgs_at p fl m ds -> msgs_at p fl m ds'.
Proof.
  intros Hp (Ha & xs & (Hnd & Hd & fl' & Hinv & Hlen & Hf) & Hc). split; [done|].
  destruct (Permutation_Forall2 (P := fun d x => denotes m d x /\ current m d x) (l2 := xs) Hp) as (xs' & Hx & H).
  { apply Forall2_conj. by split. }
  apply Forall2_conj in H as [Hd' Hc']. exists xs'. split; [|done]. split_and!; [done|done|].
  exists fl'. split_and!; [done|done|]. intros i f f' H1 H2. rewrite <- (of_class_perm i _ _ Hx). by apply Hf.
Qed.

Lemma msgs_schema p fl m d s ds : msgs_at p fl m (d :: ds) -> msgs_at p fl m (with_schema d s :: ds).
Proof.
  intros (Ha & xs & (Hnd & Hd & Hf) & Hc). split; [done|]. exists xs.
  apply Forall2_cons_inv_l in Hd as (x & xs' & H1 & H2 & ->). apply list.Forall2_cons in Hc as [H3 H4].
  split; [|by constructor]. split_and!; [done|by constructor|done].
Qed.

Lemma msgs_alloc p fl m ds fuel size :
  msgs_at p fl m ds ->
  exists r m', run (alloc p (S fuel) size) m = Some (Some r, m') /\
    match r with
    | Ok d => msgs_at p fl m' (d :: ds) /\ size <= len d /\ segment_id d = seg_id (Pool.segment p) /\ keeps ds m m'
    | Err e => m' = m /\ (e = PoolExhausted \/ e = LayoutOverflow)
    end.
Proof.
  intros (Ha & xs & Hd & Hc). destruct (drawn_alloc p fl m ds xs fuel size Hd) as (r & m' & Hrun & Hr).
  exists r, m'. split; [done|]. destruct r as [d|e]; [|done].
  destruct Hr as (x & Hd' & Hc' & Hs & Ew & (Eid & _) & Hset). pose proof Hset as (_ & Eh & _). split_and!; try done.
  - apply (msgs_perm _ _ _ (ds ++ [d])); [by rewrite Permutation_app_comm|]. split.
    + unfold Pool.attach in *. by rewrite Eh.
    + exists (xs ++ [x]). split; [done|]. apply Forall2_app; [|by constructor].
      eapply list.Forall2_impl; [exact Hc|]. intros e y. by apply settled_current.
  - intros e _. unfold chunk_bytes. by rewrite Ew.
Qed.

Lemma msgs_disjoint p fl m d ds e : msgs_at p fl m (d :: ds) -> e ∈ ds ->
  offset d + len d <= offset e \/ offset e + len e <= offset d.
Proof.
  intros (_ & xs & Hd & _) [k Hk]%list_elem_of_lookup. by apply (drawn_disjoint p fl m (d :: ds) xs 0 (S k) d e Hd).
Qed.

Lemma msgs_bounds p fl m ds d : msgs_at p fl m ds -> d ∈ ds ->
  HEADER_SIZE <= offset d /\ offset d + len d <= HEADER_SIZE + payload_len (Pool.segment p) /\
  (64 | offset d) /\ is_u32 (offset d) /\ 0 < len d /\ is_u32 (len d).
Proof. intros (_ & xs & Hd & _). by apply (drawn_bounds p fl m ds xs). Qed.

Lemma msgs_free p fl m d ds fuel : msgs_at p fl m (d :: ds) ->
  exists m', run (free p (S fuel) d) m = Some (Some (Ok tt), m') /\ msgs_at p fl m' ds /\ keeps ds m m'.
Proof.
  intros (Ha & xs & Hd & Hc). apply Forall2_cons_inv_l in Hc as (x & xs' & _ & Hc & ->).
  destruct (drawn_free p fl m d ds x xs' fuel Hd) as (m' & Hrun & Hd' & Hset & Hk). pose proof Hset as (_ & Eh & _).
  exists m'. split_and!; [done| |done]. split; [unfold Pool.attach in *; by rewrite Eh|]. exists xs'. split; [done|].
  eapply list.Forall2_impl; [exact Hc|]. intros e y. by apply settled_current.
Qed.

Lemma msgs_put p fl m d ds bs :
  msgs_at p fl m (d :: ds) -> Z.of_nat (length bs) <= len d -> Forall is_u8 bs ->
  let m' := set_words (put_bytes (words m) (offset d - HEADER_SIZE) bs) m in
  msgs_at p fl m' (d :: ds) /\ keeps ds m m' /\ take (length bs) (chunk_bytes m' d) = bs.
Proof.
  intros Hm Hl Hb m'. pose proof Hm as (Ha & xs & Hd & Hc). split_and!.
  - split; [done|]. exists xs. split; [|done]. pose proof (drawn_put p fl m (d :: ds) xs d 0 bs Hd ltac:(by left) ltac:(lia) ltac:(lia)) as H.
    by rewrite Z.add_0_r in H.
  - intros e He. unfold chunk_bytes, m'. cbn [words set_words]. apply bytes_at_put_outside; [done|].
    destruct (msgs_disjoint _ _ _ _ _ _ Hm He); lia.
  - unfold chunk_bytes, m'. cbn [words set_words]. replace (len d) with (Z.of_nat (length bs) + (len d - Z.of_nat (length bs))) by lia.
    rewrite bytes_at_app by lia. rewrite take_app_length' by (rewrite length_bytes_at; lia). by apply bytes_at_put.
Qed.

(** ** The operations *)

Section ops.
Context (p : Pool) (fl : list (list Z)) (fuel : nat).
#[local] Abbreviation seg := (Pool.segment p).

Lemma run_with_pool {A} m ds (k : Pool -> prog PoolMem (option (result ActorError A))) :
  msgs_at p fl m ds -> run (with_pool seg k) m = run (k p) m.
Proof. intros (Ha & _). unfold with_pool. rewrite run_bind, run_act, Ha. done. Qed.

(** [e] is [d], perhaps only the start of it, as a [LocalRef] names it. *)
Definition views (e d : ChunkDesc) : Prop := offset e = offset d /\ segment_id e = seg_id seg /\ 0 <= len e <= len d.

Lemma run_with_chunk_mut {R : Set} m d ds e (f : list Z -> R * list Z) :
  msgs_at p fl m (d :: ds) -> views e d ->
  run (with_chunk_mut seg e f) m =
    let '(r, bs) := f (bytes_at (words m) (offset d - HEADER_SIZE) (len e)) in
    Some (Ok r, set_words (put_bytes (words m) (offset d - HEADER_SIZE) bs) m).
Proof.
  intros Hm (Eo & Es & Hl). destruct (msgs_bounds _ _ _ _ d Hm ltac:(by left)) as (Hlo & Hhi & _).
  unfold with_chunk_mut, in_segment. rewrite Es, Z.eqb_refl, Eo.
  rewrite (proj2 (Z.leb_le _ _)), (proj2 (Z.ltb_ge _ _)) by lia. cbn [andb negb orb].
  rewrite run_bind, run_act. by destruct (f _) as [r bs].
Qed.

Lemma write_into_ok m d ds e env body :
  msgs_at p fl m (d :: ds) -> views e d -> good_msg env body -> Z.of_nat (ENVELOPE_SIZE + length body) <= len e ->
  exists m', run (write_message_into seg e env body) m = Some (Ok tt, m') /\
    msgs_at p fl m' (d :: ds) /\ keeps ds m m' /\ holds_msg m' d env body.
Proof.
  intros Hm Hv (_ & _ & _ & El & Hb) Hfit. set (buf := bytes_at (words m) (offset d - HEADER_SIZE) (len e)).
  assert (Hbuf : length buf = Z.to_nat (len e)) by (apply length_bytes_at; destruct Hv; lia).
  set (bs := to_bytes env ++ body ++ drop (ENVELOPE_SIZE + length body) buf).
  assert (Henc : encode_message buf env body = Ok ((ENVELOPE_SIZE + length body)%nat, bs)).
  { unfold encode_message. rewrite El, Z.eqb_refl. cbn [negb orb]. by rewrite (proj2 (Nat.ltb_ge _ _)) by lia. }
  assert (Hlen : length bs = length buf) by (unfold bs; rewrite !length_app, length_drop, length_to_bytes; lia).
  assert (Hu : Forall is_u8 bs).
  { apply Forall_app_2; [apply pack_bytes|]. apply Forall_app_2; [done|]. apply Forall_drop, bytes_at_bytes. }
  destruct (msgs_put p fl m d ds bs Hm ltac:(destruct Hv; lia) Hu) as (Hm' & Hk & Ht).
  eexists. split_and!; [|exact Hm'|exact Hk|].
  - unfold write_message_into. rewrite run_bind, (run_with_chunk_mut m d ds e) by done. fold buf. rewrite Henc. done.
  - eexists. rewrite <- (take_drop (length bs) (chunk_bytes _ d)), Ht. unfold bs. by rewrite <- !app_assoc.
Qed.

Lemma views_self d m ds : msgs_at p fl m (d :: ds) -> segment_id d = seg_id seg -> views d d.
Proof. intros Hm Es. destruct (msgs_bounds _ _ _ _ d Hm ltac:(by left)) as (_ & _ & _ & _ & ? & _). split_and!; [done|done|lia|lia]. Qed.

Lemma write_message_ok m ds env body :
  msgs_at p fl m ds -> good_msg env body -> Z.of_nat (ENVELOPE_SIZE + length body) < U32_MOD ->
  exists r m', run (write_message (S fuel) seg env body) m = Some (Some r, m') /\
    match r with
    | Ok d => msgs_at p fl m' (d :: ds) /\ is_message p d /\ Z.of_nat ENVELOPE_SIZE <= len d /\ keeps ds m m' /\ holds_msg m' d env body
    | Err e => m' = m /\ (e = XShm PoolExhausted \/ e = XShm LayoutOverflow)
    end.
Proof.
  intros Hm Hg Hu. unfold write_message. rewrite (run_with_pool m ds) by done.
  rewrite wrap32_id by (split; [lia|exact Hu]).
  destruct (msgs_alloc p fl m ds fuel (Z.of_nat (ENVELOPE_SIZE + length body)) Hm) as (r & m1 & Hrun & Hr).
  unfold fbind at 1. rewrite run_bind, Hrun. destruct r as [d|e]; cbv beta iota zeta.
  2: { destruct Hr as [-> He]. eexists (Err (XShm e)), m. split; [done|]. split; [done|]. destruct He as [-> | ->]; auto. }
  destruct Hr as (Hm1 & Hs & Eid & Hk). pose proof (msgs_schema _ _ _ _ SCHEMA_ENVELOPE _ Hm1) as Hm1'.
  destruct (write_into_ok m1 _ ds (with_schema d SCHEMA_ENVELOPE) env body Hm1' (views_self _ m1 ds Hm1' Eid) Hg Hs)
    as (m2 & Hrun2 & Hm2 & Hk2 & Hh).
  rewrite run_bind, Hrun2. eexists _, m2. split; [done|]. cbn [len with_schema]. split_and!; try done; [lia|].
  intros e He. by rewrite Hk2, Hk.
Qed.

Lemma read_message_ok m d ds env body :
  msgs_at p fl m ds -> d ∈ ds -> is_message p d -> holds_msg m d env body -> good_msg env body ->
  run (read_message seg d) m = Some (Ok (env, body), m).
Proof.
  intros Hm Hd (Es & Esch) (rest & E) (Hwf & Hv%validate_ok & Hin & El & _).
  destruct (msgs_bounds _ _ _ _ d Hm Hd) as (_ & Hhi & _). unfold read_message, in_segment.
  rewrite Esch, Es, !Z.eqb_refl, (proj2 (Z.leb_le _ _)) by lia. cbn [andb negb].
  rewrite run_bind. cbn [run load act]. change (bytes_at _ _ _) with (chunk_bytes m d). rewrite E.
  unfold decode_message. rewrite from_bytes_to_bytes by done. cbn [rbind]. rewrite Hin, El, Nat2Z.id. cbn [negb].
  rewrite (proj2 (Nat.ltb_ge _ _)) by (rewrite !length_app, length_to_bytes; lia).
  rewrite (drop_app_length' (to_bytes env)) by (by rewrite length_to_bytes).
  replace (ENVELOPE_SIZE + length body - ENVELOPE_SIZE)%nat with (length body) by lia. by rewrite take_app_length.
Qed.

Lemma free_message_ok m d ds : msgs_at p fl m (d :: ds) ->
  exists m', run (free_message (S fuel) seg d) m = Some (Some (Ok tt), m') /\ msgs_at p fl m' ds /\ keeps ds m m'.
Proof.
  intros Hm. destruct (msgs_free p fl m d ds fuel Hm) as (m' & Hrun & H). exists m'. split; [|done].
  unfold free_message. rewrite (run_with_pool m (d :: ds)) by done. unfold fbind. by rewrite run_bind, Hrun.
Qed.

Lemma alloc_reply_ok m ds :
  msgs_at p fl m ds ->
  exists r m', run (alloc_reply (S fuel) seg) m = Some (Some r, m') /\
    match r with
    | Ok d => msgs_at p fl m' (d :: ds) /\ is_message p d /\ REPLY_CHUNK_BYTES <= len d /\ keeps ds m m'
    | Err e => m' = m /\ (e = XShm PoolExhausted \/ e = XShm LayoutOverflow)
    end.
Proof.
  intros Hm. unfold alloc_reply. rewrite (run_with_pool m ds) by done.
  destruct (msgs_alloc p fl m ds fuel REPLY_CHUNK_BYTES Hm) as (r & m1 & Hrun & Hr).
  unfold fbind at 1. rewrite run_bind, Hrun. destruct r as [d|e]; cbv beta iota zeta.
  2: { destruct Hr as [-> He]. eexists (Err (XShm e)), m. split; [done|]. split; [done|]. destruct He as [-> | ->]; auto. }
  destruct Hr as (Hm1 & Hs & Eid & Hk). pose proof (msgs_schema _ _ _ _ SCHEMA_ENVELOPE _ Hm1) as Hm1'.
  rewrite run_bind, (run_with_chunk_mut m1 (with_schema d SCHEMA_ENVELOPE) ds) by (done || by apply (views_self _ m1 ds)).
  set (bs := replicate ENVELOPE_SIZE 0 ++ _).
  assert (Hlen : length bs = Z.to_nat (len d)).
  { unfold bs. rewrite length_app, length_replicate, length_drop, length_bytes_at; cbn [len with_schema]; unfold REPLY_CHUNK_BYTES in *; [|lia].
    change ENVELOPE_SIZE with 64%nat. lia. }
  destruct (msgs_put p fl m1 (with_schema d SCHEMA_ENVELOPE) ds bs Hm1') as (Hm2 & Hk2 & _).
  { rewrite Hlen. cbn [len with_schema]. unfold REPLY_CHUNK_BYTES in *. lia. }
  { apply Forall_app_2; [apply Forall_replicate; mach|apply Forall_drop, bytes_at_bytes]. }
  eexists _, _. split; [reflexivity|]. split_and!; [exact Hm2|done|exact Hs|]. intros e He. by rewrite Hk2, Hk.
Qed.

(** The chunk a [LocalRef] to [d] names. *)
Lemma reply_views m d ds : msgs_at p fl m (d :: ds) -> segment_id d = seg_id seg -> is_u32 (seg_id seg) -> REPLY_CHUNK_BYTES <= len d ->
  views (reply_desc (PackedRef_from_desc d)) d.
Proof.
  intros Hm Es Hu Hl. destruct (msgs_bounds _ _ _ _ d Hm ltac:(by left)) as (_ & _ & _ & Hou & _).
  pose proof (PackedRef_unpack_pack (segment_id d) (offset d) ltac:(by rewrite Es) Hou) as E. injection E as E1 E2.
  unfold views, reply_desc, PackedRef_from_desc. cbn [offset segment_id len]. rewrite E1, E2. unfold REPLY_CHUNK_BYTES in *. split_and!; [done|done|lia|lia].
Qed.
End ops.

(** * An ask and its answer

    The asker, the mailbox and the asker again, over a queue and a pool in any consistent
    state: composition of the task queue's refinement of its board with the pool's
    accounting of held chunks and the envelope codec. *)

#[local] Open Scope prog_scope.

(** ** Running on the parts *)

Lemma run_on_q {A} (pr : prog QueueMem A) m :
  run (on_q pr) m = match run pr (x_queue m) with Some (a, s) => Some (a, set_x_queue s m) | None => None end.
Proof. apply run_lift_field. split; [by intros ? []|by intros []|by intros ? ? []]. Qed.

Lemma run_on_d {A} (pr : prog PoolMem A) m :
  run (on_d pr) m = match run pr (x_data m) with Some (a, s) => Some (a, set_x_data s m) | None => None end.
Proof. apply run_lift_field. split; [by intros ? []|by intros []|by intros ? ? []]. Qed.

Section parts.
Context {A B : Type} (m : ActorMem).

Lemma run_fq (pr : prog QueueMem (option A)) (k : A -> prog ActorMem (option B)) a s :
  run pr (x_queue m) = Some (Some a, s) -> run (fbind (on_q pr) k) m = run (k a) (set_x_queue s m).
Proof. intros E. unfold fbind. by rewrite run_bind, run_on_q, E. Qed.

Lemma run_fd (pr : prog PoolMem (option A)) (k : A -> prog ActorMem (option B)) a s :
  run pr (x_data m) = Some (Some a, s) -> run (fbind (on_d pr) k) m = run (k a) (set_x_data s m).
Proof. intros E. unfold fbind. by rewrite run_bind, run_on_d, E. Qed.

Lemma run_bq (pr : prog QueueMem A) (k : A -> prog ActorMem B) a s :
  run pr (x_queue m) = Some (a, s) -> run (pbind (on_q pr) k) m = run (k a) (set_x_queue s m).
Proof. intros E. by rewrite run_bind, run_on_q, E. Qed.

Lemma run_bd (pr : prog PoolMem A) (k : A -> prog ActorMem B) a s :
  run pr (x_data m) = Some (a, s) -> run (pbind (on_d pr) k) m = run (k a) (set_x_data s m).
Proof. intros E. by rewrite run_bind, run_on_d, E. Qed.
End parts.

Lemma run_fbind {S A B} (pr : prog S (option A)) (k : A -> prog S (option B)) s a s' :
  run pr s = Some (Some a, s') -> run (fbind pr k) s = run (k a) s'.
Proof. intros E. unfold fbind. by rewrite run_bind, E. Qed.

(** ** The queue, by its board *)

Section queue.
Context (q : TaskQueue) (f0 : nat).

Definition queue_ok (m : QueueMem) : Prop := exists c C L, good q f0 c C L /\ St c C L m.

Context (tid : nat) (addr : Z) (work_n done_n : prog QueueMem unit) (Hw : notifier work_n) (Hd : notifier done_n).
#[local] Abbreviation fuel := (S f0).

Lemma run_exec m op : queue_ok m -> op_wf (capacity q) op ->
  exists x m', run (exec q fuel addr work_n done_n tid op) m = Some (Some x, m') /\ queue_ok m' /\
    exists B B', board m = B /\ board m' = B' /\ spec B op x B'.
Proof.
  intros (c & C & L & G & HS) Hop. pose proof HS as [_ Ec].
  pose proof (exec_refines_board q f0 tid addr work_n done_n op Hw Hd Hop c C L G m HS) as Ht.
  apply terminates_run in Ht as (x & m' & Hrun & c' & C' & L' & HS' & Hsp & G'). pose proof HS' as [_ Ec'].
  exists x, m'. unfold board. rewrite Ec, Ec'. split_and!; [done|by exists c', C', L'|by exists (abs c), (abs c')].
Qed.

Lemma exec_fbind_inv {A} (pr : prog QueueMem (option A)) (R : A -> Resp) m y m' :
  run (x <-- pr ;; done (R x)) m = Some (Some y, m') -> exists x, run pr m = Some (Some x, m') /\ y = R x.
Proof. unfold fbind. rewrite run_bind. destruct (run pr m) as [[[x|] s]|]; cbn; intros; simplify_eq; eauto. Qed.

Lemma exec_bind_inv {A} (pr : prog QueueMem A) (R : A -> Resp) m y m' :
  run (x <- pr ;; done (R x)) m = Some (Some y, m') -> exists x, run pr m = Some (x, m') /\ y = R x.
Proof. rewrite run_bind. destruct (run pr m) as [[x s]|]; cbn; intros; simplify_eq; eauto. Qed.

Lemma submit_ok m d dl : queue_ok m ->
  exists r m', run (submit q fuel tid addr work_n d dl) m = Some (Some r, m') /\ queue_ok m' /\
    match r with
    | Ok h => exists i t, tasks (board m) !! i = Some t /\ live t = false /\ h = mkHandle (Z.of_nat i) (wrap64 (ts_seq t + 1)) /\
        board m' = put_task (Z.of_nat i) (fresh_task d dl t) (board m)
    | Err e => e = QueueFull /\ board m' = board m
    end.
Proof.
  intros Hq. destruct (run_exec m (OSubmit d dl None) Hq I) as (x & m' & Hrun & Hq' & B & B' & EB0 & EB & Hsp).
  apply exec_fbind_inv in Hrun as (r & Hrun & ->). exists r, m'. split_and!; [exact Hrun|done|]. rewrite EB0, EB. clear EB0 EB.
  inversion Hsp as [? ? ? i t ps Hi Hl E| | | | | | | | | | | | | | |]; simplify_eq; [|done]. exists i, t. split_and!; try done.
Qed.

Lemma claim_only m w dl i t : queue_ok m -> tasks (board m) !! i = Some t -> ts_state t = QUEUED ->
  (forall j u, tasks (board m) !! j = Some u -> ts_state u = QUEUED -> j = i) ->
  exists m', run (claim_inner fuel w dl) m = Some (Some (Some (mkClaimed (Z.of_nat i) (ts_seq t) w (ts_request t))), m') /\ queue_ok m' /\
    board m' = put_task (Z.of_nat i) (claimed_task w dl t) (board m).
Proof.
  intros Hq. destruct (run_exec m (OClaim w dl) Hq I) as (x & m' & Hrun & Hq' & B & B' & EB0 & EB & Hsp).
  apply exec_fbind_inv in Hrun as (r & Hrun & ->). rewrite EB0. intros Hi Ht Hone. exists m'. rewrite EB. clear EB0 EB.
  inversion Hsp as [| | |? ? j u Hj Hu|? ? Hno| | | | | | | | | | |]; simplify_eq.
  - assert (j = i) as -> by eauto. by simplify_eq.
  - by destruct (Hno i t Hi).
Qed.

Lemma attempt_ok m ct t : queue_ok m -> 0 <= ct_idx ct < capacity q -> tasks (board m) !! Z.to_nat (ct_idx ct) = Some t ->
  exists m', run (attempt ct) m = Some (ts_retry t, m') /\ queue_ok m' /\ board m' = board m.
Proof.
  intros Hq Hi. destruct (run_exec m (OAttempt ct) Hq Hi) as (x & m' & Hrun & Hq' & B & B' & EB0 & EB & Hsp).
  apply exec_bind_inv in Hrun as (r & Hrun & ->). rewrite EB0. intros Ht. exists m'. rewrite EB. clear EB0 EB. by inversion Hsp; simplify_eq.
Qed.

Lemma poll_ok m h : queue_ok m -> 0 <= slot_idx h ->
  exists m', run (poll q h) m = Some (board_poll (board m) h, m') /\ queue_ok m' /\ board m' = board m.
Proof.
  intros Hq Hi. destruct (run_exec m (OPoll h) Hq Hi) as (x & m' & Hrun & Hq' & B & B' & EB0 & EB & Hsp).
  apply exec_bind_inv in Hrun as (r & Hrun & ->). exists m'. rewrite EB0, EB. clear EB0 EB. by inversion Hsp; simplify_eq.
Qed.

(** Finishing a task one holds. *)
Definition finished (ok : bool) (t : TaskSlot) : TaskSlot := if ok then set_state DONE (set_result ZERO t) else set_state FAILED t.

Lemma finish_held m ct t ok : queue_ok m -> 0 <= ct_idx ct < capacity q ->
  tasks (board m) !! Z.to_nat (ct_idx ct) = Some t -> ts_state t = CLAIMED -> ts_seq t = ct_seq ct ->
  exists m', run (finish fuel tid addr done_n ct ok) m = Some (Some (Ok tt), m') /\ queue_ok m' /\
    board m' = put_task (ct_idx ct) (finished ok t) (board m).
Proof.
  intros Hq Hi Ht Hs Hsq.
  assert (Hf : find_task (board m) (mkHandle (ct_idx ct) (ct_seq ct)) = Some t)
    by (unfold find_task; cbn [slot_idx h_seq]; by rewrite Ht, Hsq, Z.eqb_refl).
  destruct ok; cbn [finish].
  - destruct (run_exec m (OComplete ct ZERO) Hq Hi) as (x & m' & Hrun & Hq' & B & B' & EB0 & EB & Hsp).
    apply exec_fbind_inv in Hrun as (r & Hrun & ->). exists m'. rewrite EB. rewrite EB0 in *. clear EB0 EB.
    inversion Hsp; simplify_eq. unfold board_complete in *. by rewrite Hf, Hs, Z.eqb_refl in *.
  - destruct (run_exec m (OFail ct) Hq Hi) as (x & m' & Hrun & Hq' & B & B' & EB0 & EB & Hsp).
    apply exec_fbind_inv in Hrun as (r & Hrun & ->). exists m'. rewrite EB. rewrite EB0 in *. clear EB0 EB.
    inversion Hsp; simplify_eq. unfold board_fail in *. by rewrite Hf, Hs, Z.eqb_refl in *.
Qed.
End queue.

(** ** Envelopes *)

Definition ref_ok (r : ActorRef) : Prop := is_u64 (r_to r) /\ is_u64 (r_from r) /\ is_u64 (r_corr r).

(** The request an ask at time [t] sends, naming its reply chunk. *)
Definition ask_env (r : ActorRef) (schema : Z) (body : list Z) (t : Z) (reply : ChunkDesc) : Envelope :=
  with_reply_ref
    (with_deadline_nanos (inline Ask (r_to r) (r_from r) (r_corr r) schema (wrap16 (Z.of_nat (length body)))) (wrap64 (t + SUBMIT_HORIZON)))
    (PackedRef_from_desc reply).

(** The answer to [env]. *)
Definition reply_env (env : Envelope) (outcome : result HolonError Reply) : Envelope :=
  match outcome with
  | Ok (RInline b) => reply_to env (ib_schema_id b) (ib_len b)
  | Ok RNone => reply_to env 0 0
  | Err _ => err_to env
  end.
Definition reply_body (outcome : result HolonError Reply) : list Z :=
  match outcome with Ok (RInline b) => InlineBody_bytes b | _ => [] end.

(** What an [InlineBody] built by its constructor satisfies. *)
Definition reply_wf (outcome : result HolonError Reply) : Prop :=
  match outcome with
  | Ok (RInline b) =>
      is_u32 (ib_schema_id b) /\ 0 <= ib_len b <= Z.of_nat MAX_INLINE_BODY /\ length (ib_bytes b) = MAX_INLINE_BODY /\ Forall is_u8 (ib_bytes b)
  | _ => True
  end.

Lemma env_wf_of e :
  is_u64 (to e) -> is_u64 (from e) -> is_u64 (corr e) -> is_u64 (payload e) -> is_u32 (schema_id e) -> is_u32 (Envelope.version e) ->
  is_u16 (kind e) -> is_u16 (flags e) -> is_u32 (deadline e) -> is_u32 (epoch e) -> is_u32 (Envelope.magic e) -> is_u16 (abi_version e) ->
  is_u16 (body_len e) -> is_u32 (Envelope.reserved e) -> env_wf e.
Proof. intros. unfold env_wf, in_range, env_fields, envelope_layout. do 14 (constructor; [cbn; mach|]). constructor. Qed.

Lemma ask_env_good r schema body t reply :
  ref_ok r -> is_u32 schema -> Forall is_u8 body -> Z.of_nat (length body) < U16_MOD -> is_u32 (segment_id reply) -> is_u32 (offset reply) ->
  good_msg (ask_env r schema body t reply) body.
Proof.
  intros (H1 & H2 & H3) Hs Hb Hl Hr Ho. split_and!; try done.
  - apply env_wf_of; try done.
    + change (is_u64 (bits (PackedRef_pack (segment_id reply) (offset reply)))). rewrite PackedRef_pack_join. by apply join32_u64.
    + apply wrap32_u32.
    + apply wrap16_u16.
  - cbn. apply wrap16_id. split; [lia|done].
Qed.

Lemma reply_env_good env outcome : env_wf env -> reply_wf outcome -> good_msg (reply_env env outcome) (reply_body outcome).
Proof.
  intros Hwf Hr. apply Forall2_lookup_lr with (i := 1%nat) (x := 8%nat) (y := from env) in Hwf as H1; [|done|done].
  apply Forall2_lookup_lr with (i := 0%nat) (x := 8%nat) (y := to env) in Hwf as H0; [|done|done].
  apply Forall2_lookup_lr with (i := 2%nat) (x := 8%nat) (y := corr env) in Hwf as H2; [|done|done].
  apply Forall2_lookup_lr with (i := 9%nat) (x := 4%nat) (y := epoch env) in Hwf as H9; [|done|done].
  destruct outcome as [[|b]|e]; cbn [reply_env reply_body] in *.
  - split_and!; try done. by apply env_wf_of.
  - destruct Hr as (Hs & Hl & Hn & Hb). split_and!; try done.
    + apply env_wf_of; try done. cbn. unfold MAX_INLINE_BODY in Hl. mach.
    + cbn. unfold InlineBody_bytes. rewrite length_take, Hn. unfold MAX_INLINE_BODY in *. lia.
    + by apply Forall_take.
  - split_and!; try done. by apply env_wf_of.
Qed.

Lemma reply_body_fits outcome : reply_wf outcome -> Z.of_nat (ENVELOPE_SIZE + length (reply_body outcome)) <= REPLY_CHUNK_BYTES.
Proof.
  unfold reply_wf, ENVELOPE_SIZE, REPLY_CHUNK_BYTES. destruct outcome as [[|b]|e]; cbn [reply_body length]; [lia| |lia].
  intros (_ & Hl & Hn & _). unfold InlineBody_bytes. rewrite length_take, Hn. unfold MAX_INLINE_BODY in *. lia.
Qed.

(** ** The asker sends *)

Section turns.
Context (p : Pool) (fl : list (list Z)) (q : TaskQueue) (f0 : nat).
#[local] Abbreviation seg := (segment p).
#[local] Abbreviation fuel := (S f0).

(** The chunks [ds] are out; everything else is in order. *)
Definition system_ok (m : ActorMem) (ds : list ChunkDesc) : Prop := queue_ok q f0 (x_queue m) /\ msgs_at p fl (x_data m) ds.

Definition brd (m : ActorMem) : Board := board (x_queue m).

Context (work_n done_n : prog QueueMem unit) (Hw : notifier work_n) (Hd : notifier done_n) (Hseg : is_u32 (seg_id seg)).

(** The request of an ask whose reply chunk is [reply]; [ds] are the chunks already out. *)
Lemma actor_submit_ok tid addr r schema body reply ds m :
  system_ok m ds -> good_msg (ask_env r schema body (x_clock m) reply) body -> Z.of_nat (length body) < U16_MOD ->
  exists res m', run (actor_submit fuel seg q tid addr work_n r Ask schema body (Some (PackedRef_from_desc reply))) m
      = Some (Some (mkActorRef (r_to r) (r_from r) (wrap64 (r_corr r + 1)), res), m') /\
    x_clock m' = x_clock m /\ x_stop m' = x_stop m /\
    match res with
    | Err e => system_ok m' ds /\ brd m' = brd m /\ (e = XShm PoolExhausted \/ e = XShm LayoutOverflow \/ e = XTask QueueFull)
    | Ok (h, c) => c = r_corr r /\
        exists req i t, system_ok m' (req :: ds) /\ is_message p req /\ Z.of_nat ENVELOPE_SIZE <= len req /\
          holds_msg (x_data m') req (ask_env r schema body (x_clock m) reply) body /\
          tasks (brd m) !! i = Some t /\ live t = false /\ h = mkHandle (Z.of_nat i) (wrap64 (ts_seq t + 1)) /\
          brd m' = put_task (Z.of_nat i) (fresh_task req (wrap64 (x_clock m + SUBMIT_HORIZON)) t) (brd m)
    end.
Proof.
  intros [Hq Hm] Hg Hl. unfold actor_submit. cbv beta iota zeta. rewrite run_bind. cbn [now load act run].
  change (with_reply_ref _ _) with (ask_env r schema body (x_clock m) reply).
  destruct (write_message_ok p fl f0 (x_data m) ds _ body Hm Hg ltac:(unfold ENVELOPE_SIZE; mach)) as (w & d2 & Hw2 & Hr2).
  rewrite (run_fd m _ _ w d2) by exact Hw2. destruct w as [req|e].
  2: { destruct Hr2 as [-> He]. exists (Err e), m. destruct m. split_and!; try done. destruct He; auto. }
  destruct Hr2 as (Hm2 & Hreq & Hl2 & _ & Hh).
  destruct (submit_ok q f0 tid addr work_n done_n Hw Hd (x_queue m) req (wrap64 (x_clock m + SUBMIT_HORIZON)) Hq) as (s & q3 & Hs3 & Hq3 & Hr3).
  rewrite (run_fq _ _ _ s q3) by exact Hs3. destruct s as [h|e].
  - destruct Hr3 as (i & t & Hi & Ht & -> & EB). eexists (Ok _), _. split; [reflexivity|]. split_and!; try done.
    by exists req, i, t.
  - destruct Hr3 as [-> EB]. destruct (free_message_ok p fl f0 d2 req ds Hm2) as (d4 & Hf & Hm4 & _).
    rewrite (run_fd _ _ _ (Ok tt) d4) by exact Hf. eexists (Err _), _. split; [reflexivity|]. split_and!; try done. auto.
Qed.

Lemma ask_send_ok tid addr r schema body m :
  system_ok m [] -> ref_ok r -> is_u32 schema -> Forall is_u8 body -> Z.of_nat (length body) < U16_MOD ->
  exists r' res m', run (ask_send fuel seg q tid addr work_n r schema body) m = Some (Some (r', res), m') /\
    x_clock m' = x_clock m /\ x_stop m' = x_stop m /\
    match res with
    | Err e => system_ok m' [] /\ brd m' = brd m /\ (e = XShm PoolExhausted \/ e = XShm LayoutOverflow \/ e = XTask QueueFull)
    | Ok (reply, h, c) =>
        r' = mkActorRef (r_to r) (r_from r) (wrap64 (r_corr r + 1)) /\ c = r_corr r /\
        is_message p reply /\ REPLY_CHUNK_BYTES <= len reply /\
        exists req i t, system_ok m' [req; reply] /\ is_message p req /\ Z.of_nat ENVELOPE_SIZE <= len req /\
          holds_msg (x_data m') req (ask_env r schema body (x_clock m) reply) body /\
          tasks (brd m) !! i = Some t /\ live t = false /\ h = mkHandle (Z.of_nat i) (wrap64 (ts_seq t + 1)) /\
          brd m' = put_task (Z.of_nat i) (fresh_task req (wrap64 (x_clock m + SUBMIT_HORIZON)) t) (brd m)
    end.
Proof.
  intros [Hq Hm] Hr Hs Hb Hl. unfold ask_send.
  destruct (alloc_reply_ok p fl f0 (x_data m) [] Hm) as (a & d1 & Ha & Hr1). rewrite (run_fd m _ _ a d1 Ha).
  destruct a as [reply|e].
  2: { destruct Hr1 as [-> He]. exists r, (Err e), m. destruct m. split_and!; try done. destruct He; auto. }
  destruct Hr1 as (Hm1 & Hmsg & Hlen & _). destruct (msgs_bounds _ _ _ _ reply Hm1 ltac:(by left)) as (_ & _ & _ & Ho & _).
  assert (Hg : good_msg (ask_env r schema body (x_clock m) reply) body)
    by (apply ask_env_good; try done; by rewrite (proj1 Hmsg)).
  destruct (actor_submit_ok tid addr r schema body reply [reply] (set_x_data d1 m) ltac:(by split) Hg Hl)
    as (res & m2 & Hrun & Ec & Es & Hres).
  rewrite (run_fbind _ _ _ _ m2 Hrun). destruct res as [[h c]|e].
  - destruct Hres as (-> & Hres). eexists _, (Ok _), m2. split; [reflexivity|]. by split_and!.
  - destruct Hres as ([Hq2 Hm2] & EB & He).
    destruct (free_message_ok p fl f0 (x_data m2) reply [] Hm2) as (d4 & Hf & Hm4 & _).
    rewrite (run_fd _ _ _ (Ok tt) d4) by exact Hf. eexists _, (Err e), _. split; [reflexivity|]. by split_and!.
Qed.

(** ** The mailbox answers *)

Lemma put_task_poll B i t h : (i < length (tasks B))%nat -> slot_idx h = Z.of_nat i -> h_seq h = ts_seq t ->
  find_task (put_task (Z.of_nat i) t B) h = Some t.
Proof.
  intros Hi E Es. unfold find_task, put_task. cbn [tasks]. rewrite E, Nat2Z.id, list_lookup_insert_eq by done.
  by rewrite Es, Z.eqb_refl.
Qed.

Lemma put_task_twice B i t t' : put_task i t' (put_task i t B) = put_task i t' B.
Proof. unfold put_task. cbn. by rewrite list_insert_insert_eq. Qed.

Definition tick (dt : Z) (m : ActorMem) : ActorMem := mkActorMem (x_queue m) (x_data m) (x_clock m + dt) (x_stop m).

Lemma write_reply_is env r outcome :
  write_reply seg env r outcome = write_message_into seg (reply_desc r) (reply_env env outcome) (reply_body outcome).
Proof. by destruct outcome as [[|b]|e]. Qed.

Lemma capacity_slots m i t : queue_ok q f0 m -> tasks (board m) !! i = Some t -> 0 <= Z.of_nat i < capacity q.
Proof.
  intros (c & C & L & [_ Hcap _ _ _] & [_ Ec]) Hi. unfold board in Hi. rewrite Ec in Hi. cbn in Hi.
  apply lookup_lt_Some in Hi. lia.
Qed.

Lemma finish_and_free_ok tid addr req ds ct t ok m :
  system_ok m (req :: ds) -> 4 <= len req -> ct_request ct = req -> 0 <= ct_idx ct ->
  tasks (brd m) !! Z.to_nat (ct_idx ct) = Some t -> ts_state t = CLAIMED -> ts_seq t = ct_seq ct ->
  exists m', run (finish_and_free fuel seg tid addr done_n ct ok) m = Some (Some tt, m') /\
    system_ok m' ds /\ keeps ds (x_data m) (x_data m') /\ x_clock m' = x_clock m /\ x_stop m' = x_stop m /\
    brd m' = put_task (ct_idx ct) (finished ok t) (brd m).
Proof.
  intros [Hq Hm] Hl <- Hi Ht Hc Hs. pose proof (capacity_slots _ _ _ Hq Ht) as Hcap. rewrite Z2Nat.id in Hcap by done.
  destruct (finish_held q f0 tid addr work_n done_n Hw Hd (x_queue m) ct t ok Hq Hcap Ht Hc Hs) as (q1 & Hf & Hq1 & EB).
  unfold finish_and_free. rewrite (run_fq _ _ _ (Ok tt) q1) by exact Hf.
  destruct (free_message_ok p fl f0 (x_data m) (ct_request ct) ds Hm) as (d1 & Hfr & Hm1 & Hk).
  rewrite (run_fd _ _ _ (Ok tt) d1) by exact Hfr. eexists. split; [reflexivity|]. by split_and!.
Qed.

Section serving.
Context {A : Type} (hosts : list (Z * Host (A := A))) (outcome : result HolonError Reply) (hosts' : list (Z * Host (A := A))).
Context (env : Envelope) (body : list Z) (dt lease : Z).
Context (Hroute : forall m, run (route hosts env body 0) m = Some ((outcome, hosts'), tick dt m)).
Context (Hdt : dt <= lease / 2) (Hwf : reply_wf outcome).

Lemma serve_ok tid addr req reply ct t m :
  system_ok m [req; reply] -> is_message p req -> Z.of_nat ENVELOPE_SIZE <= len req -> is_message p reply -> REPLY_CHUNK_BYTES <= len reply ->
  holds_msg (x_data m) req env body -> good_msg env body -> no_reply env = false -> payload_ref env = Some (PackedRef_from_desc reply) ->
  ct_request ct = req -> 0 <= ct_idx ct -> tasks (brd m) !! Z.to_nat (ct_idx ct) = Some t ->
  ts_state t = CLAIMED -> ts_seq t = ct_seq ct -> ts_retry t = 0 ->
  exists m', run (serve fuel seg tid addr lease done_n hosts ct) m = Some (Some hosts', m') /\
    system_ok m' [reply] /\ holds_msg (x_data m') reply (reply_env env outcome) (reply_body outcome) /\
    x_stop m' = x_stop m /\ brd m' = put_task (ct_idx ct) (finished (is_ok outcome) t) (brd m).
Proof.
  intros [Hq Hm] Hreq Hlen Hrep Hlr Hh Hg Hnr Hpr Ect Hi Ht Hc Hs Hre. pose proof (capacity_slots _ _ _ Hq Ht) as Hcap. rewrite Z2Nat.id in Hcap by done.
  unfold serve. rewrite run_bind. cbn [now load act run].
  destruct (attempt_ok q f0 tid addr work_n done_n Hw Hd (x_queue m) ct t Hq Hcap Ht) as (q1 & Ha & Hq1 & EB1).
  rewrite (run_bq _ _ _ _ q1) by exact Ha. rewrite Hre, Ect.
  rewrite (run_bd _ _ _ (Ok (env, body)) (x_data m)) by (apply (read_message_ok p fl (x_data m) req [req; reply]); [done|by left|done..]).
  cbv beta iota. rewrite run_bind, Hroute. cbv beta iota. rewrite Hnr, Hpr, run_bind. cbn [now load act run].
  cbn [x_clock tick set_x_data set_x_queue]. replace (x_clock m + dt - x_clock m) with dt by lia.
  rewrite (proj2 (Z.ltb_ge _ _)) by done. rewrite write_reply_is.
  assert (Hm' : msgs_at p fl (x_data m) [reply; req]) by (by apply (msgs_perm _ _ _ [req; reply]); [constructor|]).
  destruct (write_into_ok p fl (x_data m) reply [req] (reply_desc (PackedRef_from_desc reply)) (reply_env env outcome) (reply_body outcome) Hm')
    as (d2 & Hw2 & Hm2 & _ & Hh2).
  { apply (reply_views p fl (x_data m) reply [req]); try done. apply Hrep. }
  { apply reply_env_good; [apply Hg|done]. }
  { by apply reply_body_fits. }
  rewrite (run_bd _ _ _ (Ok tt) d2) by exact Hw2. cbn [is_ok andb]. rewrite andb_true_r.
  destruct (finish_and_free_ok tid addr req [reply] ct t (is_ok outcome) (set_x_data d2 (tick dt (set_x_data (x_data m) (set_x_queue q1 m)))))
    as (m3 & Hf & Hs3 & Hk & _ & Est & EB3).
  { split; [exact Hq1|]. cbn. apply (msgs_perm _ _ _ [reply; req]); [constructor|done]. }
  all: try done. { unfold ENVELOPE_SIZE in *. lia. } { change (tasks (board q1) !! Z.to_nat (ct_idx ct) = Some t). by rewrite EB1. }
  rewrite (run_fbind _ _ _ _ m3 Hf). exists m3. split; [reflexivity|]. split_and!; try done.
  - destruct Hh2 as (rest & E). exists rest. rewrite (Hk reply) by (by left). exact E.
  - rewrite EB3. change (put_task (ct_idx ct) (finished (is_ok outcome) t) (board q1) = put_task (ct_idx ct) (finished (is_ok outcome) t) (brd m)). by rewrite EB1.
Qed.
End serving.

Lemma claim_once_ok spin now_q park rounds w lease m i t :
  (forall qm, exists t, run now_q qm = Some (t, qm)) -> queue_ok q f0 m -> tasks (board m) !! i = Some t -> ts_state t = QUEUED ->
  (forall j u, tasks (board m) !! j = Some u -> ts_state u = QUEUED -> j = i) ->
  exists dl m', run (claim_once fuel w lease spin now_q park (S rounds)) m
      = Some (Some (mkClaimed (Z.of_nat i) (ts_seq t) w (ts_request t)), m') /\
    queue_ok q f0 m' /\ board m' = put_task (Z.of_nat i) (claimed_task w (Some dl) t) (board m).
Proof.
  intros Hnow Hq Hi Ht Hone. destruct (Hnow m) as [n Hn]. set (dl := wrap64 (n + lease)).
  destruct (claim_only q f0 0 0 work_n done_n Hw Hd m w (Some dl) i t Hq Hi Ht Hone) as (m' & Hrun & Hq' & EB).
  exists dl, m'. split; [|done]. assert (Htry : run (t0 <- now_q ;; claim_with_lease fuel w (wrap64 (t0 + lease))) m
    = Some (Some (Some (mkClaimed (Z.of_nat i) (ts_seq t) w (ts_request t))), m')) by (rewrite run_bind, Hn; exact Hrun).
  unfold claim_once, claim_blocking_with_lease, claim_blocking_with. destruct spin; cbn [loop].
  - unfold fbind at 1. rewrite run_bind. rewrite run_bind, Hn. rewrite (run_fbind _ _ _ _ m' Hrun). done.
  - unfold fbind at 1. rewrite run_bind, (run_fbind _ _ _ _ m' Htry). done.
Qed.

(** One turn of the mailbox on the only queued task, a request from [r]. *)
Lemma turn_ok {A : Type} (hosts : list (Z * Host (A := A))) outcome hosts' r schema body clock dt lease dl
    spin now_q park rounds w tid addr req reply i t B m :
  let env := ask_env r schema body clock reply in
  (forall m, run (route hosts env body 0) m = Some ((outcome, hosts'), tick dt m)) -> dt <= lease / 2 -> reply_wf outcome ->
  (forall qm, exists t, run now_q qm = Some (t, qm)) -> hosts <> [] -> x_stop m = false ->
  system_ok m [req; reply] -> is_message p req -> Z.of_nat ENVELOPE_SIZE <= len req -> is_message p reply -> REPLY_CHUNK_BYTES <= len reply ->
  holds_msg (x_data m) req env body -> good_msg env body ->
  (i < length (tasks B))%nat -> (forall t, t ∈ tasks B -> ts_state t <> QUEUED) ->
  brd m = put_task (Z.of_nat i) (fresh_task req dl t) B ->
  exists m' t', run (run_system fuel seg tid addr w lease done_n spin now_q park (S rounds) 1 hosts) m = Some (Some (Ok hosts'), m') /\
    system_ok m' [reply] /\ holds_msg (x_data m') reply (reply_env env outcome) (reply_body outcome) /\
    ts_seq t' = wrap64 (ts_seq t + 1) /\ brd m' = put_task (Z.of_nat i) (finished (is_ok outcome) t') B.
Proof.
  intros env Hroute Hdt Hwf Hnow Hne Hstop [Hq Hm] Hreq Hlq Hrep Hlr Hh Hg Hlt Hidle EB.
  set (t1 := fresh_task req dl t) in *.
  destruct (claim_once_ok spin now_q park rounds w lease (x_queue m) i t1 Hnow Hq) as (dl2 & q2 & Hcl & Hq2 & EB2).
  all: try (change (board (x_queue m)) with (brd m); rewrite EB).
  { cbn. rewrite Nat2Z.id. by apply list_lookup_insert_eq. }
  { done. }
  { intros j u. cbn. rewrite Nat2Z.id. destruct (decide (j = i)) as [->|Hji]; [done|].
    rewrite list_lookup_insert_ne by done. intros Hu Hst. exfalso. apply (Hidle u); [|done]. by eapply list_elem_of_lookup_2. }
  change (board (x_queue m)) with (brd m) in EB2. rewrite EB, put_task_twice in EB2.
  set (t2 := claimed_task w (Some dl2) t1) in *. set (ct := mkClaimed _ _ _ _) in Hcl.
  destruct (serve_ok hosts outcome hosts' env body dt lease Hroute Hdt Hwf tid addr req reply ct t2 (set_x_queue q2 m))
    as (m3 & Hsv & Hsys3 & Hh3 & _ & EB3); try done.
  { cbn. lia. }
  { change (tasks (board q2) !! Z.to_nat (ct_idx ct) = Some t2). rewrite EB2. cbn. rewrite Nat2Z.id. by apply list_lookup_insert_eq. }
  exists m3, t2. split_and!; try done.
  - unfold run_system. destruct hosts; [done|]. rewrite (run_fbind _ _ _ hosts' m3); [done|]. cbn [mailbox]. rewrite run_bind. cbn [stopped load act run].
    rewrite Hstop. rewrite (run_fq _ _ _ ct q2) by exact Hcl. by rewrite (run_fbind _ _ _ _ m3 Hsv).
  - rewrite EB3. change (brd (set_x_queue q2 m)) with (board q2). rewrite EB2. apply put_task_twice.
Qed.

(** ** The asker collects *)

Lemma await_ok spin park rounds h m o :
  queue_ok q f0 m -> 0 <= slot_idx h ->
  board_poll (board m) h = (match o with ODone r => Ok (SDone r) | OFailed => Ok SFailed | OCancelled => Ok SCancelled end) ->
  exists r m', run (await q spin park (S rounds) h) m = Some (Some (Ok r), m') /\ queue_ok q f0 m' /\ board m' = board m /\
    match o with ODone _ => exists d, r = ODone d | _ => r = o end.
Proof.
  intros Hq Hi Hp. destruct (poll_ok q f0 0 0 work_n done_n Hw Hd m h Hq Hi) as (m' & Hrun & Hq' & EB). rewrite Hp in Hrun.
  destruct o as [d| |], spin; unfold await, TaskQueue.wait; cbn [loop]; unfold fbind; rewrite ?run_bind, Hrun;
    eexists _, m'; (split; [reflexivity|]); split_and!; eauto.
Qed.

(** What the asker gets for an outcome of the handler. *)
Definition answered (env : Envelope) (outcome : result HolonError Reply) : result ActorError (Envelope * list Z) :=
  if is_ok outcome then Ok (reply_env env outcome, reply_body outcome) else Err XFailed.

Lemma collect_ok spin park rounds reply h env body outcome m :
  system_ok m [reply] -> is_message p reply -> REPLY_CHUNK_BYTES <= len reply -> good_msg env body -> reply_wf outcome ->
  holds_msg (x_data m) reply (reply_env env outcome) (reply_body outcome) -> 0 <= slot_idx h ->
  board_poll (brd m) h = (if is_ok outcome then Ok (SDone ZERO) else Ok SFailed) ->
  exists m', run (ask_collect fuel seg q spin park (S rounds) reply h (corr env)) m = Some (Some (answered env outcome), m') /\
    system_ok m' [] /\ brd m' = brd m.
Proof.
  intros [Hq Hm] Hmsg Hlen Hg Hwf Hh Hi Hp. unfold ask_collect.
  destruct (await_ok spin park rounds h (x_queue m) (if is_ok outcome then ODone ZERO else OFailed) Hq Hi) as (r & q1 & Hr & Hq1 & EB & Ho).
  { change (board (x_queue m)) with (brd m). rewrite Hp. by destruct (is_ok outcome). }
  rewrite (run_fq _ _ _ (Ok r) q1) by exact Hr.
  rewrite (run_bd _ _ _ (Ok (reply_env env outcome, reply_body outcome)) (x_data m)).
  2: { apply (read_message_ok p fl (x_data m) reply [reply]); try done; [by left|]. apply reply_env_good; [apply Hg|done]. }
  destruct (free_message_ok p fl f0 (x_data m) reply [] Hm) as (d2 & Hf & Hm2 & _).
  rewrite (run_fd _ _ _ (Ok tt) d2) by exact Hf. exists (set_x_data d2 (set_x_data (x_data m) (set_x_queue q1 m))). split; [|split; [by split|exact EB]].
  cbn [run done]. do 3 f_equal. destruct outcome as [[|b]|e]; cbn [is_ok] in Ho; [destruct Ho as [d ->]..|rewrite Ho]; cbn; by rewrite ?Z.eqb_refl.
Qed.
End turns.

(** ** The theorem *)

(** A new pool and a new queue. *)
Lemma fresh_system seg cfg base region_len cap limit f0 clock :
  cfg_ok cfg -> ideal_bytes cfg <= payload_len seg -> 0 < cap < U32_MOD -> is_power_of_two cap = true -> base mod 8 = 0 ->
  required_bytes cap <= region_len -> (Z.to_nat cap <= f0)%nat ->
  exists p d qm, create seg cfg = Ok (p, d) /\ init_with_max_retries base region_len cap limit = Ok (mkTaskQueue cap, qm) /\
    segment p = seg /\ let m := mkActorMem qm d clock false in
    system_ok p (all_free (classes d)) (mkTaskQueue cap) f0 m [] /\ forall t, t ∈ tasks (brd m) -> ts_state t <> QUEUED.
Proof.
  intros Hcfg Hfit Hcap Hpow Hbase Hreg Hf.
  destruct (create_ok seg cfg Hcfg Hfit) as (p & d & Hcr & Hseg & _ & _ & _ & _ & Hh & Hinv).
  destruct (init_ok base region_len cap limit Hcap Hpow Hbase Hreg) as (qm & Hi & _ & HS & EB & Ec).
  exists p, d, qm. split_and!; [done|done|done|]. intros m. split; [split|].
  - exists (core qm), (fresh_stacks cap), (seqZ 0 (lease_capacity cap)). split; [|by split].
    eapply (fresh_good cap limit); try done. lia.
  - split; [unfold Pool.attach; cbn [x_data m]; rewrite Hh; by destruct p|]. exists []. split; [by apply drawn_nil|constructor].
  - intros t. unfold brd. cbn [x_queue m]. rewrite EB. intros [i Ht]%list_elem_of_lookup.
    by apply lookup_replicate in Ht as [-> _].
Qed.

(** C23. An ask is answered.  Take an actor system whose queue and pool are in any consistent
    state, with nothing queued, and an asker with any body.  Sending either fails with the
    pool's or the queue's error, and then every chunk is back and the board unchanged, or it
    succeeds; then one turn of the mailbox, polling or parked, claims the message, routes it
    with exactly the envelope and body sent, and answers; and the asker, polling or parked,
    gets exactly the handler's reply under its correlation id, or [Failed] when the handler
    failed or no actor is named.  Afterwards every chunk is back in the pool and exactly one
    slot of the board has changed: one that was reusable and whose task is now over.  The
    handlers are any that only compute, in less than half a lease. *)
Theorem ask_round_trip {A : Type} p fl q f0 work_n done_n (hosts : list (Z * Host (A := A))) answer dt lease
    spin_w spin_a now_q park rounds worker wtid waddr atid aaddr r schema body m :
  notifier work_n -> notifier done_n -> is_u32 (seg_id (segment p)) ->
  system_ok p fl q f0 m [] -> (forall t, t ∈ tasks (brd m) -> ts_state t <> QUEUED) -> x_stop m = false ->
  ref_ok r -> is_u32 schema -> Forall is_u8 body -> Z.of_nat (length body) < U16_MOD ->
  (forall qm, exists t, run now_q qm = Some (t, qm)) -> hosts <> [] -> dt <= lease / 2 ->
  (forall reply, let env := ask_env r schema body (x_clock m) reply in
     reply_wf (answer env).1 /\ forall m', run (route hosts env body 0) m' = Some (answer env, tick dt m')) ->
  exists r' res m1, run (ask_send (S f0) (segment p) q atid aaddr work_n r schema body) m = Some (Some (r', res), m1) /\
    match res with
    | Err e => system_ok p fl q f0 m1 [] /\ brd m1 = brd m /\ (e = XShm PoolExhausted \/ e = XShm LayoutOverflow \/ e = XTask QueueFull)
    | Ok (reply, h, c) =>
        let env := ask_env r schema body (x_clock m) reply in
        r' = mkActorRef (r_to r) (r_from r) (wrap64 (r_corr r + 1)) /\ c = r_corr r /\
        exists m2 m3,
          run (run_system (S f0) (segment p) wtid waddr worker lease done_n spin_w now_q park (S rounds) 1 hosts) m1
            = Some (Some (Ok (answer env).2), m2) /\
          run (ask_collect (S f0) (segment p) q spin_a park (S rounds) reply h c) m2 = Some (Some (answered env (answer env).1), m3) /\
          system_ok p fl q f0 m3 [] /\
          exists i t t', tasks (brd m) !! i = Some t /\ live t = false /\ terminal t' = true /\
            brd m3 = put_task (Z.of_nat i) t' (brd m)
    end.
Proof.
  intros Hw Hd Hseg Hsys Hidle Hstop Hr Hs Hb Hl Hnow Hne Hdt Hroute.
  destruct (ask_send_ok p fl q f0 work_n done_n Hw Hd Hseg atid aaddr r schema body m Hsys Hr Hs Hb Hl)
    as (r' & res & m1 & Hrun & Ec & Est & Hres).
  exists r', res, m1. split; [exact Hrun|]. destruct res as [[[reply h] c]|e]; [|done].
  destruct Hres as (-> & -> & Hrep & Hlr & req & i & t & [Hq1 Hm1] & Hreq & Hlq & Hh & Hi & Hlive & -> & EB).
  intros env. split_and!; [done|done|]. pose proof (lookup_lt_Some _ _ _ Hi) as Hlt.
  assert (Hg : good_msg env body).
  { destruct (msgs_bounds _ _ _ _ reply Hm1 ltac:(by right; left)) as (_ & _ & _ & Ho & _). apply ask_env_good; try done. by rewrite (proj1 Hrep). }
  destruct (Hroute reply) as [Hwfe Hrt]. fold env in Hwfe, Hrt. destruct (answer env) as [outcome hosts']. cbn [fst snd] in *.
  destruct (turn_ok p fl q f0 work_n done_n Hw Hd Hseg hosts outcome hosts' r schema body (x_clock m) dt lease (wrap64 (x_clock m + SUBMIT_HORIZON))
    spin_w now_q park rounds worker wtid waddr req reply i t (brd m) m1) as (m2 & t2 & Hrun2 & Hsys2 & Hh2 & Esq & EB2); try done.
  { by rewrite Est. }
  destruct (collect_ok p fl q f0 work_n done_n Hw Hd spin_a park rounds reply (mkHandle (Z.of_nat i) (wrap64 (ts_seq t + 1)))
    env body outcome m2) as (m3 & Hrun3 & Hsys3 & EB3); try done.
  { cbn. lia. }
  { rewrite EB2. unfold board_poll. rewrite put_task_poll; try done; by destruct outcome. }
  exists m2, m3. split_and!; try done. exists i, t, (finished (is_ok outcome) t2). split_and!; try done; [by destruct outcome|congruence].
Qed.

(** An actor that adds up the bytes it is sent, taking five nanoseconds. *)
Definition adder : handler (A := Z) := fun total env body cx =>
  act (fun m => Some (tt, tick 5 m)) ;;;
  Ret (let? b := InlineBody_new 1002 [wrap8 (foldr Z.add 0 body)] in Ok (RInline b), total + foldr Z.add 0 body).

Definition demo_host : Host (A := Z) := mkHost 0 (actor_dispatch [1001] adder).
Definition demo_hosts : list (Z * Host (A := Z)) := match spawn [] [97] demo_host with Ok (_, hs) => hs | Err _ => [] end.
Definition demo_ref : ActorRef := actor_ref_new 7 (ActorId_named [97]).
Definition demo_answer (env : Envelope) : result HolonError Reply * list (Z * Host (A := Z)) :=
  ((let? b := InlineBody_new 1002 [6] in Ok (RInline b)), [(ActorId_named [97], mkHost 6 (h_dispatch demo_host))]).

Lemma ask_round_trip_witness :
  exists p d qm r' reply h m1 m2 m3 env, create demo_seg demo_cfg = Ok (p, d) /\
    init_with_max_retries 0 (required_bytes 8) 8 3 = Ok (mkTaskQueue 8, qm) /\
    run (ask_send 9 (segment p) (mkTaskQueue 8) 0 4096 (Ret tt) demo_ref 1001 [1; 2; 3]) (mkActorMem qm d 100 false)
      = Some (Some (r', Ok (reply, h, 1)), m1) /\
    run (run_system 9 (segment p) 1 8192 5 20 (Ret tt) false (Ret 100) (Ret tt) 1 1 demo_hosts) m1
      = Some (Some (Ok [(ActorId_named [97], mkHost 6 (h_dispatch demo_host))]), m2) /\
    run (ask_collect 9 (segment p) (mkTaskQueue 8) true (Ret tt) 1 reply h 1) m2 = Some (Some (Ok (env, [6])), m3).
Proof.
  destruct (fresh_system demo_seg demo_cfg 0 (required_bytes 8) 8 3 8 100 demo_cfg_ok) as (p & d & qm & Hcr & Hi & Hseg & Hsys & Hidle);
    [vm_compute; discriminate|done|reflexivity|reflexivity|lia|lia|].
  destruct (ask_round_trip p _ (mkTaskQueue 8) 8 (Ret tt) (Ret tt) demo_hosts demo_answer 5 20 false true (Ret 100) (Ret tt) 0 5 1 8192 0 4096
    demo_ref 1001 [1; 2; 3] _ silent_notifier silent_notifier ltac:(rewrite Hseg; vm_compute; split; congruence) Hsys Hidle eq_refl)
    as (r' & res & m1 & Hrun & Hres); try done.
  { repeat constructor; mach. }
  { eauto. }
  { intros reply env. split; [|intros [? ? ? ?]; reflexivity]. split_and!; apply (bool_decide_unpack _); vm_compute; exact I. }
  destruct res as [[[reply h] c]|e].
  - destruct Hres as (_ & -> & m2 & m3 & H2 & H3 & _). exists p, d, qm, r', reply, h, m1, m2, m3. eexists. split_and!; try done. exact H3.
  - exfalso. clear Hres Hsys Hidle Hseg. vm_compute in Hcr, Hi. injection Hcr as <- <-. injection Hi as <-. vm_compute in Hrun. discriminate.
Defined.
