(* ===== verification/ActorRace.v ===== *)
(** * A handler that outlives its lease

    [complete] does not look at who holds the claim, so a handler whose lease lapsed can
    finish a message that was redelivered in the meantime, and the mailbox then frees the
    request chunk under the new holder.  One schedule shows what follows for a tell, which
    has no time fence; a sequential run shows the chunk no one frees. *)

From S2P Require Import Prelude Atomic Pod ChunkDesc Envelope ChunkCtrl Pool TaskQueue Actors.

#[local] Open Scope prog_scope.

(** ** The scene: one actor, hosted by two processes *)

Definition race_seg : Segment := mkSegment 9 4096.
Definition race_queue : TaskQueue := mkTaskQueue 4.

Definition race_mem (retries : Z) : ActorMem :=
  mkActorMem
    (match init_with_max_retries 0 (required_bytes 4) 4 retries with
     | Ok (_, m) => m
     | Err _ => mkQueueMem 0 0 0 0 0 0 0 0 0 [] [] [] [] ∅
     end)
    (match Pool.create race_seg [mkSizeClass 256 4] with
     | Ok (_, m) => m
     | Err _ => mkPoolMem (mkPoolHeader 0 0 0 0 0) [] [] ∅
     end) 0 false.

(** The actor notes the bodies it is sent; the handler takes a step of its own. *)
Definition note : handler (A := list (list Z)) := fun seen env body cx =>
  act (fun m : ActorMem => Some (tt, m)) ;;; Ret (Ok RNone, seen ++ [body]).

Definition race_name : list Z := [97].
Definition race_hosts : list (Z * Host (A := list (list Z))) :=
  match spawn [] race_name (mkHost [] (actor_dispatch [1001] note)) with Ok (_, hs) => hs | Err _ => [] end.

Abbreviation thread := (prog ActorMem (list (list Z))).

(** A mailbox of [turns] turns; the bodies its actor has seen.  Its clock shows [t]. *)
Definition hosting_process (w t : Z) (turns : nat) : thread :=
  r <- run_system 8 race_seg (Z.to_nat w) 4096 w 100 (Ret tt) true (Ret t) (Ret tt) 1 turns race_hosts ;;
  Ret (match r with Some (Ok ((_, h) :: _)) => h_actor h | _ => [] end).

Definition telling (body : list Z) : thread :=
  _ <- tell 8 race_seg race_queue 7 4096 (Ret tt) (actor_ref_new 7 (ActorId_named race_name)) 1001 body ;; Ret [].

Definition reaping (t : Z) : thread := _ <- on_q (reap race_queue 8 9 4096 (Ret tt) (Ret tt) t) ;; Ret [].

(** ** The wrong message *)

(** Process 1 claims A and is in its handler when its lease lapses; the reaper requeues A and
    process 2 claims it; process 1's handler returns; B is told; process 2 goes on, then
    process 1 takes its next turn. *)
Definition late_schedule : list nat :=
  replicate 35 2%nat ++ replicate 15 0%nat ++ replicate 15 4%nat ++ replicate 15 1%nat ++ replicate 16 0%nat ++
  replicate 33 3%nat ++ replicate 6 1%nat ++ replicate 29 0%nat.

Definition late_threads : list thread :=
  [hosting_process 1 0 2; hosting_process 2 200 1; telling [65]; telling [66]; reaping 200].

Definition late_end : list thread * ActorMem := pool_after late_schedule (late_threads, race_mem 3).

Lemma late_end_reach : pool_reach (late_threads, race_mem 3) (late_end.1, late_end.2).
Proof. unfold late_end. apply pool_after_reach. Qed.

(** C27. A redelivered tell can turn into another message.  Two processes host one actor.
    Message A is told, process 1 claims it and overruns its lease, the reaper requeues A and
    process 2 claims it.  Process 1's handler then returns: its [complete] succeeds, since
    only the sequence number and the state of the slot are checked, and the mailbox frees A's
    request chunk, which B's sender is given next.  Process 2 reads its request and gets B.
    There is an interleaving in which the actor of process 1 has seen A and B and the actor
    of process 2 has seen B: B, told once and never redelivered, is handled twice, and the
    claim process 2 held was for A.  In the end both tasks are done; only A was requeued. *)
Theorem late_tell_delivers_another_message :
  exists m, pool_reach (late_threads, race_mem 3) ([Ret [[65]; [66]]; Ret [[66]]; Ret []; Ret []; Ret []], m) /\
    (fun t => (ts_state t, ts_retry t)) <$> slots (x_queue m) = [(DONE, 1); (DONE, 0); (EMPTY, 0); (EMPTY, 0)].
Proof.
  assert (Hret : late_end.1 = [Ret [[65]; [66]]; Ret [[66]]; Ret []; Ret []; Ret []]) by (vm_compute; reflexivity).
  exists late_end.2. rewrite <- Hret. split; [exact late_end_reach|vm_compute; reflexivity].
Qed.

(** ** The chunk no one frees *)

(** A claim whose holder dies. *)
Definition dying : thread := _ <- on_q (claim_once 8 1 100 true (Ret 0) (Ret tt) 1) ;; Ret [].

(** A message whose claims all lapse is failed by the reaper, which does not know of request
    chunks: nothing is queued or claimed any more and one chunk of the pool is gone. *)
Lemma abandoned_request_is_never_freed : exists m,
  run (telling [65] ;;; dying ;;; reaping 200) (race_mem 0) = Some ([], m) /\
  (fun t => ts_state t) <$> slots (x_queue m) = [FAILED; EMPTY; EMPTY; EMPTY] /\
  exists p d, Pool.create race_seg [mkSizeClass 256 4] = Ok (p, d) /\
    run (free_count 8 0) d = Some (Some 4, d) /\ run (free_count 8 0) (x_data m) = Some (Some 3, x_data m).
Proof.
  exists (match run (telling [65] ;;; dying ;;; reaping 200) (race_mem 0) with Some (_, m) => m | None => race_mem 0 end).
  split; [vm_compute; reflexivity|]. split; [vm_compute; reflexivity|]. eexists _, _. split; [vm_compute; reflexivity|].
  split; vm_compute; reflexivity.
Qed.
