(* ===== verification/Hooks.v ===== *)
(** * Wake-up hooks

    [src/crates/shm-ring/src/hooks.rs] over the doorbells and futexes of
    [src/crates/shm-core/src/platform.rs] and [platform_linux.rs]: what a publisher calls to
    wake parked subscribers and what a subscriber calls to sleep.

    The kernel's part is an interface: a doorbell (a pipe or an eventfd) that is readable or
    not and on which processes sleep in [poll], and the wait queue of a futex word.  A sleep
    is two actions, entering it and returning; a return may come at any time, which is the
    timeout or a signal. *)

From S2P Require Import Prelude Atomic ChunkDesc Ring.

#[local] Open Scope prog_scope.

(** ** The kernel *)

(** [write(2)] on the write end; [poll(2)] on the read end by process [i], entered and left,
    the latter telling whether the end is readable; reading it empty. *)
Class Doorbell (K : Type) := {
  bell_write : K -> K;
  bell_enter : nat -> K -> K;
  bell_leave : nat -> K -> K;
  bell_drain : K -> K;
  bell_readable : K -> bool;
  bell_asleep : nat -> K -> bool
}.

(** [FUTEX_WAIT] once the word was found to hold the expected value, its return, and
    [FUTEX_WAKE] of every waiter. *)
Class Futex (K : Type) := {
  futex_enter : nat -> K -> K;
  futex_leave : nat -> K -> K;
  futex_wake_all : K -> K;
  futex_asleep : nat -> K -> bool
}.

(** What POSIX says of a level-triggered descriptor: a write makes it readable, or finds it
    full and so readable, and wakes every process that polls it; no process sleeps on a
    readable one. *)
Class DoorbellLaws (K : Type) `{Doorbell K} := {
  write_readable k : bell_readable (bell_write k) = true;
  write_wakes i k : bell_asleep i (bell_write k) = false;
  enter_readable i k : bell_readable (bell_enter i k) = bell_readable k;
  enter_sleeps i k : bell_asleep i (bell_enter i k) = negb (bell_readable k);
  leave_readable i k : bell_readable (bell_leave i k) = bell_readable k;
  leave_wakes i k : bell_asleep i (bell_leave i k) = false;
  drain_asleep i k : bell_asleep i (bell_drain k) = bell_asleep i k;
  asleep_unreadable i k : bell_asleep i k = true -> bell_readable k = false
}.

(** ** A ring, a doorbell and a position

    [w_pos] is the subscriber's own record of how far it has read. *)
Record WakeMem (K : Type) : Type := mkWake { w_ring : RingMem; w_bell : K; w_pos : Z }.
Arguments mkWake {K} w_ring w_bell w_pos.
Arguments w_ring {K} w.
Arguments w_bell {K} w.
Arguments w_pos {K} w.

Section hooks.
Context {K : Type}.

Definition set_w_ring (r : RingMem) (m : WakeMem K) : WakeMem K := mkWake r (w_bell m) (w_pos m).
Definition set_w_bell (k : K) (m : WakeMem K) : WakeMem K := mkWake (w_ring m) k (w_pos m).
Definition set_w_pos (c : Z) (m : WakeMem K) : WakeMem K := mkWake (w_ring m) (w_bell m) c.

Definition on_ring {A} (p : prog RingMem A) : prog (WakeMem K) A := lift (field w_ring set_w_ring) p.
Definition on_bell {A} (p : prog K A) : prog (WakeMem K) A := lift (field w_bell set_w_bell) p.

(** ** Doorbells *)

Definition noop_notify : prog (WakeMem K) unit := Ret tt.
Definition yield_park : prog (WakeMem K) unit := Ret tt.

Context `{Doorbell K}.

Definition doorbell_ring : prog K unit := store bell_write.
Definition drain_doorbell : prog K unit := store bell_drain.

(** Whether the doorbell was rung. *)
Definition doorbell_park (i : nat) : prog K bool :=
  store (bell_enter i) ;;;
  readable <- act (fun k => Some (bell_readable k, bell_leave i k)) ;;
  (if readable : bool then drain_doorbell else Ret tt) ;;;
  Ret readable.

Definition doorbell_notify : prog (WakeMem K) unit := on_bell doorbell_ring.
Definition doorbell_park_hook (i : nat) : prog (WakeMem K) unit := on_bell (_ <- doorbell_park i ;; Ret tt).

(** ** Futexes *)

Context `{Futex K}.

(** The kernel compares the word and enqueues the caller in one step. *)
Definition futex_wait (i : nat) (expected : Z) : prog (WakeMem K) unit :=
  slept <- act (fun m =>
    if Ring.doorbell_seq (w_ring m) =? expected then Some (true, set_w_bell (futex_enter i (w_bell m)) m) else Some (false, m)) ;;
  if slept : bool then on_bell (store (futex_leave i)) else Ret tt.
Definition futex_wake : prog (WakeMem K) unit := on_bell (store futex_wake_all).

Definition set_doorbell_seq (v : Z) (m : RingMem) : RingMem :=
  mkRingMem (magic m) (r_capacity m) (r_mask m) (head m) (waiters m) v (reliable m) (slots m).

Definition futex_notify : prog (WakeMem K) unit :=
  _ <- on_ring (fetch_add32 Ring.doorbell_seq set_doorbell_seq 1) ;; futex_wake.
Definition futex_park (i : nat) : prog (WakeMem K) unit :=
  observed <- on_ring (load Ring.doorbell_seq) ;; futex_wait i observed.
End hooks.

(** ** A publisher and a subscriber that sleeps *)

Section threads.
Context {K : Type} (r : Ring) (notify park : prog (WakeMem K) unit).

Fixpoint waking_publisher (ds : list ChunkDesc) : prog (WakeMem K) unit :=
  match ds with
  | [] => Ret tt
  | d :: ds' => publisher_publish_on r (fun _ p => on_ring p) notify d ;;; waking_publisher ds'
  end.

(** Receives [n] times and notes its cursor after each. *)
Fixpoint consumer (fuel n : nat) (s : Subscriber) : prog (WakeMem K) unit :=
  match n with
  | O => Ret tt
  | S n' =>
      x <- recv_on r (fun _ p => on_ring p) park fuel s ;;
      match x with
      | None => Ret tt
      | Some (_, s') => store (set_w_pos (cursor s')) ;;; consumer fuel n' s'
      end
  end.
End threads.

(** ** A publisher whose stores are buffered

    [publish] stores the head with [Release] and then loads [waiters] with [Acquire].  Neither
    ordering keeps the load behind the store: on x86 both are plain moves, and the processor
    performs the load while its own stores still wait in its store buffer, from which they
    reach the memory in order and at any later time.  (The subscriber registers with an
    atomic read-modify-write, which waits for nothing here: its own stores do not matter.)
    [publish_buffered] is [publish] with that buffer; entering the kernel empties it. *)

Inductive BufferedStore : Set :=
| BDesc (i : nat) (d : ChunkDesc)
| BSeq (i : nat) (q : Z)
| BHead (h : Z).

Definition store_program (b : BufferedStore) : prog RingMem unit :=
  match b with
  | BDesc i d => write_desc i d
  | BSeq i q => write_seq i q
  | BHead h => store (set_head h)
  end.

Fixpoint last_head (buf : list BufferedStore) (h : Z) : Z :=
  match buf with
  | [] => h
  | BHead h' :: buf' => last_head buf' h'
  | _ :: buf' => last_head buf' h
  end.

(** The stores of [buf] performed, in order. *)
Fixpoint flushed (buf : list BufferedStore) (m : RingMem) : option RingMem :=
  match buf with
  | [] => Some m
  | b :: buf' => match run (store_program b) m with Some (_, m') => flushed buf' m' | None => None end
  end.

Record BufMem (K : Type) : Type := mkBufMem { b_mem : WakeMem K; b_buf : list BufferedStore }.
Arguments mkBufMem {K} b_mem b_buf.
Arguments b_mem {K} b.
Arguments b_buf {K} b.

Section buffered.
Context {K : Type} (r : Ring).
Abbreviation BM := (BufMem K).

Definition set_b_mem (m : WakeMem K) (b : BM) : BM := mkBufMem m (b_buf b).
Definition shared {A} (p : prog (WakeMem K) A) : prog BM A := lift (field b_mem set_b_mem) p.

Definition buffer (s : BufferedStore) : prog BM unit := store (fun b => mkBufMem (b_mem b) (b_buf b ++ [s])).

(** The publisher's own load of the head sees its own store. *)
Definition load_own_head : prog BM Z := load (fun b => last_head (b_buf b) (head (w_ring (b_mem b)))).

Definition publish_buffered (d : ChunkDesc) : prog BM bool :=
  q <- load_own_head ;;
  buffer (BDesc (slot_idx r q) d) ;;;
  buffer (BSeq (slot_idx r q) q) ;;;
  buffer (BHead (wrap64 (q + 1))) ;;;
  w <- load (fun b => waiters (w_ring (b_mem b))) ;;
  Ret (0 <? w).

(** [n] stores leave the buffer, whenever it holds one. *)
Definition drain : prog BM unit :=
  act (fun b => match b_buf b with
    | [] => Some (tt, b)
    | s :: buf => match run (store_program s) (w_ring (b_mem b)) with
                  | Some (_, m) => Some (tt, mkBufMem (set_w_ring m (b_mem b)) buf)
                  | None => None
                  end
    end).
Fixpoint draining (n : nat) : prog BM unit := match n with O => Ret tt | S n' => drain ;;; draining n' end.

(** A system call: the buffer is emptied first. *)
Definition fence : prog BM unit :=
  act (fun b => match flushed (b_buf b) (w_ring (b_mem b)) with
    | Some m => Some (tt, mkBufMem (set_w_ring m (b_mem b)) [])
    | None => None
    end).

Definition publisher_publish_buffered (notify : prog (WakeMem K) unit) (d : ChunkDesc) : prog BM unit :=
  parked <- publish_buffered d ;;
  if parked : bool then fence ;;; shared notify else Ret tt.
End buffered.

(** ** A kernel

    One counter and the processes asleep on it. *)
Record SimBell : Set := mkSimBell { sb_count : nat; sb_asleep : gset nat }.

Definition sb_readable (k : SimBell) : bool := match sb_count k with O => false | S _ => true end.

#[export] Instance sim_bell : Doorbell SimBell := {|
  bell_write k := mkSimBell (S (sb_count k)) ∅;
  bell_enter i k := if sb_readable k then k else mkSimBell (sb_count k) ({[i]} ∪ sb_asleep k);
  bell_leave i k := mkSimBell (sb_count k) (sb_asleep k ∖ {[i]});
  bell_drain k := mkSimBell 0 (if sb_readable k then ∅ else sb_asleep k);
  bell_readable := sb_readable;
  bell_asleep i k := negb (sb_readable k) && bool_decide (i ∈ sb_asleep k)
|}.

#[export] Instance sim_bell_laws : DoorbellLaws SimBell.
Proof.
  split; intros.
  all: destruct k as [[|n] as_]; cbn; try done; rewrite ?bool_decide_eq_true, ?bool_decide_eq_false; set_solver.
Qed.

#[export] Instance sim_futex : Futex SimBell := {|
  futex_enter i k := mkSimBell (sb_count k) ({[i]} ∪ sb_asleep k);
  futex_leave i k := mkSimBell (sb_count k) (sb_asleep k ∖ {[i]});
  futex_wake_all k := mkSimBell (sb_count k) ∅;
  futex_asleep i k := bool_decide (i ∈ sb_asleep k)
|}.
