(* ===== verification/HooksProof.v ===== *)
(** * Wakeups, kept and lost

    A publisher that rings a doorbell when somebody waits, and a subscriber that registers,
    looks again and then sleeps.  If the publisher's store of the head is visible before it
    looks for waiters, then in no interleaving does the subscriber sleep while there is
    something to read and nobody about to wake it ([no_lost_wakeup]); the doorbell is any
    that satisfies the laws of [Hooks].  The orderings in [publish] do not ensure that: with
    the store still in the publisher's store buffer the wakeup is lost, and the subscriber
    sleeps until its timeout ([buffered_publish_loses_wakeup]).  The timeout is also needed
    with two subscribers on one doorbell, and with the futex hooks. *)

From S2P Require Import Prelude Atomic RelyGuarantee Pod ChunkDesc Ring Hooks.

#[local] Open Scope prog_scope.

(** What the publisher is about to do: nothing, look for waiters, ring. *)
Inductive pub_phase : Set := PIdle | PStored | PRings.

(** The publisher has published [k] messages; the subscriber, standing at [pos], is
    registered as a waiter, and has seen nothing to read since. *)
Inductive wghost : Set := GP (k : nat) (ph : pub_phase) | GS (reg seen_empty : bool) (pos : Z).

Section proof.
Context {K : Type} `{DoorbellLaws K}.

Definition wake_inv (m : WakeMem K) (gs : list wghost) : Prop :=
  exists k ph reg pr pos, gs = [GP k ph; GS reg pr pos] /\
    head (w_ring m) = Z.of_nat k /\ waiters (w_ring m) = (if reg then 1 else 0) /\ w_pos m = pos /\
    (pr = true -> reg = true) /\ (pr = true -> Z.of_nat k <= pos \/ ph <> PIdle \/ bell_readable (w_bell m) = true) /\
    (bell_asleep 0 (w_bell m) = true -> pr = true).

#[local] Abbreviation RG := (rg wake_inv (fun _ _ => True)).

(** Ring accesses that neither publish nor register. *)
Fixpoint calm {X} (p : prog RingMem X) : Prop :=
  match p with
  | Ret _ => True
  | Atomic f k => (forall s r s', f s = Some (r, s') -> head s' = head s /\ waiters s' = waiters s) /\ forall r, calm (k r)
  end.

Lemma on_ring_step {R : Set} (f : RingMem -> option (R * RingMem)) (m m' : WakeMem K) r :
  field w_ring set_w_ring R f m = Some (r, m') -> exists s, f (w_ring m) = Some (r, s) /\ m' = set_w_ring s m.
Proof. unfold field. destruct (f (w_ring m)) as [[r' s]|]; [|done]. intros E. simplify_eq. eauto. Qed.

Lemma on_bell_step {R : Set} (f : K -> option (R * K)) (m m' : WakeMem K) r :
  field w_bell set_w_bell R f m = Some (r, m') -> exists s, f (w_bell m) = Some (r, s) /\ m' = set_w_bell s m.
Proof. unfold field. destruct (f (w_bell m)) as [[r' s]|]; [|done]. intros E. simplify_eq. eauto. Qed.

Lemma rg_calm {X} (p : prog RingMem X) i g (Q : X -> wghost -> Prop) : calm p -> (forall a, Q a g) -> RG (on_ring p) i g Q.
Proof.
  intros Hc HQ. induction p as [a|R f k IH]; cbn; [apply HQ|]. destruct Hc as [Hf Hk].
  intros m gs r m' Hg HI (s & E & ->)%on_ring_step. split; [done|]. exists g. split; [|by apply IH].
  rewrite list_insert_id by done. destruct (Hf _ _ _ E) as [Eh Ew].
  destruct HI as (k' & ph & reg & pr & pos & -> & HI). exists k', ph, reg, pr, pos. cbn. by rewrite Eh, Ew.
Qed.

Lemma calm_bind {X Y} (p : prog RingMem X) (k : X -> prog RingMem Y) : calm p -> (forall a, calm (k a)) -> calm (pbind p k).
Proof. intros Hp Hk. induction p as [a|R f k' IH]; cbn; [apply Hk|]. destruct Hp as [Hf Hp]. split; [done|]. intros r. by apply IH. Qed.

Lemma calm_slot {R : Set} i (f : Slot -> R * Slot) : calm (with_slot i f).
Proof.
  split; [|done]. intros s r s'. destruct (slots s !! i) as [x|]; [|done]. destruct (f x) as [a b]. intros E. by simplify_eq.
Qed.

Lemma rg_on_bind {X Y} (p : prog RingMem X) (k : X -> prog RingMem Y) i g Q :
  RG (on_ring p) i g (fun a g' => RG (on_ring (k a)) i g' Q) -> RG (on_ring (pbind p k)) i g Q.
Proof.
  revert g. induction p as [a|R f k' IH]; intros g; cbn; [done|].
  intros Hp s gs r s' Hg HI E. destruct (Hp s gs r s' Hg HI E) as (HG & g' & HI' & Hk). eauto.
Qed.

Lemma rg_calm_bind {X Y} (p : prog RingMem X) (k : X -> prog RingMem Y) i g Q :
  calm p -> (forall a, RG (on_ring (k a)) i g Q) -> RG (on_ring (pbind p k)) i g Q.
Proof. intros Hp Hk. apply rg_on_bind. by apply rg_calm. Qed.

(** ** The publisher *)

Lemma rg_publish r d k : Z.of_nat k < U64_MAX ->
  RG (publisher_publish_on r (fun _ p => on_ring p) doorbell_notify d) 0 (GP k PIdle) (fun _ g => g = GP (S k) PIdle).
Proof.
  intros Hk. unfold publisher_publish_on, publish, load_head. apply rg_bind. cbn [pbind load act on_ring lift rg].
  intros m0 gs0 q m0' Hg HI (s & E & ->)%on_ring_step. simplify_eq.
  destruct HI as (k' & ph & reg & pr & pos & -> & Eh & HI). csimpl in Hg. simplify_eq.
  split; [done|]. exists (GP k PIdle). split; [by exists k, PIdle, reg, pr, pos|]. rewrite Eh.
  clear m0 reg pr pos HI Eh. apply rg_calm_bind; [apply calm_slot|]. intros _. apply rg_calm_bind; [apply calm_slot|]. intros _.
  cbn [pbind store act on_ring lift rg]. intros m gs [] m' Hg HI (s & E & ->)%on_ring_step. simplify_eq.
  destruct HI as (k' & ph & reg & pr & pos & -> & Eh & Ew & Ep & Hr & Hpr & Has). csimpl in Hg. simplify_eq.
  split; [done|]. exists (GP (S k) PStored). split.
  { exists (S k), PStored, reg, pr, (w_pos m). split_and!; try done; [cbn; rewrite wrap64_id by mach; lia|by right; left]. }
  clear m reg pr Eh Ew Hr Hpr Has. intros m gs w m' Hg HI (s & E & ->)%on_ring_step. simplify_eq.
  destruct HI as (k' & ph & reg & pr & pos & -> & Eh & Ew & Ep & Hr & Hpr & Has). csimpl in Hg. simplify_eq.
  split; [done|]. rewrite Ew. destruct reg.
  - exists (GP (S k) PRings). split; [exists (S k), PRings, true, pr, (w_pos m); split_and!; try done; by right; left|].
    cbn. clear m pr Eh Ew Hr Hpr Has. intros m gs [] m' Hg HI E. simplify_eq.
    destruct HI as (k' & ph & reg & pr & pos & -> & Eh & Ew & Ep & Hr & Hpr & Has). csimpl in Hg. simplify_eq.
    split; [done|]. exists (GP (S k) PIdle). split; [|done]. exists (S k), PIdle, reg, pr, (w_pos m). cbn. rewrite write_wakes. split_and!; try done.
    intros _. right. right. apply write_readable.
  - exists (GP (S k) PIdle). split; [|done]. exists (S k), PIdle, false, pr, (w_pos m). split_and!; try done. intros Hx. by specialize (Hr Hx).
Qed.

Lemma rg_publisher r ds k : Z.of_nat (k + length ds) < U64_MAX ->
  RG (waking_publisher r doorbell_notify ds) 0 (GP k PIdle) (fun _ g => g = GP (k + length ds) PIdle).
Proof.
  revert k. induction ds as [|d ds IH]; intros k Hk; cbn [waking_publisher rg length] in *; [by rewrite Nat.add_0_r|].
  apply rg_bind. eapply rg_mono; [|apply rg_publish; lia]. intros _ g ->. rewrite <- Nat.add_succ_comm. apply IH. lia.
Qed.

(** ** The subscriber *)

Ltac sub_step :=
  match goal with
  | HI : wake_inv _ ?gs, Hg : ?gs !! 1%nat = Some _ |- _ =>
      destruct HI as (k & ph & reg' & pr' & pos' & -> & Eh & Ew & Ep & Hr & Hpr & Has); csimpl in Hg; simplify_eq
  end.

Lemma rg_read_at r reg pos :
  RG (on_ring (read_at r pos)) 1 (GS reg false pos) (fun o g => g = match o with OEmpty => GS reg reg pos | _ => GS reg false pos end).
Proof.
  unfold read_at, load_head. cbn [pbind load act on_ring lift rg].
  intros m gs h m' Hg HI (s & E & ->)%on_ring_step. simplify_eq. sub_step. split; [done|]. rewrite Eh.
  destruct (Z.leb_spec (Z.of_nat k) (w_pos m)) as [Hle|Hlt].
  { exists (GS reg reg (w_pos m)). split; [|done]. exists k, ph, reg, reg, (w_pos m). split_and!; try done; [by left|]. intros Ha. by specialize (Has Ha). }
  exists (GS reg false (w_pos m)). split; [by exists k, ph, reg, false, (w_pos m)|].
  destruct (capacity r <? Z.of_nat k - w_pos m); [done|].
  assert (Hlag : forall c (Q : ReadOutcome -> wghost -> Prop) g, (forall a b, Q (OLagged a b) g) -> RG (on_ring (lag_from_head r c)) 1 g Q).
  { clear. intros c Q g HQ. unfold lag_from_head. apply rg_calm_bind; [|intros h; apply HQ].
    split; [|done]. intros s a s'. case_match; [done|]. intros E. by simplify_eq. }
  apply rg_calm_bind; [apply calm_slot|]. intros q. destruct (negb _); [by apply Hlag|].
  apply rg_calm_bind; [apply calm_slot|]. intros d. apply rg_calm_bind; [apply calm_slot|]. intros q'.
  destruct (negb _); [by apply Hlag|done].
Qed.

Lemma calm_sync s : calm (sync_reliable s).
Proof.
  unfold sync_reliable. destruct (s_reliable s) as [i|]; [|done]. split; [|done]. intros m a m'. unfold reliable_cell, elem.
  destruct (reliable m !! i); [|done]. cbn. intros E. by simplify_eq.
Qed.

Lemma rg_try_recv r reg s :
  RG (on_ring (try_recv r s)) 1 (GS reg false (cursor s)) (fun x g => g = match x.1 with None => GS reg reg (cursor s) | Some _ => GS reg false (cursor s) end).
Proof.
  unfold try_recv. apply rg_on_bind. eapply rg_mono; [|apply rg_read_at].
  intros [d|a b|] g ->; [apply rg_calm_bind; [apply calm_sync|done]..|done].
Qed.

(** Registering and leaving again. *)
Lemma rg_add_waiter pos (Q : Z -> wghost -> Prop) : (forall a, Q a (GS true false pos)) -> RG (on_ring add_waiter) 1 (GS false false pos) Q.
Proof.
  intros HQ m gs w m' Hg HI (s & E & ->)%on_ring_step. cbn in E. simplify_eq. sub_step. split; [done|]. exists (GS true false (w_pos m)).
  split; [|apply HQ]. exists k, ph, true, false, (w_pos m). split_and!; try done. cbn. by rewrite Ew.
Qed.

Lemma rg_remove_waiter pos (Q : Z -> wghost -> Prop) : (forall a, Q a (GS false false pos)) -> RG (on_ring remove_waiter) 1 (GS true false pos) Q.
Proof.
  intros HQ m gs w m' Hg HI (s & E & ->)%on_ring_step. cbn in E. simplify_eq. sub_step. split; [done|]. exists (GS false false (w_pos m)).
  split; [|apply HQ]. exists k, ph, false, false, (w_pos m). split_and!; try done. cbn. by rewrite Ew.
Qed.

Lemma rg_park pos : RG (doorbell_park_hook 0) 1 (GS true true pos) (fun _ g => g = GS true false pos).
Proof.
  unfold doorbell_park_hook, doorbell_park. cbn [pbind store act on_bell lift rg].
  intros m gs [] m' Hg HI (b & E & ->)%on_bell_step. simplify_eq. sub_step. split; [done|]. exists (GS true true (w_pos m)). split.
  { exists k, ph, true, true, (w_pos m). cbn. rewrite enter_readable. by split_and!. }
  generalize (w_pos m). clear - H0. intros pos m gs readable m' Hg HI (b & E & ->)%on_bell_step. simplify_eq. sub_step. split; [done|]. exists (GS true false (w_pos m)). split.
  { exists k, ph, true, false, (w_pos m). cbn. rewrite leave_wakes. by split_and!. }
  destruct (bell_readable (w_bell m)); [|done]. cbn. generalize (w_pos m). clear - H0. intros pos m gs [] m' Hg HI E. simplify_eq. sub_step. split; [done|].
  exists (GS true false (w_pos m)). split; [|done]. exists k, ph, true, false, (w_pos m). cbn. rewrite drain_asleep. by split_and!.
Qed.

Lemma rg_recv r fuel s :
  RG (recv_on r (fun _ p => on_ring p) (doorbell_park_hook 0) fuel s) 1 (GS false false (cursor s)) (fun _ g => g = GS false false (cursor s)).
Proof.
  apply (rg_retry _ _ fuel _ tt 1 _ (fun _ g => g = GS false false (cursor s))); [done| |done]. intros _ g ->.
  apply rg_bind. apply (rg_for_each _ _ _ _ _ _ (fun g => g = GS false false (cursor s))); [done| |].
  - intros _ g ->. apply rg_bind. eapply rg_mono; [|apply rg_try_recv]. by intros [[msg|] s'] g ->.
  - intros g ->. apply rg_bind, rg_add_waiter. intros _. apply rg_bind. eapply rg_mono; [|apply rg_try_recv].
    intros [[msg|] s'] g ->; cbn [fst].
    + apply rg_bind, rg_remove_waiter. by intros _.
    + apply rg_bind. eapply rg_mono; [|apply rg_park]. intros _ g ->. apply rg_bind, rg_remove_waiter. by intros _.
Qed.

Lemma rg_consumer r fuel j s :
  RG (consumer r (doorbell_park_hook 0) fuel j s) 1 (GS false false (cursor s)) (fun _ g => exists pos, g = GS false false pos).
Proof.
  revert s. induction j as [|j IH]; intros s; cbn [consumer]; [by eexists|]. apply rg_bind. eapply rg_mono; [|apply rg_recv].
  intros [[msg s']|] g ->; [|by eexists]. cbn [pbind store act rg]. intros m gs [] m' Hg HI E. simplify_eq. sub_step.
  split; [done|]. exists (GS false false (cursor s')). split; [|apply IH]. exists k, ph, false, false, (cursor s'). by split_and!.
Qed.
End proof.

(** ** The theorem *)

(** In sequentially consistent interleavings no wakeup is lost.  One publisher publishes any
    messages and rings the doorbell when it finds a waiter; one subscriber, reliable or not,
    starting anywhere, receives with [recv] and sleeps on the doorbell.  In every state in
    which the subscriber is asleep and the publisher is done, all of its messages are
    published and none is left to read at the subscriber's position.  The doorbell is any
    level-triggered descriptor; returning from a sleep for a timeout is possible at any time
    and not needed. *)
Theorem no_lost_wakeup {K} `{DoorbellLaws K} base region_len cap r m0 k0 ds fuel j s tp m a :
  init base region_len cap = Ok (r, m0) -> Z.of_nat (length ds) < U64_MAX -> bell_asleep 0 k0 = false ->
  pool_reach ([waking_publisher r doorbell_notify ds; consumer r (doorbell_park_hook 0) fuel j s], mkWake m0 k0 (cursor s)) (tp, m) ->
  bell_asleep 0 (w_bell m) = true -> tp !! 0%nat = Some (Ret a) ->
  head (w_ring m) = Z.of_nat (length ds) /\ head (w_ring m) <= w_pos m.
Proof.
  intros Hi Hlen Hk R Ha Hp.
  assert (Hm : head m0 = 0 /\ waiters m0 = 0) by (unfold init in Hi; repeat case_match; by simplify_eq/=).
  destruct (rg_reach wake_inv (fun _ _ => True) (fun _ g => match g with GP k ph => k = length ds /\ ph = PIdle | GS _ _ _ => True end)
    ltac:(done) ltac:(done) _ _ _ _ [GP 0 PIdle; GS false false (cursor s)] R) as (_ & gs & Hok & k & ph & reg & pr & pos & -> & Eh & _ & Ep & _ & Hpr & Has).
  - split; [done|]. intros [|[|i]] p g Hi' Hg; [| |done]; csimpl in *; simplify_eq.
    + eapply rg_mono; [|apply (rg_publisher r ds 0); done]. by intros _ g ->.
    + eapply rg_mono; [|apply rg_consumer]. by intros _ g [pos ->].
  - exists 0%nat, PIdle, false, false, (cursor s). cbn. rewrite Hk. destruct Hm as [-> ->]. by split_and!.
  - destruct (rg_final _ _ _ _ _ _ _ Hok Hp) as (g & Hg & Hq). csimpl in Hg. simplify_eq. destruct Hq as [-> ->].
    split; [done|]. rewrite Eh. destruct (Hpr (Has Ha)) as [|[|Hrd]]; [done|done|].
    pose proof (asleep_unreadable _ _ Ha). congruence.
Qed.

(** A subscriber that sleeps, is woken by a message, reads it and sleeps again. *)
Definition bell_ring : Ring := mkRing 2 1.
Definition bell_mem : WakeMem SimBell :=
  mkWake (mkRingMem RING_MAGIC 2 1 0 0 0 (replicate MAX_RELIABLE RELIABLE_UNUSED) (replicate 2 (mkSlot RELIABLE_UNUSED ZERO))) (mkSimBell 0 ∅) 0.
Definition bell_msg : ChunkDesc := mkChunkDesc 1 0 64 64 0 0.
Definition bell_end : list (prog (WakeMem SimBell) unit) * WakeMem SimBell :=
  pool_after (replicate 259 1%nat ++ replicate 6 0%nat ++ replicate (3 + 4 + 1 + 259) 1%nat)
    ([waking_publisher bell_ring doorbell_notify [bell_msg]; consumer bell_ring (doorbell_park_hook 0) 2 2 (mkSub 0 None)], bell_mem).

Lemma bell_end_facts : bell_asleep 0 (w_bell bell_end.2) = true /\ bell_end.1 !! 0%nat = Some (Ret tt) /\ w_pos bell_end.2 = 1.
Proof. vm_compute. repeat split. Qed.

Lemma no_lost_wakeup_witness : bell_asleep 0 (w_bell bell_end.2) = true /\ head (w_ring bell_end.2) = 1 /\ head (w_ring bell_end.2) <= w_pos bell_end.2.
Proof.
  destruct bell_end_facts as (Ha & Hp & _). split; [exact Ha|].
  refine (no_lost_wakeup 0 (required_bytes 2) 2 bell_ring (w_ring bell_mem) (w_bell bell_mem) [bell_msg] 2 2 (mkSub 0 None) bell_end.1 bell_end.2 tt
    _ _ _ _ Ha Hp); [vm_compute; reflexivity|vm_compute; reflexivity|vm_compute; reflexivity|].
  unfold bell_end. apply pool_after_reach.
Defined.

(** ** Where the timeout is needed *)

Abbreviation waiting := (prog (WakeMem SimBell) (option (Msg * Subscriber))).

Definition receiving (park : prog (WakeMem SimBell) unit) : waiting := recv_on bell_ring (fun _ p => on_ring p) park 2 (mkSub 0 None).
Definition publishing (notify : prog (WakeMem SimBell) unit) : waiting := waking_publisher bell_ring notify [bell_msg] ;;; Ret None.

Definition stolen_threads : list waiting := [publishing doorbell_notify; receiving (doorbell_park_hook 0); receiving (doorbell_park_hook 1)].
Definition stolen_end : list waiting * WakeMem SimBell :=
  pool_after (replicate 258 1%nat ++ replicate 259 2%nat ++ replicate 6 0%nat ++ replicate 7 2%nat ++ [1%nat]) (stolen_threads, bell_mem).

(** Two subscribers on one doorbell: the second empties it before the first, which has already
    looked, goes to sleep, and the first sleeps on an unread message. *)
Lemma stolen_wakeup : exists tp m, pool_reach (stolen_threads, bell_mem) (tp, m) /\
  tp !! 0%nat = Some (Ret None) /\ tp !! 2%nat = Some (Ret (Some (Sample bell_msg, mkSub 1 None))) /\
  bell_asleep 0 (w_bell m) = true /\ head (w_ring m) = 1.
Proof.
  exists stolen_end.1, stolen_end.2. split; [unfold stolen_end; apply pool_after_reach|]. vm_compute. repeat split.
Qed.

Definition missed_threads : list waiting := [publishing futex_notify; receiving (futex_park 0)].
Definition missed_end : list waiting * WakeMem SimBell :=
  pool_after (replicate 258 1%nat ++ replicate 7 0%nat ++ replicate 2 1%nat) (missed_threads, bell_mem).

(** The futex hooks: a publish between the subscriber's last look at the ring and its read of
    the futex word is not noticed. *)
Lemma missed_wakeup : exists tp m, pool_reach (missed_threads, bell_mem) (tp, m) /\
  tp !! 0%nat = Some (Ret None) /\ futex_asleep 0 (w_bell m) = true /\ head (w_ring m) = 1.
Proof.
  exists missed_end.1, missed_end.2. split; [unfold missed_end; apply pool_after_reach|]. vm_compute. repeat split.
Qed.

(** ** A store buffer *)

(** Alone and with the buffer emptied, the buffered [publish] is [publish]. *)
Lemma publish_buffered_alone {K} r d (w : WakeMem K) parked m :
  run (publish r d) (w_ring w) = Some (parked, m) ->
  run (x <- publish_buffered r d ;; fence ;;; Ret x) (mkBufMem w []) = Some (parked, mkBufMem (set_w_ring m w) []).
Proof.
  unfold publish, publish_buffered, load_head, load_own_head, buffer, fence. cbn.
  destruct (slots (w_ring w) !! slot_idx r (head (w_ring w))) as [x|]; [|done]. cbn.
  destruct (<[_ := _]> (slots (w_ring w)) !! _) as [y|]; [|done]. cbn. by intros [= <- <-].
Qed.

Abbreviation bwaiting := (prog (BufMem SimBell) (option (Msg * Subscriber))).

(** A publisher of one message, its store buffer, and a subscriber in [recv]. *)
Definition buffered_threads : list bwaiting :=
  [publisher_publish_buffered bell_ring doorbell_notify bell_msg ;;; Ret None; draining 3 ;;; Ret None; shared (receiving (doorbell_park_hook 0))].
Definition buffered_mem : BufMem SimBell := mkBufMem bell_mem [].

(** The publisher looks for waiters before the subscriber registers; its stores reach the
    memory after the subscriber has looked again. *)
Definition buffered_end : list bwaiting * BufMem SimBell :=
  pool_after (replicate 256 2%nat ++ replicate 5 0%nat ++ replicate 3 2%nat ++ replicate 3 1%nat) (buffered_threads, buffered_mem).
Definition timed_out : list bwaiting * BufMem SimBell := pool_after (replicate 6 2%nat) buffered_end.

(** The memory after the next action of thread [i]. *)
Definition next_mem {M A} (i : nat) (c : list (prog M A) * M) : option M :=
  match c.1 !! i with Some (Atomic f _) => snd <$> f c.2 | _ => None end.

Lemma pool_step_next {M A} (c c' : list (prog M A) * M) : pool_step c c' ->
  exists i, next_mem i c = Some c'.2 /\ forall j, j <> i -> c'.1 !! j = c.1 !! j.
Proof.
  intros [i R f k tp m x m' Hi Hf]. exists i. unfold next_mem. cbn. rewrite Hi, Hf. split; [done|].
  intros j Hj. by rewrite list_lookup_insert_ne.
Qed.

Lemma buffered_end_facts :
  buffered_end.1 !! 0%nat = Some (Ret None) /\ buffered_end.1 !! 1%nat = Some (Ret None) /\ length buffered_end.1 = 3%nat /\
  b_buf buffered_end.2 = [] /\ head (w_ring (b_mem buffered_end.2)) = 1 /\
  bell_asleep 0 (w_bell (b_mem buffered_end.2)) = true /\ bell_readable (w_bell (b_mem buffered_end.2)) = false.
Proof. vm_compute. repeat split. Qed.

Lemma buffered_end_next : exists m, next_mem 2 buffered_end = Some m /\
  w_ring (b_mem m) = w_ring (b_mem buffered_end.2) /\ w_bell (b_mem m) = bell_leave 0 (w_bell (b_mem buffered_end.2)).
Proof. eexists. split; [vm_compute; reflexivity|]. vm_compute. by split. Qed.

(** When two of three threads have returned, only the third can move. *)
Lemma third_moves {M A} (c c' : list (prog M A) * M) a0 a1 m1 :
  c.1 !! 0%nat = Some (Ret a0) -> c.1 !! 1%nat = Some (Ret a1) -> length c.1 = 3%nat -> next_mem 2 c = Some m1 -> pool_step c c' ->
  c'.1 !! 0%nat = c.1 !! 0%nat /\ c'.1 !! 1%nat = c.1 !! 1%nat /\ c'.2 = m1.
Proof.
  intros F0 F1 Fl E (i & Hn & Hj)%pool_step_next. destruct i as [|[|[|i]]].
  - unfold next_mem in Hn. by rewrite F0 in Hn.
  - unfold next_mem in Hn. by rewrite F1 in Hn.
  - rewrite E in Hn. injection Hn as ->. by rewrite !Hj by done.
  - unfold next_mem in Hn. by rewrite lookup_ge_None_2 in Hn by lia.
Qed.

Lemma timed_out_reach : pool_reach (buffered_end.1, buffered_end.2) (timed_out.1, timed_out.2).
Proof. rewrite <- (surjective_pairing buffered_end). unfold timed_out. apply pool_after_reach. Qed.

Lemma timed_out_fact : timed_out.1 !! 2%nat = Some (Ret (Some (Sample bell_msg, mkSub 1 None))).
Proof. vm_compute. reflexivity. Qed.

(** C28. [publish] can lose a wakeup.  It stores the head with [Release] and loads the waiters
    with [Acquire], which lets the load go first.  On a ring just created, one publisher
    publishes a message with its stores passing through a store buffer; one subscriber is in
    [recv], which registers, looks again and parks.  There is a run after which the publisher
    is done without ringing, its stores are all in memory, the message is unread and the
    subscriber is asleep on a doorbell that nobody will ring: whatever happens next is its
    own return from [poll], the timeout.  After that it receives the message.  (Without the
    buffer this cannot happen: [no_lost_wakeup].) *)
Theorem buffered_publish_loses_wakeup :
  init 0 (required_bytes 2) 2 = Ok (bell_ring, w_ring (b_mem buffered_mem)) /\
  exists tp m, pool_reach (buffered_threads, buffered_mem) (tp, m) /\
    tp !! 0%nat = Some (Ret None) /\ tp !! 1%nat = Some (Ret None) /\ b_buf m = [] /\ head (w_ring (b_mem m)) = 1 /\
    bell_asleep 0 (w_bell (b_mem m)) = true /\ bell_readable (w_bell (b_mem m)) = false /\
    (forall tp' m', pool_step (tp, m) (tp', m') ->
       tp' !! 0%nat = tp !! 0%nat /\ tp' !! 1%nat = tp !! 1%nat /\
       w_ring (b_mem m') = w_ring (b_mem m) /\ w_bell (b_mem m') = bell_leave 0 (w_bell (b_mem m))) /\
    exists tp2 m2, pool_reach (tp, m) (tp2, m2) /\ tp2 !! 2%nat = Some (Ret (Some (Sample bell_msg, mkSub 1 None))).
Proof.
  split; [vm_compute; reflexivity|]. destruct buffered_end_facts as (F0 & F1 & _ & F2 & F3 & F4 & F5).
  exists buffered_end.1, buffered_end.2. split; [unfold buffered_end; apply pool_after_reach|].
  split; [exact F0|]. split; [exact F1|]. split; [exact F2|]. split; [exact F3|]. split; [exact F4|]. split; [exact F5|].
  split.
  { intros tp m Hs. destruct buffered_end_facts as (_ & _ & Fl & _). destruct buffered_end_next as (m1 & E1 & Er & Eb).
    rewrite <- (surjective_pairing buffered_end) in Hs. destruct (third_moves _ _ _ _ _ F0 F1 Fl E1 Hs) as (H0 & H1 & E). cbn [fst snd] in H0, H1, E. subst m1. split; [exact H0|]. split; [exact H1|]. split; [exact Er|exact Eb]. }
 exists timed_out.1, timed_out.2. split; [apply timed_out_reach|apply timed_out_fact].
Qed.
